(* ===== verification/_CoqProject ===== *)
-Q . S2P
Prelude.v
Time.v
Journal.v
Dictionary.v
OwnedMap.v
Index.v
Matrix.v
OneToOne.v
OneToMany.v
ManyToMany.v
Persistence.v
MemoryPersister.v
Decimal.v
Codec.v
FilePersister.v
Stream.v
PubSub.v
Transaction.v
Mmq.v
Mmpq.v
Strings.v
Url.v
Base64.v
CompactTsv.v
OwnedBorrowed.v
WaitableAtomic.v
StreamPublisher.v
RemoteStream.v
Replicator.v
Replication.v
MasterFlip.v
StdMap.v
State.v
Tcp.v
GroupByLines.v
HttpDate.v
HttpHeaders.v
HttpMessage.v
HttpParsing.v
HttpConnection.v
HttpRoundTrip.v
HttpRoutes.v
HttpServer.v
HttpClient.v
HttpExchange.v
RestTypes.v
RestKeys.v
RestPlain.v
RestStructured.v
RestApi.v
RestRoutes.v
RestSound.v
RestRequests.v
RestPages.v
RestOverHttp.v
FnCasArith.v
FnCasNode.v
FnCasDiff.v
FnCasSymbolic.v
FnCasWalk.v
FnCasDerivative.v
FnCasGradient.v
X64.v
FnCasJit.v
FnCasJitProof.v
Reflection.v
Json.v
JsonRoundTrip.v
JsonText.v
StorageProperties.v
StreamProperties.v
QueueProperties.v
TextProperties.v
HttpProperties.v
SyncProperties.v
ReplicationProperties.v
HttpServerProperties.v
RestProperties.v
FnCasProperties.v
JsonProperties.v
