(* ===== verification/Prelude.v ===== *)
(** * Verification of Current

    Current is a C++ framework for event-driven applications: an append-only
    typed log with time stamps (a _stream_) that can be persisted to memory or
    to a file and subscribed to, and a transactional in-memory _storage_ that is
    kept in a stream.  This development models its core and proves it correct.
    File names below are relative to src/.

    ** The program and its model

    - Time (bricks/time/chrono.h) gives strictly increasing time stamps to all
      the other parts.  Time.v: [Clock] is the interface ([Now]); [MockNow] is
      the clock of tests and [EpochClock] the production clock, with its
      compare-and-swap loop as the step relation [now_step].
    - A persister (blocks/ss/persister.h) stores entries, numbered from zero and
      with increasing time stamps, and a _head_ time at or after the last one.
      Persistence.v has the data, the errors, the abstract log ([log_publish],
      [log_update_head], [log_iterate], ...), the interface [Persister] and its
      laws [PersisterSound].  MemoryPersister.v (blocks/persistence/memory.h)
      and FilePersister.v (blocks/persistence/file.h) are the implementations,
      each an instance of the laws.  The file persister is modelled on the bytes
      of the file, with the offsets kept in memory; Decimal.v has the numbers of
      its head directives, and Codec.v a codec that shows that the laws asked of
      the JSON library can hold.
    - A stream (stream/stream.h, stream/stream_impl.h, blocks/ss/pubsub.h) adds
      subscriptions.  Stream.v: the subscriber thread
      ([SubscriberThreadInstance::ThreadImpl]) is the function [thread_step];
      [system_step] interleaves it with publishers, head updates and
      termination.  The proofs use the interface [PersisterSound] only.
      PubSub.v: subscribing over HTTP (stream/pubsub.h and the range selection
      of [ServeDataViaHTTP]).
    - The storage (storage/) is a set of containers changed inside transactions.
      Every change is logged in a journal (Journal.v: storage/base.h,
      storage/transaction.h) as an event, to be persisted, and as a closure, to
      be rolled back.  [JournaledField] is what a container offers and
      [JournaledFieldSound] what it promises.  Dictionary.v, OneToOne.v,
      OneToMany.v and ManyToMany.v are the containers (storage/container/), the
      last three on the shared OwnedMap.v (the map of unique pointers, with its
      heap), Index.v (the forward and transposed indexes, which hold bare
      pointers) and Matrix.v (the events and closures they have in common).
      Transaction.v has the transactions (storage/transaction_policy.h), and the
      master and following storages over a stream (storage/persister/stream.h).
    - In-memory queues between threads (blocks/mmq/): Mmq.v is the circular
      buffer with any number of publishers and one consumer, as a step relation
      with one step per critical section; Mmpq.v is the priority queue.
    - Text: Strings.v (bricks/strings/split.h and join.h), Url.v
      (blocks/url/url.h), Base64.v (bricks/util/base64.h), CompactTsv.v (the
      packed form of tables of compact_tsv/compact_tsv.h, byte by byte).
    - Owned and borrowed objects (bricks/sync/owned_borrowed.h) are how streams,
      publishers and subscribers share objects across threads.  OwnedBorrowed.v:
      the instances are in a heap, each with its table of borrowers; owners and
      borrowers are weak pointers into it; the destructor of an instance runs in
      the stages the code has, interleaved with everything else.
      StreamPublisher.v is the publisher of a stream, which is handed over with
      them ([BecomeFollowingStream], [BecomeMasterStream] of stream/stream.h).
    - Waitable atomics (bricks/sync/waitable_atomic.h) are data that threads wait
      on.  WaitableAtomic.v: the mutex, the threads in the condition variable with
      their predicates, and, for intrusive ones, the clients that are counted and
      the stages of the destructor that waits for them.
    - Replication (stream/replicator.h).  RemoteStream.v: the URLs a follower
      asks for, read back by the request parser of PubSub.v.  Replicator.v: the
      subscriber to a remote stream, with its parser of chunks, and the
      replicator that publishes what it receives.  Replication.v composes them
      with a persister, the endpoint of PubSub.v and connections that break
      anywhere.  MasterFlip.v: the controller that exchanges master and
      follower.
    - HTTP (bricks/net/).  StdMap.v is [std::map] with a comparator that is
      not equality and GroupByLines.v the cutting of text into lines
      (bricks/strings/group_by_lines.h).  Tcp.v is a connection
      (bricks/net/tcp/): the program reads what the peer sends in pieces of any
      size, and a program that uses a connection is a computation in the monad
      of State.v, whose [keeps] logic proves invariants of such programs.
      HttpHeaders.v has headers and cookies (http/headers/), with the vector
      and the map of pointers the class keeps; HttpMessage.v the codes, MIME
      types and the parser of requests and answers with its growing buffer
      (http/impl/server.h); HttpParsing.v and HttpRoundTrip.v its proofs;
      HttpConnection.v the responses, whole and chunked.  HttpRoutes.v is the
      table of handlers (blocks/http/impl/server.h), HttpServer.v the loop that
      serves connections and the scopes that register routes and static files,
      HttpClient.v the client (blocks/http/impl/posix_client.h, api.h) with its
      redirections, and HttpExchange.v puts client and server together.
      HttpDate.v has the dates of HTTP headers (bricks/time/chrono.h), with the
      calendar of the C library.
    - The RESTful interface of a storage (storage/api.h, storage/rest/).
      RestTypes.v has what requests and responses carry and the interfaces
      [RestImpl] (the template parameter [REST_IMPL]), [RestField] (what a field
      of a storage offers) and [RestJSON]; RestKeys.v the keys of URLs;
      RestPlain.v, RestStructured.v the implementations [Plain], [Simple] and
      [Hypermedia], in which a handler that runs inside a transaction is a tree
      of looks at the field and changes of it; RestApi.v runs them in the
      transactions of Transaction.v and registers them with the server of
      HttpRoutes.v.  RestRoutes.v is about the registration, RestSound.v has the
      laws [RestImplSound] of the implementations, with a proof for each of the
      three, RestRequests.v sequences of requests against an abstract map of
      resources, RestPages.v pages and shards of a collection, and
      RestOverHttp.v the interface behind the server and the client.
    - FnCAS (fncas/) differentiates functions and compiles them.  FnCasArith.v
      has its operations and functions over any [Arithmetic], with two
      instances: the real numbers, and 64-bit floating point words.  FnCasNode.v
      is the vector of nodes that a function is recorded in, with the evaluation
      of a node and its cache (fncas/fncas/node.h), and shows that the evaluation
      with a stack is the recursive one.  FnCasDiff.v is the
      differentiation of a node, with its simplifications and caches, and the
      gradient (fncas/fncas/differentiate.h); FnCasSymbolic.v has the meaning of
      nodes in any [Algebra] and the rules, FnCasWalk.v the loop and the
      functions that users write, FnCasDerivative.v derivatives of real
      functions, FnCasGradient.v puts these together and counts the rounds.  X64.v has the bytes of the machine instructions
      (fncas/x64_native_jit/) and a processor that decodes and runs them,
      FnCasJit.v the compiler (fncas/fncas/jit.h), FnCasJitProof.v its proof.
    - The type system (typesystem/) describes the types of a program and writes
      their values as JSON.  Reflection.v: types as data, with their values, their
      names and the identifiers that are computed from their structure with
      checksums (bricks/util/crc32.h).  Json.v: [Serialize] and [Deserialize] of
      every type in every format, with patches (typesystem/serialization/json/);
      JsonRoundTrip.v that they are inverse and that what is read is a value of
      its type; JsonText.v texts and patches, and the JSON of index lines and time
      stamps (blocks/ss/idx_ts.h), which implements the interfaces [LogCodec] and
      [TsCodec] of Persistence.v.

    Definitions have the names of the C++ ones where they can.  A C++ object is
    a record with the fields of the class; a method is a function from the old
    object to the new one, in the error monad [outcome] below if it can throw.
    Events, closures, requests and responses are inductive types.

    ** What is proved

    The main theorems are in the files whose names end in Properties; each comes
    with a concrete run that satisfies its hypotheses.

    - StorageProperties.v: a transaction that throws or asks for a rollback
      leaves every field as it was, and one that returns leaves the fields its
      function did and is in the stream; each container does what its abstract map
      or relation does and never follows a dangling pointer; replaying the stream
      rebuilds the storage; a follower stays in step with its master and can replace it.
    - StreamProperties.v: the clock never repeats itself; both persisters
      implement the abstract log, with its errors; reopening a file gives back
      the state of the persister that wrote it; opening any file terminates and
      accepts only well-formed ones; a subscriber is called with the entries
      of its type, consecutively, and with increasing times, its thread never
      fails, and blocks only when it has seen everything.
    - HttpProperties.v: a request receives exactly the entries its parameters
      select, and unchecked and checked subscriptions send the same for an entry.
      Requests and replication are modelled with checked subscriptions.
    - QueueProperties.v: messages are consumed in order, each once and intact;
      waiting threads have a reason to wait; the priority queue is in order of
      time and holds nothing that is due.
    - TextProperties.v: a URL, Base64, joined text and a packed table survive a
      round trip; the in-place split is the plain split and restores the buffer.
    - SyncProperties.v: a borrower that can be dereferenced points at an object
      that exists, the destructor of an owner ends once nothing is borrowed, and
      a stream that becomes a master or a follower has no publisher left outside;
      a thread that waits for a change of an object is woken by it, and an
      intrusive object is destroyed after its clients have left, which they can.
    - ReplicationProperties.v: whatever the connections do, a replica is a prefix
      of its master, can always catch up, and is the master when nothing is on
      the way; how the data is cut into chunks does not matter; a flip moves the
      whole stream to the new master, only for the right key and within its
      limits, and at most once.
    - HttpServerProperties.v: a server answers every request that is sent with
      the right handler's response, and then serves the next one; what a client
      asks is what the handler is given and what the handler says is what the
      client is given, whole or in chunks, however the bytes are cut on the way;
      the longest registered path wins, with the rest of the path as arguments;
      the class of headers is a list of headers with its lookup by
      case-insensitive name; a scope of static files serves them and leaves the
      routes as they were; a client that follows redirections stops.
    - RestProperties.v: requests to a field of a storage are operations on a map
      of resources, are answered with the right codes and are in the stream
      afterwards; what is PUT over HTTP is what a GET over HTTP gives; of two
      conditional changes of a resource that was read once, one is refused; a
      date that the server sends is the condition it understands; the routes
      that are registered are those that answer, and are gone afterwards; the
      next pages visit all of a collection, and the shards of an export
      partition it.
    - FnCasProperties.v: evaluating the nodes that differentiation records gives
      the partial derivatives of the recorded function; differentiation ends
      with any arithmetic; the machine code compiled for a function and its
      gradient computes what evaluating the nodes does, byte for byte on the
      processor of X64.v.
    - JsonProperties.v: what is written as JSON is read back, in the same format
      or in another one that reads it; whatever is parsed, the result is a value
      of its type; what a patch does to each field of a struct; JSON has the laws
      that logs ask of a codec; the identifier of a type tells its kind.

    The theorems about behaviour that is not what the code means to do are at the
    end of each of these files: a rollback reported after the transaction was
    persisted, a subscriber that spins, a queue whose [Publish] returns another
    message's index, times that go back in a queue that blocks, messages lost in
    the priority queue, bytes above 127 in URLs, an array left open over HTTP, a
    borrower that its owner waits for after it was assigned to, a hand-over that
    waits for a publisher which waits for it, a waiting thread that changes the
    data and tells no one, a client that notifies a destroyed object, a wait with a
    timeout that a destructor does not end, a thread that waits on an object that is
    destroyed under it, a follower that reconnects to an
    idle master forever, a wrong key that locks a stream, a size of a chunk that
    ends the server, a header removed under another spelling that leaves a
    dangling pointer, as does an assignment of headers, an alias that fails to
    register and is switched off and on later anyway, pages of no entries
    whose next page is the page itself, differentiation that takes exponential
    time, a negative zero that changes what was recorded with zero, an assertion
    that allows a call of the wrong function, a format that [ParseJSON] does not
    pass on, sets and maps that a patch does not leave alone, and a case of a
    variant that loses what it inherits.

    ** Choices, bounds and fuel

    - Time stamps are integers, with explicit hypotheses that they fit in 64
      bits where the code would overflow; indexes are natural numbers, with
      [log_fits] saying that an index is below the reserved 2^64 - 1.
      Conversions and subtractions that wrap around are written out.  Where a time
      stamp is followed by the next one (the clock, and the entry expected next in
      a file) the model has no bound: it differs from the code only after
      2^63 - 1 microseconds, in the year 294247.
    - A failed [CURRENT_ASSERT] and a dangling dereference stop the model with a
      [fault]; the theorems show that neither happens.
    - Loops are structural, or have a fuel that is shown or chosen to be enough:
      reading a file takes at most one step per byte, so its fuel is the length
      of the contents and [file_open_terminates] shows that it suffices for any
      contents; the range-based loop over iterators takes end - begin steps;
      draining the Base64 buffer takes fewer steps than it has bits, and the
      in-place split one step per character and a last one.
    - Critical sections are atomic steps.  A wait on a condition variable is a
      step that is enabled when its predicate holds, but in WaitableAtomic.v,
      which is about this: there a thread is blocked until it is notified, or
      wakes up by itself, and then looks at its predicate again.
    - The files on logs and streams take serialization as a parameter ([LogCodec],
      with its laws in [LogCodecSound]: parsing inverts printing, the output is on
      one line).  JsonText.v implements it with the JSON of Json.v, which has
      these laws for the indexes and times that fit in 64 bits.
    - RapidJSON is a parameter, with the law that it parses what it has written,
      for doubles that survive this.  So are the default constructors, what a move
      leaves in an object and the order of keys, as the types of a program define
      them.
    - The order of iteration over hash maps is not modelled.
    - The buffer of the HTTP parser grows by a factor that is a parameter of the
      program ([double], 1.95 by default); the model asks that the growth is at
      least one byte and at most doubles it.  Texts are at most 2^60 bytes, so
      that no size overflows.  A peer is a list of the pieces it sends; a
      handler is a function from the request to the calls it makes on it.
      A client follows at most one redirection per URL it has not seen, which
      is the fuel of [go_loop], and [client_redirects_end] shows it suffices.
    - The types of the fields of a storage, their keys and briefs are parameters
      of the RESTful interface, and so is their JSON, with the law that parsing
      inverts printing.  The hash of a key is any function.
    - Derivatives are those of exact arithmetic: with rounding a derivative has
      no meaning.  What does not depend on exactness, that differentiation ends
      and that compiled and evaluated values are the same bits, is shown for any
      arithmetic.  The functions of the C library are a part of the arithmetic.
      Where C++ leaves the order of evaluation of arguments open, the model
      evaluates from left to right.  The evaluation loop has three rounds for
      each node as its fuel, and the differentiation loop [diff_rounds], which
      is shown to be exact.

    ** What is not modelled, and why

    Of the type system: types that refer to themselves, unordered containers,
    the generators of schemas in other languages, and what an exception leaves
    in the destination of a parser; RapidJSON; the sockets themselves (the
    operating system's), failures of the operating system to write, RipCurrent
    (templates that connect blocks at compile time), Karl, the optimizers of
    FnCAS (their results depend on rounding) and its back ends that run an
    assembler or a compiler, plotting and other tools. Of the RESTful API: the
    responses that describe schemas (reflection), and the fields that are one-
    to-one or one-to-many matrices, as instances of [RestField]. Of the modelled
    files: the unchecked subscriber thread (stream/stream.h), filling C++
    structures from URL parameters and URL path arguments (blocks/url/url.h),
    the schema, size and termination requests of [ServeDataViaHTTP], the move
    assignment of an owner (bricks/sync/owned_borrowed.h), [UseAsLock]
    (bricks/sync/waitable_atomic.h), which names a mutex of the data, and the user's
    callback in the destructor of an intrusive object. *)

(** * Shared vocabulary *)

From stdpp Require Import base gmap list strings.
From Stdlib Require Import ZArith Lia.

(** ** Outcomes: a computation either returns or stops with an error *)

Inductive outcome (E A : Type) : Type :=
| Ok (a : A)
| Throw (e : E).
Arguments Ok {E A} a.
Arguments Throw {E A} e.

Global Instance outcome_ret {E} : MRet (outcome E) := λ A a, Ok a.
Global Instance outcome_bind {E} : MBind (outcome E) := λ A B f m,
  match m with Ok a => f a | Throw e => Throw e end.
Global Instance outcome_fmap {E} : FMap (outcome E) := λ A B f m,
  match m with Ok a => Ok (f a) | Throw e => Throw e end.

Definition is_ok {E A} (m : outcome E A) : Prop := ∃ a, m = Ok a.

(** Two outcomes correspond: both return, related values, or both stop with
    the same error. *)
Definition outcome_rel {E A B} (R : A → B → Prop) (m : outcome E A) (n : outcome E B) : Prop :=
  match m, n with
  | Ok a, Ok b => R a b
  | Throw e, Throw e' => e = e'
  | _, _ => False
  end.

(** The two ways the modelled C++ can stop in the middle of an operation: a
    failed [CURRENT_ASSERT], and a dereference of a pointer whose object is
    gone (undefined behaviour). *)
Inductive fault :=
| AssertionFailed
| DanglingDereference.

Global Instance fault_eq_dec : EqDecision fault.
Proof. solve_decision. Defined.

(** [CURRENT_ASSERT(expr)], port.h:291.  A failed assertion prints a message and,
    except in paranoic builds, goes on; the model stops there, and the theorems
    show that no assertion fails. *)
Definition CURRENT_ASSERT (b : bool) : outcome fault () :=
  if b then Ok () else Throw AssertionFailed.

(** [it->second] for an iterator that has just been compared with [end()]. *)
Definition assert_found {A} (o : option A) : outcome fault A :=
  match o with Some a => Ok a | None => Throw AssertionFailed end.

(** ** Time stamps: [std::chrono::microseconds], a signed 64-bit count *)

Abbreviation microseconds := Z.

Definition int64_min : Z := (- 2 ^ 63)%Z.
Definition int64_max : Z := (2 ^ 63 - 1)%Z.
Definition in_int64 (z : Z) : Prop := (int64_min ≤ z ≤ int64_max)%Z.

(** ** Automation *)

Create HintDb current.

Ltac inv_ok :=
  repeat match goal with
  | H : Ok _ = Ok _ |- _ => injection H as H; subst
  | H : Throw _ = Ok _ |- _ => discriminate H
  | H : Ok _ = Throw _ |- _ => discriminate H
  | H : Throw _ = Throw _ |- _ => injection H as H; subst
  | H : mbind _ ?m = Ok _ |- _ => destruct m eqn:?; simpl in H
  | H : (_, _) = (_, _) |- _ => injection H as H; subst
  end.

(** Apply a law of a class once its instances are resolved. *)
Ltac use_law t := let H := fresh in pose proof t as H; apply H; clear H.

(** Reduce lookups in updated maps by deciding every key comparison. *)
Ltac map_cases :=
  repeat first
    [ progress simplify_eq/=
    | rewrite lookup_insert in *
    | rewrite lookup_delete in *
    | case_decide ].

(** ** Lists *)

Section list_lemmas.
Context {A : Type}.

Lemma foldl_app_l {B} (f : B → A → B) (b : B) (l1 l2 : list A) :
  foldl f b (l1 ++ l2) = foldl f (foldl f b l1) l2.
Proof. apply foldl_app. Qed.

Lemma last_cons_Some (x : A) (l : list A) : is_Some (last (x :: l)).
Proof. revert x. induction l as [|y l IH]; intros x; [by eexists|]. by rewrite last_cons_cons. Qed.
End list_lemmas.

(** ** Maps *)

Section map_lemmas.
Context `{Countable K} {A : Type}.
Implicit Type m : gmap K A.

Lemma delete_is_Some m k k' : is_Some (delete k m !! k') → k' ≠ k ∧ is_Some (m !! k').
Proof. rewrite lookup_delete. case_decide; [by intros []|auto]. Qed.

(** Deleting a key is filtering out its entry. *)
Lemma delete_is_filter (P : K * A → Prop) `{!∀ x, Decision (P x)} m k :
  (∀ x, ¬ P (k, x)) → (∀ k' x, m !! k' = Some x → k' ≠ k → P (k', x)) →
  delete k m = filter P m.
Proof.
  intros Hk Hothers. apply map_eq. intros k'. apply option_eq. intros y.
  rewrite map_lookup_filter_Some, lookup_delete.
  case_decide; subst; [|split; [|by intros []]].
  - split; [done|]. intros [_ []%Hk].
  - intros Hy. split; [done|]. by apply Hothers.
Qed.
End map_lemmas.
