(* ===== verification/Time.v ===== *)
(** * Time: bricks/time/chrono.h

    The two clocks of the library.  [MockNow] is the [CURRENT_MOCK_TIME] build:
    a settable counter.  [EpochClock] is the production clock
    ([EpochClockGuaranteeingMonotonicity]), which turns an arbitrary system
    clock into a strictly increasing one with a compare-and-swap loop; it is
    modelled both as a sequential function and, for several threads, as a step
    relation.  The class [Clock] is what the storage containers rely on. *)

From stdpp Require Import base gmap list sorting.
From Stdlib Require Import ZArith Lia Sorted.
From S2P Require Import Prelude.
Open Scope Z_scope.

(** ** The interface *)

(** [Now] returns a time stamp; [ck_low] bounds from below everything the clock
    may still return, so the sequence of returned stamps never decreases. *)
Class Clock (CK : Type) := {
  Now : CK → microseconds * CK;
  ck_low : CK → microseconds;
  Now_low : ∀ ck, ck_low ck ≤ fst (Now ck);
  Now_next : ∀ ck, fst (Now ck) ≤ ck_low (snd (Now ck));
}.

Lemma Now_low_next `{Clock CK} (ck ck' : CK) now : Now ck = (now, ck') → ck_low ck ≤ ck_low ck'.
Proof. intros E. pose proof (Now_low ck). pose proof (Now_next ck). rewrite E in *. simpl in *. lia. Qed.

(** The production clock never returns the same stamp twice. *)
Class StrictClock (CK : Type) `{!Clock CK} := {
  Now_strict : ∀ ck, fst (Now ck) < ck_low (snd (Now ck));
}.

(** ** The mock clock *)

Module MockNow.

Record MockNowImpl := mkMockNow {
  mock_now_value : microseconds;
  max_mock_now_value : microseconds;
}.

Inductive set_now_error := InconsistentSetNowException (was attempted : microseconds).

Definition mock_Now (impl : MockNowImpl) : microseconds * MockNowImpl :=
  let now := mock_now_value impl in
  (now, if bool_decide (mock_now_value impl < max_mock_now_value impl)
        then mkMockNow (mock_now_value impl + 1) (max_mock_now_value impl)
        else impl).

Definition SetNow (us max_us : microseconds) (impl : MockNowImpl)
    : outcome set_now_error MockNowImpl :=
  if bool_decide (mock_now_value impl ≤ us)
  then Ok (mkMockNow us max_us)
  else Throw (InconsistentSetNowException (mock_now_value impl) us).

Definition ResetToZero (impl : MockNowImpl) : MockNowImpl :=
  mkMockNow 0 (1000 * 1000 * 1000).

#[global] Program Instance mock_clock : Clock MockNowImpl := {
  Now := mock_Now;
  ck_low := mock_now_value;
}.
Next Obligation. intros impl. simpl. lia. Qed.
Next Obligation. intros impl. unfold mock_Now. case_bool_decide; simpl; lia. Qed.

End MockNow.

(** ** The production clock *)

Module EpochClock.

(** [system_clock] is the sequence of readings of [std::chrono::system_clock],
    about which nothing is assumed; [reads] counts the readings taken. *)
Record EpochClockGuaranteeingMonotonicity := mkEpochClock {
  system_clock : nat → Z;
  reads : nat;
  monotonic_now_us : Z;
}.

(** The value one turn of the loop tries to store. *)
Definition next_now (reading previous_now : Z) : Z :=
  if bool_decide (previous_now < reading) then reading else previous_now + 1.

Definition epoch_Now (c : EpochClockGuaranteeingMonotonicity)
    : microseconds * EpochClockGuaranteeingMonotonicity :=
  let now := next_now (system_clock c (reads c)) (monotonic_now_us c) in
  (now, mkEpochClock (system_clock c) (S (reads c)) now).

Lemma next_now_lt reading previous_now : previous_now < next_now reading previous_now.
Proof. unfold next_now. case_bool_decide; lia. Qed.

#[global] Program Instance epoch_clock : Clock EpochClockGuaranteeingMonotonicity := {
  Now := epoch_Now;
  ck_low c := monotonic_now_us c + 1;
}.
Next Obligation.
  intros c. simpl.
  pose proof (next_now_lt (system_clock c (reads c)) (monotonic_now_us c)). lia.
Qed.
Next Obligation. intros c. simpl. lia. Qed.

#[global] Instance epoch_strict : StrictClock EpochClockGuaranteeingMonotonicity.
Proof. split. intros c. simpl. lia. Qed.

(** *** Several threads calling [Now] at once

    A thread that runs the loop is either about to read the system clock, about
    to load the atomic, or about to compare-and-swap.  [cs_returned] is the
    history of the values returned, the most recent one first. *)

Inductive pc :=
| AtLoop
| AtLoad (reading : Z)
| AtCAS (previous_now now : Z).

Record cstate := mkC {
  cs_now_us : Z;
  cs_threads : gmap nat pc;
  cs_returned : list Z;
}.

Inductive now_step : cstate → cstate → Prop :=
| step_call t s :
    cs_threads s !! t = None →
    now_step s (mkC (cs_now_us s) (<[t := AtLoop]> (cs_threads s)) (cs_returned s))
| step_read t reading s :
    cs_threads s !! t = Some AtLoop →
    now_step s (mkC (cs_now_us s) (<[t := AtLoad reading]> (cs_threads s)) (cs_returned s))
| step_load t reading s :
    cs_threads s !! t = Some (AtLoad reading) →
    now_step s (mkC (cs_now_us s)
                    (<[t := AtCAS (cs_now_us s) (next_now reading (cs_now_us s))]> (cs_threads s))
                    (cs_returned s))
| step_cas_ok t previous_now now s :
    cs_threads s !! t = Some (AtCAS previous_now now) →
    cs_now_us s = previous_now →
    now_step s (mkC now (delete t (cs_threads s)) (now :: cs_returned s))
| step_cas_retry t previous_now now s :
    cs_threads s !! t = Some (AtCAS previous_now now) →
    cs_now_us s ≠ previous_now →
    now_step s (mkC (cs_now_us s) (<[t := AtLoop]> (cs_threads s)) (cs_returned s)).

Definition cinit (n : Z) : cstate := mkC n ∅ [].

(** The atomic holds the last value returned, the history is strictly
    decreasing into the past, and every pending swap would increase the value
    it expects to find. *)
Record cinv (n0 : Z) (s : cstate) : Prop := {
  inv_head : cs_now_us s = default n0 (head (cs_returned s));
  inv_sorted : StronglySorted (λ x y, y < x) (cs_returned s ++ [n0]);
  inv_cas : ∀ t p n, cs_threads s !! t = Some (AtCAS p n) → p < n;
}.

Lemma cinv_step n0 s s' : cinv n0 s → now_step s s' → cinv n0 s'.
Proof.
  intros [Hh Hs Hc] Hstep.
  destruct Hstep as [t s Ht|t r s Ht|t r s Ht|t p n s Ht Hp|t p n s Ht Hp];
    split; simpl; try done.
  - intros t' p n H'. map_cases; eauto.
  - intros t' p n H'. map_cases; eauto.
  - intros t' p n H'. map_cases; eauto using next_now_lt.
  - constructor; [done|]. apply Hc in Ht. rewrite Hh in Hp. subst p.
    destruct (cs_returned s) as [|x l]; simpl in *.
    + constructor; [done|constructor].
    + apply StronglySorted_inv in Hs as [_ Hall].
      constructor; [done|]. eapply Forall_impl; [exact Hall|]. simpl. lia.
  - intros t' p' n' H'. map_cases; eauto.
  - intros t' p' n' H'. map_cases; eauto.
Qed.

Lemma cinv_reachable n0 s : rtc now_step (cinit n0) s → cinv n0 s.
Proof.
  intros H. remember (cinit n0) as s0 eqn:E.
  assert (cinv n0 s0) as Hi.
  { subst. split; simpl; [done|repeat constructor|intros ? ? ?; by rewrite lookup_empty]. }
  clear E. induction H; eauto using cinv_step.
Qed.

End EpochClock.
