(* ===== verification/Journal.v ===== *)
(** * The mutation journal: storage/base.h and storage/transaction.h

    Every storage container writes each change it makes twice into a journal
    shared by all the fields of the storage: the event that describes it, which
    is persisted when the transaction commits, and a closure that undoes it,
    which is run when the transaction is rolled back.

    The closures are kept as data: a container declares the type of the closures
    it creates and the function that runs one, and captures itself ([this]) with
    an injection into the closure type of the whole storage.

    [JournaledField] is the interface a container offers to the transaction
    layer and [JournaledFieldSound] what it promises: what it logs is enough to
    redo the change on a replica and enough to undo it. *)

From stdpp Require Import base gmap list strings.
From Stdlib Require Import ZArith Lia.
From S2P Require Import Prelude Time.
Open Scope Z_scope.

Record TransactionMeta := mkMeta {
  begin_us : microseconds;
  end_us : microseconds;
  meta_fields : gmap string string;
}.

Definition TransactionMeta_init : TransactionMeta := mkMeta 0 0 ∅.

(** [struct Transaction]: what is published to the stream. *)
Record Transaction (EV : Type) := mkTransaction {
  meta : TransactionMeta;
  mutations : list EV;
}.
Arguments mkTransaction {EV} meta mutations.
Arguments meta {EV} _.
Arguments mutations {EV} _.

Record MutationJournal (EV RB : Type) := mkJournal {
  transaction_meta : TransactionMeta;
  commit_log : list EV;
  rollback_log : list RB;
}.
Arguments mkJournal {EV RB} _ _ _.
Arguments transaction_meta {EV RB} _.
Arguments commit_log {EV RB} _.
Arguments rollback_log {EV RB} _.

Section Journal.
Context {EV RB : Type}.
Implicit Type j : MutationJournal EV RB.

Definition LogMutation (entry : EV) (rollback : RB) j : MutationJournal EV RB :=
  mkJournal (transaction_meta j) (commit_log j ++ [entry]) (rollback_log j ++ [rollback]).

Definition BeforeTransaction `{Clock CK} (ck : CK) j : CK * MutationJournal EV RB :=
  let '(now, ck') := Now ck in
  let m := transaction_meta j in
  (ck', mkJournal (mkMeta now (end_us m) (meta_fields m)) (commit_log j) (rollback_log j)).

Definition AfterTransaction `{Clock CK} (ck : CK) j : CK * MutationJournal EV RB :=
  let '(now, ck') := Now ck in
  let m := transaction_meta j in
  (ck', mkJournal (mkMeta (begin_us m) now (meta_fields m)) (commit_log j) (rollback_log j)).

Definition Clear j : MutationJournal EV RB := mkJournal (mkMeta 0 0 ∅) [] [].

(** The closures run against the fields of the storage, last one first. *)
Definition run_rollbacks {F} (run : RB → F → F) (rbs : list RB) (fields : F) : F :=
  foldl (λ f rb, run rb f) fields (rev rbs).

Definition Rollback {F} (run : RB → F → F) (fields : F) j : F * MutationJournal EV RB :=
  (run_rollbacks run (rollback_log j) fields, Clear j).

End Journal.

Section AssertEmpty.
Context {EV RB : Type}.
Implicit Type j : MutationJournal EV RB.

Definition AssertEmpty j : outcome fault () :=
  _ ← CURRENT_ASSERT (begin_us (transaction_meta j) =? 0);
  _ ← CURRENT_ASSERT (end_us (transaction_meta j) =? 0);
  _ ← CURRENT_ASSERT (bool_decide (meta_fields (transaction_meta j) = ∅));
  _ ← CURRENT_ASSERT (match commit_log j with [] => true | _ => false end);
  CURRENT_ASSERT (match rollback_log j with [] => true | _ => false end).

Definition SetTransactionMetaField (key value : string) j : MutationJournal EV RB :=
  let m := transaction_meta j in
  mkJournal (mkMeta (begin_us m) (end_us m) (<[key := value]> (meta_fields m)))
            (commit_log j) (rollback_log j).

Definition EraseTransactionMetaField (key : string) j : MutationJournal EV RB :=
  let m := transaction_meta j in
  mkJournal (mkMeta (begin_us m) (end_us m) (delete key (meta_fields m)))
            (commit_log j) (rollback_log j).

Lemma AssertEmpty_iff j : AssertEmpty j = Ok () ↔ j = mkJournal (mkMeta 0 0 ∅) [] [].
Proof.
  destruct j as [[b e f] c r]. unfold AssertEmpty, CURRENT_ASSERT. simpl. split.
  - destruct (Z.eqb_spec b 0), (Z.eqb_spec e 0); simpl; try done.
    case_bool_decide; simpl; try done. destruct c, r; simpl; congruence.
  - intros [= -> -> -> -> ->]. by rewrite bool_decide_eq_true_2.
Qed.

Lemma AssertEmpty_Clear j : AssertEmpty (Clear j) = Ok ().
Proof. by apply AssertEmpty_iff. Qed.

(** What a run of mutations leaves in the journal. *)
Definition log_all (evs : list EV) (rbs : list RB) j : MutationJournal EV RB :=
  mkJournal (transaction_meta j) (commit_log j ++ evs) (rollback_log j ++ rbs).

Lemma log_all_nil j : log_all [] [] j = j.
Proof. destruct j. unfold log_all. simpl. by rewrite !app_nil_r. Qed.

Lemma log_all_app e1 r1 e2 r2 j :
  log_all e2 r2 (log_all e1 r1 j) = log_all (e1 ++ e2) (r1 ++ r2) j.
Proof. unfold log_all. simpl. by rewrite !app_assoc. Qed.

Lemma LogMutation_log_all e r j : LogMutation e r j = log_all [e] [r] j.
Proof. done. Qed.
End AssertEmpty.

(** ** The interface between a container and the transaction layer *)

(** [C] is the state of the container, [E] its events (the variants of the
    persisted transaction), [RB] its rollback closures. *)
Class JournaledField (C E RB : Type) := {
  fld_wf : C → Prop;
  fld_equiv :: Equiv C;
  fld_equivalence :: Equivalence (≡@{C});
  apply_event : E → C → C;
  undo : RB → C → C;
}.

(** [M] is the type of the mutating calls user code can make.  [exec] takes the
    injections of [E] and [RB] into the types of the whole storage. *)
Class FieldCalls (C E RB M : Type) := {
  exec : ∀ {CK : Type} {_ : Clock CK} {EV' RB' : Type},
    (E → EV') → (RB → RB') → M → CK → C → MutationJournal EV' RB' →
    outcome fault (CK * C * MutationJournal EV' RB');
}.

Section Faithful.
Context `{JournaledField C E RB}.

Definition replay (evs : list E) (c : C) : C := foldl (λ c e, apply_event e c) c evs.
Definition undo_all (rbs : list RB) (c : C) : C := run_rollbacks undo rbs c.

(** Replaying [evs] takes any replica of [c] to a replica of [c'], and running
    the closures [rbs] takes any replica of [c'] back to a replica of [c]. *)
Definition faithful_log (c c' : C) (evs : list E) (rbs : list RB) : Prop :=
  (∀ t, fld_wf t → t ≡ c → fld_wf (replay evs t) ∧ replay evs t ≡ c') ∧
  (∀ t, fld_wf t → t ≡ c' → fld_wf (undo_all rbs t) ∧ undo_all rbs t ≡ c).

Lemma undo_all_app r1 r2 c : undo_all (r1 ++ r2) c = undo_all r1 (undo_all r2 c).
Proof. unfold undo_all, run_rollbacks. by rewrite rev_app_distr, foldl_app. Qed.

Lemma replay_app e1 e2 c : replay (e1 ++ e2) c = replay e2 (replay e1 c).
Proof. apply foldl_app. Qed.

Lemma faithful_log_nil c : faithful_log c c [] [].
Proof. split; intros t Hw Ht; done. Qed.

Lemma faithful_log_app c1 c2 c3 e1 e2 r1 r2 :
  faithful_log c1 c2 e1 r1 → faithful_log c2 c3 e2 r2 →
  faithful_log c1 c3 (e1 ++ e2) (r1 ++ r2).
Proof.
  intros [Hf1 Hu1] [Hf2 Hu2]. split; intros t Hw Ht.
  - rewrite replay_app. destruct (Hf1 t Hw Ht). eauto.
  - rewrite undo_all_app. destruct (Hu2 t Hw Ht). eauto.
Qed.

(** ** What a mutating call promises

    Started on [c] with journal [j], it completes, leaves a well-formed
    container, only appends to the journal, one closure per event, and what
    it appends is faithful.  [Q] is what is known of the final state. *)
Section Calls.
Context {CK : Type} `{!Clock CK} {EV' RB' : Type}.
Context (ie : E → EV') (ir : RB → RB').
Implicit Type j : MutationJournal EV' RB'.

Definition call_ok (Q : C → Prop) (ck : CK) (c : C) j
    (r : outcome fault (CK * C * MutationJournal EV' RB')) : Prop :=
  ∃ ck' c' evs rbs,
    r = Ok (ck', c', log_all (ie <$> evs) (ir <$> rbs) j) ∧
    fld_wf c' ∧ faithful_log c c' evs rbs ∧
    length evs = length rbs ∧ ck_low ck ≤ ck_low ck' ∧ Q c'.

Lemma call_ok_none (Q : C → Prop) ck c j ck' :
  fld_wf c → ck_low ck ≤ ck_low ck' → Q c → call_ok Q ck c j (Ok (ck', c, j)).
Proof.
  intros. exists ck', c, [], []. split; [do 2 f_equal; symmetry; apply log_all_nil|].
  eauto 10 using faithful_log_nil.
Qed.

Lemma call_ok_one (Q : C → Prop) ck c j ck' c' e rb :
  fld_wf c' → faithful_log c c' [e] [rb] → ck_low ck ≤ ck_low ck' → Q c' →
  call_ok Q ck c j (Ok (ck', c', LogMutation (ie e) (ir rb) j)).
Proof. intros. by exists ck', c', [e], [rb]. Qed.

Lemma call_ok_ck Q ck ck1 c j r :
  ck_low ck ≤ ck_low ck1 → call_ok Q ck1 c j r → call_ok Q ck c j r.
Proof.
  intros Hck (ck' & c' & evs & rbs & Hr & Hw & Hf & Hl & Hck' & HQ). exists ck', c', evs, rbs.
  eauto 10 using Z.le_trans.
Qed.

Lemma call_ok_weaken (Q Q' : C → Prop) ck c j r :
  (∀ c', Q c' → Q' c') → call_ok Q ck c j r → call_ok Q' ck c j r.
Proof.
  intros HQ (ck' & c' & evs & rbs & Hr & Hw & Hf & Hl & Hck' & ?). exists ck', c', evs, rbs.
  eauto 10.
Qed.

(** A first logged step followed by the rest of the call. *)
Lemma call_ok_cons Q ck c j ck1 c1 e rb r :
  faithful_log c c1 [e] [rb] → ck_low ck ≤ ck_low ck1 →
  call_ok Q ck1 c1 (LogMutation (ie e) (ir rb) j) r → call_ok Q ck c j r.
Proof.
  intros Hf Hck (ck' & c' & evs & rbs & -> & Hw' & Hf' & Hl & Hck' & HQ).
  exists ck', c', (e :: evs), (rb :: rbs). rewrite LogMutation_log_all, log_all_app.
  split; [done|]. split; [done|].
  split; [by eapply (faithful_log_app _ _ _ [e] evs [rb] rbs)|].
  simpl. split; [congruence|]. split; [lia|done].
Qed.
End Calls.

(** For the whole storage, where nothing is injected into a larger type. *)
Lemma call_ok_explicit {CK} `{!Clock CK} Q (ck : CK) c j r :
  call_ok id id Q ck c j r →
  ∃ ck' c' evs rbs, r = Ok (ck', c', log_all evs rbs j) ∧ fld_wf c' ∧ Q c' ∧ faithful_log c c' evs rbs.
Proof.
  intros (ck' & c' & evs & rbs & -> & Hw & Hf & _ & _ & HQ). exists ck', c', evs, rbs.
  by rewrite !list_fmap_id.
Qed.
End Faithful.

#[export] Hint Resolve faithful_log_nil faithful_log_app call_ok_none call_ok_one : current.

Class JournaledFieldSound (C E RB M : Type)
    `{!JournaledField C E RB, !FieldCalls C E RB M} : Prop := {
  exec_sound : ∀ {CK} `{!Clock CK} {EV' RB'} (ie : E → EV') (ir : RB → RB') m (ck : CK) c j,
    fld_wf c → call_ok ie ir (λ _, True) ck c j (exec ie ir m ck c j);
}.

(** ** Several fields

    A storage with two groups of fields: events and closures are the sums (the
    [Variant] of the persisted types), dispatch is by constructor.  Nesting the
    product gives any number of fields. *)

Section Product.
Context `{JF1 : JournaledField C1 E1 RB1, FC1 : !FieldCalls C1 E1 RB1 M1}.
Context `{JF2 : JournaledField C2 E2 RB2, FC2 : !FieldCalls C2 E2 RB2 M2}.

Definition prod_apply (e : E1 + E2) (c : C1 * C2) : C1 * C2 :=
  match e with
  | inl e => (apply_event e c.1, c.2)
  | inr e => (c.1, apply_event e c.2)
  end.

Definition prod_undo (rb : RB1 + RB2) (c : C1 * C2) : C1 * C2 :=
  match rb with
  | inl rb => (undo rb c.1, c.2)
  | inr rb => (c.1, undo rb c.2)
  end.

Definition prod_exec {CK} `{!Clock CK} {EV' RB'} (ie : E1 + E2 → EV') (ir : RB1 + RB2 → RB')
    (m : M1 + M2) (ck : CK) (c : C1 * C2) (j : MutationJournal EV' RB')
    : outcome fault (CK * (C1 * C2) * MutationJournal EV' RB') :=
  match m with
  | inl m => '(ck', c', j') ← exec (ie ∘ inl) (ir ∘ inl) m ck c.1 j; Ok (ck', (c', c.2), j')
  | inr m => '(ck', c', j') ← exec (ie ∘ inr) (ir ∘ inr) m ck c.2 j; Ok (ck', (c.1, c'), j')
  end.

#[export] Program Instance prod_field : JournaledField (C1 * C2) (E1 + E2) (RB1 + RB2) := {
  fld_wf c := fld_wf c.1 ∧ fld_wf c.2;
  fld_equiv := λ c c', c.1 ≡ c'.1 ∧ c.2 ≡ c'.2;
  apply_event := prod_apply;
  undo := prod_undo;
}.

#[export] Instance prod_calls : FieldCalls (C1 * C2) (E1 + E2) (RB1 + RB2) (M1 + M2) := {
  exec := λ CK _ EV' RB', prod_exec;
}.

Lemma prod_replay_inl evs (c : C1 * C2) : replay (inl <$> evs) c = (replay evs c.1, c.2).
Proof. revert c. induction evs as [|e evs IH]; intros [c1 c2]; [done|]. exact (IH (apply_event e c1, c2)). Qed.
Lemma prod_replay_inr evs (c : C1 * C2) : replay (inr <$> evs) c = (c.1, replay evs c.2).
Proof. revert c. induction evs as [|e evs IH]; intros [c1 c2]; [done|]. exact (IH (c1, apply_event e c2)). Qed.
Lemma prod_undo_inl rbs (c : C1 * C2) : undo_all (inl <$> rbs) c = (undo_all rbs c.1, c.2).
Proof.
  revert c. induction rbs as [|r rbs IH] using rev_ind; intros [c1 c2]; [done|].
  rewrite fmap_app, !undo_all_app, IH. done.
Qed.
Lemma prod_undo_inr rbs (c : C1 * C2) : undo_all (inr <$> rbs) c = (c.1, undo_all rbs c.2).
Proof.
  revert c. induction rbs as [|r rbs IH] using rev_ind; intros [c1 c2]; [done|].
  rewrite fmap_app, !undo_all_app, IH. done.
Qed.

Lemma faithful_inl (c c' : C1) (d : C2) evs rbs :
  fld_wf d → faithful_log c c' evs rbs →
  faithful_log (c, d) (c', d) (inl <$> evs) (inl <$> rbs).
Proof.
  intros Hd [Hf Hu]. split; intros [t1 t2] [Hw1 Hw2] [Ht1 Ht2]; simpl in *.
  - rewrite prod_replay_inl. simpl. destruct (Hf t1 Hw1 Ht1). done.
  - rewrite prod_undo_inl. simpl. destruct (Hu t1 Hw1 Ht1). done.
Qed.
Lemma faithful_inr (c c' : C2) (d : C1) evs rbs :
  fld_wf d → faithful_log c c' evs rbs →
  faithful_log (d, c) (d, c') (inr <$> evs) (inr <$> rbs).
Proof.
  intros Hd [Hf Hu]. split; intros [t1 t2] [Hw1 Hw2] [Ht1 Ht2]; simpl in *.
  - rewrite prod_replay_inr. simpl. destruct (Hf t2 Hw2 Ht2). done.
  - rewrite prod_undo_inr. simpl. destruct (Hu t2 Hw2 Ht2). done.
Qed.

#[export] Instance prod_field_sound `{!JournaledFieldSound C1 E1 RB1 M1, !JournaledFieldSound C2 E2 RB2 M2} :
  JournaledFieldSound (C1 * C2) (E1 + E2) (RB1 + RB2) (M1 + M2).
Proof.
  split. intros CK ? EV' RB' ie ir [m|m] ck [c1 c2] j [Hw1 Hw2]; simpl in *.
  - destruct (exec_sound (ie ∘ inl) (ir ∘ inl) m ck c1 j Hw1)
      as (ck' & c' & evs & rbs & -> & Hw' & Hf & Hl & Hck & _).
    exists ck', (c', c2), (inl <$> evs), (inl <$> rbs).
    rewrite <- !list_fmap_compose, !length_fmap.
    exact (conj eq_refl (conj (conj Hw' Hw2) (conj (faithful_inl _ _ _ _ _ Hw2 Hf) (conj Hl (conj Hck I))))).
  - destruct (exec_sound (ie ∘ inr) (ir ∘ inr) m ck c2 j Hw2)
      as (ck' & c' & evs & rbs & -> & Hw' & Hf & Hl & Hck & _).
    exists ck', (c1, c'), (inr <$> evs), (inr <$> rbs).
    rewrite <- !list_fmap_compose, !length_fmap.
    exact (conj eq_refl (conj (conj Hw1 Hw') (conj (faithful_inr _ _ _ _ _ Hw1 Hf) (conj Hl (conj Hck I))))).
Qed.
End Product.
