(* ===== verification/Dictionary.v ===== *)
(** * Dictionary: storage/container/dictionary.h

    [GenericDictionary] keeps the entries ([map_]) and, for every key that was
    ever written or erased, the time of the last change ([last_modified_]).  The
    model covers the build with [CURRENT_STORAGE_PATCH_SUPPORT]; an entry type
    without patches has an empty patch type.  The [MAP] template argument picks
    [std::map] or [std::unordered_map]; only lookups are modelled, which do not
    depend on it. *)

From stdpp Require Import base gmap list strings.
From Stdlib Require Import ZArith Lia.
From S2P Require Import Prelude Time Journal.
Open Scope Z_scope.

(** [sfinae::GetKey] and the entry's own [PatchWith]. *)
Class DictEntry (T K P : Type) := {
  GetKey : T → K;
  PatchWith : P → T → T;
}.

(** A patch is addressed by the key of the entry and must not change it. *)
Class DictEntrySound (T K P : Type) `{!DictEntry T K P} : Prop := {
  PatchWith_key : ∀ p o, GetKey (PatchWith p o) = GetKey o;
}.

Record GenericDictionary (K T : Type) `{Countable K} := mkDictionary {
  map_ : gmap K T;
  last_modified_ : gmap K microseconds;
}.
Arguments mkDictionary {K T _ _} _ _.
Arguments map_ {K T _ _} _.
Arguments last_modified_ {K T _ _} _.

(** The events of one dictionary field: [entry_name##Updated], [..Deleted] and
    [..Patched], generated by the macros of storage/storage.h. *)
Inductive dict_event (K T P : Type) :=
| Updated (us : microseconds) (data : T)
| Deleted (us : microseconds) (key : K)
| Patched (us : microseconds) (key : K) (patch : P).
Arguments Updated {K T P} us data.
Arguments Deleted {K T P} us key.
Arguments Patched {K T P} us key patch.

(** The closures handed to [LogMutation], with what they capture. *)
Inductive dict_closure (K T : Type) :=
| RestoreObject (key : K) (previous_object : T) (previous_timestamp : microseconds)
| EraseRestoreTimestamp (key : K) (previous_timestamp : microseconds)
| EraseForgetTimestamp (key : K).
Arguments RestoreObject {K T} key previous_object previous_timestamp.
Arguments EraseRestoreTimestamp {K T} key previous_timestamp.
Arguments EraseForgetTimestamp {K T} key.

Inductive dict_call (K T P : Type) :=
| CallAdd (object : T)
| CallErase (key : K)
| CallPatch (key : K) (patch_object : P).
Arguments CallAdd {K T P} object.
Arguments CallErase {K T P} key.
Arguments CallPatch {K T P} key patch_object.

Section Dictionary.
Context `{Countable K} {T P : Type} `{!DictEntry T K P}.
Implicit Type d : GenericDictionary K T.

Definition Empty d : bool := bool_decide (map_ d = ∅).
Definition Size d : nat := size (map_ d).
Definition Has (x : K) d : bool := bool_decide (is_Some (map_ d !! x)).
Definition Get (key : K) d : option T := map_ d !! key.
Definition LastModified (key : K) d : option microseconds := last_modified_ d !! key.

(** [DELETE_EVENT(now, previous_object)] keeps the key of the object only. *)
Definition make_Deleted (us : microseconds) (value : T) : dict_event K T P :=
  Deleted us (GetKey value).

Definition run_closure (rb : dict_closure K T) d : GenericDictionary K T :=
  match rb with
  | RestoreObject key previous_object previous_timestamp =>
      mkDictionary (<[key := previous_object]> (map_ d))
                   (<[key := previous_timestamp]> (last_modified_ d))
  | EraseRestoreTimestamp key previous_timestamp =>
      mkDictionary (delete key (map_ d)) (<[key := previous_timestamp]> (last_modified_ d))
  | EraseForgetTimestamp key =>
      mkDictionary (delete key (map_ d)) (delete key (last_modified_ d))
  end.

(** [operator()] on the three events: how a replica follows the log. *)
Definition apply_Updated (us : microseconds) (data : T) d : GenericDictionary K T :=
  mkDictionary (<[GetKey data := data]> (map_ d)) (<[GetKey data := us]> (last_modified_ d)).
Definition apply_Deleted (us : microseconds) (key : K) d : GenericDictionary K T :=
  mkDictionary (delete key (map_ d)) (<[key := us]> (last_modified_ d)).
Definition apply_Patched (us : microseconds) (key : K) (patch : P) d : GenericDictionary K T :=
  match map_ d !! key with
  | Some o => mkDictionary (<[key := PatchWith patch o]> (map_ d)) (<[key := us]> (last_modified_ d))
  | None => d
  end.

Definition dict_apply (e : dict_event K T P) d : GenericDictionary K T :=
  match e with
  | Updated us data => apply_Updated us data d
  | Deleted us key => apply_Deleted us key d
  | Patched us key patch => apply_Patched us key patch d
  end.

Section Operations.
Context {CK : Type} `{!Clock CK} {EV RB : Type}.
(** Injections into the event and closure types of the whole storage. *)
Context (this_ev : dict_event K T P → EV) (this_rb : dict_closure K T → RB).

Definition Add (object : T) (ck : CK) d (journal_ : MutationJournal EV RB)
    : outcome fault (CK * GenericDictionary K T * MutationJournal EV RB) :=
  let '(now, ck) := Now ck in
  let key := GetKey object in
  let lm_iterator := last_modified_ d !! key in
  journal_ ←
    match map_ d !! key with
    | Some previous_object =>
        previous_timestamp ← assert_found lm_iterator;
        Ok (LogMutation (this_ev (Updated now object))
              (this_rb (RestoreObject key previous_object previous_timestamp)) journal_)
    | None =>
        match lm_iterator with
        | Some previous_timestamp =>
            Ok (LogMutation (this_ev (Updated now object))
                  (this_rb (EraseRestoreTimestamp key previous_timestamp)) journal_)
        | None =>
            Ok (LogMutation (this_ev (Updated now object))
                  (this_rb (EraseForgetTimestamp key)) journal_)
        end
    end;
  Ok (ck, mkDictionary (<[key := object]> (map_ d)) (<[key := now]> (last_modified_ d)), journal_).

Definition Erase (key : K) (ck : CK) d (journal_ : MutationJournal EV RB)
    : outcome fault (CK * GenericDictionary K T * MutationJournal EV RB) :=
  let '(now, ck) := Now ck in
  match map_ d !! key with
  | Some previous_object =>
      previous_timestamp ← assert_found (last_modified_ d !! key);
      let journal_ := LogMutation (this_ev (make_Deleted now previous_object))
                        (this_rb (RestoreObject key previous_object previous_timestamp)) journal_ in
      Ok (ck, mkDictionary (delete key (map_ d)) (<[key := now]> (last_modified_ d)), journal_)
  | None => Ok (ck, d, journal_)
  end.

(** Returns whether there was an object to patch. *)
Definition Patch (key : K) (patch_object : P) (ck : CK) d (journal_ : MutationJournal EV RB)
    : outcome fault (bool * CK * GenericDictionary K T * MutationJournal EV RB) :=
  let '(now, ck) := Now ck in
  match map_ d !! key with
  | Some previous_object =>
      previous_timestamp ← assert_found (last_modified_ d !! key);
      let journal_ := LogMutation (this_ev (Patched now key patch_object))
                        (this_rb (RestoreObject key previous_object previous_timestamp)) journal_ in
      Ok (true, ck, mkDictionary (<[key := PatchWith patch_object previous_object]> (map_ d))
                                 (<[key := now]> (last_modified_ d)), journal_)
  | None => Ok (false, ck, d, journal_)
  end.

Definition dict_exec (m : dict_call K T P) (ck : CK) d (j : MutationJournal EV RB)
    : outcome fault (CK * GenericDictionary K T * MutationJournal EV RB) :=
  match m with
  | CallAdd object => Add object ck d j
  | CallErase key => Erase key ck d j
  | CallPatch key p => '(_, ck, d, j) ← Patch key p ck d j; Ok (ck, d, j)
  end.
End Operations.

(** ** Invariant and correctness *)

(** Entries sit under their own key, and every entry has a time stamp: the
    two facts the [CURRENT_ASSERT]s and the delete events rely on. *)
Definition dict_wf d : Prop :=
  (∀ k o, map_ d !! k = Some o → GetKey o = k) ∧
  (∀ k, is_Some (map_ d !! k) → is_Some (last_modified_ d !! k)).

#[export] Program Instance dict_field :
  JournaledField (GenericDictionary K T) (dict_event K T P) (dict_closure K T) := {
  fld_wf := dict_wf;
  fld_equiv := (=);
  apply_event := dict_apply;
  undo := run_closure;
}.

#[export] Instance dict_calls :
  FieldCalls (GenericDictionary K T) (dict_event K T P) (dict_closure K T) (dict_call K T P) := {
  exec := λ CK _ EV RB, dict_exec;
}.

Lemma dict_eq d1 d2 :
  map_ d1 = map_ d2 → last_modified_ d1 = last_modified_ d2 → d1 = d2.
Proof. destruct d1, d2; simpl; congruence. Qed.

(** Storing an object under its key, or erasing a key, keeps the invariant as
    long as the key gets a time stamp. *)
Lemma dict_wf_insert d key o us :
  dict_wf d → GetKey o = key →
  dict_wf (mkDictionary (<[key := o]> (map_ d)) (<[key := us]> (last_modified_ d))).
Proof. intros [Hk Hl] Ho. split; simpl; intros k; intros; map_cases; eauto. Qed.

Lemma dict_wf_delete d key us :
  dict_wf d → dict_wf (mkDictionary (delete key (map_ d)) (<[key := us]> (last_modified_ d))).
Proof. intros [Hk Hl]. split; simpl; intros k; intros; map_cases; eauto. Qed.

Lemma dict_wf_forget d key :
  dict_wf d → dict_wf (mkDictionary (delete key (map_ d)) (delete key (last_modified_ d))).
Proof.
  intros [Hk Hl]. split; simpl; intros k; intros; map_cases; eauto.
  by destruct H0.
Qed.

Local Hint Resolve dict_wf_insert dict_wf_delete dict_wf_forget : core.

(** One logged step: an event that redoes it and a closure that undoes it. *)
Lemma dict_faithful d d' e rb :
  dict_wf d → dict_wf d' → dict_apply e d = d' → run_closure rb d' = d →
  faithful_log d d' [e] [rb].
Proof.
  intros Hw Hw' He Hr. split; intros t Ht ->; simpl.
  - by rewrite He.
  - unfold undo_all, run_rollbacks. simpl. by rewrite Hr.
Qed.

(** The three ways of undoing, against the two ways of changing an entry. *)
Lemma restore_insert d key o us po ps :
  map_ d !! key = Some po → last_modified_ d !! key = Some ps →
  run_closure (RestoreObject key po ps)
    (mkDictionary (<[key := o]> (map_ d)) (<[key := us]> (last_modified_ d))) = d.
Proof. intros Hm Hl. apply dict_eq; simpl; rewrite insert_insert_eq; by apply insert_id. Qed.

Lemma restore_delete d key us po ps :
  map_ d !! key = Some po → last_modified_ d !! key = Some ps →
  run_closure (RestoreObject key po ps)
    (mkDictionary (delete key (map_ d)) (<[key := us]> (last_modified_ d))) = d.
Proof.
  intros Hm Hl. apply dict_eq; simpl.
  - rewrite insert_delete_eq. by apply insert_id.
  - rewrite insert_insert_eq. by apply insert_id.
Qed.

Lemma erase_restore_insert d key o us ps :
  map_ d !! key = None → last_modified_ d !! key = Some ps →
  run_closure (EraseRestoreTimestamp key ps)
    (mkDictionary (<[key := o]> (map_ d)) (<[key := us]> (last_modified_ d))) = d.
Proof.
  intros Hm Hl. apply dict_eq; simpl.
  - by apply delete_insert_id.
  - rewrite insert_insert_eq. by apply insert_id.
Qed.

Lemma erase_forget_insert d key o us :
  map_ d !! key = None → last_modified_ d !! key = None →
  run_closure (EraseForgetTimestamp key)
    (mkDictionary (<[key := o]> (map_ d)) (<[key := us]> (last_modified_ d))) = d.
Proof. intros Hm Hl. apply dict_eq; simpl; by apply delete_insert_id. Qed.

Section Sound.
Context {CK : Type} `{!Clock CK} {EV RB : Type}.
Context (ie : dict_event K T P → EV) (ir : dict_closure K T → RB).
Implicit Type j : MutationJournal EV RB.

Lemma dict_step_ok (Q : GenericDictionary K T → Prop) ck d j ck' d' e rb :
  dict_wf d → dict_wf d' → dict_apply e d = d' → run_closure rb d' = d →
  ck_low ck ≤ ck_low ck' → Q d' →
  call_ok ie ir Q ck d j (Ok (ck', d', LogMutation (ie e) (ir rb) j)).
Proof. eauto using call_ok_one, dict_faithful. Qed.

Lemma Add_ok object ck d j :
  dict_wf d →
  call_ok ie ir (λ d', map_ d' = <[GetKey object := object]> (map_ d)) ck d j
    (Add ie ir object ck d j).
Proof.
  intros Hw. unfold Add. destruct (Now ck) as [now ck'] eqn:Hck. apply Now_low_next in Hck.
  destruct (map_ d !! GetKey object) as [po|] eqn:Hm.
  - destruct (proj2 Hw (GetKey object)) as [ps Hl]; [eauto|]. rewrite Hl. simpl.
    eauto using dict_step_ok, restore_insert.
  - destruct (last_modified_ d !! GetKey object) as [ps|] eqn:Hl; simpl;
      eauto using dict_step_ok, erase_restore_insert, erase_forget_insert.
Qed.

Lemma Erase_ok key ck d j :
  dict_wf d →
  call_ok ie ir (λ d', map_ d' = delete key (map_ d)) ck d j (Erase ie ir key ck d j).
Proof.
  intros Hw. unfold Erase. destruct (Now ck) as [now ck'] eqn:Hck. apply Now_low_next in Hck.
  destruct (map_ d !! key) as [po|] eqn:Hm.
  - destruct (proj2 Hw key) as [ps Hl]; [eauto|]. rewrite Hl. simpl.
    apply dict_step_ok; eauto using restore_delete.
    simpl. by rewrite (proj1 Hw _ _ Hm).
  - apply call_ok_none; [done..|]. by rewrite delete_id.
Qed.

Lemma Patch_ok `{!DictEntrySound T K P} key p ck d j :
  dict_wf d →
  call_ok ie ir (λ d', map_ d' = alter (PatchWith p) key (map_ d)) ck d j
    (dict_exec ie ir (CallPatch key p) ck d j).
Proof.
  intros Hw. simpl. unfold Patch. destruct (Now ck) as [now ck'] eqn:Hck. apply Now_low_next in Hck.
  destruct (map_ d !! key) as [po|] eqn:Hm; simpl.
  - destruct (proj2 Hw key) as [ps Hl]; [eauto|]. rewrite Hl. simpl.
    apply dict_step_ok; eauto using restore_insert.
    + apply dict_wf_insert; [done|]. rewrite PatchWith_key. by apply (proj1 Hw).
    + simpl. unfold apply_Patched. by rewrite Hm.
    + simpl. apply map_eq. intros k. rewrite lookup_insert, lookup_alter.
      case_decide; subst; [by rewrite Hm|done].
  - apply call_ok_none; [done..|]. apply map_eq. intros k. rewrite lookup_alter.
    case_decide; subst; [by rewrite Hm|done].
Qed.
End Sound.

#[export] Instance dict_field_sound `{!DictEntrySound T K P} :
  JournaledFieldSound (GenericDictionary K T) (dict_event K T P) (dict_closure K T) (dict_call K T P).
Proof.
  split. intros CK ? EV' RB' ie ir m ck c j Hw. destruct m as [o|k|k p].
  - by eapply call_ok_weaken, Add_ok.
  - by eapply call_ok_weaken, Erase_ok.
  - by eapply call_ok_weaken, Patch_ok.
Qed.
End Dictionary.
