(* ===== verification/OwnedMap.v ===== *)
(** * Owned objects: [std::unordered_map<key_t, std::unique_ptr<T>>]

    The matrix containers own their entries through [map_] and point at them
    from [forward_] and [transposed_] with bare [const T*].  This file models
    the owning map with its heap: a pointer is a location, assigning a fresh
    [std::make_unique] to a slot destroys the object the slot owned, and
    dereferencing a pointer to a destroyed object is an error. *)

From stdpp Require Import base gmap list.
From S2P Require Import Prelude.

Definition loc := nat.

Record owned (K T : Type) `{Countable K} := mkOwned {
  slots : gmap K loc;
  heap : gmap loc T;
  next_loc : loc;
}.
Arguments mkOwned {K T _ _} _ _ _.
Arguments slots {K T _ _} _.
Arguments heap {K T _ _} _.
Arguments next_loc {K T _ _} _.

Section Owned.
Context `{Countable K} {T : Type}.
Implicit Type o : owned K T.

Definition owned_empty : owned K T := mkOwned ∅ ∅ 0.

(** [*p]. *)
Definition deref (p : loc) o : outcome fault T :=
  match heap o !! p with Some x => Ok x | None => Throw DanglingDereference end.

Definition destroy (p : option loc) (h : gmap loc T) : gmap loc T :=
  match p with Some p => delete p h | None => h end.

(** [auto& placeholder = map_[key]; placeholder = std::make_unique<T>(object);]
    The new object is created before the old one is destroyed. *)
Definition assign (key : K) (object : T) o : owned K T :=
  mkOwned (<[key := next_loc o]> (slots o))
          (destroy (slots o !! key) (<[next_loc o := object]> (heap o)))
          (S (next_loc o)).

(** [placeholder.get()] right after [assign]. *)
Definition assigned_loc o : loc := next_loc o.

(** [map_.erase(key)]. *)
Definition erase (key : K) o : owned K T :=
  mkOwned (delete key (slots o)) (destroy (slots o !! key) (heap o)) (next_loc o).

(** What the map contains, as values. *)
Definition elements_of o : gmap K T := omap (λ p, heap o !! p) (slots o).

(** Every slot owns a live object of its own, every live object is owned, and
    the allocator has not handed out [next_loc] yet. *)
Record owned_wf o : Prop := {
  owned_live : ∀ k p, slots o !! k = Some p → is_Some (heap o !! p);
  owned_inj : ∀ k1 k2 p, slots o !! k1 = Some p → slots o !! k2 = Some p → k1 = k2;
  owned_no_leak : ∀ p, is_Some (heap o !! p) → ∃ k, slots o !! k = Some p;
  owned_fresh : ∀ p, is_Some (heap o !! p) → p < next_loc o;
}.

Lemma owned_empty_wf : owned_wf owned_empty.
Proof. split; intros; simpl in *; try (by apply lookup_empty_Some in H0); by apply lookup_empty_is_Some in H0. Qed.

Lemma slots_lt o k p : owned_wf o → slots o !! k = Some p → p < next_loc o.
Proof. intros Hw Hk. eauto using owned_fresh, owned_live. Qed.

Lemma elements_lookup o k x :
  elements_of o !! k = Some x ↔ ∃ p, slots o !! k = Some p ∧ heap o !! p = Some x.
Proof.
  unfold elements_of. rewrite lookup_omap. destruct (slots o !! k) as [p|]; simpl.
  - split; [eauto|]. by intros (? & [= <-] & ?).
  - split; [done|]. by intros (? & ? & ?).
Qed.

Lemma elements_slot o k : owned_wf o → is_Some (slots o !! k) ↔ is_Some (elements_of o !! k).
Proof.
  intros Hw. split.
  - intros [p Hp]. destruct (owned_live _ Hw _ _ Hp) as [x Hx].
    exists x. apply elements_lookup. eauto.
  - intros [x (p & Hp & _)%elements_lookup]. eauto.
Qed.

Lemma heap_assign o key x p :
  owned_wf o →
  heap (assign key x o) !! p =
    if decide (p = next_loc o) then Some x
    else if decide (slots o !! key = Some p) then None else heap o !! p.
Proof.
  intros Hw. unfold assign, destroy. simpl. destruct (slots o !! key) as [q|] eqn:Hq.
  - pose proof (slots_lt _ _ _ Hw Hq).
    rewrite lookup_delete, lookup_insert. repeat case_decide; simplify_eq; auto; lia.
  - rewrite lookup_insert. repeat case_decide; simplify_eq; auto.
Qed.

Lemma heap_erase o key p :
  owned_wf o →
  heap (erase key o) !! p = if decide (slots o !! key = Some p) then None else heap o !! p.
Proof.
  intros Hw. unfold erase, destroy. simpl. destruct (slots o !! key) as [q|] eqn:Hq.
  - rewrite lookup_delete. repeat case_decide; simplify_eq; auto.
  - by case_decide.
Qed.

Lemma assign_wf o key x : owned_wf o → owned_wf (assign key x o).
Proof.
  intros Hw. split.
  - intros k p Hk. rewrite heap_assign by done. simpl in Hk. map_cases; eauto.
    + exfalso. eauto using owned_inj.
    + eauto using owned_live.
  - intros k1 k2 p Hk1 Hk2. simpl in *. map_cases; auto.
    + apply (slots_lt _ _ _ Hw) in Hk1. lia.
    + apply (slots_lt _ _ _ Hw) in Hk2. lia.
    + eauto using owned_inj.
  - intros p. rewrite heap_assign by done. simpl. intros Hp. repeat case_decide; subst.
    + exists key. by rewrite lookup_insert_eq.
    + by destruct Hp.
    + destruct (owned_no_leak _ Hw p Hp) as [k Hk]. exists k.
      rewrite lookup_insert_ne; congruence.
  - intros p. rewrite heap_assign by done. simpl. intros Hp.
    repeat case_decide; subst; [lia|by destruct Hp|]. apply (owned_fresh _ Hw) in Hp. lia.
Qed.

Lemma erase_wf o key : owned_wf o → owned_wf (erase key o).
Proof.
  intros Hw. split.
  - intros k p Hk. rewrite heap_erase by done. simpl in Hk. map_cases; eauto.
    + exfalso. eauto using owned_inj.
    + eauto using owned_live.
  - intros k1 k2 p H1 H2. simpl in *. map_cases; eauto using owned_inj.
  - intros p. rewrite heap_erase by done. simpl. intros Hp. case_decide; [by destruct Hp|].
    destruct (owned_no_leak _ Hw p Hp) as [k Hk]. exists k.
    rewrite lookup_delete_ne; congruence.
  - intros p. rewrite heap_erase by done. simpl. intros Hp. case_decide; [by destruct Hp|].
    eauto using owned_fresh.
Qed.

Lemma elements_assign o key x :
  owned_wf o → elements_of (assign key x o) = <[key := x]> (elements_of o).
Proof.
  intros Hw. apply map_eq. intros k. apply option_eq. intros y.
  rewrite elements_lookup, lookup_insert. split.
  - intros (p & Hp & Hx). rewrite heap_assign in Hx by done. simpl in Hp. map_cases; auto.
    + apply (slots_lt _ _ _ Hw) in Hp. lia.
    + apply elements_lookup. eauto.
  - case_decide; subst.
    + intros [= ->]. exists (next_loc o). rewrite heap_assign by done. simpl.
      rewrite lookup_insert_eq. by case_decide.
    + intros (p & Hp & Hx)%elements_lookup. exists p.
      rewrite heap_assign by done. simpl. rewrite lookup_insert_ne by done. split; [done|].
      pose proof (slots_lt _ _ _ Hw Hp). repeat case_decide; subst; [lia| |done].
      exfalso; eauto using owned_inj.
Qed.

Lemma elements_erase o key :
  owned_wf o → elements_of (erase key o) = delete key (elements_of o).
Proof.
  intros Hw. apply map_eq. intros k. apply option_eq. intros y.
  rewrite elements_lookup, lookup_delete. split.
  - intros (p & Hp & Hx). rewrite heap_erase in Hx by done. simpl in Hp. map_cases; auto.
    apply elements_lookup. eauto.
  - case_decide; subst; [done|]. intros (p & Hp & Hx)%elements_lookup. exists p.
    rewrite heap_erase by done. simpl. rewrite lookup_delete_ne by done. split; [done|].
    case_decide; [|done]. exfalso; eauto using owned_inj.
Qed.

Lemma deref_element o k p x :
  elements_of o !! k = Some x → slots o !! k = Some p → deref p o = Ok x.
Proof. intros (q & Hq & Hx)%elements_lookup Hp. unfold deref. simplify_eq. by rewrite Hx. Qed.

Lemma element_of_slot o k p :
  owned_wf o → slots o !! k = Some p → ∃ x, elements_of o !! k = Some x ∧ deref p o = Ok x.
Proof.
  intros Hw Hp. destruct (owned_live _ Hw _ _ Hp) as [x Hx]. exists x. split.
  - apply elements_lookup. eauto.
  - unfold deref. by rewrite Hx.
Qed.
End Owned.

#[export] Hint Resolve owned_empty_wf assign_wf erase_wf : current.
