(* ===== verification/Index.v ===== *)
(** * Secondary indexes over owned objects

    [forward_] and [transposed_] of the matrix containers index the entries by
    row and by column.  An index of a "one" side maps the row (column) to the
    one entry it has; an index of a "many" side maps it to a map of entries, and
    never keeps an empty inner map. *)

From stdpp Require Import base gmap list.
From S2P Require Import Prelude OwnedMap.

Section UniqueIndex.
Context `{Countable K, Countable A} {T : Type} (π : K → A).
Implicit Type o : owned K T.
Implicit Type idx : gmap A loc.

(** The index points at exactly the owned entries. *)
Definition index_ok idx o : Prop :=
  ∀ a p, idx !! a = Some p ↔ ∃ k, π k = a ∧ slots o !! k = Some p.

Lemma index_empty : index_ok ∅ owned_empty.
Proof.
  intros a p. simpl. split; [by rewrite lookup_empty|]. intros (k & _ & Hk). by rewrite lookup_empty in Hk.
Qed.

Lemma index_unique idx o k1 k2 :
  owned_wf o → index_ok idx o →
  is_Some (slots o !! k1) → is_Some (slots o !! k2) → π k1 = π k2 → k1 = k2.
Proof.
  intros Hw Hi [p1 H1] [p2 H2] Hπ.
  assert (idx !! π k1 = Some p1) as E1 by (apply Hi; eauto).
  assert (idx !! π k1 = Some p2) as E2 by (apply Hi; eauto).
  simplify_eq. eauto using owned_inj.
Qed.

Lemma index_assign idx o k x :
  index_ok idx o →
  (∀ k', is_Some (slots o !! k') → π k' = π k → k' = k) →
  index_ok (<[π k := assigned_loc o]> idx) (assign k x o).
Proof.
  intros Hi Hf a p. simpl. rewrite lookup_insert. case_decide as Ha.
  - split.
    + intros [= <-]. exists k. by rewrite lookup_insert_eq.
    + intros (k' & Hk' & Hp). rewrite lookup_insert in Hp. case_decide; [done|].
      destruct H1. symmetry. apply Hf; [eauto|congruence].
  - rewrite (Hi a p). split; intros (k' & Hk' & Hp); exists k'.
    + split; [done|]. rewrite lookup_insert_ne; [done|]. congruence.
    + split; [done|]. rewrite lookup_insert_ne in Hp; [done|]. congruence.
Qed.

Lemma index_erase idx o k :
  owned_wf o → index_ok idx o → is_Some (slots o !! k) →
  index_ok (delete (π k) idx) (erase k o).
Proof.
  intros Hw Hi Hk a p. simpl. rewrite lookup_delete. case_decide as Ha.
  - split; [done|]. intros (k' & Hk' & Hp). rewrite lookup_delete in Hp. case_decide; [done|].
    destruct H1. eapply index_unique; eauto. congruence.
  - rewrite (Hi a p). split; intros (k' & Hk' & Hp); exists k'.
    + split; [done|]. rewrite lookup_delete_ne; [done|]. congruence.
    + split; [done|]. rewrite lookup_delete in Hp. by case_decide.
Qed.

(** [idx.find(a)], then dereferencing what it points at. *)
Definition index_get idx (a : A) o : outcome fault (option T) :=
  match idx !! a with
  | Some p => x ← deref p o; Ok (Some x)
  | None => Ok None
  end.

(** The lookup never meets a dangling pointer and finds what the owning map has. *)
Lemma index_get_spec idx o a :
  owned_wf o → index_ok idx o →
  (∃ k x, π k = a ∧ elements_of o !! k = Some x ∧ index_get idx a o = Ok (Some x)) ∨
  ((∀ k, π k = a → elements_of o !! k = None) ∧ index_get idx a o = Ok None).
Proof.
  intros Hw Hi. unfold index_get. destruct (idx !! a) as [p|] eqn:Ha.
  - left. apply Hi in Ha as (k & Hk & Hp).
    destruct (element_of_slot _ _ _ Hw Hp) as (x & Hx & ->). by exists k, x.
  - right. split; [|done]. intros k Hk. destruct (elements_of o !! k) as [x|] eqn:Hx; [|done].
    apply elements_lookup in Hx as (p & Hp & _).
    assert (idx !! a = Some p) by (apply Hi; eauto). congruence.
Qed.
End UniqueIndex.

Section NestedIndex.
Context `{Countable K, Countable A, Countable B} {T : Type} (π : K → A) (ρ : K → B).
Implicit Type o : owned K T.
Implicit Type idx : gmap A (gmap B loc).

(** [idx[a][b] = p]: [operator[]] creates the inner map when it is missing. *)
Definition nested_assign (a : A) (b : B) (p : loc) idx : gmap A (gmap B loc) :=
  <[a := <[b := p]> (default ∅ (idx !! a))]> idx.

(** [auto& inner = idx[a]; inner.erase(b); if (inner.empty()) idx.erase(a);] *)
Definition nested_erase (a : A) (b : B) idx : gmap A (gmap B loc) :=
  let inner := delete b (default ∅ (idx !! a)) in
  if decide (inner = ∅) then delete a idx else <[a := inner]> idx.

Definition nested_lookup idx (a : A) (b : B) : option loc := idx !! a ≫= λ inner, inner !! b.

Definition nested_ok idx o : Prop :=
  (∀ a b p, nested_lookup idx a b = Some p ↔ ∃ k, π k = a ∧ ρ k = b ∧ slots o !! k = Some p) ∧
  (∀ a inner, idx !! a = Some inner → inner ≠ ∅).

Hypothesis joint_inj : ∀ k1 k2, π k1 = π k2 → ρ k1 = ρ k2 → k1 = k2.

Lemma nested_empty : nested_ok ∅ owned_empty.
Proof.
  split.
  - intros a b p. unfold nested_lookup. rewrite lookup_empty. simpl. split; [done|].
    intros (k & _ & _ & Hk). by rewrite lookup_empty in Hk.
  - intros a inner. by rewrite lookup_empty.
Qed.

Lemma nested_lookup_assign idx a b p a' b' :
  nested_lookup (nested_assign a b p idx) a' b' =
    if decide (a = a' ∧ b = b') then Some p else nested_lookup idx a' b'.
Proof.
  unfold nested_lookup, nested_assign. rewrite lookup_insert. case_decide as Ha; subst; simpl.
  - rewrite lookup_insert. case_decide as Hb; subst.
    + rewrite decide_True by done. done.
    + rewrite decide_False by naive_solver. destruct (idx !! a'); simpl; [done|]. by rewrite lookup_empty.
  - by rewrite decide_False by naive_solver.
Qed.

Lemma nested_lookup_erase idx a b a' b' :
  nested_lookup (nested_erase a b idx) a' b' =
    if decide (a = a' ∧ b = b') then None else nested_lookup idx a' b'.
Proof.
  unfold nested_lookup, nested_erase. destruct (decide (a = a')) as [<-|Ha].
  - transitivity (delete b (default ∅ (idx !! a)) !! b').
    + case_decide as He.
      * rewrite lookup_delete_eq, He. simpl. by rewrite lookup_empty.
      * by rewrite lookup_insert_eq.
    + rewrite lookup_delete. repeat case_decide; try naive_solver.
      destruct (idx !! a); simpl; [done|]. by rewrite lookup_empty.
  - rewrite (decide_False (P := a = a' ∧ _)) by naive_solver.
    case_decide; [by rewrite lookup_delete_ne|by rewrite lookup_insert_ne].
Qed.

Lemma nested_assign_ok idx o k x :
  nested_ok idx o → nested_ok (nested_assign (π k) (ρ k) (assigned_loc o) idx) (assign k x o).
Proof.
  intros [Hi Hne]. split.
  - intros a b p. rewrite nested_lookup_assign. simpl. case_decide as Hab.
    + destruct Hab as [<- <-]. split.
      * intros [= <-]. exists k. by rewrite lookup_insert_eq.
      * intros (k' & ? & ? & Hp). assert (k' = k) as -> by auto.
        by rewrite lookup_insert_eq in Hp.
    + rewrite (Hi a b p). split; intros (k' & ? & ? & Hp); exists k'; split_and!; try done.
      * rewrite lookup_insert_ne; [done|]. naive_solver.
      * rewrite lookup_insert_ne in Hp; [done|]. naive_solver.
  - intros a inner. unfold nested_assign. rewrite lookup_insert. case_decide; [|apply Hne].
    intros [= <-]. apply insert_non_empty.
Qed.

Lemma nested_erase_ok idx o k :
  nested_ok idx o → nested_ok (nested_erase (π k) (ρ k) idx) (erase k o).
Proof.
  intros [Hi Hne]. split.
  - intros a b p. rewrite nested_lookup_erase. simpl. case_decide as Hab.
    + destruct Hab as [<- <-]. split; [done|].
      intros (k' & ? & ? & Hp). assert (k' = k) as -> by auto. by rewrite lookup_delete_eq in Hp.
    + rewrite (Hi a b p). split; intros (k' & ? & ? & Hp); exists k'; split_and!; try done.
      * rewrite lookup_delete_ne; [done|]. naive_solver.
      * rewrite lookup_delete in Hp. by case_decide.
  - intros a inner. unfold nested_erase. case_decide.
    + rewrite lookup_delete. case_decide; [done|apply Hne].
    + rewrite lookup_insert. case_decide; [by intros [= <-]|apply Hne].
Qed.
End NestedIndex.
