(* ===== verification/Matrix.v ===== *)
(** * What the three matrix containers share

    [GenericOneToOne], [GenericOneToMany] and [GenericManyToMany] keep entries
    under a (row, column) key, persist the same events and register the same
    rollback closures, all of which go through the private [DoUpdate..] and
    [DoErase..] methods.  [Matrix] is the contract of those methods: what they
    do to the entries and to [last_modified_], under the condition that the new
    entry does not clash with another one ([mx_fits]).  From it the faithfulness
    of the log follows once for the three containers. *)

From stdpp Require Import base gmap list.
From Stdlib Require Import ZArith Lia.
From S2P Require Import Prelude Time Journal.
Open Scope Z_scope.

(** [sfinae::GetRow] and [sfinae::GetCol]. *)
Class MatrixEntry (T R C : Type) := {
  GetRow : T → R;
  GetCol : T → C;
}.

Inductive matrix_event (R C T : Type) :=
| Updated (us : microseconds) (data : T)
| Deleted (us : microseconds) (key : R * C).
Arguments Updated {R C T} us data.
Arguments Deleted {R C T} us key.

(** [RestoreEntry] is [DoUpdateWithLastModified(timestamp, key, object)],
    [EraseEntry] is [DoEraseWithLastModified(timestamp, key)], [ForgetEntry] is
    [last_modified_.erase(key); DoEraseWithoutTouchingLastModified(key)]. *)
Inductive matrix_closure (R C T : Type) :=
| RestoreEntry (timestamp : microseconds) (key : R * C) (object : T)
| EraseEntry (timestamp : microseconds) (key : R * C)
| ForgetEntry (key : R * C).
Arguments RestoreEntry {R C T} timestamp key object.
Arguments EraseEntry {R C T} timestamp key.
Arguments ForgetEntry {R C T} key.

Section MatrixDefs.
Context `{Countable R, Countable C} {T : Type} `{!MatrixEntry T R C}.

Definition key_of (object : T) : R * C := (GetRow object, GetCol object).

(** [DELETE_EVENT(now, value)] keeps the key only. *)
Definition make_Deleted (us : microseconds) (value : T) : matrix_event R C T :=
  Deleted us (key_of value).

Class Matrix (S : Type) := {
  mx_elements : S → gmap (R * C) T;
  mx_last_modified : S → gmap (R * C) microseconds;
  mx_update : microseconds → R * C → T → S → S;
  mx_erase : microseconds → R * C → S → S;
  mx_forget : R * C → S → S;
  mx_wf : S → Prop;
  mx_fits : gmap (R * C) T → R * C → Prop;
}.

Class MatrixSound (S : Type) `{!Matrix S} : Prop := {
  mx_keyed : ∀ s k x, mx_wf s → mx_elements s !! k = Some x → key_of x = k;
  mx_stamped : ∀ s k, mx_wf s → is_Some (mx_elements s !! k) → is_Some (mx_last_modified s !! k);
  mx_update_spec : ∀ s us k x,
    mx_wf s → key_of x = k → mx_fits (mx_elements s) k →
    mx_wf (mx_update us k x s) ∧
    mx_elements (mx_update us k x s) = <[k := x]> (mx_elements s) ∧
    mx_last_modified (mx_update us k x s) = <[k := us]> (mx_last_modified s);
  mx_erase_spec : ∀ s us k,
    mx_wf s → is_Some (mx_elements s !! k) →
    mx_wf (mx_erase us k s) ∧
    mx_elements (mx_erase us k s) = delete k (mx_elements s) ∧
    mx_last_modified (mx_erase us k s) = <[k := us]> (mx_last_modified s);
  mx_forget_spec : ∀ s k,
    mx_wf s → is_Some (mx_elements s !! k) →
    mx_wf (mx_forget k s) ∧
    mx_elements (mx_forget k s) = delete k (mx_elements s) ∧
    mx_last_modified (mx_forget k s) = delete k (mx_last_modified s);
  mx_fits_present : ∀ s k,
    mx_wf s → is_Some (mx_elements s !! k) → mx_fits (mx_elements s) k;
  mx_fits_delete : ∀ m k k', mx_fits m k → mx_fits (delete k' m) k;
  mx_fits_insert : ∀ m k x, mx_fits m k → mx_fits (<[k := x]> m) k;
}.
End MatrixDefs.

Section MatrixField.
Context `{Countable R, Countable C} {T : Type} `{!MatrixEntry T R C}.
Context {S : Type} `{!Matrix (R:=R) (C:=C) (T:=T) S}.

(** [operator()(const UPDATE_EVENT&)] and [operator()(const DELETE_EVENT&)]. *)
Definition matrix_apply (e : matrix_event R C T) (s : S) : S :=
  match e with
  | Updated us data => mx_update us (key_of data) data s
  | Deleted us key => mx_erase us key s
  end.

Definition matrix_undo (rb : matrix_closure R C T) (s : S) : S :=
  match rb with
  | RestoreEntry us key object => mx_update us key object s
  | EraseEntry us key => mx_erase us key s
  | ForgetEntry key => mx_forget key s
  end.

(** Two containers are interchangeable when they hold the same entries and
    the same time stamps; where the entries live in memory does not matter. *)
Definition matrix_equiv : Equiv S :=
  λ s t, mx_elements s = mx_elements t ∧ mx_last_modified s = mx_last_modified t.

#[export] Instance matrix_field : JournaledField S (matrix_event R C T) (matrix_closure R C T).
Proof.
  refine {| fld_wf := mx_wf; fld_equiv := matrix_equiv;
            apply_event := matrix_apply; undo := matrix_undo |}.
  split.
  - done.
  - intros ? ? [? ?]. by split.
  - intros ? ? ? [? ?] [? ?]. split; congruence.
Defined.

Context `{!MatrixSound S}.

Lemma faithful_one (s s' : S) e rb :
  (∀ t, mx_wf t → matrix_equiv t s → mx_wf (matrix_apply e t) ∧ matrix_equiv (matrix_apply e t) s') →
  (∀ t, mx_wf t → matrix_equiv t s' → mx_wf (matrix_undo rb t) ∧ matrix_equiv (matrix_undo rb t) s) →
  faithful_log s s' [e] [rb].
Proof. intros He Hu. split; intros t Hw Ht; [apply He|apply Hu]; done. Qed.

(** The closure that undoes the creation or the overwriting of an entry. *)
Definition undoes_update (s : S) (k : R * C) (rb : matrix_closure R C T) : Prop :=
  match mx_elements s !! k, mx_last_modified s !! k with
  | Some po, Some ps => rb = RestoreEntry ps k po
  | None, Some ps => rb = EraseEntry ps k
  | None, None => rb = ForgetEntry k
  | Some _, None => False
  end.

Lemma faithful_update (s : S) us k x rb :
  mx_wf s → key_of x = k → mx_fits (mx_elements s) k → undoes_update s k rb →
  mx_wf (mx_update us k x s) ∧ faithful_log s (mx_update us k x s) [Updated us x] [rb].
Proof.
  intros Hw Hx Hf Hrb. destruct (mx_update_spec s us k x Hw Hx Hf) as (Hw' & He' & Hl').
  split; [done|]. apply faithful_one.
  - intros t Ht [He Hl]. simpl. rewrite Hx. rewrite <- He in Hf.
    destruct (mx_update_spec t us k x Ht Hx Hf) as (? & He2 & Hl2).
    split; [done|]. split; congruence.
  - intros t Ht [He Hl]. rewrite He' in He. rewrite Hl' in Hl. unfold undoes_update in Hrb.
    destruct (mx_elements s !! k) as [po|] eqn:Hpo, (mx_last_modified s !! k) as [ps|] eqn:Hps;
      [subst rb; simpl|done|subst rb; simpl..].
    + destruct (mx_update_spec t ps k po) as (? & He2 & Hl2); [done|exact (mx_keyed _ _ _ Hw Hpo)| |].
      { rewrite He. by apply mx_fits_insert. }
      split; [done|]. unfold matrix_equiv. rewrite He2, Hl2, He, Hl, !insert_insert_eq.
      split; by apply insert_id.
    + destruct (mx_erase_spec t ps k) as (? & He2 & Hl2); [done|rewrite He, lookup_insert_eq; eauto|].
      split; [done|]. unfold matrix_equiv. rewrite He2, Hl2, He, Hl.
      rewrite delete_insert_id, insert_insert_eq by done. split; [done|by apply insert_id].
    + destruct (mx_forget_spec t k) as (? & He2 & Hl2); [done|rewrite He, lookup_insert_eq; eauto|].
      split; [done|]. unfold matrix_equiv. rewrite He2, Hl2, He, Hl.
      by rewrite !delete_insert_id.
Qed.

Lemma faithful_erase (s : S) us k po ps :
  mx_wf s → mx_elements s !! k = Some po → mx_last_modified s !! k = Some ps →
  mx_wf (mx_erase us k s) ∧
  faithful_log s (mx_erase us k s) [make_Deleted us po] [RestoreEntry ps k po].
Proof.
  intros Hw Hpo Hps. pose proof (mx_keyed _ _ _ Hw Hpo) as Hk.
  assert (is_Some (mx_elements s !! k)) as Hin by eauto.
  destruct (mx_erase_spec s us k Hw Hin) as (Hw' & He' & Hl').
  split; [done|]. unfold make_Deleted. rewrite Hk. apply faithful_one; simpl.
  - intros t Ht [He Hl]. rewrite <- He in Hin.
    destruct (mx_erase_spec t us k Ht Hin) as (? & He2 & Hl2).
    split; [done|]. unfold matrix_equiv. by rewrite He2, Hl2, He, Hl.
  - intros t Ht [He Hl]. rewrite He' in He. rewrite Hl' in Hl.
    destruct (mx_update_spec t ps k po) as (? & He2 & Hl2); [done..| |].
    { rewrite He. by apply mx_fits_delete, mx_fits_present. }
    split; [done|]. unfold matrix_equiv. rewrite He2, Hl2, He, Hl.
    rewrite insert_delete_eq, insert_insert_eq. split; by apply insert_id.
Qed.

(** *** Calls that make one logged change, or start with one *)
Section Calls.
Context {CK : Type} `{!Clock CK} {EV RB : Type}.
Context (ie : matrix_event R C T → EV) (ir : matrix_closure R C T → RB).
Implicit Type j : MutationJournal EV RB.

Lemma matrix_erase_call (Q : S → Prop) (ck ck' : CK) (s : S) j us k x ts :
  mx_wf s → mx_elements s !! k = Some x → mx_last_modified s !! k = Some ts →
  ck_low ck ≤ ck_low ck' → Q (mx_erase us k s) →
  call_ok ie ir Q ck s j
    (Ok (ck', mx_erase us k s,
         LogMutation (ie (make_Deleted us x)) (ir (RestoreEntry ts k x)) j)).
Proof.
  intros Hw Hx Hts Hck HQ. destruct (faithful_erase s us k x ts Hw Hx Hts).
  by apply call_ok_one.
Qed.

Lemma matrix_update_call (Q : S → Prop) (ck ck' : CK) (s : S) j us x rb :
  mx_wf s → mx_fits (mx_elements s) (key_of x) → undoes_update s (key_of x) rb →
  ck_low ck ≤ ck_low ck' → Q (mx_update us (key_of x) x s) →
  call_ok ie ir Q ck s j
    (Ok (ck', mx_update us (key_of x) x s, LogMutation (ie (Updated us x)) (ir rb) j)).
Proof.
  intros Hw Hf Hrb Hck HQ. destruct (faithful_update s us (key_of x) x rb Hw eq_refl Hf Hrb).
  by apply call_ok_one.
Qed.

(** A conflicting entry out of the way, then the rest of the call. *)
Lemma matrix_erase_then (Q : S → Prop) (ck ck1 : CK) (s : S) j us k x ts r :
  mx_wf s → mx_elements s !! k = Some x → mx_last_modified s !! k = Some ts →
  ck_low ck ≤ ck_low ck1 →
  (mx_wf (mx_erase us k s) →
   call_ok ie ir Q ck1 (mx_erase us k s)
     (LogMutation (ie (make_Deleted us x)) (ir (RestoreEntry ts k x)) j) r) →
  call_ok ie ir Q ck s j r.
Proof.
  intros Hw Hx Hts Hck Hr. destruct (faithful_erase s us k x ts Hw Hx Hts).
  eapply call_ok_cons; eauto.
Qed.
End Calls.
End MatrixField.
