(* ===== verification/OneToOne.v ===== *)
(** * OneToOne: storage/container/one_to_one.h

    [GenericOneToOne]: entries under (row, column) keys such that a row has at
    most one column and a column at most one row.  Adding an entry first erases
    the entries it clashes with, and logs the erasures.  Pointers are modelled
    (see OwnedMap.v): [forward_] and [transposed_] hold locations of the objects
    that [map_] owns. *)

From stdpp Require Import base gmap list.
From Stdlib Require Import ZArith Lia.
From S2P Require Import Prelude Time Journal OwnedMap Index Matrix.
Open Scope Z_scope.

Record GenericOneToOne (R C T : Type) `{Countable R, Countable C} := mkOneToOne {
  map_ : owned (R * C) T;
  forward_ : gmap R loc;
  transposed_ : gmap C loc;
  last_modified_ : gmap (R * C) microseconds;
}.
Arguments mkOneToOne {R C T _ _ _ _} _ _ _ _.
Arguments map_ {R C T _ _ _ _} _.
Arguments forward_ {R C T _ _ _ _} _.
Arguments transposed_ {R C T _ _ _ _} _.
Arguments last_modified_ {R C T _ _ _ _} _.

Inductive oto_call (R C T : Type) :=
| CallAdd (object : T)
| CallErase (key : R * C)
| CallEraseRow (row : R)
| CallEraseCol (col : C).
Arguments CallAdd {R C T} object.
Arguments CallErase {R C T} key.
Arguments CallEraseRow {R C T} row.
Arguments CallEraseCol {R C T} col.

Section OneToOne.
Context `{Countable R, Countable C} {T : Type} `{!MatrixEntry T R C}.
Implicit Type s : GenericOneToOne R C T.

Definition oto_init : GenericOneToOne R C T := mkOneToOne owned_empty ∅ ∅ ∅.

(** ** The private methods *)

Definition DoUpdateWithLastModified (us : microseconds) (key : R * C) (object : T) s
    : GenericOneToOne R C T :=
  let placeholder := assigned_loc (map_ s) in
  mkOneToOne (assign key object (map_ s))
             (<[key.1 := placeholder]> (forward_ s))
             (<[key.2 := placeholder]> (transposed_ s))
             (<[key := us]> (last_modified_ s)).

Definition DoEraseWithoutTouchingLastModified (key : R * C) s : GenericOneToOne R C T :=
  mkOneToOne (erase key (map_ s)) (delete key.1 (forward_ s)) (delete key.2 (transposed_ s))
             (last_modified_ s).

Definition DoEraseWithLastModified (us : microseconds) (key : R * C) s : GenericOneToOne R C T :=
  DoEraseWithoutTouchingLastModified key
    (mkOneToOne (map_ s) (forward_ s) (transposed_ s) (<[key := us]> (last_modified_ s))).

(** The closure of the last branch of [Add]. *)
Definition ForgetAndErase (key : R * C) s : GenericOneToOne R C T :=
  DoEraseWithoutTouchingLastModified key
    (mkOneToOne (map_ s) (forward_ s) (transposed_ s) (delete key (last_modified_ s))).

(** ** Queries *)

Definition Empty s : bool := bool_decide (slots (map_ s) = ∅).
Definition Size s : nat := size (slots (map_ s)).
Definition Get (key : R * C) s : outcome fault (option T) := index_get (slots (map_ s)) key (map_ s).
Definition GetEntryFromRow (row : R) s : outcome fault (option T) :=
  index_get (forward_ s) row (map_ s).
Definition GetEntryFromCol (col : C) s : outcome fault (option T) :=
  index_get (transposed_ s) col (map_ s).
Definition LastModified (key : R * C) s : option microseconds := last_modified_ s !! key.
Definition DoesNotConflict (key : R * C) s : bool :=
  bool_decide (forward_ s !! key.1 = None) && bool_decide (transposed_ s !! key.2 = None).

(** ** Mutations *)

Section Operations.
Context {CK : Type} `{!Clock CK} {EV RB : Type}.
Context (this_ev : matrix_event R C T → EV) (this_rb : matrix_closure R C T → RB).

(** The conflicting entries, erased and logged before the new one goes in.
    [now] moves on after each of them. *)
Definition ResolveConflicts (row : R) (col : C) (now : microseconds) (ck : CK) s (journal_ : MutationJournal EV RB)
    : outcome fault (microseconds * CK * GenericOneToOne R C T * MutationJournal EV RB) :=
  match forward_ s !! row, transposed_ s !! col with
  | Some cit_row, Some cit_col =>
      conflicting_object_same_row ← deref cit_row (map_ s);
      conflicting_object_same_col ← deref cit_col (map_ s);
      let key_same_row := (row, GetCol conflicting_object_same_row) in
      timestamp_same_row ← assert_found (last_modified_ s !! key_same_row);
      let key_same_col := (GetRow conflicting_object_same_col, col) in
      timestamp_same_col ← assert_found (last_modified_ s !! key_same_col);
      let journal_ := LogMutation (this_ev (make_Deleted now conflicting_object_same_row))
        (this_rb (RestoreEntry timestamp_same_row key_same_row conflicting_object_same_row)) journal_ in
      let s := DoEraseWithLastModified now key_same_row s in
      let '(now, ck) := Now ck in
      (* the reference is read again, now that the other object is destroyed *)
      conflicting_object_same_col ← deref cit_col (map_ s);
      let journal_ := LogMutation (this_ev (make_Deleted now conflicting_object_same_col))
        (this_rb (RestoreEntry timestamp_same_col key_same_col conflicting_object_same_col)) journal_ in
      let s := DoEraseWithLastModified now key_same_col s in
      let '(now, ck) := Now ck in
      Ok (now, ck, s, journal_)
  | Some cit, None | None, Some cit =>
      conflicting_object ← deref cit (map_ s);
      let conflicting_object_key := key_of conflicting_object in
      conflicting_object_timestamp ← assert_found (last_modified_ s !! conflicting_object_key);
      let journal_ := LogMutation (this_ev (make_Deleted now conflicting_object))
        (this_rb (RestoreEntry conflicting_object_timestamp conflicting_object_key conflicting_object))
        journal_ in
      let s := DoEraseWithLastModified now conflicting_object_key s in
      let '(now, ck) := Now ck in
      Ok (now, ck, s, journal_)
  | None, None => Ok (now, ck, s, journal_)
  end.

Definition Add (object : T) (ck : CK) s (journal_ : MutationJournal EV RB)
    : outcome fault (CK * GenericOneToOne R C T * MutationJournal EV RB) :=
  let '(now, ck) := Now ck in
  let row := GetRow object in
  let col := GetCol object in
  let key := (row, col) in
  match slots (map_ s) !! key with
  | Some map_cit =>
      previous_object ← deref map_cit (map_ s);
      previous_timestamp ← assert_found (last_modified_ s !! key);
      let journal_ := LogMutation (this_ev (Updated now object))
                        (this_rb (RestoreEntry previous_timestamp key previous_object)) journal_ in
      Ok (ck, DoUpdateWithLastModified now key object s, journal_)
  | None =>
      let lm_found := bool_decide (is_Some (last_modified_ s !! key)) in
      '(now, ck, s, journal_) ← ResolveConflicts row col now ck s journal_;
      if lm_found then
        previous_timestamp ← assert_found (last_modified_ s !! key);
        let journal_ := LogMutation (this_ev (Updated now object))
                          (this_rb (EraseEntry previous_timestamp key)) journal_ in
        Ok (ck, DoUpdateWithLastModified now key object s, journal_)
      else
        let journal_ := LogMutation (this_ev (Updated now object))
                          (this_rb (ForgetEntry key)) journal_ in
        Ok (ck, DoUpdateWithLastModified now key object s, journal_)
  end.

Definition Erase (key : R * C) (ck : CK) s (journal_ : MutationJournal EV RB)
    : outcome fault (CK * GenericOneToOne R C T * MutationJournal EV RB) :=
  let '(now, ck) := Now ck in
  match slots (map_ s) !! key with
  | Some map_cit =>
      previous_object ← deref map_cit (map_ s);
      previous_timestamp ← assert_found (last_modified_ s !! key);
      let journal_ := LogMutation (this_ev (make_Deleted now previous_object))
                        (this_rb (RestoreEntry previous_timestamp key previous_object)) journal_ in
      Ok (ck, DoEraseWithLastModified now key s, journal_)
  | None => Ok (ck, s, journal_)
  end.

Definition EraseRow (row : R) (ck : CK) s (journal_ : MutationJournal EV RB)
    : outcome fault (CK * GenericOneToOne R C T * MutationJournal EV RB) :=
  let '(now, ck) := Now ck in
  match forward_ s !! row with
  | Some forward_cit =>
      previous_object ← deref forward_cit (map_ s);
      let key := (row, GetCol previous_object) in
      previous_timestamp ← assert_found (last_modified_ s !! key);
      let journal_ := LogMutation (this_ev (make_Deleted now previous_object))
                        (this_rb (RestoreEntry previous_timestamp key previous_object)) journal_ in
      Ok (ck, DoEraseWithLastModified now key s, journal_)
  | None => Ok (ck, s, journal_)
  end.

Definition EraseCol (col : C) (ck : CK) s (journal_ : MutationJournal EV RB)
    : outcome fault (CK * GenericOneToOne R C T * MutationJournal EV RB) :=
  let '(now, ck) := Now ck in
  match transposed_ s !! col with
  | Some transposed_cit =>
      previous_object ← deref transposed_cit (map_ s);
      let key := (GetRow previous_object, col) in
      previous_timestamp ← assert_found (last_modified_ s !! key);
      let journal_ := LogMutation (this_ev (make_Deleted now previous_object))
                        (this_rb (RestoreEntry previous_timestamp key previous_object)) journal_ in
      Ok (ck, DoEraseWithLastModified now key s, journal_)
  | None => Ok (ck, s, journal_)
  end.

Definition oto_exec (m : oto_call R C T) (ck : CK) s (journal_ : MutationJournal EV RB)
    : outcome fault (CK * GenericOneToOne R C T * MutationJournal EV RB) :=
  match m with
  | CallAdd object => Add object ck s (journal_ : MutationJournal EV RB)
  | CallErase key => Erase key ck s (journal_ : MutationJournal EV RB)
  | CallEraseRow row => EraseRow row ck s (journal_ : MutationJournal EV RB)
  | CallEraseCol col => EraseCol col ck s (journal_ : MutationJournal EV RB)
  end.
End Operations.

(** ** Invariant *)

Record oto_wf s : Prop := {
  oto_owned : owned_wf (map_ s);
  oto_keyed : ∀ k x, elements_of (map_ s) !! k = Some x → key_of x = k;
  oto_forward : index_ok fst (forward_ s) (map_ s);
  oto_transposed : index_ok snd (transposed_ s) (map_ s);
  oto_stamped : ∀ k, is_Some (elements_of (map_ s) !! k) → is_Some (last_modified_ s !! k);
}.

(** No other entry in the row or in the column. *)
Definition oto_fits (m : gmap (R * C) T) (k : R * C) : Prop :=
  ∀ k', is_Some (m !! k') → k'.1 = k.1 ∨ k'.2 = k.2 → k' = k.

(** The entries in another row and another column. *)
Definition outside (row : R) (col : C) (kv : (R * C) * T) : Prop := kv.1.1 ≠ row ∧ kv.1.2 ≠ col.
#[export] Instance outside_dec row col kv : Decision (outside row col kv).
Proof. unfold outside. apply _. Defined.

#[export] Instance oto_matrix : Matrix (R:=R) (C:=C) (T:=T) (GenericOneToOne R C T) := {
  mx_elements s := elements_of (map_ s);
  mx_last_modified := last_modified_;
  mx_update := DoUpdateWithLastModified;
  mx_erase := DoEraseWithLastModified;
  mx_forget := ForgetAndErase;
  mx_wf := oto_wf;
  mx_fits := oto_fits;
}.

Lemma oto_init_wf : oto_wf oto_init.
Proof.
  split; simpl; auto using owned_empty_wf, index_empty.
  - intros k x (p & Hp & _)%elements_lookup. simpl in Hp. by rewrite lookup_empty in Hp.
  - intros k [x (p & Hp & _)%elements_lookup]. simpl in Hp. by rewrite lookup_empty in Hp.
Qed.

Lemma oto_update_wf s us k x :
  oto_wf s → key_of x = k → oto_fits (elements_of (map_ s)) k →
  oto_wf (DoUpdateWithLastModified us k x s).
Proof.
  intros [Ho Hk Hf Ht Hl] Hx Hfit.
  assert (∀ k', is_Some (slots (map_ s) !! k') → is_Some (elements_of (map_ s) !! k')) as Hs
    by (intros; by apply elements_slot).
  split; simpl; auto using assign_wf.
  - intros k' y. rewrite elements_assign, lookup_insert by done. case_decide; [naive_solver|eauto].
  - apply index_assign; [done|]. intros k' Hk' ?. apply Hfit; auto.
  - apply index_assign; [done|]. intros k' Hk' ?. apply Hfit; auto.
  - intros k'. rewrite elements_assign, !lookup_insert by done. case_decide; [eauto|auto].
Qed.

Lemma oto_erase_wf s k lm :
  oto_wf s → is_Some (elements_of (map_ s) !! k) →
  (∀ k', k' ≠ k → is_Some (last_modified_ s !! k') → is_Some (lm !! k')) →
  oto_wf (DoEraseWithoutTouchingLastModified k (mkOneToOne (map_ s) (forward_ s) (transposed_ s) lm)).
Proof.
  intros [Ho Hk Hf Ht Hl] Hin Hlm. pose proof Hin as Hs. apply elements_slot in Hs; [|done].
  split; simpl; auto using erase_wf, index_erase.
  - intros k' y. rewrite elements_erase, lookup_delete by done. case_decide; [done|eauto].
  - intros k'. rewrite elements_erase, lookup_delete by done.
    case_decide; [by intros []|auto].
Qed.

Lemma oto_fits_present s k :
  oto_wf s → is_Some (elements_of (map_ s) !! k) → oto_fits (elements_of (map_ s)) k.
Proof.
  intros [Ho Hk Hf Ht Hl] Hin k' Hin' Hor. apply elements_slot in Hin, Hin'; [|done..].
  destruct Hor; [eapply (index_unique fst)|eapply (index_unique snd)]; eauto.
Qed.

#[export] Instance oto_matrix_sound : MatrixSound (GenericOneToOne R C T).
Proof.
  split; simpl.
  - intros s k x Hw. by apply oto_keyed.
  - intros s k Hw. by apply oto_stamped.
  - intros s us k x Hw Hx Hf. split; [by apply oto_update_wf|].
    split; [|done]. simpl. by apply elements_assign, oto_owned.
  - intros s us k Hw Hin. split; [|split; [|done]].
    + apply oto_erase_wf; [done..|]. intros k' Hne ?. by rewrite lookup_insert_ne.
    + simpl. by apply elements_erase, oto_owned.
  - intros s k Hw Hin. split; [|split; [|done]].
    + apply oto_erase_wf; [done..|]. intros k' Hne ?. by rewrite lookup_delete_ne.
    + simpl. by apply elements_erase, oto_owned.
  - apply oto_fits_present.
  - intros m k k' Hf k'' Hin. rewrite lookup_delete in Hin.
    case_decide; [by destruct Hin|auto].
  - intros m k x Hf k' Hin Hor. rewrite lookup_insert in Hin. case_decide; auto.
Qed.

#[export] Instance oto_calls :
  FieldCalls (GenericOneToOne R C T) (matrix_event R C T) (matrix_closure R C T) (oto_call R C T) := {
  exec := λ CK _ EV RB, oto_exec;
}.

(** ** The calls *)

(** What the code finds behind a pointer into the container. *)
Lemma oto_entry s k p :
  oto_wf s → slots (map_ s) !! k = Some p →
  ∃ x ts, deref p (map_ s) = Ok x ∧ key_of x = k ∧
    elements_of (map_ s) !! k = Some x ∧ last_modified_ s !! k = Some ts.
Proof.
  intros Hw Hp. destruct (element_of_slot _ _ _ (oto_owned _ Hw) Hp) as (x & Hx & Hd).
  destruct (oto_stamped _ Hw k) as [ts Hts]; [eauto|].
  exists x, ts. eauto using oto_keyed.
Qed.

Section Sound.
Context {CK : Type} `{!Clock CK} {EV RB : Type}.
Context (ie : matrix_event R C T → EV) (ir : matrix_closure R C T → RB).
Implicit Type j : MutationJournal EV RB.

Lemma oto_elements_erase s us k :
  oto_wf s → elements_of (map_ (DoEraseWithLastModified us k s)) = delete k (elements_of (map_ s)).
Proof. intros Hw. by apply elements_erase, oto_owned. Qed.

Lemma oto_only_in_row s k k' :
  oto_wf s → is_Some (elements_of (map_ s) !! k) → is_Some (elements_of (map_ s) !! k') →
  k'.1 = k.1 → k' = k.
Proof. intros Hw Hk Hk' E. apply (oto_fits_present s k Hw Hk); auto. Qed.

Lemma oto_only_in_col s k k' :
  oto_wf s → is_Some (elements_of (map_ s) !! k) → is_Some (elements_of (map_ s) !! k') →
  k'.2 = k.2 → k' = k.
Proof. intros Hw Hk Hk' E. apply (oto_fits_present s k Hw Hk); auto. Qed.

Lemma oto_row_free s row k :
  oto_wf s → forward_ s !! row = None → is_Some (elements_of (map_ s) !! k) → k.1 ≠ row.
Proof.
  intros Hw Hn [p Hp]%elements_slot <-; [|by apply oto_owned].
  assert (forward_ s !! k.1 = Some p) by (apply (oto_forward _ Hw); eauto). congruence.
Qed.

Lemma oto_col_free s col k :
  oto_wf s → transposed_ s !! col = None → is_Some (elements_of (map_ s) !! k) → k.2 ≠ col.
Proof.
  intros Hw Hn [p Hp]%elements_slot <-; [|by apply oto_owned].
  assert (transposed_ s !! k.2 = Some p) by (apply (oto_transposed _ Hw); eauto). congruence.
Qed.

Lemma oto_fits_intro (m : gmap (R * C) T) row col :
  (∀ k, is_Some (m !! k) → k.1 ≠ row ∧ k.2 ≠ col) → oto_fits m (row, col).
Proof. intros Hm k Hin [E|E]; simpl in E; destruct (Hm k Hin); congruence. Qed.

(** Deleting the entries of a set of keys that covers the clashes, and only
    clashing ones, leaves the entries outside the row and the column. *)
Lemma oto_filter_delete (m : gmap (R * C) T) row col k :
  (k.1 = row ∨ k.2 = col) →
  filter (outside row col) (delete k m) = filter (outside row col) m.
Proof.
  intros Hk. apply map_eq. intros k'. apply option_eq. intros y.
  rewrite !map_lookup_filter_Some, lookup_delete. unfold outside. simpl.
  case_decide; subst; naive_solver.
Qed.

Lemma oto_filter_all (m : gmap (R * C) T) row col :
  (∀ k, is_Some (m !! k) → k.1 ≠ row ∧ k.2 ≠ col) → filter (outside row col) m = m.
Proof. intros Hm. apply map_filter_id. intros k x Hx. apply Hm. eauto. Qed.

(** [ResolveConflicts] followed by the rest of [Add]. *)
Definition oto_resolved Q (row : R) (col : C) (ck : CK) s0
    (rest : microseconds → CK → GenericOneToOne R C T → MutationJournal EV RB →
            outcome fault (CK * GenericOneToOne R C T * MutationJournal EV RB)) : Prop :=
  ∀ now' ck' s' j',
    oto_wf s' → oto_fits (elements_of (map_ s')) (row, col) →
    elements_of (map_ s') = filter (outside row col) (elements_of (map_ s0)) →
    last_modified_ s' !! (row, col) = last_modified_ s0 !! (row, col) →
    call_ok ie ir Q ck' s' j' (rest now' ck' s' j').

(** The clash is on one side only: with the entry at [k]. *)
Lemma oto_resolve_one Q row col now ck s j p k rest :
  oto_wf s → elements_of (map_ s) !! (row, col) = None →
  slots (map_ s) !! k = Some p →
  (∀ k', is_Some (elements_of (map_ s) !! k') → k' ≠ k → k'.1 ≠ row ∧ k'.2 ≠ col) →
  (k.1 = row ∨ k.2 = col) → oto_resolved Q row col ck s rest →
  call_ok ie ir Q ck s j
    ('(now, ck, s, j) ←
       (conflicting_object ← deref p (map_ s);
        let conflicting_object_key := key_of conflicting_object in
        conflicting_object_timestamp ← assert_found (last_modified_ s !! conflicting_object_key);
        let j := LogMutation (ie (make_Deleted now conflicting_object))
          (ir (RestoreEntry conflicting_object_timestamp conflicting_object_key conflicting_object)) j in
        let s := DoEraseWithLastModified now conflicting_object_key s in
        let '(now, ck) := Now ck in Ok (now, ck, s, j));
     rest now ck s j).
Proof.
  intros Hw Hn Hp Hothers Hclash Hrest. destruct (oto_entry _ _ _ Hw Hp) as (x & ts & -> & <- & Hx & Hts).
  simpl. rewrite Hts. simpl. destruct (Now ck) as [now' ck'] eqn:Hck. apply Now_low_next in Hck. simpl.
  assert (key_of x ≠ (row, col)) by congruence.
  eapply matrix_erase_then; eauto. intros Hw1.
  assert (∀ k', is_Some (delete (key_of x) (elements_of (map_ s)) !! k') → k'.1 ≠ row ∧ k'.2 ≠ col)
    by (intros k' [? ?]%delete_is_Some; auto).
  apply Hrest; rewrite ?oto_elements_erase by done; [done|..].
  - by apply oto_fits_intro.
  - rewrite <- (oto_filter_delete _ _ _ (key_of x)) by done. by rewrite oto_filter_all.
  - simpl. by rewrite lookup_insert_ne.
Qed.

Lemma ResolveConflicts_ok Q row col now ck s j rest :
  oto_wf s → elements_of (map_ s) !! (row, col) = None → oto_resolved Q row col ck s rest →
  call_ok ie ir Q ck s j
    ('(now, ck, s, j) ← ResolveConflicts ie ir row col now ck s j; rest now ck s j).
Proof.
  intros Hw Hn Hrest. unfold ResolveConflicts.
  destruct (forward_ s !! row) as [p|] eqn:Hr, (transposed_ s !! col) as [q|] eqn:Hc.
  - apply (oto_forward _ Hw) in Hr as ([r1 c1] & Hr & Hp). simpl in Hr. subst r1.
    apply (oto_transposed _ Hw) in Hc as ([r2 c2] & Hc & Hq). simpl in Hc. subst c2.
    destruct (oto_entry _ _ _ Hw Hp) as (x & tx & Hdx & Hkx & Hx & Htx).
    destruct (oto_entry _ _ _ Hw Hq) as (y & ty & Hdy & Hky & Hy & Hty).
    unfold key_of in Hkx, Hky. injection Hkx as Hrx Hcx. injection Hky as Hry Hcy.
    rewrite Hdx. simpl. rewrite Hdy. simpl. rewrite Hcx, Htx. simpl. rewrite Hry, Hty. simpl.
    destruct (Now ck) as [now1 ck1] eqn:Hck1. apply Now_low_next in Hck1.
    apply (matrix_erase_then ie ir _ _ ck1 _ _ now (row, c1) x tx); try done. intros Hw1.
    assert ((row, c1) ≠ (r2, col)) as Hne by congruence.
    assert (deref q (erase (row, c1) (map_ s)) = Ok y) as ->.
    { eapply deref_element; [|simpl; by rewrite lookup_delete_ne].
      rewrite elements_erase, lookup_delete_ne by eauto using oto_owned. done. }
    simpl. destruct (Now ck1) as [now2 ck2] eqn:Hck2. apply Now_low_next in Hck2. simpl.
    apply (matrix_erase_then ie ir _ _ ck2 _ _ now1 (r2, col) y ty); try done.
    { change (elements_of (map_ (DoEraseWithLastModified now (row, c1) s)) !! (r2, col) = Some y).
      rewrite oto_elements_erase by done. by rewrite lookup_delete_ne. }
    { simpl. by rewrite lookup_insert_ne. }
    intros Hw2.
    assert (∀ k, is_Some (delete (r2, col) (delete (row, c1) (elements_of (map_ s))) !! k) →
            k.1 ≠ row ∧ k.2 ≠ col) as Hout.
    { intros k [Hk2 [Hk1 Hin]%delete_is_Some]%delete_is_Some. split; intros E.
      - destruct Hk1. exact (oto_only_in_row _ (row, c1) _ Hw (mk_is_Some _ _ Hx) Hin E).
      - destruct Hk2. exact (oto_only_in_col _ (r2, col) _ Hw (mk_is_Some _ _ Hy) Hin E). }
    apply Hrest; rewrite ?oto_elements_erase by done; [done|..].
    + by apply oto_fits_intro.
    + rewrite <- (oto_filter_all _ row col) by done. rewrite !oto_filter_delete; auto.
    + simpl. rewrite !lookup_insert_ne by congruence. done.
  - apply (oto_forward _ Hw) in Hr as ([r1 c1] & Hr & Hp). simpl in Hr. subst r1.
    eapply oto_resolve_one; eauto. intros k Hin Hne. split.
    + intros E. destruct Hne. eapply oto_only_in_row; eauto. by apply elements_slot; eauto using oto_owned.
    + eauto using oto_col_free.
  - apply (oto_transposed _ Hw) in Hc as ([r2 c2] & Hc & Hq). simpl in Hc. subst c2.
    eapply oto_resolve_one; eauto. intros k Hin Hne. split.
    + eauto using oto_row_free.
    + intros E. destruct Hne. eapply oto_only_in_col; eauto. by apply elements_slot; eauto using oto_owned.
  - assert (∀ k, is_Some (elements_of (map_ s) !! k) → k.1 ≠ row ∧ k.2 ≠ col) as Hout
      by eauto using oto_row_free, oto_col_free.
    apply Hrest; [done| | |done]; [by apply oto_fits_intro|by rewrite oto_filter_all].
Qed.

(** An entry alone in its row and column is all that [outside] drops. *)
Lemma oto_delete_filter s k :
  oto_wf s → is_Some (elements_of (map_ s) !! k) →
  delete k (elements_of (map_ s)) = delete k (filter (outside k.1 k.2) (elements_of (map_ s))).
Proof.
  intros Hw Hin. rewrite (delete_id (filter _ _)).
  - apply delete_is_filter; [unfold outside; naive_solver|].
    intros k' x Hx Hne. split; simpl; intros E; destruct Hne.
    + eapply oto_only_in_row; eauto.
    + eapply oto_only_in_col; eauto.
  - apply map_lookup_filter_None. unfold outside. naive_solver.
Qed.

(** What an [Add] leaves: the new entry, and the old ones outside its row
    and its column. *)
Definition oto_added (object : T) s s' : Prop :=
  elements_of (map_ s') =
    <[key_of object := object]>
      (filter (outside (GetRow object) (GetCol object)) (elements_of (map_ s))).

Lemma oto_Add_ok object ck s j :
  oto_wf s → call_ok ie ir (oto_added object s) ck s j (Add ie ir object ck s j).
Proof.
  intros Hw. unfold Add. destruct (Now ck) as [now ck1] eqn:Hck. apply Now_low_next in Hck.
  destruct (slots (map_ s) !! (GetRow object, GetCol object)) as [p|] eqn:Hp.
  - destruct (oto_entry _ _ _ Hw Hp) as (x & ts & -> & _ & Hx & Hts). simpl. rewrite Hts. simpl.
    use_law (matrix_update_call ie ir (oto_added object s) ck ck1 s j now object); [done| | |done|].
    + apply oto_fits_present; eauto.
    + unfold undoes_update. simpl. unfold key_of. by rewrite Hx, Hts.
    + unfold oto_added. simpl. rewrite elements_assign by eauto using oto_owned.
      rewrite <- insert_delete_eq, <- (insert_delete_eq (filter _ _)). f_equal.
      apply oto_delete_filter; [done|]. by eexists.
  - assert (elements_of (map_ s) !! (GetRow object, GetCol object) = None) as Hn.
    { apply eq_None_not_Some. rewrite <- elements_slot by eauto using oto_owned. rewrite Hp. by intros []. }
    eapply call_ok_ck; [exact Hck|]. apply ResolveConflicts_ok; [done..|].
    intros now' ck' s' j' Hw' Hfit He Hlm.
    assert (elements_of (map_ s') !! key_of object = None) as Hn'.
    { rewrite He. apply map_lookup_filter_None. unfold key_of. auto. }
    assert (oto_added object s (DoUpdateWithLastModified now' (key_of object) object s')) as HQ.
    { unfold oto_added. simpl. rewrite elements_assign by eauto using oto_owned. by rewrite He. }
    case_bool_decide as Hlm0.
    + rewrite Hlm. destruct Hlm0 as [ps Hps]. rewrite Hps. simpl.
      use_law (matrix_update_call ie ir (oto_added object s) ck' ck' s' j' now' object); [done..| |done|done].
      unfold undoes_update. simpl. rewrite Hn'. unfold key_of. by rewrite Hlm, Hps.
    + apply eq_None_not_Some in Hlm0.
      use_law (matrix_update_call ie ir (oto_added object s) ck' ck' s' j' now' object); [done..| |done|done].
      unfold undoes_update. simpl. rewrite Hn'. unfold key_of. by rewrite Hlm, Hlm0.
Qed.

Lemma oto_Erase_ok key ck s j :
  oto_wf s →
  call_ok ie ir (λ s', elements_of (map_ s') = delete key (elements_of (map_ s))) ck s j
    (Erase ie ir key ck s j).
Proof.
  intros Hw. unfold Erase. destruct (Now ck) as [now ck1] eqn:Hck. apply Now_low_next in Hck.
  destruct (slots (map_ s) !! key) as [p|] eqn:Hp.
  - destruct (oto_entry _ _ _ Hw Hp) as (x & ts & -> & _ & Hx & Hts). simpl. rewrite Hts. simpl.
    use_law (λ Q, matrix_erase_call ie ir Q ck ck1 s j now); [done..|]. by apply oto_elements_erase.
  - apply call_ok_none; [done..|]. rewrite delete_id; [done|]. apply eq_None_not_Some.
    rewrite <- elements_slot by eauto using oto_owned. rewrite Hp. by intros [].
Qed.

Lemma oto_EraseRow_ok row ck s j :
  oto_wf s →
  call_ok ie ir (λ s', elements_of (map_ s') = filter (λ kv, kv.1.1 ≠ row) (elements_of (map_ s))) ck s j
    (EraseRow ie ir row ck s j).
Proof.
  intros Hw. unfold EraseRow. destruct (Now ck) as [now ck1] eqn:Hck. apply Now_low_next in Hck.
  destruct (forward_ s !! row) as [p|] eqn:Hp.
  - apply (oto_forward _ Hw) in Hp as ([r c] & Hr & Hp). simpl in Hr. subst r.
    destruct (oto_entry _ _ _ Hw Hp) as (x & ts & -> & Hk & Hx & Hts). injection Hk as _ Hc.
    simpl. rewrite Hc, Hts. simpl. use_law (λ Q, matrix_erase_call ie ir Q ck ck1 s j now); [done..|].
    rewrite oto_elements_erase by done. apply delete_is_filter; [by intros y []|].
    intros k y Hin%mk_is_Some Hne E. destruct Hne. exact (oto_only_in_row _ (row, c) _ Hw (mk_is_Some _ _ Hx) Hin E).
  - apply call_ok_none; [done..|]. symmetry. apply map_filter_id. intros k x Hx. simpl.
    eauto using oto_row_free.
Qed.

Lemma oto_EraseCol_ok col ck s j :
  oto_wf s →
  call_ok ie ir (λ s', elements_of (map_ s') = filter (λ kv, kv.1.2 ≠ col) (elements_of (map_ s))) ck s j
    (EraseCol ie ir col ck s j).
Proof.
  intros Hw. unfold EraseCol. destruct (Now ck) as [now ck1] eqn:Hck. apply Now_low_next in Hck.
  destruct (transposed_ s !! col) as [p|] eqn:Hp.
  - apply (oto_transposed _ Hw) in Hp as ([r c] & Hr & Hp). simpl in Hr. subst c.
    destruct (oto_entry _ _ _ Hw Hp) as (x & ts & -> & Hk & Hx & Hts). injection Hk as Hr _.
    simpl. rewrite Hr, Hts. simpl. use_law (λ Q, matrix_erase_call ie ir Q ck ck1 s j now); [done..|].
    rewrite oto_elements_erase by done. apply delete_is_filter; [by intros y []|].
    intros k y Hin%mk_is_Some Hne E. destruct Hne. exact (oto_only_in_col _ (r, col) _ Hw (mk_is_Some _ _ Hx) Hin E).
  - apply call_ok_none; [done..|]. symmetry. apply map_filter_id. intros k x Hx. simpl.
    eauto using oto_col_free.
Qed.
End Sound.

#[export] Instance oto_field_sound :
  JournaledFieldSound (GenericOneToOne R C T) (matrix_event R C T) (matrix_closure R C T) (oto_call R C T).
Proof.
  split. intros CK ? EV' RB' ie ir m ck c j Hw. destruct m.
  - by eapply call_ok_weaken, oto_Add_ok.
  - by eapply call_ok_weaken, oto_Erase_ok.
  - by eapply call_ok_weaken, oto_EraseRow_ok.
  - by eapply call_ok_weaken, oto_EraseCol_ok.
Qed.
End OneToOne.
