(* ===== verification/OneToMany.v ===== *)
(** * OneToMany: storage/container/one_to_many.h

    [GenericOneToMany]: a row may have many columns, a column at most one row.
    [forward_] maps a row to its columns and never keeps an empty row;
    [transposed_] maps a column to its one entry.  Adding an entry erases the
    entry of another row that holds the column. *)

From stdpp Require Import base gmap list.
From Stdlib Require Import ZArith Lia.
From S2P Require Import Prelude Time Journal OwnedMap Index Matrix.
Open Scope Z_scope.

Record GenericOneToMany (R C T : Type) `{Countable R, Countable C} := mkOneToMany {
  map_ : owned (R * C) T;
  forward_ : gmap R (gmap C loc);
  transposed_ : gmap C loc;
  last_modified_ : gmap (R * C) microseconds;
}.
Arguments mkOneToMany {R C T _ _ _ _} _ _ _ _.
Arguments map_ {R C T _ _ _ _} _.
Arguments forward_ {R C T _ _ _ _} _.
Arguments transposed_ {R C T _ _ _ _} _.
Arguments last_modified_ {R C T _ _ _ _} _.

Inductive otm_call (R C T : Type) :=
| CallAdd (object : T)
| CallErase (key : R * C)
| CallEraseCol (col : C).
Arguments CallAdd {R C T} object.
Arguments CallErase {R C T} key.
Arguments CallEraseCol {R C T} col.

Section OneToMany.
Context `{Countable R, Countable C} {T : Type} `{!MatrixEntry T R C}.
Implicit Type s : GenericOneToMany R C T.

Definition otm_init : GenericOneToMany R C T := mkOneToMany owned_empty ∅ ∅ ∅.

(** ** The private methods *)

Definition DoUpdateWithLastModified (us : microseconds) (key : R * C) (object : T) s
    : GenericOneToMany R C T :=
  let placeholder := assigned_loc (map_ s) in
  mkOneToMany (assign key object (map_ s))
              (nested_assign key.1 key.2 placeholder (forward_ s))
              (<[key.2 := placeholder]> (transposed_ s))
              (<[key := us]> (last_modified_ s)).

Definition DoEraseWithoutTouchingLastModified (key : R * C) s : GenericOneToMany R C T :=
  mkOneToMany (erase key (map_ s)) (nested_erase key.1 key.2 (forward_ s))
              (delete key.2 (transposed_ s)) (last_modified_ s).

Definition DoEraseWithLastModified (us : microseconds) (key : R * C) s : GenericOneToMany R C T :=
  DoEraseWithoutTouchingLastModified key
    (mkOneToMany (map_ s) (forward_ s) (transposed_ s) (<[key := us]> (last_modified_ s))).

Definition ForgetAndErase (key : R * C) s : GenericOneToMany R C T :=
  DoEraseWithoutTouchingLastModified key
    (mkOneToMany (map_ s) (forward_ s) (transposed_ s) (delete key (last_modified_ s))).

(** ** Queries *)

Definition Empty s : bool := bool_decide (slots (map_ s) = ∅).
Definition Size s : nat := size (slots (map_ s)).
Definition Has (key : R * C) s : bool := bool_decide (is_Some (slots (map_ s) !! key)).
Definition Get (key : R * C) s : outcome fault (option T) := index_get (slots (map_ s)) key (map_ s).
Definition GetEntryFromCol (col : C) s : outcome fault (option T) :=
  index_get (transposed_ s) col (map_ s).
Definition LastModified (key : R * C) s : option microseconds := last_modified_ s !! key.
Definition DoesNotConflict (key : R * C) s : bool := bool_decide (transposed_ s !! key.2 = None).

(** [Row(row)]: the columns of a row, an empty view when there is no such row. *)
Definition Row (row : R) s : gmap C loc := default ∅ (forward_ s !! row).
(** [Rows()]: [Has] and [Size] of the outer accessor. *)
Definition Rows_Has (row : R) s : bool := bool_decide (is_Some (forward_ s !! row)).
Definition Rows_Size s : nat := size (forward_ s).

(** ** Mutations *)

Section Operations.
Context {CK : Type} `{!Clock CK} {EV RB : Type}.
Context (this_ev : matrix_event R C T → EV) (this_rb : matrix_closure R C T → RB).

Definition ResolveConflict (col : C) (now : microseconds) (ck : CK) s (journal_ : MutationJournal EV RB)
    : outcome fault (microseconds * CK * GenericOneToMany R C T * MutationJournal EV RB) :=
  match transposed_ s !! col with
  | Some transposed_cit =>
      conflicting_object ← deref transposed_cit (map_ s);
      let conflicting_object_key := (GetRow conflicting_object, col) in
      conflicting_object_timestamp ← assert_found (last_modified_ s !! conflicting_object_key);
      let journal_ := LogMutation (this_ev (make_Deleted now conflicting_object))
        (this_rb (RestoreEntry conflicting_object_timestamp conflicting_object_key conflicting_object))
        journal_ in
      let s := DoEraseWithLastModified now conflicting_object_key s in
      let '(now, ck) := Now ck in
      Ok (now, ck, s, journal_)
  | None => Ok (now, ck, s, journal_)
  end.

Definition Add (object : T) (ck : CK) s (journal_ : MutationJournal EV RB)
    : outcome fault (CK * GenericOneToMany R C T * MutationJournal EV RB) :=
  let '(now, ck) := Now ck in
  let row := GetRow object in
  let col := GetCol object in
  let key := (row, col) in
  match slots (map_ s) !! key with
  | Some map_cit =>
      previous_object ← deref map_cit (map_ s);
      previous_timestamp ← assert_found (last_modified_ s !! key);
      let journal_ := LogMutation (this_ev (Updated now object))
                        (this_rb (RestoreEntry previous_timestamp key previous_object)) journal_ in
      Ok (ck, DoUpdateWithLastModified now key object s, journal_)
  | None =>
      let lm_found := bool_decide (is_Some (last_modified_ s !! key)) in
      '(now, ck, s, journal_) ← ResolveConflict col now ck s journal_;
      if lm_found then
        previous_timestamp ← assert_found (last_modified_ s !! key);
        let journal_ := LogMutation (this_ev (Updated now object))
                          (this_rb (EraseEntry previous_timestamp key)) journal_ in
        Ok (ck, DoUpdateWithLastModified now key object s, journal_)
      else
        let journal_ := LogMutation (this_ev (Updated now object))
                          (this_rb (ForgetEntry key)) journal_ in
        Ok (ck, DoUpdateWithLastModified now key object s, journal_)
  end.

Definition Erase (key : R * C) (ck : CK) s (journal_ : MutationJournal EV RB)
    : outcome fault (CK * GenericOneToMany R C T * MutationJournal EV RB) :=
  let '(now, ck) := Now ck in
  match slots (map_ s) !! key with
  | Some map_cit =>
      previous_object ← deref map_cit (map_ s);
      previous_timestamp ← assert_found (last_modified_ s !! key);
      let journal_ := LogMutation (this_ev (make_Deleted now previous_object))
                        (this_rb (RestoreEntry previous_timestamp key previous_object)) journal_ in
      Ok (ck, DoEraseWithLastModified now key s, journal_)
  | None => Ok (ck, s, journal_)
  end.

Definition EraseCol (col : C) (ck : CK) s (journal_ : MutationJournal EV RB)
    : outcome fault (CK * GenericOneToMany R C T * MutationJournal EV RB) :=
  let '(now, ck) := Now ck in
  match transposed_ s !! col with
  | Some map_cit =>
      previous_object ← deref map_cit (map_ s);
      let key := (GetRow previous_object, col) in
      previous_timestamp ← assert_found (last_modified_ s !! key);
      let journal_ := LogMutation (this_ev (make_Deleted now previous_object))
                        (this_rb (RestoreEntry previous_timestamp key previous_object)) journal_ in
      Ok (ck, DoEraseWithLastModified now key s, journal_)
  | None => Ok (ck, s, journal_)
  end.

Definition otm_exec (m : otm_call R C T) (ck : CK) s (journal_ : MutationJournal EV RB)
    : outcome fault (CK * GenericOneToMany R C T * MutationJournal EV RB) :=
  match m with
  | CallAdd object => Add object ck s journal_
  | CallErase key => Erase key ck s journal_
  | CallEraseCol col => EraseCol col ck s journal_
  end.
End Operations.

(** ** Invariant *)

Record otm_wf s : Prop := {
  otm_owned : owned_wf (map_ s);
  otm_keyed : ∀ k x, elements_of (map_ s) !! k = Some x → key_of x = k;
  otm_forward : nested_ok fst snd (forward_ s) (map_ s);
  otm_transposed : index_ok snd (transposed_ s) (map_ s);
  otm_stamped : ∀ k, is_Some (elements_of (map_ s) !! k) → is_Some (last_modified_ s !! k);
}.

(** No other entry in the column. *)
Definition otm_fits (m : gmap (R * C) T) (k : R * C) : Prop :=
  ∀ k', is_Some (m !! k') → k'.2 = k.2 → k' = k.

#[export] Instance otm_matrix : Matrix (R:=R) (C:=C) (T:=T) (GenericOneToMany R C T) := {
  mx_elements s := elements_of (map_ s);
  mx_last_modified := last_modified_;
  mx_update := DoUpdateWithLastModified;
  mx_erase := DoEraseWithLastModified;
  mx_forget := ForgetAndErase;
  mx_wf := otm_wf;
  mx_fits := otm_fits;
}.

Lemma pair_joint_inj (k1 k2 : R * C) : k1.1 = k2.1 → k1.2 = k2.2 → k1 = k2.
Proof. destruct k1, k2. simpl. congruence. Qed.

Lemma otm_init_wf : otm_wf otm_init.
Proof.
  split; simpl; auto using owned_empty_wf, index_empty, nested_empty.
  - intros k x (p & Hp & _)%elements_lookup. simpl in Hp. by rewrite lookup_empty in Hp.
  - intros k [x (p & Hp & _)%elements_lookup]. simpl in Hp. by rewrite lookup_empty in Hp.
Qed.

Lemma otm_update_wf s us k x :
  otm_wf s → key_of x = k → otm_fits (elements_of (map_ s)) k →
  otm_wf (DoUpdateWithLastModified us k x s).
Proof.
  intros [Ho Hk Hf Ht Hl] Hx Hfit. split; simpl; auto using assign_wf.
  - intros k' y. rewrite elements_assign, lookup_insert by done. case_decide; [naive_solver|eauto].
  - apply nested_assign_ok; [apply pair_joint_inj|done].
  - apply index_assign; [done|]. intros k' Hk' ?. apply Hfit; [by apply elements_slot|done].
  - intros k'. rewrite elements_assign, !lookup_insert by done. case_decide; [eauto|auto].
Qed.

Lemma otm_erase_wf s k lm :
  otm_wf s → is_Some (elements_of (map_ s) !! k) →
  (∀ k', k' ≠ k → is_Some (last_modified_ s !! k') → is_Some (lm !! k')) →
  otm_wf (DoEraseWithoutTouchingLastModified k (mkOneToMany (map_ s) (forward_ s) (transposed_ s) lm)).
Proof.
  intros [Ho Hk Hf Ht Hl] Hin Hlm. pose proof Hin as Hs. apply elements_slot in Hs; [|done].
  split; simpl; auto using erase_wf, index_erase.
  - intros k' y. rewrite elements_erase, lookup_delete by done. case_decide; [done|eauto].
  - apply nested_erase_ok; [apply pair_joint_inj|done].
  - intros k'. rewrite elements_erase, lookup_delete by done.
    case_decide; [by intros []|auto].
Qed.

Lemma otm_fits_present s k :
  otm_wf s → is_Some (elements_of (map_ s) !! k) → otm_fits (elements_of (map_ s)) k.
Proof.
  intros [Ho Hk Hf Ht Hl] Hin k' Hin' E. apply elements_slot in Hin, Hin'; [|done..].
  eapply (index_unique snd); eauto.
Qed.

#[export] Instance otm_matrix_sound : MatrixSound (GenericOneToMany R C T).
Proof.
  split; simpl.
  - intros s k x Hw. by apply otm_keyed.
  - intros s k Hw. by apply otm_stamped.
  - intros s us k x Hw Hx Hf. split; [by apply otm_update_wf|].
    split; [|done]. simpl. by apply elements_assign, otm_owned.
  - intros s us k Hw Hin. split; [|split; [|done]].
    + apply otm_erase_wf; [done..|]. intros k' Hne ?. by rewrite lookup_insert_ne.
    + simpl. by apply elements_erase, otm_owned.
  - intros s k Hw Hin. split; [|split; [|done]].
    + apply otm_erase_wf; [done..|]. intros k' Hne ?. by rewrite lookup_delete_ne.
    + simpl. by apply elements_erase, otm_owned.
  - apply otm_fits_present.
  - intros m k k' Hf k'' Hin. apply delete_is_Some in Hin as [_ Hin]. by apply Hf.
  - intros m k x Hf k' Hin E. rewrite lookup_insert in Hin. case_decide; auto.
Qed.

#[export] Instance otm_calls :
  FieldCalls (GenericOneToMany R C T) (matrix_event R C T) (matrix_closure R C T) (otm_call R C T) := {
  exec := λ CK _ EV RB, otm_exec;
}.

(** ** The calls *)

Lemma otm_entry s k p :
  otm_wf s → slots (map_ s) !! k = Some p →
  ∃ x ts, deref p (map_ s) = Ok x ∧ key_of x = k ∧
    elements_of (map_ s) !! k = Some x ∧ last_modified_ s !! k = Some ts.
Proof.
  intros Hw Hp. destruct (element_of_slot _ _ _ (otm_owned _ Hw) Hp) as (x & Hx & Hd).
  destruct (otm_stamped _ Hw k) as [ts Hts]; [eauto|].
  exists x, ts. eauto using otm_keyed.
Qed.

Lemma otm_col_free s col k :
  otm_wf s → transposed_ s !! col = None → is_Some (elements_of (map_ s) !! k) → k.2 ≠ col.
Proof.
  intros Hw Hn [p Hp]%elements_slot <-; [|by apply otm_owned].
  assert (transposed_ s !! k.2 = Some p) by (apply (otm_transposed _ Hw); eauto). congruence.
Qed.

(** The column of a present entry holds nothing else. *)
Lemma otm_delete_col s k :
  otm_wf s → is_Some (elements_of (map_ s) !! k) →
  delete k (elements_of (map_ s)) = filter (λ kv, kv.1.2 ≠ k.2) (elements_of (map_ s)).
Proof.
  intros Hw Hin. apply delete_is_filter; [by intros y []|].
  intros k' y Hk' Hne E. destruct Hne. apply (otm_fits_present _ _ Hw Hin); eauto.
Qed.

(** What an [Add] leaves: the new entry, and the old ones of other columns. *)
Definition otm_added (object : T) s s' : Prop :=
  elements_of (map_ s') =
    <[key_of object := object]> (filter (λ kv, kv.1.2 ≠ GetCol object) (elements_of (map_ s))).

Lemma otm_elements_update s us k x :
  otm_wf s → elements_of (map_ (DoUpdateWithLastModified us k x s)) = <[k := x]> (elements_of (map_ s)).
Proof. intros Hw. by apply elements_assign, otm_owned. Qed.

Lemma otm_elements_erase s us k :
  otm_wf s → elements_of (map_ (DoEraseWithLastModified us k s)) = delete k (elements_of (map_ s)).
Proof. intros Hw. by apply elements_erase, otm_owned. Qed.

Section Sound.
Context {CK : Type} `{!Clock CK} {EV RB : Type}.
Context (ie : matrix_event R C T → EV) (ir : matrix_closure R C T → RB).
Implicit Type j : MutationJournal EV RB.

Definition otm_resolved Q (row : R) (col : C) (ck : CK) s0
    (rest : microseconds → CK → GenericOneToMany R C T → MutationJournal EV RB →
            outcome fault (CK * GenericOneToMany R C T * MutationJournal EV RB)) : Prop :=
  ∀ now' ck' s' j',
    otm_wf s' →
    elements_of (map_ s') = filter (λ kv, kv.1.2 ≠ col) (elements_of (map_ s0)) →
    last_modified_ s' !! (row, col) = last_modified_ s0 !! (row, col) →
    call_ok ie ir Q ck' s' j' (rest now' ck' s' j').

Lemma ResolveConflict_ok Q row col now ck s j rest :
  otm_wf s → elements_of (map_ s) !! (row, col) = None → otm_resolved Q row col ck s rest →
  call_ok ie ir Q ck s j
    ('(now, ck, s, j) ← ResolveConflict ie ir col now ck s j; rest now ck s j).
Proof.
  intros Hw Hn Hrest. unfold ResolveConflict.
  destruct (transposed_ s !! col) as [q|] eqn:Hc; simpl.
  - apply (otm_transposed _ Hw) in Hc as ([r c] & Hc & Hq). simpl in Hc. subst c.
    destruct (otm_entry _ _ _ Hw Hq) as (y & ty & -> & Hky & Hy & Hty). injection Hky as Hry Hcy.
    simpl. rewrite Hry, Hty. simpl.
    destruct (Now ck) as [now1 ck1] eqn:Hck1. apply Now_low_next in Hck1. simpl.
    use_law (matrix_erase_then ie ir Q ck ck1 s j now (r, col) y ty); [done..|].
    intros Hw1. apply Hrest; [done|..].
    + etrans; [by apply otm_elements_erase|]. apply (otm_delete_col s (r, col)); eauto.
    + simpl. rewrite lookup_insert_ne; [done|]. congruence.
  - apply Hrest; [done| |done]. symmetry. apply map_filter_id. intros k x Hx. simpl.
    eauto using otm_col_free.
Qed.

Lemma otm_Add_ok object ck s j :
  otm_wf s → call_ok ie ir (otm_added object s) ck s j (Add ie ir object ck s j).
Proof.
  intros Hw. unfold Add. destruct (Now ck) as [now ck1] eqn:Hck. apply Now_low_next in Hck.
  destruct (slots (map_ s) !! (GetRow object, GetCol object)) as [p|] eqn:Hp.
  - destruct (otm_entry _ _ _ Hw Hp) as (x & ts & -> & _ & Hx & Hts). simpl. rewrite Hts. simpl.
    use_law (matrix_update_call ie ir (otm_added object s) ck ck1 s j now object); [done| | |done|].
    + apply otm_fits_present; eauto.
    + unfold undoes_update. simpl. unfold key_of. by rewrite Hx, Hts.
    + unfold otm_added. rewrite <- insert_delete_eq. etrans; [by apply otm_elements_update|].
      rewrite <- insert_delete_eq. f_equal.
      rewrite (otm_delete_col s (key_of object)) by eauto. simpl.
      rewrite delete_id; [done|]. apply map_lookup_filter_None. right. intros y _ []. done.
  - assert (elements_of (map_ s) !! (GetRow object, GetCol object) = None) as Hn.
    { apply eq_None_not_Some. rewrite <- elements_slot by eauto using otm_owned. rewrite Hp. by intros []. }
    eapply call_ok_ck; [exact Hck|]. eapply ResolveConflict_ok; [done..|].
    intros now' ck' s' j' Hw' He Hlm.
    assert (elements_of (map_ s') !! key_of object = None) as Hn'.
    { rewrite He. apply map_lookup_filter_None. right. intros y _ []. done. }
    assert (otm_fits (elements_of (map_ s')) (key_of object)) as Hfit.
    { rewrite He. intros k [y [_ Hne]%map_lookup_filter_Some] E. by destruct Hne. }
    assert (otm_added object s (DoUpdateWithLastModified now' (key_of object) object s')) as HQ.
    { unfold otm_added. rewrite otm_elements_update by done. by rewrite He. }
    case_bool_decide as Hlm0.
    + rewrite Hlm. destruct Hlm0 as [ps Hps]. rewrite Hps. simpl.
      use_law (matrix_update_call ie ir (otm_added object s) ck' ck' s' j' now' object); [done..| |done|done].
      unfold undoes_update. simpl. rewrite Hn'. unfold key_of. by rewrite Hlm, Hps.
    + apply eq_None_not_Some in Hlm0.
      use_law (matrix_update_call ie ir (otm_added object s) ck' ck' s' j' now' object); [done..| |done|done].
      unfold undoes_update. simpl. rewrite Hn'. unfold key_of. by rewrite Hlm, Hlm0.
Qed.

Lemma otm_Erase_ok key ck s j :
  otm_wf s →
  call_ok ie ir (λ s', elements_of (map_ s') = delete key (elements_of (map_ s))) ck s j
    (Erase ie ir key ck s j).
Proof.
  intros Hw. unfold Erase. destruct (Now ck) as [now ck1] eqn:Hck. apply Now_low_next in Hck.
  destruct (slots (map_ s) !! key) as [p|] eqn:Hp.
  - destruct (otm_entry _ _ _ Hw Hp) as (x & ts & -> & _ & Hx & Hts). simpl. rewrite Hts. simpl.
    use_law (λ Q, matrix_erase_call ie ir Q ck ck1 s j now); [done..|]. by apply otm_elements_erase.
  - apply call_ok_none; [done..|]. rewrite delete_id; [done|]. apply eq_None_not_Some.
    rewrite <- elements_slot by eauto using otm_owned. rewrite Hp. by intros [].
Qed.

Lemma otm_EraseCol_ok col ck s j :
  otm_wf s →
  call_ok ie ir (λ s', elements_of (map_ s') = filter (λ kv, kv.1.2 ≠ col) (elements_of (map_ s))) ck s j
    (EraseCol ie ir col ck s j).
Proof.
  intros Hw. unfold EraseCol. destruct (Now ck) as [now ck1] eqn:Hck. apply Now_low_next in Hck.
  destruct (transposed_ s !! col) as [p|] eqn:Hp.
  - apply (otm_transposed _ Hw) in Hp as ([r c] & Hr & Hp). simpl in Hr. subst c.
    destruct (otm_entry _ _ _ Hw Hp) as (x & ts & -> & Hk & Hx & Hts). injection Hk as Hr _.
    simpl. rewrite Hr, Hts. simpl. use_law (λ Q, matrix_erase_call ie ir Q ck ck1 s j now); [done..|].
    etrans; [by apply otm_elements_erase|]. apply (otm_delete_col s (r, col)); eauto.
  - apply call_ok_none; [done..|]. symmetry. apply map_filter_id. intros k x Hx. simpl.
    eauto using otm_col_free.
Qed.
End Sound.

#[export] Instance otm_field_sound :
  JournaledFieldSound (GenericOneToMany R C T) (matrix_event R C T) (matrix_closure R C T) (otm_call R C T).
Proof.
  split. intros CK ? EV' RB' ie ir m ck c j Hw. destruct m.
  - by eapply call_ok_weaken, otm_Add_ok.
  - by eapply call_ok_weaken, otm_Erase_ok.
  - by eapply call_ok_weaken, otm_EraseCol_ok.
Qed.
End OneToMany.
