(* ===== verification/ManyToMany.v ===== *)
(** * ManyToMany: storage/container/many_to_many.h

    [GenericManyToMany]: any set of (row, column) pairs.  Both [forward_] and
    [transposed_] are maps of maps, and neither ever keeps an empty inner map. *)

From stdpp Require Import base gmap list.
From Stdlib Require Import ZArith Lia.
From S2P Require Import Prelude Time Journal OwnedMap Index Matrix.
Open Scope Z_scope.

Record GenericManyToMany (R C T : Type) `{Countable R, Countable C} := mkManyToMany {
  map_ : owned (R * C) T;
  forward_ : gmap R (gmap C loc);
  transposed_ : gmap C (gmap R loc);
  last_modified_ : gmap (R * C) microseconds;
}.
Arguments mkManyToMany {R C T _ _ _ _} _ _ _ _.
Arguments map_ {R C T _ _ _ _} _.
Arguments forward_ {R C T _ _ _ _} _.
Arguments transposed_ {R C T _ _ _ _} _.
Arguments last_modified_ {R C T _ _ _ _} _.

Inductive mtm_call (R C T : Type) :=
| CallAdd (object : T)
| CallErase (key : R * C).
Arguments CallAdd {R C T} object.
Arguments CallErase {R C T} key.

Section ManyToMany.
Context `{Countable R, Countable C} {T : Type} `{!MatrixEntry T R C}.
Implicit Type s : GenericManyToMany R C T.

Definition mtm_init : GenericManyToMany R C T := mkManyToMany owned_empty ∅ ∅ ∅.

(** ** The private methods *)

Definition DoUpdateWithLastModified (us : microseconds) (key : R * C) (object : T) s
    : GenericManyToMany R C T :=
  let placeholder := assigned_loc (map_ s) in
  mkManyToMany (assign key object (map_ s))
               (nested_assign key.1 key.2 placeholder (forward_ s))
               (nested_assign key.2 key.1 placeholder (transposed_ s))
               (<[key := us]> (last_modified_ s)).

Definition DoEraseWithoutTouchingLastModified (key : R * C) s : GenericManyToMany R C T :=
  mkManyToMany (erase key (map_ s)) (nested_erase key.1 key.2 (forward_ s))
               (nested_erase key.2 key.1 (transposed_ s)) (last_modified_ s).

Definition DoEraseWithLastModified (us : microseconds) (key : R * C) s : GenericManyToMany R C T :=
  DoEraseWithoutTouchingLastModified key
    (mkManyToMany (map_ s) (forward_ s) (transposed_ s) (<[key := us]> (last_modified_ s))).

Definition ForgetAndErase (key : R * C) s : GenericManyToMany R C T :=
  DoEraseWithoutTouchingLastModified key
    (mkManyToMany (map_ s) (forward_ s) (transposed_ s) (delete key (last_modified_ s))).

(** ** Queries *)

Definition Empty s : bool := bool_decide (slots (map_ s) = ∅).
Definition Size s : nat := size (slots (map_ s)).
Definition Has (key : R * C) s : bool := bool_decide (is_Some (slots (map_ s) !! key)).
Definition Get (key : R * C) s : outcome fault (option T) := index_get (slots (map_ s)) key (map_ s).
Definition LastModified (key : R * C) s : option microseconds := last_modified_ s !! key.
Definition Row (row : R) s : gmap C loc := default ∅ (forward_ s !! row).
Definition Col (col : C) s : gmap R loc := default ∅ (transposed_ s !! col).
Definition Rows_Has (row : R) s : bool := bool_decide (is_Some (forward_ s !! row)).
Definition Cols_Has (col : C) s : bool := bool_decide (is_Some (transposed_ s !! col)).

(** ** Mutations *)

Section Operations.
Context {CK : Type} `{!Clock CK} {EV RB : Type}.
Context (this_ev : matrix_event R C T → EV) (this_rb : matrix_closure R C T → RB).

Definition Add (object : T) (ck : CK) s (journal_ : MutationJournal EV RB)
    : outcome fault (CK * GenericManyToMany R C T * MutationJournal EV RB) :=
  let '(now, ck) := Now ck in
  let key := (GetRow object, GetCol object) in
  let lm_cit := last_modified_ s !! key in
  journal_ ←
    match slots (map_ s) !! key with
    | Some map_cit =>
        previous_object ← deref map_cit (map_ s);
        previous_timestamp ← assert_found lm_cit;
        Ok (LogMutation (this_ev (Updated now object))
              (this_rb (RestoreEntry previous_timestamp key previous_object)) journal_)
    | None =>
        match lm_cit with
        | Some previous_timestamp =>
            Ok (LogMutation (this_ev (Updated now object))
                  (this_rb (EraseEntry previous_timestamp key)) journal_)
        | None =>
            Ok (LogMutation (this_ev (Updated now object)) (this_rb (ForgetEntry key)) journal_)
        end
    end;
  Ok (ck, DoUpdateWithLastModified now key object s, journal_).

Definition Erase (key : R * C) (ck : CK) s (journal_ : MutationJournal EV RB)
    : outcome fault (CK * GenericManyToMany R C T * MutationJournal EV RB) :=
  let '(now, ck) := Now ck in
  match slots (map_ s) !! key with
  | Some map_cit =>
      previous_object ← deref map_cit (map_ s);
      previous_timestamp ← assert_found (last_modified_ s !! key);
      let journal_ := LogMutation (this_ev (make_Deleted now previous_object))
                        (this_rb (RestoreEntry previous_timestamp key previous_object)) journal_ in
      Ok (ck, DoEraseWithLastModified now key s, journal_)
  | None => Ok (ck, s, journal_)
  end.

Definition mtm_exec (m : mtm_call R C T) (ck : CK) s (journal_ : MutationJournal EV RB)
    : outcome fault (CK * GenericManyToMany R C T * MutationJournal EV RB) :=
  match m with
  | CallAdd object => Add object ck s journal_
  | CallErase key => Erase key ck s journal_
  end.
End Operations.

(** ** Invariant *)

Record mtm_wf s : Prop := {
  mtm_owned : owned_wf (map_ s);
  mtm_keyed : ∀ k x, elements_of (map_ s) !! k = Some x → key_of x = k;
  mtm_forward : nested_ok fst snd (forward_ s) (map_ s);
  mtm_transposed : nested_ok snd fst (transposed_ s) (map_ s);
  mtm_stamped : ∀ k, is_Some (elements_of (map_ s) !! k) → is_Some (last_modified_ s !! k);
}.

#[export] Instance mtm_matrix : Matrix (R:=R) (C:=C) (T:=T) (GenericManyToMany R C T) := {
  mx_elements s := elements_of (map_ s);
  mx_last_modified := last_modified_;
  mx_update := DoUpdateWithLastModified;
  mx_erase := DoEraseWithLastModified;
  mx_forget := ForgetAndErase;
  mx_wf := mtm_wf;
  mx_fits m k := True;
}.

Lemma mtm_pair_inj (k1 k2 : R * C) : k1.1 = k2.1 → k1.2 = k2.2 → k1 = k2.
Proof. destruct k1, k2. simpl. congruence. Qed.

Lemma mtm_init_wf : mtm_wf mtm_init.
Proof.
  split; simpl; auto using owned_empty_wf, nested_empty.
  - intros k x (p & Hp & _)%elements_lookup. simpl in Hp. by rewrite lookup_empty in Hp.
  - intros k [x (p & Hp & _)%elements_lookup]. simpl in Hp. by rewrite lookup_empty in Hp.
Qed.

Lemma mtm_update_wf s us k x :
  mtm_wf s → key_of x = k → mtm_wf (DoUpdateWithLastModified us k x s).
Proof.
  intros [Ho Hk Hf Ht Hl] Hx. split; simpl; auto using assign_wf.
  - intros k' y. rewrite elements_assign, lookup_insert by done. case_decide; [naive_solver|eauto].
  - apply nested_assign_ok; [apply mtm_pair_inj|done].
  - apply nested_assign_ok; [by intros; apply mtm_pair_inj|done].
  - intros k'. rewrite elements_assign, !lookup_insert by done. case_decide; [eauto|auto].
Qed.

Lemma mtm_erase_wf s k lm :
  mtm_wf s → (∀ k', k' ≠ k → is_Some (last_modified_ s !! k') → is_Some (lm !! k')) →
  mtm_wf (DoEraseWithoutTouchingLastModified k (mkManyToMany (map_ s) (forward_ s) (transposed_ s) lm)).
Proof.
  intros [Ho Hk Hf Ht Hl] Hlm. split; simpl; auto using erase_wf.
  - intros k' y. rewrite elements_erase, lookup_delete by done. case_decide; [done|eauto].
  - apply nested_erase_ok; [apply mtm_pair_inj|done].
  - apply nested_erase_ok; [by intros; apply mtm_pair_inj|done].
  - intros k'. rewrite elements_erase, lookup_delete by done.
    case_decide; [by intros []|auto].
Qed.

#[export] Instance mtm_matrix_sound : MatrixSound (GenericManyToMany R C T).
Proof.
  split; simpl; try done.
  - intros s k x Hw. by apply mtm_keyed.
  - intros s k Hw. by apply mtm_stamped.
  - intros s us k x Hw Hx _. split; [by apply mtm_update_wf|].
    split; [|done]. simpl. by apply elements_assign, mtm_owned.
  - intros s us k Hw Hin. split; [|split; [|done]].
    + apply mtm_erase_wf; [done..|]. intros k' Hne ?. by rewrite lookup_insert_ne.
    + simpl. by apply elements_erase, mtm_owned.
  - intros s k Hw Hin. split; [|split; [|done]].
    + apply mtm_erase_wf; [done..|]. intros k' Hne ?. by rewrite lookup_delete_ne.
    + simpl. by apply elements_erase, mtm_owned.
Qed.

#[export] Instance mtm_calls :
  FieldCalls (GenericManyToMany R C T) (matrix_event R C T) (matrix_closure R C T) (mtm_call R C T) := {
  exec := λ CK _ EV RB, mtm_exec;
}.

(** ** The calls *)

Lemma mtm_entry s k p :
  mtm_wf s → slots (map_ s) !! k = Some p →
  ∃ x ts, deref p (map_ s) = Ok x ∧
    elements_of (map_ s) !! k = Some x ∧ last_modified_ s !! k = Some ts.
Proof.
  intros Hw Hp. destruct (element_of_slot _ _ _ (mtm_owned _ Hw) Hp) as (x & Hx & Hd).
  destruct (mtm_stamped _ Hw k) as [ts Hts]; [eauto|]. by exists x, ts.
Qed.

Lemma mtm_absent s k :
  mtm_wf s → slots (map_ s) !! k = None → elements_of (map_ s) !! k = None.
Proof.
  intros Hw Hp. apply eq_None_not_Some. rewrite <- elements_slot by eauto using mtm_owned.
  rewrite Hp. by intros [].
Qed.

Section Sound.
Context {CK : Type} `{!Clock CK} {EV RB : Type}.
Context (ie : matrix_event R C T → EV) (ir : matrix_closure R C T → RB).
Implicit Type j : MutationJournal EV RB.

Lemma mtm_Add_ok object ck s j :
  mtm_wf s →
  call_ok ie ir (λ s', elements_of (map_ s') = <[key_of object := object]> (elements_of (map_ s))) ck s j
    (Add ie ir object ck s j).
Proof.
  intros Hw. unfold Add. destruct (Now ck) as [now ck1] eqn:Hck. apply Now_low_next in Hck.
  assert (elements_of (map_ (DoUpdateWithLastModified now (key_of object) object s))
          = <[key_of object := object]> (elements_of (map_ s))) as HQ
    by (apply elements_assign; eauto using mtm_owned).
  destruct (slots (map_ s) !! (GetRow object, GetCol object)) as [p|] eqn:Hp.
  - destruct (mtm_entry _ _ _ Hw Hp) as (x & ts & -> & Hx & Hts). simpl. rewrite Hts. simpl.
    use_law (λ Q, matrix_update_call ie ir Q ck ck1 s j now object); [done..| |done|done].
    unfold undoes_update. simpl. unfold key_of. by rewrite Hx, Hts.
  - apply mtm_absent in Hp; [|done].
    destruct (last_modified_ s !! (GetRow object, GetCol object)) as [ps|] eqn:Hps; simpl;
      (use_law (λ Q, matrix_update_call ie ir Q ck ck1 s j now object); [done..| |done|done]);
      unfold undoes_update; simpl; unfold key_of; by rewrite Hp, Hps.
Qed.

Lemma mtm_Erase_ok key ck s j :
  mtm_wf s →
  call_ok ie ir (λ s', elements_of (map_ s') = delete key (elements_of (map_ s))) ck s j
    (Erase ie ir key ck s j).
Proof.
  intros Hw. unfold Erase. destruct (Now ck) as [now ck1] eqn:Hck. apply Now_low_next in Hck.
  destruct (slots (map_ s) !! key) as [p|] eqn:Hp.
  - destruct (mtm_entry _ _ _ Hw Hp) as (x & ts & -> & Hx & Hts). simpl. rewrite Hts. simpl.
    use_law (λ Q, matrix_erase_call ie ir Q ck ck1 s j now); [done..|].
    apply elements_erase; eauto using mtm_owned.
  - apply call_ok_none; [done..|]. rewrite delete_id; [done|]. by apply mtm_absent.
Qed.
End Sound.

#[export] Instance mtm_field_sound :
  JournaledFieldSound (GenericManyToMany R C T) (matrix_event R C T) (matrix_closure R C T) (mtm_call R C T).
Proof.
  split. intros CK ? EV' RB' ie ir m ck c j Hw. destruct m.
  - by eapply call_ok_weaken, mtm_Add_ok.
  - by eapply call_ok_weaken, mtm_Erase_ok.
Qed.
End ManyToMany.
