(* ===== verification/Persistence.v ===== *)
(** * Persistence: what the two persisters have in common

    blocks/ss/idx_ts.h, blocks/ss/persister.h, blocks/ss/exceptions.h and
    blocks/persistence/exceptions.h: the data, the errors, and the contract of
    an append-only log, stated here as an abstract state machine ([log]) that
    MemoryPersister.v and FilePersister.v refine. *)

From Stdlib Require Import ZArith NArith Lia Ascii String Sorted.
From stdpp Require Import base gmap list strings.
From S2P Require Import Prelude Time.
Open Scope Z_scope.

(** ** Bytes *)

Abbreviation bytes := (list ascii).

Definition str (s : string) : bytes := list_ascii_of_string s.

Definition newline : ascii := "010"%char.
Definition tab : ascii := "009"%char.
Definition nul : ascii := "000"%char.

(** The characters of [s.c_str()] before the NUL that ends it. *)
Fixpoint c_str (s : bytes) : bytes :=
  match s with
  | [] => []
  | x :: s' => if bool_decide (x = nul) then [] else x :: c_str s'
  end.

Lemma c_str_id s : nul ∉ s → c_str s = s.
Proof.
  induction s as [|x s IH]; simpl; intros Hs; [done|].
  rewrite bool_decide_eq_false_2 by set_solver. rewrite IH by set_solver. done.
Qed.

(** [std::isspace] in the C locale. *)
Definition isspace (c : ascii) : bool :=
  bool_decide (c ∈ [" "; "009"; "010"; "011"; "012"; "013"]%char).

(** The number of white-space characters [s] starts with. *)
Fixpoint leading_spaces (s : bytes) : nat :=
  match s with
  | c :: s' => if isspace c then S (leading_spaces s') else 0
  | [] => 0
  end.

(** [s.find(c)] and what precedes and follows the character found. *)
Fixpoint split_at (c : ascii) (s : bytes) : option (bytes * bytes) :=
  match s with
  | [] => None
  | x :: s' =>
      if bool_decide (x = c) then Some ([], s')
      else match split_at c s' with
           | Some (l, r) => Some (x :: l, r)
           | None => None
           end
  end.

Lemma split_at_app (c : ascii) l r : c ∉ l → split_at c (l ++ c :: r) = Some (l, r).
Proof.
  induction l as [|x l IH]; simpl; intros Hc.
  - by rewrite bool_decide_eq_true_2.
  - rewrite bool_decide_eq_false_2 by set_solver. rewrite IH by set_solver. done.
Qed.

Lemma split_at_None (c : ascii) s : c ∉ s → split_at c s = None.
Proof.
  induction s as [|x s IH]; simpl; intros Hc; [done|].
  rewrite bool_decide_eq_false_2 by set_solver. rewrite IH by set_solver. done.
Qed.

Lemma split_at_length (c : ascii) s l r :
  split_at c s = Some (l, r) → length s = S (length l + length r).
Proof.
  revert l. induction s as [|x s IH]; intros l; simpl; [done|].
  case_bool_decide; [by intros [= <- <-]|].
  destruct (split_at c s) as [[l' r']|]; [|done]. intros [= <- ->]. simpl. by rewrite (IH l').
Qed.

(** ** Index and time stamp *)

(** [IndexAndTimestamp], alias [idxts_t]. *)
Record idxts_t := mkIdxTs {
  index : N;
  us : microseconds;
}.

(** [HeadAndOptionalIndexAndTimestamp]; the constructor asserts [head >= us]. *)
Record head_optidxts_t := mkHeadOptIdxTs {
  hd_head : microseconds;
  hd_idxts : option idxts_t;
}.

Definition make_head_optidxts (head : microseconds) (i : N) (t : microseconds)
    : outcome fault head_optidxts_t :=
  _ ← CURRENT_ASSERT (t <=? head);
  Ok (mkHeadOptIdxTs head (Some (mkIdxTs i t))).

(** [static_cast<uint64_t>(-1)], the "no limit" index. *)
Definition no_index : N := 18446744073709551615%N.

(** [++] on a [uint64_t]. *)
Definition u64_succ (i : N) : N := ((i + 1) mod 2 ^ 64)%N.

Lemma u64_succ_small i : (i < no_index)%N → u64_succ i = (i + 1)%N.
Proof. unfold u64_succ, no_index. intros Hi. apply N.mod_small. lia. Qed.

Inductive persistence_error :=
| InconsistentTimestampException (expected found : microseconds)
| InconsistentIndexException (expected found : N)
| MalformedEntryException (line : bytes)
| InvalidIterableRangeException
| NoEntriesPublishedYet
| InvalidStreamSignature (expected actual : bytes)
| InvalidSignatureLocation
| UnsafePublishBadIndexTimestampException (expected found : N)
| JSONParseException
| EndOfFile
| LoopNeverEnds
| Fault (f : fault).

(** Run an assertion inside a computation that can throw. *)
Definition check {A} (o : outcome fault A) : outcome persistence_error A :=
  match o with Ok a => Ok a | Throw f => Throw (Fault f) end.

(** [TIMESTAMP]: either the time now or a time given by the caller. *)
Inductive timestamp_arg :=
| DefaultTimeArgument
| At (t : microseconds).

Definition TimestampAsMicroseconds `{Clock CK} (a : timestamp_arg) (ck : CK) : microseconds * CK :=
  match a with
  | DefaultTimeArgument => Now ck
  | At t => (t, ck)
  end.

(** ** The abstract log *)

Record log (E : Type) := mkLog {
  log_entries : list (microseconds * E);
  log_head : microseconds;
}.
Arguments mkLog {E} _ _.
Arguments log_entries {E} _.
Arguments log_head {E} _.

Section Log.
Context {E : Type}.
Implicit Type l : log E.

Definition log_init : log E := mkLog [] (-1).
Definition log_size l : N := N.of_nat (length (log_entries l)).

Definition log_publish (t : microseconds) (e : E) l : outcome persistence_error (idxts_t * log E) :=
  if log_head l <? t
  then Ok (mkIdxTs (log_size l) t, mkLog (log_entries l ++ [(t, e)]) t)
  else Throw (InconsistentTimestampException (log_head l + 1) t).

Definition log_update_head (t : microseconds) l : outcome persistence_error (log E) :=
  if log_head l <? t then Ok (mkLog (log_entries l) t)
  else Throw (InconsistentTimestampException (log_head l + 1) t).

(** The entries with a time stamp from [from] on, up to [till] if it is positive. *)
Definition in_range (from till : microseconds) (e : microseconds * E) : bool :=
  (from <=? e.1) && ((till <=? 0) || (e.1 <=? till)).

(** Time stamps strictly increase, the first is not negative, and the head is
    at or after the last one. *)
Definition log_wf l : Prop :=
  StronglySorted (λ x y, x < y) (log_entries l).*1 ∧
  Forall (λ t, 0 ≤ t ≤ log_head l) (log_entries l).*1 ∧ -1 ≤ log_head l.

(** ** Queries *)

Definition numbered_from (k : nat) (es : list (microseconds * E)) : list (idxts_t * E) :=
  imap (λ i e, (mkIdxTs (N.of_nat (k + i)) e.1, e.2)) es.

(** The entries as an iterator yields them. *)
Definition numbered l : list (idxts_t * E) := numbered_from 0 (log_entries l).

Definition log_last l : outcome persistence_error idxts_t :=
  match last (numbered l) with
  | Some e => Ok e.1
  | None => Throw NoEntriesPublishedYet
  end.

Definition log_head_and_last l : head_optidxts_t :=
  mkHeadOptIdxTs (log_head l) (fst <$> last (numbered l)).

(** Entries from index [begin] on and before [end_]; a range that is not one of
    the log is an error. *)
Definition log_iterate (begin end_ : N) l : outcome persistence_error (list (idxts_t * E)) :=
  let end_ := if (end_ =? no_index)%N then log_size l else end_ in
  if ((begin <=? end_) && (end_ <=? log_size l))%N
  then Ok (drop (N.to_nat begin) (take (N.to_nat end_) (numbered l)))
  else Throw InvalidIterableRangeException.

Definition log_iterate_time (from till : microseconds) l : outcome persistence_error (list (idxts_t * E)) :=
  if (0 <? till) && (till <? from) then Throw InvalidIterableRangeException
  else Ok (List.filter (λ e, in_range from till (us e.1, e.2)) (numbered l)).

(** The index fits in the [uint64_t] the code keeps it in, and is not the one
    that stands for "no limit". *)
Definition log_fits l : Prop := (log_size l < no_index)%N.

Lemma log_init_wf : log_wf log_init.
Proof. split_and!; simpl; [constructor|constructor|lia]. Qed.

Lemma sorted_snoc (ts : list Z) t :
  StronglySorted (λ x y, x < y) ts → Forall (λ x, x < t) ts →
  StronglySorted (λ x y, x < y) (ts ++ [t]).
Proof.
  induction 1 as [|x ts Hs IH Hx]; intros Ht; simpl.
  - repeat constructor.
  - apply Forall_cons in Ht as [Hxt Ht]. constructor; [auto|].
    apply Forall_app. auto.
Qed.

Lemma log_publish_wf t e l r l' : log_wf l → log_publish t e l = Ok (r, l') → log_wf l'.
Proof.
  unfold log_publish. intros (Hs & Hf & Hh). destruct (Z.ltb_spec (log_head l) t) as [Ht|]; [|done].
  intros [= <- <-]. unfold log_wf. simpl. rewrite fmap_app. simpl. split_and!.
  - apply sorted_snoc; [done|]. eapply Forall_impl; [exact Hf|]. simpl. lia.
  - apply Forall_app. split; [|constructor; [lia|constructor]].
    eapply Forall_impl; [exact Hf|]. simpl. lia.
  - lia.
Qed.

Lemma length_numbered l : length (numbered l) = length (log_entries l).
Proof. apply length_imap. Qed.

Lemma numbered_from_cons k x es :
  numbered_from k (x :: es) = (mkIdxTs (N.of_nat k) x.1, x.2) :: numbered_from (S k) es.
Proof.
  unfold numbered_from. simpl. f_equal; [by rewrite Nat.add_0_r|].
  apply imap_ext. intros i y _. simpl. do 3 f_equal. lia.
Qed.

Lemma numbered_from_times k es : (λ e, us e.1) <$> numbered_from k es = es.*1.
Proof. revert k. induction es as [|x es IH]; intros k; [done|]. rewrite numbered_from_cons. simpl. by rewrite IH. Qed.

Lemma numbered_times l : (λ e, us e.1) <$> numbered l = (log_entries l).*1.
Proof. apply numbered_from_times. Qed.

Lemma numbered_lookup l i : numbered l !! i = (λ e, (mkIdxTs (N.of_nat i) e.1, e.2)) <$> log_entries l !! i.
Proof. apply list_lookup_imap. Qed.

Lemma numbered_snoc es t e h h' :
  numbered (mkLog (es ++ [(t, e)]) h) = numbered (mkLog es h') ++ [(mkIdxTs (N.of_nat (length es)) t, e)].
Proof. unfold numbered, numbered_from. simpl. rewrite imap_app. simpl. do 4 f_equal. lia. Qed.

Lemma log_last_lookup l :
  log_last l = match last (log_entries l) with
               | Some e => Ok (mkIdxTs (N.of_nat (pred (length (log_entries l)))) e.1)
               | None => Throw NoEntriesPublishedYet
               end.
Proof.
  unfold log_last. rewrite !last_lookup, length_numbered, numbered_lookup.
  by destruct (log_entries l !! _).
Qed.

Lemma log_update_head_wf t l l' : log_wf l → log_update_head t l = Ok l' → log_wf l'.
Proof.
  unfold log_update_head. intros (Hs & Hf & Hh). destruct (Z.ltb_spec (log_head l) t) as [Ht|]; [|done].
  intros [= <-]. unfold log_wf. simpl. split_and!; [done| |lia].
  eapply Forall_impl; [exact Hf|]. simpl. lia.
Qed.
End Log.

(** ** Binary search

    [std::lower_bound] and [std::upper_bound] return the partition point: the
    number of leading elements that satisfy the predicate. *)
Fixpoint partition_point {A} (p : A → bool) (l : list A) : nat :=
  match l with
  | [] => 0
  | x :: l' => if p x then S (partition_point p l') else 0
  end.

Section PartitionPoint.
Context {A : Type} (p : A → bool).

Lemma partition_point_le l : (partition_point p l ≤ length l)%nat.
Proof. induction l as [|x l IH]; simpl; [lia|]. destruct (p x); lia. Qed.

Lemma partition_point_take l : Forall (λ x, p x = true) (take (partition_point p l) l).
Proof.
  induction l as [|x l IH]; simpl; [constructor|].
  destruct (p x) eqn:E; simpl; [by constructor|constructor].
Qed.

Lemma partition_point_at l n :
  Forall (λ x, p x = true) (take n l) → Forall (λ x, p x = false) (drop n l) → (n ≤ length l)%nat → partition_point p l = n.
Proof.
  revert n. induction l as [|x l IH]; intros [|n] Ht Hd Hn; simpl in *; [done|lia|..].
  - apply Forall_cons in Hd as [-> _]. done.
  - apply Forall_cons in Ht as [-> Ht]. rewrite (IH n); [done..|lia].
Qed.

(** On a list where the predicate never turns true again, everything after
    the partition point fails it. *)
Lemma partition_point_drop (R : relation A) l :
  StronglySorted R l → (∀ x y, R x y → p y = true → p x = true) →
  Forall (λ x, p x = false) (drop (partition_point p l) l).
Proof.
  intros Hs Hp. induction Hs as [|x l Hs IH Hx]; simpl; [constructor|].
  destruct (p x) eqn:E; simpl; [done|]. constructor; [done|].
  eapply Forall_impl; [exact Hx|]. intros y Hxy. simpl.
  destruct (p y) eqn:Ey; [|done]. exfalso. by rewrite (Hp x y Hxy Ey) in E.
Qed.

Lemma filter_partition_point l :
  Forall (λ x, p x = true) (take (partition_point p l) l) →
  Forall (λ x, p x = false) (drop (partition_point p l) l) →
  List.filter p l = take (partition_point p l) l.
Proof.
  intros Ht Hd. rewrite <- (take_drop (partition_point p l) l) at 1.
  rewrite List.filter_app. rewrite <- (app_nil_r (take _ l)) at 2. f_equal.
  - induction Ht as [|x k Hx _ IH]; simpl; [done|]. rewrite Hx. by f_equal.
  - induction Hd as [|x k Hx _ IH]; simpl; [done|]. by rewrite Hx.
Qed.
End PartitionPoint.

(** ** The range of entries between two time stamps *)

Section TimeRange.
Context {A : Type} (f : A → microseconds).

Lemma partition_point_fmap (p : microseconds → bool) l :
  partition_point p (f <$> l) = partition_point (λ x, p (f x)) l.
Proof. induction l as [|x l IH]; [done|]. simpl. destruct (p (f x)); [|done]. f_equal. exact IH. Qed.

Lemma filter_all (p : A → bool) l : Forall (λ x, p x = true) l → List.filter p l = l.
Proof. induction 1 as [|x l Hx _ IH]; simpl; [done|]. by rewrite Hx, IH. Qed.

Lemma filter_none (p : A → bool) l : Forall (λ x, p x = false) l → List.filter p l = [].
Proof. induction 1 as [|x l Hx _ IH]; simpl; [done|]. by rewrite Hx, IH. Qed.

Context (l : list A) (Hs : StronglySorted (λ x y, x < y) (f <$> l)).

Lemma sorted_by_time : StronglySorted (λ x y, f x < f y) l.
Proof.
  clear -Hs. induction l as [|x k IH]; [constructor|]. simpl in Hs.
  apply StronglySorted_inv in Hs as [Hk Hx]. constructor; [auto|].
  exact (proj1 (Forall_fmap _ _ _) Hx).
Qed.

Lemma filter_from from :
  List.filter (λ x, from <=? f x) l = drop (partition_point (λ t, t <? from) (f <$> l)) l.
Proof.
  rewrite partition_point_fmap. set (n := partition_point _ l).
  rewrite <- (take_drop n l) at 1. rewrite List.filter_app, filter_none, filter_all; [done| |].
  - pose proof (partition_point_drop (λ x, f x <? from) _ l sorted_by_time) as Hd.
    eapply Forall_impl; [apply Hd|]; simpl; lia.
  - pose proof (partition_point_take (λ x, f x <? from) l) as Ht.
    eapply Forall_impl; [exact Ht|]; simpl; lia.
Qed.

Lemma filter_till till :
  List.filter (λ x, f x <=? till) l = take (partition_point (λ t, negb (till <? t)) (f <$> l)) l.
Proof.
  rewrite partition_point_fmap. set (n := partition_point _ l).
  rewrite <- (take_drop n l) at 1. rewrite List.filter_app, filter_all, filter_none, app_nil_r; [done| |].
  - pose proof (partition_point_drop (λ x, negb (till <? f x)) _ l sorted_by_time) as Hd.
    eapply Forall_impl; [apply Hd|]; simpl; lia.
  - pose proof (partition_point_take (λ x, negb (till <? f x)) l) as Ht.
    eapply Forall_impl; [exact Ht|]; simpl; lia.
Qed.
End TimeRange.

Lemma partition_point_take_min {A} (p : A → bool) n l :
  partition_point p (take n l) = (n `min` partition_point p l)%nat.
Proof.
  revert n. induction l as [|x l IH]; intros [|n]; simpl; [done..|].
  destruct (p x); [|done]. by rewrite IH.
Qed.

Lemma drop_min_take {A} n k (l : list A) : drop (n `min` k) (take n l) = drop k (take n l).
Proof.
  destruct (Nat.le_ge_cases k n); [by rewrite Nat.min_r|].
  rewrite Nat.min_l, !drop_ge; [done|..]; rewrite ?length_take; lia.
Qed.

Lemma sorted_take (l : list Z) n :
  StronglySorted (λ x y, x < y) l → StronglySorted (λ x y, x < y) (take n l).
Proof.
  intros Hs. revert n. induction Hs as [|x l Hs IH Hx]; intros [|n]; simpl; try constructor; [auto|].
  by apply Forall_take.
Qed.

Lemma sorted_drop (l : list Z) n :
  StronglySorted (λ x y, x < y) l → StronglySorted (λ x y, x < y) (drop n l).
Proof.
  intros Hs. revert n. induction Hs as [|x l Hs IH Hx]; intros [|n]; simpl; try constructor; auto.
Qed.

Lemma sorted_after (l : list Z) i t :
  StronglySorted (λ x y, x < y) l → l !! i = Some t → Forall (λ t', t < t') (drop (S i) l).
Proof.
  intros Hs. revert i. induction Hs as [|x l Hs IH Hx]; intros [|i] Hi; simpl in *; [done..| |].
  - by simplify_eq.
  - by apply IH.
Qed.

Lemma elem_of_drop {A} (x : A) n l : x ∈ drop n l → x ∈ l.
Proof. intros Hx. rewrite <- (take_drop n l). apply elem_of_app. by right. Qed.

Lemma filter_and {A} (p q : A → bool) l :
  List.filter (λ x, p x && q x) l = List.filter p (List.filter q l).
Proof.
  induction l as [|x l IH]; simpl; [done|].
  destruct (p x) eqn:Ep, (q x) eqn:Eq; simpl; rewrite ?Ep, IH; done.
Qed.

(** The entries of a time range are those between the two binary searches. *)
Lemma filter_in_range {A E} (f : A → microseconds) (g : A → E) l from till :
  StronglySorted (λ x y, x < y) (f <$> l) →
  List.filter (λ x, in_range from till (f x, g x)) l =
  drop (partition_point (λ t, t <? from) (f <$> l))
       (if 0 <? till then take (partition_point (λ t, negb (till <? t)) (f <$> l)) l else l).
Proof.
  intros Hs. unfold in_range. simpl. destruct (Z.ltb_spec 0 till) as [Ht|Ht].
  - rewrite filter_and. rewrite (List.filter_ext (λ x, (till <=? 0) || (f x <=? till)) (λ x, f x <=? till)).
    + rewrite (filter_till f l Hs). set (n := partition_point _ _).
      rewrite (filter_from f) by (rewrite fmap_take; by apply sorted_take).
      by rewrite fmap_take, partition_point_take_min, drop_min_take.
    + intros x. by destruct (Z.leb_spec till 0); [lia|].
  - rewrite <- (filter_from f l Hs). apply List.filter_ext. intros x.
    destruct (Z.leb_spec till 0); [|lia]. by rewrite andb_true_r.
Qed.

Lemma partition_point_mono {A} (p q : A → bool) l :
  (∀ x, p x = true → q x = true) → (partition_point p l ≤ partition_point q l)%nat.
Proof.
  intros Hpq. induction l as [|x l IH]; simpl; [done|].
  destruct (p x) eqn:Ep; [rewrite (Hpq x Ep); lia|lia].
Qed.

(** The index range of a time range, as both persisters compute it: [no_index]
    for a bound that is past the last entry. *)
Definition index_range (ts : list microseconds) (from till : microseconds) : N * N :=
  let bound n := if (n =? length ts)%nat then no_index else N.of_nat n in
  (bound (partition_point (λ t, t <? from) ts),
   if 0 <? till then bound (partition_point (λ t, negb (till <? t)) ts) else no_index).

(** Iterating over that index range gives exactly the entries of the time range. *)
Lemma index_range_iterate {E} (l : log E) from till :
  log_wf l → log_fits l → (0 <? till) && (till <? from) = false →
  (let r := index_range (log_entries l).*1 from till in
   if negb (r.1 =? no_index)%N then log_iterate r.1 r.2 l else Ok []) = log_iterate_time from till l.
Proof.
  intros (Hs & _ & _) Hfit Hbad. unfold log_iterate_time. rewrite Hbad.
  rewrite (filter_in_range (λ e, us e.1) snd) by (by rewrite numbered_times).
  rewrite numbered_times. unfold index_range, log_fits, log_size in *. simpl.
  set (ts := (log_entries l).*1) in *.
  assert (length ts = length (log_entries l)) as Hlen by apply length_fmap.
  pose proof (length_numbered l) as Hnum.
  pose proof (partition_point_le (λ t, t <? from) ts) as Hb.
  pose proof (partition_point_le (λ t, negb (till <? t)) ts) as He.
  assert (0 < till → (partition_point (λ t, (t <? from)%Z) ts ≤ partition_point (λ t, negb (till <? t)%Z) ts)%nat) as Hmono.
  { intros Ht. apply partition_point_mono. intros x. lia. }
  set (nb := partition_point (λ t, t <? from) ts) in *.
  set (ne := partition_point (λ t, negb (till <? t)) ts) in *.
  destruct (Nat.eqb_spec nb (length ts)) as [Hnb|Hnb]; simpl.
  { rewrite drop_ge; [done|]. destruct (0 <? till); rewrite ?length_take; lia. }
  destruct (N.eqb_spec (N.of_nat nb) no_index) as [?|_]; [lia|]. simpl. unfold log_iterate, log_size.
  destruct (Z.ltb_spec 0 till) as [Ht|Ht].
  - specialize (Hmono Ht). destruct (Nat.eqb_spec ne (length ts)) as [Hne|Hne].
    + rewrite N.eqb_refl. destruct (N.leb_spec (N.of_nat nb) (N.of_nat (length (log_entries l)))); [|lia].
      rewrite N.leb_refl. simpl. by rewrite !Nat2N.id, Hne, Hlen.
    + destruct (N.eqb_spec (N.of_nat ne) no_index) as [?|_]; [lia|].
      destruct (N.leb_spec (N.of_nat nb) (N.of_nat ne)); [|lia].
      destruct (N.leb_spec (N.of_nat ne) (N.of_nat (length (log_entries l)))); [|lia].
      simpl. by rewrite !Nat2N.id.
  - rewrite N.eqb_refl. destruct (N.leb_spec (N.of_nat nb) (N.of_nat (length (log_entries l)))); [|lia].
    rewrite N.leb_refl. simpl. rewrite !Nat2N.id, <- Hnum. by rewrite firstn_all.
Qed.

(** ** The interface of a persister: [EntryPersister], blocks/ss/persister.h *)

Class Persister (P E : Type) := {
  Publish : ∀ {CK} `{!Clock CK}, timestamp_arg → E → CK → P → CK * outcome persistence_error (idxts_t * P);
  UpdateHead : ∀ {CK} `{!Clock CK}, timestamp_arg → CK → P → CK * outcome persistence_error P;
  Size : P → N;
  CurrentHead : P → microseconds;
  LastPublishedIndexAndTimestamp : P → outcome persistence_error idxts_t;
  HeadAndLastPublishedIndexAndTimestamp : P → outcome persistence_error head_optidxts_t;
  Iterate : N → N → P → outcome persistence_error (list (idxts_t * E));
  IterateTime : microseconds → microseconds → P → outcome persistence_error (list (idxts_t * E));
  IndexRangeByTimestampRange : microseconds → microseconds → P → N * N;
}.

(** What every persister promises: it is the abstract log.  [represents p l]
    says that the state [p] holds the log [l]. *)
Class PersisterSound (P E : Type) `{!Persister P E} := {
  represents : P → log E → Prop;
  represents_wf : ∀ p l, represents p l → log_wf l;
  Publish_law : ∀ {CK} `{!Clock CK} a e (ck : CK) p l,
    represents p l → log_fits l →
    (Publish a e ck p).1 = (TimestampAsMicroseconds a ck).2 ∧
    outcome_rel (λ r r', r.1 = r'.1 ∧ represents r.2 r'.2)
      (Publish a e ck p).2 (log_publish (TimestampAsMicroseconds a ck).1 e l);
  UpdateHead_law : ∀ {CK} `{!Clock CK} a (ck : CK) p l,
    represents p l → (TimestampAsMicroseconds a ck).1 < int64_max →
    (UpdateHead a ck p).1 = (TimestampAsMicroseconds a ck).2 ∧
    outcome_rel represents (UpdateHead a ck p).2 (log_update_head (TimestampAsMicroseconds a ck).1 l);
  Size_law : ∀ p l, represents p l → log_fits l → Size p = log_size l;
  CurrentHead_law : ∀ p l, represents p l → CurrentHead p = log_head l;
  Last_law : ∀ p l, represents p l → log_fits l → LastPublishedIndexAndTimestamp p = log_last l;
  HeadAndLast_law : ∀ p l, represents p l → log_fits l →
    HeadAndLastPublishedIndexAndTimestamp p = Ok (log_head_and_last l);
  Iterate_law : ∀ b e p l, represents p l → log_fits l → Iterate b e p = log_iterate b e l;
  IterateTime_law : ∀ from till p l, represents p l → log_fits l →
    IterateTime from till p = log_iterate_time from till l;
  IndexRange_law : ∀ from till p l, represents p l →
    IndexRangeByTimestampRange from till p = index_range (log_entries l).*1 from till;
}.

(** ** Serialization

    JSON of the index line and of the entries, used by both persisters to read
    and write raw log lines.  The JSON library is a parameter. *)
Class LogCodec (E : Type) := {
  json_idxts : idxts_t → bytes;
  parse_idxts : bytes → option idxts_t;
  json_entry : E → bytes;
  parse_entry : bytes → option E;
}.

(** Documented behaviour of the library: parsing inverts printing, the output
    is on one line with no NUL in it, the [idxts_t] object has no tab, and a
    text that starts with a hash mark is not JSON. *)
Class LogCodecSound (E : Type) `{!LogCodec E} : Prop := {
  parse_json_idxts : ∀ x, parse_idxts (json_idxts x) = Some x;
  json_idxts_no_tab : ∀ x, tab ∉ json_idxts x;
  json_idxts_no_newline : ∀ x, newline ∉ json_idxts x;
  parse_json_entry : ∀ e, parse_entry (json_entry e) = Some e;
  json_entry_no_newline : ∀ e, newline ∉ json_entry e;
  json_entry_no_nul : ∀ e, nul ∉ json_entry e;
  parse_idxts_hash : ∀ s, parse_idxts ("#"%char :: s) = None;
}.

Definition json_parse {A} (o : option A) : outcome persistence_error A :=
  match o with Some a => Ok a | None => Throw JSONParseException end.

(** The line a persister writes for an entry: [JSON(idxts) << '\t' << JSON(entry)]. *)
Definition log_line `{LogCodec E} (i : idxts_t) (e : E) : bytes :=
  json_idxts i ++ tab :: json_entry e.

(** *** Time stamps in messages

    [ts_optidx_t] and [ts_only_t] in JSON, written and read by the library. *)
Class TsCodec := {
  json_ts_only : microseconds → bytes;
  parse_ts_only : bytes → option microseconds;
  parse_ts_optidx : bytes → option (microseconds * option N);
}.

Definition on_one_line (s : bytes) : Prop :=
  s ≠ [] ∧ Forall (λ c, c ≠ newline ∧ c ≠ "013"%char ∧ c ≠ tab) s.

(** Documented behaviour of the library: an optional field that is absent is
    read as such, and control characters are escaped. *)
Class TsCodecSound (E : Type) `{!LogCodec E, !TsCodec} : Prop := {
  parse_ts_optidx_idxts : ∀ i, parse_ts_optidx (json_idxts i) = Some (us i, Some (index i));
  parse_ts_optidx_ts : ∀ t, parse_ts_optidx (json_ts_only t) = Some (t, None);
  parse_ts_only_ts : ∀ t, parse_ts_only (json_ts_only t) = Some t;
  json_idxts_line : ∀ i, on_one_line (json_idxts i);
  json_ts_only_line : ∀ t, on_one_line (json_ts_only t);
  json_entry_line : ∀ e, on_one_line (json_entry e);
}.

(** The rest of the interface: publishing and reading raw log lines. *)
Class UnsafePersister (P E : Type) := {
  PublishUnsafe : bytes → P → outcome persistence_error (idxts_t * P);
  IterateUnsafe : N → N → P → outcome persistence_error (list bytes);
}.

(** Publishing the line another persister wrote for the next entry publishes
    the entry. *)
Class UnsafePersisterSound (P E : Type) `{!LogCodec E, !Persister P E, !PersisterSound P E, !UnsafePersister P E} : Prop := {
  PublishUnsafe_law : ∀ p l t e, represents p l → log_fits l → log_head l < t →
    outcome_rel (λ r r', r.1 = r'.1 ∧ represents r.2 r'.2)
      (PublishUnsafe (log_line (mkIdxTs (log_size l) t) e) p) (log_publish t e l);
}.

(** ** Range-based [for] over a pair of iterators

    [for (it = begin; it != end; ++it) body( *it )]: [deref] reads the element
    at a position and may change the iterator's own state [S].  A loop whose end
    is behind its beginning has no end. *)
Section RangeFor.
Context {S A : Type} (deref : N → S → outcome persistence_error (A * S)).

Fixpoint range_for_loop (fuel : nat) (i end_ : N) (st : S) : outcome persistence_error (list A) :=
  if (i =? end_)%N then Ok []
  else match fuel with
       | O => Throw LoopNeverEnds
       | Datatypes.S fuel =>
           '(x, st) ← deref i st;
           xs ← range_for_loop fuel (i + 1)%N end_ st;
           Ok (x :: xs)
       end.

Definition range_for (begin end_ : N) (st : S) : outcome persistence_error (list A) :=
  range_for_loop (N.to_nat (end_ - begin)) begin end_ st.

(** If an invariant of the iterator gives the element of a list at every
    position, the loop yields the slice of the list. *)
Lemma range_for_slice (Inv : N → S → Prop) (xs : list A) (begin end_ : N) st :
  (begin ≤ end_)%N → (N.to_nat end_ ≤ length xs)%nat → Inv begin st →
  (∀ i s, Inv i s → (i < end_)%N → ∃ x s', xs !! N.to_nat i = Some x ∧ deref i s = Ok (x, s') ∧ Inv (i + 1)%N s') →
  range_for begin end_ st = Ok (drop (N.to_nat begin) (take (N.to_nat end_) xs)).
Proof.
  unfold range_for. intros Hbe Hlen Hinv Hstep.
  remember (N.to_nat (end_ - begin)) as fuel eqn:Hfuel.
  revert begin st Hbe Hinv Hfuel. induction fuel as [|fuel IH]; intros begin st Hbe Hinv Hfuel; simpl.
  - assert (begin = end_) as -> by lia. rewrite N.eqb_refl.
    by rewrite drop_ge by (rewrite length_take; lia).
  - destruct (N.eqb_spec begin end_) as [->|Hne]; [lia|].
    destruct (Hstep begin st Hinv) as (x & st' & Hx & -> & Hinv'); [lia|]. simpl.
    rewrite (IH (begin + 1)%N st') by (done || lia). simpl. f_equal.
    rewrite (drop_S _ x (N.to_nat begin)) by (rewrite lookup_take_lt by lia; done).
    do 2 f_equal. lia.
Qed.
End RangeFor.
