(* ===== verification/MemoryPersister.v ===== *)
(** * The in-memory persister: blocks/persistence/memory.h

    [Container] is the state, [PersisterXxxImpl] the operations, with the names
    of the source.  The instance [memory_persister_sound] shows that it
    implements the abstract log of Persistence.v. *)

From Stdlib Require Import ZArith NArith Lia Ascii String Sorted.
From stdpp Require Import base gmap list strings.
From S2P Require Import Prelude Time Persistence.
Open Scope Z_scope.

Module Memory.

Record Container (E : Type) := mkContainer {
  entries_ : list (microseconds * E);
  head_ : microseconds;
}.
Arguments mkContainer {E} _ _.
Arguments entries_ {E} _.
Arguments head_ {E} _.

Section Memory.
Context {E : Type}.
Implicit Type c : Container E.

Definition init : Container E := mkContainer [] (-1).

Definition size c : N := N.of_nat (length (entries_ c)).

(** [entries_.back().first], for a container known not to be empty. *)
Definition back c : outcome fault microseconds :=
  match last (entries_ c) with
  | Some e => Ok e.1
  | None => Throw DanglingDereference
  end.

Definition assert_head_not_behind c : outcome fault () :=
  t ← back c; CURRENT_ASSERT (t <=? head_ c).

Definition PersisterPublishImpl `{Clock CK} (user_timestamp : timestamp_arg) (entry : E) (ck : CK) c
    : CK * outcome persistence_error (idxts_t * Container E) :=
  let head := head_ c in
  let '(timestamp, ck) := TimestampAsMicroseconds user_timestamp ck in
  (ck,
   if negb (head <? timestamp) then Throw (InconsistentTimestampException (head + 1) timestamp)
   else
     let index := size c in
     let c := mkContainer (entries_ c ++ [(timestamp, entry)]) timestamp in
     _ ← check (assert_head_not_behind c);
     Ok (mkIdxTs index timestamp, c)).

Definition PersisterPublishUnsafeImpl `{LogCodec E} (raw_log_line : bytes) c
    : outcome persistence_error (idxts_t * Container E) :=
  let head := head_ c in
  match split_at tab raw_log_line with
  | None => Throw (MalformedEntryException raw_log_line)
  | Some (before, after) =>
      idxts ← json_parse (parse_idxts before);
      let expected_index := size c in
      if negb (index idxts =? expected_index)%N
      then Throw (UnsafePublishBadIndexTimestampException expected_index (index idxts))
      else if negb (head <? us idxts)
      then Throw (InconsistentTimestampException (head + 1) (us idxts))
      else
        entry ← json_parse (parse_entry after);
        let c := mkContainer (entries_ c ++ [(us idxts, entry)]) (us idxts) in
        _ ← check (assert_head_not_behind c);
        Ok (idxts, c)
  end.

Definition PersisterUpdateHeadImpl `{Clock CK} (user_timestamp : timestamp_arg) (ck : CK) c
    : CK * outcome persistence_error (Container E) :=
  let '(timestamp, ck) := TimestampAsMicroseconds user_timestamp ck in
  let head := head_ c in
  (ck,
   if negb (head <? timestamp) then Throw (InconsistentTimestampException (head + 1) timestamp)
   else Ok (mkContainer (entries_ c) timestamp)).

Definition PersisterEmptyImpl c : bool := match entries_ c with [] => true | _ => false end.

Definition PersisterSizeImpl c : N := size c.

Definition PersisterLastPublishedIndexAndTimestampImpl c : outcome persistence_error idxts_t :=
  if negb (PersisterEmptyImpl c) then
    _ ← check (assert_head_not_behind c);
    t ← check (back c);
    Ok (mkIdxTs (size c - 1) t)
  else Throw NoEntriesPublishedYet.

Definition PersisterHeadAndLastPublishedIndexAndTimestampImpl c : outcome persistence_error head_optidxts_t :=
  if negb (PersisterEmptyImpl c) then
    _ ← check (assert_head_not_behind c);
    t ← check (back c);
    check (make_head_optidxts (head_ c) (size c - 1) t)
  else Ok (mkHeadOptIdxTs (head_ c) None).

Definition PersisterCurrentHeadImpl c : microseconds := head_ c.

(** [-1] for an end that is past the last entry. *)
Definition PersisterIndexRangeByTimestampRangeImpl (from till : microseconds) c : N * N :=
  let begin_it := partition_point (λ e, e.1 <? from) (entries_ c) in
  let first := if (begin_it =? length (entries_ c))%nat then no_index else N.of_nat begin_it in
  let second :=
    if 0 <? till then
      let end_it := partition_point (λ e, negb (till <? e.1)) (entries_ c) in
      if (end_it =? length (entries_ c))%nat then no_index else N.of_nat end_it
    else no_index in
  (first, second).

(** The range an iterable is built with: [ITERABLE(container_, begin, end)]. *)
Definition PersisterIterateImpl (begin end_ : N) c : outcome persistence_error (N * N) :=
  let size := size c in
  let end_ := if (end_ =? no_index)%N then size else end_ in
  if (size <? end_)%N then Throw InvalidIterableRangeException
  else if (begin =? end_)%N then Ok (0%N, 0%N)
  else if (size <=? begin)%N then Throw InvalidIterableRangeException
  else if (end_ <? begin)%N then Throw InvalidIterableRangeException
  else Ok (begin, end_).

Definition PersisterIterateTimeImpl (from till : microseconds) c : outcome persistence_error (N * N) :=
  if (0 <? till) && (till <? from) then Throw InvalidIterableRangeException
  else
    let index_range := PersisterIndexRangeByTimestampRangeImpl from till c in
    if negb (index_range.1 =? no_index)%N
    then PersisterIterateImpl index_range.1 index_range.2 c
    else Ok (0%N, 0%N).

(** [Iterator::operator*]: [entries_[i_]] is undefined past the end. *)
Definition Iterator_deref c (i : N) : outcome persistence_error (idxts_t * E) :=
  match entries_ c !! N.to_nat i with
  | Some e => Ok (mkIdxTs i e.1, e.2)
  | None => Throw (Fault DanglingDereference)
  end.

(** [IteratorUnsafe::operator*]. *)
Definition IteratorUnsafe_deref `{LogCodec E} c (i : N) : outcome persistence_error bytes :=
  match entries_ c !! N.to_nat i with
  | Some e => Ok (json_idxts (mkIdxTs i e.1) ++ tab :: json_entry e.2)
  | None => Throw (Fault DanglingDereference)
  end.

(** [for (const auto& e : persister.Iterate(...))]. *)
Definition for_each {A} (deref : N → outcome persistence_error A) (range : outcome persistence_error (N * N))
    : outcome persistence_error (list A) :=
  '(begin, end_) ← range;
  range_for (λ i (_ : ()), x ← deref i; Ok (x, ())) begin end_ ().

Definition iterate (begin end_ : N) c := for_each (Iterator_deref c) (PersisterIterateImpl begin end_ c).
Definition iterate_time (from till : microseconds) c :=
  for_each (Iterator_deref c) (PersisterIterateTimeImpl from till c).
Definition iterate_unsafe `{LogCodec E} (begin end_ : N) c :=
  for_each (IteratorUnsafe_deref c) (PersisterIterateImpl begin end_ c).

#[global] Instance memory_persister : Persister (Container E) E := {
  Publish := λ CK _, PersisterPublishImpl;
  UpdateHead := λ CK _, PersisterUpdateHeadImpl;
  Size := PersisterSizeImpl;
  CurrentHead := PersisterCurrentHeadImpl;
  LastPublishedIndexAndTimestamp := PersisterLastPublishedIndexAndTimestampImpl;
  HeadAndLastPublishedIndexAndTimestamp := PersisterHeadAndLastPublishedIndexAndTimestampImpl;
  Iterate := iterate;
  IterateTime := iterate_time;
  IndexRangeByTimestampRange := PersisterIndexRangeByTimestampRangeImpl;
}.

(** ** The container is the abstract log *)

Definition as_log c : log E := mkLog (entries_ c) (head_ c).
Definition repr c (l : log E) : Prop := l = as_log c ∧ log_wf l.

Lemma repr_init : repr init log_init.
Proof. split; [done|apply log_init_wf]. Qed.

Lemma back_ok c e : last (entries_ c) = Some e → log_wf (as_log c) →
  back c = Ok e.1 ∧ assert_head_not_behind c = Ok () ∧ e.1 ≤ head_ c.
Proof.
  intros Hl (_ & Hf & _). simpl in Hf. unfold assert_head_not_behind, back. rewrite Hl. simpl.
  assert (e.1 ≤ head_ c) as Hle.
  { rewrite Forall_fmap, Forall_forall in Hf. apply (Hf e). by apply last_Some_elem_of. }
  split; [done|]. unfold CURRENT_ASSERT. destruct (Z.leb_spec e.1 (head_ c)); [done|lia].
Qed.

Lemma publish_assertion c t e : assert_head_not_behind (mkContainer (entries_ c ++ [(t, e)]) t) = Ok ().
Proof. unfold assert_head_not_behind, back. simpl. rewrite last_snoc. simpl. by rewrite Z.leb_refl. Qed.

Lemma memory_publish_refines `{Clock CK} a e (ck : CK) c l : repr c l →
  (PersisterPublishImpl a e ck c).1 = (TimestampAsMicroseconds a ck).2 ∧
  outcome_rel (λ r r', r.1 = r'.1 ∧ repr r.2 r'.2)
    (PersisterPublishImpl a e ck c).2 (log_publish (TimestampAsMicroseconds a ck).1 e l).
Proof.
  intros [-> Hw]. unfold PersisterPublishImpl.
  destruct (TimestampAsMicroseconds a ck) as [t ck'] eqn:Ht. simpl. split; [done|].
  pose proof (log_publish_wf t e (as_log c)) as Hwf. unfold log_publish in *. simpl in *.
  destruct (head_ c <? t); simpl; [|done].
  rewrite publish_assertion. simpl. split; [done|]. split; [done|]. by eapply Hwf.
Qed.

Lemma memory_update_head_refines `{Clock CK} a (ck : CK) c l : repr c l →
  (PersisterUpdateHeadImpl a ck c).1 = (TimestampAsMicroseconds a ck).2 ∧
  outcome_rel repr (PersisterUpdateHeadImpl a ck c).2 (log_update_head (TimestampAsMicroseconds a ck).1 l).
Proof.
  intros [-> Hw]. unfold PersisterUpdateHeadImpl.
  destruct (TimestampAsMicroseconds a ck) as [t ck'] eqn:Ht. simpl. split; [done|].
  pose proof (log_update_head_wf t (as_log c)) as Hwf. unfold log_update_head in *. simpl in *.
  destruct (head_ c <? t); simpl; [|done]. split; [done|]. by eapply Hwf.
Qed.

Lemma not_empty_last c : PersisterEmptyImpl c = false → ∃ e, last (entries_ c) = Some e.
Proof. unfold PersisterEmptyImpl. destruct (entries_ c); [done|]. intros _. apply last_cons_Some. Qed.

Lemma last_empty c : PersisterEmptyImpl c = true → last (entries_ c) = None.
Proof. unfold PersisterEmptyImpl. by destruct (entries_ c). Qed.

Lemma memory_last_refines c l : repr c l → PersisterLastPublishedIndexAndTimestampImpl c = log_last l.
Proof.
  intros [-> Hw]. rewrite log_last_lookup. unfold PersisterLastPublishedIndexAndTimestampImpl. simpl.
  destruct (PersisterEmptyImpl c) eqn:He; simpl; [by rewrite last_empty|].
  apply not_empty_last in He as [e He]. destruct (back_ok c e He Hw) as (-> & -> & _).
  rewrite He. simpl. unfold size. do 2 f_equal. lia.
Qed.

Lemma memory_head_and_last_refines c l : repr c l →
  PersisterHeadAndLastPublishedIndexAndTimestampImpl c = Ok (log_head_and_last l).
Proof.
  intros [-> Hw]. unfold PersisterHeadAndLastPublishedIndexAndTimestampImpl, log_head_and_last.
  rewrite last_lookup, length_numbered, numbered_lookup, <- last_lookup. simpl.
  destruct (PersisterEmptyImpl c) eqn:He; simpl; [by rewrite last_empty|].
  apply not_empty_last in He as [e He]. destruct (back_ok c e He Hw) as (-> & -> & Hle).
  rewrite He. simpl. unfold make_head_optidxts, CURRENT_ASSERT.
  destruct (Z.leb_spec e.1 (head_ c)); [|lia]. simpl. unfold size. do 4 f_equal. lia.
Qed.

(** ** Iteration *)

Lemma memory_for_each_slice c (begin end_ : N) : (begin ≤ end_ ≤ size c)%N →
  for_each (Iterator_deref c) (Ok (begin, end_)) =
  Ok (drop (N.to_nat begin) (take (N.to_nat end_) (numbered (as_log c)))).
Proof.
  unfold size. intros [Hb He]. simpl.
  apply (range_for_slice _ (λ _ _, True)); rewrite ?length_numbered; simpl; [lia..|done|].
  intros i [] _ Hi. unfold Iterator_deref. rewrite numbered_lookup. simpl.
  destruct (lookup_lt_is_Some_2 (entries_ c) (N.to_nat i)) as [x ->]; [lia|]. simpl.
  rewrite N2Nat.id. eauto.
Qed.

Lemma memory_iterate_refines begin end_ c l : repr c l → log_fits l → iterate begin end_ c = log_iterate begin end_ l.
Proof.
  intros [-> Hw] Hfit. unfold iterate, PersisterIterateImpl, log_iterate, log_fits in *.
  change (log_size (as_log c)) with (size c) in *.
  set (e := if (end_ =? no_index)%N then size c else end_).
  destruct (N.ltb_spec (size c) e), (N.leb_spec e (size c)); try lia.
  { by rewrite andb_false_r. }
  destruct (N.eqb_spec begin e) as [->|Hne].
  { rewrite memory_for_each_slice by lia. rewrite N.leb_refl. simpl.
    rewrite drop_ge; [done|]. rewrite length_take. lia. }
  destruct (N.leb_spec begin e), (N.leb_spec (size c) begin), (N.ltb_spec e begin); try lia; simpl; try done.
  by apply memory_for_each_slice.
Qed.

Lemma index_range_entries from till c :
  PersisterIndexRangeByTimestampRangeImpl from till c = index_range (entries_ c).*1 from till.
Proof.
  unfold PersisterIndexRangeByTimestampRangeImpl, index_range.
  by rewrite !partition_point_fmap, length_fmap.
Qed.

Lemma memory_iterate_time_refines from till c l :
  repr c l → log_fits l → iterate_time from till c = log_iterate_time from till l.
Proof.
  intros Hr Hfit. pose proof Hr as [-> Hw]. unfold iterate_time, PersisterIterateTimeImpl.
  destruct ((0 <? till) && (till <? from)) eqn:Hbad; [unfold log_iterate_time; by rewrite Hbad|].
  rewrite <- index_range_iterate by done. rewrite index_range_entries. simpl.
  destruct (negb _); [|done]. by apply memory_iterate_refines.
Qed.

(** ** Raw log lines *)

Lemma for_each_unsafe_slice `{LogCodec E} c (begin end_ : N) : (begin ≤ end_ ≤ size c)%N →
  for_each (IteratorUnsafe_deref c) (Ok (begin, end_)) =
  Ok (drop (N.to_nat begin) (take (N.to_nat end_) ((λ x, log_line x.1 x.2) <$> numbered (as_log c)))).
Proof.
  unfold size. intros [Hb He]. simpl.
  apply (range_for_slice _ (λ _ _, True)); rewrite ?length_fmap, ?length_numbered; simpl; [lia..|done|].
  intros i [] _ Hi. unfold IteratorUnsafe_deref. rewrite list_lookup_fmap, numbered_lookup. simpl.
  destruct (lookup_lt_is_Some_2 (entries_ c) (N.to_nat i)) as [x ->]; [lia|]. simpl.
  rewrite N2Nat.id. eauto.
Qed.

(** Publishing the line another persister wrote for the next entry publishes
    the entry. *)
Lemma memory_publish_unsafe_line `{LogCodecSound E} c l t e :
  repr c l → head_ c < t →
  outcome_rel (λ r r', r.1 = r'.1 ∧ repr r.2 r'.2)
    (PersisterPublishUnsafeImpl (log_line (mkIdxTs (size c) t) e) c) (log_publish t e l).
Proof.
  intros [-> Hw] Ht. unfold PersisterPublishUnsafeImpl, log_line.
  rewrite split_at_app by apply json_idxts_no_tab. rewrite parse_json_idxts. simpl.
  pose proof (log_publish_wf t e (as_log c)) as Hwf. unfold log_publish in *. simpl in *.
  rewrite N.eqb_refl. destruct (Z.ltb_spec (head_ c) t); [|lia]. simpl.
  rewrite parse_json_entry. simpl. rewrite publish_assertion. simpl.
  split; [done|]. split; [done|]. by eapply Hwf.
Qed.

#[global] Instance memory_persister_sound : PersisterSound (Container E) E.
Proof.
  refine {| represents := repr |}.
  - by intros p l [_ Hw].
  - intros. by apply memory_publish_refines.
  - intros. by apply memory_update_head_refines.
  - by intros p l [-> _] _.
  - by intros p l [-> _].
  - intros. by apply memory_last_refines.
  - intros. by apply memory_head_and_last_refines.
  - intros. by apply memory_iterate_refines.
  - intros. by apply memory_iterate_time_refines.
  - intros from till p l [-> _]. apply index_range_entries.
Defined.

#[global] Instance memory_unsafe_persister `{!LogCodec E} : UnsafePersister (Container E) E := {
  PublishUnsafe := PersisterPublishUnsafeImpl;
  IterateUnsafe := iterate_unsafe;
}.

#[global] Instance memory_unsafe_persister_sound `{!LogCodec E, !LogCodecSound E} : UnsafePersisterSound (Container E) E.
Proof. split. intros c l t e [-> Hw] _ Ht. by apply memory_publish_unsafe_line. Qed.
End Memory.
End Memory.
