(* ===== verification/Decimal.v ===== *)
(** * Decimal numbers in the head directive

    [Printf("%020lld", head)], which the file persister writes, and
    [current::FromString<int64_t>] (bricks/strings/util.h), which reads it back. *)

From Stdlib Require Import ZArith NArith Lia Ascii String.
From stdpp Require Import base list strings.
From S2P Require Import Prelude Persistence.
Open Scope Z_scope.

(** ** Printing *)

Definition digit_char (d : Z) : ascii := ascii_of_N (Z.to_N (48 + d)).

(** The last [n] decimal digits of [z], most significant first. *)
Fixpoint digits (n : nat) (z : Z) : bytes :=
  match n with
  | O => []
  | S n => digits n (z / 10) ++ [digit_char (z mod 10)]
  end.

(** ["%020lld"]: at least 20 characters, padded with zeroes after the sign.  No
    64-bit number has more than 19 digits. *)
Definition Printf_020lld (z : Z) : bytes :=
  if z <? 0 then "-"%char :: digits 19 (- z) else digits 20 z.

(** ** Parsing: [std::istringstream >> int64_t], zero if it fails *)

Definition digit_value (c : ascii) : option Z :=
  let n := Z.of_N (N_of_ascii c) in
  if (48 <=? n) && (n <=? 57) then Some (n - 48) else None.

Fixpoint read_digits (acc : Z) (s : bytes) : Z :=
  match s with
  | [] => acc
  | c :: s' =>
      match digit_value c with
      | Some d => read_digits (10 * acc + d) s'
      | None => acc
      end
  end.

Definition starts_with_digit (s : bytes) : bool :=
  match s with
  | c :: _ => match digit_value c with Some _ => true | None => false end
  | [] => false
  end.

(** Extraction fails on no digits and on a number that does not fit. *)
Definition read_signed (sign : Z) (s : bytes) : option Z :=
  if starts_with_digit s then
    let z := sign * read_digits 0 s in
    if (int64_min <=? z) && (z <=? int64_max) then Some z else None
  else None.

Definition extract_int64 (s : bytes) : option Z :=
  let s := drop (leading_spaces s) s in
  match s with
  | "-"%char :: s' => read_signed (-1) s'
  | "+"%char :: s' => read_signed 1 s'
  | _ => read_signed 1 s
  end.

Definition FromString_int64 (s : bytes) : Z :=
  match extract_int64 s with Some z => z | None => 0 end.

(** ** Printing, then parsing *)

Lemma N_of_ascii_digit_char d : 0 ≤ d < 10 → Z.of_N (N_of_ascii (digit_char d)) = 48 + d.
Proof. intros Hd. unfold digit_char. rewrite N_ascii_embedding; lia. Qed.

Lemma digit_value_char d : 0 ≤ d < 10 → digit_value (digit_char d) = Some d.
Proof.
  intros Hd. unfold digit_value. rewrite N_of_ascii_digit_char by done.
  destruct (Z.leb_spec 48 (48 + d)), (Z.leb_spec (48 + d) 57); try lia. simpl. f_equal. lia.
Qed.

Lemma digits_value n z : Forall (λ c, is_Some (digit_value c)) (digits n z).
Proof.
  revert z. induction n as [|n IH]; intros z; simpl; [constructor|].
  apply Forall_app. split; [done|]. constructor; [|constructor].
  rewrite digit_value_char; [by eexists|]. apply Z.mod_pos_bound. lia.
Qed.

Lemma length_digits n z : length (digits n z) = n.
Proof. revert z. induction n as [|n IH]; intros z; simpl; [done|]. rewrite length_app, IH. simpl. lia. Qed.

Lemma read_digits_app acc s c d :
  Forall (λ c, is_Some (digit_value c)) s → digit_value c = Some d →
  read_digits acc (s ++ [c]) = 10 * read_digits acc s + d.
Proof.
  revert acc. induction s as [|x s IH]; intros acc Hs Hc; simpl; [by rewrite Hc|].
  apply Forall_cons in Hs as [[v Hv] Hs]. rewrite Hv. by apply IH.
Qed.

Lemma read_digits_digits n z : 0 ≤ z → read_digits 0 (digits n z) = z mod 10 ^ Z.of_nat n.
Proof.
  revert z. induction n as [|n IH]; intros z Hz; [by rewrite Z.mod_1_r|]. simpl digits.
  rewrite (read_digits_app _ _ _ (z mod 10)); [|apply digits_value|].
  - rewrite IH by (apply Z.div_pos; lia).
    rewrite Nat2Z.inj_succ, Z.pow_succ_r by lia.
    rewrite Z.rem_mul_r by (try apply Z.pow_nonzero; lia). lia.
  - apply digit_value_char. apply Z.mod_pos_bound. lia.
Qed.

Lemma digit_not_special c : is_Some (digit_value c) →
  isspace c = false ∧ c ≠ "-"%char ∧ c ≠ "+"%char ∧ c ≠ newline ∧ c ≠ nul.
Proof.
  intros Hc. assert (∀ c', digit_value c' = None → c ≠ c') as Hne.
  { intros c' Hc' ->. destruct Hc as [d Hd]. by rewrite Hc' in Hd. } split_and!; [|by eapply Hne..].
  unfold isspace. case_bool_decide as Hin; [|done]. exfalso.
  repeat (apply elem_of_cons in Hin as [Hin|Hin]; [by eapply Hne in Hin|]). by apply elem_of_nil in Hin.
Qed.

Lemma digits_not_special c n z : c ∈ digits n z → c ≠ newline ∧ c ≠ nul ∧ isspace c = false.
Proof.
  intros Hc. pose proof (digits_value n z) as Hd. rewrite Forall_forall in Hd.
  specialize (Hd c Hc). apply digit_not_special in Hd. tauto.
Qed.

Lemma extract_digits n z : 0 ≤ z ≤ int64_max → z < 10 ^ Z.of_nat (S n) →
  extract_int64 (digits (S n) z) = Some z.
Proof.
  intros Hz Hn. unfold extract_int64.
  pose proof (digits_value (S n) z) as Hd. pose proof (read_digits_digits (S n) z) as Hr.
  destruct (digits (S n) z) as [|c s] eqn:Hs; [apply (f_equal length) in Hs; by rewrite length_digits in Hs|].
  apply Forall_cons in Hd as [Hc _]. destruct (digit_not_special c Hc) as (Hsp & Hm & Hp & _).
  cbn [leading_spaces]. rewrite Hsp. cbn [drop].
  assert (read_signed 1 (c :: s) = Some z) as Hread.
  { unfold read_signed. simpl starts_with_digit. destruct Hc as [d Hc]. rewrite Hc.
    rewrite Hr, Z.mul_1_l, Z.mod_small by lia.
    destruct (Z.leb_spec int64_min z), (Z.leb_spec z int64_max); unfold int64_min in *; try lia. done. }
  destruct c as [[] [] [] [] [] [] [] []]; done.
Qed.

(** A head time stamp survives being written and read back. *)
Lemma head_roundtrip z : 0 ≤ z ≤ int64_max → FromString_int64 (Printf_020lld z) = z.
Proof.
  intros Hz. unfold FromString_int64, Printf_020lld. destruct (Z.ltb_spec z 0); [lia|].
  rewrite extract_digits; [done|done|]. unfold int64_max in Hz. lia.
Qed.

(** The text always has the same length, which is what makes it possible to
    overwrite it in place. *)
Lemma length_Printf_020lld z : length (Printf_020lld z) = 20%nat.
Proof. unfold Printf_020lld. destruct (z <? 0); simpl length; rewrite ?length_digits; done. Qed.

Lemma Printf_020lld_clean z c : c ∈ Printf_020lld z → c ≠ newline ∧ c ≠ nul ∧ isspace c = false.
Proof.
  unfold Printf_020lld. destruct (z <? 0).
  - rewrite elem_of_cons. intros [->|Hc]; [done|by eapply digits_not_special].
  - apply digits_not_special.
Qed.
