(* ===== verification/Codec.v ===== *)
(** * A concrete log codec

    The JSON library is a parameter of the persisters ([LogCodec]).  This file
    has one concrete codec that satisfies the laws asked of it, for entries of
    any countable type: a value is written as the binary digits of its code.  It
    shows that the hypotheses can hold and lets the model be run. *)

From Stdlib Require Import ZArith NArith Ascii String.
From stdpp Require Import base countable sets list strings.
From S2P Require Import Prelude Time Persistence.

Fixpoint print_bits (p : positive) : bytes :=
  match p with
  | xH => []
  | xO p => "0"%char :: print_bits p
  | xI p => "1"%char :: print_bits p
  end.

Fixpoint parse_bits (s : bytes) : option positive :=
  match s with
  | [] => Some xH
  | "0"%char :: s => xO <$> parse_bits s
  | "1"%char :: s => xI <$> parse_bits s
  | _ => None
  end.

Lemma parse_print_bits p : parse_bits (print_bits p) = Some p.
Proof. induction p as [p IH|p IH|]; simpl; by rewrite ?IH. Qed.

Lemma print_bits_chars p c : c ∈ print_bits p → c = "0"%char ∨ c = "1"%char.
Proof. induction p as [p IH|p IH|]; simpl; rewrite ?elem_of_cons, ?elem_of_nil; naive_solver. Qed.

(** A value of a type that is marked with a letter. *)
Definition print_marked `{Countable A} (mark : ascii) (x : A) : bytes := mark :: print_bits (encode x).

Definition parse_marked `{Countable A} (mark : ascii) (s : bytes) : option A :=
  match s with
  | c :: s => if bool_decide (c = mark) then p ← parse_bits s; decode p else None
  | [] => None
  end.

Lemma parse_print_marked `{Countable A} mark (x : A) : parse_marked mark (print_marked mark x) = Some x.
Proof. simpl. rewrite bool_decide_eq_true_2, parse_print_bits by done. simpl. apply decode_encode. Qed.

Lemma print_marked_chars `{Countable A} mark (x : A) c : c ∈ print_marked mark x → c = mark ∨ c = "0"%char ∨ c = "1"%char.
Proof. intros [->|Hc]%elem_of_cons; [by left|right]. by eapply print_bits_chars. Qed.

Section Codec.
Context `{Countable E}.

#[global] Instance bits_codec : LogCodec E := {
  json_idxts x := print_marked "i" (index x, us x);
  parse_idxts s := x ← parse_marked "i" s; Some (mkIdxTs x.1 x.2);
  json_entry := print_marked "e";
  parse_entry := parse_marked "e";
}.

#[global] Instance bits_codec_sound : LogCodecSound E.
Proof.
  split.
  - intros [i t]. cbn [parse_idxts json_idxts bits_codec]. by rewrite parse_print_marked.
  - by intros x [?|[?|?]]%print_marked_chars.
  - by intros x [?|[?|?]]%print_marked_chars.
  - intros e. apply parse_print_marked.
  - by intros x [?|[?|?]]%print_marked_chars.
  - by intros x [?|[?|?]]%print_marked_chars.
  - done.
Qed.

#[global] Instance bits_ts_codec : TsCodec := {
  json_ts_only := print_marked "t";
  parse_ts_only := parse_marked "t";
  parse_ts_optidx s :=
    match parse_marked (A := microseconds) "t" s with
    | Some t => Some (t, None)
    | None => x ← parse_marked (A := N * microseconds) "i" s; Some (x.2, Some x.1)
    end;
}.

Lemma print_marked_line `{Countable A} mark (x : A) : mark ∈ ["i"; "e"; "t"]%char → on_one_line (print_marked mark x).
Proof.
  intros Hm. split; [done|]. apply Forall_forall. intros c Hc. apply print_marked_chars in Hc.
  repeat setoid_rewrite elem_of_cons in Hm. destruct Hc as [->|[->| ->]]; [|done..].
  by destruct Hm as [->|[->|[->|[]%elem_of_nil]]].
Qed.

#[global] Instance bits_ts_codec_sound : TsCodecSound E.
Proof.
  split.
  - intros [i t]. cbn [parse_ts_optidx json_idxts bits_codec bits_ts_codec]. by rewrite parse_print_marked.
  - intros t. cbn [parse_ts_optidx json_ts_only bits_ts_codec]. by rewrite parse_print_marked.
  - intros t. apply parse_print_marked.
  - intros i. apply print_marked_line. set_solver.
  - intros t. apply print_marked_line. set_solver.
  - intros e. apply print_marked_line. set_solver.
Qed.
End Codec.
