(* ===== verification/FilePersister.v ===== *)
(** * The file persister: blocks/persistence/file.h

    The state is the bytes of the file together with what the process keeps in
    memory about it: the offset of every entry's line, the offset of the head
    time stamp if the last line is a head directive, the time stamps, and
    [end_].  Streams are positions in the file; [tellg] is [-1] once the end of
    the file has been hit.  Writes are taken to succeed.

    Main results: reopening the file gives back the in-memory state that was
    there before ([reopen_ok]), and the persister implements the abstract log
    ([file_persister_sound]). *)

From Stdlib Require Import ZArith NArith Lia Ascii String Sorted.
From stdpp Require Import base gmap list strings.
From S2P Require Import Prelude Time Persistence Decimal.
Open Scope Z_scope.

Module File.

(** ** Constants *)

Definition kDirectiveMarker : ascii := "#"%char.
Definition kSignatureDirective : bytes := str "#signature".
Definition kHeadDirective : bytes := str "#head".

(** ** Reading lines *)

Record istream := mkStream {
  fi_pos : nat;
  fi_eof : bool;
}.

(** [std::getline]: reading up to the end of the file sets [eofbit], and then
    the next read fails. *)
Definition getline (file : bytes) (fi : istream) : option (bytes * istream) :=
  if fi_eof fi then None
  else match drop (fi_pos fi) file with
       | [] => None
       | s =>
           match split_at newline s with
           | Some (line, _) => Some (line, mkStream (fi_pos fi + length line + 1) false)
           | None => Some (s, mkStream (fi_pos fi + length s) true)
           end
       end.

Definition tellg (fi : istream) : Z := if fi_eof fi then -1 else Z.of_nat (fi_pos fi).

Definition is_directive (line : bytes) : bool :=
  match line with
  | c :: _ => bool_decide (c = kDirectiveMarker)
  | [] => false
  end.

(** [value.compare(offset, key.length(), key) == 0]. *)
Definition has_at (offset : nat) (key value : bytes) : bool :=
  bool_decide (take (length key) (drop offset value) = key).

(** ** [IteratorOverFileOfPersistedEntries] *)

Record cit_t := mkCit {
  fi_ : istream;
  next_ : idxts_t;
}.

(** The constructor; the stream starts at the beginning of the file. *)
Definition make_cit (offset : Z) (index_at_offset : N) : cit_t :=
  mkCit (mkStream (if offset =? 0 then 0 else Z.to_nat offset) false) (mkIdxTs index_at_offset 0).

Section ProcessNextEntry.
Context `{LogCodec E} {S : Type}.
Context (on_entry : idxts_t → bytes → istream → S → outcome persistence_error S).
Context (on_directive : bytes → istream → S → outcome persistence_error S).
Context (file : bytes).

(** [None] when there is no next line. *)
Definition ProcessNextEntry (c : cit_t) (s : S) : outcome persistence_error (option (cit_t * S)) :=
  match getline file (fi_ c) with
  | None => Ok None
  | Some (line, fi) =>
      if negb (is_directive line) then
        match split_at tab line with
        | None => Throw (MalformedEntryException line)
        | Some (before, after) =>
            current ← json_parse (parse_idxts before);
            if negb (index current =? index (next_ c))%N
            then Throw (InconsistentIndexException (index (next_ c)) (index current))
            else if us current <? us (next_ c)
            then Throw (InconsistentTimestampException (us (next_ c)) (us current))
            else
              s ← on_entry current (c_str after) fi s;
              Ok (Some (mkCit fi (mkIdxTs (u64_succ (index current)) (us current + 1)), s))
        end
      else
        s ← on_directive line fi s;
        Ok (Some (mkCit fi (next_ c), s))
  end.

(** [while (cit.ProcessNextEntry(...)) {}].  Every line takes at least one
    byte, so the length of the file is enough fuel ([process_all_fuel]). *)
Fixpoint process_all (fuel : nat) (c : cit_t) (s : S) : outcome persistence_error (cit_t * S) :=
  match ProcessNextEntry c s with
  | Throw e => Throw e
  | Ok None => Ok (c, s)
  | Ok (Some (c', s')) =>
      match fuel with
      | O => Throw LoopNeverEnds
      | Datatypes.S fuel => process_all fuel c' s'
      end
  end.
End ProcessNextEntry.

(** ** [FilePersisterImpl] *)

Record end_t := mkEnd {
  next_index : N;
  last_entry_us : microseconds;
  head : microseconds;
}.

Record FilePersisterImpl := mkImpl {
  file : bytes;
  record_offset_ : list Z;
  head_offset_ : Z;
  record_timestamp_ : list microseconds;
  end_ : end_t;
}.

(** What the callbacks of [ValidateFileAndInitializeHead] update. *)
Record validation := mkValidation {
  v_record_offset : list Z;
  v_record_timestamp : list microseconds;
  v_head_offset : Z;
  current_offset : Z;
  v_head : microseconds;
}.

Definition validation_init : validation := mkValidation [] [] 0 0 (-1).

Section Persister.
Context `{LogCodec E}.
(** [JSON(ss::StreamSignature(namespace_name, schema))], generated by the type
    system from the entry type. *)
Context (signature : bytes).

Definition validate_entry (current : idxts_t) (_ : bytes) (fi : istream) (v : validation)
    : outcome persistence_error validation :=
  _ ← check (CURRENT_ASSERT (index current =? N.of_nat (length (v_record_offset v)))%N);
  _ ← check (CURRENT_ASSERT (index current =? N.of_nat (length (v_record_timestamp v)))%N);
  if negb (v_head v <? us current)
  then Throw (InconsistentTimestampException (v_head v + 1) (us current))
  else Ok (mkValidation (v_record_offset v ++ [current_offset v])
                        (v_record_timestamp v ++ [us current]) 0 (tellg fi) (us current)).

Definition validate_directive (value : bytes) (fi : istream) (v : validation)
    : outcome persistence_error validation :=
  if has_at 0 kHeadDirective value then
    let offset := (length kHeadDirective + leading_spaces (drop (length kHeadDirective) value))%nat in
    let us := FromString_int64 (c_str (drop offset value)) in
    if negb (v_head v <? us) then Throw (InconsistentTimestampException (v_head v + 1) us)
    else Ok (mkValidation (v_record_offset v) (v_record_timestamp v)
                          (current_offset v + Z.of_nat offset) (tellg fi) us)
  else if has_at 0 kSignatureDirective value then
    if negb (current_offset v =? 0) then Throw InvalidSignatureLocation
    else
      let offset := (length kSignatureDirective + leading_spaces (drop (length kSignatureDirective) value))%nat in
      if negb (has_at offset signature value)
      then Throw (InvalidStreamSignature signature (drop offset value))
      else Ok (mkValidation (v_record_offset v) (v_record_timestamp v) 0 (tellg fi) (v_head v))
  else Ok (mkValidation (v_record_offset v) (v_record_timestamp v) 0 (tellg fi) (v_head v)).

Definition signature_line : bytes := kSignatureDirective ++ " "%char :: signature ++ [newline].

(** The constructor of [FilePersisterImpl] on a file with these contents (none
    for a file that did not exist: opening it for appending creates it). *)
Definition ValidateFileAndInitializeHead (contents : bytes) : outcome persistence_error FilePersisterImpl :=
  '(cit, v) ← process_all validate_entry validate_directive contents (length contents)
                (make_cit 0 0) validation_init;
  let next := next_ cit in
  Ok (mkImpl (if current_offset v =? 0 then contents ++ signature_line else contents)
             (v_record_offset v) (v_head_offset v) (v_record_timestamp v)
             (mkEnd (index next) (us next - 1) (v_head v))).

Implicit Type p : FilePersisterImpl.

(** [file_appender_.tellp()]. *)
Definition tellp p : Z := Z.of_nat (length (file p)).

(** The common part of [PersisterPublishImpl] and [PersisterPublishUnsafeImpl]
    after their checks: record where the line starts, append it, store [end_]. *)
Definition append_line (idxts : idxts_t) (line : bytes) p : outcome persistence_error (idxts_t * FilePersisterImpl) :=
  _ ← check (CURRENT_ASSERT (N.of_nat (length (record_offset_ p)) =? index idxts)%N);
  _ ← check (CURRENT_ASSERT (N.of_nat (length (record_timestamp_ p)) =? index idxts)%N);
  Ok (idxts,
      mkImpl (file p ++ line ++ [newline]) (record_offset_ p ++ [tellp p]) 0
             (record_timestamp_ p ++ [us idxts])
             (mkEnd (u64_succ (next_index (end_ p))) (us idxts) (us idxts))).

Definition PersisterPublishImpl `{Clock CK} (provided_timestamp : timestamp_arg) (entry : E) (ck : CK) p
    : CK * outcome persistence_error (idxts_t * FilePersisterImpl) :=
  let iterator := end_ p in
  let '(timestamp, ck) := TimestampAsMicroseconds provided_timestamp ck in
  (ck,
   if negb (head iterator <? timestamp)
   then Throw (InconsistentTimestampException (head iterator + 1) timestamp)
   else
     let idxts := mkIdxTs (next_index iterator) timestamp in
     append_line idxts (json_idxts idxts ++ tab :: json_entry entry) p).

Definition PersisterPublishUnsafeImpl (raw_log_line : bytes) p
    : outcome persistence_error (idxts_t * FilePersisterImpl) :=
  let iterator := end_ p in
  match split_at tab raw_log_line with
  | None => Throw (MalformedEntryException raw_log_line)
  | Some (before, _) =>
      idxts ← json_parse (parse_idxts before);
      if negb (index idxts =? next_index iterator)%N
      then Throw (UnsafePublishBadIndexTimestampException (next_index iterator) (index idxts))
      else if negb (head iterator <? us idxts)
      then Throw (InconsistentTimestampException (head iterator + 1) (us idxts))
      else append_line idxts raw_log_line p
  end.

(** [rewriter.seekp(offset); rewriter << text]. *)
Definition overwrite (contents : bytes) (offset : Z) (text : bytes) : bytes :=
  take (Z.to_nat offset) contents ++ text ++ drop (Z.to_nat offset + length text) contents.

Definition PersisterUpdateHeadImpl `{Clock CK} (provided_timestamp : timestamp_arg) (ck : CK) p
    : CK * outcome persistence_error FilePersisterImpl :=
  let iterator := end_ p in
  let '(timestamp, ck) := TimestampAsMicroseconds provided_timestamp ck in
  (ck,
   if negb (head iterator <? timestamp)
   then Throw (InconsistentTimestampException (head iterator + 1) timestamp)
   else
     let iterator := mkEnd (next_index iterator) (last_entry_us iterator) timestamp in
     let head_str := Printf_020lld timestamp in
     if negb (head_offset_ p =? 0) then
       Ok (mkImpl (overwrite (file p) (head_offset_ p) (head_str ++ [newline]))
                  (record_offset_ p) (head_offset_ p) (record_timestamp_ p) iterator)
     else
       let file' := file p ++ kHeadDirective ++ [" "%char] in
       Ok (mkImpl (file' ++ head_str ++ [newline]) (record_offset_ p) (Z.of_nat (length file'))
                  (record_timestamp_ p) iterator)).

Definition PersisterEmptyImpl p : bool := (next_index (end_ p) =? 0)%N.
Definition PersisterSizeImpl p : N := next_index (end_ p).
Definition PersisterCurrentHeadImpl p : microseconds := head (end_ p).

Definition PersisterLastPublishedIndexAndTimestampImpl p : outcome persistence_error idxts_t :=
  let iterator := end_ p in
  if negb (next_index iterator =? 0)%N
  then Ok (mkIdxTs (next_index iterator - 1) (last_entry_us iterator))
  else Throw NoEntriesPublishedYet.

Definition PersisterHeadAndLastPublishedIndexAndTimestampImpl p : outcome persistence_error head_optidxts_t :=
  let iterator := end_ p in
  if negb (next_index iterator =? 0)%N
  then check (make_head_optidxts (head iterator) (next_index iterator - 1) (last_entry_us iterator))
  else Ok (mkHeadOptIdxTs (head iterator) None).

Definition PersisterIndexRangeByTimestampRangeImpl (from till : microseconds) p : N * N :=
  let ts := record_timestamp_ p in
  let begin_it := partition_point (λ t, t <? from) ts in
  let first := if (begin_it =? length ts)%nat then no_index else N.of_nat begin_it in
  let second :=
    if 0 <? till then
      let end_it := partition_point (λ t, negb (till <? t)) ts in
      if (end_it =? length ts)%nat then no_index else N.of_nat end_it
    else no_index in
  (first, second).

(** The range an iterable is built with: [ITERABLE(impl, begin, end, offset)]. *)
Definition PersisterIterateImpl (begin_index end_index : N) p : outcome persistence_error (N * N * Z) :=
  let current_size := next_index (end_ p) in
  let end_index := if (end_index =? no_index)%N then current_size else end_index in
  if (current_size <? end_index)%N then Throw InvalidIterableRangeException
  else if (begin_index =? end_index)%N then Ok (0%N, 0%N, 0)
  else if (end_index <? begin_index)%N then Throw InvalidIterableRangeException
  else
    _ ← check (CURRENT_ASSERT (current_size <=? N.of_nat (length (record_offset_ p)))%N);
    match record_offset_ p !! N.to_nat begin_index with
    | Some offset => Ok (begin_index, end_index, offset)
    | None => Throw (Fault DanglingDereference)
    end.

Definition PersisterIterateTimeImpl (from till : microseconds) p : outcome persistence_error (N * N * Z) :=
  if (0 <? till) && (till <? from) then Throw InvalidIterableRangeException
  else
    let index_range := PersisterIndexRangeByTimestampRangeImpl from till p in
    if negb (index_range.1 =? no_index)%N
    then PersisterIterateImpl index_range.1 index_range.2 p
    else Ok (0%N, 0%N, 0).

(** [Iterator::operator*]: read lines until the entry with index [i_]. *)
Definition found_entry (i_ : N) (cursor : idxts_t) (json : bytes) (_ : istream) (found : option (idxts_t * E))
    : outcome persistence_error (option (idxts_t * E)) :=
  if (index cursor =? i_)%N then
    entry ← json_parse (parse_entry json);
    Ok (Some (cursor, entry))
  else if (i_ <? index cursor)%N then Throw (InconsistentIndexException i_ (index cursor))
  else Ok found.

Definition skip_directive {A} (_ : bytes) (_ : istream) (found : A) : outcome persistence_error A := Ok found.

Fixpoint Iterator_deref (contents : bytes) (fuel : nat) (i_ : N) (c : cit_t)
    : outcome persistence_error (idxts_t * E * cit_t) :=
  match ProcessNextEntry (found_entry i_) skip_directive contents c None with
  | Throw e => Throw e
  | Ok None => Throw EndOfFile
  | Ok (Some (c, Some result)) => Ok (result, c)
  | Ok (Some (c, None)) =>
      match fuel with
      | O => Throw LoopNeverEnds
      | S fuel => Iterator_deref contents fuel i_ c
      end
  end.

(** [for (const auto& e : persister.Iterate(...))]: the iterators of an empty
    range are equal and never touch the file. *)
Definition for_each (range : outcome persistence_error (N * N * Z)) p : outcome persistence_error (list (idxts_t * E)) :=
  '(begin_, end_, offset) ← range;
  if (begin_ =? end_)%N then Ok []
  else range_for (Iterator_deref (file p) (length (file p))) begin_ end_ (make_cit offset begin_).

Definition iterate (begin end_ : N) p := for_each (PersisterIterateImpl begin end_ p) p.
Definition iterate_time (from till : microseconds) p := for_each (PersisterIterateTimeImpl from till p) p.

(** [IteratorUnsafe]: its stream and [current_offset_]. *)
Definition IteratorUnsafe_deref p (i_ : N) (st : istream * Z) : outcome persistence_error (bytes * (istream * Z)) :=
  let '(fi, current_offset_) := st in
  match record_offset_ p !! N.to_nat i_ with
  | None => Throw (Fault DanglingDereference)
  | Some offset =>
      let fi := if negb (offset =? current_offset_) then mkStream (Z.to_nat offset) false else fi in
      match getline (file p) fi with
      | None => Throw EndOfFile
      | Some (line, fi) =>
          _ ← check (CURRENT_ASSERT (negb (is_directive line)));
          Ok (line, (fi, offset))
      end
  end.

Definition for_each_unsafe (range : outcome persistence_error (N * N * Z)) p : outcome persistence_error (list bytes) :=
  '(begin_, end_, offset) ← range;
  if (begin_ =? end_)%N then Ok []
  else range_for (IteratorUnsafe_deref p) begin_ end_
         (mkStream (if offset =? 0 then 0 else Z.to_nat offset) false, offset).

Definition iterate_unsafe (begin end_ : N) p := for_each_unsafe (PersisterIterateImpl begin end_ p) p.
End Persister.

#[global] Instance file_persister `{LogCodec E} : Persister FilePersisterImpl E := {
  Publish := λ CK _, PersisterPublishImpl;
  UpdateHead := λ CK _, PersisterUpdateHeadImpl;
  Size := PersisterSizeImpl;
  CurrentHead := PersisterCurrentHeadImpl;
  LastPublishedIndexAndTimestamp := PersisterLastPublishedIndexAndTimestampImpl;
  HeadAndLastPublishedIndexAndTimestamp := PersisterHeadAndLastPublishedIndexAndTimestampImpl;
  Iterate := iterate;
  IterateTime := iterate_time;
  IndexRangeByTimestampRange := PersisterIndexRangeByTimestampRangeImpl;
}.

(** ** Reading a file line by line *)

Section Reading.
Context {E : Type} `{LogCodecSound E}.

Lemma getline_at file pre line rest :
  file = pre ++ line ++ newline :: rest → newline ∉ line →
  getline file (mkStream (length pre) false) = Some (line, mkStream (length pre + length line + 1) false).
Proof.
  intros -> Hl. unfold getline. cbn [fi_eof fi_pos]. rewrite drop_app_length.
  pose proof (split_at_app newline line rest Hl) as Hs.
  destruct (line ++ newline :: rest) eqn:Hlr; [by destruct line|]. cbv beta iota. by rewrite Hs.
Qed.

Lemma getline_end file : getline file (mkStream (length file) false) = None.
Proof. unfold getline. simpl. by rewrite drop_ge. Qed.

(** Reading a line moves forward and stays within the file. *)
Lemma getline_progress file fi line fi' :
  getline file fi = Some (line, fi') →
  (fi_pos fi < fi_pos fi' ≤ length file)%nat.
Proof.
  unfold getline. destruct fi as [pos eof]. cbn [fi_eof fi_pos]. destruct eof; [done|].
  destruct (drop pos file) as [|x s] eqn:Hd; [done|].
  assert (length (drop pos file) = S (length s)) as Hlen by by rewrite Hd.
  rewrite length_drop in Hlen.
  destruct (split_at newline (x :: s)) as [[l r]|] eqn:Hs; intros [= <- <-]; [|simpl; lia].
  apply split_at_length in Hs. simpl in *. lia.
Qed.

Section Loop.
Context {S : Type}.
Context (on_entry : idxts_t → bytes → istream → S → outcome persistence_error S).
Context (on_directive : bytes → istream → S → outcome persistence_error S).
Context (file : bytes).
Local Abbreviation pne := (ProcessNextEntry on_entry on_directive file).
Local Abbreviation loop := (process_all on_entry on_directive file).

Lemma ProcessNextEntry_progress c s c' s' :
  pne c s = Ok (Some (c', s')) → (fi_pos (fi_ c) < fi_pos (fi_ c') ≤ length file)%nat.
Proof.
  unfold ProcessNextEntry. destruct (getline file (fi_ c)) as [[line fi]|] eqn:Hg; [|done].
  apply getline_progress in Hg. intros Hr.
  destruct (negb (is_directive line)); [destruct (split_at tab line) as [[x y]|]; [|done]|];
    repeat (case_match || (inv_ok; simplify_eq/=)); done.
Qed.

Lemma process_all_fuel fuel1 fuel2 c s :
  (length file - fi_pos (fi_ c) ≤ fuel1)%nat → (length file - fi_pos (fi_ c) ≤ fuel2)%nat →
  loop fuel1 c s = loop fuel2 c s.
Proof.
  revert fuel2 c s. induction fuel1 as [|n IH]; intros [|m] c s H1 H2; simpl; try done;
    destruct (pne c s) as [[[c' s']|]|] eqn:Hp; try done;
    apply ProcessNextEntry_progress in Hp; [lia|lia|]. apply IH; lia.
Qed.

Lemma ProcessNextEntry_no_loop c s :
  (∀ cur json fi s, on_entry cur json fi s ≠ Throw LoopNeverEnds) →
  (∀ line fi s, on_directive line fi s ≠ Throw LoopNeverEnds) →
  pne c s ≠ Throw LoopNeverEnds.
Proof.
  intros He Hd. unfold ProcessNextEntry.
  destruct (getline file (fi_ c)) as [[line fi]|]; [|done].
  destruct (negb (is_directive line)).
  - destruct (split_at tab line) as [[x y]|]; [|done].
    destruct (parse_idxts x); simpl; [|done].
    destruct (negb _); [done|]. destruct (_ <? _); [done|].
    specialize (He i (c_str y) fi s). destruct (on_entry _ _ _ _); simpl; congruence.
  - specialize (Hd line fi s). destruct (on_directive _ _ _); simpl; congruence.
Qed.

(** The loop ends on every file. *)
Lemma process_all_terminates fuel c s :
  (length file - fi_pos (fi_ c) ≤ fuel)%nat →
  (∀ cur json fi s, on_entry cur json fi s ≠ Throw LoopNeverEnds) →
  (∀ line fi s, on_directive line fi s ≠ Throw LoopNeverEnds) →
  loop fuel c s ≠ Throw LoopNeverEnds.
Proof.
  intros Hf He Hd. revert c s Hf. induction fuel as [|n IH]; intros c s Hf; simpl.
  - destruct (pne c s) as [[[c' s']|]|e] eqn:Hp; [|done|].
    + apply ProcessNextEntry_progress in Hp. lia.
    + by intros [= ->]; apply ProcessNextEntry_no_loop in Hp.
  - destruct (pne c s) as [[[c' s']|]|e] eqn:Hp; [|done|].
    + apply IH. apply ProcessNextEntry_progress in Hp. lia.
    + by intros [= ->]; apply ProcessNextEntry_no_loop in Hp.
Qed.

Lemma process_all_step fuel c s c' s' :
  (length file - fi_pos (fi_ c) ≤ fuel)%nat → pne c s = Ok (Some (c', s')) →
  loop fuel c s = loop fuel c' s'.
Proof.
  intros Hf Hp. pose proof (ProcessNextEntry_progress _ _ _ _ Hp).
  rewrite (process_all_fuel fuel (Datatypes.S fuel) c s) by lia. simpl. by rewrite Hp.
Qed.
End Loop.
End Reading.

(** ** What the file and the in-memory state look like *)

Section Invariant.
Context {E : Type} `{LogCodecSound E}.

(** [line] is a log line of entry [e] with this index and time stamp. *)
Definition valid_line (i : N) (t : microseconds) (e : E) (line : bytes) : Prop :=
  ∃ before after, line = before ++ tab :: after ∧ (tab ∉ before) ∧ (newline ∉ line) ∧
    parse_idxts before = Some (mkIdxTs i t) ∧ parse_entry (c_str after) = Some e.

Lemma log_line_valid i t e : valid_line i t e (log_line (mkIdxTs i t) e).
Proof.
  exists (json_idxts (mkIdxTs i t)), (json_entry e). unfold log_line. split_and!; [done| | | |].
  - apply json_idxts_no_tab.
  - rewrite elem_of_app, elem_of_cons. intros [Hn|[Hn|Hn]]; [|done|].
    + by eapply json_idxts_no_newline.
    + by eapply json_entry_no_newline.
  - apply parse_json_idxts.
  - rewrite c_str_id by apply json_entry_no_nul. apply parse_json_entry.
Qed.

Lemma valid_line_not_directive i t e line : valid_line i t e line → is_directive line = false.
Proof.
  intros (before & after & -> & _ & _ & Hp & _). destruct before as [|c before]; simpl.
  - done.
  - apply bool_decide_eq_false_2. intros ->. by rewrite parse_idxts_hash in Hp.
Qed.

Section Steps.
Context {S : Type}.
Context (on_entry : idxts_t → bytes → istream → S → outcome persistence_error S).
Context (on_directive : bytes → istream → S → outcome persistence_error S).

Lemma ProcessNextEntry_entry file pre line rest i t e before after nx s :
  file = pre ++ line ++ newline :: rest →
  line = before ++ tab :: after → tab ∉ before → newline ∉ line →
  parse_idxts before = Some (mkIdxTs i t) → is_directive line = false →
  parse_entry (c_str after) = Some e → index nx = i → us nx ≤ t →
  let fi := mkStream (length pre + length line + 1) false in
  ProcessNextEntry on_entry on_directive file (mkCit (mkStream (length pre) false) nx) s =
  (s' ← on_entry (mkIdxTs i t) (c_str after) fi s;
   Ok (Some (mkCit fi (mkIdxTs (u64_succ i) (t + 1)), s'))).
Proof.
  intros Hfile Hline Htab Hnl Hp Hd He Hi Ht fi. unfold ProcessNextEntry. simpl.
  rewrite (getline_at file pre line rest Hfile Hnl), Hd. simpl.
  rewrite Hline, split_at_app by done. rewrite Hp. simpl. rewrite Hi, N.eqb_refl. simpl.
  destruct (Z.ltb_spec t (us nx)); [lia|]. subst fi. by rewrite Hline.
Qed.

Lemma ProcessNextEntry_directive file pre line rest nx s :
  file = pre ++ line ++ newline :: rest → newline ∉ line → is_directive line = true →
  let fi := mkStream (length pre + length line + 1) false in
  ProcessNextEntry on_entry on_directive file (mkCit (mkStream (length pre) false) nx) s =
  (s' ← on_directive line fi s; Ok (Some (mkCit fi nx, s'))).
Proof.
  intros Hfile Hnl Hd fi. unfold ProcessNextEntry. simpl.
  by rewrite (getline_at file pre line rest Hfile Hnl), Hd.
Qed.
End Steps.

Definition head_line (t : microseconds) : bytes := kHeadDirective ++ " "%char :: Printf_020lld t.

Lemma head_line_clean t : newline ∉ head_line t.
Proof.
  unfold head_line. rewrite elem_of_app, elem_of_cons. intros [Hn|[Hn|Hn]]; [|done|].
  - revert Hn. by apply (bool_decide_unpack (newline ∉ kHeadDirective)).
  - by apply Printf_020lld_clean in Hn as [? _].
Qed.

Lemma leading_spaces_Printf t : leading_spaces (Printf_020lld t) = 0%nat.
Proof.
  pose proof (Printf_020lld_clean t) as Hc. destruct (Printf_020lld t) as [|c s]; [done|]. simpl.
  by rewrite (proj2 (proj2 (Hc c (list_elem_of_here _ _)))).
Qed.

Context (signature : bytes).

(** Reading back a head directive. *)
Lemma validate_head_line t v fi : v_head v < t → 0 ≤ t ≤ int64_max →
  validate_directive signature (head_line t) fi v =
  Ok (mkValidation (v_record_offset v) (v_record_timestamp v) (current_offset v + 6) (tellg fi) t).
Proof.
  intros Hh Ht. unfold validate_directive.
  assert (has_at 0 kHeadDirective (head_line t) = true) as -> by done.
  change (drop (length kHeadDirective) (head_line t)) with (" "%char :: Printf_020lld t).
  simpl leading_spaces. rewrite leading_spaces_Printf.
  change (drop (length kHeadDirective + 1) (head_line t)) with (Printf_020lld t).
  rewrite c_str_id, head_roundtrip by (done || intros Hn; by apply Printf_020lld_clean in Hn as (_ & ? & _)).
  destruct (Z.ltb_spec (v_head v) t); [|lia]. done.
Qed.

(** JSON is on one line and starts with a brace. *)
Definition signature_ok : Prop := (newline ∉ signature) ∧ leading_spaces signature = 0%nat.

Lemma validate_signature_line v fi : signature_ok → current_offset v = 0 →
  validate_directive signature (kSignatureDirective ++ " "%char :: signature) fi v =
  Ok (mkValidation (v_record_offset v) (v_record_timestamp v) 0 (tellg fi) (v_head v)).
Proof.
  intros [_ Hsig_space] Hv. unfold validate_directive. set (line := kSignatureDirective ++ _).
  assert (has_at 0 kHeadDirective line = false) as -> by done.
  assert (has_at 0 kSignatureDirective line = true) as -> by done.
  rewrite Hv. simpl (negb _).
  change (drop (length kSignatureDirective) line) with (" "%char :: signature).
  simpl leading_spaces. rewrite Hsig_space. unfold has_at.
  change (drop (length kSignatureDirective + 1) line) with signature.
  rewrite firstn_all. by rewrite bool_decide_eq_true_2.
Qed.

(** The states the persister goes through: a fresh file, one more entry, a
    head directive after an entry (or after the signature). *)
Inductive built : FilePersisterImpl → log E → Prop :=
| built_empty :
    built (mkImpl (signature_line signature) [] 0 [] (mkEnd 0 (-1) (-1))) log_init
| built_entry p l line t e :
    built p l → valid_line (next_index (end_ p)) t e line → log_fits l →
    head (end_ p) < t →
    built (mkImpl (file p ++ line ++ [newline]) (record_offset_ p ++ [tellp p]) 0
                  (record_timestamp_ p ++ [t]) (mkEnd (u64_succ (next_index (end_ p))) t t))
          (mkLog (log_entries l ++ [(t, e)]) t)
| built_head p l t :
    built p l → head_offset_ p = 0 → head (end_ p) < t < int64_max →
    built (mkImpl (file p ++ head_line t ++ [newline]) (record_offset_ p)
                  (Z.of_nat (length (file p)) + 6) (record_timestamp_ p)
                  (mkEnd (next_index (end_ p)) (last_entry_us (end_ p)) t))
          (mkLog (log_entries l) t).

Lemma built_state p l : built p l →
  log_wf l ∧ next_index (end_ p) = log_size l ∧ head (end_ p) = log_head l ∧
  length (record_offset_ p) = length (log_entries l) ∧ record_timestamp_ p = (log_entries l).*1 ∧
  last_entry_us (end_ p) = match last (log_entries l) with Some e => e.1 | None => -1 end.
Proof.
  induction 1 as [|p l line t e Hb (Hw & Hn & Hh & Hlo & Hts & Hlast) Hline Hfit Ht
                  |p l t Hb (Hw & Hn & Hh & Hlo & Hts & Hlast) Hho Ht]; simpl.
  - split_and!; try done. apply log_init_wf.
  - rewrite last_snoc, !length_app, fmap_app, Hts, Hlo. simpl. split_and!; try done.
    + eapply (log_publish_wf t e); [done|]. unfold log_publish.
      destruct (Z.ltb_spec (log_head l) t); [done|lia].
    + rewrite Hn, u64_succ_small by done. unfold log_size. simpl. rewrite length_app. simpl. lia.
  - split_and!; try done.
    eapply (log_update_head_wf t); [done|]. unfold log_update_head.
    destruct (Z.ltb_spec (log_head l) t); [done|lia].
Qed.

(** ** Reopening the file *)

(** The position of the reader and what it knows after reading what [p] wrote. *)
Definition cit_at p : cit_t :=
  mkCit (mkStream (length (file p)) false) (mkIdxTs (next_index (end_ p)) (last_entry_us (end_ p) + 1)).
Definition validation_at p : validation :=
  mkValidation (record_offset_ p) (record_timestamp_ p) (head_offset_ p) (tellp p) (head (end_ p)).

Lemma last_before_head p l : built p l → last_entry_us (end_ p) ≤ head (end_ p).
Proof.
  intros (Hw & _ & -> & _ & _ & ->)%built_state. destruct Hw as (_ & Hf & Hh).
  destruct (last (log_entries l)) as [e|] eqn:He; [|done].
  rewrite Forall_fmap, Forall_forall in Hf. apply (Hf e). by apply last_Some_elem_of.
Qed.

Lemma validate_prefix p l suffix contents fuel :
  signature_ok → built p l → contents = file p ++ suffix → (length contents ≤ fuel)%nat →
  process_all validate_entry (validate_directive signature) contents fuel (make_cit 0 0) validation_init =
  process_all validate_entry (validate_directive signature) contents fuel (cit_at p) (validation_at p).
Proof.
  intros Hsig Hb. pose proof Hsig as [Hsig_newline _]. revert suffix contents fuel.
  induction Hb as [|p l line t e Hb IH Hline Hfit Ht|p l t Hb IH Hho Ht]; intros suffix contents fuel Hc Hf.
  - set (line := kSignatureDirective ++ " "%char :: signature).
    assert (contents = [] ++ line ++ newline :: suffix) as Hc'.
    { rewrite Hc. subst line. unfold signature_line. simpl. by rewrite <- !app_assoc. }
    apply process_all_step; [simpl; lia|].
    change (make_cit 0 0) with (mkCit (mkStream (length (@nil ascii)) false) (mkIdxTs 0 0)).
    rewrite (ProcessNextEntry_directive _ _ _ [] line suffix) by
      (done || (subst line; rewrite elem_of_app, elem_of_cons; intros [Hn|[Hn|Hn]]; [|done|done];
                revert Hn; by apply (bool_decide_unpack (newline ∉ kSignatureDirective)))).
    subst line. rewrite validate_signature_line by done. simpl. unfold cit_at, validation_at, tellg, tellp.
    simpl. rewrite !length_app. simpl. repeat f_equal; lia.
  - destruct (built_state p l Hb) as (_ & Hn & Hh & Hlo & Hts & _).
    pose proof (last_before_head p l Hb) as Hlast.
    pose proof (valid_line_not_directive _ _ _ _ Hline) as Hd.
    destruct Hline as (before & after & Hline & Htab & Hnl & Hp & He).
    assert (contents = file p ++ line ++ newline :: suffix) as Hc' by (rewrite Hc; cbn [file]; by rewrite <- !app_assoc).
    rewrite (IH (line ++ newline :: suffix)) by done.
    apply process_all_step; [simpl; lia|]. unfold cit_at at 1.
    rewrite (ProcessNextEntry_entry _ _ _ (file p) line suffix (next_index (end_ p)) t e before after) by (done || simpl; lia).
    unfold validate_entry. simpl.
    assert (length (record_timestamp_ p) = length (log_entries l)) as -> by (rewrite Hts; apply length_fmap).
    rewrite Hlo, Hn. unfold log_size. rewrite N.eqb_refl. simpl.
    destruct (Z.ltb_spec (head (end_ p)) t); [|lia]. simpl. unfold cit_at, validation_at, tellp, tellg. simpl.
    rewrite !length_app. simpl. by rewrite !Nat.add_assoc.
  - assert (contents = file p ++ head_line t ++ newline :: suffix) as Hc' by (rewrite Hc; cbn [file]; by rewrite <- !app_assoc).
    destruct (built_state p l Hb) as ((_ & _ & Hh0) & _ & Hh & _).
    rewrite (IH (head_line t ++ newline :: suffix)) by done.
    apply process_all_step; [simpl; lia|]. unfold cit_at at 1.
    rewrite (ProcessNextEntry_directive _ _ _ (file p) (head_line t) suffix) by (done || apply head_line_clean).
    rewrite validate_head_line by (simpl; lia). unfold cit_at, validation_at, tellp, tellg. simpl.
    rewrite !length_app. simpl. by rewrite <- Nat.add_assoc, length_app.
Qed.

Lemma built_file_nonempty p l : built p l → (0 < length (file p))%nat.
Proof. destruct 1; simpl; rewrite ?length_app; simpl; lia. Qed.

(** Restarting on the file gives back the in-memory state. *)
Lemma reopen p l : signature_ok → built p l → ValidateFileAndInitializeHead signature (file p) = Ok p.
Proof.
  intros Hsig Hb. unfold ValidateFileAndInitializeHead.
  rewrite (validate_prefix p l [] (file p)) by (done || by rewrite app_nil_r).
  assert (∀ fuel, process_all validate_entry (validate_directive signature) (file p) fuel (cit_at p) (validation_at p)
            = Ok (cit_at p, validation_at p)) as ->.
  { intros fuel. destruct fuel; simpl; unfold ProcessNextEntry; simpl; by rewrite getline_end. }
  simpl. unfold tellp. pose proof (built_file_nonempty p l Hb).
  destruct (Z.eqb_spec (Z.of_nat (length (file p))) 0); [lia|].
  destruct p as [f ro ho rt [ni lu h]]. simpl. do 3 f_equal. lia.
Qed.

(** ** Publishing *)

Lemma append_line_built p l i t e line :
  built p l → i = next_index (end_ p) → valid_line i t e line → log_fits l → head (end_ p) < t →
  ∃ p', append_line (mkIdxTs i t) line p = Ok (mkIdxTs (log_size l) t, p') ∧
        built p' (mkLog (log_entries l ++ [(t, e)]) t).
Proof.
  intros Hb -> Hline Hfit Ht. destruct (built_state p l Hb) as (_ & Hn & _ & Hlo & Hts & _).
  pose proof (built_entry p l line t e Hb Hline Hfit Ht) as Hb'. eexists. split; [|exact Hb'].
  unfold append_line. simpl. rewrite Hlo, Hts, length_fmap, Hn. unfold log_size.
  by rewrite N.eqb_refl.
Qed.

Lemma publish_refines `{Clock CK} a e (ck : CK) p l :
  built p l → log_fits l →
  (PersisterPublishImpl a e ck p).1 = (TimestampAsMicroseconds a ck).2 ∧
  outcome_rel (λ r r', r.1 = r'.1 ∧ built r.2 r'.2)
    (PersisterPublishImpl a e ck p).2 (log_publish (TimestampAsMicroseconds a ck).1 e l).
Proof.
  intros Hb Hfit. unfold PersisterPublishImpl.
  destruct (TimestampAsMicroseconds a ck) as [t ck'] eqn:Ht. simpl in *. split; [done|].
  destruct (built_state p l Hb) as (_ & Hn & Hh & _). unfold log_publish. rewrite <- Hh.
  destruct (Z.ltb_spec (head (end_ p)) t); simpl; [|done].
  edestruct (append_line_built p l _ t e _ Hb eq_refl (log_line_valid _ t e) Hfit) as (p' & Heq & Hb'); [lia|].
  unfold log_line in Heq. by rewrite Heq.
Qed.

Lemma publish_unsafe_line raw p l t e :
  built p l → log_fits l → valid_line (log_size l) t e raw →
  outcome_rel (λ r r', r.1 = r'.1 ∧ built r.2 r'.2) (PersisterPublishUnsafeImpl raw p) (log_publish t e l).
Proof.
  intros Hb Hfit Hline. destruct (built_state p l Hb) as (_ & Hn & Hh & _).
  pose proof Hline as (before & after & Hraw & Htab & _ & Hp & _).
  unfold PersisterPublishUnsafeImpl, log_publish. rewrite Hraw at 1. rewrite split_at_app, Hp by done. simpl.
  rewrite Hn, N.eqb_refl, Hh. simpl. destruct (Z.ltb_spec (log_head l) t); simpl; [|done].
  edestruct (append_line_built p l (log_size l) t e raw) as (p' & Heq & Hb'); [done..|lia|].
  by rewrite Heq.
Qed.

(** Overwriting the time stamp at the end of the file, of the same length. *)
Lemma overwrite_head f t t' :
  overwrite (f ++ head_line t ++ [newline]) (Z.of_nat (length f) + 6) (Printf_020lld t' ++ [newline]) =
  f ++ head_line t' ++ [newline].
Proof.
  assert (∀ x, f ++ head_line x ++ [newline] = (f ++ str "#head ") ++ Printf_020lld x ++ [newline]) as Hsplit.
  { intros x. unfold head_line. by rewrite <- !app_assoc. }
  rewrite !Hsplit. unfold overwrite.
  assert (Z.to_nat (Z.of_nat (length f) + 6) = length (f ++ str "#head ")) as ->.
  { rewrite length_app. simpl. lia. }
  rewrite take_app_length. rewrite (drop_ge _ (_ + _)).
  - by rewrite app_nil_r.
  - rewrite !length_app, !length_Printf_020lld. simpl. lia.
Qed.

Lemma update_head_refines `{Clock CK} a (ck : CK) p l :
  built p l → (TimestampAsMicroseconds a ck).1 < int64_max →
  (PersisterUpdateHeadImpl a ck p).1 = (TimestampAsMicroseconds a ck).2 ∧
  outcome_rel built (PersisterUpdateHeadImpl a ck p).2 (log_update_head (TimestampAsMicroseconds a ck).1 l).
Proof.
  intros Hb Hmax. unfold PersisterUpdateHeadImpl.
  destruct (TimestampAsMicroseconds a ck) as [t ck'] eqn:Ht. simpl in *. split; [done|].
  destruct (built_state p l Hb) as (_ & _ & Hh & _). unfold log_update_head. rewrite <- Hh.
  destruct (Z.ltb_spec (head (end_ p)) t) as [Hlt|]; simpl; [|done].
  destruct (Z.eqb_spec (head_offset_ p) 0) as [Ho|Ho]; simpl.
  - pose proof (built_head p l t Hb Ho ltac:(lia)) as Hb'. unfold head_line in Hb'.
    revert Hb'. rewrite length_app. simpl. rewrite <- !app_assoc.
    by replace (Z.of_nat (length (file p) + 6)) with (Z.of_nat (length (file p)) + 6) by lia.
  - (* the last line is a head directive already *)
    destruct Hb as [|p l line t0 e0|p l t0 Hb Hho Ht0]; [done..|].
    cbn [file record_offset_ head_offset_ record_timestamp_ end_ next_index last_entry_us head log_entries] in *.
    rewrite overwrite_head. apply built_head; [done..|lia].
Qed.

(** ** Queries *)

Lemma last_refines p l : built p l → PersisterLastPublishedIndexAndTimestampImpl p = log_last l.
Proof.
  intros (_ & Hn & _ & _ & _ & Hlast)%built_state. rewrite log_last_lookup.
  unfold PersisterLastPublishedIndexAndTimestampImpl. rewrite Hn, Hlast. unfold log_size.
  destruct (log_entries l) as [|e es] eqn:Hl; [done|]. rewrite <- Hl.
  destruct (last (log_entries l)) as [x|] eqn:Hx; [|by rewrite Hl in Hx; apply last_None in Hx].
  rewrite Hl. simpl. do 2 f_equal. lia.
Qed.

Lemma head_and_last_refines p l : built p l →
  PersisterHeadAndLastPublishedIndexAndTimestampImpl p = Ok (log_head_and_last l).
Proof.
  intros Hb. pose proof (last_before_head p l Hb) as Hle.
  pose proof (last_refines p l Hb) as Hlast. apply built_state in Hb as (_ & Hn & Hh & _).
  unfold PersisterLastPublishedIndexAndTimestampImpl, log_last,
    PersisterHeadAndLastPublishedIndexAndTimestampImpl, log_head_and_last, make_head_optidxts, CURRENT_ASSERT in *.
  destruct (negb _); destruct (last (numbered l)) as [x|]; simplify_eq/=.
  - destruct (Z.leb_spec (last_entry_us (end_ p)) (head (end_ p))); [|lia]. simpl. by rewrite Hlast, Hh.
  - by rewrite Hh.
Qed.

(** ** Iteration *)

(** The bytes are a sequence of complete lines: log lines of the entries [es],
    numbered from [k], which are [raws], and directives. *)
Inductive lines_ok : N → list (microseconds * E) → list bytes → bytes → Prop :=
| lines_nil k : lines_ok k [] [] []
| lines_entry k t e es line raws s :
    valid_line k t e line → lines_ok (k + 1) es raws s →
    lines_ok k ((t, e) :: es) (line :: raws) (line ++ newline :: s)
| lines_directive k es raws line s :
    is_directive line = true → newline ∉ line → lines_ok k es raws s →
    lines_ok k es raws (line ++ newline :: s).

Lemma lines_ok_app k es raws s es' raws' s' :
  lines_ok k es raws s → lines_ok (k + N.of_nat (length es)) es' raws' s' →
  lines_ok k (es ++ es') (raws ++ raws') (s ++ s').
Proof.
  induction 1 as [k|k t e es line raws s Hl _ IH|k es raws line s Hd Hnl _ IH]; intros H'; simpl in *.
  - by rewrite N.add_0_r in H'.
  - rewrite <- app_assoc. simpl. constructor; [done|]. apply IH.
    by replace (k + 1 + N.of_nat (length es))%N with (k + N.of_nat (S (length es)))%N by lia.
  - rewrite <- app_assoc. simpl. constructor; auto.
Qed.

Lemma lines_ok_raws k es raws s : lines_ok k es raws s →
  length raws = length es ∧
  ∀ i t e, es !! i = Some (t, e) → ∃ line, raws !! i = Some line ∧ valid_line (k + N.of_nat i) t e line.
Proof.
  induction 1 as [k|k t e es line raws s Hl _ [Hlen IH]|k es raws line s _ _ _ IH]; [done| |done].
  split; [simpl; by rewrite Hlen|]. intros [|i] t' e' Hi; simpl in *.
  - simplify_eq. exists line. by rewrite N.add_0_r.
  - apply IH in Hi as (line' & Hr & Hv). exists line'. split; [done|].
    by replace (k + N.of_nat (S i))%N with (k + 1 + N.of_nat i)%N by lia.
Qed.

(** Where the lines of the entries are. *)
Definition offsets_ok p (l : log E) (raws : list bytes) : Prop :=
  length raws = length (log_entries l) ∧
  ∀ i off, record_offset_ p !! i = Some off →
    0 ≤ off ≤ Z.of_nat (length (file p)) ∧
    lines_ok (N.of_nat i) (drop i (log_entries l)) (drop i raws) (drop (Z.to_nat off) (file p)) ∧
    ∃ line s, raws !! i = Some line ∧ drop (Z.to_nat off) (file p) = line ++ newline :: s.

Lemma offsets_ok_append p l raws es raws' text ro ho rt en h :
  offsets_ok p l raws → length raws' = length es →
  length (record_offset_ p) = length (log_entries l) →
  lines_ok (N.of_nat (length (log_entries l))) es raws' text →
  (ro = record_offset_ p ∧ es = [] ∨
   ro = record_offset_ p ++ [tellp p] ∧ ∃ line s, raws' = [line] ∧ text = line ++ newline :: s) →
  offsets_ok (mkImpl (file p ++ text) ro ho rt en) (mkLog (log_entries l ++ es) h) (raws ++ raws').
Proof.
  intros [Hlen Hoff] Hlen' Hro Htext Hcases. split; simpl; [rewrite !length_app; lia|].
  intros i off Hi. rewrite length_app.
  assert (record_offset_ p !! i = Some off ∨
          i = length (log_entries l) ∧ off = tellp p ∧ ∃ line s, raws' = [line] ∧ text = line ++ newline :: s)
    as [Hi'|(-> & -> & line & s & -> & Htxt)].
  { destruct Hcases as [[-> ->]|[-> Hline]]; [by left|].
    apply lookup_snoc_Some in Hi as [[_ ?]|[-> <-]]; [by left|]. right. by rewrite Hro. }
  - assert (i < length (record_offset_ p))%nat by (by eapply lookup_lt_Some).
    destruct (Hoff i off Hi') as (? & Hl & line & s & Hraw & Hdrop). split; [lia|].
    rewrite !drop_app_le by lia. split.
    + apply lines_ok_app; [done|]. rewrite length_drop.
      by replace (N.of_nat i + _)%N with (N.of_nat (length (log_entries l))) by lia.
    + exists line, (s ++ text). rewrite lookup_app_l by lia. split; [done|].
      by rewrite Hdrop, <- app_assoc.
  - unfold tellp. split; [lia|]. rewrite Nat2Z.id, !drop_app_length. split.
    + by rewrite <- Hlen, drop_app_length, Hlen.
    + exists line, s. split; [|done]. by rewrite <- Hlen, lookup_app_r, Nat.sub_diag by done.
Qed.

Lemma built_offsets p l : built p l → ∃ raws, offsets_ok p l raws.
Proof.
  induction 1 as [|p l line t e Hb [raws IH] Hline Hfit Ht|p l t Hb [raws IH] Hho Ht].
  - exists []. by split.
  - destruct (built_state p l Hb) as (_ & Hn & _ & Hlo & _).
    exists (raws ++ [line]). apply offsets_ok_append; eauto 10.
    apply lines_entry; [|constructor]. by rewrite Hn in Hline.
  - destruct (built_state p l Hb) as (_ & Hn & _ & Hlo & _).
    exists (raws ++ []). rewrite <- (app_nil_r (log_entries l)). apply offsets_ok_append; auto.
    apply lines_directive; [done|apply head_line_clean|constructor].
Qed.

Lemma Iterator_deref_ok i t e es raws s pre nx fuel :
  lines_ok i ((t, e) :: es) raws s → (length s ≤ fuel)%nat → index nx = i → us nx ≤ t →
  ∃ pre' s', pre ++ s = pre' ++ s' ∧ lines_ok (i + 1) es (drop 1 raws) s' ∧
    Iterator_deref (pre ++ s) fuel i (mkCit (mkStream (length pre) false) nx) =
    Ok ((mkIdxTs i t, e), mkCit (mkStream (length pre') false) (mkIdxTs (u64_succ i) (t + 1))).
Proof.
  remember ((t, e) :: es) as es0 eqn:Hes. intros Hl. revert pre fuel Hes.
  induction Hl as [k|k t' e' es' line raws s Hline Hs IH|k es' raws line s Hd Hnl Hs IH];
    intros pre fuel Hes Hf Hi Ht; [done| |].
  - injection Hes as -> -> ->. exists (pre ++ line ++ [newline]), s.
    split; [by rewrite <- !app_assoc|]. split; [done|].
    pose proof (valid_line_not_directive _ _ _ _ Hline) as Hd.
    destruct Hline as (before & after & Hline & Htab & Hnl & Hp & He).
    assert (∀ fuel, Iterator_deref (pre ++ line ++ newline :: s) fuel k (mkCit (mkStream (length pre) false) nx) =
      Ok ((mkIdxTs k t, e), mkCit (mkStream (length (pre ++ line ++ [newline])) false) (mkIdxTs (u64_succ k) (t + 1)))) as Heq.
    { intros n0. destruct n0; simpl;
        rewrite (ProcessNextEntry_entry _ _ _ pre line s k t e before after) by done;
        unfold found_entry; simpl; rewrite N.eqb_refl, He; simpl; rewrite !length_app; simpl;
        by rewrite Nat.add_assoc. }
    apply Heq.
  - destruct fuel as [|fuel]; [rewrite length_app in Hf; simpl in Hf; lia|].
    destruct (IH (pre ++ line ++ [newline]) fuel) as (pre' & s' & Heq & Hl' & Hr); [done| |done..|].
    { rewrite length_app in Hf. simpl in Hf. lia. }
    exists pre', s'. rewrite <- Heq, <- !app_assoc. split; [done|]. split; [done|].
    rewrite <- !app_assoc in Hr. simpl in *.
    rewrite (ProcessNextEntry_directive _ _ _ pre line s) by done. simpl.
    rewrite <- Hr. do 3 f_equal. rewrite !length_app. simpl. lia.
Qed.

(** The iterator is about to read entry [i]. *)
Definition iterator_inv p (l : log E) (i : N) (c : cit_t) : Prop :=
  ∃ pre s raws nx, c = mkCit (mkStream (length pre) false) nx ∧ file p = pre ++ s ∧
    lines_ok i (drop (N.to_nat i) (log_entries l)) raws s ∧ index nx = i ∧
    Forall (λ x, us nx ≤ x.1) (drop (N.to_nat i) (log_entries l)).

Lemma later_entries (l : log E) i t e : log_wf l → log_entries l !! i = Some (t, e) →
  Forall (λ x, t + 1 ≤ x.1) (drop (S i) (log_entries l)).
Proof.
  intros (Hs & _ & _) Hi. revert i Hi. induction (log_entries l) as [|x es IH]; intros i Hi; [done|].
  rewrite fmap_cons in Hs. apply StronglySorted_inv in Hs as [Hs Hx]. rewrite Forall_fmap in Hx.
  destruct i as [|i]; simpl in *.
  - simplify_eq. eapply Forall_impl; [exact Hx|]. simpl. lia.
  - by apply IH.
Qed.

Lemma iterator_step p l i c : built p l → log_fits l → iterator_inv p l i c → (i < log_size l)%N →
  ∃ x c', numbered l !! N.to_nat i = Some x ∧
    Iterator_deref (file p) (length (file p)) i c = Ok (x, c') ∧ iterator_inv p l (i + 1) c'.
Proof.
  intros Hb Hfit (pre & s & raws & nx & -> & Hfile & Hl & Hnx & Hus) Hi.
  destruct (built_state p l Hb) as (Hw & _). unfold log_size in Hi.
  destruct (lookup_lt_is_Some_2 (log_entries l) (N.to_nat i)) as [[t e] Ht]; [lia|].
  rewrite (drop_S _ _ _ Ht) in Hl, Hus. apply Forall_cons in Hus as [Hus _]. simpl in Hus.
  destruct (Iterator_deref_ok i t e _ raws s pre nx (length (file p)) Hl) as (pre' & s' & Heq & Hl' & Hr);
    [rewrite Hfile, length_app; lia|done|done|].
  exists (mkIdxTs i t, e). eexists. rewrite Hfile at 1. split_and!; [|exact Hr|].
  - rewrite numbered_lookup, Ht. simpl. by rewrite N2Nat.id.
  - exists pre', s', (drop 1 raws), (mkIdxTs (u64_succ i) (t + 1)). simpl.
    assert (N.to_nat (i + 1) = S (N.to_nat i)) as -> by lia.
    split_and!; [done|congruence|done| |by eapply later_entries].
    apply u64_succ_small. unfold log_fits, log_size in Hfit. lia.
Qed.

Lemma for_each_slice p l begin end_ offset : built p l → log_fits l →
  (begin < end_ ≤ log_size l)%N → record_offset_ p !! N.to_nat begin = Some offset →
  for_each (Ok (begin, end_, offset)) p = Ok (drop (N.to_nat begin) (take (N.to_nat end_) (numbered l))).
Proof.
  intros Hb Hfit Hrange Hoff. simpl. destruct (N.eqb_spec begin end_); [lia|].
  destruct (built_offsets p l Hb) as (raws & Hlen & Hoffs).
  destruct (Hoffs _ _ Hoff) as ([Ho1 Ho2] & Hl & _). rewrite N2Nat.id in Hl.
  destruct (built_state p l Hb) as ((_ & Hpos & _) & _).
  apply (range_for_slice _ (iterator_inv p l)).
  - lia.
  - rewrite length_numbered. unfold log_size in *. lia.
  - exists (take (Z.to_nat offset) (file p)). eexists _, _, (mkIdxTs begin 0). split_and!; [| |exact Hl|done|].
    + unfold make_cit. rewrite length_take. do 2 f_equal. destruct (Z.eqb_spec offset 0); lia.
    + by rewrite take_drop.
    + apply Forall_drop. rewrite Forall_fmap in Hpos. eapply Forall_impl; [exact Hpos|]. simpl. lia.
  - intros i c Hi Hlt. apply iterator_step; [done..|]. lia.
Qed.

(** The checks on the range, whatever is done with it. *)
Lemma iterate_range {A} (k : N * N * Z → outcome persistence_error (list A)) (xs : list A) p l b e :
  built p l → length xs = length (log_entries l) →
  k (0%N, 0%N, 0) = Ok [] →
  (∀ begin end_ offset, (begin < end_ ≤ log_size l)%N → record_offset_ p !! N.to_nat begin = Some offset →
     k (begin, end_, offset) = Ok (drop (N.to_nat begin) (take (N.to_nat end_) xs))) →
  (r ← PersisterIterateImpl b e p; k r) =
  (let e := if (e =? no_index)%N then log_size l else e in
   if ((b <=? e) && (e <=? log_size l))%N then Ok (drop (N.to_nat b) (take (N.to_nat e) xs))
   else Throw InvalidIterableRangeException).
Proof.
  intros Hb Hxs Hk0 Hk. destruct (built_state p l Hb) as (_ & Hn & _ & Hlo & _).
  unfold PersisterIterateImpl. rewrite Hn, Hlo. simpl.
  set (e' := if (e =? no_index)%N then log_size l else e).
  destruct (N.ltb_spec (log_size l) e'), (N.leb_spec e' (log_size l)); try lia; simpl.
  { by rewrite andb_false_r. }
  destruct (N.eqb_spec b e') as [->|Hne]; simpl.
  { rewrite N.leb_refl. simpl. rewrite drop_ge; [done|]. rewrite length_take. lia. }
  destruct (N.ltb_spec e' b), (N.leb_spec b e'); try lia; simpl; [done|].
  unfold log_size at 1. rewrite N.leb_refl. simpl. unfold log_size in *.
  destruct (lookup_lt_is_Some_2 (record_offset_ p) (N.to_nat b)) as [off Hoff]; [lia|].
  rewrite Hoff. simpl. apply Hk; [lia|done].
Qed.

Lemma iterate_refines b e p l : built p l → log_fits l → iterate b e p = log_iterate b e l.
Proof.
  intros Hb Hfit. unfold iterate, for_each.
  rewrite (iterate_range _ (numbered l) p l b e Hb); [done|apply length_numbered|done|].
  intros. by apply for_each_slice.
Qed.

Lemma iterate_time_refines from till p l :
  built p l → log_fits l → iterate_time from till p = log_iterate_time from till l.
Proof.
  intros Hb Hfit. destruct (built_state p l Hb) as (Hw & _ & _ & _ & Hts & _).
  unfold iterate_time, PersisterIterateTimeImpl.
  destruct ((0 <? till) && (till <? from)) eqn:Hbad; [unfold log_iterate_time; by rewrite Hbad|].
  rewrite <- index_range_iterate by done. unfold PersisterIndexRangeByTimestampRangeImpl, index_range.
  rewrite Hts. simpl. destruct (negb _); [|done]. by apply iterate_refines.
Qed.

(** ** Raw log lines *)

Lemma offsets_sorted p l : built p l →
  StronglySorted (λ x y, x < y) (record_offset_ p) ∧ Forall (λ x, x < tellp p) (record_offset_ p).
Proof.
  induction 1 as [|p l line t e Hb [Hs Hf] _ _ _|p l t Hb [Hs Hf] _ _]; simpl.
  - split; constructor.
  - split; [by apply sorted_snoc|]. unfold tellp in *. simpl. rewrite !length_app. simpl.
    apply Forall_app. split; [eapply Forall_impl; [exact Hf|]; simpl; lia|].
    constructor; [lia|constructor].
  - split; [done|]. unfold tellp in *. simpl. rewrite !length_app. simpl.
    eapply Forall_impl; [exact Hf|]; simpl; lia.
Qed.

Lemma offsets_distinct p l i off : built p l →
  record_offset_ p !! i = Some off → record_offset_ p !! S i ≠ Some off.
Proof.
  intros (Hs & _)%offsets_sorted. clear -Hs. revert i. induction Hs as [|x xs Hs IH Hx]; intros i; [done|].
  destruct i as [|i]; simpl; [|apply IH]. intros [= ->]. destruct xs as [|y ys]; [done|].
  apply Forall_cons in Hx as [Hx _]. intros [= ->]. lia.
Qed.

Definition unsafe_inv p (i : N) (st : istream * Z) : Prop :=
  ∀ off, record_offset_ p !! N.to_nat i = Some off → off = st.2 → st.1 = mkStream (Z.to_nat off) false.

Lemma unsafe_step p l raws i st : built p l → offsets_ok p l raws → unsafe_inv p i st → (i < log_size l)%N →
  ∃ line st', raws !! N.to_nat i = Some line ∧ IteratorUnsafe_deref p i st = Ok (line, st') ∧
    unsafe_inv p (i + 1) st'.
Proof.
  intros Hb [Hlen Hoffs] Hinv Hi. destruct (built_state p l Hb) as (_ & _ & _ & Hlo & _).
  unfold log_size in Hi. destruct st as [fi cur].
  destruct (lookup_lt_is_Some_2 (record_offset_ p) (N.to_nat i)) as [off Hoff]; [lia|].
  destruct (lookup_lt_is_Some_2 (log_entries l) (N.to_nat i)) as [[t e] Ht]; [lia|].
  destruct (Hoffs _ _ Hoff) as (Hrange & Hlines & line & rest & Hraw & Hdrop).
  destruct (lines_ok_raws _ _ _ _ Hlines) as [_ Hvalid].
  destruct (Hvalid 0%nat t e) as (line' & Hraw' & Hline).
  { by rewrite lookup_drop, Nat.add_0_r. }
  rewrite lookup_drop, Nat.add_0_r, Hraw in Hraw'. injection Hraw' as <-.
  exists line. eexists. split; [done|].
  unfold IteratorUnsafe_deref. rewrite Hoff.
  assert ((if negb (off =? cur) then mkStream (Z.to_nat off) false else fi) = mkStream (Z.to_nat off) false) as ->.
  { destruct (Z.eqb_spec off cur); [|done]. simpl. by apply (Hinv off). }
  assert (length (take (Z.to_nat off) (file p)) = Z.to_nat off) as Hpos by (rewrite length_take; lia).
  rewrite <- Hpos at 1. rewrite (getline_at _ _ line rest).
  - rewrite (valid_line_not_directive _ _ _ _ Hline). simpl. split; [done|].
    intros off' Hoff' ->. simpl in Hoff'. exfalso.
    eapply offsets_distinct; [exact Hb|exact Hoff|]. by replace (S (N.to_nat i)) with (N.to_nat (i + 1)) by lia.
  - by rewrite <- Hdrop, take_drop.
  - by destruct Hline as (? & ? & _ & _ & ? & _).
Qed.

(** The raw lines are log lines of the entries. *)
Lemma iterate_unsafe_lines p l : built p l → ∃ raws,
  length raws = length (log_entries l) ∧
  (∀ i t e, log_entries l !! i = Some (t, e) → ∃ line, raws !! i = Some line ∧ valid_line (N.of_nat i) t e line) ∧
  ∀ b e, iterate_unsafe b e p =
    (let e := if (e =? no_index)%N then log_size l else e in
     if ((b <=? e) && (e <=? log_size l))%N then Ok (drop (N.to_nat b) (take (N.to_nat e) raws))
     else Throw InvalidIterableRangeException).
Proof.
  intros Hb. destruct (built_offsets p l Hb) as [raws Hoffs]. pose proof Hoffs as [Hlen Hat].
  destruct (built_state p l Hb) as (_ & _ & _ & Hlo & _). exists raws. split; [done|]. split.
  - intros i t e Hi.
    destruct (lookup_lt_is_Some_2 (record_offset_ p) i) as [off Hoff].
    { rewrite Hlo. by eapply lookup_lt_Some. }
    destruct (Hat _ _ Hoff) as (_ & Hlines & _). apply lines_ok_raws in Hlines as [_ Hv].
    destruct (Hv 0%nat t e) as (line & Hraw & Hline).
    { by rewrite lookup_drop, Nat.add_0_r. }
    rewrite lookup_drop, Nat.add_0_r in Hraw. rewrite N.add_0_r in Hline. eauto.
  - intros b e. unfold iterate_unsafe, for_each_unsafe. apply iterate_range; [done..|].
    intros begin end_ off Hrange Hoff. simpl. destruct (N.eqb_spec begin end_); [lia|].
    apply (range_for_slice _ (unsafe_inv p)); [lia|unfold log_size in *; lia| |].
    + intros off' Hoff' Heq. simpl in Heq. subst off'. simpl. f_equal. destruct (Z.eqb_spec off 0); lia.
    + intros i st Hinv Hi. eapply unsafe_step; [done..|lia].
Qed.
End Invariant.

(** ** Opening an arbitrary file *)

Section Open.
Context {E : Type} `{LogCodec E}.
Context (signature contents : bytes).

(** What the validation knows after reading up to the position of [c]. *)
Definition validated (c : cit_t) (v : validation) : Prop :=
  StronglySorted (λ x y, x < y) (v_record_timestamp v) ∧
  Forall (λ t, 0 ≤ t ≤ v_head v) (v_record_timestamp v) ∧
  length (v_record_offset v) = length (v_record_timestamp v) ∧
  (length (v_record_timestamp v) ≤ fi_pos (fi_ c) ≤ length contents)%nat ∧
  index (next_ c) = N.of_nat (length (v_record_timestamp v)) ∧
  us (next_ c) = match last (v_record_timestamp v) with Some t => t + 1 | None => 0 end ∧
  -1 ≤ v_head v.

Lemma validate_directive_spec value fi v v' :
  validate_directive signature value fi v = Ok v' →
  v_record_offset v' = v_record_offset v ∧ v_record_timestamp v' = v_record_timestamp v ∧ v_head v ≤ v_head v'.
Proof.
  unfold validate_directive. set (t := FromString_int64 _).
  destruct (has_at 0 kHeadDirective value).
  { destruct (Z.ltb_spec (v_head v) t); simpl; [|done]. intros [= <-]. simpl. split_and!; [done..|lia]. }
  repeat case_match; intros [= <-]; simpl; split_and!; done.
Qed.

Lemma validate_entry_spec current json fi v v' :
  validate_entry current json fi v = Ok v' →
  index current = N.of_nat (length (v_record_timestamp v)) ∧ v_head v < us current ∧
  v' = mkValidation (v_record_offset v ++ [current_offset v]) (v_record_timestamp v ++ [us current])
                    0 (tellg fi) (us current).
Proof.
  unfold validate_entry, CURRENT_ASSERT.
  destruct (N.eqb_spec (index current) (N.of_nat (length (v_record_offset v)))); [|done].
  destruct (N.eqb_spec (index current) (N.of_nat (length (v_record_timestamp v)))); [|done]. simpl.
  destruct (Z.ltb_spec (v_head v) (us current)); [|done]. by intros [= <-].
Qed.

Lemma validated_step c v c' v' :
  (N.of_nat (length contents) < no_index)%N → validated c v →
  ProcessNextEntry validate_entry (validate_directive signature) contents c v = Ok (Some (c', v')) →
  validated c' v'.
Proof.
  intros Hlen (Hs & Hf & Hl & Hpos & Hi & Hus & Hh) Hp.
  pose proof (ProcessNextEntry_progress _ _ _ _ _ _ _ Hp) as Hpos'. revert Hp. unfold ProcessNextEntry.
  destruct (getline contents (fi_ c)) as [[line fi]|]; [|done].
  destruct (negb (is_directive line)).
  - destruct (split_at tab line) as [[x y]|]; [|done].
    destruct (parse_idxts x) as [cur|]; [|done]. simpl.
    destruct (N.eqb_spec (index cur) (index (next_ c))); [|done]. simpl.
    destruct (Z.ltb_spec (us cur) (us (next_ c))); [done|].
    destruct (validate_entry cur (c_str y) fi v) as [w|] eqn:He; [|done]. simpl. intros [= <- <-].
    apply validate_entry_spec in He as (Hi' & Hlt & ->). unfold validated in *. simpl in *.
    rewrite last_snoc, !length_app. simpl.
    assert (0 ≤ us cur).
    { destruct (last (v_record_timestamp v)) as [t|] eqn:Hlast; [|lia].
      apply last_Some_elem_of in Hlast. rewrite Forall_forall in Hf. specialize (Hf _ Hlast). simpl in Hf. lia. }
    split_and!; try lia.
    + apply sorted_snoc; [done|]. eapply Forall_impl; [exact Hf|]. simpl. lia.
    + apply Forall_app. split; [eapply Forall_impl; [exact Hf|]; simpl; lia|]. constructor; [lia|constructor].
    + rewrite Hi', u64_succ_small by lia. lia.
  - destruct (validate_directive signature line fi v) as [w|] eqn:Hd; [|done]. simpl. intros [= <- <-].
    apply validate_directive_spec in Hd as (Ho & Ht & Hh'). unfold validated in *. simpl in *. rewrite Ho, Ht.
    split_and!; try done; try lia. eapply Forall_impl; [exact Hf|]. simpl. lia.
Qed.

Lemma validated_all fuel c v c' v' :
  (N.of_nat (length contents) < no_index)%N → validated c v →
  process_all validate_entry (validate_directive signature) contents fuel c v = Ok (c', v') → validated c' v'.
Proof.
  intros Hlen. revert c v. induction fuel as [|fuel IH]; intros c v Hv; simpl;
    destruct (ProcessNextEntry _ _ _ _ _) as [[[c1 v1]|]|] eqn:Hp; try done.
  - by intros [= <- <-].
  - intros Hr. eapply IH; [|exact Hr]. by eapply validated_step.
  - by intros [= <- <-].
Qed.

Lemma open_sound p :
  (N.of_nat (length contents) < no_index)%N → ValidateFileAndInitializeHead signature contents = Ok p →
  StronglySorted (λ x y, x < y) (record_timestamp_ p) ∧
  Forall (λ t, 0 ≤ t ≤ head (end_ p)) (record_timestamp_ p) ∧
  length (record_offset_ p) = length (record_timestamp_ p) ∧
  next_index (end_ p) = N.of_nat (length (record_timestamp_ p)) ∧
  last_entry_us (end_ p) = match last (record_timestamp_ p) with Some t => t | None => -1 end.
Proof.
  intros Hlen. unfold ValidateFileAndInitializeHead.
  destruct (process_all _ _ _ _ _ _) as [[c v]|] eqn:Hp; [|done]. simpl. intros [= <-]. simpl.
  apply validated_all in Hp as (Hs & Hf & Hl & Hpos & Hi & Hus & Hh); [|done|].
  - split_and!; try done. rewrite Hus. destruct (last _); lia.
  - unfold validated. simpl. split_and!; try done; try lia; constructor.
Qed.

Lemma open_terminates : ValidateFileAndInitializeHead signature contents ≠ Throw LoopNeverEnds.
Proof.
  unfold ValidateFileAndInitializeHead.
  assert (process_all validate_entry (validate_directive signature) contents (length contents)
            (make_cit 0 0) validation_init ≠ Throw LoopNeverEnds) as Hne.
  { apply process_all_terminates; [simpl; lia| |].
    - intros cur json fi v. unfold validate_entry, CURRENT_ASSERT. repeat case_match; simpl; congruence.
    - intros line fi v. unfold validate_directive. repeat case_match; congruence. }
  destruct (process_all _ _ _ _ _ _) as [[c v]|e]; simpl; congruence.
Qed.
End Open.

(** [represents] hides the signature: it is the same throughout. *)
#[global] Instance file_persister_sound `{LogCodecSound E} (signature : bytes) : PersisterSound FilePersisterImpl E.
Proof.
  refine {| represents := built signature |}.
  - intros p l Hb. by destruct (built_state signature p l Hb).
  - intros. by apply publish_refines.
  - intros. by apply update_head_refines.
  - intros p l Hb _. by destruct (built_state signature p l Hb) as (_ & ? & _).
  - intros p l Hb. by destruct (built_state signature p l Hb) as (_ & _ & ? & _).
  - intros. by eapply last_refines.
  - intros. by eapply head_and_last_refines.
  - intros. by eapply iterate_refines.
  - intros. by eapply iterate_time_refines.
  - intros from till p l Hb. unfold IndexRangeByTimestampRange, file_persister, PersisterIndexRangeByTimestampRangeImpl.
    destruct (built_state signature p l Hb) as (_ & _ & _ & _ & -> & _). done.
Defined.

#[global] Instance file_unsafe_persister `{LogCodec E} : UnsafePersister FilePersisterImpl E := {
  PublishUnsafe := PersisterPublishUnsafeImpl;
  IterateUnsafe := iterate_unsafe;
}.

#[global] Instance file_unsafe_persister_sound `{LogCodecSound E} (signature : bytes) :
  UnsafePersisterSound (PersisterSound0 := file_persister_sound signature) FilePersisterImpl E.
Proof. split. intros p l t e Hb Hfit _. apply publish_unsafe_line; [done..|]. apply log_line_valid. Qed.
End File.
