(* ===== verification/Stream.v ===== *)
(** * Streams: stream/stream.h, stream/stream_impl.h and blocks/ss/pubsub.h

    A stream is a persister that can be published to and subscribed to.  A
    subscriber runs in its own thread ([SubscriberThreadInstance::ThreadImpl]),
    concurrently with publishers.  The thread is a deterministic function
    [thread_step] of what it can see of the stream; [system_step] interleaves it
    with publishers and with the termination signal.  Everything is proved
    against the interface [PersisterSound], so it holds for both persisters. *)

From Stdlib Require Import ZArith NArith Lia Ascii String Sorted.
From stdpp Require Import base gmap list strings relations.
From S2P Require Import Prelude Time Persistence MemoryPersister.
Open Scope Z_scope.

Inductive EntryResponse := Done | More.
Inductive TerminationResponse := Wait | Terminate.

Global Instance EntryResponse_eq_dec : EqDecision EntryResponse.
Proof. solve_decision. Defined.
Global Instance TerminationResponse_eq_dec : EqDecision TerminationResponse.
Proof. solve_decision. Defined.

(** [StreamSubscriber<IMPL, T>]: the methods of the user's class, on its state [S]. *)
Record Subscriber (T S : Type) := mkSubscriber {
  on_entry : T → idxts_t → idxts_t → S → S * EntryResponse;
  on_head : microseconds → S → S * EntryResponse;
  EntryResponseIfNoMorePassTypeFilter : S → EntryResponse;
  on_terminate : S → S * TerminationResponse;
}.
Arguments on_entry {T S} _.
Arguments on_head {T S} _.
Arguments EntryResponseIfNoMorePassTypeFilter {T S} _.
Arguments on_terminate {T S} _.

Module SubscriberThread.

Section Thread.
Context {P E T S : Type} `{!Persister P E}.
Context (subscriber : Subscriber T S).
(** [Exists<T>(entry)] and [Value<T>(entry)]: the entries of the type the
    subscriber has subscribed to. *)
Context (filter_type : E → option T).

(** [PassEntryToSubscriberIfTypeMatches]. *)
Definition PassEntryToSubscriberIfTypeMatches (entry : E) (current last : idxts_t) (s : S)
    : outcome persistence_error (S * EntryResponse) :=
  match filter_type entry with
  | Some v => Ok (on_entry subscriber v current last s)
  | None =>
      _ ← check (CURRENT_ASSERT (index current <=? index last)%N);
      Ok (s, if (index current <? index last)%N then More
             else EntryResponseIfNoMorePassTypeFilter subscriber s)
  end.

(** Where the thread is in [ThreadImpl]. *)
Inductive pc :=
| AtTop                                                       (* the top of [while (true)] *)
| AtRead                                                      (* after the termination check *)
| Passing (rest : list (idxts_t * E)) (head_idx : head_optidxts_t)  (* in [PassEntriesToSubscriber] *)
| AtHead (head_idx : head_optidxts_t)                         (* before the head is passed *)
| AtWait                                                      (* in [WaitUntil] *)
| Finished.

(** [taken] and [notified] are history: the entries taken from the stream so
    far, and the time stamps of these entries and of the heads passed on. *)
Record thread := mkThread {
  at_ : pc;
  begin_idx : N;
  index_ : N;
  head : microseconds;
  terminate_sent_ : bool;
  state : S;
  taken : list (idxts_t * E);
  notified : list microseconds;
}.

Definition start (begin_idx : N) (from_us : microseconds) (s : S) : thread :=
  mkThread AtTop begin_idx begin_idx (from_us - 1) false s [] [].

Definition goto (l : pc) (t : thread) : thread :=
  mkThread l (begin_idx t) (index_ t) (head t) (terminate_sent_ t) (state t) (taken t) (notified t).

(** [if (!terminate_sent_ && terminate_signal_) {...}]; the flag says whether to
    go on. *)
Definition check_termination (signal : bool) (t : thread) : thread * bool :=
  if negb (terminate_sent_ t) && signal then
    let '(s, r) := on_terminate subscriber (state t) in
    (mkThread (at_ t) (begin_idx t) (index_ t) (head t) true s (taken t) (notified t), bool_decide (r = Wait))
  else (t, true).

(** [Exists(head_idx.idxts) ? Value(head_idx.idxts).index + 1 : 0]. *)
Definition size_of (head_idx : head_optidxts_t) : N :=
  match hd_idxts head_idx with Some i => u64_succ (index i) | None => 0 end.

Definition thread_step (stream : P) (signal : bool) (t : thread) : outcome persistence_error thread :=
  match at_ t with
  | AtTop =>
      let '(t, go_on) := check_termination signal t in
      Ok (goto (if go_on then AtRead else Finished) t)
  | AtRead =>
      head_idx ← HeadAndLastPublishedIndexAndTimestamp stream;
      if head t <? hd_head head_idx then
        if (index_ t <? size_of head_idx)%N then
          entries ← Iterate (index_ t) (size_of head_idx) stream;
          Ok (goto (Passing entries head_idx) t)
        else Ok (goto (AtHead head_idx) t)
      else Ok (goto AtWait t)
  | Passing ((current, e) :: rest) head_idx =>
      let '(t, go_on) := check_termination signal t in
      if go_on then
        last ← LastPublishedIndexAndTimestamp stream;
        '(s, r) ← PassEntryToSubscriberIfTypeMatches e current last (state t);
        Ok (mkThread (if bool_decide (r = Done) then Finished else Passing rest head_idx)
              (begin_idx t) (index_ t) (head t) (terminate_sent_ t) s
              (taken t ++ [(current, e)]) (notified t ++ [us current]))
      else Ok (goto Finished t)
  | Passing [] head_idx =>
      match hd_idxts head_idx with
      | Some i => Ok (mkThread (AtHead head_idx) (begin_idx t) (size_of head_idx) (us i) (terminate_sent_ t)
                        (state t) (taken t) (notified t))
      | None => Throw (Fault DanglingDereference)
      end
  | AtHead head_idx =>
      if (begin_idx t <=? size_of head_idx)%N && (head t <? hd_head head_idx) then
        let '(s, r) := on_head subscriber (hd_head head_idx) (state t) in
        Ok (mkThread (if bool_decide (r = Done) then Finished else AtTop) (begin_idx t) (index_ t)
              (hd_head head_idx) (terminate_sent_ t) s (taken t) (notified t ++ [hd_head head_idx]))
      else
        Ok (mkThread AtTop (begin_idx t) (index_ t) (hd_head head_idx) (terminate_sent_ t)
              (state t) (taken t) (notified t))
  | AtWait =>
      if signal || (index_ t <? Size stream)%N || ((begin_idx t <? index_ t)%N && (head t <? CurrentHead stream))
      then Ok (goto AtTop t)
      else Ok t
  | Finished => Ok t
  end.
End Thread.

(** ** The thread among publishers *)

Section System.
Context {P E T S : Type} `{!Persister P E}.
Context (subscriber : Subscriber T S) (filter_type : E → option T).

Record system := mkSystem {
  stream : P;
  terminate_signal_ : bool;
  thr : @thread E S;
}.

(** [PublisherPublishImpl], [PublisherUpdateHeadImpl], [SignalExternalTermination]
    by some other thread, and a step of the subscriber thread. *)
Inductive system_step : system → system → Prop :=
| step_publish {CK} `{!Clock CK} (ck : CK) p p' e a i sg th :
    (Publish a e ck p).2 = Ok (i, p') →
    (Size (E := E) p + 1 < no_index)%N →
    system_step (mkSystem p sg th) (mkSystem p' sg th)
| step_update_head {CK} `{!Clock CK} (ck : CK) p p' a sg th :
    (UpdateHead (E := E) a ck p).2 = Ok p' → (TimestampAsMicroseconds a ck).1 < int64_max →
    system_step (mkSystem p sg th) (mkSystem p' sg th)
| step_terminate p th sg : system_step (mkSystem p sg th) (mkSystem p true th)
| step_thread p sg th th' :
    thread_step subscriber filter_type p sg th = Ok th' →
    system_step (mkSystem p sg th) (mkSystem p sg th').
End System.

(** ** The invariant *)

Section Extends.
Context {E : Type}.
Implicit Types l : log E.

(** What publishing does to a log: entries are only added, after the head. *)
Definition log_extends l l' : Prop :=
  ∃ suffix, log_entries l' = log_entries l ++ suffix ∧
    Forall (λ x, log_head l < x.1) suffix ∧ log_head l ≤ log_head l'.

Lemma publish_extends t e l r l' : log_publish t e l = Ok (r, l') → log_extends l l'.
Proof.
  unfold log_publish. destruct (Z.ltb_spec (log_head l) t); [|done]. intros [= <- <-].
  exists [(t, e)]. simpl. split_and!; [done| |lia]. by constructor.
Qed.

Lemma update_head_extends t l l' : log_update_head t l = Ok l' → log_extends l l'.
Proof.
  unfold log_update_head. destruct (Z.ltb_spec (log_head l) t); [|done]. intros [= <-].
  exists []. simpl. rewrite app_nil_r. split_and!; [done|constructor|lia].
Qed.

Lemma extends_size l l' : log_extends l l' → (log_size l ≤ log_size l')%N.
Proof. intros (x & Hx & _). unfold log_size. rewrite Hx, length_app. lia. Qed.

Lemma extends_take l l' k : log_extends l l' → (k ≤ log_size l)%N →
  take (N.to_nat k) (numbered l') = take (N.to_nat k) (numbered l).
Proof.
  intros (x & Hx & _) Hk. unfold numbered, numbered_from. rewrite Hx, imap_app.
  rewrite take_app_le; [done|]. rewrite length_imap. unfold log_size in Hk. lia.
Qed.

Lemma extends_slice l l' (b k : N) : log_extends l l' → (b ≤ k)%N → (k ≤ log_size l)%N ∨ k = b →
  drop (N.to_nat b) (take (N.to_nat k) (numbered l')) = drop (N.to_nat b) (take (N.to_nat k) (numbered l)).
Proof.
  intros Hext Hb [Hk|<-]; [by rewrite (extends_take l l')|].
  by rewrite !drop_ge by (rewrite length_take; lia).
Qed.

(** Every entry from [k] on, now or later, is after [t]. *)
Definition before_from l (k : N) (t : microseconds) : Prop :=
  t ≤ log_head l ∧ ∀ j t' e, (k ≤ N.of_nat j)%N → log_entries l !! j = Some (t', e) → t < t'.

Lemma extends_before l l' k t : log_extends l l' → before_from l k t → before_from l' k t.
Proof.
  intros (x & Hx & Hf & Hh) [Ht Hb]. split; [lia|]. intros j t' e Hj He.
  rewrite Hx in He. apply lookup_app_Some in He as [He|[_ He]]; [by eapply Hb|].
  rewrite Forall_lookup in Hf. apply Hf in He. simpl in He. lia.
Qed.

Lemma before_from_weaken l k k' t : (k ≤ k')%N → before_from l k t → before_from l k' t.
Proof. intros Hk [Ht Hb]. split; [done|]. intros j t' e Hj. apply Hb. lia. Qed.

(** An entry is before all the entries after it. *)
Lemma entry_before l (k : N) t e : log_wf l → log_entries l !! N.to_nat k = Some (t, e) → before_from l (k + 1) t.
Proof.
  intros (Hs & Hf & _) Hk. split.
  - rewrite Forall_fmap, Forall_lookup in Hf. apply Hf in Hk. simpl in Hk. lia.
  - intros j t' e' Hj He. clear Hf.
    assert (N.to_nat k < j)%nat as Hlt by lia. clear Hj. revert Hk He Hlt. generalize (N.to_nat k). revert j.
    induction (log_entries l) as [|x es IH]; intros j n Hk He Hlt; [done|].
    rewrite fmap_cons in Hs. apply StronglySorted_inv in Hs as [Hs Hx]. rewrite Forall_fmap in Hx.
    destruct j as [|j]; [lia|]. destruct n as [|n]; simpl in *.
    + simplify_eq. rewrite Forall_lookup in Hx. by apply (Hx _ _ He).
    + eapply IH; [done|exact Hk|exact He|lia].
Qed.

(** What [HeadAndLastPublishedIndexAndTimestamp] said once stays true. *)
Definition snapshot_ok l (hi : head_optidxts_t) : Prop :=
  (size_of hi ≤ log_size l)%N ∧ before_from l (size_of hi) (hd_head hi) ∧
  match hd_idxts hi with
  | Some i => size_of hi = (index i + 1)%N ∧ us i ≤ hd_head hi ∧
              ∃ e, log_entries l !! N.to_nat (index i) = Some (us i, e)
  | None => True
  end.

Lemma extends_snapshot l l' hi : log_extends l l' → snapshot_ok l hi → snapshot_ok l' hi.
Proof.
  intros Hext (Hs & Hb & Hi). pose proof (extends_size _ _ Hext). split_and!; [lia|by eapply extends_before|].
  destruct (hd_idxts hi) as [i|]; [|done]. destruct Hi as (? & ? & e & He). split_and!; [done..|]. exists e.
  destruct Hext as (x & -> & _). by apply lookup_app_l_Some.
Qed.

Lemma snapshot_now l : log_wf l → log_fits l → snapshot_ok l (log_head_and_last l) ∧
  size_of (log_head_and_last l) = log_size l.
Proof.
  intros Hw Hfit. assert (size_of (log_head_and_last l) = log_size l) as Hsize.
  { unfold size_of, log_head_and_last. simpl. rewrite last_lookup, length_numbered, numbered_lookup.
    unfold log_fits, log_size in *. destruct (log_entries l) as [|x es] eqn:Hl; [done|]. rewrite <- Hl in *.
    destruct (lookup_lt_is_Some_2 (log_entries l) (pred (length (log_entries l)))) as [y Hy]; [rewrite Hl; simpl; lia|].
    rewrite Hy. simpl. rewrite u64_succ_small by lia. rewrite Hl. simpl. lia. }
  split; [|done]. unfold snapshot_ok. rewrite Hsize. split_and!; [lia| |].
  - split; [done|]. intros j t' e Hj He. apply lookup_lt_Some in He. unfold log_size in Hj. lia.
  - unfold size_of in Hsize. unfold log_head_and_last in *. simpl in *.
    rewrite last_lookup, length_numbered, numbered_lookup in *.
    destruct (log_entries l !! _) as [[t e]|] eqn:He; [|done]. simpl in *.
    assert (N.of_nat (pred (length (log_entries l))) < no_index)%N by (unfold log_fits, log_size in Hfit; lia).
    rewrite u64_succ_small in Hsize by done. split_and!; [lia| |exists e; by rewrite Nat2N.id].
    destruct Hw as (_ & Hf & _). rewrite Forall_fmap, Forall_lookup in Hf. apply Hf in He. simpl in He. lia.
Qed.
End Extends.

Section Invariant.
Context {P E T ST : Type} `{PersisterSound P E}.
Context (subscriber : Subscriber T ST) (filter_type : E → option T).
Implicit Types (l : log E) (th : @thread E ST).

(** The index of the next entry to take. *)
Definition position th : N :=
  match at_ th with
  | Passing rest hi => size_of hi - N.of_nat (length rest)
  | _ => index_ th
  end.

(** Everything the subscriber was told is at or before [bound]. *)
Definition told_until th (bound : microseconds) : Prop := Forall (λ t, t ≤ bound) (notified th).

Definition pc_inv l th : Prop :=
  match at_ th with
  | Passing rest hi =>
      snapshot_ok l hi ∧ (index_ th < size_of hi)%N ∧ is_Some (hd_idxts hi) ∧
      (N.of_nat (length rest) ≤ size_of hi - index_ th)%N ∧
      rest = drop (N.to_nat (position th)) (take (N.to_nat (size_of hi)) (numbered l)) ∧
      (position th = index_ th ∧ told_until th (head th) ∨
       ∃ t e, log_entries l !! N.to_nat (position th - 1) = Some (t, e) ∧ told_until th t ∧
              (index_ th < position th)%N)
  | AtHead hi =>
      snapshot_ok l hi ∧ (size_of hi ≤ index_ th)%N ∧ told_until th (head th) ∧ head th ≤ hd_head hi
  | Finished => True
  | _ => told_until th (head th)
  end.

Definition thread_inv l th : Prop :=
  (begin_idx th ≤ index_ th)%N ∧ ((index_ th ≤ log_size l)%N ∨ index_ th = begin_idx th) ∧
  (at_ th ≠ Finished → taken th = drop (N.to_nat (begin_idx th)) (take (N.to_nat (position th)) (numbered l))) ∧
  (∃ k, taken th = drop (N.to_nat (begin_idx th)) (take (N.to_nat k) (numbered l)) ∧
        (begin_idx th ≤ k)%N ∧ ((k ≤ log_size l)%N ∨ k = begin_idx th)) ∧
  StronglySorted (λ x y, x < y) (notified th) ∧
  (at_ th ≠ Finished → Forall (before_from l (position th)) (notified th)) ∧
  pc_inv l th.

Lemma position_bounds l th : thread_inv l th → at_ th ≠ Finished →
  (begin_idx th ≤ position th)%N ∧ ((position th ≤ log_size l)%N ∨ position th = begin_idx th).
Proof.
  intros (Hb & Hi & _ & _ & _ & _ & Hpc) Hne. unfold position, pc_inv in *.
  destruct (at_ th) as [| |rest hi| | |]; try done. destruct Hpc as ((Hs & _) & Hlt & _ & Hlen & _).
  destruct Hi; [split; lia|]. split; lia.
Qed.

Lemma thread_inv_extends l l' th : log_extends l l' → thread_inv l th → thread_inv l' th.
Proof.
  intros Hext Hinv. pose proof (position_bounds l th Hinv) as Hpos.
  pose proof (extends_size _ _ Hext) as Hsize.
  destruct Hinv as (Hb & Hi & Htaken & (k & Hk & Hbk & Hkl) & Hsorted & Hbefore & Hpc).
  unfold thread_inv. split_and!.
  - done.
  - destruct Hi; [left; lia|by right].
  - intros Hne. rewrite (Htaken Hne). destruct (Hpos Hne). symmetry. by apply extends_slice.
  - exists k. split_and!; [|done|destruct Hkl; [left; lia|by right]].
    rewrite Hk. symmetry. by apply extends_slice.
  - done.
  - intros Hne. eapply Forall_impl; [exact (Hbefore Hne)|]. intros t. by apply extends_before.
  - unfold pc_inv in *. destruct (at_ th) as [| |rest hi|hi| |] eqn:Hat; try done.
    + destruct Hpc as (Hsnap & Hlt & Hsome & Hlen & Hrest & Htold). split_and!; try done.
      * by eapply extends_snapshot.
      * rewrite Hrest at 1. destruct Hsnap as (Hs & _). by rewrite (extends_take l l').
      * destruct Htold as [?|(t & e & He & ?)]; [by left|]. right. exists t, e. split; [|done].
        destruct Hext as (x & -> & _). by apply lookup_app_l_Some.
    + destruct Hpc as (Hsnap & ?). split; [by eapply extends_snapshot|done].
Qed.

(** ** A step of the thread *)

(** The termination check changes nothing the invariant speaks of. *)
Lemma check_termination_inv l signal th th' go_on :
  check_termination subscriber signal th = (th', go_on) → thread_inv l th →
  thread_inv l th' ∧ at_ th' = at_ th ∧ taken th' = taken th ∧ notified th' = notified th ∧
  index_ th' = index_ th ∧ begin_idx th' = begin_idx th ∧ head th' = head th.
Proof.
  unfold check_termination. destruct (negb (terminate_sent_ th) && signal); [|by intros [= <- <-]].
  destruct (on_terminate subscriber (state th)) as [s r]. intros [= <- <-] Hinv. by split_and!.
Qed.

Lemma thread_inv_goto l th q : (∀ rest hi, at_ th ≠ Passing rest hi) → (∀ rest hi, q ≠ Passing rest hi) →
  at_ th ≠ Finished → thread_inv l th → pc_inv l (goto q th) → thread_inv l (goto q th).
Proof.
  intros Hp Hq Hne (Hb & Hi & Htaken & Hk & Hsorted & Hbefore & Hpc) Hpc'.
  assert (position (goto q th) = position th) as Hpos.
  { unfold position. simpl. destruct (at_ th) eqn:Ha; destruct q; try done; exfalso; first [by eapply Hp|by eapply Hq]. }
  unfold thread_inv. rewrite Hpos. simpl. split_and!; auto.
Qed.

Lemma thread_inv_finish l th : thread_inv l th → thread_inv l (goto Finished th).
Proof.
  intros (Hb & Hi & Htaken & Hk & Hsorted & Hbefore & Hpc). unfold thread_inv. simpl. by split_and!.
Qed.

Lemma step_read l th stream sg th' :
  represents stream l → log_fits l → thread_inv l th → at_ th = AtRead →
  thread_step subscriber filter_type stream sg th = Ok th' → thread_inv l th'.
Proof.
  intros Hrep Hfit Hinv Hat. pose proof (represents_wf _ _ Hrep) as Hw.
  unfold thread_step. rewrite Hat, (HeadAndLast_law _ l) by done.
  destruct (snapshot_now l Hw Hfit) as [Hsnap Hsize].
  generalize dependent (log_head_and_last l). intros hi Hsnap Hsize. cbn [mbind outcome_bind].
  pose proof Hinv as (Hb & Hi & Htaken & Hk & Hsorted & Hbefore & Hpc).
  unfold pc_inv in Hpc. rewrite Hat in Hpc.
  destruct (Z.ltb_spec (head th) (hd_head hi)).
  - destruct (N.ltb_spec (index_ th) (size_of hi)) as [Hlt|Hge].
    + rewrite (Iterate_law _ _ _ l) by done. unfold log_iterate. rewrite Hsize in *.
      destruct (N.eqb_spec (log_size l) no_index); [unfold log_fits in Hfit; lia|].
      destruct (N.leb_spec (index_ th) (log_size l)); [|lia]. rewrite N.leb_refl. simpl. intros [= <-].
      set (rest := drop _ _).
      assert (N.of_nat (length rest) = log_size l - index_ th)%N as Hlen.
      { subst rest. rewrite length_drop, length_take, length_numbered. unfold log_size in *. lia. }
      assert (position (goto (Passing rest hi) th) = index_ th) as Hpos.
      { unfold position. simpl. rewrite Hlen, Hsize. lia. }
      assert (position th = index_ th) as Hpos0 by (unfold position; by rewrite Hat).
      unfold thread_inv, pc_inv. rewrite Hpos. simpl. rewrite Hpos0, Hat in *. rewrite Hsize.
      split_and!; auto; try lia.
      unfold size_of in Hsize. destruct (hd_idxts hi); [by eexists|]. rewrite <- Hsize in Hlt. lia.
    + intros [= <-]. apply thread_inv_goto; try done; try (by rewrite Hat).
      unfold pc_inv. simpl. split_and!; [done..|lia].
  - intros [= <-]. apply thread_inv_goto; try done; by rewrite Hat.
Qed.

(** Taking the next entry. *)
Lemma take_entry l th rest hi current e s sent q :
  log_wf l → thread_inv l th → at_ th = Passing ((current, e) :: rest) hi →
  q = Finished ∨ q = Passing rest hi →
  thread_inv l (mkThread q (begin_idx th) (index_ th) (head th) sent s
                  (taken th ++ [(current, e)]) (notified th ++ [us current])).
Proof.
  intros Hw Hinv Hat Hq. pose proof Hinv as (Hb & Hi & Htaken & _ & Hsorted & Hbefore & Hpc).
  assert (at_ th ≠ Finished) as Hne by (by rewrite Hat). specialize (Htaken Hne). specialize (Hbefore Hne).
  unfold pc_inv in Hpc. rewrite Hat in Hpc.
  destruct Hpc as (Hsnap & Hlt & Hsome & Hlen & Hrest & Htold). pose proof Hsnap as (Hs & _ & _).
  set (k := position th) in *.
  assert (k = size_of hi - N.of_nat (S (length rest)))%N as Hk by (unfold k, position; by rewrite Hat).
  simpl length in Hlen. assert (index_ th ≤ k < size_of hi)%N as Hkr by lia.
  assert (numbered l !! N.to_nat k = Some (current, e)) as Hnext.
  { rewrite <- (lookup_take_lt _ (N.to_nat (size_of hi))) by lia.
    apply (f_equal (λ x, x !! 0%nat)) in Hrest. rewrite lookup_drop, Nat.add_0_r in Hrest. by simpl in Hrest. }
  assert (log_entries l !! N.to_nat k = Some (us current, e)) as Hent.
  { rewrite numbered_lookup in Hnext. destruct (log_entries l !! N.to_nat k) as [[t x]|]; [|done].
    simpl in Hnext. by simplify_eq. }
  assert (taken th ++ [(current, e)] = drop (N.to_nat (begin_idx th)) (take (N.to_nat (k + 1)) (numbered l))) as Htk.
  { rewrite Htaken. replace (N.to_nat (k + 1)) with (S (N.to_nat k)) by lia.
    rewrite (take_S_r _ _ _ Hnext), drop_app_le; [done|].
    rewrite length_take, length_numbered. unfold log_size in Hs. lia. }
  assert (N.to_nat (position (mkThread (Passing rest hi) (begin_idx th) (index_ th) (head th) sent s
            (taken th ++ [(current, e)]) (notified th ++ [us current]))) = N.to_nat (k + 1)) as Hpos.
  { unfold position. simpl. lia. }
  unfold thread_inv. simpl. split_and!.
  - done.
  - done.
  - destruct Hq as [-> | ->]; [done|]. intros _. by rewrite Hpos.
  - exists (k + 1)%N. split_and!; [done|lia|left; lia].
  - apply sorted_snoc; [done|]. eapply Forall_impl; [exact Hbefore|].
    intros t [_ Ht]. eapply Ht; [|exact Hent]. lia.
  - destruct Hq as [-> | ->]; [done|]. intros _.
    assert (before_from l (k + 1) (us current)) as Hcur by (by eapply entry_before).
    apply N2Nat.inj in Hpos. rewrite Hpos. apply Forall_app. split; [|by constructor].
    eapply Forall_impl; [exact Hbefore|]. intros t. apply before_from_weaken. lia.
  - destruct Hq as [-> | ->]; [done|]. unfold pc_inv. cbn [at_]. rewrite Hpos. split_and!; try done.
    + simpl. lia.
    + simpl. rewrite (drop_S _ (current, e)) in Hrest; [|rewrite lookup_take_lt by lia; done].
      injection Hrest as ->. do 2 f_equal. lia.
    + right. exists (us current), e. apply N2Nat.inj in Hpos. rewrite Hpos. simpl.
      replace (k + 1 - 1)%N with k by lia. split_and!; [done| |lia].
      apply Forall_app. split; [|by repeat constructor]. eapply Forall_impl; [exact Hbefore|].
      intros t [_ Ht]. apply Z.lt_le_incl. eapply Ht; [|exact Hent]. lia.
Qed.

(** All the entries of the snapshot have been taken. *)
Lemma finish_passing l th hi i : thread_inv l th → at_ th = Passing [] hi → hd_idxts hi = Some i →
  thread_inv l (mkThread (AtHead hi) (begin_idx th) (size_of hi) (us i) (terminate_sent_ th)
                  (state th) (taken th) (notified th)).
Proof.
  intros Hinv Hat Hhi. pose proof Hinv as (Hb & Hi & Htaken & Hk & Hsorted & Hbefore & Hpc).
  assert (at_ th ≠ Finished) as Hne by (by rewrite Hat). specialize (Htaken Hne). specialize (Hbefore Hne).
  unfold pc_inv in Hpc. rewrite Hat in Hpc.
  destruct Hpc as (Hsnap & Hlt & Hsome & Hlen & Hrest & Htold). pose proof Hsnap as (Hs & _ & Hlast).
  assert (position th = size_of hi) as Hpos by (unfold position; rewrite Hat; simpl; lia).
  rewrite Hpos in *. unfold thread_inv, pc_inv, position. simpl.
  rewrite Hhi in Hlast. destruct Hlast as (Hsize & Hle & e & He). split_and!; auto; try lia.
  destruct Htold as [[? _]|(t & e' & He' & Htold & _)]; [lia|].
  rewrite Hsize in He'. replace (index i + 1 - 1)%N with (index i) in He' by lia.
  rewrite He in He'. by simplify_eq.
Qed.

(** Passing on the head. *)
Lemma pass_head l th hi sent s q ns : thread_inv l th → at_ th = AtHead hi →
  q = Finished ∨ q = AtTop →
  ns = notified th ∨ ns = notified th ++ [hd_head hi] ∧ head th < hd_head hi →
  thread_inv l (mkThread q (begin_idx th) (index_ th) (hd_head hi) sent s (taken th) ns).
Proof.
  intros Hinv Hat Hq Hns. pose proof Hinv as (Hb & Hi & Htaken & Hk & Hsorted & Hbefore & Hpc).
  assert (at_ th ≠ Finished) as Hne by (by rewrite Hat). specialize (Htaken Hne). specialize (Hbefore Hne).
  unfold pc_inv in Hpc. rewrite Hat in Hpc. destruct Hpc as (Hsnap & Hsize & Htold & Hle).
  assert (position th = index_ th) as Hpos by (unfold position; by rewrite Hat). rewrite Hpos in *.
  assert (StronglySorted (λ x y, x < y) ns ∧ Forall (before_from l (index_ th)) ns ∧
          Forall (λ t, t ≤ hd_head hi) ns) as (Hsort' & Hbef' & Htold').
  { destruct Hns as [->|[-> Hlt]].
    - split_and!; [done|done|]. eapply Forall_impl; [exact Htold|]. simpl. lia.
    - split_and!.
      + apply sorted_snoc; [done|]. eapply Forall_impl; [exact Htold|]. simpl. lia.
      + apply Forall_app. split; [done|]. constructor; [|done]. destruct Hsnap as (_ & Hhd & _).
        by eapply before_from_weaken.
      + apply Forall_app. split; [eapply Forall_impl; [exact Htold|]; simpl; lia|]. by repeat constructor; lia. }
  unfold thread_inv, pc_inv, position. destruct Hq as [-> | ->]; simpl; by split_and!.
Qed.

Lemma thread_step_inv l th stream sg th' :
  represents stream l → log_fits l → thread_inv l th →
  thread_step subscriber filter_type stream sg th = Ok th' → thread_inv l th'.
Proof.
  intros Hrep Hfit Hinv. pose proof (represents_wf _ _ Hrep) as Hw.
  destruct (at_ th) as [| |rest hi|hi| |] eqn:Hat.
  - unfold thread_step. rewrite Hat.
    destruct (check_termination subscriber sg th) as [th1 go_on] eqn:Hc. intros [= <-].
    destruct (check_termination_inv l _ _ _ _ Hc Hinv) as (Hinv1 & Hat1 & _).
    destruct go_on; [|by apply thread_inv_finish]. rewrite Hat in Hat1.
    apply thread_inv_goto; try done; try (by rewrite Hat1).
    destruct Hinv1 as (_ & _ & _ & _ & _ & _ & Hpc). unfold pc_inv in *. by rewrite Hat1 in Hpc.
  - by apply step_read.
  - unfold thread_step. rewrite Hat. destruct rest as [|[current e] rest].
    + destruct (hd_idxts hi) as [i|] eqn:Hhi; [|done]. intros [= <-]. by apply finish_passing.
    + destruct (check_termination subscriber sg th) as [th1 go_on] eqn:Hc.
      destruct (check_termination_inv l _ _ _ _ Hc Hinv) as (Hinv1 & Hat1 & _).
      destruct go_on; [|intros [= <-]; by apply thread_inv_finish].
      destruct (LastPublishedIndexAndTimestamp stream) as [last|]; [|done].
      cbn [mbind outcome_bind].
      destruct (PassEntryToSubscriberIfTypeMatches _ _ _ _ _ _) as [[s r]|]; [|done].
      cbn [mbind outcome_bind]. intros [= <-]. eapply take_entry; [done..|by rewrite Hat1|].
      case_bool_decide; auto.
  - unfold thread_step. rewrite Hat.
    destruct ((begin_idx th <=? size_of hi)%N && (head th <? hd_head hi)) eqn:Hh.
    + apply andb_true_iff in Hh as [_ Hh%Z.ltb_lt].
      destruct (on_head subscriber (hd_head hi) (state th)) as [s r]. intros [= <-].
      eapply pass_head; [done..| |by right]. case_bool_decide; auto.
    + intros [= <-]. eapply pass_head; [done..|by right|by left].
  - unfold thread_step. rewrite Hat. case_match; intros [= <-]; [|done].
    apply thread_inv_goto; try done; try (by rewrite Hat).
    destruct Hinv as (_ & _ & _ & _ & _ & _ & Hpc). unfold pc_inv in *. by rewrite Hat in Hpc.
  - unfold thread_step. rewrite Hat. by intros [= <-].
Qed.

(** No step of the thread fails: the assertions hold, the ranges it iterates
    over are ranges of the log, it never dereferences what is not there. *)
Lemma thread_step_total l th stream sg :
  represents stream l → log_fits l → thread_inv l th →
  is_ok (thread_step subscriber filter_type stream sg th).
Proof.
  intros Hrep Hfit Hinv. pose proof (represents_wf _ _ Hrep) as Hw. unfold thread_step.
  pose proof Hinv as (_ & _ & _ & _ & _ & _ & Hpc). unfold pc_inv in Hpc.
  destruct (at_ th) as [| |rest hi|hi| |] eqn:Hat.
  - destruct (check_termination subscriber sg th). by eexists.
  - rewrite (HeadAndLast_law _ l) by done. destruct (snapshot_now l Hw Hfit) as [_ Hsize].
    generalize dependent (log_head_and_last l). intros hi Hsize. cbn [mbind outcome_bind].
    destruct (_ <? _); [|by eexists]. destruct (N.ltb_spec (index_ th) (size_of hi)) as [Hlt|]; [|by eexists].
    rewrite (Iterate_law _ _ _ l) by done. unfold log_iterate. rewrite Hsize in *.
    destruct (N.eqb_spec (log_size l) no_index); [unfold log_fits in Hfit; lia|].
    destruct (N.leb_spec (index_ th) (log_size l)); [|lia]. rewrite N.leb_refl. by eexists.
  - destruct Hpc as (Hsnap & _ & [i Hi] & _ & Hrest & _). pose proof Hsnap as (Hs & _ & _).
    destruct rest as [|[current e] rest]; [rewrite Hi; by eexists|].
    destruct (check_termination subscriber sg th) as [th1 []]; [|by eexists].
    rewrite (Last_law _ l) by done. rewrite log_last_lookup.
    assert (∃ j, numbered l !! j = Some (current, e)) as [j Hj].
    { exists (N.to_nat (position th)). apply (f_equal (λ x, x !! 0%nat)) in Hrest. simpl in Hrest.
      rewrite lookup_drop, Nat.add_0_r in Hrest. symmetry in Hrest.
      by apply lookup_take_Some in Hrest as [? _]. }
    rewrite numbered_lookup in Hj. destruct (log_entries l !! j) as [x|] eqn:Hx; [|done].
    pose proof (lookup_lt_Some _ _ _ Hx) as Hlt. injection Hj as <- _.
    destruct (last (log_entries l)) as [y|] eqn:Hy; [|apply last_None in Hy; by rewrite Hy in Hx].
    cbn [mbind outcome_bind]. unfold PassEntryToSubscriberIfTypeMatches.
    destruct (filter_type e); [simpl; destruct (on_entry _ _ _ _ _); by eexists|]. simpl.
    destruct (N.leb_spec (N.of_nat j) (N.of_nat (pred (length (log_entries l))))); [|lia]. by eexists.
  - destruct (_ && _); [|by eexists]. destruct (on_head _ _ _). by eexists.
  - case_match; by eexists.
  - by eexists.
Qed.

(** ** Reachable states *)

Definition system_inv (sys : @system P E ST) : Prop :=
  ∃ l, represents (stream sys) l ∧ log_fits l ∧ thread_inv l (thr sys).

Lemma system_step_inv sys sys' :
  system_step subscriber filter_type sys sys' → system_inv sys → system_inv sys'.
Proof.
  intros Hstep (l & Hrep & Hfit & Hinv). destruct Hstep as [CK ? ck p p' e a i sg th Hp Hsz|CK ? ck p p' a sg th Hp Ht|p th sg|p sg th th' Hs]; simpl in *.
  - destruct (Publish_law a e ck p l Hrep Hfit) as [_ Hrel]. rewrite Hp in Hrel.
    destruct (log_publish _ e l) as [[i' l']|] eqn:Hl; [|done]. destruct Hrel as [_ Hrep']. exists l'. split; [done|]. split.
    + rewrite (Size_law _ l) in Hsz by done. unfold log_publish in Hl. case_match; [|done].
      injection Hl as <- <-. unfold log_fits, log_size in *. simpl. rewrite length_app. simpl. lia.
    + eapply thread_inv_extends; [by eapply publish_extends|done].
  - destruct (UpdateHead_law a ck p l Hrep Ht) as [_ Hrel]. rewrite Hp in Hrel.
    destruct (log_update_head _ l) as [l'|] eqn:Hl; [|done]. exists l'. split; [done|]. split.
    + unfold log_update_head in Hl. case_match; [|done]. by injection Hl as <-.
    + eapply thread_inv_extends; [by eapply update_head_extends|done].
  - by exists l.
  - exists l. split_and!; [done..|]. by eapply thread_step_inv.
Qed.

Lemma start_inv l begin_idx from_us s : thread_inv l (start begin_idx from_us s).
Proof.
  unfold thread_inv, pc_inv, position, start. simpl. split_and!; try done; try (by right); try constructor.
  - intros _. by rewrite drop_ge by (rewrite length_take; lia).
  - exists begin_idx. split_and!; [|done|by right]. by rewrite drop_ge by (rewrite length_take; lia).
Qed.

Lemma reachable_inv p l begin_idx from_us s sys :
  represents p l → log_fits l →
  rtc (system_step subscriber filter_type) (mkSystem p false (start begin_idx from_us s)) sys →
  system_inv sys.
Proof.
  intros Hrep Hfit Hr. remember (mkSystem p false (start begin_idx from_us s)) as sys0 eqn:H0.
  assert (system_inv sys0) as Hinv by (subst; exists l; split_and!; [done..|apply start_inv]). clear H0.
  induction Hr as [|x y z Hxy _ IH]; [done|]. apply IH. by eapply system_step_inv.
Qed.

(** A thread that a step leaves in its wait has taken every entry. *)
Lemma blocked_position l (stream : P) sg th : represents stream l → log_fits l → thread_inv l th → at_ th = AtWait →
  thread_step subscriber filter_type stream sg th = Ok th → taken th = drop (N.to_nat (begin_idx th)) (numbered l).
Proof.
  intros Hrep Hfit (_ & _ & Htaken & _) Hat Hstep. unfold position in Htaken. rewrite Hat in Htaken. rewrite Htaken by done.
  unfold thread_step in Hstep. rewrite Hat in Hstep.
  destruct (_ || _) eqn:Hwake; [injection Hstep as Hth; apply (f_equal at_) in Hth; simpl in Hth; congruence|].
  apply orb_false_iff in Hwake as [[_ Hsize]%orb_false_iff _]. rewrite (Size_law _ l) in Hsize by done. apply N.ltb_ge in Hsize.
  unfold log_size in Hsize. rewrite take_ge; [done|]. rewrite length_numbered. lia.
Qed.

(** Three steps of a thread that the wait condition wakes up although the head
    it waits for has not been reached. *)
Lemma wait_without_progress l th p :
  represents p l → log_fits l → at_ th = AtWait → terminate_sent_ th = false →
  (index_ th < Size (E := E) p)%N → CurrentHead (E := E) p ≤ head th →
  ∃ th1 th2, thread_step subscriber filter_type p false th = Ok th1 ∧
    thread_step subscriber filter_type p false th1 = Ok th2 ∧
    thread_step subscriber filter_type p false th2 = Ok th.
Proof.
  intros Hrep Hfit Hat Hsent Hsize Hhead. exists (goto AtTop th), (goto AtRead th).
  destruct th as [a b i h ts s tk nt]. simpl in *. subst a ts. unfold thread_step. simpl. split_and!.
  - destruct (N.ltb_spec i (Size p)); [done|lia].
  - done.
  - rewrite (HeadAndLast_law _ l) by done. rewrite (CurrentHead_law _ l) in Hhead by done. simpl.
    destruct (Z.ltb_spec h (log_head l)); [lia|done].
Qed.
End Invariant.

(** ** What the subscriber is called with *)

(** The calls of the methods of a subscriber. *)
Inductive call (T : Type) := EntryCall (v : T) (current last : idxts_t) | HeadCall (t : microseconds) | TerminateCall.
Arguments EntryCall {T} _ _ _.
Arguments HeadCall {T} _.
Arguments TerminateCall {T}.

(** A subscriber that does as another one and remembers how it is called. *)
Definition recording {T S} (subscriber : Subscriber T S) : Subscriber T (S * list (call T)) :=
  mkSubscriber T (S * list (call T))
    (λ v current last s, let '(s', r) := on_entry subscriber v current last s.1 in (s', s.2 ++ [EntryCall v current last], r))
    (λ t s, let '(s', r) := on_head subscriber t s.1 in (s', s.2 ++ [HeadCall t], r))
    (λ s, EntryResponseIfNoMorePassTypeFilter subscriber s.1)
    (λ s, let '(s', r) := on_terminate subscriber s.1 in (s', s.2 ++ [TerminateCall], r)).

Section Calls.
Context {P E T ST : Type} `{PersisterSound P E}.
Context (subscriber : Subscriber T ST) (filter_type : E → option T).
Implicit Types (l : log E) (th : @thread E (ST * list (call T))) (h : list (call T)).

Definition entry_calls h : list (idxts_t * T) := omap (λ c, match c with EntryCall v current _ => Some (current, v) | _ => None end) h.
Definition call_times h : list microseconds :=
  omap (λ c, match c with EntryCall _ current _ => Some (us current) | HeadCall t => Some t | TerminateCall => None end) h.
Definition terminations h : nat := length (omap (λ c, match c with TerminateCall => Some () | _ => None end) h).
Definition last_ok (c : call T) : Prop := match c with EntryCall _ current last => (index current ≤ index last)%N | _ => True end.

(** The entries of the type the subscriber has subscribed to. *)
Definition of_type (es : list (idxts_t * E)) : list (idxts_t * T) := omap (λ x, (λ v, (x.1, v)) <$> filter_type x.2) es.

Definition calls_inv (b : N) th : Prop :=
  begin_idx th = b ∧ entry_calls (state th).2 = of_type (taken th) ∧ call_times (state th).2 `sublist_of` notified th ∧
  terminations (state th).2 = (if terminate_sent_ th then 1 else 0)%nat ∧ Forall last_ok (state th).2.

Lemma check_termination_calls b signal th th' go_on :
  check_termination (recording subscriber) signal th = (th', go_on) → calls_inv b th → calls_inv b th'.
Proof.
  unfold check_termination. destruct (negb (terminate_sent_ th) && signal) eqn:Hs; [|by intros [= <- <-]].
  apply andb_true_iff in Hs as [Hs%negb_true_iff _]. cbn [on_terminate recording]. destruct (on_terminate subscriber (state th).1) as [s' r].
  intros [= <- <-] (Hb & He & Ht & Hn & Hl). rewrite Hs in Hn. unfold calls_inv, entry_calls, call_times, terminations in *. cbn.
  rewrite !omap_app, length_app. cbn. rewrite !app_nil_r. split_and!; try done; [lia|]. apply Forall_app. split; [done|by repeat constructor].
Qed.

(** The entry to pass on next is in the stream. *)
Lemma passing_entry l th current e rest hi : thread_inv l th → at_ th = Passing ((current, e) :: rest) hi → ∃ j, numbered l !! j = Some (current, e).
Proof.
  intros (_ & _ & _ & _ & _ & _ & Hpc) Hat. unfold pc_inv in Hpc. rewrite Hat in Hpc. destruct Hpc as (_ & _ & _ & _ & Hrest & _).
  exists (N.to_nat (position th)). apply (f_equal (λ x, x !! 0%nat)) in Hrest. simpl in Hrest.
  rewrite lookup_drop, Nat.add_0_r in Hrest. symmetry in Hrest. by apply lookup_take_Some in Hrest as [? _].
Qed.

Lemma last_after_entry l (stream : P) j current e last :
  represents stream l → log_fits l → numbered l !! j = Some (current, e) → LastPublishedIndexAndTimestamp stream = Ok last → (index current ≤ index last)%N.
Proof.
  intros Hrep Hfit Hj. rewrite (Last_law _ l), log_last_lookup by done. rewrite numbered_lookup in Hj.
  destruct (log_entries l !! j) as [x|] eqn:Hx; [|done]. pose proof (lookup_lt_Some _ _ _ Hx) as Hlt. injection Hj as <- _.
  destruct (list.last (log_entries l)) as [y|]; [|done]. intros [= <-]. simpl. lia.
Qed.

Lemma pass_entry_calls entry current last (s s' : ST * list (call T)) r :
  PassEntryToSubscriberIfTypeMatches (recording subscriber) filter_type entry current last s = Ok (s', r) →
  s'.2 = s.2 ++ match filter_type entry with Some v => [EntryCall v current last] | None => [] end.
Proof.
  unfold PassEntryToSubscriberIfTypeMatches. cbn [on_entry recording]. destruct (filter_type entry) as [v|].
  - destruct (on_entry subscriber v current last s.1) as [s1 r1]. by intros [= <- <-].
  - destruct (CURRENT_ASSERT _); [|done]. cbn [check mbind outcome_bind]. intros [= <- <-]. by rewrite app_nil_r.
Qed.

Lemma thread_step_calls b l (stream : P) sg th th' :
  represents stream l → log_fits l → thread_inv l th → thread_step (recording subscriber) filter_type stream sg th = Ok th' →
  calls_inv b th → calls_inv b th'.
Proof.
  intros Hrep Hfit Hinv. unfold thread_step. destruct (at_ th) as [| |[|[current e] rest] hi|hi| |] eqn:Hat.
  - destruct (check_termination _ sg th) as [th1 go_on] eqn:Hc. intros [= <-] Hi. by apply (check_termination_calls b _ _ _ _ Hc) in Hi.
  - destruct (HeadAndLastPublishedIndexAndTimestamp stream) as [hi|]; [|done]. cbn [mbind outcome_bind]. destruct (_ <? _); [|by intros [= <-]].
    destruct (_ <? _)%N; [|by intros [= <-]]. destruct (Iterate _ _ _); [|done]. cbn [mbind outcome_bind]. by intros [= <-].
  - destruct (hd_idxts hi); [|done]. by intros [= <-].
  - destruct (check_termination _ sg th) as [th1 go_on] eqn:Hc. intros Hstep Hi. apply (check_termination_calls b _ _ _ _ Hc) in Hi.
    destruct go_on; [|by injection Hstep as <-]. destruct (LastPublishedIndexAndTimestamp stream) as [last|] eqn:Hlast; [|done].
    cbn [mbind outcome_bind] in Hstep. destruct (PassEntryToSubscriberIfTypeMatches _ _ _ _ _ _) as [[s r]|] eqn:Hp; [|done]. injection Hstep as <-.
    apply pass_entry_calls in Hp. destruct (passing_entry l th current e rest hi Hinv Hat) as [j Hj].
    pose proof (last_after_entry l stream j current e last Hrep Hfit Hj Hlast) as Hle. destruct Hi as (Hb & He & Ht & Hn & Hl).
    unfold calls_inv, entry_calls, call_times, terminations, of_type in *. cbn. rewrite Hp, !omap_app, length_app.
    destruct (filter_type e) as [v|] eqn:Hv; cbn; rewrite ?Hv; cbn; rewrite ?app_nil_r, ?Nat.add_0_r; split_and!; try done.
    + by rewrite He.
    + by apply sublist_app.
    + apply Forall_app. split; [done|]. by repeat constructor.
    + by apply sublist_inserts_r.
  - destruct (_ && _).
    + cbn [on_head recording]. destruct (on_head subscriber (hd_head hi) (state th).1) as [s r]. intros [= <-] (Hb & He & Ht & Hn & Hl).
      unfold calls_inv, entry_calls, call_times, terminations in *. cbn. rewrite !omap_app, length_app. cbn. rewrite app_nil_r, Nat.add_0_r.
      split_and!; try done; [by apply sublist_app|]. apply Forall_app. split; [done|by repeat constructor].
    + by intros [= <-].
  - case_match; by intros [= <-].
  - by intros [= <-].
Qed.

Lemma reachable_calls p l b from_us s sys :
  represents p l → log_fits l →
  rtc (system_step (recording subscriber) filter_type) (mkSystem p false (start b from_us (s, []))) sys →
  system_inv sys ∧ calls_inv b (thr sys).
Proof.
  intros Hrep Hfit Hr. remember (mkSystem p false (start b from_us (s, []))) as sys0 eqn:H0.
  assert (system_inv sys0 ∧ calls_inv b (thr sys0)) as Hinv by (subst; split; [exists l; split_and!; [done..|apply start_inv]|split_and!; try done; constructor]). clear H0.
  induction Hr as [|x y z Hxy _ IH]; [done|]. apply IH. destruct Hinv as [Hs Hc]. split; [by eapply system_step_inv|].
  destruct Hs as (l' & Hrep' & Hfit' & Ht). destruct Hxy as [| | |p' sg th th' Hst]; [done..|]. by apply (thread_step_calls b l' p' sg th).
Qed.
End Calls.

Lemma sublist_sorted (l1 l2 : list Z) : l1 `sublist_of` l2 → StronglySorted (λ x y, x < y) l2 → StronglySorted (λ x y, x < y) l1.
Proof.
  induction 1 as [|x l1 l2 Hl IH|x l1 l2 Hl IH]; [done|..]; intros [Hs Hx]%StronglySorted_inv; [|by apply IH].
  constructor; [by apply IH|]. rewrite Forall_forall in Hx |- *. intros y Hy. apply Hx.
  eapply elem_of_submseteq; [exact Hy|by apply sublist_submseteq].
Qed.

(** ** A concrete subscription, for the witnesses *)

Module Example.

(** A subscriber that collects everything and never stops by itself. *)
Definition collector : Subscriber nat (list nat) :=
  mkSubscriber nat (list nat) (λ v _ _ s, (s ++ [v], More)) (λ _ s, (s, More)) (λ _, More) (λ s, (s, Terminate)).

Definition container := Memory.Container nat.
Definition empty_stream : container := Memory.init.
Definition with_one : container := Memory.mkContainer [(500, 42%nat)] 500.
Definition with_two : container := Memory.mkContainer [(500, 42%nat); (1500, 43%nat)] 1500.

Definition sys (p : container) (th : @thread nat (list nat)) := mkSystem p false th.
Definition step := system_step (P := container) collector Some.

(** The state after [n] steps of the thread alone. *)
Fixpoint run (n : nat) (p : container) (th : @thread nat (list nat)) : @thread nat (list nat) :=
  match n with
  | O => th
  | S n => match thread_step collector Some p false th with Ok th' => run n p th' | Throw _ => th end
  end.

Lemma run_steps n p th : rtc step (sys p th) (sys p (run n p th)).
Proof.
  revert th. induction n as [|n IH]; intros th; [constructor|]. simpl.
  destruct (thread_step _ _ _ _ _) as [th'|] eqn:Hs; [|constructor].
  eapply rtc_l; [by apply step_thread|]. apply IH.
Qed.

Lemma publish_first th : step (sys empty_stream th) (sys with_one th).
Proof. by apply (step_publish _ _ (MockNow.mkMockNow 0 0) _ _ 42%nat (At 500) (mkIdxTs 0 500)). Qed.

Lemma publish_second th : step (sys with_one th) (sys with_two th).
Proof. by apply (step_publish _ _ (MockNow.mkMockNow 0 0) _ _ 43%nat (At 1500) (mkIdxTs 1 1500)). Qed.

Definition thread_after_one := run 5 with_one (run 3 empty_stream (start 0 0 [])).

Lemma reach_one : rtc step (sys empty_stream (start 0 0 [])) (sys with_one thread_after_one).
Proof.
  etrans; [apply (run_steps 3)|]. eapply rtc_l; [apply publish_first|]. apply run_steps.
Qed.

(** A subscription that asks for entries from time 1000 on: it waits, an entry
    with time stamp 500 and then one with time stamp 1500 are published. *)
Definition future_waiting := run 3 empty_stream (start 0 1000 []).
Definition future_thread := run 5 with_two future_waiting.

Lemma reach_future : rtc step (sys empty_stream (start 0 1000 [])) (sys with_two future_thread).
Proof.
  etrans; [apply (run_steps 3)|]. eapply rtc_l; [apply publish_first|]. eapply rtc_l; [apply publish_second|].
  apply run_steps.
Qed.
End Example.
End SubscriberThread.
