(* ===== verification/PubSub.v ===== *)
(** * Subscribing over HTTP: stream/pubsub.h and Stream::ServeDataViaHTTP

    A GET request selects a range of the entries of a stream with the URL
    parameters [i], [tail], [since], [recent], [n], [period] and [nowait].  The
    request is parsed into [ParsedHTTPRequestParams]; [ServeDataViaHTTP] turns
    it into the index to subscribe from; and [PubSubHTTPEndpointImpl] is the
    subscriber, which decides for each entry whether to send it and whether to
    go on.  The response is the text sent so far; writing it to the socket is
    not modelled. *)

From Stdlib Require Import ZArith NArith Lia Ascii String Sorted.
From stdpp Require Import base gmap list strings.
From S2P Require Import Prelude Time Persistence Decimal Stream.
Open Scope Z_scope.

Module PubSub.

(** ** The request *)

Record Request := mkRequest {
  method : bytes;
  query : gmap bytes bytes;
  url_path_args : list bytes;
  timestamp : microseconds;
}.

Record ParsedHTTPRequestParams := mkParams {
  size_only : bool;
  terminate_requested : bool;
  terminate_id : bytes;
  schema_requested : bool;
  schema_format : bytes;
  recent : microseconds;
  since : microseconds;
  param_i : N;
  param_tail : N;
  param_n : N;
  period : microseconds;
  no_wait : bool;
  stop_after_bytes : N;
  entries_only : bool;
  array : bool;
  checked : bool;
}.

(** [current::FromString<uint64_t>]: zero if there is no number or it is too
    large; a minus sign wraps around, as [std::istream >> uint64_t] does. *)
Definition FromString_uint64 (s : bytes) : N :=
  let s := drop (leading_spaces s) s in
  let '(minus, s) := match s with
                     | "-"%char :: s' => (true, s')
                     | "+"%char :: s' => (false, s')
                     | _ => (false, s)
                     end in
  if starts_with_digit s then
    let z := read_digits 0 s in
    if z <? 2 ^ 64 then Z.to_N (if minus : bool then (- z) mod 2 ^ 64 else z) else 0%N
  else 0%N.

(** [std::chrono::microseconds(x)] of a [uint64_t]. *)
Definition to_microseconds (n : N) : microseconds :=
  let z := Z.of_N n in if z <? 2 ^ 63 then z else z - 2 ^ 64.

Definition has (key : string) (r : Request) : bool := bool_decide (is_Some (query r !! str key)).
Definition get (key : string) (r : Request) : bytes := default [] (query r !! str key).
Definition get_number (key : string) (r : Request) : N := if has key r then FromString_uint64 (get key r) else 0%N.

Definition schema_prefix : bytes := str "schema.".

(** The schema format of the path argument, if it is a request for a schema. *)
Definition requested_schema (r : Request) : option bytes :=
  if has "schema" r then Some (get "schema" r)
  else match url_path_args r with
       | [arg] => Some (if bool_decide (take (length schema_prefix) arg = schema_prefix)
                        then drop (length schema_prefix) arg else arg)
       | _ => None
       end.

Definition ParsePubSubHTTPRequest (r : Request) : ParsedHTTPRequestParams :=
  let tail := if has "tail" r
              then let t := FromString_uint64 (get "tail" r) in if (t =? 0)%N then no_index else t
              else 0%N in
  {| size_only := has "sizeonly" r || bool_decide (method r = str "HEAD");
     terminate_requested := has "terminate" r;
     terminate_id := if has "terminate" r then get "terminate" r else [];
     schema_requested := bool_decide (is_Some (requested_schema r));
     schema_format := default [] (requested_schema r);
     recent := to_microseconds (get_number "recent" r);
     since := to_microseconds (get_number "since" r);
     param_i := get_number "i" r;
     param_tail := tail;
     param_n := get_number "n" r;
     period := to_microseconds (get_number "period" r);
     no_wait := has "nowait" r;
     stop_after_bytes := get_number "stop_after_bytes" r;
     entries_only := has "entries_only" r || has "array" r;
     array := has "array" r;
     checked := has "checked" r |}.

(** ** Where to subscribe from *)

(** The part of [ServeDataViaHTTP] that computes [begin_idx] and
    [from_timestamp]; [index_by_timestamp] is the first component of the
    persister's [IndexRangeByTimestampRange].  The third result is the [tail]
    the endpoint is created with. *)
Definition begin_of_range (p : ParsedHTTPRequestParams) (request_timestamp : microseconds) (stream_size : N)
    (index_by_timestamp : microseconds → N) : N * microseconds * N :=
  let '(begin_idx, from_timestamp, tail) :=
    if negb (param_tail p =? 0)%N then
      if (param_tail p =? no_index)%N then (stream_size, 0, stream_size)
      else
        let idx_by_tail := if (param_tail p <? stream_size)%N then (stream_size - param_tail p)%N else 0%N in
        (N.max (param_i p) idx_by_tail, 0, param_tail p)
    else if 0 <? recent p then (0%N, request_timestamp - recent p, param_tail p)
    else if 0 <? since p then (0%N, since p, param_tail p)
    else (param_i p, 0, param_tail p) in
  let begin_idx :=
    if 0 <? from_timestamp
    then N.max begin_idx (N.min (index_by_timestamp from_timestamp) stream_size)
    else begin_idx in
  (begin_idx, from_timestamp, tail).

(** ** The subscriber *)

Section Endpoint.
Context {E : Type} `{!LogCodec E}.

Record PubSubHTTPEndpointImpl := mkEndpoint {
  params_ : ParsedHTTPRequestParams;
  tail_ : N;                                    (* [params_.tail], which may have been adjusted *)
  time_to_terminate_ : bool;
  output_started_ : bool;
  http_response_ : bytes;                       (* what was sent *)
  current_response_size_ : N;
  serving_ : bool;
  from_timestamp_ : microseconds;
  to_timestamp_ : microseconds;
  n_ : N;
}.

Definition make_endpoint (p : ParsedHTTPRequestParams) (tail : N) (request_timestamp : microseconds)
    : PubSubHTTPEndpointImpl :=
  let '(serving, from) := if 0 <? recent p then (false, request_timestamp - recent p)
                          else if 0 <? since p then (false, since p) else (true, 0) in
  mkEndpoint p tail false false [] 0 serving from 0 (param_n p).

Definition send (text : bytes) (s : PubSubHTTPEndpointImpl) : PubSubHTTPEndpointImpl :=
  mkEndpoint (params_ s) (tail_ s) (time_to_terminate_ s) (output_started_ s) (http_response_ s ++ text)
    (current_response_size_ s) (serving_ s) (from_timestamp_ s) (to_timestamp_ s) (n_ s).

Definition start_output (s : PubSubHTTPEndpointImpl) : PubSubHTTPEndpointImpl :=
  mkEndpoint (params_ s) (tail_ s) (time_to_terminate_ s) true (http_response_ s)
    (current_response_size_ s) (serving_ s) (from_timestamp_ s) (to_timestamp_ s) (n_ s).

Definition set_serving (serving : bool) (s : PubSubHTTPEndpointImpl) : PubSubHTTPEndpointImpl :=
  mkEndpoint (params_ s) (tail_ s) (time_to_terminate_ s) (output_started_ s) (http_response_ s)
    (current_response_size_ s) serving (from_timestamp_ s) (to_timestamp_ s) (n_ s).

Definition set_to (t : microseconds) (s : PubSubHTTPEndpointImpl) : PubSubHTTPEndpointImpl :=
  mkEndpoint (params_ s) (tail_ s) (time_to_terminate_ s) (output_started_ s) (http_response_ s)
    (current_response_size_ s) (serving_ s) (from_timestamp_ s) t (n_ s).

Definition set_n (n : N) (s : PubSubHTTPEndpointImpl) : PubSubHTTPEndpointImpl :=
  mkEndpoint (params_ s) (tail_ s) (time_to_terminate_ s) (output_started_ s) (http_response_ s)
    (current_response_size_ s) (serving_ s) (from_timestamp_ s) (to_timestamp_ s) n.

Definition add_size (text : bytes) (s : PubSubHTTPEndpointImpl) : PubSubHTTPEndpointImpl :=
  mkEndpoint (params_ s) (tail_ s) (time_to_terminate_ s) (output_started_ s) (http_response_ s)
    (current_response_size_ s + N.of_nat (length text))%N (serving_ s) (from_timestamp_ s) (to_timestamp_ s) (n_ s).

(** [last.index - current.index], on [uint64_t]. *)
Definition u64_sub (a b : N) : N := ((a + 2 ^ 64 - b) mod 2 ^ 64)%N.

(** Whether an entry satisfies [i], [tail], [since] and [recent]; the time stamp
    is asked for only when it is needed. *)
Definition starts_serving (current_index : N) (current_us : outcome persistence_error microseconds) (last : idxts_t)
    (s : PubSubHTTPEndpointImpl) : outcome persistence_error bool :=
  if (param_i (params_ s) <=? current_index)%N &&
     ((tail_ s =? 0)%N || (u64_sub (index last) current_index <? tail_ s)%N)
  then if from_timestamp_ s =? 0 then Ok true else t ← current_us; Ok (from_timestamp_ s <=? t)
  else Ok false.

(** The text around an entry in an array. *)
Definition send_entry (text : bytes) (s : PubSubHTTPEndpointImpl) : PubSubHTTPEndpointImpl :=
  let s := add_size text s in
  let s := if array (params_ s)
           then if output_started_ s then send ("," :: [newline])%char s else start_output (send ("[" :: [newline])%char s)
           else s in
  send text s.

(** The serving branch. *)
Definition serve_entry (current_index : N) (current_us : outcome persistence_error microseconds) (text : bytes)
    (last : idxts_t) (s : PubSubHTTPEndpointImpl) : outcome persistence_error (PubSubHTTPEndpointImpl * EntryResponse) :=
  to ← (if negb (period (params_ s) =? 0) && (to_timestamp_ s =? 0)
        then t ← current_us; Ok (t + period (params_ s)) else Ok (to_timestamp_ s));
  let s := set_to to s in
  exceeded ← (if negb (to =? 0) then t ← current_us; Ok (to <? t) else Ok false);
  if exceeded : bool then Ok (s, Done)
  else
    let s := send_entry text s in
    if negb (stop_after_bytes (params_ s) =? 0)%N && (stop_after_bytes (params_ s) <=? current_response_size_ s)%N
    then Ok (s, Done)
    else
      let '(s, out_of_n) := if negb (n_ s =? 0)%N then (set_n (n_ s - 1)%N s, (n_ s =? 1)%N) else (s, false) in
      if out_of_n then Ok (s, Done)
      else Ok (s, if (current_index =? index last)%N && no_wait (params_ s) then Done else More).

(** The body of the lambda in both [operator()] for entries. *)
Definition entry_response (current_index : N) (current_us : outcome persistence_error microseconds) (text : bytes)
    (last : idxts_t) (s : PubSubHTTPEndpointImpl) : outcome persistence_error (PubSubHTTPEndpointImpl * EntryResponse) :=
  if time_to_terminate_ s then Ok (s, Done)
  else
    serving ← (if serving_ s then Ok true else starts_serving current_index current_us last s);
    let s := set_serving serving s in
    if serving : bool then serve_entry current_index current_us text last s
    else Ok (s, if (current_index =? index last)%N && no_wait (params_ s) then Done else More).

(** An array is closed when the subscription is done. *)
Definition close_array (r : PubSubHTTPEndpointImpl * EntryResponse) : PubSubHTTPEndpointImpl * EntryResponse :=
  let '(s, result) := r in
  if bool_decide (result = Done) && array (params_ s)
  then (send (if output_started_ s then "]" :: [newline] else "[" :: "]" :: [newline])%char s, result)
  else r.

(** [operator()(const E&, idxts_t, idxts_t)]. *)
Definition entry_text (p : ParsedHTTPRequestParams) (current : idxts_t) (entry : E) : bytes :=
  (if entries_only p then json_entry entry else log_line current entry) ++ [newline].

Definition on_checked_entry (entry : E) (current last : idxts_t) (s : PubSubHTTPEndpointImpl)
    : outcome persistence_error (PubSubHTTPEndpointImpl * EntryResponse) :=
  close_array <$> entry_response (index current) (Ok (us current)) (entry_text (params_ s) current entry) last s.

(** [operator()(const std::string&, uint64_t, idxts_t)]; [parse_ts_only] is
    [ParseJSON<ts_only_t>]. *)
Definition raw_text (p : ParsedHTTPRequestParams) (raw_log_line : bytes) : bytes :=
  (if entries_only p
   then match split_at tab raw_log_line with Some (_, after) => after | None => raw_log_line end
   else raw_log_line) ++ [newline].

Definition raw_us (parse_ts_only : bytes → option microseconds) (raw_log_line : bytes)
    : outcome persistence_error microseconds :=
  json_parse (parse_ts_only (match split_at tab raw_log_line with Some (before, _) => before | None => raw_log_line end)).

Definition on_raw_entry (parse_ts_only : bytes → option microseconds) (raw_log_line : bytes) (current_index : N)
    (last : idxts_t) (s : PubSubHTTPEndpointImpl)
    : outcome persistence_error (PubSubHTTPEndpointImpl * EntryResponse) :=
  close_array <$> entry_response current_index (raw_us parse_ts_only raw_log_line) (raw_text (params_ s) raw_log_line) last s.

(** [operator()(std::chrono::microseconds)]; [json_ts_only] is [JSON<J>(ts_only_t)]. *)
Definition on_head_update (json_ts_only : microseconds → bytes) (t : microseconds) (s : PubSubHTTPEndpointImpl)
    : PubSubHTTPEndpointImpl * EntryResponse :=
  if time_to_terminate_ s then (s, Done)
  else
    let s := if negb (serving_ s) && (0 <? from_timestamp_ s) && (from_timestamp_ s <=? t) then set_serving true s else s in
    if serving_ s then
      let s := if negb (period (params_ s) =? 0) && (to_timestamp_ s =? 0) then set_to (t + period (params_ s)) s else s in
      if negb (to_timestamp_ s =? 0) && (to_timestamp_ s <? t) then (s, Done)
      else (if negb (array (params_ s)) && negb (entries_only (params_ s))
            then send (json_ts_only t ++ [newline]) s else s, More)
    else (s, More).

Definition on_no_more_entries (s : PubSubHTTPEndpointImpl) : EntryResponse :=
  if time_to_terminate_ s || no_wait (params_ s) then Done else More.

Definition on_terminate_request (message : bytes) (s : PubSubHTTPEndpointImpl)
    : PubSubHTTPEndpointImpl * TerminationResponse :=
  (if array (params_ s) && output_started_ s
   then send (("," :: newline :: message) ++ ["]"; newline])%char s else send message s, Terminate).

(** The endpoint is a subscriber of the stream. *)
Definition endpoint_subscriber (json_ts_only : microseconds → bytes) (message : bytes)
    : Subscriber E PubSubHTTPEndpointImpl :=
  mkSubscriber E PubSubHTTPEndpointImpl
    (λ e current last s, match on_checked_entry e current last s with Ok r => r | Throw _ => (s, Done) end)
    (on_head_update json_ts_only) on_no_more_entries (on_terminate_request message).
End Endpoint.

(** ** Serving a request from a stream that is not being published to *)

Section Serve.
Context {E : Type} `{!LogCodec E}.
Implicit Types (p : ParsedHTTPRequestParams) (s : PubSubHTTPEndpointImpl) (xs : list (idxts_t * E)) (l : log E).

(** The calls the subscriber thread makes for entries that are there already. *)
Fixpoint run_entries (last : idxts_t) (s : PubSubHTTPEndpointImpl) xs
    : outcome persistence_error (PubSubHTTPEndpointImpl * EntryResponse) :=
  match xs with
  | [] => Ok (s, More)
  | (current, e) :: xs =>
      '(s, r) ← on_checked_entry e current last s;
      if bool_decide (r = Done) then Ok (s, Done) else run_entries last s xs
  end.

(** [ServeDataViaHTTP] for the data of the stream; [None] is "204 No Content". *)
Definition serve_data p (request_timestamp : microseconds) l : outcome persistence_error (option bytes) :=
  let '(begin_idx, _, tail) := begin_of_range p request_timestamp (log_size l)
    (λ t, (index_range (log_entries l).*1 t 0).1) in
  if no_wait p && (log_size l <=? begin_idx)%N then Ok None
  else
    last ← log_last l;
    '(s, _) ← run_entries last (make_endpoint p tail request_timestamp) (drop (N.to_nat begin_idx) (numbered l));
    Ok (Some (http_response_ s)).

(** *** What the parameters ask for *)

Definition from_of p (request_timestamp : microseconds) : microseconds :=
  if 0 <? recent p then request_timestamp - recent p else if 0 <? since p then since p else 0.

(** All the constraints on the beginning of the range, for one entry. *)
Definition selects p (request_timestamp : microseconds) (size : N) (x : idxts_t * E) : bool :=
  (param_i p <=? index x.1)%N &&
  ((param_tail p =? 0)%N || (negb (param_tail p =? no_index)%N && (size <=? index x.1 + param_tail p)%N)) &&
  (from_of p request_timestamp <=? us x.1).

Definition selected p (request_timestamp : microseconds) l : list (idxts_t * E) :=
  List.filter (selects p request_timestamp (log_size l)) (numbered l).

(** [n] entries at most, if it is given. *)
Definition limit (n : N) xs : list (idxts_t * E) := if (n =? 0)%N then xs else take (N.to_nat n) xs.

(** The body of the response with these entries, given whether something was
    sent already. *)
Fixpoint body_from p (started : bool) xs : bytes :=
  match xs with
  | [] => if array p then (if started then "]" :: [newline] else "[" :: "]" :: [newline])%char else []
  | (i, e) :: xs =>
      (if array p then (if started then "," :: [newline] else "[" :: [newline])%char else []) ++
      entry_text p i e ++ body_from p (array p || started) xs
  end.

(** *** One entry *)

Definition plain p : Prop := no_wait p = true ∧ period p = 0 ∧ stop_after_bytes p = 0%N.

(** The endpoint has sent what it was asked to and goes on. *)
Definition running p s : Prop := params_ s = p ∧ time_to_terminate_ s = false ∧ to_timestamp_ s = 0.

Definition served (text : bytes) s : PubSubHTTPEndpointImpl := set_n (n_ s - 1)%N (send_entry text (set_serving true s)).

Lemma send_entry_keeps text s :
  params_ (send_entry text s) = params_ s ∧ n_ (send_entry text s) = n_ s ∧ tail_ (send_entry text s) = tail_ s ∧
  from_timestamp_ (send_entry text s) = from_timestamp_ s ∧ serving_ (send_entry text s) = serving_ s ∧
  to_timestamp_ (send_entry text s) = to_timestamp_ s ∧ time_to_terminate_ (send_entry text s) = time_to_terminate_ s ∧
  output_started_ (send_entry text s) = array (params_ s) || output_started_ s ∧
  http_response_ (send_entry text s) = http_response_ s ++
    (if array (params_ s) then (if output_started_ s then "," :: [newline] else "[" :: [newline])%char else []) ++ text.
Proof.
  unfold send_entry. destruct s as [sp tl ttt o resp sz srv fr to n]. simpl.
  destruct (array sp), o; simpl; rewrite <- ?app_assoc; done.
Qed.

Lemma serve_entry_plain p current_index current_us text last s :
  plain p → running p s →
  serve_entry current_index current_us text last s =
    Ok (set_n (n_ s - 1)%N (send_entry text s),
        if (n_ s =? 1)%N || (current_index =? index last)%N then Done else More).
Proof.
  intros (Hw & Hp & Hs) (Hpar & Ht & Hto). unfold serve_entry. rewrite Hpar, Hp, Hto. cbn [negb andb Z.eqb mbind outcome_bind].
  replace (set_to 0 s) with s by (destruct s; simpl in *; by subst).
  destruct (send_entry_keeps text s) as (Hpar' & Hn & _). rewrite Hpar', Hpar, Hs. cbn [negb N.eqb andb]. rewrite Hn.
  destruct (N.eqb_spec (n_ s) 0) as [Hz|Hz]; cbn [negb].
  - rewrite Hpar', Hpar, Hw, Hz, andb_true_r. cbn [N.eqb orb]. f_equal. f_equal.
    rewrite Hz in Hn. destruct (send_entry text s). simpl in *. by subst.
  - destruct (n_ s =? 1)%N; [done|]. cbn [orb params_ set_n]. by rewrite Hpar', Hpar, Hw, andb_true_r.
Qed.

Lemma entry_served p e (current last : idxts_t) s :
  plain p → running p s → serving_ s = true →
  on_checked_entry e current last s =
    Ok (close_array (served (entry_text p current e) s,
                     if (n_ s =? 1)%N || (index current =? index last)%N then Done else More)).
Proof.
  intros Hp Hr Hserv. unfold on_checked_entry, entry_response. destruct Hr as (Hpar & Ht & Hto).
  rewrite Ht, Hserv. cbn [mbind outcome_bind]. rewrite (serve_entry_plain p) by done. by rewrite Hpar.
Qed.

(** *** All the entries *)

(** The last entry of the list, and no other, is the last of the stream. *)
Fixpoint ends_at (last : idxts_t) xs : Prop :=
  match xs with
  | [] => False
  | [x] => index x.1 = index last
  | x :: xs => index x.1 ≠ index last ∧ ends_at last xs
  end.

Lemma close_array_done p s :
  params_ s = p →
  ∃ s', close_array (s, Done) = (s', Done) ∧ http_response_ s' = http_response_ s ++ body_from p (output_started_ s) [].
Proof.
  intros Hp. unfold close_array. rewrite bool_decide_eq_true_2, Hp by done. simpl.
  destruct (array p); simpl; eexists; (split; [done|]); [done|by rewrite app_nil_r].
Qed.

Lemma close_array_more s : close_array (s, More) = (s, More).
Proof. done. Qed.

Lemma served_running p text s :
  running p s → running p (served text s) ∧ serving_ (served text s) = true ∧ n_ (served text s) = (n_ s - 1)%N ∧
  output_started_ (served text s) = array p || output_started_ s ∧
  http_response_ (served text s) = http_response_ s ++
    (if array p then (if output_started_ s then "," :: [newline] else "[" :: [newline])%char else []) ++ text.
Proof.
  intros (Hp & Ht & Hto). unfold served, running. pose proof (send_entry_keeps text (set_serving true s)) as Hk.
  revert Hk. generalize (send_entry text (set_serving true s)). intros x. simpl. rewrite Hp, Ht, Hto.
  intros (-> & _ & _ & _ & -> & -> & -> & -> & ->). done.
Qed.

Lemma limit_cons n x xs : n ≠ 1%N → limit n (x :: xs) = x :: limit (n - 1) xs.
Proof.
  intros Hn. unfold limit. destruct (N.eqb_spec n 0) as [->|Hz]; [done|].
  destruct (N.eqb_spec (n - 1) 0); [lia|]. replace (N.to_nat n) with (S (N.to_nat (n - 1))) by lia. done.
Qed.

Lemma limit_last n x xs : n = 1%N ∨ xs = [] → limit n (x :: xs) = [x].
Proof.
  unfold limit. intros [->| ->]; [done|]. destruct (N.eqb_spec n 0); [done|].
  replace (N.to_nat n) with (S (N.to_nat (n - 1))) by lia. simpl. by rewrite take_nil.
Qed.

Lemma run_serving p last s xs :
  plain p → running p s → serving_ s = true → ends_at last xs →
  ∃ s', run_entries last s xs = Ok (s', Done) ∧
    http_response_ s' = http_response_ s ++ body_from p (output_started_ s) (limit (n_ s) xs).
Proof.
  intros Hp. revert s. induction xs as [|[i e] xs IH]; intros s Hr Hserv Hend; [done|]. simpl run_entries.
  rewrite (entry_served p) by done. cbn [mbind outcome_bind].
  destruct (served_running p (entry_text p i e) s Hr) as (Hr' & Hserv' & Hn' & Ho' & Hresp').
  destruct ((n_ s =? 1)%N || (index i =? index last)%N) eqn:Hdone.
  - destruct (close_array_done p (served (entry_text p i e) s)) as (s' & -> & Hresp); [apply Hr'|]. simpl.
    exists s'. split; [done|]. rewrite Hresp, Hresp', Ho', limit_last; [by rewrite <- !app_assoc|].
    apply orb_true_iff in Hdone as [Hn%N.eqb_eq|Hi%N.eqb_eq]; [by left|right].
    destruct xs; [done|]. by destruct Hend as [Hne _].
  - apply orb_false_iff in Hdone as [Hn%N.eqb_neq Hi%N.eqb_neq]. rewrite close_array_more.
    rewrite bool_decide_eq_false_2 by done.
    destruct (IH (served (entry_text p i e) s)) as (s' & Hrun & Hresp); [done|done| |].
    { destruct xs; [done|]. by destruct Hend. }
    exists s'. split; [done|]. rewrite Hresp, Hresp', Ho', Hn', limit_cons by done. simpl. by rewrite <- !app_assoc.
Qed.

(** The test an endpoint that is not serving yet makes. *)
Definition passes s (last : idxts_t) (x : idxts_t * E) : bool :=
  (param_i (params_ s) <=? index x.1)%N &&
  ((tail_ s =? 0)%N || (u64_sub (index last) (index x.1) <? tail_ s)%N) &&
  ((from_timestamp_ s =? 0) || (from_timestamp_ s <=? us x.1)).

(** Once an entry passes, so do the ones after it. *)
Fixpoint suffix_closed (P : idxts_t * E → bool) xs : Prop :=
  match xs with
  | [] => True
  | x :: xs => (P x = true → Forall (λ y, P y = true) xs) ∧ suffix_closed P xs
  end.

Lemma entry_waiting p e (current last : idxts_t) s :
  plain p → running p s → serving_ s = false →
  on_checked_entry e current last s =
    if passes s last (current, e) then on_checked_entry e current last (set_serving true s)
    else Ok (close_array (s, if (index current =? index last)%N then Done else More)).
Proof.
  intros (Hw & _) (Hpar & Ht & _) Hserv. unfold on_checked_entry, entry_response. simpl time_to_terminate_.
  simpl serving_. rewrite Ht, Hserv. unfold starts_serving, passes. simpl fst.
  destruct (_ && _); simpl.
  - destruct (from_timestamp_ s =? 0); simpl; [done|]. destruct (from_timestamp_ s <=? us current); simpl; [done|].
    rewrite Hpar, Hw, andb_true_r. by replace (set_serving false s) with s by (destruct s; simpl in *; by subst).
  - rewrite Hpar, Hw, andb_true_r. by replace (set_serving false s) with s by (destruct s; simpl in *; by subst).
Qed.

Lemma run_waiting p last s xs :
  plain p → running p s → serving_ s = false → ends_at last xs → suffix_closed (passes s last) xs →
  ∃ s', run_entries last s xs = Ok (s', Done) ∧
    http_response_ s' = http_response_ s ++
      body_from p (output_started_ s) (limit (n_ s) (List.filter (passes s last) xs)).
Proof.
  intros Hp Hr Hserv. induction xs as [|[i e] xs IH]; intros Hend Hcl; [done|].
  destruct Hcl as [Hall Hclosed]. destruct (passes s last (i, e)) eqn:Hpass; simpl List.filter; rewrite Hpass.
  - rewrite filter_all by auto.
    assert (run_entries last s ((i, e) :: xs) = run_entries last (set_serving true s) ((i, e) :: xs)) as ->.
    { simpl. by rewrite (entry_waiting p), Hpass. }
    by apply (run_serving p last (set_serving true s)).
  - simpl run_entries. rewrite (entry_waiting p), Hpass by done. cbn [mbind outcome_bind].
    destruct (N.eqb_spec (index i) (index last)) as [Hlast|Hlast].
    + destruct (close_array_done p s) as (s' & -> & Hresp); [apply Hr|]. exists s'. split; [done|].
      assert (xs = []) as ->. { destruct xs; [done|]. by destruct Hend. }
      rewrite Hresp. simpl. unfold limit. by destruct (n_ s =? 0)%N; rewrite ?take_nil.
    + rewrite close_array_more. rewrite bool_decide_eq_false_2 by done. apply IH; [|done].
      destruct xs; [done|]. by destruct Hend.
Qed.
(** *** The range of the log *)

(** Later in the log: a greater index and a later time. *)
Definition later (x y : idxts_t * E) : Prop := (index x.1 < index y.1)%N ∧ us x.1 < us y.1.

Lemma numbered_from_later k (es : list (microseconds * E)) :
  StronglySorted (λ x y, x < y) es.*1 →
  StronglySorted later (numbered_from k es) ∧ Forall (λ x, (N.of_nat k <= index x.1)%N) (numbered_from k es).
Proof.
  revert k. induction es as [|[t e] es IH]; intros k Hs; [split; constructor|].
  rewrite fmap_cons in Hs. apply StronglySorted_inv in Hs as [Hs Ht]. rewrite numbered_from_cons. destruct (IH (S k) Hs) as [Hlater Hge].
  rewrite <- (numbered_from_times (S k)) in Ht. apply (proj1 (Forall_fmap _ _ _)) in Ht.
  split; constructor; simpl; [done| |lia|].
  - eapply Forall_impl; [exact (proj2 (Forall_and _ _) (conj Hge Ht))|]. intros x [H1 H2]. unfold later. simpl in *. split; [lia|done].
  - eapply Forall_impl; [exact Hge|]. simpl. lia.
Qed.

Lemma later_drop n xs : StronglySorted later xs → StronglySorted later (drop n xs).
Proof. intros Hs. revert n. induction Hs; intros [|n]; simpl; auto using StronglySorted. Qed.

Lemma later_suffix_closed (P : idxts_t * E → bool) xs :
  StronglySorted later xs → (∀ x y, later x y → x ∈ xs → y ∈ xs → P x = true → P y = true) → suffix_closed P xs.
Proof.
  induction 1 as [|x xs Hs IH Hx]; intros HP; [done|]. split.
  - intros Hpx. apply Forall_forall. intros y Hy. rewrite Forall_forall in Hx. apply (HP x y); [auto|set_solver..|done].
  - apply IH. intros a b Hab Ha Hb. apply HP; [done|set_solver..].
Qed.

Lemma later_ends_at xs x (last_ : idxts_t) :
  StronglySorted later xs → last xs = Some x → index x.1 = index last_ → ends_at last_ xs.
Proof.
  intros Hs Hlast Hx. induction Hs as [|a xs Hs IH Ha]; [done|]. destruct xs as [|b xs]; [by simplify_eq/=|].
  split; [|by apply IH]. rewrite Forall_forall in Ha.
  destruct (Ha x) as [Hlt _]; [|lia]. by apply last_Some_elem_of.
Qed.

(** An entry of the log: its index is its position, its time is not negative. *)
Lemma numbered_elem l x :
  log_wf l → x ∈ numbered l →
  (index x.1 < log_size l)%N ∧ (log_entries l).*1 !! N.to_nat (index x.1) = Some (us x.1) ∧ 0 ≤ us x.1.
Proof.
  intros (_ & Hf & _) [i Hi]%list_elem_of_lookup. rewrite numbered_lookup in Hi.
  destruct (log_entries l !! i) as [[t e]|] eqn:He; simplify_eq/=. pose proof (lookup_lt_Some _ _ _ He).
  rewrite Nat2N.id, list_lookup_fmap, He. split_and!; [unfold log_size; lia|done|].
  rewrite Forall_forall in Hf. apply (Hf t). apply list_elem_of_fmap. exists (t, e). split; [done|].
  by apply list_elem_of_lookup_2 with i.
Qed.

Lemma before_index_range l from x :
  log_wf l → x ∈ numbered l →
  (index x.1 < N.min (index_range (log_entries l).*1 from 0).1 (log_size l))%N → us x.1 < from.
Proof.
  intros Hwf Hx Hlt. destruct (numbered_elem l x Hwf Hx) as (Hsz & Hts & _).
  set (ts := (log_entries l).*1) in *. assert (log_size l = N.of_nat (length ts)) as Hlen.
  { unfold ts. by rewrite length_fmap. }
  unfold index_range in Hlt. simpl in Hlt.
  pose proof (partition_point_take (λ t, t <? from) ts) as Ht. rewrite Forall_forall in Ht.
  apply Z.ltb_lt, (Ht (us x.1)). apply list_elem_of_lookup_2 with (N.to_nat (index x.1)).
  rewrite lookup_take_lt; [done|]. destruct (Nat.eqb_spec (partition_point (λ t, t <? from) ts) (length ts)); lia.
Qed.

(** The first index, the start of the time range and the tail of a request. *)
Abbreviation range p ts l := (begin_of_range p ts (log_size l) (λ t, (index_range (log_entries l).*1 t 0).1)).

Lemma before_range p ts l x :
  log_wf l → x ∈ numbered l → (index x.1 < (range p ts l).1.1)%N → selects p ts (log_size l) x = false.
Proof.
  intros Hwf Hx. pose proof (before_index_range l (from_of p ts) x Hwf Hx) as Hbefore.
  unfold selects, begin_of_range. unfold from_of in *. intros Hlt.
  destruct (N.eqb_spec (param_tail p) 0); cbn [negb] in Hlt.
  - destruct (0 <? recent p); [|destruct (0 <? since p) eqn:Hsince]; cbn [fst snd] in Hlt.
    + destruct (Z.ltb_spec 0 (ts - recent p)); cbn [fst snd] in Hlt; lia.
    + rewrite Hsince in Hlt. lia.
    + simpl in Hlt. by rewrite (proj2 (N.leb_gt _ _) Hlt).
  - destruct (N.eqb_spec (param_tail p) no_index); [cbn; by rewrite andb_false_r|].
    destruct (N.leb_spec (param_i p) (index x.1)); [|done].
    destruct (N.leb_spec (log_size l) (index x.1 + param_tail p)); [|done].
    destruct (N.ltb_spec (param_tail p) (log_size l)); cbn [fst snd Z.ltb Z.compare] in Hlt; lia.
Qed.

(** From there on an endpoint that serves at once is right to, ... *)
Lemma range_serving p ts l x :
  log_wf l → x ∈ numbered l → ((range p ts l).1.1 <= index x.1)%N → recent p <= 0 → since p <= 0 →
  selects p ts (log_size l) x = true.
Proof.
  intros Hwf Hx. destruct (numbered_elem l x Hwf Hx) as (Hsz & _ & Hus). unfold selects, begin_of_range, from_of.
  intros Hge Hr Hs. destruct (Z.ltb_spec 0 (recent p)); [lia|]. destruct (Z.ltb_spec 0 (since p)); [lia|].
  rewrite (proj2 (Z.leb_le _ _) Hus), andb_true_r.
  destruct (N.eqb_spec (param_tail p) 0); cbn [negb fst snd Z.ltb Z.compare] in Hge.
  - by rewrite (proj2 (N.leb_le _ _) Hge).
  - destruct (N.eqb_spec (param_tail p) no_index); cbn [negb fst snd Z.ltb Z.compare] in Hge; [lia|].
    destruct (N.leb_spec (param_i p) (index x.1)); [|lia].
    destruct (N.leb_spec (log_size l) (index x.1 + param_tail p)); [done|].
    destruct (N.ltb_spec (param_tail p) (log_size l)); lia.
Qed.

(** ... and one that waits tests for what was asked. *)
Lemma range_waiting p ts l x (last_ : idxts_t) :
  log_wf l → log_fits l → x ∈ numbered l → ((range p ts l).1.1 <= index x.1)%N → index last_ = (log_size l - 1)%N →
  passes (make_endpoint p (range p ts l).2 ts) last_ x = selects p ts (log_size l) x.
Proof.
  intros Hwf Hfit Hx Hge Hlast. destruct (numbered_elem l x Hwf Hx) as (Hsz & _ & Hus).
  unfold passes, selects, make_endpoint, from_of. rewrite Hlast.
  assert (u64_sub (log_size l - 1) (index x.1) = log_size l - 1 - index x.1)%N as ->.
  { unfold u64_sub, log_fits, no_index in *.
    replace (log_size l - 1 + 2 ^ 64 - index x.1)%N with (log_size l - 1 - index x.1 + 1 * 2 ^ 64)%N by lia.
    rewrite N.Div0.mod_add. apply N.mod_small. lia. }
  assert ((((range p ts l).2 =? 0)%N || (log_size l - 1 - index x.1 <? (range p ts l).2)%N) =
          ((param_tail p =? 0)%N || (negb (param_tail p =? no_index)%N && (log_size l <=? index x.1 + param_tail p)%N))) as Htail.
  { revert Hge. unfold begin_of_range. destruct (N.eqb_spec (param_tail p) 0) as [Hz|Hz]; cbn [negb].
    - intros _. destruct (0 <? recent p); [|destruct (0 <? since p)]; cbn [snd]; by rewrite Hz.
    - destruct (N.eqb_spec (param_tail p) no_index); cbn [negb fst snd Z.ltb Z.compare]; [lia|].
      intros _. rewrite (proj2 (N.eqb_neq _ _) Hz). cbn [orb andb].
      destruct (N.leb_spec (log_size l) (index x.1 + param_tail p)), (N.ltb_spec (log_size l - 1 - index x.1) (param_tail p)); lia. }
  assert (∀ t, (t =? 0) || (t <=? us x.1) = (t <=? us x.1)) as Hfrom.
  { intros t. destruct (Z.eqb_spec t 0) as [->|]; [|done]. symmetry. by apply Z.leb_le. }
  destruct (0 <? recent p); [|destruct (0 <? since p)]; cbn [params_ tail_ from_timestamp_]; by rewrite Htail, Hfrom.
Qed.

Lemma elem_of_take_numbered l b x : x ∈ take (N.to_nat b) (numbered l) → x ∈ numbered l ∧ (index x.1 < b)%N.
Proof.
  intros [i [Hi Hlt]%lookup_take_Some]%list_elem_of_lookup. split; [by eapply list_elem_of_lookup_2|].
  rewrite numbered_lookup in Hi. destruct (log_entries l !! i); simplify_eq/=. lia.
Qed.

Lemma elem_of_drop_numbered l b x : x ∈ drop (N.to_nat b) (numbered l) → x ∈ numbered l ∧ (b <= index x.1)%N.
Proof.
  intros [i Hi]%list_elem_of_lookup. rewrite lookup_drop in Hi. split; [by eapply list_elem_of_lookup_2|].
  rewrite numbered_lookup in Hi. destruct (log_entries l !! _); simplify_eq/=. lia.
Qed.

(** What is asked for is at or after the first index. *)
Lemma selected_from_range p ts l :
  log_wf l →
  selected p ts l = List.filter (selects p ts (log_size l)) (drop (N.to_nat (range p ts l).1.1) (numbered l)).
Proof.
  intros Hwf. unfold selected. rewrite <- (take_drop (N.to_nat (range p ts l).1.1) (numbered l)) at 1.
  rewrite List.filter_app, Persistence.filter_none; [done|]. apply Forall_forall.
  intros x [Hx Hlt]%elem_of_take_numbered. by apply before_range.
Qed.

Lemma filter_ext_elem (P Q : idxts_t * E → bool) xs : (∀ x, x ∈ xs → P x = Q x) → List.filter P xs = List.filter Q xs.
Proof. intros HPQ. apply List.filter_ext_in. intros x Hx. apply HPQ. by apply list_elem_of_In. Qed.

(** Passing the test is kept by the later entries. *)
Lemma passes_later s (last_ : idxts_t) x y :
  later x y → (index y.1 <= index last_)%N → (index last_ < 2 ^ 64)%N → passes s last_ x = true → passes s last_ y = true.
Proof.
  unfold later, passes, u64_sub. intros [Hi Ht] Hy Hl.
  assert (∀ a, (a <= index last_)%N → ((index last_ + 2 ^ 64 - a) mod 2 ^ 64 = index last_ - a)%N) as Hsub.
  { intros a Ha. replace (index last_ + 2 ^ 64 - a)%N with (index last_ - a + 1 * 2 ^ 64)%N by lia.
    rewrite N.Div0.mod_add. apply N.mod_small. lia. }
  rewrite !Hsub by lia. rewrite !andb_true_iff, !orb_true_iff, !N.leb_le, !N.eqb_eq, !N.ltb_lt, !Z.eqb_eq, !Z.leb_le. lia.
Qed.

(** The endpoint is run on the entries from the first index on, and there are some. *)
Lemma run_range p ts l (last_ : idxts_t) :
  plain p → log_wf l → log_fits l → log_last l = Ok last_ → ((range p ts l).1.1 < log_size l)%N →
  ∃ s, run_entries last_ (make_endpoint p (range p ts l).2 ts) (drop (N.to_nat (range p ts l).1.1) (numbered l)) = Ok (s, Done) ∧
    http_response_ s = body_from p false (limit (param_n p) (selected p ts l)).
Proof.
  intros Hp Hwf Hfit Hlast Hb. rewrite selected_from_range by done.
  set (b := (range p ts l).1.1) in *. set (xs := drop (N.to_nat b) (numbered l)).
  assert (index last_ = log_size l - 1)%N as Hidx.
  { rewrite log_last_lookup in Hlast. unfold log_size. destruct (last (log_entries l)); simplify_eq/=. lia. }
  assert (StronglySorted later xs) as Hs. { apply later_drop, (numbered_from_later 0), Hwf. }
  assert (ends_at last_ xs) as Hend.
  { unfold log_last in Hlast. destruct (last (numbered l)) as [x|] eqn:Hx; simplify_eq/=.
    apply (later_ends_at xs x); [done| |done]. unfold xs. rewrite last_lookup, lookup_drop, length_drop, <- Hx, last_lookup. f_equal.
    unfold log_size in Hb. rewrite length_numbered. lia. }
  assert (∀ x, x ∈ xs → x ∈ numbered l ∧ (b <= index x.1)%N ∧ (index x.1 <= index last_)%N) as Hin.
  { intros x [Hx Hge]%elem_of_drop_numbered. destruct (numbered_elem l x Hwf Hx). split_and!; [done..|lia]. }
  set (s := make_endpoint p (range p ts l).2 ts).
  assert (running p s ∧ n_ s = param_n p ∧ output_started_ s = false ∧ http_response_ s = []) as (Hr & <- & Ho & Hresp).
  { unfold s, make_endpoint. by destruct (0 <? recent p), (0 <? since p). }
  destruct (serving_ s) eqn:Hserv.
  - rewrite (Persistence.filter_all (selects p ts (log_size l)) xs).
    + destruct (run_serving p last_ s xs) as (s' & Hrun & Hs'); [done..|]. exists s'.
      by rewrite Hs', Hresp, Ho.
    + apply Forall_forall. intros x (Hx & Hge & _)%Hin. apply range_serving; [done..| |];
        revert Hserv; unfold s, make_endpoint; destruct (Z.ltb_spec 0 (recent p)), (Z.ltb_spec 0 (since p)); done.
  - rewrite (filter_ext_elem _ (passes s last_)).
    + destruct (run_waiting p last_ s xs) as (s' & Hrun & Hs'); [done..| |].
      * apply later_suffix_closed; [done|]. intros x y Hxy _ (_ & _ & Hy)%Hin. apply passes_later; [done..|].
        unfold log_fits, no_index in Hfit. lia.
      * exists s'. by rewrite Hs', Hresp, Ho.
    + intros x (Hx & Hge & _)%Hin. symmetry. by apply range_waiting.
Qed.

(** Serving a request that does not wait: either the status says that there is
    nothing, which is then true, or the body holds what is asked for. *)
Lemma serve_data_spec p ts l :
  plain p → log_wf l → log_fits l →
  serve_data p ts l = Ok None ∧ selected p ts l = [] ∨
  serve_data p ts l = Ok (Some (body_from p false (limit (param_n p) (selected p ts l)))).
Proof.
  intros Hp Hwf Hfit. unfold serve_data. destruct (range p ts l) as [[b from] tl] eqn:Hrange.
  assert ((range p ts l).1.1 = b ∧ (range p ts l).2 = tl) as [Hb Htl] by by rewrite Hrange.
  pose proof Hp as (Hw & _). rewrite Hw. cbn [andb]. destruct (N.leb_spec (log_size l) b) as [Hle|Hlt].
  - left. split; [done|]. rewrite selected_from_range, drop_ge; [done| |done].
    rewrite length_numbered, Hb. unfold log_size in Hle. lia.
  - right. destruct (log_last l) as [last_|err] eqn:Hlast.
    + destruct (run_range p ts l last_) as (s & Hrun & Hs); [done..|by rewrite Hb|].
      rewrite Hb, Htl in Hrun. simpl. rewrite Hrun. simpl. by rewrite Hs.
    + exfalso. unfold log_size in Hlt. rewrite log_last_lookup in Hlast.
      destruct (log_entries l) as [|x es] eqn:He; simpl in *; [lia|]. by destruct (last (x :: es)) eqn:Hl; [|apply last_None in Hl].
Qed.

(** A raw log line is the text of its entry. *)
Lemma raw_text_log_line `{!LogCodecSound E} p (current : idxts_t) (entry : E) :
  raw_text p (log_line current entry) = entry_text p current entry.
Proof.
  unfold raw_text, entry_text, log_line. rewrite split_at_app by apply json_idxts_no_tab. by destruct (entries_only p).
Qed.

Lemma raw_us_log_line `{!LogCodecSound E} (parse_ts_only : bytes → option microseconds) (current : idxts_t) (entry : E) :
  (∀ i, parse_ts_only (json_idxts i) = Some (us i)) →
  raw_us parse_ts_only (log_line current entry) = Ok (us current).
Proof. intros Hts. unfold raw_us, log_line. rewrite split_at_app by apply json_idxts_no_tab. by rewrite Hts. Qed.
End Serve.
End PubSub.
