(* ===== verification/Transaction.v ===== *)
(** * Transactions: storage/transaction_policy.h, storage/storage.h and
      storage/persister/stream.h

    [Storage] is the state of a [StorageImpl]: its fields, their mutation
    journal, the stream the transactions are persisted in, and the flags of the
    transaction policy and of the stream persister.  The fields are any type with
    the interface [JournaledField], the stream any type with the interface
    [Persister]; the theorems use only [JournaledFieldSound] and
    [PersisterSound].

    The function the user passes to a transaction is a program ([body]): it reads
    the fields, makes mutating calls, sets meta fields, and ends by returning or
    by throwing.

    The invariant [storage_inv] says that the fields are what replaying the
    stream from the beginning gives; every transaction preserves it. *)

From Stdlib Require Import ZArith NArith Lia Sorted.
From stdpp Require Import base gmap list strings.
From S2P Require Import Prelude Time Journal Persistence.
Open Scope Z_scope.

(** ** The user's function *)

Section Body.
Context {C M R X : Type}.

Inductive body :=
| Return (r : R)
| RollbackWithValue (r : R)            (* CURRENT_STORAGE_THROW_ROLLBACK_WITH_VALUE *)
| RollbackWithNoValue                  (* CURRENT_STORAGE_THROW_ROLLBACK *)
| Raise (x : X)                        (* any other exception *)
| Look (k : C → body)
| Mutate (m : M) (k : body)
| SetMeta (key value : string) (k : body)
| EraseMeta (key : string) (k : body).

(** How a call of the function ended. *)
Inductive ended :=
| Returned (r : R)
| ThrewValue (r : R)
| ThrewNoValue
| Threw (x : X).
End Body.
Arguments body : clear implicits.
Arguments ended : clear implicits.

(** [Future<TransactionResult<R>>]: a value, or the exception set on the promise. *)
Inductive future (R X : Type) :=
| TransactionResult (commited : bool) (result : option R)
| ExceptionSet (x : X)
| RollbackWithValueNotCaught        (* [catch (...)] of the void overload *)
| StorageInGracefulShutdownException.
Arguments TransactionResult {R X} _ _.
Arguments ExceptionSet {R X} _.
Arguments RollbackWithValueNotCaught {R X}.
Arguments StorageInGracefulShutdownException {R X}.

(** [WasCommitted]. *)
Definition WasCommitted {R X} (f : future R X) : bool :=
  match f with TransactionResult c _ => c | _ => false end.

Inductive storage_error :=
| ReadWriteTransactionInFollowerStorageException
| StorageIsAlreadyMasterException
| ProcessExited (e : persistence_error)          (* [std::exit(-1)] in [PersistJournal] *)
| StreamFailed (e : persistence_error)
| StorageFault (f : fault).

Definition storage_check {A} (o : outcome fault A) : outcome storage_error A :=
  match o with Ok a => Ok a | Throw f => Throw (StorageFault f) end.

Definition stream_call {A} (o : outcome persistence_error A) : outcome storage_error A :=
  match o with Ok a => Ok a | Throw e => Throw (StreamFailed e) end.

Section Storage.
Context {C E RB M : Type} `{!JournaledField C E RB, !FieldCalls C E RB M}.
Context {CK : Type} `{!Clock CK}.
(** The stream of [EN] entries, some of which are transactions. *)
Context {P EN : Type} `{!Persister P EN}.
Context (of_transaction : Transaction E → EN) (as_transaction : EN → option (Transaction E)).

Record Storage := mkStorage {
  fields_ : C;
  journal_ : MutationJournal E RB;
  clock : CK;
  stream_ : P;
  publisher_used_ : bool;
  last_applied_timestamp_ : microseconds;
  destructing_ : bool;
}.

Definition set_stream (p : P) (s : Storage) : Storage :=
  mkStorage (fields_ s) (journal_ s) (clock s) p (publisher_used_ s) (last_applied_timestamp_ s) (destructing_ s).
Definition set_running (c : C) (j : MutationJournal E RB) (ck : CK) (s : Storage) : Storage :=
  mkStorage c j ck (stream_ s) (publisher_used_ s) (last_applied_timestamp_ s) (destructing_ s).

(** [SetLastAppliedTimestampFromLockedSection]. *)
Definition SetLastAppliedTimestampFromLockedSection (timestamp : microseconds) (s : Storage)
    : outcome fault Storage :=
  _ ← CURRENT_ASSERT (last_applied_timestamp_ s <? timestamp);
  Ok (mkStorage (fields_ s) (journal_ s) (clock s) (stream_ s) (publisher_used_ s) timestamp (destructing_ s)).

(** [PersistJournalFromLockedSection], in a build with the production clock. *)
Definition PersistJournalFromLockedSection (s : Storage) : outcome storage_error Storage :=
  let '(timestamp, ck) := Now (clock s) in
  let s := set_running (fields_ s) (journal_ s) ck s in
  let j := journal_ s in
  _ ← storage_check (CURRENT_ASSERT (publisher_used_ s));
  s ← match commit_log j with
      | [] => Ok s
      | _ =>
          _ ← storage_check (CURRENT_ASSERT (begin_us (transaction_meta j) <? end_us (transaction_meta j)));
          let transaction := mkTransaction (transaction_meta j) (commit_log j) in
          '(_, p) ← stream_call ((Publish (At timestamp) (of_transaction transaction) (clock s) (stream_ s)).2);
          storage_check (SetLastAppliedTimestampFromLockedSection timestamp (set_stream p s))
      end;
  Ok (set_running (fields_ s) (Clear (journal_ s)) (clock s) s).

(** [PersistJournal]: an exception of the stream ends the process. *)
Definition PersistJournal (s : Storage) : outcome storage_error Storage :=
  match PersistJournalFromLockedSection s with
  | Throw (StreamFailed e) => Throw (ProcessExited e)
  | r => r
  end.

Section Transactions.
Context {R X : Type}.

Fixpoint run_body (f : body C M R X) (ck : CK) (c : C) (j : MutationJournal E RB)
    : outcome fault (ended R X * CK * C * MutationJournal E RB) :=
  match f with
  | Return r => Ok (Returned r, ck, c, j)
  | RollbackWithValue r => Ok (ThrewValue r, ck, c, j)
  | RollbackWithNoValue => Ok (ThrewNoValue, ck, c, j)
  | Raise x => Ok (Threw x, ck, c, j)
  | Look k => run_body (k c) ck c j
  | Mutate m k => '(ck, c, j) ← exec id id m ck c j; run_body k ck c j
  | SetMeta key value k => run_body k ck c (SetTransactionMetaField key value j)
  | EraseMeta key k => run_body k ck c (EraseTransactionMetaField key j)
  end.

(** [journal_.Rollback()]. *)
Definition rollback_storage (ck : CK) (c : C) (j : MutationJournal E RB) (s : Storage) : Storage :=
  let '(c, j) := Rollback undo c j in set_running c j ck s.

(** Read-write transaction returning a value. *)
Definition TransactionFromLockedSection (f : body C M R X) (s : Storage)
    : outcome storage_error (Storage * future R X) :=
  _ ← storage_check (AssertEmpty (journal_ s));
  if destructing_ s then Ok (s, StorageInGracefulShutdownException)
  else
    let '(ck, j) := BeforeTransaction (clock s) (journal_ s) in
    '(res, ck, c, j) ← storage_check (run_body f ck (fields_ s) j);
    match res with
    | Returned f_result =>
        let '(ck, j) := AfterTransaction ck j in
        s ← PersistJournal (set_running c j ck s);
        Ok (s, TransactionResult true (Some f_result))
    | ThrewValue value => Ok (rollback_storage ck c j s, TransactionResult false (Some value))
    | ThrewNoValue => Ok (rollback_storage ck c j s, TransactionResult false None)
    | Threw x => Ok (rollback_storage ck c j s, ExceptionSet x)
    end.

(** Read-only transaction returning a value: [f] sees the fields as [const]. *)
Definition TransactionFromLockedSection_const (f : C → ended R X) (s : Storage)
    : outcome storage_error (future R X) :=
  _ ← storage_check (AssertEmpty (journal_ s));
  if destructing_ s then Ok StorageInGracefulShutdownException
  else Ok (match f (fields_ s) with
           | Returned f_result => TransactionResult true (Some f_result)
           | ThrewValue value => TransactionResult false (Some value)
           | ThrewNoValue => TransactionResult false None
           | Threw x => ExceptionSet x
           end).

(** Read-write two-step transaction.  [f2] is run on the result of [f1], with
    an effect on the world outside the storage ([W]); an exception it throws
    from within a handler is not caught. *)
Inductive two_step_result :=
| TwoStep (f : future () X)
| NotCaught (e : ended () X).

Definition TransactionFromLockedSection_two_step {W} (f1 : body C M R X) (f2 : R → W → W * ended R X)
    (s : Storage) (w : W) : outcome storage_error (Storage * W * two_step_result) :=
  _ ← storage_check (AssertEmpty (journal_ s));
  if destructing_ s then Ok (s, w, TwoStep StorageInGracefulShutdownException)
  else
    let '(ck, j) := BeforeTransaction (clock s) (journal_ s) in
    '(res, ck, c, j) ← storage_check (run_body f1 ck (fields_ s) j);
    (* how the [try] block ended: [PersistJournal] and [f2] are inside it *)
    '(s, w, res) ← match res with
      | Returned f1_result =>
          let '(ck, j) := AfterTransaction ck j in
          s ← PersistJournal (set_running c j ck s);
          let '(w, res) := f2 f1_result w in
          Ok (s, w, res)
      | _ => Ok (set_running c j ck s, w, res)
      end;
    let rolled_back := rollback_storage (clock s) (fields_ s) (journal_ s) s in
    match res with
    | Returned _ => Ok (s, w, TwoStep (TransactionResult true (Some ())))
    | ThrewValue value =>
        let '(w, res) := f2 value w in
        Ok (rolled_back, w,
            match res with
            | Returned _ => TwoStep (TransactionResult false None)
            | ThrewValue _ => NotCaught (ThrewValue ())
            | ThrewNoValue => NotCaught ThrewNoValue
            | Threw x => NotCaught (Threw x)
            end)
    | ThrewNoValue => Ok (rolled_back, w, TwoStep (TransactionResult false None))
    | Threw x => Ok (rolled_back, w, TwoStep (ExceptionSet x))
    end.

(** Read-only two-step transaction. *)
Definition TransactionFromLockedSection_two_step_const {W} (f1 : C → ended R X) (f2 : R → W → W * ended R X)
    (s : Storage) (w : W) : outcome storage_error (W * two_step_result) :=
  _ ← storage_check (AssertEmpty (journal_ s));
  if destructing_ s then Ok (w, TwoStep StorageInGracefulShutdownException)
  else
    let '(w, res) := match f1 (fields_ s) with
                     | Returned f1_result => f2 f1_result w
                     | res => (w, res)
                     end in
    match res with
    | Returned _ => Ok (w, TwoStep (TransactionResult true (Some ())))
    | ThrewValue value =>
        let '(w, res) := f2 value w in
        Ok (w, match res with
               | Returned _ => TwoStep (TransactionResult false None)
               | ThrewValue _ => NotCaught (ThrewValue ())
               | ThrewNoValue => NotCaught ThrewNoValue
               | Threw x => NotCaught (Threw x)
               end)
    | ThrewNoValue => Ok (w, TwoStep (TransactionResult false None))
    | Threw x => Ok (w, TwoStep (ExceptionSet x))
    end.

(** [StorageImpl::ReadWriteTransaction]. *)
Definition ReadWriteTransaction (f : body C M R X) (s : Storage) : outcome storage_error (Storage * future R X) :=
  if negb (publisher_used_ s) then Throw ReadWriteTransactionInFollowerStorageException
  else TransactionFromLockedSection f s.

Definition ReadWriteTransaction_two_step {W} (f1 : body C M R X) (f2 : R → W → W * ended R X) (s : Storage) (w : W)
    : outcome storage_error (Storage * W * two_step_result) :=
  if negb (publisher_used_ s) then Throw ReadWriteTransactionInFollowerStorageException
  else TransactionFromLockedSection_two_step f1 f2 s w.

(** [StorageImpl::ReadOnlyTransaction]. *)
Definition ReadOnlyTransaction (f : C → ended R X) (s : Storage) : outcome storage_error (future R X) :=
  TransactionFromLockedSection_const f s.
End Transactions.

(** Read-write transaction returning void: a rollback exception with a value
    is not one it knows. *)
Definition TransactionFromLockedSection_void {X} (f : body C M () X) (s : Storage)
    : outcome storage_error (Storage * future () X) :=
  _ ← storage_check (AssertEmpty (journal_ s));
  if destructing_ s then Ok (s, StorageInGracefulShutdownException)
  else
    let '(ck, j) := BeforeTransaction (clock s) (journal_ s) in
    '(res, ck, c, j) ← storage_check (run_body f ck (fields_ s) j);
    match res with
    | Returned _ =>
        let '(ck, j) := AfterTransaction ck j in
        s ← PersistJournal (set_running c j ck s);
        Ok (s, TransactionResult true (Some ()))
    | ThrewNoValue => Ok (rollback_storage ck c j s, TransactionResult false (Some ()))
    | ThrewValue _ => Ok (rollback_storage ck c j s, RollbackWithValueNotCaught)
    | Threw x => Ok (rollback_storage ck c j s, ExceptionSet x)
    end.

(** Read-only transaction returning void. *)
Definition TransactionFromLockedSection_void_const {X} (f : C → ended () X) (s : Storage)
    : outcome storage_error (future () X) :=
  _ ← storage_check (AssertEmpty (journal_ s));
  if destructing_ s then Ok StorageInGracefulShutdownException
  else Ok (match f (fields_ s) with
           | Returned _ => TransactionResult true (Some ())
           | ThrewNoValue => TransactionResult false (Some ())
           | ThrewValue _ => RollbackWithValueNotCaught
           | Threw x => ExceptionSet x
           end).

Definition GracefulShutdown (s : Storage) : Storage :=
  mkStorage (fields_ s) (journal_ s) (clock s) (stream_ s) (publisher_used_ s) (last_applied_timestamp_ s) true.

(** ** Replaying the stream *)

Definition ApplyMutationsFromLockedSectionOrConstructor (t : Transaction E) (timestamp : microseconds) (s : Storage)
    : outcome fault Storage :=
  SetLastAppliedTimestampFromLockedSection timestamp
    (set_running (foldl (λ c e, apply_event e c) (fields_ s) (mutations t)) (journal_ s) (clock s) s).

Fixpoint replay_records (records : list (idxts_t * EN)) (s : Storage) : outcome fault Storage :=
  match records with
  | [] => Ok s
  | (idx_ts, entry) :: records =>
      s ← match as_transaction entry with
          | Some t => ApplyMutationsFromLockedSectionOrConstructor t (us idx_ts) s
          | None => Ok s
          end;
      replay_records records s
  end.

Definition SyncReplayStreamFromLockedSectionOrConstructor (from_idx : N) (s : Storage)
    : outcome storage_error Storage :=
  records ← stream_call (Iterate from_idx no_index (stream_ s));
  storage_check (replay_records records s).

(** [CreateMasterStorageAtopExistingStream]: fresh fields, then the replay. *)
Definition CreateMasterStorage (init : C) (ck : CK) (stream : P) : outcome storage_error Storage :=
  SyncReplayStreamFromLockedSectionOrConstructor 0
    (mkStorage init (mkJournal TransactionMeta_init [] []) ck stream true (-1) false).

(** [CreateFollowingStorageAtopExistingStream], before its subscriber has run,
    together with [next_replay_index_]. *)
Definition CreateFollowingStorage (init : C) (ck : CK) (stream : P) : Storage * N :=
  (mkStorage init (mkJournal TransactionMeta_init [] []) ck stream false (-1) false, 0%N).

(** [StreamSubscriberImpl::operator()], called by the subscriber thread with
    each transaction. *)
Definition follow (current : idxts_t) (t : Transaction E) (sn : Storage * N) : outcome fault (Storage * N) :=
  s ← ApplyMutationsFromLockedSectionOrConstructor t (us current) sn.1;
  Ok (s, (index current + 1)%N).

(** The subscriber thread passes the records of the stream on, those that are
    transactions. *)
Fixpoint follow_records (records : list (idxts_t * EN)) (sn : Storage * N) : outcome fault (Storage * N) :=
  match records with
  | [] => Ok sn
  | (current, entry) :: records =>
      sn ← match as_transaction entry with Some t => follow current t sn | None => Ok sn end;
      follow_records records sn
  end.

Definition BecomeMasterStorage (sn : Storage * N) : outcome storage_error Storage :=
  let '(s, next_replay_index_) := sn in
  if publisher_used_ s then Throw StorageIsAlreadyMasterException
  else SyncReplayStreamFromLockedSectionOrConstructor next_replay_index_
         (mkStorage (fields_ s) (journal_ s) (clock s) (stream_ s) true (last_applied_timestamp_ s) (destructing_ s)).
End Storage.

Section Soundness.
Context {C E RB M : Type} `{JournaledFieldSound C E RB M}.
Context {CK : Type} `{!Clock CK, !StrictClock CK}.
Context {P EN : Type} `{PersisterSound P EN}.
Context (of_transaction : Transaction E → EN) (as_transaction : EN → option (Transaction E)).
Context (as_of : ∀ t, as_transaction (of_transaction t) = Some t).
(** The fields of a freshly constructed storage. *)
Context (init : C) (init_wf : fld_wf init).

Local Abbreviation storage := (@Storage C E RB CK P).
Implicit Types (s : storage) (l : log EN) (j : MutationJournal E RB).

(** ** The user's function *)

(** What running a body leaves behind: the journal has grown by a faithful
    record of the change of the fields. *)
Definition body_ok (ck : CK) (c : C) j (ck' : CK) (c' : C) (j' : MutationJournal E RB)
    (evs : list E) (rbs : list RB) : Prop :=
  commit_log j' = commit_log j ++ evs ∧ rollback_log j' = rollback_log j ++ rbs ∧
  begin_us (transaction_meta j') = begin_us (transaction_meta j) ∧
  fld_wf c' ∧ faithful_log c c' evs rbs ∧ ck_low ck ≤ ck_low ck'.

Lemma run_body_ok {R X} (f : body C M R X) ck c j : fld_wf c →
  ∃ res ck' c' j' evs rbs, run_body f ck c j = Ok (res, ck', c', j') ∧ body_ok ck c j ck' c' j' evs rbs.
Proof.
  revert ck c j. induction f as [r|r| |x|k IH|m k IH|key value k IH|key k IH]; intros ck c j Hc; simpl.
  1-4: eexists _, ck, c, j, [], []; split; [done|]; unfold body_ok; rewrite !app_nil_r;
    split_and!; try done; apply faithful_log_nil.
  - by apply IH.
  - destruct (exec_sound id id m ck c j Hc) as (ck1 & c1 & e1 & r1 & -> & Hw1 & Hf1 & _ & Hck1 & _).
    rewrite !list_fmap_id. cbn [mbind outcome_bind].
    destruct (IH ck1 c1 (log_all e1 r1 j) Hw1) as (res & ck' & c' & j' & e2 & r2 & -> & Hl & Hr & Hb & Hw' & Hf & Hck).
    eexists res, ck', c', j', (e1 ++ e2), (r1 ++ r2). split; [done|]. unfold body_ok. simpl in *.
    rewrite Hl, Hr, <- !app_assoc. split_and!; try done; [by eapply faithful_log_app|lia].
  - destruct (IH ck c (SetTransactionMetaField key value j) Hc) as (res & ck' & c' & j' & e & r & -> & Hok).
    by exists res, ck', c', j', e, r.
  - destruct (IH ck c (EraseTransactionMetaField key j) Hc) as (res & ck' & c' & j' & e & r & -> & Hok).
    by exists res, ck', c', j', e, r.
Qed.

(** ** The invariant *)

Definition empty_journal : MutationJournal E RB := mkJournal TransactionMeta_init [] [].

(** Replaying a record of the stream, and a list of them. *)
Definition replay_entry (c : C) (x : microseconds * EN) : C :=
  match as_transaction x.2 with Some t => replay (mutations t) c | None => c end.
Definition replayed l : C := foldl replay_entry init (log_entries l).

Definition storage_inv s l : Prop :=
  represents (stream_ s) l ∧ journal_ s = empty_journal ∧
  fld_wf (fields_ s) ∧ fld_wf (replayed l) ∧ fields_ s ≡ replayed l ∧
  last_applied_timestamp_ s ≤ log_head l < ck_low (clock s).

(** A transaction rolled back: nothing has changed but the clock. *)
Definition rolled_back s s' : Prop :=
  fields_ s' ≡ fields_ s ∧ fld_wf (fields_ s') ∧ journal_ s' = empty_journal ∧ stream_ s' = stream_ s ∧
  publisher_used_ s' = publisher_used_ s ∧ last_applied_timestamp_ s' = last_applied_timestamp_ s ∧
  destructing_ s' = destructing_ s ∧ ck_low (clock s) ≤ ck_low (clock s').

Lemma rolled_back_inv s s' l : storage_inv s l → rolled_back s s' → storage_inv s' l.
Proof.
  intros (Hr & Hj & Hw & Hwr & Heq & Hla) (Hf & Hw' & Hj' & Hs & Hp & Hl & Hd & Hck).
  unfold storage_inv. rewrite Hs, Hl. split_and!; try done; try lia. by rewrite Hf.
Qed.

Lemma rollback_storage_ok ck c j s evs rbs :
  commit_log j = evs → rollback_log j = rbs → fld_wf c → faithful_log (fields_ s) c evs rbs →
  ck_low (clock s) ≤ ck_low ck → rolled_back s (rollback_storage ck c j s).
Proof.
  intros Hl Hr Hw [_ Hu] Hck. unfold rollback_storage, Rollback. rewrite Hr.
  destruct (Hu c Hw (reflexivity c)) as [Hw' Heq]. by split_and!.
Qed.

(** ** Committing *)

(** The log after a commit of [evs]: one more transaction, if there is anything
    to persist. *)
Definition committed_log l (m : TransactionMeta) (evs : list E) (t : microseconds) : log EN :=
  match evs with
  | [] => l
  | _ => mkLog (log_entries l ++ [(t, of_transaction (mkTransaction m evs))]) t
  end.

Lemma replayed_committed l m evs t :
  replayed (committed_log l m evs t) = replay evs (replayed l).
Proof.
  unfold replayed, committed_log. destruct evs as [|e evs]; [done|]. simpl.
  rewrite foldl_app. simpl. unfold replay_entry at 1. simpl. by rewrite as_of.
Qed.

Lemma PersistJournal_ok s s0 l ck evs rbs :
  storage_inv s0 l → log_fits l → publisher_used_ s0 = true →
  ck_low (clock s0) ≤ ck_low ck → fld_wf (fields_ s) →
  faithful_log (fields_ s0) (fields_ s) evs rbs → commit_log (journal_ s) = evs →
  begin_us (transaction_meta (journal_ s)) < end_us (transaction_meta (journal_ s)) →
  s = set_running (fields_ s) (journal_ s) ck s0 →
  ∃ s' t, PersistJournal of_transaction s = Ok s' ∧
    storage_inv s' (committed_log l (transaction_meta (journal_ s)) evs t) ∧
    fields_ s' = fields_ s ∧ publisher_used_ s' = true ∧ destructing_ s' = destructing_ s0 ∧
    ck_low ck ≤ ck_low (clock s').
Proof.
  intros (Hrep & _ & _ & Hwr & Heq & Hla) Hfit Hpub Hck Hw [Hf _] Hlog Hmeta Hs.
  destruct (Hf (replayed l) Hwr (symmetry Heq)) as [Hw' Heq'].
  rewrite Hs. set (j := journal_ s) in *. set (c := fields_ s) in *. clearbody j c. clear Hs.
  unfold PersistJournal, PersistJournalFromLockedSection. simpl.
  pose proof (Now_low ck) as Hlow. pose proof (Now_strict ck) as Hnext.
  destruct (Now ck) as [t ck'] eqn:Hnow. simpl in *. rewrite Hpub. simpl.
  destruct (commit_log j) as [|e0 evs0] eqn:Hcl; subst evs.
  - simpl. eexists _, 0. split; [done|]. simpl. split_and!; try done. unfold storage_inv. simpl.
    split_and!; try done; lia. lia.
  - unfold CURRENT_ASSERT at 1. destruct (Z.ltb_spec (begin_us (transaction_meta j)) (end_us (transaction_meta j))); [|lia].
    simpl. set (tr := mkTransaction _ _).
    pose proof (Publish_law (At t) (of_transaction tr) ck' (stream_ s0) l Hrep Hfit) as [_ Hpubl].
    simpl in Hpubl. unfold log_publish in Hpubl. destruct (Z.ltb_spec (log_head l) t); [|lia].
    destruct (Publish _ _ _ _).2 as [[i p']|]; [|done]. destruct Hpubl as [_ Hrep']. simpl in *.
    unfold SetLastAppliedTimestampFromLockedSection, CURRENT_ASSERT. simpl.
    destruct (Z.ltb_spec (last_applied_timestamp_ s0) t); [|lia]. simpl.
    eexists _, t. split; [done|]. split; [|simpl; split_and!; try done; lia].
    match goal with |- storage_inv ?a _ =>
      change (storage_inv a (committed_log l (transaction_meta j) (e0 :: evs0) t)) end.
    unfold storage_inv. rewrite replayed_committed. simpl.
    split_and!; try done; lia.
Qed.

(** Everything up to the decision to commit or to roll back, common to the
    overloads: the asserted empty journal, [BeforeTransaction], the function. *)
Lemma transaction_prefix {R X} (f : body C M R X) s l : storage_inv s l →
  AssertEmpty (journal_ s) = Ok () ∧
  ∃ ck0 j0 res ck c j evs rbs,
    BeforeTransaction (clock s) (journal_ s) = (ck0, j0) ∧
    run_body f ck0 (fields_ s) j0 = Ok (res, ck, c, j) ∧
    commit_log j = evs ∧ rollback_log j = rbs ∧ fld_wf c ∧ faithful_log (fields_ s) c evs rbs ∧
    ck_low (clock s) ≤ ck_low ck ∧ begin_us (transaction_meta j) < ck_low ck.
Proof.
  intros (Hrep & Hj & Hw & _). rewrite Hj. split; [by apply AssertEmpty_iff|].
  unfold BeforeTransaction. pose proof (Now_low (clock s)). pose proof (Now_strict (clock s)).
  destruct (Now (clock s)) as [t ck0] eqn:Hnow. simpl in *.
  destruct (run_body_ok f ck0 (fields_ s) (mkJournal (mkMeta t 0 ∅) [] []) Hw)
    as (res & ck & c & j & evs & rbs & Hrun & Hcl & Hrl & Hb & Hwc & Hf & Hck).
  simpl in *. eexists _, _, res, ck, c, j, evs, rbs. split; [done|]. split; [exact Hrun|]. split_and!; try done; lia.
Qed.

(** [AfterTransaction] and [PersistJournal] after a function that returned. *)
Lemma commit_ok s l ck c j evs rbs :
  storage_inv s l → log_fits l → publisher_used_ s = true →
  commit_log j = evs → fld_wf c → faithful_log (fields_ s) c evs rbs →
  ck_low (clock s) ≤ ck_low ck → begin_us (transaction_meta j) < ck_low ck →
  ∃ s' t, (let '(ck, j) := AfterTransaction ck j in PersistJournal of_transaction (set_running c j ck s)) = Ok s' ∧
    storage_inv s' (committed_log l (transaction_meta (AfterTransaction ck j).2) evs t) ∧
    fields_ s' = c ∧ publisher_used_ s' = true ∧ destructing_ s' = destructing_ s ∧ ck_low ck ≤ ck_low (clock s').
Proof.
  intros Hinv Hfit Hpub Hcl Hw Hf Hck Hb. unfold AfterTransaction.
  pose proof (Now_low ck). pose proof (Now_strict ck). destruct (Now ck) as [t ck'] eqn:Hnow. simpl in *.
  set (j' := mkJournal _ _ _).
  edestruct (PersistJournal_ok (set_running c j' ck' s) s l ck' evs rbs) as (s' & t' & Hp & Hrest);
    [done..|simpl; lia|done|done|done|simpl; lia|done|].
  exists s', t'. destruct Hrest as (? & ? & ? & ? & ?). split_and!; try done. lia.
Qed.

(** What the caller of a read-write transaction is told, and what it means. *)
Definition transaction_outcome {R X} s l s' (r : future R X) : Prop :=
  publisher_used_ s' = publisher_used_ s ∧ destructing_ s' = destructing_ s ∧
  if WasCommitted r
  then ∃ m evs rbs t, faithful_log (fields_ s) (fields_ s') evs rbs ∧ storage_inv s' (committed_log l m evs t)
  else rolled_back s s' ∧ storage_inv s' l.

(** Finish a case of a transaction that was rolled back. *)
Ltac finish_rollback Hinv :=
  match goal with
  | Hcl : commit_log ?j = ?evs, Hrl : rollback_log ?j = ?rbs |- ∃ s' r, Ok (rollback_storage ?ck ?c ?j ?s, ?v) = _ ∧ _ =>
      assert (rolled_back s (rollback_storage ck c j s)) as Hrb by (eapply rollback_storage_ok; eauto; lia);
      exists (rollback_storage ck c j s), v; split; [reflexivity|];
      split_and!; try apply Hrb; simpl; eauto using rolled_back_inv
  end.

Lemma rolled_back_refl s l : storage_inv s l → rolled_back s s.
Proof. intros (_ & Hj & Hw & _). by split_and!. Qed.

Lemma transaction_ok {R X} (f : body C M R X) s l :
  storage_inv s l → log_fits l → publisher_used_ s = true →
  ∃ s' r, TransactionFromLockedSection of_transaction f s = Ok (s', r) ∧ transaction_outcome s l s' r.
Proof.
  intros Hinv Hfit Hpub. unfold TransactionFromLockedSection, transaction_outcome.
  destruct (transaction_prefix f s l Hinv) as [-> (ck0 & j0 & res & ck & c & j & evs & rbs & -> & -> & Hcl & Hrl & Hw & Hf & Hck & Hb)].
  cbn [storage_check mbind outcome_bind]. destruct (destructing_ s) eqn:Hd.
  { exists s, StorageInGracefulShutdownException. simpl. split_and!; try done; by eapply rolled_back_refl. }
  destruct res as [r|r| |x]; [|finish_rollback Hinv..].
  destruct (commit_ok s l ck c j evs rbs) as (s' & t & Hp & Hinv' & <- & Hpub' & Hd' & _); [done..|].
  destruct (AfterTransaction ck j) as [ck1 j1]. rewrite Hp. simpl. eexists s', _. split; [done|]. simpl.
  split_and!; [congruence..|]. by exists (transaction_meta j1), evs, rbs, t.
Qed.

Lemma transaction_void_ok {X} (f : body C M () X) s l :
  storage_inv s l → log_fits l → publisher_used_ s = true →
  ∃ s' r, TransactionFromLockedSection_void of_transaction f s = Ok (s', r) ∧ transaction_outcome s l s' r.
Proof.
  intros Hinv Hfit Hpub. unfold TransactionFromLockedSection_void, transaction_outcome.
  destruct (transaction_prefix f s l Hinv) as [-> (ck0 & j0 & res & ck & c & j & evs & rbs & -> & -> & Hcl & Hrl & Hw & Hf & Hck & Hb)].
  cbn [storage_check mbind outcome_bind]. destruct (destructing_ s) eqn:Hd.
  { exists s, StorageInGracefulShutdownException. simpl. split_and!; try done; by eapply rolled_back_refl. }
  destruct res as [r|r| |x]; [|finish_rollback Hinv..].
  destruct (commit_ok s l ck c j evs rbs) as (s' & t & Hp & Hinv' & <- & Hpub' & Hd' & _); [done..|].
  destruct (AfterTransaction ck j) as [ck1 j1]. rewrite Hp. simpl. eexists s', _. split; [done|]. simpl.
  split_and!; [congruence..|]. by exists (transaction_meta j1), evs, rbs, t.
Qed.

(** What the caller is told of how the function ended. *)
Definition result_of {R X} (res : ended R X) : future R X :=
  match res with
  | Returned r => TransactionResult true (Some r)
  | ThrewValue r => TransactionResult false (Some r)
  | ThrewNoValue => TransactionResult false None
  | Threw x => ExceptionSet x
  end.

(** A transaction does what its function did, if this returned, and else nothing. *)
Lemma transaction_exact {R X} (f : body C M R X) s l ck0 j0 :
  storage_inv s l → log_fits l → publisher_used_ s = true → destructing_ s = false →
  BeforeTransaction (clock s) (journal_ s) = (ck0, j0) →
  ∃ res ck c j s', run_body f ck0 (fields_ s) j0 = Ok (res, ck, c, j) ∧
    TransactionFromLockedSection of_transaction f s = Ok (s', result_of res) ∧
    match res with
    | Returned _ => fields_ s' = c ∧ faithful_log (fields_ s) c (commit_log j) (rollback_log j) ∧
        ∃ t, storage_inv s' (committed_log l (transaction_meta (AfterTransaction ck j).2) (commit_log j) t)
    | _ => rolled_back s s' ∧ storage_inv s' l
    end.
Proof.
  intros Hinv Hfit Hpub Hd Hbefore. unfold TransactionFromLockedSection.
  destruct (transaction_prefix f s l Hinv) as [-> (ck0' & j0' & res & ck & c & j & evs & rbs & Hb' & Hrun & Hcl & Hrl & Hw & Hf & Hck & Hb)].
  rewrite Hbefore in Hb'. injection Hb' as <- <-. exists res, ck, c, j. rewrite Hbefore, Hrun, Hd. cbn [storage_check mbind outcome_bind].
  assert (rolled_back s (rollback_storage ck c j s)) as Hrb by (eapply rollback_storage_ok; eauto; lia).
  destruct res as [r|r| |x]; [|by eexists; split_and!; eauto using rolled_back_inv..].
  destruct (commit_ok s l ck c j evs rbs) as (s' & t & Hp & Hinv' & Hc & _); [done..|]. exists s'. split; [done|].
  rewrite <- Hcl, <- Hrl in *. destruct (AfterTransaction ck j) as [ck1 j1]. rewrite Hp. split; [done|]. split_and!; [done..|]. by exists t.
Qed.

(** The two-step transaction when [f1] has returned: whatever [f2] does, the
    transaction has been committed and persisted, and nothing is undone. *)
Lemma two_step_returned_ok {R X W} (f1 : body C M R X) (f2 : R → W → W * ended R X) s l (w : W) ck0 j0 r ck c j :
  storage_inv s l → log_fits l → publisher_used_ s = true → destructing_ s = false →
  BeforeTransaction (clock s) (journal_ s) = (ck0, j0) →
  run_body f1 ck0 (fields_ s) j0 = Ok (Returned r, ck, c, j) →
  ∃ s' w' res m t, TransactionFromLockedSection_two_step of_transaction f1 f2 s w = Ok (s', w', res) ∧
    storage_inv s' (committed_log l m (commit_log j) t) ∧ fields_ s' = c ∧
    (publisher_used_ s' = true ∧ destructing_ s' = false ∧ ck_low ck ≤ ck_low (clock s')) ∧
    w' = match (f2 r w).2 with ThrewValue v => (f2 v (f2 r w).1).1 | _ => (f2 r w).1 end ∧
    res = match (f2 r w).2 with
          | Returned _ => TwoStep (TransactionResult true (Some ()))
          | ThrewValue v =>
              match (f2 v (f2 r w).1).2 with
              | Returned _ => TwoStep (TransactionResult false None)
              | ThrewValue _ => NotCaught (ThrewValue ())
              | ThrewNoValue => NotCaught ThrewNoValue
              | Threw x => NotCaught (Threw x)
              end
          | ThrewNoValue => TwoStep (TransactionResult false None)
          | Threw x => TwoStep (ExceptionSet x)
          end.
Proof.
  intros Hinv Hfit Hpub Hd Hbefore Hrun. unfold TransactionFromLockedSection_two_step.
  destruct (transaction_prefix f1 s l Hinv)
    as [-> (ck0' & j0' & res & ck' & c' & j' & evs & rbs & Hbefore' & Hrun' & Hcl & Hrl & Hw & Hf & Hck & Hb)].
  rewrite Hbefore in Hbefore'. injection Hbefore' as <- <-. rewrite Hrun in Hrun'. injection Hrun' as <- <- <- <-.
  rewrite Hbefore, Hrun, Hd. cbn [storage_check mbind outcome_bind].
  destruct (commit_ok s l ck c j evs rbs) as (s' & t & Hp & Hinv' & Hc & Hpub' & Hd' & Hclock); [done..|].
  destruct (AfterTransaction ck j) as [ck1 j1]. set (m := transaction_meta j1) in *. rewrite Hp. cbn [mbind outcome_bind].
  destruct (f2 r w) as [w1 r1] eqn:Hf2. cbn [mbind outcome_bind fst snd].
  assert (rollback_storage (clock s') (fields_ s') (journal_ s') s' = s') as Hrb.
  { destruct Hinv' as (_ & Hj & _). unfold rollback_storage, Rollback. rewrite Hj. simpl. unfold set_running.
    destruct s' as [fs js cs st pu la de]. simpl in *. by rewrite Hj. }
  rewrite Hcl. destruct r1 as [r1|v| |x].
  - eexists s', _, _, m, t. cbn [snd]. by split_and!; try congruence.
  - destruct (f2 v w1) as [w2 r2] eqn:Hf2'. rewrite Hrb. eexists s', w2, _, m, t. cbn [fst snd]. by split_and!; try congruence.
  - rewrite Hrb. eexists s', _, _, m, t. cbn [snd]. by split_and!; try congruence.
  - rewrite Hrb. eexists s', _, _, m, t. cbn [snd]. by split_and!; try congruence.
Qed.

(** ** Replaying *)

Lemma replay_records_ok k es s :
  StronglySorted (λ x y, x < y) es.*1 → Forall (λ t, last_applied_timestamp_ s < t) es.*1 →
  ∃ s', replay_records as_transaction (numbered_from k es) s = Ok s' ∧
    fields_ s' = foldl replay_entry (fields_ s) es ∧ journal_ s' = journal_ s ∧ clock s' = clock s ∧
    stream_ s' = stream_ s ∧ publisher_used_ s' = publisher_used_ s ∧ destructing_ s' = destructing_ s ∧
    (last_applied_timestamp_ s' = last_applied_timestamp_ s ∨ last_applied_timestamp_ s' ∈ es.*1).
Proof.
  revert k s. induction es as [|[t en] es IH]; intros k s Hs Hl.
  { exists s. simpl. split_and!; try done. by left. }
  rewrite numbered_from_cons. simpl replay_records. rewrite fmap_cons in Hs, Hl.
  apply StronglySorted_inv in Hs as [Hs Ht]. apply Forall_cons in Hl as [Hlt Hl]. simpl in Hlt.
  change (foldl replay_entry (fields_ s) ((t, en) :: es)) with (foldl replay_entry (replay_entry (fields_ s) (t, en)) es).
  unfold replay_entry at 2. simpl. destruct (as_transaction en) as [tr|]; cbn [mbind outcome_bind].
  - unfold ApplyMutationsFromLockedSectionOrConstructor, SetLastAppliedTimestampFromLockedSection, CURRENT_ASSERT.
    simpl. destruct (Z.ltb_spec (last_applied_timestamp_ s) t); [|lia]. simpl.
    edestruct (IH (S k)) as (s' & -> & Hf & Hj & Hc & Hst & Hp & Hd & Hla); [done| |].
    + simpl. exact Ht.
    + exists s'. simpl in *. split_and!; try done. right. apply elem_of_cons. destruct Hla as [->|?]; auto.
  - destruct (IH (S k) s Hs Hl) as (s' & -> & Hf & Hj & Hc & Hst & Hp & Hd & Hla).
    exists s'. split_and!; try done. destruct Hla; [by left|]. right. apply elem_of_cons. auto.
Qed.

Lemma numbered_drop l n : drop n (numbered l) = numbered_from n (drop n (log_entries l)).
Proof.
  unfold numbered. generalize (log_entries l). intros es.
  change n with (0 + n)%nat at 2. generalize 0%nat. revert es.
  induction n as [|n IH]; intros es k; [by rewrite Nat.add_0_r|].
  destruct es as [|x es]; [done|]. rewrite numbered_from_cons. simpl. rewrite IH. by rewrite <- plus_n_Sm.
Qed.

Lemma numbered_take l n : take n (numbered l) = numbered_from 0 (take n (log_entries l)).
Proof.
  unfold numbered. generalize (log_entries l). intros es. generalize 0%nat. revert es.
  induction n as [|n IH]; intros es k; [done|]. destruct es as [|x es]; [done|]. rewrite numbered_from_cons. simpl.
  by rewrite numbered_from_cons, IH.
Qed.

Lemma sync_replay_ok s l n :
  represents (stream_ s) l → log_fits l → (n ≤ log_size l)%N →
  Forall (λ t, last_applied_timestamp_ s < t) (drop (N.to_nat n) (log_entries l)).*1 →
  ∃ s', SyncReplayStreamFromLockedSectionOrConstructor as_transaction n s = Ok s' ∧
    fields_ s' = foldl replay_entry (fields_ s) (drop (N.to_nat n) (log_entries l)) ∧
    journal_ s' = journal_ s ∧ clock s' = clock s ∧ stream_ s' = stream_ s ∧
    publisher_used_ s' = publisher_used_ s ∧ destructing_ s' = destructing_ s ∧
    (last_applied_timestamp_ s ≤ log_head l → last_applied_timestamp_ s' ≤ log_head l).
Proof.
  intros Hrep Hfit Hn Hla. destruct (represents_wf _ _ Hrep) as (Hs & Hh & _).
  unfold SyncReplayStreamFromLockedSectionOrConstructor. rewrite (Iterate_law _ _ _ l) by done.
  unfold log_iterate. rewrite N.eqb_refl, N.leb_refl. destruct (N.leb_spec n (log_size l)); [|lia]. simpl.
  assert (take (N.to_nat (log_size l)) (numbered l) = numbered l) as ->.
  { apply take_ge. rewrite length_numbered. unfold log_size. lia. }
  rewrite numbered_drop.
  destruct (replay_records_ok (N.to_nat n) (drop (N.to_nat n) (log_entries l)) s)
    as (s' & -> & Hf & Hj & Hc & Hst & Hp & Hd & Hl); [|done|].
  { rewrite fmap_drop. by apply sorted_drop. }
  exists s'. split; [done|]. split_and!; try done. intros Hle. destruct Hl as [->|Hin]; [done|].
  rewrite fmap_drop in Hin. apply elem_of_drop in Hin. rewrite Forall_forall in Hh. specialize (Hh _ Hin).
  simpl in Hh. lia.
Qed.

(** A storage created on top of an existing stream. *)
Lemma create_master_ok ck p l : represents p l → log_fits l →
  ∃ s, CreateMasterStorage (RB := RB) as_transaction init ck p = Ok s ∧ fields_ s = replayed l ∧
    journal_ s = empty_journal ∧ clock s = ck ∧ stream_ s = p ∧ publisher_used_ s = true ∧
    last_applied_timestamp_ s ≤ log_head l.
Proof.
  intros Hrep Hfit. destruct (represents_wf _ _ Hrep) as (_ & Hh & Hh').
  unfold CreateMasterStorage. set (s0 := mkStorage _ _ _ _ _ _ _).
  destruct (sync_replay_ok s0 l 0 Hrep Hfit) as (s & -> & Hf & Hj & Hc & Hst & Hp & _ & Hla); [lia| |].
  { simpl. eapply Forall_impl; [exact Hh|]. simpl. lia. }
  exists s. rewrite Hf, Hj, Hc, Hst, Hp. split_and!; try done. apply Hla. simpl. lia.
Qed.

(** ** A following storage *)

(** The fields are those of the stream up to the index to replay next. *)
Definition follows (sn : storage * N) l : Prop :=
  publisher_used_ sn.1 = false ∧ journal_ sn.1 = empty_journal ∧ (sn.2 ≤ log_size l)%N ∧
  fields_ sn.1 = foldl replay_entry init (take (N.to_nat sn.2) (log_entries l)) ∧
  Forall (λ t, last_applied_timestamp_ sn.1 < t) (drop (N.to_nat sn.2) (log_entries l)).*1 ∧
  last_applied_timestamp_ sn.1 ≤ log_head l.

Lemma create_follower_ok ck p l : log_wf l → follows (CreateFollowingStorage init ck p) l.
Proof.
  intros (_ & Hh & Hlow). unfold follows. simpl. split_and!; try done; [lia|].
  eapply Forall_impl; [exact Hh|]. simpl. lia.
Qed.

Lemma foldl_no_transactions (es : list (microseconds * EN)) c :
  Forall (λ x, as_transaction x.2 = None) es → foldl replay_entry c es = c.
Proof. intros Hn. induction Hn as [|x es Hx _ IH]; [done|]. simpl. unfold replay_entry at 2. by rewrite Hx. Qed.

(** No transactions from one index to another. *)
Definition no_transactions l (i k : nat) : Prop := ∀ n x, (i ≤ n < k)%nat → log_entries l !! n = Some x → as_transaction x.2 = None.

Lemma skip_no_transactions l i k : (i ≤ k)%nat → no_transactions l i k →
  foldl replay_entry init (take k (log_entries l)) = foldl replay_entry init (take i (log_entries l)).
Proof.
  intros Hle Hno. replace k with (i + (k - i))%nat by lia. rewrite <- take_take_drop, foldl_app. apply foldl_no_transactions.
  apply Forall_lookup. intros n x Hx. apply lookup_take_Some in Hx as [Hx Hn]. rewrite lookup_drop in Hx. apply (Hno (i + n)%nat); [lia|done].
Qed.

(** The subscriber is called with the next transaction of the stream. *)
Lemma follow_ok sn l i t en tr :
  log_wf l → follows sn l → log_entries l !! N.to_nat i = Some (t, en) → as_transaction en = Some tr → (sn.2 ≤ i)%N →
  no_transactions l (N.to_nat sn.2) (N.to_nat i) →
  ∃ sn', follow (mkIdxTs i t) tr sn = Ok sn' ∧ sn'.2 = (i + 1)%N ∧ follows sn' l ∧
    stream_ sn'.1 = stream_ sn.1 ∧ clock sn'.1 = clock sn.1.
Proof.
  destruct sn as [s n]. intros (Hs & Hh & _) (Hpub & Hj & Hn & Hf & Hla & Hle) Hi Htr Hni Hnone. simpl in *.
  pose proof (lookup_lt_Some _ _ _ Hi) as Hlt.
  assert (last_applied_timestamp_ s < t) as Ht.
  { rewrite Forall_lookup in Hla. apply (Hla (N.to_nat i - N.to_nat n)%nat).
    rewrite list_lookup_fmap, lookup_drop. replace (N.to_nat n + _)%nat with (N.to_nat i) by lia. by rewrite Hi. }
  unfold follow, ApplyMutationsFromLockedSectionOrConstructor, SetLastAppliedTimestampFromLockedSection, CURRENT_ASSERT.
  simpl. destruct (Z.ltb_spec (last_applied_timestamp_ s) t); [|lia]. simpl. eexists. split; [done|]. split; [done|]. split; [|done].
  unfold follows, log_size. simpl. replace (N.to_nat (i + 1)) with (S (N.to_nat i)) by lia. split_and!; try done; [lia| | |].
  - rewrite (take_S_r _ _ _ Hi), foldl_app. simpl. unfold replay_entry at 1. simpl. rewrite Htr. unfold replay. f_equal.
    rewrite Hf. symmetry. apply skip_no_transactions; [lia|done].
  - rewrite fmap_drop. eapply sorted_after; [done|]. by rewrite list_lookup_fmap, Hi.
  - rewrite Forall_lookup in Hh. specialize (Hh (N.to_nat i) t). rewrite list_lookup_fmap, Hi in Hh. destruct (Hh eq_refl). lia.
Qed.

(** It is called with all transactions of a part of the stream. *)
Lemma follow_records_ok l es pre post sn :
  log_wf l → log_entries l = pre ++ es ++ post → follows sn l → (N.to_nat sn.2 ≤ length pre)%nat →
  no_transactions l (N.to_nat sn.2) (length pre) →
  ∃ sn', follow_records as_transaction (numbered_from (length pre) es) sn = Ok sn' ∧ follows sn' l ∧
    (N.to_nat sn'.2 ≤ length pre + length es)%nat ∧ no_transactions l (N.to_nat sn'.2) (length pre + length es) ∧
    stream_ sn'.1 = stream_ sn.1 ∧ clock sn'.1 = clock sn.1.
Proof.
  intros Hw. revert pre sn. induction es as [|[t en] es IH]; intros pre sn Hl Hf Hle Hno.
  { exists sn. rewrite Nat.add_0_r. by split_and!. }
  rewrite numbered_from_cons. cbn [follow_records length].
  assert (log_entries l !! length pre = Some (t, en)) as Hi by (rewrite Hl; by apply (list_lookup_middle pre (es ++ post))).
  assert (∃ sn1, match as_transaction en with Some tr => follow (mkIdxTs (N.of_nat (length pre)) t) tr sn | None => Ok sn end = Ok sn1 ∧ follows sn1 l ∧
    (N.to_nat sn1.2 ≤ S (length pre))%nat ∧ no_transactions l (N.to_nat sn1.2) (S (length pre)) ∧ stream_ sn1.1 = stream_ sn.1 ∧ clock sn1.1 = clock sn.1)
    as (sn1 & He1 & Hf1 & Hle1 & Hno1 & Hs1 & Hc1).
  { destruct (as_transaction en) as [tr|] eqn:Htr.
    - destruct (follow_ok sn l (N.of_nat (length pre)) t en tr) as (sn1 & He & Hn & Hf1 & Hs & Hc); [done|done|by rewrite Nat2N.id|done|lia|by rewrite Nat2N.id|].
      exists sn1. rewrite Hn. split_and!; try done; [lia|]. intros n x Hn'. lia.
    - exists sn. split_and!; try done; [lia|]. intros n x Hn Hx. destruct (decide (n = length pre)) as [->|]; [by rewrite Hi in Hx; injection Hx as <-|].
      apply (Hno n); [lia|done]. }
  simpl. rewrite He1. cbn [mbind outcome_bind].
  destruct (IH (pre ++ [(t, en)]) sn1) as (sn' & He & Hf' & Hle' & Hno' & Hs' & Hc'); rewrite ?length_app; cbn [length].
  - by rewrite Hl, <- app_assoc.
  - done.
  - lia.
  - by rewrite Nat.add_1_r.
  - rewrite length_app in *. cbn [length] in *. rewrite Nat.add_1_r in *. exists sn'. rewrite He. rewrite <- Nat.add_succ_comm.
    split_and!; try done; congruence.
Qed.

(** Becoming the master, wherever the subscriber was. *)
Lemma become_master_ok s n p l : represents p l → follows (s, n) l → log_fits l →
  ∃ s', BecomeMasterStorage as_transaction (set_stream p s, n) = Ok s' ∧ fields_ s' = replayed l ∧ publisher_used_ s' = true ∧
    journal_ s' = empty_journal ∧ stream_ s' = p ∧ clock s' = clock s ∧ last_applied_timestamp_ s' ≤ log_head l.
Proof.
  intros Hrep (Hpub & Hj & Hn & Hf & Hla & Hle) Hfit. simpl in *. unfold BecomeMasterStorage. cbn [set_stream publisher_used_].
  rewrite Hpub. set (s0 := mkStorage _ _ _ _ _ _ _).
  destruct (sync_replay_ok s0 l n) as (s' & -> & Hf' & Hj' & Hc' & Hs' & Hp & _ & Hla'); [done..|].
  exists s'. split; [done|]. split; [|split_and!; [done|by rewrite Hj'|done..|by apply Hla']]. rewrite Hf'. simpl. rewrite Hf, <- foldl_app. by rewrite take_drop.
Qed.

(** ** Sequences of transactions *)

Fixpoint run_transactions {R X} (fs : list (body C M R X)) s : outcome storage_error (storage * list (future R X)) :=
  match fs with
  | [] => Ok (s, [])
  | f :: fs =>
      '(s, r) ← ReadWriteTransaction of_transaction f s;
      '(s, rs) ← run_transactions fs s;
      Ok (s, r :: rs)
  end.

Lemma outcome_inv {R X} s l s' (r : future R X) : storage_inv s l → transaction_outcome s l s' r →
  ∃ l', storage_inv s' l' ∧ publisher_used_ s' = publisher_used_ s ∧ (log_size l' ≤ log_size l + 1)%N.
Proof.
  intros Hinv (Hp & _ & Hr). destruct (WasCommitted r).
  - destruct Hr as (m & evs & rbs & t & _ & Hinv'). eexists. split_and!; [done..|].
    unfold committed_log, log_size. destruct evs; simpl; rewrite ?length_app; simpl; lia.
  - exists l. split_and!; [apply Hr|done|lia].
Qed.

Lemma run_transactions_ok {R X} (fs : list (body C M R X)) s l :
  storage_inv s l → (log_size l + N.of_nat (length fs) < no_index)%N → publisher_used_ s = true →
  ∃ s' rs l', run_transactions fs s = Ok (s', rs) ∧ storage_inv s' l' ∧ publisher_used_ s' = true ∧
    log_fits l' ∧ length rs = length fs.
Proof.
  revert s l. induction fs as [|f fs IH]; intros s l Hinv Hn Hp; simpl in *.
  { exists s, [], l. split_and!; try done. unfold log_fits. lia. }
  unfold ReadWriteTransaction. rewrite Hp. simpl.
  destruct (transaction_ok f s l Hinv) as (s1 & r & -> & Hout); [unfold log_fits; lia|done|].
  destruct (outcome_inv s l s1 r Hinv Hout) as (l1 & Hinv1 & Hp1 & Hl1). cbn [mbind outcome_bind].
  destruct (IH s1 l1 Hinv1) as (s' & rs & l' & -> & Hinv' & Hp' & Hfit & Hlen); [lia|congruence|].
  exists s', (r :: rs), l'. simpl. split_and!; try done. by rewrite Hlen.
Qed.
End Soundness.
