(* ===== verification/Mmq.v ===== *)
(** * The in-memory queue: blocks/mmq/mmq.h

    [MMQImpl] is a bounded buffer between any number of publishing threads and
    one consumer thread.  A publisher allocates a slot of the circular buffer
    under the mutex, writes the message body outside it, and commits the slot
    under the mutex; the consumer takes the slot at its own [tail], calls the
    user's consumer outside the mutex, and frees the slot.  Every such part is
    one function below, and [mmq_step] interleaves them for any number of
    publishing threads.  A wait on the condition variable is a step that is
    possible only when its predicate holds, so the theorems do not depend on
    which waiter a notification wakes. *)

From Stdlib Require Import ZArith NArith Lia Sorted.
From stdpp Require Import base gmap list relations sorting.
From S2P Require Import Prelude Time Persistence.

Open Scope nat_scope.

Module MMQ.

(** ** The queue *)

Inductive entry_status := FREE | BEING_IMPORTED | READY | BEING_EXPORTED.

Global Instance entry_status_eq_dec : EqDecision entry_status.
Proof. solve_decision. Defined.

Record Entry (M : Type) := mkEntry {
  index_timestamp : idxts_t;
  message_body : M;
  status : entry_status;
}.
Arguments mkEntry {M} _ _ _.
Arguments index_timestamp {M} _.
Arguments message_body {M} _.
Arguments status {M} _.

Section Queue.
Context {M CK : Type} `{!Inhabited M, !Clock CK}.
(** [DROP_ON_OVERFLOW]. *)
Context (DROP : bool).

(** [clock] is the process clock behind [current::time::Now()]. *)
Record MMQImpl := mkMMQImpl {
  circular_buffer_ : list (Entry M);
  head_ : nat;
  last_idx_ts_ : idxts_t;
  destructing_ : bool;
  clock : CK;
}.

(** The vector is given its size by the constructor and never resized. *)
Definition circular_buffer_size_ (q : MMQImpl) : nat := length (circular_buffer_ q).

Definition make_MMQImpl (buffer_size : nat) (ck : CK) : MMQImpl :=
  mkMMQImpl (replicate buffer_size (mkEntry (mkIdxTs 0 0) inhabitant FREE)) 0 (mkIdxTs 0 (-1)) false ck.

(** [circular_buffer_[i]]; out of range it is undefined behaviour. *)
Definition at_slot (i : nat) (q : MMQImpl) : outcome fault (Entry M) :=
  match circular_buffer_ q !! i with Some e => Ok e | None => Throw DanglingDereference end.

Definition set_slot (i : nat) (e : Entry M) (q : MMQImpl) : MMQImpl :=
  mkMMQImpl (<[i := e]> (circular_buffer_ q)) (head_ q) (last_idx_ts_ q) (destructing_ q) (clock q).

Definition Increment (q : MMQImpl) (i : nat) : nat := (i + 1) mod circular_buffer_size_ q.

(** ** Publishing *)

(** Where a thread is inside [PublisherPublishImpl]: waiting for a free slot,
    with a slot allocated, with the body written, with the slot committed. *)
Inductive publisher :=
| Waiting (message : M) (timestamp : microseconds)
| Importing (slot : nat) (message : M)
| Imported (slot : nat) (message : M)
| Committed (slot : nat) (message : M).

(** How a part of the call ends: the thread is still inside the call, the call
    has returned, or it has thrown. *)
Inductive progress :=
| Inside (p : publisher)
| Returned (message : M) (idxts : idxts_t)
| Threw (e : persistence_error).

(** The end of both [CircularBufferAllocate]: take the slot at [head_]. *)
Definition allocate (timestamp : microseconds) (message : M) (q : MMQImpl) : outcome fault (MMQImpl * progress) :=
  let slot := head_ q in
  let idxts := mkIdxTs (u64_succ (index (last_idx_ts_ q))) timestamp in
  e ← at_slot slot q;
  Ok (mkMMQImpl (<[slot := mkEntry idxts (message_body e) BEING_IMPORTED]> (circular_buffer_ q))
        (Increment q slot) idxts (destructing_ q) (clock q),
      Inside (Importing slot message)).

(** [return idxts_t()]. *)
Definition refused (message : M) : progress := Returned message (mkIdxTs 0 0).

Definition set_clock (ck : CK) (q : MMQImpl) : MMQImpl :=
  mkMMQImpl (circular_buffer_ q) (head_ q) (last_idx_ts_ q) (destructing_ q) ck.

Definition CircularBufferAllocate_drop (a : timestamp_arg) (message : M) (q : MMQImpl)
    : outcome fault (MMQImpl * progress) :=
  e ← at_slot (head_ q) q;
  if bool_decide (status e = FREE) then
    let '(timestamp, ck) := TimestampAsMicroseconds a (clock q) in
    let q := set_clock ck q in
    if negb (us (last_idx_ts_ q) <? timestamp)%Z
    then Ok (q, Threw (InconsistentTimestampException (us (last_idx_ts_ q) + 1) timestamp))
    else allocate timestamp message q
  else Ok (q, refused message).

(** [timestamp.count() >= 0 ? timestamp : current::time::Now()]. *)
Definition allocate_nonnegative (timestamp : microseconds) (message : M) (q : MMQImpl)
    : outcome fault (MMQImpl * progress) :=
  if (0 <=? timestamp)%Z then allocate timestamp message q
  else let '(now, ck) := Now (clock q) in allocate now message (set_clock ck q).

(** The loop of the blocking version, from its condition on: the mutex is
    released inside [wait] only, so a thread is either still waiting or out. *)
Definition wait_for_slot (timestamp : microseconds) (message : M) (q : MMQImpl)
    : outcome fault (MMQImpl * progress) :=
  e ← at_slot (head_ q) q;
  if bool_decide (status e = FREE) then allocate_nonnegative timestamp message q
  else Ok (q, Inside (Waiting message timestamp)).

Definition CircularBufferAllocate_wait (a : timestamp_arg) (message : M) (q : MMQImpl)
    : outcome fault (MMQImpl * progress) :=
  if destructing_ q then Ok (q, refused message)
  else
    let '(timestamp, ck) := TimestampAsMicroseconds a (clock q) in
    let q := set_clock ck q in
    if negb (us (last_idx_ts_ q) <? timestamp)%Z
    then Ok (q, Threw (InconsistentTimestampException (us (last_idx_ts_ q) + 1) timestamp))
    else wait_for_slot timestamp message q.

Definition CircularBufferAllocate (a : timestamp_arg) (message : M) (q : MMQImpl)
    : outcome fault (MMQImpl * progress) :=
  if DROP then CircularBufferAllocate_drop a message q else CircularBufferAllocate_wait a message q.

Definition CircularBufferCommit (slot : nat) (q : MMQImpl) : outcome fault MMQImpl :=
  e ← at_slot slot q;
  Ok (set_slot slot (mkEntry (index_timestamp e) (message_body e) READY) q).

(** The rest of [PublisherPublishImpl], one atomic part at a time.  A thread
    that is waiting leaves [condition_variable_.wait] with the mutex held. *)
Definition PublisherPublishImpl_step (p : publisher) (q : MMQImpl) : outcome fault (MMQImpl * progress) :=
  match p with
  | Waiting message timestamp =>
      if destructing_ q then Ok (q, refused message) else wait_for_slot timestamp message q
  | Importing slot message =>
      e ← at_slot slot q;
      Ok (set_slot slot (mkEntry (index_timestamp e) message (status e)) q, Inside (Imported slot message))
  | Imported slot message =>
      q ← CircularBufferCommit slot q;
      Ok (q, Inside (Committed slot message))
  | Committed slot message =>
      e ← at_slot slot q;
      Ok (q, Returned message (index_timestamp e))
  end.

(** ** Consuming *)

(** Where [ConsumerThread] is: at the wait, calling the consumer, before
    freeing the slot, returned. *)
Inductive consumer_pc :=
| AtWait
| Exporting (save_last_idx_ts : idxts_t)
| Exported
| Stopped.

(** The consumer thread; [consumed] is the history of the calls of the user's
    consumer, with its three arguments. *)
Record consumer := mkConsumer {
  consumer_at : consumer_pc;
  tail : nat;
  consumed : list (M * idxts_t * idxts_t);
}.

Definition ConsumerThread_step (c : consumer) (q : MMQImpl) : outcome fault (MMQImpl * consumer) :=
  match consumer_at c with
  | AtWait =>
      e ← at_slot (tail c) q;
      if destructing_ q then Ok (q, mkConsumer Stopped (tail c) (consumed c))
      else if bool_decide (status e = READY) then
        Ok (set_slot (tail c) (mkEntry (index_timestamp e) (message_body e) BEING_EXPORTED) q,
            mkConsumer (Exporting (last_idx_ts_ q)) (tail c) (consumed c))
      else Ok (q, c)
  | Exporting save_last_idx_ts =>
      e ← at_slot (tail c) q;
      Ok (q, mkConsumer Exported (tail c)
               (consumed c ++ [(message_body e, index_timestamp e, save_last_idx_ts)]))
  | Exported =>
      e ← at_slot (tail c) q;
      Ok (set_slot (tail c) (mkEntry (index_timestamp e) (message_body e) FREE) q,
          mkConsumer AtWait (Increment q (tail c)) (consumed c))
  | Stopped => Ok (q, c)
  end.

(** The part of the destructor that is before the join. *)
Definition signal_destruction (q : MMQImpl) : MMQImpl :=
  mkMMQImpl (circular_buffer_ q) (head_ q) (last_idx_ts_ q) true (clock q).

(** ** The queue among its threads *)

(** [accepted] and [returned] are history: the messages that were given a slot,
    with their index and time stamp, in the order of allocation; and what the
    calls of [Publish] returned. *)
Record mmq := mkMmq {
  queue : MMQImpl;
  publishers : gmap nat publisher;
  consumer_ : consumer;
  accepted : list (idxts_t * M);
  returned : list (M * idxts_t);
}.

Definition start (buffer_size : nat) (ck : CK) : mmq :=
  mkMmq (make_MMQImpl buffer_size ck) ∅ (mkConsumer AtWait 0 []) [] [].

(** The history after a part of a publish call of thread [tid]. *)
Definition record_progress (tid : nat) (q' : MMQImpl) (r : progress) (s : mmq) : mmq :=
  match r with
  | Inside p =>
      mkMmq q' (<[tid := p]> (publishers s)) (consumer_ s)
        (match p with
         | Importing _ m => accepted s ++ [(last_idx_ts_ q', m)]
         | _ => accepted s
         end) (returned s)
  | Returned m i => mkMmq q' (delete tid (publishers s)) (consumer_ s) (accepted s) (returned s ++ [(m, i)])
  | Threw _ => mkMmq q' (delete tid (publishers s)) (consumer_ s) (accepted s) (returned s)
  end.

Inductive mmq_step : mmq → mmq → Prop :=
| step_call tid a m q' r s :
    publishers s !! tid = None → CircularBufferAllocate a m (queue s) = Ok (q', r) →
    mmq_step s (record_progress tid q' r s)
| step_publisher tid p q' r s :
    publishers s !! tid = Some p → PublisherPublishImpl_step p (queue s) = Ok (q', r) →
    mmq_step s (record_progress tid q' r s)
| step_consumer q' c' s :
    ConsumerThread_step (consumer_ s) (queue s) = Ok (q', c') →
    mmq_step s (mkMmq q' (publishers s) c' (accepted s) (returned s))
| step_destruct s :
    mmq_step s (mkMmq (signal_destruction (queue s)) (publishers s) (consumer_ s) (accepted s) (returned s)).
End Queue.
Global Arguments MMQImpl _ _ : clear implicits.
Global Arguments publisher _ : clear implicits.
Global Arguments progress _ : clear implicits.
Global Arguments consumer _ : clear implicits.
Global Arguments mmq _ _ : clear implicits.

(** ** The invariant *)

Section Invariant.
Context {M CK : Type} `{!Inhabited M, !Clock CK}.
Implicit Types (s : mmq M CK) (q : MMQImpl M CK) (e : Entry M) (j : nat).

(** The messages the consumer thread has freed the slot of. *)
Definition freed (c : consumer M) : nat :=
  match consumer_at c with Exported => pred (length (consumed c)) | _ => length (consumed c) end.

(** The slot a publisher has allocated and not committed yet. *)
Definition importing (p : publisher M) : option (nat * M) :=
  match p with Importing i m | Imported i m => Some (i, m) | _ => None end.

(** What is in the slot of the [j]-th accepted message, [j] in the window of
    [size] slots that starts at the first message not freed. *)
Definition slot_ok s j e : Prop :=
  match accepted s !! j with
  | None => status e = FREE
  | Some (i, m) =>
      index_timestamp e = i ∧
      match status e with
      | FREE => False
      | BEING_IMPORTED =>
          ∃ tid p, publishers s !! tid = Some p ∧ importing p = Some (j mod circular_buffer_size_ (queue s), m)
      | READY => message_body e = m
      | BEING_EXPORTED =>
          message_body e = m ∧ j = freed (consumer_ s) ∧
          match consumer_at (consumer_ s) with Exporting _ | Exported => True | _ => False end
      end
  end.

Definition publisher_ok s (p : publisher M) : Prop :=
  let q := queue s in
  match p with
  | Waiting _ _ => True
  | Importing i m | Imported i m =>
      ∃ j e, freed (consumer_ s) ≤ j < length (accepted s) ∧ i = j mod circular_buffer_size_ q ∧
        circular_buffer_ q !! i = Some e ∧ status e = BEING_IMPORTED ∧ accepted s !! j = Some (index_timestamp e, m) ∧
        (match p with Imported _ _ => message_body e = m | _ => True end)
  | Committed i _ => i < circular_buffer_size_ q
  end.

Definition consumer_ok s : Prop :=
  let q := queue s in let c := consumer_ s in
  tail c = freed c mod circular_buffer_size_ q ∧
  (consumed c).*1 = (λ x, (x.2, x.1)) <$> take (length (consumed c)) (accepted s) ∧
  match consumer_at c with
  | Exporting _ | Exported =>
      freed c < length (accepted s) ∧ (consumer_at c = Exported → 0 < length (consumed c)) ∧
      ∃ e, circular_buffer_ q !! tail c = Some e ∧ status e = BEING_EXPORTED
  | _ => True
  end.

Record mmq_inv s : Prop := mkInv {
  inv_size : 0 < circular_buffer_size_ (queue s);
  inv_window : freed (consumer_ s) ≤ length (accepted s) ≤ freed (consumer_ s) + circular_buffer_size_ (queue s);
  inv_head : head_ (queue s) = length (accepted s) mod circular_buffer_size_ (queue s);
  inv_slots : ∀ j, freed (consumer_ s) ≤ j < freed (consumer_ s) + circular_buffer_size_ (queue s) →
    ∃ e, circular_buffer_ (queue s) !! (j mod circular_buffer_size_ (queue s)) = Some e ∧ slot_ok s j e;
  inv_publishers : map_Forall (λ _, publisher_ok s) (publishers s);
  inv_unique : ∀ t t' p p' i m m', publishers s !! t = Some p → publishers s !! t' = Some p' →
    importing p = Some (i, m) → importing p' = Some (i, m') → t = t';
  inv_consumer : consumer_ok s;
  inv_last : index (last_idx_ts_ (queue s)) = (N.of_nat (length (accepted s)) mod 2 ^ 64)%N;
  inv_indexes : ∀ j i m, accepted s !! j = Some (i, m) → index i = (N.of_nat (S j) mod 2 ^ 64)%N;
}.

(** Two positions of one window that share a slot are the same. *)
Lemma window_slot_inj f n j j' :
  0 < n → f ≤ j < f + n → f ≤ j' < f + n → j mod n = j' mod n → j = j'.
Proof.
  intros Hn Hj Hj' Heq. pose proof (Nat.div_mod_eq j n). pose proof (Nat.div_mod_eq j' n).
  rewrite Heq in *. assert (j / n = j' / n) as Hd; [|rewrite Hd in *; lia].
  destruct (Nat.lt_trichotomy (j / n) (j' / n)) as [Hlt|[?|Hlt]]; [exfalso|done|exfalso].
  - assert (n * (j / n) + n ≤ n * (j' / n)) by nia. lia.
  - assert (n * (j' / n) + n ≤ n * (j / n)) by nia. lia.
Qed.

Lemma mmq_start_inv size (ck : CK) : 0 < size → mmq_inv (start size ck : mmq M CK).
Proof.
  intros Hs. split; unfold consumer_ok, circular_buffer_size_, freed; simpl; rewrite ?length_replicate.
  - done.
  - lia.
  - by rewrite Nat.Div0.mod_0_l.
  - intros j Hj. exists (mkEntry (mkIdxTs 0 0) inhabitant FREE). split; [|done]. apply lookup_replicate_2. apply Nat.mod_upper_bound. lia.
  - apply map_Forall_empty.
  - intros *. by rewrite lookup_empty.
  - split_and!; [by rewrite Nat.Div0.mod_0_l|done|done].
  - done.
  - done.
Qed.

(** Each message the consumer was called with had been accepted. *)
Lemma consumed_le s : mmq_inv s → length (consumed (consumer_ s)) ≤ length (accepted s).
Proof.
  intros [_ Hwin _ _ _ _ (_ & _ & Hat) _ _]. unfold freed in *.
  destruct (consumer_at (consumer_ s)); try destruct Hat as (? & ? & _); lia.
Qed.

(** *** Allocation *)

Section Allocate.
Context (s : mmq M CK) (tid : nat) (ts : microseconds) (m : M) (ck : CK) (e : Entry M).
Hypothesis Hinv : mmq_inv s.
Hypothesis Htid : ∀ p, publishers s !! tid = Some p → importing p = None.
Hypothesis He : circular_buffer_ (queue s) !! head_ (queue s) = Some e.
Hypothesis Hfree : status e = FREE.
Local Abbreviation n := (circular_buffer_size_ (queue s)).
Local Abbreviation f := (freed (consumer_ s)).
Local Abbreviation len := (length (accepted s)).

Let idxts := mkIdxTs (u64_succ (index (last_idx_ts_ (queue s)))) ts.
Let e' := mkEntry idxts (message_body e) BEING_IMPORTED.
Let q' := mkMMQImpl (<[head_ (queue s) := e']> (circular_buffer_ (queue s))) (Increment (queue s) (head_ (queue s)))
            idxts (destructing_ (queue s)) ck.
Let s' := mkMmq q' (<[tid := Importing (head_ (queue s)) m]> (publishers s)) (consumer_ s)
            (accepted s ++ [(idxts, m)]) (returned s).

Lemma alloc_size : circular_buffer_size_ q' = n.
Proof. unfold circular_buffer_size_. simpl. by rewrite length_insert. Qed.

(** The slot at the head is free, so the window is not full. *)
Lemma alloc_room : len < f + n.
Proof.
  destruct Hinv as [Hsize Hwin Hhead Hslots _ _ _ _ _].
  destruct (decide (len = f + n)) as [Hfull|]; [|lia]. exfalso.
  destruct (Hslots f) as (e0 & He0 & Hok); [lia|].
  assert (len mod n = f mod n) as Hmod.
  { rewrite Hfull. rewrite <- (Nat.mul_1_l n) at 1. by rewrite Nat.Div0.mod_add. }
  rewrite <- Hmod, <- Hhead, He in He0. injection He0 as <-. unfold slot_ok in Hok.
  destruct (accepted s !! f) as [[i' m']|] eqn:Hf; [rewrite Hfree in Hok; by destruct Hok|].
  apply lookup_ge_None in Hf. lia.
Qed.

Lemma alloc_other j : f ≤ j < f + n → j ≠ len → head_ (queue s) ≠ j mod n.
Proof.
  intros Hj Hne Heq. pose proof alloc_room. destruct Hinv as [Hsize Hwin Hhead _ _ _ _ _ _].
  apply Hne, (window_slot_inj f n); [done..|lia|]. by rewrite <- Heq.
Qed.

Lemma alloc_keeps j : f ≤ j < f + n → j ≠ len →
  circular_buffer_ q' !! (j mod n) = circular_buffer_ (queue s) !! (j mod n).
Proof. intros Hj Hne. simpl. by apply list_lookup_insert_ne, alloc_other. Qed.

Lemma alloc_new : circular_buffer_ q' !! (len mod n) = Some e'.
Proof. simpl. rewrite <- (inv_head _ Hinv). apply list_lookup_insert_eq. eapply lookup_lt_Some, He. Qed.

Lemma alloc_slots j : f ≤ j < f + n →
  ∃ e0, circular_buffer_ q' !! (j mod n) = Some e0 ∧ slot_ok s' j e0.
Proof.
  intros Hj. unfold slot_ok. change (queue s') with q'. rewrite alloc_size. simpl.
  destruct (decide (j = len)) as [->|Hne].
  - exists e'. split; [apply alloc_new|]. rewrite list_lookup_middle by done. split; [done|].
    exists tid, (Importing (head_ (queue s)) m). rewrite lookup_insert_eq. split; [done|].
    simpl. by rewrite (inv_head _ Hinv).
  - destruct (inv_slots _ Hinv j Hj) as (e0 & He0 & Hok). exists e0. rewrite alloc_keeps by done.
    split; [done|]. unfold slot_ok in Hok. destruct (decide (j < len)) as [Hlt|Hge].
    + rewrite lookup_app_l by done. destruct (accepted s !! j) as [[i' m']|] eqn:Hj'; [|done].
      destruct Hok as [Hi' Hst]. split; [done|]. destruct (status e0); [done| |done|done].
      destruct Hst as (t & p & Hp & Himp). exists t, p. split; [|done].
      rewrite lookup_insert_ne; [done|]. intros <-. by rewrite (Htid p Hp) in Himp.
    + rewrite (proj2 (lookup_ge_None (accepted s) j)) in Hok by lia.
      rewrite (proj2 (lookup_ge_None _ j)); [done|]. rewrite length_app. simpl. lia.
Qed.

Lemma alloc_publishers : map_Forall (λ _, publisher_ok s') (publishers s').
Proof.
  pose proof (inv_window _ Hinv) as Hwin. pose proof alloc_room as Hroom. apply map_Forall_insert_2.
  - unfold publisher_ok. change (queue s') with q'. exists len, e'. rewrite alloc_size. simpl. rewrite length_app, list_lookup_middle by done. simpl.
    split_and!; [lia|lia|apply (inv_head _ Hinv)| |done..].
    apply list_lookup_insert_eq. eapply lookup_lt_Some, He.
  - intros t p Hp. pose proof (inv_publishers _ Hinv t p Hp) as Hok. unfold publisher_ok in *.
    change (queue s') with q'. rewrite alloc_size. destruct p as [|i' m'|i' m'|]; try done.
    all: destruct Hok as (j & e0 & Hj & -> & He0 & Hst & Hacc & Hbody); exists j, e0.
    all: simpl accepted; rewrite length_app, lookup_app_l by lia; simpl length.
    all: split_and!; try done; [simpl; lia|lia|]; rewrite alloc_keeps; [done|lia|lia].
Qed.

(** No other publisher has the slot at the head. *)
Lemma alloc_only t p m' : publishers s !! t = Some p → importing p = Some (head_ (queue s), m') → False.
Proof.
  intros Hp Hi. pose proof (inv_publishers _ Hinv t p Hp) as Hok. pose proof alloc_room.
  destruct p as [|i' m1|i' m1|]; try done; simpl in Hi; injection Hi as -> ->;
    destruct Hok as (j & e0 & Hj & Heq & _); apply (alloc_other j); lia || done.
Qed.

Lemma alloc_unique t t' p p' i m1 m2 :
  publishers s' !! t = Some p → publishers s' !! t' = Some p' →
  importing p = Some (i, m1) → importing p' = Some (i, m2) → t = t'.
Proof.
  simpl. intros [[<- <-]|[Hne Hp]]%lookup_insert_Some [[<- <-]|[Hne' Hp']]%lookup_insert_Some Hi Hi'; [done|..].
  - simpl in Hi. injection Hi as <- <-. by destruct (alloc_only t' p' m2).
  - simpl in Hi'. injection Hi' as <- <-. by destruct (alloc_only t p m1).
  - by eapply (inv_unique _ Hinv).
Qed.

Lemma alloc_consumer : consumer_ok s'.
Proof.
  pose proof (inv_window _ Hinv) as Hwin. pose proof (consumed_le _ Hinv) as Hle. pose proof alloc_room as Hroom.
  destruct (inv_consumer _ Hinv) as (Ht & Hc & Hat). unfold consumer_ok. change (queue s') with q'.
  change (consumer_ s') with (consumer_ s). rewrite alloc_size.
  split_and!; [done| |].
  - simpl accepted. by rewrite Hc, take_app_le.
  - destruct (consumer_at (consumer_ s)) eqn:Hcat; try done.
    all: destruct Hat as (Hlt & Hpos & e0 & He0 & Hst); split_and!; [simpl; rewrite length_app; lia|done|].
    all: exists e0; split; [|done]; rewrite Ht in *; rewrite alloc_keeps; [done|lia|lia].
Qed.

Lemma allocate_inv : mmq_inv s'.
Proof.
  pose proof alloc_room as Hroom. pose proof (inv_window _ Hinv) as Hwin. pose proof (inv_last _ Hinv) as Hlast.
  split; change (queue s') with q'; change (consumer_ s') with (consumer_ s); rewrite ?alloc_size.
  - apply Hinv.
  - simpl. rewrite length_app. simpl. lia.
  - simpl. rewrite (inv_head _ Hinv), length_app. unfold Increment. simpl. by rewrite Nat.Div0.add_mod_idemp_l.
  - apply alloc_slots.
  - apply alloc_publishers.
  - apply alloc_unique.
  - apply alloc_consumer.
  - simpl. rewrite Hlast, length_app, Nat2N.inj_add. unfold u64_succ. simpl. by rewrite N.Div0.add_mod_idemp_l.
  - simpl. intros j i' m' Hj. apply lookup_app_Some in Hj as [Hj|[Hge Hj]]; [by apply (inv_indexes _ Hinv j i' m')|].
    apply list_lookup_singleton_Some in Hj as [Hj [= <- <-]]. simpl. rewrite Hlast. unfold u64_succ.
    rewrite N.Div0.add_mod_idemp_l. f_equal. lia.
Qed.
End Allocate.

(** *** Changing one slot *)

Lemma set_slot_size k e q : circular_buffer_size_ (set_slot k e q) = circular_buffer_size_ q.
Proof. unfold circular_buffer_size_. simpl. apply length_insert. Qed.

Lemma other_publisher_ok s pubs c ret k e' p :
  publisher_ok s p → freed c = freed (consumer_ s) → (∀ m, importing p ≠ Some (k, m)) →
  publisher_ok (mkMmq (set_slot k e' (queue s)) pubs c (accepted s) ret) p.
Proof.
  unfold publisher_ok. simpl queue. cbv zeta. rewrite set_slot_size. simpl. intros Hok Hf Hne. rewrite Hf.
  destruct p as [|i m|i m|]; try done.
  all: destruct Hok as (j & e & Hj & Hi & He & Hst & Hacc & Hb); exists j, e; split_and!; try done; try lia.
  all: rewrite list_lookup_insert_ne; [done|]; intros ->; by apply (Hne m).
Qed.

(** A publisher moves on with the slot it has allocated. *)
Section PublisherMoves.
Context (s : mmq M CK) (tid i : nat) (m : M) (p p' : publisher M) (e e' : Entry M).
Hypothesis Hinv : mmq_inv s.
Hypothesis Hp : publishers s !! tid = Some p.
Hypothesis Himp : importing p = Some (i, m).
Hypothesis He : circular_buffer_ (queue s) !! i = Some e.
Hypothesis Hidx : index_timestamp e' = index_timestamp e.
Let s' := mkMmq (set_slot i e' (queue s)) (<[tid := p']> (publishers s)) (consumer_ s) (accepted s) (returned s).
Hypothesis Hnew : publisher_ok s' p'.
Hypothesis Hnew_imp : ∀ x, importing p' = Some x → x = (i, m).
Hypothesis Hnew_slot : match status e' with
  | BEING_IMPORTED => importing p' = Some (i, m) | READY => message_body e' = m | _ => False end.

Lemma moves_position : ∃ j, freed (consumer_ s) ≤ j < length (accepted s) ∧
  i = j mod circular_buffer_size_ (queue s) ∧ accepted s !! j = Some (index_timestamp e, m) ∧ status e = BEING_IMPORTED.
Proof.
  pose proof (inv_publishers _ Hinv tid p Hp) as Hok. clear Hnew s'.
  destruct p as [|i0 m0|i0 m0|]; try done; simpl in Himp; injection Himp as -> ->;
    destruct Hok as (j & e0 & Hj & Hi & He0 & Hst & Hacc & _); rewrite He in He0; injection He0 as <-;
    exists j; done.
Qed.

Local Abbreviation n := (circular_buffer_size_ (queue s)).

Lemma moves_slots j :
  freed (consumer_ s) ≤ j < freed (consumer_ s) + n →
  ∃ e0, circular_buffer_ (set_slot i e' (queue s)) !! (j mod n) = Some e0 ∧ slot_ok s' j e0.
Proof.
  intros Hj. destruct moves_position as (ji & Hji & -> & Hacc & Hst).
  pose proof (inv_window _ Hinv) as Hwin.
  unfold slot_ok. change (queue s') with (set_slot (ji mod n) e' (queue s)). rewrite set_slot_size. simpl.
  destruct (decide (j = ji)) as [->|Hne].
  - exists e'. split; [eapply list_lookup_insert_eq, lookup_lt_Some, He|]. rewrite Hacc. split; [done|].
    destruct (status e'); try done. exists tid, p'. by rewrite lookup_insert_eq.
  - assert (ji mod n ≠ j mod n) as Hmod.
    { intros Heq. apply Hne, (window_slot_inj (freed (consumer_ s)) n); [apply Hinv|lia|lia|done]. }
    destruct (inv_slots _ Hinv j Hj) as (e0 & He0 & Hok). exists e0. rewrite list_lookup_insert_ne by done.
    split; [done|]. unfold slot_ok in Hok. destruct (accepted s !! j) as [[i' m']|]; [|done].
    destruct Hok as [Hi' Hok]. split; [done|]. destruct (status e0); try done.
    destruct Hok as (t & p0 & Hp0 & Hi0). exists t, p0. split; [|done]. rewrite lookup_insert_ne; [done|].
    intros <-. rewrite Hp in Hp0. injection Hp0 as <-. rewrite Himp in Hi0. by injection Hi0.
Qed.

Lemma moves_publishers : map_Forall (λ _, publisher_ok s') (publishers s').
Proof.
  intros t p0 Hp0. simpl in Hp0. apply lookup_insert_Some in Hp0 as [[_ <-]|[Hne Hp0]]; [done|].
  apply other_publisher_ok; [by apply (inv_publishers _ Hinv t)|done|].
  intros m0 Hi0. by apply Hne, (inv_unique _ Hinv tid t p p0 i m m0).
Qed.

Lemma moves_unique t t' p1 p2 i0 m1 m2 :
  publishers s' !! t = Some p1 → publishers s' !! t' = Some p2 →
  importing p1 = Some (i0, m1) → importing p2 = Some (i0, m2) → t = t'.
Proof.
  simpl. intros [[<- <-]|[Hne Hp1]]%lookup_insert_Some [[<- <-]|[Hne' Hp2]]%lookup_insert_Some Hi1 Hi2; [done|..].
  - pose proof (Hnew_imp _ Hi1) as [= -> ->]. by eapply (inv_unique _ Hinv tid t' p p2).
  - pose proof (Hnew_imp _ Hi2) as [= -> ->]. by eapply (inv_unique _ Hinv t tid p1 p).
  - by eapply (inv_unique _ Hinv).
Qed.

Lemma moves_consumer : consumer_ok s'.
Proof.
  destruct (inv_consumer _ Hinv) as (Ht & Hc & Hat). unfold consumer_ok.
  change (queue s') with (set_slot i e' (queue s)). rewrite set_slot_size. simpl. split_and!; [done..|].
  destruct (consumer_at (consumer_ s)); try done.
  all: destruct Hat as (Hlt & Hpos & e0 & He0 & Hst); split_and!; [done..|]; exists e0; split; [|done].
  all: rewrite list_lookup_insert_ne; [done|]; intros Heq; rewrite <- Heq, He in He0; injection He0 as <-.
  all: destruct moves_position as (? & _ & _ & _ & Hst'); congruence.
Qed.

Lemma moves_inv : mmq_inv s'.
Proof.
  split; try apply Hinv; change (queue s') with (set_slot i e' (queue s)); rewrite ?set_slot_size; try apply Hinv.
  - apply moves_slots.
  - apply moves_publishers.
  - apply moves_unique.
  - apply moves_consumer.
Qed.
End PublisherMoves.

(** *** Steps that leave the buffer alone *)

Lemma neutral_inv s dst ck pubs ret :
  mmq_inv s →
  (∀ t p, pubs !! t = Some p → publishers s !! t = Some p ∨ importing p = None ∧ publisher_ok s p) →
  (∀ t p, publishers s !! t = Some p → importing p ≠ None → pubs !! t = Some p) →
  mmq_inv (mkMmq (mkMMQImpl (circular_buffer_ (queue s)) (head_ (queue s)) (last_idx_ts_ (queue s)) dst ck)
             pubs (consumer_ s) (accepted s) ret).
Proof.
  intros [Hsize Hwin Hhead Hslots Hpubs Huniq Hcons Hlast Hidx] Hnew Hold. split; try done.
  - intros j Hj. destruct (Hslots j Hj) as (e & He & Hok). exists e. split; [done|]. unfold slot_ok in *. simpl.
    destruct (accepted s !! j) as [[i m]|]; [|done]. destruct Hok as [? Hok]. split; [done|].
    destruct (status e); try done. destruct Hok as (t & p & Hp & Hi). exists t, p. split; [|done].
    apply Hold; [done|]. by rewrite Hi.
  - intros t p Hp. apply Hnew in Hp as [Hp|[_ Hp]]; [by apply (Hpubs t)|done].
  - intros t t' p p' i m m' Hp Hp' Hi Hi'.
    apply Hnew in Hp as [Hp|[Hp _]]; [|congruence]. apply Hnew in Hp' as [Hp'|[Hp' _]]; [|congruence]. eauto.
Qed.

(** *** The consumer thread *)

Lemma consumer_stop_inv s :
  mmq_inv s → consumer_at (consumer_ s) = AtWait →
  mmq_inv (mkMmq (queue s) (publishers s) (mkConsumer Stopped (tail (consumer_ s)) (consumed (consumer_ s)))
             (accepted s) (returned s)).
Proof.
  intros [Hsize Hwin Hhead Hslots Hpubs Huniq Hcons Hlast Hidx] Hat.
  unfold consumer_ok, freed, publisher_ok, slot_ok, freed in *. rewrite Hat in *. split; try done.
Qed.

Section ConsumerMoves.
Context (s : mmq M CK) (e : Entry M).
Hypothesis Hinv : mmq_inv s.
Hypothesis He : circular_buffer_ (queue s) !! tail (consumer_ s) = Some e.
Local Abbreviation n := (circular_buffer_size_ (queue s)).
Local Abbreviation c := (consumer_ s).
Local Abbreviation f := (freed (consumer_ s)).

Lemma tail_slot : slot_ok s f e.
Proof.
  pose proof (inv_size _ Hinv). destruct (inv_slots _ Hinv f) as (e0 & He0 & Hok); [lia|].
  rewrite <- (proj1 (inv_consumer _ Hinv)), He in He0. by injection He0 as <-.
Qed.

(** No publisher is writing to a slot that is not being imported. *)
Lemma not_importing t p m : status e ≠ BEING_IMPORTED → publishers s !! t = Some p → importing p ≠ Some (tail c, m).
Proof.
  intros Hst Hp Hi. pose proof (inv_publishers _ Hinv t p Hp) as Hok.
  destruct p as [|i m'|i m'|]; try done; simpl in Hi; injection Hi as -> ->;
    destruct Hok as (j & e0 & _ & _ & He0 & Hst0 & _); rewrite He in He0; injection He0 as <-; done.
Qed.

(** Take the slot: mark it as being exported. *)
Lemma take_inv :
  consumer_at c = AtWait → status e = READY →
  mmq_inv (mkMmq (set_slot (tail c) (mkEntry (index_timestamp e) (message_body e) BEING_EXPORTED) (queue s))
             (publishers s) (mkConsumer (Exporting (last_idx_ts_ (queue s))) (tail c) (consumed c))
             (accepted s) (returned s)).
Proof.
  intros Hat Hst. pose proof tail_slot as Htail. unfold slot_ok in Htail.
  destruct (accepted s !! f) as [[i m]|] eqn:Hacc; [|congruence]. rewrite Hst in Htail. destruct Htail as [Hi Hm].
  pose proof (lookup_lt_Some _ _ _ Hacc) as Hlt. destruct (inv_consumer _ Hinv) as (Ht & Hc & _).
  set (e' := mkEntry (index_timestamp e) (message_body e) BEING_EXPORTED).
  assert (freed (mkConsumer (Exporting (last_idx_ts_ (queue s))) (tail c) (consumed c)) = f) as Hf.
  { unfold freed. simpl. by rewrite Hat. }
  split; simpl queue; simpl consumer_; rewrite ?set_slot_size, ?Hf; try apply Hinv.
  - intros j Hj. unfold slot_ok. simpl queue. simpl consumer_. rewrite set_slot_size, Hf. simpl.
    destruct (decide (j = f)) as [->|Hne].
    + exists e'. rewrite <- Ht. split; [eapply list_lookup_insert_eq, lookup_lt_Some, He|]. by rewrite Hacc.
    + destruct (inv_slots _ Hinv j Hj) as (e0 & He0 & Hok). exists e0. rewrite list_lookup_insert_ne.
      2:{ rewrite Ht. intros Heq. apply Hne, (window_slot_inj f n); [apply Hinv|lia|lia|done]. }
      split; [done|]. unfold slot_ok in Hok. destruct (accepted s !! j) as [[i' m']|]; [|done].
      destruct Hok as [? Hok]. split; [done|]. destruct (status e0); try done. destruct Hok as (_ & -> & _). done.
  - intros t p Hp. apply other_publisher_ok; [by apply (inv_publishers _ Hinv t)|done|].
    intros m0. eapply not_importing; [congruence|exact Hp].
  - unfold consumer_ok. simpl queue. simpl consumer_. rewrite set_slot_size, Hf. simpl. split_and!; try done.
    exists e'. split; [|done]. eapply list_lookup_insert_eq, lookup_lt_Some, He.
Qed.

(** Call the user's consumer. *)
Lemma export_inv last :
  consumer_at c = Exporting last →
  mmq_inv (mkMmq (queue s) (publishers s)
             (mkConsumer Exported (tail c) (consumed c ++ [(message_body e, index_timestamp e, last)]))
             (accepted s) (returned s)).
Proof.
  intros Hat. pose proof tail_slot as Htail.
  destruct Hinv as [Hsize Hwin Hhead Hslots Hpubs Huniq (Ht & Hc & Hat') Hlast Hidx].
  rewrite Hat in Hat'. destruct Hat' as (Hlt & _ & e0 & He0 & Hst). rewrite He in He0. injection He0 as <-.
  unfold slot_ok in Htail. rewrite Hst in Htail.
  destruct (accepted s !! f) as [[i m]|] eqn:Hacc; [|done]. destruct Htail as (<- & <- & _ & _).
  assert (freed (mkConsumer Exported (tail c) (consumed c ++ [(message_body e, index_timestamp e, last)])) = f) as Hf.
  { unfold freed. simpl. rewrite Hat, length_app. simpl. lia. }
  split; simpl consumer_; rewrite ?Hf; try done.
  - intros j Hj. destruct (Hslots j Hj) as (e0 & He0 & Hok). exists e0. split; [done|].
    unfold slot_ok in *. simpl. rewrite Hf. destruct (accepted s !! j) as [[i' m']|]; [|done].
    destruct Hok as [? Hok]. split; [done|]. destruct (status e0); try done. by rewrite Hat in Hok.
  - intros t p Hp. specialize (Hpubs t p Hp). unfold publisher_ok in *. simpl consumer_. by rewrite Hf.
  - unfold consumer_ok. simpl consumer_. rewrite Hf. simpl. split_and!; try done.
    + rewrite length_app. simpl. rewrite Nat.add_1_r. unfold freed in Hacc. rewrite Hat in Hacc.
      by rewrite (take_S_r _ _ _ Hacc), !fmap_app, Hc.
    + intros _. rewrite length_app. simpl. lia.
    + by exists e.
Qed.

(** Free the slot: the window moves on by one message. *)
Lemma free_inv :
  consumer_at c = Exported →
  mmq_inv (mkMmq (set_slot (tail c) (mkEntry (index_timestamp e) (message_body e) FREE) (queue s))
             (publishers s) (mkConsumer AtWait (Increment (queue s) (tail c)) (consumed c))
             (accepted s) (returned s)).
Proof.
  intros Hat. destruct (inv_consumer _ Hinv) as (Ht & Hc & Hat'). rewrite Hat in Hat'.
  destruct Hat' as (Hlt & Hpos & e0 & He0 & Hst). specialize (Hpos eq_refl).
  rewrite He in He0. injection He0 as <-.
  pose proof (inv_size _ Hinv) as Hsize. pose proof (inv_window _ Hinv) as Hwin.
  set (e' := mkEntry (index_timestamp e) (message_body e) FREE).
  assert (freed (mkConsumer AtWait (Increment (queue s) (tail c)) (consumed c)) = S f) as Hf.
  { unfold freed. simpl. rewrite Hat. lia. }
  split; simpl queue; simpl consumer_; rewrite ?set_slot_size, ?Hf; simpl accepted; try apply Hinv; try lia.
  - intros j Hj. unfold slot_ok. simpl queue. simpl consumer_. rewrite set_slot_size, Hf. simpl.
    destruct (decide (j = f + n)) as [->|Hne].
    + exists e'. replace (f + n) with (f + 1 * n) by lia. rewrite Nat.Div0.mod_add, <- Ht.
      split; [eapply list_lookup_insert_eq, lookup_lt_Some, He|].
      rewrite (proj2 (lookup_ge_None _ _)); [done|]. lia.
    + destruct (inv_slots _ Hinv j) as (e0 & He0 & Hok); [lia|]. exists e0. rewrite list_lookup_insert_ne.
      2:{ rewrite Ht. intros Heq. apply (window_slot_inj f n) in Heq; lia. }
      split; [done|]. unfold slot_ok in Hok. destruct (accepted s !! j) as [[i' m']|]; [|done].
      destruct Hok as [? Hok]. split; [done|]. destruct (status e0); try done. destruct Hok as (_ & -> & _). lia.
  - intros t p Hp. pose proof (inv_publishers _ Hinv t p Hp) as Hok.
    pose proof (λ m, not_importing t p m ltac:(congruence) Hp) as Hne. unfold publisher_ok in *.
    simpl queue. simpl consumer_. simpl accepted. cbv zeta. rewrite set_slot_size, Hf. destruct p as [|i m|i m|]; try done.
    all: destruct Hok as (j & e0 & Hj & -> & He0 & Hst0 & Hacc & Hb); exists j, e0.
    all: assert (j ≠ f) by (intros ->; rewrite <- Ht in Hne; by apply (Hne m)).
    all: split_and!; try done; try lia; simpl; rewrite list_lookup_insert_ne; [done|]; rewrite Ht.
    all: intros Heq; apply (window_slot_inj f n) in Heq; lia.
  - unfold consumer_ok. simpl queue. simpl consumer_. rewrite set_slot_size, Hf. simpl. split_and!; try done.
    unfold Increment. rewrite Ht, Nat.Div0.add_mod_idemp_l. f_equal. lia.
Qed.
End ConsumerMoves.

(** *** Every step *)

Definition not_in_slot s (tid : nat) : Prop := ∀ p, publishers s !! tid = Some p → importing p = None.

Lemma allocate_progress s tid ts m ck q' r e :
  mmq_inv s → not_in_slot s tid →
  circular_buffer_ (queue s) !! head_ (queue s) = Some e → status e = FREE →
  allocate ts m (set_clock ck (queue s)) = Ok (q', r) →
  mmq_inv (record_progress tid q' r s) ∧
  accepted (record_progress tid q' r s) = accepted s ++ [(mkIdxTs (u64_succ (index (last_idx_ts_ (queue s)))) ts, m)] ∧
  last_idx_ts_ q' = mkIdxTs (u64_succ (index (last_idx_ts_ (queue s)))) ts.
Proof.
  intros Hinv Htid He Hst. unfold allocate, at_slot. simpl. rewrite He. simpl. intros [= <- <-].
  split_and!; [|done..]. by apply (allocate_inv s tid ts m ck e).
Qed.

(** A call that ends without a slot, or goes on waiting. *)
Lemma no_slot_progress s tid ck r :
  mmq_inv s → not_in_slot s tid →
  match r with Inside (Waiting _ _) | Returned _ _ | Threw _ => True | _ => False end →
  mmq_inv (record_progress tid (set_clock ck (queue s)) r s) ∧
  accepted (record_progress tid (set_clock ck (queue s)) r s) = accepted s.
Proof.
  intros Hinv Htid Hr. unfold record_progress, set_clock.
  assert (∀ t p, delete tid (publishers s) !! t = Some p → publishers s !! t = Some p) as Hdel.
  { intros t p Hp. by apply lookup_delete_Some in Hp as [_ Hp]. }
  destruct r as [[]| |]; try done; (split; [|done]); apply neutral_inv; try done; try (intros t p Hp; left; by apply Hdel).
  - intros t p [[<- <-]|[_ Hp]]%lookup_insert_Some; [by right|by left].
  - intros t p Hp Hi. rewrite lookup_insert_ne; [done|]. intros <-. by apply Hi, Htid.
  - intros t p Hp Hi. rewrite lookup_delete_ne; [done|]. intros <-. by apply Hi, Htid.
  - intros t p Hp Hi. rewrite lookup_delete_ne; [done|]. intros <-. by apply Hi, Htid.
Qed.

(** What a part of a publish call does to the accepted messages: nothing, or it
    adds the one it has just numbered. *)
Definition accepts s (ts : microseconds → Prop) q' (acc : list (idxts_t * M)) : Prop :=
  acc = accepted s ∧ last_idx_ts_ q' = last_idx_ts_ (queue s) ∨
  ∃ t m, ts t ∧ acc = accepted s ++ [(last_idx_ts_ q', m)] ∧ us (last_idx_ts_ q') = t.

Lemma wait_for_slot_inv s tid ts m ck q' r :
  mmq_inv s → not_in_slot s tid → wait_for_slot ts m (set_clock ck (queue s)) = Ok (q', r) →
  mmq_inv (record_progress tid q' r s) ∧ accepts s (λ _, True) q' (accepted (record_progress tid q' r s)).
Proof.
  intros Hinv Htid. unfold wait_for_slot, at_slot. simpl.
  destruct (circular_buffer_ (queue s) !! _) as [e|] eqn:He; simpl; [|done].
  case_bool_decide as Hst.
  - unfold allocate_nonnegative. destruct (0 <=? ts)%Z.
    + intros Hal. eapply allocate_progress in Hal as (? & Hacc & Hl); [|done..]. split; [done|].
      right. rewrite Hl. by exists ts, m.
    + simpl. destruct (Now ck) as [now ck']. intros Hal.
      eapply (allocate_progress s tid now m ck') in Hal as (? & Hacc & Hl); [|done..]. split; [done|].
      right. rewrite Hl. by exists now, m.
  - intros [= <- <-]. destruct (no_slot_progress s tid ck (Inside (Waiting m ts)) Hinv Htid I) as [? ?].
    split; [done|]. by left.
Qed.

Lemma no_slot_accepts s tid ck r P :
  mmq_inv s → not_in_slot s tid →
  match r with Inside (Waiting _ _) | Returned _ _ | Threw _ => True | _ => False end →
  mmq_inv (record_progress tid (set_clock ck (queue s)) r s) ∧
  accepts s P (set_clock ck (queue s)) (accepted (record_progress tid (set_clock ck (queue s)) r s)).
Proof.
  intros Hinv Htid Hr. destruct (no_slot_progress s tid ck r Hinv Htid Hr). split; [done|]. by left.
Qed.

Lemma returned_accepts s tid m i P :
  mmq_inv s → not_in_slot s tid →
  mmq_inv (record_progress tid (queue s) (Returned m i) s) ∧
  accepts s P (queue s) (accepted (record_progress tid (queue s) (Returned m i) s)).
Proof.
  intros Hinv Htid. pose proof (no_slot_accepts s tid (clock (queue s)) (Returned m i) P Hinv Htid I) as Hr.
  by replace (set_clock (clock (queue s)) (queue s)) with (queue s) in Hr by by destruct (queue s).
Qed.

Lemma CircularBufferAllocate_inv DROP s tid a m q' r :
  mmq_inv s → not_in_slot s tid → CircularBufferAllocate DROP a m (queue s) = Ok (q', r) →
  mmq_inv (record_progress tid q' r s) ∧
  accepts s (λ t, DROP = true → us (last_idx_ts_ (queue s)) < t)%Z q' (accepted (record_progress tid q' r s)).
Proof.
  intros Hinv Htid. unfold CircularBufferAllocate, CircularBufferAllocate_drop, CircularBufferAllocate_wait, at_slot.
  destruct (TimestampAsMicroseconds a _) as [ts ck] eqn:Hts. simpl. destruct DROP.
  - destruct (circular_buffer_ (queue s) !! _) as [e|] eqn:He; simpl; [|done].
    case_bool_decide as Hst; [|intros [= <- <-]; by apply returned_accepts].
    destruct (Z.ltb_spec (us (last_idx_ts_ (queue s))) ts); simpl; [|intros [= <- <-]; by apply no_slot_accepts].
    intros Hal. eapply allocate_progress in Hal as (? & Hacc & Hl); [|done..]. split; [done|].
    right. rewrite Hl. by exists ts, m.
  - destruct (destructing_ (queue s)); [intros [= <- <-]; by apply returned_accepts|].
    destruct (us (last_idx_ts_ (queue s)) <? ts)%Z; simpl; [|intros [= <- <-]; by apply no_slot_accepts].
    intros Hw. eapply wait_for_slot_inv in Hw as [? Ha]; [|done..]. split; [done|].
    destruct Ha as [?|(t & m' & _ & ?)]; [by left|]. right. by exists t, m'.
Qed.

Lemma PublisherPublishImpl_step_inv s tid p q' r :
  mmq_inv s → publishers s !! tid = Some p → PublisherPublishImpl_step p (queue s) = Ok (q', r) →
  mmq_inv (record_progress tid q' r s) ∧
  accepts s (λ _, ∃ m ts, p = Waiting m ts) q' (accepted (record_progress tid q' r s)).
Proof.
  intros Hinv Hp. assert (importing p = None → not_in_slot s tid) as Hnot.
  { intros Hi p'. rewrite Hp. by intros [= <-]. }
  destruct p as [m ts|i m|i m|i m]; simpl.
  - destruct (destructing_ (queue s)); [intros [= <- <-]; by apply returned_accepts, Hnot|].
    replace (queue s) with (set_clock (clock (queue s)) (queue s)) at 1 by by destruct (queue s).
    intros Hw. eapply wait_for_slot_inv in Hw as [? Ha]; [|done|by apply Hnot]. split; [done|].
    destruct Ha as [?|(t & m' & _ & ?)]; [by left|]. right. exists t, m'. split; [by eexists _, _|done].
  - unfold at_slot. destruct (circular_buffer_ (queue s) !! i) as [e|] eqn:He; simpl; [|done]. intros [= <- <-].
    split; [|by left]. pose proof (inv_publishers _ Hinv tid _ Hp) as (j & e0 & Hj & Hi & He0 & Hst & Hacc & _).
    rewrite He in He0. injection He0 as <-.
    eapply (moves_inv s tid i m _ (Imported i m) e (mkEntry (index_timestamp e) m (status e))); try done.
    + exists j, (mkEntry (index_timestamp e) m (status e)). simpl. rewrite set_slot_size.
      split_and!; try done; try lia. eapply list_lookup_insert_eq, lookup_lt_Some, He.
    + by intros x [= <-].
    + simpl. by rewrite Hst.
  - unfold CircularBufferCommit, at_slot. destruct (circular_buffer_ (queue s) !! i) as [e|] eqn:He; simpl; [|done].
    intros [= <- <-]. split; [|by left].
    pose proof (inv_publishers _ Hinv tid _ Hp) as (j & e0 & Hj & Hi & He0 & Hst & Hacc & Hb).
    rewrite He in He0. injection He0 as <-.
    eapply (moves_inv s tid i m _ (Committed i m) e (mkEntry (index_timestamp e) (message_body e) READY)); try done.
    unfold publisher_ok. simpl. rewrite set_slot_size. eapply lookup_lt_Some, He.
  - unfold at_slot. destruct (circular_buffer_ (queue s) !! i) as [e|]; simpl; [|done]. intros [= <- <-].
    by apply returned_accepts, Hnot.
Qed.

Lemma ConsumerThread_step_inv s q' c' :
  mmq_inv s → ConsumerThread_step (consumer_ s) (queue s) = Ok (q', c') →
  mmq_inv (mkMmq q' (publishers s) c' (accepted s) (returned s)) ∧ last_idx_ts_ q' = last_idx_ts_ (queue s).
Proof.
  intros Hinv. assert (mmq_inv (mkMmq (queue s) (publishers s) (consumer_ s) (accepted s) (returned s))) as Hsame
    by by destruct s.
  unfold ConsumerThread_step, at_slot. destruct (consumer_at (consumer_ s)) as [|last| |] eqn:Hat.
  all: try (destruct (circular_buffer_ (queue s) !! _) as [e|] eqn:He; simpl; [|done]).
  - destruct (destructing_ (queue s)); [intros [= <- <-]; split; [by apply consumer_stop_inv|done]|].
    case_bool_decide; intros [= <- <-]; (split; [|done]); [by apply take_inv|done].
  - intros [= <- <-]. split; [by apply export_inv|done].
  - intros [= <- <-]. split; [by apply free_inv|done].
  - by intros [= <- <-].
Qed.

(** What any step does to the accepted messages. *)
Lemma mmq_step_inv DROP s s' :
  mmq_inv s → mmq_step DROP s s' →
  mmq_inv s' ∧ accepts s (λ t, DROP = true → (∀ t p, publishers s !! t = Some p → ∀ m ts, p ≠ Waiting m ts) →
    us (last_idx_ts_ (queue s)) < t)%Z (queue s') (accepted s').
Proof.
  intros Hinv Hstep.
  assert (∀ tid q' r, queue (record_progress tid q' r s) = q') as Hq by by intros ? ? [].
  destruct Hstep as [tid a m q' r s Hnone Hr|tid p q' r s Hp Hr|q' c' s Hr|s].
  - eapply (CircularBufferAllocate_inv _ s tid) in Hr as [? Ha]; [|done|intros p; by rewrite Hnone].
    rewrite Hq. split; [done|]. destruct Ha as [?|(t & m' & ? & ?)]; [by left|]. right. exists t, m'. split; [|done]. auto.
  - eapply (PublisherPublishImpl_step_inv s tid) in Hr as [? Ha]; [|done..]. rewrite Hq. split; [done|].
    destruct Ha as [?|(t & m' & (m & ts & ->) & ?)]; [by left|]. right. exists t, m'. split; [|done].
    intros _ Hw. by destruct (Hw _ _ Hp m ts).
  - apply ConsumerThread_step_inv in Hr as [? ?]; [|done]. split; [done|]. by left.
  - split; [|by left]. apply neutral_inv; [done| |]; eauto.
Qed.

Lemma reachable_mmq_inv DROP size ck s :
  0 < size → rtc (mmq_step DROP) (start size ck) s → mmq_inv s.
Proof.
  intros Hs%(mmq_start_inv _ ck) Hr. induction Hr as [|x y z Hxy _ IH]; [done|].
  apply IH. by eapply mmq_step_inv in Hxy as [? _].
Qed.

(** ** Time stamps of a queue that drops on overflow *)

Definition times (acc : list (idxts_t * M)) : list microseconds := (λ x, us x.1) <$> acc.

Definition drop_inv s : Prop :=
  (∀ t m ts, publishers s !! t ≠ Some (Waiting m ts)) ∧
  StronglySorted Z.lt (times (accepted s)) ∧
  Forall (λ t, (t ≤ us (last_idx_ts_ (queue s)))%Z) (times (accepted s)).

Lemma no_waiting_call a (m : M) q q' r m' ts :
  CircularBufferAllocate true a m q = Ok (q', r) → r ≠ Inside (Waiting m' ts).
Proof.
  unfold CircularBufferAllocate, CircularBufferAllocate_drop, allocate, at_slot, refused.
  destruct (TimestampAsMicroseconds a _). intros H ->. repeat (simpl in H; case_match || inv_ok); simplify_eq/=.
Qed.

Lemma no_waiting_step (p : publisher M) q q' r m' ts :
  (∀ m ts, p ≠ Waiting m ts) → PublisherPublishImpl_step p q = Ok (q', r) → r ≠ Inside (Waiting m' ts).
Proof.
  intros Hp H ->. destruct p as [m0 t0|i m0|i m0|i m0]; [by destruct (Hp m0 t0)|..]; simpl in H;
    unfold CircularBufferCommit, at_slot in H; repeat (case_match; simpl in H; try done); inv_ok; done.
Qed.

Lemma no_waiting_progress s tid q' r :
  (∀ t m ts, publishers s !! t ≠ Some (Waiting m ts)) → (∀ m ts, r ≠ Inside (Waiting m ts)) →
  ∀ t m ts, publishers (record_progress tid q' r s) !! t ≠ Some (Waiting m ts).
Proof.
  intros Hs Hr t m ts Ht. destruct r; simpl in Ht.
  - apply lookup_insert_Some in Ht as [[_ ->]|[_ Ht]]; [by apply (Hr m ts)|by apply (Hs t m ts)].
  - apply lookup_delete_Some in Ht as [_ Ht]. by apply (Hs t m ts).
  - apply lookup_delete_Some in Ht as [_ Ht]. by apply (Hs t m ts).
Qed.

Lemma drop_step_inv s s' : mmq_inv s → drop_inv s → mmq_step true s s' → drop_inv s'.
Proof.
  intros Hinv (Hw & Hs & Hf) Hstep. pose proof (mmq_step_inv _ _ _ Hinv Hstep) as [_ Hacc]. split.
  - destruct Hstep as [tid a m q' r s Hnone Hr|tid p q' r s Hp Hr|q' c' s Hr|s]; try done.
    + apply no_waiting_progress; [done|]. intros. by eapply no_waiting_call.
    + apply no_waiting_progress; [done|]. intros. eapply no_waiting_step; [|exact Hr].
      intros m1 t1 ->. by apply (Hw tid m1 t1).
  - destruct Hacc as [[-> ->]|(t & m & Ht & -> & Hlast)]; [done|].
    specialize (Ht eq_refl). assert (us (last_idx_ts_ (queue s)) < t)%Z as Hlt.
    { apply Ht. intros tid p Hp m' ts ->. by apply (Hw tid m' ts). }
    assert (Forall (λ x, (x < us (last_idx_ts_ (queue s')))%Z) (times (accepted s))) as Hless.
    { eapply Forall_impl; [exact Hf|]. simpl. intros. lia. }
    unfold times in *. rewrite fmap_app. split.
    + apply StronglySorted_app. split_and!; [|done|repeat constructor].
      intros x y Hx Hy. apply list_elem_of_singleton in Hy as ->. rewrite Forall_forall in Hless. by apply Hless.
    + apply Forall_app. split; [|by repeat constructor]. eapply Forall_impl; [exact Hless|]. simpl. intros. lia.
Qed.

Lemma reachable_drop_inv size ck s :
  0 < size → rtc (mmq_step true) (start size ck) s → drop_inv s.
Proof.
  intros Hs%(mmq_start_inv _ ck) Hr.
  assert (drop_inv (start size ck)) as Hd.
  { split; [intros t m ts; simpl; by rewrite lookup_empty|]. by repeat constructor. }
  induction Hr as [|x y z Hxy _ IH]; [done|]. apply IH; [|by eapply drop_step_inv].
  by eapply mmq_step_inv in Hxy as [? _].
Qed.

(** ** Progress *)

Lemma slot_in_range s j : mmq_inv s → is_Some (circular_buffer_ (queue s) !! (j mod circular_buffer_size_ (queue s))).
Proof.
  intros Hinv. pose proof (inv_size _ Hinv). apply lookup_lt_is_Some. unfold circular_buffer_size_ in *.
  apply Nat.mod_upper_bound. lia.
Qed.

Lemma publisher_slot_in_range s tid p :
  mmq_inv s → publishers s !! tid = Some p →
  match p with Waiting _ _ => True | Importing i _ | Imported i _ | Committed i _ =>
    is_Some (circular_buffer_ (queue s) !! i) end.
Proof.
  intros Hinv Hp. pose proof (inv_publishers _ Hinv tid p Hp) as Hok. destruct p; try done.
  - destruct Hok as (j & e & _ & -> & _). by apply slot_in_range.
  - destruct Hok as (j & e & _ & -> & _). by apply slot_in_range.
  - by apply lookup_lt_is_Some.
Qed.

(** The slot at the head is busy only when the buffer is full. *)
Lemma head_busy_full s e :
  mmq_inv s → circular_buffer_ (queue s) !! head_ (queue s) = Some e → status e ≠ FREE →
  length (accepted s) = freed (consumer_ s) + circular_buffer_size_ (queue s).
Proof.
  intros Hinv He Hst. pose proof (inv_window _ Hinv) as Hwin.
  destruct (decide (length (accepted s) < freed (consumer_ s) + circular_buffer_size_ (queue s))) as [Hlt|]; [|lia].
  destruct (inv_slots _ Hinv (length (accepted s))) as (e0 & He0 & Hok); [lia|].
  rewrite <- (inv_head _ Hinv), He in He0. injection He0 as <-. unfold slot_ok in Hok.
  by rewrite (proj2 (lookup_ge_None (accepted s) _)) in Hok by lia.
Qed.

Lemma head_in_range s : mmq_inv s → ∃ e, circular_buffer_ (queue s) !! head_ (queue s) = Some e.
Proof. intros Hinv. rewrite (inv_head _ Hinv). by apply slot_in_range. Qed.

Lemma tail_in_range s : mmq_inv s → ∃ e, circular_buffer_ (queue s) !! tail (consumer_ s) = Some e.
Proof. intros Hinv. rewrite (proj1 (inv_consumer _ Hinv)). by apply slot_in_range. Qed.

Lemma consumer_step_total s : mmq_inv s → is_ok (ConsumerThread_step (consumer_ s) (queue s)).
Proof.
  intros Hinv. destruct (tail_in_range s Hinv) as [e He]. unfold ConsumerThread_step, at_slot, is_ok. rewrite He. simpl.
  destruct (consumer_at (consumer_ s)); repeat case_match; eauto.
Qed.

Lemma publisher_step_total s tid p :
  mmq_inv s → publishers s !! tid = Some p → is_ok (PublisherPublishImpl_step p (queue s)).
Proof.
  intros Hinv Hp. pose proof (publisher_slot_in_range s tid p Hinv Hp) as Hslot.
  destruct (head_in_range s Hinv) as [eh Heh].
  destruct p; simpl; unfold wait_for_slot, CircularBufferCommit, allocate_nonnegative, allocate, at_slot, is_ok.
  - simpl. rewrite Heh. simpl. repeat case_match; simpl; rewrite ?Heh; simpl; eauto.
  - destruct Hslot as [e He]. rewrite He. simpl. eauto.
  - destruct Hslot as [e He]. rewrite He. simpl. eauto.
  - destruct Hslot as [e He]. rewrite He. simpl. eauto.
Qed.

(** A consumer thread that stays in its wait. *)
Lemma blocked_consumer s :
  mmq_inv s → consumer_at (consumer_ s) = AtWait →
  ConsumerThread_step (consumer_ s) (queue s) = Ok (queue s, consumer_ s) →
  length (consumed (consumer_ s)) = length (accepted s) ∨
  ∃ tid p m, publishers s !! tid = Some p ∧ importing p = Some (tail (consumer_ s), m).
Proof.
  intros Hinv Hat Hstep. destruct (tail_in_range s Hinv) as [e He]. pose proof (tail_slot s e Hinv He) as Hok.
  pose proof (inv_window _ Hinv) as Hwin. pose proof (proj1 (inv_consumer _ Hinv)) as Ht.
  unfold ConsumerThread_step, at_slot in Hstep. rewrite Hat, He in Hstep. simpl in Hstep.
  assert (freed (consumer_ s) = length (consumed (consumer_ s))) as Hf by (unfold freed; by rewrite Hat).
  unfold slot_ok in Hok. destruct (accepted s !! freed (consumer_ s)) as [[i m]|] eqn:Hacc.
  2:{ left. apply lookup_ge_None in Hacc. lia. }
  right. destruct Hok as [_ Hok]. rewrite Hat in Hok. rewrite Ht.
  destruct (status e) eqn:Hst; [done|naive_solver| |naive_solver].
  exfalso. destruct (destructing_ (queue s)).
  - injection Hstep as Hc. apply (f_equal consumer_at) in Hc. simpl in Hc. congruence.
  - simpl in Hstep. injection Hstep as _ Hc. apply (f_equal consumer_at) in Hc. simpl in Hc. congruence.
Qed.

(** A publisher that stays in its wait. *)
Lemma blocked_publisher s m ts :
  mmq_inv s → PublisherPublishImpl_step (Waiting m ts) (queue s) = Ok (queue s, Inside (Waiting m ts)) →
  length (accepted s) = freed (consumer_ s) + circular_buffer_size_ (queue s).
Proof.
  intros Hinv. destruct (head_in_range s Hinv) as [e He]. unfold PublisherPublishImpl_step, wait_for_slot, at_slot.
  destruct (destructing_ (queue s)); [done|]. rewrite He. simpl. case_bool_decide as Hst.
  - unfold allocate_nonnegative, allocate, at_slot. intros H. exfalso.
    repeat (case_match; simpl in H); simplify_eq.
  - intros _. by eapply head_busy_full.
Qed.

(** A message that is dropped. *)
Lemma drop_refused s a m q' :
  mmq_inv s → CircularBufferAllocate true a m (queue s) = Ok (q', refused m) →
  length (accepted s) = freed (consumer_ s) + circular_buffer_size_ (queue s).
Proof.
  intros Hinv. destruct (head_in_range s Hinv) as [e He].
  unfold CircularBufferAllocate, CircularBufferAllocate_drop, at_slot. rewrite He. simpl. case_bool_decide as Hst.
  - unfold allocate, at_slot. destruct (TimestampAsMicroseconds a _). simpl. rewrite He. intros H. exfalso.
    repeat (case_match; simpl in H); simplify_eq.
  - intros _. by eapply head_busy_full.
Qed.
End Invariant.

(** ** Runs, for the examples *)

Inductive action (M : Type) :=
| Call (tid : nat) (a : timestamp_arg) (m : M)
| Proceed (tid : nat)
| Consume
| Destruct.
Arguments Call {M} tid a m.
Arguments Proceed {M} tid.
Arguments Consume {M}.
Arguments Destruct {M}.

Section Runs.
Context {M CK : Type} `{!Inhabited M, !Clock CK} (DROP : bool).

Definition act (x : action M) (s : mmq M CK) : option (mmq M CK) :=
  match x with
  | Call tid a m =>
      match publishers s !! tid, CircularBufferAllocate DROP a m (queue s) with
      | None, Ok (q', r) => Some (record_progress tid q' r s)
      | _, _ => None
      end
  | Proceed tid =>
      p ← publishers s !! tid;
      match PublisherPublishImpl_step p (queue s) with Ok (q', r) => Some (record_progress tid q' r s) | _ => None end
  | Consume =>
      match ConsumerThread_step (consumer_ s) (queue s) with
      | Ok (q', c') => Some (mkMmq q' (publishers s) c' (accepted s) (returned s))
      | _ => None
      end
  | Destruct =>
      Some (mkMmq (signal_destruction (queue s)) (publishers s) (consumer_ s) (accepted s) (returned s))
  end.

Fixpoint run (xs : list (action M)) (s : mmq M CK) : option (mmq M CK) :=
  match xs with [] => Some s | x :: xs => s ← act x s; run xs s end.

Lemma act_step x s s' : act x s = Some s' → mmq_step DROP s s'.
Proof.
  destruct x as [tid a m|tid| |]; simpl; intros H.
  - destruct (publishers s !! tid) eqn:?; [done|]. repeat case_match; simplify_eq. by apply (step_call _ tid a m).
  - destruct (publishers s !! tid) as [p|] eqn:?; simpl in H; [|done]. repeat case_match; simplify_eq.
    by apply (step_publisher _ tid p).
  - repeat case_match; simplify_eq. by apply step_consumer.
  - simplify_eq. apply step_destruct.
Qed.

Lemma mmq_run_steps xs s s' : run xs s = Some s' → rtc (mmq_step DROP) s s'.
Proof.
  revert s. induction xs as [|x xs IH]; simpl; intros s H; [by simplify_eq|].
  destruct (act x s) as [s1|] eqn:Hx; simpl in H; [|done]. eapply rtc_l; [by eapply act_step|]. by apply IH.
Qed.
End Runs.
End MMQ.
