(* ===== verification/Mmpq.v ===== *)
(** * The in-memory priority queue: blocks/mmq/mmpq.h

    [MMPQImpl] holds messages until the head time reaches their time stamps, and
    hands them to the consumer in the order of time stamps.  Unlike [MMQImpl],
    the consumer is called with the mutex held, so publishing, updating the head
    and consuming one message are atomic with respect to each other. *)

From Stdlib Require Import ZArith NArith Lia Sorted.
From stdpp Require Import base list relations sorting.
From S2P Require Import Prelude Time Persistence.
Open Scope Z_scope.

Module MMPQ.

Record Entry (M : Type) := mkEntry {
  index_timestamp : idxts_t;
  message_body : M;
}.
Arguments mkEntry {M} _ _.
Arguments index_timestamp {M} _.
Arguments message_body {M} _.

Definition entry_us {M} (e : Entry M) : microseconds := us (index_timestamp e).

(** [Entry::operator<]. *)
Definition entry_lt {M} (e rhs : Entry M) : bool := entry_us e <? entry_us rhs.

(** [std::set<Entry>::emplace], on the elements of the set in order: an element
    that is equivalent to one in the set is not inserted. *)
Fixpoint emplace {M} (e : Entry M) (l : list (Entry M)) : list (Entry M) :=
  match l with
  | [] => [e]
  | x :: l' => if entry_lt e x then e :: l else if entry_lt x e then x :: emplace e l' else l
  end.

Section Queue.
Context {M CK : Type} `{!Clock CK}.

(** [clock] is the process clock; [consumed] is the history of the calls of the
    user's consumer and [offered] that of the entries made by [Publish]. *)
Record MMPQImpl := mkMMPQImpl {
  queue_ : list (Entry M);
  last_idx_ts_ : idxts_t;
  destructing_ : bool;
  stopped : bool;
  clock : CK;
  consumed : list (M * idxts_t * idxts_t);
  offered : list (Entry M);
}.

Definition make_MMPQImpl (ck : CK) : MMPQImpl := mkMMPQImpl [] (mkIdxTs 0 (-1)) false false ck [] [].

Definition PublisherPublishImpl (a : timestamp_arg) (entry : M) (q : MMPQImpl) : MMPQImpl * idxts_t :=
  let '(t, ck) := TimestampAsMicroseconds a (clock q) in
  let last := mkIdxTs (u64_succ (index (last_idx_ts_ q))) (us (last_idx_ts_ q)) in
  let e := mkEntry (mkIdxTs (index last) t) entry in
  (mkMMPQImpl (emplace e (queue_ q)) last (destructing_ q) (stopped q) ck (consumed q) (offered q ++ [e]), last).

Definition PublisherUpdateHeadImpl (a : timestamp_arg) (q : MMPQImpl) : MMPQImpl * outcome persistence_error () :=
  let '(t, ck) := TimestampAsMicroseconds a (clock q) in
  let set_last last := mkMMPQImpl (queue_ q) last (destructing_ q) (stopped q) ck (consumed q) (offered q) in
  if negb (us (last_idx_ts_ q) <? t)
  then (set_last (last_idx_ts_ q), Throw (InconsistentTimestampException (us (last_idx_ts_ q) + 1) t))
  else (set_last (mkIdxTs (index (last_idx_ts_ q)) t), Ok ()).

(** One turn of the loop of [ConsumerThread]; the thread stays where it is while
    the condition of the wait is false. *)
Definition ConsumerThread_step (q : MMPQImpl) : MMPQImpl :=
  if stopped q then q
  else if destructing_ q then
    mkMMPQImpl (queue_ q) (last_idx_ts_ q) true true (clock q) (consumed q) (offered q)
  else
    match queue_ q with
    | e :: rest =>
        if entry_us e <=? us (last_idx_ts_ q) then
          mkMMPQImpl rest (last_idx_ts_ q) false false (clock q)
            (consumed q ++ [(message_body e, index_timestamp e, last_idx_ts_ q)]) (offered q)
        else q
    | [] => q
    end.

Definition signal_destruction (q : MMPQImpl) : MMPQImpl :=
  mkMMPQImpl (queue_ q) (last_idx_ts_ q) true (stopped q) (clock q) (consumed q) (offered q).

(** Publishers, head updates and the consumer thread, in any order. *)
Inductive mmpq_step : MMPQImpl → MMPQImpl → Prop :=
| step_publish a m q : mmpq_step q (PublisherPublishImpl a m q).1
| step_update_head a q : mmpq_step q (PublisherUpdateHeadImpl a q).1
| step_consume q : mmpq_step q (ConsumerThread_step q)
| step_destruct q : mmpq_step q (signal_destruction q).

(** The same, with messages published after the head only. *)
Inductive timely_step : MMPQImpl → MMPQImpl → Prop :=
| timely_publish a m q :
    us (last_idx_ts_ q) < (TimestampAsMicroseconds a (clock q)).1 → timely_step q (PublisherPublishImpl a m q).1
| timely_other q q' : mmpq_step q q' → offered q' = offered q → timely_step q q'.
End Queue.
Global Arguments MMPQImpl _ _ : clear implicits.

Section Properties.
Context {M CK : Type} `{!Clock CK}.
Implicit Types (q : MMPQImpl M CK) (e : Entry M) (l : list (Entry M)).

(** The entry a call of the consumer was made with. *)
Definition entry_of (x : M * idxts_t * idxts_t) : Entry M := mkEntry x.1.2 x.1.1.

Definition sorted l : Prop := StronglySorted (λ x y, entry_us x < entry_us y) l.

(** Inserting keeps the order, and adds the entry unless its time is taken. *)
Lemma emplace_elem e l x : x ∈ emplace e l → x = e ∨ x ∈ l.
Proof.
  induction l as [|y l IH]; simpl; [set_solver|]. destruct (entry_lt e y), (entry_lt y e); set_solver.
Qed.

Lemma emplace_sorted e l : sorted l → sorted (emplace e l).
Proof.
  unfold sorted. induction l as [|y l IH]; simpl; [by repeat constructor|].
  intros [Hy Hs]%StronglySorted_cons. unfold entry_lt. destruct (Z.ltb_spec (entry_us e) (entry_us y)).
  - apply StronglySorted_cons. split; [|by apply StronglySorted_cons]. constructor; [done|].
    eapply Forall_impl; [exact Hy|]. simpl. intros. lia.
  - destruct (Z.ltb_spec (entry_us y) (entry_us e)); [|by apply StronglySorted_cons].
    apply StronglySorted_cons. split; [|by apply IH]. apply Forall_forall. intros x Hx.
    apply emplace_elem in Hx as [->|Hx]; [done|]. rewrite Forall_forall in Hy. by apply Hy.
Qed.

Lemma emplace_taken e l : sorted l → (∃ x, x ∈ l ∧ entry_us x = entry_us e) → emplace e l = l.
Proof.
  unfold sorted. induction l as [|y l IH]; intros Hs (x & Hx & Heq); [set_solver|]. simpl.
  apply StronglySorted_cons in Hs as [Hy Hs]. unfold entry_lt. apply elem_of_cons in Hx as [->|Hx].
  - rewrite Heq, Z.ltb_irrefl. done.
  - rewrite Forall_forall in Hy. specialize (Hy _ Hx). simpl in Hy.
    destruct (Z.ltb_spec (entry_us e) (entry_us y)); [lia|].
    destruct (Z.ltb_spec (entry_us y) (entry_us e)); [|lia]. f_equal. apply IH; [done|]. eauto.
Qed.

Lemma emplace_fresh e l : (∀ x, x ∈ l → entry_us x ≠ entry_us e) → emplace e l ≡ₚ e :: l.
Proof.
  induction l as [|y l IH]; intros Hf; [done|]. simpl. unfold entry_lt.
  pose proof (Hf y ltac:(set_solver)). destruct (Z.ltb_spec (entry_us e) (entry_us y)); [done|].
  destruct (Z.ltb_spec (entry_us y) (entry_us e)); [|lia]. rewrite IH by set_solver. apply Permutation_swap.
Qed.

Lemma emplace_superset e l x : x ∈ l → x ∈ emplace e l.
Proof.
  induction l as [|y l IH]; simpl; [set_solver|]. destruct (entry_lt e y), (entry_lt y e); set_solver.
Qed.

(** *** The invariant of every run *)

(** The set is in order; what was consumed was due and had been offered; the
    time of every entry offered is the time of one consumed or still queued. *)
Record mmpq_inv q : Prop := mkInv {
  inv_sorted : sorted (queue_ q);
  inv_offered : ∀ e, e ∈ queue_ q ++ (entry_of <$> consumed q) → e ∈ offered q;
  inv_due : Forall (λ x, us x.1.2 ≤ us (last_idx_ts_ q)) (consumed q);
  inv_time : ∀ e, e ∈ offered q → ∃ e', e' ∈ queue_ q ++ (entry_of <$> consumed q) ∧ entry_us e' = entry_us e;
}.

Lemma mmpq_init_inv ck : mmpq_inv (make_MMPQImpl ck).
Proof. split; simpl; [constructor|set_solver|constructor|set_solver]. Qed.

Lemma publish_inv a m q : mmpq_inv q → mmpq_inv (PublisherPublishImpl a m q).1.
Proof.
  unfold PublisherPublishImpl. destruct (TimestampAsMicroseconds a (clock q)) as [t ck].
  intros [Hs Ho Hd Ht]. set (e := mkEntry _ m). split; simpl.
  - by apply emplace_sorted.
  - intros x. rewrite !elem_of_app. intros [Hx|Hx]; [|left; apply Ho; set_solver].
    apply emplace_elem in Hx as [->|Hx]; [set_solver|]. left. apply Ho. set_solver.
  - done.
  - intros x. rewrite elem_of_app, list_elem_of_singleton. intros [Hx| ->].
    + destruct (Ht x Hx) as (x' & Hx' & Heq). exists x'. split; [|done]. apply elem_of_app.
      apply elem_of_app in Hx' as [Hx'|Hx']; [left; by apply emplace_superset|by right].
    + destruct (decide (Exists (λ x, entry_us x = entry_us e) (queue_ q))) as [Hex|Hnex].
      * apply Exists_exists in Hex as (x & Hx & Heq). exists x. split; [|done]. apply elem_of_app. left.
        by apply emplace_superset.
      * exists e. split; [|done]. apply elem_of_app. left.
        rewrite emplace_fresh; [set_solver|]. intros x Hx Heq. apply Hnex, Exists_exists. eauto.
Qed.

Lemma update_head_inv a q : mmpq_inv q → mmpq_inv (PublisherUpdateHeadImpl a q).1.
Proof.
  unfold PublisherUpdateHeadImpl. destruct (TimestampAsMicroseconds a (clock q)) as [t ck].
  intros [Hs Ho Hd Ht]. destruct (Z.ltb_spec (us (last_idx_ts_ q)) t); split; simpl; try done.
  eapply Forall_impl; [exact Hd|]. simpl. intros. lia.
Qed.

Lemma consume_inv q : mmpq_inv q → mmpq_inv (ConsumerThread_step q).
Proof.
  intros [Hs Ho Hd Ht]. unfold ConsumerThread_step. destruct (stopped q); [done|].
  destruct (destructing_ q); [done|]. destruct (queue_ q) as [|e rest] eqn:Hq; [by split; rewrite ?Hq|].
  destruct (Z.leb_spec (entry_us e) (us (last_idx_ts_ q))) as [Hdue|]; [|by split; rewrite ?Hq].
  assert (entry_of (message_body e, index_timestamp e, last_idx_ts_ q) = e) as He by by destruct e.
  apply StronglySorted_cons in Hs as [_ Hs]. split; simpl.
  - done.
  - intros x. rewrite fmap_app. simpl. rewrite He. intros Hx. apply Ho. set_solver.
  - apply Forall_app. split; [done|]. by repeat constructor.
  - intros x Hx. destruct (Ht x Hx) as (x' & Hx' & Heq). exists x'. split; [|done].
    rewrite fmap_app. simpl. rewrite He. set_solver.
Qed.

Lemma mmpq_step_inv q q' : mmpq_inv q → mmpq_step q q' → mmpq_inv q'.
Proof.
  intros Hinv Hstep. destruct Hstep; [by apply publish_inv|by apply update_head_inv|by apply consume_inv|].
  by destruct Hinv; split.
Qed.

Lemma reachable_mmpq_inv ck q : rtc mmpq_step (make_MMPQImpl ck) q → mmpq_inv q.
Proof.
  pose proof (mmpq_init_inv ck) as Hi. intros Hr. induction Hr as [|x y z Hxy _ IH]; [done|].
  apply IH. by eapply mmpq_step_inv.
Qed.

(** *** Runs that publish after the head *)

Definition consumed_times q : list microseconds := (λ x, us x.1.2) <$> consumed q.

Definition timely_inv q : Prop :=
  StronglySorted Z.lt (consumed_times q) ∧
  ∀ e, e ∈ queue_ q → Forall (λ t, t < entry_us e) (consumed_times q).

Lemma timely_consume q : mmpq_inv q → timely_inv q → timely_inv (ConsumerThread_step q).
Proof.
  intros [Hq _ _ _] [Hs Hlt]. unfold ConsumerThread_step. destruct (stopped q); [done|].
  destruct (destructing_ q); [done|]. destruct (queue_ q) as [|e rest] eqn:Heq; [by split; rewrite ?Heq|].
  destruct (entry_us e <=? us (last_idx_ts_ q)); [|by split; rewrite ?Heq].
  apply StronglySorted_cons in Hq as [He _]. rewrite Forall_forall in He.
  unfold timely_inv, consumed_times in *. simpl. rewrite fmap_app. split.
  - apply StronglySorted_app. split_and!; [|done|by repeat constructor].
    intros x y Hx Hy. apply list_elem_of_singleton in Hy as ->. simpl.
    specialize (Hlt e ltac:(set_solver)). rewrite Forall_forall in Hlt. by apply Hlt.
  - intros x Hx. apply Forall_app. split; [apply Hlt; set_solver|]. constructor; [|constructor]. by apply (He x).
Qed.

Lemma timely_step_inv q q' :
  mmpq_inv q → timely_inv q → timely_step q q' → mmpq_inv q' ∧ timely_inv q'.
Proof.
  intros Hinv [Hs Hlt] Hstep. destruct Hstep as [a m q Ha|q q' Hstep Ho].
  - split; [by apply publish_inv|]. unfold PublisherPublishImpl, timely_inv, consumed_times.
    destruct (TimestampAsMicroseconds a (clock q)) as [t ck]. simpl in *. split; [done|].
    intros x Hx. apply emplace_elem in Hx as [->|Hx]; [|by apply Hlt].
    apply Forall_fmap. eapply Forall_impl; [apply (inv_due _ Hinv)|]. unfold entry_us. simpl. intros. lia.
  - split; [by eapply mmpq_step_inv|]. destruct Hstep as [a m q|a q|q|q]; [exfalso|..].
    + unfold PublisherPublishImpl in Ho. destruct (TimestampAsMicroseconds a (clock q)). simpl in Ho.
      apply (f_equal length) in Ho. rewrite length_app in Ho. simpl in Ho. lia.
    + unfold PublisherUpdateHeadImpl. destruct (TimestampAsMicroseconds a (clock q)) as [t ck].
      by destruct (us (last_idx_ts_ q) <? t).
    + by apply timely_consume.
    + done.
Qed.

Lemma reachable_timely_inv ck q : rtc timely_step (make_MMPQImpl ck) q → timely_inv q.
Proof.
  pose proof (mmpq_init_inv ck) as Hi. assert (timely_inv (make_MMPQImpl ck)) as Ht.
  { split; simpl; [constructor|set_solver]. }
  intros Hr. induction Hr as [|x y z Hxy _ IH]; [done|].
  apply IH; by eapply timely_step_inv in Hxy as [? ?].
Qed.

(** A consumer that has nothing to do has taken everything that is due. *)
Lemma idle_consumer_nothing_due q :
  mmpq_inv q → ConsumerThread_step q = q → stopped q = false → destructing_ q = false →
  Forall (λ e, us (last_idx_ts_ q) < entry_us e) (queue_ q).
Proof.
  intros [Hs _ _ _] Hidle Hst Hde. unfold ConsumerThread_step in Hidle. rewrite Hst, Hde in Hidle.
  destruct (queue_ q) as [|e rest] eqn:Hq; [constructor|].
  destruct (Z.leb_spec (entry_us e) (us (last_idx_ts_ q))) as [|Hlt].
  - exfalso. apply (f_equal queue_) in Hidle. rewrite Hq in Hidle. simpl in Hidle.
    apply (f_equal length) in Hidle. simpl in Hidle. lia.
  - apply StronglySorted_cons in Hs as [He _]. constructor; [done|]. eapply Forall_impl; [exact He|].
    simpl. intros. lia.
Qed.
End Properties.
End MMPQ.
