(* ===== verification/Strings.v ===== *)
(** * Splitting and joining strings: bricks/strings/split.h, bricks/strings/join.h

    [Split] walks over the string with two indexes and emits the fields between
    separators.  The version for mutable strings works in place, with a NUL
    written over each separator while its field is processed; it is modelled
    with the buffer it writes to, and shown to give the same fields and to leave
    the buffer as it was. *)

From Stdlib Require Import ZArith NArith Lia Ascii String.
From stdpp Require Import base list strings.
From S2P Require Import Prelude Persistence.
Open Scope nat_scope.

(** [s.substr(pos, n)], for a position in the string. *)
Definition substr (s : bytes) (pos n : nat) : bytes := take n (drop pos s).

Inductive EmptyFields := Skip | Keep.

Global Instance EmptyFields_eq_dec : EqDecision EmptyFields.
Proof. solve_decision. Defined.

(** [impl::Match] for the separators of the library; a separator is the set of
    characters that end a field. *)
Definition match_char (b a : ascii) : bool := bool_decide (a = b).
Definition match_whitespace (c : ascii) : bool := isspace c.
Definition match_lines (c : ascii) : bool := bool_decide (c = newline) || bool_decide (c = "013"%char).
Definition match_any_of (s : bytes) (c : ascii) : bool := bool_decide (c ∈ s).
(** A string literal of the array type [const char[N]] includes its final NUL. *)
Definition match_literal (s : bytes) (c : ascii) : bool := bool_decide (c ∈ s ++ [nul]).

Section Split.
Context (separator : ascii → bool) (empty_fields_strategy : EmptyFields).

Definition emits (i j : nat) : bool := bool_decide (empty_fields_strategy = Keep) || negb (i =? j).

Definition emit (s : bytes) (i j : nat) : list bytes :=
  if emits i j then [substr s j (i - j)] else [].

(** The loop, with [rest] what is left of the string from [i] on. *)
Fixpoint Split_loop (s rest : bytes) (i j : nat) : list bytes :=
  match rest with
  | [] => emit s i j
  | c :: rest => if separator c then emit s i j ++ Split_loop s rest (i + 1) (i + 1) else Split_loop s rest (i + 1) j
  end.

Definition Split (s : bytes) : list bytes := Split_loop s s 0 0.

(** *** In place *)

(** The buffer is the string and the NUL after it; [emit] gives the processor a
    [Chunk] of the buffer and puts the character back. *)
Definition emit_in_place (buffer : bytes) (i j : nat) : list bytes * bytes :=
  if emits i j then
    let save := nth i buffer nul in
    let buffer := <[i := nul]> buffer in
    let field := substr buffer j (i - j) in
    ([field], <[i := save]> buffer)
  else ([], buffer).

Fixpoint Split_in_place_loop (fuel : nat) (buffer : bytes) (length i j : nat) : list bytes * bytes :=
  match fuel with
  | O => ([], buffer)
  | S fuel =>
      if (i <? length)%nat then
        if separator (nth i buffer nul) then
          let '(out, buffer) := emit_in_place buffer i j in
          let '(outs, buffer) := Split_in_place_loop fuel buffer length (i + 1) (i + 1) in
          (out ++ outs, buffer)
        else Split_in_place_loop fuel buffer length (i + 1) j
      else emit_in_place buffer i j
  end.

(** The loop has one turn per character and ends with one more test. *)
Definition Split_in_place (buffer : bytes) (length : nat) : list bytes * bytes :=
  Split_in_place_loop (S length) buffer length 0 0.
End Split.

(** *** Key-value pairs *)

Inductive key_value_error := KeyValueNoValueException | KeyValueMultipleValuesException.

Inductive KeyValueParsing := Silent | Throwing.

Section KeyValue.
Context (key_value_separator fields_separator : ascii → bool) (throw_mode : KeyValueParsing).

(** What the lambda does with one field. *)
Definition key_value_field (field : bytes) : outcome key_value_error (list (bytes * bytes)) :=
  let key_and_value := Split key_value_separator Skip field in
  match key_and_value, throw_mode with
  | [k; v], _ => Ok [(k, v)]
  | (_ :: _ :: _), Throwing => Throw KeyValueMultipleValuesException
  | _, Throwing => Throw KeyValueNoValueException
  | _, Silent => Ok []
  end.

Fixpoint key_value_fields (fields : list bytes) : outcome key_value_error (list (bytes * bytes)) :=
  match fields with
  | [] => Ok []
  | f :: fields => kv ← key_value_field f; rest ← key_value_fields fields; Ok (kv ++ rest)
  end.

Definition SplitIntoKeyValuePairs (s : bytes) : outcome key_value_error (list (bytes * bytes)) :=
  key_value_fields (Split fields_separator Skip s).
End KeyValue.

(** ** Joining *)

(** The loop of [impl::Join], over strings. *)
Fixpoint Join_loop (separator : bytes) (first : bool) (result : bytes) (components : list bytes) : bytes :=
  match components with
  | [] => result
  | c :: components =>
      let result := if first then result else result ++ separator in
      Join_loop separator false (result ++ c) components
  end.

Definition Join (components : list bytes) (separator : bytes) : bytes :=
  match components with [] => [] | _ => Join_loop separator true [] components end.

(** ** Case and white space: bricks/strings/util.h *)

Definition char_between (lo hi c : ascii) : bool :=
  ((N_of_ascii lo <=? N_of_ascii c) && (N_of_ascii c <=? N_of_ascii hi))%N.

(** [std::tolower] and [std::toupper] in the C locale. *)
Definition tolower (c : ascii) : ascii := if char_between "A" "Z" c then ascii_of_N (N_of_ascii c + 32) else c.
Definition toupper (c : ascii) : ascii := if char_between "a" "z" c then ascii_of_N (N_of_ascii c - 32) else c.

Definition ToLower (s : bytes) : bytes := tolower <$> s.
Definition ToUpper (s : bytes) : bytes := toupper <$> s.

(** Drop the characters [p] holds of, at the front and at the back. *)
Fixpoint trim_front (p : ascii → bool) (s : bytes) : bytes :=
  match s with
  | c :: s' => if p c then trim_front p s' else s
  | [] => []
  end.

Definition trim (p : ascii → bool) (s : bytes) : bytes := rev (trim_front p (rev (trim_front p s))).

Definition Trim (s : bytes) : bytes := trim isspace s.

(** ** What the loops compute *)

Section Fields.
Context (separator : ascii → bool) (strategy : EmptyFields).

(** The fields of a string, empty ones included. *)
Fixpoint fields (s : bytes) : list bytes :=
  match s with
  | [] => [[]]
  | c :: s =>
      if separator c then [] :: fields s
      else match fields s with f :: fs => (c :: f) :: fs | [] => [[c]] end
  end.

Definition keeps (f : bytes) : bool :=
  bool_decide (strategy = Keep) || match f with [] => false | _ => true end.

Lemma fields_cons s : ∃ f fs, fields s = f :: fs.
Proof.
  destruct s as [|c s]; simpl; [by eexists _, _|]. destruct (separator c); [by eexists _, _|].
  destruct (fields s); by eexists _, _.
Qed.

(** Add a prefix to the first field. *)
Definition extend (p : bytes) (fs : list bytes) : list bytes :=
  match fs with f :: fs => (p ++ f) :: fs | [] => [p] end.

Lemma substr_whole (pre field rest : bytes) : substr (pre ++ field ++ rest) (length pre) (length field) = field.
Proof. unfold substr. by rewrite drop_app_length, take_app_length. Qed.

Lemma emit_field (pre field rest : bytes) :
  emit strategy (pre ++ field ++ rest) (length pre + length field) (length pre) = List.filter keeps [field].
Proof.
  unfold emit, emits, keeps. simpl. replace (length pre + length field - length pre) with (length field) by lia.
  rewrite substr_whole. destruct field as [|c field]; simpl.
  - rewrite Nat.add_0_r, Nat.eqb_refl. by destruct (bool_decide _).
  - destruct (Nat.eqb_spec (length pre + S (length field)) (length pre)); [lia|]. done.
Qed.

Lemma Split_loop_fields pre field rest :
  Split_loop separator strategy (pre ++ field ++ rest) rest (length pre + length field) (length pre) =
    List.filter keeps (extend field (fields rest)).
Proof.
  revert pre field. induction rest as [|c rest IH]; intros pre field; simpl.
  - rewrite emit_field. simpl. by rewrite app_nil_r.
  - destruct (separator c).
    + rewrite emit_field. specialize (IH (pre ++ field ++ [c]) []). rewrite !length_app in IH. simpl in IH.
      rewrite Nat.add_0_r, <- !app_assoc in IH. simpl in IH.
      replace (length pre + length field + 1) with (length pre + (length field + 1)) by lia. rewrite IH.
      destruct (fields_cons rest) as (f & fs & ->). simpl. rewrite app_nil_r. by destruct (keeps field).
    + specialize (IH pre (field ++ [c])). rewrite length_app, <- !app_assoc in IH. simpl in IH.
      replace (length pre + length field + 1) with (length pre + (length field + 1)) by lia. rewrite IH.
      destruct (fields_cons rest) as (f & fs & ->). simpl. by rewrite <- app_assoc.
Qed.

(** [Split] emits the fields of the string that it keeps. *)
Lemma Split_fields s : Split separator strategy s = List.filter keeps (fields s).
Proof.
  unfold Split. pose proof (Split_loop_fields [] [] s) as H. simpl in H. rewrite H.
  by destruct (fields_cons s) as (f & fs & ->).
Qed.
End Fields.

(** *** The in-place version *)

Section InPlace.
Context (separator : ascii → bool) (strategy : EmptyFields).
Implicit Types s buffer : bytes.

Lemma substr_insert_after buffer i j c : j ≤ i → substr (<[i := c]> buffer) j (i - j) = substr buffer j (i - j).
Proof.
  intros Hj. unfold substr. rewrite !take_drop_commute. replace (j + (i - j)) with i by lia.
  by rewrite take_insert_ge.
Qed.

Lemma emit_in_place_eq s i j :
  j ≤ i ≤ length s → emit_in_place strategy (s ++ [nul]) i j = (emit strategy s i j, s ++ [nul]).
Proof.
  intros [Hj Hi]. unfold emit_in_place, emit. destruct (emits strategy i j); [|done].
  rewrite substr_insert_after by done. unfold substr.
  rewrite list_insert_insert_eq, (list_insert_id (s ++ [nul]) i).
  - rewrite drop_app_le by lia. rewrite take_app_le by (rewrite length_drop; lia). done.
  - destruct (lookup_lt_is_Some_2 (s ++ [nul]) i) as [c Hc]; [rewrite length_app; simpl; lia|].
    rewrite Hc. f_equal. symmetry. by apply nth_lookup_Some.
Qed.

Lemma Split_in_place_loop_eq s fuel i j :
  j ≤ i ≤ length s → length s - i < fuel →
  Split_in_place_loop separator strategy fuel (s ++ [nul]) (length s) i j =
    (Split_loop separator strategy s (drop i s) i j, s ++ [nul]).
Proof.
  revert i j. induction fuel as [|fuel IH]; intros i j Hi Hf; [lia|]. simpl.
  destruct (Nat.ltb_spec i (length s)) as [Hlt|Hge].
  - destruct (lookup_lt_is_Some_2 s i Hlt) as [c Hc]. rewrite (drop_S s c i Hc). simpl.
    rewrite (nth_lookup_Some _ i nul c) by (rewrite lookup_app_l; done).
    destruct (separator c).
    + rewrite emit_in_place_eq by lia. rewrite IH by lia. by rewrite Nat.add_1_r.
    + rewrite IH by lia. by rewrite Nat.add_1_r.
  - rewrite drop_ge by lia. simpl. by apply emit_in_place_eq.
Qed.
End InPlace.

(** *** Joining *)

Lemma Join_loop_app separator first result components :
  Join_loop separator first result components = result ++ Join_loop separator first [] components.
Proof.
  revert first result. induction components as [|c cs IH]; intros first result; simpl; [by rewrite app_nil_r|].
  rewrite IH, (IH false (_ ++ c)). destruct first; simpl; by rewrite <- ?app_assoc.
Qed.

Lemma Join_cons c d cs separator : Join (c :: d :: cs) separator = c ++ separator ++ Join (d :: cs) separator.
Proof.
  unfold Join. simpl. rewrite Join_loop_app. rewrite (Join_loop_app _ _ d). by rewrite <- !app_assoc.
Qed.

Section RoundTrip.
Context (separator : ascii → bool) (c : ascii).
Hypothesis Hc : separator c = true.

Definition no_separator (f : bytes) : Prop := Forall (λ x, separator x = false) f.

Lemma fields_no_separator f : no_separator f → fields separator f = [f].
Proof. induction 1 as [|x f Hx _ IH]; simpl; [done|]. by rewrite Hx, IH. Qed.

Lemma fields_app f s : no_separator f → fields separator (f ++ c :: s) = f :: fields separator s.
Proof. induction 1 as [|x f Hx _ IH]; simpl; [by rewrite Hc|]. by rewrite Hx, IH. Qed.

Lemma fields_Join f fs : Forall no_separator (f :: fs) → fields separator (Join (f :: fs) [c]) = f :: fs.
Proof.
  revert f. induction fs as [|g fs IH]; intros f Hall; apply Forall_cons in Hall as [Hf Hall].
  - by apply fields_no_separator.
  - rewrite Join_cons. cbn [app]. rewrite fields_app by done. by rewrite IH.
Qed.
End RoundTrip.

(** *** Key-value pairs that were joined *)

Section KeyValueRoundTrip.
Context (key_value_separator fields_separator : ascii → bool) (kc fc : ascii).
Hypothesis Hkc : key_value_separator kc = true.
Hypothesis Hfc : fields_separator fc = true.
Hypothesis Hkf : fields_separator kc = false.

(** Neither part is empty or holds a separator. *)
Definition pair_ok (p : bytes * bytes) : Prop :=
  p.1 ≠ [] ∧ p.2 ≠ [] ∧
  no_separator key_value_separator p.1 ∧ no_separator key_value_separator p.2 ∧
  no_separator fields_separator p.1 ∧ no_separator fields_separator p.2.

Definition print_pair (p : bytes * bytes) : bytes := p.1 ++ kc :: p.2.

Lemma key_value_field_pair throw_mode p :
  pair_ok p → key_value_field key_value_separator throw_mode (print_pair p) = Ok [p].
Proof.
  intros (H1 & H2 & Hk1 & Hk2 & _). unfold key_value_field, print_pair.
  rewrite Split_fields, (fields_app _ kc Hkc), fields_no_separator by done.
  destruct p as [[|] [|]]; simpl in *; done.
Qed.

Lemma key_value_fields_pairs throw_mode ps :
  Forall pair_ok ps → key_value_fields key_value_separator throw_mode (print_pair <$> ps) = Ok ps.
Proof.
  induction 1 as [|p ps Hp _ IH]; [done|]. rewrite fmap_cons. simpl. by rewrite key_value_field_pair, IH.
Qed.

Lemma key_value_roundtrip throw_mode ps :
  Forall pair_ok ps →
  SplitIntoKeyValuePairs key_value_separator fields_separator throw_mode (Join (print_pair <$> ps) [fc]) = Ok ps.
Proof.
  intros Hps. unfold SplitIntoKeyValuePairs. destruct ps as [|p ps]; [done|].
  rewrite Split_fields, fmap_cons, (fields_Join _ fc Hfc), <- fmap_cons.
  - rewrite <- (key_value_fields_pairs throw_mode (p :: ps) Hps). f_equal.
    generalize (p :: ps). intros l. induction l as [|q l IH]; [done|]. rewrite fmap_cons. simpl.
    assert (keeps Skip (print_pair q) = true) as ->; [|by rewrite IH].
    unfold keeps, print_pair. by destruct (q.1).
  - rewrite <- fmap_cons. apply Forall_fmap. eapply Forall_impl; [exact Hps|].
    intros q (_ & _ & _ & _ & Hf1 & Hf2). simpl. apply Forall_app. split; [done|]. by constructor.
Qed.
End KeyValueRoundTrip.
