(* ===== verification/Url.v ===== *)
(** * URLs: blocks/url/url.h

    [URL] maps between a string and its parts: scheme, user, host, port, path,
    query parameters and fragment.  Parsing works on positions in the string, as
    the code does ([None] is [std::string::npos]); composing prints the parts,
    leaving out what is the default.  Characters are [char], which is signed on
    the platforms the library is built for. *)

From Stdlib Require Import ZArith NArith Lia Ascii String.
From stdpp Require Import base gmap list strings.
From S2P Require Import Prelude Persistence Decimal Strings.
Open Scope nat_scope.

Module Url.

Inductive url_error := EmptyURLException.

Definition kDefaultScheme : bytes := str "http".
Definition kDefaultHost : bytes := str "localhost".

(** ** Searching *)

Fixpoint index_of (c : ascii) (s : bytes) : option nat :=
  match s with
  | [] => None
  | x :: s => if bool_decide (x = c) then Some 0 else S <$> index_of c s
  end.

(** [s.find(c, pos)]. *)
Definition find (c : ascii) (pos : nat) (s : bytes) : option nat := Nat.add pos <$> index_of c (drop pos s).

(** [s.find("//")]. *)
Fixpoint find_double_slash (s : bytes) : option nat :=
  match s with
  | [] => None
  | x :: s' =>
      match s' with
      | y :: _ => if bool_decide (x = "/"%char ∧ y = "/"%char) then Some 0 else S <$> find_double_slash s'
      | [] => None
      end
  end.

(** [i < e], where [e] may be [npos]. *)
Definition before (i : nat) (e : option nat) : bool :=
  match e with Some e => i <? e | None => true end.

(** [i != npos && i < e]. *)
Definition found_before (i e : option nat) : option nat :=
  match i with Some i => if before i e then Some i else None | None => None end.

(** [s.substr(pos, e - pos)], to the end of the string if [e] is [npos]. *)
Definition substr_to (s : bytes) (pos : nat) (e : option nat) : bytes :=
  match e with Some e => substr s pos (e - pos) | None => drop pos s end.

(** [static_cast<uint16_t>(atoi(s))]; [atoi] is undefined on a number that does
    not fit an [int], where the model takes the number itself. *)
Definition atoi (s : bytes) : Z :=
  let s := drop (leading_spaces s) s in
  match s with
  | "-"%char :: s' => (- read_digits 0 s')%Z
  | "+"%char :: s' => read_digits 0 s'
  | _ => read_digits 0 s
  end.

Definition to_uint16 (z : Z) : Z := (z mod 2 ^ 16)%Z.

(** ** The URL without its parameters *)

Record URLWithoutParameters := mkUrl {
  host : bytes;
  path : bytes;
  scheme : bytes;
  port : Z;
  username : bytes;
  password : bytes;
}.

Definition DefaultPortForScheme (scheme : bytes) : Z :=
  if bool_decide (scheme = str "http") then 80
  else if bool_decide (scheme = str "https") then 443 else 0.

Definition DefaultSchemeForPort (port : Z) : bytes :=
  if bool_decide (port = 80%Z) then str "http" else if bool_decide (port = 443%Z) then str "https" else [].

(** The scheme and the offset after it. *)
Definition parse_scheme (url : bytes) : bytes * nat :=
  match find_double_slash url with
  | Some O => ([], 2)
  | Some (S ds) => if bool_decide (nth ds url nul = ":"%char) then (take ds url, S ds + 2) else ([], 0)
  | None => ([], 0)
  end.

(** The user name, the password, and the offset after them. *)
Definition parse_user (url : bytes) (parsed_offset : nat) (host_end : option nat) : bytes * bytes * nat :=
  match found_before (find "@" parsed_offset url) host_end with
  | Some at_sign =>
      match found_before (find ":" parsed_offset url) (Some at_sign) with
      | Some colon =>
          (substr url parsed_offset (colon - parsed_offset), substr url (colon + 1) (at_sign - (colon + 1)), at_sign + 1)
      | None => (substr url parsed_offset (at_sign - parsed_offset), [], at_sign + 1)
      end
  | None => ([], [], parsed_offset)
  end.

Definition parse_host (url : bytes) (parsed_offset : nat) (host_end : option nat) : bytes * Z :=
  match found_before (find ":" parsed_offset url) host_end with
  | Some port_colon =>
      (substr url parsed_offset (port_colon - parsed_offset), to_uint16 (atoi (drop (port_colon + 1) url)))
  | None => (substr_to url parsed_offset host_end, 0%Z)
  end.

Definition parse_path (url : bytes) (host_end : option nat) : bytes :=
  let path := match host_end with Some e => drop e url | None => [] end in
  match path with [] => str "/" | _ => path end.

Definition ParseURLWithoutParameters (url : bytes) : outcome url_error URLWithoutParameters :=
  match url with
  | [] => Throw EmptyURLException
  | _ =>
      let '(scheme, offset) := parse_scheme url in
      let host_end := find "/" offset url in
      let '(username, password, offset) := parse_user url offset host_end in
      let '(host, port) := parse_host url offset host_end in
      Ok (mkUrl host (parse_path url host_end) scheme port username password)
  end.

(** [os << port], without leading zeroes. *)
Fixpoint strip_zeroes (s : bytes) : bytes :=
  match s with
  | c :: (_ :: _) as s' => if bool_decide (c = "0"%char) then strip_zeroes s' else s
  | _ => s
  end.

Definition print_uint16 (z : Z) : bytes := strip_zeroes (digits 5 z).

Definition scheme_for_compose (u : URLWithoutParameters) : bytes :=
  match scheme u with
  | [] => if (0 <? port u)%Z then DefaultSchemeForPort (port u) else kDefaultScheme
  | s => s
  end.

Definition port_for_compose (u : URLWithoutParameters) : Z :=
  if ((0 <? port u) && negb (port u =? DefaultPortForScheme (scheme_for_compose u)))%Z then port u else 0.

Definition printed_scheme (u : URLWithoutParameters) : bytes :=
  match scheme_for_compose u with [] => kDefaultScheme | s => s end.

Definition print_user (u : URLWithoutParameters) : bytes :=
  match username u with
  | [] => []
  | name => name ++ (match password u with [] => [] | p => ":"%char :: p end) ++ ["@"%char]
  end.

Definition print_port (u : URLWithoutParameters) : bytes :=
  if (0 <? port_for_compose u)%Z then ":"%char :: print_uint16 (port_for_compose u) else [].

Definition ComposeURL_without_parameters (u : URLWithoutParameters) : bytes :=
  match host u with
  | [] => path u
  | h => printed_scheme u ++ str "://" ++ print_user u ++ h ++ print_port u ++ path u
  end.

(** ** Escaping *)

Definition code (c : ascii) : Z := Z.of_N (N_of_ascii c).

(** [char] is signed: [static_cast<int>(c)]. *)
Definition char_to_int (c : ascii) : Z := (if code c <? 128 then code c else code c - 256)%Z.

Definition in_range (lo hi c : ascii) : bool := ((code lo <=? code c) && (code c <=? code hi))%Z.

Definition IsHexDigit (c : ascii) : bool := in_range "0" "9" c || in_range "a" "f" c || in_range "A" "F" c.

Definition IsURIComponentSpecialCharacter (c : ascii) : bool :=
  in_range "a" "z" c || in_range "A" "Z" c || in_range "0" "9" c ||
  bool_decide (c ∈ ["-"; "_"; "."; "~"; "!"; "'"; "("; ")"]%char).

Definition hex_value (c : ascii) : Z :=
  (if in_range "0" "9" c then code c - 48 else if in_range "a" "f" c then code c - 87 else code c - 55)%Z.

Definition hex_char (d : Z) : ascii := ascii_of_N (Z.to_N (if d <? 10 then 48 + d else 55 + d)%Z).

Fixpoint hex_digits (n : nat) (z : Z) : bytes :=
  match n with
  | O => []
  | S n => hex_digits n (z / 16) ++ [hex_char (z mod 16)%Z]
  end.

(** ["%02X"] of an [int]: as an unsigned number, at least two digits. *)
Fixpoint strip_to_two (s : bytes) : bytes :=
  match s with
  | c :: (_ :: _ :: _) as s' => if bool_decide (c = "0"%char) then strip_to_two s' else s
  | _ => s
  end.

Definition Printf_02X (z : Z) : bytes := strip_to_two (hex_digits 8 (z mod 2 ^ 32)%Z).

Fixpoint DecodeURIComponent (encoded : bytes) : bytes :=
  match encoded with
  | [] => []
  | c :: s =>
      if bool_decide (c = "+"%char) then " "%char :: DecodeURIComponent s
      else if bool_decide (c = "%"%char) then
        match s with
        | h :: ((l :: s') as rest) =>
            if IsHexDigit h && IsHexDigit l
            then ascii_of_N (Z.to_N (16 * hex_value h + hex_value l)) :: DecodeURIComponent s'
            else c :: DecodeURIComponent s
        | _ => c :: DecodeURIComponent s
        end
      else c :: DecodeURIComponent s
  end.

Definition EncodeURICharacter (c : ascii) : bytes :=
  if IsURIComponentSpecialCharacter c then [c]
  else if bool_decide (c = " "%char) then str "%20"
  else "%"%char :: Printf_02X (char_to_int c).

Definition EncodeURIComponent (decoded : bytes) : bytes := decoded ≫= EncodeURICharacter.

(** ** Parameters *)

Record URLParameters := mkParameters {
  parameters_vector : list (bytes * bytes);
  query : gmap bytes bytes;
  fragment : bytes;
}.

(** What is made of a chunk of the query string. *)
Definition parse_parameter (chunk : bytes) : bytes * bytes :=
  match index_of "=" chunk with
  | Some i => (substr chunk 0 i, drop (i + 1) chunk)
  | None => (chunk, [])
  end.

(** A [std::map] made of a vector of pairs keeps the first of equal keys. *)
Definition QueryParameters (v : list (bytes * bytes)) : gmap bytes bytes := list_to_map v.

Definition query_get (key default_value : bytes) (p : URLParameters) : bytes :=
  match query p !! key with Some v => v | None => default_value end.

Definition decode_parameter (p : bytes * bytes) : bytes * bytes := (DecodeURIComponent p.1, DecodeURIComponent p.2).

(** The fragment and the index of the "#" before it, or of the end. *)
Definition extract_fragment (url : bytes) : bytes * nat :=
  match find "#" 0 url with Some i => (drop (i + 1) url, i) | None => ([], length url) end.

(** The parameters and the index they start at. *)
Definition ExtractURLParametersFromURL (url : bytes) : URLParameters * nat :=
  let '(fragment, start) := extract_fragment url in
  match found_before (find "?" 0 url) (find "#" 0 url) with
  | Some q =>
      let v := decode_parameter <$>
        (parse_parameter <$> Split (match_char "&") Skip (substr url (q + 1) (start - (q + 1)))) in
      (mkParameters v (QueryParameters v) fragment, q)
  | None => (mkParameters [] ∅ fragment, start)
  end.

Fixpoint ComposeParameters_loop (first : bool) (v : list (bytes * bytes)) : bytes :=
  match v with
  | [] => []
  | (k, x) :: v =>
      (if first then "?"%char else "&"%char) ::
      EncodeURIComponent k ++ "="%char :: EncodeURIComponent x ++ ComposeParameters_loop false v
  end.

Definition print_fragment (fragment : bytes) : bytes :=
  match fragment with [] => [] | _ => "#"%char :: fragment end.

Definition ComposeParameters (p : URLParameters) : bytes :=
  ComposeParameters_loop true (parameters_vector p) ++ print_fragment (fragment p).

(** ** URL *)

Definition URL : Type := URLWithoutParameters * URLParameters.

Definition make_URL (url : bytes) : outcome url_error URL :=
  let '(parameters, start) := ExtractURLParametersFromURL url in
  u ← ParseURLWithoutParameters (take start url);
  Ok (u, parameters).

Definition ComposeURL (u : URL) : bytes := ComposeURL_without_parameters u.1 ++ ComposeParameters u.2.

Definition MakeURLWithDefaults (source : URL) : URL :=
  let u := source.1 in
  let scheme := match scheme u with
                | [] => if (port u =? 0)%Z then kDefaultScheme
                        else match DefaultSchemeForPort (port u) with [] => kDefaultScheme | s => s end
                | s => s
                end in
  let host := match host u with [] => kDefaultHost | h => h end in
  let port := if (port u =? 0)%Z then DefaultPortForScheme scheme else port u in
  (mkUrl host (path u) scheme port (username u) (password u), source.2).

Definition MakeRedirectedURL (source target : URL) : URL :=
  let s := source.1 in let t := target.1 in
  let scheme := match scheme t with [] => scheme s | x => x end in
  let '(host, port) := match host t with
                       | [] => (host s, if (0 <? port t)%Z then port t else port s)
                       | h => (h, port t)
                       end in
  MakeURLWithDefaults (mkUrl host (path t) scheme port (username t) (password t), target.2).

(** ** Escaping, then unescaping *)

Lemma decode_encoded_character c s :
  (code c < 128)%Z → DecodeURIComponent (EncodeURICharacter c ++ s) = c :: DecodeURIComponent s.
Proof. destruct c as [[] [] [] [] [] [] [] []]; intros Hc; try discriminate Hc; reflexivity. Qed.

Definition is_ascii (s : bytes) : Prop := Forall (λ c, (code c < 128)%Z) s.

Lemma decode_encode s : is_ascii s → DecodeURIComponent (EncodeURIComponent s) = s.
Proof.
  induction 1 as [|c s Hc _ IH]; [done|]. unfold EncodeURIComponent in *. rewrite bind_cons.
  by rewrite decode_encoded_character, IH.
Qed.

(** A character that does not fit seven bits is printed as a negative number. *)
Lemma encode_high_character c :
  (128 ≤ code c)%Z → ∃ h l, EncodeURICharacter c = str "%FFFFFF" ++ [h; l].
Proof.
  destruct c as [[] [] [] [] [] [] [] []]; intros Hc; try (by destruct Hc); by eexists _, _.
Qed.

(** The characters an escaped string is made of. *)
Definition escaped_character (c : ascii) : bool := IsURIComponentSpecialCharacter c || bool_decide (c = "%"%char).

Lemma escaped_character_ok c : forallb escaped_character (EncodeURICharacter c) = true.
Proof. destruct c as [[] [] [] [] [] [] [] []]; reflexivity. Qed.

Lemma encoded_characters s c : escaped_character c = false → c ∉ EncodeURIComponent s.
Proof.
  intros Hc Hin. unfold EncodeURIComponent in Hin. apply list_elem_of_bind in Hin as (x & Hx & _).
  pose proof (escaped_character_ok x) as Hok. rewrite forallb_forall in Hok.
  apply list_elem_of_In in Hx. apply Hok in Hx. congruence.
Qed.

(** ** Positions *)

Lemma index_of_here c l r : c ∉ l → index_of c (l ++ c :: r) = Some (length l).
Proof.
  induction l as [|x l IH]; simpl; intros Hc; [by rewrite bool_decide_eq_true_2|].
  rewrite bool_decide_eq_false_2 by set_solver. rewrite IH by set_solver. done.
Qed.

Lemma index_of_None c s : c ∉ s → index_of c s = None.
Proof.
  induction s as [|x s IH]; simpl; intros Hc; [done|].
  rewrite bool_decide_eq_false_2 by set_solver. rewrite IH by set_solver. done.
Qed.

Lemma index_of_after c l s : c ∉ l → index_of c (l ++ s) = Nat.add (length l) <$> index_of c s.
Proof.
  induction l as [|x l IH]; simpl; intros Hc; [by destruct (index_of c s)|].
  rewrite bool_decide_eq_false_2 by set_solver. rewrite IH by set_solver. by destruct (index_of c s).
Qed.

Lemma find_here c pre l r : c ∉ l → find c (length pre) (pre ++ l ++ c :: r) = Some (length pre + length l).
Proof. intros Hc. unfold find. rewrite drop_app_length, index_of_here by done. done. Qed.

Lemma find_not_before c pre mid rest :
  c ∉ mid → found_before (find c (length pre) (pre ++ mid ++ rest)) (Some (length pre + length mid)) = None.
Proof.
  intros Hc. unfold find. rewrite drop_app_length, index_of_after by done. destruct (index_of c rest); simpl; [|done].
  by destruct (Nat.ltb_spec (length pre + (length mid + n)) (length pre + length mid)); [lia|].
Qed.

Lemma substr_middle (pre mid rest : bytes) n :
  n = length mid → substr (pre ++ mid ++ rest) (length pre) n = mid.
Proof. intros ->. unfold substr. by rewrite drop_app_length, take_app_length. Qed.

(** ** Composing parameters, then extracting them *)

Definition chunk_of (p : bytes * bytes) : bytes := EncodeURIComponent p.1 ++ "="%char :: EncodeURIComponent p.2.

Lemma compose_loop_join first p v :
  ComposeParameters_loop first (p :: v) = (if first then "?"%char else "&"%char) :: Join (chunk_of <$> p :: v) ["&"%char].
Proof.
  revert first p. induction v as [|q v IH]; intros first [k x].
  - simpl. rewrite app_nil_r. by destruct first.
  - rewrite !fmap_cons, Join_cons. rewrite <- fmap_cons. unfold chunk_of at 1. cbn [fst snd].
    rewrite <- app_assoc. cbn [app]. change (ComposeParameters_loop first ((k, x) :: q :: v)) with
      ((if first then "?"%char else "&"%char) :: EncodeURIComponent k ++ "="%char :: EncodeURIComponent x ++
         ComposeParameters_loop false (q :: v)). by rewrite IH.
Qed.

Lemma parse_chunk p : parse_parameter (chunk_of p) = (EncodeURIComponent p.1, EncodeURIComponent p.2).
Proof.
  unfold parse_parameter, chunk_of. rewrite index_of_here by by apply encoded_characters.
  unfold substr. rewrite drop_0, take_app_length. f_equal.
  rewrite Nat.add_1_r. change ("="%char :: EncodeURIComponent p.2) with (["="%char] ++ EncodeURIComponent p.2).
  rewrite app_assoc, drop_app_length'; [done|]. rewrite length_app. simpl. lia.
Qed.

Lemma chunk_no_amp p : no_separator (match_char "&") (chunk_of p).
Proof.
  apply Forall_forall. intros c Hc. unfold match_char. apply bool_decide_eq_false_2. intros ->.
  unfold chunk_of in Hc. apply elem_of_app in Hc as [Hc|Hc]; [by eapply encoded_characters in Hc|].
  apply elem_of_cons in Hc as [Hc|Hc]; [done|]. by eapply encoded_characters in Hc.
Qed.

(** The query string is made of the chunks again. *)
Lemma split_chunks v : v ≠ [] → Split (match_char "&") Skip (Join (chunk_of <$> v) ["&"%char]) = chunk_of <$> v.
Proof.
  intros Hv. destruct v as [|p v]; [done|]. rewrite Split_fields, fmap_cons, fields_Join.
  - rewrite <- fmap_cons. generalize (p :: v). intros l. induction l as [|q l IH]; [done|].
    rewrite fmap_cons. cbn [List.filter]. rewrite IH.
    assert (keeps Skip (chunk_of q) = true) as ->; [|done].
    unfold keeps, chunk_of. by destruct (EncodeURIComponent q.1).
  - unfold match_char. by rewrite bool_decide_eq_true_2.
  - rewrite <- fmap_cons. apply Forall_fmap, Forall_true. intros x. apply chunk_no_amp.
Qed.

Lemma decode_chunks v :
  Forall (λ p, is_ascii p.1 ∧ is_ascii p.2) v →
  decode_parameter <$> (parse_parameter <$> (chunk_of <$> v)) = v.
Proof.
  induction 1 as [|[k x] v [Hk Hx] _ IH]; [done|]. rewrite !fmap_cons, IH, parse_chunk.
  unfold decode_parameter. simpl in *. by rewrite !decode_encode.
Qed.

Lemma chunks_no c v : escaped_character c = false → c ∉ ["="; "&"]%char → c ∉ Join (chunk_of <$> v) ["&"%char].
Proof.
  intros Hc Hne. assert (∀ p, c ∉ chunk_of p) as Hchunk.
  { intros p Hin. unfold chunk_of in Hin. pose proof (encoded_characters p.1 c Hc).
    pose proof (encoded_characters p.2 c Hc). set_solver. }
  destruct v as [|p v]; [by intros ?%not_elem_of_nil|]. revert p. induction v as [|q v IH]; intros p.
  - simpl. by apply Hchunk.
  - rewrite !fmap_cons, Join_cons, <- fmap_cons. intros [Hin|[Hin|Hin]%elem_of_app]%elem_of_app;
      [by apply (Hchunk p)|set_solver|by apply (IH q)].
Qed.

Lemma extract_fragment_compose l frag :
  "#"%char ∉ l → extract_fragment (l ++ print_fragment frag) = (frag, length l).
Proof.
  intros Hl. unfold extract_fragment, find. rewrite drop_0. destruct frag as [|c frag]; simpl.
  - by rewrite app_nil_r, index_of_None.
  - rewrite index_of_here by done. simpl. f_equal. rewrite Nat.add_1_r.
    change ("#"%char :: c :: frag) with (["#"%char] ++ c :: frag). rewrite app_assoc, drop_app_length'; [done|].
    rewrite length_app. simpl. lia.
Qed.

Lemma find_pound l frag :
  "#"%char ∉ l → find "#" 0 (l ++ print_fragment frag) = match frag with [] => None | _ => Some (length l) end.
Proof.
  intros Hl. unfold find. rewrite drop_0. destruct frag as [|c frag]; simpl.
  - by rewrite app_nil_r, index_of_None.
  - by rewrite index_of_here.
Qed.

Lemma no_question base frag :
  "?"%char ∉ base → "#"%char ∉ base →
  let url := base ++ print_fragment frag in found_before (find "?" 0 url) (find "#" 0 url) = None.
Proof.
  intros Hq Hp url. unfold url. rewrite find_pound by done. destruct frag as [|c frag].
  - simpl. rewrite app_nil_r. unfold find. by rewrite drop_0, index_of_None.
  - exact (find_not_before "?" [] base _ Hq).
Qed.

Lemma found_question base qs frag :
  "?"%char ∉ base → "#"%char ∉ base ++ "?"%char :: qs →
  let url := (base ++ "?"%char :: qs) ++ print_fragment frag in
  found_before (find "?" 0 url) (find "#" 0 url) = Some (length base).
Proof.
  intros Hq Hp url. unfold url. rewrite find_pound by done.
  assert (find "?" 0 ((base ++ "?"%char :: qs) ++ print_fragment frag) = Some (length base)) as ->.
  { unfold find. rewrite drop_0, <- app_assoc. cbn [app]. by rewrite index_of_here. }
  destruct frag as [|c frag]; [done|]. simpl. rewrite length_app. simpl.
  by destruct (Nat.ltb_spec (length base) (length base + S (length qs))); [|lia].
Qed.

Lemma query_string_at base qs rest n :
  n = length qs → substr ((base ++ "?"%char :: qs) ++ rest) (length base + 1) n = qs.
Proof.
  intros ->. replace ((base ++ "?"%char :: qs) ++ rest) with ((base ++ ["?"%char]) ++ qs ++ rest)
    by by rewrite <- !app_assoc.
  replace (length base + 1) with (length (base ++ ["?"%char])) by by rewrite length_app. by apply substr_middle.
Qed.

(** A list of parameters survives, after any text without "?" and "#". *)
Lemma extract_compose (base : bytes) p :
  "?"%char ∉ base → "#"%char ∉ base →
  Forall (λ p, is_ascii p.1 ∧ is_ascii p.2) (parameters_vector p) → query p = QueryParameters (parameters_vector p) →
  ExtractURLParametersFromURL (base ++ ComposeParameters p) = (p, length base).
Proof.
  destruct p as [v qm frag]. simpl. intros Hq Hp Hv ->. unfold ComposeParameters, ExtractURLParametersFromURL. simpl.
  destruct v as [|p0 v].
  - simpl. by rewrite extract_fragment_compose, no_question.
  - rewrite compose_loop_join. set (qs := Join _ _).
    assert ("#"%char ∉ base ++ "?"%char :: qs) as Hno.
    { intros [Hin|Hin]%elem_of_app; [done|]. apply elem_of_cons in Hin as [Hin|Hin]; [done|].
      revert Hin. apply chunks_no; [done|set_solver]. }
    replace (base ++ ("?"%char :: qs) ++ print_fragment frag) with ((base ++ "?"%char :: qs) ++ print_fragment frag)
      by by rewrite <- app_assoc.
    rewrite extract_fragment_compose, found_question by done.
    rewrite query_string_at by (rewrite length_app; simpl; lia).
    subst qs. by rewrite split_chunks, decode_chunks.
Qed.

(** ** Composing a URL, then parsing it *)

Definition none_of (cs s : bytes) : Prop := Forall (λ c, c ∉ cs) s.

Lemma none_of_not_in cs s c : none_of cs s → c ∈ cs → c ∉ s.
Proof. intros Hs Hc Hin. unfold none_of in Hs. rewrite Forall_forall in Hs. by apply (Hs c Hin). Qed.

(** The parts hold no character that delimits them. *)
Record url_wf (u : URLWithoutParameters) : Prop := mkUrlWf {
  wf_scheme : none_of ["/"; "?"; "#"]%char (scheme u);
  wf_username : none_of ["/"; ":"; "@"; "?"; "#"]%char (username u);
  wf_password : none_of ["/"; "@"; "?"; "#"]%char (password u);
  wf_user : username u = [] → password u = [];
  wf_host : none_of ["/"; ":"; "@"; "?"; "#"]%char (host u);
  wf_has_host : host u ≠ [];
  wf_port : (0 ≤ port u < 65536)%Z;
  wf_path : ∃ p, path u = "/"%char :: p ∧ none_of ["?"; "#"]%char p;
}.

(** What a composed URL says: the scheme is explicit and a default port is not. *)
Definition normalize (u : URLWithoutParameters) : URLWithoutParameters :=
  mkUrl (host u) (path u) (printed_scheme u) (port_for_compose u) (username u) (password u).

Lemma find_double_slash_scheme sch rest :
  "/"%char ∉ sch → find_double_slash (sch ++ str "://" ++ rest) = Some (S (length sch)).
Proof.
  induction sch as [|x sch IH]; intros Hs; [done|]. specialize (IH ltac:(set_solver)).
  rewrite <- app_comm_cons. destruct (sch ++ str "://" ++ rest) as [|y t] eqn:Ht; [by destruct sch|].
  change (find_double_slash (x :: y :: t)) with
    (if bool_decide (x = "/"%char ∧ y = "/"%char) then Some 0 else S <$> find_double_slash (y :: t)).
  rewrite bool_decide_eq_false_2 by set_solver. by rewrite IH.
Qed.

Lemma parse_scheme_compose sch rest :
  "/"%char ∉ sch → parse_scheme (sch ++ str "://" ++ rest) = (sch, length (sch ++ str "://")).
Proof.
  intros Hs. unfold parse_scheme. rewrite find_double_slash_scheme by done.
  rewrite app_nth2, Nat.sub_diag by lia.
  change (nth 0 (str "://" ++ rest) nul) with ":"%char. rewrite bool_decide_eq_true_2 by done.
  rewrite take_app_length, length_app. f_equal. simpl. lia.
Qed.

(** A position found within the authority part is before its end. *)
Lemma found_here c pre l r e :
  c ∉ l → length pre + length l < e → found_before (find c (length pre) (pre ++ l ++ c :: r)) (Some e) = Some (length pre + length l).
Proof. intros Hc He. rewrite find_here by done. simpl. by destruct (Nat.ltb_spec (length pre + length l) e); [|lia]. Qed.

(** [user@] and [user:password@], read back. *)
Lemma parse_user_name pre name rest e :
  none_of ["/"; ":"; "@"; "?"; "#"]%char name → length pre + length name < e →
  parse_user (pre ++ name ++ "@"%char :: rest) (length pre) (Some e) = (name, [], length pre + length name + 1).
Proof.
  intros Hname He. unfold parse_user. rewrite found_here; [|eapply none_of_not_in; [exact Hname|set_solver]|done].
  rewrite (find_not_before ":" pre name) by (eapply none_of_not_in; [exact Hname|set_solver]).
  by rewrite substr_middle by lia.
Qed.

Lemma parse_user_password pre name pass rest e :
  none_of ["/"; ":"; "@"; "?"; "#"]%char name → none_of ["/"; "@"; "?"; "#"]%char pass →
  length pre + length (name ++ ":"%char :: pass) < e →
  parse_user (pre ++ (name ++ ":"%char :: pass) ++ "@"%char :: rest) (length pre) (Some e) =
    (name, pass, length pre + length (name ++ ":"%char :: pass) + 1).
Proof.
  intros Hname Hpass He. unfold parse_user.
  assert ("@"%char ∉ name ++ ":"%char :: pass) as Hat.
  { pose proof (none_of_not_in _ _ "@"%char Hname ltac:(set_solver)).
    pose proof (none_of_not_in _ _ "@"%char Hpass ltac:(set_solver)). set_solver. }
  rewrite found_here by done. rewrite <- (app_assoc name). cbn [app].
  rewrite found_here; [|eapply none_of_not_in; [exact Hname|set_solver]|rewrite length_app; simpl; lia].
  rewrite substr_middle by lia. rewrite length_app in *. simpl in *. f_equal. f_equal.
  replace (pre ++ name ++ ":"%char :: pass ++ "@"%char :: rest)
    with ((pre ++ name ++ [":"%char]) ++ pass ++ "@"%char :: rest) by by rewrite <- !app_assoc.
  replace (length pre + length name + 1) with (length (pre ++ name ++ [":"%char]))
    by (rewrite !length_app; simpl; lia).
  apply substr_middle. rewrite !length_app. simpl. lia.
Qed.

Lemma parse_user_compose u pre rest path :
  url_wf u → "@"%char ∉ rest →
  parse_user (pre ++ print_user u ++ rest ++ path) (length pre)
    (Some (length pre + length (print_user u ++ rest))) = (username u, password u, length (pre ++ print_user u)).
Proof.
  intros Hwf Hrest. pose proof (wf_username _ Hwf) as Hu. pose proof (wf_password _ Hwf) as Hp.
  pose proof (wf_user _ Hwf) as Hup. unfold print_user.
  destruct (username u) as [|a name].
  { unfold parse_user. simpl. rewrite find_not_before by done. by rewrite (Hup eq_refl), app_nil_r. }
  cbv iota. set (n := a :: name) in *. destruct (password u) as [|b pass]; cbv iota.
  - cbn [app]. rewrite <- app_assoc. cbn [app].
    rewrite parse_user_name by (try done; rewrite !length_app; simpl; lia). f_equal.
    rewrite !length_app. simpl. lia.
  - set (p := b :: pass) in *.
    replace (pre ++ (n ++ (":"%char :: p) ++ ["@"%char]) ++ rest ++ path)
      with (pre ++ (n ++ ":"%char :: p) ++ "@"%char :: rest ++ path)
      by (rewrite <- !app_assoc; cbn [app]; by rewrite <- ?app_assoc).
    rewrite parse_user_password by (try done; rewrite !length_app; simpl; rewrite ?length_app; simpl; lia). f_equal.
    rewrite !length_app. simpl. rewrite ?length_app. simpl. lia.
Qed.

(** *** The port *)

Lemma strip_zeroes_digits s :
  Forall (λ c, is_Some (digit_value c)) s → s ≠ [] →
  Forall (λ c, is_Some (digit_value c)) (strip_zeroes s) ∧ strip_zeroes s ≠ [] ∧
  read_digits 0 (strip_zeroes s) = read_digits 0 s.
Proof.
  induction s as [|c s IH]; [done|]. intros Hs _. destruct s as [|d s]; [done|].
  change (strip_zeroes (c :: d :: s)) with (if bool_decide (c = "0"%char) then strip_zeroes (d :: s) else c :: d :: s).
  apply Forall_cons in Hs as Hs'. destruct Hs' as [Hc Hs']. case_bool_decide; [|done].
  subst c. destruct (IH Hs' ltac:(done)) as (? & ? & ->). done.
Qed.

Lemma read_digits_stop acc s x r :
  Forall (λ c, is_Some (digit_value c)) s → digit_value x = None → read_digits acc (s ++ x :: r) = read_digits acc s.
Proof.
  intros Hs Hx. revert acc. induction Hs as [|c s [d Hd] _ IH]; intros acc; simpl; [by rewrite Hx|]. by rewrite Hd.
Qed.

Lemma atoi_port p path : (0 ≤ p < 65536)%Z → to_uint16 (atoi (print_uint16 p ++ "/"%char :: path)) = p.
Proof.
  intros Hp. destruct (strip_zeroes_digits (digits 5 p)) as (Hd & Hne & Hval);
    [apply digits_value|by intros Heq%(f_equal length)|].
  unfold print_uint16. destruct (strip_zeroes (digits 5 p)) as [|c s] eqn:Hs; [done|].
  apply Forall_cons in Hd as Hd'. destruct Hd' as [Hc _].
  destruct (digit_not_special c Hc) as (Hsp & Hminus & Hplus & _).
  assert (atoi ((c :: s) ++ "/"%char :: path) = read_digits 0 ((c :: s) ++ "/"%char :: path)) as ->.
  { unfold atoi. simpl. rewrite Hsp. simpl.
    destruct c as [[] [] [] [] [] [] [] []]; try done. }
  rewrite read_digits_stop by done. rewrite Hval, read_digits_digits by lia. unfold to_uint16.
  change (10 ^ Z.of_nat 5)%Z with 100000%Z. change (2 ^ 16)%Z with 65536%Z.
  rewrite (Z.mod_small p 100000) by lia. apply Z.mod_small. lia.
Qed.

Lemma port_for_compose_range u : url_wf u → (0 ≤ port_for_compose u < 65536)%Z.
Proof. intros Hwf%wf_port. unfold port_for_compose. destruct (_ && _); lia. Qed.

Lemma print_port_chars u c : c ∈ print_port u → c = ":"%char ∨ is_Some (digit_value c).
Proof.
  unfold print_port, print_uint16. destruct (0 <? port_for_compose u)%Z; [|set_solver].
  intros [->|Hin]%elem_of_cons; [by left|]. right.
  destruct (strip_zeroes_digits (digits 5 (port_for_compose u))) as (Hd & _);
    [apply digits_value|by intros Heq%(f_equal length)|]. rewrite Forall_forall in Hd. by apply Hd.
Qed.

Lemma print_port_no u c : c ≠ ":"%char → digit_value c = None → c ∉ print_port u.
Proof. intros Hc Hd [->|[d Hs]]%print_port_chars; [done|]. by rewrite Hd in Hs. Qed.

Lemma parse_host_compose u pre path :
  url_wf u →
  parse_host (pre ++ (host u ++ print_port u) ++ "/"%char :: path) (length pre)
    (Some (length pre + length (host u ++ print_port u))) = (host u, port_for_compose u).
Proof.
  intros Hwf. pose proof (port_for_compose_range _ Hwf) as Hrange.
  assert (":"%char ∉ host u) as Hh by (eapply none_of_not_in; [apply (wf_host _ Hwf)|set_solver]).
  unfold parse_host, print_port. destruct (Z.ltb_spec 0 (port_for_compose u)) as [Hpos|Hzero].
  - rewrite <- app_assoc. cbn [app]. rewrite found_here; [|done|rewrite length_app; simpl; lia].
    rewrite substr_middle by lia. f_equal.
    replace (pre ++ host u ++ ":"%char :: print_uint16 (port_for_compose u) ++ "/"%char :: path)
      with ((pre ++ host u ++ [":"%char]) ++ print_uint16 (port_for_compose u) ++ "/"%char :: path)
      by by rewrite <- !app_assoc.
    rewrite drop_app_length'; [|rewrite !length_app; simpl; lia]. by apply atoi_port.
  - rewrite app_nil_r. rewrite find_not_before by done. unfold substr_to.
    rewrite substr_middle by lia. f_equal. lia.
Qed.

(** *** The whole URL *)

Lemma printed_scheme_ok u c : url_wf u → c ∈ ["/"; "?"; "#"]%char → c ∉ printed_scheme u.
Proof.
  intros Hwf Hc. assert (Forall (λ s, c ∉ s) [str "http"; str "https"; []]) as Hs.
  { repeat (apply elem_of_cons in Hc as [->|Hc]; [repeat constructor; set_solver|]). set_solver. }
  rewrite !Forall_cons in Hs. destruct Hs as (Hhttp & Hhttps & Hnil & _).
  pose proof (none_of_not_in _ _ c (wf_scheme _ Hwf) Hc) as Hscheme.
  unfold printed_scheme, scheme_for_compose, DefaultSchemeForPort, kDefaultScheme.
  destruct (scheme u) as [|x s]; [|done].
  destruct (0 <? port u)%Z; [|done]. repeat case_bool_decide; done.
Qed.

Lemma print_user_ok u c : url_wf u → c ∈ ["/"; "?"; "#"]%char → c ∉ print_user u.
Proof.
  intros Hwf Hc.
  assert (c ∉ username u) by (eapply none_of_not_in; [apply (wf_username _ Hwf)|set_solver]).
  assert (c ∉ password u) by (eapply none_of_not_in; [apply (wf_password _ Hwf)|set_solver]).
  assert (c ≠ ":"%char ∧ c ≠ "@"%char) as [? ?] by set_solver.
  unfold print_user. destruct (username u); [set_solver|]. destruct (password u); set_solver.
Qed.

Lemma authority_ok u c : url_wf u → c ∈ ["/"; "?"; "#"]%char → c ∉ print_user u ++ host u ++ print_port u.
Proof.
  intros Hwf Hc. pose proof (print_user_ok u c Hwf Hc).
  assert (c ∉ host u) by (eapply none_of_not_in; [apply (wf_host _ Hwf)|set_solver]).
  assert (c ∉ print_port u).
  { apply print_port_no; [set_solver|].
    repeat (apply elem_of_cons in Hc as [->|Hc]; [done|]). set_solver. }
  set_solver.
Qed.

Lemma compose_parts u : url_wf u →
  ComposeURL_without_parameters u = (printed_scheme u ++ str "://") ++ print_user u ++ (host u ++ print_port u) ++ path u.
Proof.
  intros Hwf. pose proof (wf_has_host _ Hwf). unfold ComposeURL_without_parameters.
  destruct (host u) as [|x h]; [done|]. by rewrite <- !app_assoc.
Qed.

(** Composing and parsing gives the URL back, with the scheme made explicit and
    a default port left out. *)
Lemma parse_compose u : url_wf u → ParseURLWithoutParameters (ComposeURL_without_parameters u) = Ok (normalize u).
Proof.
  intros Hwf. rewrite compose_parts by done. destruct (wf_path _ Hwf) as (p & Hpath & _). rewrite Hpath.
  assert ("/"%char ∉ printed_scheme u) as Hs by (apply printed_scheme_ok; [done|set_solver]).
  assert ("/"%char ∉ print_user u ++ host u ++ print_port u) as Hauth by (apply authority_ok; [done|set_solver]).
  assert ("@"%char ∉ host u ++ print_port u) as Hat.
  { assert ("@"%char ∉ host u) by (eapply none_of_not_in; [apply (wf_host _ Hwf)|set_solver]).
    pose proof (print_port_no u "@" ltac:(done) eq_refl). set_solver. }
  set (pre := printed_scheme u ++ str "://"). set (hp := host u ++ print_port u) in *.
  set (url := pre ++ print_user u ++ hp ++ "/"%char :: p).
  assert (parse_scheme url = (printed_scheme u, length pre)) as Hscheme.
  { subst url pre. rewrite <- app_assoc. by rewrite parse_scheme_compose. }
  assert (find "/" (length pre) url = Some (length pre + length (print_user u ++ hp))) as Hend.
  { subst url. rewrite (app_assoc (print_user u)). by rewrite find_here. }
  assert (parse_user url (length pre) (Some (length pre + length (print_user u ++ hp))) =
    (username u, password u, length (pre ++ print_user u))) as Huser by by apply parse_user_compose.
  assert (parse_host url (length (pre ++ print_user u)) (Some (length pre + length (print_user u ++ hp))) =
    (host u, port_for_compose u)) as Hhost.
  { subst url. rewrite (app_assoc pre).
    replace (length pre + length (print_user u ++ hp)) with (length (pre ++ print_user u) + length hp)
      by (rewrite !length_app; lia). by apply parse_host_compose. }
  assert (parse_path url (Some (length pre + length (print_user u ++ hp))) = "/"%char :: p) as Hp.
  { unfold parse_path. subst url. rewrite !app_assoc, drop_app_length'; [done|]. rewrite !length_app. lia. }
  unfold ParseURLWithoutParameters. destruct url as [|x url'] eqn:Hurl; [by destruct pre|].
  rewrite Hscheme, Hend, Huser, Hhost, Hp. unfold normalize. by rewrite Hpath.
Qed.

Lemma compose_no_marks u c : url_wf u → c ∈ ["?"; "#"]%char → c ∉ ComposeURL_without_parameters u.
Proof.
  intros Hwf Hc. assert (c ∈ ["/"; "?"; "#"]%char) as Hc' by set_solver. rewrite compose_parts by done.
  pose proof (printed_scheme_ok u c Hwf Hc'). pose proof (authority_ok u c Hwf Hc').
  destruct (wf_path _ Hwf) as (p & -> & Hp). pose proof (none_of_not_in _ _ c Hp Hc).
  assert (c ∉ str "://") by (repeat (apply elem_of_cons in Hc as [->|Hc]; [set_solver|]); set_solver).
  assert (c ≠ "/"%char) by set_solver. set_solver.
Qed.

Lemma make_compose (u : URL) :
  url_wf u.1 → Forall (λ p, is_ascii p.1 ∧ is_ascii p.2) (parameters_vector u.2) →
  query u.2 = QueryParameters (parameters_vector u.2) →
  make_URL (ComposeURL u) = Ok (normalize u.1, u.2).
Proof.
  intros Hwf Hv Hq. unfold make_URL, ComposeURL.
  rewrite extract_compose; [|apply compose_no_marks; [done|set_solver]..|done|done].
  rewrite take_app_length, parse_compose by done. done.
Qed.

(** ** Redirects *)

(** The URL of a redirect can be requested: it has a scheme and a host, and a
    port if the scheme is one of the supported ones; path and parameters are
    those of the target. *)
Lemma redirect_complete (source target : URL) :
  let u := MakeRedirectedURL source target in
  scheme u.1 ≠ [] ∧ host u.1 ≠ [] ∧ (scheme u.1 ∈ [str "http"; str "https"] → port u.1 ≠ 0%Z) ∧
  path u.1 = path target.1 ∧ u.2 = target.2.
Proof.
  unfold MakeRedirectedURL, MakeURLWithDefaults.
  destruct (match host target.1 with [] => _ | h => (h, port target.1) end) as [h p]. simpl.
  set (sch := match match scheme target.1 with [] => scheme source.1 | x => x end with [] => _ | s => s end).
  assert (sch ≠ []) as Hsch.
  { subst sch. destruct (match scheme target.1 with [] => scheme source.1 | x => x end); [|done].
    destruct (p =? 0)%Z; [done|]. by destruct (DefaultSchemeForPort p). }
  split_and!; try done; [by destruct h|]. intros Hin. destruct (Z.eqb_spec p 0); [|done].
  unfold DefaultPortForScheme. apply elem_of_cons in Hin as [->|Hin]; [by vm_compute|].
  apply list_elem_of_singleton in Hin as ->. by vm_compute.
Qed.
End Url.
