(* ===== verification/Base64.v ===== *)
(** * Base64: bricks/util/base64.h

    Encoding shifts bytes into a 16-bit buffer and takes six bits at a time out
    of it; decoding does the reverse.  The buffer is never cleared, so its high
    bits are left over from earlier input.  The definitions are those of a build
    with assertions ([NDEBUG] not defined). *)

From Stdlib Require Import ZArith NArith Lia Ascii String.
From stdpp Require Import base list strings.
From S2P Require Import Prelude Persistence.
Open Scope Z_scope.

Module Base64.

Definition encode_map : bytes := str "ABCDEFGHIJKLMNOPQRSTUVWXYZabcdefghijklmnopqrstuvwxyz0123456789+/".
Definition url_encode_map : bytes := str "ABCDEFGHIJKLMNOPQRSTUVWXYZabcdefghijklmnopqrstuvwxyz0123456789-_".
Definition pad_char : ascii := "=".

Definition decode_map : list Z :=
  [255; 255; 255; 255; 255; 255; 255; 255; 255; 255; 255; 255; 255; 255; 255; 255;
   255; 255; 255; 255; 255; 255; 255; 255; 255; 255; 255; 255; 255; 255; 255; 255;
   255; 255; 255; 255; 255; 255; 255; 255; 255; 255; 255; 62;  255; 62;  255; 63;
   52;  53;  54;  55;  56;  57;  58;  59;  60;  61;  255; 255; 0;   255; 255; 255;
   255; 0;   1;   2;   3;   4;   5;   6;   7;   8;   9;   10;  11;  12;  13;  14;
   15;  16;  17;  18;  19;  20;  21;  22;  23;  24;  25;  255; 255; 255; 255; 63;
   255; 26;  27;  28;  29;  30;  31;  32;  33;  34;  35;  36;  37;  38;  39;  40;
   41;  42;  43;  44;  45;  46;  47;  48;  49;  50;  51;  255; 255; 255; 255; 255].

Inductive EncodingType := Canonical | URL.

Inductive base64_error := Base64DecodeException | Base64Fault (f : fault).

Definition byte_of (c : ascii) : Z := Z.of_N (N_of_ascii c).
Definition char_of (z : Z) : ascii := ascii_of_N (Z.to_N z).

Definition uint16 (z : Z) : Z := z mod 2 ^ 16.

Section Impl.
Context (TYPE : EncodingType).

Definition the_map : bytes := match TYPE with Canonical => encode_map | URL => url_encode_map end.

(** [map[i & 0x3F]]. *)
Definition map_at (i : Z) : ascii := nth (Z.to_nat (Z.land i 63)) the_map nul.

(** [while (nbits >= 6) {...}]; each turn takes six off, so [nbits] turns are
    enough. *)
Fixpoint drain (fuel : nat) (buf : Z) (nbits : nat) : bytes * nat :=
  if (6 <=? nbits)%nat then
    match fuel with
    | O => ([], nbits)
    | S fuel =>
        let nbits := (nbits - 6)%nat in
        let '(out, rest) := drain fuel buf nbits in
        (map_at (Z.shiftr buf (Z.of_nat nbits)) :: out, rest)
    end
  else ([], nbits).

Fixpoint encode_loop (input : bytes) (buf : Z) (nbits : nat) : bytes :=
  match input with
  | [] => if (0 <? nbits)%nat then [map_at (Z.shiftr (Z.shiftl buf 6) (Z.of_nat nbits))] else []
  | c :: input =>
      let buf := uint16 (Z.shiftl buf 8 + byte_of c) in
      let '(out, nbits) := drain (nbits + 8) buf (nbits + 8) in
      out ++ encode_loop input buf nbits
  end.

Definition result_size (input_size : nat) : nat :=
  4 * (input_size / 3) + (if (input_size mod 3 =? 0)%nat then 0 else 4).

Definition Encode (input : bytes) : outcome base64_error bytes :=
  let out := encode_loop input 0 0 in
  if (length out <=? result_size (length input))%nat
  then Ok (out ++ replicate (result_size (length input) - length out) pad_char)
  else Throw (Base64Fault AssertionFailed).

(** [std::isalnum] in the C locale. *)
Definition isalnum (c : ascii) : bool :=
  let n := byte_of c in
  ((48 <=? n) && (n <=? 57)) || ((65 <=? n) && (n <=? 90)) || ((97 <=? n) && (n <=? 122)).

Definition IsValidChar (c : ascii) : bool :=
  isalnum c ||
  match TYPE with
  | Canonical => bool_decide (c = "+"%char) || bool_decide (c = "/"%char)
  | URL => bool_decide (c = "-"%char) || bool_decide (c = "_"%char)
  end.

(** The output so far and whether a pad character ended the loop. *)
Fixpoint decode_loop (input : bytes) (buf : Z) (nbits : nat) : outcome base64_error (bytes * bool) :=
  match input with
  | [] => Ok ([], false)
  | c :: input =>
      if bool_decide (c = pad_char) then Ok ([], true)
      else if negb (IsValidChar c) then Throw Base64DecodeException
      else
        let buf := uint16 (Z.shiftl buf 6 + nth (Z.to_nat (byte_of c)) decode_map 255) in
        let nbits := (nbits + 6)%nat in
        if (8 <=? nbits)%nat then
          let nbits := (nbits - 8)%nat in
          '(out, padded) ← decode_loop input buf nbits;
          Ok (char_of (Z.land (Z.shiftr buf (Z.of_nat nbits)) 255) :: out, padded)
        else decode_loop input buf nbits
  end.

Definition Decode (input : bytes) : outcome base64_error bytes :=
  '(out, padded) ← decode_loop input 0 0;
  let size := if padded : bool then length out else (3 * length input / 4)%nat in
  if (length out =? size)%nat then Ok out else Throw (Base64Fault AssertionFailed).
End Impl.

(** ** Encoding, then decoding *)

Section RoundTrip.
Context (TYPE : EncodingType).

(** The character of each six-bit number is read back as that number. *)
Lemma map_at_valid i : bool_decide (map_at TYPE i = pad_char) = false ∧ IsValidChar TYPE (map_at TYPE i) = true ∧
  nth (Z.to_nat (byte_of (map_at TYPE i))) decode_map 255 = Z.land i 63.
Proof.
  unfold map_at. change 63 with (Z.ones 6). rewrite Z.land_ones by lia. change (2 ^ 6) with 64.
  pose proof (Z.mod_pos_bound i 64 ltac:(lia)) as Hv. generalize dependent (i mod 64). intros v Hv.
  assert (v ∈ seqZ 0 64) as Hin by (apply elem_of_seqZ; lia). revert Hin. clear Hv.
  assert (Forall (λ v, bool_decide (nth (Z.to_nat v) (the_map TYPE) nul = pad_char) = false ∧
    IsValidChar TYPE (nth (Z.to_nat v) (the_map TYPE) nul) = true ∧
    nth (Z.to_nat (byte_of (nth (Z.to_nat v) (the_map TYPE) nul))) decode_map 255 = v) (seqZ 0 64)) as Hall.
  { destruct TYPE; repeat (constructor; [split_and!; reflexivity|]); constructor. }
  rewrite Forall_forall in Hall. apply Hall.
Qed.

(** One character of an encoded string. *)
Lemma decode_char i rest buf nbits :
  decode_loop TYPE (map_at TYPE i :: rest) buf nbits =
    let buf := uint16 (Z.shiftl buf 6 + Z.land i 63) in
    let nbits := (nbits + 6)%nat in
    if (8 <=? nbits)%nat then
      let nbits := (nbits - 8)%nat in
      '(out, padded) ← decode_loop TYPE rest buf nbits;
      Ok (char_of (Z.land (Z.shiftr buf (Z.of_nat nbits)) 255) :: out, padded)
    else decode_loop TYPE rest buf nbits.
Proof.
  destruct (map_at_valid i) as (Hpad & Hvalid & Hval). cbn [decode_loop]. by rewrite Hpad, Hvalid, Hval.
Qed.

Lemma byte_of_range c : 0 ≤ byte_of c < 256.
Proof. unfold byte_of. pose proof (N_ascii_bounded c). lia. Qed.

Lemma char_of_byte_of c : char_of (byte_of c) = c.
Proof. unfold char_of, byte_of. by rewrite N2Z.id, ascii_N_embedding. Qed.

(** Shifts and masks as arithmetic. *)
Lemma shiftr_div z n : Z.shiftr z (Z.of_nat n) = z / 2 ^ Z.of_nat n.
Proof. apply Z.shiftr_div_pow2. lia. Qed.

Lemma land_63 z : Z.land z 63 = z mod 64.
Proof. change 63 with (Z.ones 6). by rewrite Z.land_ones by lia. Qed.

Lemma land_255 z : Z.land z 255 = z mod 256.
Proof. change 255 with (Z.ones 8). by rewrite Z.land_ones by lia. Qed.

Lemma uint16_shift z n v : uint16 (Z.shiftl z (Z.of_nat n) + v) = (z * 2 ^ Z.of_nat n + v) mod 65536.
Proof. unfold uint16. by rewrite Z.shiftl_mul_pow2 by lia. Qed.

Ltac to_arith :=
  change 8 with (Z.of_nat 8); change 6 with (Z.of_nat 6);
  rewrite ?shiftr_div, ?land_63, ?land_255, ?uint16_shift, ?Z.shiftl_mul_pow2 by lia;
  cbn [Z.of_nat Pos.of_succ_nat Pos.succ Z.pow Z.pow_pos Pos.iter Z.mul Pos.mul];
  Z.to_euclidean_division_equations; lia.

Lemma encode_three a b c rest buf :
  ∃ i1 i2 i3 i4 buf',
    encode_loop TYPE (a :: b :: c :: rest) buf 0 =
      map_at TYPE i1 :: map_at TYPE i2 :: map_at TYPE i3 :: map_at TYPE i4 :: encode_loop TYPE rest buf' 0 ∧
    Z.land i1 63 = byte_of a / 4 ∧ Z.land i2 63 = byte_of a mod 4 * 16 + byte_of b / 16 ∧
    Z.land i3 63 = byte_of b mod 16 * 4 + byte_of c / 64 ∧ Z.land i4 63 = byte_of c mod 64.
Proof.
  eexists _, _, _, _, _. split; [cbn; reflexivity|].
  pose proof (byte_of_range a). pose proof (byte_of_range b). pose proof (byte_of_range c).
  split_and!; to_arith.
Qed.

Lemma encode_two a b buf :
  ∃ i1 i2 i3, encode_loop TYPE [a; b] buf 0 = [map_at TYPE i1; map_at TYPE i2; map_at TYPE i3] ∧
    Z.land i1 63 = byte_of a / 4 ∧ Z.land i2 63 = byte_of a mod 4 * 16 + byte_of b / 16 ∧
    Z.land i3 63 = byte_of b mod 16 * 4.
Proof.
  eexists _, _, _. split; [cbn; reflexivity|].
  pose proof (byte_of_range a). pose proof (byte_of_range b). split_and!; to_arith.
Qed.

Lemma encode_one a buf :
  ∃ i1 i2, encode_loop TYPE [a] buf 0 = [map_at TYPE i1; map_at TYPE i2] ∧
    Z.land i1 63 = byte_of a / 4 ∧ Z.land i2 63 = byte_of a mod 4 * 16.
Proof.
  eexists _, _. split; [cbn; reflexivity|]. pose proof (byte_of_range a). split_and!; to_arith.
Qed.

(** The result of a decoding with one more character in front. *)
Definition emit (c : Z) (r : outcome base64_error (bytes * bool)) : outcome base64_error (bytes * bool) :=
  '(out, padded) ← r; Ok (char_of c :: out, padded).

(** With no bits, six, four and two bits left over. *)
Definition shifted (buf i : Z) : Z := uint16 (Z.shiftl buf 6 + Z.land i 63).
Definition byte_at (buf : Z) (n : nat) : Z := Z.land (Z.shiftr buf (Z.of_nat n)) 255.

Lemma decode_char_0 i rest buf :
  decode_loop TYPE (map_at TYPE i :: rest) buf 0 = decode_loop TYPE rest (shifted buf i) 6.
Proof. apply decode_char. Qed.

Lemma decode_char_6 i rest buf :
  decode_loop TYPE (map_at TYPE i :: rest) buf 6 =
    emit (byte_at (shifted buf i) 4) (decode_loop TYPE rest (shifted buf i) 4).
Proof. apply decode_char. Qed.

Lemma decode_char_4 i rest buf :
  decode_loop TYPE (map_at TYPE i :: rest) buf 4 =
    emit (byte_at (shifted buf i) 2) (decode_loop TYPE rest (shifted buf i) 2).
Proof. apply decode_char. Qed.

Lemma decode_char_2 i rest buf :
  decode_loop TYPE (map_at TYPE i :: rest) buf 2 =
    emit (byte_at (shifted buf i) 0) (decode_loop TYPE rest (shifted buf i) 0).
Proof. apply decode_char. Qed.

(** The bytes of a whole group of characters and of what can end the input. *)
Lemma decode_four i1 i2 i3 i4 rest buf :
  ∃ e1 e2 e3 buf',
    decode_loop TYPE (map_at TYPE i1 :: map_at TYPE i2 :: map_at TYPE i3 :: map_at TYPE i4 :: rest) buf 0 =
      emit e1 (emit e2 (emit e3 (decode_loop TYPE rest buf' 0))) ∧
    e1 = Z.land i1 63 * 4 + Z.land i2 63 / 16 ∧ e2 = Z.land i2 63 mod 16 * 16 + Z.land i3 63 / 4 ∧
    e3 = Z.land i3 63 mod 4 * 64 + Z.land i4 63.
Proof.
  eexists _, _, _, _. split; [by rewrite decode_char_0, decode_char_6, decode_char_4, decode_char_2|].
  unfold byte_at, shifted. split_and!; to_arith.
Qed.

Lemma decode_three i1 i2 i3 rest buf :
  ∃ e1 e2 buf',
    decode_loop TYPE (map_at TYPE i1 :: map_at TYPE i2 :: map_at TYPE i3 :: pad_char :: rest) buf 0 =
      emit e1 (emit e2 (decode_loop TYPE (pad_char :: rest) buf' 2)) ∧
    e1 = Z.land i1 63 * 4 + Z.land i2 63 / 16 ∧ e2 = Z.land i2 63 mod 16 * 16 + Z.land i3 63 / 4.
Proof.
  eexists _, _, _. split; [by rewrite decode_char_0, decode_char_6, decode_char_4|].
  unfold byte_at, shifted. split_and!; to_arith.
Qed.

Lemma decode_two i1 i2 rest buf :
  ∃ e1 buf',
    decode_loop TYPE (map_at TYPE i1 :: map_at TYPE i2 :: pad_char :: rest) buf 0 =
      emit e1 (decode_loop TYPE (pad_char :: rest) buf' 4) ∧ e1 = Z.land i1 63 * 4 + Z.land i2 63 / 16.
Proof.
  eexists _, _. split; [by rewrite decode_char_0, decode_char_6|]. unfold byte_at, shifted. to_arith.
Qed.

(** Induction three bytes at a time. *)
Lemma three_ind (P : bytes → Prop) :
  P [] → (∀ a, P [a]) → (∀ a b, P [a; b]) → (∀ a b c l, P l → P (a :: b :: c :: l)) → ∀ l, P l.
Proof.
  intros H0 H1 H2 H3. fix IH 1. intros [|a [|b [|c l]]]; [done|done|done|]. apply H3, IH.
Qed.

(** The number of pad characters for so many bytes. *)
Definition padding (n : nat) : nat := match (n mod 3)%nat with 1 => 2 | 2 => 1 | _ => 0 end%nat.

Lemma mod_three n : ((3 + n) mod 3 = n mod 3)%nat.
Proof. replace (3 + n)%nat with (n + 1 * 3)%nat by lia. apply Nat.Div0.mod_add. Qed.

Lemma div_three n : ((3 + n) / 3 = S (n / 3))%nat.
Proof. replace (3 + n)%nat with (1 * 3 + n)%nat by lia. by rewrite Nat.div_add_l. Qed.

Lemma length_encode_loop input buf :
  (length (encode_loop TYPE input buf 0) + padding (length input) = result_size (length input))%nat.
Proof.
  revert buf. induction input as [|a|a b|a b c l IH] using three_ind; intros buf; [done|done|done|].
  destruct (encode_three a b c l buf) as (i1 & i2 & i3 & i4 & buf' & -> & _). specialize (IH buf').
  unfold padding, result_size in *. change (length (a :: b :: c :: l)) with (3 + length l)%nat.
  rewrite mod_three, div_three. cbn [length]. lia.
Qed.

Lemma emit_byte e c input padded : e = byte_of c → emit e (Ok (input, padded)) = Ok (c :: input, padded).
Proof. intros ->. unfold emit. simpl. by rewrite char_of_byte_of. Qed.

Lemma decode_encode_loop input buf buf' :
  decode_loop TYPE (encode_loop TYPE input buf 0 ++ replicate (padding (length input)) pad_char) buf' 0 =
    Ok (input, negb (padding (length input) =? 0)%nat).
Proof.
  revert buf buf'. induction input as [|a|a b|a b c l IH] using three_ind; intros buf buf'; [done|..].
  - destruct (encode_one a buf) as (i1 & i2 & -> & H1 & H2).
    change (padding (length [a])) with 2%nat. cbn [app replicate].
    destruct (decode_two i1 i2 [pad_char] buf') as (e1 & buf1 & -> & ->). rewrite H1, H2.
    pose proof (byte_of_range a). apply emit_byte. Z.to_euclidean_division_equations; lia.
  - destruct (encode_two a b buf) as (i1 & i2 & i3 & -> & H1 & H2 & H3).
    change (padding (length [a; b])) with 1%nat. cbn [app replicate].
    destruct (decode_three i1 i2 i3 [] buf') as (e1 & e2 & buf1 & -> & -> & ->). rewrite H1, H2, H3.
    pose proof (byte_of_range a). pose proof (byte_of_range b).
    change (decode_loop TYPE [pad_char] buf1 2) with (Ok (E := base64_error) ([] : bytes, true)).
    rewrite (emit_byte _ b) by (Z.to_euclidean_division_equations; lia).
    apply emit_byte. Z.to_euclidean_division_equations; lia.
  - destruct (encode_three a b c l buf) as (i1 & i2 & i3 & i4 & buf1 & -> & H1 & H2 & H3 & H4). cbn [app].
    assert (padding (length (a :: b :: c :: l)) = padding (length l)) as ->.
    { unfold padding. change (length (a :: b :: c :: l)) with (3 + length l)%nat. by rewrite mod_three. }
    destruct (decode_four i1 i2 i3 i4 (encode_loop TYPE l buf1 0 ++ replicate (padding (length l)) pad_char) buf')
      as (e1 & e2 & e3 & buf2 & -> & -> & -> & ->). rewrite H1, H2, H3, H4, IH.
    pose proof (byte_of_range a). pose proof (byte_of_range b). pose proof (byte_of_range c).
    rewrite (emit_byte _ c) by (Z.to_euclidean_division_equations; lia).
    rewrite (emit_byte _ b) by (Z.to_euclidean_division_equations; lia).
    apply emit_byte. Z.to_euclidean_division_equations; lia.
Qed.

Lemma result_size_padding n : padding n = 0%nat → (3 * result_size n / 4 = n)%nat.
Proof.
  unfold padding, result_size. pose proof (Nat.div_mod_eq n 3). pose proof (Nat.mod_upper_bound n 3 ltac:(lia)).
  destruct (n mod 3)%nat as [|[|[|]]] eqn:Hm; try lia.
  change (if (0 =? 0)%nat then 0%nat else 4%nat) with 0%nat. intros _.
  replace (3 * (4 * (n / 3) + 0))%nat with (n * 4)%nat by lia. by apply Nat.div_mul.
Qed.

Lemma encode_ok input : ∃ out, Encode TYPE input = Ok out ∧ length out = result_size (length input) ∧
  Decode TYPE out = Ok input.
Proof.
  pose proof (length_encode_loop input 0) as Hlen. unfold Encode.
  destruct (Nat.leb_spec (length (encode_loop TYPE input 0 0)) (result_size (length input))) as [Hle|Hgt]; [|lia].
  replace (result_size (length input) - length (encode_loop TYPE input 0 0))%nat with (padding (length input)) by lia.
  eexists. split; [done|]. rewrite length_app, length_replicate. split; [done|]. unfold Decode.
  rewrite decode_encode_loop. simpl.
  destruct (Nat.eqb_spec (padding (length input)) 0) as [Hp|Hp]; simpl.
  - rewrite length_app, length_replicate, Hlen. pose proof (result_size_padding _ Hp) as Hr. simpl in Hr. rewrite Hr.
    by rewrite Nat.eqb_refl.
  - by rewrite Nat.eqb_refl.
Qed.
End RoundTrip.
End Base64.
