(* ===== verification/CompactTsv.v ===== *)
(** * Compact TSV: compact_tsv/compact_tsv.h

    Rows of strings in a compact form: every string is stored once, rows are
    stored as the columns in which they differ from the row before, and refer to
    strings by their offsets.  The form is a sequence of bytes, with numbers in the
    little-endian order of the processor.  A read outside of it is a fault. *)

From Stdlib Require Import ZArith NArith Lia Ascii String.
From stdpp Require Import base gmap list strings.
From S2P Require Import Prelude Persistence.
Open Scope nat_scope.

Module CompactTsv.

(** ** Numbers in memory *)

Fixpoint le_bytes (n : nat) (x : N) : bytes := match n with O => [] | S n => ascii_of_N (x mod 256)%N :: le_bytes n (x / 256)%N end.
Fixpoint of_le_bytes (s : bytes) : N := match s with [] => 0%N | c :: s => (N_of_ascii c + 256 * of_le_bytes s)%N end.

(** [index_type], [length_type] and [offset_type] are of 8, 16 and 32 bits. *)
Definition row_done : N := 254.
Definition storage : N := 255.

(** ** Packing *)

Record CompactTSV := mkTSV {
  done_ : bool;
  dim_ : nat;
  first_ : bool;
  current_ : list bytes;
  data_ : bytes;
  offsets_ : gmap bytes N;
}.

Definition CompactTSV_new (dim : nat) : outcome fault CompactTSV :=
  _ ← CURRENT_ASSERT (dim <=? 254);
  Ok (mkTSV false dim true (replicate dim []) [] ∅).

Definition AssertStillSmall (t : CompactTSV) : outcome fault () :=
  CURRENT_ASSERT (N.of_nat (length (data_ t)) mod 2 ^ 32 =? N.of_nat (length (data_ t)))%N.

Definition append_data (s : bytes) (t : CompactTSV) : CompactTSV :=
  mkTSV (done_ t) (dim_ t) (first_ t) (current_ t) (data_ t ++ s) (offsets_ t).

Definition StoreString (s : bytes) (t : CompactTSV) : outcome fault (N * CompactTSV) :=
  let length_ := (N.of_nat (length s) mod 2 ^ 16)%N in
  _ ← CURRENT_ASSERT (length_ =? N.of_nat (length s))%N;
  let t := append_data (le_bytes 1 storage) t in
  let result := (N.of_nat (length (data_ t)) mod 2 ^ 32)%N in
  let t := append_data (le_bytes 2 length_) t in
  let t := append_data (take (N.to_nat length_ + 1) (s ++ [nul])) t in
  _ ← AssertStillSmall t;
  Ok (result, t).

(** An offset of zero is that of no string. *)
Definition GetOffsetOf (s : bytes) (t : CompactTSV) : outcome fault (N * CompactTSV) :=
  let offset := default 0%N (offsets_ t !! s) in
  if (offset =? 0)%N
  then '(offset, t) ← StoreString s t;
       Ok (offset, mkTSV (done_ t) (dim_ t) (first_ t) (current_ t) (data_ t) (<[s := offset]> (offsets_ t)))
  else Ok (offset, t).

(** The body of the loop over the columns of a row. *)
Definition pack_column (i : nat) (s : bytes) (t : CompactTSV) : outcome fault CompactTSV :=
  match current_ t !! i with
  | None => Throw DanglingDereference
  | Some c =>
      if negb (bool_decide (s = c)) || first_ t
      then '(offset, t) ← GetOffsetOf s (mkTSV (done_ t) (dim_ t) (first_ t) (<[i := s]> (current_ t)) (data_ t) (offsets_ t));
           Ok (append_data (le_bytes 4 offset) (append_data (le_bytes 1 (N.of_nat i)) t))
      else Ok t
  end.

Fixpoint pack_columns (i : nat) (row : list bytes) (t : CompactTSV) : outcome fault CompactTSV :=
  match row with
  | [] => Ok t
  | s :: row => t ← pack_column i s t; pack_columns (S i) row t
  end.

(** The number of columns is that of the first row. *)
Definition set_dim (row : list bytes) (t : CompactTSV) : outcome fault CompactTSV :=
  if dim_ t =? 0
  then _ ← CURRENT_ASSERT (length row <=? 254);
       Ok (mkTSV (done_ t) (length row) (first_ t) (resize (length row) [] (current_ t)) (data_ t) (offsets_ t))
  else _ ← CURRENT_ASSERT (length row =? dim_ t); Ok t.

(** [operator()]. *)
Definition pack_row (row : list bytes) (t : CompactTSV) : outcome fault CompactTSV :=
  _ ← CURRENT_ASSERT (negb (done_ t));
  _ ← CURRENT_ASSERT (negb (length row =? 0));
  t ← set_dim row t;
  t ← pack_columns 0 row t;
  let t := append_data (le_bytes 1 row_done) t in
  let t := mkTSV (done_ t) (dim_ t) false (current_ t) (data_ t) (offsets_ t) in
  _ ← AssertStillSmall t;
  Ok t.

Definition Finalize (t : CompactTSV) : outcome fault CompactTSV :=
  _ ← CURRENT_ASSERT (negb (done_ t));
  Ok (mkTSV true (dim_ t) (first_ t) (current_ t) (data_ t) (offsets_ t)).

Definition GetPackedString (t : CompactTSV) : outcome fault bytes :=
  _ ← CURRENT_ASSERT (done_ t);
  Ok (data_ t).

(** Rows packed one after another. *)
Definition pack_rows (rows : list (list bytes)) (t : CompactTSV) : outcome fault CompactTSV :=
  foldl (λ r row, t ← r; pack_row row t) (Ok t) rows.

(** ** Unpacking *)

Section Unpack.
(** What a dispatcher keeps of a string in the data. *)
Context {T : Type} (empty : T) (cell : bytes → nat → nat → outcome fault T).

(** [n] bytes at an offset. *)
Definition read (n : nat) (data : bytes) (p : nat) : outcome fault bytes :=
  if p + n <=? length data then Ok (take n (drop p data)) else Throw DanglingDereference.

Definition read_number (n : nat) (data : bytes) (p : nat) : outcome fault N := s ← read n data p; Ok (of_le_bytes s).

(** [GrowAsNeeded] and [Update] of a dispatcher. *)
Definition GrowAsNeeded (index : nat) (row : list T) : list T := if length row <=? index then resize (index + 1) empty row else row.
Definition Update (index : nat) (x : T) (row : list T) : list T := <[index := x]> (GrowAsNeeded index row).

Record unpacking := mkUnpacking { p_ : nat; row_ : list T; unpacked_dim : nat; emitted : list (list T) }.

(** One round of the loop. *)
Definition unpack_step (data : bytes) (u : unpacking) : outcome fault unpacking :=
  _ ← CURRENT_ASSERT (p_ u <? length data);
  index ← read_number 1 data (p_ u);
  let p := p_ u + 1 in
  _ ← CURRENT_ASSERT (p <=? length data);
  if (index =? storage)%N then
    length_ ← read_number 2 data p;
    let p := p + 2 + N.to_nat length_ + 1 in
    _ ← CURRENT_ASSERT (p <=? length data);
    Ok (mkUnpacking p (row_ u) (unpacked_dim u) (emitted u))
  else if (index =? row_done)%N then
    _ ← CURRENT_ASSERT (negb (length (row_ u) =? 0));
    if unpacked_dim u =? 0 then Ok (mkUnpacking p (row_ u) (length (row_ u)) (emitted u ++ [row_ u]))
    else _ ← CURRENT_ASSERT (unpacked_dim u =? length (row_ u)); Ok (mkUnpacking p (row_ u) (unpacked_dim u) (emitted u ++ [row_ u]))
  else
    offset ← read_number 4 data p;
    let p := p + 4 in
    length_ ← read_number 2 data (N.to_nat offset);
    x ← cell data (N.to_nat offset + 2) (N.to_nat length_);
    _ ← CURRENT_ASSERT (p <=? length data);
    Ok (mkUnpacking p (Update (N.to_nat index) x (row_ u)) (unpacked_dim u) (emitted u)).

(** The loop, at most one round for each byte. *)
Fixpoint unpack_loop (fuel : nat) (data : bytes) (u : unpacking) : outcome fault unpacking :=
  if p_ u =? length data then Ok u
  else match fuel with
       | O => Throw AssertionFailed
       | S fuel => u ← unpack_step data u; unpack_loop fuel data u
       end.

(** The rows passed on, and their number. *)
Definition Unpack (data : bytes) : outcome fault (list (list T) * nat) :=
  u ← unpack_loop (length data) data (mkUnpacking 0 [] 0 []);
  Ok (emitted u, length (emitted u)).
End Unpack.

(** The dispatchers that keep strings, or pointers with lengths, and the one that
    keeps pointers to strings that end at the first zero. *)
Definition string_cell (data : bytes) (p n : nat) : outcome fault bytes := read n data p.
Definition pchar_cell (data : bytes) (p n : nat) : outcome fault bytes :=
  if bool_decide (nul ∈ drop p data) then Ok (c_str (drop p data)) else Throw DanglingDereference.

(** [Unpack] for the kinds of callbacks. *)
Definition Unpack_strings (data : bytes) := Unpack [] string_cell data.
Definition Unpack_pchars (data : bytes) := Unpack [] pchar_cell data.
End CompactTsv.

Import CompactTsv.

(** ** Reading *)

Lemma length_le_bytes n x : length (le_bytes n x) = n.
Proof. revert x. induction n as [|n IH]; intros x; cbn; [done|by rewrite IH]. Qed.

Lemma of_le_bytes_le n x : (x < 256 ^ N.of_nat n)%N → of_le_bytes (le_bytes n x) = x.
Proof.
  revert x. induction n as [|n IH]; intros x Hx; [cbn in *; lia|]. cbn [le_bytes of_le_bytes]. rewrite Nat2N.inj_succ, N.pow_succ_r' in Hx.
  rewrite IH by (apply N.Div0.div_lt_upper_bound; lia). rewrite N_ascii_embedding by (apply N.mod_lt; lia). pose proof (N.div_mod x 256). lia.
Qed.

Lemma read_at n pre s post : length s = n → read n (pre ++ s ++ post) (length pre) = Ok s.
Proof.
  intros <-. unfold read. rewrite !length_app. destruct (Nat.leb_spec (length pre + length s) (length pre + (length s + length post))); [|lia].
  by rewrite drop_app_length, take_app_length.
Qed.

Lemma read_more n data tail p s : read n data p = Ok s → read n (data ++ tail) p = Ok s.
Proof.
  unfold read. rewrite length_app. destruct (Nat.leb_spec (p + n) (length data)); [|done]. intros [= <-].
  destruct (Nat.leb_spec (p + n) (length data + length tail)); [|lia]. by rewrite drop_app_le, take_app_le by (rewrite ?length_drop; lia).
Qed.

Lemma read_split n m data p s : read (n + m) data p = Ok s → read n data p = Ok (take n s) ∧ read m data (p + n) = Ok (drop n s).
Proof.
  unfold read. destruct (Nat.leb_spec (p + (n + m)) (length data)); [|done]. intros [= <-].
  destruct (Nat.leb_spec (p + n) (length data)); [|lia]. destruct (Nat.leb_spec (p + n + m) (length data)); [|lia].
  rewrite take_take, Nat.min_l by lia. rewrite skipn_firstn_comm, drop_drop. by replace (n + m - n) with m by lia.
Qed.

Lemma read_number_at n pre x post : (x < 256 ^ N.of_nat n)%N → read_number n (pre ++ le_bytes n x ++ post) (length pre) = Ok x.
Proof. intros Hx. unfold read_number. rewrite read_at by apply length_le_bytes. cbn [mbind outcome_bind]. by rewrite of_le_bytes_le. Qed.

(** A string that is stored at an offset, with its length before it and a zero after it. *)
Definition stored (data : bytes) (offset : N) (s : bytes) : Prop :=
  (0 < offset < 2 ^ 32)%N ∧ (N.of_nat (length s) < 2 ^ 16)%N ∧
  read (2 + (length s + 1)) data (N.to_nat offset) = Ok (le_bytes 2 (N.of_nat (length s)) ++ s ++ [nul]).

Lemma stored_more data tail offset s : stored data offset s → stored (data ++ tail) offset s.
Proof. intros (H1 & H2 & H3). split; [done|]. split; [done|]. by apply read_more. Qed.

Lemma stored_read data offset s : stored data offset s →
  read_number 2 data (N.to_nat offset) = Ok (N.of_nat (length s)) ∧ read (length s + 1) data (N.to_nat offset + 2) = Ok (s ++ [nul]).
Proof.
  intros (_ & Hs & [H1 H2]%read_split). unfold read_number. rewrite H1. cbn [mbind outcome_bind].
  rewrite take_app_length' by by rewrite length_le_bytes. rewrite of_le_bytes_le by (cbn; lia). split; [done|].
  by rewrite drop_app_length' in H2 by by rewrite length_le_bytes.
Qed.

(** ** Unpacking what was packed *)

Section Roundtrip.
Context {T : Type} (empty : T) (cell : bytes → nat → nat → outcome fault T) (view : bytes → T).
Context (cell_ok : ∀ data p s, read (length s + 1) data p = Ok (s ++ [nul]) → cell data p (length s) = Ok (view s)).
Local Abbreviation step data u v := (unpack_step empty cell data u = Ok v).
Local Abbreviation at_ p row dim out := (mkUnpacking p row dim out).

Lemma step_moves data u v : step data u v → p_ u < p_ v ∧ p_ u < length data.
Proof using Type.
  unfold unpack_step, CURRENT_ASSERT. destruct (Nat.ltb_spec (p_ u) (length data)); [|done]. cbn [mbind outcome_bind].
  destruct (read_number 1 data (p_ u)); cbn [mbind outcome_bind]; [|done]. intros Hs.
  repeat (case_match; cbn [mbind outcome_bind] in Hs; try done); inv_ok; try (by cbn; lia);
    repeat match goal with H : (match ?m with Ok _ => _ | Throw _ => _ end) = Ok _ |- _ => destruct m; try done end; inv_ok; cbn; try lia.
Qed.

Lemma loop_ok data u v : rtc (λ a b, step data a b) u v → p_ v = length data →
  ∀ fuel, length data - p_ u ≤ fuel → unpack_loop empty cell fuel data u = Ok v.
Proof using Type.
  intros Hrtc Hv. induction Hrtc as [u|u w v Hs _ IH]; intros fuel Hf.
  - destruct fuel; cbn [unpack_loop]; by rewrite Hv, Nat.eqb_refl.
  - destruct (step_moves data u w Hs) as [Hlt Hin]. destruct fuel as [|fuel]; [lia|]. cbn [unpack_loop].
    destruct (Nat.eqb_spec (p_ u) (length data)); [lia|]. rewrite Hs. cbn [mbind outcome_bind]. apply IH; [done|lia].
Qed.

(** A check that holds. *)
Ltac pass_check :=
  match goal with
  | |- context [?a <? ?b] => rewrite (proj2 (Nat.ltb_lt a b)) by (cbn [length]; lia)
  | |- context [?a <=? ?b] => rewrite (proj2 (Nat.leb_le a b)) by (cbn [length]; lia)
  end; cbn [mbind outcome_bind].

(** Skipping a stored string. *)
Lemma step_storage pre s post row dim out : (N.of_nat (length s) < 2 ^ 16)%N →
  step (pre ++ le_bytes 1 storage ++ le_bytes 2 (N.of_nat (length s)) ++ (s ++ [nul]) ++ post)
    (at_ (length pre) row dim out) (at_ (length pre + (4 + length s)) row dim out).
Proof using Type.
  intros Hs. unfold unpack_step, CURRENT_ASSERT. cbn [p_ row_ unpacked_dim emitted]. rewrite read_number_at by done. rewrite !length_app, !length_le_bytes.
  pass_check.
  pass_check.
  change (storage =? storage)%N with true. cbn match. rewrite (app_assoc pre).
  replace (length pre + 1) with (length (pre ++ le_bytes 1 storage)) by by rewrite length_app, length_le_bytes.
  rewrite read_number_at by (cbn; lia). cbn [mbind outcome_bind]. rewrite Nat2N.id, length_app, length_le_bytes. cbn [length].
  pass_check.
  do 2 f_equal. lia.
Qed.

(** A column of the next row. *)
Lemma step_column pre i offset s post row dim out : i < 254 →
  stored (pre ++ le_bytes 1 (N.of_nat i) ++ le_bytes 4 offset ++ post) offset s →
  step (pre ++ le_bytes 1 (N.of_nat i) ++ le_bytes 4 offset ++ post)
    (at_ (length pre) row dim out) (at_ (length pre + 5) (Update empty i (view s) row) dim out).
Proof using cell_ok.
  intros Hi Hst. destruct (stored_read _ _ _ Hst) as [Hlen Hread]. destruct Hst as (Hoff & _ & _). unfold unpack_step, CURRENT_ASSERT. cbn [p_ row_ unpacked_dim emitted].
  rewrite read_number_at by (cbn; lia). rewrite !length_app, !length_le_bytes.
  pass_check.
  pass_check.
  destruct (N.eqb_spec (N.of_nat i) storage) as [E|_]; [unfold storage in E; lia|]. destruct (N.eqb_spec (N.of_nat i) row_done) as [E|_]; [unfold row_done in E; lia|].
  rewrite (app_assoc pre) in *. replace (length pre + 1) with (length (pre ++ le_bytes 1 (N.of_nat i))) by by rewrite length_app, length_le_bytes.
  rewrite read_number_at by (cbn; lia). cbn [mbind outcome_bind]. rewrite Hlen. cbn [mbind outcome_bind]. rewrite !Nat2N.id, cell_ok by done. cbn [mbind outcome_bind].
  rewrite length_app, length_le_bytes. pass_check.
  do 2 f_equal. lia.
Qed.

(** The end of a row. *)
Lemma step_row_done pre post row dim out : length row ≠ 0 → dim = 0 ∨ dim = length row →
  step (pre ++ le_bytes 1 row_done ++ post) (at_ (length pre) row dim out) (at_ (length pre + 1) row (length row) (out ++ [row])).
Proof using Type.
  intros Hr Hd. unfold unpack_step, CURRENT_ASSERT. cbn [p_ row_ unpacked_dim emitted]. rewrite read_number_at by done. rewrite !length_app, !length_le_bytes.
  pass_check.
  pass_check.
  change (row_done =? storage)%N with false. change (row_done =? row_done)%N with true. cbn match.
  destruct (Nat.eqb_spec (length row) 0); [lia|]. cbn [negb mbind outcome_bind]. destruct (Nat.eqb_spec dim 0) as [->|Hz]; [done|].
  destruct Hd as [?| ->]; [done|]. by rewrite Nat.eqb_refl.
Qed.

Definition view_row (row : list bytes) : list T := fmap (M := list) view row.

(** In any longer data, what was packed unpacks to the rows, with [row] in the
    dispatcher. *)
Record packing (row : list T) (dim : nat) (t : CompactTSV) (rows : list (list bytes)) : Prop := {
  packing_dim : length (current_ t) = dim_ t ∧ dim_ t ≤ 254;
  packing_open : done_ t = false;
  packing_offsets : ∀ s offset, offsets_ t !! s = Some offset → stored (data_ t) offset s;
  packing_run : ∀ tail, rtc (λ a b, step (data_ t ++ tail) a b) (at_ 0 [] 0 [])
    (at_ (length (data_ t)) row dim (view_row <$> rows));
}.

(** A string gets an offset. *)
Lemma GetOffsetOf_ok row dim t rows s : packing row dim t rows → (N.of_nat (length s) < 2 ^ 16)%N → (N.of_nat (length (data_ t) + (length s + 4)) < 2 ^ 32)%N →
  ∃ offset data offsets, GetOffsetOf s t = Ok (offset, mkTSV (done_ t) (dim_ t) (first_ t) (current_ t) data offsets) ∧
    packing row dim (mkTSV (done_ t) (dim_ t) (first_ t) (current_ t) data offsets) rows ∧ stored data offset s ∧ length data ≤ length (data_ t) + (length s + 4).
Proof using Type.
  intros [Hdim Hopen Hoff Hrun] Hs Hsmall. unfold GetOffsetOf. destruct (offsets_ t !! s) as [offset|] eqn:Hlook; cbn [default from_option id].
  - pose proof (Hoff s offset Hlook) as Hst. destruct (N.eqb_spec offset 0) as [->|_]; [destruct Hst; lia|].
    exists offset, (data_ t), (offsets_ t). destruct t. split_and!; [done|done|done|cbn; lia].
  - change (0 =? 0)%N with true. cbn match. unfold StoreString, AssertStillSmall, CURRENT_ASSERT. cbn [append_data data_].
    rewrite (N.mod_small (N.of_nat (length s))) by done. rewrite N.eqb_refl. cbn [mbind outcome_bind]. rewrite Nat2N.id.
    rewrite (take_ge (s ++ [nul])) by (rewrite length_app; cbn; lia). rewrite !length_app, !length_le_bytes.
    rewrite !N.mod_small by (cbn [length]; lia). rewrite N.eqb_refl. cbn [mbind outcome_bind done_ dim_ first_ current_ data_ offsets_ append_data].
    eexists _, _, _. split; [done|].
    assert (stored (((data_ t ++ le_bytes 1 storage) ++ le_bytes 2 (N.of_nat (length s))) ++ s ++ [nul]) (N.of_nat (length (data_ t) + 1)) s) as Hst.
    { split; [lia|]. split; [done|]. rewrite Nat2N.id. replace (length (data_ t) + 1) with (length (data_ t ++ le_bytes 1 storage)) by by rewrite length_app, length_le_bytes.
      rewrite <- (app_assoc (data_ t ++ le_bytes 1 storage)). rewrite <- (app_nil_r (le_bytes 2 (N.of_nat (length s)) ++ s ++ [nul])) at 1.
      apply read_at. by rewrite !length_app, length_le_bytes. }
    split_and!; [|done|rewrite !length_app, !length_le_bytes; cbn; lia]. split; cbn [done_ dim_ first_ current_ data_ offsets_]; [done|done|..].
    + intros s' offset'. rewrite lookup_insert_Some. intros [[<- <-]|[_ Hs']]; [done|]. rewrite <- !app_assoc. by apply stored_more, Hoff.
    + intros tail. rewrite <- !app_assoc. eapply rtc_r; [apply Hrun|]. rewrite !length_app, !length_le_bytes. cbn [length].
      replace (length (data_ t) + (1 + (2 + (length s + 1)))) with (length (data_ t) + (4 + length s)) by lia.
      rewrite (app_assoc s). by apply step_storage.
Qed.

(** The row in the dispatcher after the first [i] columns of a row: in the first row
    it grows. *)
Definition dispatcher_row (i : nat) (t : CompactTSV) : list T := view_row (if first_ t then take i (current_ t) else current_ t).
Definition dispatcher_dim (t : CompactTSV) : nat := if first_ t then 0 else dim_ t.

Lemma Update_row i t s : i < length (current_ t) →
  Update empty i (view s) (dispatcher_row i t) = view_row (if first_ t then take (S i) (<[i := s]> (current_ t)) else <[i := s]> (current_ t)).
Proof using Type.
  intros Hi. unfold Update, GrowAsNeeded, dispatcher_row, view_row. rewrite length_fmap. destruct (first_ t).
  - rewrite length_take, Nat.min_l by lia. rewrite Nat.leb_refl. rewrite resize_spec, length_fmap, length_take, Nat.min_l by lia.
    rewrite take_ge by (rewrite length_fmap, length_take; lia). replace (i + 1 - i) with 1 by lia. cbn [replicate].
    rewrite insert_app_r_alt by (rewrite length_fmap, length_take; lia). rewrite length_fmap, length_take, Nat.min_l, Nat.sub_diag by lia. cbn.
    rewrite (take_S_r _ _ s) by (apply list_lookup_insert_eq; lia). rewrite take_insert_ge by lia. by rewrite fmap_app.
  - destruct (Nat.leb_spec (length (current_ t)) i); [lia|]. by rewrite list_fmap_insert.
Qed.

Lemma pack_column_ok i t rows s : packing (dispatcher_row i t) (dispatcher_dim t) t rows → i < dim_ t →
  (N.of_nat (length s) < 2 ^ 16)%N → (N.of_nat (length (data_ t) + (length s + 9)) < 2 ^ 32)%N →
  ∃ data offsets, let t' := mkTSV false (dim_ t) (first_ t) (<[i := s]> (current_ t)) data offsets in
    pack_column i s t = Ok t' ∧ packing (dispatcher_row (S i) t') (dispatcher_dim t') t' rows ∧ length data ≤ length (data_ t) + (length s + 9).
Proof using cell_ok.
  intros Ht Hi Hs Hsmall. pose proof Ht as [[Hl Hd] Hopen Hoff Hrun]. unfold pack_column. destruct (lookup_lt_is_Some_2 (current_ t) i) as [c Hc]; [lia|]. rewrite Hc.
  destruct (negb (bool_decide (s = c)) || first_ t) eqn:Hw.
  - destruct (GetOffsetOf_ok (dispatcher_row i t) (dispatcher_dim t) (mkTSV (done_ t) (dim_ t) (first_ t) (<[i := s]> (current_ t)) (data_ t) (offsets_ t)) rows s)
      as (offset & data & offsets & -> & [_ _ Hoff' Hrun'] & Hst & Hlen); [|done|cbn [data_]; lia|].
    { split; cbn [done_ dim_ first_ current_ data_ offsets_]; [by rewrite length_insert|done..]. }
    unfold append_data. cbn [mbind outcome_bind done_ dim_ first_ current_ data_ offsets_] in *. rewrite Hopen. eexists _, _. split; [done|].
    split; [|rewrite !length_app, !length_le_bytes; lia]. split; cbn [done_ dim_ first_ current_ data_ offsets_]; [by rewrite length_insert|done|..].
    + intros s' offset' Hs'. rewrite <- app_assoc. by apply stored_more, Hoff'.
    + intros tail. rewrite <- !app_assoc. eapply rtc_r; [apply Hrun'|]. rewrite !length_app, !length_le_bytes.
      unfold dispatcher_row, dispatcher_dim at 2. cbn [first_ current_ dim_]. rewrite <- Update_row by lia.
      apply step_column; [lia|]. by apply stored_more.
  - apply orb_false_iff in Hw as [Hw Hf]. apply negb_false_iff, bool_decide_eq_true in Hw as ->. exists (data_ t), (offsets_ t). rewrite list_insert_id by done.
    rewrite <- Hopen. split; [by destruct t|]. split; [|lia]. destruct t. unfold dispatcher_row, dispatcher_dim in *. cbn in *. by rewrite Hf in *.
Qed.

(** The bytes that columns may need. *)
Fixpoint cells_size (row : list bytes) : nat := match row with [] => 0 | s :: row => length s + 9 + cells_size row end.

Lemma pack_columns_ok (row : list bytes) i t rows : packing (dispatcher_row i t) (dispatcher_dim t) t rows → i + length row = dim_ t →
  Forall (λ s : bytes, (N.of_nat (length s) < 2 ^ 16)%N) row → (N.of_nat (length (data_ t) + cells_size row) < 2 ^ 32)%N →
  ∃ data offsets, let t' := mkTSV false (dim_ t) (first_ t) (take i (current_ t) ++ row) data offsets in
    pack_columns i row t = Ok t' ∧ packing (dispatcher_row (i + length row) t') (dispatcher_dim t') t' rows ∧
    length data ≤ length (data_ t) + cells_size row.
Proof using cell_ok.
  revert i t. induction row as [|s row IH]; intros i t Ht Hdim Hrow Hsmall.
  - exists (data_ t), (offsets_ t). cbn in *. pose proof Ht as [[Hl _] Hopen _ _]. rewrite take_ge, app_nil_r, <- Hopen by lia. rewrite Nat.add_0_r. destruct t. split_and!; [done|done|cbn; lia].
  - apply Forall_cons in Hrow as [Hs Hrow]. cbn [cells_size length] in *. pose proof Ht as [[Hl _] _ _ _].
    destruct (pack_column_ok i t rows s Ht) as (data & offsets & Hc & Ht' & Hlen); [lia|done|lia|]. cbn [pack_columns]. rewrite Hc. cbn [mbind outcome_bind].
    destruct (IH (S i) _ Ht') as (data' & offsets' & Hcs & Ht'' & Hlen'); cbn [dim_ data_] in *; [lia|done|lia|].
    exists data', offsets'. cbn [dim_ first_ current_] in *. rewrite (take_S_r _ _ s) in * by (apply list_lookup_insert_eq; lia).
    rewrite take_insert_ge in * by lia. rewrite <- app_assoc in *. cbn [app] in *. replace (i + S (length row)) with (S i + length row) by lia. split_and!; [done|done|lia].
Qed.

(** The bytes that a row may need. *)
Definition row_size (row : list bytes) : nat := cells_size row + 1.

Definition row_ok (dim : nat) (row : list bytes) : Prop := length row = dim ∧ Forall (λ s : bytes, (N.of_nat (length s) < 2 ^ 16)%N) row.

Lemma pack_row_ok dim row t rows : packing (dispatcher_row 0 t) (dispatcher_dim t) t rows → dim ≠ 0 → dim ≤ 254 → dim_ t = dim ∨ dim_ t = 0 ∧ first_ t = true → row_ok dim row →
  (N.of_nat (length (data_ t) + row_size row) < 2 ^ 32)%N →
  ∃ data offsets, let t' := mkTSV false dim false row data offsets in
    pack_row row t = Ok t' ∧ packing (dispatcher_row 0 t') (dispatcher_dim t') t' (rows ++ [row]) ∧ length data ≤ length (data_ t) + row_size row.
Proof using cell_ok.
  intros Ht Hd0 Hd Hdim [Hlen Hrow] Hsmall. pose proof Ht as [[Hl _] Hopen Hoff Hrun]. unfold pack_row, CURRENT_ASSERT. rewrite Hopen. cbn [negb mbind outcome_bind].
  destruct (Nat.eqb_spec (length row) 0); [lia|]. cbn [negb mbind outcome_bind].
  assert (∃ cur, set_dim row t = Ok (mkTSV false dim (first_ t) cur (data_ t) (offsets_ t)) ∧ length cur = dim ∧ (first_ t = false → cur = current_ t)) as (cur & -> & Hcur & Hsame).
  { unfold set_dim, CURRENT_ASSERT. destruct (Nat.eqb_spec (dim_ t) 0) as [Hz|Hz].
    - destruct Hdim as [?|[_ Hf]]; [lia|]. rewrite (proj2 (Nat.leb_le _ _)) by lia. cbn [mbind outcome_bind]. rewrite Hlen, Hopen, Hf. eexists. split; [done|]. by rewrite length_resize.
    - destruct Hdim as [Hdim|[? _]]; [|done]. rewrite Hlen, Hdim, Nat.eqb_refl. cbn [mbind outcome_bind]. exists (current_ t). rewrite <- Hopen, <- Hdim. destruct t. by split_and!. }
  cbn [mbind outcome_bind]. unfold row_size in *.
  destruct (pack_columns_ok row 0 (mkTSV false dim (first_ t) cur (data_ t) (offsets_ t)) rows) as (data & offsets & -> & [_ _ Hoff' Hrun'] & Hlen'); cbn [dim_ data_]; [|lia|done|lia|].
  { unfold dispatcher_row, dispatcher_dim in *. split; cbn [done_ dim_ first_ current_ data_ offsets_]; [done|done|done|]. destruct (first_ t); [done|]. rewrite Hsame by done.
    destruct Hdim as [<-|[_ ?]]; done. }
  unfold append_data, AssertStillSmall, CURRENT_ASSERT. cbn [mbind outcome_bind done_ dim_ first_ current_ data_ offsets_] in *. change (take 0 cur ++ row) with row in *.
  rewrite length_app, length_le_bytes, N.mod_small, N.eqb_refl by lia. cbn [mbind outcome_bind]. eexists _, _. split; [done|].
  split; [|rewrite length_app, length_le_bytes; lia]. unfold dispatcher_row, dispatcher_dim in *. cbn [done_ dim_ first_ current_ data_ offsets_] in *.
  split; cbn [done_ dim_ first_ current_ data_ offsets_]; [by split|done|..].
  - intros s offset Hs. by apply stored_more, Hoff'.
  - intros tail. rewrite <- app_assoc. eapply rtc_r; [apply Hrun'|]. rewrite length_app, length_le_bytes, fmap_app. cbn [fmap list_fmap].
    replace (if first_ t then take (0 + length row) row else row) with row by (destruct (first_ t); [by rewrite take_ge by lia|done]).
    replace dim with (length (view_row row)) at 2 by (unfold view_row; by rewrite length_fmap). apply step_row_done; [unfold view_row; rewrite length_fmap; lia|].
    destruct (first_ t); [by left|right]. unfold view_row. by rewrite length_fmap.
Qed.

Lemma pack_rows_ok dim rows t packed : packing (dispatcher_row 0 t) (dispatcher_dim t) t packed → dim ≠ 0 → dim ≤ 254 → dim_ t = dim ∨ dim_ t = 0 ∧ first_ t = true →
  Forall (row_ok dim) rows → (N.of_nat (length (data_ t) + sum_list_with row_size rows) < 2 ^ 32)%N →
  ∃ t', pack_rows rows t = Ok t' ∧ packing (dispatcher_row 0 t') (dispatcher_dim t') t' (packed ++ rows).
Proof using cell_ok.
  intros Ht Hd0 Hd Hdim Hrows. revert t packed Ht Hdim. induction Hrows as [|row rows Hrow _ IH]; intros t packed Ht Hdim Hsmall.
  - exists t. by rewrite app_nil_r.
  - cbn [sum_list_with] in Hsmall. destruct (pack_row_ok dim row t packed) as (data & offsets & Hr & Ht' & Hlen); [done..|lia|].
    unfold pack_rows. cbn [foldl mbind outcome_bind]. rewrite Hr. fold (pack_rows rows (mkTSV false dim false row data offsets)).
    replace (packed ++ row :: rows) with ((packed ++ [row]) ++ rows) by by rewrite <- app_assoc. apply IH; [done|by left|cbn [data_]; lia].
Qed.

(** What rows are packed to unpacks to them. *)
Lemma unpack_pack dim dim0 rows : dim ≠ 0 → dim ≤ 254 → dim0 = dim ∨ dim0 = 0 → Forall (row_ok dim) rows → (N.of_nat (sum_list_with row_size rows) < 2 ^ 32)%N →
  ∃ packed, (t ← CompactTSV_new dim0; t ← pack_rows rows t; t ← Finalize t; GetPackedString t) = Ok packed ∧
    Unpack empty cell packed = Ok (view_row <$> rows, length rows).
Proof using cell_ok.
  intros Hd0 Hd Hdim Hrows Hsmall. unfold CompactTSV_new, CURRENT_ASSERT. rewrite (proj2 (Nat.leb_le _ _)) by lia. cbn [mbind outcome_bind].
  destruct (pack_rows_ok dim rows (mkTSV false dim0 true (replicate dim0 []) [] ∅) []) as (t & -> & [_ Hopen _ Hrun]); [|done|done| |done|done|].
  { split; cbn [done_ dim_ first_ current_ data_ offsets_]; [rewrite length_replicate; lia|done|by intros ? ? ?%lookup_empty_Some|done]. }
  { cbn. destruct Hdim; auto. }
  cbn [mbind outcome_bind]. unfold Finalize, GetPackedString, CURRENT_ASSERT. rewrite Hopen. cbn [negb mbind outcome_bind done_ data_]. eexists. split; [done|].
  unfold Unpack. specialize (Hrun []). rewrite app_nil_r in Hrun. rewrite (loop_ok _ _ _ Hrun); [|done|cbn; lia]. cbn. by rewrite length_fmap.
Qed.
End Roundtrip.

(** The dispatchers. *)
Lemma string_cell_ok data p s : read (length s + 1) data p = Ok (s ++ [nul]) → string_cell data p (length s) = Ok s.
Proof. intros [H _]%read_split. unfold string_cell. rewrite H. by rewrite take_app_length. Qed.

Lemma pchar_cell_ok data p s : read (length s + 1) data p = Ok (s ++ [nul]) → pchar_cell data p (length s) = Ok (c_str s).
Proof.
  unfold read, pchar_cell. destruct (Nat.leb_spec (p + (length s + 1)) (length data)); [|done]. intros [= Hd].
  assert (drop p data = s ++ nul :: drop (length s + 1) (drop p data)) as ->.
  { rewrite <- (take_drop (length s + 1) (drop p data)) at 1. rewrite Hd. by rewrite <- app_assoc. }
  rewrite bool_decide_true by set_solver. f_equal. generalize (drop (length s + 1) (drop p data)). intros rest. clear.
  induction s as [|c s IH]; [done|]. cbn. by rewrite IH.
Qed.
