(* ===== verification/OwnedBorrowed.v ===== *)
(** * Owned and borrowed objects: bricks/sync/owned_borrowed.h

    An [Owned<T>] object keeps a [UniqueInstance<T>] on the heap; [Borrowed<T>],
    [BorrowedWithCallback<T>] and [BorrowedOfGuaranteedLifetime<T>] objects point
    to it and are registered with it under a key.  The destructor of the instance
    marks it, calls the callbacks of the borrowers, and waits until no borrower
    is registered.

    A [world] has the heap of instances and all the C++ objects that exist.
    [exec] is one step of some thread: the body of one critical section of the
    instance's mutex, or what a thread does between two of them.  The steps of
    any number of threads are interleaved by [ob_step].  A wait is a step that is
    [Blocked] while its predicate is false. *)

From stdpp Require Import base gmap list relations.
From Stdlib Require Import Lia.
From S2P Require Import Prelude.

Module OwnedBorrowed.

(** Where instances are, and the names of the C++ objects that own or borrow. *)
Definition loc := nat.
Definition object := nat.

Section Definitions.
Context {T F : Type}.

(** What is passed as [destruction_callback]: [[]() {}], the function that
    reports a broken invariant and exits, or a function of the user's. *)
Inductive callback :=
| NoCallback
| BorrowedOfGuaranteedLifetimeInvariantErrorCallback
| UserCallback (f : F).

Record UniqueInstance := mkInstance {
  destructing_ : bool;
  instance_ : T;
  borrowers_ : gmap nat callback;
  total_borrowers_spawned_throughout_lifetime_ : nat;
}.

Definition make_UniqueInstance (v : T) : UniqueInstance := mkInstance false v ∅ 0.

Definition RegisterBorrowerFromLockedSection (destruction_callback : callback) (x : UniqueInstance)
    : nat * UniqueInstance :=
  let key := S (total_borrowers_spawned_throughout_lifetime_ x) in
  (key, mkInstance (destructing_ x) (instance_ x) (<[key := destruction_callback]> (borrowers_ x)) key).

Definition UpdateBorrowersCallbackFromLockedSection (key : nat) (destruction_callback : callback) (x : UniqueInstance)
    : UniqueInstance :=
  mkInstance (destructing_ x) (instance_ x) (<[key := destruction_callback]> (borrowers_ x))
    (total_borrowers_spawned_throughout_lifetime_ x).

(** The locked part; the result says whether to notify the condition variable
    afterwards. *)
Definition UnRegisterBorrower (borrower_index : nat) (x : UniqueInstance) : outcome fault (bool * UniqueInstance) :=
  _ ← CURRENT_ASSERT (bool_decide (is_Some (borrowers_ x !! borrower_index)));
  let rest := delete borrower_index (borrowers_ x) in
  Ok (bool_decide (rest = ∅),
      mkInstance (destructing_ x) (instance_ x) rest (total_borrowers_spawned_throughout_lifetime_ x)).

(** The base class of all the objects; the key is zero if there is none. *)
Record WeakBorrowed := mkWeak {
  p_actual_instance_ : option loc;
  key_ : nat;
}.

(** How far the destructor of an instance has got. *)
Inductive destructor_stage :=
| Marked
| Calling (callbacks_to_call : list (nat * callback))
| Waiting.

Record world := mkWorld {
  heap : gmap loc UniqueInstance;
  next_loc : loc;
  weak : gmap object WeakBorrowed;              (* the base part of every object *)
  movable_instance_ : gmap object (option loc); (* the [unique_ptr] of the [Owned] ones *)
  destructors : gmap loc destructor_stage;      (* the destructors that are running *)
  to_notify : list loc;                         (* threads about to call [notify_one] *)
  called : list (loc * nat * callback);         (* the callbacks that were called *)
  exited : bool;
}.

Definition init : world := mkWorld ∅ 0 ∅ ∅ ∅ [] [] false.

Definition set_heap (h : gmap loc UniqueInstance) (s : world) : world :=
  mkWorld h (next_loc s) (weak s) (movable_instance_ s) (destructors s) (to_notify s) (called s) (exited s).
Definition set_weak (w : gmap object WeakBorrowed) (s : world) : world :=
  mkWorld (heap s) (next_loc s) w (movable_instance_ s) (destructors s) (to_notify s) (called s) (exited s).
Definition set_movable (m : gmap object (option loc)) (s : world) : world :=
  mkWorld (heap s) (next_loc s) (weak s) m (destructors s) (to_notify s) (called s) (exited s).
Definition set_destructors (d : gmap loc destructor_stage) (s : world) : world :=
  mkWorld (heap s) (next_loc s) (weak s) (movable_instance_ s) d (to_notify s) (called s) (exited s).
Definition set_notify (n : list loc) (s : world) : world :=
  mkWorld (heap s) (next_loc s) (weak s) (movable_instance_ s) (destructors s) n (called s) (exited s).
Definition set_called (c : list (loc * nat * callback)) (e : bool) (s : world) : world :=
  mkWorld (heap s) (next_loc s) (weak s) (movable_instance_ s) (destructors s) (to_notify s) c e.

(** A step either happens, is not possible now, or is undefined behaviour or a
    failed assertion. *)
Inductive ob_error :=
| Blocked
| Undefined (f : fault).

Definition the {A} (o : option A) : outcome ob_error A :=
  match o with Some a => Ok a | None => Throw (Undefined DanglingDereference) end.
Definition guard (b : bool) : outcome ob_error () := if b then Ok () else Throw Blocked.
Definition lift {A} (o : outcome fault A) : outcome ob_error A :=
  match o with Ok a => Ok a | Throw f => Throw (Undefined f) end.

(** [*p_actual_instance_] for an object. *)
Definition deref (o : object) (s : world) : outcome ob_error (WeakBorrowed * loc * UniqueInstance) :=
  w ← the (weak s !! o);
  l ← the (p_actual_instance_ w);
  x ← the (heap s !! l);
  Ok (w, l, x).

(** A fresh name for a new C++ object. *)
Definition fresh_object (o : object) (s : world) : outcome ob_error () :=
  guard (bool_decide (weak s !! o = None)).

Fixpoint remove_one (l : loc) (ls : list loc) : list loc :=
  match ls with
  | [] => []
  | l' :: ls => if bool_decide (l' = l) then ls else l' :: remove_one l ls
  end.

(** An object that borrows, not an [Owned] one. *)
Definition is_borrower (o : object) (s : world) : outcome ob_error () :=
  guard (bool_decide (movable_instance_ s !! o = None)).

(** ** Constructors and assignments *)

(** [MakeOwned<T>(v)]: the instance first, then the base that points to it. *)
Definition MakeOwned (o : object) (v : T) (s : world) : outcome ob_error world :=
  _ ← fresh_object o s;
  let l := next_loc s in
  Ok (mkWorld (<[l := make_UniqueInstance v]> (heap s)) (S l) (<[o := mkWeak (Some l) 0]> (weak s))
        (<[o := Some l]> (movable_instance_ s)) (destructors s) (to_notify s) (called s) (exited s)).

(** [WeakBorrowed(ConstructBorrowed, rhs, destruction_callback)]. *)
Definition ConstructBorrowed (o rhs : object) (cb : callback) (s : world) : outcome ob_error world :=
  _ ← fresh_object o s;
  '(_, l, x) ← deref rhs s;
  let '(key, x') := RegisterBorrowerFromLockedSection cb x in
  Ok (set_weak (<[o := mkWeak (Some l) key]> (weak s)) (set_heap (<[l := x']> (heap s)) s)).

(** [MoveFrom], whatever the object held before. *)
Definition MoveFrom (o rhs : object) (cb : callback) (s : world) : outcome ob_error world :=
  '(w, l, x) ← deref rhs s;
  let x' := UpdateBorrowersCallbackFromLockedSection (key_ w) cb x in
  Ok (set_weak (<[rhs := mkWeak None 0]> (<[o := mkWeak (Some l) (key_ w)]> (weak s)))
        (set_heap (<[l := x']> (heap s)) s)).

(** [WeakBorrowed(ConstructBorrowedObjectViaMoveConstructor, rhs, callback)]. *)
Definition ConstructBorrowedByMove (o rhs : object) (cb : callback) (s : world) : outcome ob_error world :=
  _ ← fresh_object o s;
  MoveFrom o rhs cb s.

(** [Borrowed& operator=(Borrowed&& rhs)]. *)
Definition AssignBorrowed (o rhs : object) (cb : callback) (s : world) : outcome ob_error world :=
  _ ← the (weak s !! o);
  _ ← is_borrower o s;
  _ ← is_borrower rhs s;
  MoveFrom o rhs cb s.

(** [InternalUnRegister], the locked part and what follows it but the call of
    [notify_one]. *)
Definition InternalUnRegister (o : object) (s : world) : outcome ob_error world :=
  w ← the (weak s !! o);
  _ ← is_borrower o s;
  s ← (if (key_ w =? 0)%nat then Ok s
       else
         l ← lift (assert_found (p_actual_instance_ w));
         x ← the (heap s !! l);
         '(notify, x') ← lift (UnRegisterBorrower (key_ w) x);
         let s := set_heap (<[l := x']> (heap s)) s in
         Ok (if notify : bool then set_notify (l :: to_notify s) s else s));
  Ok (set_weak (<[o := mkWeak None 0]> (weak s)) s).

(** [condition_variable_.notify_one()], the last thing [UnRegisterBorrower] does. *)
Definition NotifyOne (l : loc) (s : world) : outcome ob_error world :=
  _ ← guard (bool_decide (l ∈ to_notify s));
  _ ← the (heap s !! l);
  Ok (set_notify (remove_one l (to_notify s)) s).

(** [Owned(Owned&& rhs)]. *)
Definition MoveOwned (o rhs : object) (s : world) : outcome ob_error world :=
  _ ← fresh_object o s;
  m ← the (movable_instance_ s !! rhs);
  l ← the m;
  w ← the (weak s !! rhs);
  Ok (set_movable (<[o := Some l]> (<[rhs := None]> (movable_instance_ s)))
       (set_weak (<[rhs := mkWeak None (key_ w)]> (<[o := mkWeak (Some l) 0]> (weak s))) s)).

(** ** Destructors *)

(** The destructor of the instance begins. *)
Definition StartDestructor (l : loc) (s : world) : outcome ob_error world :=
  x ← the (heap s !! l);
  Ok (set_destructors (<[l := Marked]> (destructors s))
       (set_heap (<[l := mkInstance true (instance_ x) (borrowers_ x) (total_borrowers_spawned_throughout_lifetime_ x)]>
          (heap s)) s)).

(** The scope of an object ends; it was not registered, or was unregistered
    before (assigning [nullptr] does the same). *)
Definition DestroyObject (o : object) (s : world) : outcome ob_error world :=
  w ← the (weak s !! o);
  _ ← guard (key_ w =? 0)%nat;
  let m := movable_instance_ s !! o in
  let s := set_movable (delete o (movable_instance_ s)) (set_weak (delete o (weak s)) s) in
  match m with
  | Some (Some l) => StartDestructor l s
  | _ => Ok s
  end.

Definition set_stage (l : loc) (st : destructor_stage) (s : world) : world :=
  set_destructors (<[l := st]> (destructors s)) s.

(** One more step of [~UniqueInstance]. *)
Definition RunDestructor (l : loc) (s : world) : outcome ob_error world :=
  stage ← match destructors s !! l with Some st => Ok st | None => Throw Blocked end;
  x ← the (heap s !! l);
  match stage with
  | Marked => Ok (set_stage l (Calling (map_to_list (borrowers_ x))) s)
  | Calling [] => Ok (set_stage l Waiting s)
  | Calling ((key, cb) :: rest) =>
      let is_exit := match cb with BorrowedOfGuaranteedLifetimeInvariantErrorCallback => true | _ => false end in
      Ok (set_stage l (Calling rest) (set_called ((l, key, cb) :: called s) is_exit s))
  | Waiting =>
      _ ← guard (bool_decide (borrowers_ x = ∅));
      Ok (set_destructors (delete l (destructors s)) (set_heap (delete l (heap s)) s))
  end.

(** ** Access *)

Definition IsValid (o : object) (s : world) : outcome ob_error bool :=
  w ← the (weak s !! o);
  match p_actual_instance_ w with
  | None => Ok false
  | Some l => x ← the (heap s !! l); Ok (negb (destructing_ x))
  end.

(** [operator*] and [operator->]. *)
Definition Dereference (o : object) (s : world) : outcome ob_error T :=
  '(_, _, x) ← deref o s; Ok (instance_ x).

(** [ExclusiveUse]: the function runs in the critical section. *)
Definition ExclusiveUse (o : object) (f : T → T) (s : world) : outcome ob_error world :=
  '(_, l, x) ← deref o s;
  Ok (set_heap (<[l := mkInstance (destructing_ x) (f (instance_ x)) (borrowers_ x)
                         (total_borrowers_spawned_throughout_lifetime_ x)]> (heap s)) s).

Definition NumberOfActiveBorrowers (o : object) (s : world) : outcome ob_error nat :=
  '(_, _, x) ← deref o s; Ok (size (borrowers_ x)).

Definition TotalBorrowersSpawnedThroughoutLifetime (o : object) (s : world) : outcome ob_error nat :=
  '(_, _, x) ← deref o s; Ok (total_borrowers_spawned_throughout_lifetime_ x).

(** ** Steps *)

Inductive op :=
| OpMakeOwned (o : object) (v : T)
| OpBorrow (o rhs : object) (cb : callback)
| OpBorrowByMove (o rhs : object) (cb : callback)
| OpAssign (o rhs : object) (cb : callback)
| OpRelease (o : object)
| OpNotify (l : loc)
| OpMoveOwned (o rhs : object)
| OpDestroy (o : object)
| OpRunDestructor (l : loc)
| OpUse (o : object) (f : T → T).

Definition exec (a : op) (s : world) : outcome ob_error world :=
  _ ← guard (negb (exited s));
  match a with
  | OpMakeOwned o v => MakeOwned o v s
  | OpBorrow o rhs cb => ConstructBorrowed o rhs cb s
  | OpBorrowByMove o rhs cb => ConstructBorrowedByMove o rhs cb s
  | OpAssign o rhs cb => AssignBorrowed o rhs cb s
  | OpRelease o => InternalUnRegister o s
  | OpNotify l => NotifyOne l s
  | OpMoveOwned o rhs => MoveOwned o rhs s
  | OpDestroy o => DestroyObject o s
  | OpRunDestructor l => RunDestructor l s
  | OpUse o f => ExclusiveUse o f s
  end.

Definition ob_step (s s' : world) : Prop := ∃ a, exec a s = Ok s'.

Fixpoint execs (l : list op) (s : world) : outcome ob_error world :=
  match l with
  | [] => Ok s
  | a :: l => s ← exec a s; execs l s
  end.
End Definitions.

(** Take apart a step that happened. *)
Ltac open_ok :=
  repeat match goal with
  | H : mbind _ ?m = Ok _ |- _ => destruct m as [?|?] eqn:?; simpl in H; [|done]
  | H : guard ?b = Ok _ |- _ => unfold guard in H; destruct b eqn:?; [clear H|done]
  | H : the ?o = Ok _ |- _ => destruct o eqn:?; simpl in H; [injection H as H; subst|done]
  | H : lift ?o = Ok _ |- _ => destruct o eqn:?; simpl in H; [injection H as H; subst|done]
  | H : assert_found ?o = Ok _ |- _ => destruct o eqn:?; simpl in H; [injection H as H; subst|done]
  | H : CURRENT_ASSERT ?b = Ok _ |- _ => destruct b eqn:?; simpl in H; [clear H|done]
  | H : bool_decide _ = true |- _ => apply bool_decide_eq_true in H
  | H : bool_decide _ = false |- _ => apply bool_decide_eq_false in H
  | H : Ok _ = Ok _ |- _ => injection H as H; subst
  | x : prod _ _ |- _ => destruct x
  | H : context [let '(_, _) := ?p in _] |- _ => destruct p eqn:?
  end; simpl in *.
Section Proofs.
Context {T F : Type}.
Local Abbreviation W := (world (T := T) (F := F)).
Implicit Type s : W.

(** ** The invariant *)

Record ob_inv (s : W) : Prop := {
  inv_next : ∀ l x, heap s !! l = Some x → l < next_loc s;
  inv_borrower : ∀ o w l, weak s !! o = Some w → movable_instance_ s !! o = None → p_actual_instance_ w = Some l →
    ∃ x, heap s !! l = Some x ∧ is_Some (borrowers_ x !! key_ w);
  inv_null : ∀ o w, weak s !! o = Some w → p_actual_instance_ w = None → key_ w = 0;
  inv_keys : ∀ l x k cb, heap s !! l = Some x → borrowers_ x !! k = Some cb →
    k ≤ total_borrowers_spawned_throughout_lifetime_ x;
  inv_distinct : ∀ o1 o2 w1 w2, weak s !! o1 = Some w1 → weak s !! o2 = Some w2 →
    p_actual_instance_ w1 = p_actual_instance_ w2 → key_ w1 = key_ w2 → key_ w1 ≠ 0 → o1 = o2;
  inv_owned : ∀ o m, movable_instance_ s !! o = Some m →
    ∃ w, weak s !! o = Some w ∧ key_ w = 0 ∧ (p_actual_instance_ w = None ∨ p_actual_instance_ w = m);
  inv_owned_alive : ∀ o l, movable_instance_ s !! o = Some (Some l) →
    is_Some (heap s !! l) ∧ destructors s !! l = None;
  inv_one_owner : ∀ o1 o2 l, movable_instance_ s !! o1 = Some (Some l) → movable_instance_ s !! o2 = Some (Some l) → o1 = o2;
  inv_destructor : ∀ l st, destructors s !! l = Some st → is_Some (heap s !! l);
}.

Lemma init_inv : ob_inv init.
Proof. split; intros; simpl in *; rewrite ?lookup_empty in *; done. Qed.

Lemma inv_alive s o w l :
  ob_inv s → weak s !! o = Some w → p_actual_instance_ w = Some l → is_Some (heap s !! l).
Proof.
  intros H Hw Hp. destruct (movable_instance_ s !! o) as [m|] eqn:Hm.
  - destruct (inv_owned s H o m Hm) as (w' & Hw' & _ & Hor). simplify_eq.
    destruct Hor as [|Hl]; [congruence|]. rewrite Hp in Hl. subst m. by apply (inv_owned_alive s H o).
  - destruct (inv_borrower s H o w l) as (x & -> & _); eauto.
Qed.

(** ** Every step keeps it *)

Lemma MakeOwned_inv o v s s' : ob_inv s → MakeOwned o v s = Ok s' → ob_inv s'.
Proof.
  unfold MakeOwned, fresh_object. intros H ?. open_ok.
  assert (∀ l, is_Some (heap s !! l) → l ≠ next_loc s) as Hl.
  { intros l [x Hx] ->. pose proof (inv_next s H _ _ Hx). lia. }
  assert (movable_instance_ s !! o = None) as Hm.
  { destruct (movable_instance_ s !! o) eqn:Hm; [|done]. destruct (inv_owned s H o _ Hm) as (w & ? & _). congruence. }
  assert (destructors s !! next_loc s = None) as Hd.
  { destruct (destructors s !! next_loc s) eqn:Hd; [|done]. by destruct (Hl (next_loc s)); [apply (inv_destructor s H _ _ Hd)|]. }
  destruct H. split; simpl; intros; map_cases; eauto.
  - match goal with H : heap s !! _ = Some _ |- _ => apply inv_next0 in H; lia end.
  - match goal with Hw : weak s !! _ = Some w |- _ => idtac end.
    edestruct inv_borrower0 as (? & Hx & _); eauto. exfalso. by eapply Hl; [rewrite Hx|].
  - destruct (inv_owned_alive0 _ _ H). exfalso. by eapply Hl.
  - edestruct inv_owned_alive0; eauto. exfalso. by eapply Hl.
Qed.
Lemma fresh_not_owned o s : ob_inv s → weak s !! o = None → movable_instance_ s !! o = None.
Proof.
  intros H Ho. destruct (movable_instance_ s !! o) eqn:Hm; [|done].
  destruct (inv_owned s H o _ Hm) as (w0 & ? & _). congruence.
Qed.
Lemma key_le_total s o w l x :
  ob_inv s → weak s !! o = Some w → p_actual_instance_ w = Some l → heap s !! l = Some x →
  key_ w ≤ total_borrowers_spawned_throughout_lifetime_ x.
Proof.
  intros H Hw Hp Hx. destruct (movable_instance_ s !! o) as [m|] eqn:Hm.
  - destruct (inv_owned s H o m Hm) as (w' & Hw' & Hk & _). simplify_eq. lia.
  - destruct (inv_borrower s H o w l) as (x' & Hx' & [cb Hcb]); [done..|]. simplify_eq. by apply (inv_keys s H l x (key_ w) cb).
Qed.

(** Changing an instance in a way that keeps its borrowers. *)
Lemma update_heap_inv s l x x' :
  ob_inv s → heap s !! l = Some x →
  (∀ k, is_Some (borrowers_ x !! k) → is_Some (borrowers_ x' !! k)) →
  (∀ k cb, borrowers_ x' !! k = Some cb → k ≤ total_borrowers_spawned_throughout_lifetime_ x') →
  ob_inv (set_heap (<[l := x']> (heap s)) s).
Proof.
  intros [] Hx Hkeep Hle. split; simpl; intros; map_cases; eauto.
  - edestruct inv_borrower0 as (y & Hy & Hk); eauto. simplify_eq. eauto.
  - split; [done|]. by eapply inv_owned_alive0.
Qed.

(** A new borrower under a key that no other object has. *)
Lemma add_borrower_inv s o l x k :
  ob_inv s → weak s !! o = None → heap s !! l = Some x → is_Some (borrowers_ x !! k) →
  (∀ o' w, weak s !! o' = Some w → p_actual_instance_ w = Some l → key_ w ≠ k) →
  ob_inv (set_weak (<[o := mkWeak (Some l) k]> (weak s)) s).
Proof.
  intros H Ho Hx Hk Hnew. pose proof (fresh_not_owned o s H Ho) as Hm.
  destruct H. split; simpl; intros; map_cases; eauto; exfalso; eapply Hnew; by eauto.
Qed.

(** A registration passes from one object to another. *)
Lemma move_borrower_inv s o rhs w l x :
  ob_inv s → weak s !! rhs = Some w → p_actual_instance_ w = Some l → movable_instance_ s !! o = None →
  heap s !! l = Some x → is_Some (borrowers_ x !! key_ w) →
  ob_inv (set_weak (<[rhs := mkWeak None 0]> (<[o := mkWeak (Some l) (key_ w)]> (weak s))) s).
Proof.
  intros [] Hw Hp Hm Hx Hk. split; simpl; intros; map_cases; eauto.
  - assert (o1 = rhs) by (apply (inv_distinct0 _ _ w1 w); congruence). congruence.
  - assert (o2 = rhs) by (apply (inv_distinct0 _ _ w2 w); congruence). congruence.
Qed.

Lemma ConstructBorrowed_inv o rhs cb s s' : ob_inv s → ConstructBorrowed o rhs cb s = Ok s' → ob_inv s'.
Proof.
  unfold ConstructBorrowed, fresh_object, deref. intros H ?. open_ok.
  match goal with Hx : heap s !! ?l = Some ?x |- ob_inv (set_weak _ ?s') =>
    pose proof (λ o w Hw Hp, key_le_total s o w l x H Hw Hp Hx) as Hle;
    assert (ob_inv s') as H' end.
  { eapply update_heap_inv; [done..| |]; simpl; intros; map_cases; eauto.
    match goal with Hk : borrowers_ _ !! _ = Some _ |- _ => eapply (inv_keys s H) in Hk; [|done] end. lia. }
  eapply (add_borrower_inv _ _ _ _ _ H'); simpl; [done|by rewrite lookup_insert_eq| |].
  - simpl. rewrite lookup_insert_eq. eauto.
  - intros o' w' Hw' Hp. specialize (Hle o' w' Hw' Hp). lia.
Qed.

Lemma MoveFrom_inv o rhs cb s s' :
  ob_inv s → movable_instance_ s !! o = None → MoveFrom o rhs cb s = Ok s' → ob_inv s'.
Proof.
  unfold MoveFrom, deref. intros H Hm ?. open_ok.
  match goal with Hx : heap s !! ?l = Some ?x, Hw : weak s !! rhs = Some ?w |- ob_inv (set_weak _ ?s') =>
    pose proof (key_le_total s rhs w l x H Hw ltac:(done) Hx) as Hle;
    assert (ob_inv s') as H' end.
  { eapply update_heap_inv; [done..| |]; simpl; intros; map_cases; eauto.
    match goal with Hk : borrowers_ _ !! _ = Some _ |- _ => by eapply (inv_keys s H) in Hk end. }
  eapply (move_borrower_inv _ _ _ _ _ _ H'); simpl; [done|done|done|by rewrite lookup_insert_eq|].
  simpl. rewrite lookup_insert_eq. eauto.
Qed.

(** The registration of an object is erased together with its pointer. *)
Lemma erase_borrower_inv s o w l x :
  ob_inv s → weak s !! o = Some w → movable_instance_ s !! o = None → p_actual_instance_ w = Some l →
  heap s !! l = Some x → key_ w ≠ 0 →
  ob_inv (set_weak (<[o := mkWeak None 0]> (weak s))
    (set_heap (<[l := mkInstance (destructing_ x) (instance_ x) (delete (key_ w) (borrowers_ x))
                        (total_borrowers_spawned_throughout_lifetime_ x)]> (heap s)) s)).
Proof.
  intros [] Hw Hm Hp Hx Hk. split; simpl; intros; map_cases; eauto.
  - destruct (inv_borrower0 o0 w0 l0) as (y & Hy & Hb); [done..|]. simplify_eq. eexists. split; [done|]. simpl.
    rewrite lookup_delete_ne; [done|]. intros Heq. destruct (inv_distinct0 o o0 w w0); congruence.
  - split; [done|]. by eapply inv_owned_alive0.
Qed.

Lemma set_notify_inv n s : ob_inv s → ob_inv (set_notify n s).
Proof. intros []. by split. Qed.

Lemma InternalUnRegister_inv o s s' : ob_inv s → InternalUnRegister o s = Ok s' → ob_inv s'.
Proof.
  unfold InternalUnRegister, is_borrower, UnRegisterBorrower. intros H ?. open_ok.
  destruct (key_ _ =? 0)%nat eqn:Hk; open_ok.
  - destruct H. split; simpl; intros; map_cases; eauto.
  - apply Nat.eqb_neq in Hk. pose proof (erase_borrower_inv s o) as He.
    case_bool_decide; [change (set_weak ?w (set_notify ?n ?s')) with (set_notify n (set_weak w s')); apply set_notify_inv|];
      by eapply He.
Qed.

Lemma MoveOwned_inv o rhs s s' : ob_inv s → MoveOwned o rhs s = Ok s' → ob_inv s'.
Proof.
  unfold MoveOwned, fresh_object. intros H ?. open_ok.
  pose proof (fresh_not_owned o s H ltac:(done)) as Hm.
  match goal with Hr : movable_instance_ s !! rhs = Some _, Hw : weak s !! rhs = Some ?w |- _ =>
    assert (key_ w = 0) as Hk by (destruct (inv_owned s H rhs _ Hr) as (w' & ? & ? & _); congruence);
    rename Hr into Hrhs end.
  destruct H. split; simpl; rewrite ?Hk; intros; map_cases; eauto; try congruence.
  - match goal with Ho : movable_instance_ s !! ?o' = Some (Some _), Hne : rhs ≠ ?o' |- _ =>
      by destruct (Hne (inv_one_owner0 rhs o' _ Hrhs Ho)) end.
  - match goal with Ho : movable_instance_ s !! ?o' = Some (Some _), Hne : rhs ≠ ?o' |- _ =>
      by destruct (Hne (inv_one_owner0 rhs o' _ Hrhs Ho)) end.
Qed.

Lemma set_movable_weak_delete_inv o s :
  ob_inv s → ob_inv (set_movable (delete o (movable_instance_ s)) (set_weak (delete o (weak s)) s)).
Proof. intros []. split; simpl; intros; map_cases; eauto. Qed.

Lemma StartDestructor_inv l s s' :
  ob_inv s → (∀ o, movable_instance_ s !! o ≠ Some (Some l)) → StartDestructor l s = Ok s' → ob_inv s'.
Proof.
  unfold StartDestructor. intros H Hno ?. open_ok.
  match goal with |- ob_inv (set_destructors _ ?s1) => assert (ob_inv s1) as H' end.
  { eapply update_heap_inv; [done..|]. simpl. intros k cb Hcb. by eapply (inv_keys s H). }
  destruct H'. split; simpl in *; intros; eauto.
  - split; [by eapply inv_owned_alive0|]. rewrite lookup_insert_ne; [by eapply inv_owned_alive0|]. intros ->. by eapply Hno.
  - rewrite lookup_insert. case_decide; [done|]. rewrite lookup_insert_ne in * by done. by eapply (inv_destructor s H).
Qed.

Lemma DestroyObject_inv o s s' : ob_inv s → DestroyObject o s = Ok s' → ob_inv s'.
Proof.
  unfold DestroyObject. intros H ?. open_ok. pose proof (set_movable_weak_delete_inv o s H) as H'.
  destruct (movable_instance_ s !! o) as [[l|]|] eqn:Hm; open_ok; [|done..].
  eapply StartDestructor_inv; [exact H'| |done]. simpl. intros o'. rewrite lookup_delete. case_decide; [done|].
  intros Ho'. by destruct (inv_one_owner s H o o' l).
Qed.

Lemma RunDestructor_inv l s s' : ob_inv s → RunDestructor l s = Ok s' → ob_inv s'.
Proof.
  unfold RunDestructor. intros H ?. destruct (destructors s !! l) as [st|] eqn:Hd; [|done]. simpl in *. open_ok.
  assert (∀ st', ob_inv (set_stage l st' s)) as Hst.
  { intros st'. destruct H. split; simpl; intros; eauto; map_cases; eauto.
    match goal with Ho : movable_instance_ s !! _ = Some (Some _) |- _ => destruct (inv_owned_alive0 _ _ Ho); congruence end. }
  destruct st as [|[|[k cb] rest]|]; open_ok; [done|done| |].
  - destruct (Hst (Calling rest)). by split.
  - destruct H. split; simpl; intros; map_cases; eauto.
    + edestruct inv_borrower0 as (y & Hy & [cb Hcb]); eauto. simplify_eq.
      match goal with He : borrowers_ _ = ∅ |- _ => rewrite He, lookup_empty in Hcb; done end.
    + match goal with Ho : movable_instance_ s !! _ = Some (Some _) |- _ => destruct (inv_owned_alive0 _ _ Ho); congruence end.
Qed.

Lemma ob_exec_inv a s s' : ob_inv s → exec a s = Ok s' → ob_inv s'.
Proof.
  unfold exec. intros H He. open_ok. destruct a; simpl in *.
  - by eapply MakeOwned_inv.
  - by eapply ConstructBorrowed_inv.
  - unfold ConstructBorrowedByMove, fresh_object in *. open_ok. by eapply MoveFrom_inv; [|eapply fresh_not_owned|].
  - unfold AssignBorrowed, is_borrower in *. open_ok. eapply MoveFrom_inv; [exact H| |exact He]; done.
  - by eapply InternalUnRegister_inv.
  - unfold NotifyOne in *. open_ok. by apply set_notify_inv.
  - by eapply MoveOwned_inv.
  - by eapply DestroyObject_inv.
  - by eapply RunDestructor_inv.
  - unfold ExclusiveUse, deref in *. open_ok. eapply update_heap_inv; [done..|]. simpl. intros. by eapply (inv_keys s H).
Qed.

Lemma ob_reachable_inv s : rtc ob_step init s → ob_inv s.
Proof.
  intros Hr. remember init as s0 eqn:H0. assert (ob_inv s0) as H by (subst; apply init_inv). clear H0.
  induction Hr as [|s1 s2 s3 [a Ha] _ IH]; [done|]. apply IH. by eapply ob_exec_inv.
Qed.

(** ** Objects that exist can be used and released *)

Lemma live_object_usable s o w :
  ob_inv s → weak s !! o = Some w →
  is_ok (IsValid o s) ∧
  (is_Some (p_actual_instance_ w) → is_ok (Dereference o s)) ∧
  (movable_instance_ s !! o = None → is_ok (InternalUnRegister o s)).
Proof.
  intros H Hw. split_and!.
  - unfold IsValid. rewrite Hw. simpl. destruct (p_actual_instance_ w) as [l|] eqn:Hp; [|by eexists].
    destruct (inv_alive s o w l) as [x ->]; [done..|]. by eexists.
  - intros [l Hp]. unfold Dereference, deref. rewrite Hw. simpl. rewrite Hp. simpl.
    destruct (inv_alive s o w l) as [x ->]; [done..|]. by eexists.
  - intros Hm. unfold InternalUnRegister, is_borrower. rewrite Hw, Hm. simpl.
    destruct (Nat.eqb_spec (key_ w) 0) as [|Hk]; [by eexists|].
    destruct (p_actual_instance_ w) as [l|] eqn:Hp; [|by destruct Hk; eapply inv_null]. simpl.
    destruct (inv_borrower s H o w l) as (x & -> & Hb); [done..|]. simpl. unfold UnRegisterBorrower.
    rewrite (bool_decide_eq_true_2 _ Hb). by eexists.
Qed.

(** ** Registrations that nobody will erase *)

Definition orphaned (l : loc) (k : nat) (s : W) : Prop :=
  ∃ x, heap s !! l = Some x ∧ is_Some (borrowers_ x !! k) ∧
    (∀ o w, weak s !! o = Some w → p_actual_instance_ w = Some l → key_ w = k → k = 0).

(** Inserting an instance with the same keys and maybe more keeps a registration. *)
Lemma kept_by_insert l k (x : UniqueInstance (T := T) (F := F)) l' y s :
  heap s !! l = Some x → is_Some (borrowers_ x !! k) → (l' = l → is_Some (borrowers_ y !! k)) →
  ∃ x', <[l' := y]> (heap s) !! l = Some x' ∧ is_Some (borrowers_ x' !! k).
Proof. intros Hx Hk Hy. rewrite lookup_insert. case_decide; eauto. Qed.

Lemma orphaned_heap l k a s s' :
  ob_inv s → orphaned l k s → exec a s = Ok s' → ∃ x, heap s' !! l = Some x ∧ is_Some (borrowers_ x !! k).
Proof.
  intros H (x & Hx & Hk & Hno) He. pose proof (inv_next s H l x Hx) as Hnext.
  unfold exec in He. open_ok. destruct a; simpl in He.
  - unfold MakeOwned, fresh_object in He. open_ok. eapply kept_by_insert; [done..|]. lia.
  - unfold ConstructBorrowed, fresh_object, deref in He. open_ok. eapply kept_by_insert; [done..|].
    intros ->. simplify_eq. simpl. rewrite lookup_insert. case_decide; eauto.
  - unfold ConstructBorrowedByMove, MoveFrom, fresh_object, deref in He. open_ok. eapply kept_by_insert; [done..|].
    intros ->. simplify_eq. simpl. rewrite lookup_insert. case_decide; eauto.
  - unfold AssignBorrowed, MoveFrom, is_borrower, deref in He. open_ok. eapply kept_by_insert; [done..|].
    intros ->. simplify_eq. simpl. rewrite lookup_insert. case_decide; eauto.
  - unfold InternalUnRegister, is_borrower, UnRegisterBorrower in He. open_ok.
    destruct (key_ _ =? 0)%nat eqn:Hz; open_ok; [by eauto|]. apply Nat.eqb_neq in Hz.
    case_bool_decide; (eapply kept_by_insert; [done..|]; intros ->; simplify_eq; simpl;
      rewrite lookup_delete_ne; [done|intros <-; by destruct Hz; eauto]).
  - unfold NotifyOne in He. open_ok. eauto.
  - unfold MoveOwned, fresh_object in He. open_ok. eauto.
  - unfold DestroyObject, StartDestructor in He. open_ok. destruct (movable_instance_ s !! o) as [[l'|]|]; open_ok; [|by eauto..].
    eapply kept_by_insert; [done..|]. intros ->. by simplify_eq.
  - unfold RunDestructor in He. destruct (destructors s !! l0) as [st|]; [|done]. simpl in He. open_ok.
    destruct st as [|[|[? ?] ?]|]; open_ok; [by eauto..|].
    rewrite lookup_delete_ne; [by eauto|]. intros ->. simplify_eq.
    match goal with Hb : borrowers_ _ = ∅ |- _ => rewrite Hb, lookup_empty in Hk; by destruct Hk end.
  - unfold ExclusiveUse, deref in He. open_ok. eapply kept_by_insert; [done..|]. intros ->. by simplify_eq.
Qed.

Lemma orphaned_weak l k a s s' o w :
  ob_inv s → orphaned l k s → exec a s = Ok s' → weak s' !! o = Some w → p_actual_instance_ w = Some l → key_ w = k → k = 0.
Proof.
  intros H (x & Hx & [cb Hk] & Hno) He Hw Hp Hkey. pose proof (inv_next s H l x Hx) as Hnext.
  pose proof (inv_keys s H l x k cb Hx Hk) as Hle.
  unfold exec in He. open_ok. destruct a; simpl in He.
  - unfold MakeOwned, fresh_object in He. open_ok. map_cases; eauto.
  - unfold ConstructBorrowed, fresh_object, deref in He. open_ok. map_cases; eauto; lia.
  - unfold ConstructBorrowedByMove, MoveFrom, fresh_object, deref in He. open_ok. map_cases; eauto.
  - unfold AssignBorrowed, MoveFrom, is_borrower, deref in He. open_ok. map_cases; eauto.
  - unfold InternalUnRegister, is_borrower, UnRegisterBorrower in He. open_ok.
    destruct (key_ _ =? 0)%nat eqn:Hz; open_ok; [map_cases; eauto|]. case_bool_decide; simpl in *; map_cases; eauto.
  - unfold NotifyOne in He. open_ok. eauto.
  - unfold MoveOwned, fresh_object in He. open_ok. map_cases; eauto.
  - unfold DestroyObject, StartDestructor in He. open_ok.
    destruct (movable_instance_ s !! o0) as [[l'|]|]; open_ok; map_cases; eauto.
  - unfold RunDestructor in He. destruct (destructors s !! l0) as [st|]; [|done]. simpl in He. open_ok.
    destruct st as [|[|[? ?] ?]|]; open_ok; eauto.
  - unfold ExclusiveUse, deref in He. open_ok. eauto.
Qed.

Lemma orphaned_forever l k s s' : ob_inv s → orphaned l k s → rtc ob_step s s' → orphaned l k s'.
Proof.
  intros H Ho Hr. induction Hr as [|s1 s2 s3 [a Ha] _ IH]; [done|]. apply IH; [by eapply ob_exec_inv|].
  destruct (orphaned_heap l k a s1 s2) as (x & Hx & Hk); [done..|]. exists x. split_and!; [done..|].
  intros o w. by apply (orphaned_weak l k a s1 s2).
Qed.

(** ** Every registration belongs to an object

    This is so as long as nobody assigns to a [Borrowed] object that is
    registered, and nobody moves an [Owned] object into a [Borrowed] one. *)

Definition careful (a : op (T := T) (F := F)) (s : W) : bool :=
  match a with
  | OpAssign o _ _ => match weak s !! o with Some w => (key_ w =? 0)%nat | None => true end
  | OpBorrowByMove _ rhs _ => bool_decide (movable_instance_ s !! rhs = None)
  | _ => true
  end.

Definition careful_step (s s' : W) : Prop := ∃ a, careful a s = true ∧ exec a s = Ok s'.

Definition has_object (l : loc) (k : nat) (s : W) : Prop :=
  k ≠ 0 ∧ ∃ o w, weak s !! o = Some w ∧ movable_instance_ s !! o = None ∧ p_actual_instance_ w = Some l ∧ key_ w = k.

Definition accounted (s : W) : Prop :=
  ∀ l x k, heap s !! l = Some x → is_Some (borrowers_ x !! k) → has_object l k s.

(** Steps that change no registration, and no object with a registration. *)
Lemma has_object_mono l k s s' :
  has_object l k s →
  (∀ o w, weak s !! o = Some w → movable_instance_ s !! o = None → key_ w ≠ 0 →
     weak s' !! o = Some w ∧ movable_instance_ s' !! o = None) →
  has_object l k s'.
Proof.
  intros (Hk & o & w & Hw & Hm & Hp & Hkey) Hkeep. destruct (Hkeep o w) as [Hw' Hm']; [done|done|lia|].
  split; [done|]. eauto 10.
Qed.

Lemma deref_inv o s w l x :
  deref o s = Ok (w, l, x) → weak s !! o = Some w ∧ p_actual_instance_ w = Some l ∧ heap s !! l = Some x.
Proof. unfold deref. intros He. by open_ok. Qed.

Lemma accounted_register o rhs cb s s' : accounted s → ConstructBorrowed o rhs cb s = Ok s' → ob_inv s → accounted s'.
Proof.
  unfold ConstructBorrowed, fresh_object. intros Ha He H. destruct (weak s !! o) eqn:Ho; [done|]. simpl in He.
  destruct (deref rhs s) as [[[w l0] x0]|] eqn:Hd; [|done]. apply deref_inv in Hd as (Hw & Hp & Hx0). simpl in He. injection He as <-.
  intros l x k Hx Hk. simpl in *. pose proof (fresh_not_owned o s H Ho) as Hm.
  set (key := S (total_borrowers_spawned_throughout_lifetime_ x0)) in *.
  change (has_object l k (set_weak (<[o := mkWeak (Some l0) key]> (weak s)) s)).
  assert (has_object l k s → has_object l k (set_weak (<[o := mkWeak (Some l0) key]> (weak s)) s)) as Hold.
  { intros Hob. eapply has_object_mono; [done|]. simpl. intros o' w' Hw' Hm' _. split; [|done].
    rewrite lookup_insert_ne; [done|]. congruence. }
  rewrite lookup_insert in Hx. case_decide; [|by eauto]. simplify_eq/=. rewrite lookup_insert in Hk. case_decide; [|by eauto].
  subst. split; [done|]. eexists o, (mkWeak _ key). simpl. by rewrite lookup_insert_eq.
Qed.

Lemma accounted_move o rhs cb s s' :
  accounted s → ob_inv s → movable_instance_ s !! o = None → movable_instance_ s !! rhs = None →
  (∀ w, weak s !! o = Some w → key_ w = 0) → MoveFrom o rhs cb s = Ok s' → accounted s'.
Proof.
  unfold MoveFrom. intros Ha H Hmo Hmr Hkey He.
  destruct (deref rhs s) as [[[w l0] x0]|] eqn:Hd; [|done]. apply deref_inv in Hd as (Hw & Hp & Hx0). simpl in He. injection He as <-.
  intros l x k Hx Hk. simpl in *.
  assert (has_object l k s) as (Hk0 & o' & w' & Hw' & Hm' & Hp' & Hkey').
  { rewrite lookup_insert in Hx. case_decide; [|by eauto]. simplify_eq/=. rewrite lookup_insert in Hk. case_decide; [|by eauto].
    subst. destruct (inv_borrower s H rhs w l) as (x & Hx & Hb); [done..|]. simplify_eq. by eapply Ha. }
  split; [done|]. destruct (decide (o' = rhs)) as [->|Hne]; simplify_eq.
  - exists o, (mkWeak (Some l0) (key_ w)). simpl. split_and!; [|done..].
    assert (o ≠ rhs) by (intros ->; by apply Hk0, Hkey). rewrite lookup_insert_ne by congruence. by rewrite lookup_insert_eq.
  - exists o', w'. split_and!; [|done..]. simpl. rewrite !lookup_insert_ne; [done|intros ->; by apply Hk0, Hkey|done].
Qed.

Lemma accounted_release o s s' : accounted s → ob_inv s → InternalUnRegister o s = Ok s' → accounted s'.
Proof.
  unfold InternalUnRegister, is_borrower, UnRegisterBorrower. intros Ha H He.
  destruct (weak s !! o) as [w|] eqn:Hw; [|done]. simpl in He. case_bool_decide as Hm; [|done]. simpl in He.
  assert (∀ l k, has_object l k s → (p_actual_instance_ w = Some l → key_ w ≠ k) →
          has_object l k (set_weak (<[o := mkWeak None 0]> (weak s)) s)) as Hother.
  { intros l k (Hk0 & o' & w' & Hw' & Hm' & Hp' & Hk') Hne. split; [done|]. exists o', w'. simpl. split_and!; try done.
    rewrite lookup_insert_ne; [done|]. intros <-. simplify_eq. by apply Hne. }
  destruct (Nat.eqb_spec (key_ w) 0) as [Hz|Hz]; [simpl in He; injection He as <-|].
  { intros l x k Hx Hk. simpl in *. apply Hother; [by eapply Ha|]. intros _ <-. rewrite Hz in Hk. by destruct (Ha l x 0). }
  destruct (p_actual_instance_ w) as [l0|] eqn:Hp; [|done]. simpl in He. destruct (heap s !! l0) as [x0|] eqn:Hx0; [|done]. simpl in He.
  unfold CURRENT_ASSERT in He. destruct (bool_decide (is_Some _)); [|done]. simpl in He. injection He as <-.
  assert (∀ l x k, <[l0 := mkInstance (destructing_ x0) (instance_ x0) (delete (key_ w) (borrowers_ x0))
              (total_borrowers_spawned_throughout_lifetime_ x0)]> (heap s) !! l = Some x → is_Some (borrowers_ x !! k) →
            has_object l k (set_weak (<[o := mkWeak None 0]> (weak s)) s)) as Hall; [|by case_bool_decide].
  intros l x k Hx Hk. rewrite lookup_insert in Hx. case_decide.
  - simplify_eq/=. apply delete_is_Some in Hk as [Hne Hk]. apply Hother; [by eapply Ha|]. by intros _ <-.
  - apply Hother; [by eapply Ha|]. congruence.
Qed.

Lemma accounted_exec a s s' : careful a s = true → exec a s = Ok s' → ob_inv s → accounted s → accounted s'.
Proof.
  intros Hc He H Ha. unfold exec in He. destruct (guard _) as [[]|]; [|done]. simpl in He. destruct a; simpl in He, Hc.
  - unfold MakeOwned, fresh_object in He. open_ok. intros l x k Hx Hk. simpl in *. rewrite lookup_insert in Hx. case_decide.
    { simplify_eq/=. rewrite lookup_empty in Hk. by destruct Hk. }
    eapply has_object_mono; [by eapply Ha|]. simpl. intros o' w' Hw' Hm' _. rewrite !lookup_insert_ne; [done|congruence..].
  - by eapply accounted_register.
  - unfold ConstructBorrowedByMove, fresh_object in He. open_ok.
    eapply (accounted_move o rhs); [done|done|by apply fresh_not_owned|done|congruence|done].
  - unfold AssignBorrowed, is_borrower in He. open_ok. eapply (accounted_move o rhs); [done..| |done].
    intros w Hw. simplify_eq. by apply Nat.eqb_eq.
  - by eapply accounted_release.
  - unfold NotifyOne in He. open_ok. by intros l' x k; apply Ha.
  - unfold MoveOwned, fresh_object in He. open_ok. intros l x k Hx Hk. simpl in *.
    eapply has_object_mono; [by eapply Ha|]. simpl. intros o' w' Hw' Hm' _. rewrite !lookup_insert_ne; [done|congruence..].
  - unfold DestroyObject, StartDestructor in He. open_ok. apply Nat.eqb_eq in Heqb.
    assert (∀ l k, has_object l k s → has_object l k (set_movable (delete o (movable_instance_ s)) (set_weak (delete o (weak s)) s))) as Hkeep.
    { intros l k Hob. eapply has_object_mono; [done|]. simpl. intros o' w' Hw' Hm' Hk'.
      rewrite !lookup_delete_ne; [done|congruence..]. }
    destruct (movable_instance_ s !! o) as [[l0|]|] eqn:Hmo; open_ok; intros l x k Hx Hk; simpl in *; apply Hkeep; try (by eapply Ha).
    rewrite lookup_insert in Hx. case_decide; [simplify_eq/=|]; by eapply Ha.
  - unfold RunDestructor in He. destruct (destructors s !! l) as [st|]; [|done]. simpl in He. open_ok.
    destruct st as [|[|[? ?] ?]|]; open_ok; intros l' x k Hx Hk; simpl in *; [by eapply Ha..|].
    apply lookup_delete_Some in Hx as [_ Hx]. by eapply Ha.
  - unfold ExclusiveUse, deref in He. open_ok. intros l x k Hx Hk. simpl in *. rewrite lookup_insert in Hx.
    case_decide; [simplify_eq/=|]; by eapply Ha.
Qed.

Lemma careful_reachable s : rtc careful_step init s → ob_inv s ∧ accounted s.
Proof.
  intros Hr. remember init as s0 eqn:H0.
  assert (ob_inv s0 ∧ accounted s0) as H.
  { subst. split; [apply init_inv|]. intros l x k Hx. simpl in Hx. by rewrite lookup_empty in Hx. }
  clear H0. induction Hr as [|s1 s2 s3 (a & Hc & Ha) _ IH]; [done|]. destruct H as [H Hacc].
  apply IH. split; [by eapply ob_exec_inv|by eapply accounted_exec].
Qed.

(** ** The destructor ends once nobody borrows *)

Definition gone (l : loc) (s : W) : Prop := heap s !! l = None ∨ exited s = true.

Definition destructor_ends (l : loc) (s : W) : Prop :=
  ∃ n s', execs (replicate n (OpRunDestructor l)) s = Ok s' ∧ gone l s'.

Lemma destructor_ends_step l s s1 : exec (OpRunDestructor l) s = Ok s1 → destructor_ends l s1 → destructor_ends l s.
Proof. intros He (n & s' & Hs & Hg). exists (S n), s'. simpl replicate. simpl execs. by rewrite He. Qed.

Lemma waiting_ends l s x :
  destructors s !! l = Some Waiting → heap s !! l = Some x → borrowers_ x = ∅ → exited s = false → destructor_ends l s.
Proof.
  intros Hd Hx Hb He. eexists 1, _. simpl. unfold exec, guard. rewrite He. simpl. unfold RunDestructor. rewrite Hd, Hx. simpl.
  unfold guard. rewrite (bool_decide_eq_true_2 _ Hb). simpl. split; [done|]. left. simpl. by rewrite lookup_delete_eq.
Qed.

Lemma calling_ends l cbs s x :
  destructors s !! l = Some (Calling cbs) → heap s !! l = Some x → borrowers_ x = ∅ → destructor_ends l s.
Proof.
  revert s. induction cbs as [|[k cb] cbs IH]; intros s Hd Hx Hb; (destruct (exited s) eqn:He; [exists 0, s; by split; [|right]|]).
  - eapply destructor_ends_step.
    { unfold exec, guard. rewrite He. simpl. unfold RunDestructor. by rewrite Hd, Hx. }
    eapply (waiting_ends l _ x); simpl; [by rewrite lookup_insert_eq|done..].
  - eapply destructor_ends_step.
    { unfold exec, guard. rewrite He. simpl. unfold RunDestructor. by rewrite Hd, Hx. }
    apply IH; simpl; [by rewrite lookup_insert_eq|done..].
Qed.

Lemma unborrowed_ends l s st :
  ob_inv s → accounted s → destructors s !! l = Some st → (∀ o w, weak s !! o = Some w → p_actual_instance_ w ≠ Some l) →
  destructor_ends l s.
Proof.
  intros H Ha Hd Hno. destruct (inv_destructor s H l st Hd) as [x Hx].
  assert (borrowers_ x = ∅) as Hb.
  { apply map_eq. intros k. rewrite lookup_empty. destruct (borrowers_ x !! k) as [cb|] eqn:Hk; [|done].
    destruct (Ha l x k Hx ltac:(by eexists)) as (_ & o & w & Hw & _ & Hp & _). by destruct (Hno o w). }
  destruct (exited s) eqn:He; [exists 0, s; by split; [|right]|]. destruct st as [|cbs|].
  - eapply destructor_ends_step.
    { unfold exec, guard. rewrite He. simpl. unfold RunDestructor. by rewrite Hd, Hx. }
    eapply (calling_ends l _ _ x); simpl; [by rewrite lookup_insert_eq|done..].
  - by eapply calling_ends.
  - by eapply waiting_ends.
Qed.

(** Assigning to a registered [Borrowed] object forgets the registration. *)
Lemma assign_orphans o rhs cb w l s s' :
  ob_inv s → weak s !! o = Some w → p_actual_instance_ w = Some l → key_ w ≠ 0 → exec (OpAssign o rhs cb) s = Ok s' →
  orphaned l (key_ w) s'.
Proof.
  intros H Hw Hp Hk He. unfold exec, AssignBorrowed, is_borrower in He. rewrite Hw in He. open_ok. unfold MoveFrom in He.
  destruct (deref rhs s) as [[[w' l'] x']|] eqn:Hd; [|done]. apply deref_inv in Hd as (Hw' & Hp' & Hx'). simpl in He. injection He as <-.
  match goal with Hm : movable_instance_ s !! o = None |- _ => destruct (inv_borrower s H o w l Hw Hm Hp) as (x & Hx & Hb) end.
  unfold orphaned. simpl. destruct (kept_by_insert l (key_ w) x l' (UpdateBorrowersCallbackFromLockedSection (key_ w') cb x') s)
    as (y & Hy & Hby); [done..| |].
  { intros ->. simplify_eq. simpl. rewrite lookup_insert. case_decide; eauto. }
  exists y. split_and!; [done..|]. intros o2 w2 Hw2 Hp2 Hk2. destruct (decide (key_ w = 0)) as [|_]; [done|]. exfalso.
  rewrite !lookup_insert in Hw2. case_decide; [by simplify_eq|]. case_decide; simplify_eq/=.
  - by destruct (inv_distinct s H o2 rhs w w'); congruence.
  - by destruct (inv_distinct s H o o2 w w2); congruence.
Qed.

(** Moving an [Owned] object into a [Borrowed] one registers it under a key that
    is never erased. *)
Lemma move_owned_orphans o rhs l cb s s' :
  ob_inv s → movable_instance_ s !! rhs = Some (Some l) → exec (OpBorrowByMove o rhs cb) s = Ok s' → orphaned l 0 s'.
Proof.
  intros H Hm He. unfold exec, ConstructBorrowedByMove, MoveFrom in He.
  destruct (guard _) as [[]|]; [|done]. simpl in He. destruct (fresh_object o s) as [[]|]; [|done]. simpl in He.
  destruct (deref rhs s) as [[[w l'] x]|] eqn:Hd; [|done]. apply deref_inv in Hd as (Hw & Hp & Hx). simpl in He. injection He as <-.
  destruct (inv_owned s H rhs _ Hm) as (w0 & Hw0 & Hk & Hor). rewrite Hw in Hw0. injection Hw0 as <-.
  destruct Hor as [|Hl]; [congruence|]. rewrite Hp in Hl. injection Hl as ->.
  eexists. simpl. rewrite lookup_insert_eq. split; [done|]. simpl. rewrite Hk, lookup_insert_eq. split; [by eexists|done].
Qed.
End Proofs.
End OwnedBorrowed.
