(* ===== verification/WaitableAtomic.v ===== *)
(** * Objects to wait for: bricks/sync/waitable_atomic.h

    [BasicImpl] guards data with a mutex and lets threads wait until it satisfies
    a predicate.  What runs while the mutex is held is one step; a thread that
    waits is in the condition variable with its predicate, [Blocked] until it is
    notified or wakes up by itself, and [Woken] until it has the mutex again.
    [IntrusiveImpl] also counts the scopes of its clients, and its destructor waits
    for them; it is modelled with every step between two of its critical sections. *)

From Stdlib Require Import Lia.
From stdpp Require Import base gmap list.
From stdpp Require Import relations.
From S2P Require Import Prelude.
Open Scope nat_scope.

Module WaitableAtomic.

Section Atomic.
Context {DATA : Type}.

(** ** [BasicImpl] *)

(** A thread in [data_condition_variable_.wait], with its predicate. *)
Inductive waiter := Blocked (predicate : DATA → bool) | Woken (predicate : DATA → bool).

Record BasicImpl := mkBasic { data_ : DATA; data_condition_variable_ : gmap nat waiter }.

Definition predicate_of (w : waiter) : DATA → bool := match w with Blocked p | Woken p => p end.
Definition wake (w : waiter) : waiter := match w with Blocked p | Woken p => Woken p end.

Definition Notify (s : BasicImpl) : BasicImpl := mkBasic (data_ s) (wake <$> data_condition_variable_ s).

Definition set_data (d : DATA) (s : BasicImpl) : BasicImpl := mkBasic d (data_condition_variable_ s).

(** The destructor of a mutable accessor notifies, unless it was marked. *)
Definition MutableScopedAccessor {R} (f : DATA → R * DATA * bool) (s : BasicImpl) : R * BasicImpl :=
  let '(result, d, mark_as_unmodified_) := f (data_ s) in
  (result, if mark_as_unmodified_ then set_data d s else Notify (set_data d s)).

Definition ImmutableUse {R} (f : DATA → R) (s : BasicImpl) : R := f (data_ s).

Definition MutableUse {R} (f : DATA → R * DATA) (s : BasicImpl) : R * BasicImpl :=
  MutableScopedAccessor (λ d, let '(r, d) := f d in (r, d, false)) s.

Definition PotentiallyMutableUse (f : DATA → bool * DATA) (s : BasicImpl) : bool * BasicImpl :=
  MutableScopedAccessor (λ d, let '(r, d) := f d in (r, d, negb r)) s.

Definition GetValue (s : BasicImpl) : DATA := ImmutableUse id s.

Definition SetValue (data : DATA) (s : BasicImpl) : BasicImpl := (MutableUse (λ _, ((), data)) s).2.

Definition SetValueIf (predicate : DATA → bool) (data : DATA) (s : BasicImpl) : BasicImpl :=
  (MutableScopedAccessor (λ d, if predicate d then ((), data, false) else ((), d, true)) s).2.

Definition set_waiter (i : nat) (w : waiter) (s : BasicImpl) : BasicImpl := mkBasic (data_ s) (<[i := w]> (data_condition_variable_ s)).
Definition leave (i : nat) (s : BasicImpl) : BasicImpl := mkBasic (data_ s) (delete i (data_condition_variable_ s)).

(** [Wait]: with the mutex, a thread goes on if the predicate holds, and else is in
    the condition variable. *)
Definition Wait (i : nat) (predicate : DATA → bool) (s : BasicImpl) : bool * BasicImpl :=
  if predicate (data_ s) then (true, leave i s) else (false, set_waiter i (Blocked predicate) s).

(** [Wait] that goes on with [retval_predicate]. *)
Definition Wait_retval {R} (i : nat) (wait_predicate : DATA → bool) (retval_predicate : DATA → R * DATA) (s : BasicImpl) : option R * BasicImpl :=
  let '(ready, s) := Wait i wait_predicate s in
  if ready then let '(r, d) := retval_predicate (data_ s) in (Some r, set_data d s) else (None, s).

(** [WaitFor], when the time is over: what the predicate says then. *)
Definition WaitFor_timeout (i : nat) (predicate : DATA → bool) (s : BasicImpl) : bool * BasicImpl := (predicate (data_ s), leave i s).

(** The overloads of [WaitFor] with a result: what [retval_predicate] makes of the
    data, or [wait_unsuccessful_predicate]; without the latter, a result constructed
    by default. *)
Definition WaitFor_retval_timeout {R} (i : nat) (predicate : DATA → bool) (retval_predicate wait_unsuccessful_predicate : DATA → R * DATA)
    (s : BasicImpl) : R * BasicImpl :=
  let '(r, d) := (if predicate (data_ s) then retval_predicate else wait_unsuccessful_predicate) (data_ s) in (r, set_data d (leave i s)).

(** Uses of the data through accessors that can change it. *)
Inductive use_step : BasicImpl → BasicImpl → Prop :=
| use_MutableUse R (f : DATA → R * DATA) s : use_step s (MutableUse f s).2
| use_PotentiallyMutableUse f s : use_step s (PotentiallyMutableUse f s).2
| use_SetValueIf p d s : use_step s (SetValueIf p d s).

(** What threads do, one critical section each. *)
Inductive basic_step : BasicImpl → BasicImpl → Prop :=
| step_use s s' : use_step s s' → basic_step s s'
| step_Wait i p s : data_condition_variable_ s !! i = None → basic_step s (Wait i p s).2
| step_Wait_retval R i p (f : DATA → R * DATA) s : data_condition_variable_ s !! i = None → basic_step s (Wait_retval i p f s).2
| step_wakes_up i p s : data_condition_variable_ s !! i = Some (Blocked p) → basic_step s (set_waiter i (Woken p) s)
| step_woken i p s : data_condition_variable_ s !! i = Some (Woken p) → basic_step s (Wait i p s).2
| step_woken_retval R i p (f : DATA → R * DATA) s : data_condition_variable_ s !! i = Some (Woken p) → basic_step s (Wait_retval i p f s).2
| step_timeout i p w s : data_condition_variable_ s !! i = Some w → predicate_of w = p → basic_step s (WaitFor_timeout i p s).2
| step_retval_timeout R i p w (f g : DATA → R * DATA) s : data_condition_variable_ s !! i = Some w → predicate_of w = p →
    basic_step s (WaitFor_retval_timeout i p f g s).2.

(** The data is not changed without a notification: a function that reports no change
    makes none, nor does a [retval_predicate]. *)
Definition all_woken (s : BasicImpl) : Prop := ∀ i p, data_condition_variable_ s !! i ≠ Some (Blocked p).
Definition notifies (s s' : BasicImpl) : Prop := data_ s' = data_ s ∨ all_woken s'.

(** ** [IntrusiveImpl] *)

(** A client, from the moment its [RefCounterTryIncrease] has counted it: it still
    has to notify; it is in its scope; its [RefCounterDecrease] has counted it off
    and it still has to notify. *)
Inductive client := Increased | InScope | Decreased.

(** The destructor: not begun; [destructing_] set; counted off, with a notification
    to make; at its last critical section; in [cv_.wait]; woken; over. *)
Inductive destructor := Alive | Destructing | SelfDecreased | FinalCheck | CvBlocked | CvWoken | Destroyed.

(** [timed] has the threads that wait in one of the overloads of [WaitFor], which
    are those of the base class. *)
Record IntrusiveImpl := mkIntrusive {
  base : BasicImpl;
  timed : gset nat;
  destructing_ : bool;
  ref_count_ : nat;
  clients : gmap nat client;
  phase : destructor;
}.

(** The constructor counts the object itself. *)
Definition IntrusiveImpl_new (data : DATA) : IntrusiveImpl := mkIntrusive (mkBasic data ∅) ∅ false 1 ∅ Alive.

Definition set_base (b : BasicImpl) (t : gset nat) (s : IntrusiveImpl) : IntrusiveImpl :=
  mkIntrusive b t (destructing_ s) (ref_count_ s) (clients s) (phase s).
Definition set_clients (m : gmap nat client) (s : IntrusiveImpl) : IntrusiveImpl :=
  mkIntrusive (base s) (timed s) (destructing_ s) (ref_count_ s) m (phase s).
Definition set_client (c : nat) (k : client) (s : IntrusiveImpl) : IntrusiveImpl := set_clients (<[c := k]> (clients s)) s.
Definition set_phase (d : destructor) (s : IntrusiveImpl) : IntrusiveImpl :=
  mkIntrusive (base s) (timed s) (destructing_ s) (ref_count_ s) (clients s) d.

Definition IsDestructing (s : IntrusiveImpl) : bool := destructing_ s.

(** The critical sections of [RefCounterTryIncrease] and [RefCounterDecrease], and
    the notification after them. *)
Definition RefCounterTryIncrease (s : IntrusiveImpl) : bool * IntrusiveImpl :=
  if destructing_ s then (false, s) else (true, mkIntrusive (base s) (timed s) (destructing_ s) (S (ref_count_ s)) (clients s) (phase s)).
Definition RefCounterDecrease (s : IntrusiveImpl) : IntrusiveImpl :=
  mkIntrusive (base s) (timed s) (destructing_ s) (pred (ref_count_ s)) (clients s) (phase s).
Definition cv_notify_one (s : IntrusiveImpl) : IntrusiveImpl := match phase s with CvBlocked => set_phase CvWoken s | _ => s end.

(** [IntrusiveClient(object)]: it holds the object if it was counted. *)
Definition RegisterScopedClient (c : nat) (s : IntrusiveImpl) : IntrusiveImpl :=
  let '(ok, s) := RefCounterTryIncrease s in if ok then set_client c Increased s else s.

(** [IntrusiveImpl::Wait]: [Some] of what it returns, or it waits. *)
Definition intrusive_Wait (i : nat) (predicate : DATA → bool) (s : IntrusiveImpl) : option bool * IntrusiveImpl :=
  if destructing_ s then (Some false, set_base (leave i (base s)) (timed s) s)
  else let '(ready, b) := Wait i predicate (base s) in (if ready then Some true else None, set_base b (timed s) s).

(** [WaitFor] of the base class, which does not look at [destructing_]: what it
    returns, or it waits.  Without a [retval_predicate] this is [λ d, (true, d)]. *)
Definition intrusive_WaitFor {R} (i : nat) (predicate : DATA → bool) (retval_predicate : DATA → R * DATA) (s : IntrusiveImpl)
    : option R * IntrusiveImpl :=
  let '(r, b) := Wait_retval i predicate retval_predicate (base s) in
  (r, set_base b (match r with Some _ => timed s ∖ {[i]} | None => {[i]} ∪ timed s end) s).

(** Its time is over. *)
Definition intrusive_timeout {R} (i : nat) (predicate : DATA → bool) (f g : DATA → R * DATA) (s : IntrusiveImpl) : R * IntrusiveImpl :=
  let '(r, b) := WaitFor_retval_timeout i predicate f g (base s) in (r, set_base b (timed s ∖ {[i]}) s).

(** The first critical section of the destructor. *)
Definition begin_destruction (s : IntrusiveImpl) : IntrusiveImpl :=
  mkIntrusive (Notify (base s)) (timed s) true (ref_count_ s) (clients s) Destructing.

(** Its last one, also after each time it is woken. *)
Definition final_check (s : IntrusiveImpl) : IntrusiveImpl := set_phase (if 0 <? ref_count_ s then CvBlocked else Destroyed) s.

(** Threads that can call methods: those in the scope of a client, and others, which
    nothing protects from the destructor. *)
Definition may_call (i : nat) (s : IntrusiveImpl) : Prop := (clients s !! i = Some InScope ∨ clients s !! i = None) ∧ phase s ≠ Destroyed.

(** A thread does one thing at a time: it does not register or leave its scope while
    it waits. *)
Inductive intrusive_step : IntrusiveImpl → IntrusiveImpl → Prop :=
| step_register c s : clients s !! c = None → data_condition_variable_ (base s) !! c = None → phase s ≠ Destroyed →
    intrusive_step s (RegisterScopedClient c s)
| step_registered c s : clients s !! c = Some Increased → intrusive_step s (set_client c InScope (cv_notify_one s))
| step_intrusive_Wait i p s : may_call i s → data_condition_variable_ (base s) !! i = None → intrusive_step s (intrusive_Wait i p s).2
| step_intrusive_WaitFor R i p (f : DATA → R * DATA) s : may_call i s → data_condition_variable_ (base s) !! i = None →
    intrusive_step s (intrusive_WaitFor i p f s).2
| step_intrusive_woken i p s : may_call i s → data_condition_variable_ (base s) !! i = Some (Woken p) → i ∉ timed s →
    intrusive_step s (intrusive_Wait i p s).2
| step_timed_woken R i p (f : DATA → R * DATA) s : may_call i s → data_condition_variable_ (base s) !! i = Some (Woken p) → i ∈ timed s →
    intrusive_step s (intrusive_WaitFor i p f s).2
| step_intrusive_timeout R i p w (f g : DATA → R * DATA) s : may_call i s → data_condition_variable_ (base s) !! i = Some w →
    predicate_of w = p → i ∈ timed s → intrusive_step s (intrusive_timeout i p f g s).2
| step_intrusive_use i b s : may_call i s → use_step (base s) b → intrusive_step s (set_base b (timed s) s)
| step_client_leaves c s : clients s !! c = Some InScope → data_condition_variable_ (base s) !! c = None →
    intrusive_step s (set_client c Decreased (RefCounterDecrease s))
| step_client_left c s : clients s !! c = Some Decreased → intrusive_step s (let s := cv_notify_one s in set_clients (delete c (clients s)) s)
| step_destruct s : phase s = Alive → intrusive_step s (begin_destruction s)
| step_self_decrease s : phase s = Destructing → intrusive_step s (set_phase SelfDecreased (RefCounterDecrease s))
| step_self_notify s : phase s = SelfDecreased → intrusive_step s (set_phase FinalCheck (cv_notify_one s))
| step_final_check s : phase s = FinalCheck ∨ phase s = CvWoken → intrusive_step s (final_check s).

(** Threads may also wake up without a notification. *)
Inductive spurious_wakeup : IntrusiveImpl → IntrusiveImpl → Prop :=
| step_client_wakes_up c p s : data_condition_variable_ (base s) !! c = Some (Blocked p) →
    spurious_wakeup s (set_base (set_waiter c (Woken p) (base s)) (timed s) s)
| step_cv_wakes_up s : phase s = CvBlocked → spurious_wakeup s (set_phase CvWoken s).

Definition intrusive_run : IntrusiveImpl → IntrusiveImpl → Prop := rtc (λ s s', intrusive_step s s' ∨ spurious_wakeup s s').
Definition reachable (s : IntrusiveImpl) : Prop := ∃ data, intrusive_run (IntrusiveImpl_new data) s.
End Atomic.
Arguments waiter : clear implicits.
Arguments BasicImpl : clear implicits.
Arguments IntrusiveImpl : clear implicits.
End WaitableAtomic.

Import WaitableAtomic.

(** ** Waking up *)

Section Basic.
Context {DATA : Type}.
Implicit Types (s : BasicImpl DATA) (p : DATA → bool).

(** Every thread that is blocked has a reason. *)
Definition no_lost_wakeup s : Prop := ∀ i p, data_condition_variable_ s !! i = Some (Blocked p) → p (data_ s) = false.

Lemma Notify_all_woken s : all_woken (Notify s).
Proof. intros i p. cbn. rewrite lookup_fmap. by destruct (data_condition_variable_ s !! i) as [[]|]. Qed.

Lemma MutableUse_notifies {R} (f : DATA → R * DATA) s : notifies s (MutableUse f s).2.
Proof. right. unfold MutableUse, MutableScopedAccessor. destruct (f (data_ s)). apply Notify_all_woken. Qed.

Lemma SetValueIf_notifies p d s : notifies s (SetValueIf p d s).
Proof. unfold SetValueIf, MutableScopedAccessor. destruct (p (data_ s)); cbn; [right; apply Notify_all_woken|by left]. Qed.

Lemma PotentiallyMutableUse_notifies (f : DATA → bool * DATA) s : (∀ d, (f d).1 = false → (f d).2 = d) → notifies s (PotentiallyMutableUse f s).2.
Proof.
  intros Hf. specialize (Hf (data_ s)). unfold PotentiallyMutableUse, MutableScopedAccessor. destruct (f (data_ s)) as [[] d]; cbn in *;
    [right; apply Notify_all_woken|left; by apply Hf].
Qed.

Lemma all_woken_no_lost s : all_woken s → no_lost_wakeup s.
Proof. intros Hs i p Hi. by destruct (Hs i p). Qed.

Lemma use_waiters s s' : use_step s s' → data_condition_variable_ s' = data_condition_variable_ s ∨ all_woken s'.
Proof.
  destruct 1; unfold MutableUse, PotentiallyMutableUse, SetValueIf, MutableScopedAccessor; cbn; repeat case_match; simplify_eq; cbn; auto using Notify_all_woken.
Qed.

Lemma use_keeps_waiters s s' i : use_step s s' → is_Some (data_condition_variable_ s' !! i) ↔ is_Some (data_condition_variable_ s !! i).
Proof.
  destruct 1; unfold MutableUse, PotentiallyMutableUse, SetValueIf, MutableScopedAccessor; cbn; repeat case_match; simplify_eq; cbn; try done;
    by rewrite lookup_fmap, fmap_is_Some.
Qed.

(** A thread that finds its predicate false is blocked with reason. *)
Lemma Wait_no_lost i p s : no_lost_wakeup s → no_lost_wakeup (Wait i p s).2.
Proof.
  intros Hs j q. unfold Wait. destruct (p (data_ s)) eqn:Hp; cbn.
  - intros [_ Hj]%lookup_delete_Some. by apply (Hs j).
  - intros [[<- [= <-]]|[_ Hj]]%lookup_insert_Some; [done|by apply (Hs j)].
Qed.

Lemma Wait_data i p s : data_ (Wait i p s).2 = data_ s.
Proof. unfold Wait. by destruct (p (data_ s)). Qed.

Lemma Wait_retval_no_lost {R} i p (f : DATA → R * DATA) s : no_lost_wakeup s → data_ (Wait_retval i p f s).2 = data_ s → no_lost_wakeup (Wait_retval i p f s).2.
Proof.
  intros Hs Hd. pose proof (Wait_no_lost i p s Hs) as Hw. pose proof (Wait_data i p s) as Hd1. unfold Wait_retval in *.
  destruct (Wait i p s) as [[] s1]; [|done]. destruct (f (data_ s1)) as [r d]. intros j q Hj. cbn in *. rewrite Hd, <- Hd1. by apply (Hw j).
Qed.

Lemma basic_step_no_lost s s' : basic_step s s' → notifies s s' → no_lost_wakeup s → no_lost_wakeup s'.
Proof.
  intros Hstep Hn Hs. destruct Hn as [Hd|?]; [|by apply all_woken_no_lost]. destruct Hstep as [s s' Hu|i p s Hi|R i p f s Hi|i p s Hi|i p s Hi|R i p f s Hi|i p w s Hi Hp|R i p w f g s Hi Hp].
  - destruct (use_waiters s s' Hu) as [Hw|?]; [|by apply all_woken_no_lost]. intros i p. rewrite Hw, Hd. apply Hs.
  - by apply Wait_no_lost.
  - by apply Wait_retval_no_lost.
  - intros j q. cbn. intros [[_ ?]|[_ Hj]]%lookup_insert_Some; [done|by apply (Hs j)].
  - by apply Wait_no_lost.
  - by apply Wait_retval_no_lost.
  - intros j q. cbn. intros [_ Hj]%lookup_delete_Some. by apply (Hs j).
  - intros j q. rewrite Hd. unfold WaitFor_retval_timeout. case_match. cbn. intros [_ Hj]%lookup_delete_Some. by apply (Hs j).
Qed.

(** Steps that all notify of changes. *)
Definition notifying_step s s' : Prop := basic_step s s' ∧ notifies s s'.

Lemma steps_no_lost s s' : rtc notifying_step s s' → no_lost_wakeup s → no_lost_wakeup s'.
Proof. induction 1 as [|s s1 s' [H1 H2] _ IH]; [done|]. intros Hs. apply IH. by eapply basic_step_no_lost. Qed.

(** Steps of threads that tell of every change: a function given to
    [PotentiallyMutableUse] that says so when it changes the data, and waiting that
    only reads it. *)
Inductive honest_step : BasicImpl DATA → BasicImpl DATA → Prop :=
| honest_MutableUse R (f : DATA → R * DATA) s : honest_step s (MutableUse f s).2
| honest_PotentiallyMutableUse f s : (∀ d, (f d).1 = false → (f d).2 = d) → honest_step s (PotentiallyMutableUse f s).2
| honest_SetValueIf p d s : honest_step s (SetValueIf p d s)
| honest_waiting s s' : basic_step s s' → data_ s' = data_ s → honest_step s s'.

Lemma honest_notifies s s' : honest_step s s' → notifying_step s s'.
Proof.
  destruct 1 as [R f s|f s Hf|p d s|s s' Hs Hd].
  - split; [by apply step_use, use_MutableUse|apply MutableUse_notifies].
  - split; [by apply step_use, use_PotentiallyMutableUse|by apply PotentiallyMutableUse_notifies].
  - split; [by apply step_use, use_SetValueIf|apply SetValueIf_notifies].
  - split; [done|by left].
Qed.

Lemma honest_no_lost data s : rtc honest_step (mkBasic data ∅) s → no_lost_wakeup s.
Proof.
  intros H. apply (steps_no_lost (mkBasic data ∅)); [|by intros i p; cbn; rewrite lookup_empty]. eapply rtc_subrel; [|exact H]. apply honest_notifies.
Qed.

(** A thread whose predicate holds is not blocked: it was woken and goes on. *)
Lemma woken_goes_on s i w : no_lost_wakeup s → data_condition_variable_ s !! i = Some w → predicate_of w (data_ s) = true →
  w = Woken (predicate_of w) ∧ (Wait i (predicate_of w) s).1 = true.
Proof.
  intros Hs Hi Hp. split; [|by unfold Wait; rewrite Hp]. destruct w as [p|p]; [|done]. specialize (Hs i p Hi). cbn in Hp. congruence.
Qed.
End Basic.

(** ** The end of an intrusive object *)

#[global] Instance client_eq_dec : EqDecision client.
Proof. solve_decision. Defined.
#[global] Instance destructor_eq_dec : EqDecision destructor.
Proof. solve_decision. Defined.

(** The clients that are counted. *)
Definition holders (m : gmap nat client) : nat := size (filter (λ kv, kv.2 ≠ Decreased) m).

Lemma holders_insert_new m c k : m !! c = None → k ≠ Decreased → holders (<[c := k]> m) = S (holders m).
Proof.
  intros Hc Hk. unfold holders. rewrite map_filter_insert_True by done. apply map_size_insert_None. apply map_lookup_filter_None. by left.
Qed.

Lemma holders_update m c k k' : m !! c = Some k → k ≠ Decreased → k' ≠ Decreased → holders (<[c := k']> m) = holders m.
Proof.
  intros Hc Hk Hk'. unfold holders. rewrite map_filter_insert_True by done. rewrite map_size_insert_Some; [done|]. exists k. by apply map_lookup_filter_Some.
Qed.

Lemma holders_decrease m c k : m !! c = Some k → k ≠ Decreased → S (holders (<[c := Decreased]> m)) = holders m.
Proof.
  intros Hc Hk. unfold holders. rewrite map_filter_insert_False by (intros H; by apply H). rewrite map_filter_delete.
  assert (filter (λ kv, kv.2 ≠ Decreased) m !! c = Some k) as Hf by by apply map_lookup_filter_Some.
  rewrite <- (insert_delete_id _ _ _ Hf) at 2. by rewrite map_size_insert_None by apply lookup_delete_eq.
Qed.

Lemma holders_delete m c : m !! c = Some Decreased → holders (delete c m) = holders m.
Proof.
  intros Hc. unfold holders. rewrite map_filter_delete, delete_id; [done|]. apply map_lookup_filter_None. right. intros k Hk. rewrite Hc in Hk. injection Hk as <-. intros H. by apply H.
Qed.

Lemma holders_zero m c k : holders m = 0 → m !! c = Some k → k = Decreased.
Proof.
  intros Hm Hc. destruct (decide (k = Decreased)) as [|Hk]; [done|]. apply map_size_empty_iff in Hm.
  assert (filter (λ kv, kv.2 ≠ Decreased) m !! c = Some k) as Hf by by apply map_lookup_filter_Some. by rewrite Hm in Hf.
Qed.

Section Intrusive.
Context {DATA : Type}.
Implicit Types s : IntrusiveImpl DATA.

(** The count of the object for itself. *)
Definition own_count (d : destructor) : nat := match d with Alive | Destructing => 1 | _ => 0 end.

Record intrusive_inv s : Prop := {
  inv_count : ref_count_ s = own_count (phase s) + holders (clients s);
  inv_destructing : destructing_ s = negb (bool_decide (phase s = Alive));
  inv_woken : destructing_ s = true → ∀ i p, data_condition_variable_ (base s) !! i = Some (Blocked p) → i ∈ timed s;
  inv_timed : ∀ i, i ∈ timed s → is_Some (data_condition_variable_ (base s) !! i);
  inv_waiters : ∀ i w, data_condition_variable_ (base s) !! i = Some w → clients s !! i = Some InScope ∨ clients s !! i = None;
  inv_notified : phase s = CvBlocked → 0 < ref_count_ s ∨ ∃ c, clients s !! c = Some Decreased;
  inv_destroyed : phase s = Destroyed → ref_count_ s = 0;
}.

Lemma inv_new (data : DATA) : intrusive_inv (IntrusiveImpl_new data).
Proof. split; cbn; try done. Qed.

(** Threads that may call methods start and end to wait. *)
Lemma inv_base s b t : intrusive_inv s →
  (destructing_ s = true → ∀ i p, data_condition_variable_ b !! i = Some (Blocked p) → i ∈ t) →
  (∀ i, i ∈ t → is_Some (data_condition_variable_ b !! i)) →
  (∀ i w, data_condition_variable_ b !! i = Some w → clients s !! i = Some InScope ∨ clients s !! i = None) →
  intrusive_inv (set_base b t s).
Proof. intros [] Hw Ht Hc. by split. Qed.

Lemma inv_wait s i p : intrusive_inv s → may_call i s → i ∉ timed s → intrusive_inv (intrusive_Wait i p s).2.
Proof.
  intros Hs [Hi _] Hni. pose proof Hs as [_ _ Hw Ht Hwc _ _].
  assert (∀ j, j ∈ timed s → is_Some (delete i (data_condition_variable_ (base s)) !! j)) as Hdel.
  { intros j Hj. rewrite lookup_delete_ne by (intros ->; done). by apply Ht. }
  unfold intrusive_Wait. destruct (destructing_ s) eqn:Hd; cbn.
  - apply inv_base; [done|intros _ j q; cbn; rewrite lookup_delete_Some; intros [_ ?]; by eapply Hw|intros j; by apply Hdel|].
    intros j w. cbn. rewrite lookup_delete_Some. intros [_ ?]. by eapply Hwc.
  - unfold Wait. destruct (p (data_ (base s))); cbn; (apply inv_base; [done|by rewrite Hd|..]).
    + intros j. by apply Hdel.
    + intros j w. cbn. rewrite lookup_delete_Some. intros [_ ?]. by eapply Hwc.
    + intros j Hj. cbn. rewrite lookup_insert_is_Some'. right. by apply Ht.
    + intros j w. cbn. rewrite lookup_insert_Some. intros [[<- _]|[_ ?]]; [done|by eapply Hwc].
Qed.

(** A thread leaves [WaitFor]. *)
Lemma inv_leave s i d : intrusive_inv s → intrusive_inv (set_base (set_data d (leave i (base s))) (timed s ∖ {[i]}) s).
Proof.
  intros Hs. pose proof Hs as [_ _ Hw Ht Hwc _ _]. apply inv_base; [done|..].
  - intros Hd j q. cbn. rewrite lookup_delete_Some. intros [Hj Hq]. apply (Hw Hd) in Hq. set_solver.
  - intros j [Hj Hji]%elem_of_difference. cbn. rewrite lookup_delete_ne by set_solver. by apply Ht.
  - intros j w. cbn. rewrite lookup_delete_Some. intros [_ ?]. by eapply Hwc.
Qed.

Lemma inv_wait_for {R} s i p (f : DATA → R * DATA) : intrusive_inv s → may_call i s → intrusive_inv (intrusive_WaitFor i p f s).2.
Proof.
  intros Hs [Hi _]. unfold intrusive_WaitFor, Wait_retval, Wait. destruct (p (data_ (base s))); cbn.
  - destruct (f (data_ (base s))) as [r d]. cbn. by apply inv_leave.
  - pose proof Hs as [_ _ Hw Ht Hwc _ _]. apply inv_base; [done|..].
    + intros Hd j q. cbn. rewrite lookup_insert_Some. intros [[<- _]|[_ Hj]]; [set_solver|]. apply (Hw Hd) in Hj. set_solver.
    + intros j [Hj%elem_of_singleton|Hj]%elem_of_union; cbn; rewrite lookup_insert_is_Some'; [by left|right; by apply Ht].
    + intros j w. cbn. rewrite lookup_insert_Some. intros [[<- _]|[_ ?]]; [done|by eapply Hwc].
Qed.

Lemma inv_timeout {R} s i p (f g : DATA → R * DATA) : intrusive_inv s → intrusive_inv (intrusive_timeout i p f g s).2.
Proof.
  intros Hs. unfold intrusive_timeout, WaitFor_retval_timeout. destruct ((if p (data_ (base s)) then f else g) (data_ (base s))) as [r d]. cbn.
  by apply inv_leave.
Qed.

Lemma cv_notify_one_phase s : phase (cv_notify_one s) = match phase s with CvBlocked => CvWoken | d => d end.
Proof. by unfold cv_notify_one; destruct (phase s) eqn:He; rewrite ?He. Qed.
Lemma cv_notify_one_same s : base (cv_notify_one s) = base s ∧ timed (cv_notify_one s) = timed s ∧ destructing_ (cv_notify_one s) = destructing_ s ∧
  ref_count_ (cv_notify_one s) = ref_count_ s ∧ clients (cv_notify_one s) = clients s.
Proof. by unfold cv_notify_one; destruct (phase s). Qed.

(** After a notification the destructor is not blocked. *)
Lemma inv_notify_one s m : intrusive_inv s →
  (∀ i w, data_condition_variable_ (base s) !! i = Some w → m !! i = Some InScope ∨ m !! i = None) → holders m = holders (clients s) →
  intrusive_inv (set_clients m (cv_notify_one s)).
Proof.
  intros [Hc Hd Hw Htm _ Hn Hx] Hm Hh. pose proof (cv_notify_one_phase s) as Hp. destruct (cv_notify_one_same s) as (Hb & Ht & Hds & Hr & _).
  split; cbn; rewrite ?Hb, ?Ht, ?Hds, ?Hr, ?Hp; try done.
  - rewrite Hc, Hh. by destruct (phase s).
  - rewrite Hd. by destruct (phase s).
  - by destruct (phase s).
  - intros He. apply Hx. by destruct (phase s).
Qed.

Lemma inv_spurious s s' : spurious_wakeup s s' → intrusive_inv s → intrusive_inv s'.
Proof.
  intros [c p s0 Hi|s0 Hp] Hs; pose proof Hs as [Hc Hd Hw Htm Hwc Hn Hx].
  - apply inv_base; [done|..].
    + intros Hds i q. cbn. rewrite lookup_insert_Some. intros [[_ ?]|[_ ?]]; [done|by eapply Hw].
    + intros i Ht. cbn. rewrite lookup_insert_is_Some'. right. by apply Htm.
    + intros i w. cbn. rewrite lookup_insert_Some. intros [[<- _]|[_ ?]]; by eapply Hwc.
  - rewrite Hp in *. cbn in *. by split.
Qed.

Lemma inv_use s b : intrusive_inv s → use_step (base s) b → intrusive_inv (set_base b (timed s) s).
Proof.
  intros Hs Hu. pose proof Hs as [_ _ Hw Ht Hwc _ _]. apply inv_base; [done|..].
  - intros Hds i p. destruct (use_waiters _ _ Hu) as [He|Ha]; [rewrite He; by apply Hw|]. intros Hi. by destruct (Ha i p).
  - intros i Hi. rewrite (use_keeps_waiters _ _ i Hu). by apply Ht.
  - intros i w Hiw. assert (is_Some (data_condition_variable_ (base s) !! i)) as [w' Hw'] by (rewrite <- (use_keeps_waiters _ _ i Hu); by eexists).
    by eapply Hwc.
Qed.

(** The steps of clients. *)
Lemma inv_register s c : intrusive_inv s → clients s !! c = None → data_condition_variable_ (base s) !! c = None → intrusive_inv (RegisterScopedClient c s).
Proof.
  intros Hs Hi Hj. pose proof Hs as [Hc Hd Hw Htm Hwc Hn Hx]. unfold RegisterScopedClient, RefCounterTryIncrease. destruct (destructing_ s) eqn:Hds; cbn; [done|].
  split; cbn; rewrite ?Hds; try done.
  - rewrite holders_insert_new by done. lia.
  - intros i w Hiw. rewrite lookup_insert_ne; [by eapply Hwc|]. intros <-. congruence.
  - destruct (phase s); cbn in *; try done; lia.
  - intros He. rewrite He in Hd. done.
Qed.

Lemma inv_client_leaves s c : intrusive_inv s → clients s !! c = Some InScope → data_condition_variable_ (base s) !! c = None →
  intrusive_inv (set_client c Decreased (RefCounterDecrease s)).
Proof.
  intros Hs Hi Hj. pose proof Hs as [Hc Hd Hw Htm Hwc Hn Hx]. pose proof (holders_decrease _ _ _ Hi ltac:(done)) as Hh. split; cbn; try done.
  - lia.
  - intros i w Hiw. rewrite lookup_insert_ne; [by eapply Hwc|congruence].
  - intros _. right. exists c. by rewrite lookup_insert_eq.
  - intros He. apply Hx in He. lia.
Qed.

Lemma inv_step s s' : intrusive_step s s' → intrusive_inv s → intrusive_inv s'.
Proof.
  intros Hstep Hs. pose proof Hs as [Hc Hd Hw Htm Hwc Hn Hx]. destruct Hstep as
    [c s Hi Hj Hp|c s Hi|i p s Hm Hi|R i p f s Hm Hi|i p s Hm Hi Ht|R i p f s Hm Hi Ht|R i p w f g s Hm Hi Hp Ht|i b s Hm Hu|c s Hi Hj|c s Hi|s Hp|s Hp|s Hp|s Hp].
  - by apply inv_register.
  - unfold set_client. destruct (cv_notify_one_same s) as (_ & _ & _ & _ & ->). apply inv_notify_one; [done| |by apply holders_update with Increased].
    intros i w Hiw. apply Hwc in Hiw as [Hiw|Hiw]; (rewrite lookup_insert_ne; [auto|]; intros <-; congruence).
  - apply inv_wait; [done..|]. intros [w Hw']%Htm. congruence.
  - by apply inv_wait_for.
  - by apply inv_wait.
  - by apply inv_wait_for.
  - by apply inv_timeout.
  - by apply inv_use.
  - by apply inv_client_leaves.
  - destruct (cv_notify_one_same s) as (_ & _ & _ & _ & Hcl). cbn zeta. rewrite Hcl. apply inv_notify_one; [done| |by apply holders_delete].
    intros i w Hiw. apply Hwc in Hiw. rewrite lookup_delete_ne; [done|]. intros <-. destruct Hiw; congruence.
  - rewrite Hp in *. cbn in *. split; cbn; try done.
    + intros _ i q Hq. by destruct (Notify_all_woken (base s) i q).
    + intros i Hi. rewrite lookup_fmap, fmap_is_Some. by apply Htm.
    + intros i w. rewrite lookup_fmap, fmap_Some. intros (w' & Hw' & _). by eapply Hwc.
  - rewrite Hp in *. cbn in *. split; cbn; try done. lia.
  - unfold cv_notify_one. rewrite Hp in *. cbn in *. by split.
  - assert (ref_count_ s = holders (clients s)) as Hh by by destruct Hp as [Hp|Hp]; rewrite Hp in Hc.
    assert (destructing_ s = true) as Hds by by destruct Hp as [Hp|Hp]; rewrite Hp in Hd.
    unfold final_check. destruct (Nat.ltb_spec 0 (ref_count_ s)); split; cbn; done || lia || auto.
Qed.

Lemma inv_run s s' : intrusive_run s s' → intrusive_inv s → intrusive_inv s'.
Proof. induction 1 as [|s s1 s' [H|H] _ IH]; [done| |]; intros; apply IH; [by eapply inv_step|by eapply inv_spurious]. Qed.

Lemma inv_reachable s : reachable s → intrusive_inv s.
Proof. intros [data H]. eapply inv_run; [done|apply inv_new]. Qed.

(** When the object is gone, the clients have left, but for their last notification. *)
Lemma destroyed_clients s c k : intrusive_inv s → phase s = Destroyed → clients s !! c = Some k → k = Decreased.
Proof. intros [Hc _ _ _ _ _ Hx] Hp. specialize (Hx Hp). rewrite Hp in Hc. cbn in Hc. apply holders_zero. lia. Qed.

Lemma destroyed_waiters s i w : intrusive_inv s → phase s = Destroyed → data_condition_variable_ (base s) !! i = Some w → clients s !! i = None.
Proof. intros Hs Hp [Hi|]%(inv_waiters _ Hs); [|done]. by apply (destroyed_clients s) in Hi. Qed.

(** During the destruction a client can leave, without a wake-up that is not
    notified. *)
Lemma decreased_leaves s c : clients s !! c = Some Decreased → ∃ s', rtc intrusive_step s s' ∧ clients s' = delete c (clients s) ∧ destructing_ s' = destructing_ s.
Proof.
  intros Hc. eexists. split; [eapply rtc_once, (step_client_left c s Hc)|]. cbn.
  by destruct (cv_notify_one_same s) as (_ & _ & -> & _ & ->).
Qed.

Lemma in_scope_leaves s c : intrusive_inv s → destructing_ s = true → clients s !! c = Some InScope →
  ∃ s', rtc intrusive_step s s' ∧ clients s' = delete c (clients s) ∧ destructing_ s' = true.
Proof.
  intros Hs Hd Hc.
  assert (∃ s1, rtc intrusive_step s s1 ∧ clients s1 = clients s ∧ destructing_ s1 = true ∧ data_condition_variable_ (base s1) !! c = None) as (s1 & Hr & Hc1 & Hd1 & Hn).
  { destruct (data_condition_variable_ (base s) !! c) as [w|] eqn:Hw; [|by exists s].
    assert (may_call c s) as Hm by (split; [by left|]; intros He; by apply (destroyed_clients s c _ Hs He) in Hc).
    destruct (decide (c ∈ timed s)) as [Ht|Ht].
    - eexists. split; [eapply rtc_once, (step_intrusive_timeout bool c (predicate_of w) w (λ d, (true, d)) (λ d, (false, d)) s Hm Hw eq_refl Ht)|].
      unfold intrusive_timeout, WaitFor_retval_timeout. destruct (predicate_of w _); cbn; by rewrite lookup_delete_eq.
    - destruct w as [p|p]; [by destruct Ht; apply (inv_woken _ Hs Hd c p)|].
      eexists. split; [eapply rtc_once, (step_intrusive_woken c p s Hm Hw Ht)|]. unfold intrusive_Wait. rewrite Hd. cbn. by rewrite lookup_delete_eq. }
  edestruct (decreased_leaves (set_client c Decreased (RefCounterDecrease s1)) c) as (s2 & Hr2 & Hc2 & Hd2); [cbn; apply lookup_insert_eq|].
  exists s2. split; [|split; [rewrite Hc2; cbn; by rewrite delete_insert_eq, Hc1|by rewrite Hd2]].
  etrans; [exact Hr|]. eapply rtc_l; [|exact Hr2]. apply step_client_leaves; [by rewrite Hc1|done].
Qed.

Lemma client_leaves s c k : intrusive_inv s → destructing_ s = true → clients s !! c = Some k →
  ∃ s', rtc intrusive_step s s' ∧ clients s' = delete c (clients s) ∧ destructing_ s' = true.
Proof.
  intros Hs Hd Hc. destruct k; [|by apply in_scope_leaves|rewrite <- Hd; by apply decreased_leaves].
  pose proof (step_registered c s Hc) as Hstep.
  destruct (in_scope_leaves _ c (inv_step _ _ Hstep Hs)) as (s' & Hr & Hc' & Hd'); [cbn; by destruct (cv_notify_one_same s) as (_ & _ & -> & _)|by cbn; rewrite lookup_insert_eq|].
  exists s'. split; [by eapply rtc_l|]. split; [|done]. rewrite Hc'. cbn. destruct (cv_notify_one_same s) as (_ & _ & _ & _ & ->). by rewrite delete_insert_eq.
Qed.

Lemma inv_steps s s' : rtc intrusive_step s s' → intrusive_inv s → intrusive_inv s'.
Proof. intros H. apply inv_run. eapply rtc_subrel; [|exact H]. by left. Qed.

Lemma clients_leave s : intrusive_inv s → destructing_ s = true → ∃ s', rtc intrusive_step s s' ∧ clients s' = ∅ ∧ destructing_ s' = true.
Proof.
  remember (clients s) as m eqn:Hm. revert s Hm. induction m as [m IH] using (induction_ltof1 _ size). unfold ltof in IH. intros s -> Hs Hd.
  destruct (decide (clients s = ∅)) as [?|[c [k Hc]]%map_choose]; [by exists s|].
  destruct (client_leaves s c k Hs Hd Hc) as (s1 & Hr1 & Hc1 & Hd1).
  destruct (IH (clients s1)) with s1 as (s2 & Hr2 & Hc2 & Hd2); [|done|by eapply inv_steps|done|exists s2; split; [by etrans|done]].
  rewrite Hc1. rewrite <- (insert_delete_id _ _ _ Hc) at 2. rewrite map_size_insert_None by apply lookup_delete_eq. lia.
Qed.

(** With no clients the destructor goes on to its end. *)
Lemma destructor_goes_on s : intrusive_inv s → destructing_ s = true → clients s = ∅ → ∃ s', rtc intrusive_step s s' ∧ phase s' = Destroyed.
Proof.
  intros Hs Hd Hc.
  assert (∀ s, phase s = FinalCheck ∨ phase s = CvWoken → ref_count_ s = 0 → ∃ s', rtc intrusive_step s s' ∧ phase s' = Destroyed) as Hlast.
  { intros s1 Hp H0. eexists. split; [eapply rtc_once, step_final_check, Hp|]. unfold final_check. by rewrite H0. }
  assert (∀ s, phase s = SelfDecreased → ref_count_ s = 0 → ∃ s', rtc intrusive_step s s' ∧ phase s' = Destroyed) as Hself.
  { intros s1 Hp H0. destruct (Hlast (set_phase FinalCheck (cv_notify_one s1))) as (s' & Hr & Hp'); [by left|cbn; by destruct (cv_notify_one_same s1) as (_ & _ & _ & -> & _)|].
    exists s'. split; [|done]. eapply rtc_l; [by apply step_self_notify|done]. }
  destruct Hs as [Hn Hds _ _ _ Hb _]. rewrite Hc in *. destruct (phase s) eqn:Hp; cbn in Hn.
  - rewrite Hd in Hds. by cbn in Hds.
  - destruct (Hself (set_phase SelfDecreased (RefCounterDecrease s))) as (s' & Hr & Hp'); [done|cbn; by rewrite Hn|].
    exists s'. split; [|done]. eapply rtc_l; [by apply step_self_decrease|done].
  - by apply Hself.
  - apply Hlast; auto.
  - destruct (Hb eq_refl) as [H0|[c H0]]; [rewrite Hn in H0; by apply Nat.lt_irrefl in H0|by rewrite lookup_empty in H0].
  - apply Hlast; auto.
  - by exists s.
Qed.

Lemma destruction_ends s : intrusive_inv s → phase s ≠ Alive → ∃ s', rtc intrusive_step s s' ∧ phase s' = Destroyed.
Proof.
  intros Hs Hp. assert (destructing_ s = true) as Hd by (rewrite (inv_destructing _ Hs); by destruct (phase s)).
  destruct (clients_leave s Hs Hd) as (s1 & Hr1 & Hc1 & Hd1).
  destruct (destructor_goes_on s1) as (s2 & Hr2 & Hp2); [by eapply inv_steps|done..|]. exists s2. split; [by etrans|done].
Qed.
End Intrusive.
