(* ===== verification/StreamPublisher.v ===== *)
(** * Who may publish: the publisher of a stream and its hand-over

    The part of [Stream] (stream/stream.h) that decides who can publish:
    [owned_publisher_], [borrowable_publisher_], [Publisher], [BorrowPublisher],
    [BecomeMasterStream], [BecomeFollowingStream] and [RecreatePublisher].  It is
    built on the owned and borrowed objects of OwnedBorrowed.v: the publisher is
    the owned instance, and whoever publishes has borrowed it.

    [RecreatePublisher] runs with [publishing_mutex] locked from its beginning to
    its end, and waits for the borrowers in between, so it takes several steps
    here; every other critical section of the mutex is one step.  Threads outside
    the stream borrow, copy, move and release publishers, and publish. *)

From stdpp Require Import base gmap list relations.
From Stdlib Require Import Lia.
From S2P Require Import Prelude OwnedBorrowed.
Import OwnedBorrowed.

Module StreamPublisher.

Section Definitions.
Context {F E : Type}.
Local Abbreviation world := (OwnedBorrowed.world (T := ()) (F := F)).
Local Abbreviation op := (OwnedBorrowed.op (T := ()) (F := F)).

(** Which of the two callers of [RecreatePublisher]. *)
Inductive becoming :=
| BecomingMaster
| BecomingFollowing.

(** Where [RecreatePublisher] is. *)
Inductive recreate_phase :=
| ReleaseBorrowable
| DestroyOwned
| WaitForBorrowers (l : loc)
| CreateNew.

Record stream := mkStream {
  objects : world;                                        (* the publisher and its borrowers *)
  owned_publisher_ : option object;
  borrowable_publisher_ : option object;
  recreating : option (recreate_phase * becoming);        (* [publishing_mutex] is locked by it *)
  publishing : gset object;                               (* publishers inside a call of [Publish] *)
  published : list E;
}.

Inductive publisher_error :=
| PublisherNotAvailableException
| Step (e : ob_error).

Definition on_objects (o : outcome ob_error world) : outcome publisher_error world :=
  match o with Ok w => Ok w | Throw e => Throw (Step e) end.
Definition blocked_unless (b : bool) : outcome publisher_error () := if b then Ok () else Throw (Step Blocked).

Definition set_objects (w : world) (s : stream) : stream :=
  mkStream w (owned_publisher_ s) (borrowable_publisher_ s) (recreating s) (publishing s) (published s).

(** [publishing_mutex] can be locked. *)
Definition lock (s : stream) : outcome publisher_error () :=
  blocked_unless (bool_decide (recreating s = None)).

(** The objects that only the stream itself can name. *)
Definition private (o : object) (s : stream) : bool :=
  bool_decide (owned_publisher_ s = Some o) || bool_decide (borrowable_publisher_ s = Some o).

(** The constructor of [Stream]. *)
Definition make_stream (owned borrowable : object) : outcome publisher_error stream :=
  w ← on_objects (MakeOwned owned () init);
  w ← on_objects (ConstructBorrowed borrowable owned NoCallback w);
  Ok (mkStream w (Some owned) (Some borrowable) None ∅ []).

Definition IsMasterStream (s : stream) : outcome publisher_error bool :=
  _ ← lock s; Ok (bool_decide (is_Some (borrowable_publisher_ s))).

(** [Publisher()]: a reference to the stream's own borrower. *)
Definition Publisher (s : stream) : outcome publisher_error object :=
  _ ← lock s;
  match borrowable_publisher_ s with
  | Some b => Ok b
  | None => Throw PublisherNotAvailableException
  end.

(** [BorrowPublisher()], into the new object [o]. *)
Definition BorrowPublisher (o : object) (s : stream) : outcome publisher_error stream :=
  _ ← lock s;
  match borrowable_publisher_ s with
  | Some b => w ← on_objects (ConstructBorrowed o b NoCallback (objects s)); Ok (set_objects w s)
  | None => Throw PublisherNotAvailableException
  end.

(** [BecomeMasterStream] and [BecomeFollowingStream] lock the mutex. *)
Definition Become (m : becoming) (s : stream) : outcome publisher_error stream :=
  _ ← lock s;
  Ok (mkStream (objects s) (owned_publisher_ s) (borrowable_publisher_ s) (Some (ReleaseBorrowable, m)) (publishing s)
        (published s)).

(** The end of the scope of a borrower, in one thread: it is unregistered, the
    condition variable is notified if it was the last one, and it is destroyed. *)
Definition drop_borrower (o : object) (w : world) : outcome ob_error world :=
  let before := to_notify w in
  w ← InternalUnRegister o w;
  w ← match to_notify w with
      | l :: rest => if bool_decide (rest = before) then NotifyOne l w else Ok w
      | [] => Ok w
      end;
  DestroyObject o w.

(** The next step of [RecreatePublisher] and of the assignment or the return
    that follows it; [owned] and [borrowed] are the new objects. *)
Definition Recreate (owned borrowed : object) (s : stream) : outcome publisher_error stream :=
  match recreating s with
  | None => Throw (Step Blocked)
  | Some (ReleaseBorrowable, m) =>
      w ← match borrowable_publisher_ s with
          | Some b => on_objects (drop_borrower b (objects s))
          | None => Ok (objects s)
          end;
      Ok (mkStream w (owned_publisher_ s) None (Some (DestroyOwned, m)) (publishing s) (published s))
  | Some (DestroyOwned, m) =>
      match owned_publisher_ s with
      | Some o =>
          match movable_instance_ (objects s) !! o with
          | Some (Some l) =>
              w ← on_objects (DestroyObject o (objects s));
              Ok (mkStream w None (borrowable_publisher_ s) (Some (WaitForBorrowers l, m)) (publishing s) (published s))
          | _ => Throw (Step (Undefined DanglingDereference))
          end
      | None => Ok (mkStream (objects s) None (borrowable_publisher_ s) (Some (CreateNew, m)) (publishing s) (published s))
      end
  | Some (WaitForBorrowers l, m) =>
      w ← on_objects (exec (OpRunDestructor l) (objects s));
      let next := if bool_decide (heap w !! l = None) then CreateNew else WaitForBorrowers l in
      Ok (mkStream w (owned_publisher_ s) (borrowable_publisher_ s) (Some (next, m)) (publishing s) (published s))
  | Some (CreateNew, m) =>
      w ← on_objects (MakeOwned owned () (objects s));
      w ← on_objects (ConstructBorrowed borrowed owned NoCallback w);
      Ok (mkStream w (Some owned) (match m with BecomingMaster => Some borrowed | BecomingFollowing => None end) None
            (publishing s) (published s))
  end.

(** [Publish] is called on a borrowed publisher, ... *)
Definition StartPublish (o : object) (s : stream) : outcome publisher_error stream :=
  _ ← blocked_unless (negb (private o s) && bool_decide (o ∉ publishing s));
  w ← match weak (objects s) !! o with
      | Some w => Ok w
      | None => Throw (Step (Undefined DanglingDereference))
      end;
  _ ← blocked_unless (bool_decide (is_Some (p_actual_instance_ w) ∧ key_ w ≠ 0));
  Ok (mkStream (objects s) (owned_publisher_ s) (borrowable_publisher_ s) (recreating s) ({[ o ]} ∪ publishing s) (published s)).

(** ... and goes on when it has [publishing_mutex]. *)
Definition FinishPublish (o : object) (e : E) (s : stream) : outcome publisher_error stream :=
  _ ← blocked_unless (bool_decide (o ∈ publishing s));
  _ ← lock s;
  _ ← match Dereference o (objects s) with Ok _ => Ok () | Throw err => Throw (Step err) end;
  Ok (mkStream (objects s) (owned_publisher_ s) (borrowable_publisher_ s) (recreating s) (publishing s ∖ {[ o ]})
        (published s ++ [e])).

(** What threads outside the stream do with the publishers they have borrowed;
    a publisher inside a call is not touched. *)
Definition outside (a : op) (s : stream) : bool :=
  let free o := negb (private o s) && bool_decide (o ∉ publishing s) in
  match a with
  | OpBorrow o rhs _ => free o && negb (private rhs s)
  | OpBorrowByMove o rhs _ | OpAssign o rhs _ => free o && free rhs
  | OpRelease o | OpDestroy o => free o
  | OpNotify _ => true
  | _ => false
  end.

Definition Outside (a : op) (s : stream) : outcome publisher_error stream :=
  _ ← blocked_unless (outside a s);
  w ← on_objects (exec a (objects s));
  Ok (set_objects w s).

Inductive stream_op :=
| DoBorrowPublisher (o : object)
| DoBecome (m : becoming)
| DoRecreate (owned borrowed : object)
| DoStartPublish (o : object)
| DoFinishPublish (o : object) (e : E)
| DoOutside (a : op).

Definition run_op (a : stream_op) (s : stream) : outcome publisher_error stream :=
  match a with
  | DoBorrowPublisher o => BorrowPublisher o s
  | DoBecome m => Become m s
  | DoRecreate owned borrowed => Recreate owned borrowed s
  | DoStartPublish o => StartPublish o s
  | DoFinishPublish o e => FinishPublish o e s
  | DoOutside a => Outside a s
  end.

Definition publisher_step (s s' : stream) : Prop := ∃ a, run_op a s = Ok s'.

Fixpoint run_ops (l : list stream_op) (s : stream) : outcome publisher_error stream :=
  match l with
  | [] => Ok s
  | a :: l => s ← run_op a s; run_ops l s
  end.

(** ** At most one publisher exists *)

(** The instances that exist, and who owns them, stay the same. *)
Definition same_instances (w w' : world) : Prop :=
  (∀ l, is_Some (heap w' !! l) ↔ is_Some (heap w !! l)) ∧ movable_instance_ w' = movable_instance_ w.

Lemma same_insert l x y (w : world) : heap w !! l = Some x → ∀ l', is_Some (<[l := y]> (heap w) !! l') ↔ is_Some (heap w !! l').
Proof. intros Hx l'. rewrite lookup_insert. case_decide; [|done]. subst. rewrite Hx. split; eauto. Qed.

Lemma borrow_same o rhs cb (w w' : world) : ConstructBorrowed o rhs cb w = Ok w' → same_instances w w'.
Proof.
  unfold ConstructBorrowed. destruct (fresh_object o w) as [[]|]; [|done]. simpl.
  destruct (deref rhs w) as [[[v l] x]|] eqn:Hd; [|done]. apply deref_inv in Hd as (_ & _ & Hx). simpl. intros [= <-].
  split; [|done]. simpl. by eapply same_insert.
Qed.

Lemma move_same o rhs cb (w w' : world) : MoveFrom o rhs cb w = Ok w' → same_instances w w'.
Proof.
  unfold MoveFrom. destruct (deref rhs w) as [[[v l] x]|] eqn:Hd; [|done]. apply deref_inv in Hd as (_ & _ & Hx). simpl. intros [= <-].
  split; [|done]. simpl. by eapply same_insert.
Qed.

Lemma release_same o (w w' : world) : InternalUnRegister o w = Ok w' → same_instances w w'.
Proof.
  unfold InternalUnRegister, is_borrower, UnRegisterBorrower. intros He. open_ok.
  destruct (key_ _ =? 0)%nat; open_ok; [done|]. case_bool_decide; (split; [|done]); simpl; by eapply same_insert.
Qed.

Lemma destroy_same o (w w' : world) : movable_instance_ w !! o = None → DestroyObject o w = Ok w' → same_instances w w'.
Proof.
  unfold DestroyObject. intros Hm He. rewrite Hm in He. open_ok. split; [done|]. simpl. by rewrite delete_id.
Qed.

Lemma outside_same a s w' :
  (∀ o m, movable_instance_ (objects s) !! o = Some m → owned_publisher_ s = Some o) →
  outside a s = true → exec a (objects s) = Ok w' → same_instances (objects s) w'.
Proof.
  intros Hown Ho He. unfold exec in He. destruct (guard _) as [[]|]; [|done]. simpl in He.
  assert (∀ o, private o s = false → movable_instance_ (objects s) !! o = None) as Hpriv.
  { intros o Hp. destruct (movable_instance_ (objects s) !! o) as [m|] eqn:Hm; [|done]. apply Hown in Hm.
    unfold private in Hp. rewrite Hm, bool_decide_eq_true_2 in Hp by done. done. }
  destruct a; simpl in He, Ho; try done.
  - by eapply borrow_same.
  - unfold ConstructBorrowedByMove in He. destruct (fresh_object o (objects s)) as [[]|]; [|done]. by eapply move_same.
  - unfold AssignBorrowed in He. open_ok. by eapply move_same.
  - by eapply release_same.
  - unfold NotifyOne in He. by open_ok.
  - eapply destroy_same; [|done]. apply Hpriv. by destruct (private o s).
Qed.

Record pub_inv (s : stream) : Prop := {
  pub_objects : ob_inv (objects s);
  pub_owned : ∀ o, owned_publisher_ s = Some o → ∃ l, movable_instance_ (objects s) !! o = Some (Some l) ∧
    ∀ l', is_Some (heap (objects s) !! l') → l' = l;
  pub_owner : ∀ o m, movable_instance_ (objects s) !! o = Some m → owned_publisher_ s = Some o;
  pub_borrowable : ∀ b, borrowable_publisher_ s = Some b → movable_instance_ (objects s) !! b = None;
  pub_phase :
    match recreating s with
    | None | Some (ReleaseBorrowable, _) | Some (DestroyOwned, _) => is_Some (owned_publisher_ s)
    | Some (WaitForBorrowers l, _) => owned_publisher_ s = None ∧ ∀ l', is_Some (heap (objects s) !! l') → l' = l
    | Some (CreateNew, _) => owned_publisher_ s = None ∧ ∀ l', heap (objects s) !! l' = None
    end;
}.

Lemma pub_inv_same s w : pub_inv s → ob_inv w → same_instances (objects s) w → pub_inv (set_objects w s).
Proof.
  intros [H1 H2 H3 H4 H5] Hw [Hh Hm]. split; simpl; rewrite ?Hm; [done| |done|done|].
  - intros o Ho. destruct (H2 o Ho) as (l & Hl & Hall). exists l. split; [done|]. intros l' Hl'. by apply Hall, Hh.
  - destruct (recreating s) as [[[]]|]; try done.
    + destruct H5 as [? H5]. split; [done|]. intros l' Hl'. by apply H5, Hh.
    + destruct H5 as [? H5]. split; [done|]. intros l'. specialize (H5 l'). destruct (heap w !! l') eqn:Hl'; [|done].
      destruct (proj1 (Hh l')) as [x Hx]; [by eexists|]. congruence.
Qed.

Lemma drop_borrower_ok o (w w' : world) :
  ob_inv w → movable_instance_ w !! o = None → drop_borrower o w = Ok w' → ob_inv w' ∧ same_instances w w'.
Proof.
  unfold drop_borrower. intros H Hm He. destruct (InternalUnRegister o w) as [w1|] eqn:H1; [|done]. simpl in He.
  pose proof (InternalUnRegister_inv o w w1 H H1) as Hi1. pose proof (release_same o w w1 H1) as [Hh1 Hm1].
  assert (∃ w2, DestroyObject o w2 = Ok w' ∧ ob_inv w2 ∧ same_instances w1 w2) as (w2 & H2 & Hi2 & Hh2 & Hm2).
  { destruct (to_notify w1) as [|l rest]; [by exists w1|]. case_bool_decide; [|by exists w1].
    unfold NotifyOne in He. open_ok. eexists. split; [done|]. split; [by apply set_notify_inv|done]. }
  destruct (destroy_same o w2 w') as [Hh3 Hm3]; [congruence|done|].
  split; [by eapply DestroyObject_inv|]. split; [|congruence]. intros l. by rewrite Hh3, Hh2, Hh1.
Qed.

Lemma run_destructor_dom l (w w' : world) :
  RunDestructor l w = Ok w' → movable_instance_ w' = movable_instance_ w ∧
  ∀ l', is_Some (heap w' !! l') → is_Some (heap w !! l').
Proof.
  unfold RunDestructor. destruct (destructors w !! l) as [st|]; [|done]. simpl. intros He. open_ok.
  destruct st as [|[|[? ?] ?]|]; open_ok; (split; [done|]); [done..|]. intros l' [x Hx]. apply lookup_delete_Some in Hx as [_ Hx]. eauto.
Qed.

Lemma create_new_ok owned borrowed (w0 w1 w2 : world) :
  ob_inv w0 → (∀ l, heap w0 !! l = None) → (∀ o m, movable_instance_ w0 !! o = Some m → False) →
  MakeOwned owned () w0 = Ok w1 → ConstructBorrowed borrowed owned NoCallback w1 = Ok w2 →
  ob_inv w2 ∧ movable_instance_ w2 = {[ owned := Some (next_loc w0) ]} ∧
  (∀ l', is_Some (heap w2 !! l') → l' = next_loc w0) ∧
  (∀ o w l, weak w2 !! o = Some w → p_actual_instance_ w = Some l → o = owned ∨ o = borrowed).
Proof.
  intros H Hempty Hnone H1 H2. pose proof (MakeOwned_inv _ _ _ _ H H1) as Hi1. pose proof (ConstructBorrowed_inv _ _ _ _ _ Hi1 H2) as Hi2.
  destruct (borrow_same _ _ _ _ _ H2) as [Hh Hm].
  assert (w1 = mkWorld (<[next_loc w0 := make_UniqueInstance ()]> (heap w0)) (S (next_loc w0))
     (<[owned := mkWeak (Some (next_loc w0)) 0]> (weak w0)) (<[owned := Some (next_loc w0)]> (movable_instance_ w0))
     (destructors w0) (to_notify w0) (called w0) (exited w0)) as Hw1.
  { unfold MakeOwned in H1. by open_ok. }
  split_and!; [done| | |].
  - rewrite Hm, Hw1. simpl. apply map_eq. intros o. rewrite lookup_insert, lookup_singleton. case_decide; [done|].
    destruct (movable_instance_ w0 !! o) eqn:Ho; [|done]. by destruct (Hnone o _ Ho).
  - intros l' Hl'. apply Hh in Hl'. rewrite Hw1 in Hl'. simpl in Hl'. rewrite lookup_insert in Hl'. case_decide; [done|].
    rewrite Hempty in Hl'. by destruct Hl'.
  - intros o w l Hw Hp. destruct (decide (o = owned)) as [|Hno]; [by left|]. destruct (decide (o = borrowed)) as [|Hnb]; [by right|].
    exfalso. unfold ConstructBorrowed in H2. destruct (fresh_object borrowed w1) as [[]|]; [|done]. simpl in H2.
    destruct (deref owned w1) as [[[v l1] x]|]; [|done]. simpl in H2. injection H2 as <-. simpl in Hw.
    rewrite lookup_insert_ne in Hw by done. rewrite Hw1 in Hw. simpl in Hw. rewrite lookup_insert_ne in Hw by done.
    destruct (inv_alive w0 o w l) as [y Hy]; [done..|]. by rewrite Hempty in Hy.
Qed.

Lemma recreate_inv owned borrowed s s' : pub_inv s → Recreate owned borrowed s = Ok s' → pub_inv s'.
Proof.
  intros H He. pose proof H as [H1 H2 H3 H4 H5]. unfold Recreate in He.
  destruct (recreating s) as [[ph m]|] eqn:Hr; [|done]. destruct ph as [| |l|].
  - destruct (borrowable_publisher_ s) as [b|] eqn:Hb.
    + destruct (drop_borrower b (objects s)) as [w|] eqn:Hd; [|done]. simpl in He. injection He as <-.
      destruct (drop_borrower_ok b (objects s) w) as [Hi Hs]; [done|by apply H4|done|].
      pose proof (pub_inv_same s w H Hi Hs) as [P1 P2 P3 P4 P5]. simpl in *. rewrite Hr in P5. by split.
    + simpl in He. injection He as <-. by split.
  - destruct (owned_publisher_ s) as [o|] eqn:Ho; [|by destruct H5].
    destruct (H2 o eq_refl) as (l & Hl & Hall). rewrite Hl in He.
    destruct (DestroyObject o (objects s)) as [w|] eqn:Hd; [|done]. simpl in He. injection He as <-.
    pose proof (DestroyObject_inv _ _ _ H1 Hd) as Hi. unfold DestroyObject, StartDestructor in Hd. rewrite Hl in Hd. open_ok.
    split; simpl; [done|done| | |].
    + intros o' m'. rewrite lookup_delete. case_decide; [done|]. intros Ho'. apply H3 in Ho'. congruence.
    + intros b Hb. rewrite lookup_delete. case_decide; [done|]. by apply H4.
    + split; [done|]. intros l'. rewrite lookup_insert. case_decide; [done|]. by apply Hall.
  - destruct H5 as [Ho Hall]. destruct (exec (OpRunDestructor l) (objects s)) as [w|] eqn:Hx; [|done]. simpl in He. injection He as <-.
    pose proof (ob_exec_inv _ _ _ H1 Hx) as Hi. unfold exec in Hx. destruct (guard _) as [[]|]; [|done]. simpl in Hx.
    destruct (run_destructor_dom l (objects s) w Hx) as [Hm Hdom].
    split; simpl; rewrite ?Hm; [done|congruence|done|done|]. case_bool_decide as Hn; (split; [done|]); intros l'.
    + destruct (heap w !! l') eqn:Hl'; [|done]. assert (l' = l) as -> by (apply Hall, Hdom; by eexists). congruence.
    + intros Hl'. by apply Hall, Hdom.
  - destruct H5 as [Ho Hempty]. destruct (MakeOwned owned () (objects s)) as [w1|] eqn:E1; [|done]. simpl in He.
    destruct (ConstructBorrowed borrowed owned NoCallback w1) as [w2|] eqn:E2; [|done]. simpl in He. injection He as <-.
    destruct (create_new_ok owned borrowed (objects s) w1 w2) as (Hi & Hm & Hh & _); [done|done| |done|done|].
    { intros o m' Hm'. apply H3 in Hm'. congruence. }
    split; simpl; rewrite ?Hm; [done| | | |by eexists].
    + intros o [= <-]. exists (next_loc (objects s)). by rewrite lookup_singleton_eq.
    + intros o m' [-> _]%lookup_singleton_Some. done.
    + intros b Hb. destruct m; simplify_eq. rewrite lookup_singleton_ne; [done|]. intros <-.
      assert (weak w1 !! owned ≠ None) as Hne. { unfold MakeOwned in E1. open_ok. by rewrite lookup_insert_eq. }
      unfold ConstructBorrowed, fresh_object in E2. by destruct (weak w1 !! owned).
Qed.

Lemma run_op_inv a s s' : pub_inv s → run_op a s = Ok s' → pub_inv s'.
Proof.
  intros H He. destruct a; simpl in He.
  - unfold BorrowPublisher in He. destruct (lock s) as [[]|]; [|done]. simpl in He. destruct (borrowable_publisher_ s) as [b|]; [|done].
    destruct (ConstructBorrowed o b NoCallback (objects s)) as [w|] eqn:Hc; [|done]. simpl in He. injection He as <-.
    apply pub_inv_same; [done| |by eapply borrow_same]. eapply ConstructBorrowed_inv; [apply H|done].
  - unfold Become, lock in He. case_bool_decide as Hr; [|done]. simpl in He. injection He as <-.
    destruct H as [H1 H2 H3 H4 H5]. rewrite Hr in H5. by split.
  - by eapply recreate_inv.
  - unfold StartPublish in He. destruct (blocked_unless _) as [[]|]; [|done]. simpl in He.
    destruct (weak (objects s) !! o); [|done]. simpl in He. destruct (blocked_unless _) as [[]|]; [|done]. simpl in He.
    injection He as <-. by destruct H.
  - unfold FinishPublish in He. destruct (blocked_unless _) as [[]|]; [|done]. simpl in He. destruct (lock s) as [[]|]; [|done].
    simpl in He. destruct (Dereference o (objects s)); [|done]. simpl in He. injection He as <-. by destruct H.
  - unfold Outside in He. destruct (outside a s) eqn:Ho; [|done]. simpl in He.
    destruct (exec a (objects s)) as [w|] eqn:Hx; [|done]. simpl in He. injection He as <-.
    apply pub_inv_same; [done|eapply ob_exec_inv; [apply H|done]|]. eapply outside_same; [apply H|done..].
Qed.

Lemma make_stream_inv owned borrowable s : make_stream owned borrowable = Ok s → pub_inv s.
Proof.
  unfold make_stream. destruct (MakeOwned owned () init) as [w1|] eqn:E1; [|done]. simpl.
  destruct (ConstructBorrowed borrowable owned NoCallback w1) as [w2|] eqn:E2; [|done]. simpl. intros [= <-].
  destruct (create_new_ok owned borrowable init w1 w2) as (Hi & Hm & Hh & _); [apply init_inv|done|done|done|done|].
  split; simpl; rewrite ?Hm; [done| | | |by eexists].
  - intros o [= <-]. exists 0. by rewrite lookup_singleton_eq.
  - by intros o m' [-> _]%lookup_singleton_Some.
  - intros b [= <-]. rewrite lookup_singleton_ne; [done|]. intros <-.
    assert (weak w1 !! owned ≠ None) as Hne. { unfold MakeOwned in E1. open_ok. by rewrite lookup_insert_eq. }
    unfold ConstructBorrowed, fresh_object in E2. by destruct (weak w1 !! owned).
Qed.

Lemma publisher_reachable_inv owned borrowable s0 s :
  make_stream owned borrowable = Ok s0 → rtc publisher_step s0 s → pub_inv s.
Proof.
  intros H0 Hr. assert (pub_inv s0) as H by by eapply make_stream_inv. clear H0.
  induction Hr as [|s1 s2 s3 [a Ha] _ IH]; [done|]. apply IH. by eapply run_op_inv.
Qed.

(** When the new publisher has been made, nobody else can publish. *)
Lemma recreated_exclusive owned borrowed m s s' :
  pub_inv s → recreating s = Some (CreateNew, m) → Recreate owned borrowed s = Ok s' →
  ∀ o w l, weak (objects s') !! o = Some w → p_actual_instance_ w = Some l → o = owned ∨ o = borrowed.
Proof.
  intros [H1 H2 H3 H4 H5] Hr He. unfold Recreate in He. rewrite Hr in He, H5. destruct H5 as [Ho Hempty].
  destruct (MakeOwned owned () (objects s)) as [w1|] eqn:E1; [|done]. simpl in He.
  destruct (ConstructBorrowed borrowed owned NoCallback w1) as [w2|] eqn:E2; [|done]. simpl in He. injection He as <-.
  eapply create_new_ok; [done|done| |done|done]. intros o m' Hm'. apply H3 in Hm'. congruence.
Qed.

(** ** A publisher that waits for the mutex *)

(** [RecreatePublisher] holds the mutex and waits, and [h] is inside a call of
    [Publish]. *)
Definition stuck_on (h : object) (s : stream) : Prop :=
  (∃ ph m, recreating s = Some (ph, m) ∧ ph ≠ CreateNew) ∧ h ∈ publishing s ∧ private h s = false ∧
  ∃ w, weak (objects s) !! h = Some w ∧ movable_instance_ (objects s) !! h = None ∧
       is_Some (p_actual_instance_ w) ∧ key_ w ≠ 0.

Lemma destroy_keeps o h (w w' : world) : o ≠ h → DestroyObject o w = Ok w' →
  weak w' !! h = weak w !! h ∧ (movable_instance_ w !! h = None → movable_instance_ w' !! h = None).
Proof.
  unfold DestroyObject, StartDestructor. intros Hne He. open_ok.
  destruct (movable_instance_ w !! o) as [[l|]|]; open_ok; rewrite !lookup_delete_ne by done; done.
Qed.

Lemma release_keeps o h (w w' : world) : o ≠ h → InternalUnRegister o w = Ok w' → weak w' !! h = weak w !! h.
Proof.
  unfold InternalUnRegister, is_borrower, UnRegisterBorrower. intros Hne He. open_ok.
  destruct (key_ _ =? 0)%nat; open_ok; [by rewrite lookup_insert_ne|].
  case_bool_decide; simpl; by rewrite lookup_insert_ne.
Qed.

Lemma drop_keeps o h (w w' : world) : o ≠ h → drop_borrower o w = Ok w' → weak w' !! h = weak w !! h.
Proof.
  unfold drop_borrower. intros Hne He. destruct (InternalUnRegister o w) as [w1|] eqn:H1; [|done]. simpl in He.
  rewrite <- (release_keeps o h w w1 Hne H1). destruct (to_notify w1) as [|l rest].
  - by apply (destroy_keeps o h w1 w').
  - case_bool_decide; [|by apply (destroy_keeps o h w1 w')]. unfold NotifyOne in He. open_ok.
    by destruct (destroy_keeps o h (set_notify (remove_one l (to_notify w1)) w1) w').
Qed.

Lemma move_keeps o rhs cb h (w w' : world) : o ≠ h → rhs ≠ h → MoveFrom o rhs cb w = Ok w' → weak w' !! h = weak w !! h.
Proof.
  unfold MoveFrom. intros Ho Hr He. destruct (deref rhs w) as [[[v l] x]|]; [|done]. simpl in He. injection He as <-.
  simpl. by rewrite !lookup_insert_ne.
Qed.

Lemma borrow_keeps o rhs cb h (w w' : world) :
  is_Some (weak w !! h) → ConstructBorrowed o rhs cb w = Ok w' → weak w' !! h = weak w !! h.
Proof.
  unfold ConstructBorrowed, fresh_object. intros [v Hv] He. destruct (weak w !! o) eqn:Ho; [done|]. simpl in He.
  destruct (deref rhs w) as [[[u l] x]|]; [|done]. simpl in He. injection He as <-. simpl. rewrite lookup_insert_ne; [done|]. congruence.
Qed.

Lemma outside_keeps a s h w' :
  outside a s = true → h ∈ publishing s → is_Some (weak (objects s) !! h) → exec a (objects s) = Ok w' →
  weak w' !! h = weak (objects s) !! h.
Proof.
  intros Ho Hh Hw He. unfold exec in He. destruct (guard _) as [[]|]; [|done]. simpl in He.
  assert (∀ o, negb (private o s) && bool_decide (o ∉ publishing s) = true → o ≠ h) as Hfree.
  { intros o [_ Hn%bool_decide_eq_true]%andb_true_iff. by intros ->. }
  destruct a; simpl in He, Ho; try done.
  - by eapply borrow_keeps.
  - apply andb_true_iff in Ho as [Ho1 Ho2]. unfold ConstructBorrowedByMove in He.
    destruct (fresh_object o (objects s)) as [[]|]; [|done]. apply (move_keeps o rhs cb h (objects s) w'); auto.
  - apply andb_true_iff in Ho as [Ho1 Ho2]. unfold AssignBorrowed in He. open_ok. apply (move_keeps o rhs cb h (objects s) w'); auto.
  - apply (release_keeps o h (objects s) w'); auto.
  - unfold NotifyOne in He. by open_ok.
  - apply (destroy_keeps o h (objects s) w'); auto.
Qed.

Lemma stuck_private h s o : stuck_on h s → owned_publisher_ s = Some o ∨ borrowable_publisher_ s = Some o → o ≠ h.
Proof.
  intros (_ & _ & Hp & _) Ho ->. unfold private in Hp.
  destruct Ho as [Ho|Ho]; rewrite Ho, (bool_decide_eq_true_2 (Some h = Some h)) in Hp by done; by rewrite ?orb_true_r in Hp.
Qed.

(** The destructor of the publisher cannot end while [h] is registered. *)
Lemma stuck_destructor h l m s w' :
  pub_inv s → stuck_on h s → recreating s = Some (WaitForBorrowers l, m) → exec (OpRunDestructor l) (objects s) = Ok w' →
  weak w' = weak (objects s) ∧ movable_instance_ w' = movable_instance_ (objects s) ∧ heap w' !! l ≠ None.
Proof.
  intros Hinv (_ & _ & _ & w & Hw & Hm & [lw Hpw] & _) Hr He. pose proof (pub_phase s Hinv) as Hph. rewrite Hr in Hph.
  destruct (inv_borrower _ (pub_objects s Hinv) h w lw) as (x & Hx & Hb); [done..|].
  assert (lw = l) as -> by (apply Hph; by eexists). unfold exec in He. destruct (guard _) as [[]|]; [|done]. simpl in He.
  unfold RunDestructor in He. destruct (destructors (objects s) !! l) as [st|]; [|done]. simpl in He. rewrite Hx in He. simpl in He.
  destruct st as [|[|[? ?] ?]|]; simpl in He; [injection He as <-; simpl; by rewrite Hx..|].
  case_bool_decide as Hempty; [|done]. rewrite Hempty, lookup_empty in Hb. by destruct Hb.
Qed.

Lemma stuck_recreate h owned borrowed s s' :
  pub_inv s → stuck_on h s → Recreate owned borrowed s = Ok s' → stuck_on h s'.
Proof.
  intros Hinv Hst He. pose proof (stuck_private h s) as Hpriv. pose proof Hst as ((ph & m & Hr & Hph) & Hh & Hp & w & Hw & Hm & Hpw & Hk).
  unfold private in Hp. apply orb_false_iff in Hp as [Hp1 Hp2]. unfold Recreate in He. rewrite Hr in He.
  assert (∀ w' own ph' bor, weak w' !! h = Some w → movable_instance_ w' !! h = None → ph' ≠ CreateNew →
            own ≠ Some h → bor ≠ Some h → stuck_on h (mkStream w' own bor (Some (ph', m)) (publishing s) (published s))) as Hmk.
  { intros w' own ph' bor Hw' Hm' Hph' Hown Hbor. unfold stuck_on, private. simpl.
    rewrite !bool_decide_eq_false_2 by done. split; [by eexists _, _|]. eauto 10. }
  apply bool_decide_eq_false in Hp1, Hp2. destruct ph as [| |l|]; [| | |done].
  - destruct (borrowable_publisher_ s) as [b|] eqn:Hb; [|simpl in He; injection He as <-; by apply Hmk].
    destruct (drop_borrower b (objects s)) as [w'|] eqn:Hd; [|done]. simpl in He. injection He as <-.
    destruct (drop_borrower_ok b (objects s) w') as [_ [_ Hm']]; [apply Hinv|by apply Hinv|done|].
    apply Hmk; [|by rewrite Hm'|done..]. rewrite (drop_keeps b h (objects s) w'); [done|by apply Hpriv; [|right]|done].
  - destruct (owned_publisher_ s) as [o|] eqn:Ho; [|pose proof (pub_phase s Hinv) as Hph'; rewrite Hr, Ho in Hph'; by destruct Hph'].
    destruct (movable_instance_ (objects s) !! o) as [[l|]|]; [|done..].
    destruct (DestroyObject o (objects s)) as [w'|] eqn:Hd; [|done]. simpl in He. injection He as <-.
    destruct (destroy_keeps o h (objects s) w') as [Hw' Hm']; [by apply Hpriv; [|left]|done|].
    apply Hmk; [by rewrite Hw'|by apply Hm'|done..].
  - destruct (exec (OpRunDestructor l) (objects s)) as [w'|] eqn:Hx; [|done]. simpl in He. injection He as <-.
    destruct (stuck_destructor h l m s w') as (Hw' & Hm' & Hl); [done..|].
    rewrite bool_decide_eq_false_2 by done. by apply Hmk; rewrite ?Hw', ?Hm'.
Qed.

Lemma stuck_step h a s s' : pub_inv s → stuck_on h s → run_op a s = Ok s' → stuck_on h s'.
Proof.
  intros Hinv Hst He. pose proof Hst as ((ph & m & Hr & Hph) & Hh & Hp & w & Hw & Hm & Hpw & Hk).
  assert (lock s = Throw (Step Blocked)) as Hlock by (unfold lock; rewrite bool_decide_eq_false_2; [done|congruence]).
  destruct a; simpl in He.
  - unfold BorrowPublisher in He. by rewrite Hlock in He.
  - unfold Become in He. by rewrite Hlock in He.
  - by eapply stuck_recreate.
  - unfold StartPublish in He. destruct (blocked_unless _) as [[]|]; [|done]. simpl in He.
    destruct (weak (objects s) !! o); [|done]. simpl in He. destruct (blocked_unless _) as [[]|]; [|done]. simpl in He.
    injection He as <-. split; [by eexists _, _|]. simpl. split; [set_solver|]. split; [done|]. by exists w.
  - unfold FinishPublish in He. destruct (blocked_unless _) as [[]|]; [|done]. simpl in He. by rewrite Hlock in He.
  - unfold Outside in He. destruct (outside a s) eqn:Ho; [|done]. simpl in He.
    destruct (exec a (objects s)) as [w'|] eqn:Hx; [|done]. simpl in He. injection He as <-.
    destruct (outside_same a s w') as [_ Hm']; [apply Hinv|done..|].
    split; [by eexists _, _|]. simpl. split; [done|]. split; [done|]. exists w.
    rewrite (outside_keeps a s h w'), Hm' by (done || by eexists). done.
Qed.

Lemma stuck_forever h s s' : pub_inv s → stuck_on h s → rtc publisher_step s s' → stuck_on h s'.
Proof.
  intros H Hs Hr. induction Hr as [|s1 s2 s3 [a Ha] _ IH]; [done|]. apply IH; [by eapply run_op_inv|by eapply stuck_step].
Qed.
End Definitions.
End StreamPublisher.
