(* ===== verification/RemoteStream.v ===== *)
(** * The URLs of a remote stream: stream/replicator.h

    [RemoteStream] makes the URLs a follower sends to the stream it follows:
    to subscribe, to terminate the subscription and to become the master.  The
    parser of the receiving side (Url.v, PubSub.v) is shown to read from them what
    was put in. *)

From Stdlib Require Import ZArith NArith Lia Ascii String.
From stdpp Require Import base gmap list strings.
From S2P Require Import Prelude Time Persistence Decimal Strings Url PubSub.
Open Scope Z_scope.

Import Url.

Module RemoteStream.

#[local] Arguments digits : simpl never.

(** [current::ToString] of a [uint64_t], and of the count of microseconds. *)
Definition ToString_uint64 (n : N) : bytes := strip_zeroes (digits 20 (Z.of_N n)).

Definition ToString_int64 (z : Z) : bytes :=
  if z <? 0 then "-"%char :: strip_zeroes (digits 19 (- z)) else strip_zeroes (digits 19 z).

Inductive SubscriptionMode := Checked | Unchecked.

Definition GetURLToSubscribe (url_ : bytes) (index : N) (from_us : microseconds) (mode : SubscriptionMode) : bytes :=
  url_ ++ str "?i=" ++ ToString_uint64 index ++ (match mode with Checked => str "&checked" | Unchecked => [] end) ++
    (if 0 <? from_us then str "&since=" ++ ToString_int64 from_us else []).

Definition GetURLToTerminate (url_ subscription_id : bytes) : bytes := url_ ++ str "?terminate=" ++ subscription_id.

Definition GetFlipToMasterURL (url_ : bytes) (head_idxts : head_optidxts_t) (key : N) (now : microseconds)
    (mode : SubscriptionMode) : bytes :=
  let opt := match hd_idxts head_idxts with Some i => str "i=" ++ ToString_uint64 (index i) | None => [] end in
  let opt := opt ++ str "&head=" ++ ToString_int64 (hd_head head_idxts) in
  url_ ++ str "/control/flip_to_master?" ++ opt ++ str "&key=" ++ ToString_uint64 key ++
    str "&clock=" ++ ToString_int64 now ++ (match mode with Checked => str "&checked" | Unchecked => [] end).

(** The request the receiving side sees. *)
Definition request_of (url : bytes) (timestamp : microseconds) : PubSub.Request :=
  PubSub.mkRequest (str "GET") (query (ExtractURLParametersFromURL url).1) [] timestamp.

(** ** Numbers *)

Definition decimal (s : bytes) : Prop := s ≠ [] ∧ Forall (λ c, is_Some (digit_value c)) s.

Lemma printed_decimal n z : n ≠ O → decimal (strip_zeroes (digits n z)) ∧
  read_digits 0 (strip_zeroes (digits n z)) = read_digits 0 (digits n z).
Proof.
  intros Hn. destruct (strip_zeroes_digits (digits n z)) as (Hd & Hne & Hval).
  - apply digits_value.
  - intros Hz%(f_equal length). by rewrite length_digits in Hz.
  - done.
Qed.

Lemma decimal_head s : decimal s → starts_with_digit s = true ∧ leading_spaces s = 0%nat ∧
  ∀ {A} (f g : bytes → A) (h : A),
    match s with "-"%char :: s' => f s' | "+"%char :: s' => g s' | _ => h end = h.
Proof.
  intros [Hne Hd]. destruct s as [|c s]; [done|]. apply Forall_cons in Hd as [Hc _].
  destruct (digit_not_special c Hc) as (Hsp & Hm & Hp & _). simpl. rewrite Hsp. destruct Hc as [d ->].
  split_and!; [done..|]. intros A f g h. destruct c as [[] [] [] [] [] [] [] []]; done.
Qed.

Lemma read_printed n z : n ≠ O → 0 ≤ z < 2 ^ 64 → z < 10 ^ Z.of_nat n →
  PubSub.FromString_uint64 (strip_zeroes (digits n z)) = Z.to_N z.
Proof.
  intros Hn Hz Hlt. destruct (printed_decimal n z Hn) as [Hd Hval].
  unfold PubSub.FromString_uint64. destruct (decimal_head _ Hd) as (Hs & Hl & Hm).
  rewrite Hl, drop_0, Hm, Hs, Hval, read_digits_digits, Z.mod_small by lia.
  by destruct (Z.ltb_spec z (2 ^ 64)); [|lia].
Qed.

Lemma uint64_roundtrip n : (n ≤ no_index)%N → PubSub.FromString_uint64 (ToString_uint64 n) = n.
Proof.
  intros Hn. unfold no_index in Hn. unfold ToString_uint64. rewrite read_printed by lia. lia.
Qed.

(** A time stamp is read as a [uint64_t] by the parser of the request. *)
Lemma microseconds_roundtrip z : 0 ≤ z ≤ int64_max →
  PubSub.to_microseconds (PubSub.FromString_uint64 (ToString_int64 z)) = z.
Proof.
  unfold int64_max. intros Hz. unfold ToString_int64. destruct (Z.ltb_spec z 0); [lia|].
  rewrite read_printed by lia. unfold PubSub.to_microseconds. rewrite Z2N.id by lia.
  by destruct (Z.ltb_spec z (2 ^ 63)); [|lia].
Qed.

Lemma signed_decimal s z sign : decimal s → read_digits 0 s = z → int64_min ≤ sign * z ≤ int64_max →
  read_signed sign s = Some (sign * z).
Proof.
  intros Hd Hr Hz. unfold read_signed. destruct (decimal_head _ Hd) as (-> & _ & _). rewrite Hr.
  destruct (Z.leb_spec int64_min (sign * z)); [|lia]. by destruct (Z.leb_spec (sign * z) int64_max); [|lia].
Qed.

Lemma extract_negative s z : decimal s → read_digits 0 s = z → int64_min ≤ - z ≤ int64_max →
  extract_int64 ("-"%char :: s) = Some (- z).
Proof.
  intros Hd Hr Hz. unfold extract_int64. change (leading_spaces ("-"%char :: s)) with 0%nat. rewrite drop_0.
  rewrite (signed_decimal s z) by (done || lia). done.
Qed.

Lemma int64_roundtrip z : - 10 ^ 18 ≤ z ≤ int64_max → FromString_int64 (ToString_int64 z) = z.
Proof.
  intros Hz. assert (int64_max < 10 ^ Z.of_nat 19 ∧ int64_min < - 10 ^ 18 ∧ 10 ^ 18 < int64_max ∧ 10 ^ Z.of_nat 19 = 10 * 10 ^ 18) as Hc
    by (by vm_compute). unfold FromString_int64, ToString_int64.
  destruct (Z.ltb_spec z 0).
  - destruct (printed_decimal 19 (- z)) as [Hd Hval]; [done|].
    rewrite (extract_negative _ (- z)); [lia|done| |lia]. by rewrite Hval, read_digits_digits, Z.mod_small by lia.
  - destruct (printed_decimal 19 z) as [Hd Hval]; [done|]. unfold extract_int64.
    destruct (decimal_head _ Hd) as (_ & Hl & Hm).
    rewrite Hl, drop_0, Hm, (signed_decimal _ z); [lia|done| |lia].
    by rewrite Hval, read_digits_digits, Z.mod_small by lia.
Qed.

(** ** Query strings *)

(** Text that means itself in a query string. *)
Definition plain : bytes → Prop := none_of ["%"; "+"; "&"; "#"; "="]%char.

Lemma decode_plain s : plain s → DecodeURIComponent s = s.
Proof.
  induction 1 as [|c s Hc _ IH]; simpl; [done|]. rewrite !bool_decide_eq_false_2 by (intros ->; apply Hc; set_solver).
  by rewrite IH.
Qed.

Lemma plain_app s s' : plain s → plain s' → plain (s ++ s').
Proof. intros. by apply Forall_app. Qed.

Lemma plain_digits s : Forall (λ c, is_Some (digit_value c)) s → plain s.
Proof.
  intros Hs. eapply Forall_impl; [exact Hs|]. intros c [d Hd] Hin. simpl in Hd.
  repeat (apply elem_of_cons in Hin as [->|Hin]; [by vm_compute in Hd|]). by apply elem_of_nil in Hin.
Qed.

Lemma plain_uint64 n : plain (ToString_uint64 n).
Proof. destruct (printed_decimal 20 (Z.of_N n)) as [[_ Hd] _]; [done|]. by apply plain_digits. Qed.

Lemma plain_int64 z : plain (ToString_int64 z).
Proof.
  unfold ToString_int64. destruct (z <? 0).
  - constructor; [set_solver|]. destruct (printed_decimal 19 (- z)) as [[_ Hd] _]; [done|]. by apply plain_digits.
  - destruct (printed_decimal 19 z) as [[_ Hd] _]; [done|]. by apply plain_digits.
Qed.

(** A parameter, with or without a value, as it is written and as it is read. *)
Definition parameter_text (p : bytes * option bytes) : bytes :=
  p.1 ++ match p.2 with Some v => "="%char :: v | None => [] end.

Definition parameter_read (p : bytes * option bytes) : bytes * bytes := (p.1, default [] p.2).

Definition parameter_ok (p : bytes * option bytes) : Prop :=
  p.1 ≠ [] ∧ plain p.1 ∧ match p.2 with Some v => plain v | None => True end.

Lemma parameter_parsed p : parameter_ok p → decode_parameter (parse_parameter (parameter_text p)) = parameter_read p.
Proof.
  destruct p as [k [v|]]; intros (Hne & Hk & Hv); simpl in *; unfold parse_parameter, parameter_text; simpl.
  - rewrite index_of_here by (eapply none_of_not_in; [exact Hk|set_solver]).
    unfold substr. rewrite drop_0, take_app_length, Nat.add_1_r.
    change ("="%char :: v) with (["="%char] ++ v). rewrite app_assoc, drop_app_length' by (rewrite length_app; simpl; lia).
    unfold decode_parameter, parameter_read. simpl. by rewrite !decode_plain.
  - rewrite app_nil_r, index_of_None by (eapply none_of_not_in; [exact Hk|set_solver]).
    unfold decode_parameter, parameter_read. simpl. by rewrite decode_plain.
Qed.

Lemma parameter_chars p c : parameter_ok p → c = "&"%char ∨ c = "#"%char → c ∉ parameter_text p.
Proof.
  destruct p as [k v]. intros (_ & Hk & Hv) Hc. simpl in *. unfold parameter_text. simpl.
  assert (∀ s, plain s → c ∉ s) as Hplain.
  { intros s Hs. eapply none_of_not_in; [exact Hs|]. destruct Hc as [->| ->]; set_solver. }
  rewrite elem_of_app. intros [Hin|Hin]; [by apply (Hplain k)|]. destruct v as [v|]; [|by apply elem_of_nil in Hin].
  apply elem_of_cons in Hin as [Hin|Hin]; [destruct Hc; congruence|by apply (Hplain v)].
Qed.

Lemma join_no (c : ascii) fs : c ≠ "&"%char → Forall (λ f, c ∉ f) fs → c ∉ Join fs ["&"%char].
Proof.
  intros Hc Hfs. destruct Hfs as [|f fs Hf Hfs]; [by intros ?%elem_of_nil|]. revert f Hf.
  induction Hfs as [|g fs Hg _ IH]; intros f Hf; [done|]. rewrite Join_cons, !elem_of_app.
  intros [Hin|[Hin|Hin]]; [done|set_solver|by apply (IH g Hg)].
Qed.

(** A list of parameters is read as it was written; empty fields between them do
    not matter. *)
Lemma read_query base (fs : list bytes) ps :
  "?"%char ∉ base → "#"%char ∉ base → fs ≠ [] → Forall parameter_ok ps →
  Forall (λ f, f = [] ∨ f ∈ parameter_text <$> ps) fs →
  List.filter (λ f, negb (bool_decide (f = []))) fs = parameter_text <$> ps →
  query (ExtractURLParametersFromURL (base ++ "?"%char :: Join fs ["&"%char])).1 = QueryParameters (parameter_read <$> ps).
Proof.
  intros Hq Hh Hne Hok Hfs Hfilter.
  assert (∀ c, c = "&"%char ∨ c = "#"%char → Forall (λ f, c ∉ f) fs) as Hclean.
  { intros c Hc. eapply Forall_impl; [exact Hfs|]. intros f [->|Hf]; [by intros ?%elem_of_nil|].
    apply list_elem_of_fmap in Hf as (p & -> & Hp). apply parameter_chars; [|done]. by eapply Forall_forall in Hok. }
  assert ("#"%char ∉ base ++ "?"%char :: Join fs ["&"%char]) as Hno.
  { rewrite elem_of_app, elem_of_cons. intros [?|[?|Hin]]; [done..|]. by eapply join_no in Hin; [..|apply Hclean; by right]. }
  unfold ExtractURLParametersFromURL.
  pose proof (extract_fragment_compose (base ++ "?"%char :: Join fs ["&"%char]) []) as Hfr.
  pose proof (found_question base (Join fs ["&"%char]) []) as Hf. simpl in Hfr, Hf. rewrite app_nil_r in Hfr, Hf.
  rewrite Hfr, Hf by done. simpl.
  pose proof (query_string_at base (Join fs ["&"%char]) []) as Hqs. rewrite app_nil_r in Hqs.
  rewrite Hqs by (rewrite length_app; simpl; lia). f_equal.
  destruct fs as [|f fs]; [done|]. rewrite Split_fields, fields_Join.
  - rewrite (List.filter_ext _ (λ f, negb (bool_decide (f = [])))) by (by intros []).
    rewrite Hfilter, <- !list_fmap_compose. apply list_fmap_ext. intros i p Hp. apply parameter_parsed.
    by eapply Forall_lookup in Hok.
  - by apply bool_decide_eq_true_2.
  - eapply Forall_impl; [exact (Hclean "&"%char ltac:(by left))|]. intros g Hg. apply Forall_forall. intros c Hc.
    apply bool_decide_eq_false_2. by intros ->.
Qed.

(** ** The requests *)

(** Lookups of keys that are given. *)
Ltac evaluate_lookups :=
  repeat match goal with
  | |- context [?q !! str ?k] => let v := eval vm_compute in (q !! str k) in change (q !! str k) with v
  end.

Definition flag (name : bytes) (b : bool) : list (bytes * option bytes) := if b then [(name, None)] else [].

Definition is_checked (mode : SubscriptionMode) : bool := match mode with Checked => true | Unchecked => false end.

Lemma plain_chars s : forallb (λ c, bool_decide (c ∉ ["%"; "+"; "&"; "#"; "="]%char)) s = true → plain s.
Proof.
  intros Hs. apply Forall_forall. intros c Hc. rewrite forallb_forall in Hs.
  apply (bool_decide_eq_true_1 _). apply Hs. by apply list_elem_of_In.
Qed.

Lemma flag_ok name b : name ≠ [] → plain name → Forall parameter_ok (flag name b).
Proof. intros Hn Hp. destruct b; repeat constructor; done. Qed.

Lemma texts_kept ps : Forall parameter_ok ps →
  List.filter (λ f, negb (bool_decide (f = []))) (parameter_text <$> ps) = parameter_text <$> ps.
Proof.
  intros Hok. apply filter_all, Forall_fmap. eapply Forall_impl; [exact Hok|]. intros [k v] (Hne & _). simpl in *.
  unfold parameter_text. simpl. by destruct k.
Qed.

Lemma subscribe_query url_ i from mode ts :
  "?"%char ∉ url_ → "#"%char ∉ url_ →
  PubSub.query (request_of (GetURLToSubscribe url_ i from mode) ts) =
    QueryParameters (parameter_read <$> (str "i", Some (ToString_uint64 i)) :: flag (str "checked") (is_checked mode) ++
      if 0 <? from then [(str "since", Some (ToString_int64 from))] else []).
Proof.
  intros Hq Hh. set (ps := _ :: _). unfold request_of, GetURLToSubscribe. cbn [PubSub.query].
  assert (Forall parameter_ok ps) as Hok.
  { pose proof (plain_uint64 i). pose proof (plain_int64 from).
    constructor; [split_and!; [done|by apply plain_chars|done]|].
    apply Forall_app. split; [apply flag_ok; [done|by apply plain_chars]|].
    destruct (0 <? from); constructor; [|done]. split_and!; [done|by apply plain_chars|done]. }
  rewrite <- (read_query url_ (parameter_text <$> ps) ps); try done.
  - do 4 f_equal. subst ps. generalize (ToString_uint64 i), (ToString_int64 from). intros si sf.
    destruct mode, (0 <? from); cbn [is_checked flag app fmap list_fmap];
      rewrite ?Join_cons; unfold parameter_text; simpl; rewrite ?app_nil_r, <- ?app_assoc; done.
  - apply Forall_forall. by right.
  - by apply texts_kept.
Qed.

(** The parameters the endpoint sees are those of the subscription, and nothing
    else is asked for. *)
Lemma subscribe_params url_ i from mode ts :
  "?"%char ∉ url_ → "#"%char ∉ url_ → (i ≤ no_index)%N → 0 ≤ from ≤ int64_max →
  PubSub.ParsePubSubHTTPRequest (request_of (GetURLToSubscribe url_ i from mode) ts) =
    PubSub.mkParams false false [] false [] 0 from i 0 0 0 false 0 false false (is_checked mode).
Proof.
  intros Hq Hh Hi Hf. pose proof (subscribe_query url_ i from mode ts Hq Hh) as Hquery.
  destruct (request_of (GetURLToSubscribe url_ i from mode) ts) as [me q args t] eqn:Hr.
  unfold request_of in Hr. injection Hr as <- _ <- <-. simpl in Hquery. subst q.
  pose proof (uint64_roundtrip i Hi) as Hri. pose proof (microseconds_roundtrip from Hf) as Hrf.
  generalize dependent (ToString_uint64 i). generalize dependent (ToString_int64 from). intros sf Hsf si Hsi.
  unfold PubSub.ParsePubSubHTTPRequest, PubSub.requested_schema, PubSub.get_number, PubSub.has, PubSub.get.
  destruct mode, (Z.ltb_spec 0 from); cbn [is_checked flag app fmap list_fmap]; evaluate_lookups; simpl; f_equal; try done;
    change (PubSub.to_microseconds 0) with 0; lia.
Qed.

(** *** The request for a flip *)

Definition flip_parameters (head_idxts : head_optidxts_t) (key : N) (now : microseconds) (mode : SubscriptionMode)
    : list (bytes * option bytes) :=
  match hd_idxts head_idxts with Some i => [(str "i", Some (ToString_uint64 (index i)))] | None => [] end ++
  [(str "head", Some (ToString_int64 (hd_head head_idxts))); (str "key", Some (ToString_uint64 key));
   (str "clock", Some (ToString_int64 now))] ++ flag (str "checked") (is_checked mode).

Lemma flip_query url_ head_idxts key now mode ts :
  "?"%char ∉ url_ → "#"%char ∉ url_ →
  PubSub.query (request_of (GetFlipToMasterURL url_ head_idxts key now mode) ts) =
    QueryParameters (parameter_read <$> flip_parameters head_idxts key now mode).
Proof.
  intros Hq Hh. unfold request_of. cbn [PubSub.query]. set (ps := flip_parameters head_idxts key now mode).
  assert (Forall parameter_ok ps) as Hok.
  { unfold ps, flip_parameters. pose proof (plain_uint64 key). pose proof (plain_int64 now).
    pose proof (plain_int64 (hd_head head_idxts)). rewrite !Forall_app. split_and!.
    - destruct (hd_idxts head_idxts) as [i|]; constructor; [|done]. pose proof (plain_uint64 (index i)).
      split_and!; [done|by apply plain_chars|done].
    - do 3 (constructor; [split_and!; [done|by apply plain_chars|done]|]). constructor.
    - apply flag_ok; [done|by apply plain_chars]. }
  set (fs := (match hd_idxts head_idxts with Some _ => [] | None => [[]] end ++ (parameter_text <$> ps)) : list bytes).
  set (base := url_ ++ str "/control/flip_to_master").
  assert (∀ c, c = "?"%char ∨ c = "#"%char → c ∉ url_ → c ∉ base) as Hbase.
  { intros c Hc Hu [?|Hin]%elem_of_app; [done|]. destruct Hc as [-> | ->]; vm_compute in Hin; set_solver. }
  assert (GetFlipToMasterURL url_ head_idxts key now mode = base ++ "?"%char :: Join fs ["&"%char]) as ->.
  { unfold GetFlipToMasterURL, base, fs, ps, flip_parameters. rewrite <- (app_assoc url_). f_equal.
    generalize (ToString_uint64 key), (ToString_int64 now), (ToString_int64 (hd_head head_idxts)). intros sk sn sh.
    destruct (hd_idxts head_idxts) as [i|]; [generalize (ToString_uint64 (index i)); intros si|]; destruct mode;
      cbn [is_checked flag app fmap list_fmap]; rewrite ?Join_cons; unfold parameter_text; simpl; by rewrite ?app_nil_r, <- ?app_assoc. }
  apply (read_query base fs ps).
  - apply Hbase; auto.
  - apply Hbase; auto.
  - unfold fs, ps, flip_parameters. by destruct (hd_idxts head_idxts).
  - done.
  - unfold fs. apply Forall_app. split; [destruct (hd_idxts head_idxts); repeat constructor; by left|].
    apply Forall_forall. by right.
  - unfold fs. rewrite List.filter_app, texts_kept by done. by destruct (hd_idxts head_idxts).
Qed.

Lemma flip_request url_ head_idxts key now mode ts :
  "?"%char ∉ url_ → "#"%char ∉ url_ →
  let r := request_of (GetFlipToMasterURL url_ head_idxts key now mode) ts in
  PubSub.method r = str "GET" ∧
  (PubSub.has "head" r = true ∧ PubSub.get "head" r = ToString_int64 (hd_head head_idxts)) ∧
  (PubSub.has "key" r = true ∧ PubSub.get "key" r = ToString_uint64 key) ∧
  (PubSub.has "clock" r = true ∧ PubSub.get "clock" r = ToString_int64 now) ∧
  PubSub.has "checked" r = is_checked mode ∧
  match hd_idxts head_idxts with
  | Some i => PubSub.has "i" r = true ∧ PubSub.get "i" r = ToString_uint64 (index i)
  | None => PubSub.has "i" r = false
  end.
Proof.
  intros Hq Hh r. pose proof (flip_query url_ head_idxts key now mode ts Hq Hh) as Hquery. fold r in Hquery.
  split; [done|]. unfold PubSub.has, PubSub.get. rewrite Hquery. unfold flip_parameters. clear.
  generalize (ToString_uint64 key), (ToString_int64 now), (ToString_int64 (hd_head head_idxts)). intros sk sn sh.
  destruct (hd_idxts head_idxts) as [i|]; [generalize (ToString_uint64 (index i)); intros si|]; destruct mode;
    cbn [is_checked flag app fmap list_fmap]; evaluate_lookups; done.
Qed.
End RemoteStream.
