(* ===== verification/Replicator.v ===== *)
(** * Replication: stream/replicator.h

    A follower subscribes to a remote stream over HTTP and publishes what it
    receives into a local stream.  [RemoteStreamSubscriber] cuts the chunks of
    the response into lines and passes each to the subscriber;
    [RemoteSubscriberThread] connects, and connects again after any failure, from
    the entry it expects next; [StreamReplicatorImpl] is the subscriber that
    publishes into the local stream. *)

From Stdlib Require Import ZArith NArith Lia Ascii String Sorted.
From stdpp Require Import base gmap list strings relations.
From S2P Require Import Prelude Time Persistence Decimal Strings Stream.
Open Scope Z_scope.

Module Replicator.

(** ** The exceptions of stream/exceptions.h *)

Inductive remote_exception :=
| StreamTerminatedBySubscriber
| RemoteStreamMalformedChunkException
| RemoteStreamDoesNotRespondException
| RemoteStreamInvalidSchemaException
| RemoteStreamRefusedFlipRequestException
| FromPublisher (e : persistence_error).

(** ** The subscriber of a remote stream *)

Section RemoteStreamSubscriber.
Context {E S : Type} `{!LogCodec E, !TsCodec}.

(** The methods of the user's class; any of them may throw. *)
Record RemoteSubscriber := mkRemoteSubscriber {
  on_entry : E → idxts_t → S → outcome remote_exception (S * EntryResponse);
  on_raw : bytes → N → S → outcome remote_exception (S * EntryResponse);
  on_head : microseconds → S → outcome remote_exception (S * EntryResponse);
  on_terminate : S → TerminationResponse;
}.

Context (subscriber : RemoteSubscriber).

(** The fields that the entries change. *)
Record position := mkPosition {
  subscriber_ : S;
  next_expected_index_ : N;
  from_us_ : microseconds;
}.

(** The state after a call, and the exception if one was thrown. *)
Definition result := (position * option remote_exception)%type.

Definition done_or_more (p : position) (next : S → position)
    (r : outcome remote_exception (S * EntryResponse)) : result :=
  match r with
  | Ok (s, Done) => (mkPosition s (next_expected_index_ p) (from_us_ p), Some StreamTerminatedBySubscriber)
  | Ok (s, More) => (next s, None)
  | Throw e => (p, Some e)
  end.

(** [catch (const TypeSystemParseJSONException&)] around the call. *)
Definition catch_json (r : result) : result :=
  match r with
  | (p, Some (FromPublisher JSONParseException)) => (p, Some RemoteStreamMalformedChunkException)
  | _ => r
  end.

(** [PassEntryToSubscriber], [ReplicationMode::Checked]. *)
Definition PassEntryToSubscriber_checked (raw_log_line : bytes) (p : position) : result :=
  let malformed := (p, Some RemoteStreamMalformedChunkException) in
  let split := Split (match_char tab) Skip raw_log_line in
  match split with
  | [] => malformed
  | first :: rest =>
      match parse_ts_optidx first with
      | None => malformed
      | Some (t, opt_index) =>
          if (0 <? from_us_ p) && (t <? from_us_ p) then malformed
          else match opt_index with
               | Some i =>
                   match rest with
                   | [json] =>
                       if negb (i =? next_expected_index_ p)%N then malformed
                       else match parse_entry json with
                            | None => malformed
                            | Some entry =>
                                catch_json
                                  (done_or_more p (λ s, mkPosition s (u64_succ (next_expected_index_ p)) 0)
                                    (on_entry subscriber entry (mkIdxTs i t) (subscriber_ p)))
                            end
                   | _ => malformed
                   end
               | None =>
                   match rest with
                   | [] => catch_json
                             (done_or_more p (λ s, mkPosition s (next_expected_index_ p) (t + 1))
                               (on_head subscriber t (subscriber_ p)))
                   | _ => malformed
                   end
               end
      end
  end.

(** [PassEntryToSubscriber], [ReplicationMode::Unchecked]. *)
Definition PassEntryToSubscriber_unchecked (raw_log_line : bytes) (p : position) : result :=
  match split_at tab raw_log_line with
  | Some _ =>
      done_or_more p (λ s, mkPosition s (u64_succ (next_expected_index_ p)) 0)
        (on_raw subscriber raw_log_line (next_expected_index_ p) (subscriber_ p))
  | None =>
      match parse_ts_only raw_log_line with
      | None => (p, Some RemoteStreamMalformedChunkException)
      | Some t => catch_json
          (done_or_more p (λ s, mkPosition s (next_expected_index_ p) (t + 1)) (on_head subscriber t (subscriber_ p)))
      end
  end.

Inductive ReplicationMode := Checked | Unchecked.

Definition PassEntryToSubscriber (RM : ReplicationMode) : bytes → position → result :=
  match RM with
  | Checked => PassEntryToSubscriber_checked
  | Unchecked => PassEntryToSubscriber_unchecked
  end.

(** *** Cutting chunks into lines *)

Context (RM : ReplicationMode).

(** The text up to the first new line, and the rest from there. *)
Fixpoint until_newline (s : bytes) : bytes * bytes :=
  match s with
  | [] => ([], [])
  | c :: s' => if match_lines c then ([], s) else let '(line, rest) := until_newline s' in (c :: line, rest)
  end.

Fixpoint skip_newlines (s : bytes) : bytes :=
  match s with
  | c :: s' => if match_lines c then skip_newlines s' else s
  | [] => []
  end.

(** The [for (;;)] of [PassChunkToSubscriber]; [chunk] is what is left of it from
    [begin_pos] on. *)
Fixpoint PassChunk_loop (fuel : nat) (chunk : bytes) (carried_over_data_ : bytes) (p : position)
    : position * bytes * option remote_exception :=
  match skip_newlines chunk with
  | [] => (p, carried_over_data_, None)
  | chunk =>
      let '(line, rest) := until_newline chunk in
      match rest with
      | [] => (p, line, None)
      | _ :: rest =>
          match fuel with
          | O => (p, carried_over_data_, None)
          | Datatypes.S fuel =>
              match PassEntryToSubscriber RM line p with
              | (p, Some e) => (p, carried_over_data_, Some e)
              | (p, None) => PassChunk_loop fuel rest carried_over_data_ p
              end
          end
      end
  end.

Definition PassChunkToSubscriber (chunk : bytes) (carried_over_data_ : bytes) (p : position)
    : position * bytes * option remote_exception :=
  match carried_over_data_ with
  | [] => PassChunk_loop (length chunk) chunk [] p
  | _ =>
      let '(line, rest) := until_newline chunk in
      match rest with
      | [] => (p, carried_over_data_ ++ chunk, None)
      | _ =>
          match PassEntryToSubscriber RM (carried_over_data_ ++ line) p with
          | (p, Some e) => (p, carried_over_data_, Some e)
          | (p, None) => PassChunk_loop (length rest) rest [] p
          end
      end
  end.

(** *** What it amounts to *)

(** The complete, non-empty lines of a text that starts in the middle of the line
    [cur], and the incomplete last line. *)
Fixpoint cut (cur s : bytes) : list bytes * bytes :=
  match s with
  | [] => ([], cur)
  | c :: s' =>
      if match_lines c then
        let '(lines, rest) := cut [] s' in ((if bool_decide (cur = []) then lines else cur :: lines), rest)
      else cut (cur ++ [c]) s'
  end.

Fixpoint pass_lines (lines : list bytes) (p : position) : result :=
  match lines with
  | [] => (p, None)
  | line :: lines =>
      match PassEntryToSubscriber RM line p with
      | (p, Some e) => (p, Some e)
      | (p, None) => pass_lines lines p
      end
  end.

Lemma cut_app cur s1 s2 :
  cut cur (s1 ++ s2) = let '(l1, r1) := cut cur s1 in let '(l2, r2) := cut r1 s2 in (l1 ++ l2, r2).
Proof.
  revert cur. induction s1 as [|c s1 IH]; intros cur; simpl; [by destruct (cut cur s2)|].
  destruct (match_lines c); [|done]. rewrite IH. destruct (cut [] s1) as [l1 r1]. destruct (cut r1 s2) as [l2 r2].
  by case_bool_decide.
Qed.

Lemma until_newline_app s : let '(line, rest) := until_newline s in s = line ++ rest ∧
  Forall (λ c, match_lines c = false) line ∧ match rest with [] => True | c :: _ => match_lines c = true end.
Proof.
  induction s as [|c s IH]; simpl; [done|]. destruct (match_lines c) eqn:Hc; [by repeat split|].
  destruct (until_newline s) as [line rest]. destruct IH as (-> & ? & ?). split_and!; [done|by constructor|done].
Qed.

Lemma cut_line cur line s : Forall (λ c, match_lines c = false) line → cut cur (line ++ s) = cut (cur ++ line) s.
Proof.
  intros Hl. revert cur. induction Hl as [|c line Hc _ IH]; intros cur; simpl; [by rewrite app_nil_r|].
  rewrite Hc, IH. by rewrite <- app_assoc.
Qed.

Lemma cut_skip s : cut [] s = cut [] (skip_newlines s).
Proof.
  induction s as [|c s IH]; simpl; [done|]. destruct (match_lines c) eqn:Hc; simpl; [|by rewrite Hc].
  rewrite <- IH. by destruct (cut [] s).
Qed.

Lemma skip_newlines_length s : (length (skip_newlines s) ≤ length s)%nat.
Proof. induction s as [|c s IH]; simpl; [done|]. destruct (match_lines c); simpl; lia. Qed.

Lemma skip_newlines_head s : match skip_newlines s with [] => True | c :: _ => match_lines c = false end.
Proof. induction s as [|c s IH]; simpl; [done|]. by destruct (match_lines c) eqn:Hc. Qed.

Lemma pass_chunk_loop_cut fuel chunk p :
  (length chunk ≤ fuel)%nat →
  let '(lines, rest) := cut [] chunk in
  let '(p', ex) := pass_lines lines p in
  ∃ carried, PassChunk_loop fuel chunk [] p = (p', carried, ex) ∧ (ex = None → carried = rest).
Proof.
  revert chunk p. induction fuel as [|fuel IH]; intros chunk p Hlen; rewrite cut_skip; unfold PassChunk_loop; fold PassChunk_loop;
    pose proof (skip_newlines_length chunk) as Hsk; pose proof (skip_newlines_head chunk) as Hhd;
    destruct (skip_newlines chunk) as [|c s] eqn:Hs; simpl in Hsk; [by eexists|lia|by eexists|].
  pose proof (until_newline_app (c :: s)) as Hu. destruct (until_newline (c :: s)) as [line rest] eqn:Hun.
  destruct Hu as (Heq & Hline & Hrest). rewrite Heq, cut_line by done. rewrite app_nil_l.
  assert (line ≠ []) as Hne. { intros ->. simpl in Heq. subst rest. congruence. }
  destruct rest as [|n rest]; [by eexists|]. simpl. rewrite Hrest.
  destruct (cut [] rest) as [lines r] eqn:Hcut. rewrite bool_decide_eq_false_2 by done. simpl.
  destruct (PassEntryToSubscriber RM line p) as [p1 [e|]]; [by eexists|].
  specialize (IH rest p1). rewrite Hcut in IH. apply IH.
  apply (f_equal length) in Heq. rewrite length_app in Heq. simpl in *. destruct line; [done|]. simpl in Heq. lia.
Qed.

(** A chunk passes the lines it completes, in order, up to the first exception. *)
Lemma pass_chunk_cut chunk carried p :
  Forall (λ c, match_lines c = false) carried →
  let '(lines, rest) := cut carried chunk in
  let '(p', ex) := pass_lines lines p in
  ∃ carried', PassChunkToSubscriber chunk carried p = (p', carried', ex) ∧ (ex = None → carried' = rest).
Proof.
  intros Hc. unfold PassChunkToSubscriber. destruct carried as [|c0 carried]; [by apply pass_chunk_loop_cut|].
  pose proof (until_newline_app chunk) as Hu. destruct (until_newline chunk) as [line rest]. destruct Hu as (-> & Hline & Hrest).
  rewrite cut_line by done. destruct rest as [|n rest]; [rewrite app_nil_r; by eexists|]. simpl. rewrite Hrest.
  destruct (cut [] rest) as [lines r] eqn:Hcut. simpl. destruct (PassEntryToSubscriber RM (c0 :: carried ++ line) p) as [p1 [e|]]; [by eexists|].
  pose proof (pass_chunk_loop_cut (Datatypes.S (length rest)) (n :: rest) p1) as Hl. simpl in Hl. rewrite Hrest, Hcut in Hl. simpl in Hl.
  apply Hl. lia.
Qed.

(** A response as it arrives, chunk by chunk. *)
Fixpoint pass_chunks (chunks : list bytes) (carried : bytes) (p : position) : position * bytes * option remote_exception :=
  match chunks with
  | [] => (p, carried, None)
  | chunk :: chunks =>
      match PassChunkToSubscriber chunk carried p with
      | (p, carried, None) => pass_chunks chunks carried p
      | r => r
      end
  end.

Lemma cut_rest cur s : Forall (λ c, match_lines c = false) cur → Forall (λ c, match_lines c = false) (cut cur s).2.
Proof.
  revert cur. induction s as [|c s IH]; intros cur Hc; simpl; [done|]. destruct (match_lines c) eqn:Hm.
  - specialize (IH []). destruct (cut [] s). simpl in *. apply IH. constructor.
  - apply IH. apply Forall_app. auto.
Qed.

Lemma pass_lines_two lines lines' p :
  pass_lines (lines ++ lines') p = match pass_lines lines p with (p', None) => pass_lines lines' p' | r => r end.
Proof.
  revert p. induction lines as [|line lines IH]; intros p; simpl; [done|].
  destruct (PassEntryToSubscriber RM line p) as [p' [|]]; [done|apply IH].
Qed.

Lemma pass_chunks_cut chunks carried p :
  Forall (λ c, match_lines c = false) carried →
  let '(p', _, ex) := pass_chunks chunks carried p in pass_lines (cut carried (concat chunks)).1 p = (p', ex).
Proof.
  revert carried p. induction chunks as [|chunk chunks IH]; intros carried p Hc; simpl; [done|].
  rewrite cut_app. pose proof (pass_chunk_cut chunk carried p Hc) as Hchunk. pose proof (cut_rest carried chunk Hc) as Hr.
  destruct (cut carried chunk) as [lines rest]. simpl in Hr.
  destruct (cut rest (concat chunks)) as [lines' rest'] eqn:Hcut. simpl. rewrite pass_lines_two.
  destruct (pass_lines lines p) as [p1 ex]. destruct Hchunk as (carried' & -> & Hcar). destruct ex as [ex|]; [done|].
  rewrite (Hcar eq_refl). specialize (IH rest p1 Hr). by rewrite Hcut in IH.
Qed.

(** ** [RemoteSubscriberThread] *)

(** Where the thread is: at the top of its loop, inside the chunked request, or
    done. *)
Inductive phase := AtTop | InRequest | Finished.

Record RemoteSubscriberThread := mkThread {
  base : position;
  carried_over_data_ : bytes;
  subscription_id_ : bytes;
  terminate_subscription_requested_ : bool;
  terminate_sent : bool;
  consecutive_malformed_chunks_count_ : N;
  at_phase : phase;
}.
Implicit Type t : RemoteSubscriberThread.

(** The constructor gives the counter no value. *)
Definition make_thread (s : S) (start_idx : N) (from_us : microseconds) (uninitialized : N) : RemoteSubscriberThread :=
  mkThread (mkPosition s start_idx from_us) [] [] false false uninitialized AtTop.

(** After the loop: [subscriber_thread_done_ = true] and the id is cleared. *)
Definition finish t : RemoteSubscriberThread :=
  mkThread (base t) (carried_over_data_ t) [] (terminate_subscription_requested_ t) (terminate_sent t)
    (consecutive_malformed_chunks_count_ t) Finished.

(** The [catch] clauses and what follows them: how the request ended, either
    normally or with an exception. *)
Definition request_ended (ex : option remote_exception) t : RemoteSubscriberThread :=
  match ex with
  | Some StreamTerminatedBySubscriber => finish t
  | _ =>
      let count := match ex with
                   | Some RemoteStreamMalformedChunkException => ((consecutive_malformed_chunks_count_ t + 1) mod 2 ^ 32)%N
                   | _ => consecutive_malformed_chunks_count_ t
                   end in
      mkThread (base t) [] [] (terminate_subscription_requested_ t) (terminate_sent t) count AtTop
  end.

(** The top of the loop: the termination check, then [CheckSchema], whose result
    is [schema], then the request. *)
Definition ThreadImpl_top (schema : outcome remote_exception ()) t : RemoteSubscriberThread :=
  let send := negb (terminate_sent t) && terminate_subscription_requested_ t in
  let t := mkThread (base t) (carried_over_data_ t) (subscription_id_ t) (terminate_subscription_requested_ t)
             (terminate_sent t || send) (consecutive_malformed_chunks_count_ t) (at_phase t) in
  if send && negb (bool_decide (on_terminate subscriber (subscriber_ (base t)) = Wait)) then finish t
  else match schema with
       | Throw e => request_ended (Some e) t
       | Ok _ => mkThread (base t) (carried_over_data_ t) (subscription_id_ t) (terminate_subscription_requested_ t)
                   (terminate_sent t) (consecutive_malformed_chunks_count_ t) InRequest
       end.

Definition subscription_header : bytes := str "X-Current-Stream-Subscription-Id".

Definition OnHeader (header value : bytes) t : RemoteSubscriberThread :=
  if bool_decide (header = subscription_header)
  then mkThread (base t) (carried_over_data_ t) value (terminate_subscription_requested_ t) (terminate_sent t)
         (consecutive_malformed_chunks_count_ t) (at_phase t)
  else t.

(** An exception from here ends the request. *)
Definition OnChunk (chunk : bytes) t : RemoteSubscriberThread :=
  if terminate_subscription_requested_ t then t
  else
    let '(p, carried, ex) := PassChunkToSubscriber chunk (carried_over_data_ t) (base t) in
    let updated count := mkThread p carried (subscription_id_ t) (terminate_subscription_requested_ t)
                           (terminate_sent t) count (at_phase t) in
    match ex with
    | Some e => request_ended (Some e) (updated (consecutive_malformed_chunks_count_ t))
    | None => updated 0%N
    end.

(** The predicate [TerminateSubscription] waits on: whether the wait is over, and
    the subscription to terminate by an HTTP request, if any. *)
Definition TerminateSubscription t : RemoteSubscriberThread * bool * option bytes :=
  match at_phase t with
  | Finished => (t, true, None)
  | _ =>
      let t' := mkThread (base t) (carried_over_data_ t) (subscription_id_ t) true (terminate_sent t)
                  (consecutive_malformed_chunks_count_ t) (at_phase t) in
      match subscription_id_ t with
      | [] => (t', false, None)
      | id => (t', true, Some id)
      end
  end.
End RemoteStreamSubscriber.
Arguments mkRemoteSubscriber {E S} _ _ _ _.
Arguments mkPosition {S} _ _ _.
Arguments mkThread {S} _ _ _ _ _ _ _.

(** ** [StreamReplicatorImpl] *)

Section StreamReplicatorImpl.
Context {P E : Type} `{!Persister P E, !UnsafePersister P E} {CK : Type} `{!Clock CK}.

(** The exceptions of the local stream go through the calls. *)
Definition published {A} (f : A → P) (r : outcome persistence_error A) : outcome remote_exception (P * EntryResponse) :=
  match r with
  | Ok a => Ok (f a, More)
  | Throw e => Throw (FromPublisher e)
  end.

(** The time is given: the clock [ck] of the local stream is not asked. *)
Definition StreamReplicatorImpl (ck : CK) : @RemoteSubscriber E P := mkRemoteSubscriber
  (λ entry current p, published snd (Publish (At (us current)) entry ck p).2)
  (λ raw_log_line _ p, published snd (PublishUnsafe (E := E) raw_log_line p))
  (λ ts p, published id (UpdateHead (E := E) (At ts) ck p).2)
  (λ _, Terminate).
End StreamReplicatorImpl.

(** ** What the lines of a subscription do to the local stream *)

Section Events.
Context {E : Type} `{!LogCodec E, !TsCodec}.

Inductive event :=
| EvEntry (i : idxts_t) (e : E)
| EvHead (t : microseconds).

Definition event_line (ev : event) : bytes :=
  match ev with
  | EvEntry i e => log_line i e
  | EvHead t => json_ts_only t
  end.

Definition render (evs : list event) : bytes := concat ((λ ev, (event_line ev ++ [newline])) <$> evs).

Context `{!LogCodecSound E, !TsCodecSound E}.

Lemma on_one_line_lines s : on_one_line s → Forall (λ c, match_lines c = false) s.
Proof.
  intros [_ Hs]. eapply Forall_impl; [exact Hs|]. intros c (Hn & Hr & _). unfold match_lines.
  by rewrite !bool_decide_eq_false_2.
Qed.

Lemma on_one_line_no_tab s : on_one_line s → (tab ∉ s) ∧ no_separator (match_char tab) s.
Proof.
  intros [_ Hs]. split.
  - intros Ht. apply (proj1 (Forall_forall _ _) Hs) in Ht as (_ & _ & ?). done.
  - eapply Forall_impl; [exact Hs|]. intros c (_ & _ & Ht). unfold match_char. by rewrite bool_decide_eq_false_2.
Qed.

Lemma event_line_ok ev : event_line ev ≠ [] ∧ Forall (λ c, match_lines c = false) (event_line ev).
Proof.
  destruct ev as [i e|t]; simpl.
  - unfold log_line. split; [by intros [_ ?]%app_nil|]. apply Forall_app. split; [apply on_one_line_lines, json_idxts_line|].
    constructor; [done|]. apply on_one_line_lines, json_entry_line.
  - split; [apply json_ts_only_line|]. apply on_one_line_lines, json_ts_only_line.
Qed.

Lemma render_cons ev evs : render (ev :: evs) = event_line ev ++ [newline] ++ render evs.
Proof. unfold render. simpl. by rewrite <- app_assoc. Qed.

Lemma render_app evs evs' : render (evs ++ evs') = render evs ++ render evs'.
Proof. unfold render. by rewrite fmap_app, concat_app. Qed.

(** The lines of the text are those of the events. *)
Lemma cut_render evs s : cut [] (render evs ++ s) = ((event_line <$> evs) ++ (cut [] s).1, (cut [] s).2).
Proof.
  induction evs as [|ev evs IH]; [by change (render [] ++ s) with s; destruct (cut [] s)|].
  destruct (event_line_ok ev) as [Hne Hl]. rewrite render_cons, <- !app_assoc, cut_line by done. simpl.
  rewrite IH, bool_decide_eq_false_2 by done. done.
Qed.

Lemma split_log_line i e : Split (match_char tab) Skip (log_line i e) = [json_idxts i; json_entry e].
Proof.
  rewrite Split_fields. unfold log_line.
  rewrite (fields_app _ tab); [|by apply bool_decide_eq_true_2|apply on_one_line_no_tab, json_idxts_line].
  rewrite (fields_no_separator (match_char tab)) by apply on_one_line_no_tab, json_entry_line.
  pose proof (proj1 (json_idxts_line (E := E) i)) as Hi. pose proof (proj1 (json_entry_line e)) as He.
  simpl. unfold keeps. rewrite bool_decide_eq_false_2 by done. simpl.
  by destruct (json_idxts i), (json_entry e).
Qed.

Lemma split_ts_only t : Split (match_char tab) Skip (json_ts_only t) = [json_ts_only t].
Proof.
  rewrite Split_fields, (fields_no_separator (match_char tab)) by apply on_one_line_no_tab, json_ts_only_line.
  pose proof (proj1 (json_ts_only_line (E := E) t)) as Hi. simpl. unfold keeps.
  rewrite bool_decide_eq_false_2 by done. simpl. by destruct (json_ts_only t).
Qed.
End Events.

Section Follow.
Context {P E : Type} `{!LogCodec E, !TsCodec, !Persister P E, !PersisterSound P E, !UnsafePersister P E}.
Context `{!LogCodecSound E, !TsCodecSound E, !UnsafePersisterSound P E} {CK : Type} `{!Clock CK} (ck : CK).
Implicit Types (p : @position P) (l : log E) (RM : ReplicationMode).

(** The position agrees with the local stream. *)
Definition in_step p l : Prop :=
  represents (subscriber_ p) l ∧ log_fits l ∧ next_expected_index_ p = log_size l ∧
  (from_us_ p = 0 ∨ from_us_ p = log_head l + 1).

Lemma pass_entry RM p l t e :
  in_step p l → log_head l < t →
  ∃ s, PassEntryToSubscriber (StreamReplicatorImpl ck) RM (event_line (EvEntry (mkIdxTs (log_size l) t) e)) p =
         (mkPosition s (log_size l + 1) 0, None) ∧
       represents s (mkLog (log_entries l ++ [(t, e)]) t).
Proof.
  intros (Hr & Hfit & Hn & Hf) Ht. pose proof (represents_wf _ _ Hr) as (_ & _ & Hlow). destruct RM; simpl.
  - unfold PassEntryToSubscriber_checked. rewrite split_log_line, parse_ts_optidx_idxts. simpl.
    destruct (Z.ltb_spec t (from_us_ p)); [lia|]. rewrite andb_false_r, Hn, N.eqb_refl. simpl. rewrite parse_json_entry.
    destruct (Publish_law (At t) e ck _ _ Hr Hfit) as [_ Hp]. unfold log_publish in Hp. simpl in Hp.
    destruct (Z.ltb_spec (log_head l) t); [|lia]. destruct ((Publish (At t) e ck (subscriber_ p)).2) as [[i s]|]; [|done].
    destruct Hp as [_ Hp]. exists s. split; [|exact Hp]. simpl. by rewrite u64_succ_small.
  - unfold PassEntryToSubscriber_unchecked. unfold log_line at 1.
    rewrite split_at_app by (apply on_one_line_no_tab, json_idxts_line).
    pose proof (PublishUnsafe_law _ _ t e Hr Hfit Ht) as Hp. simpl. unfold log_publish in Hp.
    destruct (Z.ltb_spec (log_head l) t); [|lia]. destruct (PublishUnsafe _ (subscriber_ p)) as [[i s]|]; [|done].
    destruct Hp as [_ Hp]. exists s. split; [|exact Hp]. simpl. by rewrite Hn, u64_succ_small.
Qed.

Lemma pass_head_line RM p l t :
  in_step p l → log_head l < t → t < int64_max →
  ∃ s, PassEntryToSubscriber (StreamReplicatorImpl ck) RM (event_line (EvHead (E := E) t)) p =
         (mkPosition s (log_size l) (t + 1), None) ∧
       represents s (mkLog (log_entries l) t).
Proof.
  intros (Hr & Hfit & Hn & Hf) Ht Hmax. pose proof (represents_wf _ _ Hr) as (_ & _ & Hlow).
  destruct (UpdateHead_law (At t) ck _ _ Hr Hmax) as [_ Hp]. unfold log_update_head in Hp. simpl in Hp.
  destruct (Z.ltb_spec (log_head l) t); [|lia]. destruct RM; simpl.
  - unfold PassEntryToSubscriber_checked. rewrite split_ts_only, parse_ts_optidx_ts. simpl.
    destruct (Z.ltb_spec t (from_us_ p)); [lia|]. rewrite andb_false_r.
    destruct ((UpdateHead (At t) ck (subscriber_ p)).2) as [s|]; [|done]. exists s. simpl. by rewrite Hn.
  - unfold PassEntryToSubscriber_unchecked.
    rewrite split_at_None by (apply on_one_line_no_tab, json_ts_only_line). rewrite parse_ts_only_ts. simpl.
    destruct ((UpdateHead (At t) ck (subscriber_ p)).2) as [s|]; [|done]. exists s. simpl. by rewrite Hn.
Qed.

(** A head that is not new is an error. *)
Lemma pass_old_head RM p l t :
  in_step p l → t ≤ log_head l → t < int64_max →
  ∃ ex, PassEntryToSubscriber (StreamReplicatorImpl ck) RM (event_line (EvHead (E := E) t)) p = (p, Some ex) ∧
    (ex = RemoteStreamMalformedChunkException ∨ ex = FromPublisher (InconsistentTimestampException (log_head l + 1) t)).
Proof.
  intros (Hr & Hfit & Hn & Hf) Ht Hmax. pose proof (represents_wf _ _ Hr) as (_ & _ & Hlow).
  destruct (UpdateHead_law (At t) ck _ _ Hr Hmax) as [_ Hp]. unfold log_update_head in Hp. simpl in Hp.
  destruct (Z.ltb_spec (log_head l) t); [lia|]. destruct RM; simpl.
  - unfold PassEntryToSubscriber_checked. rewrite split_ts_only, parse_ts_optidx_ts. simpl.
    destruct ((0 <? from_us_ p) && (t <? from_us_ p)); [eexists; split; [done|by left]|].
    destruct ((UpdateHead (At t) ck (subscriber_ p)).2) as [s|x]; [done|]. rewrite Hp. simpl. eexists. split; [done|by right].
  - unfold PassEntryToSubscriber_unchecked.
    rewrite split_at_None by (apply on_one_line_no_tab, json_ts_only_line). rewrite parse_ts_only_ts. simpl.
    destruct ((UpdateHead (At t) ck (subscriber_ p)).2) as [s|x]; [done|]. rewrite Hp. simpl. eexists. split; [done|by right].
Qed.
End Follow.
End Replicator.
