(* ===== verification/Replication.v ===== *)
(** * A stream and its replica

    The parts of the system that take an entry from one stream to another, put
    together: the master's persister, the subscriber thread and the HTTP endpoint
    that serve a subscription (Stream.v, PubSub.v), the connection, which delivers
    what was sent in chunks of any size and may break after any byte, and the
    remote subscriber with its replicator (Replicator.v), which connects again
    from where it was. *)

From Stdlib Require Import ZArith NArith Lia Ascii String Sorted.
From stdpp Require Import base gmap list strings relations.
From S2P Require Import Prelude Time Persistence Decimal Strings Stream Url PubSub RemoteStream Replicator.
Open Scope Z_scope.

Module Replication.
Import Replicator.

Abbreviation endpoint := PubSub.PubSubHTTPEndpointImpl.
Abbreviation server_thread E := (@SubscriberThread.thread E endpoint).

Section System.
Context {P Q E CK : Type} `{!Clock CK, !LogCodec E, !TsCodec}.
Context `{!Persister P E, !Persister Q E, !UnsafePersister Q E}.

(** The URL of the master, what it says when a subscription is terminated, the
    mode of replication, and the clock of the follower, which is not asked. *)
Context (url_ message : bytes) (RM : ReplicationMode) (ck : CK).

(** [connection] is the thread that serves the follower's request, and how many
    of the bytes it has sent were received. *)
Record system := mkSystem {
  master : P;
  clock : CK;
  connection : option (server_thread E * nat);
  follower : @RemoteSubscriberThread Q;
}.

Definition set_follower (c : option (server_thread E * nat)) (t : @RemoteSubscriberThread Q) (s : system) : system :=
  mkSystem (master s) (clock s) c t.

(** [ServeDataViaHTTP] for the request of the follower: where to start, the
    endpoint, and the thread. *)
Definition accept (request_timestamp : microseconds) (t : @RemoteSubscriberThread Q) (p : P) : server_thread E :=
  let url := RemoteStream.GetURLToSubscribe url_ (next_expected_index_ (base t)) (from_us_ (base t)) RemoteStream.Checked in
  let params := PubSub.ParsePubSubHTTPRequest (RemoteStream.request_of url request_timestamp) in
  let '(begin_idx, from_timestamp, tail) :=
    PubSub.begin_of_range params request_timestamp (Size (E := E) p) (λ t, (IndexRangeByTimestampRange (E := E) t 0 p).1) in
  SubscriberThread.start begin_idx from_timestamp (PubSub.make_endpoint params tail request_timestamp).

Definition sent (th : server_thread E) : bytes := PubSub.http_response_ (SubscriberThread.state th).

Inductive op :=
| MasterPublish (a : timestamp_arg) (e : E)
| MasterUpdateHead (a : timestamp_arg)
| Loop (schema : outcome remote_exception ()) (request_timestamp : microseconds)  (* the follower's thread, at the top *)
| Serve                                                                           (* a step of the serving thread *)
| Header (name value : bytes)
| Deliver (n : nat)                                                               (* the next [n] bytes arrive *)
| Disconnect (ex : option remote_exception)
| RequestTermination.

Inductive step_error :=
| NotNow
| TooLarge                       (* an index or a time stamp the code has no room for *)
| MasterFailed (e : persistence_error).

Definition on_master {A} (o : outcome persistence_error A) : outcome step_error A :=
  match o with Ok a => Ok a | Throw e => Throw (MasterFailed e) end.

Definition guard (b : bool) (e : step_error) : outcome step_error () := if b then Ok () else Throw e.

Definition exec (o : op) (s : system) : outcome step_error system :=
  let t := follower s in
  match o with
  | MasterPublish a e =>
      let '(ck', r) := Publish a e (clock s) (master s) in
      '(i, p) ← on_master r;
      _ ← guard ((Size (E := E) (master s) + 1 <? no_index)%N && (us i <? int64_max)) TooLarge;
      Ok (mkSystem p ck' (connection s) t)
  | MasterUpdateHead a =>
      _ ← guard ((TimestampAsMicroseconds a (clock s)).1 <? int64_max) TooLarge;
      let '(ck', r) := UpdateHead (E := E) a (clock s) (master s) in
      p ← on_master r;
      Ok (mkSystem p ck' (connection s) t)
  | Loop schema request_timestamp =>
      _ ← guard (match at_phase t with AtTop => true | _ => false end) NotNow;
      let t := ThreadImpl_top (StreamReplicatorImpl (E := E) ck) schema t in
      Ok (set_follower (match at_phase t with
                        | InRequest => Some (accept request_timestamp t (master s), O)
                        | _ => None
                        end) t s)
  | Serve =>
      '(th, n) ← match connection s with Some c => Ok c | None => Throw NotNow end;
      th ← on_master (SubscriberThread.thread_step (PubSub.endpoint_subscriber json_ts_only message) Some (master s) false th);
      Ok (set_follower (Some (th, n)) t s)
  | Header name value =>
      _ ← guard (match at_phase t with InRequest => true | _ => false end) NotNow;
      Ok (set_follower (connection s) (OnHeader name value t) s)
  | Deliver n =>
      '(th, received) ← match connection s with Some c => Ok c | None => Throw NotNow end;
      let chunk := take n (drop received (sent th)) in
      let t := OnChunk (StreamReplicatorImpl (E := E) ck) RM chunk t in
      Ok (set_follower (match at_phase t with
                        | InRequest => Some (th, received + length chunk)%nat
                        | _ => None
                        end) t s)
  | Disconnect ex =>
      _ ← guard (match at_phase t, ex with InRequest, Some StreamTerminatedBySubscriber => false | InRequest, _ => true | _, _ => false end) NotNow;
      Ok (set_follower None (request_ended ex t) s)
  | RequestTermination => Ok (set_follower (connection s) (TerminateSubscription t).1.1 s)
  end.

Definition step (s s' : system) : Prop := ∃ o, exec o s = Ok s'.

Fixpoint execs (l : list op) (s : system) : outcome step_error system :=
  match l with
  | [] => Ok s
  | o :: l => s ← exec o s; execs l s
  end.

(** A follower that starts from an empty local stream, or from a replica. *)
Definition start (p : P) (c : CK) (q : Q) (from_us : microseconds) (uninitialized : N) : system :=
  mkSystem p c None (make_thread q (Size (E := E) q) from_us uninitialized).
End System.

(** ** What a subscription sends *)

Section Sent.
Context {P E : Type} `{!LogCodec E, !TsCodec, !Persister P E, !PersisterSound P E}.
Context (message : bytes).
Implicit Types (l : log E) (th : server_thread E) (evs : list (@event E)).

(** The lines report the entries from [j] on, in order, and heads that were the
    head of the log when it had just the entries reported so far. *)
Fixpoint events_ok l (j : N) evs : Prop :=
  match evs with
  | [] => True
  | EvEntry i e :: evs =>
      index i = j ∧ log_entries l !! N.to_nat j = Some (us i, e) ∧ events_ok l (j + 1) evs
  | EvHead t :: evs => SubscriberThread.before_from l j t ∧ events_ok l j evs
  end.

Fixpoint events_next (j : N) evs : N :=
  match evs with
  | [] => j
  | EvEntry _ _ :: evs => events_next (j + 1) evs
  | EvHead _ :: evs => events_next j evs
  end.

Definition event_time (ev : @event E) : microseconds :=
  match ev with EvEntry i _ => us i | EvHead t => t end.

Lemma events_ok_app l j evs evs' : events_ok l j (evs ++ evs') ↔ events_ok l j evs ∧ events_ok l (events_next j evs) evs'.
Proof. revert j. induction evs as [|[i e|t] evs IH]; intros j; simpl; [tauto|rewrite IH; tauto..]. Qed.

Lemma events_next_app j evs evs' : events_next j (evs ++ evs') = events_next (events_next j evs) evs'.
Proof. revert j. induction evs as [|[i e|t] evs IH]; intros j; simpl; auto. Qed.

Lemma events_ok_extends l l' j evs : SubscriberThread.log_extends l l' → events_ok l j evs → events_ok l' j evs.
Proof.
  intros Hext. revert j. induction evs as [|[i e|t] evs IH]; intros j; simpl; [done|..].
  - intros (Hi & He & Hevs). split_and!; [done| |by apply IH].
    destruct Hext as (x & -> & _). by apply lookup_app_l_Some.
  - intros [Hb Hevs]. split; [by eapply SubscriberThread.extends_before|by apply IH].
Qed.

(** The endpoint of a subscription from index [i] and time [from] on. *)
Definition sub_params (i : N) (from : microseconds) : PubSub.ParsedHTTPRequestParams :=
  PubSub.mkParams false false [] false [] 0 from i 0 0 0 false 0 false false true.

Definition endpoint_at (i : N) (from : microseconds) (s : endpoint) : Prop :=
  PubSub.params_ s = sub_params i from ∧ PubSub.tail_ s = 0%N ∧ PubSub.time_to_terminate_ s = false ∧
  PubSub.to_timestamp_ s = 0 ∧ PubSub.n_ s = 0%N ∧ PubSub.from_timestamp_ s = from ∧
  (PubSub.serving_ s = true ∨ 0 < from).

Lemma endpoint_entry i from e current last_ s :
  endpoint_at i from s → (i ≤ index current)%N → from ≤ us current →
  ∃ s', PubSub.on_checked_entry e current last_ s = Ok (s', More) ∧ endpoint_at i from s' ∧
    PubSub.http_response_ s' = PubSub.http_response_ s ++ render [EvEntry current e].
Proof.
  destruct s as [pa ta te ou re si sv fr to n]. intros (Hp & Ht & Hte & Hto & Hn & Hf & Hs) Hi Hfrom. simpl in *. subst.
  unfold PubSub.on_checked_entry, PubSub.entry_response. simpl.
  assert ((if sv then Ok true else PubSub.starts_serving (index current) (Ok (us current)) last_
      (PubSub.mkEndpoint (sub_params i from) 0 false ou re si sv from 0 0)) = Ok true) as ->.
  { destruct sv; [done|]. unfold PubSub.starts_serving. simpl. destruct (N.leb_spec i (index current)); [|lia]. simpl.
    destruct (Z.eqb_spec from 0); [done|]. simpl. by destruct (Z.leb_spec from (us current)); [|lia]. }
  simpl. rewrite !andb_false_r. eexists. split; [done|]. split; [unfold endpoint_at; simpl; split_and!; try done; by left|].
  simpl. unfold PubSub.entry_text, render. simpl. by rewrite app_nil_r.
Qed.

Lemma endpoint_head i from t s :
  endpoint_at i from s → from ≤ t →
  ∃ s', PubSub.on_head_update json_ts_only t s = (s', More) ∧ endpoint_at i from s' ∧
    PubSub.http_response_ s' = PubSub.http_response_ s ++ render [EvHead (E := E) t].
Proof.
  destruct s as [pa ta te ou re si sv fr to n]. intros (Hp & Ht & Hte & Hto & Hn & Hf & Hs) Hfrom. simpl in *. subst.
  unfold PubSub.on_head_update. simpl. destruct sv; simpl.
  - eexists. split; [done|]. split; [unfold endpoint_at; simpl; split_and!; try done; by left|].
    simpl. unfold render. simpl. by rewrite app_nil_r.
  - destruct Hs as [?|Hs]; [done|]. destruct (Z.ltb_spec 0 from); [|lia]. destruct (Z.leb_spec from t); [|lia]. simpl.
    eexists. split; [done|]. split; [unfold endpoint_at; simpl; split_and!; try done; by left|].
    simpl. unfold render. simpl. by rewrite app_nil_r.
Qed.

(** The thread that serves a subscription has sent the lines of [evs]. *)
Definition serves l (begin : N) (from : microseconds) th evs : Prop :=
  SubscriberThread.thread_inv l th ∧ SubscriberThread.at_ th ≠ SubscriberThread.Finished ∧
  SubscriberThread.begin_idx th = begin ∧ (begin ≤ log_size l)%N ∧ SubscriberThread.before_from l begin (from - 1) ∧
  from - 1 ≤ SubscriberThread.head th ∧ endpoint_at begin from (SubscriberThread.state th) ∧
  sent th = render evs ∧ events_ok l begin evs ∧
  events_next begin evs = (begin + N.of_nat (length (SubscriberThread.taken th)))%N ∧
  event_time <$> evs = SubscriberThread.notified th ∧ Forall (λ t, from - 1 < t) (SubscriberThread.notified th).

Lemma serves_extends l l' begin from th evs :
  SubscriberThread.log_extends l l' → serves l begin from th evs → serves l' begin from th evs.
Proof.
  intros Hext (Hinv & Hne & Hb & Hsz & Hbf & Hh & He & Hsent & Hok & Hrest).
  pose proof (SubscriberThread.extends_size _ _ Hext).
  split_and!; try done; [by eapply SubscriberThread.thread_inv_extends|lia|by eapply SubscriberThread.extends_before|
    by eapply events_ok_extends|apply Hrest..].
Qed.

(** The entry the thread passes is the next one of the log. *)
Lemma next_taken l th th' current e :
  SubscriberThread.thread_inv l th' → SubscriberThread.begin_idx th' = SubscriberThread.begin_idx th →
  SubscriberThread.taken th' = SubscriberThread.taken th ++ [(current, e)] →
  let j := (SubscriberThread.begin_idx th + N.of_nat (length (SubscriberThread.taken th)))%N in
  index current = j ∧ log_entries l !! N.to_nat j = Some (us current, e).
Proof.
  intros (_ & _ & _ & (k & Hk & _) & _) Hb Ht j. rewrite Ht, Hb in Hk.
  apply (f_equal (λ x, x !! length (SubscriberThread.taken th))) in Hk.
  rewrite lookup_app_r, Nat.sub_diag in Hk by lia. simpl in Hk. symmetry in Hk.
  rewrite lookup_drop in Hk. apply lookup_take_Some in Hk as [Hk _]. rewrite numbered_lookup in Hk.
  replace (N.to_nat (SubscriberThread.begin_idx th) + length (SubscriberThread.taken th))%nat with (N.to_nat j) in Hk by (unfold j; lia).
  destruct (log_entries l !! N.to_nat j) as [[t x]|]; [|done]. simpl in Hk. injection Hk as <- <-. simpl. split; [lia|done].
Qed.

Lemma position_taken l th : SubscriberThread.thread_inv l th → SubscriberThread.at_ th ≠ SubscriberThread.Finished →
  SubscriberThread.position th = (SubscriberThread.begin_idx th + N.of_nat (length (SubscriberThread.taken th)))%N.
Proof.
  intros Hinv Hne. destruct (SubscriberThread.position_bounds l th Hinv Hne) as [Hb Hp].
  destruct Hinv as (_ & _ & Ht & _). rewrite (Ht Hne), length_drop, length_take, length_numbered.
  unfold log_size in Hp. lia.
Qed.

(** What a step of the serving thread sends. *)
Definition emitted th : list (@event E) :=
  match SubscriberThread.at_ th with
  | SubscriberThread.Passing ((current, e) :: _) _ => [EvEntry current e]
  | SubscriberThread.AtHead hi =>
      if (SubscriberThread.begin_idx th <=? SubscriberThread.size_of hi)%N && (SubscriberThread.head th <? hd_head hi)
      then [EvHead (hd_head hi)] else []
  | _ => []
  end.

Lemma serve_step l begin from th evs p th' :
  represents p l → log_fits l → serves l begin from th evs →
  SubscriberThread.thread_step (PubSub.endpoint_subscriber json_ts_only message) Some p false th = Ok th' →
  serves l begin from th' (evs ++ emitted th) ∧ sent th' = sent th ++ render (emitted th).
Proof.
  intros Hrep Hfit (Hinv & Hne & Hb & Hsz & Hbf & Hh & He & Hsent & Hok & Hnext & Htimes & Hlow) Hstep.
  pose proof (SubscriberThread.thread_step_inv _ _ _ _ _ _ _ Hrep Hfit Hinv Hstep) as Hinv'.
  pose proof (position_taken _ _ Hinv Hne) as Hpos.
  assert (∀ th1, Ok th1 = Ok (E := persistence_error) th' → SubscriberThread.at_ th1 ≠ SubscriberThread.Finished →
    SubscriberThread.begin_idx th1 = begin → SubscriberThread.state th1 = SubscriberThread.state th →
    SubscriberThread.taken th1 = SubscriberThread.taken th → SubscriberThread.notified th1 = SubscriberThread.notified th →
    from - 1 ≤ SubscriberThread.head th1 → emitted th = [] →
    serves l begin from th' (evs ++ emitted th) ∧ sent th' = sent th ++ render (emitted th)) as Hquiet.
  { intros th1 [= ->] Ha Hb1 Hs1 Ht1 Hn1 Hh1 ->. unfold serves, sent in *.
    rewrite !app_nil_r, Hs1, Ht1, Hn1. by split_and!. }
  unfold SubscriberThread.thread_step in Hstep. unfold emitted in *.
  destruct (SubscriberThread.at_ th) as [| |rest hi|hi| |] eqn:Hat;
    cbv beta iota in Hstep; [..|done].
  - unfold SubscriberThread.check_termination in Hstep. rewrite andb_false_r in Hstep. cbv beta iota in Hstep.
    by eapply (Hquiet _ Hstep).
  - rewrite (HeadAndLast_law _ l) in Hstep by done. cbn [mbind outcome_bind] in Hstep.
    destruct (_ <? _); [|by eapply (Hquiet _ Hstep)].
    destruct (_ <? _)%N; [|by eapply (Hquiet _ Hstep)].
    destruct (Iterate _ _ p); [|done]. by eapply (Hquiet _ Hstep).
  - destruct rest as [|[current e] rest].
    + destruct Hinv as (Hbi & _ & _ & _ & _ & _ & Hpc). unfold SubscriberThread.pc_inv in Hpc. rewrite Hat in Hpc.
      destruct Hpc as ((_ & _ & Hi) & Hlt & _). destruct (hd_idxts hi) as [i|] eqn:Hhi; [|done].
      eapply (Hquiet _ Hstep); [done..| |done]. simpl. destruct Hi as (Hsize & _ & e & Hi).
      destruct Hbf as [_ Hbf]. eapply Z.lt_le_incl, Hbf; [|exact Hi]. lia.
    + unfold SubscriberThread.check_termination in Hstep. rewrite andb_false_r in Hstep. cbv beta iota in Hstep.
      destruct (LastPublishedIndexAndTimestamp p) as [last_|]; [|done]. cbn [mbind outcome_bind] in Hstep.
      unfold SubscriberThread.PassEntryToSubscriberIfTypeMatches in Hstep.
      destruct (Stream.on_entry (PubSub.endpoint_subscriber json_ts_only message) e current last_ (SubscriberThread.state th)) as [s r] eqn:Hon.
      cbn [mbind outcome_bind] in Hstep. injection Hstep as <-.
      destruct (next_taken l th _ current e Hinv' eq_refl eq_refl) as [Hidx Hent]. rewrite Hb in Hidx, Hent.
      assert (from - 1 < us current) as Hus by (destruct Hbf as [_ Hbf]; eapply Hbf; [|exact Hent]; lia).
      destruct (endpoint_entry begin from e current last_ (SubscriberThread.state th)) as (s' & Hs' & He' & Hr'); [done|lia..|].
      simpl in Hon. rewrite Hs' in Hon. injection Hon as <- <-.
      rewrite bool_decide_eq_false_2 in * by done. split; [|unfold sent in *; simpl; by rewrite Hr'].
      unfold serves, sent in *. simpl. rewrite Hr', Hsent, render_app, events_ok_app, events_next_app, Hnext, fmap_app, Htimes. simpl.
      rewrite length_app. simpl. split_and!; try done; [lia|]. apply Forall_app. by repeat constructor.
  - destruct (_ && _) eqn:Hc.
    + apply andb_true_iff in Hc as [_ Hlt%Z.ltb_lt].
      destruct (endpoint_head begin from (hd_head hi) (SubscriberThread.state th)) as (s' & Hs' & He' & Hr'); [done|lia|].
      simpl in Hstep. rewrite Hs' in Hstep. injection Hstep as <-.
      split; [|unfold sent in *; simpl; by rewrite Hr'].
      assert (SubscriberThread.before_from l (begin + N.of_nat (length (SubscriberThread.taken th))) (hd_head hi)) as Hbefore.
      { destruct Hinv as (_ & _ & _ & _ & _ & _ & Hpc). unfold SubscriberThread.pc_inv in Hpc. rewrite Hat in Hpc.
        destruct Hpc as ((_ & Hbe & _) & Hle & _). eapply SubscriberThread.before_from_weaken; [|exact Hbe].
        unfold SubscriberThread.position in Hpos. rewrite Hat, Hb in Hpos. lia. }
      unfold serves, sent in *. simpl. rewrite Hr', Hsent, render_app, events_ok_app, events_next_app, Hnext, fmap_app, Htimes. simpl.
      split_and!; try done; [lia|]. apply Forall_app. repeat constructor; [done|lia].
    + eapply (Hquiet _ Hstep); [done..| |done]. simpl.
      destruct Hinv as (_ & _ & _ & _ & _ & _ & Hpc). unfold SubscriberThread.pc_inv in Hpc. rewrite Hat in Hpc.
      destruct Hpc as (_ & _ & _ & Hle). lia.
  - destruct (_ || _) in Hstep; eapply (Hquiet _ Hstep); by rewrite ?Hat.
Qed.
End Sent.

(** ** The replica *)

Section Replica.
Context {Q E CK : Type} `{!Clock CK, !LogCodec E, !TsCodec, !LogCodecSound E, !TsCodecSound E}.
Context `{!Persister Q E, !PersisterSound Q E, !UnsafePersister Q E, !UnsafePersisterSound Q E}.
Context (RM : ReplicationMode) (ck : CK).
Implicit Types (l : log E) (p : @position Q) (evs : list (@event E)).

(** The local log is a prefix of [l], and everything that is not in it yet is
    after its head. *)
Definition replica_of l (lq : log E) : Prop :=
  log_entries lq = take (N.to_nat (log_size lq)) (log_entries l) ∧ (log_size lq ≤ log_size l)%N ∧
  SubscriberThread.before_from l (log_size lq) (log_head lq).

Definition replica l p : Prop := ∃ lq, in_step p lq ∧ 0 ≤ from_us_ p ∧ replica_of l lq.

Lemma replica_of_extends l l' lq : SubscriberThread.log_extends l l' → replica_of l lq → replica_of l' lq.
Proof.
  intros Hext (Htake & Hsz & Hb). pose proof (SubscriberThread.extends_size _ _ Hext).
  split_and!; [|lia|by eapply SubscriberThread.extends_before]. rewrite Htake at 1.
  destruct Hext as (x & -> & _). rewrite take_app_le; [done|]. unfold log_size in *. lia.
Qed.

Lemma replica_extends l l' p : SubscriberThread.log_extends l l' → replica l p → replica l' p.
Proof.
  intros Hext (lq & Hin & Hf & Hr). exists lq. split_and!; [done..|]. by eapply replica_of_extends.
Qed.

(** A line moves the replica on by what it reports, or throws and leaves it as
    it was; a throw is only possible for a head that is not new. *)
Lemma pass_event l p ev :
  log_wf l → log_fits l → log_head l < int64_max → replica l p → events_ok l (next_expected_index_ p) [ev] →
  ∃ p' ex, PassEntryToSubscriber (StreamReplicatorImpl ck) RM (event_line ev) p = (p', ex) ∧ replica l p' ∧
    ex ≠ Some StreamTerminatedBySubscriber ∧
    match ex with
    | None => next_expected_index_ p' = events_next (next_expected_index_ p) [ev]
    | Some _ => p' = p ∧ ∃ t, ev = EvHead t
    end.
Proof.
  intros Hw Hfit Hmax (lq & Hin & Hf & Htake & Hsz & Hb) Hev. pose proof Hin as (Hr & Hq & Hn & Hfrom).
  destruct ev as [[i t] e|t]; simpl in Hev.
  - destruct Hev as (-> & Hent & _). rewrite Hn in *. pose proof Hb as [_ Hlater].
    destruct (pass_entry ck RM p lq t e Hin) as (s & Hpass & Hs); [eapply Hlater; [|exact Hent]; lia|].
    eexists _, None. split; [exact Hpass|]. split_and!; [|done..].
    assert (log_size (mkLog (log_entries lq ++ [(t, e)]) t) = log_size lq + 1)%N as Hsize.
    { unfold log_size. simpl. rewrite length_app. simpl. lia. }
    pose proof (lookup_lt_Some _ _ _ Hent) as Hlt.
    exists (mkLog (log_entries lq ++ [(t, e)]) t). split_and!; [|simpl; lia|]; [unfold in_step; simpl|];
      unfold replica_of; rewrite Hsize; simpl; split_and!; try done.
    + unfold log_fits, log_size in *. simpl. rewrite length_app. simpl. lia.
    + pose proof (represents_wf _ _ Hs) as (_ & _ & ?). simpl in *. lia.
    + replace (N.to_nat (log_size lq + 1)) with (S (N.to_nat (log_size lq))) by lia.
      by rewrite (take_S_r _ _ _ Hent), <- Htake.
    + unfold log_size in *. lia.
    + by eapply SubscriberThread.entry_before.
  - destruct Hev as [Hbt _]. rewrite Hn in *. destruct (Z.lt_ge_cases (log_head lq) t) as [Hlt|Hge].
    + destruct (pass_head_line ck RM p lq t Hin) as (s & Hpass & Hs); [done|destruct Hbt; lia|].
      eexists _, None. split; [exact Hpass|]. split_and!; [|done..].
      exists (mkLog (log_entries lq) t). unfold in_step, replica_of. simpl.
      pose proof (represents_wf _ _ Hs) as (_ & _ & ?). simpl in *. split_and!; try done; lia.
    + destruct (pass_old_head ck RM p lq t Hin) as (ex & Hpass & Hex); [done|destruct Hbt; lia|].
      exists p, (Some ex). split; [exact Hpass|]. split_and!; [by exists lq|by destruct Hex as [->| ->]|done|by exists t].
Qed.

Lemma pass_events l p evs :
  log_wf l → log_fits l → log_head l < int64_max → replica l p → events_ok l (next_expected_index_ p) evs →
  ∃ p' ex, pass_lines (StreamReplicatorImpl ck) RM (event_line <$> evs) p = (p', ex) ∧ replica l p' ∧
    ex ≠ Some StreamTerminatedBySubscriber ∧
    match ex with
    | None => next_expected_index_ p' = events_next (next_expected_index_ p) evs
    | Some _ => ∃ t, EvHead t ∈ evs
    end.
Proof.
  intros Hw Hfit Hmax. revert p. induction evs as [|ev evs IH]; intros p Hrep Hok; [by exists p, None|].
  change (ev :: evs) with ([ev] ++ evs) in Hok |- *. apply events_ok_app in Hok as [Hev Hok].
  destruct (pass_event l p ev) as (p1 & ex1 & Hpass & Hrep1 & Hne & Hres); [done..|].
  rewrite events_next_app. cbn [app fmap list_fmap pass_lines]. rewrite Hpass.
  destruct ex1 as [ex1|].
  - destruct Hres as [-> [t ->]]. exists p, (Some ex1). split_and!; [done..|]. exists t. by left.
  - rewrite <- Hres in *. destruct (IH p1 Hrep1 Hok) as (p' & ex & ? & ? & ? & Hex). exists p', ex. split_and!; [done..|].
    destruct ex; [|done]. destruct Hex as [t Ht]. exists t. by right.
Qed.
End Replica.

(** ** Reachable states *)

Section Invariant.
Context {P Q E CK : Type} `{!Clock CK, !LogCodec E, !TsCodec, !LogCodecSound E, !TsCodecSound E}.
Context `{!Persister P E, !PersisterSound P E}.
Context `{!Persister Q E, !PersisterSound Q E, !UnsafePersister Q E, !UnsafePersisterSound Q E}.
Context (url_ message : bytes) (RM : ReplicationMode) (ck : CK).
Hypothesis url_ok : ("?"%char ∉ url_) ∧ ("#"%char ∉ url_).
Implicit Types (l : log E) (t : @RemoteSubscriberThread Q) (s : @system P Q E CK).

(** What was sent and not received yet, after what is carried over, is the lines
    of the events to come. *)
Definition in_transit (begin : N) (evs : list (@event E)) (bytes_sent : bytes) (received : nat) t : Prop :=
  ∃ done pending, evs = done ++ pending ∧ (received ≤ length bytes_sent)%nat ∧
    cut (carried_over_data_ t) (drop received bytes_sent) = (event_line <$> pending, []) ∧
    next_expected_index_ (base t) = events_next begin done.

Definition connection_inv l (c : option (server_thread E * nat)) t : Prop :=
  match c with
  | None => at_phase t ≠ InRequest ∧ (at_phase t = AtTop → carried_over_data_ t = [])
  | Some (th, received) =>
      at_phase t = InRequest ∧ Forall (λ c, match_lines c = false) (carried_over_data_ t) ∧
      ∃ begin from evs, serves l begin from th evs ∧
        (terminate_subscription_requested_ t = false → in_transit begin evs (sent th) received t)
  end.

Definition system_inv (s : @system P Q E CK) : Prop :=
  ∃ l, represents (master s) l ∧ log_fits l ∧ log_head l < int64_max ∧ replica l (base (follower s)) ∧
    connection_inv l (connection s) (follower s).

Lemma connection_extends l l' c t : SubscriberThread.log_extends l l' → connection_inv l c t → connection_inv l' c t.
Proof.
  intros Hext. destruct c as [[th n]|]; [|done]. intros (Hph & Hc & begin & from & evs & Hs & Ht).
  split_and!; [done..|]. exists begin, from, evs. split; [|done]. by eapply serves_extends.
Qed.

(** The first entry after the head of a replica is the one after its last. *)
Lemma index_after l lq : log_fits l → log_wf lq → replica_of l lq →
  N.max 0 (N.min (index_range (log_entries l).*1 (log_head lq + 1) 0).1 (log_size l)) = log_size lq.
Proof.
  intros Hfit (_ & Hqf & _) (Htake & Hsz & _ & Hb).
  assert (partition_point (λ u, u <? log_head lq + 1) (log_entries l).*1 = N.to_nat (log_size lq)) as Hpp.
  { apply partition_point_at; [| |rewrite length_fmap; unfold log_size in *; lia].
    - rewrite <- fmap_take, <- Htake. eapply Forall_impl; [exact Hqf|]. simpl. intros x Hx. lia.
    - rewrite <- fmap_drop. apply Forall_fmap, Forall_lookup. intros i [u e] Hi. rewrite lookup_drop in Hi.
      assert (log_head lq < u) by (eapply Hb; [|exact Hi]; lia). simpl. lia. }
  unfold index_range. simpl. rewrite Hpp, length_fmap. unfold log_fits, log_size in *.
  destruct (Nat.eqb_spec (N.to_nat (N.of_nat (length (log_entries lq)))) (length (log_entries l))); simpl; lia.
Qed.

(** The thread that accepts the request of a replica starts right after it. *)
Lemma accept_start l (p : P) t request_timestamp :
  represents p l → log_fits l → log_head l < int64_max → replica l (base t) →
  accept (Q := Q) (E := E) url_ request_timestamp t p =
    SubscriberThread.start (next_expected_index_ (base t)) (from_us_ (base t))
      (PubSub.make_endpoint (sub_params (next_expected_index_ (base t)) (from_us_ (base t))) 0 request_timestamp).
Proof.
  intros Hrep Hfit Hmax (lq & (Hrq & Hqfit & Hn & Hfrom) & Hf0 & Hr). pose proof Hr as (Htake & Hsz & Hb).
  pose proof (represents_wf _ _ Hrq) as Hqw. pose proof Hqw as (_ & _ & Hq0).
  unfold accept. destruct url_ok.
  rewrite RemoteStream.subscribe_params by (done || (destruct Hb; unfold log_fits in *; lia)). rewrite Hn.
  unfold PubSub.begin_of_range. cbn [PubSub.param_tail PubSub.recent PubSub.since PubSub.param_i].
  change (negb (0 =? 0)%N) with false. change (0 <? 0) with false. cbv beta iota.
  destruct (Z.ltb_spec 0 (from_us_ (base t))) as [Hpos|Hpos].
  - rewrite (Size_law p l), (IndexRange_law _ _ p l) by done. destruct Hfrom as [?|Hfrom]; [lia|].
    assert (N.max 0 (N.min (index_range (log_entries l).*1 (from_us_ (base t)) 0).1 (log_size l)) = log_size lq) as ->.
    { rewrite Hfrom. by apply (index_after l lq). }
    by destruct (Z.ltb_spec 0 (from_us_ (base t))); [|lia].
  - destruct (Z.ltb_spec 0 0); [lia|]. by replace (from_us_ (base t)) with 0 by lia.
Qed.

Lemma accept_serves l (p : P) t request_timestamp :
  represents p l → log_fits l → log_head l < int64_max → replica l (base t) →
  serves l (next_expected_index_ (base t)) (from_us_ (base t)) (accept (Q := Q) (E := E) url_ request_timestamp t p) [].
Proof.
  intros Hrep Hfit Hmax Hr. rewrite (accept_start l) by done.
  destruct Hr as (lq & (Hrq & Hqfit & -> & Hfrom) & Hf0 & Htake & Hsz & Hb).
  pose proof (represents_wf _ _ Hrq) as (_ & _ & Hq0). set (x := PubSub.make_endpoint _ _ _).
  pose proof (SubscriberThread.start_inv l (log_size lq) (from_us_ (base t)) x) as Hinv.
  assert (SubscriberThread.before_from l (log_size lq) (from_us_ (base t) - 1)) as Hbf.
  { destruct Hfrom as [-> | ->]; [|by replace (log_head lq + 1 - 1) with (log_head lq) by lia].
    destruct Hb as [? Hb]. split; [lia|]. intros j t' e Hj He. specialize (Hb j t' e Hj He). lia. }
  unfold serves. split_and!; try done; [|unfold sent, x, PubSub.make_endpoint; simpl; by destruct (0 <? _)|simpl; lia].
  unfold x, endpoint_at, PubSub.make_endpoint. simpl.
  destruct (Z.ltb_spec 0 (from_us_ (base t))); simpl; split_and!; try done; [by right|lia|by left].
Qed.

(** A chunk delivers the lines it completes. *)
Lemma deliver_chunk l begin evs bytes_sent received t n :
  log_wf l → log_fits l → log_head l < int64_max → replica l (base t) → at_phase t = InRequest →
  Forall (λ c, match_lines c = false) (carried_over_data_ t) → events_ok l begin evs →
  terminate_subscription_requested_ t = false → in_transit begin evs bytes_sent received t →
  let chunk := take n (drop received bytes_sent) in
  let t' := OnChunk (StreamReplicatorImpl (E := E) ck) RM chunk t in
  replica l (base t') ∧ terminate_subscription_requested_ t' = false ∧
  (at_phase t' = InRequest ∧ Forall (λ c, match_lines c = false) (carried_over_data_ t') ∧
     in_transit begin evs bytes_sent (received + length chunk) t' ∨
   at_phase t' = AtTop ∧ carried_over_data_ t' = [] ∧ ∃ u, EvHead u ∈ evs).
Proof.
  intros Hw Hfit Hmax Hrep Hph Hc Hok Hreq (done & pending & -> & Hle & Hcut & Hnext) chunk t'.
  assert (drop received bytes_sent = chunk ++ drop (received + length chunk) bytes_sent) as Hsplit.
  { subst chunk. rewrite length_take, length_drop, <- (take_drop n (drop received bytes_sent)) at 1. f_equal.
    rewrite drop_drop. destruct (Nat.le_ge_cases n (length bytes_sent - received)); [do 2 f_equal; lia|].
    rewrite !drop_ge; [done|lia..]. }
  rewrite Hsplit, cut_app in Hcut. pose proof (cut_rest (carried_over_data_ t) chunk Hc) as Hrest.
  pose proof (pass_chunk_cut (StreamReplicatorImpl (E := E) ck) RM chunk (carried_over_data_ t) (base t) Hc) as Hpass.
  destruct (cut (carried_over_data_ t) chunk) as [lines carried]. simpl in Hrest.
  destruct (cut carried _) as [lines' r'] eqn:Hcut'. injection Hcut as Hlines ->.
  symmetry in Hlines. apply fmap_app_inv in Hlines as (evs1 & evs2 & -> & -> & ->).
  apply events_ok_app in Hok as [_ Hok]. rewrite <- Hnext in Hok. apply events_ok_app in Hok as [Hok1 Hok2].
  destruct (pass_events RM ck l (base t) evs1) as (p' & ex & Hres & Hrep' & Hne & Hn); [done..|].
  rewrite Hres in Hpass. destruct Hpass as (carried' & Hpass & Hcar).
  unfold t', OnChunk. rewrite Hreq, Hpass. destruct ex as [ex|]; simpl.
  - destruct Hn as [u Hu]. assert (EvHead u ∈ done ++ evs1 ++ evs2) by (rewrite !elem_of_app; by right; left).
    destruct ex; simpl; try done; split_and!; try done; right; eauto.
  - specialize (Hcar eq_refl). subst carried'. split_and!; [done..|]. left. split_and!; [done..|].
    exists (done ++ evs1), evs2. split_and!; [by rewrite app_assoc| |done|by rewrite events_next_app, <- Hnext].
    apply (f_equal length) in Hsplit. rewrite length_app, !length_drop in Hsplit. simpl. subst chunk.
    rewrite length_take, length_drop. lia.
Qed.

(** Serving sends more; what is in transit is still the lines of the events. *)
Lemma in_transit_more begin evs evs' bytes_sent received t :
  in_transit begin evs bytes_sent received t → in_transit begin (evs ++ evs') (bytes_sent ++ render evs') received t.
Proof.
  intros (done & pending & -> & Hle & Hcut & Hnext). exists done, (pending ++ evs').
  split_and!; [by rewrite app_assoc|rewrite length_app; lia| |done].
  rewrite drop_app_le, cut_app, Hcut by done. rewrite <- (app_nil_r (render evs')), cut_render. simpl.
  by rewrite fmap_app, app_nil_r.
Qed.

Lemma master_publishes s l a e ck' i p :
  represents (master s) l → log_fits l → log_head l < int64_max →
  Publish a e (clock s) (master s) = (ck', Ok (i, p)) →
  (Size (E := E) (master s) + 1 < no_index)%N → us i < int64_max →
  ∃ l', represents p l' ∧ log_fits l' ∧ log_head l' < int64_max ∧ SubscriberThread.log_extends l l'.
Proof.
  intros Hrep Hfit Hmax Hpub Hsize Hus. destruct (Publish_law a e (clock s) _ _ Hrep Hfit) as [_ Hrel].
  rewrite Hpub in Hrel. simpl in Hrel. destruct (log_publish _ e l) as [[i' l']|] eqn:Hl; [|done].
  destruct Hrel as [Hi Hrep']. simpl in Hi, Hrep'. subst i'. exists l'.
  pose proof (SubscriberThread.publish_extends _ _ _ _ _ Hl) as Hext. unfold log_publish in Hl.
  case_match; [|done]. injection Hl as <- <-. rewrite (Size_law _ l) in Hsize by done.
  split_and!; [done| |done|done]. unfold log_fits, log_size in *. simpl. rewrite length_app. simpl. lia.
Qed.

Lemma master_updates_head s l a ck' p :
  represents (master s) l → log_fits l → (TimestampAsMicroseconds a (clock s)).1 < int64_max →
  UpdateHead (E := E) a (clock s) (master s) = (ck', Ok p) →
  ∃ l', represents p l' ∧ log_fits l' ∧ log_head l' < int64_max ∧ SubscriberThread.log_extends l l'.
Proof.
  intros Hrep Hfit Ht Hup. destruct (UpdateHead_law a (clock s) _ _ Hrep Ht) as [_ Hrel].
  rewrite Hup in Hrel. simpl in Hrel. destruct (log_update_head _ l) as [l'|] eqn:Hl; [|done]. exists l'.
  pose proof (SubscriberThread.update_head_extends _ _ _ Hl) as Hext. unfold log_update_head in Hl.
  case_match; [|done]. injection Hl as <-. by split_and!.
Qed.

Lemma extended_inv s l l' p ck' :
  represents p l' → log_fits l' → log_head l' < int64_max → SubscriberThread.log_extends l l' →
  replica l (base (follower s)) → connection_inv l (connection s) (follower s) →
  system_inv (mkSystem p ck' (connection s) (follower s)).
Proof.
  intros Hrep' Hfit' Hmax' Hext Hr Hc. exists l'. split_and!; [done..| |].
  - by eapply replica_extends.
  - by eapply connection_extends.
Qed.

Lemma loop_inv l s schema ts :
  represents (master s) l → log_fits l → log_head l < int64_max → replica l (base (follower s)) →
  connection_inv l (connection s) (follower s) → at_phase (follower s) = AtTop →
  let t := ThreadImpl_top (StreamReplicatorImpl (E := E) ck) schema (follower s) in
  system_inv (set_follower (match at_phase t with
                            | InRequest => Some (accept url_ ts t (master s), O)
                            | _ => None
                            end) t s).
Proof.
  intros Hrep Hfit Hmax Hr Hc Hph t. exists l. split_and!; [done..| |].
  - unfold t, ThreadImpl_top, request_ended, finish. simpl. destruct (_ && _); [done|]. destruct schema as [|[]]; done.
  - assert (carried_over_data_ (follower s) = []) as Hcar.
    { destruct (connection s) as [[th n]|]; [destruct Hc as (? & _); congruence|by apply Hc]. }
    simpl. unfold t, ThreadImpl_top. simpl. destruct (negb (terminate_sent (follower s)) && _ && _); simpl; [done|].
    destruct schema as [[]|ex]; [|by destruct ex]. simpl. rewrite Hcar. split_and!; [done..|].
    match goal with |- context [accept url_ ts ?t' _] => pose proof (accept_serves l (master s) t' ts Hrep Hfit Hmax Hr) as Hs end.
    pose proof Hs as (_ & _ & _ & _ & _ & _ & _ & Hsent & _). rewrite Hsent.
    eexists _, _, []. split; [exact Hs|]. intros _. by exists [], [].
Qed.

Lemma exec_inv o s s' : system_inv s → exec url_ message RM ck o s = Ok s' → system_inv s'.
Proof.
  intros (l & Hrep & Hfit & Hmax & Hr & Hc). pose proof (represents_wf _ _ Hrep) as Hw.
  destruct o as [a e|a|schema ts| |name value|n|ex|]; simpl.
  - destruct (Publish a e (clock s) (master s)) as [ck' [[i p]|]] eqn:Hp; [|done]. simpl.
    destruct (N.ltb_spec (Size (E := E) (master s) + 1) no_index); [|done]. destruct (Z.ltb_spec (us i) int64_max); [|done].
    intros [= <-]. destruct (master_publishes s l a e ck' i p) as (l' & ? & ? & ? & ?); [done..|]. by eapply (extended_inv s l).
  - destruct (Z.ltb_spec (TimestampAsMicroseconds a (clock s)).1 int64_max); [|done]. simpl.
    destruct (UpdateHead (E := E) a (clock s) (master s)) as [ck' [p|]] eqn:Hp; [|done]. simpl. intros [= <-].
    destruct (master_updates_head s l a ck' p) as (l' & ? & ? & ? & ?); [done..|]. by eapply (extended_inv s l).
  - destruct (at_phase (follower s)) eqn:Hph; [|done..]. simpl. intros [= <-]. by apply (loop_inv l).
  - destruct (connection s) as [[th received]|] eqn:Hcon; [|done]. simpl.
    destruct (SubscriberThread.thread_step _ _ _ _ _) as [th'|] eqn:Hth; [|done]. simpl. intros [= <-].
    destruct Hc as (Hph & Hcar & begin & from & evs & Hs & Ht).
    destruct (serve_step message l begin from th evs (master s) th' Hrep Hfit Hs Hth) as [Hs' Hsent].
    exists l. simpl. split_and!; [done..|]. exists begin, from, (evs ++ emitted th). split; [done|].
    intros Hreq. rewrite Hsent. by apply in_transit_more, Ht.
  - destruct (at_phase (follower s)) eqn:Hph; [done| |done]. simpl. intros [= <-]. unfold OnHeader.
    case_bool_decide; [|destruct s; by exists l]. exists l. split_and!; [done..|]. simpl.
    destruct (connection s) as [[th received]|]; [|by destruct Hc].
    destruct Hc as (_ & Hcar & begin & from & evs & Hs & Ht). by split_and!; [..|exists begin, from, evs].
  - destruct (connection s) as [[th received]|] eqn:Hcon; [|done]. simpl. intros [= <-].
    destruct Hc as (Hph & Hcar & begin & from & evs & Hs & Ht). pose proof Hs as (_ & _ & _ & _ & _ & _ & _ & _ & Hok & _).
    destruct (terminate_subscription_requested_ (follower s)) eqn:Hreq.
    + unfold OnChunk. rewrite Hreq, Hph. exists l. simpl. split_and!; [done..|]. exists begin, from, evs. by rewrite Hreq.
    + destruct (deliver_chunk l begin evs (sent th) received (follower s) n) as (Hr' & Hreq' & Hd); [by auto..|].
      exists l. split_and!; [done..|]. simpl. destruct Hd as [(Hph' & Hcar' & Ht')|(Hph' & Hcar' & _)]; rewrite Hph'; simpl.
      * split_and!; [done..|]. by exists begin, from, evs.
      * by rewrite Hph'.
  - destruct (at_phase (follower s)) eqn:Hph; [by destruct ex as [[]|]| |by destruct ex as [[]|]].
    intros Hex. exists l. destruct ex as [[]|]; simpl in Hex; try done; injection Hex as <-; by split_and!.
  - intros [= <-]. exists l. unfold TerminateSubscription.
    destruct (connection s) as [[th received]|] eqn:Hcon.
    + destruct Hc as (Hph & Hcar & begin & from & evs & Hs & Ht). rewrite Hph.
      destruct (subscription_id_ (follower s)); simpl; split_and!; try done; by exists begin, from, evs.
    + destruct Hc as [Hne Hc]. destruct (at_phase (follower s)) eqn:Hph; [|done|];
        [destruct (subscription_id_ (follower s))|]; simpl; rewrite ?Hph; by split_and!.
Qed.

Lemma start_system_inv l lq (p : P) (q : Q) (c : CK) from_us uninitialized :
  represents p l → log_fits l → log_head l < int64_max → represents q lq → replica_of l lq →
  from_us = 0 ∨ from_us = log_head lq + 1 → system_inv (start p c q from_us uninitialized).
Proof.
  intros Hrep Hfit Hmax Hq Hr Hf. exists l. split_and!; [done..| |done].
  pose proof (represents_wf _ _ Hq) as (_ & _ & ?). pose proof Hr as (_ & Hsz & _).
  assert (log_fits lq) as Hqfit by (unfold log_fits in *; lia).
  exists lq. simpl. split_and!; [split_and!; [done..|by rewrite (Size_law q lq)|done]|lia|done].
Qed.

Lemma replication_reachable_inv s0 s : system_inv s0 → rtc (step url_ message RM ck) s0 s → system_inv s.
Proof. intros Hinv Hr. induction Hr as [|x y z [o Ho] _ IH]; [done|]. apply IH. by eapply exec_inv. Qed.

(** A replica with as many entries as the log has all of them. *)
Lemma replica_complete l lq : replica_of l lq → (log_size l ≤ log_size lq)%N → log_entries lq = log_entries l.
Proof. intros (-> & Hsz & _) Hle. rewrite take_ge; [done|]. unfold log_size in *. lia. Qed.

Lemma nothing_in_transit l begin from evs th t :
  serves l begin from th evs → in_transit begin evs (sent th) (length (sent th)) t →
  next_expected_index_ (base t) = SubscriberThread.position th.
Proof.
  intros (Hinv & Hne & Hb & _ & _ & _ & _ & _ & _ & Hnext & _) (done & pending & -> & _ & Hcut & ->).
  rewrite drop_all in Hcut. injection Hcut as Hp _. symmetry in Hp. apply fmap_nil_inv in Hp. subst pending.
  rewrite app_nil_r in Hnext. by rewrite Hnext, (position_taken l), Hb.
Qed.

(** When everything sent has arrived and the serving thread waits with nothing to
    serve, the replica is complete. *)
Lemma quiescent_complete s th :
  system_inv s → connection s = Some (th, length (sent th)) → terminate_subscription_requested_ (follower s) = false →
  SubscriberThread.at_ th = SubscriberThread.AtWait →
  SubscriberThread.thread_step (PubSub.endpoint_subscriber json_ts_only message) Some (master s) false th = Ok th →
  ∃ l lq, represents (master s) l ∧ represents (subscriber_ (base (follower s))) lq ∧ log_entries lq = log_entries l.
Proof.
  intros (l & Hrep & Hfit & _ & (lq & (Hq & _ & Hn & _) & _ & Hr) & Hc) Hcon Hreq Hat Hidle.
  rewrite Hcon in Hc. destruct Hc as (_ & _ & begin & from & evs & Hs & Ht). specialize (Ht Hreq).
  rewrite (nothing_in_transit l begin from evs th) in Hn by done. exists l, lq. split_and!; [done..|].
  apply replica_complete; [done|]. rewrite <- Hn. unfold SubscriberThread.position. rewrite Hat.
  unfold SubscriberThread.thread_step in Hidle. rewrite Hat, (Size_law (master s) l) in Hidle by done. simpl in Hidle.
  destruct (N.ltb_spec (SubscriberThread.index_ th) (log_size l)); [|lia]. simpl in Hidle.
  apply (f_equal (λ o, match o with Ok t => SubscriberThread.at_ t | _ => SubscriberThread.AtTop end)) in Hidle.
  simpl in Hidle. congruence.
Qed.

(** *** Catching up *)

Definition serving (th : server_thread E) s : system := set_follower (Some (th, O)) (follower s) s.

Lemma exec_serve s l begin from th evs :
  represents (master s) l → log_fits l → serves l begin from th evs →
  ∃ th', SubscriberThread.thread_step (PubSub.endpoint_subscriber json_ts_only message) Some (master s) false th = Ok th' ∧
    exec url_ message RM ck Serve (serving th s) = Ok (serving th' s) ∧ serves l begin from th' (evs ++ emitted th).
Proof.
  intros Hrep Hfit Hs. pose proof Hs as (Hinv & _).
  destruct (SubscriberThread.thread_step_total (PubSub.endpoint_subscriber json_ts_only message) Some l th (master s) false)
    as [th' Hth]; [done..|].
  exists th'. split; [done|]. destruct (serve_step message l begin from th evs (master s) th') as [Hs' _]; [done..|].
  split; [|done]. simpl. by rewrite Hth.
Qed.

(** The thread passes the entries it has read one by one. *)
Lemma serve_entries s l begin from rest th evs hi :
  represents (master s) l → log_fits l → serves l begin from th evs → SubscriberThread.at_ th = SubscriberThread.Passing rest hi →
  ∃ th', execs url_ message RM ck (replicate (length rest) Serve) (serving th s) = Ok (serving th' s) ∧
    serves l begin from th' (evs ++ ((λ x, EvEntry x.1 x.2) <$> rest)) ∧ SubscriberThread.position th' = SubscriberThread.size_of hi.
Proof.
  intros Hrep Hfit. revert th evs. induction rest as [|[current e] rest IH]; intros th evs Hs Hat.
  { exists th. split_and!; [done|by rewrite app_nil_r|]. unfold SubscriberThread.position. rewrite Hat. simpl. lia. }
  destruct (exec_serve s l begin from th evs) as (th' & Hth & Hex & Hs'); [done..|].
  unfold emitted in Hs'. rewrite Hat in Hs'. pose proof Hs' as (_ & Hne & _).
  unfold SubscriberThread.thread_step in Hth. rewrite Hat in Hth.
  unfold SubscriberThread.check_termination in Hth. rewrite andb_false_r in Hth. cbv beta iota in Hth.
  destruct (LastPublishedIndexAndTimestamp (master s)) as [last_|]; [|done]. cbn [mbind outcome_bind] in Hth.
  destruct (SubscriberThread.PassEntryToSubscriberIfTypeMatches _ _ _ _ _ _) as [[x r]|]; [|done].
  cbn [mbind outcome_bind] in Hth. injection Hth as Hth.
  assert (SubscriberThread.at_ th' = SubscriberThread.Passing rest hi) as Hat'.
  { subst th'. simpl in *. by case_bool_decide. }
  destruct (IH th' _ Hs' Hat') as (th'' & Hex'' & Hs'' & Hpos). exists th''. split_and!; [|by rewrite <- app_assoc in Hs''|done].
  cbn [length replicate execs]. rewrite Hex. exact Hex''.
Qed.

(** A thread that starts behind the log reads the entries it is missing. *)
Lemma serve_start s l begin from x :
  represents (master s) l → log_fits l → serves l begin from (SubscriberThread.start begin from x) [] → (begin < log_size l)%N →
  ∃ th rest hi, execs url_ message RM ck [Serve; Serve] (serving (SubscriberThread.start begin from x) s) = Ok (serving th s) ∧
    serves l begin from th [] ∧ SubscriberThread.at_ th = SubscriberThread.Passing rest hi ∧ SubscriberThread.size_of hi = log_size l.
Proof.
  intros Hrep Hfit Hs Hlt. pose proof (represents_wf _ _ Hrep) as Hw. pose proof Hs as (_ & _ & _ & _ & [_ Hbf] & _).
  destruct (exec_serve s l begin from _ [] Hrep Hfit Hs) as (th1 & Hth1 & Hex1 & Hs1). injection Hth1 as <-.
  destruct (exec_serve s l begin from _ _ Hrep Hfit Hs1) as (th2 & Hth2 & Hex2 & Hs2).
  destruct (SubscriberThread.snapshot_now l Hw Hfit) as [_ Hsize].
  assert (from - 1 < log_head l) as Hhead.
  { destruct (lookup_lt_is_Some_2 (log_entries l) (N.to_nat begin)) as [[u e] He]; [unfold log_size in *; lia|].
    assert (from - 1 < u) by (eapply Hbf; [|exact He]; lia). destruct Hw as (_ & Hf & _).
    rewrite Forall_fmap, Forall_lookup in Hf. apply Hf in He. simpl in He. lia. }
  assert (∃ rest, th2 = SubscriberThread.goto (SubscriberThread.Passing rest (log_head_and_last l))
    (SubscriberThread.goto SubscriberThread.AtRead (SubscriberThread.start begin from x))) as [rest Hrest].
  { unfold SubscriberThread.thread_step in Hth2. simpl in Hth2. rewrite (HeadAndLast_law _ l) in Hth2 by done.
    cbn [mbind outcome_bind] in Hth2. simpl hd_head in Hth2. destruct (Z.ltb_spec (from - 1) (log_head l)); [|lia].
    rewrite Hsize in Hth2. destruct (N.ltb_spec begin (log_size l)); [|lia].
    destruct (Iterate _ _ (master s)) as [rest|]; [|done]. exists rest. by injection Hth2. }
  exists th2, rest, (log_head_and_last l). split_and!; [|done|by rewrite Hrest|done].
  cbn [execs]. rewrite Hex1. cbn [mbind outcome_bind execs]. by rewrite Hex2.
Qed.

Lemma execs_app ops ops' s s' s'' :
  execs url_ message RM ck ops s = Ok s' → execs url_ message RM ck ops' s' = Ok s'' →
  execs url_ message RM ck (ops ++ ops') s = Ok s''.
Proof.
  revert s. induction ops as [|o ops IH]; intros s Hs Hs'; simpl in *; [by injection Hs as ->|].
  destruct (exec url_ message RM ck o s) as [s1|]; [|done]. by apply IH.
Qed.

Lemma disconnected_carries_nothing s : system_inv s → at_phase (follower s) = AtTop → carried_over_data_ (follower s) = [].
Proof.
  intros (l & _ & _ & _ & _ & Hc) Hph. destruct (connection s) as [[th n]|]; [destruct Hc as (? & _); congruence|by apply Hc].
Qed.

(** A follower that is not connected can catch up: it connects, the master serves
    what is missing, and it is delivered. *)
Lemma catch_up s :
  system_inv s → at_phase (follower s) = AtTop → terminate_subscription_requested_ (follower s) = false →
  ∃ ops s', execs url_ message RM ck ops s = Ok s' ∧ master s' = master s ∧
    ∃ l lq, represents (master s) l ∧ represents (subscriber_ (base (follower s'))) lq ∧ log_entries lq = log_entries l.
Proof.
  intros Hinv Hph Hreq. pose proof Hinv as (l & Hrep & Hfit & Hmax & Hrq & _). pose proof (represents_wf _ _ Hrep) as Hw.
  pose proof Hrq as (lq & (Hq & _ & Hn & _) & _ & Hr).
  destruct (N.lt_ge_cases (log_size lq) (log_size l)) as [Hlt|Hge].
  2: { exists [], s. split_and!; [done..|]. exists l, lq. split_and!; [done..|]. by apply replica_complete. }
  set (t := mkThread (base (follower s)) [] (subscription_id_ (follower s)) false (terminate_sent (follower s))
    (consecutive_malformed_chunks_count_ (follower s)) InRequest).
  set (s0 := set_follower None t s). pose proof (disconnected_carries_nothing s Hinv Hph) as Hcar.
  assert (exec url_ message RM ck (Loop (Ok ()) 0) s = Ok (serving (accept url_ 0 t (master s)) s0)) as Hloop.
  { simpl. rewrite Hph. unfold ThreadImpl_top. rewrite Hreq, Hcar, andb_false_r, orb_false_r. done. }
  pose proof (accept_serves l (master s) t 0 Hrep Hfit Hmax Hrq) as Hs. rewrite (accept_start l) in Hs, Hloop by done.
  simpl base in Hs, Hloop. rewrite Hn in Hs, Hloop.
  destruct (serve_start s0 l _ _ _ Hrep Hfit Hs Hlt) as (th & rest & hi & Hex & Hs' & Hat & Hsize).
  destruct (serve_entries s0 l _ _ rest th [] hi Hrep Hfit Hs' Hat) as (th' & Hex' & Hs'' & Hpos). simpl app in Hs''.
  pose proof Hs'' as (_ & _ & _ & _ & _ & _ & _ & Hsent & Hok & _).
  destruct (deliver_chunk l (log_size lq) _ (sent th') O t (length (sent th')) Hw Hfit Hmax Hrq eq_refl
    (Forall_nil_2 _) Hok eq_refl) as (Hr' & _ & Hd).
  { exists [], ((λ x, EvEntry x.1 x.2) <$> rest). split_and!; [done|lia| |by rewrite <- Hn].
    rewrite drop_0, Hsent, <- (app_nil_r (render _)), cut_render. simpl. by rewrite app_nil_r. }
  rewrite drop_0, take_ge in Hr', Hd by done. simpl Nat.add in Hd.
  set (t' := OnChunk (StreamReplicatorImpl ck) RM (sent th') t) in *.
  destruct Hd as [(Hph' & _ & Ht)|(_ & _ & u & Hu)].
  2: { apply list_elem_of_fmap in Hu as (? & ? & _). done. }
  exists (Loop (Ok ()) 0 :: [Serve; Serve] ++ replicate (length rest) Serve ++ [Deliver (length (sent th'))]).
  exists (set_follower (Some (th', length (sent th'))) t' s). split_and!; [|done|].
  - cbn [execs]. rewrite Hloop. eapply execs_app; [exact Hex|]. eapply execs_app; [exact Hex'|].
    simpl. rewrite drop_0, take_ge by done. fold t'. by rewrite Hph'.
  - destruct Hr' as (lq' & (Hq' & _ & Hn' & _) & _ & Hr'). exists l, lq'. split_and!; [done..|].
    apply replica_complete; [done|]. rewrite <- Hn'. erewrite nothing_in_transit; [|exact Hs''|exact Ht]. lia.
Qed.

(** *** A replica that is up to date connects to an idle master *)

(** The thread tells a new subscription that asks for no time stamp what the head
    is, even if nothing was published after the index it asks for. *)
Lemma serve_idle s l x :
  represents (master s) l → log_fits l → 0 ≤ log_head l → serves l (log_size l) 0 (SubscriberThread.start (log_size l) 0 x) [] →
  ∃ th, execs url_ message RM ck [Serve; Serve; Serve] (serving (SubscriberThread.start (log_size l) 0 x) s) = Ok (serving th s) ∧
    serves l (log_size l) 0 th [EvHead (log_head l)].
Proof.
  intros Hrep Hfit Hhead Hs. pose proof (represents_wf _ _ Hrep) as Hw.
  destruct (SubscriberThread.snapshot_now l Hw Hfit) as [_ Hsize].
  destruct (exec_serve s l _ _ _ [] Hrep Hfit Hs) as (th1 & Hth1 & Hex1 & Hs1). injection Hth1 as <-.
  destruct (exec_serve s l _ _ _ _ Hrep Hfit Hs1) as (th2 & Hth2 & Hex2 & Hs2).
  unfold SubscriberThread.thread_step in Hth2. simpl in Hth2. rewrite (HeadAndLast_law _ l) in Hth2 by done.
  cbn [mbind outcome_bind] in Hth2. rewrite Hsize, N.ltb_irrefl in Hth2. simpl hd_head in Hth2.
  destruct (Z.ltb_spec (0 - 1) (log_head l)); [|lia]. injection Hth2 as <-.
  destruct (exec_serve s l _ _ _ _ Hrep Hfit Hs2) as (th3 & _ & Hex3 & Hs3).
  match type of Hs3 with serves _ _ _ _ ?evs => assert (evs = [EvHead (log_head l)]) as Hem end.
  { unfold emitted. cbn -[SubscriberThread.size_of log_head_and_last Z.sub]. rewrite Hsize, N.leb_refl.
    simpl hd_head. by destruct (Z.ltb_spec (0 - 1) (log_head l)); [|lia]. }
  rewrite Hem in Hs3. exists th3. split; [|exact Hs3].
  cbn [execs]. rewrite Hex1. cbn [mbind outcome_bind execs]. rewrite Hex2. cbn [mbind outcome_bind execs]. by rewrite Hex3.
Qed.

(** The follower takes the head it has already for an error: it is back where it
    was before it connected. *)
Lemma idle_reconnect s l lq :
  system_inv s → at_phase (follower s) = AtTop → terminate_subscription_requested_ (follower s) = false →
  from_us_ (base (follower s)) = 0 →
  represents (master s) l → log_fits l → 0 ≤ log_head l < int64_max →
  in_step (base (follower s)) lq → replica_of l lq → log_size lq = log_size l → log_head lq = log_head l →
  ∃ n s', execs url_ message RM ck [Loop (Ok ()) 0; Serve; Serve; Serve; Deliver n] s = Ok s' ∧
    master s' = master s ∧ base (follower s') = base (follower s) ∧ at_phase (follower s') = AtTop ∧
    terminate_subscription_requested_ (follower s') = false.
Proof.
  intros Hinv Hph Hreq Hfrom Hrep Hfit [Hhead Hmax] Hin Hr Hsz Hhd.
  assert (replica l (base (follower s))) as Hrq by (exists lq; split_and!; [done|lia|done]). pose proof Hin as (_ & _ & Hn & _).
  set (t := mkThread (base (follower s)) [] (subscription_id_ (follower s)) false (terminate_sent (follower s))
    (consecutive_malformed_chunks_count_ (follower s)) InRequest).
  set (s0 := set_follower None t s). pose proof (disconnected_carries_nothing s Hinv Hph) as Hcar.
  assert (exec url_ message RM ck (Loop (Ok ()) 0) s = Ok (serving (accept url_ 0 t (master s)) s0)) as Hloop.
  { simpl. rewrite Hph. unfold ThreadImpl_top. rewrite Hreq, Hcar, andb_false_r, orb_false_r. done. }
  pose proof (accept_serves l (master s) t 0 Hrep Hfit Hmax Hrq) as Hs. rewrite (accept_start l) in Hs, Hloop by done.
  simpl base in Hs, Hloop. rewrite Hn, Hfrom, Hsz in Hs, Hloop.
  destruct (serve_idle s0 l _ Hrep Hfit Hhead Hs) as (th & Hex & Hs'). pose proof Hs' as (_ & _ & _ & _ & _ & _ & _ & Hsent & _).
  destruct (pass_old_head ck RM (base t) lq (log_head l)) as (ex & Hpass & Hex'); [done|lia..|].
  pose proof (pass_chunk_cut (StreamReplicatorImpl (E := E) ck) RM (sent th) [] (base t) (Forall_nil_2 _)) as Hchunk.
  rewrite Hsent, <- (app_nil_r (render _)), cut_render in Hchunk. cbn [cut fst snd app fmap list_fmap pass_lines] in Hchunk.
  rewrite Hpass, app_nil_r in Hchunk. destruct Hchunk as (carried & Hchunk & _).
  eexists (length (sent th)), _. split.
  - change [Loop (Ok ()) 0; Serve; Serve; Serve; Deliver (length (sent th))]
      with ([Loop (Ok ()) 0] ++ [Serve; Serve; Serve] ++ [Deliver (E := E) (length (sent th))]).
    eapply execs_app; [cbn [execs]; rewrite Hloop; reflexivity|]. eapply execs_app; [exact Hex|].
    cbn [execs exec serving set_follower connection follower mbind outcome_bind].
    rewrite drop_0, take_ge by done. reflexivity.
  - unfold OnChunk. change (terminate_subscription_requested_ (follower s0)) with false. cbv iota.
    change (carried_over_data_ (follower s0)) with ([] : bytes). change (base (follower s0)) with (base t).
    rewrite Hsent, Hchunk. destruct Hex' as [-> | ->]; by split_and!.
Qed.
End Invariant.
End Replication.
