(* ===== verification/MasterFlip.v ===== *)
(** * Changing the master of a stream: [MasterFlipController], stream/replicator.h

    A follower asks the master it follows, over HTTP and with a secret key, to
    let go of the stream.  The master answers with the entries the follower does
    not have yet and stops being the master; the follower publishes them and
    becomes the master. *)

From Stdlib Require Import ZArith NArith Lia Ascii String Sorted.
From stdpp Require Import base gmap list strings relations.
From S2P Require Import Prelude Time Persistence Decimal Strings Stream Url PubSub RemoteStream Replicator Replication.
Open Scope Z_scope.

Module MasterFlip.
Import Replicator.

(** The result of an operation on [int64_t], and the sum of two [uint64_t]. *)
Definition int64 (z : Z) : Z := (z + 2 ^ 63) mod 2 ^ 64 - 2 ^ 63.
Definition u64_add (a b : N) : N := ((a + b) mod 2 ^ 64)%N.

Lemma int64_small z : - 2 ^ 63 ≤ z < 2 ^ 63 → int64 z = z.
Proof. intros Hz. unfold int64. rewrite Z.mod_small; lia. Qed.

Inductive HTTPResponseCode := OK | BadRequest | MethodNotAllowed | ServiceUnavailable.

Global Instance HTTPResponseCode_eq_dec : EqDecision HTTPResponseCode.
Proof. solve_decision. Defined.

Record MasterFlipRestrictions := mkRestrictions {
  max_index_diff_ : N;
  max_diff_size_ : N;
  max_head_diff_ : microseconds;
  max_clock_diff_ : microseconds;
}.

Definition no_restrictions : MasterFlipRestrictions := mkRestrictions 0 0 0 0.

Definition SetMaxIndexDifference (value : N) (r : MasterFlipRestrictions) : MasterFlipRestrictions :=
  mkRestrictions value (max_diff_size_ r) (max_head_diff_ r) (max_clock_diff_ r).
Definition SetMaxHeadDifference (value : microseconds) (r : MasterFlipRestrictions) : MasterFlipRestrictions :=
  mkRestrictions (max_index_diff_ r) (max_diff_size_ r) value (max_clock_diff_ r).
Definition SetMaxClockDifference (value : microseconds) (r : MasterFlipRestrictions) : MasterFlipRestrictions :=
  mkRestrictions (max_index_diff_ r) (max_diff_size_ r) (max_head_diff_ r) value.
Definition SetMaxDiffSize (bytes : N) (r : MasterFlipRestrictions) : MasterFlipRestrictions :=
  mkRestrictions (max_index_diff_ r) bytes (max_head_diff_ r) (max_clock_diff_ r).

(** [ExposedStreamState]; the key is drawn by the random number generator. *)
Record ExposedStreamState := mkExposed {
  flip_key_ : N;
  wrong_key_delay_ : microseconds;
  block_flip_until_ : microseconds;
  flip_restrictions_ : MasterFlipRestrictions;
}.

Definition make_ExposedStreamState (flip_key : N) (restrictions : MasterFlipRestrictions) : ExposedStreamState :=
  mkExposed flip_key 1000000 0 restrictions.

(** A message of the server. *)
Definition says (text : string) : bytes := str text ++ [newline].

(** The callbacks of the user that were called. *)
Inductive notification := FlipStarted | FlipFinished | FlipCanceled.

Inductive controller_exception :=
| StreamIsAlreadyExposedException
| StreamIsNotExposedException
| StreamIsAlreadyFollowingException
| StreamIsAlreadyMasterException
| StreamDoesNotFollowAnyoneException
| Remote (e : remote_exception)
| FromPersister (e : persistence_error).

Section Controller.
Context {P E : Type} `{!LogCodec E, !TsCodec, !Persister P E, !UnsafePersister P E}.

(** [is_master] is [stream_->IsMasterStream()]; [borrowed_publisher_] and
    [remote_follower_] are whether they exist. *)
Record MasterFlipController := mkController {
  stream_ : P;
  is_master : bool;
  borrowed_publisher_ : bool;
  exposed_via_http_ : option ExposedStreamState;
  remote_follower_ : bool;
  notifications : list notification;
}.
Implicit Type c : MasterFlipController.

Definition set_stream (p : P) c : MasterFlipController :=
  mkController p (is_master c) (borrowed_publisher_ c) (exposed_via_http_ c) (remote_follower_ c) (notifications c).
Definition set_exposed (x : option ExposedStreamState) c : MasterFlipController :=
  mkController (stream_ c) (is_master c) (borrowed_publisher_ c) x (remote_follower_ c) (notifications c).
Definition notify (n : notification) c : MasterFlipController :=
  mkController (stream_ c) (is_master c) (borrowed_publisher_ c) (exposed_via_http_ c) (remote_follower_ c) (notifications c ++ [n]).

(** [remote_follower_ = nullptr; stream_->BecomeMasterStream()]. *)
Definition become_master c : MasterFlipController :=
  mkController (stream_ c) true (borrowed_publisher_ c) (exposed_via_http_ c) false (notifications c).
(** [borrowed_publisher_ = stream_->BecomeFollowingStream()]. *)
Definition grab_publisher c : MasterFlipController :=
  mkController (stream_ c) false true (exposed_via_http_ c) (remote_follower_ c) (notifications c).
(** [borrowed_publisher_ = nullptr; stream_->BecomeMasterStream()]. *)
Definition restore_master c : MasterFlipController :=
  mkController (stream_ c) true false (exposed_via_http_ c) (remote_follower_ c) (notifications c).

Definition ExposeViaHTTP (flip_key : N) (restrictions : MasterFlipRestrictions) c
    : outcome controller_exception (N * MasterFlipController) :=
  match exposed_via_http_ c with
  | Some _ => Throw StreamIsAlreadyExposedException
  | None => Ok (flip_key, set_exposed (Some (make_ExposedStreamState flip_key restrictions)) c)
  end.

Definition StopExposingViaHTTP c : outcome controller_exception MasterFlipController :=
  match exposed_via_http_ c with
  | Some _ => Ok (set_exposed None c)
  | None => Throw StreamIsNotExposedException
  end.

(** [connect] is how the construction of the [RemoteStreamFollower] ends. *)
Definition FollowRemoteStream (connect : outcome remote_exception ()) c
    : outcome controller_exception () * MasterFlipController :=
  if remote_follower_ c then (Throw StreamIsAlreadyFollowingException, c)
  else
    let has_borrowed_publisher := borrowed_publisher_ c in
    match connect with
    | Ok _ => (Ok (), mkController (stream_ c) false false (exposed_via_http_ c) true (notifications c))
    | Throw e =>
        (Throw (Remote e),
         if has_borrowed_publisher then grab_publisher c
         else mkController (stream_ c) true (borrowed_publisher_ c) (exposed_via_http_ c) (remote_follower_ c) (notifications c))
    end.

(** ** The master's side *)

Definition response := (HTTPResponseCode * bytes)%type.

(** The loop over the entries: the text grows line by line until it is too large. *)
Fixpoint send_lines (max_diff_size : N) (lines : list bytes) (text : bytes) : option bytes :=
  match lines with
  | [] => Some text
  | line :: lines =>
      let text := text ++ line ++ [newline] in
      if negb (max_diff_size =? 0)%N && (max_diff_size <? N.of_nat (length text))%N then None
      else send_lines max_diff_size lines text
  end.

(** [stream_->Data()->Iterate(start_idx)], or [IterateUnsafe], as lines. *)
Definition diff_lines (checked_subscription : bool) (start_idx : N) (p : P) : outcome persistence_error (list bytes) :=
  if checked_subscription
  then match Iterate start_idx no_index p with
       | Ok es => Ok ((λ e, log_line e.1 e.2) <$> es)
       | Throw e => Throw e
       end
  else IterateUnsafe (E := E) start_idx no_index p.

(** The answer; the flip succeeds if its code is [OK]. *)
Definition ValidateAndSendDiff (restrictions : MasterFlipRestrictions) (start_idx : N) (head_us : microseconds)
    (checked_subscription : bool) (p : P) : outcome persistence_error response :=
  head_idxts ← HeadAndLastPublishedIndexAndTimestamp (E := E) p;
  too_many ← (if negb (max_index_diff_ restrictions =? 0)%N && negb (start_idx =? 0)%N
              then match hd_idxts head_idxts with
                   | Some i => Ok (u64_add start_idx (max_index_diff_ restrictions) <=? index i)%N
                   | None => Throw (Fault DanglingDereference)
                   end
              else Ok false);
  if too_many : bool then Ok (BadRequest, says "Too many entries to replay, aborting sending the diff.")
  else if (0 <? max_head_diff_ restrictions) && (int64 (head_us + max_head_diff_ restrictions) <? hd_head head_idxts)
  then Ok (BadRequest, says "Too large of a delta between HEADs, aborting sending the diff.")
  else
    lines ← diff_lines checked_subscription start_idx p;
    match send_lines (max_diff_size_ restrictions) lines [] with
    | None => Ok (BadRequest, says "The diff to replay is too large.")
    | Some text =>
        let head_is_new := (head_us <? hd_head head_idxts) &&
          match hd_idxts head_idxts with Some i => us i <? hd_head head_idxts | None => true end in
        Ok (OK, text ++ if head_is_new then json_ts_only (hd_head head_idxts) ++ [newline] else [])
    end.

(** The checks before the lock is taken: the request and where the client is, or
    the answer that refuses it. *)
Definition check_request (r : PubSub.Request) (p : P) : outcome persistence_error (response + (N * microseconds * N)) :=
  if negb (bool_decide (PubSub.method r = str "GET")) then Ok (inl (MethodNotAllowed, says "<h1>METHOD NOT ALLOWED</h1>"))
  else if negb (PubSub.has "head" r) || negb (PubSub.has "key" r)
  then Ok (inl (BadRequest, str "Need `head` and `key` as URL parameters."))
  else
    let has_i := PubSub.has "i" r in
    let client_head := FromString_int64 (PubSub.get "head" r) in
    let client_next_index := if has_i then u64_succ (PubSub.FromString_uint64 (PubSub.get "i" r)) else 0%N in
    let secret_flip_key := PubSub.FromString_uint64 (PubSub.get "key" r) in
    head_idxts ← HeadAndLastPublishedIndexAndTimestamp (E := E) p;
    if hd_head head_idxts <? client_head
    then Ok (inl (BadRequest, says "The prospective master's HEAD is ahead of the current master's HEAD."))
    else if has_i && match hd_idxts head_idxts with Some i => (u64_succ (index i) <? client_next_index)%N | None => true end
    then Ok (inl (BadRequest, says "The prospective master's number of entries is greater than that of the current master."))
    else
      let consistent := match hd_idxts head_idxts with
                        | Some i => (N.min (IndexRangeByTimestampRange (E := E) (int64 (client_head + 1)) 0 p).1 (u64_succ (index i))
                                     =? client_next_index)%N
                        | None => true
                        end in
      if negb consistent
      then Ok (inl (BadRequest, says "The prospective master's head doesn't match the specified next index."))
      else Ok (inr (client_next_index, client_head, secret_flip_key)).

(** The choice between asking the stream this one follows in turn and checking the
    key: the answer that refuses the flip, or the controller that goes on. *)
Definition authorize (flip_remote : N → P → P * option remote_exception) (later : microseconds) (secret_flip_key : N)
    (exposed : ExposedStreamState) c : outcome controller_exception response * MasterFlipController + MasterFlipController :=
  if remote_follower_ c
  then match flip_remote secret_flip_key (stream_ c) with
       | (p, None) => inr (become_master (set_stream p c))
       | (p, Some RemoteStreamRefusedFlipRequestException) =>
           inl (Ok (BadRequest, says "The remote stream refused the flip."), set_stream p c)
       | (p, Some e) => inl (Throw (Remote e), set_stream p c)
       end
  else if negb (secret_flip_key =? flip_key_ exposed)%N
  then inl (Ok (BadRequest, says "Wrong secret flip key."),
            set_exposed (Some (mkExposed (flip_key_ exposed) (int64 (wrong_key_delay_ exposed * 2))
                                 (int64 (later + wrong_key_delay_ exposed)) (flip_restrictions_ exposed))) c)
  else inr c.

(** The publisher is taken and the rest of the data sent; if it is not, the stream
    is the master again. *)
Definition hand_over (exposed : ExposedStreamState) (client_next_index : N) (client_head : microseconds) (checked : bool) c
    : outcome controller_exception response * MasterFlipController :=
  let c := grab_publisher (notify FlipStarted c) in
  match ValidateAndSendDiff (flip_restrictions_ exposed) client_next_index client_head checked (stream_ c) with
  | Throw e => (Throw (FromPersister e), c)
  | Ok answer =>
      (Ok answer, if bool_decide (answer.1 = OK) then notify FlipFinished c else notify FlipCanceled (restore_master c))
  end.

(** [MasterFlipRequest].  [before] is the stream when the request is checked; more
    may be published until the publisher is taken, from when on it is the stream of
    [c].  [flip_remote] is what [FlipRemoteStreamFromMasterToFollower] does when
    this stream is itself a follower; [now] and [later] are what the clock says
    under the lock. *)
Definition MasterFlipRequest (before : P) (flip_remote : N → P → P * option remote_exception) (now later : microseconds)
    (r : PubSub.Request) c : outcome controller_exception response * MasterFlipController :=
  match check_request r before with
  | Throw e => (Throw (FromPersister e), c)
  | Ok (inl answer) => (Ok answer, c)
  | Ok (inr (client_next_index, client_head, secret_flip_key)) =>
      match exposed_via_http_ c, borrowed_publisher_ c with
      | Some exposed, false =>
          let max_clock_diff := max_clock_diff_ (flip_restrictions_ exposed) in
          if now <? block_flip_until_ exposed
          then (Ok (BadRequest, says "Too many attempts, wait for some time until the next one."), c)
          else if (0 <? max_clock_diff) &&
             (negb (PubSub.has "clock" r) || (max_clock_diff <? Z.abs (int64 (FromString_int64 (PubSub.get "clock" r) - now))))
          then (Ok (BadRequest, says "Network latency and/or the time skew between the current and prospective masters is too large."), c)
          else match authorize flip_remote later secret_flip_key exposed c with
               | inl refused => refused
               | inr c => hand_over exposed client_next_index client_head (PubSub.has "checked" r) c
               end
      | _, _ => (Ok (ServiceUnavailable, str "Cannot flip to master "), c)
      end
  end.

(** ** The follower's side *)

Context {CK : Type} `{!Clock CK} (ck : CK) (RM : ReplicationMode).

(** [SubscribableRemoteStream::FlipToMaster] with the answer of the master, and
    [FlipRemoteStreamFromMasterToFollower], which lets the exceptions through. *)
Definition FlipToMaster_remote (head_idxts : head_optidxts_t) (answer : response) (p : P) : P * option remote_exception :=
  match answer.1 with
  | OK =>
      let start_idx := match hd_idxts head_idxts with Some i => u64_succ (index i) | None => 0%N end in
      let '(q, _, ex) := PassChunkToSubscriber (StreamReplicatorImpl ck) RM answer.2 [] (mkPosition p start_idx 0) in
      (subscriber_ q, ex)
  | _ => (p, Some RemoteStreamRefusedFlipRequestException)
  end.

(** [FlipToMaster(secret_flip_key)], given the answer to the request it sends;
    after an exception the stream follows the remote one as before. *)
Definition FlipToMaster (answer : response) c : outcome controller_exception () * MasterFlipController :=
  if is_master c then (Throw StreamIsAlreadyMasterException, c)
  else if negb (remote_follower_ c) then (Throw StreamDoesNotFollowAnyoneException, c)
  else match HeadAndLastPublishedIndexAndTimestamp (E := E) (stream_ c) with
       | Throw e => (Throw (FromPersister e), c)
       | Ok head_idxts =>
           match FlipToMaster_remote head_idxts answer (stream_ c) with
           | (p, Some e) => (Throw (Remote e), set_stream p c)
           | (p, None) => (Ok (), become_master (set_stream p c))
           end
       end.
End Controller.
Arguments mkController {P} _ _ _ _ _ _.

(** ** The diff *)

Section Diff.
Context {P E : Type} `{!LogCodec E, !TsCodec, !Persister P E, !PersisterSound P E, !UnsafePersister P E}.
Implicit Types (l : log E) (lines : list bytes).

(** The raw lines of the stream are the lines it would write itself. *)
Definition raw_lines_ok (p : P) l : Prop :=
  ∀ b e, IterateUnsafe (E := E) b e p = match log_iterate b e l with
                                         | Ok es => Ok ((λ x, log_line x.1 x.2) <$> es)
                                         | Throw x => Throw x
                                         end.

Lemma send_lines_text max lines text text' : send_lines max lines text = Some text' →
  text' = text ++ concat ((λ line, (line ++ [newline])) <$> lines) ∧ (max ≠ 0%N → lines ≠ [] → (N.of_nat (length text') ≤ max)%N).
Proof.
  revert text. induction lines as [|line lines IH]; intros text; simpl; [intros [= <-]; by rewrite app_nil_r|].
  destruct (negb (max =? 0)%N && _) eqn:Hmax; [done|]. intros Hs. destruct (IH _ Hs) as [-> Hle].
  split; [by rewrite <- !app_assoc|]. intros Hne _. destruct lines as [|line' lines]; [|by apply Hle].
  simpl in *. rewrite app_nil_r in *. destruct (N.eqb_spec max 0); [done|]. simpl in Hmax.
  apply N.ltb_ge in Hmax. by rewrite <- ?app_assoc in *.
Qed.

Definition missing_entries l (start_idx : N) : list (@event E) :=
  (λ x, EvEntry x.1 x.2) <$> drop (N.to_nat start_idx) (numbered l).

Definition missing_head l (head_us : microseconds) : list (@event E) :=
  if (head_us <? log_head l) && match last (log_entries l) with Some x => x.1 <? log_head l | None => true end
  then [EvHead (log_head l)] else [].

Lemma last_idxts l : hd_idxts (log_head_and_last l) =
  (λ x, mkIdxTs (N.of_nat (pred (length (log_entries l)))) x.1) <$> last (log_entries l).
Proof.
  unfold log_head_and_last. simpl. rewrite !last_lookup, length_numbered, numbered_lookup. by destruct (log_entries l !! _).
Qed.

(** An answer that accepts the flip has the lines of everything that is missing. *)
Lemma diff_sent restrictions start_idx head_us checked_subscription p l text :
  represents p l → log_fits l → checked_subscription = true ∨ raw_lines_ok p l → (start_idx ≤ log_size l)%N →
  ValidateAndSendDiff restrictions start_idx head_us checked_subscription p = Ok (OK, text) →
  text = render (missing_entries l start_idx ++ missing_head l head_us).
Proof.
  intros Hrep Hfit Hmode Hle. unfold ValidateAndSendDiff. rewrite (HeadAndLast_law p l) by done. cbn [mbind outcome_bind].
  match goal with |- (?x ≫= _) = _ → _ => destruct x as [[]|]; [done| |done] end. cbn [mbind outcome_bind].
  destruct (_ && (_ <? _)); [done|].
  assert (diff_lines (E := E) checked_subscription start_idx p =
    Ok ((λ x, log_line x.1 x.2) <$> drop (N.to_nat start_idx) (numbered l))) as ->.
  { assert (log_iterate start_idx no_index l = Ok (drop (N.to_nat start_idx) (numbered l))) as Hit.
    { unfold log_iterate. rewrite N.eqb_refl. destruct (N.leb_spec start_idx (log_size l)); [|lia].
      rewrite N.leb_refl. simpl. rewrite take_ge; [done|]. rewrite length_numbered. unfold log_size. lia. }
    unfold diff_lines. destruct checked_subscription.
    - by rewrite (Iterate_law _ _ p l), Hit.
    - destruct Hmode as [?|Hraw]; [done|]. by rewrite Hraw, Hit. }
  cbn [mbind outcome_bind]. destruct (send_lines _ _ _) as [t|] eqn:Hsend; [|done].
  apply send_lines_text in Hsend as [-> _]. intros [= <-]. rewrite render_app. f_equal.
  - unfold render, missing_entries. simpl. f_equal. rewrite <- !list_fmap_compose. done.
  - unfold missing_head. pose proof (last_idxts l) as Hlast. simpl in Hlast |- *. rewrite Hlast.
    destruct (head_us <? log_head l); [|done]. simpl. destruct (last (log_entries l)); simpl; [case_match|]; try done;
      unfold render; simpl; by rewrite app_nil_r.
Qed.
End Diff.

(** ** The follower publishes the diff *)

Section Apply.
Context {Q E CK : Type} `{!Clock CK, !LogCodec E, !TsCodec, !LogCodecSound E, !TsCodecSound E}.
Context `{!Persister Q E, !PersisterSound Q E, !UnsafePersister Q E, !UnsafePersisterSound Q E}.
Context (RM : ReplicationMode) (ck : CK).
Implicit Types (l lq : log E) (es : list (microseconds * E)).

(** Entries with increasing time stamps after the head are all published. *)
Lemma pass_entries es p lq :
  in_step p lq → StronglySorted (λ x y, x < y) es.*1 → Forall (λ x, log_head lq < x.1) es →
  (log_size lq + N.of_nat (length es) < no_index)%N →
  let lq' := mkLog (log_entries lq ++ es) (default (log_head lq) (fst <$> last es)) in
  ∃ p', pass_lines (StreamReplicatorImpl ck) RM (event_line <$> ((λ x, EvEntry x.1 x.2) <$> numbered_from (length (log_entries lq)) es)) p =
    (p', None) ∧ in_step p' lq'.
Proof.
  revert p lq. induction es as [|[t e] es IH]; intros p lq Hin Hs Hh Hfit lq'.
  { exists p. split; [done|]. unfold lq'. simpl. rewrite app_nil_r. by destruct lq. }
  rewrite fmap_cons in Hs. apply StronglySorted_inv in Hs as [Hs Ht]. apply Forall_cons in Hh as [Hlt Hh]. simpl in Hlt, Ht.
  destruct (pass_entry ck RM p lq t e Hin Hlt) as (s & Hpass & Hrep).
  set (lq1 := mkLog (log_entries lq ++ [(t, e)]) t) in *.
  assert (log_size lq1 = log_size lq + 1)%N as Hsz by (unfold lq1, log_size; simpl; rewrite length_app; simpl; lia).
  destruct (IH (mkPosition s (log_size lq + 1) 0) lq1) as (p' & Hp' & Hin').
  - split_and!; [done|unfold log_fits in *; simpl in Hfit; lia|done|by left].
  - done.
  - by rewrite Forall_fmap in Ht.
  - simpl in Hfit. lia.
  - exists p'. split.
    + rewrite numbered_from_cons, !fmap_cons. cbn [pass_lines]. change (N.of_nat (length (log_entries lq))) with (log_size lq).
      cbn [fst snd]. rewrite Hpass. simpl in Hp'. rewrite length_app in Hp'. simpl in Hp'. by rewrite Nat.add_1_r in Hp'.
    + replace lq' with (mkLog (log_entries lq1 ++ es) (default (log_head lq1) (fst <$> last es))); [done|].
      unfold lq', lq1. simpl. rewrite <- app_assoc. simpl. f_equal. by destruct es as [|y es]; [|rewrite last_cons_cons; destruct (last (y :: es)) eqn:Hl; [|apply last_None in Hl]].
Qed.

Lemma drop_numbered es es' h : drop (length es) (numbered (mkLog (es ++ es') h)) = numbered_from (length es) es'.
Proof.
  unfold numbered, numbered_from. simpl. rewrite imap_app, drop_app_length'; [done|]. by rewrite length_imap.
Qed.

(** The head of a log is the last time stamp, or a later head. *)
Lemma last_entry_before_head l x : log_wf l → last (log_entries l) = Some x → x.1 ≤ log_head l.
Proof.
  intros (_ & Hf & _) Hl. rewrite last_lookup in Hl. rewrite Forall_fmap, Forall_lookup in Hf. apply Hf in Hl. simpl in Hl. lia.
Qed.

(** The head the follower has after the entries: nothing is missing if the master
    sends none, and the one it sends is new. *)
Lemma head_after_entries l lq es :
  log_wf l → log_wf lq → log_entries l = log_entries lq ++ es → log_head lq ≤ log_head l → Forall (λ x, log_head lq < x.1) es →
  let h := default (log_head lq) (fst <$> last es) in
  match missing_head l (log_head lq) with [] => h = log_head l | _ => h < log_head l end.
Proof.
  intros Hw Hqw Hes Hle Hlater h. unfold missing_head.
  assert (∀ x, last (log_entries l) = Some x → x.1 ≤ log_head l) as Hl by (intros; by apply last_entry_before_head).
  assert (∀ x, last (log_entries lq) = Some x → x.1 ≤ log_head lq) as Hql by (intros; by apply last_entry_before_head).
  subst h. destruct (last es) as [y|] eqn:Hy.
  - assert (last (log_entries l) = Some y) as Hly by (rewrite Hes, last_app, Hy; done). rewrite Hly. specialize (Hl y Hly).
    assert (log_head lq < y.1) as Hlt.
    { rewrite last_lookup in Hy. rewrite Forall_lookup in Hlater. by eapply Hlater. }
    simpl. destruct (Z.ltb_spec (log_head lq) (log_head l)); [|lia]. destruct (Z.ltb_spec y.1 (log_head l)); simpl; lia.
  - apply last_None in Hy. subst es. rewrite app_nil_r in Hes. simpl. rewrite Hes.
    destruct (Z.ltb_spec (log_head lq) (log_head l)); simpl; [|lia].
    destruct (last (log_entries lq)) as [y|] eqn:Hy; [|lia]. specialize (Hql y eq_refl).
    rewrite Hes in Hl. specialize (Hl y Hy). destruct (Z.ltb_spec y.1 (log_head l)); simpl; lia.
Qed.

(** What the follower's log is after the diff is the master's log. *)
Lemma diff_applied l lq (q : Q) :
  log_wf l → log_fits l → log_head l < int64_max → represents q lq → Replication.replica_of l lq →
  ∃ q', FlipToMaster_remote ck RM (log_head_and_last lq)
          (OK, render (missing_entries l (log_size lq) ++ missing_head l (log_head lq))) q = (q', None) ∧ represents q' l.
Proof.
  intros Hw Hfit Hmax Hq (Htake & Hsz & Hle & Hb). pose proof (represents_wf _ _ Hq) as Hqw.
  assert (log_fits lq) as Hqfit by (unfold log_fits in *; lia).
  set (es := drop (N.to_nat (log_size lq)) (log_entries l)).
  assert (log_entries l = log_entries lq ++ es) as Hes by (rewrite Htake; symmetry; apply take_drop).
  assert (Forall (λ x, log_head lq < x.1) es) as Hlater.
  { apply Forall_lookup. intros i [t e] Hi. unfold es in Hi. rewrite lookup_drop in Hi. simpl. eapply Hb; [|exact Hi]. lia. }
  pose proof (head_after_entries l lq es Hw Hqw Hes Hle Hlater) as Hhead. cbv zeta in Hhead.
  unfold FlipToMaster_remote. simpl fst. simpl snd.
  destruct (SubscriberThread.snapshot_now lq Hqw Hqfit) as [_ Hstart]. unfold SubscriberThread.size_of in Hstart. rewrite Hstart.
  destruct (pass_entries es (mkPosition q (log_size lq) 0) lq) as (p1 & Hpass & Hin1).
  { split_and!; [done..|by left]. }
  { destruct Hw as (Hsorted & _). unfold es. rewrite fmap_drop. by apply sorted_drop. }
  { done. }
  { unfold log_fits, log_size in *. rewrite Hes, length_app in Hfit. lia. }
  pose proof (pass_chunk_cut (StreamReplicatorImpl (E := E) ck) RM
    (render (missing_entries l (log_size lq) ++ missing_head l (log_head lq))) [] (mkPosition q (log_size lq) 0) (Forall_nil_2 _)) as Hchunk.
  rewrite <- (app_nil_r (render _)), cut_render, app_nil_r in Hchunk. cbn [cut fst snd] in Hchunk.
  rewrite app_nil_r, fmap_app, pass_lines_two in Hchunk.
  assert (missing_entries l (log_size lq) = (λ x, EvEntry x.1 x.2) <$> numbered_from (length (log_entries lq)) es) as Hme.
  { clear -Hes. clearbody es. unfold missing_entries. f_equal. unfold log_size. rewrite Nat2N.id.
    destruct l as [ents h]. simpl in Hes |- *. subst ents.
    apply drop_numbered. }
  rewrite Hme, Hpass in Hchunk. destruct (missing_head l (log_head lq)) as [|ev evs] eqn:Hmh; rewrite <- Hme in Hchunk.
  - cbn [fmap list_fmap pass_lines] in Hchunk. destruct Hchunk as (carried & Hchunk & _). rewrite Hchunk.
    exists (subscriber_ p1). split; [done|]. destruct Hin1 as (Hrep & _). rewrite <- Hes, Hhead in Hrep. by destruct l.
  - unfold missing_head in Hmh. destruct (_ && _); [|done]. injection Hmh as <- <-.
    destruct (pass_head_line ck RM p1 _ (log_head l) Hin1 Hhead Hmax) as (s & Hp & Hrep).
    cbn [fmap list_fmap pass_lines] in Hchunk. rewrite Hp in Hchunk. destruct Hchunk as (carried & Hchunk & _). rewrite Hchunk.
    exists s. split; [done|]. simpl in Hrep. rewrite <- Hes in Hrep. by destruct l.
Qed.
End Apply.

(** ** The request *)

Section Request.
Context {P E : Type} `{!LogCodec E, !TsCodec, !Persister P E, !PersisterSound P E, !UnsafePersister P E}.
Context (url_ : bytes).
Hypothesis url_ok : ("?"%char ∉ url_) ∧ ("#"%char ∉ url_).
Implicit Types (l lq : log E) (p : P).

(** The request of a replica passes the checks, and says where it is. *)
Lemma replica_passes_checks l lq p key now mode ts :
  represents p l → log_fits l → log_head l < int64_max → log_wf lq → Replication.replica_of l lq → (key ≤ no_index)%N →
  check_request (E := E) (RemoteStream.request_of (RemoteStream.GetFlipToMasterURL url_ (log_head_and_last lq) key now mode) ts) p =
    Ok (inr (log_size lq, log_head lq, key)).
Proof.
  intros Hrep Hfit Hmax Hqw Hr Hkey. pose proof Hr as (_ & Hsz & Hle & _). pose proof Hqw as (_ & _ & Hlow).
  pose proof (represents_wf _ _ Hrep) as Hw. assert (log_fits lq) as Hqfit by (unfold log_fits in *; lia). destruct url_ok.
  destruct (RemoteStream.flip_request url_ (log_head_and_last lq) key now mode ts) as (Hm & [Hh Hgh] & [Hk Hgk] & _ & _ & Hi); [done..|].
  generalize dependent (RemoteStream.request_of (RemoteStream.GetFlipToMasterURL url_ (log_head_and_last lq) key now mode) ts).
  intros r Hm Hh Hgh Hk Hgk Hi. unfold check_request. rewrite Hm, bool_decide_eq_true_2, Hh, Hk by done. simpl negb. cbv iota. simpl orb. cbv iota.
  rewrite (HeadAndLast_law p l) by done. cbn [mbind outcome_bind]. rewrite Hgh, Hgk.
  rewrite RemoteStream.int64_roundtrip, RemoteStream.uint64_roundtrip by (done || (simpl; lia)).
  destruct (SubscriberThread.snapshot_now lq Hqw Hqfit) as [_ Hqs]. destruct (SubscriberThread.snapshot_now l Hw Hfit) as [_ Hs].
  assert ((if PubSub.has "i" r then u64_succ (PubSub.FromString_uint64 (PubSub.get "i" r)) else 0%N) = log_size lq) as ->.
  { unfold SubscriberThread.size_of in Hqs. destruct (hd_idxts (log_head_and_last lq)) as [i|] eqn:Hix; [|by rewrite Hi].
    destruct Hi as [-> ->]. rewrite RemoteStream.uint64_roundtrip; [done|].
    rewrite last_idxts in Hix. destruct (last (log_entries lq)); [|done]. simpl in Hix. injection Hix as <-. simpl.
    unfold log_fits, log_size in Hqfit. lia. }
  simpl hd_head. destruct (Z.ltb_spec (log_head l) (log_head lq)); [lia|].
  unfold SubscriberThread.size_of in Hs. destruct (hd_idxts (log_head_and_last l)) as [i|] eqn:Hix.
  - rewrite Hs. destruct (N.ltb_spec (log_size l) (log_size lq)); [lia|]. rewrite andb_false_r, (IndexRange_law _ _ p l) by done.
    pose proof (Replication.index_after l lq Hfit Hqw Hr) as Hia. rewrite N.max_0_l in Hia.
    rewrite int64_small by (unfold int64_max in *; lia). by rewrite Hia, N.eqb_refl.
  - replace (PubSub.has "i" r) with false; [done|]. symmetry.
    assert (log_size lq = 0%N) as Hz by lia.
    destruct (hd_idxts (log_head_and_last lq)) as [j|] eqn:Hjx; [|done]. rewrite last_idxts in Hjx.
    unfold log_size in Hz. destruct (log_entries lq); [done|simpl in Hz; lia].
Qed.
End Request.

(** ** The controller *)

Section Flip.
Context {P E : Type} `{!LogCodec E, !TsCodec, !Persister P E, !PersisterSound P E, !UnsafePersister P E}.
Implicit Types (c : @MasterFlipController P) (r : PubSub.Request) (flip_remote : N → P → P * option remote_exception).

Lemma check_request_refuses r p answer : check_request (E := E) r p = Ok (inl answer) → answer.1 ≠ OK.
Proof.
  unfold check_request. destruct (negb _); [by intros [= <-]|]. destruct (_ || _); [by intros [= <-]|].
  destruct (HeadAndLastPublishedIndexAndTimestamp p) as [hi|]; [|done]. cbn [mbind outcome_bind].
  destruct (_ <? _); [by intros [= <-]|]. destruct (_ && _); [by intros [= <-]|]. destruct (negb _); [by intros [= <-]|done].
Qed.

(** What refusing a wrong key leaves behind. *)
Definition after_wrong_key (later : microseconds) (x : ExposedStreamState) : ExposedStreamState :=
  mkExposed (flip_key_ x) (int64 (wrong_key_delay_ x * 2)) (int64 (later + wrong_key_delay_ x)) (flip_restrictions_ x).

(** How an answer of a stream that follows nobody comes about: the request was
    refused on the way, and nothing has changed or the key was wrong, or the
    publisher was taken. *)
Lemma flip_request_cases before flip_remote now later r c answer c' :
  remote_follower_ c = false → MasterFlipRequest (E := E) before flip_remote now later r c = (Ok answer, c') →
  (answer.1 ≠ OK ∧ (c' = c ∨ ∃ n h key x, check_request (E := E) r before = Ok (inr (n, h, key)) ∧ exposed_via_http_ c = Some x ∧
     key ≠ flip_key_ x ∧ c' = set_exposed (Some (after_wrong_key later x)) c)) ∨
  ∃ client_next_index client_head exposed,
    check_request (E := E) r before = Ok (inr (client_next_index, client_head, flip_key_ exposed)) ∧
    exposed_via_http_ c = Some exposed ∧ borrowed_publisher_ c = false ∧ block_flip_until_ exposed ≤ now ∧
    (0 < max_clock_diff_ (flip_restrictions_ exposed) → PubSub.has "clock" r = true ∧
       Z.abs (int64 (FromString_int64 (PubSub.get "clock" r) - now)) ≤ max_clock_diff_ (flip_restrictions_ exposed)) ∧
    ValidateAndSendDiff (E := E) (flip_restrictions_ exposed) client_next_index client_head (PubSub.has "checked" r) (stream_ c) = Ok answer ∧
    c' = if bool_decide (answer.1 = OK) then notify FlipFinished (grab_publisher (notify FlipStarted c))
         else notify FlipCanceled (restore_master (grab_publisher (notify FlipStarted c))).
Proof.
  intros Hrf. unfold MasterFlipRequest.
  destruct (check_request r before) as [[a|[[n h] key]]|] eqn:Hc; [|..|done].
  { intros [= <- <-]. left. split; [by eapply check_request_refuses|by left]. }
  destruct (exposed_via_http_ c) as [x|] eqn:Hx; [|intros [= <- <-]; left; split; [done|by left]].
  destruct (borrowed_publisher_ c) eqn:Hb; [intros [= <- <-]; left; split; [done|by left]|].
  destruct (Z.ltb_spec now (block_flip_until_ x)); [intros [= <- <-]; left; split; [done|by left]|].
  destruct ((0 <? max_clock_diff_ (flip_restrictions_ x)) && _) eqn:Hclock; [intros [= <- <-]; left; split; [done|by left]|].
  unfold authorize. rewrite Hrf. destruct (N.eqb_spec key (flip_key_ x)) as [->|Hkey]; simpl.
  2: { intros [= <- <-]. left. split; [done|]. right. by exists n, h, key, x. }
  unfold hand_over. destruct (ValidateAndSendDiff _ _ _ _ _) as [a|] eqn:Hv; [|done]. intros [= <- <-].
  right. exists n, h, x. split_and!; try done. intros Hpos.
  destruct (Z.ltb_spec 0 (max_clock_diff_ (flip_restrictions_ x))); [|lia]. simpl in Hclock.
  apply orb_false_iff in Hclock as [Hhas Hdiff]. apply negb_false_iff in Hhas. split; [done|]. lia.
Qed.

(** What a diff that is sent satisfies. *)
Lemma diff_limits restrictions start_idx head_us checked_subscription p (l : log E) text :
  represents p l → log_fits l →
  ValidateAndSendDiff (E := E) restrictions start_idx head_us checked_subscription p = Ok (OK, text) →
  (max_index_diff_ restrictions ≠ 0%N → start_idx ≠ 0%N → (log_size l ≤ start_idx + max_index_diff_ restrictions)%N) ∧
  (0 < max_head_diff_ restrictions → log_head l ≤ int64 (head_us + max_head_diff_ restrictions)).
Proof.
  intros Hrep Hfit. pose proof (represents_wf _ _ Hrep) as Hw. unfold ValidateAndSendDiff.
  rewrite (HeadAndLast_law p l) by done. cbn [mbind outcome_bind].
  destruct (SubscriberThread.snapshot_now l Hw Hfit) as [(_ & _ & Hlast) Hs].
  set (big := if _ && negb (start_idx =? 0)%N then _ else _).
  destruct big as [[]|] eqn:Hbig; [done| |done]. cbn [mbind outcome_bind].
  destruct ((0 <? max_head_diff_ restrictions) && _) eqn:Hhead; [done|]. intros _. split.
  - intros Hm Hst. unfold big in Hbig. destruct (N.eqb_spec (max_index_diff_ restrictions) 0); [done|].
    destruct (N.eqb_spec start_idx 0); [done|]. simpl negb in Hbig. simpl andb in Hbig. cbv iota in Hbig.
    destruct (hd_idxts (log_head_and_last l)) as [i|]; [|done]. destruct Hlast as (Hsz & _). injection Hbig as Hbig.
    apply N.leb_gt in Hbig. pose proof (N.Div0.mod_le (start_idx + max_index_diff_ restrictions) (2 ^ 64)). unfold u64_add in Hbig. lia.
  - intros Hpos. destruct (Z.ltb_spec 0 (max_head_diff_ restrictions)); [|lia]. simpl in Hhead. lia.
Qed.
End Flip.
End MasterFlip.
