(* ===== verification/StdMap.v ===== *)
(** * Ordered maps: what the code uses of [std::map]

    A map is the list of its pairs in the order of its comparator, which is the
    order of iteration.  Two keys are the same key if neither is less than the
    other; the key that was inserted first stays.  The laws need only that this
    is an equivalence. *)

From Stdlib Require Import ZArith NArith Lia Ascii String.
From stdpp Require Import base list strings.
From S2P Require Import Prelude Persistence.
Open Scope nat_scope.

(** What [std::map] asks of its comparator, as far as equality of keys goes. *)
Class KeyOrder {K : Type} (lt : K → K → bool) (canonical : K → K) : Prop :=
  same_key_iff : ∀ a b, negb (lt a b) && negb (lt b a) = true ↔ canonical a = canonical b.

Lemma NoDup_fmap_filter {A B} (f : A → B) (P : A → bool) (l : list A) :
  NoDup (f <$> l) → NoDup (f <$> List.filter P l).
Proof.
  induction l as [|e l IH]; [done|]. simpl. intros [Hn Hl]%NoDup_cons. case_match; [|by apply IH].
  simpl. apply NoDup_cons. split; [|by apply IH]. intros (e' & He & Hin)%list_elem_of_fmap. apply Hn.
  apply list_elem_of_fmap. exists e'. split; [done|]. apply list_elem_of_In in Hin. apply filter_In in Hin as [Hin _].
  by apply list_elem_of_In.
Qed.

Lemma NoDup_fmap_finer {A B C} (f : A → B) (g : A → C) (l : list A) :
  (∀ x y, x ∈ l → y ∈ l → f x = f y → g x = g y) → NoDup (g <$> l) → NoDup (f <$> l).
Proof.
  induction l as [|x l IH]; [intros _ _; apply NoDup_nil_2|]. simpl. intros Hfg [Hn Hl]%NoDup_cons. apply NoDup_cons. split.
  - intros (y & He & Hy)%list_elem_of_fmap. apply Hn. apply list_elem_of_fmap. exists y. split; [|done].
    apply Hfg; [apply list_elem_of_here|by apply list_elem_of_further|done].
  - apply IH; [|done]. intros y z Hy Hz. apply Hfg; by apply list_elem_of_further.
Qed.

Section StdMap.
Context {K : Type} (lt : K → K → bool) {V : Type}.
Implicit Type m : list (K * V).

Definition same_key (a b : K) : bool := negb (lt a b) && negb (lt b a).

Fixpoint map_find (k : K) m : option (K * V) :=
  match m with
  | [] => None
  | (k', v) :: m' => if same_key k k' then Some (k', v) else map_find k m'
  end.

Fixpoint map_replace (k : K) (v : V) m : list (K * V) :=
  match m with
  | [] => []
  | (k', v') :: m' => if same_key k k' then (k', v) :: m' else (k', v') :: map_replace k v m'
  end.

Fixpoint map_insert (k : K) (v : V) m : list (K * V) :=
  match m with
  | [] => [(k, v)]
  | (k', v') :: m' => if lt k k' then (k, v) :: m else (k', v') :: map_insert k v m'
  end.

(** [m[k] = v]. *)
Definition map_assign (k : K) (v : V) m : list (K * V) :=
  match map_find k m with Some _ => map_replace k v m | None => map_insert k v m end.

(** [m.emplace(k, v)] does nothing if the key is there. *)
Definition map_emplace (k : K) (v : V) m : list (K * V) :=
  match map_find k m with Some _ => m | None => map_insert k v m end.

Definition map_erase (k : K) m : list (K * V) := List.filter (λ e, negb (same_key k e.1)) m.

(** ** Laws *)

Context {canonical : K → K} `{HK : !KeyOrder lt canonical}.

Lemma same_key_spec a b : same_key a b = true ↔ canonical a = canonical b.
Proof. apply HK. Qed.

Lemma same_key_refl a : same_key a a = true.
Proof. by apply same_key_spec. Qed.

Lemma same_key_left a b c : canonical a = canonical b → same_key a c = same_key b c.
Proof. intros Hab. apply eq_true_iff_eq. by rewrite !same_key_spec, Hab. Qed.

Lemma map_find_same a b m : canonical a = canonical b → map_find a m = map_find b m.
Proof.
  intros Hab. induction m as [|[k v] m IH]; [done|]. simpl. by rewrite (same_key_left a b k Hab), IH.
Qed.

Lemma map_find_app k m m' :
  map_find k (m ++ m') = match map_find k m with Some e => Some e | None => map_find k m' end.
Proof. induction m as [|[k0 v0] m IH]; simpl; [done|]. by destruct (same_key k k0). Qed.

Lemma map_find_None k m : map_find k m = None ↔ canonical k ∉ (λ e, canonical e.1) <$> m.
Proof.
  induction m as [|[k0 v0] m IH]; simpl; [split; [intros _; apply not_elem_of_nil|done]|]. rewrite elem_of_cons.
  destruct (same_key k k0) eqn:Hk; [apply same_key_spec in Hk; naive_solver|].
  apply not_true_iff_false in Hk. rewrite same_key_spec in Hk. naive_solver.
Qed.

Lemma map_find_elem k m e : map_find k m = Some e → e ∈ m ∧ canonical k = canonical e.1.
Proof.
  induction m as [|[k0 v0] m IH]; simpl; [done|]. destruct (same_key k k0) eqn:Hk.
  - intros [= <-]. apply same_key_spec in Hk. split; [apply list_elem_of_here|done].
  - intros Hf. destruct (IH Hf). split; [by apply list_elem_of_further|done].
Qed.

Lemma map_find_replace k k' v m :
  map_find k (map_replace k' v m) =
  if same_key k k' then (λ e, (e.1, v)) <$> map_find k m else map_find k m.
Proof.
  induction m as [|[k0 v0] m IH]; simpl; [by case_match|].
  destruct (same_key k' k0) eqn:Hs; simpl.
  - apply same_key_spec in Hs. destruct (same_key k k0) eqn:Hk; destruct (same_key k k') eqn:Hk'; try done.
    + rewrite same_key_spec in Hk. apply not_true_iff_false in Hk'. rewrite same_key_spec in Hk'. congruence.
    + apply not_true_iff_false in Hk. rewrite same_key_spec in Hk, Hk'. congruence.
  - rewrite IH. destruct (same_key k k0) eqn:Hk; destruct (same_key k k') eqn:Hk'; try done.
    apply not_true_iff_false in Hs. rewrite same_key_spec in Hk, Hk', Hs. congruence.
Qed.

Lemma map_find_insert k k' v m : map_find k' m = None →
  map_find k (map_insert k' v m) = if same_key k k' then Some (k', v) else map_find k m.
Proof.
  destruct (same_key k k') eqn:Hk.
  - apply same_key_spec in Hk. rewrite (map_find_same k k') by done.
    induction m as [|[k0 v0] m IH]; simpl; [by rewrite same_key_refl|].
    destruct (same_key k' k0) eqn:Hs; [done|]. intros Hn. destruct (lt k' k0); simpl; [by rewrite same_key_refl|].
    rewrite Hs. auto.
  - induction m as [|[k0 v0] m IH]; simpl; [by rewrite Hk|].
    destruct (same_key k' k0) eqn:Hs; [done|]. intros Hn. destruct (lt k' k0); simpl; [by rewrite Hk|].
    by rewrite IH.
Qed.

Lemma map_find_assign k k' v m :
  map_find k (map_assign k' v m) =
  if same_key k k' then Some (match map_find k' m with Some e => e.1 | None => k' end, v) else map_find k m.
Proof.
  unfold map_assign. destruct (map_find k' m) as [e|] eqn:Hf; [|by apply map_find_insert].
  rewrite map_find_replace. destruct (same_key k k') eqn:Hk; [|done].
  apply same_key_spec in Hk. by rewrite (map_find_same k k'), Hf.
Qed.

Lemma map_replace_keys k v m : (λ e, canonical e.1) <$> map_replace k v m = (λ e, canonical e.1) <$> m.
Proof. induction m as [|[k0 v0] m IH]; [done|]. simpl. destruct (same_key k k0); csimpl; [done|]. by rewrite IH. Qed.

Lemma map_insert_keys k v m :
  (λ e, canonical e.1) <$> map_insert k v m ≡ₚ canonical k :: ((λ e, canonical e.1) <$> m).
Proof.
  induction m as [|[k0 v0] m IH]; [done|]. simpl. destruct (lt k k0); [done|]. csimpl.
  rewrite IH. apply Permutation_swap.
Qed.

Lemma map_assign_keys k v m : NoDup ((λ e, canonical e.1) <$> m) → NoDup ((λ e, canonical e.1) <$> map_assign k v m).
Proof.
  intros Hm. unfold map_assign. destruct (map_find k m) as [e|] eqn:Hf; [by rewrite map_replace_keys|].
  rewrite map_insert_keys. apply NoDup_cons. split; [|done]. by apply map_find_None.
Qed.

Lemma map_erase_keys k m : NoDup ((λ e, canonical e.1) <$> m) → NoDup ((λ e, canonical e.1) <$> map_erase k m).
Proof. apply NoDup_fmap_filter. Qed.

Lemma map_find_elem_eq e m : NoDup ((λ e, canonical e.1) <$> m) → e ∈ m → map_find e.1 m = Some e.
Proof.
  induction m as [|[k0 v0] m IH]; [by intros _ ?%elem_of_nil|]. simpl. intros [Hn Hm]%NoDup_cons [->|He]%elem_of_cons.
  - simpl. by rewrite same_key_refl.
  - destruct (same_key e.1 k0) eqn:Hk; [|auto]. apply same_key_spec in Hk. exfalso. apply Hn.
    apply list_elem_of_fmap. by exists e.
Qed.

Lemma map_find_erase k k' m : map_find k (map_erase k' m) = if same_key k k' then None else map_find k m.
Proof.
  induction m as [|[k0 v0] m IH]; simpl; [by case_match|].
  destruct (same_key k' k0) eqn:Hs; simpl; rewrite IH; destruct (same_key k k') eqn:Hk; try done.
  - apply not_true_iff_false in Hk. rewrite same_key_spec in Hk, Hs.
    destruct (same_key k k0) eqn:Hk0; [|done]. rewrite same_key_spec in Hk0. congruence.
  - apply not_true_iff_false in Hs. rewrite same_key_spec in Hk, Hs.
    destruct (same_key k k0) eqn:Hk0; [|done]. rewrite same_key_spec in Hk0. congruence.
Qed.
End StdMap.

(** ** Strings as keys: [std::string::operator<] compares unsigned characters *)

Fixpoint string_less (a b : bytes) : bool :=
  match a, b with
  | _, [] => false
  | [], _ :: _ => true
  | x :: a', y :: b' =>
      if (N_of_ascii x <? N_of_ascii y)%N then true
      else if (N_of_ascii y <? N_of_ascii x)%N then false
      else string_less a' b'
  end.

Lemma N_of_ascii_inj x y : N_of_ascii x = N_of_ascii y → x = y.
Proof. intros H. by rewrite <- (ascii_N_embedding x), <- (ascii_N_embedding y), H. Qed.

Global Instance string_order : KeyOrder string_less id.
Proof.
  intros a. induction a as [|x a IH]; intros [|y b]; simpl; [done..|].
  destruct (N.ltb_spec (N_of_ascii x) (N_of_ascii y)), (N.ltb_spec (N_of_ascii y) (N_of_ascii x)); try lia.
  - split; [done|]. intros [=]; subst; lia.
  - split; [done|]. intros [=]; subst; lia.
  - rewrite IH. unfold id. rewrite (N_of_ascii_inj x y) by lia. naive_solver.
Qed.
