(* ===== verification/State.v ===== *)
(** * Computations that change a state and may throw

    A C++ function that changes an object and may throw leaves the changes made
    before the exception behind.  [io S E A] is such a computation, and [keeps]
    says that it keeps a property of the state, whether it throws or not. *)

From stdpp Require Import base list.
From S2P Require Import Prelude.

(** ** The monad *)

Definition io (S E A : Type) : Type := S → outcome E A * S.

Global Instance io_ret {S E} : MRet (io S E) := λ A a s, (Ok a, s).
Global Instance io_bind {S E} : MBind (io S E) := λ A B f m s,
  match m s with (Ok a, s') => f a s' | (Throw e, s') => (Throw e, s') end.

Definition throw {S E A} (e : E) : io S E A := λ s, (Throw e, s).
Definition io_lift {S E E' A} (f : E → E') (m : outcome E A) : io S E' A := λ s,
  (match m with Ok a => Ok a | Throw e => Throw (f e) end, s).
Definition io_map_error {S E E' A} (f : E → E') (m : io S E A) : io S E' A := λ s,
  match m s with (Ok a, s') => (Ok a, s') | (Throw e, s') => (Throw (f e), s') end.

Lemma io_bind_ok {S E A B} (m : io S E A) (f : A → io S E B) s a s' : m s = (Ok a, s') → (m ≫= f) s = f a s'.
Proof. unfold mbind, io_bind. by intros ->. Qed.

Lemma io_bind_throw {S E A B} (m : io S E A) (f : A → io S E B) s e s' : m s = (Throw e, s') → (m ≫= f) s = (Throw e, s').
Proof. unfold mbind, io_bind. by intros ->. Qed.

Lemma io_map_error_ok {S E E' A} (f : E → E') (m : io S E A) s a s' : m s = (Ok a, s') → io_map_error f m s = (Ok a, s').
Proof. unfold io_map_error. by intros ->. Qed.

Lemma io_map_error_throw {S E E' A} (f : E → E') (m : io S E A) s e s' :
  m s = (Throw e, s') → io_map_error f m s = (Throw (f e), s').
Proof. unfold io_map_error. by intros ->. Qed.

(** ** Properties of the state that a computation keeps *)

Definition keeps {S E A} (P : S → Prop) (m : io S E A) : Prop := ∀ s, P s → P (m s).2.

Create HintDb keeps.

Section Keeps.
Context {S E : Type} (P : S → Prop).

Lemma keeps_ret {A} (a : A) : keeps P (mret a : io S E A).
Proof. by intros s. Qed.

Lemma keeps_throw {A} (e : E) : keeps P (throw e : io S E A).
Proof. by intros s. Qed.

Lemma keeps_lift {E' A} (f : E' → E) (m : outcome E' A) : keeps P (io_lift f m).
Proof. intros s. unfold io_lift. by destruct m. Qed.

Lemma keeps_map_error {E' A} (f : E' → E) (m : io S E' A) : keeps P m → keeps P (io_map_error f m).
Proof. intros Hm s Hs. unfold io_map_error. specialize (Hm s Hs). by destruct (m s) as [[]]. Qed.

Lemma keeps_bind {A B} (m : io S E A) (f : A → io S E B) : keeps P m → (∀ a, keeps P (f a)) → keeps P (m ≫= f).
Proof.
  intros Hm Hf s Hs. unfold mbind, io_bind. specialize (Hm s Hs). destruct (m s) as [[a|] s']; [by apply Hf|done].
Qed.

(** A computation chosen by looking at the state. *)
Lemma keeps_eta {A} (f : S → io S E A) : (∀ s, keeps P (f s)) → keeps P (λ s, f s s).
Proof. intros Hf s. apply Hf. Qed.

End Keeps.

#[export] Hint Resolve keeps_ret keeps_throw keeps_lift keeps_map_error keeps_bind : keeps.

Ltac keeps_tac :=
  repeat first [ match goal with |- ∀ _, keeps _ _ => intros ? end | solve [eauto 2 with keeps] | case_match | apply keeps_bind ].
