(* ===== verification/Tcp.v ===== *)
(** * TCP connections: class [Connection] of bricks/net/tcp/impl/posix.h

    What the peer sends is a list of segments, the pieces [recv] delivers it in;
    after the last one the connection is closed or reset.  What is written is
    appended to [outgoing] as long as the peer accepts it.  [BlockingRead] and
    [BlockingWrite] are the code's; [recv] and [send] are those of the operating
    system, as documented. *)

From Stdlib Require Import ZArith NArith Lia Ascii String.
From stdpp Require Import base sets list strings.
From S2P Require Import Prelude State Persistence.
Open Scope nat_scope.

Module Tcp.

Inductive socket_exception :=
| EmptyConnectionResetByPeer
| EmptySocketReadException
| ConnectionResetByPeer
| SocketReadException
| SocketWriteException
| SocketCouldNotWriteEverythingException.

Inductive BlockingReadPolicy := ReturnASAP | FillFullBuffer.

Global Instance BlockingReadPolicy_eq_dec : EqDecision BlockingReadPolicy.
Proof. solve_decision. Defined.

Record Connection := mkConnection {
  incoming : list bytes;
  (** whether [errno] is [ECONNRESET] when a call of [recv] does not deliver what it was asked for *)
  reset : bool;
  (** whether a signal interrupts a [recv] that waits for all it was asked for *)
  interrupted : bool;
  outgoing : bytes;
  (** how many more bytes [send] accepts, if there is a limit *)
  accepts : option nat;
}.
Implicit Type c : Connection.

Definition set_incoming (segments : list bytes) c : Connection :=
  mkConnection segments (reset c) (interrupted c) (outgoing c) (accepts c).

(** ** Reading *)

Definition push (segment : bytes) (segments : list bytes) : list bytes :=
  match segment with [] => segments | _ => segment :: segments end.

(** [recv(..., n, 0)] delivers what has arrived, at most [n] bytes. *)
Definition recv_some (n : nat) (segments : list bytes) : bytes * list bytes :=
  match segments with
  | [] => ([], [])
  | segment :: rest => (take n segment, push (drop n segment) rest)
  end.

(** [recv(..., n, MSG_WAITALL)] waits for [n] bytes or the end. *)
Fixpoint recv_all (n : nat) (segments : list bytes) : bytes * list bytes :=
  match segments with
  | [] => ([], [])
  | segment :: rest =>
      if n <=? length segment then (take n segment, push (drop n segment) rest)
      else let '(got, rest) := recv_all (n - length segment) rest in (segment ++ got, rest)
  end.

Definition recv (n : nat) (policy : BlockingReadPolicy) c : bytes * Connection :=
  let '(got, rest) :=
    if bool_decide (policy = ReturnASAP) || interrupted c then recv_some n (incoming c) else recv_all n (incoming c) in
  (got, set_incoming rest c).

(** The loop of the code ends after one call: [continue] goes to the condition of
    [do ... while (false)]. *)
Definition BlockingRead (max_length : nat) (policy : BlockingReadPolicy) : io Connection socket_exception bytes := λ c,
  if max_length =? 0 then (Ok [], c)
  else
    let '(got, c') := recv max_length policy c in
    if (0 <? length got) && (bool_decide (policy = ReturnASAP) || (length got =? max_length)) then (Ok got, c')
    else if reset c then (Throw (if 0 <? length got then ConnectionResetByPeer else EmptyConnectionResetByPeer), c')
    else (Throw (if 0 <? length got then SocketReadException else EmptySocketReadException), c').

(** ** Writing *)

Definition BlockingWrite (data : bytes) : io Connection socket_exception () := λ c,
  let written := match accepts c with Some n => take n data | None => data end in
  let c' := mkConnection (incoming c) (reset c) (interrupted c) (outgoing c ++ written)
              ((λ n, n - length written) <$> accepts c) in
  if length written =? length data then (Ok (), c')
  else match written with
       | [] => (Throw SocketWriteException, c')
       | _ => (Throw SocketCouldNotWriteEverythingException, c')
       end.

(** [BlockingWrite(begin, end, more)] and [BlockingWrite(container, more)]. *)
Definition BlockingWrite_range (data : bytes) : io Connection socket_exception () :=
  match data with [] => mret () | _ => BlockingWrite data end.

(** A connection that takes everything goes on to do so. *)
Definition takes_all c : Prop := accepts c = None.

Lemma keeps_read n policy : keeps takes_all (BlockingRead n policy).
Proof.
  intros c Hc. unfold BlockingRead. case_match; [done|]. unfold recv.
  destruct (if (_ : bool) then recv_some _ _ else _) as [got rest]. by repeat case_match.
Qed.

Lemma keeps_write data : keeps takes_all (BlockingWrite data).
Proof. intros c Hc. unfold BlockingWrite, takes_all in *. rewrite Hc. by repeat case_match. Qed.

Lemma keeps_write_range data : keeps takes_all (BlockingWrite_range data).
Proof. destruct data; [apply keeps_ret|apply keeps_write]. Qed.

#[export] Hint Resolve keeps_read keeps_write keeps_write_range : keeps.

(** ** What a call reads *)

Lemma concat_push s rest : concat (push s rest) = s ++ concat rest.
Proof. by destruct s. Qed.

Lemma push_nonempty s rest : Forall (.≠ []) rest → Forall (.≠ []) (push s rest).
Proof. intros H. destruct s; [done|]. by constructor. Qed.

Lemma recv_some_spec n segments : Forall (.≠ []) segments → 0 < n →
  let '(got, rest) := recv_some n segments in
  got ++ concat rest = concat segments ∧ length got ≤ n ∧ Forall (.≠ []) rest ∧ (got = [] → segments = []).
Proof.
  intros Hs Hn. destruct segments as [|s segments]; [by split_and!; simpl; lia || done|].
  apply Forall_cons in Hs as [Hne Hs]. simpl. rewrite concat_push, app_assoc, take_drop. split_and!; [done| | |].
  - rewrite length_take. lia.
  - by apply push_nonempty.
  - destruct s; [done|]. destruct n; [lia|]. done.
Qed.

Lemma recv_all_spec n segments : Forall (.≠ []) segments →
  let '(got, rest) := recv_all n segments in
  got = take n (concat segments) ∧ concat rest = drop n (concat segments) ∧ Forall (.≠ []) rest.
Proof.
  revert n. induction segments as [|s segments IH]; intros n Hs; [simpl; by rewrite take_nil, drop_nil|].
  apply Forall_cons in Hs as [Hne Hs]. simpl. destruct (Nat.leb_spec n (length s)).
  - rewrite concat_push, take_app_le, drop_app_le by lia. split_and!; [done..|]. by apply push_nonempty.
  - specialize (IH (n - length s) Hs). destruct (recv_all (n - length s) segments) as [got rest].
    destruct IH as (-> & -> & ?). rewrite take_app_ge, drop_app_ge by lia. done.
Qed.

(** How a connection ends, from the reader's side. *)
Definition lost (e : socket_exception) : Prop :=
  e ∈ [EmptyConnectionResetByPeer; EmptySocketReadException; ConnectionResetByPeer; SocketReadException].

Definition same_but_incoming c c' : Prop :=
  reset c' = reset c ∧ interrupted c' = interrupted c ∧ outgoing c' = outgoing c ∧ accepts c' = accepts c.

(** A read of some bytes. *)
Lemma read_some n c : Forall (.≠ []) (incoming c) → 0 < n →
  (∃ got c', BlockingRead n ReturnASAP c = (Ok got, c') ∧ got ≠ [] ∧ length got ≤ n ∧ Forall (.≠ []) (incoming c') ∧
    got ++ concat (incoming c') = concat (incoming c) ∧ same_but_incoming c c') ∨
  (∃ e c', BlockingRead n ReturnASAP c = (Throw e, c') ∧ lost e ∧ incoming c = [] ∧ same_but_incoming c c').
Proof.
  intros Hs Hn. unfold BlockingRead, recv. destruct (Nat.eqb_spec n 0); [lia|].
  rewrite bool_decide_eq_true_2 by done. simpl. pose proof (recv_some_spec n (incoming c) Hs Hn) as Hr.
  destruct (recv_some n (incoming c)) as [got rest]. destruct Hr as (Hc & Hl & Hf & He).
  destruct got as [|a got]; simpl.
  - right. assert (incoming c = []) by auto.
    destruct (reset c) eqn:Hres; eexists _, _; (split_and!; [done| |done|done]); unfold lost; set_solver.
  - left. eexists _, _. split_and!; try done.
Qed.

(** A read of so many bytes. *)
Lemma read_full n c : Forall (.≠ []) (incoming c) → 0 < n → interrupted c = false →
  (∃ c', BlockingRead n FillFullBuffer c = (Ok (take n (concat (incoming c))), c') ∧ n ≤ length (concat (incoming c)) ∧
    Forall (.≠ []) (incoming c') ∧ concat (incoming c') = drop n (concat (incoming c)) ∧ same_but_incoming c c') ∨
  (∃ e c', BlockingRead n FillFullBuffer c = (Throw e, c') ∧ lost e ∧ length (concat (incoming c)) < n ∧ same_but_incoming c c').
Proof.
  intros Hs Hn Hi. unfold BlockingRead, recv. destruct (Nat.eqb_spec n 0); [lia|].
  rewrite bool_decide_eq_false_2, Hi by done. simpl. pose proof (recv_all_spec n (incoming c) Hs) as Hr.
  destruct (recv_all n (incoming c)) as [got rest]. destruct Hr as (-> & Hc & Hf).
  rewrite length_take. destruct (Nat.leb_spec n (length (concat (incoming c)))) as [Hle|Hlt].
  - left. rewrite Nat.min_l by done. rewrite Nat.eqb_refl. destruct (Nat.ltb_spec 0 n); [|lia]. simpl.
    eexists. split_and!; done.
  - right. rewrite Nat.min_r by lia. destruct (Nat.eqb_spec (length (concat (incoming c))) n); [lia|].
    rewrite andb_false_r. destruct (reset c) eqn:Hres; eexists _, _;
      (split_and!; [done| |done|done]); unfold lost; case_match; set_solver.
Qed.

(** A connection that takes everything. *)
Lemma write_all data c : accepts c = None →
  BlockingWrite data c = (Ok (), mkConnection (incoming c) (reset c) (interrupted c) (outgoing c ++ data) None).
Proof. intros Ha. unfold BlockingWrite. rewrite Ha. simpl. by rewrite Nat.eqb_refl. Qed.

Lemma write_range data c : accepts c = None →
  BlockingWrite_range data c = (Ok (), mkConnection (incoming c) (reset c) (interrupted c) (outgoing c ++ data) None).
Proof.
  intros Ha. destruct data; [|by apply write_all]. simpl. rewrite app_nil_r, <- Ha. by destruct c.
Qed.

End Tcp.
