(* ===== verification/GroupByLines.v ===== *)
(** * Lines of a text that comes in pieces: bricks/strings/group_by_lines.h

    [GenericStatefulGroupByLines] is fed pieces of a text and passes its complete
    lines to a function; the rest is kept for the next piece, and passed on when
    the object is destroyed or, in the mode for functions that throw, in [Done].
    The function is a computation on a state of the user that may throw. *)

From Stdlib Require Import ZArith NArith Lia Ascii String.
From stdpp Require Import base sets gmap list strings.
From S2P Require Import Prelude Persistence Strings State Tcp.
Open Scope nat_scope.

Module GroupByLines.

Inductive GroupByLinesExceptions := Prohibit | Allow.

Global Instance GroupByLinesExceptions_eq_dec : EqDecision GroupByLinesExceptions.
Proof. solve_decision. Defined.

(** [UserError] is what the function of the user throws. *)
Inductive group_exception (E : Type) :=
| GroupByLinesFeedCaledAfterDone
| GroupByLinesDoneCalledTwice
| UserError (e : E).
Arguments GroupByLinesFeedCaledAfterDone {E}.
Arguments GroupByLinesDoneCalledTwice {E}.
Arguments UserError {E}.

(** How the function is given a line. *)
Inductive Processor := ProcessCPPString | ProcessCString.

Definition DoProcess {A} (p : Processor) (s : bytes) (f : bytes → A) : A :=
  match p with ProcessCPPString => f s | ProcessCString => f (c_str s) end.

Record Group := mkGroup {
  residual_ : bytes;
  exception_thrown_ : bool;
  done_called_ : bool;
}.

Definition make_Group : Group := mkGroup [] false false.

Section Group.
Context {U E : Type} (processor : Processor) (f_ : bytes → io U E ()).

Abbreviation grouping := (io (Group * U) (group_exception E)).

Definition call (line : bytes) : grouping () := λ '(g, u),
  let '(r, u) := DoProcess processor line f_ u in
  (match r with Ok _ => Ok () | Throw e => Throw (UserError e) end, (g, u)).

Definition set_residual (s : bytes) : grouping () := λ '(g, u),
  (Ok (), (mkGroup s (exception_thrown_ g) (done_called_ g), u)).

(** [residual_.swap(extracted)] and the call. *)
Definition process_residual : grouping () := λ '(g, u),
  (_ ← set_residual []; call (residual_ g)) (g, u).

(** The loops over the characters. *)
Fixpoint feed_loop (s : bytes) : grouping () :=
  match s with
  | [] => mret ()
  | c :: s' =>
      if bool_decide (c = nul) then mret ()
      else if bool_decide (c = newline) then _ ← process_residual; feed_loop s'
      else λ '(g, u), (_ ← set_residual (residual_ g ++ [c]); feed_loop s') (g, u)
  end.

Definition Feed (s : bytes) : grouping () := λ '(g, u),
  if done_called_ g then (Throw GroupByLinesFeedCaledAfterDone, (g, u))
  else if exception_thrown_ g then (Ok (), (g, u))
  else match feed_loop s (g, u) with
       | (Throw e, (g, u)) => (Throw e, (mkGroup (residual_ g) true (done_called_ g), u))
       | r => r
       end.

Definition DoDone : grouping () := λ '(g, u),
  match residual_ g with [] => (Ok (), (g, u)) | _ => process_residual (g, u) end.

(** Only in the mode [Allow]. *)
Definition Done : grouping () := λ '(g, u),
  if done_called_ g then (Throw GroupByLinesDoneCalledTwice, (g, u))
  else DoDone (mkGroup (residual_ g) (exception_thrown_ g) true, u).

(** How a destructor ends: [Terminated] is an exception that leaves it,
    [ContractFailure] the call of the handler for a missing [Done]. *)
Inductive destroyed := Destroyed | Terminated | ContractFailure.

Definition destroy (mode : GroupByLinesExceptions) : Group * U → destroyed * U := λ '(g, u),
  match mode with
  | Prohibit =>
      match DoDone (g, u) with
      | (Ok _, (_, u)) => (Destroyed, u)
      | (Throw _, (_, u)) => (Terminated, u)
      end
  | Allow => ((if done_called_ g then Destroyed else ContractFailure), u)
  end.

(** A user who feeds pieces, whatever the calls throw. *)
Fixpoint feed_all (pieces : list bytes) (s : Group * U) : Group * U :=
  match pieces with
  | [] => s
  | p :: pieces => feed_all pieces (Feed p s).2
  end.

End Group.

(** ** The lines of the whole text *)

(** The complete lines, and what follows the last of them. *)
Fixpoint lines_of (residual text : bytes) : list bytes * bytes :=
  match text with
  | [] => ([], residual)
  | c :: text =>
      if bool_decide (c = newline) then let '(l, r) := lines_of [] text in (residual :: l, r)
      else lines_of (residual ++ [c]) text
  end.

Section Lines.
Context {U E : Type} (processor : Processor) (f_ : bytes → io U E ()).
Implicit Type u : U.

(** Calls until the first that throws. *)
Fixpoint run_lines (lines : list bytes) : io U E () :=
  match lines with
  | [] => mret ()
  | l :: lines => _ ← f_ l; run_lines lines
  end.

Lemma call_ok line g u : nul ∉ line →
  call processor f_ line (g, u) =
  (match (f_ line u).1 with Ok _ => Ok () | Throw e => Throw (UserError e) end, (g, (f_ line u).2)).
Proof.
  intros Hl. unfold call, DoProcess. destruct processor; rewrite ?c_str_id by done; by destruct (f_ line u).
Qed.

(** What the state of the group says of the text so far: the calls made are
    those for its lines, and the rest is kept, unless a call threw. *)
Definition follows u0 (text : bytes) (s : Group * U) : Prop :=
  let '(lines, rest) := lines_of [] text in
  let '(r, u) := run_lines lines u0 in
  s.2 = u ∧ done_called_ s.1 = false ∧
  match r with
  | Ok _ => exception_thrown_ s.1 = false ∧ residual_ s.1 = rest
  | Throw _ => exception_thrown_ s.1 = true ∧ residual_ s.1 = []
  end.

Lemma run_lines_app l1 l2 u :
  run_lines (l1 ++ l2) u = match run_lines l1 u with (Ok _, u) => run_lines l2 u | r => r end.
Proof.
  revert u. induction l1 as [|l l1 IH]; intros u; [done|]. simpl. unfold mbind, io_bind.
  destruct (f_ l u) as [[]]; [apply IH|done].
Qed.

Lemma lines_of_app residual t1 t2 :
  lines_of residual (t1 ++ t2) =
  let '(l1, r1) := lines_of residual t1 in let '(l2, r2) := lines_of r1 t2 in (l1 ++ l2, r2).
Proof.
  revert residual. induction t1 as [|c t1 IH]; intros residual; simpl.
  - by destruct (lines_of residual t2).
  - case_bool_decide; [|apply IH]. rewrite IH. destruct (lines_of [] t1) as [l1 r1]. by destruct (lines_of r1 t2).
Qed.

Lemma rest_no_nul residual text : nul ∉ residual → nul ∉ text → nul ∉ (lines_of residual text).2.
Proof.
  revert residual. induction text as [|c text IH]; intros residual Hr; [done|]. intros [Hc Ht]%not_elem_of_cons. simpl.
  case_bool_decide.
  - specialize (IH [] (not_elem_of_nil _) Ht). by destruct (lines_of [] text).
  - apply IH; [|done]. rewrite not_elem_of_app, list_elem_of_singleton. naive_solver.
Qed.

(** One piece. *)
Lemma feed_loop_ok piece residual u : nul ∉ residual → nul ∉ piece →
  let '(lines, rest) := lines_of residual piece in
  let '(r, u') := run_lines lines u in
  feed_loop processor f_ piece (mkGroup residual false false, u) =
  match r with
  | Ok _ => (Ok (), (mkGroup rest false false, u'))
  | Throw e => (Throw (UserError e), (mkGroup [] false false, u'))
  end.
Proof.
  revert residual u. induction piece as [|c piece IH]; intros residual u Hr; [done|].
  intros [Hc Hp]%not_elem_of_cons. simpl. rewrite (bool_decide_eq_false_2 (c = nul)) by done. case_bool_decide as Hn.
  - specialize (IH []). destruct (lines_of [] piece) as [lines rest]. simpl. unfold mbind at 1, io_bind at 1.
    destruct (f_ residual u) as [[[]|e] u'] eqn:Hf.
    + specialize (IH u' (not_elem_of_nil _) Hp).
      assert (process_residual processor f_ (mkGroup residual false false, u) = (Ok (), (mkGroup [] false false, u'))) as Hpr.
      { unfold process_residual. rewrite (io_bind_ok _ _ _ () (mkGroup [] false false, u)) by done.
        cbn [residual_]. by rewrite call_ok, Hf by done. }
      rewrite (io_bind_ok _ _ _ _ _ Hpr). done.
    + erewrite io_bind_throw; [done|]. unfold process_residual.
      rewrite (io_bind_ok _ _ _ () (mkGroup [] false false, u)) by done. cbn [residual_]. by rewrite call_ok, Hf by done.
  - specialize (IH (residual ++ [c]) u). destruct (lines_of (residual ++ [c]) piece) as [lines rest].
    destruct (run_lines lines u) as [r u'].
    rewrite (io_bind_ok _ _ _ () (mkGroup (residual ++ [c]) false false, u)) by done. apply IH; [|done].
    rewrite not_elem_of_app, list_elem_of_singleton. naive_solver.
Qed.

Lemma Feed_ok u0 text piece s : nul ∉ text → nul ∉ piece → follows u0 text s → follows u0 (text ++ piece) (Feed processor f_ piece s).2.
Proof.
  intros Ht Hp. unfold follows. rewrite lines_of_app. pose proof (rest_no_nul [] text (not_elem_of_nil _) Ht) as Hrest.
  destruct (lines_of [] text) as [l1 r1]. destruct (lines_of r1 piece) as [l2 r2] eqn:Hl2. rewrite run_lines_app.
  destruct (run_lines l1 u0) as [[[]|e] u1]; destruct s as [[res thrown don] u]; simpl in *; intros (-> & -> & -> & ->); [|done].
  pose proof (feed_loop_ok piece r1 u1 Hrest Hp) as Hf. rewrite Hl2 in Hf. destruct (run_lines l2 u1) as [[[]|e] u2].
  - by rewrite Hf.
  - by rewrite Hf.
Qed.

Lemma feed_all_ok pieces u0 text s : nul ∉ text → Forall (λ p, nul ∉ p) pieces → follows u0 text s →
  follows u0 (text ++ concat pieces) (feed_all processor f_ pieces s).
Proof.
  revert text s. induction pieces as [|p pieces IH]; intros text s Ht Hp Hs; [by rewrite app_nil_r|].
  apply Forall_cons in Hp as [Hp Hps]. simpl. rewrite app_assoc. apply IH; [|done|by apply Feed_ok].
  rewrite not_elem_of_app. done.
Qed.

(** The text is passed on line by line, the last line too if it is not empty. *)
Definition all_lines (text : bytes) : list bytes :=
  let '(lines, rest) := lines_of [] text in lines ++ match rest with [] => [] | _ => [rest] end.

Lemma group_ok pieces u : Forall (λ p, nul ∉ p) pieces →
  (destroy processor f_ Prohibit (feed_all processor f_ pieces (make_Group, u))).2 = (run_lines (all_lines (concat pieces)) u).2.
Proof.
  intros Hp. pose proof (feed_all_ok pieces u [] (make_Group, u) (not_elem_of_nil _) Hp) as Hf.
  specialize (Hf ltac:(by split_and!)). destruct (feed_all processor f_ pieces (make_Group, u)) as [g u'].
  unfold follows in Hf. cbn [app] in Hf. unfold all_lines.
  assert (nul ∉ concat pieces) as Hn.
  { clear Hf. induction Hp as [|p ps Hp _ IH]; [apply not_elem_of_nil|]. simpl. by rewrite not_elem_of_app. }
  pose proof (rest_no_nul [] _ (not_elem_of_nil _) Hn) as Hrest.
  destruct (lines_of [] (concat pieces)) as [lines rest]. rewrite run_lines_app. simpl in Hrest.
  destruct (run_lines lines u) as [[[]|e] u1]; destruct g as [res thrown don]; simpl in Hf; destruct Hf as (-> & -> & -> & ->); [|done].
  unfold destroy, DoDone. cbn [residual_]. destruct rest as [|c rest]; [done|].
  unfold process_residual. rewrite (io_bind_ok _ _ _ () (mkGroup [] false false, u1)) by done. cbn [residual_].
  rewrite call_ok by done. simpl. unfold mbind, io_bind. by destruct (f_ (c :: rest) u1) as [[[]|] u2].
Qed.

End Lines.
End GroupByLines.
