(* ===== verification/HttpDate.v ===== *)
(** * Dates in HTTP headers: bricks/time/chrono.h, bricks/net/http/headers/headers.h

    [FormatDateTimeAsIMFFix] and [FormatDateTimeAsRFC850] print a time stamp to
    the second, and [ParseHTTPDate] reads both forms and rounds up to the end of
    the second.  The functions of the C library they are written with, [gmtime_r],
    [timegm], [strftime] and [strptime], are modelled for the Gregorian calendar
    and the C locale, with the conversions that the two formats use. *)

From Stdlib Require Import ZArith NArith Lia Ascii String.
From stdpp Require Import base list strings.
From S2P Require Import Prelude Persistence Decimal Strings.
Open Scope Z_scope.

Module HttpDate.

(** ** Calendar time *)

(** [struct tm], with the year in full; [tm_mon] counts from zero, [tm_wday] from Sunday. *)
Record tm := mkTm {
  tm_sec : Z;
  tm_min : Z;
  tm_hour : Z;
  tm_mday : Z;
  tm_mon : Z;
  year : Z;
  tm_wday : Z;
}.

(** [memset(&tm, 0, sizeof(std::tm))]. *)
Definition zero_tm : tm := mkTm 0 0 0 0 0 1900 0.

Definition leap (y : Z) : bool := (y mod 4 =? 0) && (negb (y mod 100 =? 0) || (y mod 400 =? 0)).

(** Leap years before [y]. *)
Definition leaps_before (y : Z) : Z := (y - 1) / 4 - (y - 1) / 100 + (y - 1) / 400.

(** Days from the epoch to the first of January. *)
Definition days_before_year (y : Z) : Z := 365 * (y - 1970) + leaps_before y - leaps_before 1970.

Definition month_lengths (y : Z) : list Z := [31; if leap y then 29 else 28; 31; 30; 31; 30; 31; 31; 30; 31; 30; 31].

Definition sum_of (l : list Z) : Z := foldr Z.add 0 l.

Definition timegm (t : tm) : Z :=
  (days_before_year (year t) + sum_of (take (Z.to_nat (tm_mon t)) (month_lengths (year t))) + tm_mday t - 1) * 86400 +
  tm_hour t * 3600 + tm_min t * 60 + tm_sec t.

(** The year of a day: 400 years have 146097 days, and the estimate is off by one at most. *)
Definition year_of_day (days : Z) : Z :=
  let y := 1970 + days * 400 / 146097 in
  if days <? days_before_year y then y - 1 else if days_before_year (y + 1) <=? days then y + 1 else y.

(** The month and the day of the month, from the day of the year. *)
Fixpoint month_and_day (lengths : list Z) (doy : Z) : Z * Z :=
  match lengths with
  | [] => (0, doy + 1)
  | n :: lengths => if doy <? n then (0, doy + 1) else let '(m, d) := month_and_day lengths (doy - n) in (m + 1, d)
  end.

Definition gmtime_r (tt : Z) : tm :=
  let days := tt / 86400 in
  let s := tt mod 86400 in
  let y := year_of_day days in
  let '(m, d) := month_and_day (month_lengths y) (days - days_before_year y) in
  mkTm (s mod 60) (s / 60 mod 60) (s / 3600) d m y ((days + 4) mod 7).

(** [FillStructTM<UTC>]: [to_time_t] rounds towards zero. *)
Definition FillStructTM (t : microseconds) : tm := gmtime_r (Z.quot t 1000000).

(** ** Printing *)

Definition weekdays : list string := ["Sunday"; "Monday"; "Tuesday"; "Wednesday"; "Thursday"; "Friday"; "Saturday"]%string.
Definition months : list string :=
  ["January"; "February"; "March"; "April"; "May"; "June"; "July"; "August"; "September"; "October"; "November"; "December"]%string.

Definition name_of (names : list string) (i : Z) : bytes := str (default EmptyString (names !! Z.to_nat i)).

(** All the abbreviations have three letters. *)
Definition abbreviated (name : bytes) : bytes := take 3 name.

(** [std::to_string] for numbers that are not negative. *)
Definition unpadded (z : Z) : bytes := digits (if z <? 1000 then if z <? 100 then if z <? 10 then 1 else 2 else 3 else 4) z.

Definition strftime_conversion (c : ascii) (t : tm) : bytes :=
  match c with
  | "a"%char => abbreviated (name_of weekdays (tm_wday t))
  | "A"%char => name_of weekdays (tm_wday t)
  | "b"%char => abbreviated (name_of months (tm_mon t))
  | "d"%char => digits 2 (tm_mday t)
  | "Y"%char => unpadded (year t)
  | "y"%char => digits 2 (year t mod 100)
  | "H"%char => digits 2 (tm_hour t)
  | "M"%char => digits 2 (tm_min t)
  | "S"%char => digits 2 (tm_sec t)
  | _ => []
  end.

Fixpoint strftime (fmt : bytes) (t : tm) : bytes :=
  match fmt with
  | [] => []
  | "%"%char :: c :: fmt => strftime_conversion c t ++ strftime fmt t
  | c :: fmt => c :: strftime fmt t
  end.

Definition IMFFix : bytes := str "%a, %d %b %Y %H:%M:%S GMT".
Definition RFC850 : bytes := str "%A, %d-%b-%y %H:%M:%S GMT".

(** [FormatDateTime<UTC>]: the texts are short enough for its buffer. *)
Definition FormatDateTimeAsIMFFix (t : microseconds) : bytes := strftime IMFFix (FillStructTM t).
Definition FormatDateTimeAsRFC850 (t : microseconds) : bytes := strftime RFC850 (FillStructTM t).

(** ** Parsing *)

Fixpoint drop_blanks (s : bytes) : bytes :=
  match s with " "%char :: s => drop_blanks s | _ => s end.

(** [get_number(from, to, n)] of the C library: at most [n] digits. *)
Fixpoint number_loop (n : nat) (to val : Z) (s : bytes) : Z * bytes :=
  match n, s with
  | S n, c :: s' =>
      match digit_value c with
      | Some d => if val * 10 <=? to then number_loop n to (val * 10 + d) s' else (val, s)
      | None => (val, s)
      end
  | _, _ => (val, s)
  end.

Definition get_number (from to : Z) (n : nat) (s : bytes) : option (Z * bytes) :=
  let s := drop_blanks s in
  if starts_with_digit s then
    let '(val, s) := number_loop n to 0 s in
    if (from <=? val) && (val <=? to) then Some (val, s) else None
  else None.

(** [strncasecmp(name, s, length(name)) == 0], and what is after it. *)
Fixpoint strip_name (name s : bytes) : option bytes :=
  match name, s with
  | [], _ => Some s
  | c :: name, c' :: s => if bool_decide (tolower c = tolower c') then strip_name name s else None
  | _ :: _, [] => None
  end.

(** The full names are tried before the abbreviations, one index after another. *)
Fixpoint get_name (names : list string) (i : Z) (s : bytes) : option (Z * bytes) :=
  match names with
  | [] => None
  | name :: names =>
      match strip_name (str name) s with
      | Some s => Some (i, s)
      | None => match strip_name (abbreviated (str name)) s with
                | Some s => Some (i, s)
                | None => get_name names (i + 1) s
                end
      end
  end.

Definition set_sec (v : Z) (t : tm) : tm := mkTm v (tm_min t) (tm_hour t) (tm_mday t) (tm_mon t) (year t) (tm_wday t).
Definition set_min (v : Z) (t : tm) : tm := mkTm (tm_sec t) v (tm_hour t) (tm_mday t) (tm_mon t) (year t) (tm_wday t).
Definition set_hour (v : Z) (t : tm) : tm := mkTm (tm_sec t) (tm_min t) v (tm_mday t) (tm_mon t) (year t) (tm_wday t).
Definition set_mday (v : Z) (t : tm) : tm := mkTm (tm_sec t) (tm_min t) (tm_hour t) v (tm_mon t) (year t) (tm_wday t).
Definition set_mon (v : Z) (t : tm) : tm := mkTm (tm_sec t) (tm_min t) (tm_hour t) (tm_mday t) v (year t) (tm_wday t).
Definition set_year (v : Z) (t : tm) : tm := mkTm (tm_sec t) (tm_min t) (tm_hour t) (tm_mday t) (tm_mon t) v (tm_wday t).
Definition set_wday (v : Z) (t : tm) : tm := mkTm (tm_sec t) (tm_min t) (tm_hour t) (tm_mday t) (tm_mon t) (year t) v.

Definition stored (set : Z → tm → tm) (r : option (Z * bytes)) (t : tm) : option (tm * bytes) :=
  '(v, s) ← r; Some (set v t, s).

(** Two digits of a year are from 1969 to 2068. *)
Definition strptime_conversion (c : ascii) (s : bytes) (t : tm) : option (tm * bytes) :=
  match c with
  | "a"%char | "A"%char => stored set_wday (get_name weekdays 0 s) t
  | "b"%char => stored set_mon (get_name months 0 s) t
  | "d"%char => stored set_mday (get_number 1 31 2 s) t
  | "Y"%char => stored set_year (get_number 0 9999 4 s) t
  | "y"%char => stored (λ v, set_year (if 69 <=? v then 1900 + v else 2000 + v)) (get_number 0 99 2 s) t
  | "H"%char => stored set_hour (get_number 0 23 2 s) t
  | "M"%char => stored set_min (get_number 0 59 2 s) t
  | "S"%char => stored set_sec (get_number 0 61 2 s) t
  | _ => None
  end.

Fixpoint strptime (s fmt : bytes) (t : tm) : option tm :=
  match fmt with
  | [] => Some t
  | "%"%char :: c :: fmt => '(t, s) ← strptime_conversion c s t; strptime s fmt t
  | c :: fmt =>
      if isspace c then strptime (drop (leading_spaces s) s) fmt t
      else match s with
           | c' :: s => if bool_decide (c = c') then strptime s fmt t else None
           | [] => None
           end
  end.

Inductive SecondsToMicrosecondsPadding := Lower | Upper.

Definition million : Z := 1000000.

(** A time point of the system clock is a signed 64-bit count of nanoseconds. *)
Definition to_int64 (z : Z) : Z := (z + 2 ^ 63) mod 2 ^ 64 - 2 ^ 63.

Definition DateTimeStringToTimestamp (datetime fmt : bytes) (padding : SecondsToMicrosecondsPadding) : microseconds :=
  match strptime (c_str datetime) fmt zero_tm with
  | Some t =>
      let result := Z.quot (to_int64 (timegm t * 1000000000)) 1000 in
      match padding with Lower => result | Upper => result + (million - 1) end
  | None => 0
  end.

Inductive date_exception := InvalidHTTPDateException (datetime : bytes).

(** With the padding that is the default. *)
Definition ParseHTTPDate (datetime : bytes) : outcome date_exception microseconds :=
  let t := DateTimeStringToTimestamp datetime IMFFix Upper in
  if negb (t =? 0) then Ok t
  else
    let t := DateTimeStringToTimestamp datetime RFC850 Upper in
    if negb (t =? 0) then Ok t else Throw (InvalidHTTPDateException datetime).

(** ** The calendar *)

(** [lia] with divisions by constants. *)
Ltac div_lia := Z.div_mod_to_equations; lia.

Lemma leap_days y : leaps_before (y + 1) - leaps_before y = if leap y then 1 else 0.
Proof.
  unfold leaps_before, leap. replace (y + 1 - 1) with y by lia.
  destruct (Z.eqb_spec (y mod 4) 0), (Z.eqb_spec (y mod 100) 0), (Z.eqb_spec (y mod 400) 0); cbn [andb orb negb]; div_lia.
Qed.

Lemma year_length y : days_before_year (y + 1) = days_before_year y + sum_of (month_lengths y).
Proof. pose proof (leap_days y). unfold days_before_year, month_lengths. cbn [sum_of foldr]. destruct (leap y); lia. Qed.

Lemma year_of_day_ok days : days_before_year (year_of_day days) ≤ days < days_before_year (year_of_day days + 1).
Proof.
  unfold year_of_day. set (y := 1970 + days * 400 / 146097).
  assert (days_before_year (y - 1) ≤ days < days_before_year (y + 2)) by (unfold days_before_year, leaps_before, y; div_lia).
  destruct (Z.ltb_spec days (days_before_year y)); [replace (y - 1 + 1) with y by lia; lia|].
  destruct (Z.leb_spec (days_before_year (y + 1)) days); [replace (y + 1 + 1) with (y + 2) by lia; lia|lia].
Qed.

Lemma month_and_day_ok lengths doy m d : month_and_day lengths doy = (m, d) → 0 ≤ doy < sum_of lengths → Forall (λ n, n ≤ 31) lengths →
  sum_of (take (Z.to_nat m) lengths) + d - 1 = doy ∧ 0 ≤ m < Z.of_nat (length lengths) ∧ 1 ≤ d ≤ 31.
Proof.
  revert doy m d. induction lengths as [|n lengths IH]; intros doy m d; cbn [month_and_day sum_of foldr length]; [lia|].
  intros Hm Hd [Hn Hf]%Forall_cons. cbv beta in Hn. destruct (Z.ltb_spec doy n).
  - injection Hm as <- <-. change (Z.to_nat 0) with 0%nat. cbn [take sum_of foldr]. lia.
  - destruct (month_and_day lengths (doy - n)) as [m' d'] eqn:E. injection Hm as <- <-. fold (sum_of lengths) in Hd.
    destruct (IH _ _ _ E) as (Hs & Hm' & Hd'); [lia|done|]. replace (Z.to_nat (m' + 1)) with (S (Z.to_nat m')) by lia.
    cbn [take sum_of foldr]. fold (sum_of (take (Z.to_nat m') lengths)). lia.
Qed.

(** The fields of a [tm] that can be printed and read back. *)
Definition tm_ok (t : tm) : Prop :=
  0 ≤ tm_sec t ≤ 59 ∧ 0 ≤ tm_min t ≤ 59 ∧ 0 ≤ tm_hour t ≤ 23 ∧ 1 ≤ tm_mday t ≤ 31 ∧ 0 ≤ tm_mon t ≤ 11 ∧
  0 ≤ tm_wday t ≤ 6.

Lemma gmtime_ok tt : tm_ok (gmtime_r tt) ∧ timegm (gmtime_r tt) = tt.
Proof.
  unfold gmtime_r. set (y := year_of_day (tt / 86400)). pose proof (year_of_day_ok (tt / 86400)) as Hy. fold y in Hy.
  rewrite year_length in Hy. destruct (month_and_day (month_lengths y) (tt / 86400 - days_before_year y)) as [m d] eqn:E.
  destruct (month_and_day_ok _ _ _ _ E) as (Hd & Hm & Hday); [lia| |].
  { unfold month_lengths. repeat constructor; try lia. destruct (leap y); lia. }
  change (Z.of_nat (length (month_lengths y))) with 12 in Hm.
  unfold tm_ok, timegm. cbn [tm_sec tm_min tm_hour tm_mday tm_mon year tm_wday].
  pose proof (Z_div_mod_eq_full tt 86400). pose proof (Z.mod_pos_bound tt 86400 ltac:(lia)).
  set (s := tt mod 86400) in *. pose proof (Z_div_mod_eq_full s 60). pose proof (Z.mod_pos_bound s 60 ltac:(lia)).
  pose proof (Z_div_mod_eq_full (s / 60) 60). pose proof (Z.mod_pos_bound (s / 60) 60 ltac:(lia)).
  pose proof (Z.mod_pos_bound (tt / 86400 + 4) 7 ltac:(lia)).
  assert (s / 3600 = s / 60 / 60) as -> by (rewrite Z.div_div by lia; done).
  assert (0 ≤ s / 60 / 60 < 24) by div_lia. lia.
Qed.

(** ** Printing and reading back *)

Lemma digits_2 v : digits 2 v = [digit_char (v / 10 mod 10); digit_char (v mod 10)].
Proof. done. Qed.

Lemma digits_4 v :
  digits 4 v = [digit_char (v / 10 / 10 / 10 mod 10); digit_char (v / 10 / 10 mod 10); digit_char (v / 10 mod 10); digit_char (v mod 10)].
Proof. done. Qed.

Lemma digit_char_blank d : 0 ≤ d < 10 → digit_char d ≠ " "%char.
Proof. intros Hd E. apply (f_equal digit_value) in E. by rewrite digit_value_char in E. Qed.

Lemma drop_blanks_digit d s : 0 ≤ d < 10 → drop_blanks (digit_char d :: s) = digit_char d :: s.
Proof.
  intros Hd. pose proof (digit_char_blank d Hd). cbn [drop_blanks]. destruct (digit_char d) as [[] [] [] [] [] [] [] []]; done.
Qed.

Lemma number_step n to val d s : 0 ≤ d < 10 → val * 10 ≤ to →
  number_loop (S n) to val (digit_char d :: s) = number_loop n to (val * 10 + d) s.
Proof. intros Hd Hv. cbn [number_loop]. rewrite digit_value_char by done. by destruct (Z.leb_spec (val * 10) to); [|lia]. Qed.

Lemma get_number_2 from to v rest : 0 ≤ v < 100 → from ≤ v ≤ to → get_number from to 2 (digits 2 v ++ rest) = Some (v, rest).
Proof.
  intros Hv Hr. rewrite digits_2. unfold get_number. cbn [app].
  pose proof (Z.mod_pos_bound v 10 ltac:(lia)). pose proof (Z.mod_pos_bound (v / 10) 10 ltac:(lia)).
  pose proof (Z_div_mod_eq_full v 10). assert (v / 10 mod 10 = v / 10) as Ed by (apply Z.mod_small; lia).
  rewrite drop_blanks_digit by done. cbn [starts_with_digit]. rewrite digit_value_char by done.
  rewrite !number_step by lia. cbn [number_loop].
  replace ((0 * 10 + v / 10 mod 10) * 10 + v mod 10) with v by lia.
  destruct (Z.leb_spec from v), (Z.leb_spec v to); [done|lia..].
Qed.

Lemma get_number_4 v rest : 0 ≤ v < 10000 → get_number 0 9999 4 (digits 4 v ++ rest) = Some (v, rest).
Proof.
  intros Hv. rewrite digits_4. unfold get_number. cbn [app].
  pose proof (Z.mod_pos_bound v 10 ltac:(lia)). pose proof (Z.mod_pos_bound (v / 10) 10 ltac:(lia)).
  pose proof (Z.mod_pos_bound (v / 10 / 10) 10 ltac:(lia)).
  pose proof (Z_div_mod_eq_full v 10). pose proof (Z_div_mod_eq_full (v / 10) 10). pose proof (Z_div_mod_eq_full (v / 10 / 10) 10).
  assert (v / 10 / 10 / 10 mod 10 = v / 10 / 10 / 10) as Ed by (apply Z.mod_small; lia).
  assert (0 ≤ v / 10 / 10 / 10 mod 10 < 10) by lia.
  rewrite drop_blanks_digit by done. cbn [starts_with_digit]. rewrite digit_value_char by done.
  rewrite !number_step by lia. cbn [number_loop].
  match goal with |- context [(0 <=? ?z) && _] => replace z with v by lia end.
  destruct (Z.leb_spec 0 v), (Z.leb_spec v 9999); [done|lia..].
Qed.

Lemma index_cases (P : Z → Prop) n i : 0 ≤ i ≤ Z.of_nat n → Forall P (Z.of_nat <$> seq 0 (S n)) → P i.
Proof.
  intros Hi Hf. rewrite Forall_forall in Hf. apply Hf. apply list_elem_of_fmap. exists (Z.to_nat i).
  rewrite elem_of_seq. lia.
Qed.

Ltac by_index i n := pattern i; apply (index_cases _ n); [lia|]; repeat constructor.

Lemma weekday_abbreviated i rest : 0 ≤ i ≤ 6 →
  get_name weekdays 0 (abbreviated (name_of weekdays i) ++ ","%char :: rest) = Some (i, ","%char :: rest).
Proof. intros Hi. by_index i 6%nat. Qed.

Lemma weekday_full i rest : 0 ≤ i ≤ 6 → get_name weekdays 0 (name_of weekdays i ++ rest) = Some (i, rest).
Proof. intros Hi. by_index i 6%nat. Qed.

Lemma month_abbreviated i c rest : 0 ≤ i ≤ 11 → c = " "%char ∨ c = "-"%char →
  get_name months 0 (abbreviated (name_of months i) ++ c :: rest) = Some (i, c :: rest).
Proof. intros Hi [->| ->]; by_index i 11%nat. Qed.

Lemma month_no_space i rest : 0 ≤ i ≤ 11 → leading_spaces (abbreviated (name_of months i) ++ rest) = 0%nat.
Proof. intros Hi. by_index i 11%nat. Qed.

Lemma digits_no_space n v rest : n ≠ O → leading_spaces (digits n v ++ rest) = 0%nat.
Proof.
  intros Hn. pose proof (digits_not_special) as Hd. specialize (λ c, Hd c n v). pose proof (length_digits n v) as Hl.
  destruct (digits n v) as [|c s]; [by simpl in Hl|]. destruct (Hd c) as (_ & _ & Hs); [apply list_elem_of_here|].
  simpl. by rewrite Hs.
Qed.

(** The steps of [strptime]. *)
Lemma strptime_space s fmt t : leading_spaces s = 0%nat → strptime (" "%char :: s) (" "%char :: fmt) t = strptime s fmt t.
Proof. intros Hs. cbn [strptime]. change (isspace " ") with true. cbn [leading_spaces]. change (isspace " ") with true. cbn iota. by rewrite Hs. Qed.

Lemma strptime_conv c fmt s t t' s' : strptime_conversion c s t = Some (t', s') →
  strptime s ("%"%char :: c :: fmt) t = strptime s' fmt t'.
Proof. intros H. cbn [strptime]. by rewrite H. Qed.

Lemma imf_text t : strftime IMFFix t =
  abbreviated (name_of weekdays (tm_wday t)) ++ ","%char :: " "%char :: digits 2 (tm_mday t) ++ " "%char ::
  abbreviated (name_of months (tm_mon t)) ++ " "%char :: unpadded (year t) ++ " "%char ::
  digits 2 (tm_hour t) ++ ":"%char :: digits 2 (tm_min t) ++ ":"%char :: digits 2 (tm_sec t) ++ str " GMT".
Proof. done. Qed.

Lemma rfc850_text t : strftime RFC850 t =
  name_of weekdays (tm_wday t) ++ ","%char :: " "%char :: digits 2 (tm_mday t) ++ "-"%char ::
  abbreviated (name_of months (tm_mon t)) ++ "-"%char :: digits 2 (year t mod 100) ++ " "%char ::
  digits 2 (tm_hour t) ++ ":"%char :: digits 2 (tm_min t) ++ ":"%char :: digits 2 (tm_sec t) ++ str " GMT".
Proof. done. Qed.

Lemma unpadded_4 v : 1000 ≤ v → unpadded v = digits 4 v.
Proof. intros Hv. unfold unpadded. by destruct (Z.ltb_spec v 1000); [lia|]. Qed.

Lemma strptime_literal c s fmt t : isspace c = false → c ≠ "%"%char → strptime (c :: s) (c :: fmt) t = strptime s fmt t.
Proof.
  intros Hs Hc. assert (strptime (c :: s) (c :: fmt) t = if isspace c then strptime (drop (leading_spaces (c :: s)) (c :: s)) fmt t
    else if bool_decide (c = c) then strptime s fmt t else None) as ->.
  { destruct c as [[] [] [] [] [] [] [] []]; done. }
  by rewrite Hs, bool_decide_eq_true_2.
Qed.

(** One step of [strptime] on the text that [strftime] wrote. *)
Ltac strptime_step :=
  first
    [ rewrite strptime_space by (first [apply month_no_space; lia | apply digits_no_space; done])
    | rewrite strptime_literal by done
    | erewrite strptime_conv by (cbn [strptime_conversion]; unfold stored;
        rewrite ?weekday_abbreviated, ?weekday_full, ?month_abbreviated, ?get_number_4, ?get_number_2 by (lia || by auto); reflexivity) ].

Lemma strptime_imf t t0 : tm_ok t → 1000 ≤ year t < 10000 → strptime (strftime IMFFix t) IMFFix t0 = Some t.
Proof.
  intros (Hs & Hm & Hh & Hd & Hmon & Hw) Hy. rewrite imf_text, unpadded_4 by lia.
  let fmt := eval vm_compute in IMFFix in change IMFFix with fmt. repeat strptime_step. by destruct t.
Qed.

Lemma strptime_rfc850 t t0 : tm_ok t → 1969 ≤ year t < 2069 → strptime (strftime RFC850 t) RFC850 t0 = Some t.
Proof.
  intros (Hs & Hm & Hh & Hd & Hmon & Hw) Hy. rewrite rfc850_text.
  pose proof (Z.mod_pos_bound (year t) 100 ltac:(lia)). pose proof (Z_div_mod_eq_full (year t) 100).
  assert ((if 69 <=? year t mod 100 then 1900 + year t mod 100 else 2000 + year t mod 100) = year t) as Ey
    by (destruct (Z.leb_spec 69 (year t mod 100)); lia).
  let fmt := eval vm_compute in RFC850 in change RFC850 with fmt. repeat strptime_step. cbv beta. rewrite Ey. by destruct t.
Qed.

(** The first format that [ParseHTTPDate] tries refuses the second. *)
Lemma strptime_imf_rfc850 t t0 : tm_ok t → strptime (strftime RFC850 t) IMFFix t0 = None.
Proof.
  intros (Hs & Hm & Hh & Hd & Hmon & Hw). rewrite rfc850_text.
  let fmt := eval vm_compute in IMFFix in change IMFFix with fmt. do 4 strptime_step. reflexivity.
Qed.

(** The texts have no NUL, and no line ends in them. *)
Definition control (c : ascii) : Prop := c = nul ∨ c = "013"%char.

Lemma digits_no_control c n v : control c → c ∉ digits n v.
Proof.
  intros Hc Hn. pose proof (digits_value n v) as Hd. rewrite Forall_forall in Hd. destruct (Hd c Hn) as [d Hc']. by destruct Hc as [->| ->].
Qed.

Lemma weekday_no_control c i : control c → 0 ≤ i ≤ 6 → c ∉ name_of weekdays i.
Proof.
  intros Hc Hi. destruct Hc as [->| ->]; pattern i; (apply (index_cases _ 6); [lia|]);
    repeat constructor; apply (bool_decide_unpack _); vm_compute; exact I.
Qed.

Lemma month_no_control c i : control c → 0 ≤ i ≤ 11 → c ∉ name_of months i.
Proof.
  intros Hc Hi. destruct Hc as [->| ->]; pattern i; (apply (index_cases _ 11); [lia|]);
    repeat constructor; apply (bool_decide_unpack _); vm_compute; exact I.
Qed.

Lemma abbreviated_not_in c s : c ∉ s → c ∉ abbreviated s.
Proof. intros Hs Hin. apply Hs. rewrite <- (take_drop 3 s). apply elem_of_app. by left. Qed.

Lemma gmt_no_control c : control c → c ∉ str " GMT".
Proof.
  intros Hc. destruct Hc as [->| ->]; apply (bool_decide_unpack _); vm_compute; exact I.
Qed.

Lemma not_separator c d : control c → d ∈ [" "; ","; ":"; "-"]%char → c ≠ d.
Proof. rewrite !elem_of_cons, elem_of_nil. intros [->| ->] Hd; by destruct_or?; subst. Qed.

Ltac no_control :=
  repeat first
    [ by apply digits_no_control | by apply gmt_no_control | apply weekday_no_control; [done|lia] | apply abbreviated_not_in, weekday_no_control; [done|lia]
    | apply abbreviated_not_in, month_no_control; [done|lia] | apply not_elem_of_app; split | apply not_elem_of_cons; split
    | apply not_separator; [done|apply (bool_decide_unpack _); vm_compute; exact I] ].

Lemma imf_no_control c t : control c → tm_ok t → c ∉ strftime IMFFix t.
Proof. intros Hc (_ & _ & _ & _ & Hm & Hw). rewrite imf_text. unfold unpadded. no_control. Qed.

Lemma imf_no_nul t : tm_ok t → nul ∉ strftime IMFFix t.
Proof. apply imf_no_control. by left. Qed.

Lemma rfc850_no_nul t : tm_ok t → nul ∉ strftime RFC850 t.
Proof. intros (_ & _ & _ & _ & Hm & Hw). rewrite rfc850_text. assert (control nul) by by left. no_control. Qed.

(** Years of the seconds that fit in a time stamp, and of those before 2038. *)
Lemma year_estimate days : 1969 + days * 400 / 146097 ≤ year_of_day days ≤ 1971 + days * 400 / 146097.
Proof. unfold year_of_day. destruct (_ <? _); [lia|]. destruct (_ <=? _); lia. Qed.

Lemma gmtime_year tt : year (gmtime_r tt) = year_of_day (tt / 86400).
Proof. unfold gmtime_r. by destruct (month_and_day _ _). Qed.

Lemma year_range tt : 0 ≤ tt ≤ int64_max / 1000000000 → 1000 ≤ year (gmtime_r tt) < 10000.
Proof.
  intros Ht. assert (int64_max / 1000000000 = 9223372036) as E by (by vm_compute). rewrite E in Ht. clear E.
  rewrite gmtime_year. pose proof (year_estimate (tt / 86400)). div_lia.
Qed.

Lemma year_before_2038 tt : 0 ≤ tt < 2 ^ 31 → 1969 ≤ year (gmtime_r tt) < 2069.
Proof. intros Ht. rewrite gmtime_year. pose proof (year_estimate (tt / 86400)). div_lia. Qed.

(** The end of the second that [tt] is, in microseconds. *)
Lemma padded_seconds tt : 0 ≤ tt ≤ int64_max / 1000000000 →
  Z.quot (to_int64 (tt * 1000000000)) 1000 + (million - 1) = tt * million + (million - 1).
Proof.
  intros Ht. assert (int64_max / 1000000000 = 9223372036) as E by (by vm_compute). rewrite E in Ht. clear E.
  unfold to_int64, million. rewrite Z.mod_small by lia. rewrite Z.quot_div_nonneg by lia.
  replace (tt * 1000000000 + 2 ^ 63 - 2 ^ 63) with (tt * 1000000 * 1000) by lia. rewrite Z.div_mul by lia. done.
Qed.

Lemma seconds_of t : 0 ≤ t → t * 1000 ≤ int64_max →
  0 ≤ Z.quot t 1000000 ≤ int64_max / 1000000000 ∧ Z.quot t 1000000 * million = t - t mod million.
Proof.
  intros H0 Ht. rewrite Z.quot_div_nonneg by lia. unfold million. pose proof (Z_div_mod_eq_full t 1000000).
  split; [|lia]. split; [apply Z.div_pos; lia|]. apply Z.div_le_lower_bound; [lia|].
  pose proof (Z.mod_pos_bound t 1000000 ltac:(lia)). lia.
Qed.

(** What [ParseHTTPDate] makes of a date this program wrote: the end of its second. *)
Lemma ParseHTTPDate_imf t : 0 ≤ t → t * 1000 ≤ int64_max →
  ParseHTTPDate (FormatDateTimeAsIMFFix t) = Ok (t - t mod million + (million - 1)).
Proof.
  intros H0 Ht. destruct (seconds_of t H0 Ht) as [Hs Hm]. destruct (gmtime_ok (Z.quot t 1000000)) as [Hok Htt].
  unfold ParseHTTPDate, DateTimeStringToTimestamp, FormatDateTimeAsIMFFix, FillStructTM.
  rewrite c_str_id, strptime_imf, Htt, padded_seconds, Hm by auto using year_range, imf_no_nul.
  destruct (Z.eqb_spec (t - t mod million + (million - 1)) 0); [|done]. pose proof (Z.mod_le t million). unfold million in *. lia.
Qed.

Lemma ParseHTTPDate_rfc850 t : 0 ≤ t < 2 ^ 31 * million →
  ParseHTTPDate (FormatDateTimeAsRFC850 t) = Ok (t - t mod million + (million - 1)).
Proof.
  intros Ht. destruct (seconds_of t) as [Hs Hm]; [unfold million, int64_max in *; lia..|].
  destruct (gmtime_ok (Z.quot t 1000000)) as [Hok Htt].
  assert (0 ≤ Z.quot t 1000000 < 2 ^ 31) by (unfold million in *; Z.quot_rem_to_equations; lia).
  unfold ParseHTTPDate, DateTimeStringToTimestamp, FormatDateTimeAsRFC850, FillStructTM.
  rewrite c_str_id by auto using rfc850_no_nul. rewrite strptime_imf_rfc850 by done. cbn [Z.eqb negb].
  rewrite strptime_rfc850, Htt, padded_seconds, Hm by auto using year_before_2038.
  destruct (Z.eqb_spec (t - t mod million + (million - 1)) 0); [|done]. pose proof (Z.mod_le t million). unfold million in *. lia.
Qed.
End HttpDate.
