(* ===== verification/HttpHeaders.v ===== *)
(** * HTTP headers: bricks/net/http/headers/headers.h

    [Headers] keeps each header twice: in a map from its name, compared without
    regard to case and to the difference between "-" and "_", to the [Header]
    object, and in a list of pointers to these objects, in the order they were
    added.  The objects are in the heap of the model: reading through a pointer
    whose object is gone is the fault [DanglingDereference].  The abstract
    content is the list of names and values, which [Set] appends to or extends
    in place. *)

From Stdlib Require Import ZArith NArith Lia Ascii String.
From stdpp Require Import base gmap list strings.
From S2P Require Import Prelude Persistence Strings StdMap.
Open Scope nat_scope.

Module HttpHeaders.

(** ** One header *)

Inductive header_exception :=
| HeaderNotFoundException (h : bytes)
| CookieIsNotYourRegularHeader
| HeaderFault (f : fault).

Record Header := mkHeader { header : bytes; value : bytes }.

(** [KeyComparator::Canonical]. *)
Definition Canonical (c : ascii) : ascii :=
  if bool_decide (c = "-"%char) then "_"%char
  else if char_between "A" "Z" c then ascii_of_N (N_of_ascii c + 32)
  else c.

(** A [char] is signed. *)
Definition char_value (c : ascii) : Z :=
  let n := Z.of_N (N_of_ascii c) in if (n <? 128)%Z then n else (n - 256)%Z.

(** [KeyComparator::operator()]. *)
Fixpoint KeyComparator (lhs rhs : bytes) : bool :=
  match lhs, rhs with
  | _, [] => false
  | [], _ :: _ => true
  | x :: lhs', y :: rhs' =>
      let a := char_value (Canonical x) in
      let b := char_value (Canonical y) in
      if (a <? b)%Z then true else if (b <? a)%Z then false else KeyComparator lhs' rhs'
  end.

Definition IsCookieHeader (h : bytes) : bool :=
  (negb (KeyComparator h (str "Cookie")) && negb (KeyComparator (str "Cookie") h)) ||
  (negb (KeyComparator h (str "Set-Cookie")) && negb (KeyComparator (str "Set-Cookie") h)).

Definition ThrowIfHeaderIsCookie (h : bytes) : outcome header_exception () :=
  if IsCookieHeader h then Throw CookieIsNotYourRegularHeader else Ok ().

(** [Header(header)] and [Header(header, value)]. *)
Definition make_Header (h v : bytes) : outcome header_exception Header :=
  _ ← ThrowIfHeaderIsCookie h; Ok (mkHeader h v).

Record Cookie := mkCookie { cookie_value : bytes; params : list (bytes * bytes) }.

(** ** All headers *)

Abbreviation pointer := nat (only parsing).

Record Headers := mkHeaders {
  heap : gmap pointer Header;
  fresh_pointer : pointer;
  map : list (bytes * option pointer);
  list_ : list (bytes * option pointer);
  cookies : list (bytes * Cookie);
}.
Implicit Types hs rhs : Headers.

Definition no_headers : Headers := mkHeaders ∅ 0 [] [] [].

Definition deref (p : option pointer) hs : outcome header_exception Header :=
  match p ≫= λ p, heap hs !! p with Some x => Ok x | None => Throw (HeaderFault DanglingDereference) end.

Definition find (h : bytes) hs : option (bytes * option pointer) := map_find KeyComparator h (map hs).

(** [placeholder = map[header]], and [placeholder = std::make_unique<Header>(x)],
    which destroys the object that was there. *)
Definition make_unique (key : bytes) (x : Header) hs : Headers * pointer :=
  let p := fresh_pointer hs in
  let old := find key hs ≫= snd in
  let h := match old with Some q => delete q (heap hs) | None => heap hs end in
  (mkHeaders (<[p := x]> h) (S p) (map_assign KeyComparator key (Some p) (map hs)) (list_ hs) (cookies hs), p).

(** [Header& operator[](header)]: the object, created if it is not there. *)
Definition placeholder (h : bytes) hs : outcome header_exception (Headers * pointer) :=
  match find h hs ≫= snd with
  | Some p => Ok (hs, p)
  | None =>
      x ← make_Header h [];
      let '(hs, p) := make_unique h x hs in
      Ok (mkHeaders (heap hs) (fresh_pointer hs) (map hs) (list_ hs ++ [(h, Some p)]) (cookies hs), p)
  end.

Definition set_value (p : pointer) (v : bytes) hs : outcome header_exception Headers :=
  x ← deref (Some p) hs;
  Ok (mkHeaders (<[p := mkHeader (header x) v]> (heap hs)) (fresh_pointer hs) (map hs) (list_ hs) (cookies hs)).

(** [headers[h] = v]. *)
Definition Assign (h v : bytes) hs : outcome header_exception Headers :=
  _ ← ThrowIfHeaderIsCookie h;
  '(hs, p) ← placeholder h hs;
  set_value p v hs.

Definition Set_ (h v : bytes) hs : outcome header_exception Headers :=
  _ ← ThrowIfHeaderIsCookie h;
  if bool_decide (h = []) then Ok hs
  else
    '(hs, p) ← placeholder h hs;
    x ← deref (Some p) hs;
    if bool_decide (v = []) then Ok hs
    else set_value p ((if bool_decide (value x = []) then [] else value x ++ str ", ") ++ v) hs.

Definition Remove (h : bytes) hs : outcome header_exception Headers :=
  _ ← ThrowIfHeaderIsCookie h;
  match find h hs with
  | None => Ok hs
  | Some (_, p) =>
      Ok (mkHeaders (match p with Some p => delete p (heap hs) | None => heap hs end) (fresh_pointer hs)
            (map_erase KeyComparator h (map hs)) (List.filter (λ e, negb (bool_decide (e.1 = h))) (list_ hs)) (cookies hs))
  end.

Definition Has (h : bytes) hs : outcome header_exception bool :=
  _ ← ThrowIfHeaderIsCookie h;
  Ok (match find h hs with Some _ => true | None => false end).

Definition Get (h : bytes) hs : outcome header_exception bytes :=
  _ ← ThrowIfHeaderIsCookie h;
  match find h hs with
  | Some (_, p) => x ← deref p hs; Ok (value x)
  | None => Throw (HeaderNotFoundException h)
  end.

Definition GetOrDefault (h value_if_not_found : bytes) hs : outcome header_exception bytes :=
  _ ← ThrowIfHeaderIsCookie h;
  match find h hs with
  | Some (_, p) => x ← deref p hs; Ok (value x)
  | None => Ok value_if_not_found
  end.

(** [for (const auto& h : headers)]. *)
Fixpoint iterate (l : list (bytes * option pointer)) hs : outcome header_exception (list (bytes * bytes)) :=
  match l with
  | [] => Ok []
  | (_, p) :: l => x ← deref p hs; rest ← iterate l hs; Ok ((header x, value x) :: rest)
  end.

Definition all_headers hs : outcome header_exception (list (bytes * bytes)) := iterate (list_ hs) hs.

Definition AsMap hs : outcome header_exception (list (bytes * bytes)) :=
  l ← all_headers hs;
  Ok (foldl (λ m e, map_emplace string_less e.1 e.2 m) [] l).

(** ** Copying *)

(** The loop over [rhs.map]: [map[h.first]] becomes a copy of the header. *)
Fixpoint copy_map (l : list (bytes * option pointer)) rhs hs : outcome header_exception Headers :=
  match l with
  | [] => Ok hs
  | (key, p) :: l => x ← deref p rhs; copy_map l rhs (make_unique key x hs).1
  end.

(** The loop over [rhs.list], which adds [map[h.first].get()]; for a key that is
    not in the map, [map[h.first]] adds it, with a null pointer. *)
Fixpoint copy_list (l : list (bytes * option pointer)) hs : Headers :=
  match l with
  | [] => hs
  | (key, _) :: l =>
      let m := match find key hs with Some _ => map hs | None => map_assign KeyComparator key None (map hs) end in
      copy_list l (mkHeaders (heap hs) (fresh_pointer hs) m (list_ hs ++ [(key, find key hs ≫= snd)]) (cookies hs))
  end.

(** [DeepCopyFrom], which is all that copy assignment does. *)
Definition DeepCopyFrom rhs hs : outcome header_exception Headers :=
  hs ← copy_map (map rhs) rhs hs;
  let hs := copy_list (list_ rhs) hs in
  Ok (mkHeaders (heap hs) (fresh_pointer hs) (map hs) (list_ hs) (cookies rhs)).

Definition copy_constructor rhs : outcome header_exception Headers := DeepCopyFrom rhs no_headers.
Definition copy_assignment rhs hs : outcome header_exception Headers := DeepCopyFrom rhs hs.

(** The constructor from a list of pairs. *)
Fixpoint from_pairs (l : list (bytes * bytes)) hs : outcome header_exception Headers :=
  match l with [] => Ok hs | (h, v) :: l => hs ← Set_ h v hs; from_pairs l hs end.

(** ** Cookies *)

Definition set_cookies (c : list (bytes * Cookie)) hs : Headers :=
  mkHeaders (heap hs) (fresh_pointer hs) (map hs) (list_ hs) c.

Definition ApplyCookieHeader (v : bytes) hs : Headers :=
  match SplitIntoKeyValuePairs (match_char "=") (match_char ";") Silent v with
  | Ok kvs => set_cookies (foldl (λ m kv, map_emplace string_less (Trim kv.1) (mkCookie (Trim kv.2) []) m) (cookies hs) kvs) hs
  | Throw _ => hs
  end.

Definition SetHeaderOrCookie (h v : bytes) hs : outcome header_exception Headers :=
  if IsCookieHeader h then Ok (ApplyCookieHeader v hs) else Set_ h v hs.

(** The three forms of [SetCookie]: [cookies[name] = value] keeps the parameters. *)
Definition SetCookie_value (name v : bytes) hs : Headers :=
  let old := match map_find string_less name (cookies hs) with Some (_, c) => params c | None => [] end in
  set_cookies (map_assign string_less name (mkCookie v old) (cookies hs)) hs.

Definition SetCookie (name : bytes) (c : Cookie) hs : Headers :=
  set_cookies (map_assign string_less name c (cookies hs)) hs.

Definition CookiesAsString hs : bytes :=
  foldl (λ s c, (match s with [] => [] | _ => s ++ str "; " end) ++ c.1 ++ "="%char :: cookie_value c.2) [] (cookies hs).

(** ** CORS *)

Definition kCORSHeaderName : bytes := str "Access-Control-Allow-Origin".
Definition SetCORSHeader hs : outcome header_exception Headers := Set_ kCORSHeaderName (str "*") hs.
Definition RemoveCORSHeader hs : outcome header_exception Headers := Remove kCORSHeaderName hs.

(** ** The comparator *)

Definition canonical_name (h : bytes) : bytes := Canonical <$> h.

Lemma char_value_inj a b : char_value a = char_value b → a = b.
Proof.
  unfold char_value. intros H. apply N_of_ascii_inj.
  pose proof (N_ascii_bounded a). pose proof (N_ascii_bounded b).
  destruct (Z.ltb_spec (Z.of_N (N_of_ascii a)) 128), (Z.ltb_spec (Z.of_N (N_of_ascii b)) 128); lia.
Qed.

Global Instance header_order : KeyOrder KeyComparator canonical_name.
Proof.
  intros a. induction a as [|x a IH]; intros [|y b]; simpl; [done..|].
  destruct (Z.ltb_spec (char_value (Canonical x)) (char_value (Canonical y))),
    (Z.ltb_spec (char_value (Canonical y)) (char_value (Canonical x))); try lia.
  - split; [done|]. intros [= Hxy]. rewrite Hxy in *. lia.
  - split; [done|]. intros [= Hxy]. rewrite Hxy in *. lia.
  - rewrite IH. unfold canonical_name. simpl. rewrite (char_value_inj (Canonical x) (Canonical y)) by lia.
    split; [by intros ->|by intros [=]].
Qed.

(** Two spellings of one name. *)
Abbreviation same_name := (same_key KeyComparator).

Lemma same_name_spec a b : same_name a b = true ↔ canonical_name a = canonical_name b.
Proof. exact (same_key_spec KeyComparator a b). Qed.

Lemma same_name_refl a : same_name a a = true.
Proof. by apply same_name_spec. Qed.

Lemma not_same_name a b : same_name a b = false ↔ canonical_name a ≠ canonical_name b.
Proof. by rewrite <- same_name_spec, not_true_iff_false. Qed.

Lemma IsCookieHeader_spec h : IsCookieHeader h = true ↔
  canonical_name h = str "cookie" ∨ canonical_name h = str "set_cookie".
Proof.
  unfold IsCookieHeader. rewrite orb_true_iff.
  pose proof (same_key_iff (lt := KeyComparator) h (str "Cookie")) as ->.
  pose proof (same_key_iff (lt := KeyComparator) h (str "Set-Cookie")) as ->. done.
Qed.

(** ** The content, and what each operation does to it *)

Definition entries hs : list (bytes * bytes) :=
  (λ e, (e.1, match e.2 ≫= λ p, heap hs !! p with Some x => value x | None => [] end)) <$> list_ hs.

Fixpoint update_entry (h : bytes) (f : bytes → bytes) (l : list (bytes * bytes)) : list (bytes * bytes) :=
  match l with
  | [] => [(h, f [])]
  | (k, v) :: l' => if same_name h k then (k, f v) :: l' else (k, v) :: update_entry h f l'
  end.

Definition lookup_entry (h : bytes) (l : list (bytes * bytes)) : option (bytes * bytes) := map_find KeyComparator h l.

Record headers_wf hs : Prop := {
  wf_list : Forall (λ e, ∃ p v, e.2 = Some p ∧ heap hs !! p = Some (mkHeader e.1 v)) (list_ hs);
  wf_map : ∀ k, find k hs = map_find KeyComparator k (list_ hs);
  wf_pointers : NoDup ((list_ hs).*2);
  wf_names : NoDup ((λ e, canonical_name e.1) <$> list_ hs);
  wf_map_names : NoDup ((λ e, canonical_name e.1) <$> map hs);
  wf_fresh : ∀ p, is_Some (heap hs !! p) → p < fresh_pointer hs;
}.

Lemma no_headers_wf : headers_wf no_headers.
Proof.
  split; simpl; [by apply Forall_nil|done|apply NoDup_nil_2|apply NoDup_nil_2|apply NoDup_nil_2|].
  intros p [x Hx]. by rewrite lookup_empty in Hx.
Qed.

Lemma iterate_entries hs : headers_wf hs → all_headers hs = Ok (entries hs).
Proof.
  intros [Hl _ _ _ _ _]. unfold all_headers, entries. induction Hl as [|[k o] l (p & v & Hp & Hx) _ IH]; [done|].
  simpl in *. subst o. unfold deref. simpl. rewrite Hx. simpl. by rewrite IH.
Qed.

Lemma find_entries k hs : headers_wf hs →
  match find k hs with
  | Some (n, Some p) => ∃ v, heap hs !! p = Some (mkHeader n v) ∧ lookup_entry k (entries hs) = Some (n, v)
  | Some (_, None) => False
  | None => lookup_entry k (entries hs) = None
  end.
Proof.
  intros [Hl Hm _ _ _ _]. rewrite Hm. clear Hm. unfold lookup_entry, entries.
  induction Hl as [|[n o] l (p & v & Hp & Hx) _ IH]; [done|]. simpl in *. subst o.
  destruct (same_name k n) eqn:Hk; [|done]. exists v. simpl. by rewrite Hx.
Qed.

Lemma Get_ok h hs : headers_wf hs → IsCookieHeader h = false →
  Get h hs = match lookup_entry h (entries hs) with Some (_, v) => Ok v | None => Throw (HeaderNotFoundException h) end.
Proof.
  intros Hwf Hc. unfold Get, ThrowIfHeaderIsCookie. rewrite Hc. simpl. pose proof (find_entries h hs Hwf) as Hf.
  destruct (find h hs) as [[n [p|]]|]; [|done|by rewrite Hf].
  destruct Hf as (v & Hx & ->). unfold deref. simpl. by rewrite Hx.
Qed.

Lemma Has_ok h hs : headers_wf hs → IsCookieHeader h = false →
  Has h hs = Ok (match lookup_entry h (entries hs) with Some _ => true | None => false end).
Proof.
  intros Hwf Hc. unfold Has, ThrowIfHeaderIsCookie. rewrite Hc. simpl. pose proof (find_entries h hs Hwf) as Hf.
  destruct (find h hs) as [[n [p|]]|]; [|done|by rewrite Hf]. by destruct Hf as (v & _ & ->).
Qed.

(** *** Updating entries *)

Lemma update_update h f g l : update_entry h g (update_entry h f l) = update_entry h (g ∘ f) l.
Proof.
  induction l as [|[k v] l IH]; simpl; [by rewrite same_name_refl|].
  destruct (same_name h k) eqn:Hk; simpl; rewrite Hk; [done|]. by rewrite IH.
Qed.

Lemma update_lookup h f l :
  lookup_entry h (update_entry h f l) =
  Some match lookup_entry h l with Some (k, v) => (k, f v) | None => (h, f []) end.
Proof.
  unfold lookup_entry. induction l as [|[k v] l IH]; simpl; [by rewrite same_name_refl|].
  destruct (same_name h k) eqn:Hk; simpl; by rewrite Hk.
Qed.

Lemma update_known h f l k v : lookup_entry h l = Some (k, v) → update_entry h (λ _, f v) l = update_entry h f l.
Proof.
  unfold lookup_entry. induction l as [|[n w] l IH]; simpl; [done|].
  destruct (same_name h n); [by intros [= <- <-]|]. intros Hf. by rewrite IH.
Qed.

Lemma update_other h h' f l : same_name h' h = false →
  lookup_entry h' (update_entry h f l) = lookup_entry h' l.
Proof.
  intros Hh. unfold lookup_entry. induction l as [|[k v] l IH]; simpl; [by rewrite Hh|].
  destruct (same_name h k) eqn:Hk; simpl; [|by rewrite IH].
  destruct (same_name h' k) eqn:Hk'; [|done].
  rewrite not_same_name in Hh. rewrite same_name_spec in Hk, Hk'. congruence.
Qed.

Lemma update_absent h f l : lookup_entry h l = None → update_entry h f l = l ++ [(h, f [])].
Proof.
  unfold lookup_entry. induction l as [|[k v] l IH]; simpl; [done|].
  destruct (same_name h k); [done|]. intros Hf. by rewrite IH.
Qed.

(** *** Creating a header *)

Lemma entry_pointer hs e : headers_wf hs → e ∈ list_ hs → ∃ p v, e.2 = Some p ∧ heap hs !! p = Some (mkHeader e.1 v) ∧
  p < fresh_pointer hs.
Proof.
  intros [Hl _ _ _ _ Hf] He. rewrite Forall_forall in Hl. destruct (Hl e He) as (p & v & ? & Hx).
  exists p, v. split_and!; [done..|]. apply Hf; by eexists.
Qed.

Lemma entries_same hs hs' : headers_wf hs → list_ hs' = list_ hs →
  (∀ e p, e ∈ list_ hs → e.2 = Some p → heap hs' !! p = heap hs !! p) → entries hs' = entries hs.
Proof.
  intros Hwf Hl Hh. unfold entries. rewrite Hl. apply list_fmap_ext. intros i e He.
  apply list_elem_of_lookup_2 in He. destruct (entry_pointer hs e Hwf He) as (p & v & Hp & _).
  destruct e as [k o]. simpl in *. subst o. simpl. by rewrite (Hh (k, Some p) p).
Qed.

Definition with_new (h : bytes) hs : Headers :=
  let p := fresh_pointer hs in
  mkHeaders (<[p := mkHeader h []]> (heap hs)) (S p) (map_assign KeyComparator h (Some p) (map hs))
    (list_ hs ++ [(h, Some p)]) (cookies hs).

Lemma with_new_wf h hs : headers_wf hs → find h hs = None → headers_wf (with_new h hs).
Proof.
  intros Hwf Hn. pose proof Hwf as [Hl Hm Hp Hnm Hmn Hf]. split; simpl.
  - apply Forall_app; split.
    + apply Forall_forall. intros e He. destruct (entry_pointer hs e Hwf He) as (p & v & ? & ? & ?).
      exists p, v. rewrite lookup_insert_ne by lia. done.
    + apply Forall_singleton. exists (fresh_pointer hs), []. by rewrite lookup_insert_eq.
  - intros k. unfold find in *. simpl. rewrite (map_find_assign KeyComparator), map_find_app, Hn. simpl.
    rewrite <- Hm. destruct (same_name k h) eqn:Hk; [|by destruct (map_find KeyComparator k (map hs))].
    apply same_name_spec in Hk. by rewrite (map_find_same KeyComparator k h), Hn.
  - rewrite fmap_app. apply NoDup_app. split_and!; [done| |apply NoDup_singleton].
    intros o Ho. simpl. rewrite list_elem_of_singleton. intros ->.
    apply list_elem_of_fmap in Ho as (e & He & Hin). destruct (entry_pointer hs e Hwf Hin) as (p & v & Hp' & _ & ?).
    assert (Some p = Some (fresh_pointer hs)) as [= ->] by congruence. lia.
  - rewrite fmap_app. apply NoDup_app. split_and!; [done| |apply NoDup_singleton].
    intros n Ho. simpl. rewrite list_elem_of_singleton. intros ->. rewrite Hm in Hn.
    by apply (map_find_None KeyComparator) in Hn.
  - by apply (map_assign_keys KeyComparator).
  - intros p [x Hx]. rewrite lookup_insert_Some in Hx. destruct Hx as [[<- _]|[_ Hx]]; [lia|].
    assert (p < fresh_pointer hs) by (apply Hf; by rewrite Hx). lia.
Qed.

Lemma with_new_entries h hs : headers_wf hs → entries (with_new h hs) = entries hs ++ [(h, [])].
Proof.
  intros Hwf. set (new := mkHeaders (heap (with_new h hs)) 0 [] (list_ hs) []).
  assert (entries new = entries hs) as <-.
  { apply entries_same; [done..|]. intros e p He Hp. simpl.
    destruct (entry_pointer hs e Hwf He) as (q & v & Hq & _ & ?). rewrite Hp in Hq. injection Hq as ->.
    by rewrite lookup_insert_ne by lia. }
  unfold entries at 1. simpl. rewrite fmap_app. simpl. by rewrite lookup_insert_eq.
Qed.

Lemma update_id h l : is_Some (lookup_entry h l) → update_entry h id l = l.
Proof.
  unfold lookup_entry. induction l as [|[k v] l IH]; simpl; [by intros [??]|].
  destruct (same_name h k); [done|]. intros Hf. by rewrite IH.
Qed.

Lemma placeholder_ok h hs : headers_wf hs → IsCookieHeader h = false → ∃ hs' n p,
  placeholder h hs = Ok (hs', p) ∧ headers_wf hs' ∧ find h hs' = Some (n, Some p) ∧
  entries hs' = update_entry h id (entries hs) ∧ cookies hs' = cookies hs.
Proof.
  intros Hwf Hc. unfold placeholder. pose proof (find_entries h hs Hwf) as Hf.
  destruct (find h hs) as [[n [p|]]|] eqn:Hfind; [|done|].
  - destruct Hf as (v & _ & He). exists hs, n, p. split_and!; [done..| |done]. by rewrite update_id by (by eexists).
  - simpl. unfold make_Header, ThrowIfHeaderIsCookie. rewrite Hc. simpl. unfold make_unique. rewrite Hfind. simpl.
    exists (with_new h hs), h, (fresh_pointer hs). split_and!; [done|by apply with_new_wf| | |done].
    + rewrite (wf_map _ (with_new_wf h hs Hwf Hfind)). simpl. rewrite map_find_app, <- (wf_map _ Hwf), Hfind.
      simpl. by rewrite same_name_refl.
    + by rewrite with_new_entries, update_absent.
Qed.

(** *** Changing a value *)

Lemma set_value_ok h v hs n p : headers_wf hs → find h hs = Some (n, Some p) → ∃ hs',
  set_value p v hs = Ok hs' ∧ headers_wf hs' ∧ entries hs' = update_entry h (λ _, v) (entries hs) ∧ cookies hs' = cookies hs.
Proof.
  intros Hwf Hfind. pose proof (find_entries h hs Hwf) as Hf. rewrite Hfind in Hf. destruct Hf as (w & Hx & _).
  pose proof Hwf as [Hl Hm Hp Hnm Hmn Hfr]. unfold set_value, deref. simpl. rewrite Hx. simpl.
  eexists. split_and!; [done| | |done].
  - split; simpl; [|done..|].
    + eapply Forall_impl; [exact Hl|]. intros e (q & u & Hq & Hu). exists q.
      destruct (decide (q = p)) as [->|]; [|exists u; by rewrite lookup_insert_ne].
      exists v. split; [done|]. rewrite lookup_insert_eq. rewrite Hx in Hu. by injection Hu as ->.
    + intros q [y Hy]. apply Hfr. rewrite lookup_insert_Some in Hy. destruct Hy as [[<- _]|[_ Hy]]; by eexists.
  - rewrite Hm in Hfind. unfold entries. simpl. clear Hm Hnm Hmn Hfr Hwf.
    induction Hl as [|[k o] l (q & u & Hq & Hu) Hl IH]; [done|]. simpl in *. subst o.
    apply NoDup_cons in Hp as [Hnin Hp]. destruct (same_name h k) eqn:Hk.
    + injection Hfind as -> ->. simpl. rewrite lookup_insert_eq. f_equal. apply list_fmap_ext.
      intros i [k' o'] He. apply list_elem_of_lookup_2 in He. simpl. f_equal.
      destruct o' as [q|]; [|done]. simpl. rewrite lookup_insert_ne; [done|]. intros <-. apply Hnin.
      apply list_elem_of_fmap. by exists (k', Some p).
    + f_equal; [|by apply IH]. simpl. rewrite lookup_insert_ne; [done|]. intros <-. apply Hnin.
      apply list_elem_of_fmap. exists (n, Some p). split; [done|].
      by apply (map_find_elem KeyComparator) in Hfind as [? _].
Qed.

Definition combine (v old : bytes) : bytes :=
  if bool_decide (v = []) then old else (if bool_decide (old = []) then [] else old ++ str ", ") ++ v.

Lemma Set_ok h v hs : headers_wf hs → IsCookieHeader h = false → h ≠ [] → ∃ hs',
  Set_ h v hs = Ok hs' ∧ headers_wf hs' ∧ entries hs' = update_entry h (combine v) (entries hs) ∧ cookies hs' = cookies hs.
Proof.
  intros Hwf Hc Hh. unfold Set_, ThrowIfHeaderIsCookie. rewrite Hc. simpl. rewrite bool_decide_eq_false_2 by done.
  destruct (placeholder_ok h hs Hwf Hc) as (hs1 & n & p & -> & Hwf1 & Hf & He & Hk). simpl.
  pose proof (find_entries h hs1 Hwf1) as Hfe. rewrite Hf in Hfe. destruct Hfe as (w & Hx & Hlook).
  unfold deref at 1. simpl. rewrite Hx. simpl. unfold combine at 1. case_bool_decide as Hv.
  - exists hs1. split_and!; [done..| |done]. rewrite He. done.
  - destruct (set_value_ok h ((if bool_decide (w = []) then [] else w ++ str ", ") ++ v) hs1 n p Hwf1 Hf)
      as (hs2 & Hset & Hwf2 & He2 & Hk2).
    exists hs2. split_and!; [exact Hset|done| |congruence]. rewrite He2.
    rewrite (update_known h (λ w, (if bool_decide (w = []) then [] else w ++ str ", ") ++ v) _ n w Hlook), He.
    by rewrite update_update.
Qed.

Lemma Assign_ok h v hs : headers_wf hs → IsCookieHeader h = false → ∃ hs',
  Assign h v hs = Ok hs' ∧ headers_wf hs' ∧ entries hs' = update_entry h (λ _, v) (entries hs) ∧ cookies hs' = cookies hs.
Proof.
  intros Hwf Hc. unfold Assign, ThrowIfHeaderIsCookie. rewrite Hc. simpl.
  destruct (placeholder_ok h hs Hwf Hc) as (hs1 & n & p & -> & Hwf1 & Hf & He & Hk). simpl.
  destruct (set_value_ok h v hs1 n p Hwf1 Hf) as (hs2 & -> & Hwf2 & He2 & Hk2).
  exists hs2. split_and!; [done..| |congruence]. by rewrite He2, He, update_update.
Qed.

Lemma SetHeaderOrCookie_ok h v hs : headers_wf hs → h ≠ [] → ∃ hs',
  SetHeaderOrCookie h v hs = Ok hs' ∧ headers_wf hs' ∧
  entries hs' = if IsCookieHeader h then entries hs else update_entry h (combine v) (entries hs).
Proof.
  intros Hwf Hh. unfold SetHeaderOrCookie. destruct (IsCookieHeader h) eqn:Hc.
  - eexists. split; [done|]. unfold ApplyCookieHeader. case_match; [|done]. split; [|done]. by destruct Hwf.
  - destruct (Set_ok h v hs Hwf Hc Hh) as (hs' & ? & ? & ? & _). by exists hs'.
Qed.

(** *** Removing a header *)

Lemma filter_same h (l : list (bytes * option pointer)) :
  NoDup ((λ e, canonical_name e.1) <$> l) → (∀ n p, map_find KeyComparator h l = Some (n, p) → n = h) →
  List.filter (λ e, negb (bool_decide (e.1 = h))) l = map_erase KeyComparator h l.
Proof.
  intros Hn Hh. unfold map_erase. apply filter_ext_in. intros [k o] Hin. f_equal. simpl.
  case_bool_decide as Hk; [by subst; rewrite same_name_refl|]. symmetry. apply not_true_iff_false. intros Hs.
  apply Hk. apply list_elem_of_In in Hin. pose proof (map_find_elem_eq KeyComparator _ _ Hn Hin) as Hf. simpl in Hf.
  apply same_name_spec in Hs. rewrite <- (map_find_same KeyComparator h k) in Hf by done. by apply Hh in Hf.
Qed.

Lemma fmap_erase {A B} (f : A → B) h (l : list (bytes * A)) :
  (λ e, (e.1, f e.2)) <$> map_erase KeyComparator h l = map_erase KeyComparator h ((λ e, (e.1, f e.2)) <$> l).
Proof. unfold map_erase. induction l as [|[k a] l IH]; [done|]. simpl. case_match; simpl; [by f_equal|done]. Qed.

Lemma in_erase {A} h (l : list (bytes * A)) e : e ∈ map_erase KeyComparator h l ↔ e ∈ l ∧ same_name h e.1 = false.
Proof.
  unfold map_erase. rewrite !list_elem_of_In, filter_In, negb_true_iff. done.
Qed.

Lemma removed_pointer h n p e (l : list (bytes * option pointer)) :
  NoDup (l.*2) → map_find KeyComparator h l = Some (n, Some p) → e ∈ map_erase KeyComparator h l → e.2 ≠ Some p.
Proof.
  intros Hp Hfind [He Hs]%in_erase Hep. rewrite not_same_name in Hs. apply Hs.
  apply (map_find_elem KeyComparator) in Hfind as [Hin ->].
  apply list_elem_of_lookup in He as [i Hi], Hin as [j Hj].
  assert (i = j) as -> by (eapply (NoDup_lookup _ _ _ (Some p)); [exact Hp|by rewrite list_lookup_fmap, Hi; simpl; f_equal|by rewrite list_lookup_fmap, Hj]).
  rewrite Hi in Hj. by injection Hj as ->.
Qed.

(** Removing a header under the name it was added with. *)
Lemma Remove_ok h hs : headers_wf hs → IsCookieHeader h = false → (∀ n p, find h hs = Some (n, p) → n = h) → ∃ hs',
  Remove h hs = Ok hs' ∧ headers_wf hs' ∧ entries hs' = map_erase KeyComparator h (entries hs).
Proof.
  intros Hwf Hc Hh. unfold Remove, ThrowIfHeaderIsCookie. rewrite Hc. simpl.
  pose proof Hwf as [Hl Hm Hp Hnm Hmn Hfr]. pose proof (find_entries h hs Hwf) as Hf.
  destruct (find h hs) as [[n [p|]]|] eqn:Hfind; [|done|].
  - destruct Hf as (v & Hx & Hlook). pose proof (Hh n (Some p) eq_refl) as ->. rewrite Hm in Hfind.
    assert (∀ e, e ∈ map_erase KeyComparator h (list_ hs) → e.2 ≠ Some p) as Hne by (intros; by eapply removed_pointer).
    rewrite filter_same; [|done|rewrite Hfind; by intros ?? [= <- _]].
    eexists. split; [done|]. split.
    + split; simpl.
      * apply Forall_forall. intros e He. pose proof He as [Hin _]%in_erase.
        destruct (entry_pointer hs e Hwf Hin) as (q & w & Hq & Hw & _). exists q, w. split; [done|].
        rewrite lookup_delete_ne; [done|]. intros <-. by apply (Hne e He).
      * intros k. unfold find. simpl. rewrite !(map_find_erase KeyComparator). by rewrite <- Hm.
      * by apply NoDup_fmap_filter.
      * by apply (map_erase_keys KeyComparator).
      * by apply (map_erase_keys KeyComparator).
      * intros q [y Hy]. apply lookup_delete_Some in Hy as [_ Hy]. apply Hfr. by eexists.
    + unfold entries at 2. rewrite <- (fmap_erase (λ o, match o ≫= λ p, heap hs !! p with Some x => value x | None => [] end)).
      unfold entries. simpl. apply list_fmap_ext. intros i [k o] He. apply list_elem_of_lookup_2 in He. simpl. f_equal.
      destruct o as [q|]; [|done]. simpl. rewrite lookup_delete_ne; [done|]. intros <-. by apply (Hne (k, Some p) He).
  - exists hs. split_and!; [done..|]. symmetry. apply (map_find_None KeyComparator) in Hf. revert Hf. unfold map_erase.
    induction (entries hs) as [|e l IH]; [done|]. simpl. intros [Hne Hn]%not_elem_of_cons.
    rewrite (proj2 (not_same_name h e.1)) by done. simpl. by rewrite IH.
Qed.

(** *** Copying *)

(** What the first loop has done after the part [l] of the map. *)
Record copied rhs (l : list (bytes * option pointer)) hs : Prop := {
  copied_find : ∀ k, match map_find KeyComparator k l with
                     | Some (n, o) => ∃ p x, find k hs = Some (n, Some p) ∧ heap hs !! p = Some x ∧ (o ≫= λ q, heap rhs !! q) = Some x
                     | None => find k hs = None
                     end;
  copied_apart : ∀ k k' n n' p, find k hs = Some (n, Some p) → find k' hs = Some (n', Some p) →
                   canonical_name k = canonical_name k';
  copied_names : NoDup ((λ e, canonical_name e.1) <$> map hs);
  copied_fresh : ∀ p, is_Some (heap hs !! p) → p < fresh_pointer hs;
  copied_list : list_ hs = [];
}.

Lemma copied_pointer rhs l hs k n p : copied rhs l hs → find k hs = Some (n, Some p) → p < fresh_pointer hs.
Proof.
  intros Hc Hf. pose proof (copied_find _ _ _ Hc k) as Hk. rewrite Hf in Hk.
  destruct (map_find KeyComparator k l) as [[n' o]|]; [|done].
  destruct Hk as (q & x & [= -> ->] & Hx & _). apply (copied_fresh _ _ _ Hc). by eexists.
Qed.

Lemma copied_step rhs l hs key o x : copied rhs l hs → map_find KeyComparator key l = None →
  (o ≫= λ q, heap rhs !! q) = Some x → copied rhs (l ++ [(key, o)]) (make_unique key x hs).1.
Proof.
  intros Hc Hn Hx. pose proof Hc as [Hf Ha Hm Hfr Hl]. pose proof (Hf key) as Hk. rewrite Hn in Hk.
  unfold make_unique. rewrite Hk. simpl.
  assert (∀ k, find k (make_unique key x hs).1 =
    if same_name k key then Some (key, Some (fresh_pointer hs)) else find k hs) as Hfind.
  { intros k. unfold make_unique, find. simpl. rewrite (map_find_assign KeyComparator).
    fold (find key hs). by rewrite Hk. }
  unfold make_unique in Hfind. rewrite Hk in Hfind. simpl in Hfind. split; simpl.
  - intros k. rewrite map_find_app, Hfind. simpl. destruct (same_name k key) eqn:Hs.
    + apply same_name_spec in Hs. rewrite (map_find_same KeyComparator k key), Hn by done.
      exists (fresh_pointer hs), x. by rewrite lookup_insert_eq.
    + specialize (Hf k). destruct (map_find KeyComparator k l) as [[n o']|]; [|done].
      destruct Hf as (p & y & Hp & Hy & Ho). exists p, y. split_and!; [done| |done].
      rewrite lookup_insert_ne; [done|]. pose proof (copied_pointer _ _ _ _ _ _ Hc Hp). lia.
  - intros k k' n n' p. rewrite !Hfind. destruct (same_name k key) eqn:Hs, (same_name k' key) eqn:Hs'.
    + apply same_name_spec in Hs, Hs'. congruence.
    + intros [= <- <-] Hp. pose proof (copied_pointer _ _ _ _ _ _ Hc Hp). lia.
    + intros Hp [= <- <-]. pose proof (copied_pointer _ _ _ _ _ _ Hc Hp). lia.
    + apply Ha.
  - by apply (map_assign_keys KeyComparator).
  - intros p [y Hy]. rewrite lookup_insert_Some in Hy. destruct Hy as [[<- _]|[_ Hy]]; [lia|].
    assert (p < fresh_pointer hs) by (apply Hfr; by eexists). lia.
  - done.
Qed.

Lemma copy_map_ok rhs l done_ hs : copied rhs done_ hs → NoDup ((λ e, canonical_name e.1) <$> (done_ ++ l)) →
  Forall (λ e, is_Some (e.2 ≫= λ q, heap rhs !! q)) l → ∃ hs', copy_map l rhs hs = Ok hs' ∧ copied rhs (done_ ++ l) hs'.
Proof.
  revert done_ hs. induction l as [|[key o] l IH]; intros done_ hs Hc Hn Hl; [exists hs; by rewrite app_nil_r|].
  apply Forall_cons in Hl as [[x Hx] Hl]. simpl in *. unfold deref. rewrite Hx. simpl.
  rewrite cons_middle, app_assoc in Hn |- *. apply (IH (done_ ++ [(key, o)])); [|done..]. apply copied_step; [done| |done].
  apply (map_find_None KeyComparator). rewrite <- app_assoc, fmap_app in Hn. apply NoDup_app in Hn as (_ & Hd & _).
  intros Hin. apply (Hd _ Hin). simpl. apply list_elem_of_here.
Qed.

Lemma copy_list_ok l hs : Forall (λ e, is_Some (find e.1 hs)) l →
  copy_list l hs = mkHeaders (heap hs) (fresh_pointer hs) (map hs) (list_ hs ++ ((λ e, (e.1, find e.1 hs ≫= snd)) <$> l)) (cookies hs).
Proof.
  revert hs. induction l as [|[key o] l IH]; intros hs Hl; [by destruct hs; simpl; rewrite app_nil_r|].
  apply Forall_cons in Hl as [[e He] Hl]. simpl in *. rewrite He. rewrite IH; [|done]. simpl. by rewrite <- app_assoc.
Qed.

Lemma find_fmap {A B} (f : bytes * A → B) k (l : list (bytes * A)) :
  map_find KeyComparator k ((λ e, (e.1, f e)) <$> l) = (λ e, (e.1, f e)) <$> map_find KeyComparator k l.
Proof. induction l as [|[n a] l IH]; [done|]. simpl. by destruct (same_name k n). Qed.

Lemma map_entry_valid rhs e : headers_wf rhs → e ∈ map rhs → is_Some (e.2 ≫= λ q, heap rhs !! q).
Proof.
  intros Hwf He. pose proof (find_entries e.1 rhs Hwf) as Hf. unfold find in Hf.
  rewrite (map_find_elem_eq KeyComparator e (map rhs) (wf_map_names _ Hwf) He) in Hf.
  destruct e as [n [p|]]; [|done]. destruct Hf as (v & Hx & _). by eexists.
Qed.

Lemma copied_entry rhs hs e : headers_wf rhs → copied rhs (map rhs) hs → e ∈ list_ rhs → ∃ p v,
  find e.1 hs = Some (e.1, Some p) ∧ heap hs !! p = Some (mkHeader e.1 v) ∧ (e.2 ≫= λ q, heap rhs !! q) = Some (mkHeader e.1 v).
Proof.
  intros Hwf Hc He. pose proof (copied_find _ _ _ Hc e.1) as Hf. fold (find e.1 rhs) in Hf. rewrite (wf_map _ Hwf) in Hf.
  rewrite (map_find_elem_eq KeyComparator e (list_ rhs) (wf_names _ Hwf) He) in Hf.
  destruct (entry_pointer rhs e Hwf He) as (q & v & Hq & Hv & _). destruct e as [n o]. simpl in *. subst o.
  destruct Hf as (p & x & Hp & Hx & Hrx). simpl in Hrx. rewrite Hv in Hrx. injection Hrx as <-.
  by exists p, v.
Qed.

Lemma copied_wf rhs hs : headers_wf rhs → copied rhs (map rhs) hs →
  headers_wf (mkHeaders (heap hs) (fresh_pointer hs) (map hs) ((λ e, (e.1, find e.1 hs ≫= snd)) <$> list_ rhs) (cookies rhs)).
Proof.
  intros Hwf Hc. split; simpl.
  - apply Forall_fmap, Forall_forall. intros e He. simpl.
    destruct (copied_entry rhs hs e Hwf Hc He) as (p & v & -> & Hv & _). by exists p, v.
  - intros k. rewrite (find_fmap (λ e, find e.1 hs ≫= snd)), <- (wf_map _ Hwf). fold (find k hs).
    pose proof (copied_find _ _ _ Hc k) as Hf. fold (find k rhs) in Hf.
    destruct (find k rhs) as [[n o]|] eqn:Hk; [|done]. destruct Hf as (p & x & Hp & _). simpl.
    apply (map_find_elem KeyComparator) in Hk as [_ Hk]. simpl in Hk. unfold find in *.
    rewrite <- (map_find_same KeyComparator k n) by done. by rewrite Hp.
  - rewrite <- list_fmap_compose. apply NoDup_fmap_finer with (g := λ e, canonical_name e.1); [|apply (wf_names _ Hwf)].
    intros e e' He He'. simpl. destruct (copied_entry rhs hs e Hwf Hc He) as (p & v & Hp & _).
    destruct (copied_entry rhs hs e' Hwf Hc He') as (p' & v' & Hp' & _). rewrite Hp, Hp'. simpl. intros [= <-].
    eapply (copied_apart _ _ _ Hc); done.
  - rewrite <- list_fmap_compose. apply (wf_names _ Hwf).
  - apply (copied_names _ _ _ Hc).
  - apply (copied_fresh _ _ _ Hc).
Qed.

Lemma copy_constructor_ok rhs : headers_wf rhs → ∃ hs,
  copy_constructor rhs = Ok hs ∧ headers_wf hs ∧ entries hs = entries rhs ∧ cookies hs = cookies rhs.
Proof.
  intros Hwf. unfold copy_constructor, DeepCopyFrom.
  assert (copied rhs [] no_headers) as H0.
  { split; simpl; [done|done|apply NoDup_nil_2| |done]. intros p [x Hx]. by rewrite lookup_empty in Hx. }
  destruct (copy_map_ok rhs (map rhs) [] no_headers H0) as (hs & -> & Hc).
  { apply (wf_map_names _ Hwf). }
  { apply Forall_forall. intros e He. by apply map_entry_valid. }
  simpl in *. rewrite copy_list_ok.
  - rewrite (copied_list _ _ _ Hc). pose proof (copied_wf rhs hs Hwf Hc) as Hcw.
    eexists. split; [reflexivity|]. split; [exact Hcw|]. split; [|done].
    unfold entries. simpl. rewrite <- list_fmap_compose. apply list_fmap_ext. intros i e He.
    apply list_elem_of_lookup_2 in He. destruct (copied_entry rhs hs e Hwf Hc He) as (p & v & Hp & Hv & Hr).
    simpl. rewrite Hp, Hr. simpl. by rewrite Hv.
  - apply Forall_forall. intros e He. destruct (copied_entry rhs hs e Hwf Hc He) as (p & v & -> & _). by eexists.
Qed.

(** ** Sequences of calls *)

Inductive header_op :=
| OpSet (h v : bytes)
| OpAssign (h v : bytes)
| OpRemove (h : bytes)
| OpHeaderOrCookie (h v : bytes)
| OpCopy.

(** [OpCopy] goes on with a copy. *)
Definition apply_op (op : header_op) hs : outcome header_exception Headers :=
  match op with
  | OpSet h v => Set_ h v hs
  | OpAssign h v => Assign h v hs
  | OpRemove h => Remove h hs
  | OpHeaderOrCookie h v => SetHeaderOrCookie h v hs
  | OpCopy => copy_constructor hs
  end.

Fixpoint apply_ops (ops : list header_op) hs : outcome header_exception Headers :=
  match ops with [] => Ok hs | op :: ops => hs ← apply_op op hs; apply_ops ops hs end.

(** What they are meant to do: a list of names and values. *)
Definition list_op (op : header_op) (l : list (bytes * bytes)) : list (bytes * bytes) :=
  match op with
  | OpSet h v => update_entry h (combine v) l
  | OpAssign h v => update_entry h (λ _, v) l
  | OpRemove h => map_erase KeyComparator h l
  | OpHeaderOrCookie h v => if IsCookieHeader h then l else update_entry h (combine v) l
  | OpCopy => l
  end.

(** A header is removed under the name it has. *)
Definition op_ok (op : header_op) (l : list (bytes * bytes)) : Prop :=
  match op with
  | OpSet h _ => h ≠ [] ∧ IsCookieHeader h = false
  | OpAssign h _ => IsCookieHeader h = false
  | OpRemove h => IsCookieHeader h = false ∧ ∀ n v, lookup_entry h l = Some (n, v) → n = h
  | OpHeaderOrCookie h _ => h ≠ []
  | OpCopy => True
  end.

Fixpoint ops_ok (ops : list header_op) (l : list (bytes * bytes)) : Prop :=
  match ops with [] => True | op :: ops => op_ok op l ∧ ops_ok ops (list_op op l) end.

Lemma apply_op_ok op hs : headers_wf hs → op_ok op (entries hs) → ∃ hs',
  apply_op op hs = Ok hs' ∧ headers_wf hs' ∧ entries hs' = list_op op (entries hs).
Proof.
  intros Hwf. destruct op as [h v|h v|h|h v|]; simpl.
  - intros [Hh Hc]. destruct (Set_ok h v hs Hwf Hc Hh) as (hs' & ? & ? & ? & _). by exists hs'.
  - intros Hc. destruct (Assign_ok h v hs Hwf Hc) as (hs' & ? & ? & ? & _). by exists hs'.
  - intros [Hc Hn]. apply Remove_ok; [done..|]. intros n p Hf. pose proof (find_entries h hs Hwf) as He. rewrite Hf in He.
    destruct p as [p|]; [|done]. destruct He as (v & _ & Hl). by apply (Hn n v).
  - intros Hh. by apply SetHeaderOrCookie_ok.
  - intros _. destruct (copy_constructor_ok hs Hwf) as (hs' & ? & ? & ? & _). by exists hs'.
Qed.

Lemma apply_ops_ok ops hs : headers_wf hs → ops_ok ops (entries hs) → ∃ hs',
  apply_ops ops hs = Ok hs' ∧ headers_wf hs' ∧ entries hs' = foldl (λ l op, list_op op l) (entries hs) ops.
Proof.
  revert hs. induction ops as [|op ops IH]; intros hs Hwf Hok; [by exists hs|]. destruct Hok as [Ho Hok].
  destruct (apply_op_ok op hs Hwf Ho) as (hs1 & E1 & Hwf1 & He1). rewrite <- He1 in Hok.
  destruct (IH hs1 Hwf1 Hok) as (hs2 & E2 & Hwf2 & He2). exists hs2. simpl. rewrite E1. simpl. by rewrite He2, He1.
Qed.

(** *** Two ways to leave a pointer to a destroyed header behind *)

Lemma iterate_dangling l hs e p : e ∈ l → e.2 = Some p → heap hs !! p = None → ∃ f, iterate l hs = Throw (HeaderFault f).
Proof.
  intros He Hp Hn. induction l as [|[k o] l IH]; [by apply elem_of_nil in He|]. simpl.
  apply elem_of_cons in He as [->|He].
  - simpl in Hp. subst o. unfold deref. simpl. rewrite Hn. by eexists.
  - destruct (IH He) as [f Hf]. unfold deref. destruct (o ≫= λ p, heap hs !! p); [|by eexists]. simpl. rewrite Hf. by eexists.
Qed.

(** Removing a header under another spelling of its name. *)
Lemma Remove_other_spelling h n p hs : headers_wf hs → IsCookieHeader h = false → find h hs = Some (n, Some p) → n ≠ h → ∃ hs' f,
  Remove h hs = Ok hs' ∧ Has h hs' = Ok false ∧ all_headers hs' = Throw (HeaderFault f).
Proof.
  intros Hwf Hc Hf Hn. unfold Remove, ThrowIfHeaderIsCookie. rewrite Hc, Hf. simpl.
  set (hs' := mkHeaders _ _ _ _ _).
  assert ((n, Some p) ∈ list_ hs') as Hin.
  { rewrite (wf_map _ Hwf) in Hf. apply (map_find_elem KeyComparator) in Hf as [Hin _]. apply list_elem_of_In, filter_In.
    split; [by apply list_elem_of_In|]. simpl. by rewrite bool_decide_eq_false_2. }
  destruct (iterate_dangling _ hs' _ p Hin eq_refl (lookup_delete_eq _ _)) as [f Hit]. exists hs', f. split_and!; [done| |done].
  unfold Has, ThrowIfHeaderIsCookie. rewrite Hc. unfold find, hs'. simpl. rewrite (map_find_erase KeyComparator).
  by rewrite (same_name_refl h : same_key KeyComparator h h = true).
Qed.

(** Pointers that are dead stay so while headers are copied. *)
Definition dead (p : pointer) hs : Prop := heap hs !! p = None ∧ p < fresh_pointer hs.

Lemma make_unique_dead key x p hs : dead p hs → dead p (make_unique key x hs).1.
Proof.
  intros [Hd Hf]. unfold dead, make_unique. simpl. split; [|lia]. rewrite lookup_insert_ne by lia.
  destruct (find key hs ≫= snd); [|done]. rewrite lookup_delete_None. by right.
Qed.

Lemma copy_map_dead l rhs p hs hs' : copy_map l rhs hs = Ok hs' → list_ hs' = list_ hs ∧ (dead p hs → dead p hs').
Proof.
  revert hs. induction l as [|[key o] l IH]; intros hs; [by intros [= <-]|]. simpl.
  destruct (deref o rhs) as [x|]; [|done]. simpl. intros Hc. apply IH in Hc as [Hl Hd]. split; [done|].
  intros Hp. by apply Hd, (make_unique_dead key x).
Qed.

Lemma copy_map_total l rhs hs : Forall (λ e, is_Some (e.2 ≫= λ q, heap rhs !! q)) l → ∃ hs', copy_map l rhs hs = Ok hs'.
Proof.
  intros Hl. revert hs. induction Hl as [|[key o] l [x Hx] _ IH]; intros hs; [by eexists|]. simpl in *. unfold deref.
  rewrite Hx. apply IH.
Qed.

(** The header that is replaced is destroyed. *)
Lemma copy_map_destroys l rhs hs hs' k n p : copy_map l rhs hs = Ok hs' → find k hs = Some (n, Some p) → p < fresh_pointer hs →
  is_Some (map_find KeyComparator k l) → dead p hs'.
Proof.
  revert hs. induction l as [|[key o] l IH]; intros hs; [by intros _ _ _ [??]|]. simpl.
  destruct (deref o rhs) as [x|]; [|done]. simpl. intros Hc Hf Hp Hin. destruct (same_key KeyComparator k key) eqn:Hk.
  - apply (copy_map_dead _ _ p) in Hc as [_ Hd]. apply Hd. unfold make_unique, dead. simpl. split; [|lia].
    assert (find key hs = Some (n, Some p)) as ->.
    { unfold find in *. rewrite <- (map_find_same KeyComparator k key); [done|]. by apply same_name_spec. }
    simpl. rewrite lookup_insert_ne by lia. apply lookup_delete_eq.
  - apply (IH _ Hc); [|simpl; lia|done]. unfold find, make_unique in *. simpl. rewrite (map_find_assign KeyComparator).
    by rewrite Hk.
Qed.

Lemma copy_list_prefix l hs : ∃ l', list_ (copy_list l hs) = list_ hs ++ l' ∧ heap (copy_list l hs) = heap hs.
Proof.
  revert hs. induction l as [|[key o] l IH]; intros hs; [exists []; by rewrite app_nil_r|]. simpl.
  match goal with |- context [copy_list l ?x] => destruct (IH x) as (l' & -> & ->) end. simpl.
  rewrite <- app_assoc. by eexists.
Qed.

(** Assigning headers to an object that has one of them already. *)
Lemma copy_assignment_dangles rhs hs k n p : headers_wf rhs → headers_wf hs → find k hs = Some (n, Some p) → is_Some (find k rhs) →
  ∃ hs' f, copy_assignment rhs hs = Ok hs' ∧ all_headers hs' = Throw (HeaderFault f).
Proof.
  intros Hwr Hwf Hf Hk. unfold copy_assignment, DeepCopyFrom.
  assert (∃ hs1, copy_map (map rhs) rhs hs = Ok hs1) as [hs1 E1].
  { apply copy_map_total. apply Forall_forall. intros e He. by apply map_entry_valid. }
  rewrite E1. simpl. pose proof Hf as Hin. rewrite (wf_map _ Hwf) in Hin. apply (map_find_elem KeyComparator) in Hin as [Hin _].
  destruct (entry_pointer hs _ Hwf Hin) as (q & v & [= <-] & _ & Hlt).
  pose proof (copy_map_destroys _ _ _ _ k n p E1 Hf Hlt Hk) as [Hdead _]. apply (copy_map_dead _ _ p) in E1 as [Hl _].
  destruct (copy_list_prefix (list_ rhs) hs1) as (l' & Hcl & Hch).
  set (hs' := mkHeaders _ _ _ _ _). destruct (iterate_dangling (list_ hs') hs' (n, Some p) p) as [f Hit].
  - simpl. rewrite Hcl, Hl. apply elem_of_app. by left.
  - done.
  - simpl. by rewrite Hch.
  - by exists hs', f.
Qed.

End HttpHeaders.
