(* ===== verification/HttpMessage.v ===== *)
(** * HTTP messages: bricks/net/http/

    Printing a response ([HTTPResponder] of impl/server.h, with codes.h,
    constants.h, default_messages.h and body_requirement.h), and the constructor
    of [GenericHTTPRequestData], which parses a request on the server and a
    response in the client.

    The parser reads from the connection into a buffer, takes lines from it, and
    reads the body, of a given length or in chunks.  The buffer is modelled by
    its size and the bytes read into it, so [offset] of the code is their
    number; the lengths that come from the peer are kept modulo 2^64 as in the
    code.  [on_line] is what is done with a line, whatever the buffer looks like;
    [parse_message] is the reference: the same on the whole text of the peer. *)

From Stdlib Require Import ZArith NArith Lia Ascii String.
From stdpp Require Import base sets gmap list strings.
From S2P Require Import Prelude Persistence Decimal Strings Url PubSub RemoteStream StdMap State Tcp HttpHeaders.
Open Scope nat_scope.

Module Http.
Import HttpHeaders Tcp.

(** ** Constants and codes *)

Definition kCRLF : bytes := ["013"; "010"]%char.
Definition kDefaultContentType : bytes := str "text/plain".
Definition kDefaultJSONContentType : bytes := str "application/json; charset=utf-8".
Definition kDefaultHTMLContentType : bytes := str "text/html; charset=utf-8".
Definition kHeaderKeyValueSeparator : ascii := ":"%char.
Definition kMaxHTTPPayloadSizeInBytes : Z := (1024 * 1024 * 16)%Z.

Abbreviation HTTPResponseCodeValue := Z (only parsing).

Definition OK : HTTPResponseCodeValue := 200%Z.
Definition Found : HTTPResponseCodeValue := 302%Z.
Definition BadRequest : HTTPResponseCodeValue := 400%Z.
Definition NotFound : HTTPResponseCodeValue := 404%Z.
Definition MethodNotAllowed : HTTPResponseCodeValue := 405%Z.
Definition LengthRequired : HTTPResponseCodeValue := 411%Z.
Definition RequestEntityTooLarge : HTTPResponseCodeValue := 413%Z.
Definition InternalServerError : HTTPResponseCodeValue := 500%Z.

Definition response_codes : list (Z * string) :=
  [(100, "Continue"); (101, "Switching Protocols"); (200, "OK"); (201, "Created"); (202, "Accepted");
   (203, "Non-Authoritative Information"); (204, "No Content"); (205, "Reset Content"); (206, "Partial Content");
   (300, "Multiple Choices"); (301, "Moved Permanently"); (302, "Found"); (303, "See Other"); (304, "Not Modified");
   (305, "Use Proxy"); (307, "Temporary Redirect"); (400, "Bad Request"); (401, "Unauthorized");
   (402, "Payment Required"); (403, "Forbidden"); (404, "Not Found"); (405, "Method Not Allowed");
   (406, "Not Acceptable"); (407, "Proxy Authentication Required"); (408, "Request Time-out"); (409, "Conflict");
   (410, "Gone"); (411, "Length Required"); (412, "Precondition Failed"); (413, "Request Entity Too Large");
   (414, "Request-URI Too Large"); (415, "Unsupported Media Type"); (416, "Requested range not satisfiable");
   (417, "Expectation Failed"); (500, "Internal Server Error"); (501, "Not Implemented"); (502, "Bad Gateway");
   (503, "Service Unavailable"); (504, "Gateway Time-out"); (505, "HTTP Version not supported");
   (-1, "<UNINITIALIZED>")]%Z%string.

Fixpoint code_text (codes : list (Z * string)) (code : HTTPResponseCodeValue) : bytes :=
  match codes with
  | [] => str "Unknown Code"
  | (c, text) :: codes => if (c =? code)%Z then str text else code_text codes code
  end.

Definition HTTPResponseCodeAsString : HTTPResponseCodeValue → bytes := code_text response_codes.

Definition html (s : string) : bytes := str "<h1>" ++ str s ++ str "</h1>" ++ [newline].
Definition DefaultNotFoundMessage : bytes := html "NOT FOUND".
Definition DefaultInternalServerErrorMessage : bytes := html "INTERNAL SERVER ERROR".
Definition DefaultMethodNotAllowedMessage : bytes := html "METHOD NOT ALLOWED".
Definition DefaultRequestEntityTooLargeMessage : bytes := html "ENTITY TOO LARGE".
Definition DefaultLengthRequiredMessage : bytes := html "LENGTH REQUIRED".
Definition DefaultInvalidHEXChunkSizeBadRequestMessage : bytes := html "BAD CHUNK SIZE".

Definition NeedContentLengthHeader (method : bytes) : bool :=
  bool_decide (method = str "POST") || bool_decide (method = str "PUT") || bool_decide (method = str "PATCH").

(** ** Exceptions *)

(** [StdOutOfRange] and [StdLengthError] are exceptions of the standard library,
    not [current::Exception]; [BufferOverflow] is a write past the end of the
    buffer, [DanglingConnection] a use of a connection that is gone. *)
Inductive http_exception :=
| SocketFailed (e : socket_exception)
| HTTPPayloadTooLarge
| HTTPRequestBodyLengthNotProvided
| ChunkSizeNotAValidHEXValue
| AttemptedToSendHTTPResponseMoreThanOnce
| MalformedURL (e : Url.url_error)
| HeaderFailed (e : header_exception)
| StdOutOfRange
| StdLengthError
| BufferOverflow
| UserCodeException
| DanglingConnection
| Assertion (f : fault)
| OutOfFuel.

Abbreviation http := (io Connection http_exception).

Definition read_ (n : nat) (policy : BlockingReadPolicy) : http bytes := io_map_error SocketFailed (BlockingRead n policy).
Definition write_ (data : bytes) : http () := io_map_error SocketFailed (BlockingWrite_range data).

(** ** Responses *)

Inductive ConnectionType := ConnectionClose | ConnectionKeepAlive.

Definition header_line (h : bytes * bytes) : bytes := h.1 ++ str ": " ++ h.2 ++ kCRLF.

Definition cookie_line (c : bytes * Cookie) : bytes :=
  str "Set-Cookie: " ++ c.1 ++ "="%char :: cookie_value c.2 ++
  ((params c.2) ≫= λ p, str "; " ++ p.1 ++ match p.2 with [] => [] | v => "="%char :: v end) ++ kCRLF.

Definition PrepareHTTPResponseHeader (connection_type : ConnectionType) (code : HTTPResponseCodeValue)
    (headers : Headers) (content_type : bytes) : outcome header_exception bytes :=
  hs ← all_headers headers;
  Ok (str "HTTP/1.1 " ++ RemoteStream.ToString_int64 code ++
      str " " ++ HTTPResponseCodeAsString code ++ kCRLF ++
      str "Content-Type: " ++ content_type ++ kCRLF ++
      str "Connection: " ++ (match connection_type with ConnectionKeepAlive => str "keep-alive" | _ => str "close" end) ++
      kCRLF ++ (hs ≫= header_line) ++ (cookies headers ≫= cookie_line)).

Definition SendHTTPResponseImpl (body : bytes) (code : HTTPResponseCodeValue) (headers : Headers) (content_type : bytes)
    : http () :=
  os ← io_lift HeaderFailed (PrepareHTTPResponseHeader ConnectionClose code headers content_type);
  _ ← write_ (os ++ str "Content-Length: " ++ RemoteStream.ToString_uint64 (N.of_nat (length body)) ++ kCRLF ++ kCRLF);
  write_ body.

(** The overloads of [SendHTTPResponse] for strings and containers of bytes
    differ in which arguments they leave out. *)
Definition SendHTTPResponse (body : bytes) (code : option HTTPResponseCodeValue) (headers : option Headers)
    (content_type : option bytes) : http () :=
  SendHTTPResponseImpl body (default OK code) (default no_headers headers) (default kDefaultContentType content_type).

(** Those for structures and variants send [JSON(object)]. *)
Definition SendHTTPResponse_object (json : bytes) (code : option HTTPResponseCodeValue) (headers : option Headers)
    (content_type : option bytes) : http () :=
  SendHTTPResponseImpl (json ++ [newline]) (default OK code) (default no_headers headers)
    (default kDefaultJSONContentType content_type).

(** ** Helpers: what is done with headers and chunks *)

Class Helper (H : Type) := {
  OnHeader : bytes → bytes → H → outcome http_exception H;
  OnChunk : bytes → H → outcome http_exception H;
  OnChunkedBodyDone : H → H * option bytes;
}.

(** [HTTPDefaultHelper]. *)
Record HTTPDefaultHelper := mkDefaultHelper { headers_ : Headers; body_ : bytes }.

Definition lift_header {A} (m : outcome header_exception A) : outcome http_exception A :=
  match m with Ok a => Ok a | Throw e => Throw (HeaderFailed e) end.

Definition default_OnHeader (key value : bytes) (h : HTTPDefaultHelper) : outcome http_exception HTTPDefaultHelper :=
  hs ← lift_header (SetHeaderOrCookie key value (headers_ h)); Ok (mkDefaultHelper hs (body_ h)).

Global Instance default_helper : Helper HTTPDefaultHelper := {|
  OnHeader := default_OnHeader;
  OnChunk chunk h := Ok (mkDefaultHelper (headers_ h) (body_ h ++ chunk));
  OnChunkedBodyDone h := (h, Some (body_ h));
|}.

(** [HTTPRedirectHelper] of blocks/http/impl/posix_client.h. *)
Record HTTPRedirectHelper := mkRedirectHelper { default_part : HTTPDefaultHelper; location : bytes }.

Global Instance redirect_helper : Helper HTTPRedirectHelper := {|
  OnHeader key value h :=
    d ← default_OnHeader key value (default_part h);
    Ok (mkRedirectHelper d (if bool_decide (key = str "Location") then value else location h));
  OnChunk chunk h :=
    d ← OnChunk chunk (default_part h); Ok (mkRedirectHelper d (location h));
  OnChunkedBodyDone h := (h, Some (body_ (default_part h)));
|}.

(** [ChunkByChunkHTTPResponseReceiver] of blocks/http/chunked_response_parser.h
    calls the user back; the model keeps the calls it made. *)
Inductive callback :=
| header_callback (key value : bytes)
| chunk_callback (chunk : bytes)
| done_callback.

Global Instance chunk_by_chunk_helper : Helper (list callback) := {|
  OnHeader key value calls := Ok (calls ++ [header_callback key value]);
  OnChunk chunk calls := Ok (calls ++ [chunk_callback chunk]);
  OnChunkedBodyDone calls := (calls ++ [done_callback], None);
|}.

(** ** Numbers in messages *)

(** [std::stoi(s, nullptr, 16)]. *)
Inductive stoi_result := StoiOk (z : Z) | InvalidArgument | OutOfRange.

Fixpoint read_hex (acc : Z) (s : bytes) : Z :=
  match s with
  | c :: s' => if Url.IsHexDigit c then read_hex (16 * acc + Url.hex_value c)%Z s' else acc
  | [] => acc
  end.

Definition strip_0x (s : bytes) : bytes :=
  match s with
  | "0"%char :: x :: c :: s' =>
      if (bool_decide (x = "x"%char) || bool_decide (x = "X"%char)) && Url.IsHexDigit c then c :: s' else s
  | _ => s
  end.

Definition stoi_unsigned (sign : Z) (s : bytes) : stoi_result :=
  match strip_0x s with
  | c :: s' =>
      if Url.IsHexDigit c then
        let z := (sign * read_hex 0 (c :: s'))%Z in
        if ((- 2 ^ 31 <=? z) && (z <? 2 ^ 31))%Z then StoiOk z else OutOfRange
      else InvalidArgument
  | [] => InvalidArgument
  end.

Definition stoi_16 (s : bytes) : stoi_result :=
  let s := drop (leading_spaces s) s in
  match s with
  | "-"%char :: s' => stoi_unsigned (-1) s'
  | "+"%char :: s' => stoi_unsigned 1 s'
  | _ => stoi_unsigned 1 s
  end.

(** [static_cast<size_t>(z)]. *)
Definition size_t (z : Z) : Z := (z mod 2 ^ 64)%Z.

(** The largest size of a string or a vector of bytes. *)
Definition max_size : Z := (2 ^ 63 - 1)%Z.

(** ** One line *)

Definition NormalizeHeaderChar (c : ascii) : ascii := if bool_decide (c = "_"%char) then "-"%char else tolower c.

Fixpoint HeaderNameEquals (lhs rhs : bytes) : bool :=
  match lhs, rhs with
  | a :: lhs', b :: rhs' =>
      if bool_decide (NormalizeHeaderChar a = NormalizeHeaderChar b) then HeaderNameEquals lhs' rhs' else false
  | [], [] => true
  | _, _ => false
  end.

Definition IsSpaceOrTab (c : ascii) : bool := bool_decide (c = " "%char) || bool_decide (c = tab).

Section Parser.
Context {H : Type} `{Helper H}.

(** The part of the state that has nothing to do with the buffer. *)
Record control := mkControl {
  method_ : bytes;
  raw_path_ : bytes;
  url_ : Url.URL;
  helper : H;
  body_length : option Z;
  first_line_parsed : bool;
  chunked_transfer_encoding : bool;
  receiving_body_in_chunks : bool;
}.
Implicit Type s : control.

Definition no_url : Url.URL := (Url.mkUrl [] (str "/") (str "http") 0 [] [], Url.mkParameters [] ∅ []).

Definition start_control (h : H) : control := mkControl [] [] no_url h None false false false.

(** What a message turns out to be. *)
Record message := mkMessage {
  method : bytes;
  raw_path : bytes;
  url : Url.URL;
  helper_state : H;
  body : option bytes;
}.

Definition finish_message (b : option bytes) s : message := mkMessage (method_ s) (raw_path_ s) (url_ s) (helper s) b.

(** What to do after a line. *)
Inductive action :=
| NextLine (s : control)
| ReceiveChunk (chunk_length : Z) (s : control)
| LastChunk (s : control)
| ReceiveBody (body_length : Z) (s : control)
| NoBody (s : control).

(** What stops the parser: an exception, after a response if there is one. *)
Record refusal := mkRefusal { exception : http_exception; answer : option (HTTPResponseCodeValue * bytes) }.

Definition refuse {A} (e : http_exception) (code : HTTPResponseCodeValue) (text : bytes) : outcome refusal A :=
  Throw (mkRefusal e (Some (code, text))).

Definition no_answer {A} (m : outcome http_exception A) : outcome refusal A :=
  match m with Ok a => Ok a | Throw e => Throw (mkRefusal e None) end.

(** The line with the method and the path. *)
Definition first_line (line : bytes) s : outcome refusal control :=
  let pieces := Split match_whitespace Skip line in
  let method := match pieces with p :: _ => p | [] => method_ s end in
  match pieces with
  | _ :: path :: _ =>
      u ← no_answer (match Url.make_URL path with Ok u => Ok u | Throw e => Throw (MalformedURL e) end);
      Ok (mkControl method path u (helper s) (body_length s) true (chunked_transfer_encoding s) (receiving_body_in_chunks s))
  | _ =>
      Ok (mkControl method (raw_path_ s) (url_ s) (helper s) (body_length s) true (chunked_transfer_encoding s)
            (receiving_body_in_chunks s))
  end.

(** A header, and the ones that say how the message goes on. *)
Definition on_header (key value : bytes) s : outcome refusal control :=
  h ← no_answer (OnHeader key value (helper s));
  if HeaderNameEquals key (str "Content-Length") then
    let n := size_t (Url.atoi value) in
    if (kMaxHTTPPayloadSizeInBytes <? n)%Z
    then refuse HTTPPayloadTooLarge RequestEntityTooLarge DefaultRequestEntityTooLargeMessage
    else Ok (mkControl (method_ s) (raw_path_ s) (url_ s) h (Some n) (first_line_parsed s)
               (chunked_transfer_encoding s) (receiving_body_in_chunks s))
  else if HeaderNameEquals key (str "X-HTTP-Method-Override") then
    Ok (mkControl (ToUpper value) (raw_path_ s) (url_ s) h (body_length s) (first_line_parsed s)
          (chunked_transfer_encoding s) (receiving_body_in_chunks s))
  else
    let chunked := HeaderNameEquals key (str "Transfer-Encoding") && HeaderNameEquals value (str "chunked") in
    Ok (mkControl (method_ s) (raw_path_ s) (url_ s) h (body_length s) (first_line_parsed s)
          (chunked || chunked_transfer_encoding s) (receiving_body_in_chunks s)).

(** A line with a header. *)
Definition header_of_line (line : bytes) s : outcome refusal control :=
  match split_at kHeaderKeyValueSeparator line with
  | None => Ok s
  | Some (key, rest) => on_header key (trim IsSpaceOrTab rest) s
  end.

(** A line with the size of a chunk. *)
Definition chunk_size (line : bytes) s : outcome refusal action :=
  match stoi_16 line with
  | InvalidArgument => refuse ChunkSizeNotAValidHEXValue BadRequest DefaultInvalidHEXChunkSizeBadRequestMessage
  | OutOfRange => no_answer (Throw StdOutOfRange)
  | StoiOk z => Ok (if (size_t z =? 0)%Z then LastChunk s else ReceiveChunk (size_t z) s)
  end.

(** The blank line after the headers. *)
Definition end_of_headers s : outcome refusal action :=
  if chunked_transfer_encoding s then
    Ok (NextLine (mkControl (method_ s) (raw_path_ s) (url_ s) (helper s) (body_length s) (first_line_parsed s) true true))
  else match body_length s with
       | Some n => Ok (ReceiveBody n s)
       | None =>
           if NeedContentLengthHeader (method_ s)
           then refuse HTTPRequestBodyLengthNotProvided LengthRequired DefaultLengthRequiredMessage
           else Ok (NoBody s)
       end.

Definition on_line (line : bytes) s : outcome refusal action :=
  if negb (first_line_parsed s) then
    match line with [] => Ok (NextLine s) | _ => s ← first_line line s; Ok (NextLine s) end
  else if receiving_body_in_chunks s then
    match line with [] => Ok (NextLine s) | _ => chunk_size line s end
  else match line with
       | [] => end_of_headers s
       | _ => s ← header_of_line line s; Ok (NextLine s)
       end.

(** ** The reference parser: lines and bodies taken from the whole text *)

(** [strstr(s, kCRLF)]: the line and what follows it.  A NUL ends the text. *)
Fixpoint find_crlf (s : bytes) : option (bytes * bytes) :=
  match s with
  | c :: s' =>
      if bool_decide (c = nul) then None
      else match s' with
           | d :: rest =>
               if bool_decide (c = "013"%char) && bool_decide (d = newline) then Some ([], rest)
               else (λ '(line, rest), (c :: line, rest)) <$> find_crlf s'
           | [] => None
           end
  | [] => None
  end.

Inductive parsed :=
| Parsed (m : message)
| Truncated
| NegativeChunk
| Refused (r : refusal).

Definition set_helper (h : H) s : control :=
  mkControl (method_ s) (raw_path_ s) (url_ s) h (body_length s) (first_line_parsed s) (chunked_transfer_encoding s)
    (receiving_body_in_chunks s).

Definition finish_chunked s : message :=
  let '(h, b) := OnChunkedBodyDone (helper s) in finish_message b (set_helper h s).

Fixpoint parse_message (fuel : nat) (text : bytes) s : parsed :=
  match fuel with
  | O => Truncated
  | S fuel =>
      match find_crlf text with
      | None => Truncated
      | Some (line, rest) =>
          match on_line line s with
          | Throw r => Refused r
          | Ok (NextLine s) => parse_message fuel rest s
          | Ok (LastChunk s) => Parsed (finish_chunked s)
          | Ok (NoBody s) => Parsed (finish_message None s)
          | Ok (ReceiveBody n s) =>
              if (Z.of_nat (length rest) <? n)%Z then Truncated
              else Parsed (finish_message (Some (take (Z.to_nat n) rest)) s)
          | Ok (ReceiveChunk n s) =>
              if (max_size <? n)%Z then NegativeChunk
              else if (Z.of_nat (length rest) <? n)%Z then Truncated
              else match OnChunk (take (Z.to_nat n) rest) (helper s) with
                   | Throw e => Refused (mkRefusal e None)
                   | Ok h => parse_message fuel (drop (Z.to_nat n) rest) (set_helper h s)
                   end
          end
      end
  end.

Definition parse_text (h : H) (text : bytes) : parsed := parse_message (S (length text)) text (start_control h).

(** ** The parser of the code *)

Record parser := mkParser {
  buffer_size : nat;
  buffer_ : bytes;
  current_line_offset : nat;
  state : control;
}.
Implicit Type p : parser.

(** [static_cast<size_t>(buffer_.size() * buffer_growth_k)], in floating point. *)
Context (scaled : nat → nat).

(** What is thrown, and what is sent before. *)
Definition raise {A} (r : refusal) : http A :=
  match answer r with
  | Some (code, text) =>
      _ ← SendHTTPResponse text (Some code) (Some no_headers) (Some kDefaultHTMLContentType); throw (exception r)
  | None => throw (exception r)
  end.

(** Make room for a chunk that ends at [next_offset]: move it to the beginning of
    the buffer, or resize the buffer. *)
Definition make_room (chunk_offset : nat) (next_offset : Z) p : outcome http_exception (parser * nat * Z) :=
  if (Z.of_nat (buffer_size p) <? size_t (next_offset + 1))%Z then
    if (size_t (next_offset + 1 - Z.of_nat (buffer_size p)) <=? Z.of_nat chunk_offset)%Z then
      Ok (mkParser (buffer_size p) (drop chunk_offset (buffer_ p)) (current_line_offset p) (state p), 0,
          (next_offset - Z.of_nat chunk_offset)%Z)
    else if (max_size <? next_offset + 1)%Z then Throw StdLengthError
    else
      Ok (mkParser (Nat.max (scaled (buffer_size p)) (Z.to_nat (next_offset + 1))) (buffer_ p) (current_line_offset p) (state p),
          chunk_offset, next_offset)
  else Ok (p, chunk_offset, next_offset).

(** Read what is missing of a chunk that ends at [next_offset]. *)
Definition complete_chunk (chunk_offset : nat) (next_offset : Z) p : http (parser * nat * Z) :=
  if (Z.of_nat (length (buffer_ p)) <? next_offset)%Z then
    let bytes_to_read := (next_offset - Z.of_nat (length (buffer_ p)))%Z in
    '(p, chunk_offset, next_offset) ← io_lift id (make_room chunk_offset next_offset p);
    if (Z.of_nat (buffer_size p) <? Z.of_nat (length (buffer_ p)) + bytes_to_read)%Z then throw BufferOverflow
    else
      data ← read_ (Z.to_nat bytes_to_read) FillFullBuffer;
      mret (mkParser (buffer_size p) (buffer_ p ++ data) (current_line_offset p) (state p), chunk_offset, next_offset)
  else mret (p, chunk_offset, next_offset).

(** A chunk of [chunk_length] bytes at [chunk_offset], and where it ends. *)
Definition receive_chunk (chunk_length : Z) (chunk_offset : nat) p : http (bytes * nat * parser) :=
  '(p, chunk_offset, next_offset) ← complete_chunk chunk_offset (size_t (Z.of_nat chunk_offset + chunk_length)) p;
  if (max_size <? chunk_length)%Z then throw StdLengthError
  else mret (take (Z.to_nat chunk_length) (drop chunk_offset (buffer_ p)), Z.to_nat next_offset, p).

(** Read the rest of a body of [n] bytes at [body_offset]. *)
Definition receive_body (n : Z) (body_offset : nat) p : http bytes :=
  let length_cap := body_offset + Z.to_nat n in
  let offset := length (buffer_ p) in
  data ← (if offset <? length_cap then read_ (length_cap - offset) FillFullBuffer else mret []);
  mret (take (Z.to_nat n) (drop body_offset (buffer_ p ++ data))).

(** The inner loop, over the lines in the buffer. *)
Fixpoint lines_loop (fuel : nat) p : http (parser + message) :=
  match fuel with
  | O => throw OutOfFuel
  | S fuel =>
      match find_crlf (drop (current_line_offset p) (buffer_ p)) with
      | None => mret (inl p)
      | Some (line, _) =>
          let next_line_offset := current_line_offset p + length line + 2 in
          match on_line line (state p) with
          | Throw r => raise r
          | Ok (NextLine s) => lines_loop fuel (mkParser (buffer_size p) (buffer_ p) next_line_offset s)
          | Ok (LastChunk s) => mret (inr (finish_chunked s))
          | Ok (NoBody s) => mret (inr (finish_message None s))
          | Ok (ReceiveBody n s) =>
              b ← receive_body n next_line_offset p;
              mret (inr (finish_message (Some b) s))
          | Ok (ReceiveChunk n s) =>
              '(chunk, next_offset, p) ← receive_chunk n next_line_offset p;
              h ← io_lift id (OnChunk chunk (helper s));
              lines_loop fuel (mkParser (buffer_size p) (buffer_ p) next_offset (set_helper h s))
          end
      end
  end.

(** Read into the buffer, and grow it if it is full. *)
Definition fill_buffer p : http parser :=
  let offset := length (buffer_ p) in
  let chunk := buffer_size p - offset - 1 in
  _ ← (if offset + 1 <? buffer_size p then mret () else throw (Assertion AssertionFailed));
  data ← read_ chunk ReturnASAP;
  let read_count := length data in
  let size := if read_count =? chunk then Nat.max (scaled (buffer_size p)) (buffer_size p + 1) else buffer_size p in
  if read_count =? 0 then throw (SocketFailed ConnectionResetByPeer)
  else mret (mkParser size (buffer_ p ++ data) (current_line_offset p) (state p)).

(** In the body in chunks, move the last line to the beginning of the buffer. *)
Definition shift_buffer p : parser :=
  if receiving_body_in_chunks (state p) && negb (current_line_offset p =? 0) then
    mkParser (buffer_size p)
      (if current_line_offset p <? length (buffer_ p) then drop (current_line_offset p) (buffer_ p) else [])
      0 (state p)
  else p.

Fixpoint read_loop (fuel : nat) p : http message :=
  match fuel with
  | O => throw OutOfFuel
  | S fuel =>
      p ← fill_buffer p;
      r ← (λ c, lines_loop (S (length (buffer_ p) + length (concat (incoming c)))) p c);
      match r with
      | inl p => read_loop fuel (shift_buffer p)
      | inr m => mret m
      end
  end.

(** The constructor. *)
Definition GenericHTTPRequestData (h : H) (initial_buffer_size : nat) : http message := λ c,
  read_loop (S (length (concat (incoming c)))) (mkParser initial_buffer_size [] 0 (start_control h)) c.

End Parser.
Arguments control : clear implicits.
Arguments message : clear implicits.
Arguments action : clear implicits.
Arguments parsed : clear implicits.
Arguments parser : clear implicits.

End Http.
