(* ===== verification/HttpParsing.v ===== *)
(** * The HTTP parser does not depend on how its input arrives

    Lemmas about HttpMessage.v: the constructor of [GenericHTTPRequestData] gives
    what the reference parser gives on the whole text, for any segments the text
    arrives in and any size of the buffer, without a failed assertion and within
    its fuel.  The exception is a negative chunk size, for which the code adds up
    a wrapped-around length; what happens then depends on the buffer. *)

From Stdlib Require Import ZArith NArith Lia Ascii String.
From stdpp Require Import base sets gmap list strings.
From S2P Require Import Prelude Persistence Decimal Strings Url PubSub RemoteStream StdMap State Tcp HttpHeaders HttpMessage.
Open Scope nat_scope.

Module HttpParsing.
Import Http Tcp HttpHeaders.

(** ** Lines *)

Lemma find_crlf_spec s line rest : find_crlf s = Some (line, rest) → s = line ++ kCRLF ++ rest ∧ nul ∉ line.
Proof.
  revert line. induction s as [|c s IH]; intros line; simpl; [done|]. case_bool_decide as Hc; [done|].
  destruct s as [|d s]; [done|]. destruct (bool_decide (c = "013"%char) && bool_decide (d = newline)) eqn:Hcd.
  - apply andb_true_iff in Hcd as [->%bool_decide_eq_true ->%bool_decide_eq_true]. intros [= <- <-].
    split; [done|apply not_elem_of_nil].
  - destruct (find_crlf (d :: s)) as [[l r]|] eqn:Hf; [|done]. intros [= <- <-].
    destruct (IH l eq_refl) as [Hs Hn]. rewrite Hs. split; [done|]. rewrite not_elem_of_cons. done.
Qed.

Lemma find_crlf_cons c d s :
  find_crlf (c :: d :: s) =
  if bool_decide (c = nul) then None
  else if bool_decide (c = "013"%char) && bool_decide (d = newline) then Some ([], s)
  else (λ '(line, rest), (c :: line, rest)) <$> find_crlf (d :: s).
Proof. done. Qed.

Lemma find_crlf_app s t line rest : find_crlf s = Some (line, rest) → find_crlf (s ++ t) = Some (line, rest ++ t).
Proof.
  revert line. induction s as [|c s IH]; intros line; [done|]. destruct s as [|d s]; [simpl; by case_bool_decide|].
  change ((c :: d :: s) ++ t) with (c :: d :: (s ++ t)). rewrite !find_crlf_cons.
  case_bool_decide as Hc; [done|]. destruct (bool_decide (c = "013"%char) && bool_decide (d = newline)).
  - by intros [= <- <-].
  - destruct (find_crlf (d :: s)) as [[l r]|] eqn:Hf; [|done]. intros [= <- <-].
    specialize (IH l eq_refl). simpl app in IH. by rewrite IH.
Qed.

Lemma find_crlf_length s line rest : find_crlf s = Some (line, rest) → length s = length line + 2 + length rest.
Proof. intros [-> _]%find_crlf_spec. rewrite !length_app. simpl. lia. Qed.

(** ** The size of a chunk *)

Lemma stoi_unsigned_range sign s z : stoi_unsigned sign s = StoiOk z → (- 2 ^ 31 <= z < 2 ^ 31)%Z.
Proof.
  unfold stoi_unsigned. destruct (strip_0x s) as [|c s']; [done|]. destruct (Url.IsHexDigit c); [|done].
  destruct ((- 2 ^ 31 <=? sign * read_hex 0 (c :: s'))%Z && (sign * read_hex 0 (c :: s') <? 2 ^ 31)%Z) eqn:Hr; [|done].
  intros [= <-]. apply andb_true_iff in Hr as [?%Z.leb_le ?%Z.ltb_lt]. done.
Qed.

Lemma stoi_range s z : stoi_16 s = StoiOk z → (- 2 ^ 31 <= z < 2 ^ 31)%Z.
Proof. unfold stoi_16. repeat case_match; apply stoi_unsigned_range. Qed.

(** ** Responses on a connection that takes everything *)

Definition response_text (body : bytes) (code : HTTPResponseCodeValue) (headers : Headers) (content_type : bytes) : bytes :=
  match PrepareHTTPResponseHeader ConnectionClose code headers content_type with
  | Ok os =>
      (os ++ str "Content-Length: " ++ RemoteStream.ToString_uint64 (N.of_nat (length body)) ++ kCRLF ++ kCRLF) ++ body
  | Throw _ => []
  end.

Definition wrote (data : bytes) (c : Connection) : Connection :=
  mkConnection (incoming c) (reset c) (interrupted c) (outgoing c ++ data) (accepts c).

Lemma write_ok data c : accepts c = None → write_ data c = (Ok (), wrote data c).
Proof. intros Ha. unfold write_, io_map_error. rewrite write_range by done. unfold wrote. by rewrite Ha. Qed.

Lemma wrote_wrote a b c : wrote b (wrote a c) = wrote (a ++ b) c.
Proof. unfold wrote. simpl. by rewrite app_assoc. Qed.

Lemma SendHTTPResponseImpl_ok body code headers content_type c : headers_wf headers → accepts c = None →
  SendHTTPResponseImpl body code headers content_type c = (Ok (), wrote (response_text body code headers content_type) c).
Proof.
  intros Hwf Ha. unfold SendHTTPResponseImpl, response_text.
  destruct (PrepareHTTPResponseHeader ConnectionClose code headers content_type) as [os|e] eqn:Hp.
  - unfold mbind, io_bind, io_lift. rewrite write_ok by done. rewrite write_ok by done. by rewrite wrote_wrote.
  - exfalso. unfold PrepareHTTPResponseHeader in Hp. by rewrite iterate_entries in Hp.
Qed.

Definition answer_text (r : refusal) : bytes :=
  match answer r with Some (code, text) => response_text text code no_headers kDefaultHTMLContentType | None => [] end.

Lemma raise_ok {A} r c : accepts c = None → raise (A := A) r c = (Throw (exception r), wrote (answer_text r) c).
Proof.
  intros Ha. unfold raise, answer_text. destruct (answer r) as [[code text]|].
  - unfold mbind, io_bind, SendHTTPResponse. simpl default.
    rewrite SendHTTPResponseImpl_ok by (done || apply no_headers_wf). done.
  - unfold throw, wrote. rewrite app_nil_r. by destruct c.
Qed.

Section Lines.
Context {H : Type} `{Helper H}.
Implicit Types s : control H.

(** A chunk is announced only while the body is received in chunks, with a size
    that is small, or that was negative. *)
Lemma on_line_chunk line s n s' : on_line line s = Ok (ReceiveChunk n s') →
  s' = s ∧ receiving_body_in_chunks s = true ∧ (0 < n < 2 ^ 31 ∨ 2 ^ 64 - 2 ^ 31 <= n < 2 ^ 64)%Z.
Proof.
  unfold on_line. destruct (first_line_parsed s); simpl.
  - destruct (receiving_body_in_chunks s).
    + destruct line as [|a line]; [done|]. unfold chunk_size. destruct (stoi_16 (a :: line)) as [z| |] eqn:Hz; [|done..].
      destruct (Z.eqb_spec (size_t z) 0) as [|Hne]; [done|]. intros [= <- <-]. apply stoi_range in Hz.
      split_and!; [done..|]. unfold size_t in *. destruct (Z.neg_nonneg_cases z).
      * right. replace (z mod 2 ^ 64)%Z with (z + 2 ^ 64)%Z; [lia|]. apply Zmod_unique with (-1)%Z; lia.
      * rewrite Z.mod_small in Hne |- * by lia. lia.
    + destruct line as [|a line]; [unfold end_of_headers; repeat case_match; done|].
      by destruct (header_of_line (a :: line) s).
  - destruct line as [|a line]; [done|]. by destruct (first_line (a :: line) s).
Qed.

Lemma on_line_body line s n s' : on_line line s = Ok (ReceiveBody n s') → body_length s = Some n.
Proof.
  unfold on_line. destruct (first_line_parsed s); simpl.
  - destruct (receiving_body_in_chunks s).
    + destruct line; [done|]. unfold chunk_size. repeat case_match; done.
    + destruct line as [|a line]; [|by destruct (header_of_line (a :: line) s)].
      unfold end_of_headers. repeat case_match; naive_solver.
  - destruct line as [|a line]; [done|]. by destruct (first_line (a :: line) s).
Qed.

(** ** The reference parser *)

Lemma parse_fuel f1 f2 text s : length text < f1 → length text < f2 → parse_message f1 text s = parse_message f2 text s.
Proof.
  revert f2 text s. induction f1 as [|f1 IH]; intros [|f2] text s H1 H2; [lia..|]. simpl.
  destruct (find_crlf text) as [[line rest]|] eqn:Hf; [|done]. apply find_crlf_length in Hf.
  destruct (on_line line s) as [[s'|n s'|s'|n s'|s']|]; [apply IH; lia| |done..].
  destruct (max_size <? n)%Z; [done|]. destruct (Z.of_nat (length rest) <? n)%Z; [done|].
  destruct (OnChunk _ _) as [h|]; [|done]. apply IH; rewrite length_drop; lia.
Qed.

Definition parse (text : bytes) s : parsed H := parse_message (S (length text)) text s.

Lemma parse_unfold text s :
  parse text s =
  match find_crlf text with
  | None => Truncated
  | Some (line, rest) =>
      match on_line line s with
      | Throw r => Refused r
      | Ok (NextLine s) => parse rest s
      | Ok (LastChunk s) => Parsed (finish_chunked s)
      | Ok (NoBody s) => Parsed (finish_message None s)
      | Ok (ReceiveBody n s) =>
          if (Z.of_nat (length rest) <? n)%Z then Truncated
          else Parsed (finish_message (Some (take (Z.to_nat n) rest)) s)
      | Ok (ReceiveChunk n s) =>
          if (max_size <? n)%Z then NegativeChunk
          else if (Z.of_nat (length rest) <? n)%Z then Truncated
          else match OnChunk (take (Z.to_nat n) rest) (helper s) with
               | Throw e => Refused (mkRefusal e None)
               | Ok h => parse (drop (Z.to_nat n) rest) (set_helper h s)
               end
      end
  end.
Proof.
  unfold parse at 1. simpl. destruct (find_crlf text) as [[line rest]|] eqn:Hf; [|done]. apply find_crlf_length in Hf.
  destruct (on_line line s) as [[s'|n s'|s'|n s'|s']|]; [apply parse_fuel; lia| |done..].
  destruct (max_size <? n)%Z; [done|]. destruct (Z.of_nat (length rest) <? n)%Z; [done|].
  destruct (OnChunk _ _) as [h|]; [|done]. apply parse_fuel; rewrite length_drop; lia.
Qed.

(** ** The buffer *)

Context (scaled : nat → nat) (Hscaled : ∀ n, scaled n ≤ 2 * n).
Implicit Types (p : parser H) (c : Connection).

Record conn_ok c : Prop := mkConnOk {
  conn_segments : Forall (.≠ []) (incoming c);
  conn_uninterrupted : interrupted c = false;
  conn_accepts : accepts c = None;
}.

Lemma conn_ok_same c c' : conn_ok c → same_but_incoming c c' → Forall (.≠ []) (incoming c') → conn_ok c'.
Proof. intros [_ Hi Ha] (_ & Hi' & _ & Ha') Hf. split; congruence. Qed.

(** What is left of the text: the part of the buffer after the lines already
    taken, and what has not been read. *)
Definition unparsed (offset : nat) p c : bytes := drop offset (buffer_ p) ++ concat (incoming c).

Definition text_size p c : Z := Z.of_nat (length (buffer_ p) + length (concat (incoming c))).

Definition sizes_ok p c : Prop := (2 <= buffer_size p)%nat ∧ (Z.of_nat (buffer_size p) <= 2 ^ 62)%Z ∧ (text_size p c <= 2 ^ 60)%Z.

(** *** Room for a chunk *)

Lemma size_t_small z : (0 <= z < 2 ^ 64)%Z → size_t z = z.
Proof. apply Z.mod_small. Qed.

Lemma make_room_ok n offset p c : sizes_ok p c → length (buffer_ p) + 1 < buffer_size p → offset ≤ length (buffer_ p) →
  (0 < n < 2 ^ 31)%Z → (Z.of_nat (length (buffer_ p)) < Z.of_nat offset + n)%Z → ∃ d p',
  make_room scaled offset (Z.of_nat offset + n) p = Ok (p', offset - d, (Z.of_nat (offset - d) + n)%Z) ∧ d ≤ offset ∧
  buffer_ p' = drop d (buffer_ p) ∧ state p' = state p ∧ current_line_offset p' = current_line_offset p ∧
  (Z.of_nat (offset - d) + n + 1 <= Z.of_nat (buffer_size p'))%Z ∧ (2 <= buffer_size p')%nat ∧
  (Z.of_nat (buffer_size p') <= 2 ^ 62)%Z.
Proof.
  intros (H2 & Hmax & Ht) Hb Ho Hn Hlt. unfold make_room. unfold text_size in Ht.
  assert (Z.of_nat offset <= 2 ^ 60)%Z by lia.
  rewrite size_t_small by lia.
  destruct (Z.ltb_spec (Z.of_nat (buffer_size p)) (Z.of_nat offset + n + 1)) as [Hs|Hs].
  - rewrite size_t_small by lia.
    destruct (Z.leb_spec (Z.of_nat offset + n + 1 - Z.of_nat (buffer_size p)) (Z.of_nat offset)).
    + exists offset. eexists. rewrite Nat.sub_diag. split_and!; [f_equal; f_equal; lia|done..| | |]; simpl; lia.
    + destruct (Z.ltb_spec max_size (Z.of_nat offset + n + 1)); [unfold max_size in *; lia|].
      exists 0. eexists. rewrite Nat.sub_0_r. pose proof (Hscaled (buffer_size p)). split_and!; [done|lia|done..| | |]; simpl; lia.
  - exists 0, p. rewrite Nat.sub_0_r. split_and!; [done|lia|done..| | |]; simpl; lia.
Qed.

(** *** Receiving a chunk *)

(** The buffer after a chunk, of which the next line starts at [offset]. *)
Definition after_chunk p c p' c' (offset : nat) : Prop :=
  conn_ok c' ∧ outgoing c' = outgoing c ∧ state p' = state p ∧ sizes_ok p' c' ∧ offset ≤ length (buffer_ p') ∧
  (length (buffer_ p') + 1 < buffer_size p' ∨ length (buffer_ p') + 1 ≤ buffer_size p' ∧ offset = length (buffer_ p')) ∧
  length (concat (incoming c')) ≤ length (concat (incoming c)).

Lemma complete_chunk_ok n offset p c : conn_ok c → sizes_ok p c → length (buffer_ p) + 1 < buffer_size p →
  offset ≤ length (buffer_ p) → (0 < n < 2 ^ 31)%Z →
  if (Z.of_nat (length (unparsed offset p c)) <? n)%Z
  then ∃ e c', complete_chunk scaled offset (Z.of_nat offset + n) p c = (Throw (SocketFailed e), c') ∧ lost e ∧
    outgoing c' = outgoing c
  else ∃ offset' p' c',
    complete_chunk scaled offset (Z.of_nat offset + n) p c = (Ok (p', offset', (Z.of_nat offset' + n)%Z), c') ∧
    after_chunk p c p' c' (offset' + Z.to_nat n) ∧ unparsed offset' p' c' = unparsed offset p c.
Proof.
  intros Hc Hs Hb Ho Hn. pose proof Hs as (H2 & Hmax & Ht). unfold text_size in Ht.
  unfold complete_chunk, unparsed. rewrite length_app, length_drop.
  destruct (Z.ltb_spec (Z.of_nat (length (buffer_ p))) (Z.of_nat offset + n)) as [Hlt|Hge].
  - destruct (make_room_ok n offset p c Hs Hb Ho Hn Hlt) as (d & p' & Hroom & Hd & Hbuf & Hst & _ & Hsz & Hsz2 & Hszm).
    set (m := Z.to_nat (Z.of_nat offset + n - Z.of_nat (length (buffer_ p)))).
    assert (length (buffer_ p') = length (buffer_ p) - d) as Hlen by (rewrite Hbuf; apply length_drop).
    erewrite (io_bind_ok (io_lift id _)) by (unfold io_lift; by rewrite Hroom). cbv beta iota.
    destruct (Z.ltb_spec (Z.of_nat (buffer_size p')) (Z.of_nat (length (buffer_ p')) +
      (Z.of_nat offset + n - Z.of_nat (length (buffer_ p))))); [lia|].
    destruct (read_full m c) as [(c' & Hread & Hm & Hf & Hrest & Hsame)|(e & c' & Hread & He & Hm & Hsame)];
      [apply Hc|lia|apply Hc| |].
    + destruct (Z.ltb_spec (Z.of_nat (length (buffer_ p) - offset + length (concat (incoming c)))) n); [lia|].
      erewrite io_bind_ok by (by apply io_map_error_ok). eexists _, _, c'. split; [done|]. split.
      * unfold after_chunk, sizes_ok, text_size. simpl.
        rewrite !length_app, length_take, Hrest, length_drop, Hlen.
        split_and!; [by eapply conn_ok_same|by destruct Hsame as (_ & _ & ? & _)|done|done|done|lia|lia|right; lia|lia].
      * simpl. rewrite Hrest, Hbuf. rewrite drop_app_le, drop_drop by (rewrite length_drop; lia).
        replace (d + (offset - d)) with offset by lia. by rewrite <- app_assoc, take_drop.
    + destruct (Z.ltb_spec (Z.of_nat (length (buffer_ p) - offset + length (concat (incoming c)))) n); [|lia].
      erewrite io_bind_throw by (by apply io_map_error_throw). exists e, c'. split_and!; [done..|].
      by destruct Hsame as (_ & _ & ? & _).
  - destruct (Z.ltb_spec (Z.of_nat (length (buffer_ p) - offset + length (concat (incoming c)))) n); [lia|].
    exists offset, p, c. split_and!; [done| |done].
    unfold after_chunk. split_and!; [done..|lia|left; lia|lia].
Qed.

Lemma receive_chunk_ok n offset p c : conn_ok c → sizes_ok p c → length (buffer_ p) + 1 < buffer_size p →
  offset ≤ length (buffer_ p) → (0 < n < 2 ^ 31)%Z →
  if (Z.of_nat (length (unparsed offset p c)) <? n)%Z
  then ∃ e c', receive_chunk scaled n offset p c = (Throw (SocketFailed e), c') ∧ lost e ∧ outgoing c' = outgoing c
  else ∃ offset' p' c',
    receive_chunk scaled n offset p c = (Ok (take (Z.to_nat n) (unparsed offset p c), offset', p'), c') ∧
    after_chunk p c p' c' offset' ∧ unparsed offset' p' c' = drop (Z.to_nat n) (unparsed offset p c).
Proof.
  intros Hc Hs Hb Ho Hn. pose proof Hs as (H2 & Hmax & Ht). unfold text_size in Ht.
  unfold receive_chunk. rewrite size_t_small by lia. pose proof (complete_chunk_ok n offset p c Hc Hs Hb Ho Hn) as Hcc.
  destruct (Z.ltb_spec (Z.of_nat (length (unparsed offset p c))) n) as [Hlt|Hge].
  - destruct Hcc as (e & c' & Hcc & He & Hout). erewrite io_bind_throw by done. eauto.
  - destruct Hcc as (o & p' & c' & Hcc & Ha & Hu). erewrite io_bind_ok by done. cbv beta iota.
    destruct (Z.ltb_spec max_size n); [unfold max_size in *; lia|]. pose proof Ha as (_ & _ & _ & _ & Hle & _).
    exists (o + Z.to_nat n), p', c'. rewrite <- Hu. unfold unparsed. split_and!; [|done|].
    + rewrite take_app_le by (rewrite length_drop; lia).
      by replace (Z.to_nat (Z.of_nat o + n)) with (o + Z.to_nat n) by lia.
    + by rewrite drop_app_le, drop_drop by (rewrite length_drop; lia).
Qed.

(** A size that was negative: the sum wraps around. *)
Lemma receive_chunk_negative n offset p c : sizes_ok p c → offset ≤ length (buffer_ p) →
  (2 ^ 64 - 2 ^ 31 <= n < 2 ^ 64)%Z → ∃ e,
  receive_chunk scaled n offset p c = (Throw e, c) ∧ (e = StdLengthError ∨ e = BufferOverflow).
Proof.
  intros (H2 & Hmax & Ht) Ho Hn. unfold text_size in Ht. unfold receive_chunk, complete_chunk.
  destruct (Z.ltb_spec (Z.of_nat (length (buffer_ p))) (size_t (Z.of_nat offset + n))) as [Hlt|Hge].
  - assert (size_t (Z.of_nat offset + n) = Z.of_nat offset + n ∧ Z.of_nat offset + n < 2 ^ 64)%Z as [Heq Hb].
    { unfold size_t in *. destruct (Z.lt_ge_cases (Z.of_nat offset + n) (2 ^ 64)); [rewrite Z.mod_small in *; lia|].
      exfalso. replace ((Z.of_nat offset + n) mod 2 ^ 64)%Z with (Z.of_nat offset + n - 2 ^ 64)%Z in Hlt; [lia|].
      apply Zmod_unique with 1%Z; lia. }
    rewrite Heq. unfold make_room.
    destruct (Z.ltb_spec (Z.of_nat (buffer_size p)) (size_t (Z.of_nat offset + n + 1))) as [Hs|Hs].
    + assert (Z.of_nat offset + n + 1 < 2 ^ 64)%Z.
      { destruct (Z.eq_dec (Z.of_nat offset + n + 1)%Z (2 ^ 64)%Z) as [E|]; [|lia]. rewrite E in Hs.
        unfold size_t in Hs. rewrite Z_mod_same in Hs; lia. }
      rewrite size_t_small by lia.
      destruct (Z.leb_spec (Z.of_nat offset + n + 1 - Z.of_nat (buffer_size p)) (Z.of_nat offset)); [lia|].
      destruct (Z.ltb_spec max_size (Z.of_nat offset + n + 1)); [|unfold max_size in *; lia].
      exists StdLengthError. split; [|by left]. erewrite io_bind_throw; [done|]. by erewrite io_bind_throw.
    + exists BufferOverflow. split; [|by right]. erewrite io_bind_throw; [done|]. erewrite io_bind_ok by done. cbv beta iota.
      destruct (Z.ltb_spec (Z.of_nat (buffer_size p)) (Z.of_nat (length (buffer_ p)) +
        (Z.of_nat offset + n - Z.of_nat (length (buffer_ p))))); [done|lia].
  - exists StdLengthError. split; [|by left]. erewrite io_bind_ok by done. cbv beta iota.
    destruct (Z.ltb_spec max_size n); [done|unfold max_size in *; lia].
Qed.

Lemma receive_body_ok n offset p c : conn_ok c → offset ≤ length (buffer_ p) →
  if (Z.of_nat (length (unparsed offset p c)) <? n)%Z
  then ∃ e c', receive_body n offset p c = (Throw (SocketFailed e), c') ∧ lost e ∧ outgoing c' = outgoing c
  else ∃ c', receive_body n offset p c = (Ok (take (Z.to_nat n) (unparsed offset p c)), c') ∧ outgoing c' = outgoing c.
Proof.
  intros Hc Ho. unfold receive_body, unparsed. rewrite length_app, length_drop.
  destruct (Nat.ltb_spec (length (buffer_ p)) (offset + Z.to_nat n)) as [Hlt|Hge].
  - destruct (read_full (offset + Z.to_nat n - length (buffer_ p)) c)
      as [(c' & Hread & Hm & Hf & Hrest & Hsame)|(e & c' & Hread & He & Hm & Hsame)]; [apply Hc|lia|apply Hc| |].
    + destruct (Z.ltb_spec (Z.of_nat (length (buffer_ p) - offset + length (concat (incoming c)))) n); [lia|].
      erewrite io_bind_ok by (by apply io_map_error_ok). exists c'. split; [|by destruct Hsame as (_ & _ & ? & _)].
      unfold mret, io_ret. f_equal. f_equal. rewrite drop_app_le by lia.
      rewrite !take_app, length_drop, take_take. f_equal. f_equal. lia.
    + destruct (Z.ltb_spec (Z.of_nat (length (buffer_ p) - offset + length (concat (incoming c)))) n); [|lia].
      erewrite io_bind_throw by (by apply io_map_error_throw). exists e, c'. split_and!; [done..|].
      by destruct Hsame as (_ & _ & ? & _).
  - destruct (Z.ltb_spec (Z.of_nat (length (buffer_ p) - offset + length (concat (incoming c)))) n); [lia|].
    erewrite io_bind_ok by done. exists c. split; [|done]. unfold mret, io_ret. f_equal. f_equal.
    by rewrite app_nil_r, take_app_le by (rewrite length_drop; lia).
Qed.

(** ** The loops *)

Definition loop_ok p c : Prop :=
  conn_ok c ∧ sizes_ok p c ∧ current_line_offset p ≤ length (buffer_ p) ∧
  (length (buffer_ p) + 1 < buffer_size p ∨
   length (buffer_ p) + 1 ≤ buffer_size p ∧ current_line_offset p = length (buffer_ p) ∧
   receiving_body_in_chunks (state p) = true).

(** What is left to parse. *)
Definition remaining p c : bytes := unparsed (current_line_offset p) p c.

(** The result of the parser, given that of the reference parser and what was
    written before. *)
Definition agrees (r : parsed H) (out : bytes) (res : outcome http_exception (message H)) c : Prop :=
  match r with
  | Parsed m => res = Ok m ∧ outgoing c = out
  | Truncated => ∃ e, res = Throw (SocketFailed e) ∧ lost e ∧ outgoing c = out
  | NegativeChunk => (res = Throw StdLengthError ∨ res = Throw BufferOverflow) ∧ outgoing c = out
  | Refused r => res = Throw (exception r) ∧ outgoing c = out ++ answer_text r
  end.

Definition lines_done p c (res : outcome http_exception (parser H + message H) * Connection) : Prop :=
  match res with
  | (Ok (inl p'), c') =>
      loop_ok p' c' ∧ outgoing c' = outgoing c ∧ length (concat (incoming c')) ≤ length (concat (incoming c)) ∧
      parse (remaining p' c') (state p') = parse (remaining p c) (state p) ∧
      find_crlf (drop (current_line_offset p') (buffer_ p')) = None
  | (Ok (inr m), c') => agrees (parse (remaining p c) (state p)) (outgoing c) (Ok m) c'
  | (Throw e, c') => agrees (parse (remaining p c) (state p)) (outgoing c) (Throw e) c'
  end.

(** Where the next line starts. *)
Lemma next_line p c line rest : loop_ok p c → find_crlf (drop (current_line_offset p) (buffer_ p)) = Some (line, rest) →
  let offset := current_line_offset p + length line + 2 in
  find_crlf (remaining p c) = Some (line, unparsed offset p c) ∧ offset ≤ length (buffer_ p) ∧
  length (buffer_ p) + 1 < buffer_size p ∧ length (remaining p c) = length line + 2 + length (unparsed offset p c).
Proof.
  intros (Hc & Hs & Ho & Hb) Hf. pose proof (find_crlf_app _ (concat (incoming c)) _ _ Hf) as Hfa.
  pose proof (find_crlf_spec _ _ _ Hf) as [Hd _]. pose proof (find_crlf_length _ _ _ Hf) as Hl.
  rewrite length_drop in Hl. simpl.
  assert (drop (current_line_offset p + length line + 2) (buffer_ p) = rest) as Hrest.
  { rewrite <- Nat.add_assoc, <- drop_drop, Hd. rewrite (app_assoc line). apply drop_app_length'.
    rewrite length_app. done. }
  assert (find_crlf (remaining p c) = Some (line, unparsed (current_line_offset p + length line + 2) p c)) as Hfr.
  { unfold remaining, unparsed. by rewrite Hrest. }
  split_and!; [done|lia|lia|]. by apply find_crlf_length in Hfr.
Qed.

(** A step of the loop that goes on. *)
Lemma lines_done_step p c p' c' res : outgoing c' = outgoing c → length (concat (incoming c')) ≤ length (concat (incoming c)) →
  parse (remaining p' c') (state p') = parse (remaining p c) (state p) → lines_done p' c' res → lines_done p c res.
Proof.
  intros Hout Hin Hparse. unfold lines_done. destruct res as [[[p''|m]|e] c'']; rewrite Hparse, Hout; [|done..].
  intros (? & ? & ? & ? & ?). split_and!; [done..|lia|done|done].
Qed.

Lemma lines_loop_chunk fuel p c n line rest : loop_ok p c →
  find_crlf (drop (current_line_offset p) (buffer_ p)) = Some (line, rest) →
  on_line line (state p) = Ok (ReceiveChunk n (state p)) → receiving_body_in_chunks (state p) = true →
  (0 < n < 2 ^ 31 ∨ 2 ^ 64 - 2 ^ 31 <= n < 2 ^ 64)%Z →
  (∀ p' c', loop_ok p' c' → length (remaining p' c') < length (remaining p c) → lines_done p' c' (lines_loop scaled fuel p' c')) →
  lines_done p c (lines_loop scaled (S fuel) p c).
Proof.
  intros Hl Hf Hon Hr Hn IH. pose proof (next_line p c line rest Hl Hf) as (Hfr & Ho & Hb & Hlen).
  pose proof Hl as (Hc & Hs & _ & _).
  pose proof (parse_unfold (remaining p c) (state p)) as Hp. rewrite Hfr, Hon in Hp.
  simpl lines_loop. rewrite Hf, Hon. set (offset := current_line_offset p + length line + 2) in *.
  destruct Hn as [Hn|Hn].
  - destruct (Z.ltb_spec max_size n); [unfold max_size in *; lia|].
    pose proof (receive_chunk_ok n offset p c Hc Hs Hb Ho Hn) as Hrc.
    destruct (Z.ltb_spec (Z.of_nat (length (unparsed offset p c))) n).
    + destruct Hrc as (e & c' & Hrc & He & Hout). rewrite (io_bind_throw _ _ _ _ _ Hrc). simpl. rewrite Hp. by exists e.
    + destruct Hrc as (o & p' & c' & Hrc & Ha & Hu). rewrite (io_bind_ok _ _ _ _ _ Hrc). cbv beta iota.
      destruct Ha as (Hc' & Hout & Hst & Hs' & Ho' & Hroom & Hin).
      destruct (OnChunk _ (helper (state p))) as [h|e].
      * rewrite (io_bind_ok _ _ _ h c') by done.
        eapply lines_done_step; [exact Hout|done| |apply IH].
        -- rewrite Hp. unfold remaining. simpl. unfold unparsed in *. simpl. by rewrite Hu.
        -- split_and!; [done|done|done|]. simpl. by destruct Hroom as [|[]]; [left|right].
        -- unfold remaining at 1. simpl. change (unparsed o _ c') with (unparsed o p' c'). rewrite Hu, length_drop. lia.
      * rewrite (io_bind_throw _ _ _ e c') by done. simpl. rewrite Hp. simpl. unfold answer_text. simpl.
        by rewrite app_nil_r.
  - destruct (Z.ltb_spec max_size n); [|unfold max_size in *; lia].
    destruct (receive_chunk_negative n offset p c Hs Ho Hn) as (e & Hrc & He). rewrite (io_bind_throw _ _ _ _ _ Hrc).
    simpl. rewrite Hp. simpl. destruct He as [->| ->]; auto.
Qed.

Lemma lines_loop_ok fuel p c : loop_ok p c → length (remaining p c) < fuel → lines_done p c (lines_loop scaled fuel p c).
Proof.
  revert p c. induction fuel as [|fuel IH]; intros p c Hl Hfuel; [lia|].
  destruct (find_crlf (drop (current_line_offset p) (buffer_ p))) as [[line rest]|] eqn:Hf; cycle 1.
  { simpl. rewrite Hf. simpl. by split_and!. }
  pose proof (next_line p c line rest Hl Hf) as (Hfr & Ho & Hb & Hlen). pose proof Hl as (Hc & Hs & _ & _).
  pose proof (parse_unfold (remaining p c) (state p)) as Hp. rewrite Hfr in Hp.
  destruct (on_line line (state p)) as [[s'|n s'|s'|n s'|s']|r] eqn:Hon.
  - simpl. rewrite Hf, Hon. 
    apply (lines_done_step p c (mkParser (buffer_size p) (buffer_ p) (current_line_offset p + length line + 2) s') c);
      [done|done|by rewrite Hp|].
    apply IH; [|unfold remaining in *; simpl; change (unparsed _ (mkParser _ _ _ _) c) with
      (unparsed (current_line_offset p + length line + 2) p c); lia].
    split_and!; [done|done|done|by left].
  - pose proof (on_line_chunk _ _ _ _ Hon) as (-> & Hr & Hn). eapply lines_loop_chunk; try done.
    intros p' c' Hl' Hlt. apply IH; [done|lia].
  - simpl. rewrite Hf, Hon. simpl. rewrite Hp. done.
  - simpl. rewrite Hf, Hon. pose proof (receive_body_ok n _ p c Hc Ho) as Hrb.
    destruct (Z.of_nat (length (unparsed _ p c)) <? n)%Z.
    + destruct Hrb as (e & c' & Hrb & He & Hout). rewrite (io_bind_throw _ _ _ _ _ Hrb). simpl. rewrite Hp. by exists e.
    + destruct Hrb as (c' & Hrb & Hout). rewrite (io_bind_ok _ _ _ _ _ Hrb). simpl. rewrite Hp. done.
  - simpl. rewrite Hf, Hon. simpl. rewrite Hp. done.
  - simpl. rewrite Hf, Hon. rewrite raise_ok by apply Hc. simpl. rewrite Hp. done.
Qed.

(** At the top of the outer loop. *)
Definition top_ok p c : Prop :=
  loop_ok p c ∧ length (buffer_ p) + 1 < buffer_size p ∧ find_crlf (drop (current_line_offset p) (buffer_ p)) = None.

Lemma shift_buffer_ok p c : loop_ok p c → find_crlf (drop (current_line_offset p) (buffer_ p)) = None →
  top_ok (shift_buffer p) c ∧ remaining (shift_buffer p) c = remaining p c ∧ state (shift_buffer p) = state p.
Proof.
  intros (Hc & Hs & Ho & Hb) Hf. pose proof Hs as (H2 & Hmax & Ht). unfold text_size in Ht. unfold shift_buffer.
  destruct (receiving_body_in_chunks (state p)) eqn:Hr; simpl.
  - destruct (Nat.eqb_spec (current_line_offset p) 0) as [Hz|Hnz]; simpl.
    + split_and!; [|done..]. split_and!; [split_and!|..]; try done; lia.
    + set (b := if current_line_offset p <? length (buffer_ p) then _ else _).
      assert (b = drop (current_line_offset p) (buffer_ p)) as ->.
      { unfold b. destruct (Nat.ltb_spec (current_line_offset p) (length (buffer_ p))); [done|]. by rewrite drop_ge by lia. }
      assert (length (drop (current_line_offset p) (buffer_ p)) + 1 < buffer_size p) by (rewrite length_drop; lia).
      split_and!; [|done..]. split_and!; [split_and!; simpl|done|done]; [done| |lia|by left].
      unfold sizes_ok, text_size. simpl. rewrite length_drop. split_and!; [done..|lia].
  - assert (length (buffer_ p) + 1 < buffer_size p) by (destruct Hb as [|(_ & _ & [=])]; done).
    split_and!; [|done..]. split_and!; [split_and!|..]; try done. by left.
Qed.

Lemma fill_buffer_ok p c : top_ok p c →
  (∃ p' c', fill_buffer scaled p c = (Ok p', c') ∧ loop_ok p' c' ∧ outgoing c' = outgoing c ∧ state p' = state p ∧
    remaining p' c' = remaining p c ∧ length (concat (incoming c')) < length (concat (incoming c))) ∨
  (∃ e c', fill_buffer scaled p c = (Throw (SocketFailed e), c') ∧ lost e ∧ outgoing c' = outgoing c ∧
    parse (remaining p c) (state p) = Truncated).
Proof.
  intros ((Hc & Hs & Ho & _) & Hb & Hf). pose proof Hs as (H2 & Hmax & Ht). unfold text_size in Ht. unfold fill_buffer.
  destruct (Nat.ltb_spec (length (buffer_ p) + 1) (buffer_size p)); [|lia].
  rewrite (io_bind_ok _ _ _ () c) by done.
  destruct (read_some (buffer_size p - length (buffer_ p) - 1) c)
    as [(got & c' & Hread & Hne & Hle & Hf' & Hcat & Hsame)|(e & c' & Hread & He & Hin & Hsame)]; [apply Hc|lia| |].
  - left. rewrite (io_bind_ok _ _ _ got c') by (by apply io_map_error_ok).
    assert (0 < length got) as Hpos by (destruct got; [done|simpl; lia]).
    destruct (Nat.eqb_spec (length got) 0); [lia|]. eexists _, c'. split; [done|].
    assert (length (concat (incoming c)) = length got + length (concat (incoming c'))) as Hlen.
    { rewrite <- Hcat. apply length_app. }
    set (size := if length got =? _ then _ else _).
    assert (length (buffer_ p) + length got + 1 < size ∧ (Z.of_nat size <= 2 ^ 62)%Z) as [Hsz Hszm].
    { unfold size. pose proof (Hscaled (buffer_size p)).
      destruct (Nat.eqb_spec (length got) (buffer_size p - length (buffer_ p) - 1)); lia. }
    split_and!; [split_and!; simpl|by destruct Hsame as (_ & _ & ? & _)|done| |lia].
    + by eapply conn_ok_same.
    + unfold sizes_ok, text_size. simpl. rewrite length_app. lia.
    + rewrite length_app. lia.
    + left. rewrite length_app. lia.
    + unfold remaining, unparsed. simpl. rewrite drop_app_le by lia. by rewrite <- app_assoc, Hcat.
  - right. exists e, c'. rewrite (io_bind_throw _ _ _ (SocketFailed e) c') by (by apply io_map_error_throw).
    split_and!; [done..|by destruct Hsame as (_ & _ & ? & _)|].
    rewrite parse_unfold. unfold remaining, unparsed. rewrite Hin. simpl. by rewrite app_nil_r, Hf.
Qed.

Lemma read_loop_ok fuel p c : top_ok p c → length (concat (incoming c)) < fuel →
  ∃ res c', read_loop scaled fuel p c = (res, c') ∧ agrees (parse (remaining p c) (state p)) (outgoing c) res c'.
Proof.
  revert p c. induction fuel as [|fuel IH]; intros p c Ht Hfuel; [lia|]. simpl.
  set (loop p1 := λ c, lines_loop scaled (S (length (buffer_ p1) + length (concat (incoming c)))) p1 c).
  destruct (fill_buffer_ok p c Ht) as [(p1 & c1 & Hfill & Hl & Hout & Hst & Hrem & Hlen)|(e & c1 & Hfill & He & Hout & Hp)];
    cycle 1.
  { rewrite (io_bind_throw _ _ _ _ _ Hfill). eexists _, _. split; [done|]. rewrite Hp. by exists e. }
  rewrite (io_bind_ok _ _ _ _ _ Hfill). rewrite <- Hrem, <- Hst, <- Hout.
  pose proof (lines_loop_ok (S (length (buffer_ p1) + length (concat (incoming c1)))) p1 c1 Hl) as Hd.
  unfold lines_done in Hd.
  destruct (lines_loop scaled (S (length (buffer_ p1) + length (concat (incoming c1)))) p1 c1) as [[[p2|m]|e] c2] eqn:Hll.
  - destruct Hd as (Hl2 & Hout2 & Hin2 & Hparse & Hf). { unfold remaining, unparsed. rewrite length_app, length_drop. lia. }
    rewrite (io_bind_ok (loop p1) _ c1 _ _ Hll). destruct (shift_buffer_ok p2 c2 Hl2 Hf) as (Ht2 & Hrem2 & Hst2).
    destruct (IH (shift_buffer p2) c2 Ht2) as (res & c3 & Hrl & Ha); [lia|].
    exists res, c3. split; [done|]. by rewrite <- Hparse, <- Hrem2, <- Hst2, <- Hout2.
  - rewrite (io_bind_ok (loop p1) _ c1 _ _ Hll). eexists _, _. split; [done|]. apply Hd.
    unfold remaining, unparsed. rewrite length_app, length_drop. lia.
  - rewrite (io_bind_throw (loop p1) _ c1 _ _ Hll). eexists _, _. split; [done|]. apply Hd.
    unfold remaining, unparsed. rewrite length_app, length_drop. lia.
Qed.

(** The constructor, on a connection from which nothing has been read. *)
Lemma constructor_ok h size c : conn_ok c → 2 ≤ size → (Z.of_nat size <= 2 ^ 60)%Z →
  (Z.of_nat (length (concat (incoming c))) <= 2 ^ 60)%Z →
  ∃ res c', GenericHTTPRequestData scaled h size c = (res, c') ∧
    agrees (parse_text h (concat (incoming c))) (outgoing c) res c'.
Proof.
  intros Hc H2 Hs Ht. unfold GenericHTTPRequestData.
  apply (read_loop_ok _ (mkParser size [] 0 (start_control h)) c); [|lia].
  split_and!; [|simpl; lia|done]. split_and!; [done| |done|left; simpl; lia].
  unfold sizes_ok, text_size. simpl. lia.
Qed.

(** ** The connection stays open *)

Lemma keeps_raise {A} r : keeps takes_all (raise (A := A) r).
Proof. unfold raise, SendHTTPResponse, SendHTTPResponseImpl, write_. keeps_tac. Qed.

Lemma keeps_receive_body n offset p : keeps takes_all (receive_body n offset p).
Proof. unfold receive_body, read_. keeps_tac. Qed.

Lemma keeps_receive_chunk n offset p : keeps takes_all (receive_chunk scaled n offset p).
Proof. unfold receive_chunk, complete_chunk, read_. keeps_tac. Qed.

Hint Resolve keeps_raise keeps_receive_body keeps_receive_chunk : keeps.

Lemma keeps_lines_loop fuel p : keeps takes_all (lines_loop scaled fuel p).
Proof. revert p. induction fuel as [|fuel IH]; intros p; [apply keeps_throw|]. cbn [lines_loop]. keeps_tac. Qed.

Lemma keeps_fill_buffer p : keeps takes_all (fill_buffer scaled p).
Proof. unfold fill_buffer, read_. keeps_tac. Qed.

Lemma keeps_read_loop fuel p : keeps takes_all (read_loop scaled fuel p).
Proof.
  revert p. induction fuel as [|fuel IH]; intros p; [apply keeps_throw|]. cbn [read_loop].
  apply keeps_bind; [apply keeps_fill_buffer|intros p1]. apply keeps_bind.
  - apply (keeps_eta _ (λ c, lines_loop scaled _ p1)). intros c. apply keeps_lines_loop.
  - keeps_tac.
Qed.

Lemma keeps_constructor h size : keeps takes_all (GenericHTTPRequestData scaled h size).
Proof. apply (keeps_eta _ (λ c, read_loop scaled _ _)). intros c. apply keeps_read_loop. Qed.

End Lines.
End HttpParsing.
