(* ===== verification/HttpConnection.v ===== *)
(** * Answering a request: [GenericHTTPServerConnection] of bricks/net/http/impl/server.h

    A connection answers once: with [SendHTTPResponse], with a response in chunks
    ([SendChunkedHTTPResponse]), or, if it is destroyed without either, with
    "500 Internal Server Error".  [ChunkedResponseSender::Impl] collects small
    chunks in a cache before it writes them. *)

From Stdlib Require Import ZArith NArith Lia Ascii String.
From stdpp Require Import base sets gmap list strings.
From S2P Require Import Prelude Persistence Decimal Strings Url PubSub RemoteStream StdMap State Tcp HttpHeaders HttpMessage HttpParsing.
Open Scope nat_scope.

Module HttpConnection.
Import Http Tcp HttpHeaders HttpParsing.

(** ** Sending in chunks *)

(** [Printf("%lX", n)]. *)
Definition Printf_lX (n : nat) : bytes := Url.strip_zeroes (Url.hex_digits 16 (Z.of_nat n)).

Arguments Printf_lX : simpl never.

Inductive ChunkFlush := NoFlush | Flush.

Global Instance ChunkFlush_eq_dec : EqDecision ChunkFlush.
Proof. solve_decision. Defined.

(** [Impl]; [data_cache_] holds the first [cache_size_] bytes of the cache. *)
Record Impl := mkImpl {
  wire : Connection;
  can_no_longer_write_ : bool;
  data_cache_ : bytes;
}.
Implicit Type i : Impl.

Definition make_Impl (c : Connection) : Impl := mkImpl c false [].

Abbreviation sending := (io Impl http_exception).

Definition on_wire {A} (m : http A) : sending A := λ i,
  let '(r, c) := m (wire i) in (r, mkImpl c (can_no_longer_write_ i) (data_cache_ i)).

Definition set_cache (cache : bytes) : sending () := λ i, (Ok (), mkImpl (wire i) (can_no_longer_write_ i) cache).

(** [BlockingWrite(data_cache_, cache_size_, ...)] and [cache_size_ = 0]. *)
Definition write_cache : sending () := λ i,
  (_ ← on_wire (io_map_error SocketFailed (BlockingWrite (data_cache_ i))); set_cache []) i.

Definition chunk_text (data : bytes) : bytes := Printf_lX (length data) ++ kCRLF ++ data ++ kCRLF.

Section Sender.
Context (CACHE_SIZE : nat).

(** The body of [try]. *)
Definition send_chunk (data : bytes) (flush : ChunkFlush) : sending () := λ i,
  match data with
  | [] => write_cache i
  | _ =>
      let chunk_header := Printf_lX (length data) ++ kCRLF in
      let chunk_size := length chunk_header + length data + 2 in
      let flushing := bool_decide (flush = Flush) in
      (_ ← (if negb (length (data_cache_ i) =? 0) && (flushing || (CACHE_SIZE - length (data_cache_ i) <? chunk_size))
            then write_cache else mret ());
       if flushing || (CACHE_SIZE <? chunk_size) then
         _ ← on_wire (write_ chunk_header); _ ← on_wire (write_ data); on_wire (write_ kCRLF)
       else λ i, set_cache (data_cache_ i ++ chunk_header ++ data ++ kCRLF) i) i
  end.

Definition SendImpl (data : bytes) (flush : ChunkFlush) : sending () := λ i,
  if negb (bool_decide (data = [])) || (bool_decide (flush = Flush) && negb (length (data_cache_ i) =? 0)) then
    match send_chunk data flush i with
    | (Throw e, i') => (Throw e, mkImpl (wire i') true (data_cache_ i'))
    | r => r
    end
  else (Ok (), i).

(** [~Impl], which lets no exception out. *)
Definition destroy_Impl i : Connection :=
  if can_no_longer_write_ i then wire i
  else
    let close : sending () :=
      _ ← (λ i, (if negb (length (data_cache_ i) =? 0) then write_cache else mret ()) i);
      _ ← on_wire (write_ (str "0")); _ ← on_wire (write_ kCRLF); on_wire (write_ kCRLF) in
    wire (close i).2.

(** What the user of the sender does: sends until one throws, and destroys it. *)
Fixpoint send_all (chunks : list (bytes * ChunkFlush)) : sending () :=
  match chunks with
  | [] => mret ()
  | (data, flush) :: chunks => _ ← SendImpl data flush; send_all chunks
  end.

End Sender.

(** ** The connection *)

Record ServerConnection := mkServerConnection {
  connection_ : Connection;
  responded_ : bool;
}.
Implicit Type sc : ServerConnection.

Abbreviation serving := (io ServerConnection http_exception).

Definition on_connection {A} (m : http A) : serving A := λ sc,
  let '(r, c) := m (connection_ sc) in (r, mkServerConnection c (responded_ sc)).

Definition set_responded : serving () := λ sc, (Ok (), mkServerConnection (connection_ sc) true).

Definition not_responded : serving () := λ sc,
  if responded_ sc then (Throw AttemptedToSendHTTPResponseMoreThanOnce, sc) else (Ok (), sc).

Definition Send (body : bytes) (code : option HTTPResponseCodeValue) (headers : option Headers) (content_type : option bytes)
    : serving () :=
  _ ← not_responded;
  _ ← on_connection (SendHTTPResponse body code headers content_type);
  set_responded.

(** [SendChunkedHTTPResponse], and all that is done with the sender it returns. *)
Definition SendChunked (CACHE_SIZE : nat) (code : HTTPResponseCodeValue) (headers : Headers) (content_type : bytes)
    (chunks : list (bytes * ChunkFlush)) : serving () :=
  _ ← not_responded;
  _ ← set_responded;
  os ← io_lift HeaderFailed (PrepareHTTPResponseHeader ConnectionKeepAlive code headers content_type);
  _ ← on_connection (write_ (os ++ str "Transfer-Encoding: chunked" ++ kCRLF ++ kCRLF));
  on_connection (λ c, let '(r, i) := send_all CACHE_SIZE chunks (make_Impl c) in (r, destroy_Impl i)).

Definition DoNotSendAnyResponse : serving () := _ ← not_responded; set_responded.

(** [~GenericHTTPServerConnection]. *)
Definition destroy_connection sc : Connection :=
  if responded_ sc then connection_ sc
  else (SendHTTPResponse DefaultInternalServerErrorMessage (Some InternalServerError) (Some no_headers)
          (Some kDefaultHTMLContentType) (connection_ sc)).2.

(** ** Chunks on a connection that takes everything *)

Definition chunks_text (chunks : list (bytes * ChunkFlush)) : bytes :=
  concat ((λ d, match d.1 with [] => [] | _ => chunk_text d.1 end) <$> chunks).

Definition last_chunk_text : bytes := str "0" ++ kCRLF ++ kCRLF.

(** What has been sent: written, or in the cache. *)
Definition sent i : bytes := outgoing (wire i) ++ data_cache_ i.

Record sender_ok (CACHE_SIZE : nat) i : Prop := {
  sender_accepts : accepts (wire i) = None;
  sender_works : can_no_longer_write_ i = false;
  sender_cache : length (data_cache_ i) ≤ CACHE_SIZE;
}.

Section SenderProofs.
Context (CACHE_SIZE : nat).

Lemma on_wire_write data i : accepts (wire i) = None →
  on_wire (write_ data) i = (Ok (), mkImpl (wrote data (wire i)) (can_no_longer_write_ i) (data_cache_ i)).
Proof. intros Ha. unfold on_wire. by rewrite write_ok. Qed.

Lemma write_cache_ok i : sender_ok CACHE_SIZE i → ∃ i',
  write_cache i = (Ok (), i') ∧ sender_ok CACHE_SIZE i' ∧ sent i' = sent i ∧ data_cache_ i' = [].
Proof.
  intros [Ha Hw Hc]. unfold write_cache, mbind, io_bind, on_wire, io_map_error. rewrite write_all by done. simpl.
  eexists. split; [done|]. split_and!; [split; simpl; [done|done|lia]| |done].
  unfold sent. simpl. by rewrite app_nil_r.
Qed.

Lemma flush_ok (b : bool) i : sender_ok CACHE_SIZE i → (b = true → data_cache_ i ≠ []) → ∃ i',
  (if b then write_cache else mret ()) i = (Ok (), i') ∧ sender_ok CACHE_SIZE i' ∧ sent i' = sent i ∧
  data_cache_ i' = if b then [] else data_cache_ i.
Proof.
  intros Hi Hb. destruct b; [|by exists i]. by apply write_cache_ok.
Qed.

Lemma send_chunk_ok data flush i : sender_ok CACHE_SIZE i → (data = [] → data_cache_ i ≠ []) → ∃ i',
  send_chunk CACHE_SIZE data flush i = (Ok (), i') ∧ sender_ok CACHE_SIZE i' ∧
  sent i' = sent i ++ match data with [] => [] | _ => chunk_text data end.
Proof.
  intros Hi Hd. destruct data as [|a data].
  { simpl. destruct (write_cache_ok i Hi) as (i' & -> & Hi' & Hs & _). exists i'. by rewrite app_nil_r. }
  unfold send_chunk. set (d := a :: data). set (header := Printf_lX (length d) ++ kCRLF).
  set (size := length header + length d + 2). set (fl := bool_decide (flush = Flush)).
  set (b := negb (length (data_cache_ i) =? 0) && (fl || (CACHE_SIZE - length (data_cache_ i) <? size))).
  destruct (flush_ok b i Hi) as (i1 & Hf & Hi1 & Hs1 & Hc1).
  { unfold b. intros [Hn _]%andb_true_iff. by destruct (data_cache_ i). }
  rewrite (io_bind_ok _ _ _ _ _ Hf). pose proof Hi1 as [Ha1 Hw1 Hl1].
  destruct (fl || (CACHE_SIZE <? size)) eqn:Hbig.
  - assert (data_cache_ i1 = []) as He.
    { rewrite Hc1. unfold b. destruct (data_cache_ i) as [|x l] eqn:Hx; [by case_match|]. rewrite <- Hx in *.
      replace (negb (length (data_cache_ i) =? 0)) with true by (by rewrite Hx). simpl.
      replace (fl || (CACHE_SIZE - length (data_cache_ i) <? size)) with true; [done|].
      apply orb_true_iff in Hbig as [->|Hb]; [done|]. symmetry. apply orb_true_iff. right.
      apply Nat.ltb_lt in Hb. apply Nat.ltb_lt. lia. }
    erewrite io_bind_ok by (apply on_wire_write; exact Ha1).
    erewrite io_bind_ok by (apply on_wire_write; exact Ha1). rewrite on_wire_write by exact Ha1.
    eexists. split; [done|]. split; [by split|]. unfold sent in *. simpl. rewrite He in *. rewrite <- Hs1.
    rewrite !app_nil_r. unfold chunk_text, header. by rewrite <- !app_assoc.
  - apply orb_false_iff in Hbig as [Hfl Hsz%Nat.ltb_ge]. unfold set_cache. eexists. split; [done|]. split.
    + split; [exact Ha1|exact Hw1|]. cbn [data_cache_].
      assert (∀ x : bytes, length (x ++ header ++ d ++ kCRLF) = length x + size) as ->.
      { intros x. unfold size. clearbody header. rewrite !length_app. change (length kCRLF) with 2. lia. }
      clearbody size.
      rewrite Hc1. unfold b. rewrite Hfl. simpl. destruct (Nat.ltb_spec (CACHE_SIZE - length (data_cache_ i)) size).
      * rewrite andb_true_r. destruct (data_cache_ i); simpl; lia.
      * rewrite andb_false_r. pose proof (sender_cache _ _ Hi). lia.
    + unfold sent in *. cbn [wire data_cache_]. rewrite app_assoc, Hs1. unfold chunk_text, header. by rewrite <- !app_assoc.
Qed.

Lemma SendImpl_ok data flush i : sender_ok CACHE_SIZE i → ∃ i',
  SendImpl CACHE_SIZE data flush i = (Ok (), i') ∧ sender_ok CACHE_SIZE i' ∧
  sent i' = sent i ++ match data with [] => [] | _ => chunk_text data end.
Proof.
  intros Hi. unfold SendImpl. case_match eqn:Hb.
  - destruct (send_chunk_ok data flush i Hi) as (i' & -> & ? & ?); [|by exists i'].
    intros ->. simpl in Hb. apply andb_true_iff in Hb as [_ Hb]. by destruct (data_cache_ i).
  - exists i. apply orb_false_iff in Hb as [Hd%negb_false_iff%bool_decide_eq_true _]. subst data. by rewrite app_nil_r.
Qed.

Lemma send_all_ok chunks i : sender_ok CACHE_SIZE i → ∃ i',
  send_all CACHE_SIZE chunks i = (Ok (), i') ∧ sender_ok CACHE_SIZE i' ∧ sent i' = sent i ++ chunks_text chunks.
Proof.
  revert i. induction chunks as [|[data flush] chunks IH]; intros i Hi; [exists i; by rewrite app_nil_r|].
  simpl. destruct (SendImpl_ok data flush i Hi) as (i1 & H1 & Hi1 & Hs1).
  rewrite (io_bind_ok _ _ _ _ _ H1). destruct (IH i1 Hi1) as (i2 & H2 & Hi2 & Hs2).
  exists i2. split_and!; [done..|]. rewrite Hs2, Hs1, <- app_assoc. done.
Qed.

Lemma destroy_Impl_ok i : sender_ok CACHE_SIZE i → outgoing (destroy_Impl i) = sent i ++ last_chunk_text.
Proof.
  intros Hi. pose proof Hi as [Ha Hw Hc]. unfold destroy_Impl. rewrite Hw.
  destruct (flush_ok (negb (length (data_cache_ i) =? 0)) i Hi) as (i1 & Hf & Hi1 & Hs1 & Hc1).
  { intros Hn. by destruct (data_cache_ i). }
  pose proof Hi1 as [Ha1 _ _].
  assert (data_cache_ i1 = []) as He. { rewrite Hc1. clear. destruct (data_cache_ i); reflexivity. }
  rewrite (io_bind_ok (λ i, (if negb (length (data_cache_ i) =? 0) then write_cache else mret ()) i) _ i _ _ Hf).
  erewrite io_bind_ok by (apply on_wire_write; exact Ha1).
  erewrite io_bind_ok by (apply on_wire_write; exact Ha1). rewrite on_wire_write by exact Ha1. simpl.
  unfold sent in *. rewrite He, app_nil_r in Hs1. rewrite Hs1. unfold last_chunk_text. by rewrite <- !app_assoc.
Qed.

End SenderProofs.
End HttpConnection.
