(* ===== verification/HttpRoundTrip.v ===== *)
(** * Printed messages are parsed back

    Lemmas about HttpMessage.v and HttpConnection.v: the lines, headers, chunks
    and bodies the code prints are what its parser reads. *)

From Stdlib Require Import ZArith NArith Lia Ascii String.
From stdpp Require Import base sets gmap list strings.
From S2P Require Import Prelude Persistence Decimal Strings Url PubSub RemoteStream StdMap State Tcp HttpHeaders HttpMessage.
From S2P Require Import HttpParsing HttpConnection.
Open Scope nat_scope.

Module HttpRoundTrip.
Import Http Tcp HttpHeaders HttpParsing HttpConnection.

Local Arguments str : simpl never.

(** ** Hexadecimal numbers *)

Definition all_hex (s : bytes) : Prop := Forall (λ c, Url.IsHexDigit c = true) s.

Lemma hex_digit_ok d : (0 <= d < 16)%Z → Url.IsHexDigit (Url.hex_char d) = true ∧ Url.hex_value (Url.hex_char d) = d.
Proof.
  intros Hd. assert (d ∈ (Z.of_nat <$> seq 0 16)) as Hin.
  { apply list_elem_of_fmap. exists (Z.to_nat d). split; [lia|]. apply elem_of_seq. lia. }
  revert Hin. clear Hd. revert d. apply (Forall_forall (λ d, _)). repeat (apply Forall_cons; split; [done|]). by apply Forall_nil.
Qed.

Lemma read_hex_app acc s t : all_hex s → read_hex acc (s ++ t) = read_hex (read_hex acc s) t.
Proof.
  intros Hs. revert acc. induction Hs as [|c s Hc _ IH]; intros acc; [done|]. simpl. by rewrite Hc, IH.
Qed.

Lemma hex_digits_ok n z : (0 <= z)%Z →
  all_hex (Url.hex_digits n z) ∧ read_hex 0 (Url.hex_digits n z) = (z mod 16 ^ Z.of_nat n)%Z ∧ length (Url.hex_digits n z) = n.
Proof.
  revert z. induction n as [|n IH]; intros z Hz; [simpl; rewrite Z.mod_1_r; split_and!; [by apply Forall_nil|done..]|].
  simpl Url.hex_digits. destruct (IH (z / 16)%Z) as (Ha & Hv & Hl); [by apply Z.div_pos|].
  destruct (hex_digit_ok (z mod 16)) as [Hc Hcv]; [by apply Z.mod_pos_bound|]. split_and!.
  - apply Forall_app. split; [done|]. by apply Forall_singleton.
  - rewrite read_hex_app by done. rewrite Hv. simpl. rewrite Hc, Hcv.
    rewrite Nat2Z.inj_succ, Z.pow_succ_r by lia. rewrite Z.rem_mul_r by (try apply Z.pow_pos_nonneg; lia). lia.
  - rewrite length_app, Hl. simpl. lia.
Qed.

Lemma strip_zeroes_hex s : all_hex s → s ≠ [] →
  all_hex (Url.strip_zeroes s) ∧ Url.strip_zeroes s ≠ [] ∧ read_hex 0 (Url.strip_zeroes s) = read_hex 0 s ∧
  (read_hex 0 s ≠ 0%Z → ∀ t, Url.strip_zeroes s ≠ "0"%char :: t).
Proof.
  induction s as [|c s IH]; [done|]. intros [Hc Hs]%Forall_cons _. destruct s as [|d s].
  - simpl. split_and!; [by apply Forall_singleton|done..|]. intros Hne t [= -> _]. done.
  - simpl Url.strip_zeroes. case_bool_decide as H0; [subst c|].
    + destruct IH as (? & ? & Hv & Hn); [done..|]. done.
    + split_and!; [by apply Forall_cons|done..|]. intros _ t [= -> _]. done.
Qed.

Lemma hex_not_special c : Url.IsHexDigit c = true → isspace c = false ∧ c ≠ "-"%char ∧ c ≠ "+"%char ∧
  c ≠ nul ∧ c ≠ "013"%char.
Proof. destruct c as [[] [] [] [] [] [] [] []]; intros [=]; split_and!; done. Qed.

(** The size of a chunk, as printed. *)
Lemma Printf_lX_ok n : 0 < n → (Z.of_nat n < 2 ^ 31)%Z →
  stoi_16 (Printf_lX n) = StoiOk (Z.of_nat n) ∧ Printf_lX n ≠ [] ∧ all_hex (Printf_lX n).
Proof.
  intros H0 Hn. unfold Printf_lX. destruct (hex_digits_ok 16 (Z.of_nat n)) as (Ha & Hv & Hl); [lia|].
  destruct (strip_zeroes_hex (Url.hex_digits 16 (Z.of_nat n)) Ha) as (Hs & Hne & Hr & Hz).
  { intros E. by rewrite E in Hl. }
  assert (16 ^ Z.of_nat 16 = 2 ^ 64)%Z as E by reflexivity. rewrite E, Z.mod_small in Hv by lia.
  rewrite Hv in Hr, Hz. specialize (Hz ltac:(lia)). clear Ha Hv Hl E.
  destruct (Url.strip_zeroes (Url.hex_digits 16 (Z.of_nat n))) as [|c s]; [done|].
  split_and!; [|done..]. pose proof Hs as [Hc _]%Forall_cons. destruct (hex_not_special c Hc) as (Hsp & Hm & Hp & _).
  unfold stoi_16. simpl leading_spaces. rewrite Hsp. simpl drop.
  assert (stoi_unsigned 1 (c :: s) = StoiOk (Z.of_nat n)) as Hst.
  { unfold stoi_unsigned. assert (strip_0x (c :: s) = c :: s) as ->.
    { destruct (decide (c = "0"%char)) as [->|Hne0]; [by destruct (Hz s)|].
      destruct c as [[] [] [] [] [] [] [] []]; try done. }
    rewrite Hc, Hr. destruct (Z.leb_spec (- 2 ^ 31) (1 * Z.of_nat n)); [|lia].
    destruct (Z.ltb_spec (1 * Z.of_nat n) (2 ^ 31)); [|lia]. simpl andb. cbv iota. f_equal. lia. }
  destruct c as [[] [] [] [] [] [] [] []]; try done.
Qed.

(** ** Lines *)

(** Text that is on one line for the parser. *)
Definition in_line (s : bytes) : Prop := "013"%char ∉ s ∧ nul ∉ s.

Lemma in_line_app s t : in_line s → in_line t → in_line (s ++ t).
Proof. intros [] []. split; rewrite elem_of_app; naive_solver. Qed.

Lemma all_hex_in_line s : all_hex s → in_line s.
Proof.
  intros Hs. unfold all_hex in Hs. rewrite Forall_forall in Hs. split; intros Hin; by apply Hs in Hin.
Qed.

Lemma find_crlf_line line rest : in_line line → find_crlf (line ++ kCRLF ++ rest) = Some (line, rest).
Proof.
  intros [Hr Hn]. induction line as [|c line IH]; [done|].
  apply not_elem_of_cons in Hr as [Hrc Hr], Hn as [Hnc Hn].
  assert (find_crlf (line ++ kCRLF ++ rest) = Some (line, rest)) as IH' by auto.
  destruct line as [|d line]; simpl app in IH' |- *; rewrite find_crlf_cons, IH';
    rewrite bool_decide_eq_false_2 by done; by rewrite (bool_decide_eq_false_2 (c = "013"%char)) by done.
Qed.

Section RoundTrip.
Context {H : Type} `{Helper H}.
Implicit Type s : control H.

Lemma parse_line line rest s : in_line line →
  parse (line ++ kCRLF ++ rest) s =
  match on_line line s with
  | Throw r => Refused r
  | Ok (NextLine s) => parse rest s
  | Ok (LastChunk s) => Parsed (finish_chunked s)
  | Ok (NoBody s) => Parsed (finish_message None s)
  | Ok (ReceiveBody n s) =>
      if (Z.of_nat (length rest) <? n)%Z then Truncated
      else Parsed (finish_message (Some (take (Z.to_nat n) rest)) s)
  | Ok (ReceiveChunk n s) =>
      if (max_size <? n)%Z then NegativeChunk
      else if (Z.of_nat (length rest) <? n)%Z then Truncated
      else match OnChunk (take (Z.to_nat n) rest) (helper s) with
           | Throw e => Refused (mkRefusal e None)
           | Ok h => parse (drop (Z.to_nat n) rest) (set_helper h s)
           end
  end.
Proof. intros Hl. rewrite parse_unfold. by rewrite find_crlf_line. Qed.

(** ** Chunks *)

Fixpoint run_chunks (chunks : list bytes) (h : H) : outcome http_exception H :=
  match chunks with [] => Ok h | d :: chunks => h ← OnChunk d h; run_chunks chunks h end.

Definition small_chunk (d : bytes) : Prop := d ≠ [] ∧ (Z.of_nat (length d) < 2 ^ 31)%Z.

Lemma set_helper_set h h' s : set_helper h (set_helper h' s) = set_helper h s.
Proof. done. Qed.

Lemma set_helper_same s : set_helper (helper s) s = s.
Proof. by destruct s. Qed.

Lemma parse_one_chunk d h rest s : first_line_parsed s = true → receiving_body_in_chunks s = true → small_chunk d →
  OnChunk d (helper s) = Ok h → parse (chunk_text d ++ rest) s = parse rest (set_helper h s).
Proof.
  intros Hf Hr [Hne Hd] Hh. assert (0 < length d) as Hpos by (destruct d; [done|simpl; lia]).
  destruct (Printf_lX_ok (length d) Hpos Hd) as (Hst & Hpn & Hhex). unfold chunk_text.
  rewrite <- !app_assoc. rewrite parse_line by (by apply all_hex_in_line).
  unfold on_line. rewrite Hf, Hr. simpl negb. cbv iota. destruct (Printf_lX (length d)) as [|c l]; [done|].
  unfold chunk_size. rewrite Hst. unfold size_t. rewrite Z.mod_small by lia.
  destruct (Z.eqb_spec (Z.of_nat (length d)) 0); [lia|].
  destruct (Z.ltb_spec max_size (Z.of_nat (length d))); [unfold max_size in *; lia|].
  rewrite length_app. destruct (Z.ltb_spec (Z.of_nat (length d + length (kCRLF ++ rest))) (Z.of_nat (length d))); [lia|].
  rewrite Nat2Z.id, take_app_length, Hh, drop_app_length.
  change (kCRLF ++ rest) with ([] ++ kCRLF ++ rest). rewrite parse_line by (split; apply not_elem_of_nil).
  unfold on_line. simpl. by rewrite Hf, Hr.
Qed.

Lemma parse_chunks chunks h rest s : first_line_parsed s = true → receiving_body_in_chunks s = true →
  Forall small_chunk chunks → run_chunks chunks (helper s) = Ok h →
  parse (concat (chunk_text <$> chunks) ++ last_chunk_text ++ rest) s = Parsed (finish_chunked (set_helper h s)).
Proof.
  intros Hf Hr Hc. revert s Hf Hr. induction Hc as [|d chunks Hd _ IH]; intros s Hf Hr Hrun.
  - injection Hrun as <-. rewrite set_helper_same.
    change (concat (chunk_text <$> []) ++ last_chunk_text ++ rest) with (str "0" ++ kCRLF ++ (kCRLF ++ rest)).
    rewrite parse_line by (split; intros ?; set_solver). unfold on_line. by rewrite Hf, Hr.
  - simpl in Hrun. destruct (OnChunk d (helper s)) as [h'|] eqn:Hh; [|done]. simpl in Hrun.
    rewrite fmap_cons. cbn [concat]. rewrite <- app_assoc, (parse_one_chunk d h') by done. by rewrite IH.
Qed.

(** ** Headers *)

Fixpoint run_headers (hs : list (bytes * bytes)) (h : H) : outcome http_exception H :=
  match hs with [] => Ok h | (k, v) :: hs => h ← OnHeader k v h; run_headers hs h end.

(** A header that can be printed on a line. *)
Record printable (kv : bytes * bytes) : Prop := {
  key_nonempty : kv.1 ≠ [];
  key_colon : ":"%char ∉ kv.1;
  key_line : in_line kv.1;
  value_line : in_line kv.2;
  value_trimmed : trim IsSpaceOrTab kv.2 = kv.2;
}.

(** A header that does not say how the message goes on. *)
Definition plain_name (k : bytes) : Prop :=
  HeaderNameEquals k (str "Content-Length") = false ∧ HeaderNameEquals k (str "X-HTTP-Method-Override") = false ∧
  HeaderNameEquals k (str "Transfer-Encoding") = false.

Lemma on_line_header line s : first_line_parsed s = true → receiving_body_in_chunks s = false → line ≠ [] →
  on_line line s = s ← header_of_line line s; Ok (NextLine s).
Proof. intros Hf Hr Hl. unfold on_line. rewrite Hf, Hr. by destruct line. Qed.

Lemma parse_header kv rest s : first_line_parsed s = true → receiving_body_in_chunks s = false → printable kv →
  parse (header_line kv ++ rest) s =
  match on_header kv.1 kv.2 s with Ok s => parse rest s | Throw r => Refused r end.
Proof.
  intros Hf Hr [Hne Hcol Hk Hv Ht]. destruct kv as [k v]. simpl in *. unfold header_line. simpl fst. simpl snd.
  assert (k ++ str ": " ++ v ++ kCRLF = (k ++ str ": " ++ v) ++ kCRLF) as -> by (by rewrite <- !app_assoc).
  rewrite <- app_assoc, parse_line.
  - rewrite on_line_header by (done || by destruct k). unfold header_of_line, kHeaderKeyValueSeparator.
    change (str ": " ++ v) with (":"%char :: " "%char :: v). rewrite split_at_app by done.
    change (trim IsSpaceOrTab (" "%char :: v)) with (trim IsSpaceOrTab v). rewrite Ht. by destruct (on_header k v s).
  - apply in_line_app; [done|]. apply in_line_app; [split; intros ?; set_solver|done].
Qed.

Lemma on_header_plain k v h s : plain_name k → OnHeader k v (helper s) = Ok h → on_header k v s = Ok (set_helper h s).
Proof. intros (H1 & H2 & H3) Hh. unfold on_header. rewrite Hh. simpl. by rewrite H1, H2, H3. Qed.

Lemma parse_headers hs h rest s : first_line_parsed s = true → receiving_body_in_chunks s = false →
  Forall (λ kv, printable kv ∧ plain_name kv.1) hs → run_headers hs (helper s) = Ok h →
  parse (concat (header_line <$> hs) ++ rest) s = parse rest (set_helper h s).
Proof.
  intros Hf Hr Hhs. revert s Hf Hr. induction Hhs as [|[k v] hs [Hp Hn] _ IH]; intros s Hf Hr Hrun.
  - injection Hrun as <-. by rewrite set_helper_same.
  - simpl in Hrun. destruct (OnHeader k v (helper s)) as [h'|] eqn:Hh; [|done]. simpl in Hrun.
    rewrite fmap_cons. cbn [concat]. rewrite <- app_assoc, parse_header by done. simpl fst. simpl snd.
    rewrite (on_header_plain k v h') by done. by rewrite IH.
Qed.

(** *** The length of the body *)

Lemma atoi_uint64 n : (n < 2 ^ 63)%N → Url.atoi (RemoteStream.ToString_uint64 n) = Z.of_N n.
Proof.
  intros Hn. unfold RemoteStream.ToString_uint64. destruct (RemoteStream.printed_decimal 20 (Z.of_N n)) as [Hd Hval]; [done|].
  unfold Url.atoi. destruct (RemoteStream.decimal_head _ Hd) as (_ & Hl & Hm). rewrite Hl, drop_0, Hm, Hval.
  rewrite read_digits_digits by lia. rewrite Z.mod_small; [done|]. lia.
Qed.

(** Text without spaces and controls. *)
Definition solid (c : ascii) : Prop := c ≠ "013"%char ∧ c ≠ nul ∧ IsSpaceOrTab c = false.

Lemma solid_in_line t : Forall solid t → in_line t ∧ trim IsSpaceOrTab t = t.
Proof.
  rewrite Forall_forall. intros Hc. split; [split; intros Hin; destruct (Hc _ Hin) as (? & ? & ?); congruence|].
  assert (∀ l, (∀ c, c ∈ l → IsSpaceOrTab c = false) → trim_front IsSpaceOrTab l = l) as Htf.
  { intros [|c l] Hl; [done|]. simpl. rewrite (Hl c) by apply list_elem_of_here. done. }
  unfold trim. rewrite (Htf t) by (intros c Hin; by destruct (Hc c Hin) as (_ & _ & ?)).
  rewrite Htf; [apply rev_involutive|]. intros c Hin.
  destruct (Hc c) as (_ & _ & ?); [|done]. apply list_elem_of_In, in_rev. by apply list_elem_of_In.
Qed.

Lemma decimal_solid t : RemoteStream.decimal t → Forall solid t.
Proof.
  intros [_ Hd]. eapply Forall_impl; [exact Hd|]. intros c [d Hdc]. destruct c as [[] [] [] [] [] [] [] []]; done.
Qed.

Lemma decimal_in_line t : RemoteStream.decimal t → in_line t ∧ trim IsSpaceOrTab t = t.
Proof. intros Hd. by apply solid_in_line, decimal_solid. Qed.

Lemma int64_in_line z : in_line (RemoteStream.ToString_int64 z) ∧ trim IsSpaceOrTab (RemoteStream.ToString_int64 z) = RemoteStream.ToString_int64 z.
Proof.
  apply solid_in_line. unfold RemoteStream.ToString_int64. destruct (Z.ltb_spec z 0); [constructor; [done|]|]; apply decimal_solid, RemoteStream.printed_decimal; lia.
Qed.

(** *** The end of the headers *)

Lemma parse_blank rest s : first_line_parsed s = true → receiving_body_in_chunks s = false →
  parse (kCRLF ++ rest) s =
  match end_of_headers s with
  | Ok (NextLine s) => parse rest s
  | Ok (NoBody s) => Parsed (finish_message None s)
  | Ok (ReceiveBody n s) =>
      if (Z.of_nat (length rest) <? n)%Z then Truncated
      else Parsed (finish_message (Some (take (Z.to_nat n) rest)) s)
  | Ok (LastChunk s) => Parsed (finish_chunked s)
  | Ok (ReceiveChunk n s) => Truncated
  | Throw r => Refused r
  end.
Proof.
  intros Hf Hr. change (kCRLF ++ rest) with ([] ++ kCRLF ++ rest). rewrite parse_line by (split; apply not_elem_of_nil).
  unfold on_line. rewrite Hf, Hr. simpl negb. cbv iota. unfold end_of_headers. by repeat case_match.
Qed.

Lemma parse_body body tail s : first_line_parsed s = true → receiving_body_in_chunks s = false →
  chunked_transfer_encoding s = false → body_length s = Some (Z.of_nat (length body)) →
  parse (kCRLF ++ body ++ tail) s = Parsed (finish_message (Some body) s).
Proof.
  intros Hf Hr Hc Hb. rewrite parse_blank by done. unfold end_of_headers. rewrite Hc, Hb, length_app.
  destruct (Z.ltb_spec (Z.of_nat (length body + length tail)) (Z.of_nat (length body))); [lia|].
  by rewrite Nat2Z.id, take_app_length.
Qed.

Lemma parse_chunked rest s : first_line_parsed s = true → receiving_body_in_chunks s = false →
  chunked_transfer_encoding s = true →
  parse (kCRLF ++ rest) s =
  parse rest (mkControl (method_ s) (raw_path_ s) (url_ s) (helper s) (body_length s) true true true).
Proof. intros Hf Hr Hc. rewrite parse_blank by done. unfold end_of_headers. by rewrite Hc, Hf. Qed.

(** ** The first line *)

Definition word (w : bytes) : Prop := w ≠ [] ∧ no_separator match_whitespace w.

Lemma split_words m p t : word m → word p →
  Split match_whitespace Skip (m ++ " "%char :: p ++ " "%char :: t) = m :: p :: Split match_whitespace Skip t.
Proof.
  intros [Hm Hms] [Hp Hps]. rewrite !Split_fields.
  rewrite (fields_app match_whitespace " "%char), (fields_app match_whitespace " "%char) by done.
  destruct m; [done|]. by destruct p.
Qed.

Lemma parse_first_line m p t u rest s : first_line_parsed s = false → word m → word p →
  in_line (m ++ " "%char :: p ++ " "%char :: t) → Url.make_URL p = Ok u →
  parse ((m ++ " "%char :: p ++ " "%char :: t) ++ kCRLF ++ rest) s =
  parse rest (mkControl m p u (helper s) (body_length s) true (chunked_transfer_encoding s) (receiving_body_in_chunks s)).
Proof.
  intros Hf Hm Hp Hl Hu. rewrite parse_line by done. unfold on_line. rewrite Hf. simpl negb. cbv iota.
  destruct (m ++ " "%char :: p ++ " "%char :: t) as [|c l] eqn:E; [by destruct m|]. rewrite <- E.
  unfold first_line. rewrite split_words by done. by rewrite Hu.
Qed.

(** ** Responses *)

Definition status_line (code : Z) : bytes :=
  str "HTTP/1.1" ++ " "%char :: RemoteStream.ToString_int64 code ++ " "%char :: HTTPResponseCodeAsString code.

Definition cookie_header (c : bytes * Cookie) : bytes * bytes :=
  (str "Set-Cookie", c.1 ++ "="%char :: cookie_value c.2 ++
   (params c.2 ≫= λ p, str "; " ++ p.1 ++ match p.2 with [] => [] | v => "="%char :: v end)).

Definition response_headers (connection_type : ConnectionType) (headers : Headers) (content_type : bytes) : list (bytes * bytes) :=
  (str "Content-Type", content_type) ::
  (str "Connection", match connection_type with ConnectionKeepAlive => str "keep-alive" | _ => str "close" end) ::
  entries headers ++ (cookie_header <$> cookies headers).

Lemma bind_concat {A} (f : A → bytes) (l : list A) : l ≫= f = concat (f <$> l).
Proof. induction l as [|a l IH]; [done|]. csimpl. by rewrite IH. Qed.

Lemma prepare_text connection_type code headers content_type : headers_wf headers →
  PrepareHTTPResponseHeader connection_type code headers content_type =
  Ok (status_line code ++ kCRLF ++ concat (header_line <$> response_headers connection_type headers content_type)).
Proof.
  intros Hwf. unfold PrepareHTTPResponseHeader. rewrite iterate_entries by done. unfold mbind at 1, outcome_bind.
  f_equal. unfold status_line, response_headers. rewrite !bind_concat. cbn [fmap list_fmap concat].
  rewrite fmap_app, concat_app, <- list_fmap_compose. rewrite <- !app_assoc. cbn [app]. rewrite <- !app_assoc.
  assert (concat (cookie_line <$> cookies headers) = concat ((header_line ∘ cookie_header) <$> cookies headers)) as ->.
  { f_equal. apply list_fmap_ext. intros i c _. unfold cookie_line, cookie_header, header_line. simpl.
    by rewrite <- !app_assoc; simpl; rewrite <- !app_assoc. }
  unfold header_line. simpl. rewrite <- !app_assoc. done.
Qed.

Lemma code_text_in_line code : in_line (HTTPResponseCodeAsString code).
Proof.
  assert (Forall (λ e, bool_decide ("013"%char ∉ str e.2) && bool_decide (nul ∉ str e.2) = true) response_codes) as Hall.
  { unfold response_codes. repeat (apply Forall_cons; split; [vm_compute; reflexivity|]). apply Forall_nil. done. }
  unfold HTTPResponseCodeAsString. induction Hall as [|[c t] l Hc _ IH]; simpl.
  - split; apply (bool_decide_unpack _); vm_compute; exact I.
  - destruct (c =? code)%Z; [|done]. apply andb_true_iff in Hc as [?%bool_decide_eq_true ?%bool_decide_eq_true]. done.
Qed.

Lemma decimal_word t : RemoteStream.decimal t → word t.
Proof.
  intros [Hne Hd]. split; [done|]. unfold no_separator. eapply Forall_impl; [exact Hd|].
  intros c Hc. unfold match_whitespace. by destruct (digit_not_special c Hc).
Qed.

Lemma http_word : word (str "HTTP/1.1") ∧ in_line (str "HTTP/1.1").
Proof. split; [split; [done|]|split; intros ?; set_solver]. repeat (apply Forall_cons; split; [done|]). by apply Forall_nil. Qed.

Lemma code_decimal code : (0 <= code < 2 ^ 31)%Z → RemoteStream.decimal (RemoteStream.ToString_int64 code).
Proof.
  intros Hc. unfold RemoteStream.ToString_int64. destruct (Z.ltb_spec code 0); [lia|].
  by destruct (RemoteStream.printed_decimal 19 code) as [? _].
Qed.

Lemma uint64_decimal n : RemoteStream.decimal (RemoteStream.ToString_uint64 n).
Proof. apply RemoteStream.printed_decimal. lia. Qed.

Lemma decimal_url t : RemoteStream.decimal t → ∃ u, Url.make_URL t = Ok u.
Proof.
  intros [Hne Hd]. assert (∀ c, digit_value c = None → c ∉ t) as Hno.
  { intros c Hc Hin. rewrite Forall_forall in Hd. destruct (Hd c Hin) as [d E]. by rewrite Hc in E. }
  unfold Url.make_URL, Url.ExtractURLParametersFromURL, Url.extract_fragment, Url.find.
  rewrite !drop_0, !Url.index_of_None by (apply Hno; reflexivity). simpl. rewrite firstn_all.
  destruct t as [|c t]; [done|]. unfold Url.ParseURLWithoutParameters. by repeat case_match; eexists.
Qed.

Lemma parse_status_line code u rest s : (0 <= code < 2 ^ 31)%Z → first_line_parsed s = false →
  Url.make_URL (RemoteStream.ToString_int64 code) = Ok u →
  parse (status_line code ++ kCRLF ++ rest) s =
  parse rest (mkControl (str "HTTP/1.1") (RemoteStream.ToString_int64 code) u (helper s) (body_length s) true
    (chunked_transfer_encoding s) (receiving_body_in_chunks s)).
Proof.
  intros Hc Hf Hu. pose proof (code_decimal code Hc) as Hd. apply parse_first_line; [done|apply http_word|by apply decimal_word| |done].
  destruct (decimal_in_line _ Hd) as [Hl _]. apply in_line_app; [apply http_word|].
  change (" "%char :: RemoteStream.ToString_int64 code ++ " "%char :: HTTPResponseCodeAsString code) with
    ([" "%char] ++ RemoteStream.ToString_int64 code ++ [" "%char] ++ HTTPResponseCodeAsString code).
  assert (in_line [" "%char]) by (split; intros ?; set_solver).
  repeat apply in_line_app; try done. apply code_text_in_line.
Qed.

(** A response with a body, and whatever follows it. *)
Lemma parse_response body code headers content_type h0 h1 h u tail :
  headers_wf headers → (0 <= code < 2 ^ 31)%Z → (Z.of_nat (length body) <= kMaxHTTPPayloadSizeInBytes)%Z →
  Forall (λ kv, printable kv ∧ plain_name kv.1) (response_headers ConnectionClose headers content_type) →
  run_headers (response_headers ConnectionClose headers content_type) h0 = Ok h1 →
  OnHeader (str "Content-Length") (RemoteStream.ToString_uint64 (N.of_nat (length body))) h1 = Ok h →
  Url.make_URL (RemoteStream.ToString_int64 code) = Ok u →
  parse_text h0 (response_text body code headers content_type ++ tail) =
  Parsed (mkMessage (str "HTTP/1.1") (RemoteStream.ToString_int64 code) u h (Some body)).
Proof.
  intros Hwf Hc Hb Hhs Hrun Hlen Hu. unfold response_text. rewrite prepare_text by done.
  change (parse_text h0) with (λ t, parse t (start_control h0)). cbv beta. rewrite <- !app_assoc.
  rewrite (parse_status_line code u) by done. erewrite parse_headers by done.
  set (n := RemoteStream.ToString_uint64 (N.of_nat (length body))) in *.
  destruct (decimal_in_line n (uint64_decimal _)) as [Hl Ht]. unfold kMaxHTTPPayloadSizeInBytes in Hb.
  change (str "Content-Length: ") with (str "Content-Length" ++ str ": "). rewrite <- !app_assoc.
  transitivity (parse (header_line (str "Content-Length", n) ++ kCRLF ++ body ++ tail)
    (set_helper h1 (mkControl (str "HTTP/1.1") (RemoteStream.ToString_int64 code) u h0 None true false false))).
  { unfold header_line. simpl fst. simpl snd. by rewrite <- !app_assoc. }
  rewrite parse_header; [|done|done|split; [done|simpl; set_solver|split; intros ?; set_solver|done..]].
  unfold on_header. simpl helper. simpl fst. simpl snd. rewrite Hlen. simpl no_answer. unfold mbind, outcome_bind.
  replace (HeaderNameEquals (str "Content-Length") (str "Content-Length")) with true by reflexivity.
  unfold n. rewrite atoi_uint64 by lia. unfold size_t. rewrite Z.mod_small by lia.
  destruct (Z.ltb_spec kMaxHTTPPayloadSizeInBytes (Z.of_N (N.of_nat (length body)))) as [Hbig|_];
    [unfold kMaxHTTPPayloadSizeInBytes in Hbig; lia|].
  by rewrite parse_body by (simpl; done || f_equal; lia).
Qed.

(** What is written before the chunks. *)
Definition chunked_head (code : Z) (headers : Headers) (content_type : bytes) : bytes :=
  match PrepareHTTPResponseHeader ConnectionKeepAlive code headers content_type with
  | Ok os => os ++ str "Transfer-Encoding: chunked" ++ kCRLF ++ kCRLF
  | Throw _ => []
  end.

(** A response in chunks. *)
Lemma parse_chunked_response chunks code headers content_type h0 h1 h2 h u tail :
  headers_wf headers → (0 <= code < 2 ^ 31)%Z → Forall small_chunk chunks →
  Forall (λ kv, printable kv ∧ plain_name kv.1) (response_headers ConnectionKeepAlive headers content_type) →
  run_headers (response_headers ConnectionKeepAlive headers content_type) h0 = Ok h1 →
  OnHeader (str "Transfer-Encoding") (str "chunked") h1 = Ok h2 → run_chunks chunks h2 = Ok h →
  Url.make_URL (RemoteStream.ToString_int64 code) = Ok u →
  parse_text h0 (chunked_head code headers content_type ++ concat (chunk_text <$> chunks) ++ last_chunk_text ++ tail) =
  Parsed (mkMessage (str "HTTP/1.1") (RemoteStream.ToString_int64 code) u (OnChunkedBodyDone h).1 (OnChunkedBodyDone h).2).
Proof.
  intros Hwf Hc Hch Hhs Hrun Hte Hrc Hu. unfold chunked_head. rewrite prepare_text by done.
  change (parse_text h0) with (λ t, parse t (start_control h0)). cbv beta. rewrite <- !app_assoc.
  rewrite (parse_status_line code u) by done. erewrite parse_headers by done.
  set (s1 := mkControl _ _ _ _ _ _ _ _).
  transitivity (parse (header_line (str "Transfer-Encoding", str "chunked") ++ kCRLF ++
    concat (chunk_text <$> chunks) ++ last_chunk_text ++ tail) (set_helper h1 s1)); [done|].
  rewrite parse_header; [|done|done|split; [done|simpl; set_solver|split; intros ?; set_solver|split; intros ?; set_solver|done]].
  unfold on_header. simpl fst. simpl snd. replace (helper (set_helper h1 s1)) with h1 by done. rewrite Hte.
  unfold no_answer, mbind, outcome_bind.
  replace (HeaderNameEquals (str "Transfer-Encoding") (str "Content-Length")) with false by reflexivity.
  replace (HeaderNameEquals (str "Transfer-Encoding") (str "X-HTTP-Method-Override")) with false by reflexivity.
  replace (HeaderNameEquals (str "Transfer-Encoding") (str "Transfer-Encoding") && HeaderNameEquals (str "chunked") (str "chunked"))
    with true by reflexivity.
  rewrite parse_chunked by done. rewrite (parse_chunks chunks h) by done.
  unfold finish_chunked. simpl helper. by destruct (OnChunkedBodyDone h) as [h' b].
Qed.

End RoundTrip.
End HttpRoundTrip.
