(* ===== verification/HttpRoutes.v ===== *)
(** * Routes of the HTTP server: blocks/http/impl/posix_server.h

    A server keeps a map from paths to handlers, one for each number of path
    arguments the handler accepts ([URLPathArgs] of blocks/url/url.h).
    [FindHandler] tries the whole path of a request, then takes components off
    its end, which become arguments.  A scope ([AccumulativeScopedDeleter] of
    bricks/util/) unregisters the routes registered through it.  Handlers are a
    parameter here; what the server thread does with them is in HttpServer.v. *)

From Stdlib Require Import ZArith NArith Lia Ascii String.
From stdpp Require Import base sets gmap list strings.
From S2P Require Import Prelude Persistence Strings Url State Tcp.
Open Scope nat_scope.

Module HttpRoutes.

(** ** Path arguments *)

Definition MaxArgsCount : nat := 15.

(** [CountMask] has 16 bits. *)
Definition CountMask := Z.
Definition mask_None : CountMask := 1%Z.
Definition mask_One : CountMask := 2%Z.
Definition mask_Any : CountMask := (2 ^ 16 - 1)%Z.
Definition mask_shift (m : CountMask) (count : nat) : CountMask := (Z.shiftl m (Z.of_nat count) mod 2 ^ 16)%Z.

(** [(path_args_count_mask & mask) == mask] in the round [i] of the loops. *)
Definition has_count (path_args_count_mask : CountMask) (i : nat) : bool :=
  let mask := mask_shift mask_None i in (Z.land path_args_count_mask mask =? mask)%Z.

(** [args_] has the last argument first. *)
Record URLPathArgs := mkPathArgs { base_path : bytes; args_ : list bytes }.
Implicit Type a : URLPathArgs.

Definition get_arg (index : nat) a : option bytes := if index <? length (args_ a) then args_ a !! (length (args_ a) - 1 - index) else None.

(** The arguments in the order of iteration. *)
Definition arguments a : list bytes := rev (args_ a).

Definition ComposeURLPathFromArgs a : bytes :=
  match arguments a ≫= λ component, "/"%char :: component with [] => ["/"%char] | result => result end.

Definition ComposeURLPath a : bytes :=
  let path_from_args := ComposeURLPathFromArgs a in
  if bool_decide (base_path a = []) || bool_decide (base_path a = ["/"%char]) then path_from_args
  else if bool_decide (path_from_args = ["/"%char]) then base_path a else base_path a ++ path_from_args.

(** ** Registering *)

Inductive route_exception :=
| PathDoesNotStartWithSlash (path : bytes)
| PathEndsWithSlash (path : bytes)
| PathContainsInvalidCharacters (path : bytes)
| HandlerAlreadyExistsException (path : bytes)
| HandlerDoesNotExistException (path : bytes)
| ServeStaticFilesFromCanNotServeStaticFilesOfUnknownMIMEType (basename : bytes)
| ServeStaticFilesFromCannotServeMoreThanOneIndexFile (route basename : bytes)
| RouteAssertion (f : fault).

Definition isalnum (c : ascii) : bool := Url.in_range "a" "z" c || Url.in_range "A" "Z" c || Url.in_range "0" "9" c.

Definition IsPathValidToRegister (path : bytes) : bool :=
  forallb (λ c, isalnum c || bool_decide (c ∈ ["/"; "-"; "."; "_"; "~"; "!"; "$"; "&"; "'"; "("; ")"; "*"; "+"; ","; ";"; "="; ":"; "@"]%char)) path.

Definition last_is_slash (path : bytes) : bool := bool_decide (last path = Some "/"%char).

Definition ValidateRoute (path : bytes) : outcome route_exception () :=
  if negb (bool_decide (head path = Some "/"%char)) then Throw (PathDoesNotStartWithSlash path)
  else if negb (bool_decide (path = ["/"%char])) && last_is_slash path then Throw (PathEndsWithSlash path)
  else if negb (IsPathValidToRegister path) then Throw (PathContainsInvalidCharacters path)
  else Ok ().

Inductive ReRegisterRoute := ThrowOnAttempt | SilentlyUpdateExisting.

Global Instance ReRegisterRoute_eq_dec : EqDecision ReRegisterRoute.
Proof. solve_decision. Defined.

Abbreviation routes F := (gmap bytes (gmap nat F)).

Section Routes.
Context {F : Type}.
Implicit Type hs : routes F.

Definition handler_at (path : bytes) (count : nat) hs : option F := hs !! path ≫= λ m, m !! count.

(** Step 1 of [DoRegisterHandler], in the round [i]. *)
Definition check_count (path : bytes) (mask : CountMask) (policy : ReRegisterRoute) hs (i : nat)
    : outcome route_exception () :=
  if has_count mask i then
    match handler_at path i hs with
    | None => if bool_decide (policy = SilentlyUpdateExisting) then Throw (HandlerDoesNotExistException path) else Ok ()
    | Some _ => if bool_decide (policy = SilentlyUpdateExisting) then Ok () else Throw (HandlerAlreadyExistsException path)
    end
  else Ok ().

Fixpoint check_counts (path : bytes) (mask : CountMask) (policy : ReRegisterRoute) hs (counts : list nat)
    : outcome route_exception () :=
  match counts with
  | [] => Ok ()
  | i :: counts => _ ← check_count path mask policy hs i; check_counts path mask policy hs counts
  end.

Definition all_counts : list nat := seq 0 (S MaxArgsCount).
#[local] Arguments all_counts : simpl never.

(** Step 2. *)
Definition set_counts (mask : CountMask) (handler : F) (counts : list nat) (m : gmap nat F) : gmap nat F :=
  foldl (λ m i, if has_count mask i then <[i := handler]> m else m) m counts.
#[local] Arguments set_counts : simpl never.

(** What a scope has captured: the arguments of [UnRegister]. *)
Definition HTTPRoutesScope : Type := list (bytes * CountMask).

Abbreviation registering := (io (routes F) route_exception).

Definition DoRegisterHandler (path : bytes) (handler : F) (path_args_count_mask : CountMask) (policy : ReRegisterRoute)
    : registering HTTPRoutesScope := λ hs,
  if (path_args_count_mask =? 0)%Z then (Ok [], hs)
  else match (_ ← ValidateRoute path; check_counts path path_args_count_mask policy hs all_counts) with
       | Throw e => (Throw e, hs)
       | Ok _ =>
           let m := set_counts path_args_count_mask handler all_counts (default ∅ (hs !! path)) in
           (Ok (if bool_decide (policy = SilentlyUpdateExisting) then [] else [(path, path_args_count_mask)]),
            <[path := m]> hs)
       end.

(** The forms of [Register]. *)
Definition Register (policy : ReRegisterRoute) (path : bytes) (mask : option CountMask) (handler : F) : registering HTTPRoutesScope :=
  DoRegisterHandler path handler (default mask_None mask) policy.

(** The round [i] of [UnRegister]. *)
Definition unregister_count (path : bytes) (mask : CountMask) (i : nat) : registering () := λ hs,
  if has_count mask i then
    match hs !! path with
    | None => (Throw (HandlerDoesNotExistException path), hs)
    | Some m =>
        match m !! i with
        | None => (Throw (HandlerDoesNotExistException path), hs)
        | Some _ =>
            let m := delete i m in
            (Ok (), if bool_decide (m = ∅) then delete path hs else <[path := m]> hs)
        end
    end
  else (Ok (), hs).

Fixpoint unregister_counts (path : bytes) (mask : CountMask) (counts : list nat) : registering () :=
  match counts with
  | [] => mret ()
  | i :: counts => _ ← unregister_count path mask i; unregister_counts path mask counts
  end.

Definition UnRegister (path : bytes) (path_args_count_mask : CountMask) : registering () :=
  unregister_counts path path_args_count_mask all_counts.

Definition PathHandlersCount hs : nat := size hs.

(** [ReleaseCaptured]: in the reverse order. *)
Fixpoint release (captured : list (bytes * CountMask)) : registering () :=
  match captured with
  | [] => mret ()
  | (path, mask) :: captured => _ ← UnRegister path mask; release captured
  end.

Definition ReleaseCaptured (scope : HTTPRoutesScope) : registering () := release (rev scope).

(** [scope += rhs]. *)
Definition scope_add (scope rhs : HTTPRoutesScope) : HTTPRoutesScope := scope ++ rhs.

(** ** Finding the handler of a request *)

(** [while (path.length() > 1 && path.back() == '/') path.resize(path.length() - 1)], on the reversed path. *)
Fixpoint strip_reversed (s : bytes) : bytes :=
  match s with
  | c :: ((_ :: _) as s') => if bool_decide (c = "/"%char) then strip_reversed s' else s
  | _ => s
  end.

Definition strip_slashes (path : bytes) : bytes := rev (strip_reversed (rev path)).

(** [path.rfind('/') + 1]: what is before and after it. *)
Fixpoint after_last_slash (reversed : bytes) : bytes * bytes :=
  match reversed with
  | [] => ([], [])
  | c :: s =>
      if bool_decide (c = "/"%char) then (rev (c :: s), [])
      else let '(before, arg) := after_last_slash s in (before, arg ++ [c])
  end.

Fixpoint find_loop (fuel : nat) (remaining_path : bytes) (args : list bytes) hs : option F * URLPathArgs :=
  let remaining_path := strip_slashes remaining_path in
  match handler_at remaining_path (length args) hs with
  | Some h => (Some h, mkPathArgs remaining_path args)
  | None =>
      if bool_decide (remaining_path = ["/"%char]) then (None, mkPathArgs remaining_path args)
      else match fuel with
           | O => (None, mkPathArgs remaining_path args)
           | S fuel =>
               let '(before, arg) := after_last_slash (rev remaining_path) in
               find_loop fuel before (args ++ [Url.DecodeURIComponent arg]) hs
           end
  end.

Definition FindHandler (path : bytes) hs : option F * URLPathArgs :=
  match path with
  | "/"%char :: _ => find_loop (length path) path [] hs
  | _ => (None, mkPathArgs [] [])
  end.

(** ** The map of handlers *)

(** No path is kept without handlers. *)
Definition routes_wf hs : Prop := ∀ path m, hs !! path = Some m → m ≠ ∅.

Lemma routes_ext hs hs' : routes_wf hs → routes_wf hs' → (∀ path i, handler_at path i hs = handler_at path i hs') → hs = hs'.
Proof.
  intros H1 H2 Hat. apply map_eq. intros path. specialize (Hat path). unfold handler_at in Hat.
  destruct (hs !! path) as [m|] eqn:Hm, (hs' !! path) as [m'|] eqn:Hm'; simpl in Hat; [| | |done].
  - f_equal. apply map_eq. done.
  - exfalso. apply (H1 _ _ Hm). apply map_eq. intros i. by rewrite Hat.
  - exfalso. apply (H2 _ _ Hm'). apply map_eq. intros i. by rewrite <- Hat.
Qed.

Lemma lookup_set_counts mask h counts m i :
  set_counts mask h counts m !! i = if bool_decide (i ∈ counts) && has_count mask i then Some h else m !! i.
Proof.
  unfold set_counts. revert m. induction counts as [|k counts IH]; intros m; simpl.
  { done. }
  rewrite IH.
  destruct (decide (i ∈ counts)) as [Hin|Hin].
  - rewrite !bool_decide_eq_true_2 by (try apply list_elem_of_further; done). simpl.
    destruct (has_count mask i) eqn:Hi; [done|]. destruct (has_count mask k) eqn:Hk; [|done].
    rewrite lookup_insert_ne; [done|]. intros ->. congruence.
  - rewrite (bool_decide_eq_false_2 (i ∈ counts)) by done. simpl. destruct (decide (i = k)) as [->|Hne].
    + rewrite bool_decide_eq_true_2 by apply list_elem_of_here. simpl. destruct (has_count mask k); [|done].
      by rewrite lookup_insert_eq.
    + rewrite bool_decide_eq_false_2 by (rewrite elem_of_cons; naive_solver). simpl.
      destruct (has_count mask k); [|done]. by rewrite lookup_insert_ne.
Qed.

(** The handlers at [counts] of the mask. *)
Definition selected (path : bytes) (mask : CountMask) (counts : list nat) (path' : bytes) (i : nat) : bool :=
  bool_decide (path' = path) && (bool_decide (i ∈ counts) && has_count mask i).

Lemma check_counts_ok path mask policy hs counts : check_counts path mask policy hs counts = Ok () →
  ∀ i, i ∈ counts → has_count mask i = true →
  if bool_decide (policy = SilentlyUpdateExisting) then is_Some (handler_at path i hs) else handler_at path i hs = None.
Proof.
  induction counts as [|k counts IH]; [by intros _ i ?%elem_of_nil|]. simpl. unfold check_count.
  intros Hc i [->|Hin]%elem_of_cons Hi.
  - rewrite Hi in Hc. destruct (handler_at path k hs); by destruct (bool_decide (policy = SilentlyUpdateExisting)).
  - apply IH; [|done..]. destruct (has_count mask k); [|done].
    destruct (handler_at path k hs), (bool_decide (policy = SilentlyUpdateExisting)); done.
Qed.

(** What registering does, if it does not throw. *)
Lemma DoRegisterHandler_ok path h mask policy hs scope hs' : (mask ≠ 0)%Z →
  DoRegisterHandler path h mask policy hs = (Ok scope, hs') →
  ValidateRoute path = Ok () ∧
  scope = (if bool_decide (policy = SilentlyUpdateExisting) then [] else [(path, mask)]) ∧
  (∀ path' i, handler_at path' i hs' = if selected path mask all_counts path' i then Some h else handler_at path' i hs) ∧
  (∀ i, i ∈ all_counts → has_count mask i = true →
    if bool_decide (policy = SilentlyUpdateExisting) then is_Some (handler_at path i hs) else handler_at path i hs = None).
Proof.
  intros Hm. unfold DoRegisterHandler. destruct (Z.eqb_spec mask 0) as [|_]; [done|].
  destruct (ValidateRoute path) as [[]|] eqn:Hv; [|done]. unfold mbind, outcome_bind.
  destruct (check_counts path mask policy hs all_counts) as [[]|] eqn:Hc; [|done]. intros [= <- <-].
  split_and!; [done|done| |by apply check_counts_ok]. intros path' i. unfold handler_at at 1, selected.
  destruct (decide (path' = path)) as [->|Hne].
  - rewrite lookup_insert_eq, (bool_decide_eq_true_2 (path = path)) by done. unfold mbind, option_bind.
    rewrite lookup_set_counts, andb_true_l. unfold handler_at. destruct (bool_decide (i ∈ all_counts) && has_count mask i); [done|].
    destruct (hs !! path); [done|]. simpl. apply lookup_empty.
  - rewrite lookup_insert_ne by done. by rewrite bool_decide_eq_false_2 by done.
Qed.

(** Some count is selected by every mask that is not zero. *)
Lemma register_wf path h mask policy hs scope hs' i : routes_wf hs → i ∈ all_counts → has_count mask i = true →
  DoRegisterHandler path h mask policy hs = (Ok scope, hs') → routes_wf hs'.
Proof.
  intros Hwf Hi Hm. unfold DoRegisterHandler. destruct (mask =? 0)%Z; [by intros [= _ <-]|].
  destruct (_ ≫= _) as [[]|]; [|done]. intros [= _ <-] path' m.
  destruct (decide (path' = path)) as [->|]; [rewrite lookup_insert_eq|rewrite lookup_insert_ne by done; apply Hwf].
  intros [= <-] E. apply (f_equal (lookup i)) in E. rewrite lookup_set_counts, Hm, bool_decide_eq_true_2 in E by done.
  simpl in E. by rewrite lookup_empty in E.
Qed.

Lemma unregister_count_ok path mask i hs : routes_wf hs → (has_count mask i = true → is_Some (handler_at path i hs)) →
  ∃ hs', unregister_count path mask i hs = (Ok (), hs') ∧ routes_wf hs' ∧
  ∀ path' j, handler_at path' j hs' = if selected path mask [i] path' j then None else handler_at path' j hs.
Proof.
  intros Hwf Hp. unfold unregister_count, selected. destruct (has_count mask i) eqn:Hi.
  - destruct (Hp eq_refl) as [h Hh]. unfold handler_at in Hh. destruct (hs !! path) as [m|] eqn:Hm; [|done]. simpl in Hh.
    rewrite Hh. eexists. split; [done|]. split.
    + intros path' m'. case_bool_decide.
      * intros Hl. apply lookup_delete_Some in Hl as [_ Hl]. by eapply Hwf.
      * destruct (decide (path' = path)) as [->|]; [rewrite lookup_insert_eq; by intros [= <-]|].
        rewrite lookup_insert_ne by done. apply Hwf.
    + intros path' j. assert (handler_at path' j (if bool_decide (delete i m = ∅) then delete path hs else <[path:=delete i m]> hs) =
        (if bool_decide (path' = path) then delete i m !! j else handler_at path' j hs)) as ->.
      { unfold handler_at. destruct (decide (path' = path)) as [->|].
        - rewrite (bool_decide_eq_true_2 (path = path)) by done. case_bool_decide as He.
          + rewrite lookup_delete_eq, He. simpl. by rewrite lookup_empty.
          + by rewrite lookup_insert_eq.
        - rewrite (bool_decide_eq_false_2 (path' = path)) by done.
          case_bool_decide; [by rewrite lookup_delete_ne|by rewrite lookup_insert_ne]. }
      case_bool_decide as Hpp; [subst path'|done]. simpl. unfold handler_at. rewrite Hm. simpl.
      destruct (decide (j = i)) as [->|Hji].
      * rewrite lookup_delete_eq, bool_decide_eq_true_2 by apply list_elem_of_here. simpl. by rewrite Hi.
      * rewrite lookup_delete_ne, bool_decide_eq_false_2 by (try rewrite list_elem_of_singleton; done). done.
  - exists hs. split_and!; [done..|]. intros path' j. destruct (decide (j = i)) as [->|].
    + by rewrite Hi, !andb_false_r.
    + rewrite (bool_decide_eq_false_2 (j ∈ [i])) by (by rewrite list_elem_of_singleton). by rewrite andb_false_r.
Qed.

Lemma unregister_counts_ok path mask counts hs : routes_wf hs → NoDup counts →
  (∀ i, i ∈ counts → has_count mask i = true → is_Some (handler_at path i hs)) →
  ∃ hs', unregister_counts path mask counts hs = (Ok (), hs') ∧ routes_wf hs' ∧
  ∀ path' j, handler_at path' j hs' = if selected path mask counts path' j then None else handler_at path' j hs.
Proof.
  revert hs. induction counts as [|i counts IH]; intros hs Hwf Hnd Hp.
  - exists hs. split_and!; [done..|]. intros path' j. unfold selected.
    rewrite (bool_decide_eq_false_2 (j ∈ [])) by apply not_elem_of_nil. by rewrite andb_false_r.
  - apply NoDup_cons in Hnd as [Hni Hnd].
    destruct (unregister_count_ok path mask i hs Hwf) as (hs1 & H1 & Hwf1 & Hat1).
    { intros Hi. apply Hp; [apply list_elem_of_here|done]. }
    destruct (IH hs1 Hwf1 Hnd) as (hs2 & H2 & Hwf2 & Hat2).
    { intros j Hj Hjm. rewrite Hat1. unfold selected.
      rewrite (bool_decide_eq_false_2 (j ∈ [i])) by (rewrite list_elem_of_singleton; by intros ->).
      rewrite andb_false_r. apply Hp; [by apply list_elem_of_further|done]. }
    exists hs2. split_and!; [simpl; by rewrite (io_bind_ok _ _ _ _ _ H1)|done|].
    intros path' j. rewrite Hat2, Hat1. unfold selected.
    destruct (bool_decide (path' = path)); [|done]. simpl.
    destruct (has_count mask j); rewrite ?andb_true_r, ?andb_false_r; [|done].
    destruct (decide (j ∈ counts)).
    + by rewrite !bool_decide_eq_true_2 by (try apply list_elem_of_further; done).
    + rewrite (bool_decide_eq_false_2 (j ∈ counts)) by done. destruct (decide (j = i)) as [->|].
      * by rewrite !bool_decide_eq_true_2 by apply list_elem_of_here.
      * by rewrite !bool_decide_eq_false_2 by (rewrite ?list_elem_of_singleton, ?elem_of_cons; naive_solver).
Qed.

Lemma all_counts_nodup : NoDup all_counts.
Proof. apply NoDup_ListNoDup, seq_NoDup. Qed.

(** A scope takes back what was registered through it. *)
Lemma register_release path h mask hs scope hs' i : routes_wf hs → i ∈ all_counts → has_count mask i = true → (mask ≠ 0)%Z →
  DoRegisterHandler path h mask ThrowOnAttempt hs = (Ok scope, hs') → ReleaseCaptured scope hs' = (Ok (), hs).
Proof.
  intros Hwf Hi Hmi Hm Hreg. pose proof (register_wf _ _ _ _ _ _ _ i Hwf Hi Hmi Hreg) as Hwf'.
  destruct (DoRegisterHandler_ok _ _ _ _ _ _ _ Hm Hreg) as (_ & -> & Hat & Hold). simpl in *.
  unfold ReleaseCaptured. simpl. unfold UnRegister.
  destruct (unregister_counts_ok path mask all_counts hs' Hwf' all_counts_nodup) as (hs2 & H2 & Hwf2 & Hat2).
  { intros j Hj Hjm. rewrite Hat. unfold selected. by rewrite !bool_decide_eq_true_2, Hjm by done. }
  rewrite (io_bind_ok _ _ _ _ _ H2). unfold mret, io_ret. f_equal. apply routes_ext; [done..|].
  intros path' j. rewrite Hat2, Hat. destruct (selected path mask all_counts path' j) eqn:Hs; [|done].
  unfold selected in Hs. apply andb_true_iff in Hs as [->%bool_decide_eq_true Hs].
  apply andb_true_iff in Hs as [Hj%bool_decide_eq_true Hjm]. by rewrite (Hold j Hj Hjm).
Qed.

(** ** The handler of a path *)

(** A component of a path. *)
Definition component (c : bytes) : Prop := c ≠ [] ∧ "/"%char ∉ c.

Definition path_of (components : list bytes) : bytes := concat ((cons "/"%char) <$> components).

(** The path to register for these components. *)
Definition route_of (components : list bytes) : bytes :=
  match components with [] => ["/"%char] | _ => path_of components end.

(** The search, on the components in reverse order. *)
Fixpoint find_spec (reversed : list bytes) (args : list bytes) hs : option F * URLPathArgs :=
  let route := route_of (rev reversed) in
  match handler_at route (length args) hs with
  | Some h => (Some h, mkPathArgs route args)
  | None =>
      match reversed with
      | [] => (None, mkPathArgs route args)
      | c :: reversed => find_spec reversed (args ++ [Url.DecodeURIComponent c]) hs
      end
  end.

Lemma path_of_app cs c : path_of (cs ++ [c]) = path_of cs ++ "/"%char :: c.
Proof. unfold path_of. rewrite fmap_app, concat_app. simpl. by rewrite app_nil_r. Qed.

Lemma strip_reversed_slashes n s : strip_reversed (replicate n "/"%char ++ s) =
  match s with [] => match n with O => [] | S _ => ["/"%char] end | _ => strip_reversed s end.
Proof.
  induction n as [|n IH]; [by destruct s|]. simpl. destruct (replicate n "/"%char ++ s) as [|x l] eqn:E.
  - destruct n; [|done]. by destruct s.
  - rewrite IH. destruct s; [|done]. destruct n; [done|]. by destruct l.
Qed.

Lemma strip_slashes_path cs n : Forall component cs → (cs = [] → 0 < n) →
  strip_slashes (path_of cs ++ replicate n "/"%char) = route_of cs.
Proof.
  intros Hcs Hn. unfold strip_slashes. rewrite rev_app_distr.
  assert (rev (replicate n "/"%char) = replicate n "/"%char) as -> by (rewrite rev_alt; apply reverse_replicate).
  rewrite strip_reversed_slashes. destruct cs as [|c cs _] using rev_ind.
  - destruct n; [specialize (Hn eq_refl); lia|done].
  - apply Forall_app in Hcs as [_ [[Hne Hns] _]%Forall_cons]. rewrite path_of_app, rev_app_distr. simpl rev.
    destruct c as [|x c _] using rev_ind; [done|]. rewrite rev_app_distr. simpl app.
    assert (x ≠ "/"%char) as Hx by (intros ->; apply Hns; apply elem_of_app; right; apply list_elem_of_here).
    assert (∀ l, strip_reversed (x :: l) = x :: l) as ->.
    { intros [|y l]; [done|]. simpl. by rewrite bool_decide_eq_false_2. }
    destruct (cs ++ [c ++ [x]]) as [|c' cs'] eqn:E; [by destruct cs|]. unfold route_of. rewrite <- E, path_of_app.
    rewrite <- (rev_involutive (path_of cs ++ _)). f_equal. rewrite rev_app_distr. simpl. rewrite rev_app_distr. simpl.
    by rewrite <- !app_assoc.
Qed.

Lemma after_last_slash_ok pre c : "/"%char ∉ c → after_last_slash (rev (pre ++ "/"%char :: c)) = (pre ++ ["/"%char], c).
Proof.
  intros Hc. rewrite rev_app_distr. simpl. rewrite <- app_assoc. simpl. induction c as [|x c IH] using rev_ind.
  - simpl. by rewrite rev_involutive.
  - rewrite rev_app_distr. simpl. rewrite elem_of_app, list_elem_of_singleton in Hc.
    rewrite bool_decide_eq_false_2 by naive_solver. rewrite IH by naive_solver. done.
Qed.

Lemma route_of_cons cs c : route_of (cs ++ [c]) = path_of cs ++ "/"%char :: c.
Proof. rewrite <- path_of_app. unfold route_of. by destruct cs. Qed.

Lemma path_root cs : path_of cs ++ ["/"%char] = path_of cs ++ replicate 1 "/"%char.
Proof. done. Qed.

Lemma route_not_root cs c : component c → route_of (cs ++ [c]) ≠ ["/"%char].
Proof.
  intros [Hne _]. rewrite route_of_cons. intros E%(f_equal length). rewrite length_app in E. simpl in E.
  destruct c; [done|]. simpl in E. lia.
Qed.

Lemma find_loop_spec fuel reversed n args hs : Forall component reversed → (reversed = [] → 0 < n) → length reversed ≤ fuel →
  find_loop fuel (path_of (rev reversed) ++ replicate n "/"%char) args hs = find_spec reversed args hs.
Proof.
  revert n fuel args. induction reversed as [|c cs IH]; intros n fuel args Hcs Hn Hf.
  - assert (strip_slashes (path_of (rev []) ++ replicate n "/"%char) = route_of (rev [])) as E.
    { apply strip_slashes_path; [by apply Forall_nil|auto]. }
    destruct fuel; cbn [find_loop find_spec]; rewrite E; by repeat case_match.
  - assert (Forall component (rev (c :: cs))) as Hr.
    { apply Forall_forall. intros x Hx. rewrite Forall_forall in Hcs. apply Hcs. apply list_elem_of_In, in_rev.
      by apply list_elem_of_In. }
    destruct fuel as [|fuel]; [simpl in Hf; lia|]. apply Forall_cons in Hcs as [Hc Hcs].
    cbn [find_loop find_spec]. rewrite strip_slashes_path by (done || by intros E%(f_equal length); rewrite length_rev in E).
    destruct (handler_at (route_of (rev (c :: cs))) (length args) hs); [done|]. simpl rev.
    rewrite bool_decide_eq_false_2 by (by apply route_not_root).
    rewrite route_of_cons, after_last_slash_ok by apply Hc. rewrite path_root. apply IH; [done|lia|simpl in Hf; lia].
Qed.

Lemma length_path_of cs : length cs ≤ length (path_of cs).
Proof.
  unfold path_of. induction cs as [|c cs IH]; [done|]. rewrite fmap_cons. cbn [concat]. rewrite length_app. simpl in *. lia.
Qed.

Lemma FindHandler_spec cs n hs : Forall component cs → (cs = [] → 0 < n) →
  FindHandler (path_of cs ++ replicate n "/"%char) hs = find_spec (rev cs) [] hs.
Proof.
  intros Hcs Hn. assert (∃ p, path_of cs ++ replicate n "/"%char = "/"%char :: p) as [p Hp].
  { destruct cs as [|c cs]; [|by eexists]. destruct n; [specialize (Hn eq_refl); lia|by eexists]. }
  unfold FindHandler. rewrite Hp, <- Hp. rewrite <- (rev_involutive cs) at 2. apply find_loop_spec.
  - apply Forall_forall. intros x Hx. rewrite Forall_forall in Hcs. apply Hcs. apply list_elem_of_In, in_rev.
    by apply list_elem_of_In.
  - intros E. apply Hn. by rewrite <- (rev_involutive cs), E.
  - rewrite length_rev, length_app. pose proof (length_path_of cs). lia.
Qed.

(** The longest registered prefix wins, with the other components as arguments. *)
Definition found_at (cs : list bytes) (k : nat) hs : option F := handler_at (route_of (take k cs)) (length cs - k) hs.

Lemma find_spec_result reversed args hs :
  let '(h, a) := find_spec reversed args hs in
  ∃ k, k ≤ length reversed ∧ base_path a = route_of (take k (rev reversed)) ∧
    args_ a = args ++ (Url.DecodeURIComponent <$> take (length reversed - k) reversed) ∧
    h = handler_at (base_path a) (length (args_ a)) hs ∧ (h = None → k = 0) ∧
    ∀ k', k < k' ≤ length reversed → handler_at (route_of (take k' (rev reversed))) (length args + (length reversed - k')) hs = None.
Proof.
  revert args. induction reversed as [|c cs IH]; intros args; simpl find_spec.
  - destruct (handler_at _ _ hs) eqn:Hh; exists 0; simpl in *; rewrite app_nil_r, Hh; split_and!; try done; lia.
  - destruct (handler_at (route_of (rev cs ++ [c])) (length args) hs) as [h|] eqn:Hh; simpl in *.
    + exists (S (length cs)). rewrite take_ge by (rewrite length_app, length_rev; simpl; lia). rewrite Nat.sub_diag. simpl.
      rewrite app_nil_r, Hh. split_and!; try done; lia.
    + specialize (IH (args ++ [Url.DecodeURIComponent c])).
      destruct (find_spec cs (args ++ [Url.DecodeURIComponent c]) hs) as [h a].
      destruct IH as (k & Hk & Hb & Ha & Hr & Hn & Hlong). exists k.
      assert (∀ j, j ≤ length cs → take j (rev cs ++ [c]) = take j (rev cs)) as Htake.
      { intros j Hj. apply take_app_le. rewrite length_rev. lia. }
      rewrite Htake by done. split_and!; [lia|done| |done|done|].
      * rewrite Ha. replace (S (length cs) - k) with (S (length cs - k)) by lia. simpl. by rewrite <- app_assoc.
      * intros k' Hk'. destruct (decide (k' = S (length cs))) as [->|].
        -- rewrite take_ge by (rewrite length_app, length_rev; simpl; lia). by rewrite Nat.sub_diag, Nat.add_0_r.
        -- rewrite Htake by lia. specialize (Hlong k' ltac:(lia)). rewrite length_app in Hlong. simpl in Hlong.
           replace (length args + (S (length cs) - k')) with (length args + 1 + (length cs - k')) by lia. done.
Qed.

End Routes.
End HttpRoutes.
