(* ===== verification/HttpServer.v ===== *)
(** * The HTTP server: blocks/http/request.h, response.h, impl/posix_server.h

    One round of the loop of [HTTPServerPOSIX::Thread]: parse the request of an
    accepted connection (HttpMessage.v), find its handler (HttpRoutes.v), run it
    on a [Request], and destroy the connection, which answers if nobody did
    (HttpConnection.v).  A handler is a function from the request to the calls it
    makes to answer it.  Static files are served by handlers of the library
    itself. *)

From Stdlib Require Import ZArith NArith Lia Ascii String.
From stdpp Require Import base sets gmap list strings.
From S2P Require Import Prelude Persistence Decimal Strings Url PubSub RemoteStream StdMap State Tcp HttpHeaders HttpMessage.
From S2P Require Import HttpParsing HttpConnection HttpRoundTrip HttpRoutes.
Open Scope nat_scope.

Module HttpServer.
Import Http Tcp HttpHeaders HttpParsing HttpConnection HttpRoundTrip HttpRoutes.

(** ** Requests *)

Record Request := mkRequest {
  request_url : Url.URL;
  url_path_had_trailing_slash : bool;
  url_path_args : URLPathArgs;
  request_method : bytes;
  request_headers : Headers;
  request_body : bytes;
  request_timestamp : Z;
}.

(** [s.resize(n)]. *)
Definition resize (n : nat) (s : bytes) : bytes := take n s ++ replicate (n - length s) nul.

Definition set_path (p : bytes) (u : Url.URL) : Url.URL :=
  (Url.mkUrl (Url.host u.1) p (Url.scheme u.1) (Url.port u.1) (Url.username u.1) (Url.password u.1), u.2).

(** [GenericHTTPRequestData::Body]. *)
Definition Body (m : message HTTPDefaultHelper) : bytes := default [] (body m).

Definition make_Request (m : message HTTPDefaultHelper) (a : URLPathArgs) (now : Z) : Request :=
  mkRequest (set_path (resize (length (base_path a)) (Url.path (url m).1)) (url m))
    (last_is_slash (Url.path (url m).1)) a (method m) (headers_ (helper_state m)) (Body m) now.

(** ** Responses as values: struct [Response] *)

Record Response := mkResponse {
  initialized : bool;
  response_body : bytes;
  response_code : HTTPResponseCodeValue;
  response_content_type : bytes;
  response_headers_ : Headers;
  cors_header : bool;
}.
Implicit Type r : Response.

Definition no_response : Response := mkResponse false [] OK kDefaultContentType no_headers true.

(** The forms of [Construct]: from a code, from a string, from an object as JSON;
    [this->headers = headers] copies onto headers that are new. *)
Definition construct (body : bytes) (code : HTTPResponseCodeValue) (content_type : bytes) (hs : option Headers)
    : outcome header_exception Response :=
  hs ← match hs with Some h => copy_assignment h no_headers | None => Ok no_headers end;
  Ok (mkResponse true body code content_type hs true).

Definition named_json (json name : bytes) : bytes := "{"%char :: "034"%char :: name ++ "034"%char :: ":"%char :: json ++ str "}" ++ [newline].

Definition Response_code (code : HTTPResponseCodeValue) (content_type : bytes) (hs : Headers) : outcome header_exception Response :=
  construct [] code content_type (Some hs).
Definition Response_string (s : bytes) (code : HTTPResponseCodeValue) (content_type : option bytes) (hs : option Headers)
    : outcome header_exception Response :=
  construct s code (default kDefaultContentType content_type) hs.
Definition Response_object (json : bytes) (name : option bytes) (code : HTTPResponseCodeValue) (content_type : option bytes)
    (hs : option Headers) : outcome header_exception Response :=
  construct (match name with Some n => named_json json n | None => json ++ [newline] end) code
    (default kDefaultJSONContentType content_type) hs.

(** The setters. *)
Definition with_body (s : bytes) r : Response :=
  mkResponse true s (response_code r) (response_content_type r) (response_headers_ r) (cors_header r).
Definition with_json (json : bytes) r : Response :=
  mkResponse true (json ++ [newline]) (response_code r) kDefaultJSONContentType (response_headers_ r) (cors_header r).
Definition with_named_json (json name : bytes) r : Response :=
  mkResponse true (named_json json name) (response_code r) kDefaultJSONContentType (response_headers_ r) (cors_header r).
Definition with_code (c : HTTPResponseCodeValue) r : Response :=
  mkResponse true (response_body r) c (response_content_type r) (response_headers_ r) (cors_header r).
Definition with_content_type (s : bytes) r : Response :=
  mkResponse true (response_body r) (response_code r) s (response_headers_ r) (cors_header r).
(** [headers = h] copies [h] over the headers that are there. *)
Definition with_headers (h : Headers) r : outcome header_exception Response :=
  hs ← copy_assignment h (response_headers_ r);
  Ok (mkResponse true (response_body r) (response_code r) (response_content_type r) hs (cors_header r)).
Definition with_header (key value : bytes) r : outcome header_exception Response :=
  hs ← Assign key value (response_headers_ r);
  Ok (mkResponse true (response_body r) (response_code r) (response_content_type r) hs (cors_header r)).
Definition with_cookie (name : bytes) (c : Cookie) r : Response :=
  mkResponse true (response_body r) (response_code r) (response_content_type r) (SetCookie name c (response_headers_ r)) (cors_header r).
Definition with_cors (b : bool) r : Response :=
  mkResponse (initialized r) (response_body r) (response_code r) (response_content_type r) (response_headers_ r) b.

(** ** What a handler does *)

Inductive respond_op :=
| RespondWith (body : bytes) (code : option HTTPResponseCodeValue) (headers : option Headers) (content_type : option bytes)
| RespondChunked (code : HTTPResponseCodeValue) (headers : Headers) (content_type : bytes) (chunks : list (bytes * ChunkFlush))
| RespondResponse (r : Response)
| DoNotRespond
| UserException.
(** [DoNotRespond] is [r.connection.DoNotSendAnyResponse()], which does not check
    that the connection is still there; the last one throws [current::Exception]. *)

Definition handler : Type := Request → list respond_op.

(** The connection of a request: [unique_connection], or, once the request was
    moved away and destroyed, what is left of it. *)
Inductive request_connection :=
| Held (sc : ServerConnection)
| Moved (c : Connection).
Implicit Type rc : request_connection.

Abbreviation handling := (io request_connection http_exception).

Definition held {A} (m : serving A) : handling A := λ rc,
  match rc with
  | Held sc => let '(x, sc) := m sc in (x, Held sc)
  | Moved _ => (Throw AttemptedToSendHTTPResponseMoreThanOnce, rc)
  end.

(** The end of a request that was moved into a function. *)
Definition destroy_moved : handling () := λ rc,
  match rc with Held sc => (Ok (), Moved (destroy_connection sc)) | Moved _ => (Ok (), rc) end.

(** [Response::DoRespondViaHTTP], which takes the request by value. *)
Definition DoRespondViaHTTP r : serving () :=
  if initialized r then
    hs ← io_lift HeaderFailed (if cors_header r then h ← copy_constructor (response_headers_ r); SetCORSHeader h
                               else Ok (response_headers_ r));
    Send (response_body r) (Some (response_code r)) (Some hs) (Some (response_content_type r))
  else mret ().

(** The default size of the cache for chunks. *)
Definition CHUNK_CACHE_SIZE : nat := Z.to_nat (1024 * 1024).

Definition run_op (cache_size : nat) (op : respond_op) : handling () :=
  match op with
  | RespondWith b code hs ct => held (Send b code hs ct)
  | RespondChunked code hs ct chunks => held (SendChunked cache_size code hs ct chunks)
  | RespondResponse r => λ rc,
      match held (DoRespondViaHTTP r) rc with
      | (Ok _, rc) => destroy_moved rc
      | (Throw e, Held sc) => (Throw e, Moved (destroy_connection sc))
      | (Throw e, rc) => (Throw e, rc)
      end
  | DoNotRespond => λ rc,
      match rc with
      | Held _ => held DoNotSendAnyResponse rc
      | Moved _ => (Throw DanglingConnection, rc)
      end
  | UserException => throw UserCodeException
  end.

Fixpoint run_ops (cache_size : nat) (ops : list respond_op) : handling () :=
  match ops with
  | [] => mret ()
  | op :: ops => _ ← run_op cache_size op; run_ops cache_size ops
  end.

(** ** The server thread *)

(** The exceptions [Thread] catches are those derived from [current::Exception];
    another one leaves the thread and ends the program. *)
Definition is_current_exception (e : http_exception) : bool :=
  match e with
  | StdOutOfRange | StdLengthError | BufferOverflow | DanglingConnection | HeaderFailed (HeaderFault _) | Assertion _ | OutOfFuel => false
  | _ => true
  end.

Inductive served :=
| Answered (c : Connection)
| ServerDied (e : http_exception).

(** The connection when the request goes out of scope. *)
Definition final_connection rc : Connection :=
  match rc with Held sc => destroy_connection sc | Moved c => c end.

(** The body of the loop, after [Accept]; an exception of the handler is caught
    and logged, and the connection is destroyed either way. *)
Definition serve_connection (scaled : nat → nat) (cache_size : nat) (terminating : bool) (now : Z)
    (handlers : routes handler) (c : Connection) : served :=
  match GenericHTTPRequestData scaled (mkDefaultHelper no_headers []) (16 * 1024 + 1) c with
  | (Throw e, c) => if is_current_exception e then Answered c else ServerDied e
  | (Ok m, c) =>
      if terminating then Answered (final_connection (held DoNotSendAnyResponse (Held (mkServerConnection c false))).2)
      else
        match FindHandler (Url.path (url m).1) handlers with
        | (Some h, args) =>
            let '(x, rc) := run_ops cache_size (h (make_Request m args now)) (Held (mkServerConnection c false)) in
            match x with
            | Throw e => if is_current_exception e then Answered (final_connection rc) else ServerDied e
            | Ok _ => Answered (final_connection rc)
            end
        | (None, _) =>
            Answered (final_connection (held (Send DefaultNotFoundMessage (Some NotFound) (Some no_headers)
              (Some kDefaultHTMLContentType)) (Held (mkServerConnection c false))).2)
        end
  end.

(** ** Answers on a connection that takes everything *)

Definition chunked_text (code : HTTPResponseCodeValue) (hs : Headers) (content_type : bytes) (chunks : list (bytes * ChunkFlush)) : bytes :=
  chunked_head code hs content_type ++ chunks_text chunks ++ last_chunk_text.

Definition internal_error_text : bytes :=
  response_text DefaultInternalServerErrorMessage InternalServerError no_headers kDefaultHTMLContentType.

(** The headers [DoRespondViaHTTP] sends. *)
Definition sent_headers r : Headers :=
  if cors_header r then
    match (h ← copy_constructor (response_headers_ r); SetCORSHeader h) with Ok h => h | Throw _ => no_headers end
  else response_headers_ r.

(** What the first call of a handler puts on the wire, for good. *)
Definition answer_of (ops : list respond_op) : bytes :=
  match ops with
  | RespondWith b code hs ct :: _ => response_text b (default OK code) (default no_headers hs) (default kDefaultContentType ct)
  | RespondChunked code hs ct chunks :: _ => chunked_text code hs ct chunks
  | RespondResponse r :: _ =>
      if initialized r then response_text (response_body r) (response_code r) (sent_headers r) (response_content_type r)
      else internal_error_text
  | DoNotRespond :: _ => []
  | UserException :: _ | [] => internal_error_text
  end.

Definition op_wf (op : respond_op) : Prop :=
  match op with
  | RespondWith _ _ (Some hs) _ | RespondChunked _ hs _ _ => headers_wf hs
  | RespondResponse r => headers_wf (response_headers_ r)
  | _ => True
  end.

(** The connection is not used after the request was moved into [DoRespondViaHTTP]. *)
Fixpoint not_dangling (ops : list respond_op) : bool :=
  match ops with
  | RespondResponse _ :: ((DoNotRespond :: _) as ops) => false
  | _ :: ops => not_dangling ops
  | [] => true
  end.

Lemma io_lift_ok {S E E' A} (f : E → E') (m : outcome E A) (s : S) a : m = Ok a → io_lift f m s = (Ok a, s).
Proof. by intros ->. Qed.

Lemma Send_ok b code hs ct c : headers_wf (default no_headers hs) → accepts c = None →
  Send b code hs ct (mkServerConnection c false) =
  (Ok (), mkServerConnection (wrote (response_text b (default OK code) (default no_headers hs) (default kDefaultContentType ct)) c) true).
Proof.
  intros Hwf Ha. unfold Send. rewrite (io_bind_ok _ _ _ () (mkServerConnection c false)) by done.
  unfold mbind, io_bind, on_connection, SendHTTPResponse. cbn [connection_]. by rewrite SendHTTPResponseImpl_ok by done.
Qed.

Lemma prepare_ok ty code hs ct : headers_wf hs → ∃ os, PrepareHTTPResponseHeader ty code hs ct = Ok os.
Proof. intros Hwf. unfold PrepareHTTPResponseHeader. rewrite iterate_entries by done. by eexists. Qed.

Lemma SendChunked_ok size code hs ct chunks c : headers_wf hs → accepts c = None → ∃ c',
  SendChunked size code hs ct chunks (mkServerConnection c false) = (Ok (), mkServerConnection c' true) ∧
  outgoing c' = outgoing c ++ chunked_text code hs ct chunks.
Proof.
  intros Hwf Ha. destruct (prepare_ok ConnectionKeepAlive code hs ct Hwf) as [os Hos].
  set (head := os ++ str "Transfer-Encoding: chunked" ++ kCRLF ++ kCRLF).
  destruct (send_all_ok size chunks (make_Impl (wrote head c))) as (i & Hi & Hok & Hs).
  { split; [done|done|simpl; lia]. }
  exists (destroy_Impl i). split.
  - unfold SendChunked. rewrite (io_bind_ok _ _ _ () (mkServerConnection c false)) by done.
    rewrite (io_bind_ok _ _ _ () (mkServerConnection c true)) by done.
    rewrite (io_bind_ok _ _ _ _ _ (io_lift_ok _ _ _ _ Hos)). fold head.
    erewrite io_bind_ok by (unfold on_connection; cbn [connection_]; by rewrite write_ok).
    unfold on_connection. cbn [connection_ responded_]. by rewrite Hi.
  - rewrite (destroy_Impl_ok size i Hok), Hs. unfold chunked_text, chunked_head. rewrite Hos. fold head.
    unfold sent. cbn [wire data_cache_ make_Impl outgoing wrote]. by rewrite app_nil_r, <- !app_assoc.
Qed.

Lemma sent_headers_ok r : headers_wf (response_headers_ r) →
  (if cors_header r then h ← copy_constructor (response_headers_ r); SetCORSHeader h else Ok (response_headers_ r)) =
  Ok (sent_headers r) ∧ headers_wf (sent_headers r).
Proof.
  intros Hwf. unfold sent_headers. destruct (cors_header r); [|done].
  destruct (copy_constructor_ok (response_headers_ r) Hwf) as (h & -> & Hh & _). unfold mbind, outcome_bind.
  destruct (Set_ok kCORSHeaderName (str "*") h Hh) as (h' & Hs & Hh' & _); [done|done|].
  unfold SetCORSHeader. by rewrite Hs.
Qed.

Lemma DoRespondViaHTTP_ok r c : headers_wf (response_headers_ r) → accepts c = None →
  DoRespondViaHTTP r (mkServerConnection c false) =
  if initialized r then
    (Ok (), mkServerConnection (wrote (response_text (response_body r) (response_code r) (sent_headers r) (response_content_type r)) c) true)
  else (Ok (), mkServerConnection c false).
Proof.
  intros Hwf Ha. unfold DoRespondViaHTTP. destruct (initialized r); [|done].
  destruct (sent_headers_ok r Hwf) as [Hs Hwf'].
  rewrite (io_bind_ok _ _ _ _ _ (io_lift_ok HeaderFailed _ (mkServerConnection c false) _ Hs)). by rewrite Send_ok.
Qed.

Lemma destroy_connection_ok c : accepts c = None →
  destroy_connection (mkServerConnection c false) = wrote internal_error_text c.
Proof.
  intros Ha. unfold destroy_connection, SendHTTPResponse. cbn [responded_ connection_].
  by rewrite SendHTTPResponseImpl_ok by (done || apply no_headers_wf).
Qed.

(** The handler is done with the connection, which is left as [c]. *)
Definition settled c (x : outcome http_exception () * request_connection) : Prop :=
  final_connection x.2 = c ∧ ∀ e, x.1 = Throw e → is_current_exception e = true.

Lemma settled_throw c size op ops rc e rc' : run_op size op rc = (Throw e, rc') → final_connection rc' = c →
  is_current_exception e = true → settled c (run_ops size (op :: ops) rc).
Proof.
  intros Hop Hc He. cbn [run_ops]. rewrite (io_bind_throw _ _ _ _ _ Hop). split; [done|]. by intros ? [= <-].
Qed.

(** Once the request is gone, only using its connection does harm. *)
Lemma after_move size ops c : head ops ≠ Some DoNotRespond → settled c (run_ops size ops (Moved c)).
Proof.
  intros Hh. destruct ops as [|[| | | |] ops]; [by split| | | |done|]; by eapply settled_throw.
Qed.

Lemma not_dangling_head r ops : not_dangling (RespondResponse r :: ops) = true → head ops ≠ Some DoNotRespond.
Proof. destruct ops as [|[] ops]; simpl; congruence. Qed.

(** Whatever comes after an answer changes nothing. *)
Lemma after_answer size ops c : Forall op_wf ops → not_dangling ops = true →
  settled c (run_ops size ops (Held (mkServerConnection c true))).
Proof.
  destruct ops as [|[| |r| |] ops]; intros Hwf Hd; [by split|by eapply settled_throw|by eapply settled_throw| |by eapply settled_throw|by eapply settled_throw].
  apply Forall_cons in Hwf as [Hwf _]. destruct (initialized r) eqn:Hr.
  - apply (settled_throw c _ _ _ _ AttemptedToSendHTTPResponseMoreThanOnce (Moved c)); [|done..]. cbn [run_op held]. unfold DoRespondViaHTTP. rewrite Hr.
    destruct (sent_headers_ok r Hwf) as [Hs _].
    by rewrite (io_bind_ok _ _ _ _ _ (io_lift_ok HeaderFailed _ (mkServerConnection c true) _ Hs)).
  - cbn [run_ops]. rewrite (io_bind_ok _ _ _ () (Moved c)); [by apply after_move, (not_dangling_head r)|].
    cbn [run_op held]. unfold DoRespondViaHTTP. by rewrite Hr.
Qed.

(** The first call decides. *)
Lemma run_ops_ok size ops c : accepts c = None → Forall op_wf ops → not_dangling ops = true → ∃ c',
  settled c' (run_ops size ops (Held (mkServerConnection c false))) ∧ outgoing c' = outgoing c ++ answer_of ops.
Proof.
  intros Ha Hwf Hd. assert (final_connection (Held (mkServerConnection c false)) = wrote internal_error_text c) as Hfin
    by (by apply destroy_connection_ok).
  destruct ops as [|op ops]; [by exists (wrote internal_error_text c)|].
  apply Forall_cons in Hwf as [Hop Hwf]. destruct op as [b code hs ct|code hs ct chunks|r| |].
  - exists (wrote (answer_of (RespondWith b code hs ct :: ops)) c). split; [|done]. cbn [run_ops].
    erewrite io_bind_ok by (cbn [run_op held]; rewrite Send_ok; [done| |done]; destruct hs; [done|apply no_headers_wf]).
    by apply after_answer.
  - destruct (SendChunked_ok size code hs ct chunks c Hop Ha) as (c' & Hs & Ho). exists c'. split; [|done].
    cbn [run_ops]. erewrite io_bind_ok by (cbn [run_op held]; by rewrite Hs). by apply after_answer.
  - cbn [answer_of]. set (text := if initialized r then _ else _). exists (wrote text c). split; [|done].
    cbn [run_ops]. rewrite (io_bind_ok _ _ _ () (Moved (wrote text c))); [by apply after_move, (not_dangling_head r)|].
    cbn [run_op held]. rewrite DoRespondViaHTTP_ok by done. unfold text. destruct (initialized r); [done|].
    cbn [destroy_moved]. by rewrite destroy_connection_ok.
  - exists c. split; [by apply (after_answer size ops c Hwf)|]. by rewrite app_nil_r.
  - exists (wrote internal_error_text c). split; [|done]. by eapply settled_throw.
Qed.

(** ** One round of the server *)

(** What a request is answered with, given its text: nothing for a request that is
    not complete, and no answer at all ([None]) for one that ends the server. *)
Definition serve_text (terminating : bool) (now : Z) (handlers : routes handler) (text : bytes) : option bytes :=
  match parse_text (mkDefaultHelper no_headers []) text with
  | Truncated => Some []
  | NegativeChunk => None
  | Refused r => if is_current_exception (exception r) then Some (answer_text r) else None
  | Parsed m =>
      Some (if terminating then []
            else match FindHandler (Url.path (url m).1) handlers with
                 | (Some h, args) => answer_of (h (make_Request m args now))
                 | (None, _) => response_text DefaultNotFoundMessage NotFound no_headers kDefaultHTMLContentType
                 end)
  end.

Definition handler_wf (h : handler) : Prop := ∀ r : Request, Forall op_wf (h r) ∧ not_dangling (h r) = true.

Definition handlers_wf (handlers : routes handler) : Prop := ∀ path i h, handler_at path i handlers = Some h → handler_wf h.

Definition served_as (out : bytes) (expected : option bytes) (s : served) : Prop :=
  match s, expected with
  | Answered c, Some text => outgoing c = out ++ text
  | ServerDied _, None => True
  | _, _ => False
  end.

Lemma find_loop_found {F} (fuel : nat) (path : bytes) (args : list bytes) (hs : routes F) (h : F) (a : URLPathArgs) : find_loop fuel path args hs = (Some h, a) →
  ∃ path i, handler_at path i hs = Some h.
Proof.
  revert path args. induction fuel as [|fuel IH]; intros path args; cbn [find_loop].
  - destruct (handler_at _ _ hs) eqn:Hh; [intros [= <- _]; eauto|]. by case_match.
  - destruct (handler_at _ _ hs) eqn:Hh; [intros [= <- _]; eauto|]. case_match; [done|].
    destruct (after_last_slash _). apply IH.
Qed.

Lemma FindHandler_found {F} (path : bytes) (hs : routes F) (h : F) (a : URLPathArgs) : FindHandler path hs = (Some h, a) →
  ∃ path i, handler_at path i hs = Some h.
Proof. unfold FindHandler. repeat case_match; try done. apply find_loop_found. Qed.

Lemma serve_connection_ok scaled size terminating now handlers c : (∀ n, scaled n ≤ 2 * n) → handlers_wf handlers → conn_ok c →
  (Z.of_nat (length (concat (incoming c))) <= 2 ^ 60)%Z →
  served_as (outgoing c) (serve_text terminating now handlers (concat (incoming c)))
    (serve_connection scaled size terminating now handlers c).
Proof.
  intros Hsc Hh Hc Ht. unfold serve_connection, serve_text.
  destruct (constructor_ok scaled Hsc (mkDefaultHelper no_headers []) (16 * 1024 + 1) c) as (res & c1 & E & Hag); [done|lia|lia|done|].
  assert (accepts c1 = None) as Ha.
  { pose proof (keeps_constructor scaled (mkDefaultHelper no_headers []) (16 * 1024 + 1) c (conn_accepts c Hc)) as Hk.
    by rewrite E in Hk. }
  rewrite E. destruct (parse_text _ _) as [m| | |r].
  - destruct Hag as [-> Ho]. destruct terminating; [cbn [served_as]; by rewrite app_nil_r|].
    destruct (FindHandler _ handlers) as [[h|] args] eqn:Hf.
    + destruct (FindHandler_found _ _ _ _ Hf) as (path & i & Hat). destruct (Hh _ _ _ Hat (make_Request m args now)) as [Hw Hd].
      destruct (run_ops_ok size _ c1 Ha Hw Hd) as (c2 & [Hs1 Hs2] & Hs3).
      destruct (run_ops _ _ _) as [[[]|e] rc]; simpl in *; [by rewrite <- Ho, <- Hs3, <- Hs1|].
      rewrite (Hs2 e eq_refl). cbn [served_as]. by rewrite <- Ho, <- Hs3, <- Hs1.
    + cbn [held]. rewrite Send_ok by (done || apply no_headers_wf). simpl. by rewrite <- Ho.
  - destruct Hag as (e & -> & Hl & Ho). cbn [is_current_exception served_as]. by rewrite Ho, app_nil_r.
  - destruct Hag as [[->| ->] _]; done.
  - destruct Hag as [-> Ho]. by destruct (is_current_exception (exception r)).
Qed.

(** ** Static files *)

Definition mime_types : list (string * string) :=
  [("js", "application/javascript"); ("json", "application/json; charset=utf-8"); ("css", "text/css"); ("html", "text/html");
   ("htm", "text/html"); ("txt", "text/plain"); ("map", "application/json; charset=utf-8"); ("png", "image/png");
   ("jpg", "image/jpeg"); ("jpeg", "image/jpeg"); ("gif", "image/gif"); ("ico", "image/x-icon"); ("svg", "image/svg+xml")]%string.

(** [FileSystem::GetFileExtension], on the reversed name: what follows the last of "/", "\" and ".". *)
Fixpoint extension_reversed (s : bytes) (acc : bytes) : bytes :=
  match s with
  | [] => []
  | c :: s' =>
      if bool_decide (c = "."%char) then acc
      else if bool_decide (c = "/"%char) || bool_decide (c = "\"%char) then [] else extension_reversed s' (c :: acc)
  end.

Definition GetFileExtension (file_name : bytes) : bytes := extension_reversed (rev file_name) [].

Fixpoint mime_lookup (types : list (string * string)) (extension default_type : bytes) : bytes :=
  match types with
  | [] => default_type
  | (e, t) :: types => if bool_decide (str e = extension) then str t else mime_lookup types extension default_type
  end.

Definition GetFileMimeType (file_name default_type : bytes) : bytes :=
  mime_lookup mime_types (ToLower (GetFileExtension file_name)) default_type.

Record StaticFileServer := mkStaticFileServer {
  content : bytes;
  content_type : bytes;
  serves_directory : bool;
  trailing_slash_redirect_url : bytes;
}.

(** [StaticFileServer::operator()]. *)
Definition serve_static (f : StaticFileServer) : handler := λ (r : Request),
  if bool_decide (request_method r = str "GET") then
    if bool_decide (serves_directory f = url_path_had_trailing_slash r) then
      [RespondWith (content f) (Some OK) (Some no_headers) (Some (content_type f))]
    else if negb (serves_directory f) && url_path_had_trailing_slash r then
      [RespondWith DefaultNotFoundMessage (Some NotFound) (Some no_headers) (Some kDefaultHTMLContentType)]
    else
      match from_pairs [(str "Location", trailing_slash_redirect_url f)] no_headers with
      | Ok hs => [RespondWith [] (Some Found) (Some hs) (Some (content_type f))]
      | Throw _ => [UserException]
      end
  else [RespondWith DefaultMethodNotAllowedMessage (Some MethodNotAllowed) (Some no_headers) (Some kDefaultHTMLContentType)].

(** A file found by [ScanDir]: its directory below the root, its name, and what is in it. *)
Record scanned_file := mkScanned { path_components : list bytes; basename : bytes; file_content : bytes }.

Record ServeStaticFilesFromOptions := mkOptions {
  route_prefix : bytes;
  public_url_prefix : bytes;
  index_filenames : list bytes;
}.

Definition make_options (route_prefix public_url_prefix : bytes) (index_filenames : list bytes) : ServeStaticFilesFromOptions :=
  mkOptions route_prefix (match public_url_prefix with [] => route_prefix | p => p end) index_filenames.

Definition slash_unless (b : bool) : bytes := if b then [] else ["/"%char].

Definition route_for_directory (o : ServeStaticFilesFromOptions) (f : scanned_file) : bytes :=
  route_prefix o ++
  slash_unless (bool_decide (route_prefix o = ["/"%char]) || bool_decide (path_components f = [])) ++
  Join (path_components f) ["/"%char].

Fixpoint contains_hidden (s : bytes) : bool :=
  match s with
  | c :: ((d :: _) as s') => (bool_decide (c = "/"%char) && bool_decide (d = "."%char)) || contains_hidden s'
  | _ => false
  end.

Definition route_for_file (directory : bytes) (f : scanned_file) : bytes :=
  directory ++ slash_unless (bool_decide (directory = ["/"%char])) ++ basename f.

(** The handlers of the server, and the scope of the scan, which the lambda
    captures by reference. *)
Record scan := mkScan { scan_handlers : routes handler; scan_scope : HTTPRoutesScope }.

Abbreviation scanning := (io scan route_exception).

(** [scope += Register(path, server)]. *)
Definition register_scoped (path : bytes) (server : StaticFileServer) : scanning () := λ s,
  match Register ThrowOnAttempt path None (serve_static server) (scan_handlers s) with
  | (Ok rhs, hs) => (Ok (), mkScan hs (scope_add (scan_scope s) rhs))
  | (Throw e, hs) => (Throw e, mkScan hs (scan_scope s))
  end.

Definition route_assert (b : bool) : scanning () := io_lift RouteAssertion (CURRENT_ASSERT b).

(** The route without the filename, for an index file. *)
Definition serve_index (o : ServeStaticFilesFromOptions) (f : scanned_file) (directory type : bytes) : scanning () :=
  _ ← (λ s, (if bool_decide (is_Some (scan_handlers s !! directory))
             then throw (ServeStaticFilesFromCannotServeMoreThanOneIndexFile directory (basename f)) else mret ()) s);
  let redirect := public_url_prefix o ++ slash_unless (last_is_slash (public_url_prefix o)) ++
    (match path_components f with [] => [] | cs => Join cs ["/"%char] ++ ["/"%char] end) in
  _ ← route_assert (last_is_slash redirect);
  register_scoped directory (mkStaticFileServer (file_content f) type true redirect).

(** The lambda of [ServeStaticFilesFrom]. *)
Definition serve_file (o : ServeStaticFilesFromOptions) (f : scanned_file) : scanning () :=
  if bool_decide (head (basename f) = Some "."%char) then mret ()
  else match GetFileMimeType (basename f) [] with
       | [] => throw (ServeStaticFilesFromCanNotServeStaticFilesOfUnknownMIMEType (basename f))
       | type =>
           let directory := route_for_directory o f in
           _ ← route_assert (bool_decide (directory = ["/"%char]) ||
                 (bool_decide (head directory = Some "/"%char) && negb (last_is_slash directory)));
           if contains_hidden directory then mret ()
           else
             let file := route_for_file directory f in
             _ ← route_assert (bool_decide (head file = Some "/"%char) && negb (last_is_slash file));
             _ ← (if bool_decide (basename f ∈ index_filenames o) then serve_index o f directory type else mret ());
             register_scoped file (mkStaticFileServer (file_content f) type false [])
       end.

Fixpoint serve_files (o : ServeStaticFilesFromOptions) (files : list scanned_file) : scanning () :=
  match files with
  | [] => mret ()
  | f :: files => _ ← serve_file o f; serve_files o files
  end.

(** An exception leaves through the scope, whose destructor unregisters what it has. *)
Definition ServeStaticFilesFrom (o : ServeStaticFilesFromOptions) (files : list scanned_file)
    : io (routes handler) route_exception HTTPRoutesScope := λ hs,
  match ValidateRoute (route_prefix o) with
  | Throw e => (Throw e, hs)
  | Ok _ =>
      match serve_files o files (mkScan hs []) with
      | (Ok _, s) => (Ok (scan_scope s), scan_handlers s)
      | (Throw e, s) => (Throw e, (ReleaseCaptured (scan_scope s) (scan_handlers s)).2)
      end
  end.

(** *** The scope of a scan *)

(** Releasing the scope leads back to the handlers [hs]. *)
Definition leads_back (hs : routes handler) (s : scan) : Prop :=
  routes_wf (scan_handlers s) ∧ ReleaseCaptured (scan_scope s) (scan_handlers s) = (Ok (), hs).

Lemma release_app {F} (l1 l2 : HTTPRoutesScope) (hs hs' : routes F) : release l1 hs = (Ok (), hs') → release (l1 ++ l2) hs = release l2 hs'.
Proof.
  revert hs. induction l1 as [|[path mask] l1 IH]; intros hs; [by intros [= ->]|]. simpl.
  destruct (UnRegister path mask hs) as [[[]|] hs1] eqn:Hu.
  - rewrite !(io_bind_ok _ _ _ _ _ Hu). apply IH.
  - by rewrite !(io_bind_throw _ _ _ _ _ Hu).
Qed.

Lemma has_count_None : has_count mask_None 0 = true ∧ 0 ∈ all_counts.
Proof. split; [done|]. apply list_elem_of_here. Qed.

Lemma Register_throws {F} (policy : ReRegisterRoute) (path : bytes) (mask : option CountMask) (h : F) (hs hs' : routes F) e : Register policy path mask h hs = (Throw e, hs') → hs' = hs.
Proof. unfold Register, DoRegisterHandler. repeat case_match; intros [=]; congruence. Qed.

Lemma keeps_register_scoped hs path server : keeps (leads_back hs) (register_scoped path server).
Proof.
  intros s [Hwf Hr]. unfold register_scoped.
  destruct (Register _ _ _ _ _) as [[rhs|e] hs'] eqn:E; [|by apply Register_throws in E as ->].
  destruct has_count_None as [Hn H0].
  pose proof (register_release _ _ _ _ _ _ 0 Hwf H0 Hn ltac:(done) E) as Hrel. split; simpl.
  - by apply (register_wf _ _ _ _ _ _ _ 0 Hwf H0 Hn E).
  - unfold ReleaseCaptured, scope_add in *. rewrite rev_app_distr. by rewrite (release_app _ _ _ _ Hrel).
Qed.

#[local] Hint Resolve keeps_register_scoped : keeps.

Lemma keeps_serve_index hs o f directory type : keeps (leads_back hs) (serve_index o f directory type).
Proof.
  unfold serve_index, route_assert. apply keeps_bind; [|keeps_tac].
  apply (keeps_eta _ (λ s, if bool_decide (is_Some (scan_handlers s !! directory)) then throw _ else mret ())). keeps_tac.
Qed.

#[local] Hint Resolve keeps_serve_index : keeps.

Lemma keeps_serve_files hs o files : keeps (leads_back hs) (serve_files o files).
Proof.
  induction files as [|f files IH]; [apply keeps_ret|]. cbn [serve_files]. apply keeps_bind; [|done].
  unfold serve_file, route_assert. keeps_tac.
Qed.

(** *** What is served *)

(** Neither the file nor its directory is hidden. *)
Definition visible (o : ServeStaticFilesFromOptions) (f : scanned_file) : bool :=
  negb (bool_decide (head (basename f) = Some "."%char)) && negb (contains_hidden (route_for_directory o f)).

Definition file_server (f : scanned_file) : StaticFileServer :=
  mkStaticFileServer (file_content f) (GetFileMimeType (basename f) []) false [].

Definition serves (path : bytes) (server : StaticFileServer) (s : scan) : Prop :=
  handler_at path 0 (scan_handlers s) = Some (serve_static server).

Lemma register_scoped_ok path server s s' : register_scoped path server s = (Ok (), s') → serves path server s'.
Proof.
  unfold register_scoped. destruct (Register _ _ _ _ _) as [[rhs|e] hs'] eqn:E; [|done]. intros [= <-].
  destruct (DoRegisterHandler_ok _ _ mask_None _ _ _ _ ltac:(done) E) as (_ & _ & Hat & _). unfold serves. cbn [scan_handlers].
  rewrite Hat. unfold selected. destruct has_count_None as [-> H0]. by rewrite !bool_decide_eq_true_2.
Qed.

Lemma keeps_serves path server path' server' : keeps (serves path server) (register_scoped path' server').
Proof.
  intros s Hs. unfold register_scoped. destruct (Register _ _ _ _ _) as [[rhs|e] hs'] eqn:E; [|by apply Register_throws in E as ->].
  destruct (DoRegisterHandler_ok _ _ mask_None _ _ _ _ ltac:(done) E) as (_ & _ & Hat & Hold). unfold serves in *. simpl in *.
  rewrite Hat. destruct (selected _ _ _ path 0) eqn:Hsel; [|done]. unfold selected in Hsel.
  apply andb_true_iff in Hsel as [->%bool_decide_eq_true _]. destruct has_count_None as [Hn H0].
  by rewrite (Hold 0 H0 Hn) in Hs.
Qed.

#[local] Hint Resolve keeps_serves : keeps.

Lemma keeps_serves_index path server o f directory type : keeps (serves path server) (serve_index o f directory type).
Proof.
  unfold serve_index, route_assert. apply keeps_bind; [|keeps_tac].
  apply (keeps_eta _ (λ s, if bool_decide (is_Some (scan_handlers s !! directory)) then throw _ else mret ())). keeps_tac.
Qed.

#[local] Hint Resolve keeps_serves_index : keeps.

Lemma keeps_serves_files path server o files : keeps (serves path server) (serve_files o files).
Proof.
  induction files as [|f files IH]; [apply keeps_ret|]. cbn [serve_files]. apply keeps_bind; [|done].
  unfold serve_file, route_assert. keeps_tac.
Qed.

Lemma io_bind_inv {S E A B} (m : io S E A) (f : A → io S E B) s b s' : (m ≫= f) s = (Ok b, s') →
  ∃ a s1, m s = (Ok a, s1) ∧ f a s1 = (Ok b, s').
Proof. unfold mbind, io_bind. destruct (m s) as [[a|] s1]; [|done]. intros ?. by exists a, s1. Qed.

Lemma serve_file_ok o f s s' : visible o f = true → serve_file o f s = (Ok (), s') →
  serves (route_for_file (route_for_directory o f) f) (file_server f) s'.
Proof.
  unfold visible, serve_file, file_server. intros [->%negb_true_iff ->%negb_true_iff]%andb_true_iff.
  destruct (GetFileMimeType (basename f) []) as [|x type]; [done|].
  intros (? & s1 & _ & (? & s2 & _ & (? & s3 & _ & E)%io_bind_inv)%io_bind_inv)%io_bind_inv.
  by apply register_scoped_ok in E.
Qed.

Lemma serve_files_ok o files s s' f : f ∈ files → visible o f = true → serve_files o files s = (Ok (), s') →
  serves (route_for_file (route_for_directory o f) f) (file_server f) s'.
Proof.
  revert s. induction files as [|g files IH]; intros s Hf Hv; [by apply elem_of_nil in Hf|]. cbn [serve_files].
  intros ([] & s1 & E1 & E2)%io_bind_inv. apply elem_of_cons in Hf as [->|Hf]; [|by apply (IH s1)].
  pose proof (keeps_serves_files _ _ o files s1 (serve_file_ok _ _ _ _ Hv E1)) as Hk. by rewrite E2 in Hk.
Qed.

End HttpServer.
