(* ===== verification/HttpClient.v ===== *)
(** * The HTTP client: blocks/http/types.h, impl/posix_client.h, chunked_response_parser.h

    [GenericHTTPClientPOSIX::Go] connects, writes the request, parses the response
    with the parser of HttpMessage.v, and follows redirects until a URL repeats.
    [HTTP(request)] prepares the client from a request and takes the response out
    of it.  [ChunkedGET] and [ChunkedPOST] call the user back while the response is
    received, for each chunk or for each line.  The other end of the connections is
    a parameter ([network]); HttpExchange.v puts the server of HttpServer.v there. *)

From Stdlib Require Import ZArith NArith Lia Ascii String.
From stdpp Require Import base sets gmap list strings.
From S2P Require Import Prelude Persistence Decimal Strings Url PubSub RemoteStream StdMap State Tcp GroupByLines HttpHeaders HttpMessage.
Open Scope nat_scope.

Module HttpClient.
Import Http Tcp HttpHeaders GroupByLines.

(** ** The client *)

Inductive client_exception :=
| ExchangeFailed (e : http_exception)
| SocketConnectException
| HTTPRedirectLoopException (all_urls : gset bytes) (url : bytes)
| HTTPRedirectNotAllowedException
| TooManyRedirects.

Record Client := mkClient {
  request_method_ : bytes;
  request_url_ : bytes;
  request_body_content_type_ : bytes;
  request_body_contents_ : bytes;
  request_user_agent_ : bytes;
  request_headers_ : Headers;
  allow_redirects_ : bool;
}.
Implicit Type cl : Client.

(** What is at the other end of a connection: how much it takes before it closes
    it, and what it sends in answer to what it got. *)
Record peer := mkPeer {
  takes : option nat;
  replies : bytes → list bytes;
  resets : bool;
  interrupts : bool;
}.

(** Who answers at a host and a port when the n-th connection is made. *)
Definition network : Type := nat → bytes → Z → option peer.

(** *** Writing the request *)

(** [for (const auto& h : request_headers_)] and the cookies. *)
Fixpoint write_lines (lines : list bytes) : http () :=
  match lines with
  | [] => mret ()
  | l :: lines => _ ← write_ (l ++ kCRLF); write_lines lines
  end.

Definition optional (b : bool) (line : bytes) : list bytes := if b then [line] else [].

Definition nonempty (s : bytes) : bool := negb (bool_decide (s = [])).

Definition write_body cl : http () := λ c,
  match (_ ← write_ (str "Content-Length: " ++ RemoteStream.ToString_uint64 (N.of_nat (length (request_body_contents_ cl))) ++ kCRLF);
         _ ← write_ kCRLF;
         write_ (request_body_contents_ cl)) c with
  | (Throw (SocketFailed SocketWriteException) as e, c')
  | (Throw (SocketFailed SocketCouldNotWriteEverythingException) as e, c') =>
      if (Z.of_nat (length (request_body_contents_ cl)) <=? kMaxHTTPPayloadSizeInBytes)%Z then (e, c') else (Ok (), c')
  | r => r
  end.

Definition has_body cl : bool := nonempty (request_body_contents_ cl) || NeedContentLengthHeader (request_method_ cl).

Definition write_request cl (u : Url.URL) : http () :=
  _ ← write_ (request_method_ cl ++ " "%char :: Url.path u.1 ++ Url.ComposeParameters u.2 ++ str " HTTP/1.1" ++ kCRLF);
  _ ← write_ (str "Host: " ++ Url.host u.1 ++ kCRLF);
  _ ← write_lines (optional (nonempty (request_user_agent_ cl)) (str "User-Agent: " ++ request_user_agent_ cl));
  hs ← io_lift HeaderFailed (all_headers (request_headers_ cl));
  _ ← write_lines ((λ h, h.1 ++ str ": " ++ h.2) <$> hs);
  _ ← write_lines (optional (negb (bool_decide (cookies (request_headers_ cl) = [])))
                     (str "Cookie: " ++ CookiesAsString (request_headers_ cl)));
  _ ← write_lines (optional (nonempty (request_body_content_type_ cl)) (str "Content-Type: " ++ request_body_content_type_ cl));
  if has_body cl then write_body cl else write_ kCRLF.

(** *** The response *)

Definition connect_port (u : Url.URL) : Z :=
  if (Url.port u.1 =? 0)%Z then
    (if Url.DefaultPortForScheme (Url.scheme u.1) =? 0 then 80 else Url.DefaultPortForScheme (Url.scheme u.1))%Z
  else Url.port u.1.

Section Go.
Context {H : Type} `{Helper H} (location_of : H → bytes) (params_ : H) (scaled : nat → nat) (net : network).

(** One connection. *)
Definition exchange cl (u : Url.URL) (p : peer) : outcome http_exception (message H) :=
  match write_request cl u (mkConnection [] (resets p) (interrupts p) [] (takes p)) with
  | (Throw e, _) => Throw e
  | (Ok _, c) => (GenericHTTPRequestData scaled params_ (16 * 1024 + 1) (set_incoming (replies p (outgoing c)) c)).1
  end.

Record client_output := mkOutput {
  response_code_ : HTTPResponseCodeValue;
  response_url_after_redirects_ : bytes;
  http_request_ : message H;
}.

Definition client_lift {E A} (f : E → client_exception) (m : outcome E A) : outcome client_exception A :=
  match m with Ok a => Ok a | Throw e => Throw (f e) end.

Definition response_code_of (m : message H) : Z := Url.atoi (raw_path m).

(** The condition of a redirect. *)
Definition is_redirect (m : message H) : bool :=
  ((300 <=? response_code_of m) && (response_code_of m <=? 399))%Z && nonempty (location_of (helper_state m)).

(** The loop; [n] counts the connections. *)
Fixpoint go_loop (fuel : nat) cl (n : nat) (all_urls : gset bytes) (u : Url.URL) (after_redirects : bytes)
    : outcome client_exception client_output :=
  match fuel with
  | O => Throw TooManyRedirects
  | S fuel =>
      let composed_url := Url.ComposeURL u in
      if bool_decide (composed_url ∈ all_urls) then Throw (HTTPRedirectLoopException all_urls composed_url)
      else match net n (Url.host u.1) (connect_port u) with
           | None => Throw SocketConnectException
           | Some p =>
               m ← client_lift ExchangeFailed (exchange cl u p);
               if is_redirect m then
                 if negb (allow_redirects_ cl) then Throw HTTPRedirectNotAllowedException
                 else
                   target ← client_lift (ExchangeFailed ∘ MalformedURL) (Url.make_URL (location_of (helper_state m)));
                   let redirected := Url.MakeRedirectedURL u target in
                   go_loop fuel cl (S n) ({[composed_url]} ∪ all_urls) redirected (Url.ComposeURL redirected)
               else Ok (mkOutput (response_code_of m) after_redirects m)
           end
  end.

Definition Go (fuel : nat) cl : outcome client_exception client_output :=
  u ← client_lift (ExchangeFailed ∘ MalformedURL) (Url.make_URL (request_url_ cl));
  go_loop fuel cl 0 ∅ u (request_url_ cl).

(** *** Redirects within a finite set of URLs *)

(** Every redirect leads to a URL of the set. *)
Definition redirects_within cl (urls : gset bytes) : Prop := ∀ n u p m target,
  Url.ComposeURL u ∈ urls → net n (Url.host u.1) (connect_port u) = Some p → exchange cl u p = Ok m → is_redirect m = true →
  Url.make_URL (location_of (helper_state m)) = Ok target → Url.ComposeURL (Url.MakeRedirectedURL u target) ∈ urls.

Lemma go_loop_ends cl urls fuel n all_urls u after : redirects_within cl urls → all_urls ⊆ urls → Url.ComposeURL u ∈ urls →
  size (urls ∖ all_urls) < fuel → go_loop fuel cl n all_urls u after ≠ Throw TooManyRedirects.
Proof.
  intros Hr. revert n all_urls u after. induction fuel as [|fuel IH]; intros n all_urls u after Hsub Hu Hf; [lia|]. simpl.
  case_bool_decide as Hin; [done|]. destruct (net n _ _) as [p|] eqn:Hp; [|done].
  destruct (exchange cl u p) as [m|] eqn:Hm; [|done]. cbn [client_lift]. unfold mbind, outcome_bind.
  destruct (is_redirect m) eqn:Hred; [|done]. destruct (allow_redirects_ cl); [|done]. simpl.
  destruct (Url.make_URL _) as [target|] eqn:Ht; [|done]. simpl. apply IH.
  - set_solver.
  - by eapply Hr.
  - enough (size (urls ∖ ({[Url.ComposeURL u]} ∪ all_urls)) < size (urls ∖ all_urls)) by lia.
    apply subset_size. split; [set_solver|]. intros Hs. specialize (Hs (Url.ComposeURL u)). set_solver.
Qed.

(** A redirect is followed only if it is allowed. *)
Lemma go_loop_not_allowed cl fuel n all_urls u after o : allow_redirects_ cl = false →
  go_loop fuel cl n all_urls u after = Ok o → response_url_after_redirects_ o = after ∧ is_redirect (http_request_ o) = false.
Proof.
  intros Ha. destruct fuel as [|fuel]; [done|]. simpl. case_bool_decide; [done|]. destruct (net n _ _) as [p|]; [|done].
  destruct (exchange cl u p) as [m|]; [|done]. simpl. destruct (is_redirect m) eqn:Hm; rewrite ?Ha; simpl; [done|].
  by intros [= <-].
Qed.

End Go.
Arguments client_output : clear implicits.

(** ** Requests as values *)

(** [HTTPRequestBase]. *)
Record HTTPRequestBase := mkRequestBase {
  base_url : bytes;
  custom_user_agent : bytes;
  custom_headers : Headers;
  allow_redirects : bool;
}.
Implicit Type b : HTTPRequestBase.

Definition make_RequestBase (url : bytes) : HTTPRequestBase := mkRequestBase url [] no_headers false.
Definition UserAgent (agent : bytes) b : HTTPRequestBase :=
  mkRequestBase (base_url b) agent (custom_headers b) (allow_redirects b).
Definition AllowRedirects (setting : bool) b : HTTPRequestBase :=
  mkRequestBase (base_url b) (custom_user_agent b) (custom_headers b) setting.
Definition SetHeader (key value : bytes) b : outcome header_exception HTTPRequestBase :=
  hs ← Set_ key value (custom_headers b);
  Ok (mkRequestBase (base_url b) (custom_user_agent b) hs (allow_redirects b)).
Definition SetRequestCookie (cookie value : bytes) b : HTTPRequestBase :=
  mkRequestBase (base_url b) (custom_user_agent b) (SetCookie_value cookie value (custom_headers b)) (allow_redirects b).

Inductive request :=
| GET (b : HTTPRequestBase)
| HEAD (b : HTTPRequestBase)
| POST (b : HTTPRequestBase) (body content_type : bytes)
| PUT (b : HTTPRequestBase) (body content_type : bytes)
| PATCH (b : HTTPRequestBase) (body content_type : bytes)
| DELETE (b : HTTPRequestBase).

(** [FillBody], for strings and for objects given as JSON. *)
Definition fill_string (body content_type : bytes) : bytes * bytes :=
  (body, match content_type with [] => kDefaultContentType | t => t end).
Definition fill_json (json content_type : bytes) : bytes * bytes :=
  (json, match content_type with [] => kDefaultJSONContentType | t => t end).

(** [PrepareInput]; the headers are copied onto those of a new client. *)
Definition prepare (method : bytes) b (body content_type : bytes) : outcome header_exception Client :=
  hs ← copy_assignment (custom_headers b) no_headers;
  Ok (mkClient method (base_url b) content_type body (custom_user_agent b) hs (allow_redirects b)).

Definition PrepareInput (r : request) : outcome header_exception Client :=
  match r with
  | GET b => prepare (str "GET") b [] []
  | HEAD b => prepare (str "HEAD") b [] []
  | POST b body ct => prepare (str "POST") b body ct
  | PUT b body ct => prepare (str "PUT") b body ct
  | PATCH b body ct => prepare (str "PATCH") b body ct
  | DELETE b => prepare (str "DELETE") b [] []
  end.

Record HTTPResponseWithBuffer := mkResponseWithBuffer {
  received_url : bytes;
  received_code : HTTPResponseCodeValue;
  received_headers : Headers;
  received_body : bytes;
}.

Definition ParseOutput (o : client_output HTTPRedirectHelper) : outcome header_exception HTTPResponseWithBuffer :=
  hs ← copy_assignment (headers_ (default_part (helper_state (http_request_ o)))) no_headers;
  Ok (mkResponseWithBuffer (response_url_after_redirects_ o) (response_code_ o) hs (default [] (body (http_request_ o)))).

(** [HTTP(request)]. *)
Definition HTTP (scaled : nat → nat) (net : network) (fuel : nat) (r : request) : outcome client_exception HTTPResponseWithBuffer :=
  cl ← client_lift (ExchangeFailed ∘ HeaderFailed) (PrepareInput r);
  o ← Go location (mkRedirectHelper (mkDefaultHelper no_headers []) []) scaled net fuel cl;
  client_lift (ExchangeFailed ∘ HeaderFailed) (ParseOutput o).

(** ** Responses by chunk and by line *)

(** [ChunkedBase]; the callbacks work on a state of the user, and do not throw. *)
Section Chunked.
Context {U : Type}.

Record ChunkedBase := mkChunked {
  chunked_url : bytes;
  header_callback_impl : option (bytes → bytes → U → U);
  chunk_callback_impl : option (bytes → U → U);
  done_callback_impl : option (U → U);
  group_by_lines_ : list ((bytes → U → U) * Group);
}.
Implicit Type k : ChunkedBase.

Definition make_Chunked (url : bytes) : ChunkedBase := mkChunked url None None None [].

Definition OnHeader_ (f : bytes → bytes → U → U) k : ChunkedBase :=
  mkChunked (chunked_url k) (Some f) (chunk_callback_impl k) (done_callback_impl k) (group_by_lines_ k).
Definition OnChunk_ (f : bytes → U → U) k : ChunkedBase :=
  mkChunked (chunked_url k) (header_callback_impl k) (Some f) (done_callback_impl k) (group_by_lines_ k).

(** The line callback as the function of a group. *)
Definition pure_callback (f : bytes → U → U) : bytes → io U Empty_set () := λ line u, (Ok (), f line u).

Definition destroy_groups (gs : list ((bytes → U → U) * Group)) (u : U) : U :=
  foldl (λ u fg, (destroy ProcessCPPString (pure_callback fg.1) Prohibit (fg.2, u)).2) u gs.

(** [group_by_lines_.clear()] destroys the groups. *)
Definition OnDone (f : U → U) (ku : ChunkedBase * U) : ChunkedBase * U :=
  let '(k, u) := ku in
  (mkChunked (chunked_url k) (header_callback_impl k) (chunk_callback_impl k) (Some f) [], destroy_groups (group_by_lines_ k) u).
Definition OnLine (f : bytes → U → U) k : ChunkedBase :=
  mkChunked (chunked_url k) (header_callback_impl k) (chunk_callback_impl k) (done_callback_impl k)
    (group_by_lines_ k ++ [(f, make_Group)]).

Fixpoint feed_groups (c : bytes) (gs : list ((bytes → U → U) * Group)) (u : U) : list ((bytes → U → U) * Group) * U :=
  match gs with
  | [] => ([], u)
  | (f, g) :: gs =>
      let '(g, u) := (Feed ProcessCPPString (pure_callback f) c (g, u)).2 in
      let '(gs, u) := feed_groups c gs u in ((f, g) :: gs, u)
  end.

(** The wrappers, for the callbacks of [ChunkByChunkHTTPResponseReceiver]. *)
Definition deliver (ku : ChunkedBase * U) (call : callback) : ChunkedBase * U :=
  let '(k, u) := ku in
  match call with
  | header_callback key value => (k, match header_callback_impl k with Some f => f key value u | None => u end)
  | chunk_callback c =>
      let '(gs, u) := feed_groups c (group_by_lines_ k) u in
      (mkChunked (chunked_url k) (header_callback_impl k) (chunk_callback_impl k) (done_callback_impl k) gs,
       match chunk_callback_impl k with Some f => f c u | None => u end)
  | done_callback => (k, match done_callback_impl k with Some f => f u | None => u end)
  end.

Definition chunked_client (method : bytes) (body content_type : bytes) k : Client :=
  mkClient method (chunked_url k) content_type body [] no_headers false.

(** [HTTP(ChunkedGET)] and [HTTP(ChunkedPOST)], and the end of the request object;
    the callbacks of a response that fails are not followed. *)
Definition HTTP_chunked (scaled : nat → nat) (net : network) (fuel : nat) (cl : Client) (ku : ChunkedBase * U)
    : outcome client_exception HTTPResponseCodeValue * U :=
  match Go (H := list callback) (λ _, []) [] scaled net fuel cl with
  | Throw e => (Throw e, ku.2)
  | Ok o =>
      let '(k, u) := foldl deliver ku (helper_state (http_request_ o)) in
      (Ok (response_code_ o), destroy_groups (group_by_lines_ k) u)
  end.

(** *** A request with one callback for lines *)

Fixpoint chunks_of (calls : list callback) : list bytes :=
  match calls with
  | [] => []
  | chunk_callback x :: calls => x :: chunks_of calls
  | _ :: calls => chunks_of calls
  end.

Lemma deliver_line f (g : Group) url (calls : list callback) (u : U) :
  foldl deliver (mkChunked url None None None [(f, g)], u) calls =
  let s := feed_all ProcessCPPString (pure_callback f) (chunks_of calls) (g, u) in
  (mkChunked url None None None [(f, s.1)], s.2).
Proof.
  revert g u. induction calls as [|c calls IH]; intros g u; [done|]. destruct c as [key v|x|]; [apply IH| |apply IH].
  cbn [foldl deliver chunks_of feed_all feed_groups group_by_lines_].
  destruct (Feed ProcessCPPString (pure_callback f) x (g, u)) as [r [g1 u1]]. apply IH.
Qed.

End Chunked.
End HttpClient.
