(* ===== verification/HttpExchange.v ===== *)
(** * A client and a server: a request and its response over the wire

    The request the client of HttpClient.v writes is parsed by the server of
    HttpServer.v, and the answer of the server by the client, whatever pieces the
    network cuts the texts into. *)

From Stdlib Require Import ZArith NArith Lia Ascii String.
From stdpp Require Import base sets gmap list strings.
From S2P Require Import Prelude Persistence Decimal Strings Url PubSub RemoteStream StdMap State Tcp GroupByLines HttpHeaders HttpMessage.
From S2P Require Import HttpParsing HttpConnection HttpRoundTrip HttpRoutes HttpServer HttpClient.
Open Scope nat_scope.

Module HttpExchange.
Import Http Tcp HttpHeaders HttpParsing HttpConnection HttpRoundTrip HttpRoutes HttpServer HttpClient.

(** ** The headers that are received *)

(** Each header is added to those before it; cookies are kept elsewhere. *)
Definition receive_header (l : list (bytes * bytes)) (kv : bytes * bytes) : list (bytes * bytes) :=
  if IsCookieHeader kv.1 then l else update_entry kv.1 (combine kv.2) l.

Definition receive_headers (hs : list (bytes * bytes)) : list (bytes * bytes) := foldl receive_header [] hs.

(** A helper that keeps headers. *)
Class KeepsHeaders (H : Type) `{Helper H} := {
  kept : H → Headers;
  kept_body : H → bytes;
  keeps_header h k v : headers_wf (kept h) → k ≠ [] → ∃ h', OnHeader k v h = Ok h' ∧ headers_wf (kept h') ∧
    entries (kept h') = receive_header (entries (kept h)) (k, v) ∧ kept_body h' = kept_body h;
  keeps_chunk h chunk : ∃ h', OnChunk chunk h = Ok h' ∧ kept h' = kept h ∧ kept_body h' = kept_body h ++ chunk;
  keeps_done h : OnChunkedBodyDone h = (h, Some (kept_body h));
}.

Lemma default_keeps h k v : headers_wf (headers_ h) → k ≠ [] → ∃ h', default_OnHeader k v h = Ok h' ∧ headers_wf (headers_ h') ∧
  entries (headers_ h') = receive_header (entries (headers_ h)) (k, v) ∧ body_ h' = body_ h.
Proof.
  intros Hwf Hk. unfold default_OnHeader, receive_header. destruct (SetHeaderOrCookie_ok k v (headers_ h) Hwf Hk) as (hs & -> & Hw & He).
  simpl. eexists. split; [done|]. simpl. by rewrite He.
Qed.

Global Program Instance default_keeps_headers : KeepsHeaders HTTPDefaultHelper := {| kept := headers_; kept_body := body_ |}.
Next Obligation. apply default_keeps. Qed.
Next Obligation. intros h chunk. by eexists. Qed.
Next Obligation. done. Qed.

Global Program Instance redirect_keeps_headers : KeepsHeaders HTTPRedirectHelper :=
  {| kept h := headers_ (default_part h); kept_body h := body_ (default_part h) |}.
Next Obligation.
  intros h k v Hwf Hk. destruct (default_keeps (default_part h) k v Hwf Hk) as (d & Hd & ? & ? & ?).
  unfold OnHeader, redirect_helper. rewrite Hd. simpl. by eexists.
Qed.
Next Obligation. intros h chunk. by eexists. Qed.
Next Obligation. done. Qed.

Section Keeping.
Context {H : Type} `{HK : KeepsHeaders H}.

Lemma run_headers_ok hs h : headers_wf (kept h) → Forall (λ kv, kv.1 ≠ []) hs → ∃ h',
  run_headers hs h = Ok h' ∧ headers_wf (kept h') ∧ entries (kept h') = foldl receive_header (entries (kept h)) hs ∧
  kept_body h' = kept_body h.
Proof.
  intros Hwf Hhs. revert h Hwf. induction Hhs as [|[k v] hs Hk _ IH]; intros h Hwf; [by exists h|].
  destruct (keeps_header h k v Hwf Hk) as (h1 & E1 & Hwf1 & He1 & Hb1). destruct (IH h1 Hwf1) as (h2 & E2 & Hwf2 & He2 & Hb2).
  exists h2. simpl. rewrite E1. simpl. split_and!; [done|done|by rewrite He2, He1|congruence].
Qed.

Lemma run_chunks_ok chunks h : ∃ h', run_chunks chunks h = Ok h' ∧ kept h' = kept h ∧ kept_body h' = kept_body h ++ concat chunks.
Proof.
  revert h. induction chunks as [|d chunks IH]; intros h; [exists h; by rewrite app_nil_r|].
  destruct (keeps_chunk h d) as (h1 & E1 & Hk1 & Hb1). destruct (IH h1) as (h2 & E2 & Hk2 & Hb2).
  exists h2. simpl. rewrite E1. simpl. split_and!; [done|congruence|]. by rewrite Hb2, Hb1, app_assoc.
Qed.

End Keeping.

(** ** The text of a request *)

Definition request_target (u : Url.URL) : bytes := Url.path u.1 ++ Url.ComposeParameters u.2.

Definition request_line (cl : Client) (u : Url.URL) : bytes :=
  request_method_ cl ++ " "%char :: request_target u ++ " "%char :: str "HTTP/1.1".

Definition content_length (s : bytes) : bytes * bytes :=
  (str "Content-Length", RemoteStream.ToString_uint64 (N.of_nat (length s))).

Definition request_headers_of (cl : Client) (u : Url.URL) : list (bytes * bytes) :=
  (str "Host", Url.host u.1) ::
  (if nonempty (request_user_agent_ cl) then [(str "User-Agent", request_user_agent_ cl)] else []) ++
  entries (request_headers_ cl) ++
  (if bool_decide (cookies (request_headers_ cl) = []) then [] else [(str "Cookie", CookiesAsString (request_headers_ cl))]) ++
  (if nonempty (request_body_content_type_ cl) then [(str "Content-Type", request_body_content_type_ cl)] else []).

Definition request_text (cl : Client) (u : Url.URL) : bytes :=
  request_line cl u ++ kCRLF ++ concat (header_line <$> request_headers_of cl u) ++
  (if has_body cl then header_line (content_length (request_body_contents_ cl)) ++ kCRLF ++ request_body_contents_ cl else kCRLF).

Lemma wrote_nil c : wrote [] c = c.
Proof. unfold wrote. rewrite app_nil_r. by destruct c. Qed.

Lemma write_step {A} (data : bytes) (f : () → http A) c : accepts c = None → (write_ data ≫= f) c = f () (wrote data c).
Proof. intros Ha. by rewrite (io_bind_ok _ _ _ _ _ (write_ok data c Ha)). Qed.

Lemma write_lines_ok lines c : accepts c = None →
  write_lines lines c = (Ok (), wrote (concat ((λ l, l ++ kCRLF) <$> lines)) c).
Proof.
  revert c. induction lines as [|l lines IH]; intros c Ha; [by rewrite wrote_nil|].
  cbn [write_lines]. rewrite write_step by done. rewrite IH by done. by rewrite wrote_wrote.
Qed.

Lemma write_lines_step {A} lines (f : () → http A) c : accepts c = None →
  (write_lines lines ≫= f) c = f () (wrote (concat ((λ l, l ++ kCRLF) <$> lines)) c).
Proof. intros Ha. by rewrite (io_bind_ok _ _ _ _ _ (write_lines_ok lines c Ha)). Qed.

Lemma header_lines_concat (hs : list (bytes * bytes)) :
  concat ((λ l, l ++ kCRLF) <$> ((λ h, h.1 ++ str ": " ++ h.2) <$> hs)) = concat (header_line <$> hs).
Proof.
  f_equal. rewrite <- list_fmap_compose. apply list_fmap_ext. intros i [k v] _. unfold header_line. simpl.
  by rewrite <- !app_assoc.
Qed.

Lemma write_body_ok cl c : accepts c = None →
  write_body cl c = (Ok (), wrote (header_line (content_length (request_body_contents_ cl)) ++ kCRLF ++ request_body_contents_ cl) c).
Proof.
  intros Ha. unfold write_body. rewrite !write_step, write_ok by done. rewrite !wrote_wrote.
  unfold header_line, content_length. simpl fst. simpl snd. by rewrite <- !app_assoc.
Qed.

Lemma write_request_ok cl u c : headers_wf (request_headers_ cl) → accepts c = None →
  write_request cl u c = (Ok (), wrote (request_text cl u) c).
Proof.
  intros Hwf Ha. unfold write_request. rewrite write_step, write_step, write_lines_step by done.
  rewrite (io_bind_ok _ _ _ _ _ (io_lift_ok HeaderFailed _ _ _ (iterate_entries _ Hwf))).
  rewrite !write_lines_step, header_lines_concat by done. rewrite !wrote_wrote.
  set (pre := _ ++ _ : bytes). assert (request_text cl u = pre ++ (if has_body cl then
    header_line (content_length (request_body_contents_ cl)) ++ kCRLF ++ request_body_contents_ cl else kCRLF)) as ->.
  { unfold pre, request_text, request_line, request_target, request_headers_of, optional.
    rewrite fmap_cons, !fmap_app. cbn [concat]. rewrite !concat_app. unfold header_line at 1. simpl fst. simpl snd.
    rewrite <- !app_assoc. cbn [app]. rewrite <- !app_assoc. repeat f_equal.
    all: repeat case_match; try done. all: unfold header_line; simpl; by rewrite <- ?app_assoc, ?app_nil_r. }
  clearbody pre. destruct (has_body cl); [rewrite write_body_ok by done|rewrite write_ok by done]; by rewrite wrote_wrote.
Qed.

(** ** Parsing a request *)

Definition plain_headers (hs : list (bytes * bytes)) : Prop := Forall (λ kv, printable kv ∧ plain_name kv.1) hs.

Lemma plain_headers_keys hs : plain_headers hs → Forall (λ kv, kv.1 ≠ []) hs.
Proof. intros Hp. eapply Forall_impl; [exact Hp|]. intros kv [[] _]. done. Qed.

(** What a client may send. *)
Record request_ok (cl : Client) (u u' : Url.URL) : Prop := {
  ok_method : word (request_method_ cl);
  ok_target : word (request_target u);
  ok_line : in_line (request_line cl u);
  ok_url : Url.make_URL (request_target u) = Ok u';
  ok_headers_wf : headers_wf (request_headers_ cl);
  ok_headers : plain_headers (request_headers_of cl u);
  ok_body : (Z.of_nat (length (request_body_contents_ cl)) <= kMaxHTTPPayloadSizeInBytes)%Z;
}.

(** All the headers on the wire. *)
Definition sent_request_headers (cl : Client) (u : Url.URL) : list (bytes * bytes) :=
  request_headers_of cl u ++ (if has_body cl then [content_length (request_body_contents_ cl)] else []).

Lemma content_length_line {H} `{Helper H} (b tail : bytes) h (s : control H) :
  first_line_parsed s = true → receiving_body_in_chunks s = false → chunked_transfer_encoding s = false →
  (Z.of_nat (length b) <= kMaxHTTPPayloadSizeInBytes)%Z →
  OnHeader (content_length b).1 (content_length b).2 (helper s) = Ok h →
  parse (header_line (content_length b) ++ kCRLF ++ b ++ tail) s =
  Parsed (mkMessage (method_ s) (raw_path_ s) (url_ s) h (Some b)).
Proof.
  intros Hf Hr Hc Hb Hh. unfold content_length in *. cbn [fst snd] in *. destruct (decimal_in_line _ (uint64_decimal (N.of_nat (length b)))) as [Hl Ht].
  rewrite parse_header; [|done|done|split; [done|simpl; set_solver|split; intros ?; set_solver|done|done]].
  cbn [fst snd]. unfold on_header. rewrite Hh. unfold no_answer, mbind, outcome_bind.
  replace (HeaderNameEquals (str "Content-Length") (str "Content-Length")) with true by reflexivity.
  unfold kMaxHTTPPayloadSizeInBytes in Hb. rewrite atoi_uint64 by lia. unfold size_t. rewrite Z.mod_small by lia.
  destruct (Z.ltb_spec kMaxHTTPPayloadSizeInBytes (Z.of_N (N.of_nat (length b)))) as [Hbig|_];
    [unfold kMaxHTTPPayloadSizeInBytes in Hbig; lia|].
  rewrite parse_body; [done|done|done|done|]. simpl. f_equal. lia.
Qed.

Section Request.
Context {H : Type} `{HK : KeepsHeaders H}.

Lemma parse_request cl u u' (h0 : H) : request_ok cl u u' → headers_wf (kept h0) → entries (kept h0) = [] → ∃ h,
  parse_text h0 (request_text cl u) =
    Parsed (mkMessage (request_method_ cl) (request_target u) u' h (if has_body cl then Some (request_body_contents_ cl) else None)) ∧
  headers_wf (kept h) ∧ entries (kept h) = receive_headers (sent_request_headers cl u).
Proof.
  intros [Hm Ht Hl Hu Hhw Hhs Hb] Hwf He. destruct (run_headers_ok _ h0 Hwf (plain_headers_keys _ Hhs)) as (h1 & E1 & Hwf1 & He1 & _).
  change (parse_text h0) with (λ t, parse t (start_control h0)). cbv beta. unfold request_text, request_line.
  rewrite (parse_first_line _ _ _ u') by done. rewrite (parse_headers _ h1) by done.
  rewrite He in He1. unfold sent_request_headers, receive_headers. rewrite foldl_app, <- He1. destruct (has_body cl) eqn:Hhb.
  - destruct (keeps_header h1 (content_length (request_body_contents_ cl)).1 (content_length (request_body_contents_ cl)).2 Hwf1)
      as (h2 & E2 & Hwf2 & He2 & _); [done|]. exists h2. split_and!; [|done|exact He2].
    rewrite <- (app_nil_r (request_body_contents_ cl)) at 2. by rewrite (content_length_line _ _ h2).
  - exists h1. split; [|done]. rewrite <- (app_nil_r kCRLF), parse_blank by done. unfold end_of_headers. simpl.
    unfold has_body in Hhb. apply orb_false_iff in Hhb as [_ ->]. done.
Qed.

(** ** Parsing an answer *)

(** What a handler may answer. *)
Record answer_ok (connection_type : ConnectionType) (code : Z) (hs : Headers) (ct : bytes) : Prop := {
  ok_code : (0 <= code < 2 ^ 31)%Z;
  ok_answer_wf : headers_wf hs;
  ok_answer_headers : plain_headers (response_headers connection_type hs ct);
}.

(** A message that came with these headers and this body. *)
Definition received (code : Z) (hs : list (bytes * bytes)) (b : bytes) (m : message H) : Prop :=
  raw_path m = RemoteStream.ToString_int64 code ∧ body m = Some b ∧
  headers_wf (kept (helper_state m)) ∧ entries (kept (helper_state m)) = receive_headers hs.

Lemma parse_answer (b : bytes) code hs ct (h0 : H) : answer_ok ConnectionClose code hs ct →
  (Z.of_nat (length b) <= kMaxHTTPPayloadSizeInBytes)%Z → headers_wf (kept h0) → entries (kept h0) = [] → ∃ m,
  parse_text h0 (response_text b code hs ct) = Parsed m ∧
  received code (response_headers ConnectionClose hs ct ++ [content_length b]) b m.
Proof.
  intros [Hc Hhs Hp] Hb Hwf He. destruct (run_headers_ok _ h0 Hwf (plain_headers_keys _ Hp)) as (h1 & E1 & Hwf1 & He1 & _).
  destruct (keeps_header h1 (content_length b).1 (content_length b).2 Hwf1) as (h2 & E2 & Hwf2 & He2 & _); [done|].
  destruct (decimal_url _ (code_decimal code Hc)) as [u Hu]. eexists. split.
  - rewrite <- (app_nil_r (response_text b code hs ct)). by apply (parse_response _ _ _ _ _ h1 h2 u).
  - split_and!; [done|done|done|]. unfold receive_headers. rewrite foldl_app. rewrite He in He1. rewrite <- He1. exact He2.
Qed.

Definition sent_chunks (chunks : list (bytes * ChunkFlush)) : list bytes := List.filter nonempty chunks.*1.

Lemma chunks_text_sent chunks : chunks_text chunks = concat (chunk_text <$> sent_chunks chunks).
Proof.
  unfold chunks_text, sent_chunks. induction chunks as [|[d f] chunks IH]; [done|]. rewrite !fmap_cons. cbn [concat fst List.filter].
  rewrite IH. by destruct d.
Qed.

Lemma sent_chunks_concat chunks : concat (sent_chunks chunks) = concat chunks.*1.
Proof.
  unfold sent_chunks. induction chunks as [|[d f] chunks IH]; [done|]. rewrite fmap_cons. cbn [List.filter fst concat].
  rewrite <- IH. by destruct d.
Qed.

Definition transfer_encoding : bytes * bytes := (str "Transfer-Encoding", str "chunked").

Lemma parse_chunked_answer chunks code hs ct (h0 : H) : answer_ok ConnectionKeepAlive code hs ct →
  Forall (λ d, (Z.of_nat (length d.1) < 2 ^ 31)%Z) chunks → headers_wf (kept h0) → entries (kept h0) = [] → kept_body h0 = [] → ∃ m,
  parse_text h0 (chunked_text code hs ct chunks) = Parsed m ∧
  received code (response_headers ConnectionKeepAlive hs ct ++ [transfer_encoding]) (concat chunks.*1) m.
Proof.
  intros [Hc Hhs Hp] Hch Hwf He Hb. destruct (run_headers_ok _ h0 Hwf (plain_headers_keys _ Hp)) as (h1 & E1 & Hwf1 & He1 & Hb1).
  destruct (keeps_header h1 transfer_encoding.1 transfer_encoding.2 Hwf1) as (h2 & E2 & Hwf2 & He2 & Hb2); [done|].
  destruct (run_chunks_ok (sent_chunks chunks) h2) as (h3 & E3 & Hk3 & Hb3).
  destruct (decimal_url _ (code_decimal code Hc)) as [u Hu]. eexists. split.
  - unfold chunked_text. rewrite chunks_text_sent, <- (app_nil_r last_chunk_text).
    apply (parse_chunked_response _ _ _ _ h0 h1 h2 h3 u); try done. unfold sent_chunks, small_chunk. apply Forall_forall.
    intros d [Hd Hn]%list_elem_of_In%filter_In. apply list_elem_of_In, list_elem_of_fmap in Hd as ([d' f] & -> & Hd).
    rewrite Forall_forall in Hch. split; [|by apply (Hch _ Hd)]. unfold nonempty in Hn. by case_bool_decide.
  - rewrite keeps_done. unfold received. cbn [raw_path body helper_state fst snd]. rewrite Hk3. split_and!; [done| |done|].
    + by rewrite Hb3, Hb2, Hb1, Hb, sent_chunks_concat.
    + unfold receive_headers. rewrite foldl_app. rewrite He in He1. rewrite <- He1. exact He2.
Qed.

(** The head of a request with a body in chunks. *)
Lemma parse_chunked_request (m path text : bytes) u (h0 : H) : word m → word path →
  in_line (m ++ " "%char :: path ++ " "%char :: str "HTTP/1.1") → Url.make_URL path = Ok u → headers_wf (kept h0) → ∃ h,
  parse_text h0 ((m ++ " "%char :: path ++ " "%char :: str "HTTP/1.1") ++ kCRLF ++ header_line transfer_encoding ++ kCRLF ++ text) =
  parse text (mkControl m path u h None true true true).
Proof.
  intros Hm Hp Hl Hu Hwf. destruct (keeps_header h0 transfer_encoding.1 transfer_encoding.2 Hwf) as (h & E & _); [done|]. exists h.
  change (parse_text h0) with (λ t, parse t (start_control h0)). cbv beta. rewrite (parse_first_line m path _ u) by done.
  rewrite parse_header; [|done|done|split; [done|simpl; set_solver|split; intros ?; set_solver|split; intros ?; set_solver|done]].
  unfold on_header. cbn [helper start_control]. rewrite E. unfold no_answer, mbind, outcome_bind. cbn [fst snd transfer_encoding].
  replace (HeaderNameEquals (str "Transfer-Encoding") (str "Content-Length")) with false by reflexivity.
  replace (HeaderNameEquals (str "Transfer-Encoding") (str "X-HTTP-Method-Override")) with false by reflexivity.
  replace (HeaderNameEquals (str "Transfer-Encoding") (str "Transfer-Encoding") && HeaderNameEquals (str "chunked") (str "chunked"))
    with true by reflexivity.
  by rewrite parse_chunked by done.
Qed.

End Request.

Lemma atoi_int64 code : (0 <= code < 2 ^ 31)%Z → Url.atoi (RemoteStream.ToString_int64 code) = code.
Proof.
  intros Hc. unfold RemoteStream.ToString_int64. destruct (Z.ltb_spec code 0) as [|_]; [lia|].
  destruct (RemoteStream.printed_decimal 19 code) as [Hd Hval]; [done|].
  unfold Url.atoi. destruct (RemoteStream.decimal_head _ Hd) as (_ & Hl & Hm). rewrite Hl, drop_0, Hm, Hval.
  rewrite read_digits_digits by lia. rewrite Z.mod_small; [done|]. lia.
Qed.

(** ** The server at the other end *)

(** The peer is a server with these handlers; its answer is cut into pieces. *)
Record serves_handlers (now : Z) (handlers : routes handler) (p : peer) : Prop := {
  serves_all : takes p = None;
  serves_uninterrupted : interrupts p = false;
  serves_pieces text : Forall (.≠ []) (replies p text);
  serves_text text out : serve_text false now handlers text = Some out → concat (replies p text) = out;
}.

(** The request a handler is called with. *)
Record request_is (cl : Client) (u u' : Url.URL) (args : URLPathArgs) (now : Z) (r : Request) : Prop := {
  is_method : request_method r = request_method_ cl;
  is_url : request_url r = set_path (resize (length (base_path args)) (Url.path u'.1)) u';
  is_slash : url_path_had_trailing_slash r = last_is_slash (Url.path u'.1);
  is_args : url_path_args r = args;
  is_body : request_body r = if has_body cl then request_body_contents_ cl else [];
  is_headers_wf : headers_wf (request_headers r);
  is_headers : entries (request_headers r) = receive_headers (sent_request_headers cl u);
  is_timestamp : request_timestamp r = now;
}.

Section Exchange.
Context {H : Type} `{HK : KeepsHeaders H} (scaled : nat → nat) (Hscaled : ∀ n, scaled n ≤ 2 * n).

(** The handler is called with such a request. *)
Lemma serve_request (cl : Client) (u u' : Url.URL) (now : Z) (handlers : routes handler) (h : handler) args : request_ok cl u u' →
  FindHandler (Url.path u'.1) handlers = (Some h, args) → ∃ r, request_is cl u u' args now r ∧
  serve_text false now handlers (request_text cl u) = Some (answer_of (h r)).
Proof.
  intros Hok Hf. destruct (parse_request cl u u' (mkDefaultHelper no_headers []) Hok) as (h1 & E1 & Hwf & He); [exact no_headers_wf|done|].
  unfold serve_text. rewrite E1. cbn [Http.url]. rewrite Hf. eexists. split; [|done]. split; try done.
  unfold make_Request, Body. cbn [request_body body]. by destruct (has_body cl).
Qed.

Lemma exchange_called (cl : Client) (u u' : Url.URL) (now : Z) (handlers : routes handler) (h : handler) args (h0 : H) p : request_ok cl u u' →
  serves_handlers now handlers p → FindHandler (Url.path u'.1) handlers = (Some h, args) → ∃ r, request_is cl u u' args now r ∧
  ∀ m, parse_text h0 (answer_of (h r)) = Parsed m → (Z.of_nat (length (answer_of (h r))) <= 2 ^ 60)%Z → exchange h0 scaled cl u p = Ok m.
Proof.
  intros Hok [Ht Hi Hp Hs] Hf. destruct (serve_request cl u u' now handlers h args Hok Hf) as (r & Hr & Hserve). exists r. split; [done|].
  intros m Hm Hlen. unfold exchange. rewrite Ht, write_request_ok by (done || apply Hok). cbn [wrote outgoing app]. set (c := set_incoming _ _).
  assert (concat (incoming c) = answer_of (h r)) as Hc by by apply Hs.
  destruct (constructor_ok scaled Hscaled h0 (16 * 1024 + 1) c) as (res & c' & E & Hag); [by split; [apply Hp| |]|lia|lia|by rewrite Hc|].
  rewrite E. rewrite Hc, Hm in Hag. by destruct Hag as [-> _].
Qed.

Lemma exchange_ok (cl : Client) (u u' : Url.URL) (now : Z) (handlers : routes handler) (h : handler) args text (h0 : H) m p : request_ok cl u u' → serves_handlers now handlers p →
  FindHandler (Url.path u'.1) handlers = (Some h, args) → (∀ r, request_is cl u u' args now r → answer_of (h r) = text) →
  parse_text h0 text = Parsed m → (Z.of_nat (length text) <= 2 ^ 60)%Z → exchange h0 scaled cl u p = Ok m.
Proof.
  intros Hok Hs Hf Hh Hm Hlen. destruct (exchange_called cl u u' now handlers h args h0 p Hok Hs Hf) as (r & Hr & Hex).
  apply Hex; by rewrite (Hh r Hr).
Qed.

End Exchange.

(** ** The path of a request *)

(** What a server makes of a path, as long as it cannot be taken for a scheme or a host. *)
Lemma target_url (u : Url.URL) rest : Url.path u.1 = "/"%char :: rest → "?"%char ∉ rest → "#"%char ∉ rest →
  Url.find_double_slash (Url.path u.1) = None →
  Forall (λ p, Url.is_ascii p.1 ∧ Url.is_ascii p.2) (Url.parameters_vector u.2) →
  Url.query u.2 = Url.QueryParameters (Url.parameters_vector u.2) →
  Url.make_URL (request_target u) = Ok (Url.mkUrl [] (Url.path u.1) [] 0 [] [], u.2).
Proof.
  intros Hp Hq Hf Hd Ha Hqp. unfold Url.make_URL, request_target. rewrite Url.extract_compose; [|by rewrite Hp; set_solver..|done|done].
  rewrite take_app_length. unfold Url.ParseURLWithoutParameters. rewrite Hp in *. unfold Url.parse_scheme. rewrite Hd.
  assert (∀ i, Url.found_before i (Some 0) = None) as Hfb by (by intros [i|]).
  assert (Url.find "/" 0 ("/"%char :: rest) = Some 0) as Hs by done.
  unfold Url.parse_user, Url.parse_host. by rewrite Hs, Hfb, Hfb.
Qed.

(** ** [HTTP(request)] *)

Lemma copy_into_new hs : headers_wf hs → ∃ hs', copy_assignment hs no_headers = Ok hs' ∧ headers_wf hs' ∧
  entries hs' = entries hs ∧ cookies hs' = cookies hs.
Proof. apply copy_constructor_ok. Qed.

Lemma HTTP_ok scaled net fuel r cl u o : PrepareInput r = Ok cl → Url.make_URL (request_url_ cl) = Ok u →
  net 0 (Url.host u.1) (connect_port u) = Some o →
  ∀ m code hs b, exchange (mkRedirectHelper (mkDefaultHelper no_headers []) []) scaled cl u o = Ok m →
  received code hs b m → (0 <= code < 2 ^ 31)%Z → ¬ (300 <= code <= 399)%Z → ∃ hs',
  HTTP scaled net (S fuel) r = Ok (mkResponseWithBuffer (request_url_ cl) code hs' b) ∧ headers_wf hs' ∧ entries hs' = receive_headers hs.
Proof.
  intros Hp Hu Hn m code hs b Hm (Hraw & Hb & Hwf & He) Hc Hr.
  destruct (copy_into_new _ Hwf) as (hs' & Hcopy & Hwf' & He' & _). exists hs'. split; [|by rewrite He'].
  assert (response_code_of m = code) as Hcode by (unfold response_code_of; by rewrite Hraw, atoi_int64).
  assert (is_redirect location m = false) as Hnr.
  { unfold is_redirect. rewrite Hcode. destruct (Z.leb_spec 300 code), (Z.leb_spec code 399); simpl; [lia|done..]. }
  unfold HTTP, Go. rewrite Hp. cbn [client_lift]. unfold mbind, outcome_bind. rewrite Hu. cbn [client_lift go_loop].
  rewrite bool_decide_eq_false_2 by set_solver. rewrite Hn, Hm. cbn [client_lift]. unfold mbind, outcome_bind.
  rewrite Hnr. unfold ParseOutput. cbn [http_request_ response_url_after_redirects_ response_code_].
  cbn [kept redirect_keeps_headers] in Hcopy. rewrite Hcopy. cbn [client_lift]. unfold mbind, outcome_bind.
  cbn [client_lift]. by rewrite Hcode, Hb.
Qed.

End HttpExchange.
