(* ===== verification/RestTypes.v ===== *)
(** * RESTful storage: the objects of its answers, storage/rest/types.h

    The structures that the RESTful interface of a storage sends, with their
    constructors, and the helpers that build error responses.  How an object is
    printed as JSON, and how an entry is read from it, is the business of the
    JSON library: the class [RestJSON], whose law [RestJSONSound] is that reading
    an entry that was printed gives it back. *)

From Stdlib Require Import ZArith NArith Lia Ascii String.
From stdpp Require Import base gmap list strings.
From S2P Require Import Prelude Persistence Decimal Strings StdMap RemoteStream HttpDate HttpHeaders HttpMessage HttpRoutes HttpServer.
Open Scope Z_scope.

Module RestTypes.
Import Http HttpServer HttpDate RemoteStream.

(** ** Objects *)

(** [std::map<std::string, std::string>]. *)
Abbreviation details_t := (gmap bytes bytes).

Record RESTTopLevel := mkTopLevel {
  top_url : bytes;
  url_status : bytes;
  url_data : details_t;
  top_up : bool;
}.

Definition make_RESTTopLevel (url_prefix : bytes) (up : bool) : RESTTopLevel :=
  mkTopLevel url_prefix (url_prefix ++ str "/status") ∅ up.

Record RESTStatus := mkStatus { status_up : bool }.

Record RESTError := mkError {
  error_name : bytes;
  error_message : bytes;
  error_details : option details_t;
}.

Record RESTSubCollection (T : Type) := mkSubCollection {
  sub_total : Z;
  preview : list T;
}.
Arguments mkSubCollection {T} _ _.
Arguments sub_total {T} _.
Arguments preview {T} _.

Record RESTGenericResponse := mkGeneric {
  success : bool;
  generic_message : option bytes;
  error : option RESTError;
}.

(** [RESTResourceUpdateResponse] extends [RESTGenericResponse]. *)
Record RESTResourceUpdateResponse := mkUpdate {
  update_super : RESTGenericResponse;
  resource_url : option bytes;
}.

Record SimpleRESTRecordResponse (T : Type) := mkSimpleRecord {
  simple_success : bool;
  simple_url : bytes;
  simple_data : T;
}.
Arguments mkSimpleRecord {T} _ _ _.
Arguments simple_success {T} _.
Arguments simple_url {T} _.
Arguments simple_data {T} _.

Record SimpleRESTContainerResponse := mkSimpleContainer {
  container_super : RESTGenericResponse;
  container_url : bytes;
  container_data : list bytes;
}.

Record HypermediaRESTSingleRecordResponse (T : Type) := mkSingleRecord {
  single_success : bool;
  single_url : bytes;
  url_full : bytes;
  url_brief : bytes;
  single_url_directory : bytes;
  single_data : T;
}.
Arguments mkSingleRecord {T} _ _ _ _ _ _.
Arguments single_success {T} _.
Arguments single_url {T} _.
Arguments url_full {T} _.
Arguments url_brief {T} _.
Arguments single_url_directory {T} _.
Arguments single_data {T} _.

Definition make_SingleRecord {T} (url url_directory : bytes) (data : T) : HypermediaRESTSingleRecordResponse T :=
  mkSingleRecord true url (url ++ str "?full") (url ++ str "?brief") url_directory data.

(** A record of a collection, with the entry in the field [data] or the part of
    it in the field [brief]. *)
Record HypermediaRESTCollectionRecord (T : Type) := mkCollectionRecord {
  record_url : bytes;
  data_or_brief : T;
}.
Arguments mkCollectionRecord {T} _ _.
Arguments record_url {T} _.
Arguments data_or_brief {T} _.

Record HypermediaRESTCollectionResponse (T : Type) := mkCollection {
  collection_success : bool;
  collection_url : bytes;
  url_directory : bytes;
  collection_i : N;
  collection_n : N;
  collection_total : N;
  url_next_page : option bytes;
  url_previous_page : option bytes;
  collection_data : list (HypermediaRESTCollectionRecord T);
}.
Arguments mkCollection {T} _ _ _ _ _ _ _ _ _.
Arguments collection_success {T} _.
Arguments collection_url {T} _.
Arguments url_directory {T} _.
Arguments collection_i {T} _.
Arguments collection_n {T} _.
Arguments collection_total {T} _.
Arguments url_next_page {T} _.
Arguments url_previous_page {T} _.
Arguments collection_data {T} _.

Record HypermediaRESTDetailedExportEntry (K T : Type) := mkDetailed {
  detailed_key : K;
  timestamp_us : microseconds;
  timestamp_http : bytes;
  detailed_data : T;
}.
Arguments mkDetailed {K T} _ _ _ _.
Arguments detailed_key {K T} _.
Arguments timestamp_us {K T} _.
Arguments timestamp_http {K T} _.
Arguments detailed_data {K T} _.

Definition make_DetailedExportEntry {K T} (timestamp : microseconds) (key : K) (entry : T) : HypermediaRESTDetailedExportEntry K T :=
  mkDetailed key timestamp (FormatDateTimeAsIMFFix timestamp) entry.

(** What is printed as JSON; [B] is the brief form of an entry. *)
Inductive rest_object (K T B : Type) :=
| TopLevelObject (o : RESTTopLevel)
| StatusObject (o : RESTStatus)
| GenericObject (o : RESTGenericResponse)
| UpdateObject (o : RESTResourceUpdateResponse)
| EntryObject (o : T)
| SimpleRecordObject (o : SimpleRESTRecordResponse T)
| SimpleContainerObject (o : SimpleRESTContainerResponse)
| SingleRecordObject (o : HypermediaRESTSingleRecordResponse T)
| SingleBriefObject (o : HypermediaRESTSingleRecordResponse B)
| FullCollectionObject (o : HypermediaRESTCollectionResponse T)
| BriefCollectionObject (o : HypermediaRESTCollectionResponse B)
| SubCollectionObject (o : HypermediaRESTCollectionResponse (RESTSubCollection T))
| DetailedObject (o : HypermediaRESTDetailedExportEntry K T).
Arguments TopLevelObject {K T B} o.
Arguments StatusObject {K T B} o.
Arguments GenericObject {K T B} o.
Arguments UpdateObject {K T B} o.
Arguments EntryObject {K T B} o.
Arguments SimpleRecordObject {K T B} o.
Arguments SimpleContainerObject {K T B} o.
Arguments SingleRecordObject {K T B} o.
Arguments SingleBriefObject {K T B} o.
Arguments FullCollectionObject {K T B} o.
Arguments BriefCollectionObject {K T B} o.
Arguments SubCollectionObject {K T B} o.
Arguments DetailedObject {K T B} o.

(** The JSON library: printing, printing with [JSONFormat::Minimalistic],
    parsing and patching; an error comes with its description. *)
Class RestJSON (K T B : Type) := {
  JSON : rest_object K T B → bytes;
  JSON_Minimalistic : rest_object K T B → bytes;
  ParseJSON : bytes → outcome bytes T;
  PatchObjectWithJSON : T → bytes → outcome bytes T;
}.

Class RestJSONSound (K T B : Type) `{!RestJSON K T B} : Prop := {
  ParseJSON_JSON : ∀ e, ParseJSON (JSON (EntryObject e)) = Ok e;
}.

(** ** Responses *)

Definition newline_after (s : string) : bytes := str s ++ [newline].

Section Responses.
Context {K T B : Type} `{!RestJSON K T B}.

(** [Response(object, code)] and [Response(string, code)], with no headers. *)
Definition object_response (o : rest_object K T B) (code : HTTPResponseCodeValue) : Response :=
  mkResponse true (JSON o ++ [newline]) code kDefaultJSONContentType HttpHeaders.no_headers true.

Definition text_response (s : bytes) (code : HTTPResponseCodeValue) : Response :=
  mkResponse true s code kDefaultContentType HttpHeaders.no_headers true.

Definition ErrorResponseObject (e : RESTError) : RESTGenericResponse := mkGeneric false None (Some e).
Definition ErrorResponseObject_message (message : bytes) (e : RESTError) : RESTGenericResponse := mkGeneric false (Some message) (Some e).

Definition ErrorResponse (e : RESTError) (code : HTTPResponseCodeValue) : Response :=
  object_response (GenericObject (ErrorResponseObject e)) code.

(** [request(object, code)]. *)
Definition respond_object (o : rest_object K T B) (code : HTTPResponseCodeValue) : respond_op :=
  RespondWith (JSON o ++ [newline]) (Some code) None (Some kDefaultJSONContentType).

(** [request(text, code)]. *)
Definition respond_text (s : bytes) (code : HTTPResponseCodeValue) : respond_op := RespondWith s (Some code) None None.
End Responses.

(** These are what the constructors of [Response] give. *)
Lemma object_response_eq {K T B} `{!RestJSON K T B} (o : rest_object K T B) code :
  Response_object (JSON o) None code None None = Ok (object_response o code).
Proof. done. Qed.

Lemma text_response_eq s code : Response_string s code None None = Ok (text_response s code).
Proof. done. Qed.

(** ** Errors *)

Definition details (l : list (string * bytes)) : details_t := list_to_map ((λ p, (str p.1, p.2)) <$> l).

Definition MethodNotAllowedError (message requested_method : bytes) : RESTError :=
  mkError (str "MethodNotAllowed") message (Some (details [("requested_method"%string, requested_method)])).

Definition InvalidHeaderError (message header value : bytes) : RESTError :=
  mkError (str "InvalidHeader") message (Some (details [("header"%string, header); ("header_value"%string, value)])).

Definition ParseJSONError (message error_details : bytes) : RESTError :=
  mkError (str "ParseJSONError") message (Some (details [("error_details"%string, error_details)])).

Definition RequiredKeyIsMissingError (message : bytes) : RESTError := mkError (str "RequiredKeyIsMissing") message None.

Definition InvalidKeyError (message : bytes) (ds : option details_t) : RESTError := mkError (str "InvalidKey") message ds.

Definition ResourceNotFoundError (message : bytes) (ds : details_t) : RESTError := mkError (str "ResourceNotFound") message (Some ds).

Definition ResourceAlreadyExistsError (message : bytes) (ds : details_t) : RESTError :=
  mkError (str "ResourceAlreadyExists") message (Some ds).

Definition ResourceWasModifiedError (message : bytes) (requested last_modified : microseconds) : RESTError :=
  mkError (str "ResourceWasModifiedError") message
    (Some (details [("requested_date"%string, FormatDateTimeAsIMFFix requested);
                    ("requested_us"%string, ToString_int64 requested);
                    ("resource_last_modified_date"%string, FormatDateTimeAsIMFFix last_modified);
                    ("resource_last_modified_us"%string, ToString_int64 last_modified)])).

(** ** Commands and queries *)

Definition CQSHandlerNotSpecified : RESTGenericResponse := mkGeneric false (Some (str "CQS handler not specified.")) None.
Definition CQSHandlerNotFound : RESTGenericResponse := mkGeneric false (Some (str "CQS handler not found.")) None.
Definition CQSCommandNeedsMasterStorage : RESTGenericResponse :=
  mkGeneric false (Some (str "CQS commands must be run on the master storage.")) None.
Definition CQSParseJSONException (what : bytes) : RESTGenericResponse :=
  mkGeneric false (Some (str "CQS command or query HTTP body JSON parse error.")) (Some (mkError (str "cqs_json_error") what None)).
Definition CQSParseURLException (what : bytes) : RESTGenericResponse :=
  mkGeneric false (Some (str "CQS command or query URL parameters parse error.")) (Some (mkError (str "cqs_querystring_error") what None)).

(** Codes the server itself does not use. *)
Definition Created : HTTPResponseCodeValue := 201.
Definition Forbidden : HTTPResponseCodeValue := 403.
Definition Conflict : HTTPResponseCodeValue := 409.
Definition PreconditionFailed : HTTPResponseCodeValue := 412.
Definition ServiceUnavailable : HTTPResponseCodeValue := 503.
End RestTypes.
