(* ===== verification/RestKeys.v ===== *)
(** * RESTful storage: keys and fields, storage/api_types.h, storage/semantics.h

    A resource is addressed by the key in the URL of a request, a path argument
    or a parameter of the query: one text for a dictionary ([primary_key::Key])
    and two for a matrix ([primary_key::RowCol]).  [KeyText] is how a key is
    printed and read ([ToString] and [FromString] of bricks/strings/util.h), and
    [FieldTypeDependent] the two forms of keys in URLs.

    [RestField] is what the interface calls of a field of the storage, and
    [RestFieldSound] what it promises: it is a map from keys to entries with the
    time of the last change of each.  Dictionaries and many-to-many matrices
    are such fields, alone or next to others. *)

From Stdlib Require Import ZArith NArith Lia Ascii String.
From stdpp Require Import base gmap list strings.
From S2P Require Import Prelude Time Journal Dictionary OwnedMap Index Matrix ManyToMany Persistence Decimal Strings Url PubSub RemoteStream.
From S2P Require Import HttpHeaders HttpMessage HttpRoutes HttpServer.
Open Scope Z_scope.

Module RestKeys.
Import HttpRoutes HttpServer RemoteStream.

(** ** Parameters of the query *)

Definition query (r : Request) : gmap bytes bytes := Url.query (request_url r).2.
Definition query_has (key : string) (r : Request) : bool := bool_decide (is_Some (query r !! str key)).
Definition query_get (key : string) (default_value : bytes) (r : Request) : bytes := default default_value (query r !! str key).
(** [query[key]]. *)
Definition query_at (key : string) (r : Request) : bytes := query_get key [] r.

(** The number of path arguments, and one of them. *)
Definition args_size (r : Request) : nat := length (args_ (url_path_args r)).
Definition arg (i : nat) (r : Request) : bytes := default [] (get_arg i (url_path_args r)).

(** ** Keys as text *)

Class KeyText (K : Type) := {
  ToString : K → bytes;
  FromString : bytes → K;
}.

(** The keys that survive: all strings, the integers of the width of the type. *)
Class KeyTextSound (K : Type) `{!KeyText K} := {
  key_fits : K → Prop;
  FromString_ToString : ∀ k, key_fits k → FromString (ToString k) = k;
}.

#[export] Instance string_key : KeyText bytes := { ToString := id; FromString := id }.
#[export] Program Instance string_key_sound : KeyTextSound bytes := { key_fits _ := True }.
Next Obligation. done. Qed.

(** [uint64_t]. *)
#[export] Instance uint64_key : KeyText N := { ToString := ToString_uint64; FromString := PubSub.FromString_uint64 }.
#[export] Program Instance uint64_key_sound : KeyTextSound N := { key_fits n := (n ≤ no_index)%N }.
Next Obligation. apply uint64_roundtrip. Qed.

(** ** Keys in URLs *)

(** [U] is [url_key_t].  [CallWithOrWithoutKeyFromURL] calls its first argument
    with the key that it returns here, or its second one. *)
Class FieldTypeDependent (U K : Type) := {
  CallWithOrWithoutKeyFromURL : Request → option U;
  FormatURLKey : U → bytes;
  ParseURLKey : U → K;
  ComposeURLKey : K → bytes;
  TabbedKey : K → bytes;  (* as [RunIterate] of storage/rest/plain.h prints it *)
}.

(** What [CallWithKeyFromURL] sends when there is no key. *)
Definition need_key : bytes := str "Need resource key in the URL." ++ [newline].

(** How [Enter] of a handler ends: it has answered, or it calls [next]. *)
Inductive entered (A : Type) :=
| Answered_with (ops : list respond_op)
| Next (a : A).
Arguments Answered_with {A} ops.
Arguments Next {A} a.

Definition CallWithKeyFromURL {U K} `{!FieldTypeDependent U K} (r : Request) : entered U :=
  match CallWithOrWithoutKeyFromURL r with
  | Some key => Next key
  | None => Answered_with [RespondWith need_key (Some Http.BadRequest) None None]
  end.

Definition CallWithOptionalKeyFromURL {U K} `{!FieldTypeDependent U K} (r : Request) : entered (option U) :=
  Next (CallWithOrWithoutKeyFromURL r).

(** [FieldTypeDependentImpl<primary_key::Key>]. *)
Definition key_from_url (r : Request) : option bytes :=
  if decide (args_size r = 1%nat) then Some (arg 0 r)
  else if query_has "key" r then Some (query_at "key" r)
  else None.

#[export] Instance single_key `{!KeyText K} : FieldTypeDependent bytes K := {
  CallWithOrWithoutKeyFromURL := key_from_url;
  FormatURLKey key := key;
  ParseURLKey := FromString;
  ComposeURLKey key := ToString key;
  TabbedKey key := ToString key;
}.

(** [FieldTypeDependentImpl<primary_key::RowCol>]. *)
Definition row_col_from_url (r : Request) : option (bytes * bytes) :=
  if decide (args_size r = 2%nat) then Some (arg 0 r, arg 1 r)
  else if query_has "key1" r && query_has "key2" r then Some (query_at "key1" r, query_at "key2" r)
  else if query_has "row" r && query_has "col" r then Some (query_at "row" r, query_at "col" r)
  else if query_has "1" r && query_has "2" r then Some (query_at "1" r, query_at "2" r)
  else None.

Definition FormatURLKey_pair (key : bytes * bytes) : bytes := key.1 ++ "/"%char :: key.2.

#[export] Instance paired_key {R C} `{!KeyText R, !KeyText C} : FieldTypeDependent (bytes * bytes) (R * C) := {
  CallWithOrWithoutKeyFromURL := row_col_from_url;
  FormatURLKey := FormatURLKey_pair;
  ParseURLKey key := (FromString key.1, FromString key.2);
  ComposeURLKey key := FormatURLKey_pair (ToString key.1, ToString key.2);
  TabbedKey key := ToString key.1 ++ tab :: ToString key.2;
}.

(** ** Fields *)

(** [C] is all the fields of the storage, [M] the calls that change them. *)
Class RestField (C M K T : Type) := {
  ExtractOrComposeKey : T → K;
  field_get : K → C → option T;                       (* field[key] *)
  field_last_modified : K → C → option microseconds;  (* field.LastModified(key) *)
  field_entries : C → list (K * T);                   (* from field.begin() to field.end() *)
  call_Add : T → M;
  call_Erase : K → M;
}.

Class RestFieldSound (C E RB M K T : Type) `{Countable K}
    `{!JournaledField C E RB, !FieldCalls C E RB M, !RestField C M K T} := {
  field_view : C → gmap K T;
  field_times : C → gmap K microseconds;
  field_get_view : ∀ k c, fld_wf c → field_get k c = field_view c !! k;
  field_last_modified_times : ∀ k c, field_last_modified k c = field_times c !! k;
  field_entries_view : ∀ c, fld_wf c → field_entries c ≡ₚ map_to_list (field_view c);
  field_keyed : ∀ c k e, fld_wf c → field_view c !! k = Some e → ExtractOrComposeKey e = k;
  field_stamped : ∀ c k, fld_wf c → is_Some (field_view c !! k) → is_Some (field_times c !! k);
  field_add_ok : ∀ {CK} `{!Clock CK} {EV' RB'} (ie : E → EV') (ir : RB → RB') e (ck : CK) c j, fld_wf c →
    call_ok ie ir (λ c', field_view c' = <[ExtractOrComposeKey e := e]> (field_view c) ∧
                         field_times c' = <[ExtractOrComposeKey e := (Now ck).1]> (field_times c))
      ck c j (exec ie ir (call_Add e) ck c j);
  field_erase_ok : ∀ {CK} `{!Clock CK} {EV' RB'} (ie : E → EV') (ir : RB → RB') k (ck : CK) c j, fld_wf c →
    call_ok ie ir (λ c', field_view c' = delete k (field_view c) ∧
                         field_times c' = match field_view c !! k with
                                          | Some _ => <[k := (Now ck).1]> (field_times c)
                                          | None => field_times c
                                          end)
      ck c j (exec ie ir (call_Erase k) ck c j);
  (** Each call reads the clock once. *)
  field_add_clock : ∀ {CK} `{!Clock CK} {EV' RB'} (ie : E → EV') (ir : RB → RB') e (ck : CK) c j ck' c' j',
    exec ie ir (call_Add e) ck c j = Ok (ck', c', j') → ck' = (Now ck).2;
  field_erase_clock : ∀ {CK} `{!Clock CK} {EV' RB'} (ie : E → EV') (ir : RB → RB') k (ck : CK) c j ck' c' j',
    exec ie ir (call_Erase k) ck c j = Ok (ck', c', j') → ck' = (Now ck).2;
}.

(** The rows or the columns of a matrix, as [MatrixContainerProxy] gives them:
    the entries of one, and all of them with their entries. *)
Class PartialField (C O T : Type) := {
  RowOrCol : O → C → list T;
  RowsOrCols : C → list (O * list T);
}.

(** ** Dictionaries *)

Section DictionaryField.
Context `{Countable K} {T P : Type} `{!DictEntry T K P}.

(** The order of iteration of a hash map is some order; this is the model's. *)
#[export] Instance dict_rest : RestField (GenericDictionary K T) (dict_call K T P) K T := {
  ExtractOrComposeKey e := GetKey (P := P) e;
  field_get := Dictionary.Get;
  field_last_modified := Dictionary.LastModified;
  field_entries d := map_to_list (Dictionary.map_ d);
  call_Add := Dictionary.CallAdd;
  call_Erase := Dictionary.CallErase;
}.

Section Calls.
Context {CK : Type} `{!Clock CK} {EV RB : Type}.
Context (ie : dict_event K T P → EV) (ir : dict_closure K T → RB).

Lemma dict_add_times e (ck : CK) (d : GenericDictionary K T) j ck' d' j' : Dictionary.Add ie ir e ck d j = Ok (ck', d', j') →
  ck' = (Now ck).2 ∧ Dictionary.last_modified_ d' = <[GetKey (P := P) e := (Now ck).1]> (Dictionary.last_modified_ d).
Proof.
  unfold Dictionary.Add. destruct (Now ck) as [now ck1]. simpl.
  destruct (Dictionary.map_ d !! GetKey e), (Dictionary.last_modified_ d !! GetKey e); simpl; try done; by intros [= <- <- <-].
Qed.

Lemma dict_erase_times k (ck : CK) (d : GenericDictionary K T) j ck' d' j' : Dictionary.Erase ie ir k ck d j = Ok (ck', d', j') →
  ck' = (Now ck).2 ∧ Dictionary.last_modified_ d' =
    match Dictionary.map_ d !! k with
    | Some _ => <[k := (Now ck).1]> (Dictionary.last_modified_ d)
    | None => Dictionary.last_modified_ d
    end.
Proof.
  unfold Dictionary.Erase. destruct (Now ck) as [now ck1]. simpl.
  destruct (Dictionary.map_ d !! k), (Dictionary.last_modified_ d !! k); simpl; try done; by intros [= <- <- <-].
Qed.
End Calls.

(** What holds of every result of a call may be added to what it promises. *)
Lemma call_ok_and {C E RB CK EV' RB'} `{!JournaledField C E RB, !Clock CK} (ie : E → EV') (ir : RB → RB') (Q Q' : C → Prop)
    (ck : CK) c j r : call_ok ie ir Q ck c j r → (∀ ck' c' j', r = Ok (ck', c', j') → Q' c') →
  call_ok ie ir (λ c', Q c' ∧ Q' c') ck c j r.
Proof.
  intros (ck' & c' & evs & rbs & Hr & Hw & Hf & Hl & Hck & HQ) HQ'. exists ck', c', evs, rbs.
  split_and!; try done. by eapply HQ'.
Qed.

#[export] Program Instance dict_rest_sound :
  RestFieldSound (GenericDictionary K T) (dict_event K T P) (dict_closure K T) (dict_call K T P) K T := {
  field_view := Dictionary.map_;
  field_times := Dictionary.last_modified_;
}.
Next Obligation. done. Qed.
Next Obligation. done. Qed.
Next Obligation. done. Qed.
Next Obligation. intros d k e Hw. apply Hw. Qed.
Next Obligation. intros d k Hw. apply Hw. Qed.
Next Obligation.
  intros CK ? EV' RB' ie ir e ck d j Hw. apply call_ok_and; [by apply Dictionary.Add_ok|].
  intros ck' d' j' E. by apply dict_add_times in E as [_ ?].
Qed.
Next Obligation.
  intros CK ? EV' RB' ie ir k ck d j Hw. apply call_ok_and; [by apply Dictionary.Erase_ok|].
  intros ck' d' j' E. by apply dict_erase_times in E as [_ ?].
Qed.
Next Obligation. intros CK ? EV' RB' ie ir e ck d j ck' d' j' E. by apply dict_add_times in E as [? _]. Qed.
Next Obligation. intros CK ? EV' RB' ie ir k ck d j ck' d' j' E. by apply dict_erase_times in E as [? _]. Qed.
End DictionaryField.

(** ** Matrices *)

Section MatrixField.
Context `{Countable R, Countable C} {T : Type} `{!MatrixEntry T R C}.

(** [field[key]] of a matrix; the pointer it follows is not dangling. *)
Definition matrix_get (k : R * C) (s : GenericManyToMany R C T) : option T :=
  match ManyToMany.Get k s with Ok o => o | Throw _ => None end.

#[export] Instance mtm_rest : RestField (GenericManyToMany R C T) (mtm_call R C T) (R * C) T := {
  ExtractOrComposeKey := key_of;
  field_get := matrix_get;
  field_last_modified := ManyToMany.LastModified;
  field_entries s := map_to_list (elements_of (ManyToMany.map_ s));
  call_Add := ManyToMany.CallAdd;
  call_Erase := ManyToMany.CallErase;
}.

(** The entries an inner map of pointers points at. *)
Definition inner_entries {A} `{Countable A} (inner : gmap A loc) (s : GenericManyToMany R C T) : list T :=
  omap (λ p, heap (ManyToMany.map_ s) !! p.2) (map_to_list inner).

Definition rows_of : PartialField (GenericManyToMany R C T) R T := {|
  RowOrCol row s := inner_entries (ManyToMany.Row row s) s;
  RowsOrCols s := (λ p, (p.1, inner_entries p.2 s)) <$> map_to_list (ManyToMany.forward_ s);
|}.

Definition cols_of : PartialField (GenericManyToMany R C T) C T := {|
  RowOrCol col s := inner_entries (ManyToMany.Col col s) s;
  RowsOrCols s := (λ p, (p.1, inner_entries p.2 s)) <$> map_to_list (ManyToMany.transposed_ s);
|}.

Section MatrixCalls.
Context {CK : Type} `{!Clock CK} {EV RB : Type}.
Context (ie : matrix_event R C T → EV) (ir : matrix_closure R C T → RB).

Lemma mtm_add_times e (ck : CK) (s : GenericManyToMany R C T) j ck' s' j' : ManyToMany.Add ie ir e ck s j = Ok (ck', s', j') →
  ck' = (Now ck).2 ∧ ManyToMany.last_modified_ s' = <[key_of e := (Now ck).1]> (ManyToMany.last_modified_ s).
Proof.
  unfold ManyToMany.Add. destruct (Now ck) as [now ck1]. cbn [fst snd].
  destruct (slots (ManyToMany.map_ s) !! _) as [p|]; [destruct (deref p _)|];
    destruct (ManyToMany.last_modified_ s !! _); simpl; try done; by intros [= <- <- <-].
Qed.

Lemma mtm_erase_times k (ck : CK) (s : GenericManyToMany R C T) j ck' s' j' : mtm_wf s → ManyToMany.Erase ie ir k ck s j = Ok (ck', s', j') →
  ck' = (Now ck).2 ∧ ManyToMany.last_modified_ s' =
    match elements_of (ManyToMany.map_ s) !! k with
    | Some _ => <[k := (Now ck).1]> (ManyToMany.last_modified_ s)
    | None => ManyToMany.last_modified_ s
    end.
Proof.
  intros Hw. unfold ManyToMany.Erase. destruct (Now ck) as [now ck1]. cbn [fst snd].
  destruct (slots (ManyToMany.map_ s) !! k) as [p|] eqn:Hp.
  - destruct (mtm_entry _ _ _ Hw Hp) as (x & ts & -> & -> & ->). simpl. by intros [= <- <- <-].
  - rewrite (mtm_absent _ _ Hw Hp). by intros [= <- <- <-].
Qed.

Lemma mtm_erase_now k (ck : CK) (s : GenericManyToMany R C T) j ck' s' j' : ManyToMany.Erase ie ir k ck s j = Ok (ck', s', j') → ck' = (Now ck).2.
Proof.
  unfold ManyToMany.Erase. destruct (Now ck) as [now ck1]. cbn [fst snd].
  destruct (slots (ManyToMany.map_ s) !! k) as [p|]; [destruct (deref p _), (ManyToMany.last_modified_ s !! k)|]; simpl; try done; by intros [= <- _ _].
Qed.
End MatrixCalls.

Lemma matrix_get_elements k (s : GenericManyToMany R C T) : mtm_wf s → matrix_get k s = elements_of (ManyToMany.map_ s) !! k.
Proof.
  intros Hw. unfold matrix_get, ManyToMany.Get, index_get. destruct (slots (ManyToMany.map_ s) !! k) as [p|] eqn:Hp.
  - by destruct (mtm_entry _ _ _ Hw Hp) as (x & ts & -> & -> & _).
  - by rewrite (mtm_absent _ _ Hw Hp).
Qed.

#[export] Program Instance mtm_rest_sound :
  RestFieldSound (GenericManyToMany R C T) (matrix_event R C T) (matrix_closure R C T) (mtm_call R C T) (R * C) T := {
  field_view s := elements_of (ManyToMany.map_ s);
  field_times := ManyToMany.last_modified_;
}.
Next Obligation. intros k s Hw. by apply matrix_get_elements. Qed.
Next Obligation. done. Qed.
Next Obligation. done. Qed.
Next Obligation. intros s k e Hw. by apply mtm_keyed. Qed.
Next Obligation. intros s k Hw. by apply mtm_stamped. Qed.
Next Obligation.
  intros CK ? EV' RB' ie ir e ck s j Hw. apply call_ok_and; [by apply ManyToMany.mtm_Add_ok|].
  intros ck' s' j' E. by apply mtm_add_times in E as [_ ?].
Qed.
Next Obligation.
  intros CK ? EV' RB' ie ir k ck s j Hw. apply call_ok_and; [by apply ManyToMany.mtm_Erase_ok|].
  intros ck' s' j' E. by apply mtm_erase_times in E as [_ ?].
Qed.
Next Obligation. intros CK ? EV' RB' ie ir e ck s j ck' s' j' E. by apply mtm_add_times in E as [? _]. Qed.
Next Obligation. intros CK ? EV' RB' ie ir k ck s j ck' s' j' E. by apply mtm_erase_now in E. Qed.
End MatrixField.

(** ** A field among others *)

Section Fields.
Context {C1 E1 RB1 M1 C2 E2 RB2 M2 K T : Type} `{Countable K}.
Context `{!JournaledField C1 E1 RB1, !FieldCalls C1 E1 RB1 M1, !JournaledField C2 E2 RB2, !FieldCalls C2 E2 RB2 M2}.

Section Lifting.
Context {CK : Type} `{!Clock CK} {EV' RB' : Type} (ie : E1 + E2 → EV') (ir : RB1 + RB2 → RB').

Lemma call_ok_inl (Q : C1 → Prop) m (ck : CK) c1 (c2 : C2) j : fld_wf c2 →
  call_ok (ie ∘ inl) (ir ∘ inl) Q ck c1 j (exec (ie ∘ inl) (ir ∘ inl) m ck c1 j) →
  call_ok ie ir (λ c', Q c'.1) ck (c1, c2) j (prod_exec ie ir (inl m) ck (c1, c2) j).
Proof.
  intros Hw2 (ck' & c' & evs & rbs & E & Hw & Hf & Hl & Hck & HQ). simpl. rewrite E.
  exists ck', (c', c2), (inl <$> evs), (inl <$> rbs). rewrite <- !list_fmap_compose, !length_fmap.
  exact (conj eq_refl (conj (conj Hw Hw2) (conj (faithful_inl _ _ _ _ _ Hw2 Hf) (conj Hl (conj Hck HQ))))).
Qed.

Lemma call_ok_inr (Q : C2 → Prop) m (ck : CK) (c1 : C1) c2 j : fld_wf c1 →
  call_ok (ie ∘ inr) (ir ∘ inr) Q ck c2 j (exec (ie ∘ inr) (ir ∘ inr) m ck c2 j) →
  call_ok ie ir (λ c', Q c'.2) ck (c1, c2) j (prod_exec ie ir (inr m) ck (c1, c2) j).
Proof.
  intros Hw1 (ck' & c' & evs & rbs & E & Hw & Hf & Hl & Hck & HQ). simpl. rewrite E.
  exists ck', (c1, c'), (inr <$> evs), (inr <$> rbs). rewrite <- !list_fmap_compose, !length_fmap.
  exact (conj eq_refl (conj (conj Hw1 Hw) (conj (faithful_inr _ _ _ _ _ Hw1 Hf) (conj Hl (conj Hck HQ))))).
Qed.
End Lifting.

(** Not instances: which field is meant is said explicitly. *)
Definition fst_rest `{!RestField C1 M1 K T} : RestField (C1 * C2) (M1 + M2) K T := {|
  ExtractOrComposeKey := ExtractOrComposeKey (RestField := RestField0);
  field_get k c := field_get k c.1;
  field_last_modified k c := field_last_modified k c.1;
  field_entries c := field_entries c.1;
  call_Add e := inl (call_Add e);
  call_Erase k := inl (call_Erase (RestField := RestField0) k);
|}.

Definition snd_rest `{!RestField C2 M2 K T} : RestField (C1 * C2) (M1 + M2) K T := {|
  ExtractOrComposeKey := ExtractOrComposeKey (RestField := RestField0);
  field_get k c := field_get k c.2;
  field_last_modified k c := field_last_modified k c.2;
  field_entries c := field_entries c.2;
  call_Add e := inr (call_Add e);
  call_Erase k := inr (call_Erase (RestField := RestField0) k);
|}.

Ltac split_call :=
  match goal with |- context [mbind _ ?m] => destruct m as [[[? ?] ?]|] eqn:?; simpl; [intros [= <- _ _]|done] end.

#[program] Definition fst_rest_sound `{!RestField C1 M1 K T, !RestFieldSound C1 E1 RB1 M1 K T} :
  RestFieldSound (C1 * C2) (E1 + E2) (RB1 + RB2) (M1 + M2) K T (RestField0 := fst_rest) := {|
  field_view c := field_view c.1;
  field_times c := field_times c.1;
|}.
Next Obligation. intros ? ? k c [Hw _]. exact (field_get_view k _ Hw). Qed.
Next Obligation. intros ? ? k c. exact (field_last_modified_times k _). Qed.
Next Obligation. intros ? ? c [Hw _]. exact (field_entries_view _ Hw). Qed.
Next Obligation. intros ? ? c k e [Hw _]. exact (field_keyed _ k e Hw). Qed.
Next Obligation. intros ? ? c k [Hw _]. exact (field_stamped _ k Hw). Qed.
Next Obligation. intros ? ? CK ? EV' RB' ie ir e ck [c1 c2] j [Hw1 Hw2]. exact (call_ok_inl ie ir _ (call_Add e) ck c1 c2 j Hw2 (field_add_ok _ _ e ck _ j Hw1)). Qed.
Next Obligation. intros ? ? CK ? EV' RB' ie ir k ck [c1 c2] j [Hw1 Hw2]. exact (call_ok_inl ie ir _ (call_Erase k) ck c1 c2 j Hw2 (field_erase_ok _ _ k ck _ j Hw1)). Qed.
Next Obligation. intros ? ? CK ? EV' RB' ie ir e ck c j ck' c' j'. simpl. split_call. eapply (field_add_clock (K := K) (T := T)). eassumption. Qed.
Next Obligation. intros ? ? CK ? EV' RB' ie ir k ck c j ck' c' j'. simpl. split_call. eapply (field_erase_clock (K := K) (T := T)). eassumption. Qed.

#[program] Definition snd_rest_sound `{!RestField C2 M2 K T, !RestFieldSound C2 E2 RB2 M2 K T} :
  RestFieldSound (C1 * C2) (E1 + E2) (RB1 + RB2) (M1 + M2) K T (RestField0 := snd_rest) := {|
  field_view c := field_view c.2;
  field_times c := field_times c.2;
|}.
Next Obligation. intros ? ? k c [_ Hw]. exact (field_get_view k _ Hw). Qed.
Next Obligation. intros ? ? k c. exact (field_last_modified_times k _). Qed.
Next Obligation. intros ? ? c [_ Hw]. exact (field_entries_view _ Hw). Qed.
Next Obligation. intros ? ? c k e [_ Hw]. exact (field_keyed _ k e Hw). Qed.
Next Obligation. intros ? ? c k [_ Hw]. exact (field_stamped _ k Hw). Qed.
Next Obligation. intros ? ? CK ? EV' RB' ie ir e ck [c1 c2] j [Hw1 Hw2]. exact (call_ok_inr ie ir _ (call_Add e) ck c1 c2 j Hw1 (field_add_ok _ _ e ck _ j Hw2)). Qed.
Next Obligation. intros ? ? CK ? EV' RB' ie ir k ck [c1 c2] j [Hw1 Hw2]. exact (call_ok_inr ie ir _ (call_Erase k) ck c1 c2 j Hw1 (field_erase_ok _ _ k ck _ j Hw2)). Qed.
Next Obligation. intros ? ? CK ? EV' RB' ie ir e ck c j ck' c' j'. simpl. split_call. eapply (field_add_clock (K := K) (T := T)). eassumption. Qed.
Next Obligation. intros ? ? CK ? EV' RB' ie ir k ck c j ck' c' j'. simpl. split_call. eapply (field_erase_clock (K := K) (T := T)). eassumption. Qed.
End Fields.
End RestKeys.
