(* ===== verification/RestPlain.v ===== *)
(** * RESTful storage: handlers, storage/rest/plain.h

    [RestImpl] is what storage/api.h asks of the class [REST_IMPL]: for each verb
    of HTTP a handler whose [Enter] looks at the request, and answers it or goes
    on with the key in its URL, and whose [Run] is the transaction.  [Run] of GET
    reads the fields; the others are programs on them ([body] of Transaction.v).
    [Plain] is the implementation with answers in plain text. *)

From Stdlib Require Import ZArith NArith Lia Ascii String.
From stdpp Require Import base gmap list strings.
From S2P Require Import Prelude Time Journal Persistence Decimal Transaction Strings RemoteStream StdMap.
From S2P Require Import HttpHeaders HttpMessage HttpRoutes HttpServer RestTypes RestKeys.
Open Scope Z_scope.

Module RestPlain.
Import Http HttpServer RemoteStream RestTypes RestKeys.

(** What a handler may throw: from the class of headers, [Value] of an [Optional]
    that is empty, or [std::length_error]. *)
Inductive rest_exception :=
| RestHeaderFailed (e : HttpHeaders.header_exception)
| RestNoValue
| RestLengthError.

Definition lift_headers {A} (m : outcome HttpHeaders.header_exception A) : outcome rest_exception A :=
  match m with Ok a => Ok a | Throw e => Throw (RestHeaderFailed e) end.

(** The function of a read-write transaction of a handler. *)
Abbreviation program C M := (Transaction.body C M Response rest_exception).

(** ** Inputs: storage/api_types.h *)

Inductive FieldExportFormat := Simple | Detailed.

Global Instance FieldExportFormat_eq_dec : EqDecision FieldExportFormat.
Proof. solve_decision. Defined.

Record FieldExportParams := mkExportParams {
  format : FieldExportFormat;
  nshards : Z;
  shard : Z;
}.

Record GenericInput := mkGenericInput { restful_url_prefix : bytes; field_name : bytes }.

Record GETInput (U : Type) := mkGETInput {
  get_generic : GenericInput;
  get_url_key : option U;
  is_master : bool;
  requested_export_params : option FieldExportParams;
}.
Arguments mkGETInput {U} _ _ _ _.
Arguments get_generic {U} _.
Arguments get_url_key {U} _.
Arguments is_master {U} _.
Arguments requested_export_params {U} _.

Record POSTInput (T : Type) := mkPOSTInput { post_generic : GenericInput; post_entry : T; overwrite : bool }.
Arguments mkPOSTInput {T} _ _ _.
Arguments post_generic {T} _.
Arguments post_entry {T} _.
Arguments overwrite {T} _.

Record PUTInput (K T : Type) := mkPUTInput { put_generic : GenericInput; put_key : K; put_entry : T; put_entry_key : K }.
Arguments mkPUTInput {K T} _ _ _ _.
Arguments put_generic {K T} _.
Arguments put_key {K T} _.
Arguments put_entry {K T} _.
Arguments put_entry_key {K T} _.

Record PATCHInput (K : Type) := mkPATCHInput { patch_generic : GenericInput; patch_key : K; patch_body : bytes }.
Arguments mkPATCHInput {K} _ _ _.
Arguments patch_generic {K} _.
Arguments patch_key {K} _.
Arguments patch_body {K} _.

Record DELETEInput (K : Type) := mkDELETEInput { delete_generic : GenericInput; delete_key : K }.
Arguments mkDELETEInput {K} _ _.
Arguments delete_generic {K} _.
Arguments delete_key {K} _.

(** ** The interface *)

(** The state of the handler object that [Enter] leaves for [Run] is in the types
    [get_context] and [write_context]. *)
Record RestImpl (C M U K T : Type) := mkRestImpl {
  get_context : Type;
  write_context : Type;
  ErrorMethodNotAllowed : bytes → bytes → Response;
  ErrorBadJSON : bytes → Response;
  GET_Enter : Request → entered (get_context * option U);
  GET_Run : get_context → GETInput U → C → ended Response rest_exception;
  POST_Enter : Request → entered ();
  POST_Run : POSTInput T → program C M;
  PUT_Enter : Request → entered (write_context * U);
  PUT_Run : write_context → PUTInput K T → program C M;
  PATCH_Enter : Request → entered (write_context * U);
  PATCH_Run : write_context → PATCHInput K → program C M;
  DELETE_Enter : Request → entered (write_context * U);
  DELETE_Run : write_context → DELETEInput K → program C M;
}.
Arguments mkRestImpl {C M U K T}.
Arguments get_context {C M U K T} _.
Arguments write_context {C M U K T} _.
Arguments ErrorMethodNotAllowed {C M U K T} _.
Arguments ErrorBadJSON {C M U K T} _.
Arguments GET_Enter {C M U K T} _.
Arguments GET_Run {C M U K T} _.
Arguments POST_Enter {C M U K T} _.
Arguments POST_Run {C M U K T} _.
Arguments PUT_Enter {C M U K T} _.
Arguments PUT_Run {C M U K T} _.
Arguments PATCH_Enter {C M U K T} _.
Arguments PATCH_Run {C M U K T} _.
Arguments DELETE_Enter {C M U K T} _.
Arguments DELETE_Run {C M U K T} _.

(** The handler of GET for a row or a column of a matrix. *)
Record PartialImpl (C : Type) := mkPartialImpl {
  partial_context : Type;
  PARTIAL_Enter : Request → entered (partial_context * option bytes);
  PARTIAL_Run : partial_context → GenericInput → option bytes → C → ended Response rest_exception;
}.
Arguments mkPartialImpl {C}.
Arguments partial_context {C} _.
Arguments PARTIAL_Enter {C} _.
Arguments PARTIAL_Run {C} _.

(** [Enter] that has nothing to remember. *)
Definition no_context {A} (e : entered A) : entered (() * A) :=
  match e with Answered_with ops => Answered_with ops | Next a => Next ((), a) end.

(** ** Plain *)

Definition nope : bytes := newline_after "Nope.".
Definition bad_json : bytes := newline_after "Bad JSON.".

Definition Plain_ErrorMethodNotAllowed (method error_message : bytes) : Response :=
  text_response (str "Method " ++ method ++ str " not allowed. " ++ error_message ++ [newline]) MethodNotAllowed.

Definition no_key_initialization (field_name : bytes) : bytes :=
  str "Storage field `" ++ field_name ++ str "` does not support key initialization.".

Section Plain.
Context {C M U K T B : Type} `{!EqDecision K, !RestField C M K T, !FieldTypeDependent U K, !RestJSON K T B}.
(** The method [InitializeOwnKey] of the entry, if it has one. *)
Context (InitializeOwnKey : option (T → T)).

Definition Plain_RunIterate (c : C) : bytes :=
  field_entries c ≫= λ kv, TabbedKey (ExtractOrComposeKey kv.2) ++ tab :: JSON (EntryObject kv.2) ++ [newline].

Definition Plain_GET_Run (input : GETInput U) (c : C) : ended Response rest_exception :=
  match get_url_key input with
  | Some url_key =>
      match field_get (ParseURLKey url_key) c with
      | Some value => Returned (object_response (EntryObject value) OK)
      | None => Returned (text_response nope NotFound)
      end
  | None => Returned (text_response (Plain_RunIterate c) OK)
  end.

Definition Plain_POST_Enter (r : Request) : entered () :=
  match CallWithOrWithoutKeyFromURL (FieldTypeDependent := FieldTypeDependent0) r with
  | Some _ => Answered_with [respond_text (newline_after "Should not have resource key in the URL.") BadRequest]
  | None => Next ()
  end.

Definition Plain_POST_Run (input : POSTInput T) : program C M :=
  match InitializeOwnKey with
  | None => Return (Plain_ErrorMethodNotAllowed (str "POST") (no_key_initialization (field_name (post_generic input))))
  | Some initialize =>
      let entry := initialize (post_entry input) in
      let entry_key := ExtractOrComposeKey entry in
      Look (λ c,
        if overwrite input || negb (bool_decide (is_Some (field_get entry_key c))) then
          Mutate (call_Add entry) (Return (text_response (ComposeURLKey entry_key) Created))
        else Return (text_response (newline_after "Already exists.") Conflict))
  end.

Definition Plain_PUT_Run (input : PUTInput K T) : program C M :=
  if bool_decide (put_entry_key input = put_key input) then
    Look (λ c,
      let exists_ := bool_decide (is_Some (field_get (put_entry_key input) c)) in
      Mutate (call_Add (put_entry input))
        (if exists_ then Return (text_response (newline_after "Updated.") OK)
         else Return (text_response (newline_after "Created.") Created)))
  else Return (text_response (newline_after "The object key doesn't match the URL key.") BadRequest).

Definition Plain_PATCH_Run (input : PATCHInput K) : program C M :=
  Look (λ c,
    match field_get (patch_key input) c with
    | Some value =>
        match PatchObjectWithJSON value (patch_body input) with
        | Ok value =>
            if bool_decide (ExtractOrComposeKey value ≠ patch_key input) then
              Return (text_response (newline_after "PATCH should not change the key.") BadRequest)
            else Mutate (call_Add value) (Return (text_response (newline_after "Patched.") OK))
        | Throw _ => Return (text_response bad_json BadRequest)
        end
    | None => Return (text_response nope NotFound)
    end).

Definition Plain_DELETE_Run (input : DELETEInput K) : program C M :=
  Mutate (call_Erase (delete_key input)) (Return (text_response (newline_after "Deleted.") OK)).

Definition Plain : RestImpl C M U K T := {|
  get_context := ();
  write_context := ();
  ErrorMethodNotAllowed := Plain_ErrorMethodNotAllowed;
  ErrorBadJSON _ := text_response bad_json BadRequest;
  GET_Enter r := no_context (CallWithOptionalKeyFromURL r);
  GET_Run _ := Plain_GET_Run;
  POST_Enter := Plain_POST_Enter;
  POST_Run := Plain_POST_Run;
  PUT_Enter r := no_context (CallWithKeyFromURL r);
  PUT_Run _ := Plain_PUT_Run;
  PATCH_Enter r := no_context (CallWithKeyFromURL r);
  PATCH_Run _ := Plain_PATCH_Run;
  DELETE_Enter r := no_context (CallWithKeyFromURL r);
  DELETE_Run _ := Plain_DELETE_Run;
|}.

(** Rows or columns; [O] is the type of the outer key. *)
Definition Plain_PARTIAL_Run {O} `{!KeyText O} (p : PartialField C O T) (url_key : option bytes) (c : C) : ended Response rest_exception :=
  match url_key with
  | Some key =>
      match RowOrCol (FromString key) c with
      | [] => Returned (text_response nope NotFound)
      | iterable => Returned (text_response (iterable ≫= λ e, JSON (EntryObject e) ++ [newline]) OK)
      end
  | None =>
      Returned (text_response
        (RowsOrCols c ≫= λ it, ToString it.1 ++ tab :: ToString_uint64 (N.of_nat (length it.2)) ++ [newline]) OK)
  end.

Definition Plain_Partial {O} `{!KeyText O} (p : PartialField C O T) : PartialImpl C := {|
  partial_context := ();
  PARTIAL_Enter r := no_context (Next (key_from_url r));
  PARTIAL_Run _ _ := Plain_PARTIAL_Run p;
|}.
End Plain.
End RestPlain.
