(* ===== verification/RestStructured.v ===== *)
(** * RESTful storage: structured answers, storage/rest/structured.h, simple.h, hypermedia.h

    [Structured] is the implementation of [RestImpl] with JSON objects as answers,
    conditional requests ([If-Unmodified-Since]) and the export of a whole field.
    How a resource and a collection are presented is up to a formatter: [Simple]
    lists the URLs of the entries of a collection, [Hypermedia] sends it in pages. *)

From Stdlib Require Import ZArith NArith Lia Ascii String.
From stdpp Require Import base gmap list strings.
From S2P Require Import Prelude Time Journal Persistence Decimal Transaction Strings PubSub RemoteStream StdMap HttpDate.
From S2P Require Import HttpHeaders HttpMessage HttpRoutes HttpServer RestTypes RestKeys RestPlain.
Open Scope Z_scope.

Module RestStructured.
Import Http HttpServer RemoteStream HttpDate RestTypes RestKeys RestPlain.

Definition kLastModifiedHeader : bytes := str "Last-Modified".
Definition kCurrentLastModifiedHeader : bytes := str "X-Current-Last-Modified".
Definition kIfUnmodifiedSinceHeader : bytes := str "If-Unmodified-Since".
Definition kCurrentIfUnmodifiedSinceHeader : bytes := str "X-Current-If-Unmodified-Since".
Definition kRESTfulDataURLComponent : bytes := str "data".

(** ** Formatters *)

(** A collection is given as the key and the entry of each element, or the key of
    each row or column and its entries. *)
Record Formatter (T : Type) := mkFormatter {
  Context_ : Type;
  default_context : Context_;
  read_context : Request → Context_;
  BuildResponseForResource : Context_ → bytes → bytes → T → outcome rest_exception Response;
  BuildResponseWithCollection : Context_ → bytes → bytes → list (bytes * T) → outcome rest_exception Response;
  BuildResponseWithSubCollections : Context_ → bytes → bytes → list (bytes * list T) → outcome rest_exception Response;
}.
Arguments mkFormatter {T}.
Arguments Context_ {T} _.
Arguments default_context {T} _.
Arguments read_context {T} _.
Arguments BuildResponseForResource {T} _.
Arguments BuildResponseWithCollection {T} _.
Arguments BuildResponseWithSubCollections {T} _.

(** ** Conditional requests *)

Section Structured.
Context {C M U K T B : Type} `{!EqDecision K, !RestField C M K T, !FieldTypeDependent U K, !RestJSON K T B}.
Context (InitializeOwnKey : option (T → T)).
(** [GenericHashFunction<KEY>]. *)
Context (hasher : K → Z).
Context (fmt : Formatter T).

Definition invalid_header (message : string) (header value : bytes) : list respond_op :=
  [respond_object (K := K) (T := T) (B := B) (GenericObject (ErrorResponseObject (InvalidHeaderError (str message) header value))) BadRequest].

(** The headers that are asked for are not about cookies, so nothing is thrown;
    the model stops with the exception of the class of headers if it is. *)
Definition ExtractIfUnmodifiedSinceOrRespondWithError (r : Request) : entered (option microseconds) :=
  let hs := request_headers r in
  match HttpHeaders.Has kCurrentIfUnmodifiedSinceHeader hs with
  | Throw _ => Answered_with [UserException]
  | Ok true =>
      match HttpHeaders.Get kCurrentIfUnmodifiedSinceHeader hs with
      | Throw _ => Answered_with [UserException]
      | Ok header_value =>
          let parsed_us := FromString_int64 header_value in
          if 0 <? parsed_us then Next (Some parsed_us)
          else Answered_with (invalid_header "Invalid microsecond timestamp value." kCurrentIfUnmodifiedSinceHeader header_value)
      end
  | Ok false =>
      match HttpHeaders.Has kIfUnmodifiedSinceHeader hs with
      | Throw _ => Answered_with [UserException]
      | Ok true =>
          match HttpHeaders.Get kIfUnmodifiedSinceHeader hs with
          | Throw _ => Answered_with [UserException]
          | Ok header_value =>
              match ParseHTTPDate header_value with
              | Ok t => Next (Some t)
              | Throw _ => Answered_with (invalid_header "Unparsable datetime value." kIfUnmodifiedSinceHeader header_value)
              end
          end
      | Ok false => Next None
      end
  end.

(** [Enter] of PUT, PATCH and DELETE. *)
Definition conditional_Enter (r : Request) : entered (option microseconds * U) :=
  match ExtractIfUnmodifiedSinceOrRespondWithError r with
  | Answered_with ops => Answered_with ops
  | Next since =>
      match CallWithKeyFromURL r with
      | Answered_with ops => Answered_with ops
      | Next key => Next (since, key)
      end
  end.

(** [Exists(if_unmodified_since) && Exists(last_modified) && Value(last_modified) > Value(if_unmodified_since)],
    and the two times. *)
Definition modified_since (since last_modified : option microseconds) : option (microseconds * microseconds) :=
  match since, last_modified with
  | Some t, Some lm => if t <? lm then Some (t, lm) else None
  | _, _ => None
  end.

Definition error_response (e : RESTError) (code : HTTPResponseCodeValue) : Response := ErrorResponse (K := K) (T := T) (B := B) e code.
Definition update_response (o : RESTResourceUpdateResponse) (code : HTTPResponseCodeValue) : Response :=
  object_response (K := K) (T := T) (B := B) (UpdateObject o) code.

(** [response.SetHeader(...)], twice, if there is a time. *)
Definition SetLastModified (last_modified : option microseconds) (r : Response) : outcome rest_exception Response :=
  match last_modified with
  | Some t =>
      r ← lift_headers (with_header kLastModifiedHeader (FormatDateTimeAsIMFFix t) r);
      lift_headers (with_header kCurrentLastModifiedHeader (ToString_int64 t) r)
  | None => Ok r
  end.

Definition finish (m : outcome rest_exception Response) : program C M :=
  match m with Ok r => Return r | Throw e => Raise e end.

Definition ended_with (m : outcome rest_exception Response) : ended Response rest_exception :=
  match m with Ok r => Returned r | Throw e => Threw e end.

(** ** GET *)

Definition collection_url (g : GenericInput) : bytes :=
  restful_url_prefix g ++ "/"%char :: kRESTfulDataURLComponent ++ "/"%char :: field_name g.

Definition resource_not_found (key : bytes) : Response :=
  error_response (ResourceNotFoundError (str "The requested resource was not found.") (details [("key"%string, key)])) NotFound.

(** [detailed_export_entry_t(Value(last_modified), ...)]. *)
Definition detailed_entry (c : C) (kv : K * T) : outcome rest_exception (HypermediaRESTDetailedExportEntry K T) :=
  match field_last_modified kv.1 c with
  | Some t => Ok (make_DetailedExportEntry t kv.1 kv.2)
  | None => Throw RestNoValue
  end.

Definition GET_resource (context : Context_ fmt) (input : GETInput U) (url_key : U) (c : C) : outcome rest_exception Response :=
  let key := ParseURLKey url_key in
  match field_get key c with
  | Some value =>
      match requested_export_params input with
      | None =>
          let url_collection := collection_url (get_generic input) in
          response ← BuildResponseForResource fmt context (url_collection ++ "/"%char :: FormatURLKey (K := K) url_key) url_collection value;
          SetLastModified (field_last_modified key c) response
      | Some params =>
          if bool_decide (format params = Detailed) then
            entry ← detailed_entry c (key, value);
            Ok (object_response (DetailedObject entry) OK)
          else Ok (object_response (EntryObject value) OK)
      end
  | None => Ok (resource_not_found (FormatURLKey (K := K) url_key))
  end.

Definition in_shard (params : FieldExportParams) (key : K) : bool :=
  negb ((1 <? nshards params) && negb (hasher key mod nshards params =? shard params)).

(** One round of the loop over the field. *)
Definition export_entry (params : FieldExportParams) (c : C) (kv : K * T) : outcome rest_exception bytes :=
  if bool_decide (format params = Detailed) then
    entry ← detailed_entry c kv;
    Ok (JSON_Minimalistic (DetailedObject entry) ++ [","%char])
  else Ok (JSON_Minimalistic (EntryObject kv.2) ++ [newline]).

Fixpoint export_loop (params : FieldExportParams) (c : C) (l : list (K * T)) (result : bytes) : outcome rest_exception bytes :=
  match l with
  | [] => Ok result
  | kv :: l =>
      if in_shard params kv.1 then
        text ← export_entry params c kv;
        export_loop params c l (result ++ text)
      else export_loop params c l result
  end.

(** [seekp(-1)], and what is written next goes over the last character. *)
Definition export_text (params : FieldExportParams) (c : C) : outcome rest_exception bytes :=
  if bool_decide (format params = Detailed) then
    result ← export_loop params c (field_entries c) ["["%char];
    Ok ((if 1 <? Z.of_nat (length result) then removelast result else result) ++ ["]"%char; newline])
  else export_loop params c (field_entries c) [].

(** A field is exported by followers only, unless [CURRENT_ALLOW_STORAGE_EXPORT_FROM_MASTER] is defined. *)
Definition GET_collection (context : Context_ fmt) (input : GETInput U) (c : C) : outcome rest_exception Response :=
  match requested_export_params input with
  | None =>
      let url := collection_url (get_generic input) in
      BuildResponseWithCollection fmt context url url ((λ kv, (ComposeURLKey (ExtractOrComposeKey kv.2), kv.2)) <$> field_entries c)
  | Some params =>
      if is_master input then
        Ok (error_response (mkError (str "NotFollowerMode") (str "Can only request full export from a Follower storage.") None) Forbidden)
      else
        text ← export_text params c;
        Ok (text_response text OK)
  end.

Definition Structured_GET_Run (context : Context_ fmt) (input : GETInput U) (c : C) : ended Response rest_exception :=
  ended_with (match get_url_key input with
              | Some url_key => GET_resource context input url_key c
              | None => GET_collection context input c
              end).

(** ** POST *)

Definition Structured_ErrorMethodNotAllowed (method error_message : bytes) : Response :=
  error_response (MethodNotAllowedError error_message method) MethodNotAllowed.

Definition Structured_ErrorBadJSON (error_message : bytes) : Response :=
  error_response (ParseJSONError (str "Invalid JSON in request body.") error_message) BadRequest.

Definition Structured_POST_Enter (r : Request) : entered () :=
  if negb (args_size r =? 0)%nat then
    Answered_with [respond_object (K := K) (T := T) (B := B)
      (GenericObject (ErrorResponseObject (InvalidKeyError (str "Should not have resource key in the URL.") None))) BadRequest]
  else Next ().

Definition Structured_POST_Run (input : POSTInput T) : program C M :=
  match InitializeOwnKey with
  | None => Return (Structured_ErrorMethodNotAllowed (str "POST") (no_key_initialization (field_name (post_generic input))))
  | Some initialize =>
      let entry := initialize (post_entry input) in
      let entry_key := ExtractOrComposeKey entry in
      let key := ComposeURLKey entry_key in
      Look (λ c,
        if overwrite input || negb (bool_decide (is_Some (field_get entry_key c))) then
          Mutate (call_Add entry)
            (Look (λ c,
              let url := collection_url (post_generic input) ++ "/"%char :: key in
              finish (SetLastModified (field_last_modified entry_key c)
                (update_response (mkUpdate (mkGeneric true (Some (str "Resource created.")) None) (Some url)) Created))))
        else
          Return (update_response
            (mkUpdate (mkGeneric false (Some (str "Resource creation failed."))
               (Some (ResourceAlreadyExistsError (str "The resource already exists") (details [("key"%string, key)])))) None) Conflict))
  end.

(** ** PUT *)

Definition was_modified (message : string) (times : microseconds * microseconds) : Response :=
  error_response (ResourceWasModifiedError (str message) times.1 times.2) PreconditionFailed.

Definition not_updated : string := "Resource can not be updated as it has been modified in the meantime.".
Definition not_deleted : string := "Resource can not be deleted as it has been modified in the meantime.".

(** What PUT does once the keys match and the resource may be changed. *)
Definition PUT_entry (input : PUTInput K T) (exists_ : bool) : program C M :=
  Mutate (call_Add (put_entry input))
    (Look (λ c,
      let url := collection_url (put_generic input) ++ "/"%char :: ComposeURLKey (put_key input) in
      let response :=
        if exists_ then update_response (mkUpdate (mkGeneric true (Some (str "Resource updated.")) None) (Some url)) OK
        else update_response (mkUpdate (mkGeneric true (Some (str "Resource created.")) None) (Some url)) Created in
      finish (SetLastModified (field_last_modified (put_entry_key input) c) response))).

Definition Structured_PUT_Run (if_unmodified_since : option microseconds) (input : PUTInput K T) : program C M :=
  if bool_decide (put_entry_key input = put_key input) then
    Look (λ c,
      let exists_ := bool_decide (is_Some (field_get (put_entry_key input) c)) in
      match (if exists_ then modified_since if_unmodified_since (field_last_modified (put_entry_key input) c) else None) with
      | Some times => Return (was_modified not_updated times)
      | None => PUT_entry input exists_
      end)
  else
    Return (error_response
      (InvalidKeyError (str "The object key doesn't match the URL key.")
        (Some (details [("object_key"%string, ComposeURLKey (put_entry_key input)); ("url_key"%string, ComposeURLKey (put_key input))])))
      BadRequest).

(** ** PATCH *)

Definition PATCH_value (input : PATCHInput K) (value : T) : program C M :=
  let url := collection_url (patch_generic input) ++ "/"%char :: ComposeURLKey (patch_key input) in
  match PatchObjectWithJSON value (patch_body input) with
  | Ok value =>
      let entry_key := ExtractOrComposeKey value in
      if bool_decide (entry_key ≠ patch_key input) then
        Return (error_response
          (InvalidKeyError (str "PATCH should not change the key.")
            (Some (details [("object_key"%string, ComposeURLKey entry_key); ("url_key"%string, ComposeURLKey (patch_key input))])))
          BadRequest)
      else
        Mutate (call_Add value)
          (Look (λ c,
            finish (SetLastModified (field_last_modified (patch_key input) c)
              (update_response (mkUpdate (mkGeneric true (Some (str "Resource patched.")) None) (Some url)) OK))))
  | Throw _ => Return (error_response (ParseJSONError (str "Invalid JSON in request body.") (patch_body input)) BadRequest)
  end.

Definition Structured_PATCH_Run (if_unmodified_since : option microseconds) (input : PATCHInput K) : program C M :=
  Look (λ c,
    match field_get (patch_key input) c with
    | Some value =>
        match modified_since if_unmodified_since (field_last_modified (patch_key input) c) with
        | Some times => Return (was_modified not_updated times)
        | None => PATCH_value input value
        end
    | None => Return (resource_not_found (ComposeURLKey (patch_key input)))
    end).

(** ** DELETE *)

Definition DELETE_key (input : DELETEInput K) (existed : bool) : program C M :=
  let message := if existed then str "Resource deleted." else str "Resource didn't exist." in
  Mutate (call_Erase (delete_key input))
    (Look (λ c,
      let response := update_response (mkUpdate (mkGeneric true (Some message) None) None) OK in
      finish (if existed then SetLastModified (field_last_modified (delete_key input) c) response else Ok response))).

Definition Structured_DELETE_Run (if_unmodified_since : option microseconds) (input : DELETEInput K) : program C M :=
  Look (λ c,
    match field_get (delete_key input) c with
    | Some _ =>
        match modified_since if_unmodified_since (field_last_modified (delete_key input) c) with
        | Some times => Return (was_modified not_deleted times)
        | None => DELETE_key input true
        end
    | None => DELETE_key input false
    end).

(** [Enter] of GET; [Hypermedia] reads its context from the parameters first. *)
Definition Structured_GET_Enter (r : Request) : entered (Context_ fmt * option U) :=
  Next (read_context fmt r, CallWithOrWithoutKeyFromURL (FieldTypeDependent := FieldTypeDependent0) r).

Definition Structured : RestImpl C M U K T := {|
  get_context := Context_ fmt;
  write_context := option microseconds;
  ErrorMethodNotAllowed := Structured_ErrorMethodNotAllowed;
  ErrorBadJSON := Structured_ErrorBadJSON;
  GET_Enter := Structured_GET_Enter;
  GET_Run := Structured_GET_Run;
  POST_Enter := Structured_POST_Enter;
  POST_Run := Structured_POST_Run;
  PUT_Enter := conditional_Enter;
  PUT_Run := Structured_PUT_Run;
  PATCH_Enter := conditional_Enter;
  PATCH_Run := Structured_PATCH_Run;
  DELETE_Enter := conditional_Enter;
  DELETE_Run := Structured_DELETE_Run;
|}.

(** ** Rows and columns *)

Definition Structured_PARTIAL_Run {O} `{!KeyText O} (p : PartialField C O T) (suffix : bytes) (context : Context_ fmt) (g : GenericInput)
    (url_key : option bytes) (c : C) : ended Response rest_exception :=
  let url := collection_url g ++ "."%char :: suffix in
  ended_with
    (match url_key with
     | Some key =>
         match RowOrCol (FromString key) c with
         | [] => Ok (error_response (ResourceNotFoundError (str "The requested key has was not found.") (details [("key"%string, key)])) NotFound)
         | iterable =>
             BuildResponseWithCollection fmt context (url ++ "/"%char :: key) (collection_url g)
               ((λ e, (ComposeURLKey (ExtractOrComposeKey e), e)) <$> iterable)
         end
     | None => BuildResponseWithSubCollections fmt context url url ((λ it, (ToString it.1, it.2)) <$> RowsOrCols c)
     end).

(** [PartialKeySuffix] is "1" for rows and "2" for columns. *)
Definition Structured_Partial {O} `{!KeyText O} (p : PartialField C O T) (suffix : bytes) : PartialImpl C := {|
  partial_context := Context_ fmt;
  PARTIAL_Enter r := Next (read_context fmt r, key_from_url r);
  PARTIAL_Run := Structured_PARTIAL_Run p suffix;
|}.
End Structured.

(** ** Simple *)

Section Simple.
Context {K T B : Type} `{!RestJSON K T B}.

Definition simple_container (pagination_url collection_url : bytes) (keys : list bytes) : Response :=
  object_response (K := K) (T := T) (B := B) (SimpleContainerObject
    (mkSimpleContainer (mkGeneric true None None) pagination_url ((λ key, collection_url ++ "/"%char :: key) <$> keys))) OK.

Definition SimpleResponseFormatter : Formatter T := {|
  Context_ := ();
  default_context := ();
  read_context _ := ();
  BuildResponseForResource _ url _ entry :=
    Ok (object_response (K := K) (B := B) (SimpleRecordObject (mkSimpleRecord true url entry)) OK);
  BuildResponseWithCollection _ pagination_url collection_url span := Ok (simple_container pagination_url collection_url span.*1);
  BuildResponseWithSubCollections _ pagination_url collection_url span := Ok (simple_container pagination_url collection_url span.*1);
|}.
End Simple.

(** ** Hypermedia *)

(** Arithmetic of [uint64_t]. *)
Definition u64 (z : Z) : N := Z.to_N (z mod 2 ^ 64).
Definition u64_add (a b : N) : N := u64 (Z.of_N a + Z.of_N b).
Definition u64_sub (a b : N) : N := u64 (Z.of_N a - Z.of_N b).
Definition u64_mul (a b : N) : N := u64 (Z.of_N a * Z.of_N b).

Record HypermediaContext := mkContext {
  brief : bool;
  query_i : N;
  query_n : N;
}.

Definition hypermedia_default : HypermediaContext := mkContext false 0 10.

(** [Hypermedia::RESTfulDataHandler<GET, ...>::Enter]. *)
Definition hypermedia_context (r : Request) : HypermediaContext :=
  mkContext ((bool_decide (query_at "fields" r = str "brief") || query_has "brief" r) && negb (query_has "full" r))
    (PubSub.FromString_uint64 (query_get "i" (ToString_uint64 (query_i hypermedia_default)) r))
    (PubSub.FromString_uint64 (query_get "n" (ToString_uint64 (query_n hypermedia_default)) r)).

(** The loop over the collection: the elements of the page, and whether there
    are elements before and after it. *)
Fixpoint page_loop {A} (i n current_index : N) (span : list A) (page : list A) (has_previous_page : bool) : list A * bool * bool :=
  match span with
  | [] => (page, has_previous_page, false)
  | x :: span =>
      let last := u64_add i n in
      if (i <=? current_index)%N && (current_index <? last)%N then
        page_loop i n (u64_add current_index 1) span (page ++ [x]) has_previous_page
      else if (current_index <? i)%N then page_loop i n (u64_add current_index 1) span page true
      else if (last <=? current_index)%N then (page, has_previous_page, true)
      else page_loop i n (u64_add current_index 1) span page has_previous_page
  end.

Definition gen_page_url (pagination_url : bytes) (url_i url_n : N) : bytes :=
  pagination_url ++ str "?i=" ++ ToString_uint64 url_i ++ str "&n=" ++ ToString_uint64 url_n.

(** Where the previous and the next page start. *)
Definition previous_index (i n : N) : N := if (n <=? i)%N then u64_sub i n else 0%N.
Definition next_index (i n total : N) : N :=
  if (total <? u64_add i (u64_mul n 2))%N then u64_sub total n else u64_add i n.

Section Hypermedia.
Context {K T B : Type} `{!RestJSON K T B}.
(** [brief_of_t<ENTRY>], if it is not the entry itself. *)
Context (brief_of : option (T → B)).
(** [max_size()] of the vector of records, beyond which [reserve] throws. *)
Context (max_records : N).

Definition hypermedia_resource (context : HypermediaContext) (url url_collection : bytes) (entry : T) : outcome rest_exception Response :=
  Ok (match brief_of with
      | Some f =>
          if negb (brief context) then object_response (SingleRecordObject (make_SingleRecord url url_collection entry)) OK
          else object_response (SingleBriefObject (make_SingleRecord url url_collection (f entry))) OK
      | None => object_response (SingleRecordObject (make_SingleRecord url url_collection entry)) OK
      end).

(** [BuildResponseWithCollection]; [show] is [PopulateCollectionRecord]. *)
Definition hypermedia_page {A D} (context : HypermediaContext) (pagination_url collection_url : bytes) (show : A → D)
    (span : list (bytes * A)) : outcome rest_exception (HypermediaRESTCollectionResponse D) :=
  if (max_records <? query_n context)%N then Throw RestLengthError
  else
    let total := N.of_nat (length span) in
    let '(page, has_previous_page, has_next_page) := page_loop (query_i context) (query_n context) 0 span [] false in
    let records := (λ x, mkCollectionRecord (collection_url ++ "/"%char :: x.1) (show x.2)) <$> page in
    let i := if (total <? query_i context)%N then total else query_i context in
    let n := query_n context in
    Ok (mkCollection true (gen_page_url pagination_url i n) collection_url i (N.min n (u64_sub total i)) total
          (if has_next_page : bool then Some (gen_page_url pagination_url (next_index i n total) n) else None)
          (if has_previous_page : bool then Some (gen_page_url pagination_url (previous_index i n) n) else None)
          records).

(** The number of entries of a row or a column, and the first three. *)
Definition sub_collection (l : list T) : RESTSubCollection T := mkSubCollection (Z.of_nat (length l)) (take 3 l).

Definition HypermediaResponseFormatter : Formatter T := {|
  Context_ := HypermediaContext;
  default_context := hypermedia_default;
  read_context := hypermedia_context;
  BuildResponseForResource := hypermedia_resource;
  BuildResponseWithCollection context pagination_url collection_url span :=
    match brief_of with
    | Some f =>
        o ← hypermedia_page context pagination_url collection_url f span;
        Ok (object_response (K := K) (BriefCollectionObject o) OK)
    | None =>
        o ← hypermedia_page context pagination_url collection_url id span;
        Ok (object_response (K := K) (B := B) (FullCollectionObject o) OK)
    end;
  BuildResponseWithSubCollections context pagination_url collection_url span :=
    o ← hypermedia_page context pagination_url collection_url sub_collection span;
    Ok (object_response (K := K) (B := B) (SubCollectionObject o) OK);
|}.
End Hypermedia.
End RestStructured.
