(* ===== verification/RestApi.v ===== *)
(** * RESTful storage: storage/api.h

    [RESTfulStorage] registers the routes of a storage with an HTTP server: for
    each field, its data under [/data/] and its schema under [/schema/], and for
    all of them the queries and commands under [/cqs/].  A handler runs one
    transaction on the storage and answers the request from within it.

    A handler here is a function of the request, of the part of the object that
    changes ([Live]) and of the storage; it gives the storage after it and the
    calls it makes to answer.  The answer is sent inside the transaction, which
    would catch an exception that sending throws; the model keeps the call and
    HttpServer.v runs it.  The publishing mutex is held throughout, so a request
    is one step. *)

From Stdlib Require Import ZArith NArith Lia Ascii String.
From stdpp Require Import base gmap list strings.
From S2P Require Import Prelude Time Journal Persistence Decimal Transaction Strings Url PubSub RemoteStream StdMap State Tcp.
From S2P Require Import HttpHeaders HttpMessage HttpRoutes HttpServer RestTypes RestKeys RestPlain RestStructured.
Open Scope Z_scope.

Module RestApi.
Import Http HttpRoutes HttpServer RestTypes RestKeys RestPlain RestStructured.

Definition kRESTfulSchemaURLComponent : bytes := str "schema".
Definition kRESTfulCQSCommandURLComponent : bytes := str "cqs/command".
Definition kRESTfulCQSQueryURLComponent : bytes := str "cqs/query".

(** [current::FromString<uint32_t>]. *)
Definition FromString_uint32 (s : bytes) : Z :=
  let s := drop (leading_spaces s) s in
  let '(minus, s) := match s with
                     | "-"%char :: s' => (true, s')
                     | "+"%char :: s' => (false, s')
                     | _ => (false, s)
                     end in
  if starts_with_digit s then
    let z := read_digits 0 s in
    if z <? 2 ^ 32 then (if minus : bool then (- z) mod 2 ^ 32 else z) else 0
  else 0.

Definition export_params (r : Request) : option FieldExportParams :=
  if query_has "export" r then
    Some (mkExportParams (if bool_decide (query_at "export" r = str "detailed") then Detailed else Simple)
            (FromString_uint32 (query_get "nshards" (str "0") r)) (FromString_uint32 (query_get "shard" (str "0") r)))
  else None.

Section Api.
Context {C E RB M : Type} `{!JournaledField C E RB, !FieldCalls C E RB M}.
Context {CK : Type} `{!Clock CK}.
Context {P EN : Type} `{!Persister P EN}.
Context (of_transaction : Transaction E → EN).

Abbreviation storage := (@Storage C E RB CK P).
Implicit Type s : storage.

(** A transaction whose second step is the request: it answers with what the
    first one returns. *)
Definition respond (r : Response) (ops : list respond_op) : list respond_op * ended Response rest_exception :=
  (ops ++ [RespondResponse r], Returned r).

Definition read_only (f : C → ended Response rest_exception) s : outcome storage_error (storage * list respond_op) :=
  '(ops, _) ← TransactionFromLockedSection_two_step_const f respond s [];
  Ok (s, ops).

Definition read_write (f : program C M) s : outcome storage_error (storage * list respond_op) :=
  '(s, ops, _) ← ReadWriteTransaction_two_step of_transaction f respond s [];
  Ok (s, ops).

(** [handler.Enter(request, next)]. *)
Definition enter {A} (e : entered A) (next : A → storage → outcome storage_error (storage * list respond_op)) s
    : outcome storage_error (storage * list respond_op) :=
  match e with Answered_with ops => Ok (s, ops) | Next a => next a s end.

(** ** The handler of a field *)

Section DataHandler.
Context {U K T B : Type} `{!EqDecision K, !RestField C M K T, !FieldTypeDependent U K, !RestJSON K T B}.
Context (impl : RestImpl C M U K T) (g : GenericInput).

Definition handle_GET (r : Request) s : outcome storage_error (storage * list respond_op) :=
  enter (GET_Enter impl r) (λ '(context, url_key) s,
    read_only (GET_Run impl context (mkGETInput g url_key (publisher_used_ s) (export_params r))) s) s.

Definition handle_POST (r : Request) s : outcome storage_error (storage * list respond_op) :=
  enter (POST_Enter impl r) (λ _ s,
    match ParseJSON (RestJSON := RestJSON0) (request_body r) with
    | Ok mutable_entry => read_write (POST_Run impl (mkPOSTInput g mutable_entry (query_has "overwrite" r))) s
    | Throw e => Ok (s, [RespondResponse (ErrorBadJSON impl e)])
    end) s.

Definition handle_PUT (r : Request) s : outcome storage_error (storage * list respond_op) :=
  enter (PUT_Enter impl r) (λ '(context, input_url_key) s,
    let url_key := ParseURLKey input_url_key in
    match ParseJSON (RestJSON := RestJSON0) (request_body r) with
    | Ok entry => read_write (PUT_Run impl context (mkPUTInput g url_key entry (ExtractOrComposeKey entry))) s
    | Throw e => Ok (s, [RespondResponse (ErrorBadJSON impl e)])
    end) s.

Definition handle_PATCH (r : Request) s : outcome storage_error (storage * list respond_op) :=
  enter (PATCH_Enter impl r) (λ '(context, input_url_key) s,
    read_write (PATCH_Run impl context (mkPATCHInput g (ParseURLKey input_url_key) (request_body r))) s) s.

Definition handle_DELETE (r : Request) s : outcome storage_error (storage * list respond_op) :=
  enter (DELETE_Enter impl r) (λ '(context, input_url_key) s,
    read_write (DELETE_Run impl context (mkDELETEInput g (ParseURLKey input_url_key))) s) s.

Definition is_method (m : string) (r : Request) : bool := bool_decide (request_method r = str m).

Definition generic_data_handler (r : Request) s : outcome storage_error (storage * list respond_op) :=
  let is_master := publisher_used_ s in
  if is_method "GET" r then handle_GET r s
  else if is_method "POST" r && is_master then handle_POST r s
  else if is_method "PUT" r && is_master then handle_PUT r s
  else if is_method "PATCH" r && is_master then handle_PATCH r s
  else if is_method "DELETE" r && is_master then handle_DELETE r s
  else
    let error_message := if is_master then str "Supported methods: GET, PUT, PATCH, POST, DELETE." else str "Supported methods: GET." in
    Ok (s, [RespondResponse (ErrorMethodNotAllowed impl (request_method r) error_message)]).
End DataHandler.

(** [GenerateRowOrColHandler]. *)
Definition row_or_col_handler (error_method : bytes → bytes → Response) (p : PartialImpl C) (g : GenericInput) (r : Request) s
    : outcome storage_error (storage * list respond_op) :=
  if bool_decide (request_method r = str "GET") then
    enter (PARTIAL_Enter p r) (λ '(context, url_key) s, read_only (PARTIAL_Run p context g url_key) s) s
  else Ok (s, [RespondResponse (error_method (request_method r) (str "Only GET method is allowed for partial key operations."))]).

(** ** Queries and commands *)

Record CQSParameters := mkCQSParameters {
  cqs_restful_url_prefix : bytes;
  original_url : Url.URL;
  original_url_path_args : URLPathArgs;
  http_method : bytes;
  http_headers : HttpHeaders.Headers;
}.

Definition make_CQSParameters (prefix : bytes) (r : Request) : CQSParameters :=
  mkCQSParameters prefix (request_url r) (url_path_args r) (request_method r) (request_headers r).

(** The type of a query or command: how many fields it has, its default value,
    and how the library fills it from JSON or from URL parameters. *)
Inductive FillObjectMode := Forgiving | Strict.

Record cqs_type (Q : Type) := mkCQSType {
  field_count : nat;
  default_object : Q;
  parse_json : bytes → Q → outcome bytes Q;
  fill_object : FillObjectMode → gmap bytes bytes → Q → outcome bytes Q;
}.
Arguments field_count {Q} _.
Arguments default_object {Q} _.
Arguments parse_json {Q} _.
Arguments fill_object {Q} _.

(** [JSON] of the objects that are answered to a query or a command. *)
Context (JSON_generic : RESTGenericResponse → bytes).
Context (api_ErrorMethodNotAllowed : bytes → bytes → Response).

Definition generic_response (o : RESTGenericResponse) (code : HTTPResponseCodeValue) : Response :=
  mkResponse true (JSON_generic o ++ [newline]) code kDefaultJSONContentType HttpHeaders.no_headers true.

Definition ParseCQSRequest {Q} (t : cqs_type Q) (mode : FillObjectMode) (r : Request) : entered Q :=
  if (0 <? field_count t)%nat then
    match request_body r with
    | [] =>
        match fill_object t mode (query r) (default_object t) with
        | Ok object => Next object
        | Throw what => Answered_with [RespondWith (JSON_generic (CQSParseURLException what) ++ [newline]) (Some BadRequest) None (Some kDefaultJSONContentType)]
        end
    | body =>
        match parse_json t body (default_object t) with
        | Ok object => Next object
        | Throw what => Answered_with [RespondWith (JSON_generic (CQSParseJSONException what) ++ [newline]) (Some BadRequest) None (Some kDefaultJSONContentType)]
        end
    end
  else Next (default_object t).

(** What the maps of queries and commands hold: the parser and the function,
    with the type they agree on. *)
Record cqs_query := mkQuery {
  query_t : Type;
  parse_query : Request → entered query_t;
  run_query : C → query_t → CQSParameters → ended Response rest_exception;
}.

Record cqs_command := mkCommand {
  command_t : Type;
  parse_command : Request → entered command_t;
  run_command : command_t → CQSParameters → program C M;
}.

(** The part of [RESTfulStorage::Data] that handlers see. *)
Record Live := mkLive {
  up_status_ : bool;
  cqs_query_map_ : gmap bytes cqs_query;
  cqs_command_map_ : gmap bytes cqs_command;
}.

Definition rest_handler : Type := Request → Live → storage → outcome storage_error (storage * list respond_op).

(** Nothing but the storage matters to the handlers of fields. *)
Definition of_field (h : Request → storage → outcome storage_error (storage * list respond_op)) : rest_handler := λ r _ s, h r s.

Definition answered (r : Response) s : outcome storage_error (storage * list respond_op) := Ok (s, [RespondResponse r]).

Definition cqs_query_handler (prefix : bytes) : rest_handler := λ r live s,
  if (args_size r =? 0)%nat then answered (generic_response CQSHandlerNotSpecified NotFound) s
  else if negb (bool_decide (request_method r = str "GET")) then
    answered (api_ErrorMethodNotAllowed (request_method r) (str "CQS queries must be GET-s.")) s
  else
    match cqs_query_map_ live !! arg 0 r with
    | Some q =>
        enter (parse_query q r) (λ query s, read_only (λ c, run_query q c query (make_CQSParameters prefix r)) s) s
    | None => answered (generic_response CQSHandlerNotFound NotFound) s
    end.

Definition cqs_command_handler (prefix : bytes) : rest_handler := λ r live s,
  if negb (publisher_used_ s) then answered (generic_response CQSCommandNeedsMasterStorage ServiceUnavailable) s
  else if negb (bool_decide (request_method r = str "POST")) && negb (bool_decide (request_method r = str "PUT")) &&
          negb (bool_decide (request_method r = str "PATCH")) then
    answered (api_ErrorMethodNotAllowed (request_method r) (str "CQS commands must be {POST|PUT|PATCH}-es.")) s
  else if (args_size r =? 0)%nat then answered (generic_response CQSHandlerNotSpecified NotFound) s
  else
    match cqs_command_map_ live !! arg 0 r with
    | Some c => enter (parse_command c r) (λ command s, read_write (run_command c command (make_CQSParameters prefix r)) s) s
    | None => answered (generic_response CQSHandlerNotFound NotFound) s
    end.

(** The lambdas of [AddCQSQuery] and [AddCQSCommand] for a type and its method. *)
Definition make_query {Q} (t : cqs_type Q) (Query : C → Q → CQSParameters → ended Response rest_exception) : cqs_query :=
  mkQuery Q (ParseCQSRequest t Forgiving) Query.

Definition make_command {Q} (name : string) (t : cqs_type Q) (Command : Q → CQSParameters → program C M) : cqs_command :=
  mkCommand Q (ParseCQSRequest t Strict) (λ q params, SetMeta "X-Current-CQS-Command" name (Command q params)).

(** ** Routes *)

Record RESTfulRoute := mkRoute {
  resource_prefix : bytes;
  resource_suffix : bytes;
  resource_args_mask : CountMask;
  route_handler : rest_handler;
}.

Definition mask_None_or_One : CountMask := Z.lor mask_None mask_One.

(** The routes that [PerFieldRESTfulHandlerGenerator] registers for a field; its
    schema in each language is generated by the reflection library. *)
Definition schema_routes (schema : list (bytes * rest_handler)) : list RESTfulRoute :=
  (λ p, mkRoute kRESTfulSchemaURLComponent p.1 mask_None p.2) <$> schema.

Definition single_key_routes (h : rest_handler) (schema : list (bytes * rest_handler)) : list RESTfulRoute :=
  mkRoute kRESTfulDataURLComponent [] mask_Any h ::
  ((λ suffix, mkRoute kRESTfulDataURLComponent (str suffix) mask_Any h) <$> [".key"; ".0"; ".K"]%string) ++ schema_routes schema.

Definition paired_key_routes (h row_handler col_handler : rest_handler) (schema : list (bytes * rest_handler)) : list RESTfulRoute :=
  mkRoute kRESTfulDataURLComponent [] mask_Any h ::
  ((λ suffix, mkRoute kRESTfulDataURLComponent ("."%char :: str suffix) mask_None_or_One row_handler) <$> ["1"; "row"; "left"; "l"; "L"]%string) ++
  ((λ suffix, mkRoute kRESTfulDataURLComponent ("."%char :: str suffix) mask_None_or_One col_handler) <$> ["2"; "col"; "right"; "r"; "R"]%string) ++
  schema_routes schema.

(** [std::multimap<std::string, RESTfulRoute>]: sorted by key, equal keys in the
    order they were inserted. *)
Fixpoint string_less (a b : bytes) : bool :=
  match a, b with
  | _, [] => false
  | [], _ :: _ => true
  | x :: a, y :: b =>
      if (N_of_ascii x <? N_of_ascii y)%N then true
      else if (N_of_ascii y <? N_of_ascii x)%N then false
      else string_less a b
  end.

Fixpoint multimap_insert (key : bytes) (route : RESTfulRoute) (m : list (bytes * RESTfulRoute)) : list (bytes * RESTfulRoute) :=
  match m with
  | [] => [(key, route)]
  | (key', route') :: m' =>
      if string_less key key' then (key, route) :: m else (key', route') :: multimap_insert key route m'
  end.

(** From [lower_bound(key)] to [upper_bound(key)]. *)
Definition equal_range (key : bytes) (m : list (bytes * RESTfulRoute)) : list RESTfulRoute :=
  (filter (λ p, p.1 = key) m).*2.

(** ** RESTfulStorage *)

Record Data := mkData {
  route_prefix_ : bytes;
  handler_routes_ : list (bytes * CountMask);
  handlers_ : list (bytes * RESTfulRoute);
  handlers_scope_ : HTTPRoutesScope;
  live : Live;
}.

Inductive api_exception :=
| RoutePrefixEndsWithSlash
| UndefinedAliasTarget (target : bytes)
| CQSAlreadyRegistered (name : bytes)
| RouteFailed (e : route_exception).

(** The object and the routes of the server of its port. *)
Record registration := mkRegistration { data_ : Data; server : routes rest_handler }.

Abbreviation registering := (io registration api_exception).

Definition set_scope (scope : HTTPRoutesScope) (d : Data) : Data :=
  mkData (route_prefix_ d) (handler_routes_ d) (handlers_ d) scope (live d).
Definition set_handler_routes (l : list (bytes * CountMask)) (d : Data) : Data :=
  mkData (route_prefix_ d) l (handlers_ d) (handlers_scope_ d) (live d).
Definition set_live (l : Live) (d : Data) : Data :=
  mkData (route_prefix_ d) (handler_routes_ d) (handlers_ d) (handlers_scope_ d) l.

(** [data_->handlers_scope_ += HTTP(port).Register(path, mask, handler)]. *)
Definition register_scoped (path : bytes) (mask : CountMask) (h : rest_handler) : registering () := λ x,
  match Register ThrowOnAttempt path (Some mask) h (server x) with
  | (Ok rhs, hs) => (Ok (), mkRegistration (set_scope (scope_add (handlers_scope_ (data_ x)) rhs) (data_ x)) hs)
  | (Throw e, hs) => (Throw (RouteFailed e), mkRegistration (data_ x) hs)
  end.

Definition route_path (prefix field_name : bytes) (route : RESTfulRoute) : bytes :=
  prefix ++ "/"%char :: resource_prefix route ++
  match field_name with [] => [] | _ => "/"%char :: field_name end ++ resource_suffix route.

Definition RegisterRoute (field_name : bytes) (route : RESTfulRoute) : registering () := λ x,
  let path := route_path (route_prefix_ (data_ x)) field_name route in
  let d := set_handler_routes (handler_routes_ (data_ x) ++ [(path, resource_args_mask route)]) (data_ x) in
  register_scoped path (resource_args_mask route) (route_handler route) (mkRegistration d (server x)).

Fixpoint register_routes (l : list (bytes * RESTfulRoute)) : registering () :=
  match l with
  | [] => mret ()
  | (name, route) :: l => _ ← RegisterRoute name route; register_routes l
  end.

(** [RegisterTopLevel] of [REST_IMPL]: nothing for [Plain]; for [Structured], the
    list of the fields and the status. *)
Fixpoint register_top_level (l : list (bytes * rest_handler)) : registering () :=
  match l with
  | [] => mret ()
  | (path, h) :: l => _ ← register_scoped path mask_None h; register_top_level l
  end.

Definition Structured_TopLevel (JSON_top : RESTTopLevel → bytes) (JSON_status : RESTStatus → bytes) (prefix route_prefix : bytes)
    (field_names : list bytes) : list (bytes * rest_handler) :=
  let code (up : bool) := if up then OK else ServiceUnavailable in
  [(route_prefix, λ r live s,
      let up := up_status_ live in
      let top := make_RESTTopLevel prefix up in
      let urls := foldl (λ m f, <[f := prefix ++ "/"%char :: kRESTfulDataURLComponent ++ "/"%char :: f]> m) (url_data top) field_names in
      Ok (s, [RespondWith (JSON_top (mkTopLevel (top_url top) (url_status top) urls (top_up top)) ++ [newline]) (Some (code up)) None (Some kDefaultJSONContentType)]));
   (if bool_decide (route_prefix = ["/"%char]) then str "/status" else route_prefix ++ str "/status", λ r live s,
      let up := up_status_ live in
      Ok (s, [RespondWith (JSON_status (mkStatus up) ++ [newline]) (Some (code up)) None (Some kDefaultJSONContentType)]))].

(** [ForEachFieldByIndex::RegisterIt] and [RegisterCQSHandlers] fill [handlers_]:
    the fields that are exposed, with their routes, in the order of the storage. *)
Definition all_handlers (prefix : bytes) (fields : list (bytes * list RESTfulRoute)) : list (bytes * RESTfulRoute) :=
  let m := foldl (λ m '(name, rs), foldl (λ m route, multimap_insert name route m) m rs) [] fields in
  multimap_insert [] (mkRoute kRESTfulCQSCommandURLComponent [] mask_None_or_One (cqs_command_handler prefix))
    (multimap_insert [] (mkRoute kRESTfulCQSQueryURLComponent [] mask_None_or_One (cqs_query_handler prefix)) m).

(** The constructor.  An exception destroys [data_], and with it the scope. *)
Definition make_RESTfulStorage (route_prefix prefix : bytes) (fields : list (bytes * list RESTfulRoute))
    (top_level : list (bytes * rest_handler)) : io (routes rest_handler) api_exception Data := λ hs,
  if negb (bool_decide (route_prefix = [])) && last_is_slash route_prefix then (Throw RoutePrefixEndsWithSlash, hs)
  else
    let d := mkData route_prefix [] (all_handlers prefix fields) [] (mkLive true ∅ ∅) in
    match (_ ← register_routes (handlers_ d); register_top_level top_level) (mkRegistration d hs) with
    | (Ok _, x) => (Ok (data_ x), server x)
    | (Throw e, x) => (Throw e, (ReleaseCaptured (handlers_scope_ (data_ x)) (server x)).2)
    end.

Definition RegisterAlias (target alias_name : bytes) : registering () := λ x,
  match equal_range target (handlers_ (data_ x)) with
  | [] => (Throw (UndefinedAliasTarget target), x)
  | l => register_routes ((λ route, (alias_name, route)) <$> l) x
  end.

Definition AddCQSQuery (name : bytes) (q : cqs_query) : registering () := λ x,
  let l := live (data_ x) in
  match cqs_query_map_ l !! name with
  | Some _ => (Throw (CQSAlreadyRegistered name), x)
  | None => (Ok (), mkRegistration (set_live (mkLive (up_status_ l) (<[name := q]> (cqs_query_map_ l)) (cqs_command_map_ l)) (data_ x)) (server x))
  end.

Definition AddCQSCommand (name : bytes) (c : cqs_command) : registering () := λ x,
  let l := live (data_ x) in
  match cqs_command_map_ l !! name with
  | Some _ => (Throw (CQSAlreadyRegistered name), x)
  | None => (Ok (), mkRegistration (set_live (mkLive (up_status_ l) (cqs_query_map_ l) (<[name := c]> (cqs_command_map_ l))) (data_ x)) (server x))
  end.

Definition Serve503 : rest_handler := λ r live s,
  Ok (s, [RespondWith ("{"%char :: "034"%char :: str "error" ++ "034"%char :: ":"%char :: "034"%char ::
    str "In graceful shutdown mode. Come back soon." ++ "034"%char :: "}"%char :: [newline]) (Some ServiceUnavailable) None None]).

Fixpoint switch_routes (l : list (bytes * CountMask)) : registering () :=
  match l with
  | [] => mret ()
  | (path, mask) :: l =>
      _ ← (λ x, match Register SilentlyUpdateExisting path (Some mask) Serve503 (server x) with
                | (Ok _, hs) => (Ok (), mkRegistration (data_ x) hs)
                | (Throw e, hs) => (Throw (RouteFailed e), mkRegistration (data_ x) hs)
                end);
      switch_routes l
  end.

Definition SwitchHTTPEndpointsTo503s : registering () := λ x,
  let l := live (data_ x) in
  switch_routes (handler_routes_ (data_ x))
    (mkRegistration (set_live (mkLive false (cqs_query_map_ l) (cqs_command_map_ l)) (data_ x)) (server x)).

(** The destructor releases the scope. *)
Definition destroy_RESTfulStorage (d : Data) : io (routes rest_handler) route_exception () := ReleaseCaptured (handlers_scope_ d).

(** ** On the server *)

(** The handlers of the server while the object and the storage are in a given
    state; an exception from a handler is caught by the server. *)
Definition handler_in (l : Live) s (h : rest_handler) : handler := λ r,
  match h r l s with Ok (_, ops) => ops | Throw _ => [UserException] end.

Definition handlers_in (l : Live) s (hs : routes rest_handler) : routes handler :=
  (λ m : gmap nat rest_handler, handler_in l s <$> m) <$> hs.
End Api.
End RestApi.
