(* ===== verification/RestRoutes.v ===== *)
(** * RESTful storage: its routes

    What [RESTfulStorage] does to the routes of the server, from its constructor to
    its destructor: whatever is registered through the object is owned by its
    scope, nothing else is touched, and releasing the scope leaves the routes that
    were there before. *)

From Stdlib Require Import ZArith NArith Lia Ascii String.
From stdpp Require Import base gmap list strings.
From S2P Require Import Prelude Time Journal Persistence Transaction Strings Url StdMap State Tcp.
From S2P Require Import HttpHeaders HttpMessage HttpRoutes HttpServer RestTypes RestKeys RestPlain RestStructured RestApi.
Open Scope nat_scope.

Module RestRoutes.
Import Http HttpRoutes HttpServer RestTypes RestKeys RestPlain RestStructured RestApi.

(** ** Scopes over any handlers *)

Section Scopes.
Context {F : Type}.
Implicit Type hs : routes F.

(** The route [path] with [i] arguments is one that [entry] registered. *)
Definition owns (entry : bytes * CountMask) (path : bytes) (i : nat) : bool := selected entry.1 entry.2 all_counts path i.

Definition mask_ok (mask : CountMask) : Prop := ∃ i, i ∈ all_counts ∧ has_count mask i = true.

Lemma mask_ok_nonzero mask : mask_ok mask → (mask ≠ 0)%Z.
Proof.
  intros (i & Hi & Hm) ->. unfold has_count in Hm. rewrite Z.land_0_l in Hm. apply Z.eqb_eq in Hm.
  unfold all_counts, MaxArgsCount in Hi. apply elem_of_seq in Hi. unfold mask_shift, mask_None in Hm.
  rewrite Z.shiftl_1_l, Z.mod_small in Hm; [|split; [lia|apply Z.pow_lt_mono_r; lia]]. lia.
Qed.

(** [hs] is [hs0] and the routes of the scope. *)
Record scope_inv hs0 (scope : HTTPRoutesScope) hs : Prop := {
  scope_wf0 : routes_wf hs0;
  scope_wf : routes_wf hs;
  scope_masks : ∀ e, e ∈ scope → mask_ok e.2;
  scope_disjoint : ∀ l1 e l2, scope = l1 ++ e :: l2 → ∀ e' path i, e' ∈ l1 → owns e path i = true → owns e' path i = false;
  scope_owned : ∀ e path i, e ∈ scope → owns e path i = true → is_Some (handler_at path i hs) ∧ handler_at path i hs0 = None;
  scope_other : ∀ path i, (∀ e, e ∈ scope → owns e path i = false) → handler_at path i hs = handler_at path i hs0;
}.

Lemma scope_inv_start hs : routes_wf hs → scope_inv hs [] hs.
Proof.
  intros Hwf. split; try done.
  - by intros e ?%elem_of_nil.
  - by intros l1 e l2 ?%app_cons_not_nil.
  - by intros e path i ?%elem_of_nil.
Qed.

(** Releasing the scope leads back. *)
Lemma scope_release hs0 scope hs : scope_inv hs0 scope hs → ReleaseCaptured scope hs = (Ok (), hs0).
Proof.
  revert hs. induction scope as [|e scope IH] using rev_ind; intros hs [Hw0 Hw Hm Hd Ho Hx].
  - unfold ReleaseCaptured. simpl. unfold mret, io_ret. f_equal. apply routes_ext; [done..|]. intros path i. apply Hx. by intros e ?%elem_of_nil.
  - unfold ReleaseCaptured. rewrite rev_app_distr. destruct e as [path mask]. simpl.
    assert ((path, mask) ∈ scope ++ [(path, mask)]) as Hin by (apply elem_of_app; right; apply list_elem_of_here).
    destruct (unregister_counts_ok path mask all_counts hs Hw all_counts_nodup) as (hs1 & H1 & Hw1 & Hat).
    { intros i Hi Hmi. apply (Ho _ path i Hin). unfold owns, selected. simpl. by rewrite !bool_decide_eq_true_2, Hmi by done. }
    unfold UnRegister. rewrite (io_bind_ok _ _ _ _ _ H1). apply IH. split; [done|done| | | |].
    + intros e He. apply Hm, elem_of_app. by left.
    + intros l1 e l2 ->. apply (Hd l1 e (l2 ++ [(path, mask)])). by rewrite <- app_assoc.
    + intros e path' i He Hown. destruct (Ho e path' i) as [Hs Hn]; [apply elem_of_app; by left|done|]. split; [|done].
      rewrite Hat. destruct (selected path mask all_counts path' i) eqn:Hsel; [|done].
      by rewrite (Hd scope (path, mask) [] eq_refl e path' i He Hsel) in Hown.
    + intros path' i Hnone. rewrite Hat. destruct (selected path mask all_counts path' i) eqn:Hsel.
      * by destruct (Ho (path, mask) path' i Hin Hsel) as [_ ->].
      * apply Hx. intros e [He| ->%list_elem_of_singleton]%elem_of_app; [by apply Hnone|done].
Qed.

(** Registering adds to the scope. *)
Lemma scope_register hs0 scope hs path mask h rhs hs' : scope_inv hs0 scope hs → mask_ok mask →
  Register ThrowOnAttempt path (Some mask) h hs = (Ok rhs, hs') →
  rhs = [(path, mask)] ∧ scope_inv hs0 (scope ++ [(path, mask)]) hs' ∧
  (∀ path' i, owns (path, mask) path' i = true → handler_at path' i hs = None) ∧
  ∀ path' i, handler_at path' i hs' = if owns (path, mask) path' i then Some h else handler_at path' i hs.
Proof.
  intros [Hw0 Hw Hm Hd Ho Hx] Hmask Hreg. pose proof Hmask as (n & Hn & Hmn).
  destruct (DoRegisterHandler_ok path h mask _ _ _ _ (mask_ok_nonzero _ Hmask) Hreg) as (_ & -> & Hat & Hold). simpl in *.
  assert (∀ path' i, owns (path, mask) path' i = true → handler_at path' i hs = None) as Hfree.
  { intros path' i Hown. unfold owns, selected in Hown. simpl in Hown.
    apply andb_true_iff in Hown as [->%bool_decide_eq_true Hi]. apply andb_true_iff in Hi as [Hi%bool_decide_eq_true Hmi]. by apply Hold. }
  assert (∀ e path' i, e ∈ scope → owns (path, mask) path' i = true → owns e path' i = false) as Hdis.
  { intros e path' i He Hown. destruct (owns e path' i) eqn:Ee; [|done].
    destruct (Ho e path' i He Ee) as [[x Hs] _]. by rewrite (Hfree _ _ Hown) in Hs. }
  split; [done|]. split; [|split; [exact Hfree|exact Hat]]. split; [done|by apply (register_wf _ _ _ _ _ _ _ n Hw Hn Hmn Hreg)| | | |].
  - intros e [He| ->%list_elem_of_singleton]%elem_of_app; [by apply Hm|done].
  - intros l1 e l2 E e' path' i He' Hown. destruct (decide (l2 = [])) as [->|Hl2].
    + apply app_inj_tail in E as [-> <-]. by apply Hdis.
    + destruct (exists_last Hl2) as (l3 & x & ->). rewrite app_comm_cons, app_assoc in E. apply app_inj_tail in E as [-> _].
      by apply (Hd l1 e l3 eq_refl e' path' i).
  - intros e path' i [He| ->%list_elem_of_singleton]%elem_of_app Hown.
    + destruct (Ho e path' i He Hown) as [Hs Hn0]. split; [|done]. rewrite Hat.
      destruct (selected path mask all_counts path' i) eqn:Hsel; [by eexists|done].
    + split; [rewrite Hat; unfold owns in Hown; simpl in Hown; rewrite Hown; by eexists|].
      rewrite <- (Hx path' i); [by apply Hfree|]. intros e He. by apply Hdis.
  - intros path' i Hnone. rewrite Hat. specialize (Hnone (path, mask)) as Hself. unfold owns in Hself. simpl in Hself.
    rewrite Hself by (apply elem_of_app; right; apply list_elem_of_here). apply Hx. intros e He. apply Hnone, elem_of_app. by left.
Qed.

(** Updating routes of the scope in place keeps it. *)
Lemma scope_update hs0 scope hs path mask h rhs hs' : scope_inv hs0 scope hs → (path, mask) ∈ scope →
  Register SilentlyUpdateExisting path (Some mask) h hs = (Ok rhs, hs') →
  scope_inv hs0 scope hs' ∧ ∀ path' i, handler_at path' i hs' = if owns (path, mask) path' i then Some h else handler_at path' i hs.
Proof.
  intros [Hw0 Hw Hm Hd Ho Hx] Hin Hreg. pose proof (Hm _ Hin) as Hmask. simpl in Hmask. pose proof Hmask as (n & Hn & Hmn).
  destruct (DoRegisterHandler_ok path h mask _ _ _ _ (mask_ok_nonzero _ Hmask) Hreg) as (_ & _ & Hat & _).
  split; [|exact Hat]. split; [done|by apply (register_wf _ _ _ _ _ _ _ n Hw Hn Hmn Hreg)|done|done| |].
  - intros e path' i He Hown. destruct (Ho e path' i He Hown) as [Hs Hn0]. split; [|done]. rewrite Hat. by destruct (selected _ _ _ _ _).
  - intros path' i Hnone. rewrite Hat. specialize (Hnone _ Hin) as Hself. unfold owns in Hself. simpl in Hself. rewrite Hself. by apply Hx.
Qed.

(** Routes that exist can be updated, and can not be registered. *)
Definition taken (path : bytes) (mask : CountMask) hs : Prop :=
  ∀ i, i ∈ all_counts → has_count mask i = true → is_Some (handler_at path i hs).

Lemma update_possible path mask h hs : mask_ok mask → ValidateRoute path = Ok () → taken path mask hs → ∃ hs',
  Register SilentlyUpdateExisting path (Some mask) h hs = (Ok [], hs').
Proof.
  intros Hm Hv Ht. unfold Register, DoRegisterHandler. change (default mask_None (Some mask)) with mask.
  destruct (Z.eqb_spec mask 0) as [->|_]; [by apply mask_ok_nonzero in Hm|]. rewrite Hv.
  assert (∀ counts, (∀ i, i ∈ counts → i ∈ all_counts) → check_counts path mask SilentlyUpdateExisting hs counts = Ok ()) as Hc.
  { induction counts as [|i counts IH]; intros Hsub; [done|]. simpl. unfold check_count.
    rewrite IH by (intros j Hj; apply Hsub; by apply list_elem_of_further). destruct (has_count mask i) eqn:Hmi; [|done].
    destruct (Ht i) as [x ->]; [apply Hsub, list_elem_of_here|done|done]. }
  cbn [mbind outcome_bind]. rewrite Hc by done. by eexists.
Qed.

Lemma taken_not_registered path mask h hs : mask_ok mask → taken path mask hs → ∃ e,
  Register ThrowOnAttempt path (Some mask) h hs = (Throw e, hs).
Proof.
  intros Hm Ht. destruct (Register ThrowOnAttempt path (Some mask) h hs) as [[rhs|e] hs'] eqn:Hreg.
  - destruct (DoRegisterHandler_ok path h mask _ _ _ _ (mask_ok_nonzero _ Hm) Hreg) as (_ & _ & _ & Hfree).
    destruct Hm as (i & Hi & Hmi). simpl in Hfree. destruct (Ht i Hi Hmi) as [x Hx]. by rewrite (Hfree i Hi Hmi) in Hx.
  - apply Register_throws in Hreg as ->. by exists e.
Qed.

(** The routes of the scope can be updated. *)
Lemma scope_update_possible hs0 scope hs path mask h : scope_inv hs0 scope hs → (path, mask) ∈ scope → ValidateRoute path = Ok () →
  ∃ hs', Register SilentlyUpdateExisting path (Some mask) h hs = (Ok [], hs').
Proof.
  intros Hs Hin Hv. apply update_possible; [apply (scope_masks _ _ _ Hs _ Hin)|done|]. intros i Hi Hmi.
  apply (scope_owned _ _ _ Hs (path, mask) path i Hin). unfold owns, selected. simpl. by rewrite Hmi, !bool_decide_eq_true_2 by done.
Qed.
End Scopes.

(** ** The routes of a storage *)

Section Storage.
Context {C E RB M CK P : Type}.
Abbreviation registration := (@registration C E RB M CK P).
Abbreviation rest_handler := (@rest_handler C E RB M CK P).
Abbreviation RESTfulRoute := (@RESTfulRoute C E RB M CK P).
Implicit Type x : registration.

(** What holds whatever happens, and what holds as long as nothing was thrown:
    the routes the object remembers are those of its scope. *)
Definition reg_scope hs0 x : Prop := scope_inv hs0 (handlers_scope_ (data_ x)) (server x).

Definition reg_inv hs0 x : Prop :=
  reg_scope hs0 x ∧ (∀ e, e ∈ handler_routes_ (data_ x) → e ∈ handlers_scope_ (data_ x) ∧ ValidateRoute e.1 = Ok ()) ∧
  (∀ p, p ∈ handlers_ (data_ x) → mask_ok (resource_args_mask p.2)).

Lemma register_scoped_inv hs0 path mask (h : rest_handler) x : reg_scope hs0 x → mask_ok mask →
  match register_scoped path mask h x with
  | (Ok _, x') => reg_scope hs0 x' ∧ ValidateRoute path = Ok () ∧
      handlers_scope_ (data_ x') = handlers_scope_ (data_ x) ++ [(path, mask)] ∧
      handler_routes_ (data_ x') = handler_routes_ (data_ x) ∧ handlers_ (data_ x') = handlers_ (data_ x) ∧ live (data_ x') = live (data_ x) ∧
      route_prefix_ (data_ x') = route_prefix_ (data_ x) ∧
      (∀ path' i h', handler_at path' i (server x) = Some h' → handler_at path' i (server x') = Some h') ∧
      ∀ path' i, handler_at path' i (server x') = if owns (path, mask) path' i then Some h else handler_at path' i (server x)
  | (Throw _, x') => x' = x
  end.
Proof.
  intros Hx Hm. unfold register_scoped. destruct (Register _ _ _ _ _) as [[rhs|e] hs'] eqn:Hreg.
  - destruct (scope_register _ _ _ _ _ _ _ _ Hx Hm Hreg) as (-> & Hinv & Hfree & Hat).
    pose proof (DoRegisterHandler_ok _ _ _ _ _ _ _ (mask_ok_nonzero _ Hm) Hreg) as (Hv & _). split_and!; try done.
    intros path' i h' Hold. cbn [server]. rewrite Hat. destruct (owns _ path' i) eqn:Hown; [|done]. by rewrite (Hfree _ _ Hown) in Hold.
  - apply Register_throws in Hreg as ->. by destruct x.
Qed.

(** One more route that the object remembers. *)
Lemma RegisterRoute_inv hs0 name (route : RESTfulRoute) x x' : reg_inv hs0 x → mask_ok (resource_args_mask route) →
  RegisterRoute name route x = (Ok (), x') →
  reg_inv hs0 x' ∧ handlers_ (data_ x') = handlers_ (data_ x) ∧ route_prefix_ (data_ x') = route_prefix_ (data_ x) ∧
  live (data_ x') = live (data_ x) ∧
  (∀ path' i h, handler_at path' i (server x) = Some h → handler_at path' i (server x') = Some h) ∧
  ∀ path' i, handler_at path' i (server x') =
    if owns (route_path (route_prefix_ (data_ x)) name route, resource_args_mask route) path' i then Some (route_handler route)
    else handler_at path' i (server x).
Proof.
  intros (Hs & Hr & Hh) Hm. unfold RegisterRoute. set (path := route_path _ _ _). set (y := mkRegistration _ _).
  pose proof (register_scoped_inv hs0 path (resource_args_mask route) (route_handler route) y Hs Hm) as Hreg.
  intros E'. rewrite E' in Hreg. destruct Hreg as (Hs' & Hv & Hsc & Hhr & Hha & Hl & Hp & Hkeep & Hat). split; [|by split_and!].
  split; [done|]. split; [|by rewrite Hha].
  intros e He. rewrite Hhr in He. rewrite Hsc. apply elem_of_app in He as [He| ->%list_elem_of_singleton].
  - destruct (Hr e He). split; [apply elem_of_app; by left|done].
  - split; [apply elem_of_app; right; apply list_elem_of_here|done].
Qed.

Lemma keeps_RegisterRoute hs0 name (route : RESTfulRoute) : mask_ok (resource_args_mask route) → keeps (reg_scope hs0) (RegisterRoute name route).
Proof.
  intros Hm x Hx. unfold RegisterRoute. set (y := mkRegistration _ _).
  pose proof (register_scoped_inv hs0 (route_path (route_prefix_ (data_ x)) name route) (resource_args_mask route) (route_handler route) y Hx Hm) as Hreg.
  destruct (register_scoped _ _ _ y) as [[[]|e] x']; [apply Hreg|by subst].
Qed.

Lemma keeps_register_routes hs0 (l : list (bytes * RESTfulRoute)) : (∀ p, p ∈ l → mask_ok (resource_args_mask p.2)) →
  keeps (reg_scope hs0) (register_routes l).
Proof.
  induction l as [|[name route] l IH]; intros Hl; [apply keeps_ret|]. cbn [register_routes]. apply keeps_bind.
  - apply keeps_RegisterRoute. apply (Hl (name, route)), list_elem_of_here.
  - intros _. apply IH. intros p Hp. apply Hl. by apply list_elem_of_further.
Qed.

Lemma register_routes_inv hs0 (l : list (bytes * RESTfulRoute)) x x' : reg_inv hs0 x → (∀ p, p ∈ l → mask_ok (resource_args_mask p.2)) →
  register_routes l x = (Ok (), x') →
  reg_inv hs0 x' ∧ handlers_ (data_ x') = handlers_ (data_ x) ∧ route_prefix_ (data_ x') = route_prefix_ (data_ x) ∧
  (∀ path i h, handler_at path i (server x) = Some h → handler_at path i (server x') = Some h) ∧
  (∀ name route i, (name, route) ∈ l → i ∈ all_counts → has_count (resource_args_mask route) i = true →
     handler_at (route_path (route_prefix_ (data_ x)) name route) i (server x') = Some (route_handler route)).
Proof.
  revert x. induction l as [|[name route] l IH]; intros x Hx Hl.
  { intros [= <-]. split_and!; try done. by intros name route i ?%elem_of_nil. }
  cbn [register_routes]. intros ([] & x1 & E1 & E2)%io_bind_inv.
  assert (mask_ok (resource_args_mask route)) as Hm by (apply (Hl (name, route)), list_elem_of_here).
  destruct (RegisterRoute_inv hs0 name route x x1 Hx Hm E1) as (Hx1 & Hh1 & Hp1 & _ & Hkeep1 & Hat1).
  destruct (IH x1 Hx1) as (Hx' & Hh' & Hp' & Hkeep & Hadd); [intros p Hp; apply Hl; by apply list_elem_of_further|done|].
  split_and!; [done|congruence|congruence|auto|].
  intros name' route' i [[= -> ->]|Hin]%elem_of_cons Hi Hmi.
  - apply Hkeep. rewrite Hat1. unfold owns, selected. simpl. by rewrite !bool_decide_eq_true_2, Hmi by done.
  - rewrite <- Hp1. by apply Hadd.
Qed.

(** ** Switching to 503 *)

Lemma switch_routes_inv hs0 (l : list (bytes * CountMask)) x : reg_scope hs0 x →
  (∀ e, e ∈ l → e ∈ handlers_scope_ (data_ x) ∧ ValidateRoute e.1 = Ok ()) → ∃ x',
  switch_routes l x = (Ok (), x') ∧ reg_scope hs0 x' ∧ data_ x' = data_ x ∧
  ∀ path i, handler_at path i (server x') = if existsb (λ e, owns e path i) l then Some Serve503 else handler_at path i (server x).
Proof.
  revert x. induction l as [|[path mask] l IH]; intros x Hx Hl; [by exists x|]. cbn [switch_routes].
  destruct (Hl (path, mask)) as [Hin Hv]; [apply list_elem_of_here|].
  destruct (scope_update_possible hs0 _ _ path mask Serve503 Hx Hin Hv) as [hs1 Hreg].
  destruct (scope_update hs0 _ _ path mask _ _ _ Hx Hin Hreg) as [Hinv1 Hat1].
  destruct (IH (mkRegistration (data_ x) hs1) Hinv1) as (x' & E' & Hx' & Hd' & Hat'); [intros e He; apply Hl; by apply list_elem_of_further|].
  exists x'. split; [|split_and!; [done|by rewrite Hd'|]].
  - rewrite (io_bind_ok _ _ x () (mkRegistration (data_ x) hs1)); [done|]. by rewrite Hreg.
  - intros path' i. rewrite Hat'. cbn [existsb server]. rewrite Hat1. destruct (existsb _ l), (owns (path, mask) path' i); done.
Qed.

(** ** From the constructor on *)

Lemma elem_multimap_insert key (route : RESTfulRoute) m p : p ∈ multimap_insert key route m ↔ p = (key, route) ∨ p ∈ m.
Proof.
  induction m as [|[key' route'] m IH]; cbn [multimap_insert]; [rewrite list_elem_of_singleton, elem_of_nil; tauto|].
  destruct (string_less key key'); rewrite !elem_of_cons, ?IH; tauto.
Qed.

Definition fields_ok (fields : list (bytes * list RESTfulRoute)) : Prop :=
  ∀ name routes route, (name, routes) ∈ fields → route ∈ routes → mask_ok (resource_args_mask route).

Lemma mask_None_ok : mask_ok mask_None.
Proof. exists 0. destruct has_count_None. done. Qed.

Lemma mask_None_or_One_ok : mask_ok mask_None_or_One.
Proof. exists 0. split; [apply list_elem_of_here|by vm_compute]. Qed.

Lemma top_level_inv hs0 (l : list (bytes * rest_handler)) x : reg_inv hs0 x →
  match register_top_level l x with
  | (Ok _, x') => reg_inv hs0 x' ∧ route_prefix_ (data_ x') = route_prefix_ (data_ x) ∧
      ∀ path i h, handler_at path i (server x) = Some h → handler_at path i (server x') = Some h
  | (Throw _, x') => reg_scope hs0 x'
  end.
Proof.
  revert x. induction l as [|[path h] l IH]; intros x Hx; [done|]. cbn [register_top_level]. pose proof Hx as (Hs & Hr & Hh).
  pose proof (register_scoped_inv hs0 path mask_None h x Hs mask_None_ok) as Hreg. unfold mbind, io_bind.
  destruct (register_scoped path mask_None h x) as [[[]|e] x1]; [|by subst].
  destruct Hreg as (Hs' & _ & Hsc & Hhr & Hha & _ & Hp & Hkeep & _). specialize (IH x1).
  assert (reg_inv hs0 x1) as Hx1.
  { split; [done|]. rewrite Hhr, Hha, Hsc. split; [|done]. intros e He. destruct (Hr e He). split; [apply elem_of_app; by left|done]. }
  specialize (IH Hx1). destruct (register_top_level l x1) as [[[]|e] x2]; [|done]. destruct IH as (? & ? & ?). split_and!; [done|congruence|auto].
Qed.

Inductive api_call :=
| CallAlias (target alias_name : bytes)
| CallAddQuery (name : bytes) (q : cqs_query (C := C))
| CallAddCommand (name : bytes) (c : cqs_command (C := C) (M := M))
| CallSwitch.

Definition run_call (c : api_call) : io registration api_exception () :=
  match c with
  | CallAlias target alias_name => RegisterAlias target alias_name
  | CallAddQuery name q => AddCQSQuery name q
  | CallAddCommand name c => AddCQSCommand name c
  | CallSwitch => SwitchHTTPEndpointsTo503s
  end.

Fixpoint run_calls (calls : list api_call) : io registration api_exception () :=
  match calls with
  | [] => mret ()
  | c :: calls => _ ← run_call c; run_calls calls
  end.

Lemma elem_equal_range target (route : RESTfulRoute) m : route ∈ equal_range target m → (target, route) ∈ m.
Proof. unfold equal_range. intros ([name r] & -> & [Hn Hin]%list_elem_of_filter)%list_elem_of_fmap. by simpl in Hn; subst. Qed.

Lemma alias_inv hs0 target alias_name x x' : reg_inv hs0 x → RegisterAlias target alias_name x = (Ok (), x') →
  reg_inv hs0 x' ∧ (∀ path i h, handler_at path i (server x) = Some h → handler_at path i (server x') = Some h) ∧
  ∀ route i, route ∈ equal_range target (handlers_ (data_ x)) → i ∈ all_counts → has_count (resource_args_mask route) i = true →
    handler_at (route_path (route_prefix_ (data_ x)) alias_name route) i (server x') = Some (route_handler route).
Proof.
  intros Hx. unfold RegisterAlias. destruct (equal_range target (handlers_ (data_ x))) as [|r0 l] eqn:He; [done|]. rewrite <- He.
  intros E'. set (l' := (λ route, (alias_name, route)) <$> equal_range target (handlers_ (data_ x))) in E'.
  assert (∀ p, p ∈ l' → mask_ok (resource_args_mask p.2)) as Hm.
  { intros p (route & -> & Hr%elem_equal_range)%list_elem_of_fmap. simpl. destruct Hx as (_ & _ & Hh). apply (Hh _ Hr). }
  destruct (register_routes_inv hs0 l' x x' Hx Hm E') as (Hx' & _ & _ & Hkeep & Hadd).
  split_and!; [done|done|]. intros route i Hr. apply Hadd. apply list_elem_of_fmap. by exists route.
Qed.

Lemma switch_inv hs0 x : reg_inv hs0 x → ∃ x', SwitchHTTPEndpointsTo503s x = (Ok (), x') ∧ reg_inv hs0 x' ∧
  handler_routes_ (data_ x') = handler_routes_ (data_ x) ∧ up_status_ (live (data_ x')) = false ∧
  ∀ path i, handler_at path i (server x') = if existsb (λ e, owns e path i) (handler_routes_ (data_ x)) then Some Serve503 else handler_at path i (server x).
Proof.
  intros (Hs & Hr & Hh). unfold SwitchHTTPEndpointsTo503s. set (y := mkRegistration _ _).
  destruct (switch_routes_inv hs0 (handler_routes_ (data_ x)) y Hs Hr) as (x' & E' & Hs' & Hd' & Hat). exists x'.
  split; [done|]. rewrite Hd'. split_and!; [split; [done|]; by rewrite Hd'|done|done|done].
Qed.

(** An alias whose path is taken is refused, but remembered. *)
Lemma switch_routes_app l1 l2 x : switch_routes (C := C) (E := E) (RB := RB) (M := M) (CK := CK) (P := P) (l1 ++ l2) x =
  (_ ← switch_routes l1; switch_routes l2) x.
Proof.
  revert x. induction l1 as [|[path mask] l1 IH]; intros x; [done|]. cbn [app switch_routes]. unfold mbind, io_bind in *.
  destruct (Register _ _ _ _ _) as [[]]; [apply IH|done].
Qed.

Lemma failed_alias_remembered hs0 target alias_name (route : RESTfulRoute) rest x : reg_inv hs0 x →
  equal_range target (handlers_ (data_ x)) = route :: rest →
  let path := route_path (route_prefix_ (data_ x)) alias_name route in let mask := resource_args_mask route in
  ValidateRoute path = Ok () → taken path mask (server x) → ∃ e x1 x2,
  RegisterAlias target alias_name x = (Throw e, x1) ∧ server x1 = server x ∧
  SwitchHTTPEndpointsTo503s x1 = (Ok (), x2) ∧ ∀ i, i ∈ all_counts → has_count mask i = true → handler_at path i (server x2) = Some Serve503.
Proof.
  intros Hx He path mask Hv Ht. pose proof Hx as (Hs & Hr & Hh).
  assert (mask_ok mask) as Hm. { apply (Hh (target, route)), elem_equal_range. rewrite He. apply list_elem_of_here. }
  destruct (taken_not_registered path mask (route_handler route) (server x) Hm Ht) as [e Hreg].
  set (x1 := mkRegistration (set_handler_routes (handler_routes_ (data_ x) ++ [(path, mask)]) (data_ x)) (server x)).
  assert (RegisterAlias target alias_name x = (Throw (RouteFailed e), x1)) as E1.
  { unfold RegisterAlias. rewrite He. cbn [fmap list_fmap register_routes]. unfold RegisterRoute, register_scoped, mbind, io_bind.
    cbn [server]. fold path mask. by rewrite Hreg. }
  exists (RouteFailed e), x1. unfold SwitchHTTPEndpointsTo503s. cbn [handler_routes_ data_ x1 set_handler_routes server].
  rewrite switch_routes_app. set (y := mkRegistration _ _).
  destruct (switch_routes_inv hs0 (handler_routes_ (data_ x)) y Hs Hr) as (y' & E2 & _ & _ & Hat).
  assert (taken path mask (server y')) as Ht'. { intros i Hi Hmi. rewrite Hat. destruct (existsb _ _); [by eexists|]. by apply Ht. }
  destruct (update_possible path mask (Serve503 (C := C) (E := E) (RB := RB) (M := M) (CK := CK) (P := P)) (server y') Hm Hv Ht') as [hs' E3].
  exists (mkRegistration (data_ y') hs'). split_and!; [done|done| |].
  - rewrite (io_bind_ok _ _ _ _ _ E2). cbn [switch_routes]. unfold mbind, io_bind. by rewrite E3.
  - intros i Hi Hmi. destruct (DoRegisterHandler_ok path _ mask _ _ _ _ (mask_ok_nonzero _ Hm) E3) as (_ & _ & Hat' & _).
    cbn [server]. rewrite Hat'. unfold selected. by rewrite !bool_decide_eq_true_2, Hmi by done.
Qed.

Lemma run_calls_inv hs0 calls x x' : reg_inv hs0 x → run_calls calls x = (Ok (), x') → reg_inv hs0 x'.
Proof.
  revert x. induction calls as [|c calls IH]; intros x Hx; [by intros [= <-]|]. cbn [run_calls].
  intros ([] & x1 & E1 & E2)%io_bind_inv. apply (IH x1); [|done]. destruct c as [target alias_name|name q|name c|]; cbn [run_call] in E1.
  - by apply (alias_inv hs0 target alias_name x x1) in E1 as [? _].
  - unfold AddCQSQuery in E1. destruct (cqs_query_map_ _ !! name); [done|]. by injection E1 as <-.
  - unfold AddCQSCommand in E1. destruct (cqs_command_map_ _ !! name); [done|]. by injection E1 as <-.
  - destruct (switch_inv hs0 x Hx) as (x2 & E' & Hx2 & _). rewrite E' in E1. by injection E1 as <-.
Qed.

Section Constructor.
Context `{!JournaledField C E RB, !FieldCalls C E RB M, !Clock CK} {EN : Type} `{!Persister P EN}.
Context (of_transaction : Transaction E → EN) (JSON_generic : RESTGenericResponse → bytes) (error : bytes → bytes → Response).

Abbreviation make_storage := (make_RESTfulStorage of_transaction JSON_generic error).

Lemma all_handlers_ok prefix fields : fields_ok fields →
  ∀ p, p ∈ all_handlers of_transaction JSON_generic error prefix fields → mask_ok (resource_args_mask p.2).
Proof.
  intros Hf p. unfold all_handlers. rewrite !elem_multimap_insert. intros [->|[->|Hin]]; [apply mask_None_or_One_ok..|].
  assert (∀ (rs : list RESTfulRoute) (m : list (bytes * RESTfulRoute)), (∀ route, route ∈ rs → mask_ok (resource_args_mask route)) → (∀ q, q ∈ m → mask_ok (resource_args_mask q.2)) →
    ∀ name (q : bytes * RESTfulRoute), q ∈ foldl (λ m route, multimap_insert name route m) m rs → mask_ok (resource_args_mask q.2)) as Hrs.
  { induction rs as [|r rs IH]; intros m Hrs Hm name q; [by apply Hm|]. simpl. apply IH.
    - intros route Hr. apply Hrs. by apply list_elem_of_further.
    - intros q'. rewrite elem_multimap_insert. intros [->|?]; [apply Hrs, list_elem_of_here|by apply Hm]. }
  revert Hin. assert (∀ q : bytes * RESTfulRoute, q ∈ [] → mask_ok (resource_args_mask q.2)) as H0 by (by intros q ?%elem_of_nil).
  revert H0. generalize (@nil (bytes * RESTfulRoute)). induction fields as [|[name rs] fields IH]; intros m Hm; [apply Hm|]. simpl. apply IH.
  - intros name' rs' route Hin. apply (Hf name' rs'). by apply list_elem_of_further.
  - intros q. apply Hrs; [|done]. intros route Hr. by apply (Hf name rs); [apply list_elem_of_here|].
Qed.

Lemma constructor_inv route_prefix prefix fields top hs : routes_wf hs → fields_ok fields →
  match make_storage route_prefix prefix fields top hs with
  | (Ok d, hs') => reg_inv hs (mkRegistration d hs') ∧ route_prefix_ d = route_prefix ∧
      ∀ name route i, (name, route) ∈ all_handlers of_transaction JSON_generic error prefix fields → i ∈ all_counts →
        has_count (resource_args_mask route) i = true → handler_at (route_path route_prefix name route) i hs' = Some (route_handler route)
  | (Throw _, hs') => hs' = hs
  end.
Proof.
  intros Hwf Hf. unfold make_RESTfulStorage. destruct (negb _ && _); [done|]. cbv zeta. set (d := mkData _ _ _ _ _).
  assert (reg_inv hs (mkRegistration d hs)) as Hd.
  { split; [by apply scope_inv_start|]. split; [by intros e ?%elem_of_nil|]. by apply all_handlers_ok. }
  pose proof (keeps_register_routes hs (handlers_ d) (all_handlers_ok prefix fields Hf) (mkRegistration d hs) (proj1 Hd)) as Hk.
  unfold mbind, io_bind. destruct (register_routes (handlers_ d) (mkRegistration d hs)) as [[[]|e] x1] eqn:E1; [|simpl in Hk; by rewrite (scope_release _ _ _ Hk)].
  destruct (register_routes_inv hs (handlers_ d) (mkRegistration d hs) x1 Hd (all_handlers_ok prefix fields Hf) E1) as (Hx1 & _ & Hp1 & _ & Hadd).
  pose proof (top_level_inv hs top x1 Hx1) as Htop. destruct (register_top_level top x1) as [[[]|e] x2] eqn:E2; [|by rewrite (scope_release _ _ _ Htop)].
  destruct Htop as (Hx2 & Hp2 & Hkeep). split_and!; [by destruct x2|cbn; by rewrite Hp2, Hp1|]. intros name route i Hin Hi Hm. apply Hkeep. by apply Hadd.
Qed.
End Constructor.
End Storage.
End RestRoutes.
