(* ===== verification/RestSound.v ===== *)
(** * RESTful storage: what the handlers do

    A field is a set of resources: a map from keys to entries and the times of
    their last changes.  [resource_step] is what a request does to it and the code
    it is answered with, for each verb and both kinds of answers; [RestImplSound]
    says that an implementation of [RestImpl] does that, and [Plain] and
    [Structured] are shown to.  The theorems about requests use the class only. *)

From Stdlib Require Import ZArith NArith Lia Ascii String.
From stdpp Require Import base gmap list strings.
From S2P Require Import Prelude Time Journal Persistence Decimal Transaction Strings Url PubSub RemoteStream StdMap State Tcp HttpDate.
From S2P Require Import HttpHeaders HttpMessage HttpParsing HttpRoutes HttpServer RestTypes RestKeys RestPlain RestStructured RestApi.
Open Scope Z_scope.

Module RestSound.
Import Http HttpRoutes HttpServer RestTypes RestKeys RestPlain RestStructured RestApi.

(** ** Resources *)

Inductive resource_op (K T : Type) :=
| Post (overwrite : bool) (entry : T)
| Put (key : K) (entry : T)
| Patch (key : K) (patch : bytes)
| Delete (key : K).
Arguments Post {K T} overwrite entry.
Arguments Put {K T} key entry.
Arguments Patch {K T} key patch.
Arguments Delete {K T} key.

Inductive resource_effect (K T : Type) :=
| Unchanged
| Stored (entry : T)
| Erased (key : K).
Arguments Unchanged {K T}.
Arguments Stored {K T} entry.
Arguments Erased {K T} key.

#[export] Instance unchanged_dec {K T} (eff : resource_effect K T) : Decision (eff = Unchanged).
Proof. destruct eff; [left|right|right]; done. Defined.

Section Resources.
Context {C M U K T B : Type} `{Countable K} `{!RestField C M K T, !FieldTypeDependent U K, !RestJSON K T B}.
Context (InitializeOwnKey : option (T → T)).

(** The code of the answer and the effect; [since] is the time of
    [If-Unmodified-Since], if the request is conditional. *)
Definition resource_step (since : option microseconds) (op : resource_op K T) (view : gmap K T) (times : gmap K microseconds)
    : HTTPResponseCodeValue * resource_effect K T :=
  let refused k := match modified_since since (times !! k) with Some _ => true | None => false end in
  match op with
  | Post overwrite entry =>
      match InitializeOwnKey with
      | None => (MethodNotAllowed, Unchanged)
      | Some initialize =>
          let e := initialize entry in
          if overwrite || negb (bool_decide (is_Some (view !! ExtractOrComposeKey e))) then (Created, Stored e) else (Conflict, Unchanged)
      end
  | Put k e =>
      if bool_decide (ExtractOrComposeKey e = k) then
        match view !! k with
        | Some _ => if refused k then (PreconditionFailed, Unchanged) else (OK, Stored e)
        | None => (Created, Stored e)
        end
      else (BadRequest, Unchanged)
  | Patch k p =>
      match view !! k with
      | Some v =>
          if refused k then (PreconditionFailed, Unchanged)
          else match PatchObjectWithJSON v p with
               | Ok v' => if bool_decide (ExtractOrComposeKey v' = k) then (OK, Stored v') else (BadRequest, Unchanged)
               | Throw _ => (BadRequest, Unchanged)
               end
      | None => (NotFound, Unchanged)
      end
  | Delete k =>
      match view !! k with
      | Some _ => if refused k then (PreconditionFailed, Unchanged) else (OK, Erased k)
      | None => (OK, Erased k)
      end
  end.
End Resources.

Section Sound.
Context {C E RB M K T : Type} `{Countable K}.
Context `{JF : !JournaledField C E RB, FC : !FieldCalls C E RB M, RF : !RestField C M K T, RFS : !RestFieldSound C E RB M K T}.
Context {CK : Type} `{!Clock CK}.

(** The fields before and after an effect at the time [t]. *)
Definition effect_applied (eff : resource_effect K T) (t : microseconds) (c c' : C) : Prop :=
  match eff with
  | Unchanged => c' = c
  | Stored e => field_view c' = <[ExtractOrComposeKey e := e]> (field_view c) ∧
                field_times c' = <[ExtractOrComposeKey e := t]> (field_times c)
  | Erased k => field_view c' = delete k (field_view c) ∧
                field_times c' = match field_view c !! k with Some _ => <[k := t]> (field_times c) | None => field_times c end
  end.

(** ** Programs on the fields *)

Definition wp_body (f : program C M) (ck : CK) (c : C) (Q : ended Response rest_exception → CK → C → Prop) : Prop :=
  ∀ j : MutationJournal E RB, ∃ res ck' c' j', run_body f ck c j = Ok (res, ck', c', j') ∧ Q res ck' c'.

Lemma wp_return r (ck : CK) c (Q : _ → _ → _ → Prop) : Q (Returned r) ck c → wp_body (Return r) ck c Q.
Proof. intros HQ j. by exists (Returned r), ck, c, j. Qed.

Lemma wp_look k (ck : CK) c Q : wp_body (k c) ck c Q → wp_body (Look k) ck c Q.
Proof. done. Qed.

Lemma wp_meta key value k (ck : CK) c Q : wp_body k ck c Q → wp_body (SetMeta key value k) ck c Q.
Proof. intros Hk j. apply Hk. Qed.

Lemma wp_add e k (ck : CK) c Q : fld_wf c →
  (∀ c', fld_wf c' → effect_applied (Stored e) (Now ck).1 c c' → wp_body k (Now ck).2 c' Q) → wp_body (Mutate (call_Add e) k) ck c Q.
Proof.
  intros Hw Hk j. destruct (field_add_ok id id e ck c j Hw) as (ck' & c' & evs & rbs & E1 & Hw' & _ & _ & _ & HQ).
  pose proof (field_add_clock (K := K) (T := T) id id e ck c j _ _ _ E1) as ->. cbn [run_body]. rewrite E1.
  apply (Hk c' Hw' HQ).
Qed.

Lemma wp_erase key k (ck : CK) c Q : fld_wf c →
  (∀ c', fld_wf c' → effect_applied (Erased key) (Now ck).1 c c' → wp_body k (Now ck).2 c' Q) → wp_body (Mutate (call_Erase key) k) ck c Q.
Proof.
  intros Hw Hk j. destruct (field_erase_ok id id key ck c j Hw) as (ck' & c' & evs & rbs & E1 & Hw' & _ & _ & _ & HQ).
  pose proof (field_erase_clock (K := K) (T := T) id id key ck c j _ _ _ E1) as ->. cbn [run_body]. rewrite E1.
  apply (Hk c' Hw' HQ).
Qed.

(** The headers of a resource that was changed at [t]. *)
Definition last_modified_headers (t : microseconds) : list (bytes * bytes) :=
  [(kLastModifiedHeader, HttpDate.FormatDateTimeAsIMFFix t); (kCurrentLastModifiedHeader, RemoteStream.ToString_int64 t)].

Definition optional_last_modified (lm : option microseconds) : list (bytes * bytes) :=
  match lm with Some t => last_modified_headers t | None => [] end.

(** The answer has the code, and can be sent: it has no headers but the time of
    the last change. *)
Record answer_ok (code : HTTPResponseCodeValue) (r : Response) : Prop := {
  answer_initialized : initialized r = true;
  answer_code : response_code r = code;
  answer_headers_wf : HttpHeaders.headers_wf (response_headers_ r);
  answer_headers : ∃ lm, HttpHeaders.entries (response_headers_ r) = optional_last_modified lm;
  answer_cookies : HttpHeaders.cookies (response_headers_ r) = [];
  answer_cors : cors_header r = true;
  answer_type : response_content_type r ∈ [kDefaultContentType; kDefaultJSONContentType];
}.

Lemma answer_ok_text s code : answer_ok code (text_response s code).
Proof. split; try done; [apply HttpHeaders.no_headers_wf|by exists None|apply list_elem_of_here]. Qed.

Lemma answer_ok_object {B} `{!RestJSON K T B} o code : answer_ok code (object_response (K := K) (T := T) (B := B) o code).
Proof. split; try done; [apply HttpHeaders.no_headers_wf|by exists None|apply list_elem_of_further, list_elem_of_here]. Qed.

(** What [Run] of a handler promises for a step of the resources. *)
Definition does (step : HTTPResponseCodeValue * resource_effect K T) (ck : CK) (c : C)
    : ended Response rest_exception → CK → C → Prop := λ res ck' c',
  ∃ r, res = Returned r ∧ answer_ok step.1 r ∧ effect_applied step.2 (Now ck).1 c c' ∧ fld_wf c' ∧
    (ck' = ck ∨ ck' = (Now ck).2) ∧ (step.2 ≠ Unchanged → ck' = (Now ck).2).

Lemma does_nothing code r (ck : CK) c : fld_wf c → answer_ok code r → does (code, Unchanged) ck c (Returned r) ck c.
Proof. intros Hw Hr. exists r. split_and!; [done..|by left|done]. Qed.

(** ** Headers *)

Lemma SetLastModified_ok lm r code : answer_ok code r → HttpHeaders.entries (response_headers_ r) = [] → ∃ r',
  SetLastModified lm r = Ok r' ∧ answer_ok code r' ∧ response_body r' = response_body r ∧
  HttpHeaders.entries (response_headers_ r') = optional_last_modified lm.
Proof.
  intros Hr He. unfold SetLastModified. destruct lm as [t|]; [|exists r; by split_and!]. destruct Hr as [Hi Hc Hh _ Hk Hx Ht].
  unfold with_header. set (date := HttpDate.FormatDateTimeAsIMFFix t).
  destruct (HttpHeaders.Assign_ok kLastModifiedHeader date (response_headers_ r) Hh) as (h1 & -> & Hwf1 & He1 & Hk1); [by vm_compute|].
  cbn [mbind outcome_bind lift_headers response_headers_ response_body response_code response_content_type cors_header].
  destruct (HttpHeaders.Assign_ok kCurrentLastModifiedHeader (RemoteStream.ToString_int64 t) h1 Hwf1) as (h2 & -> & Hwf2 & He2 & Hk2); [by vm_compute|].
  eexists. split; [done|]. rewrite He1, He in He2. split_and!; [|done|exact He2].
  split; try done; [by exists (Some t)|cbn; congruence].
Qed.
End Sound.

(** ** Implementations *)

Section Impl.
Context {C E RB M U K T B : Type} `{Countable K}.
Context `{JF : !JournaledField C E RB, FC : !FieldCalls C E RB M, RF : !RestField C M K T, RFS : !RestFieldSound C E RB M K T}.
Context `{!FieldTypeDependent U K, RJ : !RestJSON K T B}.
Context (InitializeOwnKey : option (T → T)).

Abbreviation step since op c := (resource_step InitializeOwnKey since op (field_view c) (field_times c)).

(** [since_of] is the condition of a request, [shown] the body of an answer with
    a resource. *)
Class RestImplSound (impl : RestImpl C M U K T) := {
  since_of : write_context impl → option microseconds;
  shown : get_context impl → GenericInput → U → T → bytes;
  method_sound : ∀ method message, answer_ok MethodNotAllowed (ErrorMethodNotAllowed impl method message);
  json_sound : ∀ what, answer_ok BadRequest (ErrorBadJSON impl what);
  post_sound : ∀ {CK} `{!Clock CK} input (ck : CK) c, fld_wf c →
    wp_body (POST_Run impl input) ck c (does (step None (Post (overwrite input) (post_entry input)) c) ck c);
  put_sound : ∀ {CK} `{!Clock CK} ctx g k e (ck : CK) c, fld_wf c →
    wp_body (PUT_Run impl ctx (mkPUTInput g k e (ExtractOrComposeKey e))) ck c (does (step (since_of ctx) (Put k e) c) ck c);
  patch_sound : ∀ {CK} `{!Clock CK} ctx g k p (ck : CK) c, fld_wf c →
    wp_body (PATCH_Run impl ctx (mkPATCHInput g k p)) ck c (does (step (since_of ctx) (Patch k p) c) ck c);
  delete_sound : ∀ {CK} `{!Clock CK} ctx g k (ck : CK) c, fld_wf c →
    wp_body (DELETE_Run impl ctx (mkDELETEInput g k)) ck c (does (step (since_of ctx) (Delete k) c) ck c);
  get_sound : ∀ ctx g u master c, fld_wf c → ∃ r, GET_Run impl ctx (mkGETInput g (Some u) master None) c = Returned r ∧
    match field_view c !! ParseURLKey u with
    | Some e => answer_ok OK r ∧ response_body r = shown ctx g u e
    | None => answer_ok NotFound r
    end;
}.

(** The steps of the proofs below: run the program up to its answer. *)
Ltac wp_step :=
  match goal with
  | |- wp_body (Look _) _ _ _ => apply wp_look; cbv beta zeta
  | |- wp_body (Return _) _ _ _ => apply wp_return
  | |- wp_body (Mutate (call_Add _) _) _ _ _ => apply wp_add; [done|intros ? ? ?]
  | |- wp_body (Mutate (call_Erase _) _) _ _ _ => apply wp_erase; [done|intros ? ? ?]
  | |- does (_, Unchanged) _ _ _ _ _ => apply does_nothing; [done|]
  | |- answer_ok _ _ => first [apply answer_ok_text | apply answer_ok_object]
  end.

(** An answer after a change. *)
Lemma does_changed {CK} `{!Clock CK} code eff r (ck : CK) c c' : answer_ok code r → effect_applied eff (Now ck).1 c c' → fld_wf c' →
  does (code, eff) ck c (Returned r) (Now ck).2 c'.
Proof. intros Hr He Hw. exists r. split_and!; [done..|by right|done]. Qed.

Lemma field_exists k c : fld_wf c → bool_decide (is_Some (field_get k c)) = bool_decide (is_Some (field_view c !! k)).
Proof. intros Hw. by rewrite field_get_view. Qed.

(** *** Plain *)

Lemma plain_put {CK} `{!Clock CK} g k e (ck : CK) c : fld_wf c →
  wp_body (Plain_PUT_Run (mkPUTInput g k e (ExtractOrComposeKey e))) ck c (does (step None (Put k e) c) ck c).
Proof.
  intros Hw. unfold Plain_PUT_Run, resource_step. cbn [put_entry_key put_key put_entry modified_since].
  case_bool_decide as Hk; [|by repeat wp_step]. wp_step. rewrite field_exists, Hk by done. wp_step.
  destruct (field_view c !! k); [rewrite bool_decide_eq_true_2 by eauto|rewrite bool_decide_eq_false_2 by (by intros [])];
    wp_step; by apply does_changed; [wp_step|..].
Qed.

Lemma plain_patch {CK} `{!Clock CK} g k p (ck : CK) c : fld_wf c →
  wp_body (Plain_PATCH_Run (mkPATCHInput g k p)) ck c (does (step None (Patch k p) c) ck c).
Proof.
  intros Hw. unfold Plain_PATCH_Run, resource_step. cbn [patch_key patch_body modified_since]. wp_step.
  rewrite field_get_view by done. destruct (field_view c !! k) as [v|]; [|by repeat wp_step].
  destruct (PatchObjectWithJSON v p) as [v'|]; [|by repeat wp_step].
  destruct (decide (ExtractOrComposeKey v' = k)) as [Hk|Hk].
  - rewrite bool_decide_eq_false_2, bool_decide_eq_true_2 by auto. repeat wp_step. by apply does_changed; [wp_step|..].
  - rewrite bool_decide_eq_true_2, bool_decide_eq_false_2 by done. by repeat wp_step.
Qed.

Lemma plain_post {CK} `{!Clock CK} input (ck : CK) c : fld_wf c →
  wp_body (Plain_POST_Run (U := U) InitializeOwnKey input) ck c (does (step None (Post (overwrite input) (post_entry input)) c) ck c).
Proof.
  intros Hw. unfold Plain_POST_Run, resource_step. destruct InitializeOwnKey as [f|]; [|by repeat wp_step].
  cbv zeta. wp_step. rewrite field_exists by done. case_match; repeat wp_step. by apply does_changed; [wp_step|..].
Qed.

Lemma plain_delete {CK} `{!Clock CK} g k (ck : CK) c : fld_wf c →
  wp_body (Plain_DELETE_Run (T := T) (mkDELETEInput g k)) ck c (does (step None (Delete k) c) ck c).
Proof.
  intros Hw. unfold Plain_DELETE_Run, resource_step. cbn [delete_key modified_since].
  destruct (field_view c !! k); repeat wp_step; by apply does_changed; [wp_step|..].
Qed.

#[export] Program Instance plain_sound : RestImplSound (Plain InitializeOwnKey) := {
  since_of _ := None;
  shown _ _ _ e := JSON (RestJSON := RJ) (EntryObject e) ++ [newline];
}.
Next Obligation. intros. apply answer_ok_text. Qed.
Next Obligation. intros. apply answer_ok_text. Qed.
Next Obligation. intros. by apply plain_post. Qed.
Next Obligation. intros. by apply plain_put. Qed.
Next Obligation. intros. by apply plain_patch. Qed.
Next Obligation. intros. by apply plain_delete. Qed.
Next Obligation.
  intros ctx g u master c Hw. simpl. unfold Plain_GET_Run. simpl. rewrite field_get_view by done.
  destruct (field_view c !! ParseURLKey u); (eexists; split; [done|]); [split; [apply answer_ok_object|done]|apply answer_ok_text].
Qed.

(** *** Structured *)

Class FormatterSound (fmt : Formatter T) := {
  resource_body : Context_ fmt → bytes → bytes → T → bytes;
  resource_sound : ∀ ctx url url_collection e, ∃ r, BuildResponseForResource fmt ctx url url_collection e = Ok r ∧ answer_ok OK r ∧
    response_body r = resource_body ctx url url_collection e ∧ HttpHeaders.entries (response_headers_ r) = [];
}.

#[export] Program Instance simple_sound : FormatterSound (SimpleResponseFormatter (RestJSON0 := RJ)) := {
  resource_body _ url _ e := JSON (RestJSON := RJ) (SimpleRecordObject (mkSimpleRecord true url e)) ++ [newline];
}.
Next Obligation. intros ctx url coll e. eexists. split; [done|]. split; [apply answer_ok_object|done]. Qed.

#[export] Program Instance hypermedia_sound (brief_of : option (T → B)) (max_records : N) :
  FormatterSound (HypermediaResponseFormatter (RestJSON0 := RJ) brief_of max_records) := {
  resource_body ctx url url_collection e :=
    JSON (RestJSON := RJ) (match brief_of with
          | Some f => if brief ctx then SingleBriefObject (make_SingleRecord url url_collection (f e))
                      else SingleRecordObject (make_SingleRecord url url_collection e)
          | None => SingleRecordObject (make_SingleRecord url url_collection e)
          end) ++ [newline];
}.
Next Obligation.
  intros brief_of max_records ctx url coll e. eexists. split; [done|].
  destruct brief_of as [f|]; [destruct (brief ctx)|]; (split; [apply answer_ok_object|done]).
Qed.

Context (hasher : K → Z) (fmt : Formatter T) `{!FormatterSound fmt}.

(** An answer with the time of the last change. *)
Lemma wp_finish {CK} `{!Clock CK} lm code r (ck : CK) c (Q : _ → _ → _ → Prop) : answer_ok code r →
  HttpHeaders.entries (response_headers_ r) = [] → (∀ r', answer_ok code r' → Q (Returned r') ck c) → wp_body (finish (SetLastModified lm r)) ck c Q.
Proof. intros Hr He HQ. destruct (SetLastModified_ok lm r code Hr He) as (r' & -> & Hr' & _). apply wp_return. by apply HQ. Qed.

Ltac wp_changed := repeat wp_step; (eapply wp_finish; [wp_step|done|]); intros; by apply does_changed.

Lemma structured_put {CK} `{!Clock CK} since g k e (ck : CK) c : fld_wf c →
  wp_body (Structured_PUT_Run since (mkPUTInput g k e (ExtractOrComposeKey e))) ck c (does (step since (Put k e) c) ck c).
Proof.
  intros Hw. unfold Structured_PUT_Run, PUT_entry, resource_step. cbn [put_entry_key put_key put_entry put_generic].
  case_bool_decide as Hk; [|by repeat wp_step]. wp_step. rewrite field_exists, field_last_modified_times, Hk by done.
  destruct (field_view c !! k); [rewrite bool_decide_eq_true_2 by eauto|rewrite bool_decide_eq_false_2 by (by intros [])]; [|wp_changed].
  destruct (modified_since since (field_times c !! k)); [by repeat wp_step|wp_changed].
Qed.

Lemma structured_patch {CK} `{!Clock CK} since g k p (ck : CK) c : fld_wf c →
  wp_body (Structured_PATCH_Run since (mkPATCHInput g k p)) ck c (does (step since (Patch k p) c) ck c).
Proof.
  intros Hw. unfold Structured_PATCH_Run, PATCH_value, resource_step. cbn [patch_key patch_body patch_generic]. wp_step.
  rewrite field_get_view, field_last_modified_times by done. destruct (field_view c !! k) as [v|]; [|by repeat wp_step].
  destruct (modified_since since (field_times c !! k)); [by repeat wp_step|]. cbv zeta.
  destruct (PatchObjectWithJSON v p) as [v'|]; [|by repeat wp_step].
  destruct (decide (ExtractOrComposeKey v' = k)) as [Hk|Hk].
  - rewrite bool_decide_eq_false_2, bool_decide_eq_true_2 by auto. wp_changed.
  - rewrite bool_decide_eq_true_2, bool_decide_eq_false_2 by done. by repeat wp_step.
Qed.

Lemma structured_post {CK} `{!Clock CK} input (ck : CK) c : fld_wf c →
  wp_body (Structured_POST_Run InitializeOwnKey input) ck c (does (step None (Post (overwrite input) (post_entry input)) c) ck c).
Proof.
  intros Hw. unfold Structured_POST_Run, resource_step. destruct InitializeOwnKey as [f|]; [|by repeat wp_step].
  cbv zeta. wp_step. rewrite field_exists by done. case_match; [wp_changed|by repeat wp_step].
Qed.

Lemma structured_delete {CK} `{!Clock CK} since g k (ck : CK) c : fld_wf c →
  wp_body (Structured_DELETE_Run since (mkDELETEInput g k)) ck c (does (step since (Delete k) c) ck c).
Proof.
  intros Hw. unfold Structured_DELETE_Run, DELETE_key, resource_step. cbn [delete_key delete_generic]. wp_step.
  rewrite field_get_view, field_last_modified_times by done. destruct (field_view c !! k).
  - destruct (modified_since since (field_times c !! k)); [by repeat wp_step|]. wp_changed.
  - repeat wp_step. cbn [finish]. wp_step. by apply does_changed; [wp_step|..].
Qed.

(** A resource that exists is answered with the time of its last change. *)
Lemma structured_get ctx g u master c : fld_wf c → ∃ r,
  Structured_GET_Run hasher fmt ctx (mkGETInput g (Some u) master None) c = Returned r ∧
  match field_view c !! ParseURLKey u with
  | Some e => answer_ok OK r ∧
      response_body r = resource_body ctx (collection_url g ++ "/"%char :: FormatURLKey (K := K) u) (collection_url g) e ∧
      HttpHeaders.entries (response_headers_ r) =
        optional_last_modified (field_times c !! ParseURLKey u)
  | None => answer_ok NotFound r
  end.
Proof.
  intros Hw. unfold Structured_GET_Run, GET_resource. cbn [get_url_key requested_export_params get_generic].
  rewrite field_get_view, field_last_modified_times by done. destruct (field_view c !! ParseURLKey u) as [e|].
  - cbv zeta. destruct (resource_sound ctx (collection_url g ++ "/"%char :: FormatURLKey (K := K) u) (collection_url g) e) as (r & -> & Hr & Hb & He).
    destruct (SetLastModified_ok (field_times c !! ParseURLKey u) r OK Hr He) as (r' & E' & Hr' & Hb' & He').
    cbn [mbind outcome_bind]. rewrite E'. exists r'. split_and!; [done|done|congruence|done].
  - eexists. split; [done|]. apply answer_ok_object.
Qed.

#[export] Program Instance structured_sound : RestImplSound (Structured InitializeOwnKey hasher fmt) := {
  since_of since := since;
  shown ctx g u e := resource_body ctx (collection_url g ++ "/"%char :: FormatURLKey (K := K) u) (collection_url g) e;
}.
Next Obligation. intros. apply answer_ok_object. Qed.
Next Obligation. intros. apply answer_ok_object. Qed.
Next Obligation. intros. by apply structured_post. Qed.
Next Obligation. intros. by apply structured_put. Qed.
Next Obligation. intros. by apply structured_patch. Qed.
Next Obligation. intros. by apply structured_delete. Qed.
Next Obligation.
  intros ctx g u master c Hw. destruct (structured_get ctx g u master c Hw) as (r & Hr & Hok). exists r. split; [done|].
  destruct (field_view c !! ParseURLKey u); [|done]. by destruct Hok as (? & ? & _).
Qed.
End Impl.
End RestSound.
