(* ===== verification/RestRequests.v ===== *)
(** * RESTful storage: requests as transactions

    What [generic_data_handler] of storage/api.h does to the storage: on a master,
    a request is one step of the resources of its field, committed to the stream,
    or leaves everything as it was; a follower refuses all but GET.  Everything is
    proved from the interfaces: [RestImplSound] of the implementation, the laws of
    the field, of the journal and of the persister. *)

From Stdlib Require Import ZArith NArith Lia Ascii String Sorted.
From stdpp Require Import base gmap list strings.
From S2P Require Import Prelude Time Journal Persistence Decimal Transaction Strings Url PubSub RemoteStream StdMap State Tcp HttpDate.
From S2P Require Import HttpHeaders HttpMessage HttpParsing HttpRoutes HttpServer RestTypes RestKeys RestPlain RestStructured RestApi RestSound.
Open Scope Z_scope.

Module RestRequests.
Import Http HttpRoutes HttpServer RestTypes RestKeys RestPlain RestStructured RestApi RestSound.

Section Requests.
Context {C E RB M U K T B : Type} `{Countable K}.
Context `{JFS : JournaledFieldSound C E RB M, RF : !RestField C M K T, RFS : !RestFieldSound C E RB M K T}.
Context `{FT : !FieldTypeDependent U K, RJ : !RestJSON K T B}.
Context {CK : Type} `{!Clock CK, !StrictClock CK}.
Context {P EN : Type} `{PS : PersisterSound P EN}.
Context (of_transaction : Transaction E → EN) (as_transaction : EN → option (Transaction E)).
Context (as_of : ∀ t, as_transaction (of_transaction t) = Some t).
Context (init : C).
Context (InitializeOwnKey : option (T → T)) (impl : RestImpl C M U K T) `{RIS : !RestImplSound InitializeOwnKey impl} (g : GenericInput).

Local Abbreviation storage := (@Storage C E RB CK P).
Implicit Types (s : storage) (l : log EN).

(** A master that is not being shut down, with room in its log for [n] more entries. *)
Definition serving s l (n : N) : Prop :=
  storage_inv as_transaction init s l ∧ publisher_used_ s = true ∧ destructing_ s = false ∧ (log_size l + n < no_index)%N.

(** A step of the resources of the field, at the time [t]. *)
Definition stepped (step : HTTPResponseCodeValue * resource_effect K T) (t : microseconds) s s' (ops : list respond_op) : Prop :=
  effect_applied step.2 t (fields_ s) (fields_ s') ∧ ck_low (clock s) ≤ t < ck_low (clock s') ∧
  ∃ r, ops = [RespondResponse r] ∧ answer_ok step.1 r.

Lemma serving_fits s l n : serving s l n → log_fits l.
Proof. intros (_ & _ & _ & Hn). unfold log_fits. lia. Qed.

Lemma read_write_steps f step s l n : serving s l (n + 1) →
  (∀ ck : CK, wp_body f ck (fields_ s) (does step ck (fields_ s))) →
  ∃ s' l' ops t, read_write of_transaction f s = Ok (s', ops) ∧ serving s' l' n ∧ stepped step t s s' ops.
Proof.
  intros Hs Hf. pose proof (serving_fits _ _ _ Hs) as Hfit. destruct Hs as (Hinv & Hpub & Hd & Hn).
  pose proof Hinv as (_ & Hj & _). unfold read_write, ReadWriteTransaction_two_step. rewrite Hpub. cbn [negb].
  destruct (BeforeTransaction (clock s) (journal_ s)) as [ck0 j0] eqn:Hb.
  assert (ck_low (clock s) ≤ (Now (clock s)).1 < ck_low ck0) as Hck0.
  { unfold BeforeTransaction in Hb. pose proof (Now_low (clock s)). pose proof (Now_strict (clock s)).
    destruct (Now (clock s)) as [t ck1]. injection Hb as <- _. simpl in *. lia. }
  destruct (Hf ck0 j0) as (res & ck & c' & j & Hrun & r & -> & Hr & He & Hw & Hck & Hck').
  destruct (two_step_returned_ok of_transaction as_transaction as_of init f respond s l [] ck0 j0 r ck c' j Hinv Hfit Hpub Hd Hb Hrun)
    as (s' & w & res & m & t & -> & Hinv' & Hc & (Hp' & Hd' & Hlow) & -> & _). subst c'. cbn [mbind outcome_bind fst snd respond].
  exists s', (committed_log of_transaction l m (commit_log j) t), [RespondResponse r].
  exists (if decide (step.2 = Unchanged) then (Now (clock s)).1 else (Now ck0).1). split; [done|]. split.
  - split_and!; [done..|]. unfold committed_log, log_size in *. destruct (commit_log j); simpl; rewrite ?length_app; simpl; lia.
  - pose proof (Now_low ck0). pose proof (Now_strict ck0). unfold stepped. case_decide as Hu.
    + rewrite Hu in *. split_and!; [done|lia| |eauto]. destruct Hck as [->| ->]; lia.
    + rewrite (Hck' Hu) in Hlow. split_and!; [done|lia|lia|eauto].
Qed.

(** ** Which requests are steps *)

(** [Enter] of a request that changes something, and the JSON in its body. *)
Definition op_of (r : Request) : option (option microseconds * resource_op K T) :=
  let at_key (e : entered (write_context impl * U)) (f : K → option (resource_op K T)) :=
    match e with Next (ctx, u) => op ← f (ParseURLKey u); Some (since_of InitializeOwnKey ctx, op) | Answered_with _ => None end in
  let with_entry (f : T → resource_op K T) := match ParseJSON (RestJSON := RJ) (request_body r) with Ok e => Some (f e) | Throw _ => None end in
  if is_method "GET" r then None
  else if is_method "POST" r then
    match POST_Enter impl r with Next _ => op ← with_entry (Post (query_has "overwrite" r)); Some (None, op) | Answered_with _ => None end
  else if is_method "PUT" r then at_key (PUT_Enter impl r) (λ k, with_entry (Put k))
  else if is_method "PATCH" r then at_key (PATCH_Enter impl r) (λ k, Some (Patch k (request_body r)))
  else if is_method "DELETE" r then at_key (DELETE_Enter impl r) (λ k, Some (Delete k))
  else None.

Lemma read_only_keeps f s l : storage_inv as_transaction init s l → ∃ ops, read_only f s = Ok (s, ops).
Proof.
  intros (_ & Hj & _). unfold read_only, TransactionFromLockedSection_two_step_const. rewrite Hj.
  assert (AssertEmpty (empty_journal (E := E) (RB := RB)) = Ok ()) as -> by (by apply AssertEmpty_iff).
  cbn [storage_check mbind outcome_bind]. destruct (destructing_ s); [by eexists|].
  destruct (f (fields_ s)); cbn [respond]; by eexists.
Qed.

Lemma read_only_answers f s l r : storage_inv as_transaction init s l → destructing_ s = false → f (fields_ s) = Returned r →
  read_only f s = Ok (s, [RespondResponse r]).
Proof.
  intros (_ & Hj & _) Hd Hf. unfold read_only, TransactionFromLockedSection_two_step_const. rewrite Hj.
  assert (AssertEmpty (empty_journal (E := E) (RB := RB)) = Ok ()) as -> by (by apply AssertEmpty_iff).
  cbn [storage_check mbind outcome_bind]. by rewrite Hd, Hf.
Qed.

Lemma request_steps r s l n since op : serving s l (n + 1) → op_of r = Some (since, op) → ∃ s' l' ops t,
  generic_data_handler of_transaction impl g r s = Ok (s', ops) ∧ serving s' l' n ∧
  stepped (resource_step InitializeOwnKey since op (field_view (fields_ s)) (field_times (fields_ s))) t s s' ops.
Proof.
  intros Hs Hop. pose proof Hs as ((_ & _ & Hw & _) & Hpub & _ & _). unfold op_of in Hop. unfold generic_data_handler. rewrite Hpub, !andb_true_r.
  destruct (is_method "GET" r); [done|]. destruct (is_method "POST" r).
  - unfold handle_POST, enter. destruct (POST_Enter impl r) as [|[]]; [done|].
    destruct (ParseJSON (request_body r)) as [e|]; [|done]. injection Hop as <- <-.
    apply (read_write_steps _ _ s l n Hs). intros ck. apply (post_sound InitializeOwnKey (mkPOSTInput g e (query_has "overwrite" r)) ck _ Hw).
  - destruct (is_method "PUT" r).
    + unfold handle_PUT, enter. destruct (PUT_Enter impl r) as [|[ctx u]]; [done|].
      destruct (ParseJSON (request_body r)) as [e|]; [|done]. injection Hop as <- <-.
      apply (read_write_steps _ _ s l n Hs). intros ck. by apply put_sound.
    + destruct (is_method "PATCH" r).
      * unfold handle_PATCH, enter. destruct (PATCH_Enter impl r) as [|[ctx u]]; [done|]. injection Hop as <- <-.
        apply (read_write_steps _ _ s l n Hs). intros ck. by apply patch_sound.
      * destruct (is_method "DELETE" r); [|done]. unfold handle_DELETE, enter.
        destruct (DELETE_Enter impl r) as [|[ctx u]]; [done|]. injection Hop as <- <-.
        apply (read_write_steps _ _ s l n Hs). intros ck. by apply delete_sound.
Qed.

(** Any other request, and any request but a GET on a follower, changes nothing. *)
Lemma request_keeps r s l : storage_inv as_transaction init s l → (publisher_used_ s = true → op_of r = None) →
  ∃ ops, generic_data_handler of_transaction impl g r s = Ok (s, ops).
Proof.
  intros Hinv Hop. unfold op_of in Hop. unfold generic_data_handler. destruct (is_method "GET" r).
  { unfold handle_GET, enter. destruct (GET_Enter impl r) as [|[ctx u]]; [by eexists|]. by eapply read_only_keeps. }
  destruct (publisher_used_ s); [|rewrite !andb_false_r; by eexists]. rewrite !andb_true_r. specialize (Hop eq_refl).
  destruct (is_method "POST" r).
  { unfold handle_POST, enter. destruct (POST_Enter impl r) as [|[]]; [by eexists|]. destruct (ParseJSON (request_body r)); [done|by eexists]. }
  destruct (is_method "PUT" r).
  { unfold handle_PUT, enter. destruct (PUT_Enter impl r) as [|[ctx u]]; [by eexists|]. destruct (ParseJSON (request_body r)); [done|by eexists]. }
  destruct (is_method "PATCH" r); [unfold handle_PATCH, enter; destruct (PATCH_Enter impl r) as [|[ctx u]]; [by eexists|done]|].
  destruct (is_method "DELETE" r); [unfold handle_DELETE, enter; destruct (DELETE_Enter impl r) as [|[ctx u]]; [by eexists|done]|by eexists].
Qed.

Lemma follower_refuses r s : publisher_used_ s = false → is_method "GET" r = false →
  generic_data_handler of_transaction impl g r s =
  Ok (s, [RespondResponse (ErrorMethodNotAllowed impl (request_method r) (str "Supported methods: GET."))]).
Proof. intros Hp Hg. unfold generic_data_handler. by rewrite Hp, Hg, !andb_false_r. Qed.

Lemma get_answers r s l ctx u : storage_inv as_transaction init s l → destructing_ s = false → is_method "GET" r = true →
  GET_Enter impl r = Next (ctx, Some u) → export_params r = None → ∃ resp,
  generic_data_handler of_transaction impl g r s = Ok (s, [RespondResponse resp]) ∧
  GET_Run impl ctx (mkGETInput g (Some u) (publisher_used_ s) None) (fields_ s) = Returned resp ∧
  match field_view (fields_ s) !! ParseURLKey u with
  | Some e => answer_ok OK resp ∧ response_body resp = shown InitializeOwnKey ctx g u e
  | None => answer_ok NotFound resp
  end.
Proof.
  intros Hinv Hd Hm He Hx. pose proof Hinv as (_ & _ & Hw & _).
  destruct (get_sound InitializeOwnKey ctx g u (publisher_used_ s) (fields_ s) Hw) as (resp & Hrun & Hok).
  exists resp. split; [|done]. unfold generic_data_handler, handle_GET. rewrite Hm, He, Hx. cbn [enter].
  by eapply read_only_answers.
Qed.

(** A PUT that is not refused. *)
Lemma put_stores r s l n since k e : serving s l (n + 1) → op_of r = Some (since, Put k e) → ExtractOrComposeKey e = k →
  modified_since since (field_times (fields_ s) !! k) = None → ∃ s' l' a,
  generic_data_handler of_transaction impl g r s = Ok (s', [RespondResponse a]) ∧ serving s' l' n ∧
  answer_ok (match field_view (fields_ s) !! k with Some _ => OK | None => Created end) a ∧
  field_view (fields_ s') = <[k := e]> (field_view (fields_ s)).
Proof.
  intros Hs Hop He Hsince. destruct (request_steps r s l n since (Put k e) Hs Hop) as (s' & l' & ops & t & E1 & Hs' & Heff & Ht & a & -> & Ha).
  unfold resource_step in *. rewrite He, bool_decide_eq_true_2, Hsince in * by done. exists s', l', a.
  destruct (field_view (fields_ s) !! k); (split_and!; [done|done|done|]); by destruct Heff as [-> _]; rewrite He.
Qed.

(** ** Sequences of requests *)

Fixpoint run_requests (rs : list Request) s : outcome storage_error (storage * list (list respond_op)) :=
  match rs with
  | [] => Ok (s, [])
  | r :: rs =>
      '(s, ops) ← generic_data_handler of_transaction impl g r s;
      '(s, opss) ← run_requests rs s;
      Ok (s, ops :: opss)
  end.

(** The resources after the requests, changed at the given times. *)
Definition apply_effect (eff : resource_effect K T) (t : microseconds) (vt : gmap K T * gmap K microseconds) : gmap K T * gmap K microseconds :=
  match eff with
  | Unchanged => vt
  | Stored e => (<[ExtractOrComposeKey e := e]> vt.1, <[ExtractOrComposeKey e := t]> vt.2)
  | Erased k => (delete k vt.1, match vt.1 !! k with Some _ => <[k := t]> vt.2 | None => vt.2 end)
  end.

Fixpoint resources_after (rs : list Request) (ts : list microseconds) (vt : gmap K T * gmap K microseconds) : gmap K T * gmap K microseconds :=
  match rs, ts with
  | r :: rs, t :: ts =>
      resources_after rs ts
        (match op_of r with
         | Some (since, op) => apply_effect (resource_step InitializeOwnKey since op vt.1 vt.2).2 t vt
         | None => vt
         end)
  | _, _ => vt
  end.

(** The codes that the requests that are steps are answered with. *)
Fixpoint codes_after (rs : list Request) (ts : list microseconds) (vt : gmap K T * gmap K microseconds) : list (option HTTPResponseCodeValue) :=
  match rs, ts with
  | r :: rs, t :: ts =>
      match op_of r with
      | Some (since, op) =>
          let step := resource_step InitializeOwnKey since op vt.1 vt.2 in
          Some step.1 :: codes_after rs ts (apply_effect step.2 t vt)
      | None => None :: codes_after rs ts vt
      end
  | _, _ => []
  end.

Definition answered_with (ops : list respond_op) (code : option HTTPResponseCodeValue) : Prop :=
  match code with Some code => ∃ r, ops = [RespondResponse r] ∧ answer_ok code r | None => True end.

Definition resources_of s : gmap K T * gmap K microseconds := (field_view (fields_ s), field_times (fields_ s)).

Lemma effect_resources eff t s s' : effect_applied eff t (fields_ s) (fields_ s') → resources_of s' = apply_effect eff t (resources_of s).
Proof. unfold resources_of. destruct eff as [|e|k]; simpl; [by intros ->|intros [-> ->]; done|intros [-> ->]; done]. Qed.

Lemma serving_less s l n n' : serving s l n → (n' ≤ n)%N → serving s l n'.
Proof. intros (? & ? & ? & ?) ?. split_and!; [done..|lia]. Qed.

Lemma run_requests_ok rs s l : serving s l (N.of_nat (length rs)) → ∃ s' l' opss ts,
  run_requests rs s = Ok (s', opss) ∧ serving s' l' 0 ∧ Forall2 answered_with opss (codes_after rs ts (resources_of s)) ∧
  length opss = length rs ∧ length ts = length rs ∧
  StronglySorted Z.le ts ∧ Forall (λ t, ck_low (clock s) ≤ t ≤ ck_low (clock s')) ts ∧ ck_low (clock s) ≤ ck_low (clock s') ∧
  resources_of s' = resources_after rs ts (resources_of s).
Proof.
  revert s l. induction rs as [|r rs IH]; intros s l Hs.
  { exists s, l, [], []. split_and!; try done; constructor. }
  cbn [length] in Hs. rewrite Nat2N.inj_succ, <- N.add_1_r in Hs. cbn [run_requests].
  assert (∃ s1 l1 ops t, generic_data_handler of_transaction impl g r s = Ok (s1, ops) ∧ serving s1 l1 (N.of_nat (length rs)) ∧
    ck_low (clock s) ≤ t ≤ ck_low (clock s1) ∧ resources_of s1 =
      match op_of r with
      | Some (since, op) => apply_effect (resource_step InitializeOwnKey since op (resources_of s).1 (resources_of s).2).2 t (resources_of s)
      | None => resources_of s
      end ∧
    answered_with ops (match op_of r with
      | Some (since, op) => Some (resource_step InitializeOwnKey since op (resources_of s).1 (resources_of s).2).1
      | None => None
      end)) as (s1 & l1 & ops & t & -> & Hs1 & Ht & Hr & Ha).
  { destruct (op_of r) as [[since op]|] eqn:Hop.
    - destruct (request_steps r s l _ since op Hs Hop) as (s1 & l1 & ops & t & E1 & Hs1 & He & Ht & Ha).
      exists s1, l1, ops, t. split_and!; [done|done|lia|lia|by apply effect_resources|exact Ha].
    - pose proof Hs as (Hinv & _). destruct (request_keeps r s l Hinv) as [ops E1]; [done|].
      exists s, l, ops, (ck_low (clock s)). split_and!; [done| |lia|lia|done|done]. eapply serving_less; [done|lia]. }
  destruct (IH s1 l1 Hs1) as (s' & l' & opss & ts & E2 & Hs' & Hcodes & Hl & Hlt & Hsort & Hf & Hle & Hr').
  cbn [mbind outcome_bind]. rewrite E2. exists s', l', (ops :: opss), (t :: ts). simpl. split_and!; try done; try congruence.
  - rewrite Hr in Hcodes. destruct (op_of r) as [[since op]|]; by constructor.
  - constructor; [done|]. eapply Forall_impl; [exact Hf|]. simpl. lia.
  - constructor; [lia|]. eapply Forall_impl; [exact Hf|]. simpl. lia.
  - lia.
  - rewrite Hr', Hr. destruct (op_of r) as [[since op]|]; done.
Qed.
End Requests.
End RestRequests.
