(* ===== verification/RestPages.v ===== *)
(** * RESTful storage: collections, storage/rest/hypermedia.h, structured.h

    What the loop of [BuildResponseWithCollection] puts on a page, and where the
    links to the next pages lead: a client that follows them reads the URL it is
    given, so the text of the link is parsed again as the URL of a request.  And
    what the export of a field contains, in one piece or in shards. *)

From Stdlib Require Import ZArith NArith Lia Ascii String.
From stdpp Require Import base gmap list strings.
From S2P Require Import Prelude Time Journal Persistence Decimal Strings Url PubSub RemoteStream StdMap.
From S2P Require Import HttpHeaders HttpMessage HttpRoutes HttpServer RestTypes RestKeys RestPlain RestStructured.
Open Scope N_scope.

Module RestPages.
Import HttpRoutes HttpServer RemoteStream RestTypes RestKeys RestPlain RestStructured.

Lemma u64_small z : (0 ≤ z < 2 ^ 64)%Z → u64 z = Z.to_N z.
Proof. intros Hz. unfold u64. by rewrite Z.mod_small. Qed.

Lemma u64_add_small a b : a + b < 2 ^ 64 → u64_add a b = a + b.
Proof. intros Hab. unfold u64_add. rewrite u64_small; lia. Qed.

Lemma u64_sub_small a b : b ≤ a → a < 2 ^ 64 → u64_sub a b = a - b.
Proof. intros Hab Ha. unfold u64_sub. rewrite u64_small; lia. Qed.

Lemma u64_mul_small a b : a * b < 2 ^ 64 → u64_mul a b = a * b.
Proof. intros Hab. unfold u64_mul. rewrite u64_small; lia. Qed.

(** ** The loop *)

Section Loop.
Context {A : Type} (i n : N) (Hin : i + n < 2 ^ 64).
Implicit Types (span page : list A).

Lemma page_loop_ok span : ∀ k page prev, k + N.of_nat (length span) < 2 ^ 64 →
  page_loop i n k span page prev =
  (page ++ take (N.to_nat (i + n - N.max i k)) (drop (N.to_nat (i - k)) span),
   prev || ((k <? i) && (0 <? N.of_nat (length span))), i + n <? k + N.of_nat (length span)) ∨ i + n < k.
Proof.
  induction span as [|x span IH]; intros k page prev Hk.
  - destruct (N.lt_ge_cases (i + n) k) as [|Hle]; [by right|left]. cbn [page_loop length N.of_nat].
    rewrite N.add_0_r, andb_false_r, orb_false_r. rewrite drop_nil, take_nil, app_nil_r.
    destruct (N.ltb_spec (i + n) k); [lia|done].
  - destruct (N.lt_ge_cases (i + n) k) as [|Hle]; [by right|left]. cbn [page_loop]. rewrite (u64_add_small i n) by done.
    cbn [length] in *. rewrite Nat2N.inj_succ in *. assert (u64_add k 1 = k + 1) as -> by (apply u64_add_small; lia).
    destruct (N.leb_spec i k) as [Hik|Hik], (N.ltb_spec k (i + n)) as [Hkn|Hkn]; cbn [andb]; try lia.
    + destruct (IH (k + 1) (page ++ [x]) prev) as [->|]; [lia| |lia].
      replace (i - k) with 0 by lia. replace (i - (k + 1)) with 0 by lia. rewrite !drop_0.
      replace (N.to_nat (i + n - N.max i k)) with (S (N.to_nat (i + n - N.max i (k + 1)))) by lia. cbn [take].
      rewrite <- app_assoc. cbn [app]. destruct (N.ltb_spec (k + 1) i), (N.ltb_spec k i); try lia. cbn [andb].
      f_equal. f_equal. lia.
    + destruct (N.ltb_spec k i); [lia|]. destruct (N.leb_spec (i + n) k); [|lia]. cbn [andb]. rewrite orb_false_r.
      replace (N.to_nat (i + n - N.max i k)) with 0%nat by lia. rewrite take_0, app_nil_r.
      destruct (N.ltb_spec (i + n) (k + N.succ (N.of_nat (length span)))); [done|lia].
    + destruct (N.ltb_spec k i); [|lia]. destruct (IH (k + 1) page true) as [->|]; [lia| |lia].
      replace (N.to_nat (i - k)) with (S (N.to_nat (i - (k + 1)))) by lia. cbn [drop].
      replace (N.max i (k + 1)) with (N.max i k) by lia. cbn [andb orb].
      destruct (N.ltb_spec 0 (N.succ (N.of_nat (length span)))); [|lia]. rewrite orb_true_r. f_equal. f_equal. lia.
Qed.

Lemma page_loop_start span : N.of_nat (length span) < 2 ^ 64 →
  page_loop i n 0 span [] false =
  (take (N.to_nat n) (drop (N.to_nat i) span), (0 <? i) && (0 <? N.of_nat (length span)), i + n <? N.of_nat (length span)).
Proof.
  intros Hs. destruct (page_loop_ok span 0 [] false) as [->|]; [done| |lia]. cbn [app orb]. rewrite N.sub_0_r, N.add_0_l.
  replace (i + n - N.max i 0) with n by lia. done.
Qed.
End Loop.

(** ** The links *)

(** Digits are not escaped. *)
Lemma encode_decimal s : decimal s → Url.EncodeURIComponent s = s.
Proof.
  intros [_ Hd]. unfold Url.EncodeURIComponent. induction Hd as [|c s Hc _ IH]; [done|]. cbn [mbind list_bind]. rewrite IH.
  destruct Hc as [d Hc]. destruct c as [[] [] [] [] [] [] [] []]; done.
Qed.

Lemma decimal_ascii s : decimal s → Url.is_ascii s.
Proof.
  intros [_ Hd]. eapply Forall_impl; [exact Hd|]. intros c [d Hc]. destruct c as [[] [] [] [] [] [] [] []]; done.
Qed.

Definition page_parameters (i n : N) : Url.URLParameters :=
  let v := [(str "i", ToString_uint64 i); (str "n", ToString_uint64 n)] in Url.mkParameters v (Url.QueryParameters v) [].

Lemma gen_page_url_compose url i n : gen_page_url url i n = url ++ Url.ComposeParameters (page_parameters i n).
Proof.
  unfold gen_page_url, Url.ComposeParameters, page_parameters. cbn [Url.parameters_vector Url.ComposeParameters_loop Url.print_fragment Url.fragment].
  rewrite (encode_decimal (ToString_uint64 i)), (encode_decimal (ToString_uint64 n)) by (apply printed_decimal; lia). by rewrite !app_nil_r.
Qed.

(** The request that is made by following a link. *)
Definition follow_link (url : bytes) (r : Request) : Request :=
  mkRequest ((request_url r).1, (Url.ExtractURLParametersFromURL url).1) (url_path_had_trailing_slash r) (url_path_args r)
    (request_method r) (request_headers r) (request_body r) (request_timestamp r).

Definition plain_url (url : bytes) : Prop := ("?"%char ∉ url) ∧ ("#"%char ∉ url).

Lemma follow_page_link url i n r : plain_url url → i < 2 ^ 64 → n < 2 ^ 64 →
  hypermedia_context (follow_link (gen_page_url url i n) r) = mkContext false i n.
Proof.
  intros [Hq Hf] Hi Hn. unfold follow_link. rewrite gen_page_url_compose.
  rewrite (Url.extract_compose url (page_parameters i n)); [|done|done| |done].
  - set (r' := mkRequest _ _ _ _ _ _ _).
    assert (∀ key, query r' !! key = if decide (key = str "i") then Some (ToString_uint64 i)
                                    else if decide (key = str "n") then Some (ToString_uint64 n) else None) as Hquery.
    { intros key. change (query r') with (<[str "i" := ToString_uint64 i]> (<[str "n" := ToString_uint64 n]> (∅ : gmap bytes bytes))).
      repeat case_decide; subst; [by rewrite lookup_insert_eq|by rewrite lookup_insert_ne, lookup_insert_eq|].
      by rewrite !lookup_insert_ne. }
    unfold hypermedia_context, query_at, query_get, query_has. rewrite !Hquery. simpl.
    rewrite !uint64_roundtrip by (unfold no_index; lia). done.
  - unfold page_parameters. repeat constructor; cbn [fst snd]; try by (repeat constructor); apply decimal_ascii, printed_decimal; lia.
Qed.

(** ** Page after page *)

Section Walk.
Context {A D : Type} (max_records : N) (pagination_url collection_url : bytes) (show : A → D).
Implicit Types (span : list (bytes * A)) (r : Request).

Abbreviation page_of := (hypermedia_page max_records).

Definition record_of (x : bytes * A) : HypermediaRESTCollectionRecord D :=
  mkCollectionRecord (collection_url ++ "/"%char :: x.1) (show x.2).

(** A client that asks for a page and follows the links to the next ones; [None]
    if it is not done after [fuel] links. *)
Fixpoint walk (fuel : nat) r span : option (list (HypermediaRESTCollectionResponse D)) :=
  match page_of (hypermedia_context r) pagination_url collection_url show span with
  | Throw _ => None
  | Ok o =>
      match url_next_page o with
      | None => Some [o]
      | Some url => match fuel with O => None | S fuel => cons o <$> walk fuel (follow_link url r) span end
      end
  end.

(** What is on the page from [i] on. *)
Definition shows (n : N) span (o : HypermediaRESTCollectionResponse D) : Prop :=
  collection_total o = N.of_nat (length span) ∧ collection_data o = record_of <$> take (N.to_nat n) (drop (N.to_nat (collection_i o)) span) ∧
  collection_n o = N.of_nat (length (collection_data o)).

Lemma page_shows b i n span : i ≤ N.of_nat (length span) → n ≤ max_records → N.of_nat (length span) + 2 * n < 2 ^ 64 →
  ∃ o, page_of (mkContext b i n) pagination_url collection_url show span = Ok o ∧ shows n span o ∧ collection_i o = i ∧
    url_next_page o = if i + n <? N.of_nat (length span)
                      then Some (gen_page_url pagination_url (N.min (N.of_nat (length span) - n) (i + n)) n) else None.
Proof.
  intros Hi Hn Ht. unfold hypermedia_page. cbn [query_n query_i]. destruct (N.ltb_spec max_records n); [lia|]. cbv zeta.
  rewrite page_loop_start by lia. destruct (N.ltb_spec (N.of_nat (length span)) i); [lia|].
  eexists. split; [done|]. unfold shows. cbn [collection_total collection_data collection_i collection_n url_next_page].
  rewrite u64_sub_small by lia. rewrite length_fmap, length_take, length_drop. split_and!; [done|done|lia|done|].
  destruct (N.ltb_spec (i + n) (N.of_nat (length span))); [|done]. unfold next_index. rewrite u64_mul_small by lia.
  rewrite (u64_add_small i (n * 2)), (u64_add_small i n), u64_sub_small by lia.
  destruct (N.ltb_spec (N.of_nat (length span)) (i + n * 2)); repeat f_equal; lia.
Qed.

Lemma walk_ok n span : plain_url pagination_url → 0 < n → n ≤ max_records → N.of_nat (length span) + 2 * n < 2 ^ 64 →
  ∀ fuel i r, query_i (hypermedia_context r) = i → query_n (hypermedia_context r) = n → i ≤ N.of_nat (length span) →
  (length span ≤ fuel + N.to_nat (i + n))%nat →
  ∃ os, walk fuel r span = Some os ∧ Forall (shows n span) os ∧ Forall (λ o, collection_i o = i ∨ collection_i o + n ≤ N.of_nat (length span)) os ∧
    ∀ p x, (N.to_nat i ≤ p)%nat → span !! p = Some x → ∃ o, o ∈ os ∧ record_of x ∈ collection_data o.
Proof.
  intros Hurl H0 Hn Ht. induction fuel as [|fuel IH]; intros i r Hri Hrn Hi Hfuel;
    destruct (hypermedia_context r) as [b i' n'] eqn:Hr; simpl in Hri, Hrn; subst i' n';
    destruct (page_shows b i n span Hi Hn Ht) as (o & Ho & Hsh & Hoi & Hnext); cbn [walk]; rewrite Hr, Ho, Hnext;
    assert (∀ p x, (N.to_nat i ≤ p < N.to_nat (i + n))%nat → span !! p = Some x → record_of x ∈ collection_data o) as Hpage.
  1, 3: intros p x Hp Hx; destruct Hsh as (_ & -> & _); apply list_elem_of_fmap; exists x; split; [done|];
    apply list_elem_of_lookup; exists (p - N.to_nat i)%nat; rewrite Hoi, lookup_take_lt, lookup_drop by lia; rewrite <- Hx; f_equal; lia.
  - destruct (N.ltb_spec (i + n) (N.of_nat (length span))); [lia|]. exists [o]. split_and!; [done|by apply Forall_singleton|apply Forall_singleton; by left|].
    intros p x Hp Hx. exists o. split; [apply list_elem_of_here|]. apply (Hpage p); [|done]. apply lookup_lt_Some in Hx. lia.
  - destruct (N.ltb_spec (i + n) (N.of_nat (length span))).
    + set (i' := N.min _ _). destruct (IH i' (follow_link (gen_page_url pagination_url i' n) r)) as (os & -> & Hf & Hf' & Hcov);
        [rewrite follow_page_link by (done || lia); done..|lia|lia|].
      exists (o :: os). split_and!; [done|by constructor| |].
      * constructor; [by left|]. eapply Forall_impl; [exact Hf'|]. simpl. intros o' [->|]; [right; lia|by right].
      * intros p x Hp Hx. destruct (decide (p < N.to_nat (i + n))%nat).
        { exists o. split; [apply list_elem_of_here|by apply (Hpage p)]. }
        destruct (Hcov p x) as (o' & ? & ?); [lia|done|]. exists o'. split; [by apply list_elem_of_further|done].
    + exists [o]. split_and!; [done|by apply Forall_singleton|apply Forall_singleton; by left|].
      intros p x Hp Hx. exists o. split; [apply list_elem_of_here|]. apply (Hpage p); [|done]. apply lookup_lt_Some in Hx. lia.
Qed.
End Walk.

(** ** Exports *)

(** Parts of a list by the value of a function. *)
Lemma filter_parts {A} (f : A → Z) (values : list Z) (l : list A) : NoDup values → (∀ x, x ∈ l → f x ∈ values) →
  concat ((λ v, filter (λ x, f x = v) l) <$> values) ≡ₚ l.
Proof.
  revert l. induction values as [|v values IH]; intros l Hnd Hl; cbn [fmap list_fmap concat].
  { destruct l as [|x l]; [done|]. specialize (Hl x (list_elem_of_here x l)). by apply elem_of_nil in Hl. }
  apply NoDup_cons in Hnd as [Hv Hnd]. 
  etransitivity; [|apply (filter_app_complement (λ x, f x = v) l)]. apply Permutation_app_head.
  transitivity (concat ((λ v', filter (λ x, f x = v') (filter (λ x, f x ≠ v) l)) <$> values)).
  - match goal with |- ?a ≡ₚ ?b => cut (a = b); [by intros ->|] end. f_equal. apply list_fmap_ext. intros j v' Hj. apply list_elem_of_lookup_2 in Hj.
    rewrite list_filter_filter. apply list_filter_iff. intros x. split; [|tauto]. intros Hx. split; [done|]. intros Hx'. apply Hv. by rewrite <- Hx', Hx.
  - apply IH; [done|]. intros x [Hx Hin]%list_elem_of_filter. apply Hl in Hin. by apply elem_of_cons in Hin as [?|].
Qed.

Lemma Join_last (xs : list bytes) (sep : ascii) : xs ≠ [] → (xs ≫= λ x, x ++ [sep]) = Join xs [sep] ++ [sep].
Proof.
  destruct xs as [|x xs]; [done|]. intros _. revert x. induction xs as [|y xs IH]; intros x; cbn [mbind list_bind].
  - simpl. by rewrite app_nil_r.
  - cbn [mbind list_bind] in IH. rewrite IH, Join_cons. by rewrite <- !app_assoc.
Qed.

Section Export.
Context {C E RB M K T B : Type} `{Countable K}.
Context `{JF : !JournaledField C E RB, FC : !FieldCalls C E RB M, RF : !RestField C M K T, RFS : !RestFieldSound C E RB M K T}.
Context `{RJ : !RestJSON K T B} (hasher : K → Z).
Implicit Types (c : C) (params : FieldExportParams).

(** An entry, as it is printed. *)
Definition detailed_text c (kv : K * T) : bytes :=
  JSON_Minimalistic (DetailedObject (make_DetailedExportEntry (default 0%Z (field_times c !! kv.1)) kv.1 kv.2)).

Definition shard_of params c : list (K * T) := filter (λ kv, in_shard hasher params kv.1 = true) (field_entries c).

Lemma export_loop_detailed params c l result : format params = Detailed → (∀ kv, kv ∈ l → is_Some (field_times c !! kv.1)) →
  export_loop hasher params c l result =
  Ok (result ++ (filter (λ kv, in_shard hasher params kv.1 = true) l ≫= λ kv, detailed_text c kv ++ [","%char])).
Proof.
  intros Hp. revert result. induction l as [|kv l IH]; intros result Hl; cbn [export_loop]; [by rewrite filter_nil, app_nil_r|].
  assert (∀ kv, kv ∈ l → is_Some (field_times c !! kv.1)) as Hl' by (intros kv' ?; apply Hl; by apply list_elem_of_further).
  rewrite filter_cons. destruct (in_shard hasher params kv.1); [|by apply IH]. rewrite decide_True by done.
  unfold export_entry, detailed_entry, detailed_text. rewrite bool_decide_eq_true_2, field_last_modified_times by done.
  destruct (Hl kv (list_elem_of_here kv l)) as [t Ht]. rewrite Ht. cbn [mbind outcome_bind]. rewrite IH by done. cbn [mbind list_bind default].
  by rewrite Ht, <- !app_assoc.
Qed.

(** The detailed export is a JSON array. *)
Lemma export_text_detailed params c : fld_wf c → format params = Detailed →
  export_text hasher params c = Ok ("["%char :: Join (detailed_text c <$> shard_of params c) [","%char] ++ ["]"%char; newline]).
Proof.
  intros Hw Hp. unfold export_text. rewrite bool_decide_eq_true_2 by done.
  rewrite export_loop_detailed; [|done|].
  - cbn [mbind outcome_bind]. fold (shard_of params c). destruct (shard_of params c) as [|kv l] eqn:Hs; [done|].
    assert (((kv :: l) ≫= λ kv, detailed_text c kv ++ [","%char]) =
      Join (detailed_text c <$> kv :: l) [","%char] ++ [","%char]) as Hj.
    { rewrite <- Join_last by done. clear Hs. generalize (kv :: l). induction l0 as [|x l0 IH]; [done|]. cbn. by rewrite IH. }
    rewrite Hj, length_app, length_app. cbn [length]. destruct (Z.ltb_spec 1 (Z.of_nat (1 + (length (Join (detailed_text c <$> kv :: l) [","%char]) + 1)))); [|lia].
    rewrite app_assoc, removelast_last. done.
  - intros kv Hkv. apply field_stamped; [done|]. rewrite field_entries_view in Hkv by done. destruct kv as [k e].
    apply elem_of_map_to_list in Hkv. by eexists.
Qed.

Lemma shards_partition c f (m : Z) : fld_wf c → (1 < m)%Z →
  concat ((λ s, shard_of (mkExportParams f m s) c) <$> seqZ 0 m) ≡ₚ map_to_list (field_view c).
Proof.
  intros Hw Hm. rewrite <- field_entries_view by done.
  transitivity (concat ((λ s, filter (λ kv : K * T, hasher kv.1 mod m = s)%Z (field_entries c)) <$> seqZ 0 m)).
  - match goal with |- ?a ≡ₚ ?b => cut (a = b); [by intros ->|] end. f_equal. apply list_fmap_ext. intros j s _. apply list_filter_iff. intros kv. unfold in_shard. cbn [nshards shard].
    destruct (Z.ltb_spec 1 m); [|lia]. cbn [andb]. rewrite negb_involutive. apply Z.eqb_eq.
  - apply filter_parts; [apply NoDup_seqZ|]. intros kv _. apply elem_of_seqZ. pose proof (Z.mod_pos_bound (hasher kv.1) m). lia.
Qed.
End Export.
End RestPages.
