(* ===== verification/RestOverHttp.v ===== *)
(** * RESTful storage: from the client to the storage and back

    The handlers of storage/api.h behind the HTTP server of HttpServer.v, and the
    client of HttpClient.v in front of it: whatever an implementation of the
    interface answers can be sent, so the client receives the code and the body
    of the operation that its request stands for. *)

From Stdlib Require Import ZArith NArith Lia Ascii String.
From stdpp Require Import base sets gmap list strings.
From S2P Require Import Prelude Time Journal Persistence Decimal Transaction Strings Url PubSub RemoteStream StdMap State Tcp GroupByLines HttpDate.
From S2P Require Import HttpHeaders HttpMessage HttpParsing HttpConnection HttpRoundTrip HttpRoutes HttpServer HttpClient HttpExchange.
From S2P Require Import RestTypes RestKeys RestPlain RestStructured RestApi RestSound RestRequests.
Open Scope Z_scope.

Module RestOverHttp.
Import Http Tcp HttpHeaders HttpParsing HttpConnection HttpRoundTrip HttpRoutes HttpServer HttpClient HttpExchange.
Import RestTypes RestKeys RestPlain RestStructured RestApi RestSound RestRequests.

Local Ltac decided := apply (bool_decide_unpack _); vm_compute; exact I.

(** ** Dates on a line *)

Lemma ends_app (s s' t : bytes) : (∃ r, s' = r ++ t) → ∃ r, s ++ s' = r ++ t.
Proof. intros [r ->]. exists (s ++ r). by rewrite <- app_assoc. Qed.

Lemma ends_cons c (s t : bytes) : (∃ r, s = r ++ t) → ∃ r, c :: s = r ++ t.
Proof. intros [r ->]. by exists (c :: r). Qed.

Lemma imf_trimmed t : HttpDate.tm_ok t → trim IsSpaceOrTab (HttpDate.strftime HttpDate.IMFFix t) = HttpDate.strftime HttpDate.IMFFix t.
Proof.
  intros (_ & _ & _ & _ & Hm & Hw). rewrite HttpDate.imf_text. set (rest := ","%char :: _).
  assert (∀ s, trim_front IsSpaceOrTab (HttpDate.abbreviated (HttpDate.name_of HttpDate.weekdays (HttpDate.tm_wday t)) ++ s) = HttpDate.abbreviated (HttpDate.name_of HttpDate.weekdays (HttpDate.tm_wday t)) ++ s) as Hf.
  { intros s. pattern (HttpDate.tm_wday t). apply (HttpDate.index_cases _ 6); [lia|]. by repeat constructor. }
  unfold trim. rewrite Hf. assert (∃ r, HttpDate.abbreviated (HttpDate.name_of HttpDate.weekdays (HttpDate.tm_wday t)) ++ rest = r ++ str " GMT") as [r ->].
  { unfold rest. repeat first [apply ends_app | (exists []; reflexivity) | apply ends_cons]. }
  rewrite rev_app_distr. change (trim_front IsSpaceOrTab (rev (str " GMT") ++ rev r)) with (rev (str " GMT") ++ rev r).
  by rewrite <- rev_app_distr, rev_involutive.
Qed.

Lemma date_in_line t : in_line (HttpDate.FormatDateTimeAsIMFFix t) ∧
  trim IsSpaceOrTab (HttpDate.FormatDateTimeAsIMFFix t) = HttpDate.FormatDateTimeAsIMFFix t.
Proof.
  unfold HttpDate.FormatDateTimeAsIMFFix, HttpDate.FillStructTM. destruct (HttpDate.gmtime_ok (Z.quot t 1000000)) as [Hok _].
  split; [split; apply HttpDate.imf_no_control; [by right|done|by left|done]|by apply imf_trimmed].
Qed.

(** Every answer of the interface can be sent. *)
Lemma optional_last_modified_plain lm : plain_headers (optional_last_modified lm).
Proof.
  destruct lm as [t|]; [|constructor]. destruct (date_in_line t) as [Hd Hdt], (int64_in_line t) as [Hi Hit].
  constructor; [|constructor; [|constructor]]; (split; [|by vm_compute]); (split; [done|decided|split; decided|done|done]).
Qed.

Lemma sent_headers_entries r code lm : RestSound.answer_ok code r → entries (response_headers_ r) = optional_last_modified lm →
  headers_wf (sent_headers r) ∧ entries (sent_headers r) = optional_last_modified lm ++ [(kCORSHeaderName, str "*")] ∧ cookies (sent_headers r) = [].
Proof.
  intros [_ _ Hwf _ Hk Hcors _] He. destruct (sent_headers_ok r Hwf) as [_ Hs]. split; [done|]. unfold sent_headers. rewrite Hcors.
  destruct (copy_constructor_ok (response_headers_ r) Hwf) as (h & -> & Hh & Heh & Hkh). unfold mbind, outcome_bind, SetCORSHeader.
  destruct (Set_ok kCORSHeaderName (str "*") h Hh) as (h' & -> & _ & He' & Hk'); [done|done|].
  rewrite He', Heh, He, Hk', Hkh, Hk. split; [|done]. destruct lm as [t|]; [|done]. unfold optional_last_modified, last_modified_headers.
  generalize (HttpDate.FormatDateTimeAsIMFFix t), (RemoteStream.ToString_int64 t). done.
Qed.

Lemma answer_sendable code r : RestSound.answer_ok code r → 0 ≤ code < 2 ^ 31 →
  HttpExchange.answer_ok ConnectionClose code (sent_headers r) (response_content_type r).
Proof.
  intros Hr Hcode. destruct (answer_headers _ _ Hr) as [lm He]. destruct (sent_headers_entries r code lm Hr He) as (Hwf & Hse & Hsk).
  split; [done|done|]. unfold response_headers. rewrite Hse, Hsk, app_nil_r.
  assert (printable (str "Content-Type", response_content_type r)) as Hct.
  { pose proof (answer_type _ _ Hr) as Ht. rewrite !elem_of_cons, elem_of_nil in Ht. destruct Ht as [->|[->|[]]];
      (split; [done|decided|split; decided|split; decided|reflexivity]). }
  constructor; [split; [done|by vm_compute]|]. constructor; [split; [split; [done|decided|split; decided|split; decided|reflexivity]|by vm_compute]|].
  apply Forall_app. split; [apply optional_last_modified_plain|]. constructor; [|constructor].
  split; [split; [done|decided|split; decided|split; decided|reflexivity]|by vm_compute].
Qed.

(** The answer is not too long for the client. *)
Definition fits (r : Response) : Prop :=
  Z.of_nat (length (response_body r)) ≤ kMaxHTTPPayloadSizeInBytes ∧ Z.of_nat (length (answer_of [RespondResponse r])) ≤ 2 ^ 60.

(** ** Routes of the interface on the server *)

Section Server.
Context {C E RB M CK P : Type}.
Context (l : @Live C M) (s : @Storage C E RB CK P).
Local Abbreviation rest_routes := (routes (@rest_handler C E RB M CK P)).

Lemma handler_at_in (path : bytes) (i : nat) (hs : rest_routes) : handler_at path i (handlers_in l s hs) = handler_in l s <$> handler_at path i hs.
Proof. unfold handler_at, handlers_in. rewrite lookup_fmap. destruct (hs !! path) as [m|]; [|done]. simpl. by rewrite lookup_fmap. Qed.

Lemma find_loop_in (fuel : nat) (path : bytes) (args : list bytes) (hs : rest_routes) :
  find_loop fuel path args (handlers_in l s hs) = (handler_in l s <$> (find_loop fuel path args hs).1, (find_loop fuel path args hs).2).
Proof.
  revert path args. induction fuel as [|fuel IH]; intros path args; cbn [find_loop]; rewrite handler_at_in;
    (destruct (handler_at _ _ hs); [done|]); simpl; (case_bool_decide; [done|]); [done|].
  destruct (after_last_slash _). apply IH.
Qed.

Lemma FindHandler_in (path : bytes) (hs : rest_routes) h (args : URLPathArgs) : FindHandler path hs = (Some h, args) →
  FindHandler path (handlers_in l s hs) = (Some (handler_in l s h), args).
Proof.
  unfold FindHandler. destruct path as [|c path]; [done|]. destruct (ascii_dec c "/"%char) as [->|Hc].
  - rewrite find_loop_in. by intros ->.
  - destruct c as [[] [] [] [] [] [] [] []]; done.
Qed.
End Server.

(** ** Requests of a client *)

Section OverHttp.
Context {C E RB M U K T B : Type} `{Countable K}.
Context `{JFS : JournaledFieldSound C E RB M, RF : !RestField C M K T, RFS : !RestFieldSound C E RB M K T}.
Context `{FT : !FieldTypeDependent U K, RJ : !RestJSON K T B}.
Context {CK : Type} `{!Clock CK, !StrictClock CK}.
Context {P EN : Type} `{PS : PersisterSound P EN}.
Context (of_transaction : Transaction E → EN) (as_transaction : EN → option (Transaction E)).
Context (as_of : ∀ t, as_transaction (of_transaction t) = Some t).
Context (init : C).
Context (InitializeOwnKey : option (T → T)) (impl : RestImpl C M U K T) `{RIS : !RestImplSound InitializeOwnKey impl} (g : GenericInput).
Context (scaled : nat → nat) (Hscaled : ∀ n, (scaled n ≤ 2 * n)%nat).

Local Abbreviation storage := (@Storage C E RB CK P).
Local Abbreviation handle := (generic_data_handler of_transaction impl g).
Local Abbreviation rest_routes := (routes (@rest_handler C E RB M CK P)).
Implicit Types (s : storage) (cl : Client) (net : network).

(** The request of a client whose path leads to the field. *)
Record leads_to_field (hs : rest_routes) (r : request) cl (u u' : Url.URL) (args : URLPathArgs) : Prop := {
  client_prepared : PrepareInput r = Ok cl;
  url_parsed : Url.make_URL (request_url_ cl) = Ok u;
  request_valid : request_ok cl u u';
  route_found : FindHandler (Url.path u'.1) hs = (Some (of_field handle), args);
}.

(** The server that serves the storage in the state [s] is at that URL. *)
Definition served_at net (u : Url.URL) (now : Z) (l : @Live C M) s (hs : rest_routes) : Prop :=
  ∃ p, net 0%nat (Url.host u.1) (connect_port u) = Some p ∧ serves_handlers now (handlers_in l s hs) p.

Definition final_code (code : Z) : Prop := 0 ≤ code < 2 ^ 31 ∧ ¬ 300 ≤ code ≤ 399.

Lemma answered_over_http net fuel r cl u u' now hs l args s : leads_to_field hs r cl u u' args → served_at net u now l s hs →
  ∃ q, request_is cl u u' args now q ∧ ∀ s' a code, handle q s = Ok (s', [RespondResponse a]) → RestSound.answer_ok code a →
    final_code code → fits a → ∃ hs', HTTP scaled net (S fuel) r = Ok (mkResponseWithBuffer (request_url_ cl) code hs' (response_body a)).
Proof.
  intros [Hp Hu Hok Hf] (p & Hn & Hserves).
  destruct (exchange_called scaled Hscaled cl u u' now (handlers_in l s hs) _ args (mkRedirectHelper (mkDefaultHelper no_headers []) []) p
    Hok Hserves (FindHandler_in l s _ _ _ _ Hf)) as (q & Hq & Hex).
  exists q. split; [done|]. intros s' a code Ha Hcode [Hrange H3xx] [Hbody Hlen].
  assert (handler_in l s (of_field handle) q = [RespondResponse a]) as Hops by (unfold handler_in, of_field; by rewrite Ha).
  rewrite Hops in Hex. cbn [answer_of] in Hex, Hlen. rewrite (answer_initialized _ _ Hcode), (answer_code _ _ Hcode) in Hex, Hlen.
  destruct (parse_answer (response_body a) code (sent_headers a) (response_content_type a) (mkRedirectHelper (mkDefaultHelper no_headers []) [])
    (answer_sendable _ _ Hcode Hrange) Hbody) as (m & Hm & Hrec); [exact no_headers_wf|done|].
  destruct (HTTP_ok scaled net fuel r cl u p Hp Hu Hn m code _ _ (Hex m Hm Hlen) Hrec Hrange H3xx) as (hs' & E' & _). by exists hs'.
Qed.

Lemma step_code since op view times : final_code (resource_step (C := C) (M := M) InitializeOwnKey since op view times).1.
Proof.
  unfold resource_step, final_code, OK, BadRequest, NotFound, MethodNotAllowed, Created, Conflict, PreconditionFailed.
  repeat case_match; simpl; lia.
Qed.
End OverHttp.
End RestOverHttp.
