(* ===== verification/FnCasArith.v ===== *)
(** * Numbers, operations and functions: fncas/fncas/base.h and the head of node.h

    [Arithmetic] is [double_t] with what the library uses of it: the four
    operations, the comparisons and the functions of the C library.  Two
    instances are given: exact arithmetic on the real numbers, in which the
    derivative of a function makes sense, and the arithmetic of 64-bit floating
    point words, whose functions are those of a C library that is a parameter. *)

From Stdlib Require Import ZArith Lia Reals Lra.
From Stdlib Require Import SpecFloat.
From stdpp Require Import base list.
From S2P Require Import Prelude.
Open Scope Z_scope.

Module FnCas.

(** ** The enumerations *)

Inductive MathOperation := add | subtract | multiply | divide.

Inductive MathFunction := sqr | sqrt | exp | log | sin | cos | tan | asin | acos | atan | unit_step | ramp.

Global Instance MathOperation_eq_dec : EqDecision MathOperation.
Proof. solve_decision. Defined.
Global Instance MathFunction_eq_dec : EqDecision MathFunction.
Proof. solve_decision. Defined.

(** [static_cast<uint8_t>(function)]. *)
Definition function_index (f : MathFunction) : Z :=
  match f with
  | sqr => 0 | sqrt => 1 | exp => 2 | log => 3 | sin => 4 | cos => 5
  | tan => 6 | asin => 7 | acos => 8 | atan => 9 | unit_step => 10 | ramp => 11
  end.

(** [FNCAS_FUNCTION(f)], in the order of fncas_functions.dsl.h. *)
Definition functions : list MathFunction :=
  [sqr; sqrt; exp; log; sin; cos; tan; asin; acos; atan; unit_step; ramp].

Lemma functions_index f : functions !! Z.to_nat (function_index f) = Some f.
Proof. by destruct f. Qed.

(** ** Arithmetic *)

(** The functions of the C library. *)
Inductive LibmFunction := Sqrt | Exp | Log | Sin | Cos | Tan | Asin | Acos | Atan.

Class Arithmetic (D : Type) := {
  num_add : D → D → D;
  num_sub : D → D → D;
  num_mul : D → D → D;
  num_div : D → D → D;
  (** [==], [<] and [<=] *)
  num_eqb : D → D → bool;
  num_ltb : D → D → bool;
  num_leb : D → D → bool;
  num_libm : LibmFunction → D → D;
  (** the literal [m * 2^e], exactly *)
  num_literal : Z → Z → D;
}.

Section Evaluators.
Context {D : Type} `{Arithmetic D}.

Definition num_int (z : Z) : D := num_literal z 0.
Definition num_zero : D := num_int 0.
Definition num_one : D := num_int 1.

Definition f_sqr (x : D) : D := num_mul x x.
Definition f_unit_step (x : D) : D := if num_leb num_zero x then num_one else num_zero.
Definition f_ramp (x : D) : D := if num_ltb num_zero x then x else num_zero.

Definition apply_operation (operation : MathOperation) (lhs rhs : D) : D :=
  match operation with
  | add => num_add lhs rhs
  | subtract => num_sub lhs rhs
  | multiply => num_mul lhs rhs
  | divide => num_div lhs rhs
  end.

Definition apply_function (function : MathFunction) (argument : D) : D :=
  match function with
  | sqr => f_sqr argument
  | sqrt => num_libm Sqrt argument
  | exp => num_libm Exp argument
  | log => num_libm Log argument
  | sin => num_libm Sin argument
  | cos => num_libm Cos argument
  | tan => num_libm Tan argument
  | asin => num_libm Asin argument
  | acos => num_libm Acos argument
  | atan => num_libm Atan argument
  | unit_step => f_unit_step argument
  | ramp => f_ramp argument
  end.
End Evaluators.

(** Equal numbers are the same number.  True of real numbers, and false of
    floating point numbers, whose zeros are equal. *)
Class ExactEquality (D : Type) `{Arithmetic D} := eqb_exact : ∀ x y : D, num_eqb x y = true → x = y.

(** ** Exact arithmetic *)

Module Exact.
Import Reals.

Definition libm (f : LibmFunction) : R → R :=
  match f with
  | Sqrt => R_sqrt.sqrt
  | Exp => Rtrigo_def.exp
  | Log => ln
  | Sin => Rtrigo_def.sin
  | Cos => Rtrigo_def.cos
  | Tan => Rtrigo1.tan
  | Asin => Ratan.asin
  | Acos => Ratan.acos
  | Atan => Ratan.atan
  end.

Definition literal (m e : Z) : R := (IZR m * powerRZ 2 e)%R.

Definition Reqb (x y : R) : bool := if Req_EM_T x y then true else false.
Definition Rltb (x y : R) : bool := if Rlt_dec x y then true else false.
Definition Rleb (x y : R) : bool := if Rle_dec x y then true else false.
End Exact.

Global Instance exact_arithmetic : Arithmetic R := {
  num_add := Rplus;
  num_sub := Rminus;
  num_mul := Rmult;
  num_div := Rdiv;
  num_eqb := Exact.Reqb;
  num_ltb := Exact.Rltb;
  num_leb := Exact.Rleb;
  num_libm := Exact.libm;
  num_literal := Exact.literal;
}.

Global Instance exact_equality : ExactEquality R.
Proof. intros x y. cbn. unfold Exact.Reqb. by destruct (Req_EM_T x y). Qed.

Lemma exact_int (z : Z) : num_int (D := R) z = IZR z.
Proof. unfold num_int. cbn. unfold Exact.literal. cbn. lra. Qed.

(** ** 64-bit floating point words *)

Module Binary64.

(** The words of 64 bits. *)
Record word := mkWord { bits : Z; word_ok : bool_decide (0 ≤ bits < 2 ^ 64) = true }.

Lemma word_eq (x y : word) : bits x = bits y → x = y.
Proof. destruct x as [a Ha], y as [b Hb]. cbn. intros ->. f_equal. apply (Eqdep_dec.UIP_dec Bool.bool_dec). Qed.

Lemma bits_range (x : word) : 0 ≤ bits x < 2 ^ 64.
Proof. exact (bool_decide_eq_true_1 _ (word_ok x)). Qed.

Lemma mod_ok z : bool_decide (0 ≤ z mod 2 ^ 64 < 2 ^ 64) = true.
Proof. apply bool_decide_eq_true. apply Z.mod_pos_bound. lia. Qed.
Definition of_bits (z : Z) : word := mkWord (z mod 2 ^ 64) (mod_ok z).

Lemma of_bits_bits (x : word) : of_bits (bits x) = x.
Proof. apply word_eq. cbn [bits of_bits]. apply Z.mod_small, bits_range. Qed.

Lemma bits_of_bits z : 0 ≤ z < 2 ^ 64 → bits (of_bits z) = z.
Proof. apply Z.mod_small. Qed.

(** The number that a word stands for: a sign, 11 bits of exponent and 52 of
    mantissa. *)
Definition decode (x : word) : spec_float :=
  let s := Z.testbit (bits x) 63 in
  let e := Z.land (Z.shiftr (bits x) 52) 2047 in
  let m := Z.land (bits x) (2 ^ 52 - 1) in
  if e =? 2047 then (if m =? 0 then S754_infinity s else S754_nan)
  else if e =? 0 then
    match m with Zpos p => S754_finite s p (-1074) | _ => S754_zero s end
  else
    match m + 2 ^ 52 with Zpos p => S754_finite s p (e - 1075) | _ => S754_nan end.

Definition sign_bit (s : bool) : Z := if s then 2 ^ 63 else 0.

Definition encode (f : spec_float) : word :=
  of_bits match f with
  | S754_zero s => sign_bit s
  | S754_infinity s => sign_bit s + Z.shiftl 2047 52
  | S754_nan => Z.shiftl 4095 51
  | S754_finite s m e =>
      if Zpos m <? 2 ^ 52 then sign_bit s + Zpos m else sign_bit s + Z.shiftl (e + 1075) 52 + (Zpos m - 2 ^ 52)
  end.

Definition binary (f : spec_float → spec_float → spec_float) (x y : word) : word := encode (f (decode x) (decode y)).

Section Words.
(** The functions of the C library, on words. *)
Context (libm : LibmFunction → word → word).

Definition arithmetic : Arithmetic word := {|
  num_add := binary (SFadd 53 1024);
  num_sub := binary (SFsub 53 1024);
  num_mul := binary (SFmul 53 1024);
  num_div := binary (SFdiv 53 1024);
  num_eqb x y := SFeqb (decode x) (decode y);
  num_ltb x y := SFltb (decode x) (decode y);
  num_leb x y := SFleb (decode x) (decode y);
  num_libm := libm;
  num_literal m e := encode (binary_normalize 53 1024 m e false);
|}.
End Words.
End Binary64.

End FnCas.
