(* ===== verification/FnCasNode.v ===== *)
(** * Expressions: fncas/fncas/node.h

    A recorded expression is a vector of nodes; a [V] is an index of it.  The
    vector, the cache of values and the cache of derivatives are in a thread-local
    singleton, the record [internals_impl].  [eval_node] walks the nodes with a
    stack of its own; [denote] is the value it is shown to compute, the plain
    recursive one, and [visit] the order in which the nodes are first computed,
    which the compiler of FnCasJit.v follows as well. *)

From Stdlib Require Import ZArith Lia.
From stdpp Require Import base list sets.
From S2P Require Import Prelude State FnCasArith.
Open Scope Z_scope.

Import FnCas.

Module FnCasNode.

Inductive fncas_exception :=
| FnCASConcurrentEvaluationAttemptException
| FnCASZeroOrOneIsNonDifferentiable
(** a failed assertion, or an access out of range *)
| Fault (e : fault)
(** the bound on the rounds of a loop was reached *)
| OutOfFuel.

(** ** The state *)

Section Node.
Context {D : Type} `{Arithmetic D}.

Inductive node_impl :=
| variable_node (variable : Z)
| value_node (value : D)
| operation_node (operation : MathOperation) (lhs_index rhs_index : Z)
| function_node (function : MathFunction) (argument_index : Z).

Record internals_impl := mkInternals {
  dim_ : Z;
  (** the address of the [X] that is being recorded *)
  x_ptr_ : option Z;
  node_vector_ : list node_impl;
  node_value_ : list D;
  node_computed_ : list bool;
  df_ : list (list Z);
  heap_for_compiled_evaluations_ : list D;
  allocated_values_map_ : list (D * Z);
}.
Implicit Type s : internals_impl.

Definition set_nodes (nodes : list node_impl) s : internals_impl :=
  mkInternals (dim_ s) (x_ptr_ s) nodes (node_value_ s) (node_computed_ s) (df_ s)
    (heap_for_compiled_evaluations_ s) (allocated_values_map_ s).
Definition set_cache (values : list D) (computed : list bool) s : internals_impl :=
  mkInternals (dim_ s) (x_ptr_ s) (node_vector_ s) values computed (df_ s)
    (heap_for_compiled_evaluations_ s) (allocated_values_map_ s).
Definition set_df (df : list (list Z)) s : internals_impl :=
  mkInternals (dim_ s) (x_ptr_ s) (node_vector_ s) (node_value_ s) (node_computed_ s) df
    (heap_for_compiled_evaluations_ s) (allocated_values_map_ s).
Definition set_map (m : list (D * Z)) s : internals_impl :=
  mkInternals (dim_ s) (x_ptr_ s) (node_vector_ s) (node_value_ s) (node_computed_ s) (df_ s)
    (heap_for_compiled_evaluations_ s) m.
Definition set_x (dim : Z) (x_ptr : option Z) s : internals_impl :=
  mkInternals dim x_ptr (node_vector_ s) (node_value_ s) (node_computed_ s) (df_ s)
    (heap_for_compiled_evaluations_ s) (allocated_values_map_ s).

(** [reset()]: the two vectors of the cache of values are not among the cleared. *)
Definition reset s : internals_impl :=
  mkInternals 0 None [] (node_value_ s) (node_computed_ s) [] [] [].

Abbreviation recording := (io internals_impl fncas_exception).

Definition node_at (i : Z) : recording node_impl := λ s,
  match (if 0 <=? i then node_vector_ s !! Z.to_nat i else None) with
  | Some n => (Ok n, s)
  | None => (Throw (Fault DanglingDereference), s)
  end.

Definition assert (b : bool) : recording () := io_lift Fault (CURRENT_ASSERT b).

(** ** Vectors that grow: [growing_vector_access] *)

Definition grow {A} (vector : list A) (index : Z) (fill : A) : list A :=
  if Z.of_nat (length vector) <=? index
  then vector ++ replicate (Z.to_nat (index + 1 - Z.of_nat (length vector))) fill
  else vector.

(** [growing_vector_access(vector, index, fill) = value]. *)
Definition grow_set {A} (vector : list A) (index : Z) (fill value : A) : list A :=
  <[Z.to_nat index := value]> (grow vector index fill).

(** The value of [growing_vector_access(vector, index, fill)]; the vector has been
    grown by then. *)
Definition grown {A} (vector : list A) (index : Z) (fill : A) : A := default fill (vector !! Z.to_nat index).

(** ** Evaluation *)

Inductive reuse_cache := invalidate | reuse.

Record evaluation := mkEvaluation { stack : list Z; values_ : list D; computed_ : list bool }.

Definition set_value (i : Z) (v : D) (e : evaluation) : evaluation :=
  mkEvaluation (stack e) (grow_set (values_ e) i num_zero v) (grow_set (computed_ e) i false true).

Definition value_at (i : Z) (e : evaluation) : outcome fncas_exception D :=
  match values_ e !! Z.to_nat i with Some v => Ok v | None => Throw (Fault DanglingDereference) end.

(** The first visit of node [i], which is not computed. *)
Definition eval_enter (x : list D) (i : Z) (f : node_impl) (e : evaluation) : outcome fncas_exception evaluation :=
  match f with
  | variable_node v =>
      if (0 <=? v) && (v <? Z.of_nat (length x)) then
        match x !! Z.to_nat v with
        | Some x_v => Ok (set_value i x_v e)
        | None => Throw (Fault DanglingDereference)
        end
      else Throw (Fault AssertionFailed)
  | value_node value => Ok (set_value i value e)
  | operation_node _ lhs rhs => Ok (mkEvaluation (rhs :: lhs :: Z.lnot i :: stack e) (values_ e) (computed_ e))
  | function_node _ argument => Ok (mkEvaluation (argument :: Z.lnot i :: stack e) (values_ e) (computed_ e))
  end.

(** The second visit of a node, after those it depends on. *)
Definition eval_leave (i : Z) (f : node_impl) (e : evaluation) : outcome fncas_exception evaluation :=
  match f with
  | operation_node operation lhs rhs =>
      l ← value_at lhs e;
      r ← value_at rhs e;
      Ok (set_value i (apply_operation operation l r) e)
  | function_node function argument =>
      a ← value_at argument e;
      Ok (set_value i (apply_function function a) e)
  | _ => Throw (Fault AssertionFailed)
  end.

Definition node_of (nodes : list node_impl) (i : Z) : outcome fncas_exception node_impl :=
  match (if 0 <=? i then nodes !! Z.to_nat i else None) with
  | Some n => Ok n
  | None => Throw (Fault DanglingDereference)
  end.

(** One round of the loop, with [i] popped from the stack. *)
Definition eval_round (nodes : list node_impl) (x : list D) (i : Z) (e : evaluation) : outcome fncas_exception evaluation :=
  let dependent_i := Z.lnot i in
  if dependent_i <? i then
    let B := grow (computed_ e) i false in
    let e := mkEvaluation (stack e) (values_ e) B in
    if grown B i false then Ok e
    else f ← node_of nodes i; eval_enter x i f e
  else f ← node_of nodes dependent_i; eval_leave dependent_i f e.

Fixpoint eval_loop (fuel : nat) (nodes : list node_impl) (x : list D) (e : evaluation) : outcome fncas_exception evaluation :=
  match stack e with
  | [] => Ok e
  | i :: stack =>
      match fuel with
      | O => Throw OutOfFuel
      | S fuel => e ← eval_round nodes x i (mkEvaluation stack (values_ e) (computed_ e)); eval_loop fuel nodes x e
      end
  end.

(** Every node is computed once, which takes it at most three rounds. *)
Definition eval_fuel (nodes : list node_impl) : nat := 1 + 3 * length nodes.

Definition eval_node (index : Z) (x : list D) (r : reuse_cache) s : outcome fncas_exception (D * internals_impl) :=
  let B := match r with invalidate => [] | reuse => node_computed_ s end in
  e ← eval_loop (eval_fuel (node_vector_ s)) (node_vector_ s) x (mkEvaluation [index] (node_value_ s) B);
  match computed_ e !! Z.to_nat index with
  | Some true => v ← value_at index e; Ok (v, set_cache (values_ e) (computed_ e) s)
  | _ => Throw (Fault AssertionFailed)
  end.

(** ** Recording: [node_index_allocator], [GenericV] and the operators *)

Definition allocate_new : recording Z := λ s,
  (Ok (Z.of_nat (length (node_vector_ s))), set_nodes (node_vector_ s ++ [variable_node 0]) s).

Definition allocate_for_double (value : D) : recording Z := λ s,
  match list_find (λ kv : D * Z, num_eqb kv.1 value = true) (allocated_values_map_ s) with
  | Some (_, (_, index)) => (Ok index, s)
  | None =>
      let index := Z.of_nat (length (node_vector_ s)) in
      (Ok index, set_nodes (node_vector_ s ++ [variable_node 0]) (set_map (allocated_values_map_ s ++ [(value, index)]) s))
  end.

(** [type()], [value()], ... of a node, assigned. *)
Definition assign (i : Z) (n : node_impl) : recording () := λ s,
  (Ok (), set_nodes (<[Z.to_nat i := n]> (node_vector_ s)) s).

Definition V_double (x : D) : recording Z := index ← allocate_for_double x; _ ← assign index (value_node x); mret index.

Definition create_variable_node (index : Z) : recording Z :=
  result ← allocate_new; _ ← assign result (variable_node index); mret result.

Definition V_operation (operation : MathOperation) (lhs rhs : Z) : recording Z :=
  result ← allocate_new; _ ← assign result (operation_node operation lhs rhs); mret result.

Definition V_function (function : MathFunction) (argument : Z) : recording Z :=
  result ← allocate_new; _ ← assign result (function_node function argument); mret result.

(** [operator-(x)] is [0.0 - x]. *)
Definition V_negate (x : Z) : recording Z := zero ← V_double num_zero; V_operation subtract zero x.

Definition is_value (i : Z) : recording bool :=
  n ← node_at i; mret (match n with value_node _ => true | _ => false end).

Definition value (i : Z) : recording D :=
  n ← node_at i; match n with value_node x => mret x | _ => throw (Fault AssertionFailed) end.

Definition equals_to (i : Z) (expected_value : D) : recording bool :=
  b ← is_value i; if b : bool then v ← value i; mret (num_eqb v expected_value) else mret false.

(** ** The variables: [X] *)

(** [resize(n)] of an empty [std::vector<V>] makes [n] nodes. *)
Fixpoint resize_V (n : nat) : recording (list Z) :=
  match n with O => mret [] | S n => v ← allocate_new; vs ← resize_V n; mret (v :: vs) end.

Fixpoint create_variables (i : Z) (n : nat) : recording (list Z) :=
  match n with O => mret [] | S n => v ← create_variable_node i; vs ← create_variables (i + 1) n; mret (v :: vs) end.

(** The constructor of [X], at address [this]: its variables. *)
Definition X_new (this dim : Z) : recording (list Z) := λ s,
  (_ ← assert (0 <? dim);
   if bool_decide (is_Some (x_ptr_ s)) then throw FnCASConcurrentEvaluationAttemptException
   else
     _ ← assert (dim_ s =? 0);
     _ ← (λ s, (Ok (), set_x dim (Some this) (reset s)));
     _ ← resize_V (Z.to_nat dim);
     create_variables 0 (Z.to_nat dim)) s.

Definition X_delete (this : Z) s : internals_impl :=
  if bool_decide (x_ptr_ s = Some this) then set_x 0 None s else s.

(** [f_impl<JIT::Blueprint>::operator()]. *)
Definition f_blueprint (f : Z) (x : list D) s : outcome fncas_exception (D * internals_impl) :=
  if Z.of_nat (length x) =? dim_ s then eval_node f x invalidate s else Throw (Fault AssertionFailed).

(** ** What a node stands for *)

Definition entry_at {A} (fill : A) (vs : list A) (i : Z) : A := default fill (vs !! Z.to_nat i).
Abbreviation at_index := (entry_at num_zero).

Definition value_of (vs x : list D) (n : node_impl) : D :=
  match n with
  | variable_node v => at_index x v
  | value_node value => value
  | operation_node operation lhs rhs => apply_operation operation (at_index vs lhs) (at_index vs rhs)
  | function_node function argument => apply_function function (at_index vs argument)
  end.

(** What a function of the nodes before gives for each node. *)
Definition table {A} (f : list A → node_impl → A) (nodes : list node_impl) : list A :=
  foldl (λ vs n, vs ++ [f vs n]) [] nodes.

Definition values (nodes : list node_impl) (x : list D) : list D := table (λ vs, value_of vs x) nodes.

Definition denote (nodes : list node_impl) (x : list D) (i : Z) : D := at_index (values nodes x) i.
End Node.
End FnCasNode.

Import FnCasNode.

(** ** Evaluation is the plain recursive one

    [graph_ok] is what recording keeps true of the vector of nodes.  [visit] is
    the order in which a walk that skips what it has computed computes nodes; it
    is a topological order ([visit_topo]), and the loop of [eval_node] computes
    just these nodes, in it, within its fuel ([eval_visit]). *)

(** ** Vectors that grow *)

Section Grow.
Context {A : Type}.
Implicit Types (l : list A) (i j : Z) (x fill : A).

Lemma grow_lookup l i j fill x : 0 ≤ i → l !! Z.to_nat j = Some x → grow l i fill !! Z.to_nat j = Some x.
Proof. intros Hi Hx. unfold grow. case_match; [by apply lookup_app_l_Some|done]. Qed.

Lemma grow_length l i fill : 0 ≤ i → (Z.to_nat i < length (grow l i fill))%nat.
Proof. intros Hi. unfold grow. destruct (Z.leb_spec (Z.of_nat (length l)) i); [rewrite length_app, length_replicate|]; lia. Qed.

Lemma grow_lookup_inv l i j fill x :
  grow l i fill !! Z.to_nat j = Some x → l !! Z.to_nat j = Some x ∨ (l !! Z.to_nat j = None ∧ x = fill).
Proof.
  unfold grow. case_match; [|by left]. intros [Hx|[Hlen Hx]]%lookup_app_Some; [by left|right].
  apply lookup_replicate in Hx as [-> _]. split; [by apply lookup_ge_None|done].
Qed.

Lemma grow_set_lookup l i j fill x : 0 ≤ i → 0 ≤ j →
  grow_set l i fill x !! Z.to_nat j = if bool_decide (i = j) then Some x else grow l i fill !! Z.to_nat j.
Proof.
  intros Hi Hj. unfold grow_set. case_bool_decide; subst.
  - apply list_lookup_insert_eq, grow_length; lia.
  - apply list_lookup_insert_ne. lia.
Qed.

Lemma grown_Some l i fill x : l !! Z.to_nat i = Some x → grown l i fill = x.
Proof. unfold grown. by intros ->. Qed.
End Grow.

(** ** Graphs *)

Section Eval.
Context {D : Type} `{Arithmetic D}.
Implicit Types (nodes : list (@node_impl D)) (n : @node_impl D) (x vs : list D) (done sched : list Z).

Definition children n : list Z :=
  match n with
  | operation_node _ lhs rhs => [lhs; rhs]
  | function_node _ argument => [argument]
  | _ => []
  end.

(** The node at index [i] depends on nodes before it, and not on those that a
    vector of [dim] variables made before its variables. *)
Definition node_ok (dim i : Z) n : Prop :=
  (∀ c, c ∈ children n → dim ≤ c < i) ∧ (∀ v, n = variable_node v → 0 ≤ v < dim).

Record graph_ok (dim : Z) nodes : Prop := {
  graph_dim : 0 < dim;
  graph_nodes i n : nodes !! i = Some n → node_ok dim (Z.of_nat i) n;
}.

Definition valid nodes (i : Z) : Prop := 0 ≤ i < Z.of_nat (length nodes).

Lemma node_of_ok nodes i : valid nodes i → ∃ n, nodes !! Z.to_nat i = Some n ∧ node_of nodes i = Ok n.
Proof.
  intros [H0 Hi]. destruct (lookup_lt_is_Some_2 nodes (Z.to_nat i)) as [n Hn]; [lia|].
  exists n. split; [done|]. unfold node_of. by rewrite (proj2 (Z.leb_le _ _) H0), Hn.
Qed.

Lemma valid_child dim nodes i n c : graph_ok dim nodes → valid nodes i → nodes !! Z.to_nat i = Some n → c ∈ children n →
  valid nodes c ∧ dim ≤ c < i.
Proof.
  intros [Hd Hg] [H0 Hi] Hn Hc. apply Hg in Hn as [Hcs _]. specialize (Hcs c Hc). unfold valid. lia.
Qed.

(** ** Tables *)

Section Table.
Context {A : Type} (fill : A) (f : list A → @node_impl D → A).

Lemma table_snoc nodes n : table f (nodes ++ [n]) = table f nodes ++ [f (table f nodes) n].
Proof. unfold table. by rewrite foldl_app. Qed.

Lemma table_length nodes : length (table f nodes) = length nodes.
Proof. induction nodes as [|n nodes IH] using rev_ind; [done|]. rewrite table_snoc, !length_app, IH. done. Qed.

Lemma table_prefix nodes nodes' : table f nodes `prefix_of` table f (nodes ++ nodes').
Proof.
  induction nodes' as [|n nodes' IH] using rev_ind; [by rewrite app_nil_r|].
  rewrite app_assoc, table_snoc. by apply prefix_app_r.
Qed.

(** An entry does not depend on the nodes recorded after it. *)
Lemma table_app nodes nodes' i : valid nodes i → entry_at fill (table f (nodes ++ nodes')) i = entry_at fill (table f nodes) i.
Proof.
  intros [H0 Hi]. unfold entry_at. destruct (table_prefix nodes nodes') as [vs ->].
  rewrite lookup_app_l; [done|]. rewrite table_length. lia.
Qed.

Lemma table_last nodes n : entry_at fill (table f (nodes ++ [n])) (Z.of_nat (length nodes)) = f (table f nodes) n.
Proof.
  unfold entry_at. rewrite table_snoc, lookup_app_r; rewrite table_length, Nat2Z.id; [|lia]. by rewrite Nat.sub_diag.
Qed.

(** The function looks at the entries of the nodes that a node depends on. *)
Definition local : Prop := ∀ (vs vs' : list A) n, (∀ c, c ∈ children n → 0 ≤ c < Z.of_nat (length vs)) → f (vs ++ vs') n = f vs n.

Lemma table_node dim nodes i n : local → graph_ok dim nodes → valid nodes i → nodes !! Z.to_nat i = Some n →
  entry_at fill (table f nodes) i = f (table f nodes) n.
Proof.
  intros Hl Hg Hi Hn. pose proof (take_drop_middle _ _ _ Hn) as Heq.
  assert (length (take (Z.to_nat i) nodes) = Z.to_nat i) as Hlen by (apply length_take_le; unfold valid in Hi; lia).
  set (before := take (Z.to_nat i) nodes) in *. set (after := drop (S (Z.to_nat i)) nodes) in *.
  replace (before ++ n :: after) with ((before ++ [n]) ++ after) in Heq by by rewrite <- app_assoc.
  assert (∀ c, c ∈ children n → 0 ≤ c < Z.of_nat (length (table f before))) as Hc.
  { intros c Hc. destruct (valid_child _ _ _ _ _ Hg Hi Hn Hc) as [[] ?]. rewrite table_length. lia. }
  rewrite <- Heq at 1. rewrite table_app by (unfold valid in *; rewrite length_app; cbn; lia).
  replace i with (Z.of_nat (length before)) by (unfold valid in Hi; lia). rewrite table_last, <- Heq.
  destruct (table_prefix (before ++ [n]) after) as [vs ->]. rewrite table_snoc, <- app_assoc. by rewrite Hl.
Qed.
End Table.

Lemma entry_at_app {A} (fill : A) (vs vs' : list A) c : 0 ≤ c < Z.of_nat (length vs) → entry_at fill (vs ++ vs') c = entry_at fill vs c.
Proof. intros ?. unfold entry_at. by rewrite lookup_app_l by lia. Qed.

(** ** Values *)

Lemma values_length nodes x : length (values nodes x) = length nodes.
Proof. apply table_length. Qed.

(** The value of a node does not depend on the nodes recorded after it. *)
Lemma denote_app nodes nodes' x i : valid nodes i → denote (nodes ++ nodes') x i = denote nodes x i.
Proof. apply (table_app _ (λ vs, value_of vs x)). Qed.

Lemma denote_snoc nodes n x : denote (nodes ++ [n]) x (Z.of_nat (length nodes)) = value_of (values nodes x) x n.
Proof. apply (table_last _ (λ vs, value_of vs x)). Qed.

Lemma value_of_local x : local (λ vs, value_of vs x).
Proof.
  intros vs vs' n Hc. destruct n; cbn in *; rewrite ?entry_at_app by (apply Hc; set_solver); done.
Qed.

(** The equation of a node. *)
Lemma denote_node dim nodes x i n : graph_ok dim nodes → valid nodes i → nodes !! Z.to_nat i = Some n →
  denote nodes x i = value_of (values nodes x) x n.
Proof. apply (table_node _ (λ vs, value_of vs x)), value_of_local. Qed.

(** ** The order of computation *)

(** The nodes that are computed to compute node [i] when those of [done] have been. *)
Fixpoint visit (fuel : nat) nodes done (i : Z) : list Z :=
  match fuel with
  | O => []
  | S fuel =>
      if bool_decide (i ∈ done) then []
      else
        match nodes !! Z.to_nat i with
        | Some (operation_node _ lhs rhs) =>
            let r := visit fuel nodes done rhs in
            let l := visit fuel nodes (done ++ r) lhs in
            r ++ l ++ [i]
        | Some (function_node _ argument) => visit fuel nodes done argument ++ [i]
        | _ => [i]
        end
  end.

Definition schedule nodes done (i : Z) : list Z := visit (S (Z.to_nat i)) nodes done i.

(** Nodes come after those they depend on, and once. *)
Inductive topo nodes : list Z → list Z → Prop :=
| topo_nil done : topo nodes done []
| topo_cons done i n sched :
    i ∉ done → valid nodes i → nodes !! Z.to_nat i = Some n → (∀ c, c ∈ children n → c ∈ done) →
    topo nodes (done ++ [i]) sched → topo nodes done (i :: sched).

Lemma topo_app nodes done s1 s2 : topo nodes done s1 → topo nodes (done ++ s1) s2 → topo nodes done (s1 ++ s2).
Proof.
  induction 1 as [|done i n s1 ???? _ IH]; cbn; [by rewrite app_nil_r|].
  intros Hs. econstructor; try done. apply IH. by rewrite <- app_assoc.
Qed.

Lemma topo_one nodes done i n : i ∉ done → valid nodes i → nodes !! Z.to_nat i = Some n → (∀ c, c ∈ children n → c ∈ done) →
  topo nodes done [i].
Proof. intros. econstructor; try done. constructor. Qed.

Lemma visit_topo dim nodes fuel done i : graph_ok dim nodes → valid nodes i → (Z.to_nat i < fuel)%nat →
  topo nodes done (visit fuel nodes done i) ∧ i ∈ done ++ visit fuel nodes done i ∧ Forall (λ j, j ≤ i) (visit fuel nodes done i).
Proof.
  intros Hg. revert done i. induction fuel as [|fuel IH]; intros done i Hi Hf; [lia|]. cbn [visit].
  case_bool_decide as Hin; [rewrite app_nil_r; split_and!; [constructor|done|constructor]|].
  destruct (node_of_ok nodes i Hi) as (n & Hn & _). rewrite Hn.
  pose proof (λ c, valid_child dim nodes i n c Hg Hi Hn) as Hc. pose proof (graph_dim _ _ Hg) as Hd.
  destruct n as [v|v|op l r|f a]; cbn [children] in Hc.
  1,2: split_and!; [eapply topo_one; [done..|]; intros c Hc'; cbn in Hc'; set_solver|set_solver|repeat constructor; lia].
  - destruct (Hc r) as [Hvr Hr]; [set_solver|]. destruct (Hc l) as [Hvl Hl]; [set_solver|]. destruct Hi as [H0 Hi].
    destruct (IH done r Hvr) as (T1 & I1 & F1); [lia|].
    destruct (IH (done ++ visit fuel nodes done r) l Hvl) as (T2 & I2 & F2); [lia|].
    split_and!; [|set_solver|].
    + eapply topo_app, topo_app; [done|done|]. eapply topo_one; [|done|done|].
      * rewrite <- app_assoc. intros [|[Hx|Hx]%elem_of_app]%elem_of_app; [done|..];
          [eapply Forall_forall in F1; [|exact Hx]|eapply Forall_forall in F2; [|exact Hx]]; cbn in *; lia.
      * cbn. intros c Hcc. rewrite !elem_of_cons in Hcc. destruct Hcc as [->|[->|Hcc]]; [done|set_solver|set_solver].
    + apply Forall_app_2; [eapply Forall_impl; [exact F1|]; simpl; lia|].
      apply Forall_app_2; [eapply Forall_impl; [exact F2|]; simpl; lia|]. repeat constructor. lia.
  - destruct (Hc a) as [Hva Ha]; [set_solver|]. destruct Hi as [H0 Hi].
    destruct (IH done a Hva) as (T1 & I1 & F1); [lia|]. split_and!; [|set_solver|].
    + eapply topo_app; [done|]. eapply topo_one; [|done|done|].
      * intros [|Hx]%elem_of_app; [done|]. eapply Forall_forall in F1; [|exact Hx]. cbn in *. lia.
      * cbn. intros c ->%list_elem_of_singleton. done.
    + apply Forall_app_2; [eapply Forall_impl; [exact F1|]; simpl; lia|]. repeat constructor. lia.
Qed.

Lemma topo_facts nodes done sched : topo nodes done sched →
  NoDup sched ∧ Forall (valid nodes) sched ∧ (∀ i, i ∈ sched → i ∉ done).
Proof.
  induction 1 as [|done i n sched Hi Hv _ _ _ (IH1 & IH2 & IH3)]; [split_and!; [constructor|constructor|set_solver]|].
  split_and!; [constructor; [|done]|by constructor|].
  - intros Hin%IH3. set_solver.
  - intros j [->|Hj]%elem_of_cons; [done|]. apply IH3 in Hj. set_solver.
Qed.

Lemma topo_length nodes done sched : topo nodes done sched → (length sched ≤ length nodes)%nat.
Proof.
  intros (Hnd & Hv & _)%topo_facts.
  assert (sched ⊆ Z.of_nat <$> seq 0 (length nodes)) as Hsub.
  { intros j Hj. eapply Forall_forall in Hv as [H0 Hj']; [|exact Hj]. apply list_elem_of_fmap. exists (Z.to_nat j).
    split; [lia|]. apply elem_of_seq. lia. }
  pose proof (submseteq_length _ _ (NoDup_submseteq _ _ Hnd Hsub)) as Hle. by rewrite length_fmap, length_seq in Hle.
Qed.

(** ** The loop *)

(** The vector of flags has those of [done] set. *)
Definition flags (B : list bool) done : Prop := ∀ i, 0 ≤ i → B !! Z.to_nat i = Some true ↔ i ∈ done.

(** The vector of values has those of [done]. *)
Definition stored nodes x vs done : Prop := ∀ i, i ∈ done → 0 ≤ i ∧ vs !! Z.to_nat i = Some (denote nodes x i).

Lemma flags_grow B i done : 0 ≤ i → flags B done → flags (grow B i false) done.
Proof.
  intros Hi HB j Hj. rewrite <- (HB j Hj). split; [|by apply grow_lookup].
  intros [|[_ ?]]%grow_lookup_inv; done.
Qed.

Lemma flags_set B i done : 0 ≤ i → flags B done → flags (grow_set B i false true) (done ++ [i]).
Proof.
  intros Hi HB j Hj. rewrite grow_set_lookup by done. case_bool_decide; subst; [set_solver|].
  rewrite (flags_grow _ _ _ Hi HB j Hj). set_solver.
Qed.

Lemma stored_set nodes x vs i done : 0 ≤ i → stored nodes x vs done →
  stored nodes x (grow_set vs i num_zero (denote nodes x i)) (done ++ [i]).
Proof.
  intros Hi Hs j Hj. assert (0 ≤ j) as Hj0 by (apply elem_of_app in Hj as [?%Hs| ->%list_elem_of_singleton]; [naive_solver|done]).
  split; [done|]. rewrite grow_set_lookup by done. case_bool_decide; subst; [done|].
  apply grow_lookup; [done|]. apply Hs. set_solver.
Qed.

Lemma grown_flag B i done : 0 ≤ i → flags B done → grown (grow B i false) i false = bool_decide (i ∈ done).
Proof.
  intros Hi HB. pose proof (flags_grow _ i _ Hi HB i Hi) as Hf. unfold grown.
  destruct (grow B i false !! Z.to_nat i) as [[]|] eqn:E; cbn; case_bool_decide; naive_solver.
Qed.

Lemma lnot_lt i : 0 ≤ i → (Z.lnot i <? i) = true.
Proof. unfold Z.lnot. intros. apply Z.ltb_lt. lia. Qed.
Lemma lnot_lnot_lt i : 0 ≤ i → (Z.lnot (Z.lnot i) <? Z.lnot i) = false.
Proof. unfold Z.lnot. intros. apply Z.ltb_ge. lia. Qed.

(** A node on the stack is taken from it, and what it needs is computed. *)
Lemma eval_visit dim nodes x fuel done i vs B :
  graph_ok dim nodes → dim ≤ Z.of_nat (length x) → valid nodes i → (Z.to_nat i < fuel)%nat →
  flags B done → stored nodes x vs done →
  ∃ k vs' B', (k ≤ 1 + 3 * length (visit fuel nodes done i))%nat ∧
    (∀ fuel st, eval_loop (k + fuel) nodes x (mkEvaluation (i :: st) vs B) = eval_loop fuel nodes x (mkEvaluation st vs' B')) ∧
    flags B' (done ++ visit fuel nodes done i) ∧ stored nodes x vs' (done ++ visit fuel nodes done i).
Proof.
  intros Hg Hx. revert done i vs B. induction fuel as [|fuel IH]; intros done i vs B Hi Hf HB Hs; [lia|].
  pose proof Hi as [H0 _]. cbn [visit].
  assert (∀ fuel st, eval_loop (S fuel) nodes x (mkEvaluation (i :: st) vs B) =
    e ← (if bool_decide (i ∈ done) then Ok (mkEvaluation st vs (grow B i false))
         else f ← node_of nodes i; eval_enter x i f (mkEvaluation st vs (grow B i false)));
    eval_loop fuel nodes x e) as Hround.
  { intros f st. cbn [eval_loop stack values_ computed_]. unfold eval_round. rewrite lnot_lt by done.
    cbn [stack values_ computed_]. by rewrite (grown_flag _ _ _ H0 HB). }
  case_bool_decide as Hin.
  { exists 1%nat, vs, (grow B i false). rewrite app_nil_r. split_and!; [cbn; lia| |by apply flags_grow|done].
    intros f st. cbn [Nat.add]. by rewrite Hround. }
  destruct (node_of_ok nodes i Hi) as (n & Hn & En).
  pose proof (λ c, valid_child dim nodes i n c Hg Hi Hn) as Hc. pose proof (graph_dim _ _ Hg) as Hd.
  pose proof (denote_node dim nodes x i n Hg Hi Hn) as Hval.
  pose proof (flags_grow _ i _ H0 HB) as HBg.
  assert (∀ sched vs' B' st, flags B' (done ++ sched) → stored nodes x vs' (done ++ sched) → (∀ c, c ∈ children n → c ∈ done ++ sched) →
    children n ≠ [] → ∀ fuel, eval_loop (S fuel) nodes x (mkEvaluation (Z.lnot i :: st) vs' B') =
      eval_loop fuel nodes x (mkEvaluation st (grow_set vs' i num_zero (denote nodes x i)) (grow_set B' i false true))) as Hleave.
  { intros sched vs' B' st HB' Hs' Hcs Hne f. cbn [eval_loop stack values_ computed_]. unfold eval_round.
    rewrite lnot_lnot_lt by done. rewrite Z.lnot_involutive, En. cbn [mbind outcome_bind]. unfold eval_leave, value_at. cbn [values_].
    rewrite Hval. unfold value_of, entry_at. fold (values nodes x).
    destruct n as [| |op l r|g a]; cbn [children] in *; [done|done|..].
    - destruct (Hs' l) as [_ ->]; [apply Hcs; set_solver|]. destruct (Hs' r) as [_ ->]; [apply Hcs; set_solver|]. done.
    - destruct (Hs' a) as [_ ->]; [apply Hcs; set_solver|]. done. }
  rewrite Hn. destruct n as [v|v|op l r|f a]; cbn [children] in Hc.
  - exists 1%nat, (grow_set vs i num_zero (denote nodes x i)), (grow_set (grow B i false) i false true).
    split_and!; [cbn; lia| |by apply flags_set|by apply stored_set]. intros f st. cbn [Nat.add]. rewrite Hround, En.
    cbn [mbind outcome_bind eval_enter]. destruct (graph_nodes _ _ Hg _ _ Hn) as [_ Hv]. destruct (Hv v eq_refl) as [Hv0 Hv1].
    destruct (lookup_lt_is_Some_2 x (Z.to_nat v)) as [xv Exv]; [lia|].
    rewrite (proj2 (Z.leb_le 0 v)), (proj2 (Z.ltb_lt v _)), Exv by lia. cbn [andb mbind outcome_bind]. unfold set_value. cbn [stack values_ computed_].
    rewrite Hval. cbn. unfold entry_at. by rewrite Exv.
  - exists 1%nat, (grow_set vs i num_zero (denote nodes x i)), (grow_set (grow B i false) i false true).
    split_and!; [cbn; lia| |by apply flags_set|by apply stored_set]. intros f st. cbn [Nat.add]. rewrite Hround, En, Hval. done.
  - destruct (Hc r) as [Hvr Hr]; [set_solver|]. destruct (Hc l) as [Hvl Hl]; [set_solver|].
    destruct (IH done r vs (grow B i false) Hvr) as (k1 & vs1 & B1 & K1 & E1 & HB1 & Hs1); [lia|done|done|].
    destruct (IH (done ++ visit fuel nodes done r) l vs1 B1 Hvl) as (k2 & vs2 & B2 & K2 & E2 & HB2 & Hs2); [lia|done|done|].
    destruct (visit_topo dim nodes fuel done r Hg Hvr) as (_ & Ir & _); [lia|].
    destruct (visit_topo dim nodes fuel (done ++ visit fuel nodes done r) l Hg Hvl) as (_ & Il & _); [lia|].
    set (s1 := visit fuel nodes done r) in *. set (s2 := visit fuel nodes (done ++ s1) l) in *. rewrite <- app_assoc in HB2, Hs2, Il.
    eexists (S (k1 + (k2 + 1))), _, _. split_and!; [rewrite !length_app; cbn; lia| | |].
    + intros f st. cbn [Nat.add]. rewrite Hround, En. cbn [mbind outcome_bind eval_enter stack values_ computed_].
      rewrite <- !Nat.add_assoc, E1, E2. cbn [Nat.add]. apply (Hleave (s1 ++ s2)); [done..| |done].
      intros c [->|[->|Hcc]%elem_of_cons]%elem_of_cons; [done|set_solver|set_solver].
    + rewrite (app_assoc s1), app_assoc. by apply flags_set.
    + rewrite (app_assoc s1), app_assoc. by apply stored_set.
  - destruct (Hc a) as [Hva Ha]; [set_solver|].
    destruct (IH done a vs (grow B i false) Hva) as (k1 & vs1 & B1 & K1 & E1 & HB1 & Hs1); [lia|done|done|].
    destruct (visit_topo dim nodes fuel done a Hg Hva) as (_ & Ia & _); [lia|].
    set (s1 := visit fuel nodes done a) in *.
    eexists (S (k1 + 1)), _, _. split_and!; [rewrite !length_app; cbn; lia| | |].
    + intros g st. cbn [Nat.add]. rewrite Hround, En. cbn [mbind outcome_bind eval_enter stack values_ computed_].
      rewrite <- !Nat.add_assoc, E1. cbn [Nat.add]. apply (Hleave s1); [done..| |done].
      intros c ->%list_elem_of_singleton. done.
    + rewrite app_assoc. by apply flags_set.
    + rewrite app_assoc. by apply stored_set.
Qed.

(** ** Evaluating a node *)

(** The cache holds values of the expression at [x] only. *)
Definition cache_ok nodes x (s : @internals_impl D) : Prop :=
  ∃ done, flags (node_computed_ s) done ∧ stored nodes x (node_value_ s) done.

Lemma eval_loop_nil fuel nodes x vs B : eval_loop fuel nodes x (mkEvaluation [] vs B) = Ok (mkEvaluation [] vs B).
Proof. by destruct fuel. Qed.

Lemma eval_loop_more k fuel nodes x e : ∀ r, eval_loop fuel nodes x e = Ok r → eval_loop (k + fuel) nodes x e = Ok r.
Proof.
  revert e. induction fuel as [|fuel IH]; intros e r.
  - destruct e as [[|i st] vs B]; [|done]. rewrite !eval_loop_nil. done.
  - rewrite Nat.add_succ_r. cbn [eval_loop]. destruct (stack e); [done|].
    destruct (eval_round nodes x _ _); cbn; [|done]. apply IH.
Qed.

Lemma eval_node_ok (s : @internals_impl D) x i (r : reuse_cache) :
  graph_ok (dim_ s) (node_vector_ s) → dim_ s ≤ Z.of_nat (length x) → valid (node_vector_ s) i →
  (r = reuse → cache_ok (node_vector_ s) x s) →
  ∃ vs B, eval_node i x r s = Ok (denote (node_vector_ s) x i, set_cache vs B s) ∧
    cache_ok (node_vector_ s) x (set_cache vs B s).
Proof.
  intros Hg Hx Hi Hr.
  assert (∃ done, flags (match r with invalidate => [] | reuse => node_computed_ s end) done ∧
    stored (node_vector_ s) x (node_value_ s) done) as (done & HB & Hs).
  { destruct r; [|by apply Hr]. exists []. split; [|intros j ?; set_solver]. intros j _. rewrite lookup_nil. set_solver. }
  set (nodes := node_vector_ s) in *. pose proof Hi as [H0 _].
  destruct (eval_visit _ nodes x (S (Z.to_nat i)) done i (node_value_ s) _ Hg Hx Hi (Nat.lt_succ_diag_r _) HB Hs) as (k & vs & B & Hk & E & HB' & Hs').
  destruct (visit_topo _ nodes (S (Z.to_nat i)) done i Hg Hi) as (Ht & Hin & _); [lia|].
  apply topo_length in Ht. exists vs, B. unfold eval_node. fold nodes.
  assert (eval_fuel nodes = (eval_fuel nodes - k) + (k + 0))%nat as -> by (unfold eval_fuel; lia).
  erewrite eval_loop_more; [|by rewrite E, eval_loop_nil]. cbn [mbind outcome_bind computed_].
  rewrite (proj2 (HB' i H0) Hin). unfold value_at. cbn [values_]. destruct (Hs' i Hin) as [_ ->]. split; [done|].
  by eexists.
Qed.
End Eval.
