(* ===== verification/FnCasDiff.v ===== *)
(** * Symbolic differentiation: fncas/fncas/differentiate.h

    [differentiate_node] walks an expression with a stack and records the nodes of
    its derivative by one variable, with the simplifications the code makes on the
    way.  [g_new] and [g_call] are the gradient, [g_impl<JIT::Blueprint>], and
    [approximate_gradient] is that of [g_impl<JIT::NativeWrapper>].  Where C++
    leaves the order of the evaluation of arguments open, the model evaluates them
    from left to right; the order changes the indexes of the new nodes only. *)

From Stdlib Require Import ZArith Lia.
From stdpp Require Import base list.
From S2P Require Import Prelude State FnCasArith FnCasNode.
Open Scope Z_scope.

Import FnCas FnCasNode.

Module FnCasDiff.

Section Differentiate.
Context {D : Type} `{Arithmetic D}.
Local Abbreviation recording := (io (@internals_impl D) fncas_exception).

(** ** Approximation *)

Section Approximate.
Context (f : list D → D) (EPS : D).

Definition approximate_derivative (x : list D) (i : nat) : D :=
  let x1 := alter (λ v, num_sub v EPS) i x in
  let x2 := alter (λ v, num_add v EPS) i x in
  num_div (num_sub (f x2) (f x1)) (num_add EPS EPS).

(** The body of the loop, for coordinate [i]: what it appends and the vector it
    leaves. *)
Definition approximate_round (i : nat) (xx : list D) : D * list D :=
  match xx !! i with
  | None => (num_zero, xx)
  | Some v0 =>
      let xx := <[i := num_sub v0 EPS]> xx in
      let f1 := f xx in
      let xx := <[i := num_add v0 EPS]> xx in
      let f2 := f xx in
      let xx := <[i := v0]> xx in
      (num_div (num_sub f2 f1) (num_add EPS EPS), xx)
  end.

Fixpoint approximate_loop (i n : nat) (xx : list D) : list D :=
  match n with
  | O => []
  | S n => let '(g, xx) := approximate_round i xx in g :: approximate_loop (S i) n xx
  end.

Definition approximate_gradient (x : list D) : list D := approximate_loop 0 (length x) x.
End Approximate.

(** ** Conditions *)

Definition branch {A} (c : recording bool) (yes no : recording A) : recording A := b ← c; if b : bool then yes else no.
Definition both (c1 c2 : recording bool) : recording bool := branch c1 c2 (mret false).
Definition either (c1 c2 : recording bool) : recording bool := branch c1 (mret true) c2.

(** ** The rules *)

Definition d_add (da db : Z) : recording Z :=
  branch (both (is_value da) (is_value db)) (x ← value da; y ← value db; V_double (num_add x y))
  (branch (equals_to db num_zero) (mret da)
  (branch (equals_to da num_zero) (mret db)
  (V_operation add da db))).

Definition d_sub (da db : Z) : recording Z :=
  branch (both (is_value da) (is_value db)) (x ← value da; y ← value db; V_double (num_sub x y))
  (branch (equals_to db num_zero) (mret da)
  (branch (equals_to da num_zero) (V_negate db)
  (V_operation subtract da db))).

Definition simplified_mul (x y : Z) : recording Z :=
  branch (either (equals_to x num_zero) (equals_to y num_zero)) (V_double num_zero)
  (branch (both (is_value x) (is_value y)) (a ← value x; b ← value y; V_double (num_mul a b))
  (branch (equals_to y num_one) (mret x)
  (branch (equals_to x num_one) (mret y)
  (V_operation multiply x y)))).

Definition d_mul (a b da db : Z) : recording Z :=
  lhs_zero ← either (equals_to a num_zero) (equals_to db num_zero);
  rhs_zero ← either (equals_to b num_zero) (equals_to da num_zero);
  if lhs_zero && rhs_zero then V_double num_zero
  else if lhs_zero : bool then simplified_mul b da
  else if rhs_zero : bool then simplified_mul a db
  else l ← simplified_mul a db; r ← simplified_mul b da; V_operation add l r.

Definition d_div (a b da db : Z) : recording Z :=
  l ← simplified_mul b da;
  r ← simplified_mul a db;
  numerator ← V_operation subtract l r;
  denominator ← V_operation multiply b b;
  V_operation divide numerator denominator.

Definition d_op (operation : MathOperation) (a b da db : Z) : recording Z :=
  match operation with
  | add => d_add da db
  | subtract => d_sub da db
  | multiply => d_mul a b da db
  | divide => d_div a b da db
  end.

(** [sqrt(V(1.0) - x * x)]. *)
Definition sqrt_1_minus_sqr (x : Z) : recording Z :=
  one ← V_double num_one;
  xx ← V_operation multiply x x;
  difference ← V_operation subtract one xx;
  V_function sqrt difference.

(** [x * x + V(1.0)]. *)
Definition sqr_plus_1 (x : Z) : recording Z :=
  xx ← V_operation multiply x x; one ← V_double num_one; V_operation add xx one.

Definition d_f (function : MathFunction) (original x dx : Z) : recording Z :=
  match function with
  | sqr => two ← V_double (num_int 2); xdx ← simplified_mul x dx; simplified_mul two xdx
  | sqrt =>
      branch (is_value original)
        (o ← value original; k ← V_double (num_div (num_literal 1 (-1)) o); simplified_mul k dx)
        (sum ← V_operation add original original; V_operation divide dx sum)
  | exp => simplified_mul original dx
  | log =>
      branch (is_value x)
        (one ← V_double num_one; v ← value x; k ← V_double v; q ← V_operation divide one k; simplified_mul q dx)
        (V_operation divide dx x)
  | sin => c ← V_function cos x; simplified_mul dx c
  | cos =>
      minus_one ← V_double (num_int (-1)); s ← V_function sin x; dxs ← simplified_mul dx s; simplified_mul minus_one dxs
  | tan =>
      four ← V_double (num_int 4);
      c1 ← V_function cos x;
      c2 ← V_function cos x;
      cc ← V_operation multiply c1 c2;
      dxcc ← simplified_mul dx cc;
      a ← simplified_mul four dxcc;
      xx ← V_operation add x x;
      cxx ← V_function cos xx;
      one ← V_double num_one;
      b ← V_operation add cxx one;
      branch (is_value b)
        (v ← value b; k ← V_double (num_div num_one v); simplified_mul k a)
        (bb ← V_operation multiply b b; V_operation divide a bb)
  | asin =>
      branch (is_value x)
        (one ← V_double num_one; r ← sqrt_1_minus_sqr x; q ← V_operation divide one r; simplified_mul q dx)
        (r ← sqrt_1_minus_sqr x; V_operation divide dx r)
  | acos =>
      branch (is_value x)
        (minus_one ← V_double (num_int (-1)); r ← sqrt_1_minus_sqr x; q ← V_operation divide minus_one r; simplified_mul q dx)
        (minus_one ← V_double (num_int (-1)); n ← V_operation multiply minus_one dx; r ← sqrt_1_minus_sqr x;
         V_operation divide n r)
  | atan =>
      branch (is_value x)
        (one ← V_double num_one; r ← sqr_plus_1 x; q ← V_operation divide one r; simplified_mul q dx)
        (r ← sqr_plus_1 x; V_operation divide dx r)
  | unit_step => throw FnCASZeroOrOneIsNonDifferentiable
  | ramp => u ← V_function unit_step x; V_operation multiply u dx
  end.

(** ** The loop *)

(** [df[i]] for a row of the cache: [growing_vector_access(df, i, -1)]. *)
Definition df_access (var : nat) (i : Z) : recording Z := λ s,
  match df_ s !! var with
  | Some row => (Ok (grown (grow row i (-1)) i (-1)), set_df (<[var := grow row i (-1)]> (df_ s)) s)
  | None => (Throw (Fault DanglingDereference), s)
  end.

Definition df_assign (var : nat) (i d : Z) : recording () := λ s,
  match df_ s !! var with
  | Some row => (Ok (), set_df (<[var := grow_set row i (-1) d]> (df_ s)) s)
  | None => (Throw (Fault DanglingDereference), s)
  end.

(** The first visit of a node: what is pushed on the stack, the top first. *)
Definition diff_enter (var : nat) (zero_index one_index i : Z) : recording (list Z) :=
  f ← node_at i;
  match f with
  | variable_node v =>
      _ ← df_assign var i (if v =? Z.of_nat var then one_index else zero_index); mret []
  | value_node _ => _ ← df_assign var i zero_index; mret []
  | operation_node _ lhs rhs => mret [rhs; lhs; Z.lnot i]
  | function_node _ argument => mret [argument; Z.lnot i]
  end.

(** The second visit. *)
Definition diff_leave (var : nat) (i : Z) : recording () :=
  f ← node_at i;
  match f with
  | operation_node operation a b =>
      da ← df_access var a;
      db ← df_access var b;
      _ ← assert (negb (da =? -1));
      _ ← assert (negb (db =? -1));
      d ← d_op operation a b da db;
      df_assign var i d
  | function_node function x =>
      dx ← df_access var x;
      _ ← assert (negb (dx =? -1));
      d ← d_f function i x dx;
      df_assign var i d
  | _ => throw (Fault AssertionFailed)
  end.

Fixpoint diff_loop (fuel : nat) (var : nat) (zero_index one_index : Z) (stack : list Z) : recording () :=
  match stack with
  | [] => mret ()
  | i :: stack =>
      match fuel with
      | O => throw OutOfFuel
      | S fuel =>
          if Z.lnot i <? i
          then pushed ← diff_enter var zero_index one_index i; diff_loop fuel var zero_index one_index (pushed ++ stack)
          else _ ← diff_leave var (Z.lnot i); diff_loop fuel var zero_index one_index stack
      end
  end.

(** The rounds that a node takes, which is differentiated again whenever it is met. *)
Definition rounds_of (ts : list nat) (n : @node_impl D) : nat :=
  match n with
  | operation_node _ lhs rhs => 2 + entry_at 0 ts lhs + entry_at 0 ts rhs
  | function_node _ argument => 2 + entry_at 0 ts argument
  | _ => 1
  end%nat.

Definition diff_rounds (nodes : list (@node_impl D)) (i : Z) : nat := entry_at 0%nat (table rounds_of nodes) i.

Definition resize_df (dim : nat) : recording () := λ s,
  (Ok (), if bool_decide (df_ s = []) then set_df (replicate dim []) s else s).

Definition diff_from (var_index : nat) (zero_index one_index index : Z) : recording () := λ s,
  diff_loop (diff_rounds (node_vector_ s) index) var_index zero_index one_index [index] s.

Definition diff_run (var_index : nat) (index : Z) : recording () :=
  zero_index ← V_double num_zero;
  one_index ← V_double num_one;
  diff_from var_index zero_index one_index index.

Definition differentiate_node (index : Z) (var_index dim : nat) : recording Z :=
  _ ← assert (var_index <? dim)%nat;
  _ ← resize_df dim;
  _ ← (λ s, assert (length (df_ s) =? dim)%nat s);
  d ← df_access var_index index;
  _ ← (if d =? -1 then diff_run var_index index else mret ());
  result ← df_access var_index index;
  _ ← assert (negb (result =? -1));
  mret result.

(** [node_differentiate_impl<X>::differentiate], for the [X] at address [x_ref]. *)
Definition differentiate (x_ref index : Z) (variable_index : nat) : recording Z := λ s,
  (_ ← assert (bool_decide (x_ptr_ s = Some x_ref));
   _ ← assert (Z.of_nat variable_index <? dim_ s);
   differentiate_node index variable_index (Z.to_nat (dim_ s))) s.

(** ** The gradient *)

Record g_impl := mkG { f_ : Z; g_ : list Z }.

Fixpoint differentiate_all (x_ref f : Z) (i n : nat) : recording (list Z) :=
  match n with
  | O => mret []
  | S n => g ← differentiate x_ref f i; gs ← differentiate_all x_ref f (S i) n; mret (g :: gs)
  end.

(** The constructor.  [g_.resize(dim)] makes [dim] nodes, which are not used. *)
Definition g_new (x_ref f : Z) : recording g_impl := λ s,
  (_ ← assert (bool_decide (x_ptr_ s = Some x_ref));
   _ ← resize_V (Z.to_nat (dim_ s));
   gs ← differentiate_all x_ref f 0 (Z.to_nat (dim_ s));
   mret (mkG f gs)) s.

(** [operator()]: the values after the first reuse the cache. *)
Fixpoint g_values (r : reuse_cache) (gs : list Z) (x : list D) (s : @internals_impl D)
    : outcome fncas_exception (list D * @internals_impl D) :=
  match gs with
  | [] => Ok ([], s)
  | g :: gs =>
      '(v, s) ← eval_node g x r s;
      '(vs, s) ← g_values reuse gs x s;
      Ok (v :: vs, s)
  end.

Definition g_call (g : g_impl) (x : list D) (s : @internals_impl D) : outcome fncas_exception (list D * @internals_impl D) :=
  g_values invalidate (g_ g) x s.
End Differentiate.
End FnCasDiff.
