(* ===== verification/FnCasSymbolic.v ===== *)
(** * What recording and differentiation mean

    An [Algebra] gives a meaning to variables, constants, operations and
    functions, in which the simplifications of differentiate.h are equalities;
    [sem] is the meaning of a node in it.  Recording keeps the meaning of the nodes
    there are ([ext]); the rules of differentiate.h record nodes whose meaning is
    the textbook formula ([d_op_ok], [d_f_ok]), and the loop those of the whole
    derivative [dsem], in as many rounds as [diff_rounds] says.  The algebra with
    one element shows that differentiation ends well with any arithmetic. *)

From Stdlib Require Import ZArith Lia.
From stdpp Require Import base list sets.
From S2P Require Import Prelude State FnCasArith FnCasNode FnCasDiff.
Open Scope Z_scope.

Import FnCas FnCasNode FnCasDiff.

(** ** Algebras *)

Class Algebra (D : Type) `{Arithmetic D} (Sem : Type) := {
  s_var : Z → Sem;
  s_const : D → Sem;
  s_op : MathOperation → Sem → Sem → Sem;
  s_fn : MathFunction → Sem → Sem;
}.

(** Equal numbers mean the same. *)
Class ConstSound (D : Type) `{Arithmetic D} (Sem : Type) `{!Algebra D Sem} :=
  const_eqb (x y : D) : num_eqb x y = true → s_const x = s_const y.

(** The simplifications are right. *)
Class AlgebraSound (D : Type) `{Arithmetic D} (Sem : Type) `{!Algebra D Sem} := {
  #[global] algebra_const :: ConstSound D Sem;
  const_fold o x y : s_op o (s_const x) (s_const y) = s_const (apply_operation o x y);
  add_zero_l a : s_op add (s_const num_zero) a = a;
  add_zero_r a : s_op add a (s_const num_zero) = a;
  sub_zero_r a : s_op subtract a (s_const num_zero) = a;
  mul_zero_l a : s_op multiply (s_const num_zero) a = s_const num_zero;
  mul_zero_r a : s_op multiply a (s_const num_zero) = s_const num_zero;
  mul_one_l a : s_op multiply (s_const num_one) a = a;
  mul_one_r a : s_op multiply a (s_const num_one) = a;
}.

Abbreviation s_zero := (s_const num_zero).
Abbreviation s_one := (s_const num_one).

(** A function that looks at the entries of the children only. *)
Ltac solve_local :=
  let Hc := fresh in intros ? ? m Hc; destruct m; cbn in *; rewrite ?entry_at_app by (apply Hc; set_solver); done.

Section Symbolic.
Context {D Sem : Type} `{Arithmetic D, !Algebra D Sem}.
Implicit Types (s : @internals_impl D) (nodes : list (@node_impl D)) (n : @node_impl D) (i j : Z) (σ τ : Sem).
Local Abbreviation recording := (io (@internals_impl D) fncas_exception).

(** ** The meaning of nodes *)

Definition sem_of (vs : list Sem) n : Sem :=
  match n with
  | variable_node v => s_var v
  | value_node v => s_const v
  | operation_node o l r => s_op o (entry_at s_zero vs l) (entry_at s_zero vs r)
  | function_node f c => s_fn f (entry_at s_zero vs c)
  end.

Definition sem nodes i : Sem := entry_at s_zero (table sem_of nodes) i.

Lemma sem_of_local : local sem_of.
Proof. solve_local. Qed.

Lemma sem_node dim nodes i n : graph_ok dim nodes → valid nodes i → nodes !! Z.to_nat i = Some n →
  sem nodes i = sem_of (table sem_of nodes) n.
Proof. apply table_node, sem_of_local. Qed.

(** ** The formulas *)

Definition sem_d_op (o : MathOperation) (a b da db : Sem) : Sem :=
  match o with
  | add => s_op add da db
  | subtract => s_op subtract da db
  | multiply => s_op add (s_op multiply a db) (s_op multiply b da)
  | divide => s_op divide (s_op subtract (s_op multiply b da) (s_op multiply a db)) (s_op multiply b b)
  end.

Definition sem_sqrt_1_minus_sqr (x : Sem) : Sem := s_fn sqrt (s_op subtract s_one (s_op multiply x x)).

Definition sem_d_f (f : MathFunction) (o x dx : Sem) (constant : bool) : Sem :=
  match f with
  | sqr => s_op multiply (s_const (num_int 2)) (s_op multiply x dx)
  | sqrt => s_op divide dx (s_op add o o)
  | exp => s_op multiply o dx
  | log => if constant then s_op multiply (s_op divide s_one x) dx else s_op divide dx x
  | sin => s_op multiply dx (s_fn cos x)
  | cos => s_op multiply (s_const (num_int (-1))) (s_op multiply dx (s_fn sin x))
  | tan =>
      let c := s_op add (s_fn cos (s_op add x x)) s_one in
      s_op divide (s_op multiply (s_const (num_int 4)) (s_op multiply dx (s_op multiply (s_fn cos x) (s_fn cos x)))) (s_op multiply c c)
  | asin =>
      if constant then s_op multiply (s_op divide s_one (sem_sqrt_1_minus_sqr x)) dx
      else s_op divide dx (sem_sqrt_1_minus_sqr x)
  | acos =>
      if constant then s_op multiply (s_op divide (s_const (num_int (-1))) (sem_sqrt_1_minus_sqr x)) dx
      else s_op divide (s_op multiply (s_const (num_int (-1))) dx) (sem_sqrt_1_minus_sqr x)
  | atan =>
      let d := s_op add (s_op multiply x x) s_one in
      if constant then s_op multiply (s_op divide s_one d) dx else s_op divide dx d
  | unit_step => s_zero
  | ramp => s_op multiply (s_fn unit_step x) dx
  end.

Definition is_value_node (o : option (@node_impl D)) : bool := match o with Some (value_node _) => true | _ => false end.

Definition dsem_of nodes (var : nat) (vs : list Sem) n : Sem :=
  match n with
  | variable_node v => if v =? Z.of_nat var then s_one else s_zero
  | value_node _ => s_zero
  | operation_node o l r => sem_d_op o (sem nodes l) (sem nodes r) (entry_at s_zero vs l) (entry_at s_zero vs r)
  | function_node f c =>
      sem_d_f f (s_fn f (sem nodes c)) (sem nodes c) (entry_at s_zero vs c) (is_value_node (nodes !! Z.to_nat c))
  end.

(** The meaning of the derivative of a node by a variable. *)
Definition dsem nodes (var : nat) i : Sem := entry_at s_zero (table (dsem_of nodes var) nodes) i.

Lemma dsem_of_local nodes var : local (dsem_of nodes var).
Proof. solve_local. Qed.

Lemma dsem_node dim nodes var i n : graph_ok dim nodes → valid nodes i → nodes !! Z.to_nat i = Some n →
  dsem nodes var i = dsem_of nodes var (table (dsem_of nodes var) nodes) n.
Proof. apply table_node, dsem_of_local. Qed.

(** Whether no [unit_step] is met. *)
Definition differentiable_of (vs : list bool) n : bool :=
  match n with
  | operation_node _ l r => entry_at true vs l && entry_at true vs r
  | function_node f c => negb (bool_decide (f = unit_step)) && entry_at true vs c
  | _ => true
  end.
Definition differentiable nodes i : bool := entry_at true (table differentiable_of nodes) i.

Lemma differentiable_node dim nodes i n : graph_ok dim nodes → valid nodes i → nodes !! Z.to_nat i = Some n →
  differentiable nodes i = differentiable_of (table differentiable_of nodes) n.
Proof. apply table_node. solve_local. Qed.

Lemma rounds_node dim nodes i n : graph_ok dim nodes → valid nodes i → nodes !! Z.to_nat i = Some n →
  diff_rounds nodes i = rounds_of (table rounds_of nodes) n.
Proof. apply table_node. solve_local. Qed.

(** ** Extensions *)

(** The same node, but for a number that means the same. *)
Definition node_sim n n' : Prop :=
  match n, n' with
  | value_node v, value_node v' => s_const v = s_const v'
  | _, _ => n = n'
  end.

Global Instance node_sim_preorder : PreOrder node_sim.
Proof. split; [by intros []|]. intros [] [] [] ??; cbn in *; try congruence. Qed.

Record ext s s' : Prop := {
  ext_nodes (i : nat) n : node_vector_ s !! i = Some n → ∃ n', node_vector_ s' !! i = Some n' ∧ node_sim n n';
  ext_dim : dim_ s' = dim_ s;
  ext_x : x_ptr_ s' = x_ptr_ s;
}.

Global Instance ext_preorder : PreOrder ext.
Proof.
  split; [split; eauto|]; [by intros i n ?; exists n|].
  intros s1 s2 s3 [N1 D1 X1] [N2 D2 X2]. split; [|congruence..].
  intros i n (n' & (n'' & ? & ?)%N2 & ?)%N1. exists n''. split; [done|]. by etrans.
Qed.

Record state_ok s : Prop := {
  state_graph : graph_ok (dim_ s) (node_vector_ s);
  state_map k i : (k, i) ∈ allocated_values_map_ s →
    dim_ s ≤ i ∧ ∃ v, node_vector_ s !! Z.to_nat i = Some (value_node v) ∧ s_const v = s_const k;
}.

Definition ok_index s i : Prop := dim_ s ≤ i ∧ valid (node_vector_ s) i.

Lemma ext_length s s' : ext s s' → (length (node_vector_ s) ≤ length (node_vector_ s'))%nat.
Proof.
  intros [He _ _]. destruct (length (node_vector_ s)) as [|k] eqn:E; [lia|].
  destruct (lookup_lt_is_Some_2 (node_vector_ s) k) as [n Hn]; [lia|]. apply He in Hn as (? & ?%lookup_lt_Some & _). lia.
Qed.

Lemma ext_index s s' i : ext s s' → ok_index s i → ok_index s' i.
Proof. intros He [H1 [H2 H3]]. pose proof (ext_length _ _ He). split; [by rewrite (ext_dim _ _ He)|split; lia]. Qed.

Lemma ok_valid s i : ok_index s i → valid (node_vector_ s) i.
Proof. by intros []. Qed.

Lemma node_sim_children n n' : node_sim n n' → children n' = children n.
Proof. destruct n, n'; cbn; congruence. Qed.

(** A table whose entries agree on similar nodes agrees on the common ones. *)
Lemma ext_table {A} (fill : A) (f g : list A → @node_impl D → A) s s' i :
  local f → local g → state_ok s → state_ok s' → ext s s' →
  (∀ vs vs' i n n', valid (node_vector_ s) i → node_vector_ s !! Z.to_nat i = Some n → node_vector_ s' !! Z.to_nat i = Some n' →
     node_sim n n' → (∀ c, c ∈ children n → valid (node_vector_ s) c ∧ entry_at fill vs c = entry_at fill vs' c) → f vs n = g vs' n') →
  valid (node_vector_ s) i → entry_at fill (table f (node_vector_ s)) i = entry_at fill (table g (node_vector_ s')) i.
Proof.
  intros Hf Hg Hs Hs' He Hfg [H0 Hi]. revert i H0 Hi. refine (Zlt_0_ind _ _).
  intros i IH H0 Hi. assert (valid (node_vector_ s) i) as Hv by done.
  destruct (node_of_ok _ _ Hv) as (n & Hn & _). destruct (ext_nodes _ _ He _ _ Hn) as (n' & Hn' & Hsim).
  pose proof (ext_length _ _ He) as Hlen.
  rewrite (table_node fill f _ _ _ _ Hf (state_graph _ Hs) Hv Hn).
  rewrite (table_node fill g _ _ i _ Hg (state_graph _ Hs') ltac:(split; lia) Hn').
  apply (Hfg _ _ i); [done..|]. intros c Hc.
  destruct (valid_child _ _ _ _ _ (state_graph _ Hs) Hv Hn Hc) as [Hvc ?]. split; [done|]. destruct Hvc. apply IH; lia.
Qed.

Lemma ext_sem s s' i : state_ok s → state_ok s' → ext s s' → valid (node_vector_ s) i → sem (node_vector_ s') i = sem (node_vector_ s) i.
Proof.
  intros Hs Hs' He Hi. symmetry. eapply ext_table; try done; [apply sem_of_local..|].
  intros vs vs' _ n n' _ _ _ Hsim Hc. destruct n, n'; cbn in *; simplify_eq; try done; f_equal; apply Hc; set_solver.
Qed.

Lemma ext_is_value s s' i : ext s s' → valid (node_vector_ s) i →
  is_value_node (node_vector_ s' !! Z.to_nat i) = is_value_node (node_vector_ s !! Z.to_nat i).
Proof.
  intros He Hv. destruct (node_of_ok _ _ Hv) as (m & Hm & _). destruct (ext_nodes _ _ He _ _ Hm) as (m' & Hm' & Hsm).
  rewrite Hm, Hm'. destruct m, m'; cbn in *; congruence.
Qed.

Lemma ext_dsem s s' var i : state_ok s → state_ok s' → ext s s' → valid (node_vector_ s) i →
  dsem (node_vector_ s') var i = dsem (node_vector_ s) var i.
Proof.
  intros Hs Hs' He Hi. symmetry. eapply ext_table; try done; [apply dsem_of_local..|].
  intros vs vs' k n n' Hk _ _ Hsim Hc.
  assert (∀ c, c ∈ children n → sem (node_vector_ s') c = sem (node_vector_ s) c ∧
    is_value_node (node_vector_ s' !! Z.to_nat c) = is_value_node (node_vector_ s !! Z.to_nat c) ∧ entry_at s_zero vs c = entry_at s_zero vs' c) as Hc'.
  { intros c Hcc. destruct (Hc c Hcc) as [Hv Hvs]. split_and!; [by apply ext_sem|by apply ext_is_value|done]. }
  destruct n as [| |o l r|f c], n' as [| |o' l' r'|f' c']; cbn in *; simplify_eq; try done.
  - destruct (Hc' l') as (-> & _ & ->); [set_solver|]. destruct (Hc' r') as (-> & _ & ->); [set_solver|]. done.
  - destruct (Hc' c') as (-> & -> & ->); [set_solver|]. done.
Qed.

Lemma ext_differentiable s s' i : state_ok s → state_ok s' → ext s s' → valid (node_vector_ s) i →
  differentiable (node_vector_ s') i = differentiable (node_vector_ s) i.
Proof.
  intros Hs Hs' He Hi. symmetry. eapply ext_table; try done.
  1,2: solve_local.
  intros vs vs' _ n n' _ _ _ Hsim Hc. destruct n, n'; cbn in *; simplify_eq; try done; f_equal; apply Hc; set_solver.
Qed.

Lemma ext_rounds s s' i : state_ok s → state_ok s' → ext s s' → valid (node_vector_ s) i →
  diff_rounds (node_vector_ s') i = diff_rounds (node_vector_ s) i.
Proof.
  intros Hs Hs' He Hi. symmetry. eapply ext_table; try done.
  1,2: solve_local.
  intros vs vs' _ n n' _ _ _ Hsim Hc. destruct n as [| |? l r|? c], n' as [| |? l' r'|? c']; cbn in *; simplify_eq; try done.
  - destruct (Hc l') as [_ ->]; [set_solver|]. destruct (Hc r') as [_ ->]; [set_solver|]. done.
  - destruct (Hc c') as [_ ->]; [set_solver|]. done.
Qed.

(** ** Recording a node *)

Context `{!ConstSound D Sem}.

(** An index of the state whose meaning is known. *)
Definition has s i σ : Prop := ok_index s i ∧ sem (node_vector_ s) i = σ.

Definition records (m : recording Z) s σ : Prop :=
  ∃ j s', m s = (Ok j, s') ∧ ext s s' ∧ state_ok s' ∧ df_ s' = df_ s ∧ has s' j σ.

Lemma has_ext s s' i σ : state_ok s → state_ok s' → ext s s' → has s i σ → has s' i σ.
Proof. intros Hs Hs' He [Hi <-]. split; [by eapply ext_index|]. apply ext_sem; [done..|apply Hi]. Qed.

Lemma records_ret s i σ : state_ok s → has s i σ → records (mret i) s σ.
Proof. intros Hs Hi. by exists i, s. Qed.

Lemma records_bind (m : recording Z) (f : Z → recording Z) s σ τ :
  records m s σ → (∀ j s', ext s s' → state_ok s' → has s' j σ → records (f j) s' τ) → records (m ≫= f) s τ.
Proof.
  intros (j & s1 & E & He & Hs & Hd & Hj) Hf. destruct (Hf j s1 He Hs Hj) as (k & s2 & E2 & He2 & Hs2 & Hd2 & Hk).
  exists k, s2. split_and!; [|by etrans|done|congruence|done]. by rewrite (io_bind_ok _ _ _ _ _ E).
Qed.

Lemma ok_node s i : ok_index s i → ∃ n, node_vector_ s !! Z.to_nat i = Some n ∧ node_at i s = (Ok n, s).
Proof.
  intros [_ Hv]. destruct (node_of_ok _ _ Hv) as (n & Hn & _). exists n. split; [done|]. destruct Hv as [H0 _].
  unfold node_at. by rewrite (proj2 (Z.leb_le _ _) H0), Hn.
Qed.

Lemma append_ok s n : state_ok s → node_ok (dim_ s) (Z.of_nat (length (node_vector_ s))) n →
  state_ok (set_nodes (node_vector_ s ++ [n]) s) ∧ ext s (set_nodes (node_vector_ s ++ [n]) s).
Proof.
  intros [[Hd Hg] Hm] Hn. split; split; cbn; [|..|done|done].
  - split; [done|]. intros i m [Hi|[Hlen Hi]]%lookup_app_Some; [by apply Hg|].
    apply list_lookup_singleton_Some in Hi as [? <-].
    by replace i with (length (node_vector_ s)) by lia.
  - intros k i Hki. destruct (Hm k i Hki) as (? & v & Hv & ?). split; [done|]. exists v. split; [|done]. by apply lookup_app_l_Some.
  - intros i m Hi. exists m. split; [by apply lookup_app_l_Some|done].
Qed.

Lemma insert_last nodes n m : <[Z.to_nat (Z.of_nat (length nodes)) := n]> (nodes ++ [m]) = nodes ++ [n].
Proof. rewrite Nat2Z.id. by rewrite insert_app_r_alt, Nat.sub_diag by lia. Qed.

(** A new node, made and assigned. *)
Lemma new_node_ok s n : state_ok s → node_ok (dim_ s) (Z.of_nat (length (node_vector_ s))) n →
  let s' := set_nodes (node_vector_ s ++ [n]) s in let j := Z.of_nat (length (node_vector_ s)) in
  dim_ s ≤ j →
  (result ← allocate_new; _ ← assign result n; mret result) s = (Ok j, s') ∧
  ext s s' ∧ state_ok s' ∧ node_vector_ s' !! Z.to_nat j = Some n ∧ has s' j (sem_of (table sem_of (node_vector_ s)) n).
Proof.
  intros Hs Hn s' j Hj. destruct (append_ok s n Hs Hn) as [Hs' He]. split_and!; [|done|done| |].
  - unfold allocate_new, assign, mbind, io_bind. cbn -[Z.of_nat Z.to_nat]. by rewrite insert_last.
  - subst j. cbn. rewrite Nat2Z.id, lookup_app_r by done. by rewrite Nat.sub_diag.
  - split; [split; [done|]|].
    + split; cbn; [lia|]. rewrite length_app. cbn. lia.
    + apply (table_last s_zero sem_of).
Qed.

(** Nodes without a use. *)
Lemma allocate_new_ok s : state_ok s → ∃ s', allocate_new s = (Ok (Z.of_nat (length (node_vector_ s))), s') ∧ ext s s' ∧ state_ok s' ∧
  df_ s' = df_ s ∧ length (node_vector_ s') = S (length (node_vector_ s)).
Proof.
  intros Hs. destruct (append_ok s (variable_node 0) Hs) as [Hs' He].
  { split; cbn; [set_solver|]. intros v [= <-]. pose proof (graph_dim _ _ (state_graph _ Hs)). lia. }
  eexists. split_and!; [done..|]. cbn. rewrite length_app. cbn. lia.
Qed.

Lemma resize_V_ok (n : nat) s : state_ok s → ∃ vs s', resize_V n s = (Ok vs, s') ∧ ext s s' ∧ state_ok s' ∧ df_ s' = df_ s ∧
  length (node_vector_ s') = (n + length (node_vector_ s))%nat.
Proof.
  revert s. induction n as [|n IH]; intros s Hs; [by exists [], s|]. cbn [resize_V].
  destruct (allocate_new_ok s Hs) as (s1 & E1 & He1 & Hs1 & Hd1 & Hl1). rewrite (io_bind_ok _ _ _ _ _ E1).
  destruct (IH s1 Hs1) as (vs & s2 & E2 & He2 & Hs2 & Hd2 & Hl2). rewrite (io_bind_ok _ _ _ _ _ E2).
  eexists _, s2. split_and!; [done|by etrans|done|congruence|lia].
Qed.

Lemma has_dim s i σ : has s i σ → dim_ s ≤ Z.of_nat (length (node_vector_ s)).
Proof. intros [[? []] _]. lia. Qed.

Lemma V_operation_ok s o l r σ τ : state_ok s → has s l σ → has s r τ → ∃ j s', V_operation o l r s = (Ok j, s') ∧
  ext s s' ∧ state_ok s' ∧ df_ s' = df_ s ∧ node_vector_ s' !! Z.to_nat j = Some (operation_node o l r) ∧ has s' j (s_op o σ τ).
Proof.
  intros Hs Hl Hr. destruct (new_node_ok s (operation_node o l r) Hs) as (E & He & Hs' & Hn & Hj).
  - split; [|done]. destruct Hl as [[? []] _], Hr as [[? []] _]. cbn. intros c Hc. set_unfold. naive_solver lia.
  - by eapply has_dim.
  - destruct Hl as [_ <-], Hr as [_ <-]. eexists _, _. split_and!; done.
Qed.

Lemma records_operation s o l r σ τ : state_ok s → has s l σ → has s r τ → records (V_operation o l r) s (s_op o σ τ).
Proof. intros Hs Hl Hr. destruct (V_operation_ok s o l r σ τ Hs Hl Hr) as (j & s' & ? & ? & ? & ? & _ & ?). by exists j, s'. Qed.

Lemma records_function s f c σ : state_ok s → has s c σ → records (V_function f c) s (s_fn f σ).
Proof.
  intros Hs Hc. destruct (new_node_ok s (function_node f c) Hs) as (E & He & Hs' & Hn & Hj).
  - split; [|done]. destruct Hc as [[? []] _]. cbn. intros c' Hc'. set_unfold. naive_solver lia.
  - by eapply has_dim.
  - destruct Hc as [_ <-]. eexists _, _. split_and!; done.
Qed.

Lemma records_double s v : state_ok s → dim_ s ≤ Z.of_nat (length (node_vector_ s)) → records (V_double v) s (s_const v).
Proof.
  intros Hs Hd. unfold V_double, allocate_for_double, records, assign, mbind, io_bind.
  destruct (list_find _ _) as [[p [k i]]|] eqn:E; cbn -[Z.of_nat Z.to_nat].
  - apply list_find_Some in E as (Hp & Heqb & _). cbn in Heqb. apply const_eqb in Heqb.
    apply list_elem_of_lookup_2 in Hp. destruct (state_map _ Hs _ _ Hp) as (Hdi & w & Hw & Hwk).
    pose proof (lookup_lt_Some _ _ _ Hw) as Hlt. pose proof (graph_dim _ _ (state_graph _ Hs)) as Hd0.
    set (s' := set_nodes _ s). assert (∀ q, node_vector_ s' !! q = if decide (q = Z.to_nat i) then Some (value_node v) else node_vector_ s !! q) as Hlook.
    { intros q. cbn. case_decide; subst; [by apply list_lookup_insert_eq|by apply list_lookup_insert_ne]. }
    assert (ext s s') as He.
    { split; [|done..]. intros q n Hq. rewrite Hlook. case_decide; subst; [|by exists n]. exists (value_node v).
      split; [done|]. rewrite Hw in Hq. simplify_eq. cbn. congruence. }
    assert (state_ok s') as Hs'.
    { split; [split; [done|]|].
      - intros q n. rewrite Hlook. case_decide; [intros [= <-]; split; cbn; [set_solver|done]|apply (graph_nodes _ _ (state_graph _ Hs))].
      - intros k' i' Hk'. destruct (state_map _ Hs _ _ Hk') as (? & w' & Hw' & ?). split; [done|]. rewrite Hlook.
        case_decide as Hi; [exists v|by exists w']. split; [done|]. rewrite Hi, Hw in Hw'. simplify_eq. congruence. }
    assert (valid (node_vector_ s') i) as Hv by (split; [lia|]; cbn; rewrite length_insert; lia).
    exists i, s'. split_and!; [done..|]. split; [done|].
    rewrite (sem_node _ _ _ (value_node v) (state_graph _ Hs') Hv); [done|]. rewrite Hlook, decide_True; done.
  - destruct (new_node_ok s (value_node v) Hs) as (_ & He & Hs' & Hn & Hj); [split; cbn; [set_solver|done]|done|].
    set (j := Z.of_nat (length (node_vector_ s))) in *.
    exists j, (set_map (allocated_values_map_ s ++ [(v, j)]) (set_nodes (node_vector_ s ++ [value_node v]) s)).
    split_and!; [|by destruct He; split| |done|done].
    + unfold j. by rewrite insert_last.
    + destruct Hs' as [Hg Hm]. split; [done|]. cbn in *. intros k i [Hk|[= -> ->]%list_elem_of_singleton]%elem_of_app; [by apply Hm|].
      split; [done|]. by exists v.
Qed.

(** ** Looking at nodes *)

(** A condition that does not change the state, and what is known when it holds. *)
Definition checks (c : recording bool) s (P : Prop) : Prop := ∃ b : bool, c s = (Ok b, s) ∧ (b = true → P).

Lemma records_branch c yes no s (P : Prop) σ :
  checks c s P → (P → records yes s σ) → records no s σ → records (branch c yes no) s σ.
Proof.
  intros (b & E & Hb) Hyes Hno. unfold branch, records. rewrite (io_bind_ok _ _ _ _ _ E). destruct b; [by apply Hyes, Hb|done].
Qed.

Lemma checks_both c1 c2 s P1 P2 : checks c1 s P1 → checks c2 s P2 → checks (both c1 c2) s (P1 ∧ P2).
Proof.
  intros (b1 & E1 & H1) (b2 & E2 & H2). unfold checks, both, branch. rewrite (io_bind_ok _ _ _ _ _ E1).
  destruct b1; [exists b2; split; [done|]; auto|by exists false].
Qed.

Lemma checks_either c1 c2 s P1 P2 : checks c1 s P1 → checks c2 s P2 → checks (either c1 c2) s (P1 ∨ P2).
Proof.
  intros (b1 & E1 & H1) (b2 & E2 & H2). unfold checks, either, branch. rewrite (io_bind_ok _ _ _ _ _ E1).
  destruct b1; [exists true; split; [done|]; auto|exists b2; split; [done|]; auto].
Qed.

Lemma is_value_eq s i : ok_index s i → is_value i s = (Ok (is_value_node (node_vector_ s !! Z.to_nat i)), s).
Proof. intros Hi. destruct (ok_node s i Hi) as (n & Hn & E). unfold is_value. rewrite (io_bind_ok _ _ _ _ _ E), Hn. by destruct n. Qed.

(** The number of a node that is one. *)
Definition number s i σ : Prop := ∃ v, value i s = (Ok v, s) ∧ σ = s_const v.

Lemma value_number s i σ : state_ok s → has s i σ → is_value_node (node_vector_ s !! Z.to_nat i) = true → number s i σ.
Proof.
  intros Hs [Hi <-] Hn. destruct (ok_node s i Hi) as (n & Hn' & E). rewrite Hn' in Hn. destruct n as [|v| |]; try done.
  exists v. split; [unfold value; by rewrite (io_bind_ok _ _ _ _ _ E)|].
  by rewrite (sem_node _ _ _ _ (state_graph _ Hs) (ok_valid _ _ Hi) Hn').
Qed.

Lemma checks_is_value s i σ : state_ok s → has s i σ → checks (is_value i) s (number s i σ).
Proof. intros Hs Hi. eexists. split; [apply is_value_eq, Hi|]. by apply value_number. Qed.

Lemma checks_equals_to s i σ v : state_ok s → has s i σ → checks (equals_to i v) s (σ = s_const v).
Proof.
  intros Hs Hi. destruct (checks_is_value s i σ Hs Hi) as (b & E & Hb). unfold checks, equals_to. rewrite (io_bind_ok _ _ _ _ _ E).
  destruct b; [|by exists false]. destruct (Hb eq_refl) as (w & Ew & ->). rewrite (io_bind_ok _ _ _ _ _ Ew).
  exists (num_eqb w v). split; [done|]. apply const_eqb.
Qed.

Lemma records_value s i σ (f : D → recording Z) τ : number s i σ → (∀ v, σ = s_const v → records (f v) s τ) → records (value i ≫= f) s τ.
Proof. intros (v & E & Hv) Hf. unfold records. rewrite (io_bind_ok _ _ _ _ _ E). by apply Hf. Qed.
End Symbolic.

(** ** The rules of differentiation

    What [d_add], [d_sub], [d_mul], [d_op] and [d_f] of differentiate.h record
    means the textbook formula, whichever of their simplifications applies. *)

Create HintDb records.

(** Carry what is known of indexes over to an extended state. *)
Ltac carry :=
  repeat match goal with
  | Hs : state_ok ?s, Hs' : state_ok ?s', He : ext ?s ?s', Hi : has ?s ?i ?σ |- _ =>
      lazymatch goal with
      | _ : has s' i σ |- _ => fail
      | _ => pose proof (has_ext s s' i σ Hs Hs' He Hi)
      end
  end.

(** The next node that is recorded. *)
Ltac record := eapply records_bind; [solve [eauto with records]|intros ? ? ? ? ?; carry].

#[export] Hint Resolve records_ret records_operation records_function records_double has_dim
  checks_is_value checks_equals_to checks_both checks_either : records.

Section Rules.
Context {D Sem : Type} `{Arithmetic D, !Algebra D Sem, !AlgebraSound D Sem}.
Let constants : ConstSound D Sem := algebra_const.
Implicit Types (s : @internals_impl D) (i a b da db x y : Z) (σ τ α β δ ε : Sem).

Lemma records_eq (m : io (@internals_impl D) fncas_exception Z) s σ τ : records m s σ → σ = τ → records m s τ.
Proof. by intros ? <-. Qed.

Lemma d_add_ok s da db δ ε : state_ok s → has s da δ → has s db ε → records (d_add da db) s (s_op add δ ε).
Proof.
  intros Hs Ha Hb. unfold d_add. eapply records_branch; [eauto with records|intros [Na Nb]|].
  { apply (records_value _ _ _ _ _ Na). intros v ->. apply (records_value _ _ _ _ _ Nb). intros w ->.
    rewrite const_fold. eauto with records. }
  eapply records_branch; [eauto with records|intros ->; rewrite add_zero_r; eauto with records|].
  eapply records_branch; [eauto with records|intros ->; rewrite add_zero_l; eauto with records|]. eauto with records.
Qed.

Lemma d_sub_ok s da db δ ε : state_ok s → has s da δ → has s db ε → records (d_sub da db) s (s_op subtract δ ε).
Proof.
  intros Hs Ha Hb. unfold d_sub. eapply records_branch; [eauto with records|intros [Na Nb]|].
  { apply (records_value _ _ _ _ _ Na). intros v ->. apply (records_value _ _ _ _ _ Nb). intros w ->.
    rewrite const_fold. eauto with records. }
  eapply records_branch; [eauto with records|intros ->; rewrite sub_zero_r; eauto with records|].
  eapply records_branch; [eauto with records|intros ->; unfold V_negate; record; eauto with records|]. eauto with records.
Qed.

Lemma simplified_mul_ok s x y σ τ : state_ok s → has s x σ → has s y τ → records (simplified_mul x y) s (s_op multiply σ τ).
Proof.
  intros Hs Hx Hy. unfold simplified_mul. eapply records_branch; [eauto with records| |].
  { intros [->| ->]; [rewrite mul_zero_l|rewrite mul_zero_r]; eauto with records. }
  eapply records_branch; [eauto with records|intros [Nx Ny]|].
  { apply (records_value _ _ _ _ _ Nx). intros v ->. apply (records_value _ _ _ _ _ Ny). intros w ->.
    rewrite const_fold. eauto with records. }
  eapply records_branch; [eauto with records|intros ->; rewrite mul_one_r; eauto with records|].
  eapply records_branch; [eauto with records|intros ->; rewrite mul_one_l; eauto with records|]. eauto with records.
Qed.

Local Hint Resolve d_add_ok d_sub_ok simplified_mul_ok : records.

Lemma records_checked (c : io (@internals_impl D) fncas_exception bool) (f : bool → io (@internals_impl D) fncas_exception Z) s P σ :
  checks c s P → (∀ t, (t = true → P) → records (f t) s σ) → records (c ≫= f) s σ.
Proof. intros (t & E & Ht) Hf. unfold records. rewrite (io_bind_ok _ _ _ _ _ E). by apply Hf. Qed.

Lemma d_mul_ok s a b da db α β δ ε : state_ok s → has s a α → has s b β → has s da δ → has s db ε →
  records (d_mul a b da db) s (s_op add (s_op multiply α ε) (s_op multiply β δ)).
Proof.
  intros Hs Ha Hb Hda Hdb. unfold d_mul.
  eapply records_checked; [eauto with records|intros l Hl]. eapply records_checked; [eauto with records|intros r Hr].
  assert (l = true → s_op multiply α ε = s_zero) as Hl' by (intros [-> | ->]%Hl; [apply mul_zero_l|apply mul_zero_r]).
  assert (r = true → s_op multiply β δ = s_zero) as Hr' by (intros [-> | ->]%Hr; [apply mul_zero_l|apply mul_zero_r]).
  destruct l, r; cbn [andb].
  - rewrite Hl', Hr', add_zero_l by done. eauto with records.
  - rewrite Hl', add_zero_l by done. eauto with records.
  - rewrite Hr', add_zero_r by done. eauto with records.
  - record. record. eauto with records.
Qed.

Lemma d_op_ok s o a b da db α β δ ε : state_ok s → has s a α → has s b β → has s da δ → has s db ε →
  records (d_op o a b da db) s (sem_d_op o α β δ ε).
Proof.
  intros Hs Ha Hb Hda Hdb. destruct o; cbn [d_op sem_d_op]; [by apply d_add_ok|by apply d_sub_ok|by apply d_mul_ok|].
  unfold d_div. do 4 record. eauto with records.
Qed.

Lemma records_branch_value yes no s x σ τ : state_ok s → has s x σ →
  (number s x σ → is_value_node (node_vector_ s !! Z.to_nat x) = true → records yes s τ) →
  (is_value_node (node_vector_ s !! Z.to_nat x) = false → records no s τ) → records (branch (is_value x) yes no) s τ.
Proof.
  intros Hs Hx Hyes Hno. unfold branch, records. rewrite (io_bind_ok _ _ _ _ _ (is_value_eq s x (proj1 Hx))).
  destruct (is_value_node _) eqn:E; [apply Hyes; [by apply value_number|done]|by apply Hno].
Qed.

Lemma sqrt_1_minus_sqr_ok s x σ : state_ok s → has s x σ → records (sqrt_1_minus_sqr x) s (sem_sqrt_1_minus_sqr σ).
Proof. intros Hs Hx. unfold sqrt_1_minus_sqr, sem_sqrt_1_minus_sqr. do 3 record. eauto with records. Qed.

Lemma sqr_plus_1_ok s x σ : state_ok s → has s x σ → records (sqr_plus_1 x) s (s_op add (s_op multiply σ σ) s_one).
Proof. intros Hs Hx. unfold sqr_plus_1. do 2 record. eauto with records. Qed.

Local Hint Resolve sqrt_1_minus_sqr_ok sqr_plus_1_ok : records.

(** An operation is not a number. *)
Lemma records_bind_operation (f : Z → io (@internals_impl D) fncas_exception Z) s o l r σ τ ρ : state_ok s → has s l σ → has s r τ →
  (∀ j s', ext s s' → state_ok s' → has s' j (s_op o σ τ) → is_value_node (node_vector_ s' !! Z.to_nat j) = false → records (f j) s' ρ) →
  records (V_operation o l r ≫= f) s ρ.
Proof.
  intros Hs Hl Hr Hf. destruct (V_operation_ok s o l r σ τ Hs Hl Hr) as (j & s1 & E & He & Hs1 & Hd & Hn & Hj).
  destruct (Hf j s1 He Hs1 Hj) as (k & s2 & E2 & He2 & Hs2 & Hd2 & Hk); [by rewrite Hn|].
  exists k, s2. split_and!; [|by etrans|done|congruence|done]. by rewrite (io_bind_ok _ _ _ _ _ E).
Qed.

Lemma d_f_ok s f o x dx ω σ δ : state_ok s → has s o ω → has s x σ → has s dx δ → f ≠ unit_step →
  is_value_node (node_vector_ s !! Z.to_nat o) = false →
  records (d_f f o x dx) s (sem_d_f f ω σ δ (is_value_node (node_vector_ s !! Z.to_nat x))).
Proof.
  intros Hs Ho Hx Hdx Hf Hno. destruct f; cbn [d_f sem_d_f]; [..|done|].
  - do 2 record. eauto with records.
  - apply (records_branch_value _ _ _ _ _ _ Hs Ho); [congruence|intros _]. record. eauto with records.
  - eauto with records.
  - apply (records_branch_value _ _ _ _ _ _ Hs Hx); [intros _ Hn; rewrite Hn|intros ->; eauto with records].
    record. match goal with He : ext s ?s1, Hs1 : state_ok ?s1, Hx1 : has ?s1 x σ |- _ =>
      assert (number s1 x σ) as N by (apply value_number; [done..|]; by rewrite (ext_is_value _ _ _ He (ok_valid _ _ (proj1 Hx)))) end.
    apply (records_value _ _ _ _ _ N). intros v ->. do 2 record. eauto with records.
  - record. eauto with records.
  - do 3 record. eauto with records.
  - do 9 record. eapply records_bind_operation; [eauto with records..|]. intros b sb He Hsb Hb Hnb. carry.
    eapply records_branch_value; [eauto with records..|congruence|intros _]. record. eauto with records.
  - apply (records_branch_value _ _ _ _ _ _ Hs Hx); [intros _ ->; do 3 record|intros ->; record]; eauto with records.
  - apply (records_branch_value _ _ _ _ _ _ Hs Hx); [intros _ ->; do 3 record|intros ->; do 3 record]; eauto with records.
  - apply (records_branch_value _ _ _ _ _ _ Hs Hx); [intros _ ->; do 3 record|intros ->; record]; eauto with records.
  - record. eauto with records.
Qed.
End Rules.
