(* ===== verification/FnCasWalk.v ===== *)
(** * The walk that differentiates

    [diff_loop] differentiates what is on its stack, in as many rounds as
    [diff_rounds] says, unless it meets a [unit_step] ([visit_all]); its cache of
    derivatives holds derivatives ([df_ok]).  [differentiate_node_ok] and
    [g_new_ok] are about the two operations that use it. *)

From Stdlib Require Import ZArith Lia.
From stdpp Require Import base list sets.
From S2P Require Import Prelude State FnCasArith FnCasNode FnCasDiff FnCasSymbolic.
Open Scope Z_scope.

Import FnCas FnCasNode FnCasDiff.

Section Walk.
Context {D Sem : Type} `{Arithmetic D, !Algebra D Sem, !AlgebraSound D Sem}.
Implicit Types (s : @internals_impl D) (i : Z) (σ τ : Sem).

(** ** The cache of derivatives *)

(** Every entry of the cache means the derivative. *)
Definition df_ok s : Prop := ∀ (var : nat) row (i : nat) d, df_ s !! var = Some row → row !! i = Some d → d ≠ -1 →
  valid (node_vector_ s) (Z.of_nat i) ∧ differentiable (node_vector_ s) (Z.of_nat i) = true ∧
  has s d (dsem (node_vector_ s) var (Z.of_nat i)).

Record diff_ok (var : nat) s : Prop := {
  diff_state : state_ok s;
  diff_df : df_ok s;
  diff_row : is_Some (df_ s !! var);
}.

Definition known s (var : nat) i : Prop := ∃ row d, df_ s !! var = Some row ∧ row !! Z.to_nat i = Some d ∧ d ≠ -1.

(** A step of the walk: the state is extended and nothing known is forgotten. *)
Record walks (var : nat) s s' : Prop := {
  walk_ext : ext s s';
  walk_known i : known s var i → known s' var i;
  walk_length : length (df_ s') = length (df_ s);
}.

Global Instance walks_preorder var : PreOrder (walks var).
Proof.
  split; [by split|]. intros s1 s2 s3 [E1 K1 L1] [E2 K2 L2]. split; [by etrans|auto|congruence].
Qed.

Lemma df_ok_ext s s' : state_ok s → state_ok s' → ext s s' → df_ s' = df_ s → df_ok s → df_ok s'.
Proof.
  intros Hs Hs' He Hdf Hd var row i d Hrow Hi Hne. rewrite Hdf in Hrow. destruct (Hd _ _ _ _ Hrow Hi Hne) as (Hv & Hdiff & Hh).
  split; [|split; [by rewrite (ext_differentiable s s')|rewrite (ext_dsem s s') by done; by apply (has_ext s s')]].
  pose proof (ext_length _ _ He). destruct Hv. split; lia.
Qed.

Lemma df_access_ok var i s : diff_ok var s → ok_index s i → ∃ d s', df_access var i s = (Ok d, s') ∧
  walks var s s' ∧ diff_ok var s' ∧ (d ≠ -1 → differentiable (node_vector_ s') i = true ∧ has s' d (dsem (node_vector_ s') var i)) ∧ (known s var i → d ≠ -1) ∧ (d ≠ -1 → known s' var i).
Proof.
  intros [Hs Hd [row Hrow]] [Hi [H0 _]]. unfold df_access. rewrite Hrow. eexists _, _. split; [done|].
  assert (var < length (df_ s))%nat as Hlt by by eapply lookup_lt_Some.
  set (s' := set_df _ s). assert (∀ v, df_ s' !! v = if decide (v = var) then Some (grow row i (-1)) else df_ s !! v) as Hlook.
  { intros v. cbn. case_decide; subst; [by apply list_lookup_insert_eq|by apply list_lookup_insert_ne]. }
  assert (∀ (k : nat) d, grow row i (-1) !! k = Some d → d ≠ -1 → row !! k = Some d) as Hgrow.
  { intros k d Hk Hne. rewrite <- (Nat2Z.id k) in Hk. apply grow_lookup_inv in Hk as [|[_ ?]]; [by rewrite Nat2Z.id in *|done]. }
  assert (df_ok s') as Hd'.
  { intros v row' k d. rewrite Hlook. case_decide; subst; [|apply Hd]. intros [= <-] Hk Hne.
    apply (Hd var row); [done|by apply Hgrow|done]. }
  assert (is_Some (grow row i (-1) !! Z.to_nat i)) as [d Hdi] by by apply lookup_lt_is_Some_2, grow_length.
  rewrite (grown_Some _ _ _ _ Hdi). split_and!.
  - split; [by split; [intros k n ?; exists n|..]| |cbn; by rewrite length_insert].
    intros k (row' & e & Hr & He & Hne). rewrite Hrow in Hr. simplify_eq. exists (grow row' i (-1)), e.
    split_and!; [by rewrite Hlook, decide_True|by apply grow_lookup|done].
  - split; [by destruct Hs as [[] ]; split; [split|]|done|]. rewrite Hlook, decide_True by done. done.
  - intros Hne. destruct (Hd var row (Z.to_nat i) d Hrow) as [_ Hh]; [by apply Hgrow|done|]. by rewrite Z2Nat.id in Hh.
  - intros (row' & e & Hr & He & Hne). rewrite Hrow in Hr. simplify_eq.
    apply (grow_lookup _ i _ (-1)) in He; [|done]. by rewrite Hdi in He; simplify_eq.
  - intros Hne. exists (grow row i (-1)), d. split_and!; [by rewrite Hlook, decide_True|done|done].
Qed.

Lemma df_assign_ok var i d s : diff_ok var s → ok_index s i → differentiable (node_vector_ s) i = true → d ≠ -1 → has s d (dsem (node_vector_ s) var i) → ∃ s',
  df_assign var i d s = (Ok (), s') ∧ walks var s s' ∧ diff_ok var s' ∧ known s' var i.
Proof.
  intros [Hs Hd [row Hrow]] [Hi [H0 Hi']] Hdiff Hne Hh. unfold df_assign. rewrite Hrow. eexists. split; [done|].
  assert (var < length (df_ s))%nat as Hlt by by eapply lookup_lt_Some.
  set (s' := set_df _ s). assert (∀ v, df_ s' !! v = if decide (v = var) then Some (grow_set row i (-1) d) else df_ s !! v) as Hlook.
  { intros v. cbn. case_decide; subst; [by apply list_lookup_insert_eq|by apply list_lookup_insert_ne]. }
  assert (∀ k : nat, grow_set row i (-1) d !! k = if bool_decide (i = Z.of_nat k) then Some d else grow row i (-1) !! k) as Hset.
  { intros k. rewrite <- (Nat2Z.id k) at 1. rewrite grow_set_lookup by lia. by rewrite Nat2Z.id. }
  assert (∀ (k : nat) e, grow row i (-1) !! k = Some e → e ≠ -1 → row !! k = Some e) as Hgrow.
  { intros k e Hk Hne'. rewrite <- (Nat2Z.id k) in Hk. apply grow_lookup_inv in Hk as [|[_ ?]]; [by rewrite Nat2Z.id in *|done]. }
  split_and!.
  - split; [by split; [intros k n ?; exists n|..]| |cbn; by rewrite length_insert].
    intros k (row' & e & Hr & He & Hne'). rewrite Hrow in Hr. simplify_eq. unfold known. rewrite Hlook, decide_True by done.
    exists (grow_set row' i (-1) d). rewrite Hset. case_bool_decide; [by exists d|].
    exists e. split_and!; [done|by apply grow_lookup|done].
  - split; [by destruct Hs as [[] ]; split; [split|]| |rewrite Hlook, decide_True; done].
    intros v row' k e. rewrite Hlook. case_decide; subst; [|apply Hd]. intros [= <-]. rewrite Hset.
    case_bool_decide; subst; [intros [= <-] _; done|]. intros Hk Hne'. apply (Hd var row); [done|by apply Hgrow|done].
  - exists (grow_set row i (-1) d), d. rewrite Hlook, decide_True, Hset by done. split_and!; [done| |done].
    rewrite bool_decide_true; [done|lia].
Qed.

(** ** The walk *)

Lemma walks_ok_index var s s' i : walks var s s' → ok_index s i → ok_index s' i.
Proof. intros [He _ _]. by eapply ext_index. Qed.

Lemma walks_has var s s' i σ : diff_ok var s → diff_ok var s' → walks var s s' → has s i σ → has s' i σ.
Proof. intros [] [] [He _ _]. by apply has_ext. Qed.

Lemma recorded_walks var s s' : diff_ok var s → ext s s' → state_ok s' → df_ s' = df_ s → walks var s s' ∧ diff_ok var s'.
Proof.
  intros [Hs Hd Hr] He Hs' Hdf. split; split; [done| |by rewrite Hdf|done|by apply (df_ok_ext s s')|by rewrite Hdf].
  unfold known. by rewrite Hdf.
Qed.

Lemma has_not_minus_one s i σ : state_ok s → has s i σ → i ≠ -1.
Proof. intros Hs [[] _]. pose proof (graph_dim _ _ (state_graph _ Hs)). lia. Qed.

Lemma ok_child s i n c : state_ok s → ok_index s i → node_vector_ s !! Z.to_nat i = Some n → c ∈ children n → ok_index s c ∧ 0 ≤ c < i.
Proof.
  intros Hs [Hd Hv] Hn Hc. destruct (valid_child _ _ _ _ _ (state_graph _ Hs) Hv Hn Hc) as [Hvc ?].
  pose proof (graph_dim _ _ (state_graph _ Hs)). split; [split; [lia|done]|lia].
Qed.

Lemma assert_true s : assert true s = (Ok (), s).
Proof. done. Qed.

(** An entry that is known, read. *)
Lemma df_access_known var i s : diff_ok var s → ok_index s i → known s var i → ∃ d s', df_access var i s = (Ok d, s') ∧
  walks var s s' ∧ diff_ok var s' ∧ differentiable (node_vector_ s') i = true ∧ has s' d (dsem (node_vector_ s') var i) ∧ (d =? -1) = false.
Proof.
  intros Hs Hi Hk. destruct (df_access_ok var i s Hs Hi) as (d & s' & E & Hw & Hs' & Hh & Hne & _). exists d, s'.
  destruct (Hh (Hne Hk)) as [Hdiff Hd]. split_and!; [done..|by apply Z.eqb_neq, Hne].
Qed.

(** What a rule records is noted. *)
Lemma leave_assign var s i n (m : io (@internals_impl D) fncas_exception Z) :
  diff_ok var s → ok_index s i → node_vector_ s !! Z.to_nat i = Some n →
  differentiable (node_vector_ s) i = true →
  records m s (dsem_of (node_vector_ s) var (table (dsem_of (node_vector_ s) var) (node_vector_ s)) n) →
  ∃ s', (d ← m; df_assign var i d) s = (Ok (), s') ∧ walks var s s' ∧ diff_ok var s' ∧ known s' var i.
Proof.
  intros Hs Hi Hn Hdiff (d & s1 & E1 & He1 & Hs1 & Hd1 & Hd). rewrite (io_bind_ok _ _ _ _ _ E1).
  destruct (recorded_walks var s s1 Hs He1 Hs1 Hd1) as [W1 Hs1'].
  destruct (df_assign_ok var i d s1 Hs1') as (s2 & E2 & W2 & Hs2 & K2).
  - by eapply walks_ok_index.
  - by rewrite (ext_differentiable s s1); [|apply Hs|done|done|apply ok_valid].
  - by eapply has_not_minus_one.
  - rewrite (ext_dsem s s1); [|apply Hs|done|done|by apply ok_valid].
    by rewrite (dsem_node _ _ var i n (state_graph _ (diff_state _ _ Hs)) (ok_valid _ _ Hi) Hn).
  - exists s2. split_and!; [done| |done|done]. by etrans.
Qed.

Lemma leave_operation var i s op a b : diff_ok var s → ok_index s i → node_vector_ s !! Z.to_nat i = Some (operation_node op a b) →
  known s var a → known s var b → ∃ s', diff_leave var i s = (Ok (), s') ∧ walks var s s' ∧ diff_ok var s' ∧ known s' var i.
Proof.
  intros Hs Hi Hn Ka Kb. unfold diff_leave.
  destruct (ok_node s i Hi) as (n & Hn' & En). rewrite Hn in Hn'. injection Hn' as <-. rewrite (io_bind_ok _ _ _ _ _ En).
  destruct (ok_child s i _ a (diff_state _ _ Hs) Hi Hn) as [Ha _]; [set_solver|].
  destruct (ok_child s i _ b (diff_state _ _ Hs) Hi Hn) as [Hb _]; [set_solver|].
  destruct (df_access_known var a s Hs Ha Ka) as (da & s1 & E1 & W1 & Hs1 & Fa & Hda & Na). rewrite (io_bind_ok _ _ _ _ _ E1).
  destruct (df_access_known var b s1 Hs1) as (db & s2 & E2 & W2 & Hs2 & Fb & Hdb & Nb);
    [by eapply walks_ok_index|by eapply walk_known|]. rewrite (io_bind_ok _ _ _ _ _ E2), Na, Nb. cbn [negb].
  assert (walks var s s2) as W by by etrans. rewrite !(io_bind_ok _ _ _ _ _ (assert_true s2)).
  destruct (ext_nodes _ _ (walk_ext _ _ _ W) _ _ Hn) as (n2 & Hn2 & Hsim). destruct n2; try discriminate Hsim. injection Hsim as <- <- <-.
  destruct (leave_assign var s2 i _ (d_op op a b da db) Hs2 (walks_ok_index _ _ _ _ W Hi) Hn2) as (s3 & E3 & W3 & ?).
  - rewrite (differentiable_node _ _ i _ (state_graph _ (diff_state _ _ Hs2)) (ok_valid _ _ (walks_ok_index _ _ _ _ W Hi)) Hn2).
    apply andb_true_intro. split; [|exact Fb]. etrans; [|exact Fa]. apply (ext_differentiable s1 s2); [apply Hs1|apply Hs2|apply W2|].
    apply ok_valid. by eapply walks_ok_index.
  - cbn [dsem_of]. apply d_op_ok; [apply Hs2|split; [by eapply walks_ok_index|done]..| |done].
    fold (dsem (node_vector_ s2) var a). rewrite (ext_dsem s1 s2); [by apply (walks_has var s1 s2)|apply Hs1|apply Hs2|by apply walk_ext in W2|].
    eapply ok_valid, walks_ok_index; [exact W1|done].
  - exists s3. split; [done|]. split; [by etrans|done].
Qed.

Lemma leave_function var i s f c : diff_ok var s → ok_index s i → node_vector_ s !! Z.to_nat i = Some (function_node f c) →
  known s var c → ∃ s', diff_leave var i s = (if bool_decide (f = unit_step) then Throw FnCASZeroOrOneIsNonDifferentiable else Ok (), s') ∧
    walks var s s' ∧ diff_ok var s' ∧ (f ≠ unit_step → known s' var i).
Proof.
  intros Hs Hi Hn Kc. unfold diff_leave.
  destruct (ok_node s i Hi) as (n & Hn' & En). rewrite Hn in Hn'. injection Hn' as <-. rewrite (io_bind_ok _ _ _ _ _ En).
  destruct (ok_child s i _ c (diff_state _ _ Hs) Hi Hn) as [Hc _]; [set_solver|].
  destruct (df_access_known var c s Hs Hc Kc) as (dc & s1 & E1 & W1 & Hs1 & Fc & Hdc & Nc). rewrite (io_bind_ok _ _ _ _ _ E1), Nc. cbn [negb].
  rewrite !(io_bind_ok _ _ _ _ _ (assert_true s1)). case_bool_decide as Hf; [subst; by exists s1|].
  destruct (ext_nodes _ _ (walk_ext _ _ _ W1) _ _ Hn) as (n1 & Hn1 & Hsim). destruct n1; try discriminate Hsim. injection Hsim as <- <-.
  destruct (leave_assign var s1 i _ (d_f f i c dc) Hs1 (walks_ok_index _ _ _ _ W1 Hi) Hn1) as (s2 & E2 & W2 & ? & ?).
  - rewrite (differentiable_node _ _ i _ (state_graph _ (diff_state _ _ Hs1)) (ok_valid _ _ (walks_ok_index _ _ _ _ W1 Hi)) Hn1).
    apply andb_true_intro. by rewrite bool_decide_false.
  - cbn [dsem_of]. apply d_f_ok; [apply Hs1| |split; [by eapply walks_ok_index|done]|done|done|by rewrite Hn1].
    split; [by eapply walks_ok_index|].
    by rewrite (sem_node _ _ i _ (state_graph _ (diff_state _ _ Hs1)) (ok_valid _ _ (walks_ok_index _ _ _ _ W1 Hi)) Hn1).
  - exists s2. split; [done|]. split_and!; [by etrans|done|done].
Qed.

Section Visit.
Context (var : nat) (zero_index one_index : Z).

Record walking s : Prop := {
  walking_diff : diff_ok var s;
  walking_zero : has s zero_index s_zero;
  walking_one : has s one_index s_one;
}.

Lemma walking_walks s s' : walking s → diff_ok var s' → walks var s s' → walking s'.
Proof. intros [] Hs' Hw. split; [done|by apply (walks_has var s s')..]. Qed.

Local Abbreviation loop fuel st := (diff_loop fuel var zero_index one_index st).

(** The result of taking a node from the stack: all of it is differentiated, or the exception is thrown. *)
Definition visited i s : Prop := ∃ s', walks var s s' ∧ diff_ok var s' ∧
  if differentiable (node_vector_ s) i
  then (∀ fuel st, loop (diff_rounds (node_vector_ s) i + fuel)%nat (i :: st) s = loop fuel st s') ∧ known s' var i
  else ∀ fuel st, loop (diff_rounds (node_vector_ s) i + fuel)%nat (i :: st) s = (Throw FnCASZeroOrOneIsNonDifferentiable, s').

Lemma loop_enter fuel i st s : ok_index s i → walking s →
  loop (S fuel) (i :: st) s = (pushed ← diff_enter var zero_index one_index i; loop fuel (pushed ++ st)) s.
Proof.
  intros [Hd [H0 _]] _. cbn [diff_loop]. by rewrite lnot_lt.
Qed.

Lemma loop_leave fuel i st s : ok_index s i →
  loop (S fuel) (Z.lnot i :: st) s = (_ ← diff_leave var i; loop fuel st) s.
Proof. intros [Hd [H0 _]]. cbn [diff_loop]. by rewrite lnot_lnot_lt, Z.lnot_involutive. Qed.

Lemma visit_leaf i s n : walking s → ok_index s i → node_vector_ s !! Z.to_nat i = Some n → children n = [] → visited i s.
Proof.
  intros Hw Hi Hn Hc. pose proof (walking_diff _ Hw) as Hs. pose proof (diff_state _ _ Hs) as Hok.
  pose proof (state_graph _ Hok) as Hg. pose proof (ok_valid _ _ Hi) as Hv.
  destruct (ok_node s i Hi) as (n' & Hn' & En). rewrite Hn in Hn'. injection Hn' as <-.
  set (d := match n with variable_node v => if v =? Z.of_nat var then one_index else zero_index | _ => zero_index end).
  assert (has s d (dsem (node_vector_ s) var i)) as Hd.
  { rewrite (dsem_node _ _ var i n Hg Hv Hn). subst d. destruct n; try done; cbn; [case_match|]; apply Hw. }
  destruct (df_assign_ok var i d s Hs Hi) as (s' & E & W & Hs' & K);
    [rewrite (differentiable_node _ _ i n Hg Hv Hn); by destruct n|by eapply has_not_minus_one|done|].
  exists s'. split_and!; [done..|]. rewrite (differentiable_node _ _ i n Hg Hv Hn), (rounds_node _ _ i n Hg Hv Hn).
  destruct n; try done; cbn [differentiable_of rounds_of]; (split; [|done]); intros fuel st; cbn [Nat.add];
    rewrite loop_enter by done; unfold diff_enter; unfold mbind, io_bind; rewrite En; fold d; rewrite E; done.
Qed.

Lemma loop_enter_children fuel i st s n : ok_index s i → walking s → node_vector_ s !! Z.to_nat i = Some n → children n ≠ [] →
  loop (S fuel) (i :: st) s = loop fuel (reverse (children n) ++ Z.lnot i :: st) s.
Proof.
  intros Hi Hw Hn Hc. rewrite loop_enter by done. unfold diff_enter, mbind, io_bind.
  destruct (ok_node s i Hi) as (n' & Hn' & ->). rewrite Hn in Hn'. injection Hn' as <-. by destruct n.
Qed.

(** Nodes on top of the stack, visited one after the other. *)
Lemma visit_next c s s' : (∀ s, walking s → ok_index s c → visited c s) → walking s → ok_index s c →
  diff_ok var s' → walks var s s' → ∃ s'', walks var s s'' ∧ walks var s' s'' ∧ diff_ok var s'' ∧
  if differentiable (node_vector_ s) c
  then (∀ fuel st, loop (diff_rounds (node_vector_ s) c + fuel)%nat (c :: st) s' = loop fuel st s'') ∧ known s'' var c
  else ∀ fuel st, loop (diff_rounds (node_vector_ s) c + fuel)%nat (c :: st) s' = (Throw FnCASZeroOrOneIsNonDifferentiable, s'').
Proof.
  intros IH Hw Hc Hs' W. destruct (IH s') as (s'' & W' & Hs'' & HR); [by eapply walking_walks|by eapply walks_ok_index|].
  exists s''. split_and!; [by etrans|done..|].
  pose proof (diff_state _ _ (walking_diff _ Hw)) as Hok. pose proof (diff_state _ _ Hs') as Hok'.
  rewrite (ext_differentiable s s'), (ext_rounds s s') in HR by (done || apply W || by apply ok_valid). done.
Qed.

Lemma visit_all i : 0 ≤ i → ∀ s, walking s → ok_index s i → visited i s.
Proof.
  revert i. refine (Zlt_0_ind _ _). intros i IH H0 s Hw Hi.
  pose proof (walking_diff _ Hw) as Hs. pose proof (diff_state _ _ Hs) as Hok.
  pose proof (state_graph _ Hok) as Hg. pose proof (ok_valid _ _ Hi) as Hv.
  destruct (ok_node s i Hi) as (n & Hn & _). pose proof (λ c, ok_child s i n c Hok Hi Hn) as Hc.
  pose proof (λ fuel st, loop_enter_children fuel i st s n Hi Hw Hn) as Henter.
  pose proof (differentiable_node _ _ i n Hg Hv Hn) as Hdiff. pose proof (rounds_node _ _ i n Hg Hv Hn) as Hrounds.
  destruct n as [v|v|op l r|f c]; [by eapply visit_leaf..| |]; unfold visited; rewrite Hdiff, Hrounds; clear Hdiff Hrounds; cbn [children differentiable_of rounds_of] in *;
    unfold differentiable, diff_rounds in *.
  - destruct (Hc r) as [Hr Hri]; [set_solver|]. destruct (Hc l) as [Hl Hli]; [set_solver|].
    destruct (visit_next r s s (IH r Hri) Hw Hr Hs ltac:(done)) as (s1 & W1 & _ & Hs1 & R1). unfold differentiable, diff_rounds in R1.
    destruct (entry_at true (table differentiable_of _) r); [destruct R1 as [R1 K1]|].
    2: { rewrite andb_false_r. exists s1. split_and!; [done..|]. intros fuel st. cbn [Nat.add]. rewrite Henter by done.
         cbn [reverse rev_append app]. rewrite <- (R1 (entry_at 0%nat (table rounds_of (node_vector_ s)) l + S fuel)%nat (l :: Z.lnot i :: st)).
         f_equal. lia. }
    destruct (visit_next l s s1 (IH l Hli) Hw Hl Hs1 W1) as (s2 & W2 & W12 & Hs2 & R2). unfold differentiable, diff_rounds in R2.
    rewrite andb_true_r. destruct (entry_at true (table differentiable_of _) l); [destruct R2 as [R2 K2]|].
    2: { exists s2. split_and!; [done..|]. intros fuel st. cbn [Nat.add]. rewrite Henter by done. cbn [reverse rev_append app].
         rewrite <- (R2 (S fuel) (Z.lnot i :: st)), <- R1. f_equal. lia. }
    destruct (ext_nodes _ _ (walk_ext _ _ _ W2) _ _ Hn) as (n2 & Hn2 & Hsim). destruct n2; try discriminate Hsim. injection Hsim as <- <- <-.
    destruct (leave_operation var i s2 op l r Hs2 (walks_ok_index _ _ _ _ W2 Hi) Hn2) as (s3 & E3 & W3 & Hs3 & K3);
      [done|by apply (walk_known _ _ _ W12)|].
    exists s3. split_and!; [by etrans|done| |done]. intros fuel st. cbn [Nat.add]. rewrite Henter by done. cbn [reverse rev_append app].
    transitivity (loop (S fuel) (Z.lnot i :: st) s2); [rewrite <- (R2 (S fuel)), <- R1; f_equal; lia|].
    rewrite (loop_leave _ _ _ _ (walks_ok_index _ _ _ _ W2 Hi)). by rewrite (io_bind_ok _ _ _ _ _ E3).
  - destruct (Hc c) as [Hcc Hci]; [set_solver|].
    destruct (visit_next c s s (IH c Hci) Hw Hcc Hs ltac:(done)) as (s1 & W1 & _ & Hs1 & R1). unfold differentiable, diff_rounds in R1.
    destruct (entry_at true (table differentiable_of _) c); [destruct R1 as [R1 K1]|].
    2: { rewrite andb_false_r. exists s1. split_and!; [done..|]. intros fuel st. cbn [Nat.add]. rewrite Henter by done.
         cbn [reverse rev_append app]. rewrite <- (R1 (S fuel) (Z.lnot i :: st)). f_equal. lia. }
    rewrite andb_true_r.
    destruct (ext_nodes _ _ (walk_ext _ _ _ W1) _ _ Hn) as (n1 & Hn1 & Hsim). destruct n1; try discriminate Hsim. injection Hsim as <- <-.
    destruct (leave_function var i s1 f c Hs1 (walks_ok_index _ _ _ _ W1 Hi) Hn1 K1) as (s2 & E2 & W2 & Hs2 & K2).
    assert (∀ fuel st, loop (2 + entry_at 0 (table rounds_of (node_vector_ s)) c + fuel)%nat (i :: st) s = (_ ← diff_leave var i; loop fuel st) s1) as Hloop.
    { intros fuel st. cbn [Nat.add]. rewrite Henter by done. cbn [reverse rev_append app].
      transitivity (loop (S fuel) (Z.lnot i :: st) s1); [rewrite <- (R1 (S fuel)); f_equal; lia|].
      by rewrite (loop_leave _ _ _ _ (walks_ok_index _ _ _ _ W1 Hi)). }
    exists s2. split_and!; [by etrans|done|]. case_bool_decide; cbn [negb].
    + intros fuel st. rewrite Hloop. by rewrite (io_bind_throw _ _ _ _ _ E2).
    + split; [|by apply K2]. intros fuel st. rewrite Hloop. by rewrite (io_bind_ok _ _ _ _ _ E2).
Qed.
End Visit.

(** ** Differentiating a node *)

(** What holds between calls. *)
Record recorded s : Prop := {
  recorded_state : state_ok s;
  recorded_df : df_ok s;
  recorded_rows : df_ s = [] ∨ length (df_ s) = Z.to_nat (dim_ s);
}.

Lemma walks_recorded var s s' : recorded s → length (df_ s) = Z.to_nat (dim_ s) → walks var s s' → diff_ok var s' → recorded s'.
Proof. intros [] Hl [He _ Hl'] []. split; [done..|right]. by rewrite Hl', (ext_dim _ _ He). Qed.

(** The walk from the root, once the two constants are there. *)
Lemma diff_run_ok var index s : diff_ok var s → ok_index s index → ∃ s', walks var s s' ∧ diff_ok var s' ∧
  if differentiable (node_vector_ s) index then diff_run var index s = (Ok (), s') ∧ known s' var index
  else diff_run var index s = (Throw FnCASZeroOrOneIsNonDifferentiable, s').
Proof.
  intros Hs Hi. unfold diff_run.
  destruct (records_double s num_zero) as (z & s1 & E1 & He1 & Hs1 & Hd1 & Hz); [apply Hs|destruct Hi as [? []]; lia|].
  destruct (recorded_walks var s s1 Hs He1 Hs1 Hd1) as [W1 D1]. rewrite (io_bind_ok _ _ _ _ _ E1).
  destruct (records_double s1 num_one) as (o & s2 & E2 & He2 & Hs2 & Hd2 & Ho); [done|by eapply has_dim|].
  destruct (recorded_walks var s1 s2 D1 He2 Hs2 Hd2) as [W2 D2]. rewrite (io_bind_ok _ _ _ _ _ E2).
  assert (walks var s s2) as W by by etrans. assert (ok_index s2 index) as Hi2 by by eapply walks_ok_index.
  destruct (visit_all var z o index) with (s := s2) as (s3 & W3 & D3 & R3);
    [apply Hi|split; [done|by apply (has_ext s1 s2)|done]|done|].
  rewrite (ext_differentiable s s2) in R3; [|apply Hs|done|apply W|by apply ok_valid].
  exists s3. split_and!; [by etrans|done|]. unfold diff_from.
  destruct (differentiable _ _); [destruct R3 as [R3 K3]; split; [|done]|];
    specialize (R3 0%nat []); rewrite Nat.add_0_r in R3; done.
Qed.

Lemma resize_df_ok s : recorded s → ∃ s', resize_df (Z.to_nat (dim_ s)) s = (Ok (), s') ∧
  recorded s' ∧ length (df_ s') = Z.to_nat (dim_ s) ∧ ext s s' ∧ node_vector_ s' = node_vector_ s.
Proof.
  intros [Hs Hd Hr]. eexists. split; [done|]. case_bool_decide as Hnil.
  - assert (length (df_ (set_df (replicate (Z.to_nat (dim_ s)) []) s)) = Z.to_nat (dim_ s)) as Hlen by (cbn; apply length_replicate).
    split_and!; [|done|by split; [intros i n ?; exists n|..]|done].
    split; [by destruct Hs as [[] ]; split; [split|]| |by right].
    intros var row i d [-> _]%lookup_replicate Hi. by rewrite lookup_nil in Hi.
  - destruct Hr as [|Hr]; [done|]. split_and!; [by split; auto|done|reflexivity|done].
Qed.

Lemma differentiate_node_ok var index s : recorded s → ok_index s index → (var < Z.to_nat (dim_ s))%nat → ∃ s', ext s s' ∧ recorded s' ∧
  if differentiable (node_vector_ s) index
  then ∃ j, differentiate_node index var (Z.to_nat (dim_ s)) s = (Ok j, s') ∧ has s' j (dsem (node_vector_ s') var index)
  else differentiate_node index var (Z.to_nat (dim_ s)) s = (Throw FnCASZeroOrOneIsNonDifferentiable, s').
Proof.
  intros Hs Hi Hvar. unfold differentiate_node. rewrite (proj2 (Nat.ltb_lt _ _) Hvar), (io_bind_ok _ _ _ _ _ (assert_true s)).
  destruct (resize_df_ok s Hs) as (s0 & E0 & Hs0 & Hlen & He0 & Hnodes). rewrite (io_bind_ok _ _ _ _ _ E0), <- Hnodes.
  assert (∀ A (f : () → io _ fncas_exception A), ((λ s, assert (length (df_ s) =? Z.to_nat (dim_ s0))%nat s) ≫= f) s0 = f () s0) as Hassert.
  { intros A f. unfold mbind, io_bind. by rewrite (ext_dim _ _ He0), Hlen, Nat.eqb_refl. }
  rewrite <- (ext_dim _ _ He0) in *. rewrite Hassert.
  assert (diff_ok var s0) as D0. { destruct Hs0. split; [done..|]. apply lookup_lt_is_Some_2. lia. }
  assert (ok_index s0 index) as Hi0 by by eapply ext_index.
  destruct (df_access_ok var index s0 D0 Hi0) as (d & s1 & E1 & W1 & D1 & Hd & Hk & Hk1). rewrite (io_bind_ok _ _ _ _ _ E1).
  assert (ok_index s1 index) as Hi1 by by eapply walks_ok_index.
  assert (differentiable (node_vector_ s1) index = differentiable (node_vector_ s0) index) as Hdiff.
  { apply ext_differentiable; [apply Hs0|apply D1|apply W1|by apply ok_valid]. }
  assert (∃ s2, walks var s1 s2 ∧ diff_ok var s2 ∧ if differentiable (node_vector_ s0) index
    then (if d =? -1 then diff_run var index else mret ()) s1 = (Ok (), s2) ∧ known s2 var index
    else (if d =? -1 then diff_run var index else mret ()) s1 = (Throw FnCASZeroOrOneIsNonDifferentiable, s2)) as (s2 & W2 & D2 & R2).
  { destruct (Z.eqb_spec d (-1)) as [->|Hne]; [rewrite <- Hdiff; by apply diff_run_ok|].
    destruct (Hd Hne) as [Hf _]. rewrite <- Hdiff, Hf. exists s1. split_and!; [done..|by apply Hk1]. }
  assert (walks var s0 s2) as W by by etrans. destruct (differentiable (node_vector_ s0) index).
  - destruct R2 as [R2 K2]. rewrite (io_bind_ok _ _ _ _ _ R2).
    destruct (df_access_known var index s2 D2) as (j & s3 & E3 & W3 & D3 & _ & Hj & Nj); [by eapply walks_ok_index|done|].
    rewrite (io_bind_ok _ _ _ _ _ E3), Nj. cbn [negb]. rewrite (io_bind_ok _ _ _ _ _ (assert_true s3)).
    assert (walks var s0 s3) as W' by by etrans. exists s3. split_and!; [etrans; [exact He0|apply W']|by eapply walks_recorded|by exists j].
  - rewrite (io_bind_throw _ _ _ _ _ R2). exists s2. split_and!; [etrans; [exact He0|apply W]|by eapply walks_recorded|done].
Qed.

(** ** The gradient *)

Lemma differentiate_ok x_ref var index s : recorded s → ok_index s index → x_ptr_ s = Some x_ref → (var < Z.to_nat (dim_ s))%nat →
  ∃ s', ext s s' ∧ recorded s' ∧
  if differentiable (node_vector_ s) index
  then ∃ j, differentiate x_ref index var s = (Ok j, s') ∧ has s' j (dsem (node_vector_ s') var index)
  else differentiate x_ref index var s = (Throw FnCASZeroOrOneIsNonDifferentiable, s').
Proof.
  intros Hs Hi Hx Hvar. unfold differentiate. rewrite (bool_decide_true (x_ptr_ s = Some x_ref)) by done.
  rewrite (proj2 (Z.ltb_lt (Z.of_nat var) (dim_ s))) by lia. rewrite !(io_bind_ok _ _ _ _ _ (assert_true s)).
  by apply differentiate_node_ok.
Qed.

Lemma differentiate_all_ok x_ref f k n s : recorded s → ok_index s f → x_ptr_ s = Some x_ref → (k + n ≤ Z.to_nat (dim_ s))%nat →
  differentiable (node_vector_ s) f = true →
  ∃ gs s', differentiate_all x_ref f k n s = (Ok gs, s') ∧ ext s s' ∧ recorded s' ∧ length gs = n ∧
    ∀ (i : nat) g, gs !! i = Some g → has s' g (dsem (node_vector_ s') (k + i)%nat f).
Proof.
  revert k s. induction n as [|n IH]; intros k s Hs Hf Hx Hk Hdiff; cbn [differentiate_all].
  { exists [], s. split_and!; [done|reflexivity|done|done|]. intros i g. by rewrite lookup_nil. }
  destruct (differentiate_ok x_ref k f s Hs Hf Hx) as (s1 & He1 & Hs1 & R1); [lia|]. rewrite Hdiff in R1.
  destruct R1 as (g & E1 & Hg). rewrite (io_bind_ok _ _ _ _ _ E1).
  pose proof (ext_index _ _ _ He1 Hf) as Hf1.
  destruct (IH (S k) s1 Hs1 Hf1) as (gs & s2 & E2 & He2 & Hs2 & Hlen & Hgs).
  { by rewrite (ext_x _ _ He1). } { rewrite (ext_dim _ _ He1). lia. }
  { rewrite (ext_differentiable s s1); [done|apply Hs|apply Hs1|done|by apply ok_valid]. }
  rewrite (io_bind_ok _ _ _ _ _ E2). exists (g :: gs), s2. split_and!; [done|by etrans|done|cbn; by rewrite Hlen|].
  intros [|i] g' Hg'; cbn in Hg'.
  - injection Hg' as <-. rewrite Nat.add_0_r, (ext_dsem s1 s2); [|apply Hs1|apply Hs2|done|by apply ok_valid].
    apply (has_ext s1 s2); [apply Hs1|apply Hs2|done|done].
  - rewrite Nat.add_succ_r. by apply Hgs.
Qed.

Lemma g_new_ok x_ref f s : recorded s → ok_index s f → x_ptr_ s = Some x_ref → differentiable (node_vector_ s) f = true →
  ∃ gs s', g_new x_ref f s = (Ok (mkG f gs), s') ∧ ext s s' ∧ recorded s' ∧ length gs = Z.to_nat (dim_ s) ∧
    ∀ (i : nat) g, gs !! i = Some g → has s' g (dsem (node_vector_ s') i f).
Proof.
  intros Hs Hf Hx Hdiff. unfold g_new. rewrite (bool_decide_true (x_ptr_ s = Some x_ref)) by done.
  rewrite (io_bind_ok _ _ _ _ _ (assert_true s)).
  destruct (resize_V_ok (Z.to_nat (dim_ s)) s (recorded_state _ Hs)) as (vs & s1 & E1 & He1 & Hs1 & Hd1 & _). rewrite (io_bind_ok _ _ _ _ _ E1).
  assert (recorded s1) as Hr1.
  { destruct Hs as [Hs Hd Hr]. split; [done|by apply (df_ok_ext s s1)|]. by rewrite Hd1, (ext_dim _ _ He1). }
  destruct (differentiate_all_ok x_ref f 0 (Z.to_nat (dim_ s)) s1 Hr1) as (gs & s2 & E2 & He2 & Hs2 & Hlen & Hgs).
  { by eapply ext_index. } { by rewrite (ext_x _ _ He1). } { rewrite (ext_dim _ _ He1). lia. }
  { rewrite (ext_differentiable s s1); [done|apply Hs|done|done|by apply ok_valid]. }
  rewrite (io_bind_ok _ _ _ _ _ E2). exists gs, s2. split_and!; [done|by etrans|done..].
Qed.
End Walk.

(** ** Recorded functions

    A function that a user gives to the library is C++ code that is run twice: on
    numbers, and on [V]s, where the overloaded operators record it.  It cannot
    look at the values of [V]s, so what it does is the sequence of its operations;
    a [program] is such a sequence, each operation on variables and results
    before.  [record_program] runs it on [V]s, [run_program] on numbers. *)

Section Program.
Context {D : Type} `{Arithmetic D}.
Implicit Type s : @internals_impl D.
Local Abbreviation recording := (io (@internals_impl D) fncas_exception).

Inductive instruction :=
| Constant (v : D)
| Operation (o : MathOperation) (a b : nat)
| Function (f : MathFunction) (a : nat).

Definition program := list instruction.

(** The arguments of an instruction are among [n] values. *)
Definition instruction_ok (n : nat) (ins : instruction) : Prop :=
  match ins with
  | Constant _ => True
  | Operation _ a b => (a < n)%nat ∧ (b < n)%nat
  | Function _ a => (a < n)%nat
  end.

Fixpoint program_ok (n : nat) (p : program) : Prop :=
  match p with [] => True | ins :: p => instruction_ok n ins ∧ program_ok (S n) p end.

Definition record_instruction (env : list Z) (ins : instruction) : recording Z :=
  match ins with
  | Constant v => V_double v
  | Operation o a b => V_operation o (env !!! a) (env !!! b)
  | Function f a => V_function f (env !!! a)
  end.

Fixpoint record_program (env : list Z) (p : program) : recording (list Z) :=
  match p with [] => mret env | ins :: p => v ← record_instruction env ins; record_program (env ++ [v]) p end.

Definition run_instruction (vs : list D) (ins : instruction) : D :=
  match ins with
  | Constant v => v
  | Operation o a b => apply_operation o (default num_zero (vs !! a)) (default num_zero (vs !! b))
  | Function f a => apply_function f (default num_zero (vs !! a))
  end.

(** All the values, the arguments first. *)
Fixpoint run_program (vs : list D) (p : program) : list D :=
  match p with [] => vs | ins :: p => run_program (vs ++ [run_instruction vs ins]) p end.

(** What the function returns: the last value. *)
Definition run (p : program) (x : list D) : D := default num_zero (last (run_program x p)).

Definition record_function (xs : list Z) (p : program) : recording Z :=
  env ← record_program xs p;
  match last env with Some f => mret f | None => throw (Fault DanglingDereference) end.

(** ** The meaning of what is recorded *)

Section Meaning.
Context {Sem : Type} `{!Algebra D Sem, !ConstSound D Sem}.

Definition sem_instruction (vs : list Sem) (ins : instruction) : Sem :=
  match ins with
  | Constant v => s_const v
  | Operation o a b => s_op o (default s_zero (vs !! a)) (default s_zero (vs !! b))
  | Function f a => s_fn f (default s_zero (vs !! a))
  end.

Fixpoint sem_program (vs : list Sem) (p : program) : list Sem :=
  match p with [] => vs | ins :: p => sem_program (vs ++ [sem_instruction vs ins]) p end.

Lemma Forall2_has_ext s s' env σs : state_ok s → state_ok s' → ext s s' → Forall2 (has s) env σs → Forall2 (has s') env σs.
Proof. intros Hs Hs' He HF. eapply Forall2_impl; [exact HF|]. intros i σ. by apply (has_ext s s'). Qed.

Lemma env_has s env σs (a : nat) : Forall2 (has s) env σs → (a < length env)%nat → has s (env !!! a) (default s_zero (σs !! a)).
Proof.
  intros HF Ha. destruct (lookup_lt_is_Some_2 env a Ha) as [i Hi]. destruct (Forall2_lookup_l _ _ _ _ _ HF Hi) as (σ & Hσ & Hh).
  by rewrite (list_lookup_total_correct _ _ _ Hi), Hσ.
Qed.

Lemma record_instruction_ok s env σs ins : state_ok s → dim_ s ≤ Z.of_nat (length (node_vector_ s)) → Forall2 (has s) env σs →
  instruction_ok (length env) ins → records (record_instruction env ins) s (sem_instruction σs ins).
Proof.
  intros Hs Hd HF Hok. destruct ins as [v|o a b|f a]; cbn in *.
  - by apply records_double.
  - destruct Hok. apply records_operation; [done|by apply env_has..].
  - apply records_function; [done|by apply env_has].
Qed.

Lemma records_recorded m s σ : recorded s → records m s σ → ∃ j s', m s = (Ok j, s') ∧ ext s s' ∧ recorded s' ∧ has s' j σ.
Proof.
  intros [Hs Hd Hr] (j & s' & E & He & Hs' & Hdf & Hj). exists j, s'. split_and!; [done..| |done].
  split; [done|by apply (df_ok_ext s s')|]. by rewrite Hdf, (ext_dim _ _ He).
Qed.

Lemma record_program_ok p s env σs : recorded s → dim_ s ≤ Z.of_nat (length (node_vector_ s)) → Forall2 (has s) env σs →
  program_ok (length env) p →
  ∃ env' s', record_program env p s = (Ok env', s') ∧ ext s s' ∧ recorded s' ∧ Forall2 (has s') env' (sem_program σs p).
Proof.
  revert s env σs. induction p as [|ins p IH]; intros s env σs Hs Hd HF Hp; cbn [record_program sem_program].
  { exists env, s. split_and!; [done|reflexivity|done|done]. }
  destruct Hp as [Hins Hp].
  destruct (records_recorded _ _ _ Hs (record_instruction_ok s env σs ins (recorded_state _ Hs) Hd HF Hins)) as (v & s1 & E1 & He1 & Hs1 & Hv).
  rewrite (io_bind_ok _ _ _ _ _ E1).
  destruct (IH s1 (env ++ [v]) (σs ++ [sem_instruction σs ins])) as (env' & s2 & E2 & He2 & Hs2 & HF2); [done|by eapply has_dim| | |].
  - apply Forall2_app; [|by constructor; [|constructor]]. apply (Forall2_has_ext s s1); [apply Hs|apply Hs1|done|done].
  - rewrite length_app. cbn. by rewrite Nat.add_1_r.
  - exists env', s2. split_and!; [done|by etrans|done|done].
Qed.

Lemma sem_program_length (vs : list Sem) p : length (sem_program vs p) = (length vs + length p)%nat.
Proof. revert vs. induction p as [|ins p IH]; intros vs; cbn; [lia|]. rewrite IH, length_app. cbn. lia. Qed.

Lemma record_function_ok p s xs σs : recorded s → dim_ s ≤ Z.of_nat (length (node_vector_ s)) → Forall2 (has s) xs σs →
  program_ok (length xs) p → (0 < length xs)%nat →
  ∃ f s', record_function xs p s = (Ok f, s') ∧ ext s s' ∧ recorded s' ∧ has s' f (default s_zero (last (sem_program σs p))).
Proof.
  intros Hs Hd HF Hp Hlen. destruct (record_program_ok p s xs σs Hs Hd HF Hp) as (env & s1 & E & He & Hs1 & HF1).
  unfold record_function. rewrite (io_bind_ok _ _ _ _ _ E).
  assert (length env ≠ 0)%nat as Hne.
  { rewrite (Forall2_length _ _ _ HF1), sem_program_length, <- (Forall2_length _ _ _ HF). lia. }
  pose proof (Forall2_length _ _ _ HF1) as Hl. rewrite !last_lookup, <- Hl.
  destruct (lookup_lt_is_Some_2 env (pred (length env))) as [f Hf]; [lia|].
  destruct (Forall2_lookup_l _ _ _ _ _ HF1 Hf) as (σ & Hσ & Hh). rewrite Hf, Hσ. by exists f, s1.
Qed.

(** ** A new vector of variables *)

Lemma create_variables_ok k n s : state_ok s → dim_ s ≤ Z.of_nat (length (node_vector_ s)) → 0 ≤ k → k + Z.of_nat n ≤ dim_ s →
  ∃ xs s', create_variables k n s = (Ok xs, s') ∧ ext s s' ∧ state_ok s' ∧ df_ s' = df_ s ∧ (length (node_vector_ s) ≤ length (node_vector_ s'))%nat ∧
    length xs = n ∧ ∀ (i : nat) x, xs !! i = Some x → has s' x (s_var (k + Z.of_nat i)).
Proof.
  revert k s. induction n as [|n IH]; intros k s Hs Hd Hk Hkn; cbn [create_variables].
  { exists [], s. split_and!; [done|reflexivity|done..]. }
  destruct (new_node_ok s (variable_node k) Hs) as (E1 & He1 & Hs1 & _ & Hx); [split; cbn; [set_solver|]; intros v [= <-]; lia|done|].
  cbn [sem_of] in Hx. set (s1 := set_nodes _ s) in *. rewrite (io_bind_ok _ _ _ _ _ E1).
  destruct (IH (k + 1) s1) as (xs & s2 & E2 & He2 & Hs2 & Hd2 & Hl2 & Hlen & Hxs); [done|by eapply has_dim|lia|cbn; lia|].
  rewrite (io_bind_ok _ _ _ _ _ E2). eexists _, s2. split_and!; [done|by etrans|done|done| |cbn; by rewrite Hlen|].
  { pose proof (ext_length _ _ He1). lia. }
  intros [|i] x Hi; cbn in Hi; [injection Hi as <-; rewrite Z.add_0_r; by apply (has_ext s1 s2)|].
  replace (k + Z.of_nat (S i)) with (k + 1 + Z.of_nat i) by lia. by apply Hxs.
Qed.

Lemma X_new_ok this dim s : 0 < dim → x_ptr_ s = None → dim_ s = 0 → ∃ xs s', X_new this dim s = (Ok xs, s') ∧ recorded s' ∧
  dim_ s' = dim ∧ x_ptr_ s' = Some this ∧ dim_ s' ≤ Z.of_nat (length (node_vector_ s')) ∧ length xs = Z.to_nat dim ∧
  Forall2 (has s') xs (s_var <$> seqZ 0 dim).
Proof.
  intros Hd Hx Hd0. unfold X_new. rewrite (proj2 (Z.ltb_lt 0 dim) Hd), (io_bind_ok _ _ _ _ _ (assert_true s)), Hx, Hd0.
  rewrite bool_decide_false by (by intros []). rewrite (io_bind_ok _ _ _ _ _ (assert_true s)).
  set (s0 := set_x dim (Some this) (FnCasNode.reset s)).
  assert (state_ok s0) as Hs0. { split; [split; [done|]|]; cbn; [by intros [] ?|set_solver]. }
  unfold mbind at 1, io_bind at 1. fold s0.
  destruct (resize_V_ok (Z.to_nat dim) s0 Hs0) as (vs & s1 & E1 & He1 & Hs1 & Hd1 & Hl1). rewrite (io_bind_ok _ _ _ _ _ E1).
  pose proof (ext_dim _ _ He1) as Hdim1. cbn in Hdim1, Hl1. rewrite Nat.add_0_r in Hl1.
  destruct (create_variables_ok 0 (Z.to_nat dim) s1 Hs1) as (xs & s2 & E2 & He2 & Hs2 & Hd2 & Hl2 & Hlen & Hxs); [lia..|].
  pose proof (ext_dim _ _ He2) as Hdim2. exists xs, s2. split_and!; [done| |lia|by rewrite (ext_x _ _ He2), (ext_x _ _ He1)|lia|done|].
  - split; [done| |left; by rewrite Hd2, Hd1]. intros v row i d. rewrite Hd2, Hd1. cbn. by destruct v.
  - apply Forall2_same_length_lookup_2; [rewrite length_fmap, length_seqZ; lia|]. intros i x σ Hi Hσ.
    apply list_lookup_fmap_Some in Hσ as (z & -> & Hz). apply lookup_seqZ in Hz as [-> _]. by apply Hxs.
Qed.
End Meaning.
End Program.
