(* ===== verification/FnCasDerivative.v ===== *)
(** * Symbolic differentiation gives the derivative

    In exact arithmetic a node means a function of the point, and differentiate.h
    records nodes that mean its partial derivatives ([dsem_derivative]), wherever
    the functions of the expression have one ([smooth]). *)

From Stdlib Require Import ZArith Lia Reals Lra FunctionalExtensionality.
From stdpp Require Import base list sets.
From S2P Require Import Prelude State FnCasArith FnCasNode FnCasDiff FnCasSymbolic FnCasWalk.
Open Scope Z_scope.

Import FnCas FnCasNode FnCasDiff.

(** ** Functions of the point *)

Section Pointwise.
Context {D : Type} `{Arithmetic D}.

Global Instance pointwise_algebra : Algebra D (list D → D) := {
  s_var v := λ x, entry_at num_zero x v;
  s_const v := λ _, v;
  s_op o a b := λ x, apply_operation o (a x) (b x);
  s_fn f a := λ x, apply_function f (a x);
}.

Lemma sem_denote dim nodes x i : graph_ok dim nodes → valid nodes i → sem nodes i x = denote nodes x i.
Proof.
  intros Hg [H0 Hi]. revert i H0 Hi. refine (Zlt_0_ind _ _). intros i IH H0 Hi. assert (valid nodes i) as Hv by done.
  destruct (node_of_ok _ _ Hv) as (n & Hn & _). rewrite (sem_node _ _ _ _ Hg Hv Hn), (denote_node _ _ _ _ _ Hg Hv Hn).
  assert (∀ c, c ∈ children n → sem nodes c x = denote nodes x c) as Hc.
  { intros c Hc. destruct (valid_child _ _ _ _ _ Hg Hv Hn Hc) as [[] ?]. apply IH; lia. }
  destruct n as [| |o l r|f c]; cbn in *; [done|done|..]; unfold sem, denote in Hc; rewrite ?Hc by set_solver; done.
Qed.

Lemma run_program_sem σs p x : (λ σ : list D → D, σ x) <$> sem_program σs p = run_program ((λ σ, σ x) <$> σs) p.
Proof.
  revert σs. induction p as [|ins p IH]; intros σs; cbn [sem_program run_program]; [done|]. rewrite IH, fmap_app. do 3 f_equal.
  assert (∀ a : nat, default s_zero (σs !! a) x = default num_zero (((λ σ, σ x) <$> σs) !! a)) as Ha.
  { intros a. rewrite list_lookup_fmap. by destruct (σs !! a). }
  destruct ins; cbn; rewrite ?Ha; done.
Qed.

Lemma variables_at x : (λ σ : list D → D, σ x) <$> (s_var <$> seqZ 0 (Z.of_nat (length x))) = x.
Proof.
  apply list_eq. intros i. rewrite !list_lookup_fmap. destruct (decide (i < length x)%nat) as [Hi|Hi].
  - rewrite (proj2 (lookup_seqZ 0 _ i (Z.of_nat i))) by lia. cbn. unfold entry_at. rewrite Nat2Z.id.
    destruct (lookup_lt_is_Some_2 x i Hi) as [v ->]. done.
  - rewrite lookup_seqZ_ge by lia. cbn. symmetry. apply lookup_ge_None. lia.
Qed.

(** What the recorded function means is the function. *)
Lemma recorded_function_run p x : default s_zero (last (sem_program (s_var <$> seqZ 0 (Z.of_nat (length x))) p)) x = run p x.
Proof.
  pose proof (run_program_sem (s_var <$> seqZ 0 (Z.of_nat (length x))) p x) as Hr. rewrite variables_at in Hr.
  unfold run. rewrite <- Hr, fmap_last. by destruct (last _).
Qed.
End Pointwise.

Open Scope R_scope.

Lemma real_zero : num_zero (D := R) = 0.
Proof. apply exact_int. Qed.
Lemma real_one : num_one (D := R) = 1.
Proof. apply exact_int. Qed.

Global Instance real_algebra_sound : AlgebraSound R (list R → R).
Proof.
  split; intros; try (apply functional_extensionality; intros ?; cbn -[num_zero num_one]; rewrite ?real_zero, ?real_one; ring).
  intros x y Hxy. by rewrite (exact_equality x y).
Qed.

(** ** Derivatives of the functions *)

Definition in_domain (f : MathFunction) (u : R) : Prop :=
  match f with
  | sqrt | log => 0 < u
  | tan => Rtrigo_def.cos u ≠ 0
  | asin | acos => -1 < u < 1
  | ramp => u ≠ 0
  | unit_step => False
  | _ => True
  end.

Definition derivative_at (f : MathFunction) (u : R) : R :=
  match f with
  | sqr => 2 * u
  | sqrt => / (2 * R_sqrt.sqrt u)
  | exp => Rtrigo_def.exp u
  | log => / u
  | sin => Rtrigo_def.cos u
  | cos => - Rtrigo_def.sin u
  | tan => / (Rtrigo_def.cos u * Rtrigo_def.cos u)
  | asin => / R_sqrt.sqrt (1 - u * u)
  | acos => - / R_sqrt.sqrt (1 - u * u)
  | atan => / (1 + u ^ 2)
  | unit_step => 0
  | ramp => if Rlt_dec 0 u then 1 else 0
  end.

Lemma tan_derivative u : Rtrigo_def.cos u ≠ 0 → derivable_pt_lim Rtrigo1.tan u (/ (Rtrigo_def.cos u * Rtrigo_def.cos u)).
Proof.
  intros Hc. pose proof (derivable_pt_lim_div _ _ u _ _ (derivable_pt_lim_sin u) (derivable_pt_lim_cos u) Hc) as Hd.
  eapply derivable_pt_lim_ext; [intros z; reflexivity|]. replace (/ _) with ((Rtrigo_def.cos u * Rtrigo_def.cos u - - Rtrigo_def.sin u * Rtrigo_def.sin u) / Rsqr (Rtrigo_def.cos u)).
  - exact Hd.
  - pose proof (sin2_cos2 u) as H2. unfold Rsqr in *. replace (_ - _) with 1 by lra. by unfold Rdiv; rewrite Rmult_1_l.
Qed.

Lemma real_ramp (z : R) : f_ramp z = if Rlt_dec 0 z then z else 0.
Proof. unfold f_ramp. rewrite real_zero. cbn. unfold Exact.Rltb. by destruct (Rlt_dec 0 z). Qed.

Lemma real_unit_step (z : R) : f_unit_step z = if Rle_dec 0 z then 1 else 0.
Proof. unfold f_unit_step. rewrite real_zero, real_one. cbn. unfold Exact.Rleb. by destruct (Rle_dec 0 z). Qed.

Lemma ramp_derivative u : u ≠ 0 → derivable_pt_lim f_ramp u (if Rlt_dec 0 u then 1 else 0).
Proof.
  intros Hu. destruct (Rlt_dec 0 u) as [Hpos|Hneg].
  - apply (derivable_pt_lim_locally_ext id _ _ 0 (u + 1)); [lra| |apply derivable_pt_lim_id].
    intros z Hz. rewrite real_ramp. by destruct (Rlt_dec 0 z); [|lra].
  - apply (derivable_pt_lim_locally_ext (fct_cte 0) _ _ (u - 1) 0); [lra| |apply derivable_pt_lim_const].
    intros z Hz. rewrite real_ramp. by destruct (Rlt_dec 0 z); [lra|].
Qed.

Lemma function_derivative f u : in_domain f u → derivable_pt_lim (apply_function f) u (derivative_at f u).
Proof.
  destruct f; cbn; intros Hu.
  - apply derivable_pt_lim_Rsqr.
  - by apply derivable_pt_lim_sqrt.
  - apply derivable_pt_lim_exp.
  - by apply derivable_pt_lim_ln.
  - apply derivable_pt_lim_sin.
  - apply derivable_pt_lim_cos.
  - by apply tan_derivative.
  - replace (/ _) with (1 / R_sqrt.sqrt (1 - Rsqr u)) by (unfold Rsqr, Rdiv; ring).
    eapply derive_pt_eq_1, (derive_pt_asin u Hu).
  - replace (- / _) with (-1 / R_sqrt.sqrt (1 - Rsqr u)) by (unfold Rsqr, Rdiv; ring).
    eapply derive_pt_eq_1, (derive_pt_acos u Hu).
  - apply derivable_pt_lim_atan.
  - done.
  - by apply ramp_derivative.
Qed.

(** The formulas of the code are these derivatives times that of the argument. *)
Lemma formula_derivative f (ξ δ : list R → R) (constant : bool) x : in_domain f (ξ x) →
  sem_d_f f (s_fn f ξ) ξ δ constant x = derivative_at f (ξ x) * δ x.
Proof.
  destruct f; cbn -[num_zero num_one num_int f_unit_step]; intros Hu; rewrite ?real_zero, ?real_one, ?exact_int.
  - ring.
  - pose proof (sqrt_lt_R0 _ Hu). field. lra.
  - done.
  - destruct constant; cbn -[num_one]; rewrite ?real_one; field; lra.
  - ring.
  - ring.
  - replace (ξ x + ξ x) with (2 * ξ x) by ring. rewrite cos_2a_cos. field. split; [done|]. nra.
  - assert (0 < 1 - ξ x * ξ x) as Hp%sqrt_lt_R0 by nra.
    destruct constant; cbn -[num_one]; rewrite ?real_one; field; lra.
  - assert (0 < 1 - ξ x * ξ x) as Hp%sqrt_lt_R0 by nra.
    destruct constant; cbn -[num_one num_int]; rewrite ?real_one, ?exact_int; field; lra.
  - destruct constant; cbn -[num_one]; rewrite ?real_one; field; nra.
  - done.
  - rewrite real_unit_step. destruct (Rle_dec 0 (ξ x)), (Rlt_dec 0 (ξ x)); lra.
Qed.

(** ** Expressions that have a derivative at a point *)

Section Smooth.
Implicit Types (nodes : list (@node_impl R)) (x : list R).

Inductive smooth nodes x : Z → Prop :=
| smooth_variable i v : nodes !! Z.to_nat i = Some (variable_node v) → smooth nodes x i
| smooth_value i v : nodes !! Z.to_nat i = Some (value_node v) → smooth nodes x i
| smooth_operation i o l r : nodes !! Z.to_nat i = Some (operation_node o l r) → smooth nodes x l → smooth nodes x r →
    (o = divide → denote nodes x r ≠ 0) → smooth nodes x i
| smooth_function i f c : nodes !! Z.to_nat i = Some (function_node f c) → smooth nodes x c →
    in_domain f (denote nodes x c) → smooth nodes x i.

(** The partial derivative at [x] of a function, by a coordinate. *)
Definition partial_derivative (f : list R → R) x (k : nat) (d : R) : Prop :=
  derivable_pt_lim (λ t, f (<[k := t]> x)) (default 0 (x !! k)) d.

Lemma partial_ext f g x k d : (∀ x, f x = g x) → partial_derivative f x k d → partial_derivative g x k d.
Proof. intros Hfg. apply derivable_pt_lim_ext. intros z. apply Hfg. Qed.

Lemma restore x k : (k < length x)%nat → <[k := default 0 (x !! k)]> x = x.
Proof. intros Hk. destruct (lookup_lt_is_Some_2 x k Hk) as [v Hv]. rewrite Hv. by apply list_insert_id. Qed.

Lemma partial_variable x (k : nat) v : (k < length x)%nat → (0 ≤ v)%Z →
  partial_derivative (λ x, entry_at num_zero x v) x k (if (v =? Z.of_nat k)%Z then 1 else 0).
Proof.
  intros Hk Hv. unfold partial_derivative, entry_at. destruct (Z.eqb_spec v (Z.of_nat k)) as [->|Hne].
  - eapply derivable_pt_lim_ext; [|apply derivable_pt_lim_id]. intros z. rewrite Nat2Z.id, list_lookup_insert_eq; done.
  - eapply derivable_pt_lim_ext; [|apply (derivable_pt_lim_const (default num_zero (x !! Z.to_nat v)))].
    intros z. rewrite list_lookup_insert_ne by lia. done.
Qed.

Lemma partial_operation o f g x k df dg : (k < length x)%nat → (o = divide → g x ≠ 0) →
  partial_derivative f x k df → partial_derivative g x k dg →
  partial_derivative (λ x, apply_operation o (f x) (g x)) x k
    (sem_d_op (Sem := list R → R) o f g (λ _, df) (λ _, dg) x).
Proof.
  unfold partial_derivative. intros Hk Hg Hf Hg'. destruct o; cbn.
  - apply (derivable_pt_lim_plus _ _ _ _ _ Hf Hg').
  - apply (derivable_pt_lim_minus _ _ _ _ _ Hf Hg').
  - pose proof (derivable_pt_lim_mult _ _ _ _ _ Hf Hg') as Hm. cbn in Hm. rewrite (restore x k Hk) in Hm.
    replace (f x * dg + g x * df) with (df * g x + f x * dg) by ring. exact Hm.
  - pose proof (derivable_pt_lim_div _ _ _ _ _ Hf Hg') as Hm. cbn in Hm. rewrite (restore x k Hk) in Hm.
    replace ((g x * df - f x * dg) / (g x * g x)) with ((df * g x - dg * f x) / Rsqr (g x)); [by apply Hm, Hg|].
    unfold Rsqr, Rdiv. ring.
Qed.

Lemma partial_function f g x k dg : (k < length x)%nat → in_domain f (g x) → partial_derivative g x k dg →
  partial_derivative (λ x, apply_function f (g x)) x k (derivative_at f (g x) * dg).
Proof.
  unfold partial_derivative. intros Hk Hg Hg'.
  apply (derivable_pt_lim_comp (λ t, g (<[k := t]> x)) (apply_function f) _ _ _ Hg'). rewrite (restore x k Hk).
  by apply function_derivative.
Qed.

(** What the differentiation records means the partial derivative. *)
Lemma dsem_derivative dim nodes (k : nat) x i : graph_ok dim nodes → valid nodes i → (Z.of_nat k < dim)%Z → (dim ≤ Z.of_nat (length x))%Z →
  smooth nodes x i → partial_derivative (λ x, denote nodes x i) x k (dsem nodes k i x).
Proof.
  intros Hg Hv Hk Hx Hs. assert (k < length x)%nat as Hkx by lia.
  induction Hs as [i v Hn|i v Hn|i o l r Hn Hl IHl Hr IHr Hdiv|i f c Hn Hc IHc Hdom];
    rewrite (dsem_node _ _ _ _ _ Hg Hv Hn); (eapply partial_ext; [intros y; symmetry; apply (denote_node _ _ _ _ _ Hg Hv Hn)|]); cbn [value_of].
  - destruct (graph_nodes _ _ Hg _ _ Hn) as [_ Hvar]. destruct (Hvar v eq_refl). cbn [dsem_of].
    replace ((if (v =? Z.of_nat k)%Z then s_one else s_zero) x) with (if (v =? Z.of_nat k)%Z then 1 else 0);
      [by apply partial_variable|]. case_match; cbn -[num_zero num_one]; [by rewrite real_one|by rewrite real_zero].
  - cbn -[num_zero]. rewrite real_zero. apply derivable_pt_lim_const.
  - destruct (valid_child _ _ _ _ l Hg Hv Hn) as [Hvl _]; [set_solver|]. destruct (valid_child _ _ _ _ r Hg Hv Hn) as [Hvr _]; [set_solver|].
    pose proof (partial_operation o _ _ x k _ _ Hkx Hdiv (IHl Hvl) (IHr Hvr)) as Hp. cbn [dsem_of].
    fold (dsem nodes k l). fold (dsem nodes k r). revert Hp. unfold denote.
    replace (sem_d_op o (sem nodes l) (sem nodes r) (dsem nodes k l) (dsem nodes k r) x) with
      (sem_d_op (Sem := list R → R) o (λ x, denote nodes x l) (λ x, denote nodes x r) (λ _, dsem nodes k l x) (λ _, dsem nodes k r x) x); [done|].
    destruct o; cbn; by rewrite ?(sem_denote dim nodes x l Hg Hvl), ?(sem_denote dim nodes x r Hg Hvr).
  - destruct (valid_child _ _ _ _ c Hg Hv Hn) as [Hvc _]; [set_solver|]. cbn [dsem_of]. fold (dsem nodes k c).
    rewrite formula_derivative by by rewrite (sem_denote dim). rewrite (sem_denote dim) by done.
    apply (partial_function f (λ x, denote nodes x c)); [done|done|by apply IHc].
Qed.
End Smooth.
