(* ===== verification/FnCasGradient.v ===== *)
(** * The gradient of a recorded function

    From the code of a function to its gradient: the variables, the recording, the
    differentiation and the evaluation of what it recorded, for any arithmetic
    ([gradient_any_arithmetic]) and with its meaning in exact arithmetic
    ([gradient_exact]). *)

From Stdlib Require Import ZArith Lia Reals Lra.
From stdpp Require Import base list sets.
From S2P Require Import Prelude State FnCasArith FnCasNode FnCasDiff FnCasSymbolic FnCasWalk FnCasDerivative.
Open Scope Z_scope.

Import FnCas FnCasNode FnCasDiff.

(** ** Evaluating the gradient *)

Section Values.
Context {D : Type} `{Arithmetic D}.
Implicit Type s : @internals_impl D.

(** The values after the first are computed with the cache of those before. *)
Lemma g_values_ok (r : reuse_cache) gs x s : graph_ok (dim_ s) (node_vector_ s) → dim_ s ≤ Z.of_nat (length x) →
  Forall (valid (node_vector_ s)) gs → (r = reuse → cache_ok (node_vector_ s) x s) →
  ∃ vs B, g_values r gs x s = Ok (denote (node_vector_ s) x <$> gs, set_cache vs B s).
Proof.
  intros Hg Hx Hgs. revert r s Hg Hx Hgs. induction gs as [|g gs IH]; intros r s Hg Hx Hgs Hr.
  { exists (node_value_ s), (node_computed_ s). by destruct s. }
  inversion_clear Hgs as [|?? Hv Hgs']. destruct (eval_node_ok s x g r Hg Hx Hv Hr) as (vs & B & E & Hc).
  destruct (IH reuse (set_cache vs B s)) as (vs' & B' & E'); [done..|]. exists vs', B'. cbn [g_values]. rewrite E. cbn [mbind outcome_bind].
  rewrite E'. done.
Qed.

Lemma g_call_ok g x s : graph_ok (dim_ s) (node_vector_ s) → dim_ s ≤ Z.of_nat (length x) →
  Forall (valid (node_vector_ s)) (g_ g) → ∃ s', g_call g x s = Ok (denote (node_vector_ s) x <$> g_ g, s').
Proof. intros Hg Hx Hv. destruct (g_values_ok invalidate (g_ g) x s Hg Hx Hv) as (vs & B & E); [done|]. by eexists. Qed.

(** ** Any arithmetic *)

Global Instance unit_algebra : Algebra D () := { s_var _ := (); s_const _ := (); s_op _ _ _ := (); s_fn _ _ := () }.
Global Instance unit_algebra_sound : AlgebraSound D ().
Proof. split; try done; by intros; repeat match goal with u : () |- _ => destruct u end. Qed.

(** From the code of a function to its gradient: it is recorded, and differentiated unless it has a [unit_step]. *)
Lemma gradient_any_arithmetic this p (dim : nat) s : (0 < dim)%nat → program_ok dim p → x_ptr_ s = None → dim_ s = 0 →
  ∃ xs s1 f s2, X_new this (Z.of_nat dim) s = (Ok xs, s1) ∧ record_function xs p s1 = (Ok f, s2) ∧ dim_ s2 = Z.of_nat dim ∧ x_ptr_ s2 = Some this ∧
    recorded (Sem := ()) s2 ∧ ok_index s2 f ∧
    (differentiable (node_vector_ s2) f = true → ∃ gs s3, g_new this f s2 = (Ok (mkG f gs), s3) ∧ ext (Sem := ()) s2 s3 ∧ recorded (Sem := ()) s3 ∧
      length gs = dim ∧ Forall (ok_index s3) gs).
Proof.
  intros Hd Hp Hx Hd0.
  destruct (X_new_ok (Sem := ()) this (Z.of_nat dim) s) as (xs & s1 & E1 & Hs1 & Hdim1 & Hptr1 & Hlen1 & Hxs & HF1); [lia|done..|].
  rewrite Nat2Z.id in Hxs. destruct (record_function_ok p s1 xs _ Hs1 Hlen1 HF1) as (f & s2 & E2 & He2 & Hs2 & Hf); [by rewrite Hxs|lia|].
  exists xs, s1, f, s2. split_and!; [done|done|by rewrite (ext_dim _ _ He2)|by rewrite (ext_x _ _ He2)|done|apply Hf|]. intros Hdiff.
  destruct (g_new_ok this f s2 Hs2 (proj1 Hf)) as (gs & s3 & E3 & He3 & Hs3 & Hlen & Hgs); [by rewrite (ext_x _ _ He2)|done|].
  exists gs, s3. split_and!; [done|done|done|rewrite Hlen, (ext_dim _ _ He2); lia|].
  apply Forall_lookup_2. intros i g Hg. apply (Hgs i g Hg).
Qed.
End Values.

(** ** Where the function is smooth *)

Section Exact.
Local Open Scope R_scope.
Implicit Types (s : @internals_impl R) (x : list R).

Definition instruction_smooth (vs : list R) (ins : @instruction R) : Prop :=
  match ins with
  | Constant _ => True
  | Operation o _ b => o = divide → default 0 (vs !! b) ≠ 0
  | Function f a => in_domain f (default 0 (vs !! a))
  end.

(** Every operation of the function has a derivative at its arguments. *)
Fixpoint program_smooth (vs : list R) (p : @program R) : Prop :=
  match p with [] => True | ins :: p => instruction_smooth vs ins ∧ program_smooth (vs ++ [run_instruction vs ins]) p end.

(** A function together with where it is smooth. *)
Local Instance smooth_algebra : Algebra R ((list R → R) * (list R → Prop)) := {
  s_var v := (s_var v, λ _, True);
  s_const v := (s_const v, λ _, True);
  s_op o a b := (s_op o a.1 b.1, λ x, a.2 x ∧ b.2 x ∧ (o = divide → b.1 x ≠ 0));
  s_fn f a := (s_fn f a.1, λ x, a.2 x ∧ in_domain f (a.1 x));
}.

Local Instance smooth_const : ConstSound R ((list R → R) * (list R → Prop)).
Proof. intros a b Hab. by rewrite (exact_equality a b). Qed.

Lemma sem_smooth dim nodes x i : graph_ok dim nodes → valid nodes i →
  (sem (Sem := (list R → R) * (list R → Prop)) nodes i).1 x = denote nodes x i ∧
  ((sem (Sem := (list R → R) * (list R → Prop)) nodes i).2 x → smooth nodes x i).
Proof.
  intros Hg [H0 Hi]. revert i H0 Hi. refine (Zlt_0_ind _ _). intros i IH H0 Hi. assert (valid nodes i) as Hv by done.
  destruct (node_of_ok _ _ Hv) as (n & Hn & _). rewrite (sem_node _ _ _ _ Hg Hv Hn), (denote_node _ _ _ _ _ Hg Hv Hn).
  pose proof (λ c Hc, IH c ltac:(destruct (valid_child _ _ _ _ c Hg Hv Hn Hc) as [[] ?]; lia)
    ltac:(destruct (valid_child _ _ _ _ c Hg Hv Hn Hc) as [[] ?]; lia)) as Hc. unfold sem, denote in Hc.
  destruct n as [v|v|o l r|f c]; cbn in *.
  - split; [done|]. intros _. by econstructor.
  - split; [done|]. intros _. by eapply smooth_value.
  - destruct (Hc l) as [El Sl]; [set_solver|]. destruct (Hc r) as [Er Sr]; [set_solver|]. rewrite El, Er. split; [done|].
    intros (? & ? & Hd). eapply smooth_operation; [exact Hn|auto..].
  - destruct (Hc c) as [Ec Sc]; [set_solver|]. rewrite Ec. split; [done|]. intros [? Hd]. eapply smooth_function; [exact Hn|auto..].
Qed.

Lemma sem_program_smooth p x (σs : list ((list R → R) * (list R → Prop))) :
  Forall (λ σ, σ.2 x) σs → program_smooth ((λ σ, σ.1 x) <$> σs) p → Forall (λ σ, σ.2 x) (sem_program σs p).
Proof.
  revert σs. induction p as [|ins p IH]; intros σs HF Hp; cbn [sem_program]; [done|]. destruct Hp as [Hins Hp].
  assert (∀ a : nat, (default s_zero (σs !! a)).1 x = default 0 (((λ σ, σ.1 x) <$> σs) !! a)) as Ha.
  { intros a. rewrite list_lookup_fmap. destruct (σs !! a); cbn -[num_zero]; [done|apply real_zero]. }
  assert (∀ a : nat, (default s_zero (σs !! a)).2 x) as Hs.
  { intros a. destruct (σs !! a) as [σ|] eqn:E; cbn; [|done]. by eapply Forall_lookup_1 in HF; [|exact E]. }
  apply IH.
  - apply Forall_app_2; [done|]. constructor; [|constructor]. destruct ins; cbn -[num_zero]; rewrite ?Ha; auto.
  - rewrite fmap_app. cbn -[num_zero]. replace ((sem_instruction σs ins).1 x) with (run_instruction ((λ σ, σ.1 x) <$> σs) ins); [done|].
    destruct ins; cbn -[num_zero]; rewrite ?Ha, ?real_zero; done.
Qed.

Lemma smooth_differentiable dim nodes x i : graph_ok dim nodes → valid nodes i → smooth nodes x i → differentiable nodes i = true.
Proof.
  intros Hg Hv Hs. induction Hs as [i v Hn|i v Hn|i o l r Hn _ IHl _ IHr _|i f c Hn _ IHc Hdom];
    rewrite (differentiable_node _ _ _ _ Hg Hv Hn); cbn; [done|done|..]; unfold differentiable in *.
  - rewrite IHl, IHr; [done|..]; eapply (valid_child _ _ _ _ _ Hg Hv Hn); set_solver.
  - rewrite IHc; [|eapply (valid_child _ _ _ _ _ Hg Hv Hn); set_solver]. rewrite bool_decide_false; [done|]. intros ->. done.
Qed.

Lemma exact_ext s s' (i : nat) n : ext (Sem := list R → R) s s' → node_vector_ s !! i = Some n → node_vector_ s' !! i = Some n.
Proof.
  intros He Hn. destruct (ext_nodes _ _ He _ _ Hn) as (n' & -> & Hsim). destruct n, n'; cbn in Hsim; try congruence.
  by apply (f_equal (λ f, f [])) in Hsim as ->.
Qed.

Lemma denote_ext s s' x i : state_ok (Sem := list R → R) s → state_ok (Sem := list R → R) s' → ext (Sem := list R → R) s s' →
  valid (node_vector_ s) i → denote (node_vector_ s') x i = denote (node_vector_ s) x i.
Proof.
  intros Hs Hs' He Hv. assert (valid (node_vector_ s') i) as Hv' by (pose proof (ext_length _ _ He); destruct Hv; split; lia).
  rewrite <- (sem_denote _ _ x i (state_graph _ Hs') Hv'), <- (sem_denote _ _ x i (state_graph _ Hs) Hv). by rewrite (ext_sem s s').
Qed.

Lemma smooth_ext s s' x i : state_ok (Sem := list R → R) s → state_ok (Sem := list R → R) s' → ext (Sem := list R → R) s s' →
  valid (node_vector_ s) i → smooth (node_vector_ s) x i → smooth (node_vector_ s') x i.
Proof.
  intros Hs Hs' He Hv Hsm. pose proof (state_graph _ Hs) as Hg.
  induction Hsm as [i v Hn|i v Hn|i o l r Hn _ IHl _ IHr Hd|i f c Hn _ IHc Hdom]; pose proof (exact_ext _ _ _ _ He Hn) as Hn'.
  - by eapply smooth_variable.
  - by eapply smooth_value.
  - destruct (valid_child _ _ _ _ l Hg Hv Hn) as [Hvl _]; [set_solver|]. destruct (valid_child _ _ _ _ r Hg Hv Hn) as [Hvr _]; [set_solver|].
    eapply smooth_operation; [exact Hn'|auto..]. by rewrite (denote_ext s s').
  - destruct (valid_child _ _ _ _ c Hg Hv Hn) as [Hvc _]; [set_solver|].
    eapply smooth_function; [exact Hn'|auto|]. by rewrite (denote_ext s s').
Qed.

Lemma Forall_default_last {A} (P : A → Prop) d l : P d → Forall P l → P (default d (last l)).
Proof. intros Hd HF. destruct (last l) as [a|] eqn:E; [|done]. apply last_Some_elem_of in E. by eapply Forall_forall in HF. Qed.

(** ** The gradient, in exact arithmetic *)

Lemma gradient_exact this p x s : (0 < length x)%nat → program_ok (length x) p → program_smooth x p → x_ptr_ s = None → dim_ s = 0%Z →
  ∃ xs s1 f s2 g s3, X_new this (Z.of_nat (length x)) s = (Ok xs, s1) ∧ record_function xs p s1 = (Ok f, s2) ∧
    g_new this f s2 = (Ok g, s3) ∧ (∃ s4, f_blueprint f x s3 = Ok (run p x, s4)) ∧
    ∃ vs s5, g_call g x s3 = Ok (vs, s5) ∧ length vs = length x ∧ ∀ k v, vs !! k = Some v → partial_derivative (run p) x k v.
Proof.
  intros Hx Hp Hsm Hx0 Hd0.
  destruct (X_new_ok (Sem := list R → R) this (Z.of_nat (length x)) s) as (xs & s1 & E1 & Hs1 & Hdim1 & Hptr1 & Hlen1 & Hxs & HF1); [lia|done..|].
  destruct (X_new_ok (Sem := (list R → R) * (list R → Prop)) this (Z.of_nat (length x)) s) as (xs' & s1' & E1' & Hs1' & _ & _ & _ & _ & HF1'); [lia|done..|].
  rewrite E1 in E1'. injection E1' as <- <-. rewrite Nat2Z.id in Hxs.
  destruct (record_function_ok p s1 xs _ Hs1 Hlen1 HF1) as (f & s2 & E2 & He2 & Hs2 & Hf); [by rewrite Hxs|lia|].
  destruct (record_function_ok p s1 xs _ Hs1' Hlen1 HF1') as (f' & s2' & E2' & _ & _ & Hf'); [by rewrite Hxs|lia|].
  rewrite E2 in E2'. injection E2' as <- <-.
  pose proof (state_graph _ (recorded_state _ Hs2)) as Hg2. pose proof (ok_valid _ _ (proj1 Hf)) as Hv2.
  assert (smooth (node_vector_ s2) x f) as Hsf.
  { apply (sem_smooth _ _ _ _ Hg2 Hv2). destruct Hf' as [_ ->].
    assert (Forall (λ σ, σ.2 x) (sem_program (Sem := (list R → R) * (list R → Prop)) (s_var <$> seqZ 0 (Z.of_nat (length x))) p)) as HF.
    { apply sem_program_smooth; [apply Forall_fmap; by apply Forall_true|].
      replace (_ <$> (s_var <$> _)) with x; [done|]. rewrite <- list_fmap_compose. rewrite <- (variables_at x) at 1. by rewrite <- list_fmap_compose. }
    by apply (Forall_default_last (λ σ, σ.2 x)). }
  pose proof (smooth_differentiable _ _ _ _ Hg2 Hv2 Hsf) as Hdiff.
  destruct (g_new_ok this f s2 Hs2 (proj1 Hf)) as (gs & s3 & E3 & He3 & Hs3 & Hlen & Hgs); [by rewrite (ext_x _ _ He2)|done|].
  pose proof (recorded_state _ Hs2) as Ho2. pose proof (recorded_state _ Hs3) as Ho3. pose proof (state_graph _ Ho3) as Hg3.
  pose proof (ext_index _ _ _ He3 (proj1 Hf)) as Hi3. pose proof (ok_valid _ _ Hi3) as Hv3.
  assert (dim_ s3 = Z.of_nat (length x)) as Hdim3 by (rewrite (ext_dim _ _ He3), (ext_dim _ _ He2); done).
  assert (∀ y, length y = length x → denote (node_vector_ s3) y f = run p y) as Hrun.
  { intros y Hy. rewrite (denote_ext s2 s3), <- (sem_denote _ _ y f Hg2 Hv2) by done. destruct Hf as [_ ->].
    rewrite <- Hy. apply recorded_function_run. }
  exists xs, s1, f, s2, (mkG f gs), s3. split_and!; [done..| |].
  - unfold f_blueprint. rewrite Hdim3, Z.eqb_refl. rewrite <- (Hrun x eq_refl).
    destruct (eval_node_ok s3 x f invalidate) as (vs & B & E & _); [done|lia|done|done|]. by eexists.
  - destruct (g_call_ok (mkG f gs) x s3) as (s5 & E5); [done|lia| |].
    { apply Forall_lookup_2. intros i g Hg. apply ok_valid, (Hgs i g Hg). }
    exists (denote (node_vector_ s3) x <$> gs), s5. split_and!; [done|rewrite length_fmap, Hlen, (ext_dim _ _ He2); lia|].
    intros k v (g & -> & Hg)%list_lookup_fmap_Some. destruct (Hgs k g Hg) as [Hgi Hsem].
    rewrite <- (sem_denote _ _ x g Hg3 (ok_valid _ _ Hgi)), Hsem.
    assert (k < length x)%nat as Hk. { apply lookup_lt_Some in Hg. rewrite Hlen, (ext_dim _ _ He2) in Hg. lia. }
    unfold partial_derivative. eapply derivable_pt_lim_ext;
      [|apply (dsem_derivative (dim_ s3) (node_vector_ s3) k x f Hg3 Hv3); [lia|lia|by apply (smooth_ext s2 s3)]].
    intros t. apply Hrun. apply length_insert.
Qed.
End Exact.

(** ** How long differentiation takes

    The loop of [differentiate_node] has no test whether a node has been
    differentiated, so a node is done again for each path that leads to it:
    [diff_rounds] is exactly the number of rounds ([diff_loop_short] is the bound
    from below, FnCasWalk.v has the one from above).  On a chain of squarings it is
    exponential ([squarings_rounds]), where evaluation is linear. *)

Section Rounds.
Context {D : Type} `{Arithmetic D}.
Implicit Type s : @internals_impl D.

Section Loop.
Context (var : nat) (zero_index one_index : Z).
Local Abbreviation loop fuel st := (diff_loop fuel var zero_index one_index st).

(** What is below on the stack is left for later. *)
Lemma diff_loop_app fuel st st' s s' m : loop fuel st s = (Ok (), s') →
  ∃ k, loop (fuel + m)%nat (st ++ st') s = loop (k + m)%nat st' s'.
Proof.
  revert st s. induction fuel as [|fuel IH]; intros [|i st] s; cbn [diff_loop]; [by intros [= <-]; exists 0%nat|done| |].
  { intros [= <-]. by exists (S fuel). }
  cbn [Nat.add app diff_loop]. destruct (Z.lnot i <? i); unfold mbind, io_bind.
  - destruct (diff_enter _ _ _ _ s) as [[pushed|e] s1]; [|done]. rewrite app_assoc. apply IH.
  - destruct (diff_leave _ _ s) as [[[]|e] s1]; [|done]. apply IH.
Qed.

Lemma diff_loop_throw fuel st s s' e m : loop fuel st s = (Throw e, s') → e ≠ OutOfFuel → loop (fuel + m)%nat st s = (Throw e, s').
Proof.
  intros E Hne. revert st s E. induction fuel as [|fuel IH]; intros [|i st] s; cbn [diff_loop]; [done|intros [=]; congruence|done|].
  cbn [Nat.add diff_loop]. destruct (Z.lnot i <? i); unfold mbind, io_bind.
  - destruct (diff_enter _ _ _ _ s) as [[pushed|e'] s1]; [apply IH|done].
  - destruct (diff_leave _ _ s) as [[[]|e'] s1]; [apply IH|done].
Qed.

(** A round on an index out of range. *)
Lemma diff_loop_outside fuel i s : Z.of_nat (length (node_vector_ s)) ≤ i →
  loop (S fuel) [i] s = (Throw (Fault DanglingDereference), s).
Proof.
  intros Hi. cbn [diff_loop]. rewrite lnot_lt by lia. unfold diff_enter, node_at, mbind, io_bind.
  rewrite (proj2 (Z.leb_le 0 i)), lookup_ge_None_2 by lia. done.
Qed.

(** Fewer rounds than [diff_rounds] are not enough. *)
Lemma diff_loop_short fuel i s : walking (Sem := ()) var zero_index one_index s → ok_index s i → differentiable (node_vector_ s) i = true →
  (fuel < diff_rounds (node_vector_ s) i)%nat → (loop fuel [i] s).1 = Throw OutOfFuel.
Proof.
  intros Hw Hi Hd Hlt. destruct (visit_all var zero_index one_index i) with (s := s) as (s' & _ & _ & R); [apply Hi|done|done|].
  rewrite Hd in R. destruct R as [R _]. destruct (loop fuel [i] s) as [[[]|e] s''] eqn:E; cbn.
  - set (far := Z.of_nat (length (node_vector_ s''))).
    destruct (diff_loop_app fuel [i] [far] s s'' (diff_rounds (node_vector_ s) i - fuel) E) as [k Ek].
    replace (k + _)%nat with (S (k + (diff_rounds (node_vector_ s) i - fuel) - 1)) in Ek by lia. rewrite diff_loop_outside in Ek by lia.
    replace (fuel + _)%nat with (diff_rounds (node_vector_ s) i + 0)%nat in Ek by lia. cbn [app] in Ek. by rewrite R in Ek.
  - assert (e = OutOfFuel ∨ e ≠ OutOfFuel) as [->|Hne]; [by destruct e; auto; right|done|].
    pose proof (diff_loop_throw _ _ _ _ _ (diff_rounds (node_vector_ s) i - fuel) E Hne) as Et.
    replace (fuel + _)%nat with (diff_rounds (node_vector_ s) i + 0)%nat in Et by lia. by rewrite R in Et.
Qed.
End Loop.

(** The part of [differentiate_node] that runs the loop, for a number of rounds. *)
Definition diff_run_for (fuel var_index : nat) (index : Z) : io (@internals_impl D) fncas_exception () :=
  zero_index ← V_double num_zero;
  one_index ← V_double num_one;
  diff_loop fuel var_index zero_index one_index [index].

(** The loop is entered with both constants recorded. *)
Lemma diff_run_for_walking fuel var index s : diff_ok (Sem := ()) var s → ok_index s index → ∃ z o s', walking (Sem := ()) var z o s' ∧ ok_index s' index ∧
  diff_run_for fuel var index s = diff_loop fuel var z o [index] s' ∧ differentiable (node_vector_ s') index = differentiable (node_vector_ s) index ∧
  diff_rounds (node_vector_ s') index = diff_rounds (node_vector_ s) index.
Proof.
  intros Hs Hi. unfold diff_run_for.
  destruct (records_double (Sem := ()) s num_zero) as (z & s1 & E1 & He1 & Hs1 & Hd1 & Hz); [apply Hs|destruct Hi as [? []]; lia|].
  destruct (recorded_walks var s s1 Hs He1 Hs1 Hd1) as [W1 D1]. rewrite (io_bind_ok _ _ _ _ _ E1).
  destruct (records_double (Sem := ()) s1 num_one) as (o & s2 & E2 & He2 & Hs2 & Hd2 & Ho); [done|by eapply has_dim|].
  destruct (recorded_walks var s1 s2 D1 He2 Hs2 Hd2) as [W2 D2]. rewrite (io_bind_ok _ _ _ _ _ E2).
  assert (walks (Sem := ()) var s s2) as W by by etrans. pose proof (ok_valid _ _ Hi) as Hv.
  exists z, o, s2. split_and!; [split; [done|by apply (has_ext s1 s2)|done]|by eapply walks_ok_index|done|..].
  - by rewrite (ext_differentiable s s2); [|apply Hs|done|apply W|done].
  - by rewrite (ext_rounds s s2); [|apply Hs|done|apply W|done].
Qed.

Lemma diff_run_for_short fuel var index s : diff_ok (Sem := ()) var s → ok_index s index → differentiable (node_vector_ s) index = true →
  (fuel < diff_rounds (node_vector_ s) index)%nat → (diff_run_for fuel var index s).1 = Throw OutOfFuel.
Proof.
  intros Hs Hi Hd Hlt. destruct (diff_run_for_walking fuel var index s Hs Hi) as (z & o & s' & Hw & Hi' & -> & Hd' & Hr).
  apply diff_loop_short; [done|done|by rewrite Hd'|by rewrite Hr].
Qed.

Lemma diff_run_for_enough var index s : diff_ok (Sem := ()) var s → ok_index s index → differentiable (node_vector_ s) index = true →
  (diff_run_for (diff_rounds (node_vector_ s) index) var index s).1 = Ok ().
Proof.
  intros Hs Hi Hd. destruct (diff_run_for_walking (diff_rounds (node_vector_ s) index) var index s Hs Hi) as (z & o & s' & Hw & Hi' & -> & Hd' & <-).
  destruct (visit_all var z o index) with (s := s') as (s'' & _ & _ & R); [apply Hi|done|done|]. rewrite Hd', Hd in R. destruct R as [R _].
  specialize (R 0%nat []). rewrite Nat.add_0_r in R. by rewrite R.
Qed.

(** ** A chain of squarings *)

Definition squarings (n : nat) : @program D := (λ k, Operation multiply k k) <$> seq 0 n.

Definition squares (n : nat) : list (@node_impl D) := (λ k, operation_node multiply (k + 1) (k + 1)) <$> seqZ 0 (Z.of_nat n).

Lemma record_program_app (p q : @program D) env s env' s' : record_program env p s = (Ok env', s') →
  record_program env (p ++ q) s = record_program env' q s'.
Proof.
  revert env s. induction p as [|ins p IH]; intros env s; cbn [record_program app]; [by intros [= -> ->]|].
  unfold mbind, io_bind. destruct (record_instruction env ins s) as [[v|e] s1]; [apply IH|done].
Qed.

Lemma squarings_recorded n s : length (node_vector_ s) = 2%nat →
  record_program [1] (squarings n) s = (Ok (seqZ 1 (Z.of_nat n + 1)), set_nodes (node_vector_ s ++ squares n) s).
Proof.
  intros Hl. induction n as [|n IH]; [cbn; rewrite app_nil_r; by destruct s|].
  unfold squarings, squares in *. rewrite seq_S, fmap_app, (record_program_app _ _ _ _ _ _ IH). cbn [fmap list_fmap record_program record_instruction Nat.add].
  rewrite (list_lookup_total_correct _ _ (Z.of_nat n + 1)) by (apply lookup_seqZ; lia).
  rewrite Nat2Z.inj_succ. unfold Z.succ. rewrite (seqZ_app 0 (Z.of_nat n) 1), (seqZ_app 1 (Z.of_nat n + 1) 1), fmap_app by lia.
  set (nodes := node_vector_ s ++ _). assert (Z.of_nat (length nodes) = Z.of_nat n + 2) as Hlen.
  { subst nodes. rewrite length_app, length_fmap, length_seqZ, Hl. lia. }
  assert (V_operation multiply (Z.of_nat n + 1) (Z.of_nat n + 1) (set_nodes nodes s) =
    (Ok (Z.of_nat n + 2), set_nodes (nodes ++ [operation_node multiply (Z.of_nat n + 1) (Z.of_nat n + 1)]) s)) as EV.
  { unfold V_operation, allocate_new, assign, mbind, io_bind. cbn -[Z.of_nat Z.to_nat]. by rewrite insert_last, Hlen. }
  rewrite (io_bind_ok _ _ _ _ _ EV). unfold nodes. rewrite <- app_assoc. unfold mret, io_ret.
  by replace (1 + (Z.of_nat n + 1)) with (Z.of_nat n + 2) by lia.
Qed.

Lemma length_squares n : length (squares n) = n.
Proof. unfold squares. rewrite length_fmap, length_seqZ. lia. Qed.

Lemma squares_S n : squares (S n) = squares n ++ [operation_node multiply (Z.of_nat n + 1) (Z.of_nat n + 1)].
Proof. unfold squares. rewrite Nat2Z.inj_succ. unfold Z.succ. by rewrite seqZ_app, fmap_app by lia. Qed.

(** What a function of the nodes before gives for the last square. *)
Lemma table_squares {A} (fill : A) g n (n0 n1 : @node_impl D) :
  entry_at fill (table g ([n0; n1] ++ squares (S n))) (Z.of_nat (S n) + 1) =
  g (table g ([n0; n1] ++ squares n)) (operation_node multiply (Z.of_nat n + 1) (Z.of_nat n + 1)).
Proof.
  rewrite squares_S, app_assoc. set (nodes := [n0; n1] ++ squares n).
  replace (Z.of_nat (S n) + 1) with (Z.of_nat (length nodes)) by (subst nodes; rewrite length_app, length_squares; cbn; lia).
  apply table_last.
Qed.

Lemma squarings_rounds n (v0 v1 : Z) : diff_rounds ([variable_node v0; variable_node v1] ++ squares n) (Z.of_nat n + 1) = (3 * 2 ^ n - 2)%nat.
Proof.
  unfold diff_rounds. induction n as [|n IH]; [done|]. rewrite table_squares. cbn [rounds_of]. rewrite IH, Nat.pow_succ_r'.
  pose proof (Nat.pow_nonzero 2 n). lia.
Qed.

Lemma squarings_differentiable n (v0 v1 : Z) : differentiable ([variable_node v0; variable_node v1] ++ squares n) (Z.of_nat n + 1) = true.
Proof.
  unfold differentiable. induction n as [|n IH]; [done|]. rewrite table_squares. cbn [differentiable_of]. by rewrite IH.
Qed.

Lemma squarings_ok n k : (0 < k)%nat → program_ok k ((λ i, Operation multiply i i) <$> seq (pred k) n : @program D).
Proof.
  revert k. induction n as [|n IH]; intros k Hk; cbn; [done|]. split; [lia|]. replace (S (pred k)) with (pred (S k)) by lia. apply IH. lia.
Qed.

(** The chain is recorded in as many nodes as it has operations, and two for the variable. *)
Lemma squarings_function this n s : x_ptr_ s = None → dim_ s = 0 → ∃ s1 s2, X_new this 1 s = (Ok [1], s1) ∧
  record_function [1] (squarings n) s1 = (Ok (Z.of_nat n + 1), s2) ∧
  node_vector_ s2 = [variable_node 0; variable_node 0] ++ squares n ∧ df_ s2 = [].
Proof.
  intros Hx Hd. unfold X_new. rewrite Hx, Hd. eexists _, _. split_and!; [done|..].
  { unfold record_function. erewrite io_bind_ok by by apply squarings_recorded.
    replace (Z.of_nat n + 1) with (Z.of_nat (S n)) by lia. rewrite last_lookup, length_seqZ. erewrite (proj2 (lookup_seqZ _ _ _ _)); [done|]. lia. }
  all: done.
Qed.
End Rounds.
