(* ===== verification/X64.v ===== *)
(** * Machine code: fncas/x64_native_jit/x64_native_jit.h

    The bytes that each function of [opcodes] appends, and the processor that runs
    them: [decode] and [exec] are the instructions the code uses, as the processor
    manuals describe them, with the calling convention of the platform.  Memory is
    made of cells of eight bytes; the words pushed since the function was entered
    are [pushed].  A call of a C function needs the stack aligned, and may leave
    anything in the registers that it is allowed to change. *)

From Stdlib Require Import ZArith Lia.
From stdpp Require Import base list gmap.
From S2P Require Import Prelude FnCasArith.
Open Scope Z_scope.

Import FnCas.

Module X64.

(** ** The bytes *)

(** [for (...) { c.push_back(x & 0xff); x >>= 8; }], [n] times. *)
Fixpoint le_bytes (n : nat) (x : Z) : list Z :=
  match n with O => [] | S n => Z.land x 255 :: le_bytes n (Z.shiftr x 8) end.

Definition push_rbx : list Z := [0x53].
Definition push_rsi : list Z := [0x56].
Definition push_rdi : list Z := [0x57].
Definition push_rdx : list Z := [0x52].
Definition mov_rsi_rbx : list Z := [0x48; 0x89; 0xf3].
Definition pop_rbx : list Z := [0x5b].
Definition pop_rsi : list Z := [0x5e].
Definition pop_rdi : list Z := [0x5f].
Definition pop_rdx : list Z := [0x5a].
Definition ret : list Z := [0xc3].

(** The offset in doubles, shifted by sixteen, in bytes. *)
Definition displacement (offset : Z) : Z := (offset + 16) * 8.

Definition internal_load_immediate_to_memory_by_someregister_offset (reg offset bits : Z) : list Z :=
  [0x48; 0xb8] ++ le_bytes 8 bits ++ [0x48; 0x89; reg] ++ le_bytes 4 (displacement offset).

Definition unsafe_load_immediate_to_memory_by_rdi_offset (offset bits : Z) : list Z :=
  internal_load_immediate_to_memory_by_someregister_offset 0x87 offset bits.
Definition load_immediate_to_memory_by_rsi_offset (offset bits : Z) : list Z :=
  internal_load_immediate_to_memory_by_someregister_offset 0x86 offset bits.
Definition load_immediate_to_memory_by_rbx_offset (offset bits : Z) : list Z :=
  internal_load_immediate_to_memory_by_someregister_offset 0x83 offset bits.

Definition internal_load_from_memory_by_offset_to_xmm0 (reg offset : Z) : list Z :=
  [0xf2; 0x0f; 0x10; reg] ++ le_bytes 4 (displacement offset).

Definition load_from_memory_by_rdi_offset_to_xmm0 (offset : Z) : list Z := internal_load_from_memory_by_offset_to_xmm0 0x87 offset.
Definition load_from_memory_by_rsi_offset_to_xmm0 (offset : Z) : list Z := internal_load_from_memory_by_offset_to_xmm0 0x86 offset.
Definition load_from_memory_by_rbx_offset_to_xmm0 (offset : Z) : list Z := internal_load_from_memory_by_offset_to_xmm0 0x83 offset.

Definition internal_op_from_memory_by_offset_to_xmm0 (add_sub_mul_div_code reg offset : Z) : list Z :=
  [0xf2; 0x0f; add_sub_mul_div_code; reg] ++ le_bytes 4 (displacement offset).

Definition add_from_memory_by_rdi_offset_to_xmm0 (offset : Z) : list Z := internal_op_from_memory_by_offset_to_xmm0 0x58 0x87 offset.
Definition sub_from_memory_by_rdi_offset_to_xmm0 (offset : Z) : list Z := internal_op_from_memory_by_offset_to_xmm0 0x5c 0x87 offset.
Definition mul_from_memory_by_rdi_offset_to_xmm0 (offset : Z) : list Z := internal_op_from_memory_by_offset_to_xmm0 0x59 0x87 offset.
Definition div_from_memory_by_rdi_offset_to_xmm0 (offset : Z) : list Z := internal_op_from_memory_by_offset_to_xmm0 0x5e 0x87 offset.
Definition add_from_memory_by_rsi_offset_to_xmm0 (offset : Z) : list Z := internal_op_from_memory_by_offset_to_xmm0 0x58 0x86 offset.
Definition sub_from_memory_by_rsi_offset_to_xmm0 (offset : Z) : list Z := internal_op_from_memory_by_offset_to_xmm0 0x5c 0x86 offset.
Definition mul_from_memory_by_rsi_offset_to_xmm0 (offset : Z) : list Z := internal_op_from_memory_by_offset_to_xmm0 0x59 0x86 offset.
Definition div_from_memory_by_rsi_offset_to_xmm0 (offset : Z) : list Z := internal_op_from_memory_by_offset_to_xmm0 0x5e 0x86 offset.
Definition add_from_memory_by_rbx_offset_to_xmm0 (offset : Z) : list Z := internal_op_from_memory_by_offset_to_xmm0 0x58 0x83 offset.
Definition sub_from_memory_by_rbx_offset_to_xmm0 (offset : Z) : list Z := internal_op_from_memory_by_offset_to_xmm0 0x5c 0x83 offset.
Definition mul_from_memory_by_rbx_offset_to_xmm0 (offset : Z) : list Z := internal_op_from_memory_by_offset_to_xmm0 0x59 0x83 offset.
Definition div_from_memory_by_rbx_offset_to_xmm0 (offset : Z) : list Z := internal_op_from_memory_by_offset_to_xmm0 0x5e 0x83 offset.

Definition internal_store_xmm0_to_memory_by_reg_offset (reg offset : Z) : list Z :=
  [0xf2; 0x0f; 0x11; reg] ++ le_bytes 4 (displacement offset).

Definition store_xmm0_to_memory_by_rsi_offset (offset : Z) : list Z := internal_store_xmm0_to_memory_by_reg_offset 0x86 offset.
Definition store_xmm0_to_memory_by_rbx_offset (offset : Z) : list Z := internal_store_xmm0_to_memory_by_reg_offset 0x83 offset.

Definition call_function_from_rdx_pointers_array_by_index (index : Z) : list Z :=
  [0xff; 0x52; Z.land ((index + 1) * 8) 255].

(** ** The processor *)

Inductive register := RAX | RBX | RDI | RSI | RDX.

Global Instance register_eq_dec : EqDecision register.
Proof. solve_decision. Defined.

Inductive instr :=
| Push (r : register)
| Pop (r : register)
| MovRR (dst src : register)
| MovImm (dst : register) (imm : Z)
| StoreReg (src base : register) (disp : Z)
| LoadXmm0 (base : register) (disp : Z)
| OpXmm0 (op : MathOperation) (base : register) (disp : Z)
| StoreXmm0 (base : register) (disp : Z)
| CallMem (base : register) (disp : Z)
| Return.

Fixpoint le_combine (bytes : list Z) : Z :=
  match bytes with [] => 0 | b :: bytes => b + 256 * le_combine bytes end.

(** A displacement of [n] bytes is extended with its sign. *)
Definition signed (n : Z) (x : Z) : Z := if x <? 2 ^ (n - 1) then x else x - 2 ^ n.

Definition take_bytes (n : nat) (bytes : list Z) : option (list Z * list Z) :=
  if (n <=? length bytes)%nat then Some (take n bytes, drop n bytes) else None.

(** The base register of a ModRM byte with a displacement of four bytes whose
    other operand has the number 0, [rax] or [xmm0]. *)
Definition base_of (modrm : Z) : option register :=
  if modrm =? 0x83 then Some RBX else if modrm =? 0x86 then Some RSI else if modrm =? 0x87 then Some RDI else None.

Definition decode_memory (f : register → Z → instr) (bytes : list Z) : option (instr * list Z) :=
  match bytes with
  | modrm :: bytes => base ← base_of modrm; '(d, rest) ← take_bytes 4 bytes; Some (f base (signed 32 (le_combine d)), rest)
  | [] => None
  end.

Definition decode_sse (bytes : list Z) : option (instr * list Z) :=
  match bytes with
  | op :: bytes =>
      if op =? 0x10 then decode_memory LoadXmm0 bytes
      else if op =? 0x11 then decode_memory StoreXmm0 bytes
      else if op =? 0x58 then decode_memory (OpXmm0 add) bytes
      else if op =? 0x5c then decode_memory (OpXmm0 subtract) bytes
      else if op =? 0x59 then decode_memory (OpXmm0 multiply) bytes
      else if op =? 0x5e then decode_memory (OpXmm0 divide) bytes
      else None
  | [] => None
  end.

(** After the prefix 0x48. *)
Definition decode_wide (bytes : list Z) : option (instr * list Z) :=
  match bytes with
  | op :: bytes =>
      if op =? 0xb8 then '(imm, rest) ← take_bytes 8 bytes; Some (MovImm RAX (le_combine imm), rest)
      else if op =? 0x89 then
        match bytes with
        | modrm :: rest => if modrm =? 0xf3 then Some (MovRR RBX RSI, rest) else decode_memory (StoreReg RAX) bytes
        | [] => None
        end
      else None
  | [] => None
  end.

Definition decode (bytes : list Z) : option (instr * list Z) :=
  match bytes with
  | [] => None
  | b :: rest =>
      if b =? 0x53 then Some (Push RBX, rest)
      else if b =? 0x56 then Some (Push RSI, rest)
      else if b =? 0x57 then Some (Push RDI, rest)
      else if b =? 0x52 then Some (Push RDX, rest)
      else if b =? 0x5b then Some (Pop RBX, rest)
      else if b =? 0x5e then Some (Pop RSI, rest)
      else if b =? 0x5f then Some (Pop RDI, rest)
      else if b =? 0x5a then Some (Pop RDX, rest)
      else if b =? 0xc3 then Some (Return, rest)
      else if b =? 0x48 then decode_wide rest
      else if b =? 0xf2 then match rest with b :: rest => if b =? 0x0f then decode_sse rest else None | [] => None end
      else if b =? 0xff then
        match rest with
        | modrm :: d :: rest => if modrm =? 0x52 then Some (CallMem RDX (signed 8 d), rest) else None
        | _ => None
        end
      else None
  end.

(** Numbers as words of 64 bits. *)
Class Words (D : Type) := {
  to_bits : D → Z;
  of_bits : Z → D;
  of_to_bits x : of_bits (to_bits x) = x;
  to_bits_range x : 0 ≤ to_bits x < 2 ^ 64;
}.

Global Instance binary64_words : Words Binary64.word := {
  to_bits := Binary64.bits;
  of_bits := Binary64.of_bits;
  of_to_bits := Binary64.of_bits_bits;
  to_bits_range := Binary64.bits_range;
}.

Record machine := mkMachine {
  registers : register → Z;
  xmm0 : Z;
  pushed : list Z;
  memory : gmap Z Z;
}.
Implicit Type m : machine.

Definition set_register (r : register) (v : Z) m : machine :=
  mkMachine (λ r', if decide (r' = r) then v else registers m r') (xmm0 m) (pushed m) (memory m).
Definition set_xmm0 (v : Z) m : machine := mkMachine (registers m) v (pushed m) (memory m).
Definition set_pushed (st : list Z) m : machine := mkMachine (registers m) (xmm0 m) st (memory m).

(** A write to memory, which must be there. *)
Definition store (a v : Z) m : option machine :=
  match memory m !! a with
  | Some _ => Some (mkMachine (registers m) (xmm0 m) (pushed m) (<[a := v]> (memory m)))
  | None => None
  end.

Section Processor.
Context {D : Type} `{Arithmetic D, !Words D}.
(** The C function at an address. *)
Context (functions_at : Z → option (D → D)).
(** What a C function leaves in the registers it may change. *)
Context (clobbered : machine → register → Z).

Definition preserved (r : register) : bool := bool_decide (r = RBX).

(** A call: an odd number of words has been pushed since the entry, which leaves
    the stack aligned. *)
Definition call (p : Z) m : option machine :=
  if Nat.odd (length (pushed m)) then
    f ← functions_at p;
    Some (mkMachine (λ r, if preserved r then registers m r else clobbered m r) (to_bits (f (of_bits (xmm0 m)))) (pushed m) (memory m))
  else None.

Definition exec (i : instr) m : option machine :=
  match i with
  | Push r => Some (set_pushed (registers m r :: pushed m) m)
  | Pop r => match pushed m with v :: st => Some (set_register r v (set_pushed st m)) | [] => None end
  | MovRR dst src => Some (set_register dst (registers m src) m)
  | MovImm dst imm => Some (set_register dst imm m)
  | StoreReg src base disp => store (registers m base + disp) (registers m src) m
  | LoadXmm0 base disp => v ← memory m !! (registers m base + disp); Some (set_xmm0 v m)
  | OpXmm0 op base disp =>
      v ← memory m !! (registers m base + disp);
      Some (set_xmm0 (to_bits (apply_operation op (of_bits (xmm0 m)) (of_bits v))) m)
  | StoreXmm0 base disp => store (registers m base + disp) (xmm0 m) m
  | CallMem base disp => p ← memory m !! (registers m base + disp); call p m
  | Return => None
  end.

(** Running the bytes up to a return with nothing left on the stack. *)
Fixpoint run (fuel : nat) (code : list Z) m : option machine :=
  match fuel with
  | O => None
  | S fuel =>
      '(i, rest) ← decode code;
      match i with
      | Return => if bool_decide (pushed m = []) then Some m else None
      | _ => m ← exec i m; run fuel rest m
      end
  end.
End Processor.
(** ** Encodings *)

(** The bytes of an instruction. *)
Definition modrm_of (r : register) : Z := match r with RSI => 0x86 | RDI => 0x87 | _ => 0x83 end.

Definition op_code (op : MathOperation) : Z :=
  match op with add => 0x58 | subtract => 0x5c | multiply => 0x59 | divide => 0x5e end.

Definition encode (i : instr) : list Z :=
  match i with
  | Push RBX => push_rbx | Push RSI => push_rsi | Push RDI => push_rdi | Push _ => push_rdx
  | Pop RBX => pop_rbx | Pop RSI => pop_rsi | Pop RDI => pop_rdi | Pop _ => pop_rdx
  | MovRR _ _ => mov_rsi_rbx
  | MovImm _ imm => [0x48; 0xb8] ++ le_bytes 8 imm
  | StoreReg _ base disp => [0x48; 0x89; modrm_of base] ++ le_bytes 4 disp
  | LoadXmm0 base disp => [0xf2; 0x0f; 0x10; modrm_of base] ++ le_bytes 4 disp
  | OpXmm0 op base disp => [0xf2; 0x0f; op_code op; modrm_of base] ++ le_bytes 4 disp
  | StoreXmm0 base disp => [0xf2; 0x0f; 0x11; modrm_of base] ++ le_bytes 4 disp
  | CallMem _ disp => [0xff; 0x52; Z.land disp 255]
  | Return => ret
  end.

Definition base_ok (r : register) : bool := match r with RBX | RSI | RDI => true | _ => false end.
Definition disp_ok (disp : Z) : Prop := 0 ≤ disp < 2 ^ 31.

(** The instructions that the encodings are for. *)
Definition instr_ok (i : instr) : Prop :=
  match i with
  | Push r | Pop r => r ≠ RAX
  | MovRR dst src => dst = RBX ∧ src = RSI
  | MovImm dst imm => dst = RAX ∧ 0 ≤ imm < 2 ^ 64
  | StoreReg src base disp => src = RAX ∧ base_ok base = true ∧ disp_ok disp
  | LoadXmm0 base disp | OpXmm0 _ base disp | StoreXmm0 base disp => base_ok base = true ∧ disp_ok disp
  | CallMem base disp => base = RDX ∧ 0 ≤ disp < 128
  | Return => True
  end.

Lemma le_bytes_length n x : length (le_bytes n x) = n.
Proof. revert x. induction n as [|n IH]; intros x; [done|]. cbn. by rewrite IH. Qed.

Lemma le_combine_bytes n x : le_combine (le_bytes n x) = x mod 2 ^ (8 * Z.of_nat n).
Proof.
  revert x. induction n as [|n IH]; intros x; cbn [le_bytes le_combine]; [by rewrite Z.mod_1_r|].
  rewrite IH. change 255 with (Z.ones 8). rewrite Z.land_ones, Z.shiftr_div_pow2 by lia.
  replace (8 * Z.of_nat (S n)) with (8 + 8 * Z.of_nat n) by lia. rewrite Z.pow_add_r by lia.
  rewrite Z.rem_mul_r by (try lia; apply Z.pow_nonzero; lia). done.
Qed.

Lemma take_bytes_app n l rest : length l = n → take_bytes n (l ++ rest) = Some (l, rest).
Proof.
  intros Hl. unfold take_bytes. rewrite length_app, (proj2 (Nat.leb_le _ _)) by lia.
  by rewrite take_app_length', drop_app_length'.
Qed.

Lemma base_of_modrm r : base_ok r = true → base_of (modrm_of r) = Some r.
Proof. by destruct r. Qed.

Lemma decode_memory_ok f r disp rest : base_ok r = true → disp_ok disp →
  decode_memory f (modrm_of r :: le_bytes 4 disp ++ rest) = Some (f r disp, rest).
Proof.
  intros Hr Hd. unfold decode_memory. rewrite base_of_modrm by done. cbn [mbind option_bind].
  rewrite take_bytes_app by apply le_bytes_length. cbn [mbind option_bind]. do 3 f_equal.
  rewrite le_combine_bytes, Z.mod_small by (unfold disp_ok in Hd; lia). unfold signed, disp_ok in *. destruct (Z.ltb_spec disp (2 ^ (32 - 1))); lia.
Qed.

(** The processor reads what was encoded. *)
Lemma decode_instruction_encode i rest : instr_ok i → decode (encode i ++ rest) = Some (i, rest).
Proof.
  destruct i as [r|r|dst src|dst imm|src base disp|base disp|op base disp|base disp|base disp|]; cbn [instr_ok]; intros Hi.
  - by destruct r.
  - by destruct r.
  - by destruct Hi as [-> ->].
  - destruct Hi as [-> Hi]. cbn -[le_bytes le_combine]. rewrite take_bytes_app by apply le_bytes_length. cbn [mbind option_bind].
    by rewrite le_combine_bytes, Z.mod_small.
  - destruct Hi as (-> & Hb & Hd). cbn -[decode_memory le_bytes modrm_of]. rewrite decode_memory_ok by done. by destruct base.
  - destruct Hi as (Hb & Hd). cbn -[decode_memory le_bytes modrm_of]. by rewrite decode_memory_ok.
  - destruct Hi as (Hb & Hd). destruct op; cbn -[decode_memory le_bytes modrm_of]; by rewrite decode_memory_ok.
  - destruct Hi as (Hb & Hd). cbn -[decode_memory le_bytes modrm_of]. by rewrite decode_memory_ok.
  - destruct Hi as [-> Hd]. cbn -[Z.land]. do 3 f_equal. change 255 with (Z.ones 8).
    rewrite Z.land_ones, Z.mod_small by lia. unfold signed. destruct (Z.ltb_spec disp (2 ^ (8 - 1))); lia.
  - done.
Qed.

Lemma displacement_ok offset : 0 ≤ offset < 2 ^ 28 - 16 → disp_ok (displacement offset).
Proof. unfold disp_ok, displacement. lia. Qed.

(** ** Straight-line code *)

Section Straight.
Context {D : Type} `{Arithmetic D, !Words D} (functions_at : Z → option (D → D)) (clobbered : machine → register → Z).
Local Abbreviation exec := (exec functions_at clobbered).
Local Abbreviation run := (run functions_at clobbered).

Fixpoint exec_all (c : list instr) m : option machine :=
  match c with [] => Some m | i :: c => m ← exec i m; exec_all c m end.

Lemma exec_all_app c1 c2 m : exec_all (c1 ++ c2) m = m ← exec_all c1 m; exec_all c2 m.
Proof. revert m. induction c1 as [|i c1 IH]; intros m; [done|]. cbn. destruct (exec i m); cbn; [apply IH|done]. Qed.

(** Running the bytes of instructions is executing them. *)
Lemma run_straight c rest m m' fuel : Forall instr_ok c → exec_all c m = Some m' →
  run (length c + fuel) ((c ≫= encode) ++ rest) m = run fuel rest m'.
Proof.
  intros Hok. revert m. induction Hok as [|i c Hi Hok IH]; intros m E; cbn in *; [by injection E as ->|].
  destruct (exec i m) as [m1|] eqn:E1; cbn in E; [|done]. rewrite <- app_assoc, decode_instruction_encode by done. cbn.
  destruct i; try (rewrite E1; cbn; by apply IH). done.
Qed.

Lemma run_return m fuel rest : pushed m = [] → run (S fuel) (ret ++ rest) m = Some m.
Proof. intros Hp. cbn. by rewrite Hp. Qed.

Lemma run_more k fuel code m r : run fuel code m = Some r → run (k + fuel) code m = Some r.
Proof.
  revert code m. induction fuel as [|fuel IH]; intros code m; [done|]. rewrite Nat.add_succ_r. cbn.
  destruct (decode code) as [[i rest]|]; [|done]. cbn. destruct i; try done; (destruct (exec _ m); cbn; [apply IH|done]).
Qed.
End Straight.

Lemma encode_length i : (1 ≤ length (encode i))%nat.
Proof. destruct i as [[]|[]| | | | | | | |]; cbn; lia. Qed.

Lemma encode_all_length c : (length c ≤ length (c ≫= encode))%nat.
Proof. induction c as [|i c IH]; [done|]. cbn. rewrite length_app. pose proof (encode_length i). lia. Qed.
End X64.
