(* ===== verification/FnCasJit.v ===== *)
(** * The native compiler: [JITCodeGenerator] of fncas/fncas/jit.h

    The generator walks the nodes like [eval_node], but marks a node when it is
    first met, and appends the bytes that compute it when those it depends on are
    there.  [f_code] and [g_code] are the functions [f_compiled_x64_native_jit] and
    [g_compiled_x64_native_jit] compile to; [invoke] is the call of
    [CallableVectorUInt8]. *)

From Stdlib Require Import ZArith Lia.
From stdpp Require Import base list sets gmap.
From S2P Require Import Prelude State FnCasArith FnCasNode FnCasDiff X64.
Open Scope Z_scope.

Import FnCas FnCasNode FnCasDiff X64.

Module FnCasJit.

Section Generator.
Context {D : Type} `{Arithmetic D, !Words D}.
Implicit Types (nodes : list (@node_impl D)) (n : @node_impl D).

Record JITCodeGenerator := mkGenerator {
  code : list Z;
  dim : Z;
  computed : list bool;
  max_dim : Z;
}.
Implicit Type g : JITCodeGenerator.

Definition append (bytes : list Z) g : JITCodeGenerator := mkGenerator (code g ++ bytes) (dim g) (computed g) (max_dim g).

Definition generator_new (dim : Z) : JITCodeGenerator := mkGenerator (push_rbx ++ mov_rsi_rbx) dim [] 0.

(** The destructor. *)
Definition generator_end g : list Z := code g ++ pop_rbx ++ ret.

(** ** The bytes of a node *)

Definition operation_code (op : MathOperation) (offset : Z) : list Z :=
  match op with
  | add => add_from_memory_by_rbx_offset_to_xmm0 offset
  | subtract => sub_from_memory_by_rbx_offset_to_xmm0 offset
  | multiply => mul_from_memory_by_rbx_offset_to_xmm0 offset
  | divide => div_from_memory_by_rbx_offset_to_xmm0 offset
  end.

(** At the first visit. *)
Definition enter_code (dim i : Z) n : list Z :=
  match n with
  | variable_node v => load_from_memory_by_rdi_offset_to_xmm0 v ++ store_xmm0_to_memory_by_rbx_offset (i + dim)
  | value_node v => load_immediate_to_memory_by_rbx_offset (i + dim) (to_bits v)
  | _ => []
  end.

(** At the second. *)
Definition leave_code (dim i : Z) n : list Z :=
  match n with
  | operation_node op lhs rhs =>
      load_from_memory_by_rbx_offset_to_xmm0 (lhs + dim) ++ operation_code op (rhs + dim) ++ store_xmm0_to_memory_by_rbx_offset (i + dim)
  | function_node f argument =>
      load_from_memory_by_rbx_offset_to_xmm0 (argument + dim) ++ push_rdi ++ push_rdx ++
      call_function_from_rdx_pointers_array_by_index (function_index f) ++ pop_rdx ++ pop_rdi ++
      store_xmm0_to_memory_by_rbx_offset (i + dim)
  | _ => []
  end.

(** [computed.resize(i + 1)] if it is shorter. *)
Definition resized (computed : list bool) (i : Z) : list bool := grow computed i false.

(** One round, with [i] popped: the nodes to push, the top first. *)
Definition jit_round nodes (i : Z) g : outcome fncas_exception (list Z * JITCodeGenerator) :=
  let dependent_i := Z.lnot i in
  if dependent_i <? i then
    let g := mkGenerator (code g) (dim g) (resized (computed g) i) (Z.max (max_dim g) i) in
    if grown (computed g) i false then Ok ([], g)
    else
      let g := mkGenerator (code g) (dim g) (<[Z.to_nat i := true]> (computed g)) (max_dim g) in
      n ← node_of nodes i;
      Ok (match n with
          | operation_node _ lhs rhs => [rhs; lhs; Z.lnot i]
          | function_node _ argument => [argument; Z.lnot i]
          | _ => []
          end, append (enter_code (dim g) i n) g)
  else
    n ← node_of nodes dependent_i;
    match n with
    | operation_node _ _ _ | function_node _ _ => Ok ([], append (leave_code (dim g) dependent_i n) g)
    | _ => Throw (Fault AssertionFailed)
    end.

Fixpoint jit_loop (fuel : nat) nodes (stack : list Z) g : outcome fncas_exception JITCodeGenerator :=
  match stack with
  | [] => Ok g
  | i :: stack =>
      match fuel with
      | O => Throw OutOfFuel
      | S fuel => '(pushed, g) ← jit_round nodes i g; jit_loop fuel nodes (pushed ++ stack) g
      end
  end.

Definition jit_compile_node nodes (index : Z) g : outcome fncas_exception JITCodeGenerator :=
  jit_loop (eval_fuel nodes) nodes [index] g.

(** ** Functions and gradients *)

Record compiled := mkCompiled { jit_compiled_code : list Z; heap_size : Z }.

(** [f_compiled_x64_native_jit::generate_code_for_f]. *)
Definition f_code nodes (f : Z) : outcome fncas_exception compiled :=
  g ← jit_compile_node nodes f (generator_new 0);
  Ok (mkCompiled (generator_end (append (load_from_memory_by_rbx_offset_to_xmm0 f) g)) (max_dim g + 1)).

(** [g_compiled_x64_native_jit::generate_code_for_g]. *)
Definition generate_code_for_g nodes (v output_index : Z) g : outcome fncas_exception JITCodeGenerator :=
  g ← jit_compile_node nodes v g;
  Ok (append (load_from_memory_by_rbx_offset_to_xmm0 (v + dim g) ++ store_xmm0_to_memory_by_rbx_offset output_index) g).

Fixpoint generate_all nodes (gs : list Z) (i : Z) g : outcome fncas_exception JITCodeGenerator :=
  match gs with
  | [] => Ok g
  | v :: gs => g ← generate_code_for_g nodes v i g; generate_all nodes gs (i + 1) g
  end.

(** The constructor of [g_compiled_x64_native_jit]. *)
Definition g_code (s : @internals_impl D) (g : g_impl) : outcome fncas_exception compiled :=
  let dim := Z.of_nat (length (g_ g)) in
  if dim =? dim_ s then
    gen ← generate_all (node_vector_ s) (g_ g) 0 (generator_new dim);
    if dim <=? max_dim gen + 1 then Ok (mkCompiled (generator_end gen) (dim + max_dim gen + 1)) else Throw (Fault AssertionFailed)
  else Throw (Fault AssertionFailed).

(** ** Calling the code: [CallableVectorUInt8] *)

Definition kX64NativeJITExecutablePageSize : Z := 4096.

Definition allocated_size (size : Z) : Z :=
  kX64NativeJITExecutablePageSize * ((size + kX64NativeJITExecutablePageSize - 1) / kX64NativeJITExecutablePageSize).

(** [operator()(x, o, f)]: the pointers are shifted by sixteen doubles, and the
    table of functions by one. *)
Definition invoke (functions_at : Z → option (D → D)) (clobbered : machine → register → Z) (bytes : list Z) (x o f : Z) (m : machine)
    : option machine :=
  let m := set_register RDI (x - 16 * 8) (set_register RSI (o - 16 * 8) (set_register RDX (f - 1 * 8) (set_pushed [] m))) in
  run functions_at clobbered (length bytes) bytes m.
End Generator.
End FnCasJit.
