(* ===== verification/FnCasJitProof.v ===== *)
(** * Compiled functions compute what is recorded

    The generator appends the code of the nodes of [schedule], in its order
    ([jit_visit]); the processor that runs it keeps the values of the nodes in the
    cells of the buffer, and finds its registers, its arguments and its stack where
    it left them ([exec_schedule]). *)

From Stdlib Require Import ZArith Lia.
From stdpp Require Import base list sets gmap.
From S2P Require Import Prelude State FnCasArith FnCasNode FnCasDiff X64 FnCasJit.
Open Scope Z_scope.

Import FnCas FnCasNode FnCasDiff X64 FnCasJit.

(** ** The order of the code *)

Section Order.
Context {D : Type} `{Arithmetic D, !Words D}.
Implicit Types (nodes : list (@node_impl D)) (n : @node_impl D) (done : list Z) (g : JITCodeGenerator).

(** The bytes that compute a node. *)
Definition emit (dim : Z) nodes (i : Z) : list Z :=
  match nodes !! Z.to_nat i with Some n => enter_code dim i n ++ leave_code dim i n | None => [] end.

(** The marks of the nodes up to [i] are those of [done]. *)
Definition marked (B : list bool) done (i : Z) : Prop := ∀ j, 0 ≤ j ≤ i → B !! Z.to_nat j = Some true ↔ j ∈ done.

Lemma grow_true (B : list bool) i j : 0 ≤ i → 0 ≤ j → grow B i false !! Z.to_nat j = Some true ↔ B !! Z.to_nat j = Some true.
Proof. intros Hi Hj. split; [intros [|[_ ?]]%grow_lookup_inv; done|by apply grow_lookup]. Qed.

Lemma set_true (B : list bool) i j : 0 ≤ i → 0 ≤ j →
  <[Z.to_nat i := true]> (grow B i false) !! Z.to_nat j = Some true ↔ j = i ∨ B !! Z.to_nat j = Some true.
Proof.
  intros Hi Hj. rewrite <- (grow_true B i j Hi Hj). destruct (decide (j = i)) as [->|Hne].
  - rewrite list_lookup_insert_eq by by apply grow_length. naive_solver.
  - rewrite list_lookup_insert_ne by lia. naive_solver.
Qed.

Lemma grown_marked B done i : 0 ≤ i → marked B done i → grown (grow B i false) i false = bool_decide (i ∈ done).
Proof.
  intros Hi HB. assert (grow B i false !! Z.to_nat i = Some true ↔ i ∈ done) as Hf by (rewrite grow_true by done; apply HB; lia).
  unfold grown. destruct (grow B i false !! Z.to_nat i) as [[]|] eqn:E; cbn; case_bool_decide; naive_solver.
Qed.

(** What visiting a node does to the generator. *)
Definition jit_visited nodes done sched (i : Z) g : Prop := ∃ k B, (k ≤ 1 + 3 * length sched)%nat ∧
  (∀ fuel st, jit_loop (k + fuel) nodes (i :: st) g =
     jit_loop fuel nodes st (mkGenerator (code g ++ (sched ≫= emit (dim g) nodes)) (dim g) B (Z.max (max_dim g) i))) ∧
  marked B (done ++ sched) i ∧ (∀ j, i < j → B !! Z.to_nat j = Some true ↔ computed g !! Z.to_nat j = Some true).

Lemma marked_below B B' done sched c b : Forall (λ j, j ≤ c) sched → 0 ≤ c → marked B done b → marked B' (done ++ sched) c →
  (∀ j, c < j → B' !! Z.to_nat j = Some true ↔ B !! Z.to_nat j = Some true) → ∀ j, 0 ≤ j ≤ b → B' !! Z.to_nat j = Some true ↔ j ∈ done ++ sched.
Proof.
  intros HF Hc HB HB' Hab j Hj. destruct (decide (j ≤ c)) as [Hle|Hgt]; [apply HB'; lia|].
  rewrite Hab, (HB j Hj), elem_of_app by lia. split; [by left|]. intros [|Hin]; [done|].
  eapply Forall_forall in HF; [|exact Hin]. cbn in HF. lia.
Qed.

Lemma jit_loop_enter fuel nodes i st g n : 0 ≤ i → grown (grow (computed g) i false) i false = false → node_of nodes i = Ok n →
  jit_loop (S fuel) nodes (i :: st) g = jit_loop fuel nodes
    (match n with operation_node _ l r => [r; l; Z.lnot i] | function_node _ a => [a; Z.lnot i] | _ => [] end ++ st)
    (mkGenerator (code g ++ enter_code (dim g) i n) (dim g) (<[Z.to_nat i := true]> (grow (computed g) i false)) (Z.max (max_dim g) i)).
Proof.
  intros H0 Hgr Hn. cbn [jit_loop]. unfold jit_round. rewrite lnot_lt by done. cbn [computed dim code max_dim]. unfold resized.
  by rewrite Hgr, Hn.
Qed.

Lemma jit_loop_leave fuel nodes i st g n : 0 ≤ i → node_of nodes i = Ok n → children n ≠ [] →
  jit_loop (S fuel) nodes (Z.lnot i :: st) g = jit_loop fuel nodes st (append (leave_code (dim g) i n) g).
Proof.
  intros H0 Hn Hc. cbn [jit_loop]. unfold jit_round. rewrite lnot_lnot_lt, Z.lnot_involutive, Hn by done. by destruct n.
Qed.

Lemma jit_visit gdim nodes fuel done i g : graph_ok gdim nodes → valid nodes i → (Z.to_nat i < fuel)%nat → marked (computed g) done i →
  jit_visited nodes done (visit fuel nodes done i) i g.
Proof.
  intros Hg. revert done i g. induction fuel as [|fuel IH]; intros done i g Hi Hf HB; [lia|].
  pose proof Hi as [H0 _]. pose proof (grown_marked _ _ _ H0 HB) as Hgr. cbn [visit].
  case_bool_decide as Hin.
  { exists 1%nat, (grow (computed g) i false). split_and!; [cbn; lia| | |].
    - intros f st. cbn [Nat.add jit_loop]. unfold jit_round. rewrite lnot_lt by done. cbn [computed dim code max_dim]. unfold resized.
      rewrite Hgr. cbn. by rewrite app_nil_r.
    - rewrite app_nil_r. intros j Hj. rewrite grow_true by lia. by apply HB.
    - intros j Hj. apply grow_true; lia. }
  destruct (node_of_ok nodes i Hi) as (n & Hn & En). pose proof (λ c, valid_child gdim nodes i n c Hg Hi Hn) as Hc.
  pose proof (graph_dim _ _ Hg) as Hd. pose proof (λ fuel st, jit_loop_enter fuel nodes i st g n H0 Hgr En) as Henter.
  pose proof (λ fuel st g, jit_loop_leave fuel nodes i st g n H0 En) as Hleave.
  set (B1 := <[Z.to_nat i := true]> (grow (computed g) i false)) in *.
  assert (∀ j, 0 ≤ j → B1 !! Z.to_nat j = Some true ↔ j = i ∨ computed g !! Z.to_nat j = Some true) as HB1 by (intros j; by apply set_true).
  assert (∀ b, b < i → marked B1 done b) as Hm1.
  { intros b Hb j Hj. rewrite HB1 by lia. rewrite <- (HB j) by lia. naive_solver lia. }
  assert (∀ sched B, (∀ j, 0 ≤ j < i → B !! Z.to_nat j = Some true ↔ j ∈ done ++ sched) → (∀ j, i ≤ j → B !! Z.to_nat j = Some true ↔ B1 !! Z.to_nat j = Some true) →
    marked B (done ++ sched ++ [i]) i ∧ (∀ j, i < j → B !! Z.to_nat j = Some true ↔ computed g !! Z.to_nat j = Some true)) as Hend.
  { intros sched B Hlt Hge. split.
    - intros j Hj. rewrite app_assoc, elem_of_app, list_elem_of_singleton. destruct (decide (j = i)) as [->|Hne].
      + rewrite Hge, HB1 by lia. naive_solver.
      + rewrite Hlt by lia. naive_solver.
    - intros j Hj. rewrite Hge, HB1 by lia. naive_solver lia. }
  assert (emit (dim g) nodes i = enter_code (dim g) i n ++ leave_code (dim g) i n) as Hemit by (unfold emit; by rewrite Hn).
  rewrite Hn. destruct n as [v|v|op l r|f a]; cbn [children] in *.
  1,2: exists 1%nat, B1; split_and!; [cbn; lia| |..];
    [intros fu st; cbn [Nat.add]; rewrite Henter; cbn [app mbind list_bind]; rewrite Hemit; cbn [leave_code]; by rewrite !app_nil_r
    |apply (Hend []); [intros j Hj; rewrite app_nil_r; by apply (Hm1 (i - 1)); lia|done]
    |intros j Hj; rewrite HB1 by lia; naive_solver lia].
  - destruct (Hc r) as [Hvr Hr]; [set_solver|]. destruct (Hc l) as [Hvl Hl]; [set_solver|].
    set (g1 := mkGenerator (code g ++ enter_code (dim g) i (operation_node op l r)) (dim g) B1 (Z.max (max_dim g) i)) in *.
    destruct (IH done r g1 Hvr) as (k1 & B2 & K1 & E1 & HB2 & HA2); [lia|by apply Hm1; lia|].
    destruct (visit_topo gdim nodes fuel done r Hg Hvr) as (_ & _ & Fr); [lia|].
    set (s1 := visit fuel nodes done r) in *. cbn [dim max_dim g1 code computed] in *.
    pose proof (marked_below B1 B2 done s1 r (i - 1) Fr ltac:(lia) (Hm1 (i - 1) ltac:(lia)) HB2 HA2) as Hb2.
    match type of E1 with ∀ _ _, _ = jit_loop _ _ _ ?gg => set (g2 := gg) in * end.
    destruct (IH (done ++ s1) l g2 Hvl) as (k2 & B3 & K2 & E2 & HB3 & HA3); [lia|intros j Hj; apply Hb2; lia|].
    destruct (visit_topo gdim nodes fuel (done ++ s1) l Hg Hvl) as (_ & _ & Fl); [lia|].
    set (s2 := visit fuel nodes (done ++ s1) l) in *. cbn [dim max_dim g2 code computed] in *.
    pose proof (marked_below B2 B3 (done ++ s1) s2 l (i - 1) Fl ltac:(lia) Hb2 HB3 HA3) as Hb3.
    exists (S (k1 + (k2 + 1)))%nat, B3.
    assert (marked B3 (done ++ (s1 ++ s2) ++ [i]) i ∧ (∀ j, i < j → B3 !! Z.to_nat j = Some true ↔ computed g !! Z.to_nat j = Some true)) as [M1 M2].
    { apply Hend; [intros j Hj; rewrite app_assoc; apply Hb3; lia|]. intros j Hj. rewrite HA3, HA2 by lia. done. }
    rewrite <- app_assoc in M1. split_and!; [rewrite !length_app; cbn; lia| |done|done].
    intros fu st. cbn [Nat.add]. rewrite Henter. cbn [app]. rewrite <- !Nat.add_assoc, E1, E2. cbn [Nat.add]. rewrite Hleave by done.
    unfold append, g2, g1. cbn [code dim computed max_dim]. f_equal. f_equal; [|lia].
    rewrite !bind_app, <- !app_assoc. cbn. by rewrite Hemit, app_nil_r.
  - destruct (Hc a) as [Hva Ha]; [set_solver|].
    set (g1 := mkGenerator (code g ++ enter_code (dim g) i (function_node f a)) (dim g) B1 (Z.max (max_dim g) i)) in *.
    destruct (IH done a g1 Hva) as (k1 & B2 & K1 & E1 & HB2 & HA2); [lia|by apply Hm1; lia|].
    destruct (visit_topo gdim nodes fuel done a Hg Hva) as (_ & _ & Fr); [lia|].
    set (s1 := visit fuel nodes done a) in *. cbn [dim max_dim g1 code computed] in *.
    pose proof (marked_below B1 B2 done s1 a (i - 1) Fr ltac:(lia) (Hm1 (i - 1) ltac:(lia)) HB2 HA2) as Hb2.
    exists (S (k1 + 1))%nat, B2. destruct (Hend s1 B2) as [M1 M2]; [intros j Hj; apply Hb2; lia|intros j Hj; rewrite HA2 by lia; done|].
    split_and!; [rewrite !length_app; cbn; lia| |done|done].
    intros fu st. cbn [Nat.add]. rewrite Henter. cbn [app]. rewrite <- !Nat.add_assoc, E1. cbn [Nat.add]. rewrite Hleave by done.
    unfold append, g1. cbn [code dim computed max_dim]. f_equal. f_equal; [|lia].
    rewrite !bind_app, <- !app_assoc. cbn. by rewrite Hemit, app_nil_r.
Qed.
End Order.

(** ** Running the code *)

Section Execution.
Context {D : Type} `{Arithmetic D, !Words D}.
Context (functions_at : Z → option (D → D)) (clobbered : machine → register → Z).
(** The addresses of the arguments, the buffer and the table of functions. *)
Context (X O F : Z).
Context (nodes : list (@node_impl D)) (x : list D).
Implicit Types (n : @node_impl D) (done sched : list Z) (m : machine).

Definition cell (k : Z) : Z := O + 8 * k.

(** What the code is given: the arguments, the table of functions, and a buffer of
    [size] numbers apart from them. *)
Record layout (size : Z) (mem : gmap Z Z) : Prop := {
  layout_x v d : x !! v = Some d → mem !! (X + 8 * Z.of_nat v) = Some (to_bits d);
  layout_f f : ∃ p, mem !! (F + 8 * function_index f) = Some p ∧ functions_at p = Some (apply_function f);
  layout_buffer k : 0 ≤ k < size → is_Some (mem !! cell k);
  layout_apart k : 0 ≤ k < size → (∀ v, (v < length x)%nat → cell k ≠ X + 8 * Z.of_nat v) ∧ (∀ f, cell k ≠ F + 8 * function_index f);
}.

Lemma layout_store size mem k w : 0 ≤ k < size → layout size mem → layout size (<[cell k := w]> mem).
Proof.
  intros Hk [Hx Hf Hb Ha]. destruct (Ha k Hk) as [Hax Haf]. split; [..|done].
  - intros v d Hv. rewrite lookup_insert_ne; [by apply Hx|]. apply Hax. by eapply lookup_lt_Some.
  - intros f. rewrite lookup_insert_ne by done. apply Hf.
  - intros k' Hk'. apply lookup_insert_is_Some'. right. by apply Hb.
Qed.

(** The registers and the stack between nodes. *)
Record steady (saved : Z) m : Prop := {
  steady_rdi : registers m RDI = X - 16 * 8;
  steady_rdx : registers m RDX = F - 1 * 8;
  steady_rbx : registers m RBX = O - 16 * 8;
  steady_pushed : pushed m = [saved];
}.

Context (dim size : Z).

Definition instrs (i : Z) n : list instr :=
  match n with
  | variable_node v => [LoadXmm0 RDI (displacement v); StoreXmm0 RBX (displacement (i + dim))]
  | value_node v => [MovImm RAX (to_bits v); StoreReg RAX RBX (displacement (i + dim))]
  | operation_node op l r => [LoadXmm0 RBX (displacement (l + dim)); OpXmm0 op RBX (displacement (r + dim)); StoreXmm0 RBX (displacement (i + dim))]
  | function_node f a => [LoadXmm0 RBX (displacement (a + dim)); Push RDI; Push RDX; CallMem RDX ((function_index f + 1) * 8); Pop RDX; Pop RDI;
      StoreXmm0 RBX (displacement (i + dim))]
  end.

Lemma emit_instrs i n : nodes !! Z.to_nat i = Some n → emit dim nodes i = instrs i n ≫= encode.
Proof.
  intros Hn. unfold emit. rewrite Hn. destruct n as [v|v|op l r|f a]; cbn [enter_code leave_code instrs mbind list_bind encode]; rewrite ?app_nil_r.
  - done.
  - done.
  - by destruct op.
  - destruct f; reflexivity.
Qed.

(** The values of the nodes in [done] are in their cells. *)
Definition in_cells done (mem : gmap Z Z) : Prop := ∀ j, j ∈ done → mem !! cell (j + dim) = Some (to_bits (denote nodes x j)).

Lemma cell_address k m saved : steady saved m → registers m RBX + displacement k = cell k.
Proof. intros Hs. rewrite (steady_rbx _ _ Hs). unfold displacement, cell. lia. Qed.

Lemma store_cell k w m saved : 0 ≤ k < size → layout size (memory m) → steady saved m →
  ∃ m', store (registers m RBX + displacement k) w m = Some m' ∧ memory m' = <[cell k := w]> (memory m) ∧
    registers m' = registers m ∧ xmm0 m' = xmm0 m ∧ pushed m' = pushed m.
Proof.
  intros Hk Hl Hs. rewrite (cell_address k m saved Hs). destruct (layout_buffer _ _ Hl k Hk) as [v Hv]. unfold store. rewrite Hv. by eexists.
Qed.

Lemma steady_same saved m m' : registers m' = registers m → pushed m' = pushed m → steady saved m → steady saved m'.
Proof. intros Hr Hp [R1 R2 R3 P]. split; rewrite ?Hr, ?Hp; done. Qed.

Context (gdim : Z) (Hgraph : graph_ok gdim nodes) (Hx : gdim ≤ Z.of_nat (length x)) (Hdim : 0 ≤ dim).

(** The code of one node. *)
Lemma exec_node done i n m saved : valid nodes i → nodes !! Z.to_nat i = Some n → (∀ c, c ∈ children n → c ∈ done) → i + dim < size →
  layout size (memory m) → steady saved m → in_cells done (memory m) →
  ∃ m', exec_all functions_at clobbered (instrs i n) m = Some m' ∧ steady saved m' ∧
    memory m' = <[cell (i + dim) := to_bits (denote nodes x i)]> (memory m).
Proof.
  intros Hv Hn Hc Hsize Hl Hs Hin. pose proof Hv as [H0 _]. rewrite (denote_node gdim nodes x i n Hgraph Hv Hn).
  destruct n as [v|v|op l r|f a]; cbn [instrs exec_all exec children value_of] in *.
  - destruct (graph_nodes _ _ Hgraph _ _ Hn) as [_ Hvar]. destruct (Hvar v eq_refl).
    destruct (lookup_lt_is_Some_2 x (Z.to_nat v)) as [d Hd]; [lia|]. pose proof (layout_x _ _ Hl _ _ Hd) as Hm.
    replace (registers m RDI + displacement v) with (X + 8 * Z.of_nat (Z.to_nat v)) by (rewrite (steady_rdi _ _ Hs); unfold displacement; lia).
    rewrite Hm. cbn [mbind option_bind]. destruct (store_cell (i + dim) (to_bits d) (set_xmm0 (to_bits d) m) saved) as (m' & E & Hmem & Hr & _ & Hp);
      [lia|done|by apply (steady_same _ m)|]. cbn [registers set_xmm0 xmm0] in *. rewrite E. cbn. exists m'. split_and!; [done|by apply (steady_same _ m)|].
    rewrite Hmem. unfold entry_at. by rewrite Hd.
  - cbn [mbind option_bind]. set (m1 := set_register RAX (to_bits v) m). assert (steady saved m1) as Hs1 by (destruct Hs; by split).
    destruct (store_cell (i + dim) (to_bits v) m1 saved) as (m' & E & Hmem & Hr & _ & Hp); [lia|done|done|].
    change (registers m1 RAX) with (to_bits v). rewrite E. cbn. exists m'. split_and!; [done|by apply (steady_same _ m1)|done].
  - rewrite (cell_address (l + dim) m saved Hs), (Hin l) by (apply Hc; set_solver). cbn [mbind option_bind].
    change (registers (set_xmm0 (to_bits (denote nodes x l)) m) RBX) with (registers m RBX). cbn [memory set_xmm0].
    rewrite (cell_address (r + dim) m saved Hs), (Hin r) by (apply Hc; set_solver). cbn [mbind option_bind xmm0 set_xmm0].
    rewrite !of_to_bits. set (w := to_bits _). set (m1 := set_xmm0 w _).
    destruct (store_cell (i + dim) w m1 saved) as (m' & E & Hmem & Hr & _ & Hp); [lia|done|by apply (steady_same _ m)|].
    change (xmm0 m1) with w. rewrite E. cbn. exists m'. split_and!; [done|by apply (steady_same _ m)|done].
  - rewrite (cell_address (a + dim) m saved Hs), (Hin a) by (apply Hc; set_solver). cbn [mbind option_bind registers memory set_xmm0 set_pushed pushed xmm0].
    destruct (layout_f _ _ Hl f) as (p & Hp & Hf).
    replace (registers m RDX + (function_index f + 1) * 8) with (F + 8 * function_index f) by (rewrite (steady_rdx _ _ Hs); lia).
    rewrite Hp. cbn [mbind option_bind]. unfold call. rewrite (steady_pushed _ _ Hs). cbn [length Nat.odd Nat.even negb pushed set_pushed]. cbn.
    rewrite Hf. cbn. rewrite of_to_bits. set (w := to_bits (apply_function f (denote nodes x a))). set (m1 := set_register RDI _ _).
    assert (steady saved m1) as Hs1. { destruct Hs. by split. }
    destruct (store_cell (i + dim) w m1 saved) as (m' & E & Hmem & Hr & _ & Hpu); [lia|done|done|].
    match goal with |- context [store ?p ?q ?r] => change (store p q r) with (store (registers m1 RBX + displacement (i + dim)) w m1) end.
    rewrite E. cbn. exists m'. split_and!; [done|by apply (steady_same _ m1)|done].
Qed.

Definition instrs_of (i : Z) : list instr := match nodes !! Z.to_nat i with Some n => instrs i n | None => [] end.

Lemma emit_all sched : Forall (valid nodes) sched → sched ≫= emit dim nodes = (sched ≫= instrs_of) ≫= encode.
Proof.
  induction 1 as [|i sched Hi _ IH]; [done|]. cbn. rewrite bind_app, IH. f_equal. destruct (node_of_ok nodes i Hi) as (n & Hn & _).
  unfold instrs_of. rewrite Hn. by apply emit_instrs.
Qed.

Lemma in_cells_store done i mem : 0 ≤ i → (∀ j, j ∈ done → 0 ≤ j) → in_cells done mem →
  in_cells (done ++ [i]) (<[cell (i + dim) := to_bits (denote nodes x i)]> mem).
Proof.
  intros Hi Hd Hin j Hj. destruct (decide (j = i)) as [->|Hne]; [apply lookup_insert_eq|].
  rewrite lookup_insert_ne by (unfold cell; lia). apply Hin. set_solver.
Qed.

(** The code of a schedule. *)
Lemma exec_schedule done sched m saved : topo nodes done sched → (∀ j, j ∈ done → 0 ≤ j) → Forall (λ i, i + dim < size) sched →
  layout size (memory m) → steady saved m → in_cells done (memory m) →
  ∃ m', exec_all functions_at clobbered (sched ≫= instrs_of) m = Some m' ∧ layout size (memory m') ∧ steady saved m' ∧
    in_cells (done ++ sched) (memory m') ∧ (∀ a, (∀ j, j ∈ sched → a ≠ cell (j + dim)) → memory m' !! a = memory m !! a).
Proof.
  intros Ht. revert m. induction Ht as [done|done i n sched Hni Hv Hn Hc _ IH]; intros m Hd HF Hl Hs Hin.
  { exists m. rewrite app_nil_r. split_and!; done. }
  inversion_clear HF as [|?? Hi HF']. pose proof Hv as [H0 _].
  destruct (exec_node done i n m saved Hv Hn Hc Hi Hl Hs Hin) as (m1 & E1 & Hs1 & Hm1).
  destruct (IH m1) as (m2 & E2 & Hl2 & Hs2 & Hin2 & Hfr); [set_solver|done|rewrite Hm1; apply layout_store; [lia|done]|done|rewrite Hm1; by apply in_cells_store|].
  exists m2. rewrite <- app_assoc in Hin2. split_and!; [|done|done|done|].
  - assert (instrs_of i = instrs i n) as Ei by (unfold instrs_of; by rewrite Hn). cbn. by rewrite exec_all_app, Ei, E1.
  - intros b Hb. rewrite Hfr by (intros j Hj; apply Hb; set_solver). rewrite Hm1, lookup_insert_ne; [done|]. intros <-. by apply (Hb i); [set_solver|].
Qed.

Context (Hsize : size ≤ 2 ^ 28 - 16) (Hgdim : gdim ≤ 2 ^ 28 - 16).

Lemma instrs_ok i n : valid nodes i → nodes !! Z.to_nat i = Some n → i + dim < size → Forall instr_ok (instrs i n).
Proof.
  intros Hv Hn Hi. pose proof Hv as [H0 _]. assert (disp_ok (displacement (i + dim))) as Hdi by (apply displacement_ok; lia).
  assert (∀ c, c ∈ children n → disp_ok (displacement (c + dim))) as Hc.
  { intros c Hc. destruct (valid_child _ _ _ _ _ Hgraph Hv Hn Hc) as [[] ?]. apply displacement_ok. lia. }
  destruct n as [v|v|op l r|f a]; cbn in *.
  - destruct (graph_nodes _ _ Hgraph _ _ Hn) as [_ Hvar]. destruct (Hvar v eq_refl).
    repeat constructor; cbn; try done; apply displacement_ok; lia.
  - pose proof (to_bits_range v). repeat constructor; cbn; done || lia || apply Hdi.
  - pose proof (Hc l ltac:(set_solver)) as Hl. pose proof (Hc r ltac:(set_solver)) as Hr. repeat constructor; cbn; done || apply Hdi || apply Hl || apply Hr.
  - pose proof (Hc a ltac:(set_solver)) as Ha. repeat constructor; cbn; try done; try apply Hdi; try apply Ha; destruct f; cbn; lia.
Qed.

Lemma schedule_instrs_ok sched : Forall (valid nodes) sched → Forall (λ i, i + dim < size) sched → Forall instr_ok (sched ≫= instrs_of).
Proof.
  intros Hv Hlt. induction Hv as [|i sched Hi _ IH]; [constructor|]. inversion_clear Hlt. cbn. apply Forall_app_2; [|by apply IH].
  destruct (node_of_ok nodes i Hi) as (n & Hn & _). unfold instrs_of. rewrite Hn. by apply instrs_ok.
Qed.
End Execution.

(** ** Compiling a node *)

Section Compile.
Context {D : Type} `{Arithmetic D, !Words D}.
Implicit Types (nodes : list (@node_impl D)) (g : JITCodeGenerator).

Lemma jit_loop_nil fuel nodes g : jit_loop fuel nodes [] g = Ok g.
Proof. by destruct fuel. Qed.

Lemma jit_loop_more k fuel nodes st g r : jit_loop fuel nodes st g = Ok r → jit_loop (k + fuel) nodes st g = Ok r.
Proof.
  revert st g. induction fuel as [|fuel IH]; intros st g.
  - destruct st; [|done]. by rewrite !jit_loop_nil.
  - rewrite Nat.add_succ_r. cbn [jit_loop]. destruct st; [done|]. destruct (jit_round nodes _ g) as [[]|]; cbn; [apply IH|done].
Qed.

Lemma jit_compile_node_ok gdim nodes done i g : graph_ok gdim nodes → valid nodes i → flags (computed g) done →
  let sched := schedule nodes done i in
  ∃ B, jit_compile_node nodes i g = Ok (mkGenerator (code g ++ (sched ≫= emit (dim g) nodes)) (dim g) B (Z.max (max_dim g) i)) ∧
    flags B (done ++ sched) ∧ topo nodes done sched ∧ i ∈ done ++ sched ∧ Forall (λ j, j ≤ i) sched.
Proof.
  intros Hg Hi HB sched. destruct (visit_topo gdim nodes (S (Z.to_nat i)) done i Hg Hi) as (Ht & Hin & HF); [lia|].
  destruct (jit_visit gdim nodes (S (Z.to_nat i)) done i g Hg Hi) as (k & B & Hk & E & HB1 & HB2); [lia|intros j Hj; apply HB; lia|].
  fold (schedule nodes done i) in *. fold sched in Ht, Hin, HF, Hk, E, HB1. exists B. split_and!; [| |done..].
  - unfold jit_compile_node. apply topo_length in Ht. assert (eval_fuel nodes = (eval_fuel nodes - k) + (k + 0))%nat as -> by (unfold eval_fuel; lia).
    apply jit_loop_more. by rewrite E, jit_loop_nil.
  - intros j Hj. destruct Hi as [H0 _].
    eapply (marked_below (computed g) B done sched i (Z.max i j)); [done|done| |done|done|lia]. intros j' Hj'. apply HB. lia.
Qed.
End Compile.

(** ** Compiled functions and gradients

    [f_compiled_ok] and [g_compiled_ok]: the code compiled for a node, and for the
    nodes of a gradient, gives their values in any memory that holds the arguments,
    the table of functions and a buffer of the size asked for, writes to the buffer
    only, and leaves [rbx] as it was. *)

Section Correct.
Context {D : Type} `{Arithmetic D, !Words D}.
Context (functions_at : Z → option (D → D)) (clobbered : machine → register → Z).
Implicit Types (nodes : list (@node_impl D)) (x : list D) (m : machine) (g : JITCodeGenerator).

(** The offsets fit in the instructions. *)
Definition offset_limit : Z := 2 ^ 28 - 16.

(** ** The frame of the code *)

Lemma enter_steady X O F m : let m0 := set_register RDI (X - 16 * 8) (set_register RSI (O - 16 * 8) (set_register RDX (F - 1 * 8) (set_pushed [] m))) in
  ∃ m1, exec_all functions_at clobbered [Push RBX; MovRR RBX RSI] m0 = Some m1 ∧ steady X O F (registers m RBX) m1 ∧ memory m1 = memory m.
Proof. eexists. split; [done|]. split; [by split|done]. Qed.

Lemma leave_steady X O F saved m : steady X O F saved m →
  ∃ m1, exec_all functions_at clobbered [Pop RBX] m = Some m1 ∧ pushed m1 = [] ∧ registers m1 RBX = saved ∧ memory m1 = memory m ∧ xmm0 m1 = xmm0 m.
Proof. intros Hs. cbn. rewrite (steady_pushed _ _ _ _ _ Hs). eexists. split; [done|]. split_and!; done. Qed.

(** The bytes of a whole function. *)
Lemma invoke_body body X O F m (Q : machine → Prop) : Forall instr_ok body →
  (∀ m1, steady X O F (registers m RBX) m1 → memory m1 = memory m →
     ∃ m2, exec_all functions_at clobbered body m1 = Some m2 ∧ steady X O F (registers m RBX) m2 ∧ Q m2) →
  ∃ m', invoke functions_at clobbered ((push_rbx ++ mov_rsi_rbx) ++ (body ≫= encode) ++ pop_rbx ++ ret) X O F m = Some m' ∧
    registers m' RBX = registers m RBX ∧ ∃ m2, Q m2 ∧ memory m' = memory m2 ∧ xmm0 m' = xmm0 m2.
Proof.
  intros Hok Hbody. destruct (enter_steady X O F m) as (m1 & E1 & Hs1 & Hm1). destruct (Hbody m1 Hs1 Hm1) as (m2 & E2 & Hs2 & HQ).
  destruct (leave_steady X O F _ _ Hs2) as (m3 & E3 & Hp3 & Hr3 & Hm3 & Hx3). exists m3. split_and!; [|done|by exists m2].
  set (c := [Push RBX; MovRR RBX RSI] ++ body ++ [Pop RBX]).
  replace ((push_rbx ++ mov_rsi_rbx) ++ (body ≫= encode) ++ pop_rbx ++ ret) with ((c ≫= encode) ++ ret)
    by (unfold c; rewrite !bind_app, <- !app_assoc; done).
  unfold invoke. assert (Forall instr_ok c) as Hall by (apply Forall_app_2; [by repeat constructor|apply Forall_app_2; [done|by repeat constructor]]).
  rewrite length_app. pose proof (encode_all_length c) as Hlen.
  replace (length (c ≫= encode) + length ret)%nat with ((length (c ≫= encode) - length c) + (length c + 1))%nat by (cbn [length ret]; lia).
  apply run_more. erewrite run_straight; [|done|].
  - by rewrite <- (app_nil_r ret), run_return.
  - unfold c. rewrite !exec_all_app, E1. cbn [mbind option_bind]. rewrite exec_all_app, E2. cbn [mbind option_bind]. exact E3.
Qed.

(** ** Functions *)

Lemma f_compiled_ok gdim nodes x f : graph_ok gdim nodes → gdim ≤ Z.of_nat (length x) → valid nodes f → gdim ≤ f → f < offset_limit →
  ∃ c, f_code nodes f = Ok c ∧ heap_size c = f + 1 ∧ ∀ X O F m, layout functions_at X O F x (heap_size c) (memory m) →
    ∃ m', invoke functions_at clobbered (jit_compiled_code c) X O F m = Some m' ∧ of_bits (xmm0 m') = denote nodes x f ∧
      registers m' RBX = registers m RBX ∧
      ∀ a, (∀ k, 0 ≤ k < heap_size c → a ≠ cell O k) → memory m' !! a = memory m !! a.
Proof.
  intros Hg Hx Hf Hgf Hlim. unfold offset_limit in Hlim. pose proof (graph_dim _ _ Hg) as Hd.
  destruct (jit_compile_node_ok gdim nodes [] f (generator_new 0) Hg Hf) as (B & E & _ & Ht & Hin & HF).
  { intros j _. cbn. rewrite lookup_nil. set_solver. }
  set (sched := schedule nodes [] f) in *. destruct (topo_facts _ _ _ Ht) as (_ & Hval & _).
  unfold f_code. rewrite E. cbn [mbind outcome_bind]. eexists. split; [done|]. cbn [heap_size max_dim generator_new] in *.
  split; [lia|]. intros X O F m Hl. replace (Z.max 0 f + 1) with (f + 1) in * by lia.
  assert (Forall (λ i, i + 0 < f + 1) sched) as Hlt by (eapply Forall_impl; [exact HF|]; cbn; lia).
  destruct (invoke_body ((sched ≫= instrs_of nodes 0) ++ [LoadXmm0 RBX (displacement f)]) X O F m
    (λ m2, xmm0 m2 = to_bits (denote nodes x f) ∧ ∀ a, (∀ j, j ∈ sched → a ≠ cell O (j + 0)) → memory m2 !! a = memory m !! a))
    as (m' & Ei & Hrbx & m2 & [Hxm Hfr] & Hmem & Hxm').
  - apply Forall_app_2; [by apply (schedule_instrs_ok functions_at nodes x 0 (f + 1) gdim); try lia|].
    constructor; [|constructor]. split; [done|]. apply displacement_ok. lia.
  - intros m1 Hs1 Hm1. rewrite <- Hm1 in Hl.
    destruct (exec_schedule functions_at clobbered X O F nodes x 0 (f + 1) gdim Hg Hx ltac:(lia) [] sched m1 (registers m RBX) Ht)
      as (m2 & E2 & Hl2 & Hs2 & Hin2 & Hfr); [set_solver|done|done|done|intros j; set_solver|].
    exists (set_xmm0 (to_bits (denote nodes x f)) m2). split_and!; [|by apply (steady_same _ _ _ _ m2)|done|].
    + rewrite exec_all_app, E2. cbn. rewrite (cell_address X O F f m2 _ Hs2). replace (cell O f) with (cell O (f + 0)) by (by rewrite Z.add_0_r).
      by rewrite (Hin2 f).
    + intros a Ha. cbn. rewrite Hfr by done. by rewrite Hm1.
  - exists m'. split_and!; [|by rewrite Hxm', Hxm, of_to_bits|done|].
    + rewrite <- Ei. f_equal. unfold generator_end, append. cbn [code generator_new]. rewrite (emit_all nodes 0 sched Hval), bind_app, <- !app_assoc. done.
    + intros a Ha. rewrite Hmem. apply Hfr. intros j Hj. apply Ha. eapply Forall_forall in HF; [|exact Hj]. eapply Forall_forall in Hval as [? _]; [|exact Hj].
      cbn in *. lia.
Qed.

(** ** Gradients *)

(** The instructions of a gradient, from output [k] on, when the nodes of [done] are computed. *)
Fixpoint gradient_instrs nodes (dim : Z) (done gs : list Z) (k : Z) : list instr :=
  match gs with
  | [] => []
  | v :: gs =>
      let sched := schedule nodes done v in
      (sched ≫= instrs_of nodes dim) ++ [LoadXmm0 RBX (displacement (v + dim)); StoreXmm0 RBX (displacement k)] ++
      gradient_instrs nodes dim (done ++ sched) gs (k + 1)
  end.

Lemma generate_all_ok gdim nodes gs k done g : graph_ok gdim nodes → Forall (valid nodes) gs → flags (computed g) done →
  ∃ B, generate_all nodes gs k g = Ok (mkGenerator (code g ++ (gradient_instrs nodes (dim g) done gs k ≫= encode)) (dim g) B (foldl Z.max (max_dim g) gs)).
Proof.
  intros Hg Hgs. revert k done g. induction Hgs as [|v gs Hv Hgs IH]; intros k done g HB; cbn [generate_all gradient_instrs foldl].
  { exists (computed g). cbn. rewrite app_nil_r. by destruct g. }
  destruct (jit_compile_node_ok gdim nodes done v g Hg Hv HB) as (B & E & HB1 & Ht & _ & _). set (sched := schedule nodes done v) in *.
  destruct (topo_facts _ _ _ Ht) as (_ & Hval & _). unfold generate_code_for_g. rewrite E. cbn [mbind outcome_bind].
  match goal with |- context [generate_all nodes gs (k + 1) ?gg] => destruct (IH (k + 1) (done ++ sched) gg HB1) as (B' & E'); rewrite E' end.
  exists B'. unfold append. cbn [code dim computed max_dim]. do 2 f_equal. rewrite (emit_all nodes (dim g) sched Hval), !bind_app, <- !app_assoc. done.
Qed.

Lemma foldl_max_ge (l : list Z) a : a ≤ foldl Z.max a l ∧ Forall (λ z, z ≤ foldl Z.max a l) l.
Proof.
  revert a. induction l as [|z l IH]; intros a; cbn; [split; [lia|constructor]|]. destruct (IH (Z.max a z)) as [H1 H2].
  split; [lia|]. constructor; [lia|done].
Qed.

Lemma foldl_max_lt (l : list Z) a b : a < b → Forall (λ z, z < b) l → foldl Z.max a l < b.
Proof. intros Ha HF. revert a Ha. induction HF as [|z l Hz _ IH]; intros a Ha; cbn; [done|]. apply IH. lia. Qed.

Lemma gradient_instrs_ok gdim nodes x (dim size : Z) gs done k : graph_ok gdim nodes → gdim ≤ Z.of_nat (length x) → 0 ≤ dim → gdim ≤ offset_limit →
  size ≤ offset_limit → Forall (valid nodes) gs → Forall (λ v, v + dim < size) gs → 0 ≤ k → k + Z.of_nat (length gs) ≤ size →
  Forall instr_ok (gradient_instrs nodes dim done gs k).
Proof.
  intros Hg Hx Hd Hgd Hsize Hgs. revert done k. induction Hgs as [|v gs Hv Hgs IH]; intros done k Hlt Hk Hkl; cbn [gradient_instrs length] in *; [constructor|].
  inversion_clear Hlt as [|?? Hvs Hlt']. destruct Hv as [H0 Hv']. assert (valid nodes v) as Hv by done.
  destruct (visit_topo gdim nodes (S (Z.to_nat v)) done v Hg Hv) as (Ht & _ & HF); [lia|]. destruct (topo_facts _ _ _ Ht) as (_ & Hval & _).
  unfold offset_limit in *. apply Forall_app_2; [|constructor; [|constructor]].
  - apply (schedule_instrs_ok functions_at nodes x dim size gdim); try done. eapply Forall_impl; [exact HF|]. cbn. lia.
  - split; [done|]. apply displacement_ok. lia.
  - split; [done|]. apply displacement_ok. lia.
  - apply IH; [done|lia|lia].
Qed.

(** Running them fills the outputs. *)
Lemma exec_gradient X O F gdim nodes x (dim size : Z) saved gs done k m : graph_ok gdim nodes → gdim ≤ Z.of_nat (length x) →
  Forall (valid nodes) gs → Forall (λ v, v + dim < size) gs → 0 ≤ k → k + Z.of_nat (length gs) ≤ dim → dim ≤ size → (∀ j, j ∈ done → 0 ≤ j) →
  layout functions_at X O F x size (memory m) → steady X O F saved m → in_cells O nodes x dim done (memory m) →
  ∃ m', exec_all functions_at clobbered (gradient_instrs nodes dim done gs k) m = Some m' ∧ steady X O F saved m' ∧
    (∀ i v, gs !! i = Some v → memory m' !! cell O (k + Z.of_nat i) = Some (to_bits (denote nodes x v))) ∧
    (∀ i, 0 ≤ i < k → memory m' !! cell O i = memory m !! cell O i) ∧
    (∀ a, (∀ i, 0 ≤ i < size → a ≠ cell O i) → memory m' !! a = memory m !! a).
Proof.
  intros Hg Hx Hgs. revert done k m. induction Hgs as [|v gs Hv Hgs IH]; intros done k m Hlt Hk Hkl Hds Hdone Hl Hs Hin; cbn [gradient_instrs length] in *.
  { exists m. split_and!; done. }
  inversion_clear Hlt as [|?? Hvs Hlt']. pose proof Hv as [H0 _].
  destruct (visit_topo gdim nodes (S (Z.to_nat v)) done v Hg Hv) as (Ht & Hvin & HF); [lia|]. destruct (topo_facts _ _ _ Ht) as (_ & Hval & _).
  fold (schedule nodes done v) in *. set (sched := schedule nodes done v) in *.
  assert (Forall (λ i, 0 ≤ i ∧ i + dim < size) sched) as Hsched.
  { apply Forall_forall. intros j Hj. eapply Forall_forall in HF; [|exact Hj]. eapply Forall_forall in Hval as [? _]; [|exact Hj]. cbn in HF. lia. }
  destruct (exec_schedule functions_at clobbered X O F nodes x dim size gdim Hg Hx ltac:(lia) done sched m saved Ht)
    as (m1 & E1 & Hl1 & Hs1 & Hin1 & Hfr1); [done|by eapply Forall_impl; [exact Hsched|]; cbn; lia|done..|].
  set (w := to_bits (denote nodes x v)). set (m2 := set_xmm0 w m1).
  destruct (store_cell functions_at X O F x size k w m2 saved) as (m3 & E3 & Hm3 & Hr3 & Hx3 & Hp3); [lia|done|by apply (steady_same _ _ _ _ m1)|].
  destruct (IH (done ++ sched) (k + 1) m3) as (m4 & E4 & Hs4 & Hout4 & Hlow4 & Hfr4);
    [done|lia|lia|done| |rewrite Hm3; apply layout_store; [lia|done]|by apply (steady_same _ _ _ _ m1)| |].
  { intros j [|Hj]%elem_of_app; [by apply Hdone|]. eapply Forall_forall in Hsched; [|exact Hj]. cbn in Hsched. lia. }
  { intros j Hj. rewrite Hm3, lookup_insert_ne; [by apply Hin1|]. unfold cell. assert (0 ≤ j); [|lia].
    apply elem_of_app in Hj as [Hj|Hj]; [by apply Hdone|]. eapply Forall_forall in Hsched; [|exact Hj]. cbn in Hsched. lia. }
  exists m4. split_and!; [|done| | |].
  - rewrite exec_all_app, E1. cbn [mbind option_bind]. cbn [app exec_all exec]. rewrite (cell_address X O F (v + dim) m1 saved Hs1), (Hin1 v) by done.
    cbn [mbind option_bind]. fold w. fold m2. change (xmm0 m2) with w. rewrite E3. cbn [mbind option_bind]. exact E4.
  - intros [|i] v' Hi; cbn in Hi.
    + injection Hi as <-. rewrite Z.add_0_r, Hlow4, Hm3 by lia. apply lookup_insert_eq.
    + replace (k + Z.of_nat (S i)) with (k + 1 + Z.of_nat i) by lia. by apply Hout4.
  - intros i Hi. rewrite Hlow4, Hm3, lookup_insert_ne by (unfold cell; lia). cbn [memory m2 set_xmm0]. apply Hfr1.
    intros j Hj. eapply Forall_forall in Hsched; [|exact Hj]. cbn in Hsched. unfold cell. lia.
  - intros a Ha. rewrite Hfr4, Hm3 by done. rewrite lookup_insert_ne by (intros <-; by apply (Ha k); [lia|]). cbn [memory m2 set_xmm0]. apply Hfr1.
    intros j Hj. apply Ha. eapply Forall_forall in Hsched; [|exact Hj]. cbn in Hsched. lia.
Qed.

Lemma g_compiled_ok (s : @internals_impl D) (g : g_impl) x : graph_ok (dim_ s) (node_vector_ s) → dim_ s ≤ Z.of_nat (length x) →
  Z.of_nat (length (g_ g)) = dim_ s → Forall (λ v, dim_ s ≤ v ∧ valid (node_vector_ s) v) (g_ g) →
  Z.of_nat (length (node_vector_ s)) + dim_ s ≤ offset_limit →
  ∃ c, g_code s g = Ok c ∧ ∀ X O F m, layout functions_at X O F x (heap_size c) (memory m) →
    ∃ m', invoke functions_at clobbered (jit_compiled_code c) X O F m = Some m' ∧
      (∀ i v, g_ g !! i = Some v → memory m' !! cell O (Z.of_nat i) = Some (to_bits (denote (node_vector_ s) x v))) ∧
      registers m' RBX = registers m RBX ∧
      ∀ a, (∀ k, 0 ≤ k < heap_size c → a ≠ cell O k) → memory m' !! a = memory m !! a.
Proof.
  intros Hg Hx Hlen Hgs Hlim. set (nodes := node_vector_ s) in *. set (d := dim_ s) in *. pose proof (graph_dim _ _ Hg) as Hd.
  assert (Forall (valid nodes) (g_ g)) as Hval by (eapply Forall_impl; [exact Hgs|]; naive_solver).
  destruct (generate_all_ok d nodes (g_ g) 0 [] (generator_new d) Hg Hval) as (B & E).
  { intros j _. cbn. rewrite lookup_nil. set_solver. }
  cbn [dim generator_new max_dim code] in E. destruct (foldl_max_ge (g_ g) 0) as [Hmax0 Hmax]. set (M := foldl Z.max 0 (g_ g)) in *.
  assert (d ≤ M + 1 ∧ M < Z.of_nat (length nodes)) as [HM1 HM2].
  { destruct (g_ g) as [|v gs]; [cbn in Hlen; lia|]. split.
    - inversion_clear Hgs as [|?? [? _] _]. inversion_clear Hmax. lia.
    - apply foldl_max_lt; [inversion_clear Hval as [|?? [] _]; lia|]. eapply Forall_impl; [exact Hval|]. by intros z []. }
  assert (Forall (λ v, v + d < d + M + 1) (g_ g)) as Hlt by (eapply Forall_impl; [exact Hmax|]; cbn; lia).
  unfold g_code. fold nodes. fold d. rewrite Hlen, Z.eqb_refl, E. cbn [mbind outcome_bind max_dim]. rewrite (proj2 (Z.leb_le _ _) HM1).
  eexists. split; [done|]. cbn [heap_size jit_compiled_code]. intros X O F m Hl.
  destruct (invoke_body (gradient_instrs nodes d [] (g_ g) 0) X O F m (λ m2,
      (∀ i v, g_ g !! i = Some v → memory m2 !! cell O (Z.of_nat i) = Some (to_bits (denote nodes x v))) ∧
      ∀ a, (∀ k, 0 ≤ k < d + M + 1 → a ≠ cell O k) → memory m2 !! a = memory m !! a)) as (m' & Ei & Hrbx & m2 & [Hout Hfr] & Hmem & _).
  - apply (gradient_instrs_ok d nodes x d (d + M + 1)); try done; lia.
  - intros m1 Hs1 Hm1. rewrite <- Hm1 in Hl.
    destruct (exec_gradient X O F d nodes x d (d + M + 1) (registers m RBX) (g_ g) [] 0 m1) as (m2 & E2 & Hs2 & Hout & _ & Hfr);
      try done; [lia|lia|set_solver|intros j; set_solver|].
    exists m2. split_and!; [done|done|done|]. intros a Ha. rewrite Hfr by done. by rewrite Hm1.
  - exists m'. split_and!; [|by rewrite Hmem|done|by rewrite Hmem]. rewrite <- Ei. unfold generator_end. cbn [code]. by rewrite <- !app_assoc.
Qed.
End Correct.
