(* ===== verification/Reflection.v ===== *)
(** * Types: typesystem/

    The types that the type system knows, as data ([type]), with the values of each
    ([denote]); their names ([CurrentTypeName], typesystem/typename.h) and their
    identifiers ([CurrentTypeID], typesystem/reflection/), which are hashes of the
    structure of a type made with the checksums of [Crc32].  Types that refer to
    themselves are not in [type]; without them, the cache of
    [InternalCurrentTypeID] does not change what it computes. *)

From Stdlib Require Import ZArith Lia Ascii String.
From stdpp Require Import base list strings.
From S2P Require Import Prelude Persistence Decimal PubSub RemoteStream.
Open Scope Z_scope.

Import RemoteStream.

(** ** Checksums: bricks/util/crc32.h, bricks/util/rol.h

    The checksum of names that identifiers of types are made of, byte by byte with
    a table; it is shown to be the bitwise CRC-32.  Rotation of 64-bit words. *)

Module Crc32.

Definition crc32_table : list Z :=
  [
   0x00000000; 0x77073096; 0xee0e612c; 0x990951ba; 0x076dc419; 0x706af48f; 0xe963a535; 0x9e6495a3; 0x0edb8832;
   0x79dcb8a4; 0xe0d5e91e; 0x97d2d988; 0x09b64c2b; 0x7eb17cbd; 0xe7b82d07; 0x90bf1d91; 0x1db71064; 0x6ab020f2;
   0xf3b97148; 0x84be41de; 0x1adad47d; 0x6ddde4eb; 0xf4d4b551; 0x83d385c7; 0x136c9856; 0x646ba8c0; 0xfd62f97a;
   0x8a65c9ec; 0x14015c4f; 0x63066cd9; 0xfa0f3d63; 0x8d080df5; 0x3b6e20c8; 0x4c69105e; 0xd56041e4; 0xa2677172;
   0x3c03e4d1; 0x4b04d447; 0xd20d85fd; 0xa50ab56b; 0x35b5a8fa; 0x42b2986c; 0xdbbbc9d6; 0xacbcf940; 0x32d86ce3;
   0x45df5c75; 0xdcd60dcf; 0xabd13d59; 0x26d930ac; 0x51de003a; 0xc8d75180; 0xbfd06116; 0x21b4f4b5; 0x56b3c423;
   0xcfba9599; 0xb8bda50f; 0x2802b89e; 0x5f058808; 0xc60cd9b2; 0xb10be924; 0x2f6f7c87; 0x58684c11; 0xc1611dab;
   0xb6662d3d; 0x76dc4190; 0x01db7106; 0x98d220bc; 0xefd5102a; 0x71b18589; 0x06b6b51f; 0x9fbfe4a5; 0xe8b8d433;
   0x7807c9a2; 0x0f00f934; 0x9609a88e; 0xe10e9818; 0x7f6a0dbb; 0x086d3d2d; 0x91646c97; 0xe6635c01; 0x6b6b51f4;
   0x1c6c6162; 0x856530d8; 0xf262004e; 0x6c0695ed; 0x1b01a57b; 0x8208f4c1; 0xf50fc457; 0x65b0d9c6; 0x12b7e950;
   0x8bbeb8ea; 0xfcb9887c; 0x62dd1ddf; 0x15da2d49; 0x8cd37cf3; 0xfbd44c65; 0x4db26158; 0x3ab551ce; 0xa3bc0074;
   0xd4bb30e2; 0x4adfa541; 0x3dd895d7; 0xa4d1c46d; 0xd3d6f4fb; 0x4369e96a; 0x346ed9fc; 0xad678846; 0xda60b8d0;
   0x44042d73; 0x33031de5; 0xaa0a4c5f; 0xdd0d7cc9; 0x5005713c; 0x270241aa; 0xbe0b1010; 0xc90c2086; 0x5768b525;
   0x206f85b3; 0xb966d409; 0xce61e49f; 0x5edef90e; 0x29d9c998; 0xb0d09822; 0xc7d7a8b4; 0x59b33d17; 0x2eb40d81;
   0xb7bd5c3b; 0xc0ba6cad; 0xedb88320; 0x9abfb3b6; 0x03b6e20c; 0x74b1d29a; 0xead54739; 0x9dd277af; 0x04db2615;
   0x73dc1683; 0xe3630b12; 0x94643b84; 0x0d6d6a3e; 0x7a6a5aa8; 0xe40ecf0b; 0x9309ff9d; 0x0a00ae27; 0x7d079eb1;
   0xf00f9344; 0x8708a3d2; 0x1e01f268; 0x6906c2fe; 0xf762575d; 0x806567cb; 0x196c3671; 0x6e6b06e7; 0xfed41b76;
   0x89d32be0; 0x10da7a5a; 0x67dd4acc; 0xf9b9df6f; 0x8ebeeff9; 0x17b7be43; 0x60b08ed5; 0xd6d6a3e8; 0xa1d1937e;
   0x38d8c2c4; 0x4fdff252; 0xd1bb67f1; 0xa6bc5767; 0x3fb506dd; 0x48b2364b; 0xd80d2bda; 0xaf0a1b4c; 0x36034af6;
   0x41047a60; 0xdf60efc3; 0xa867df55; 0x316e8eef; 0x4669be79; 0xcb61b38c; 0xbc66831a; 0x256fd2a0; 0x5268e236;
   0xcc0c7795; 0xbb0b4703; 0x220216b9; 0x5505262f; 0xc5ba3bbe; 0xb2bd0b28; 0x2bb45a92; 0x5cb36a04; 0xc2d7ffa7;
   0xb5d0cf31; 0x2cd99e8b; 0x5bdeae1d; 0x9b64c2b0; 0xec63f226; 0x756aa39c; 0x026d930a; 0x9c0906a9; 0xeb0e363f;
   0x72076785; 0x05005713; 0x95bf4a82; 0xe2b87a14; 0x7bb12bae; 0x0cb61b38; 0x92d28e9b; 0xe5d5be0d; 0x7cdcefb7;
   0x0bdbdf21; 0x86d3d2d4; 0xf1d4e242; 0x68ddb3f8; 0x1fda836e; 0x81be16cd; 0xf6b9265b; 0x6fb077e1; 0x18b74777;
   0x88085ae6; 0xff0f6a70; 0x66063bca; 0x11010b5c; 0x8f659eff; 0xf862ae69; 0x616bffd3; 0x166ccf45; 0xa00ae278;
   0xd70dd2ee; 0x4e048354; 0x3903b3c2; 0xa7672661; 0xd06016f7; 0x4969474d; 0x3e6e77db; 0xaed16a4a; 0xd9d65adc;
   0x40df0b66; 0x37d83bf0; 0xa9bcae53; 0xdebb9ec5; 0x47b2cf7f; 0x30b5ffe9; 0xbdbdf21c; 0xcabac28a; 0x53b39330;
   0x24b4a3a6; 0xbad03605; 0xcdd70693; 0x54de5729; 0x23d967bf; 0xb3667a2e; 0xc4614ab8; 0x5d681b02; 0x2a6f2b94;
   0xb40bbe37; 0xc30c8ea1; 0x5a05df1b; 0x2d02ef8d].

(** A [char] is signed: its bits are extended before the exclusive or, of which only
    the lowest eight are used. *)
Definition byte_of (c : ascii) : Z := Z.of_N (N_of_ascii c).

Definition crc_step (crc : Z) (c : ascii) : Z :=
  Z.lxor (nth (Z.to_nat (Z.land (Z.lxor crc (byte_of c)) 0xff)) crc32_table 0) (Z.shiftr crc 8).

Definition CRC32 (s : bytes) : Z := Z.lxor (foldl crc_step (Z.lxor 0 0xffffffff) s) 0xffffffff.

(** *** The same, bit by bit *)

Definition polynomial : Z := 0xedb88320.

Definition bit_step (crc : Z) : Z := Z.lxor (Z.shiftr crc 1) (if Z.odd crc then polynomial else 0).

Definition byte_step (crc : Z) (c : ascii) : Z := Nat.iter 8 bit_step (Z.lxor crc (byte_of c)).

Definition reference (s : bytes) : Z := Z.lxor (foldl byte_step 0xffffffff s) 0xffffffff.

Lemma bit_step_lxor a b : bit_step (Z.lxor a b) = Z.lxor (bit_step a) (bit_step b).
Proof.
  unfold bit_step. rewrite Z.shiftr_lxor. rewrite <- !Z.bit0_odd, Z.lxor_spec.
  assert (∀ x y p q : Z, Z.lxor (Z.lxor x p) (Z.lxor y q) = Z.lxor (Z.lxor x y) (Z.lxor p q)) as Hswap.
  { intros x y p q. rewrite !Z.lxor_assoc. f_equal. rewrite <- !Z.lxor_assoc. by rewrite (Z.lxor_comm p y). }
  rewrite Hswap. f_equal. destruct (Z.testbit a 0), (Z.testbit b 0); cbn [xorb]; by rewrite ?Z.lxor_nilpotent, ?Z.lxor_0_l, ?Z.lxor_0_r.
Qed.

Lemma bit_steps_lxor n a b : Nat.iter n bit_step (Z.lxor a b) = Z.lxor (Nat.iter n bit_step a) (Nat.iter n bit_step b).
Proof. induction n as [|n IH]; [done|]. by rewrite !Nat.iter_succ, IH, bit_step_lxor. Qed.

Lemma bit_step_even a : bit_step (Z.shiftl a 1) = a.
Proof.
  unfold bit_step. rewrite <- Z.bit0_odd, Z.shiftl_spec_low by lia. rewrite Z.lxor_0_r, Z.shiftr_shiftl_l by lia.
  by rewrite Z.shiftl_0_r.
Qed.

Lemma bit_steps_shifted n a : Nat.iter n bit_step (Z.shiftl a (Z.of_nat n)) = a.
Proof.
  induction n as [|n IH]; [apply Z.shiftl_0_r|]. rewrite Nat.iter_succ_r.
  replace (Z.shiftl a (Z.of_nat (S n))) with (Z.shiftl (Z.shiftl a (Z.of_nat n)) 1) by (rewrite Z.shiftl_shiftl by lia; f_equal; lia).
  by rewrite bit_step_even.
Qed.

(** Eight bits at a time, with the table. *)
Lemma table_entries : crc32_table = (λ i, Nat.iter 8 bit_step (Z.of_nat i)) <$> seq 0 256.
Proof. vm_compute. reflexivity. Qed.

Lemma split_low x : x = Z.lxor (Z.land x 0xff) (Z.shiftl (Z.shiftr x 8) 8).
Proof.
  apply Z.bits_inj'. intros n Hn. change 0xff with (Z.ones 8). rewrite Z.lxor_spec, Z.land_spec, Z.shiftl_spec by lia.
  destruct (Z.ltb_spec n 8).
  - rewrite Z.ones_spec_low, (Z.testbit_neg_r _ (n - 8)) by lia. by rewrite andb_true_r, xorb_false_r.
  - rewrite Z.ones_spec_high, andb_false_r, Z.shiftr_spec by lia. by replace (n - 8 + 8) with n by lia.
Qed.

Lemma eight_bit_steps x : 0 ≤ x → Nat.iter 8 bit_step x = Z.lxor (nth (Z.to_nat (Z.land x 0xff)) crc32_table 0) (Z.shiftr x 8).
Proof.
  intros Hx. rewrite (split_low x) at 1. rewrite bit_steps_lxor. rewrite (bit_steps_shifted 8 (Z.shiftr x 8) : Nat.iter 8 bit_step (Z.shiftl (Z.shiftr x 8) 8) = _). f_equal.
  assert (0 ≤ Z.land x 0xff < 256) as Hlow.
  { change 0xff with (Z.ones 8). rewrite Z.land_ones by lia. apply Z.mod_pos_bound. lia. }
  rewrite table_entries, nth_lookup, list_lookup_fmap, lookup_seq_lt by lia. cbn [fmap option_fmap option_map default from_option id].
  by rewrite Nat.add_0_l, Z2Nat.id by lia.
Qed.

Lemma byte_range c : 0 ≤ byte_of c < 256.
Proof. unfold byte_of. pose proof (N_ascii_bounded c). lia. Qed.

Lemma crc_step_ok crc c : 0 ≤ crc → crc_step crc c = byte_step crc c ∧ 0 ≤ crc_step crc c.
Proof.
  intros Hc. pose proof (byte_range c) as Hb. assert (0 ≤ Z.lxor crc (byte_of c)) as Hx by (apply Z.lxor_nonneg; lia).
  assert (Z.shiftr (Z.lxor crc (byte_of c)) 8 = Z.shiftr crc 8) as Hs.
  { rewrite Z.shiftr_lxor, (Z.shiftr_div_pow2 (byte_of c)), (Z.div_small (byte_of c)) by lia. apply Z.lxor_0_r. }
  assert (crc_step crc c = byte_step crc c) as Heq by (unfold byte_step; rewrite eight_bit_steps, Hs by done; done). split; [done|].
  apply Z.lxor_nonneg. split; intros _; [by apply Z.shiftr_nonneg|].
  assert (Forall (λ z, 0 ≤ z) crc32_table) as Hall by (apply (bool_decide_unpack _); vm_compute; constructor).
  destruct (nth_in_or_default (Z.to_nat (Z.land (Z.lxor crc (byte_of c)) 255)) crc32_table 0) as [Hin| ->]; [|done].
  apply list_elem_of_In in Hin. by eapply Forall_forall in Hall.
Qed.

Lemma crc32_reference s : CRC32 s = reference s.
Proof.
  unfold CRC32, reference. change (Z.lxor 0 0xffffffff) with 0xffffffff. f_equal.
  assert (0 ≤ 0xffffffff) as H0 by lia. revert H0. generalize 0xffffffff. induction s as [|c s IH]; intros crc H0; [done|].
  cbn [foldl]. destruct (crc_step_ok crc c H0) as [<- H1]. by apply IH.
Qed.

(** A checksum has 32 bits. *)
Lemma lxor_bound n a b : 0 ≤ n → 0 ≤ a < 2 ^ n → 0 ≤ b < 2 ^ n → 0 ≤ Z.lxor a b < 2 ^ n.
Proof.
  intros Hn Ha Hb. assert (0 ≤ Z.lxor a b) as Hx by (apply Z.lxor_nonneg; lia). split; [done|].
  replace a with (a mod 2 ^ n) by (by apply Z.mod_small). replace b with (b mod 2 ^ n) by (by apply Z.mod_small).
  rewrite <- !Z.land_ones by done. replace (Z.lxor (Z.land a (Z.ones n)) (Z.land b (Z.ones n))) with (Z.land (Z.lxor a b) (Z.ones n)).
  - rewrite Z.land_ones by done. apply Z.mod_pos_bound. lia.
  - apply Z.bits_inj'. intros i Hi. rewrite !Z.land_spec, !Z.lxor_spec, !Z.land_spec. by destruct (Z.testbit (Z.ones n) i), (Z.testbit a i), (Z.testbit b i).
Qed.

Lemma crc_step_range crc c : 0 ≤ crc < 2 ^ 32 → 0 ≤ crc_step crc c < 2 ^ 32.
Proof.
  intros Hc. apply lxor_bound; [done| |].
  - assert (Forall (λ z, 0 ≤ z < 2 ^ 32) crc32_table) as Hall by (apply (bool_decide_unpack _); vm_compute; constructor).
    destruct (nth_in_or_default (Z.to_nat (Z.land (Z.lxor crc (byte_of c)) 255)) crc32_table 0) as [Hin| ->]; [|done].
    apply list_elem_of_In in Hin. by eapply Forall_forall in Hall.
  - rewrite Z.shiftr_div_pow2 by done. split; [apply Z.div_pos; lia|]. apply Z.div_lt_upper_bound; lia.
Qed.

Lemma CRC32_range s : 0 ≤ CRC32 s < 2 ^ 32.
Proof.
  unfold CRC32. apply lxor_bound; [done| |done]. assert (0 ≤ Z.lxor 0 0xffffffff < 2 ^ 32) as H0 by done. revert H0. generalize (Z.lxor 0 0xffffffff).
  induction s as [|c s IH]; intros crc H0; [done|]. apply IH. by apply crc_step_range.
Qed.

(** *** Rotation *)

Definition u64 (z : Z) : Z := z mod 2 ^ 64.

Definition ROL64 (value nbits : Z) : Z :=
  let nbits := Z.land nbits 63 in
  Z.lor (u64 (Z.shiftl value nbits)) (Z.shiftr value (Z.land (- nbits) 63)).
End Crc32.

Import Crc32.

Module Reflection.

Inductive width := W8 | W16 | W32 | W64.

Definition bits_of (w : width) : Z := match w with W8 => 8 | W16 => 16 | W32 => 32 | W64 => 64 end.

(** [char] is [TChar]; [float] and [double] are both kept as doubles. *)
Inductive type :=
| TBool
| TUInt (w : width)
| TInt (w : width)
| TChar
| TString
| TFloat
| TDouble
| TMicroseconds
| TMilliseconds
| TEnum (name : bytes) (signed : bool) (w : width)
| TArray (n : nat) (t : type)
| TVector (t : type)
| TSet (t : type)
| TPair (a b : type)
| TTuple (ts : list type)
| TMap (k v : type)
| TOptional (t : type)
| TVariant (custom_name : option bytes) (cases : list type)
(** [CURRENT_STRUCT(name, super)], with the argument of a [CURRENT_STRUCT_T] *)
| TStruct (name : bytes) (super template_inner : option type) (fields : list (bytes * type)).

Section Induction.
Context (P : type → Prop).
Context (Hbool : P TBool) (Huint : ∀ w, P (TUInt w)) (Hint : ∀ w, P (TInt w)) (Hchar : P TChar) (Hstring : P TString)
  (Hfloat : P TFloat) (Hdouble : P TDouble) (Hus : P TMicroseconds) (Hms : P TMilliseconds)
  (Henum : ∀ name s w, P (TEnum name s w)) (Harray : ∀ n t, P t → P (TArray n t)) (Hvector : ∀ t, P t → P (TVector t))
  (Hset : ∀ t, P t → P (TSet t)) (Hpair : ∀ a b, P a → P b → P (TPair a b)) (Htuple : ∀ ts, Forall P ts → P (TTuple ts))
  (Hmap : ∀ k v, P k → P v → P (TMap k v)) (Hoptional : ∀ t, P t → P (TOptional t))
  (Hvariant : ∀ name cs, Forall P cs → P (TVariant name cs))
  (Hstruct : ∀ name super inner fs, (∀ s, super = Some s → P s) → (∀ i, inner = Some i → P i) → Forall (λ f, P f.2) fs →
    P (TStruct name super inner fs)).

(** Induction on types, with the types of elements, cases and fields. *)
Fixpoint type_induction (t : type) : P t :=
  match t with
  | TBool => Hbool
  | TUInt w => Huint w
  | TInt w => Hint w
  | TChar => Hchar
  | TString => Hstring
  | TFloat => Hfloat
  | TDouble => Hdouble
  | TMicroseconds => Hus
  | TMilliseconds => Hms
  | TEnum name s w => Henum name s w
  | TArray n t => Harray n t (type_induction t)
  | TVector t => Hvector t (type_induction t)
  | TSet t => Hset t (type_induction t)
  | TPair a b => Hpair a b (type_induction a) (type_induction b)
  | TTuple ts => Htuple ts ((fix all ts : Forall P ts :=
      match ts with [] => List.Forall_nil P | t :: ts => List.Forall_cons P t ts (type_induction t) (all ts) end) ts)
  | TMap k v => Hmap k v (type_induction k) (type_induction v)
  | TOptional t => Hoptional t (type_induction t)
  | TVariant name cs => Hvariant name cs ((fix all ts : Forall P ts :=
      match ts with [] => List.Forall_nil P | t :: ts => List.Forall_cons P t ts (type_induction t) (all ts) end) cs)
  | TStruct name super inner fs => Hstruct name super inner fs
      (match super return ∀ s, super = Some s → P s with
       | None => λ s e, match e with eq_refl => I end
       | Some s' => λ s e, match e in _ = o return match o with Some s => P s | None => True end with eq_refl => type_induction s' end
       end)
      (match inner return ∀ s, inner = Some s → P s with
       | None => λ s e, match e with eq_refl => I end
       | Some s' => λ s e, match e in _ = o return match o with Some s => P s | None => True end with eq_refl => type_induction s' end
       end)
      ((fix all fs : Forall (λ f : bytes * type, P f.2) fs :=
        match fs with
        | [] => List.Forall_nil _
        | f :: fs => List.Forall_cons (λ f : bytes * type, P f.2) f fs (type_induction f.2) (all fs)
        end) fs)
  end.
End Induction.

(** ** Values *)

Section Lists.
Context {A : Type} (F : A → Type).

(** One value for each element of a list. *)
Fixpoint hlist (l : list A) : Type := match l with [] => () | a :: l => F a * hlist l end.

(** A value for one element of a list. *)
Fixpoint hsum (l : list A) : Type := match l with [] => Empty_set | a :: l => F a + hsum l end.
End Lists.

Section Values.
(** The doubles. *)
Context (D : Type).

Fixpoint denote (t : type) : Type :=
  match t with
  | TBool => bool
  | TUInt _ | TInt _ | TChar | TMicroseconds | TMilliseconds | TEnum _ _ _ => Z
  | TString => bytes
  | TFloat | TDouble => D
  | TArray _ t | TVector t | TSet t => list (denote t)
  | TPair a b => denote a * denote b
  | TTuple ts => hlist denote ts
  | TMap k v => list (denote k * denote v)
  | TOptional t => option (denote t)
  | TVariant _ cs => option (hsum denote cs)
  | TStruct _ super _ fs => match super with Some s => denote s | None => () end * hlist (λ f, denote f.2) fs
  end.
End Values.

(** ** Names: [CurrentTypeName<T, NameFormat::Z>] *)

Definition name_of_uint (w : width) : bytes :=
  str match w with W8 => "uint8_t" | W16 => "uint16_t" | W32 => "uint32_t" | W64 => "uint64_t" end.
Definition name_of_int (w : width) : bytes :=
  str match w with W8 => "int8_t" | W16 => "int16_t" | W32 => "int32_t" | W64 => "int64_t" end.

Definition JoinTypeNames (separator : bytes) (names : list bytes) : bytes :=
  match names with [] => [] | n :: ns => n ++ concat ((λ n, separator ++ n) <$> ns) end.

(** Tuples have no name of this format. *)
Fixpoint CurrentTypeName (t : type) : bytes :=
  match t with
  | TBool => str "bool"
  | TUInt w => name_of_uint w
  | TInt w => name_of_int w
  | TChar => str "char"
  | TString => str "std::string"
  | TFloat => str "float"
  | TDouble => str "double"
  | TMicroseconds => str "std::chrono::microseconds"
  | TMilliseconds => str "std::chrono::milliseconds"
  | TEnum name _ _ => name
  | TArray n t => str "std::array<" ++ CurrentTypeName t ++ str ", " ++ ToString_uint64 (N.of_nat n) ++ str ">"
  | TVector t => str "std::vector<" ++ CurrentTypeName t ++ str ">"
  | TSet t => str "std::set<" ++ CurrentTypeName t ++ str ">"
  | TPair a b => str "std::pair<" ++ CurrentTypeName a ++ str ", " ++ CurrentTypeName b ++ str ">"
  | TTuple _ => []
  | TMap k v => str "std::map<" ++ CurrentTypeName k ++ str ", " ++ CurrentTypeName v ++ str ">"
  | TOptional t => str "Optional<" ++ CurrentTypeName t ++ str ">"
  | TVariant (Some name) _ => name
  | TVariant None cs => str "Variant_B_" ++ JoinTypeNames (str "_") (CurrentTypeName <$> cs) ++ str "_E"
  | TStruct name _ _ _ => name
  end.

(** ** Identifiers *)

Definition TYPEID_TYPE_RANGE : Z := 10 ^ 16.
Definition TYPEID_BASIC_TYPE : Z := TYPEID_TYPE_RANGE * 900.
Definition TYPEID_ENUM_TYPE : Z := TYPEID_TYPE_RANGE * 901.
Definition TYPEID_STRUCT_TYPE : Z := TYPEID_TYPE_RANGE * 920.
Definition TYPEID_OPTIONAL_TYPE : Z := TYPEID_TYPE_RANGE * 921.
Definition TYPEID_VARIANT_TYPE : Z := TYPEID_TYPE_RANGE * 922.
Definition TYPEID_ARRAY_TYPE : Z := TYPEID_TYPE_RANGE * 930.
Definition TYPEID_VECTOR_TYPE : Z := TYPEID_TYPE_RANGE * 931.
Definition TYPEID_SET_TYPE : Z := TYPEID_TYPE_RANGE * 932.
Definition TYPEID_PAIR_TYPE : Z := TYPEID_TYPE_RANGE * 933.
Definition TYPEID_MAP_TYPE : Z := TYPEID_TYPE_RANGE * 934.

Definition TypePrefix (type_id : Z) : Z := type_id / TYPEID_TYPE_RANGE.

Definition primitive_id (index : Z) : Z := TYPEID_BASIC_TYPE + index.
Definition width_index (w : width) : Z := match w with W8 => 1 | W16 => 2 | W32 => 3 | W64 => 4 end.

(** [TemplateInnerTypeExpandedName]: "_Z" becomes "_T" and the identifier. *)
Definition expanded_name (name : bytes) (inner : option Z) : bytes :=
  match inner with
  | Some id => take (length name - 2) name ++ str "_T" ++ ToString_uint64 (Z.to_N id)
  | None => name
  end.

Definition hash_fields (hash : Z) (fields : list (bytes * Z)) : Z :=
  foldl (λ hash (f : nat * (bytes * Z)), Z.lxor hash (Z.lxor (ROL64 f.2.2 (Z.of_nat f.1 + 17)) (ROL64 (CRC32 f.2.1) (Z.of_nat f.1 + 29))))
    hash (imap pair fields).

Definition CalculateTypeID_Struct (name : bytes) (super : option Z) (fields : list (bytes * Z)) : Z :=
  let base := default 1 super in
  let hash := Z.lxor (CRC32 name) (ROL64 (Z.lxor base 1) 7) in
  TYPEID_STRUCT_TYPE + hash_fields hash fields mod TYPEID_TYPE_RANGE.

Definition CalculateTypeID_Array (element : Z) (size : nat) : Z :=
  u64 (TYPEID_ARRAY_TYPE + ROL64 element 3 mod TYPEID_TYPE_RANGE + ROL64 (Z.of_nat size) 7).

Definition CalculateTypeID_Variant (name : bytes) (cases : list Z) : Z :=
  TYPEID_VARIANT_TYPE +
    foldl (λ hash (c : nat * Z), Z.lxor hash (ROL64 c.2 (Z.of_nat c.1 * 3 + 17))) (CRC32 name) (imap pair cases) mod TYPEID_TYPE_RANGE.

Definition hash_two (a b : Z) : Z := Z.lxor (ROL64 a 5) (ROL64 b 11).

(** [CurrentTypeID<T>()].  Tuples have none. *)
Fixpoint CurrentTypeID (t : type) : Z :=
  match t with
  | TBool => primitive_id 11
  | TUInt w => primitive_id (20 + width_index w)
  | TInt w => primitive_id (30 + width_index w)
  | TChar => primitive_id 41
  | TString => primitive_id 42
  | TFloat => primitive_id 51
  | TDouble => primitive_id 52
  | TMicroseconds => primitive_id 61
  | TMilliseconds => primitive_id 62
  | TEnum name _ _ => TYPEID_ENUM_TYPE + CRC32 name
  | TArray n t => CalculateTypeID_Array (CurrentTypeID t) n
  | TVector t => TYPEID_VECTOR_TYPE + ROL64 (CurrentTypeID t) 3 mod TYPEID_TYPE_RANGE
  | TSet t => TYPEID_SET_TYPE + hash_two (CurrentTypeID t) (CurrentTypeID t) mod TYPEID_TYPE_RANGE
  | TPair a b => TYPEID_PAIR_TYPE + hash_two (CurrentTypeID a) (CurrentTypeID b) mod TYPEID_TYPE_RANGE
  | TTuple _ => 0
  | TMap k v => TYPEID_MAP_TYPE + hash_two (CurrentTypeID k) (CurrentTypeID v) mod TYPEID_TYPE_RANGE
  | TOptional t => TYPEID_OPTIONAL_TYPE + ROL64 (CurrentTypeID t) 5 mod TYPEID_TYPE_RANGE
  | TVariant _ cs => CalculateTypeID_Variant (CurrentTypeName t) (CurrentTypeID <$> cs)
  | TStruct name super inner fs =>
      CalculateTypeID_Struct (expanded_name name (CurrentTypeID <$> inner)) (CurrentTypeID <$> super) ((λ f, (f.1, CurrentTypeID f.2)) <$> fs)
  end.

(** What [ReflectType<T>().type_id] is: for an array, the identifier of a vector. *)
Definition reflected_type_id (t : type) : Z :=
  match t with TArray _ t => CurrentTypeID (TVector t) | _ => CurrentTypeID t end.

(** The values of the unit test, typesystem/reflection/test.cc. *)
Module Examples.
Definition Foo : type := TStruct (str "Foo") None None [(str "i", TUInt W64)].

Example foo_type_id : CurrentTypeID Foo = 9203762249085213197.
Proof. vm_compute. reflexivity. Qed.

Example bar_field_type_ids :
  CurrentTypeID <$> [TVector (TUInt W64); TVector Foo; TVector (TVector Foo); TMap TString TString] =
  [9319767778871345347; 9319865771553050731; 9311949877586199388; 9349351407460177576].
Proof. vm_compute. reflexivity. Qed.

Example array_type_id :
  CurrentTypeID (TStruct (str "WithArray") None None [(str "foo", TUInt W32); (str "bar", TArray 2 (TUInt W32))]) = 9204926548831842599.
Proof. vm_compute. reflexivity. Qed.

Example template_type_id :
  CurrentTypeID (TStruct (str "Templated_Z") None (Some Foo) [(str "base", TString); (str "extension", Foo)]) = 9204032299541411163.
Proof. vm_compute. reflexivity. Qed.
End Examples.

Definition is_struct (t : type) : bool := match t with TStruct _ _ _ _ => true | _ => false end.
Definition is_variant (t : type) : bool := match t with TVariant _ _ => true | _ => false end.

(** [IS_EMPTY_CURRENT_STRUCT], which counts the fields of the struct itself. *)
Definition IsEmptyCurrentStruct (t : type) : bool := match t with TStruct _ _ _ [] => true | _ => false end.

(** ** The range of identifiers *)

(** The prefix of a kind of types. *)
Definition prefix_of (t : type) : Z :=
  match t with
  | TEnum _ _ _ => 901
  | TArray _ _ => 930
  | TVector _ => 931
  | TSet _ => 932
  | TPair _ _ => 933
  | TTuple _ => 0
  | TMap _ _ => 934
  | TOptional _ => 921
  | TVariant _ _ => 922
  | TStruct _ _ _ _ => 920
  | _ => 900
  end.

Lemma in_range (base r : Z) : TypePrefix (TYPEID_TYPE_RANGE * base + r mod TYPEID_TYPE_RANGE) = base.
Proof.
  unfold TypePrefix. rewrite Z.mul_comm, Z.div_add_l by done. rewrite (Z.div_small (r mod _)); [lia|]. by apply Z.mod_pos_bound.
Qed.

(** The identifier of a type tells its kind.  An array adds its length after the
    remainder is taken, so that it may leave the range; a tuple has none. *)
Lemma type_id_prefix t : match t with TArray _ _ | TTuple _ => True | _ => TypePrefix (CurrentTypeID t) = prefix_of t end.
Proof.
  destruct t; try done; cbn [CurrentTypeID prefix_of]; unfold CalculateTypeID_Variant, CalculateTypeID_Struct; try apply in_range.
  1-2: by destruct w.
  pose proof (CRC32_range name). unfold TypePrefix, TYPEID_ENUM_TYPE, TYPEID_TYPE_RANGE. rewrite Z.mul_comm, Z.div_add_l, Z.div_small by lia. lia.
Qed.
End Reflection.
