(* ===== verification/Json.v ===== *)
(** * JSON of typed values: typesystem/serialization/json/

    [Serialize] and [Deserialize] are the templates of these names, by the type
    they are instantiated for: from values to documents of RapidJSON and back, in
    the four formats, and for [PatchObjectWithJSON].  An absent value, [nullptr] in
    the C++ code, is [None].  [Deserialize] gives the new value of the destination;
    it throws what the code throws, with what was expected, the path and the part
    of the document; what an exception leaves in the destination is not modelled.
    RapidJSON, a library, is a parameter. *)

From Stdlib Require Import ZArith Lia Ascii String.
From stdpp Require Import base list strings.
From S2P Require Import Prelude Persistence PubSub RemoteStream StdMap Reflection.
Open Scope Z_scope.

Import RemoteStream Reflection.

Module Json.

(** ** Documents *)

Section Documents.
Context {D : Type}.

(** [rapidjson::Value]. *)
Inductive json :=
| JNull
| JBool (b : bool)
| JInt (z : Z)
| JDouble (d : D)
| JString (s : bytes)
| JArray (l : list json)
| JObject (members : list (bytes * json)).

Definition IsUint64 (j : json) : option Z := match j with JInt z => if (0 <=? z) && (z <? 2 ^ 64) then Some z else None | _ => None end.
Definition IsInt64 (j : json) : option Z := match j with JInt z => if (- 2 ^ 63 <=? z) && (z <? 2 ^ 63) then Some z else None | _ => None end.

(** The first member of the name. *)
Fixpoint FindMember (members : list (bytes * json)) (name : bytes) : option json :=
  match members with
  | [] => None
  | (n, j) :: members => if bool_decide (n = name) then Some j else FindMember members name
  end.
End Documents.
Arguments json D : clear implicits.

(** ** Formats and errors *)

Inductive JSONFormat := Current | Minimalistic | JavaScript | NewtonsoftFSharp.

#[global] Instance JSONFormat_eq_dec : EqDecision JSONFormat.
Proof. solve_decision. Defined.

(** The [JSON_FORMAT] of a parser: a format, or [JSONPatcher] of one. *)
Inductive ParserFormat := Format (J : JSONFormat) | JSONPatcher (J : JSONFormat).

Inductive JSONVariantStyle := StyleCurrent | StyleSimple | StyleNewtonsoftFSharp.

Definition variant_style_of (J : JSONFormat) : JSONVariantStyle :=
  match J with Current => StyleCurrent | Minimalistic | JavaScript => StyleSimple | NewtonsoftFSharp => StyleNewtonsoftFSharp end.
Definition variant_style (F : ParserFormat) : JSONVariantStyle := match F with Format J | JSONPatcher J => variant_style_of J end.
Definition JSONVariantStyleUseNulls (s : JSONVariantStyle) : bool := match s with StyleSimple => false | _ => true end.
Definition JSONVariantTypeIDInEmptyKey (J : JSONFormat) : bool := match J with Current => true | _ => false end.
Definition JSONVariantTypeNameInDollarKey (J : JSONFormat) : bool := match J with JavaScript => true | _ => false end.
Definition JSONPatchMode (F : ParserFormat) : bool := match F with JSONPatcher _ => true | Format _ => false end.
(** Whether a specialization for [JSONParser<JSONFormat::NewtonsoftFSharp>] is chosen. *)
Definition is_fsharp (F : ParserFormat) : bool := match F with Format NewtonsoftFSharp => true | _ => false end.

Inductive CharPtrOrInt := PathText (s : bytes) | PathIndex (i : nat).

Inductive json_exception {D : Type} :=
| InvalidJSONException (source : bytes)
| RapidJSONAssertionFailedException
| JSONUninitializedVariantObjectException
| JSONSchemaException (expected : bytes) (path : list CharPtrOrInt) (actual : option (json D)).
Arguments json_exception D : clear implicits.

(** [JSONParser::Path]. *)
Definition Path (path : list CharPtrOrInt) : bytes :=
  let text := concat ((λ p, match p with PathText s => s | PathIndex i => ToString_uint64 (N.of_nat i) end) <$> path) in
  match text with "."%char :: text => text | _ => text end.

(** ** Numbers and objects *)

(** The conversions of doubles that are used: from an integer, and to a [float]. *)
Class Doubles (D : Type) := { double_of_int : Z → D; to_float : D → D }.

(** What the types of a program define: default constructors, what moving from an
    object leaves in it, and the order of keys. *)
Class Objects (D : Type) := {
  construct t : denote D t;
  moved_from t : denote D t → denote D t;
  less t : denote D t → denote D t → bool;
}.

Definition to_unsigned (w : width) (z : Z) : Z := z mod 2 ^ bits_of w.
Definition to_signed (w : width) (z : Z) : Z :=
  let u := z mod 2 ^ bits_of w in if u <? 2 ^ (bits_of w - 1) then u else u - 2 ^ bits_of w.

Section Json.
Context {D : Type} `{!Doubles D, !Objects D}.
Local Abbreviation value t := (denote D t).
Local Abbreviation parsed := (outcome (json_exception D)).

(** ** Serialization *)

(** [Inner]: a value that is absent is left [null]. *)
Definition inner (o : option (json D)) : json D := default JNull o.

Section Visit.
Context {A B : Type} (F : A → Type).

(** The elements of a tuple or the fields of a struct, in order. *)
Fixpoint visit_all (f : ∀ a, F a → B) (l : list A) : hlist F l → list B :=
  match l return hlist F l → list B with
  | [] => λ _, []
  | a :: l => λ v, f a v.1 :: visit_all f l v.2
  end.

(** The object in a variant. *)
Fixpoint call (f : ∀ a, F a → B) (l : list A) : hsum F l → B :=
  match l return hsum F l → B with
  | [] => λ v, match v with end
  | a :: l => λ v, match v with inl x => f a x | inr v => call f l v end
  end.
End Visit.

(** [SerializeImpl] of [TypeID]. *)
Definition serialize_type_id (id : Z) : json D := JString ("T"%char :: ToString_uint64 (Z.to_N id)).

(** [JSONVariantSerializer]. *)
Definition serialize_case (J : JSONFormat) (t : type) (object : json D) : json D :=
  match variant_style_of J with
  | StyleCurrent | StyleSimple =>
      JObject ([(CurrentTypeName t, object)] ++
        (if JSONVariantTypeIDInEmptyKey J then [([], serialize_type_id (reflected_type_id t))] else []) ++
        (if JSONVariantTypeNameInDollarKey J then [(str "$", JString (CurrentTypeName t))] else []))
  | StyleNewtonsoftFSharp =>
      JObject ([(str "Case", JString (CurrentTypeName t))] ++
        (if is_variant t || negb (IsEmptyCurrentStruct t) then [(str "Fields", JArray [object])] else []))
  end.

(** The members that [SerializeStruct] of the base has added. *)
Definition members_of (o : option (json D)) : list (bytes * json D) := match o with Some (JObject ms) => ms | _ => [] end.

(** *** By type *)

Section Serializers.
Context (J : JSONFormat) {T U : Type} (serialize : T → option (json D)) (serialize' : U → option (json D)).

(** Vectors, arrays and sets. *)
Definition serialize_elements (value : list T) : option (json D) := Some (JArray ((λ x, inner (serialize x)) <$> value)).

Definition serialize_pair (value : T * U) : option (json D) :=
  let first := inner (serialize value.1) in
  let second := inner (serialize' value.2) in
  Some (match J with
        | NewtonsoftFSharp => JObject [(str "Item1", first); (str "Item2", second)]
        | _ => JArray [first; second]
        end).

(** Maps with string keys, and with others. *)
Definition serialize_string_map (value : list (bytes * U)) : option (json D) := Some (JObject ((λ e, (e.1, inner (serialize' e.2))) <$> value)).
Definition serialize_map (value : list (T * U)) : option (json D) :=
  Some (JArray ((λ e, JArray [inner (serialize e.1); inner (serialize' e.2)]) <$> value)).

Definition serialize_optional (value : option T) : option (json D) :=
  match value with
  | Some x => match J with
              | NewtonsoftFSharp => Some (JObject [(str "Case", JString (str "Some")); (str "Fields", JArray [inner (serialize x)])])
              | _ => serialize x
              end
  | None => match J with Minimalistic | NewtonsoftFSharp => None | _ => Some JNull end
  end.
End Serializers.

Definition serialize_tuple {A} (T : A → Type) (serialize : ∀ a, T a → option (json D)) (l : list A) (value : hlist T l) : option (json D) :=
  Some (JArray (visit_all T (λ a x, inner (serialize a x)) l value)).

Definition serialize_variant (J : JSONFormat) {T : type → Type} (serialize : ∀ c, T c → option (json D)) (cs : list type) (value : option (hsum T cs)) :
    option (json D) :=
  match value with
  | Some x => Some (call T (λ c o, serialize_case J c (inner (serialize c o))) cs x)
  | None => if JSONVariantStyleUseNulls (variant_style_of J) then Some JNull else None
  end.

(** [JSONStructFieldsSerializer], after the members of the base. *)
Definition serialize_struct_fields {A} (T : A → Type) (name : A → bytes) (serialize : ∀ a, T a → option (json D))
    (base : list (bytes * json D)) (l : list A) (value : hlist T l) : option (json D) :=
  Some (JObject (base ++ omap (λ m, (λ j, (m.1, j)) <$> m.2) (visit_all T (λ a x, (name a, serialize a x)) l value))).

Fixpoint Serialize (J : JSONFormat) (t : type) : value t → option (json D) :=
  match t return value t → option (json D) with
  | TBool => λ v, Some (JBool v)
  | TUInt _ | TInt _ | TChar | TEnum _ _ _ | TMicroseconds | TMilliseconds => λ v, Some (JInt v)
  | TString => λ v, Some (JString v)
  | TFloat | TDouble => λ v, Some (JDouble v)
  | TArray _ t | TVector t | TSet t => serialize_elements (Serialize J t)
  | TPair a b => serialize_pair J (Serialize J a) (Serialize J b)
  | TTuple ts => serialize_tuple (denote D) (Serialize J) ts
  | TMap k v => λ m,
      match k return (value k → option (json D)) → list (value k * value v) → option (json D) with
      | TString => λ _, serialize_string_map (Serialize J v)
      | _ => λ key, serialize_map key (Serialize J v)
      end (Serialize J k) m
  | TOptional t => serialize_optional J (Serialize J t)
  | TVariant _ cs => serialize_variant J (Serialize J) cs
  | TStruct _ super _ fs => λ v,
      serialize_struct_fields (λ f : bytes * type, value f.2) fst (λ f, Serialize J f.2)
        (match super return match super with Some s => value s | None => () end → list (bytes * json D) with
         | Some s => λ b, members_of (Serialize J s b)
         | None => λ _, []
         end v.1) fs v.2
  end.

(** ** Deserialization *)

Section Load.
Context {A T : Type} (F : A → Type).

(** [operator[](i)] for each element of the destination. *)
Fixpoint load_elements (f : nat → json D → T → parsed T) (i : nat) (js : list (json D)) (dest : list T) : parsed (list T) :=
  match dest with
  | [] => Ok []
  | d :: dest =>
      match js with
      | [] => Throw RapidJSONAssertionFailedException
      | j :: js => v ← f i j d; vs ← load_elements f (S i) js dest; Ok (v :: vs)
      end
  end.

Fixpoint load_tuple (f : nat → ∀ a, json D → F a → parsed (F a)) (i : nat) (l : list A) (js : list (json D)) : hlist F l → parsed (hlist F l) :=
  match l return hlist F l → parsed (hlist F l) with
  | [] => λ _, Ok ()
  | a :: l => λ dest,
      match js with
      | [] => Throw RapidJSONAssertionFailedException
      | j :: js => v ← f i a j dest.1; vs ← load_tuple f (S i) l js dest.2; Ok (v, vs)
      end
  end.

Fixpoint load_fields (f : ∀ a, F a → parsed (F a)) (l : list A) : hlist F l → parsed (hlist F l) :=
  match l return hlist F l → parsed (hlist F l) with
  | [] => λ _, Ok ()
  | a :: l => λ dest, v ← f a dest.1; vs ← load_fields f l dest.2; Ok (v, vs)
  end.

(** Elements that are made one by one and added. *)
Fixpoint load_into {C J} (f : nat → J → parsed T) (add : T → C → C) (i : nat) (js : list J) (into : C) : parsed C :=
  match js with
  | [] => Ok into
  | j :: js => v ← f i j; load_into f add (S i) js (add v into)
  end.

(** The last of the cases with the property, whose deserializer has replaced the
    others; it may leave the destination as it is. *)
Fixpoint load_case (p : A → bool) (f : ∀ a, parsed (option (F a))) (l : list A) : option (parsed (option (hsum F l))) :=
  match l return option (parsed (option (hsum F l))) with
  | [] => None
  | a :: l =>
      match load_case p f l with
      | Some r => Some (match r with Ok v => Ok (option_map inr v) | Throw e => Throw e end)
      | None => if p a then Some (match f a with Ok v => Ok (option_map inl v) | Throw e => Throw e end) else None
      end
  end.
End Load.

(** The members of a map with string keys, with a key and a value that are moved
    from and used again. *)
Fixpoint load_members {K V C} (fk : json D → K → parsed K) (fv : json D → V → parsed V) (mk : K → K) (mv : V → V)
    (add : K → V → C → C) (ms : list (bytes * json D)) (k : K) (v : V) (into : C) : parsed C :=
  match ms with
  | [] => Ok into
  | (name, j) :: ms =>
      k ← fk (JString name) k;
      v ← fv j v;
      load_members fk fv mk mv add ms (mk k) (mv v) (add k v into)
  end.

Definition set_insert {T} (lt : T → T → bool) (x : T) (l : list T) : list T :=
  (map_emplace lt x () ((λ y, (y, ())) <$> l)).*1.

Definition is_string (t : type) : bool := match t with TString => true | _ => false end.

Section Parser.
Context (F : ParserFormat).
Implicit Types (path : list CharPtrOrInt) (current : option (json D)).

(** The last branch of most templates: in a patch, what is missing stays. *)
Definition mismatch {A} (expected : string) path current (dest : A) : parsed A :=
  if negb (JSONPatchMode F) || bool_decide (is_Some current) then Throw (JSONSchemaException (str expected) path current) else Ok dest.

Definition at_index path (i : nat) : list CharPtrOrInt := path ++ [PathText (str "["); PathIndex i; PathText (str "]")].
Definition at_field path (name : bytes) : list CharPtrOrInt := path ++ [PathText (str "."); PathText name].
Definition at_key path (name : bytes) : list CharPtrOrInt :=
  path ++ [PathText ("["%char :: ["034"%char]); PathText name; PathText ["034"%char; "]"%char]].

Definition deserialize_number (get : json D → option Z) (cast : Z → Z) (expected : string) path current (dest : Z) : parsed Z :=
  match current with
  | Some j => match get j with Some z => Ok (cast z) | None => mismatch expected path current dest end
  | None => mismatch expected path current dest
  end.

Definition deserialize_enum (signed : bool) (w : width) path current (dest : Z) : parsed Z :=
  match current with
  | Some ((JInt _ | JDouble _) as j) =>
      if signed
      then match IsInt64 j with Some z => Ok (to_signed w z) | None => Throw (JSONSchemaException (str "enum as unsigned integer") path current) end
      else match IsUint64 j with Some z => Ok (to_unsigned w z) | None => Throw (JSONSchemaException (str "enum as signed integer") path current) end
  | _ => mismatch "number" path current dest
  end.

Definition deserialize_double (cast : D → D) (expected : string) path current (dest : D) : parsed D :=
  match current with
  | Some (JInt z) => Ok (cast (double_of_int z))
  | Some (JDouble d) => Ok (cast d)
  | _ => mismatch expected path current dest
  end.

Definition deserialize_type_id path current : parsed Z :=
  match current with
  | Some (JString s) => match c_str s with
                        | "T"%char :: s => Ok (Z.of_N (PubSub.FromString_uint64 s))
                        | _ => Throw (JSONSchemaException (str "TypeID") path current)
                        end
  | _ => Throw (JSONSchemaException (str "TypeID") path current)
  end.

Definition backquoted (prefix : string) (name : bytes) : bytes := str prefix ++ ["`"%char] ++ name ++ ["`"%char].

(** The only key that is not "" and not "$", as [ImplMinimalistic] looks for it. *)
Fixpoint single_key path current (found : option bytes) (ms : list (bytes * json D)) : parsed (option bytes) :=
  match ms with
  | [] => Ok found
  | (key, _) :: ms =>
      let key := c_str key in
      if bool_decide (key = []) || bool_decide (key = str "$") then single_key path current found ms
      else match found with
           | None => single_key path current (Some key) ms
           | Some case_name =>
               Throw (JSONSchemaException (backquoted "no other key after " case_name ++ str ", seeing " ++ backquoted "" key) path current)
           end
  end.

(** [JSONVariantCaseGeneric], [JSONVariantCaseMinimalistic] and [JSONVariantCaseFSharp]. *)
Definition case_generic {T} (load : list CharPtrOrInt → option (json D) → T → parsed T) (fresh : T) (key_name : bytes) path
    (ms : list (bytes * json D)) : parsed (option T) :=
  match FindMember ms key_name with
  | Some j => v ← load (at_key path key_name) (Some j) fresh; Ok (Some v)
  | None => if JSONPatchMode F then Ok None
            else Throw (JSONSchemaException (backquoted "variant case " key_name) path (Some (JObject ms)))
  end.

Definition case_minimalistic {T} (load : list CharPtrOrInt → option (json D) → T → parsed T) (fresh : T) (key_name : bytes) path
    (ms : list (bytes * json D)) : parsed (option T) :=
  match FindMember ms key_name with
  | Some j => v ← load (at_key path key_name) (Some j) fresh; Ok (Some v)
  | None => Throw RapidJSONAssertionFailedException
  end.

Definition case_fsharp {T} (load : list CharPtrOrInt → option (json D) → T → parsed T) (fresh : T) (empty : bool) path
    (ms : list (bytes * json D)) : parsed (option T) :=
  match FindMember ms (str "Fields") with
  | Some (JArray [j]) => v ← load (path ++ [PathText (str "."); PathText (str "Fields[0]")]) (Some j) fresh; Ok (Some v)
  | Some _ => Throw (JSONSchemaException (backquoted "array of one element in " (str "Fields")) path (Some (JObject ms)))
  | None => if empty then Ok (Some fresh) else Throw (JSONSchemaException (backquoted "data in " (str "Fields")) path (Some (JObject ms)))
  end.

(** [DoLoadVariant], with the loading of each case, in each style. *)
Section LoadVariant.
Context {A} {T : A → Type} (id : A → Z) (name : A → bytes) (empty : A → bool)
  (load : ∀ a, list CharPtrOrInt → option (json D) → T a → parsed (T a)) (fresh : ∀ a, T a) (cs : list A).

(** What the deserializer of the case did, if there was one. *)
Definition load_registered (expected : bytes) path (ms : list (bytes * json D)) (r : option (parsed (option (hsum T cs)))) (dest : option (hsum T cs)) :
    parsed (option (hsum T cs)) :=
  match r with
  | Some r => v ← r; Ok (match v with Some v => Some v | None => dest end)
  | None => Throw (JSONSchemaException expected path (Some (JObject ms)))
  end.

Definition load_variant_current path (ms : list (bytes * json D)) (dest : option (hsum T cs)) : parsed (option (hsum T cs)) :=
  match FindMember ms [] with
  | None => Throw (JSONSchemaException (str "type id as value for an empty string") path (Some (JObject ms)))
  | Some j =>
      type_id ← deserialize_type_id (path ++ [PathText ["["%char; "034"%char; "034"%char; "]"%char]]) (Some j);
      load_registered (str "a type id listed in the type list") path ms
        (load_case T (λ a, id a =? type_id) (λ a, case_generic (load a) (fresh a) (name a) path ms) cs) dest
  end.

Definition load_variant_simple path (ms : list (bytes * json D)) (dest : option (hsum T cs)) : parsed (option (hsum T cs)) :=
  found ← single_key path (Some (JObject ms)) None ms;
  match found with
  | None => Throw (JSONSchemaException (str "a key-value entry with a variant type") path (Some (JObject ms)))
  | Some case_name =>
      load_registered (backquoted "variant case " case_name) path ms
        (load_case T (λ a, bool_decide (name a = case_name)) (λ a, case_minimalistic (load a) (fresh a) (name a) path ms) cs) dest
  end.

Definition load_variant_fsharp path (ms : list (bytes * json D)) (dest : option (hsum T cs)) : parsed (option (hsum T cs)) :=
  match FindMember ms (str "Case") with
  | None => Throw (JSONSchemaException (str "a type name in " ++ ["034"%char] ++ str "Case" ++ ["034"%char]) path (Some (JObject ms)))
  | Some (JString case_name) =>
      load_registered (str "one of requested values of " ++ ["034"%char] ++ str "Case" ++ ["034"%char]) path ms
        (load_case T (λ a, bool_decide (name a = case_name)) (λ a, case_fsharp (load a) (fresh a) (empty a) path ms) cs) dest
  | Some j => Throw (JSONSchemaException (str "string") (at_field path (str "Case")) (Some j))
  end.

Definition load_variant path (ms : list (bytes * json D)) (dest : option (hsum T cs)) : parsed (option (hsum T cs)) :=
  match variant_style F with
  | StyleCurrent => load_variant_current path ms dest
  | StyleSimple => load_variant_simple path ms dest
  | StyleNewtonsoftFSharp => load_variant_fsharp path ms dest
  end.
End LoadVariant.

(** [Optional] in the F# format. *)
Definition fsharp_option (ms : list (bytes * json D)) : option (option (json D)) :=
  match FindMember ms (str "Case") with
  | Some (JString s) =>
      if bool_decide (c_str s = str "None") then Some None
      else if bool_decide (c_str s = str "Some") then
        match FindMember ms (str "Fields") with Some (JArray [j]) => Some (Some j) | _ => None end
      else None
  | _ => None
  end.

Definition fsharp_option_expected : bytes :=
  backquoted "optional as " (str "null") ++ str " or " ++
  backquoted "" (str "{" ++ ["034"%char] ++ str "Case" ++ ["034"%char; ":"%char; "034"%char] ++ str "Some" ++ ["034"%char; ","%char; "034"%char] ++
    str "Fields" ++ ["034"%char] ++ str ":[value]}").

(** *** By type *)

Definition deserialize_bool path current (dest : bool) : parsed bool := match current with Some (JBool b) => Ok b | _ => mismatch "bool" path current dest end.
Definition deserialize_string path current (dest : bytes) : parsed bytes :=
  match current with Some (JString s) => Ok s | _ => mismatch "string" path current dest end.

Section Deserializers.
Context {T U : Type} (load : list CharPtrOrInt → option (json D) → T → parsed T) (load' : list CharPtrOrInt → option (json D) → U → parsed U).
(** What [T()] and [U()] are. *)
Context (fresh : T) (fresh' : U).

(** [dest] has [n] elements. *)
Definition deserialize_array (n : nat) path current (dest : list T) : parsed (list T) :=
  match current with
  | Some (JArray js) => load_elements (λ i j d, load (at_index path i) (Some j) d) 0 js (resize n fresh dest)
  | _ => mismatch "array" path current dest
  end.

Definition deserialize_vector path current (dest : list T) : parsed (list T) :=
  match current with
  | Some (JArray js) => load_elements (λ i j d, load (at_index path i) (Some j) d) 0 js (resize (length js) fresh dest)
  | _ => mismatch "array" path current dest
  end.

Definition deserialize_set (lt : T → T → bool) path current (_ : list T) : parsed (list T) :=
  match current with
  | Some (JArray js) => load_into (λ i j, load (at_index path i) (Some j) fresh) (set_insert lt) 0 js []
  | _ => mismatch "set as array" path current []
  end.

Definition deserialize_pair path current (dest : T * U) : parsed (T * U) :=
  match current with
  | Some (JArray [j1; j2]) => x ← load path (Some j1) dest.1; y ← load' path (Some j2) dest.2; Ok (x, y)
  | _ => mismatch "pair as array" path current dest
  end.

Definition deserialize_fsharp_pair path current (dest : T * U) : parsed (T * U) :=
  match current with
  | Some (JObject ms) =>
      match FindMember ms (str "Item1"), FindMember ms (str "Item2") with
      | Some j1, Some j2 => x ← load path (Some j1) dest.1; y ← load' path (Some j2) dest.2; Ok (x, y)
      | _, _ => Throw (JSONSchemaException (str "pair as an object of {Item1,Item2}") path current)
      end
  | _ => Throw (JSONSchemaException (str "pair as an object of {Item1,Item2}") path current)
  end.

(** For maps, [JSONPatchMode<J>] is asked for a parameter that is [void]. *)
Definition deserialize_string_map (moved : T → T) (moved' : U → U) (lt : T → T → bool) path current : parsed (list (T * U)) :=
  match current with
  | Some (JObject ms) =>
      load_members (λ j d, load path (Some j) d) (λ j d, load' path (Some j) d) moved moved' (map_emplace lt) ms fresh fresh' []
  | _ => Throw (JSONSchemaException (str "map as object") path current)
  end.

Definition deserialize_map (lt : T → T → bool) path current : parsed (list (T * U)) :=
  match current with
  | Some (JArray js) =>
      load_into (λ _ j, match j with
                        | JArray [j1; j2] => x ← load path (Some j1) fresh; y ← load' path (Some j2) fresh'; Ok (x, y)
                        | JArray _ => Throw (JSONSchemaException (str "map entry as array of two elements") path current)
                        | _ => Throw (JSONSchemaException (str "map entry as array") path current)
                        end) (λ e, map_emplace lt e.1 e.2) 0 js []
  | _ => Throw (JSONSchemaException (str "map as array") path current)
  end.

Definition deserialize_optional path current (dest : option T) : parsed (option T) :=
  match current with
  | None => if JSONPatchMode F then Ok dest else Ok None
  | Some JNull => Ok None
  | Some _ => x ← load path current fresh; Ok (Some x)
  end.

Definition deserialize_fsharp_optional path current (dest : option T) : parsed (option T) :=
  match current with
  | None | Some JNull => Ok None
  | Some (JObject ms) =>
      match fsharp_option ms with
      | Some (Some j) => x ← load path (Some j) fresh; Ok (Some x)
      | Some None => Ok None
      | None => Throw (JSONSchemaException fsharp_option_expected path current)
      end
  | _ => Throw (JSONSchemaException fsharp_option_expected path current)
  end.
End Deserializers.

Definition deserialize_tuple {A} (T : A → Type) (load : ∀ a, list CharPtrOrInt → option (json D) → T a → parsed (T a)) (l : list A) path current
    (dest : hlist T l) : parsed (hlist T l) :=
  match current with
  | Some (JArray js) =>
      if (length js =? length l)%nat then load_tuple T (λ i a j d, load a (at_index path i) (Some j) d) 0 l js dest
      else Throw (JSONSchemaException (str "bad array size for tuple") path current)
  | _ => mismatch "array" path current dest
  end.

(** [LoadVariant], with the loading of each case. *)
Definition deserialize_variant {T : type → Type} (load : ∀ c, list CharPtrOrInt → option (json D) → T c → parsed (T c)) (fresh : ∀ c, T c)
    (cs : list type) path current (dest : option (hsum T cs)) : parsed (option (hsum T cs)) :=
  match current with
  | None | Some JNull => if JSONVariantStyleUseNulls (variant_style F) then Throw JSONUninitializedVariantObjectException else Ok dest
  | Some (JObject ms) => load_variant reflected_type_id CurrentTypeName IsEmptyCurrentStruct load fresh cs path ms dest
  | _ => mismatch "variant type as object" path current dest
  end.

(** The base, then the fields. *)
Definition deserialize_struct {A B} (T : A → Type) (name : A → bytes) (load_base : list CharPtrOrInt → option (json D) → B → parsed B)
    (load : ∀ a, list CharPtrOrInt → option (json D) → T a → parsed (T a)) (l : list A) path current (dest : B * hlist T l) : parsed (B * hlist T l) :=
  match current with
  | Some (JObject ms) =>
      base ← load_base path current dest.1;
      own ← load_fields T (λ a d, load a (at_field path (name a)) (FindMember ms (name a)) d) l dest.2;
      Ok (base, own)
  | _ => mismatch "object" path current dest
  end.

Fixpoint Deserialize (t : type) : list CharPtrOrInt → option (json D) → value t → parsed (value t) :=
  match t return list CharPtrOrInt → option (json D) → value t → parsed (value t) with
  | TBool => deserialize_bool
  | TUInt w => deserialize_number IsUint64 (to_unsigned w) "unsigned integer"
  | TInt w => deserialize_number IsInt64 (to_signed w) "integer"
  | TChar => deserialize_number IsInt64 (to_signed W8) "integer"
  | TMicroseconds => deserialize_number IsInt64 id "microseconds as integer"
  | TMilliseconds => deserialize_number IsInt64 id "milliseconds as integer"
  | TEnum _ signed w => deserialize_enum signed w
  | TString => deserialize_string
  | TFloat => deserialize_double to_float "float"
  | TDouble => deserialize_double id "double"
  | TArray n t => deserialize_array (Deserialize t) (construct t) n
  | TVector t => deserialize_vector (Deserialize t) (construct t)
  | TSet t => deserialize_set (Deserialize t) (construct t) (less t)
  | TPair a b => if is_fsharp F then deserialize_fsharp_pair (Deserialize a) (Deserialize b) else deserialize_pair (Deserialize a) (Deserialize b)
  | TTuple ts => deserialize_tuple (denote D) Deserialize ts
  | TMap k v => λ path current _,
      if is_string k
      then deserialize_string_map (Deserialize k) (Deserialize v) (construct k) (construct v) (moved_from k) (moved_from v) (less k) path current
      else deserialize_map (Deserialize k) (Deserialize v) (construct k) (construct v) (less k) path current
  | TOptional t =>
      if is_fsharp F then deserialize_fsharp_optional (Deserialize t) (construct t) else deserialize_optional (Deserialize t) (construct t)
  | TVariant _ cs => deserialize_variant Deserialize construct cs
  | TStruct _ super _ fs =>
      deserialize_struct (λ f : bytes * type, value f.2) fst
        (match super return list CharPtrOrInt → option (json D) → match super with Some s => value s | None => () end →
           parsed match super with Some s => value s | None => () end with
         | Some s => Deserialize s
         | None => λ _ _, Ok
         end) (λ f, Deserialize f.2) fs
  end.
End Parser.

(** ** Entry points *)

(** RapidJSON: the parser, [None] for a parse error, and the writer. *)
Class RapidJSON := { Parse : bytes → option (json D); Accept : json D → bytes }.

Context `{!RapidJSON}.

(** A [const char*] is the bytes before its first zero.  No type here has a
    [CheckIntegrityImpl], without which [CheckIntegrity] does nothing. *)
Definition ParseJSONViaRapidJSON (F : ParserFormat) (t : type) (json : bytes) (destination : value t) : parsed (value t) :=
  match Parse json with
  | Some document => Deserialize F t [] (Some document) destination
  | None => Throw (InvalidJSONException json)
  end.

Definition ResultingJSON (document : json D) : bytes := c_str (Accept document).

Definition JSON (J : JSONFormat) (t : type) (source : value t) : bytes := ResultingJSON (inner (Serialize J t source)).

(** [ParseJSON] of a [const char*] and of a [std::string] into a destination; the
    latter does not pass its format on. *)
Definition ParseJSON_char_into (J : JSONFormat) (t : type) (source : bytes) (destination : value t) : parsed (value t) :=
  ParseJSONViaRapidJSON (Format J) t source destination.

Definition ParseJSON_into (J : JSONFormat) (t : type) (source : bytes) (destination : value t) : parsed (value t) :=
  ParseJSON_char_into Current t (c_str source) destination.

(** [ParseJSON] that returns the object, which was default-constructed. *)
Definition ParseJSON (J : JSONFormat) (t : type) (source : bytes) : parsed (value t) := ParseJSON_char_into J t (c_str source) (construct t).

(** Every exception here is a [TypeSystemParseJSONException]. *)
Definition TryParseJSON (J : JSONFormat) (t : type) (source : bytes) : option (value t) :=
  match ParseJSON_char_into J t (c_str source) (construct t) with Ok result => Some result | Throw _ => None end.

Definition PatchObjectWithJSON (J : JSONFormat) (t : type) (object : value t) (json : bytes) : parsed (value t) :=
  ParseJSONViaRapidJSON (JSONPatcher J) t (c_str json) object.
End Json.
Arguments RapidJSON D : clear implicits.

(** One step of the templates. *)
Ltac unfold_serialize :=
  cbn [Serialize];
  unfold serialize_elements, serialize_pair, serialize_string_map, serialize_map, serialize_optional, serialize_tuple, serialize_variant,
    serialize_struct_fields; cbv beta.
Ltac unfold_deserialize :=
  cbn [Deserialize];
  unfold deserialize_bool, deserialize_string, deserialize_array, deserialize_vector, deserialize_set, deserialize_pair, deserialize_fsharp_pair,
    deserialize_string_map, deserialize_map, deserialize_optional, deserialize_fsharp_optional, deserialize_tuple, deserialize_variant, deserialize_struct;
  cbv beta.
Ltac unfold_load_variant := unfold load_variant, load_variant_current, load_variant_simple, load_variant_fsharp, load_registered.
Ltac unfold_json := unfold_serialize; unfold_deserialize.
End Json.
