(* ===== verification/JsonRoundTrip.v ===== *)
(** * Reading what was written

    [type_ok] says for which types, and [has_type] for which values, a document
    that [Serialize] has made is read back; [reads] which parsers read which format.
    The main lemma is [deserialize_serialize]. *)

From Stdlib Require Import ZArith Lia Ascii String Sorted.
From stdpp Require Import base list strings.
From S2P Require Import Prelude Persistence PubSub RemoteStream StdMap Reflection Json.
Open Scope Z_scope.

Import RemoteStream Reflection Json.

(** ** Conditions *)

(** The parsers that read a format. *)
Definition reads (F : ParserFormat) (J : JSONFormat) : bool :=
  match F, J with
  | Format Current, Current | JSONPatcher Current, Current => true
  | Format (Minimalistic | JavaScript), (Current | Minimalistic | JavaScript) => true
  | JSONPatcher (Minimalistic | JavaScript), (Current | JavaScript) => true
  | Format NewtonsoftFSharp, NewtonsoftFSharp => true
  | _, _ => false
  end.

(** The names of the fields of a struct and of its bases. *)
Fixpoint field_names (t : type) : list bytes :=
  match t with
  | TStruct _ super _ fs => match super with Some s => field_names s | None => [] end ++ fs.*1
  | _ => []
  end.

Definition case_name_ok (name : bytes) : Prop := name ≠ [] ∧ name ≠ str "$" ∧ nul ∉ name.

(** A case of a variant. *)
Definition case_ok (J : JSONFormat) (c : type) : Prop :=
  is_struct c || is_variant c = true ∧ case_name_ok (CurrentTypeName c) ∧
  (J = NewtonsoftFSharp → IsEmptyCurrentStruct c = true → field_names c = []).

Definition is_optional (t : type) : bool := match t with TOptional _ => true | _ => false end.

(** Types whose values can be told apart by their JSON: an optional is not of an
    optional, the fields of a struct and the cases of a variant have names of
    their own. *)
Fixpoint type_ok (J : JSONFormat) (t : type) : Prop :=
  match t with
  | TArray _ t | TVector t | TSet t => type_ok J t
  | TPair a b | TMap a b => type_ok J a ∧ type_ok J b
  | TTuple ts => foldr (λ t P, type_ok J t ∧ P) True ts
  | TOptional t => type_ok J t ∧ (J = NewtonsoftFSharp ∨ is_optional t = false)
  | TVariant _ cs =>
      foldr (λ c P, type_ok J c ∧ P) True cs ∧ Forall (case_ok J) cs ∧
      NoDup (CurrentTypeName <$> cs) ∧ NoDup (reflected_type_id <$> cs)
  | TStruct _ super _ fs =>
      match super with Some s => type_ok J s ∧ is_struct s = true | None => True end ∧
      foldr (λ f P, type_ok J f.2 ∧ P) True fs ∧
      NoDup (match super with Some s => field_names s | None => [] end ++ fs.*1)
  | _ => True
  end.

Section Conditions.
Context {D : Type} `{!Doubles D, !Objects D}.
Local Abbreviation value t := (denote D t).

Fixpoint hforall {A} {F : A → Type} (P : ∀ a, F a → Prop) (l : list A) : hlist F l → Prop :=
  match l return hlist F l → Prop with [] => λ _, True | a :: l => λ v, P a v.1 ∧ hforall P l v.2 end.

Fixpoint hexists {A} {F : A → Type} (P : ∀ a, F a → Prop) (l : list A) : hsum F l → Prop :=
  match l return hsum F l → Prop with
  | [] => λ _, False
  | a :: l => λ v, match v with inl x => P a x | inr v => hexists P l v end
  end.

(** The keys are in the order of the map, and different for it. *)
Definition keys_sorted {K} (lt : K → K → bool) (l : list K) : Prop := StronglySorted (λ a b, lt a b = true ∧ lt b a = false) l.

(** The values that a variable of the type can have, where the doubles satisfy
    [ok], and [unset] holds if a variant can be without an object. *)
Fixpoint has_type (ok : D → Prop) (unset : Prop) (t : type) : value t → Prop :=
  match t return value t → Prop with
  | TUInt w | TEnum _ false w => λ v, 0 ≤ v < 2 ^ bits_of w
  | TInt w | TEnum _ true w => λ v, - 2 ^ (bits_of w - 1) ≤ v < 2 ^ (bits_of w - 1)
  | TChar => λ v, - 2 ^ 7 ≤ v < 2 ^ 7
  | TMicroseconds | TMilliseconds => λ v, - 2 ^ 63 ≤ v < 2 ^ 63
  | TFloat => λ v, to_float v = v ∧ ok v
  | TDouble => ok
  | TBool | TString => λ _, True
  | TArray n t => λ v, length v = n ∧ Forall (has_type ok unset t) v
  | TVector t => λ v, Forall (has_type ok unset t) v
  | TSet t => λ v, Forall (has_type ok unset t) v ∧ keys_sorted (less t) v
  | TPair a b => λ v, has_type ok unset a v.1 ∧ has_type ok unset b v.2
  | TTuple ts => hforall (has_type ok unset) ts
  | TMap k v => λ m, Forall (λ e, has_type ok unset k e.1 ∧ has_type ok unset v e.2) m ∧ keys_sorted (less k) m.*1
  | TOptional t => λ v, match v with Some x => has_type ok unset t x | None => True end
  | TVariant _ cs => λ v, match v with Some x => hexists (has_type ok unset) cs x | None => unset end
  | TStruct _ super _ fs => λ v,
      match super return match super with Some s => value s | None => () end → Prop with Some s => has_type ok unset s | None => λ _, True end v.1 ∧
      hforall (λ f : bytes * type, has_type ok unset f.2) fs v.2
  end.
End Conditions.

(** ** Numbers *)

Lemma to_unsigned_id w z : 0 ≤ z < 2 ^ bits_of w → to_unsigned w z = z.
Proof. apply Z.mod_small. Qed.

Lemma to_signed_id w z : - 2 ^ (bits_of w - 1) ≤ z < 2 ^ (bits_of w - 1) → to_signed w z = z.
Proof.
  intros Hz. unfold to_signed. assert (2 ^ bits_of w = 2 * 2 ^ (bits_of w - 1)) as Hp by (rewrite <- Z.pow_succ_r; [f_equal; lia|destruct w; done]).
  destruct (Z.ltb_spec z 0).
  - rewrite <- (Z.mod_unique z (2 ^ bits_of w) (-1) (z + 2 ^ bits_of w)) by lia. destruct (Z.ltb_spec (z + 2 ^ bits_of w) (2 ^ (bits_of w - 1))); lia.
  - rewrite Z.mod_small by lia. destruct (Z.ltb_spec z (2 ^ (bits_of w - 1))); lia.
Qed.

Lemma width_bound w : 2 ^ bits_of w ≤ 2 ^ 64 ∧ 2 ^ (bits_of w - 1) ≤ 2 ^ 63.
Proof. destruct w; cbn; lia. Qed.

Lemma IsUint64_ok {D} z : 0 ≤ z < 2 ^ 64 → IsUint64 (D := D) (JInt z) = Some z.
Proof. intros [H1 H2]. cbn [IsUint64]. by rewrite (proj2 (Z.leb_le _ _) H1), (proj2 (Z.ltb_lt _ _) H2). Qed.

Lemma IsInt64_ok {D} z : - 2 ^ 63 ≤ z < 2 ^ 63 → IsInt64 (D := D) (JInt z) = Some z.
Proof. intros [H1 H2]. cbn [IsInt64]. by rewrite (proj2 (Z.leb_le _ _) H1), (proj2 (Z.ltb_lt _ _) H2). Qed.

(** ** Members *)

Section Members.
Context {D : Type}.
Implicit Types (ms : list (bytes * json D)).

Lemma FindMember_app ms ms' name : FindMember (ms ++ ms') name = match FindMember ms name with Some j => Some j | None => FindMember ms' name end.
Proof. induction ms as [|[n j] ms IH]; [done|]. cbn. by case_bool_decide. Qed.

Lemma FindMember_None ms name : name ∉ ms.*1 → FindMember ms name = None.
Proof.
  induction ms as [|[n j] ms IH]; [done|]. cbn. intros Hn. apply not_elem_of_cons in Hn as [Hne Hn]. rewrite bool_decide_false by done. by apply IH.
Qed.

(** The fields that are not absent. *)
Definition present (fields : list (bytes * option (json D))) : list (bytes * json D) := omap (λ m, (λ j, (m.1, j)) <$> m.2) fields.

Lemma present_names fields name : name ∈ (present fields).*1 → name ∈ fields.*1.
Proof.
  intros ([n j] & -> & Hin)%list_elem_of_fmap. apply list_elem_of_omap in Hin as ([n' o] & Hin & He). destruct o; [|done].
  cbn in He. injection He as -> ->. apply list_elem_of_fmap. by eexists (n, _).
Qed.

Lemma FindMember_present fields name o : NoDup fields.*1 → (name, o) ∈ fields → FindMember (present fields) name = o.
Proof.
  induction fields as [|[n o'] fields IH]; [by intros _ ?%not_elem_of_nil|]. intros Hnd Hin. cbn in Hnd. apply NoDup_cons in Hnd as [Hn Hnd].
  unfold present. cbn [omap list_omap fst snd]. apply elem_of_cons in Hin as [[= <- <-]|Hin].
  - destruct o as [j|]; cbn -[omap]; [by rewrite bool_decide_true|]. apply FindMember_None. intros Hp. apply Hn. by apply present_names.
  - assert (n ≠ name) as Hne. { intros ->. apply Hn. apply list_elem_of_fmap. by eexists (name, o). }
    destruct o' as [j|]; cbn -[omap]; [rewrite bool_decide_false by done|]; by apply IH.
Qed.
End Members.

(** ** Containers *)

Section Containers.
Context {D : Type}.
Local Abbreviation parsed := (outcome (json_exception D)).

Lemma load_elements_ok {T} (f : nat → json D → T → parsed T) (s : T → json D) vs dest i :
  length dest = length vs → Forall (λ v, ∀ i d, f i (s v) d = Ok v) vs → load_elements f i (s <$> vs) dest = Ok vs.
Proof.
  revert dest i. induction vs as [|v vs IH]; intros [|d dest] i Hl Hf; try done. apply Forall_cons in Hf as [Hv Hf]. cbn [load_elements fmap list_fmap].
  rewrite Hv. cbn [mbind outcome_bind]. cbn in Hl. by rewrite IH by (done || lia).
Qed.

Lemma map_emplace_last {K V} (lt : K → K → bool) k (v : V) m :
  Forall (λ k', lt k' k = true ∧ lt k k' = false) m.*1 → map_emplace lt k v m = m ++ [(k, v)].
Proof.
  intros Hm. unfold map_emplace. assert (map_find lt k m = None ∧ map_insert lt k v m = m ++ [(k, v)]) as [-> ->]; [|done].
  induction m as [|[k' v'] m IH]; [done|]. cbn in Hm. apply Forall_cons in Hm as [[H1 H2] Hm]. destruct (IH Hm) as [Hf Hi].
  cbn. unfold same_key. rewrite H1, H2. cbn. by rewrite Hf, Hi.
Qed.

Lemma set_insert_last {K} (lt : K → K → bool) k (l : list K) :
  Forall (λ k', lt k' k = true ∧ lt k k' = false) l → set_insert lt k l = l ++ [k].
Proof.
  intros Hl. unfold set_insert. assert (((λ y, (y, ())) <$> l).*1 = l) as Hfst by (rewrite <- list_fmap_compose; apply list_fmap_id).
  rewrite map_emplace_last by by rewrite Hfst. by rewrite fmap_app, Hfst.
Qed.

Lemma keys_sorted_app {K} (lt : K → K → bool) l k r : keys_sorted lt (l ++ k :: r) → Forall (λ k', lt k' k = true ∧ lt k k' = false) l.
Proof.
  induction l as [|k' l IH]; [done|]. cbn. intros [Hs Hall]%StronglySorted_inv. constructor; [|by apply IH].
  apply Forall_app in Hall as [_ Hall]. by apply Forall_cons in Hall as [? _].
Qed.

Lemma load_set_ok {T} (lt : T → T → bool) (f : nat → json D → parsed T) (s : T → json D) vs acc i :
  Forall (λ v, ∀ i, f i (s v) = Ok v) vs → keys_sorted lt (acc ++ vs) → load_into f (set_insert lt) i (s <$> vs) acc = Ok (acc ++ vs).
Proof.
  revert acc i. induction vs as [|v vs IH]; intros acc i Hf Hs; cbn; [by rewrite app_nil_r|]. apply Forall_cons in Hf as [Hv Hf].
  rewrite Hv. cbn [mbind outcome_bind]. rewrite (set_insert_last lt v acc) by by eapply keys_sorted_app.
  rewrite IH; [by rewrite <- app_assoc|done|by rewrite <- app_assoc].
Qed.

Lemma load_pairs_ok {K V} (lt : K → K → bool) (f : nat → json D → parsed (K * V)) (s : K * V → json D) vs acc i :
  Forall (λ v, ∀ i, f i (s v) = Ok v) vs → keys_sorted lt (acc ++ vs).*1 →
  load_into f (λ e, map_emplace lt e.1 e.2) i (s <$> vs) acc = Ok (acc ++ vs).
Proof.
  revert acc i. induction vs as [|[k v] vs IH]; intros acc i Hf Hs; cbn; [by rewrite app_nil_r|]. apply Forall_cons in Hf as [Hv Hf].
  rewrite Hv. cbn [mbind outcome_bind fst snd]. rewrite fmap_app in Hs. rewrite (map_emplace_last lt k v acc) by by eapply keys_sorted_app.
  rewrite IH; [by rewrite <- app_assoc|done|by rewrite <- app_assoc, fmap_app].
Qed.

Lemma load_members_ok {K V} (lt : K → K → bool) fk fv mk mv (name : K → bytes) (s : V → json D) (vs acc : list (K * V)) k v :
  Forall (λ e : K * V, (∀ d, fk (JString (name e.1)) d = Ok e.1) ∧ ∀ d, fv (s e.2) d = Ok e.2) vs → keys_sorted lt (acc ++ vs).*1 →
  load_members fk fv mk mv (map_emplace lt) ((λ e : K * V, (name e.1, s e.2)) <$> vs) k v acc = Ok (acc ++ vs).
Proof.
  revert acc k v. induction vs as [|[k' v'] vs IH]; intros acc k v Hf Hs; cbn; [by rewrite app_nil_r|]. apply Forall_cons in Hf as [[Hk Hv] Hf].
  cbn in Hk, Hv. rewrite Hk. cbn [mbind outcome_bind]. rewrite Hv. cbn [mbind outcome_bind fst snd]. rewrite fmap_app in Hs.
  rewrite (map_emplace_last lt k' v' acc) by by eapply keys_sorted_app.
  rewrite IH; [by rewrite <- app_assoc|done|by rewrite <- app_assoc, fmap_app].
Qed.

Section Typed.
Context {A : Type} {T : A → Type}.

Lemma load_tuple_ok (f : nat → ∀ a, json D → T a → parsed (T a)) (s : ∀ a, T a → json D) l (v dest : hlist T l) i :
  hforall (λ a x, ∀ i d, f i a (s a x) d = Ok x) l v → load_tuple T f i l (visit_all T s l v) dest = Ok v.
Proof.
  revert v dest i. induction l as [|a l IH]; intros v dest i; [by destruct v|]. destruct v as [x v], dest as [d dest]. intros [Hx Hv]. cbn in *.
  rewrite Hx. cbn [mbind outcome_bind]. by rewrite IH.
Qed.

Lemma length_visit_all {B} (s : ∀ a, T a → B) l v : length (visit_all T s l v) = length l.
Proof. revert v. induction l as [|a l IH]; intros v; [done|]. cbn. by rewrite IH. Qed.

(** The case that a variant holds. *)
Lemma call_case {B} (f : ∀ a, T a → B) l (x : hsum T l) : ∃ a o, a ∈ l ∧ call T f l x = f a o ∧ ∀ P : ∀ a, T a → Prop, hexists P l x ↔ P a o.
Proof.
  induction l as [|a l IH]; [destruct x|]. destruct x as [o|x].
  - exists a, o. split_and!; [apply list_elem_of_here|done|done].
  - destruct (IH x) as (b & o & Hb & Hc & HP). exists b, o. split_and!; [by apply list_elem_of_further|done|done].
Qed.

Lemma load_case_None p (f : ∀ a, parsed (option (T a))) l : Forall (λ a, p a = false) l → load_case T p f l = None.
Proof. induction 1 as [|a l Ha _ IH]; [done|]. cbn. by rewrite IH, Ha. Qed.

Lemma load_case_ok {K} (key : A → K) p k (f : ∀ a, parsed (option (T a))) l (x : hsum T l) :
  (∀ a, p a = true ↔ key a = k) → NoDup (key <$> l) → hexists (λ a o, p a = true ∧ f a = Ok (Some o)) l x →
  load_case T p f l = Some (Ok (Some x)).
Proof.
  intros Hp. induction l as [|a l IH]; [done|]. intros [Hn Hnd]%NoDup_cons. destruct x as [o|x]; cbn.
  - intros [Ha Hf]. rewrite load_case_None; [by rewrite Ha, Hf|]. apply Forall_forall. intros b Hb. apply not_true_is_false. intros Hpb.
    apply Hn. apply Hp in Ha as <-. apply Hp in Hpb as <-. by apply list_elem_of_fmap_2.
  - intros Hx. by rewrite (IH x Hnd Hx).
Qed.
End Typed.
End Containers.

(** ** Identifiers in documents *)

Lemma type_id_range t : is_struct t || is_variant t = true → 0 ≤ reflected_type_id t < 2 ^ 64.
Proof.
  destruct t; try done; intros _; cbn -[CalculateTypeID_Variant CalculateTypeID_Struct];
    unfold CalculateTypeID_Variant, CalculateTypeID_Struct, TYPEID_VARIANT_TYPE, TYPEID_STRUCT_TYPE, TYPEID_TYPE_RANGE.
  - pose proof (Z.mod_pos_bound (foldl (λ hash (c : nat * Z), Z.lxor hash (Crc32.ROL64 c.2 (Z.of_nat c.1 * 3 + 17)))
      (Crc32.CRC32 (CurrentTypeName (TVariant custom_name cases))) (imap pair (CurrentTypeID <$> cases))) (10 ^ 16)). cbn in *. lia.
  - match goal with |- context [?h mod _] => pose proof (Z.mod_pos_bound h (10 ^ 16)) end. lia.
Qed.

Lemma ToString_no_nul n : nul ∉ ToString_uint64 n.
Proof.
  intros Hin. destruct (printed_decimal 20 (Z.of_N n)) as [[_ Hd] _]; [done|]. eapply Forall_forall in Hin; [|exact Hd]. by destruct Hin.
Qed.

Lemma deserialize_serialize_type_id {D} path id : 0 ≤ id < 2 ^ 64 → deserialize_type_id (D := D) path (Some (serialize_type_id id)) = Ok id.
Proof.
  intros Hid. unfold deserialize_type_id, serialize_type_id. rewrite c_str_id.
  - rewrite uint64_roundtrip by (unfold no_index; lia). by rewrite Z2N.id by lia.
  - intros [?|Hin]%elem_of_cons; [done|]. by apply ToString_no_nul in Hin.
Qed.

(** Members with given names. *)
Ltac find_member := repeat first [rewrite bool_decide_true by done|rewrite bool_decide_false by done].

(** ** Structs *)

Section Structs.
Context {D : Type}.
Local Abbreviation value t := (denote D t).

(** The members of a struct, those of the bases first; an absent one is [None]. *)
Fixpoint struct_members (J : JSONFormat) (t : type) : value t → list (bytes * option (json D)) :=
  match t return value t → list (bytes * option (json D)) with
  | TStruct _ super _ fs => λ v,
      match super return match super with Some s => value s | None => () end → list (bytes * option (json D)) with
      | Some s => struct_members J s
      | None => λ _, []
      end v.1 ++ visit_all (λ f, value f.2) (λ (f : bytes * type) x, (f.1, Serialize J f.2 x)) fs v.2
  | _ => λ _, []
  end.

Lemma visit_all_names {A} {T : A → Type} (name : A → bytes) (s : ∀ a, T a → option (json D)) l v :
  (visit_all T (λ a x, (name a, s a x)) l v).*1 = name <$> l.
Proof. revert v. induction l as [|a l IH]; intros v; [done|]. cbn. by rewrite IH. Qed.

Lemma struct_members_names J t v : (struct_members J t v).*1 = field_names t.
Proof.
  induction t as [| | | | | | | | | | | | | | | | | |name super inner fs IHs _ _] using type_induction; try done.
  cbn. rewrite fmap_app, (visit_all_names fst). f_equal. destruct super as [s|]; [|done]. by apply IHs.
Qed.

Lemma serialize_struct J t v : is_struct t = true → type_ok J t → Serialize J t v = Some (JObject (present (struct_members J t v))).
Proof.
  induction t as [| | | | | | | | | | | | | | | | | |name super inner fs IHs _ _] using type_induction; try done. intros _ [Hs _]. cbn.
  unfold present. rewrite omap_app. do 3 f_equal. destruct super as [s|]; [|done]. destruct Hs as [Hs Hss]. by rewrite (IHs s).
Qed.

(** A struct without fields has one value. *)
Lemma no_fields_one_value J t (v w : value t) : is_struct t = true → type_ok J t → field_names t = [] → v = w.
Proof.
  induction t as [| | | | | | | | | | | | | | | | | |name super inner fs IHs _ _] using type_induction; try done. intros _ [Hs _] Hn. cbn in Hn.
  apply app_nil in Hn as [Hn Hfs]. apply fmap_nil_inv in Hfs as ->. destruct v as [b []], w as [b' []]. f_equal.
  destruct super as [s|]; [|by destruct b, b']. destruct Hs as [Hs Hss]. by apply (IHs s).
Qed.
End Structs.

(** ** The main lemma *)

Section RoundTrip.
Context {D : Type} `{!Doubles D, !Objects D} (F : ParserFormat) (J : JSONFormat) (HF : reads F J = true) (ok : D → Prop).
Local Abbreviation value t := (denote D t).
Local Abbreviation value_ok := (has_type ok False).

(** A value is read from its document, and from the element of an array that it is. *)
Definition reads_back (t : type) : Prop := ∀ (v : value t) path dest, value_ok t v →
  Deserialize F t path (Serialize J t v) dest = Ok v ∧ Deserialize F t path (Some (inner (Serialize J t v))) dest = Ok v.

(** A struct is read from any object that has its members. *)
Definition reads_members (t : type) : Prop := is_struct t = true → ∀ (v : value t) path dest ms, value_ok t v →
  (∀ name o, (name, o) ∈ struct_members J t v → FindMember ms name = o) → Deserialize F t path (Some (JObject ms)) dest = Ok v.

Lemma serialize_not_null t (v : value t) : is_optional t = false → value_ok t v → ∃ j, Serialize J t v = Some j ∧ j ≠ JNull.
Proof.
  destruct t; try done; unfold_serialize; try (intros; by eexists); intros _ Hv.
  - destruct J; by eexists.
  - destruct t1; by eexists.
  - destruct v as [x|]; [|done]. eexists. split; [done|]. destruct (call_case (T := denote D) (λ c o, serialize_case J c (inner (Serialize J c o))) cases x) as (c & o & _ & -> & _).
    unfold serialize_case. by destruct (variant_style_of J).
Qed.

Lemma reads_back_some t : is_optional t = false →
  (∀ (v : value t) path dest, value_ok t v → Deserialize F t path (Serialize J t v) dest = Ok v) → reads_back t.
Proof. intros Ho H v path dest Hv. specialize (H v path dest Hv). destruct (serialize_not_null t v Ho Hv) as (j & Hj & _). by rewrite Hj in *. Qed.

(** An element of an array. *)
Lemma reads_inner t (v : value t) : reads_back t → value_ok t v → ∀ path dest, Deserialize F t path (Some (inner (Serialize J t v))) dest = Ok v.
Proof. intros H Hv path dest. by apply H. Qed.

Lemma number_reads get cast expected path (z dest : Z) :
  get (JInt z) = Some z → cast z = z → deserialize_number (D := D) F get cast expected path (Some (JInt z)) dest = Ok z.
Proof. intros Hg Hc. unfold deserialize_number. by rewrite Hg, Hc. Qed.

Lemma uint_reads w expected path z dest : 0 ≤ z < 2 ^ bits_of w →
  deserialize_number (D := D) F IsUint64 (to_unsigned w) expected path (Some (JInt z)) dest = Ok z.
Proof. intros Hz. pose proof (width_bound w). apply number_reads; [apply IsUint64_ok; lia|by apply to_unsigned_id]. Qed.

Lemma int_reads w expected path z dest : - 2 ^ (bits_of w - 1) ≤ z < 2 ^ (bits_of w - 1) →
  deserialize_number (D := D) F IsInt64 (to_signed w) expected path (Some (JInt z)) dest = Ok z.
Proof. intros Hz. pose proof (width_bound w). apply number_reads; [apply IsInt64_ok; lia|by apply to_signed_id]. Qed.

Lemma enum_reads signed w path (z dest : Z) : has_type ok False (TEnum [] signed w) z →
  deserialize_enum (D := D) F signed w path (Some (JInt z)) dest = Ok z.
Proof.
  pose proof (width_bound w). unfold deserialize_enum. destruct signed; cbn [has_type]; intros Hz.
  - rewrite IsInt64_ok by lia. by rewrite to_signed_id.
  - rewrite IsUint64_ok by lia. by rewrite to_unsigned_id.
Qed.

Lemma primitive_reads t : match t with
  | TBool | TUInt _ | TInt _ | TChar | TString | TFloat | TDouble | TMicroseconds | TMilliseconds | TEnum _ _ _ => reads_back t
  | _ => True end.
Proof.
  destruct t; try done; apply reads_back_some; try done; intros v path dest Hv; unfold_json; cbn [has_type] in Hv; try done.
  - by apply uint_reads.
  - by apply int_reads.
  - by apply int_reads.
  - unfold deserialize_double. f_equal. by destruct Hv.
  - by apply number_reads; [apply IsInt64_ok|].
  - by apply number_reads; [apply IsInt64_ok|].
  - apply enum_reads. by destruct signed.
Qed.

Lemma array_reads n t : reads_back t → reads_back (TArray n t).
Proof.
  intros IH. apply reads_back_some; [done|]. intros v path dest [Hl Hv]. unfold_json.
  apply (load_elements_ok _ (λ x, inner (Serialize J t x))); [by rewrite length_resize|]. eapply Forall_impl; [exact Hv|]. intros x Hx i d. by apply reads_inner.
Qed.

Lemma vector_reads t : reads_back t → reads_back (TVector t).
Proof.
  intros IH. apply reads_back_some; [done|]. intros v path dest Hv. unfold_json.
  apply (load_elements_ok _ (λ x, inner (Serialize J t x))); [by rewrite length_resize, length_fmap|].
  eapply Forall_impl; [exact Hv|]. intros x Hx i d. by apply reads_inner.
Qed.

Lemma set_reads t : reads_back t → reads_back (TSet t).
Proof.
  intros IH. apply reads_back_some; [done|]. intros v path dest [Hv Hs]. unfold_json.
  apply (load_set_ok (less t) _ (λ x, inner (Serialize J t x)) v []); [|done]. eapply Forall_impl; [exact Hv|]. intros x Hx i. by apply reads_inner.
Qed.

Lemma reads_fsharp : is_fsharp F = match J with NewtonsoftFSharp => true | _ => false end.
Proof. by destruct F as [[]|[]], J. Qed.

Lemma reads_style : match variant_style F with
  | StyleCurrent => J = Current
  | StyleSimple => variant_style_of J ≠ StyleNewtonsoftFSharp
  | StyleNewtonsoftFSharp => J = NewtonsoftFSharp end.
Proof. by destruct F as [[]|[]], J. Qed.

Lemma pair_reads a b : reads_back a → reads_back b → reads_back (TPair a b).
Proof.
  intros Ha Hb. apply reads_back_some; [done|]. intros [x y] path dest [Hx Hy]. unfold_json. rewrite reads_fsharp.
  pose proof (reads_inner a x Ha Hx) as Rx. pose proof (reads_inner b y Hb Hy) as Ry. clear Ha Hb.
  destruct J; cbn [fst snd FindMember]; find_member; rewrite Rx; cbn [mbind outcome_bind]; by rewrite Ry.
Qed.

Lemma hforall_impl {A} {T : A → Type} (P Q : ∀ a, T a → Prop) l v :
  Forall (λ a, ∀ x, P a x → Q a x) l → hforall P l v → hforall Q l v.
Proof. intros Hl. induction Hl as [|a l Ha _ IH]; [done|]. destruct v as [x v]. intros [Hx Hv]. split; [by apply Ha|by apply IH]. Qed.

Lemma tuple_reads ts : Forall reads_back ts → reads_back (TTuple ts).
Proof.
  intros IH. apply reads_back_some; [done|]. intros v path dest Hv. unfold_json. rewrite length_visit_all, Nat.eqb_refl.
  apply (load_tuple_ok _ (λ t x, inner (Serialize J t x))). eapply hforall_impl; [|exact Hv]. eapply Forall_impl; [exact IH|].
  intros t Ht x Hx i d. by apply reads_inner.
Qed.

Lemma map_reads k v : reads_back k → reads_back v → reads_back (TMap k v).
Proof.
  intros Hk Hv. apply reads_back_some; [done|]. intros m path dest [Hm Hs]. unfold_deserialize. destruct (is_string k) eqn:Hstr.
  - destruct k; try done. unfold_serialize. apply (load_members_ok (less TString) _ _ _ _ id (λ x, inner (Serialize J v x)) m []); [|done].
    eapply Forall_impl; [exact Hm|]. intros e [He1 He2]. split; [done|]. intros d. by apply reads_inner.
  - assert (Serialize J (TMap k v) m = Some (JArray ((λ e, JArray [inner (Serialize J k e.1); inner (Serialize J v e.2)]) <$> m))) as ->
      by by destruct k.
    apply (load_pairs_ok (less k) _ (λ e, JArray [inner (Serialize J k e.1); inner (Serialize J v e.2)]) m []); [|done].
    eapply Forall_impl; [exact Hm|]. intros [x y] [Hx Hy] _. cbn [fst snd].
    rewrite (reads_inner k x Hk Hx). cbn [mbind outcome_bind]. by rewrite (reads_inner v y Hv Hy).
Qed.

Lemma reads_missing_optional : JSONPatchMode F = true → J = Current ∨ J = JavaScript.
Proof. destruct F as [|[]], J; try done; auto. Qed.

Lemma optional_reads t : reads_back t → J = NewtonsoftFSharp ∨ is_optional t = false → reads_back (TOptional t).
Proof.
  intros Ht Ho [x|] path dest Hx; unfold_json; rewrite reads_fsharp.
  - pose proof (reads_inner t x Ht Hx) as Rx. destruct (decide (J = NewtonsoftFSharp)) as [HJ|HJ].
    + rewrite HJ in *. unfold fsharp_option. cbn [inner default from_option id]. cbn [FindMember]. find_member. rewrite Rx. done.
    + destruct Ho as [|Ho]; [done|]. destruct (serialize_not_null t x Ho Hx) as (j & Hj & Hnn). rewrite Hj in Rx. cbn [inner default from_option id] in Rx.
      destruct J; try done; rewrite Hj; cbn [inner default from_option id]; destruct j; try done; by rewrite Rx.
  - pose proof reads_missing_optional as Hp. destruct J; try done. split; [|done]. destruct (JSONPatchMode F); [|done]. by destruct Hp.
Qed.

(** The members of a serialized case in the styles that use the name as a key. *)
Lemma case_key c (object : json D) : J ≠ NewtonsoftFSharp →
  ∃ ms, serialize_case J c object = JObject ((CurrentTypeName c, object) :: ms) ∧ Forall (λ m, m.1 = [] ∨ m.1 = str "$") ms.
Proof.
  intros HJ. destruct J; try done; cbn [serialize_case]; eexists; (split; [done|]); rewrite ?Forall_app, ?Forall_cons, Forall_nil; cbn; auto.
Qed.

Lemma single_key_found path current found (ms : list (bytes * json D)) :
  Forall (λ m, m.1 = [] ∨ m.1 = str "$") ms → single_key path current found ms = Ok found.
Proof. induction 1 as [|[key j] ms [Hk|Hk] _ IH]; [done|..]; cbn in Hk; subst; cbn; by find_member. Qed.

Lemma single_key_case path current name (object : json D) ms : case_name_ok name → Forall (λ m, m.1 = [] ∨ m.1 = str "$") ms →
  single_key path current None ((name, object) :: ms) = Ok (Some name).
Proof.
  intros (H1 & H2 & H3) Hms. cbn [single_key]. rewrite (c_str_id name) by done. rewrite !bool_decide_false by done. by apply single_key_found.
Qed.

Section Variant.
Context (cs : list type) (Hcs : Forall (case_ok J) cs) (Hnames : NoDup (CurrentTypeName <$> cs)) (Hids : NoDup (reflected_type_id <$> cs))
  (Hok : Forall (type_ok J) cs) (IH : Forall reads_back cs).
Local Abbreviation load := (load_variant F reflected_type_id CurrentTypeName IsEmptyCurrentStruct (λ c, Deserialize F c) construct cs).

(** The case that a variant holds, with what is known of it. *)
Lemma held_case (x : hsum (denote D) cs) : hexists value_ok cs x → ∃ c o,
  call (denote D) (λ c o, serialize_case J c (inner (Serialize J c o))) cs x = serialize_case J c (inner (Serialize J c o)) ∧
  case_ok J c ∧ type_ok J c ∧ reads_back c ∧ value_ok c o ∧ ∀ P : ∀ c, value c → Prop, hexists P cs x ↔ P c o.
Proof.
  intros Hx. destruct (call_case (T := denote D) (λ c o, serialize_case J c (inner (Serialize J c o))) cs x) as (c & o & Hc & He & HP).
  exists c, o. rewrite Forall_forall in Hcs, Hok, IH. split_and!; eauto. by apply HP.
Qed.

Lemma variant_reads_current path dest x : variant_style F = StyleCurrent → hexists value_ok cs x → ∃ ms,
  call (denote D) (λ c o, serialize_case J c (inner (Serialize J c o))) cs x = JObject ms ∧ load path ms dest = Ok (Some x).
Proof.
  intros Hst Hx. pose proof reads_style as HJ. rewrite Hst in HJ. destruct (held_case x Hx) as (c & o & -> & (Hk & (Hn & _) & _) & _ & Hr & Ho & HP).
  pose proof (reads_inner c o Hr Ho) as Ro. clear Hr. rewrite HJ in *. cbn [serialize_case variant_style_of]. eexists. split; [done|].
  unfold_load_variant. rewrite Hst. cbn [app JSONVariantTypeIDInEmptyKey JSONVariantTypeNameInDollarKey FindMember]. rewrite (bool_decide_false (CurrentTypeName c = [])) by done.
  find_member. rewrite deserialize_serialize_type_id by by apply type_id_range. cbn [mbind outcome_bind].
  rewrite (load_case_ok reflected_type_id _ (reflected_type_id c) _ cs x); [done|intros; apply Z.eqb_eq|done|].
  apply HP. split; [apply Z.eqb_refl|]. unfold case_generic. cbn [FindMember]. rewrite bool_decide_true by done. by rewrite Ro.
Qed.

Lemma variant_reads_simple path dest x : variant_style F = StyleSimple → hexists value_ok cs x → ∃ ms,
  call (denote D) (λ c o, serialize_case J c (inner (Serialize J c o))) cs x = JObject ms ∧ load path ms dest = Ok (Some x).
Proof.
  intros Hst Hx. pose proof reads_style as HJ. rewrite Hst in HJ. destruct (held_case x Hx) as (c & o & -> & (_ & Hn & _) & _ & Hr & Ho & HP).
  destruct (case_key c (inner (Serialize J c o))) as (ms & -> & Hms); [by intros ->|]. eexists. split; [done|].
  unfold_load_variant. rewrite Hst, single_key_case by done. cbn [mbind outcome_bind].
  rewrite (load_case_ok CurrentTypeName _ (CurrentTypeName c) _ cs x); [done|intros; apply bool_decide_eq_true|done|].
  apply HP. split; [by apply bool_decide_eq_true|]. unfold case_minimalistic. cbn [FindMember]. rewrite bool_decide_true by done.
  by rewrite (reads_inner c o Hr Ho).
Qed.

Lemma variant_reads_fsharp path dest x : variant_style F = StyleNewtonsoftFSharp → hexists value_ok cs x → ∃ ms,
  call (denote D) (λ c o, serialize_case J c (inner (Serialize J c o))) cs x = JObject ms ∧ load path ms dest = Ok (Some x).
Proof.
  intros Hst Hx. pose proof reads_style as HJ. rewrite Hst in HJ. destruct (held_case x Hx) as (c & o & -> & (Hk & _ & He) & Hc & Hr & Ho & HP).
  unfold serialize_case. assert (variant_style_of J = StyleNewtonsoftFSharp) as -> by by rewrite HJ. eexists. split; [done|].
  unfold_load_variant. rewrite Hst. cbn [app FindMember]. find_member.
  rewrite (load_case_ok CurrentTypeName _ (CurrentTypeName c) _ cs x); [done|intros; apply bool_decide_eq_true|done|].
  apply HP. split; [by apply bool_decide_eq_true|]. unfold case_fsharp. cbn [FindMember]. find_member.
  destruct (is_variant c || negb (IsEmptyCurrentStruct c)) eqn:Hem; cbn [FindMember]; find_member.
  - by rewrite (reads_inner c o Hr Ho).
  - apply orb_false_iff in Hem as [Hv Hem%negb_false_iff]. rewrite Hem. rewrite Hv, orb_false_r in Hk. do 2 f_equal.
    apply (no_fields_one_value J); auto.
Qed.

Lemma variant_reads name : reads_back (TVariant name cs).
Proof.
  apply reads_back_some; [done|]. intros [x|] path dest Hx; [|done]. unfold_json.
  assert (∃ ms, call (denote D) (λ c o, serialize_case J c (inner (Serialize J c o))) cs x = JObject ms ∧ load path ms dest = Ok (Some x))
    as (ms & -> & Hl); [|exact Hl].
  destruct (variant_style F) eqn:Hst; eauto using variant_reads_current, variant_reads_simple, variant_reads_fsharp.
Qed.
End Variant.

Lemma fields_read fs (v dest : hlist (λ f : bytes * type, value f.2) fs) path ms :
  Forall (λ f, reads_back f.2) fs → hforall (λ f : bytes * type, value_ok f.2) fs v →
  (∀ name o, (name, o) ∈ visit_all (λ f, value f.2) (λ (f : bytes * type) x, (f.1, Serialize J f.2 x)) fs v → FindMember ms name = o) →
  load_fields (λ f : bytes * type, value f.2) (λ f d, Deserialize F f.2 (at_field path f.1) (FindMember ms f.1) d) fs dest = Ok v.
Proof.
  intros IH. induction IH as [|f fs Hf _ IHl]; [by destruct v|]. destruct v as [x v], dest as [d dest]. intros [Hx Hv] Hms. cbn in Hms, Hx, Hv.
  cbn [load_fields fst snd]. rewrite (Hms f.1 (Serialize J f.2 x)) by apply list_elem_of_here. destruct (Hf x (at_field path f.1) d Hx) as [-> _].
  cbn [mbind outcome_bind]. rewrite (IHl v dest); [done|done|]. intros name o Hin. apply Hms. by apply list_elem_of_further.
Qed.

Lemma members_read name super inner fs :
  match super with Some s => is_struct s = true ∧ reads_members s | None => True end → Forall (λ f, reads_back f.2) fs →
  reads_members (TStruct name super inner fs).
Proof.
  intros Hs Hfs _ [b v] path [db dest] ms [Hb Hv] Hms. cbn in Hb, Hv, Hms. unfold_deserialize. cbn [fst snd].
  assert (∀ r, r = Ok b → (base ← r; own ← load_fields (λ f : bytes * type, value f.2) (λ f d, Deserialize F f.2 (at_field path f.1) (FindMember ms f.1) d) fs dest;
    Ok (base, own)) = Ok (b, v)) as H.
  { intros r ->. cbn [mbind outcome_bind]. rewrite (fields_read fs v dest path ms); [done..|]. intros n o Hin. apply Hms, elem_of_app. by right. }
  destruct super as [s|]; [|by destruct b, db; apply H]. apply H. destruct Hs as [Hst Hs]. apply Hs; [done..|]. intros n o Hin. apply Hms, elem_of_app. by left.
Qed.

Lemma struct_reads t : is_struct t = true → type_ok J t → reads_members t → reads_back t.
Proof.
  intros Hs Ht Hm. apply reads_back_some; [by destruct t|]. intros v path dest Hv. rewrite serialize_struct by done.
  apply Hm; [done..|]. intros name o Hin. apply FindMember_present; [|done]. rewrite struct_members_names. destruct t; try done. by destruct Ht as (_ & _ & ?).
Qed.

Lemma type_ok_all {A} (P : A → type) (l : list A) :
  foldr (λ a Q, type_ok J (P a) ∧ Q) True l → Forall (λ a, type_ok J (P a)) l.
Proof. induction l as [|a l IHl]; [done|]. intros [Ha Hl]. constructor; [done|by apply IHl]. Qed.

(** What [Serialize] has written is read back. *)
Lemma deserialize_serialize t : type_ok J t → reads_back t ∧ reads_members t.
Proof.
  induction t as [| | | | | | | | |name s w|n t IH|t IH|t IH|a b IHa IHb|ts IH|k v IHk IHv|t IH|name cs IH|name super inner fs IHs _ IH]
    using type_induction; intros Hok; match goal with |- reads_back ?t ∧ _ => try (split; [exact (primitive_reads t)|done]) end.
  - split; [|done]. apply array_reads. by apply IH.
  - split; [|done]. apply vector_reads. by apply IH.
  - split; [|done]. apply set_reads. by apply IH.
  - split; [|done]. destruct Hok. apply pair_reads; [by apply IHa|by apply IHb].
  - split; [|done]. apply tuple_reads. apply (type_ok_all id) in Hok. apply Forall_forall. intros t Ht. rewrite Forall_forall in IH, Hok. by apply IH, Hok.
  - split; [|done]. destruct Hok. apply map_reads; [by apply IHk|by apply IHv].
  - split; [|done]. destruct Hok. apply optional_reads; [by apply IH|done].
  - split; [|done]. destruct Hok as (Hok & Hcs & Hn & Hid). apply (type_ok_all id) in Hok. apply variant_reads; try done.
    apply Forall_forall. intros t Ht. rewrite Forall_forall in IH, Hok. by apply IH, Hok.
  - assert (reads_members (TStruct name super inner fs)) as Hm; [|split; [by apply struct_reads|done]]. destruct Hok as (Hs & Hok & _).
    apply members_read.
    + destruct super as [s|]; [|done]. destruct Hs as [Hs Hst]. split; [done|]. by apply (IHs s).
    + apply (type_ok_all snd) in Hok. apply Forall_forall. intros f Hf. rewrite Forall_forall in IH, Hok. apply IH; [done|by apply Hok].
Qed.
End RoundTrip.

(** ** What is read is a value of the type

    For any document, [Deserialize] keeps the destination a value of its type, as
    [has_type] says: numbers in the range of their width, arrays of their length,
    the keys of sets and maps in order and without duplicates. *)

(** ** Ranges *)

Lemma to_unsigned_range w z : 0 ≤ to_unsigned w z < 2 ^ bits_of w.
Proof. apply Z.mod_pos_bound. by destruct w. Qed.

Lemma to_signed_range w z : - 2 ^ (bits_of w - 1) ≤ to_signed w z < 2 ^ (bits_of w - 1).
Proof.
  unfold to_signed. pose proof (to_unsigned_range w z) as Hu. unfold to_unsigned in Hu.
  assert (2 ^ bits_of w = 2 * 2 ^ (bits_of w - 1)) by (rewrite <- Z.pow_succ_r; [f_equal; lia|destruct w; done]).
  destruct (Z.ltb_spec (z mod 2 ^ bits_of w) (2 ^ (bits_of w - 1))); lia.
Qed.

Lemma IsInt64_range {D} (j : json D) z : IsInt64 j = Some z → - 2 ^ 63 ≤ z < 2 ^ 63.
Proof.
  destruct j; try done. unfold IsInt64. destruct (Z.leb_spec (- 2 ^ 63) z0), (Z.ltb_spec z0 (2 ^ 63)); cbn [andb]; intros [= <-]; lia.
Qed.

(** ** Ordered keys *)

Section Keys.
Context {K V : Type} (lt : K → K → bool) (Hirr : ∀ a, lt a a = false) (Htrans : ∀ a b c, lt a b = true → lt b c = true → lt a c = true).

Lemma lt_asymmetric a b : lt a b = true → lt b a = false.
Proof using Hirr Htrans. intros Hab. apply not_true_is_false. intros Hba. pose proof (Htrans _ _ _ Hab Hba). by rewrite Hirr in *. Qed.

Lemma map_insert_forall (P : K * V → Prop) k v m : P (k, v) → Forall P m → Forall P (map_insert lt k v m).
Proof using Type.
  intros Hk. induction 1 as [|[k' v'] m Hk' Hm IH]; cbn; [by repeat constructor|]. case_match; by repeat constructor.
Qed.

Lemma map_insert_sorted k (v : V) m : map_find lt k m = None → keys_sorted lt m.*1 → keys_sorted lt (map_insert lt k v m).*1.
Proof using Hirr Htrans.
  induction m as [|[k' v'] m IH]; [by repeat constructor|]. cbn [map_find map_insert fmap list_fmap fst]. intros Hf Hs.
  pose proof Hs as [Hm Hk']%StronglySorted_inv. destruct (same_key lt k k') eqn:Hsame; [done|]. destruct (lt k k') eqn:Hlt.
  - constructor; [done|]. constructor; [by split; [|apply lt_asymmetric]|]. eapply Forall_impl; [exact Hk'|]. intros k'' [H _].
    assert (lt k k'' = true) by by eapply Htrans. by split; [|apply lt_asymmetric].
  - cbn [fmap list_fmap fst]. constructor; [by apply IH|]. unfold same_key in Hsame. rewrite Hlt in Hsame. cbn in Hsame. apply negb_false_iff in Hsame.
    apply Forall_fmap. apply map_insert_forall; [done|]. by apply Forall_fmap in Hk'.
Qed.

Lemma map_emplace_sorted k (v : V) m : keys_sorted lt m.*1 → keys_sorted lt (map_emplace lt k v m).*1.
Proof using Hirr Htrans. intros Hm. unfold map_emplace. destruct (map_find lt k m) eqn:Hf; [done|by apply map_insert_sorted]. Qed.

Lemma map_emplace_forall (P : K * V → Prop) k v m : P (k, v) → Forall P m → Forall P (map_emplace lt k v m).
Proof using Type. intros Hk Hm. unfold map_emplace. case_match; [done|by apply map_insert_forall]. Qed.
End Keys.

Section Sets.
Context {K : Type} (lt : K → K → bool) (Hirr : ∀ a, lt a a = false) (Htrans : ∀ a b c, lt a b = true → lt b c = true → lt a c = true).

Lemma set_insert_sorted k l : keys_sorted lt l → keys_sorted lt (set_insert lt k l).
Proof using Hirr Htrans.
  intros Hl. unfold set_insert. apply (map_emplace_sorted lt Hirr Htrans). by rewrite <- list_fmap_compose, list_fmap_id.
Qed.

Lemma set_insert_forall (P : K → Prop) k l : P k → Forall P l → Forall P (set_insert lt k l).
Proof using Type. intros Hk Hl. unfold set_insert. apply Forall_fmap. apply map_emplace_forall; [done|]. by apply Forall_fmap. Qed.
End Sets.

(** ** Loops *)

(** The steps of a computation that has not thrown. *)
Ltac invert_ok :=
  repeat match goal with
         | H : mbind _ ?m = Ok _ |- _ => destruct m eqn:?; cbn [mbind outcome_bind] in H; [|discriminate H]
         | H : Ok _ = Ok _ |- _ => injection H as H; try subst
         | H : Throw _ = Ok _ |- _ => discriminate H
         end.

Section Loops.
Context {D : Type}.
Local Abbreviation parsed := (outcome (json_exception D)).

Lemma load_elements_typed {T} (P : T → Prop) (f : nat → json D → T → parsed T) i js dest vs :
  (∀ i j d v, P d → f i j d = Ok v → P v) → Forall P dest → load_elements f i js dest = Ok vs → Forall P vs ∧ length vs = length dest.
Proof.
  intros Hf Hd. revert i js vs. induction Hd as [|d dest Hd _ IH]; intros i js vs; destruct js as [|j js]; cbn [load_elements]; try done; intros H; [by invert_ok..|].
  invert_ok. cbn. split; [constructor|f_equal]; [by eapply Hf|by eapply IH..].
Qed.

Lemma load_into_typed {T C X} (P : C → Prop) (Q : T → Prop) (f : nat → X → parsed T) add i js (c c' : C) :
  (∀ i j v, f i j = Ok v → Q v) → (∀ v c, Q v → P c → P (add v c)) → P c → load_into f add i js c = Ok c' → P c'.
Proof.
  intros Hf Ha. revert i c. induction js as [|j js IH]; intros i c Hc; cbn [load_into]; [by intros H; invert_ok|]. intros H. invert_ok.
  eapply IH; [|exact H]. eauto.
Qed.

Lemma load_members_typed {K V C} (P : C → Prop) (Qk : K → Prop) (Qv : V → Prop) (fk : json D → K → parsed K) (fv : json D → V → parsed V) mk mv add ms k v (c c' : C) :
  (∀ j k k', Qk k → fk j k = Ok k' → Qk k') → (∀ j v v', Qv v → fv j v = Ok v' → Qv v') → (∀ k, Qk k → Qk (mk k)) → (∀ v, Qv v → Qv (mv v)) →
  (∀ k v c, Qk k → Qv v → P c → P (add k v c)) → Qk k → Qv v → P c → load_members fk fv mk mv add ms k v c = Ok c' → P c'.
Proof.
  intros Hk Hv Hmk Hmv Ha. revert k v c. induction ms as [|[name j] ms IH]; intros k v c Hk0 Hv0 Hc; cbn [load_members]; [by intros H; invert_ok|].
  intros H. invert_ok. eapply IH; [| | |exact H]; eauto.
Qed.

Section Typed.
Context {A : Type} {T : A → Type} (P : ∀ a, T a → Prop).

Lemma load_tuple_typed (f : nat → ∀ a, json D → T a → parsed (T a)) l i js (dest vs : hlist T l) :
  Forall (λ a, ∀ i j d v, P a d → f i a j d = Ok v → P a v) l → hforall P l dest → load_tuple T f i l js dest = Ok vs → hforall P l vs.
Proof.
  intros Hl. revert i js. induction Hl as [|a l Ha _ IH]; intros i js; [done|]. destruct dest as [d dest], vs as [v vs]. intros [Hd Hds] H.
  cbn [load_tuple] in H. destruct js as [|j js]; [done|]. invert_ok. split; [by eapply Ha|by eapply IH].
Qed.

Lemma load_fields_typed (f : ∀ a, T a → parsed (T a)) l (dest vs : hlist T l) :
  Forall (λ a, ∀ d v, P a d → f a d = Ok v → P a v) l → hforall P l dest → load_fields T f l dest = Ok vs → hforall P l vs.
Proof.
  intros Hl. induction Hl as [|a l Ha _ IH]; [done|]. destruct dest as [d dest], vs as [v vs]. intros [Hd Hds] H.
  cbn [load_fields] in H. invert_ok. split; [by eapply Ha|by eapply IH].
Qed.

Lemma load_case_typed p (f : ∀ a, parsed (option (T a))) l x :
  Forall (λ a, ∀ o, f a = Ok (Some o) → P a o) l → load_case T p f l = Some (Ok (Some x)) → hexists P l x.
Proof.
  induction 1 as [|a l Ha _ IH]; [done|]. cbn [load_case]. destruct (load_case T p f l) as [[[y|]|e]|] eqn:Hl; cbn [option_map].
  - intros [= <-]. cbn. by apply IH.
  - done.
  - done.
  - destruct (p a); [|done]. destruct (f a) as [[o|]|] eqn:Hf; [|done..]. intros [= <-]. by apply Ha.
Qed.
End Typed.
End Loops.

(** ** The lemma *)

(** What is asked of the types of a program: objects are constructed and left by a
    move as values of their type, and the order of keys is strict. *)
Class ObjectLaws (D : Type) `{!Doubles D, !Objects D} : Prop := {
  to_float_idempotent d : to_float (to_float d) = to_float d;
  construct_typed t : has_type (λ _, True) True t (construct t);
  moved_from_typed t v : has_type (λ _, True) True t v → has_type (λ _, True) True t (moved_from t v);
  less_irreflexive t a : less t a a = false;
  less_transitive t a b c : less t a b = true → less t b c = true → less t a c = true;
}.

Section Typed.
Context {D : Type} `{!Doubles D, !Objects D, !ObjectLaws D} (F : ParserFormat).
Local Abbreviation value t := (denote D t).
Local Abbreviation typed := (has_type (D := D) (λ _, True) True).

Definition keeps_type (t : type) : Prop := ∀ path current (dest v : value t), typed t dest → Deserialize F t path current dest = Ok v → typed t v.

Lemma mismatch_ok {A} expected path current (dest v : A) : mismatch (D := D) F expected path current dest = Ok v → v = dest.
Proof. unfold mismatch. case_match; [done|]. by intros [= ->]. Qed.

Lemma number_typed (P : Z → Prop) get cast expected path current dest v :
  (∀ j z, get j = Some z → P (cast z)) → P dest → deserialize_number (D := D) F get cast expected path current dest = Ok v → P v.
Proof.
  intros Hg Hd. unfold deserialize_number. repeat case_match; try (by intros ->%mismatch_ok). intros [= <-]. by eapply Hg.
Qed.

Lemma double_typed (P : D → Prop) cast expected path current dest v :
  (∀ d, P (cast d)) → P dest → deserialize_double (D := D) F cast expected path current dest = Ok v → P v.
Proof. intros Hc Hd. unfold deserialize_double. repeat case_match; try (by intros ->%mismatch_ok); by intros [= <-]. Qed.

Lemma enum_typed name signed w path current dest v :
  typed (TEnum name signed w) dest → deserialize_enum (D := D) F signed w path current dest = Ok v → typed (TEnum name signed w) v.
Proof.
  intros Hd. unfold deserialize_enum. repeat case_match; try done; try (by intros ->%mismatch_ok); intros [= <-]; cbn [has_type];
    auto using to_signed_range, to_unsigned_range.
Qed.

Lemma primitive_typed t : match t with
  | TBool | TUInt _ | TInt _ | TChar | TString | TFloat | TDouble | TMicroseconds | TMilliseconds | TEnum _ _ _ => keeps_type t
  | _ => True end.
Proof.
  destruct t; try done; intros path current dest v Hd; unfold_deserialize; cbn [has_type] in Hd |- *.
  - apply (number_typed (λ z, 0 ≤ z < 2 ^ bits_of w)); [|done]. intros. apply to_unsigned_range.
  - apply (number_typed (λ z, - 2 ^ (bits_of w - 1) ≤ z < 2 ^ (bits_of w - 1))); [|done]. intros. apply to_signed_range.
  - apply (number_typed (λ z, - 2 ^ 7 ≤ z < 2 ^ 7)); [|done]. intros. apply (to_signed_range W8).
  - apply (double_typed (λ d, to_float d = d ∧ True)); [|done]. intros. by rewrite to_float_idempotent.
  - apply (number_typed (λ z, - 2 ^ 63 ≤ z < 2 ^ 63)); [|done]. intros j z. apply IsInt64_range.
  - apply (number_typed (λ z, - 2 ^ 63 ≤ z < 2 ^ 63)); [|done]. intros j z. apply IsInt64_range.
  - by apply (enum_typed name).
Qed.

Lemma resize_typed {A} (P : A → Prop) n x l : P x → Forall P l → Forall P (resize n x l).
Proof. intros Hx Hl. apply Forall_resize; done. Qed.

Lemma array_typed n t : keeps_type t → keeps_type (TArray n t).
Proof.
  intros IH path current dest v [Hl Hd]. unfold_deserialize. destruct current as [[| | | | |js|]|]; try (by intros ->%mismatch_ok).
  intros H. apply (load_elements_typed (typed t)) in H as [Hv Hl']; [|by intros i j d x; apply IH|by apply resize_typed; [apply construct_typed|]].
  split; [|done]. etrans; [exact Hl'|apply length_resize].
Qed.

Lemma vector_typed t : keeps_type t → keeps_type (TVector t).
Proof.
  intros IH path current dest v Hd. unfold_deserialize. destruct current as [[| | | | |js|]|]; try (by intros ->%mismatch_ok).
  intros H. apply (load_elements_typed (typed t)) in H as [Hv _]; [done|by intros i j d x; apply IH|by apply resize_typed; [apply construct_typed|]].
Qed.

Lemma set_typed t : keeps_type t → keeps_type (TSet t).
Proof.
  intros IH path current dest v _. unfold_deserialize. assert (typed (TSet t) []) as Hnil by (split; constructor).
  destruct current as [[| | | | |js|]|]; try (by intros ->%mismatch_ok).
  apply (load_into_typed (typed (TSet t)) (typed t)); [|intros x c Hx [Hc Hs]|done].
  - intros i j x. apply IH. apply construct_typed.
  - split; [by apply set_insert_forall|]. apply set_insert_sorted; [apply less_irreflexive|apply less_transitive|done].
Qed.

Lemma pair_typed a b : keeps_type a → keeps_type b → keeps_type (TPair a b).
Proof.
  intros Ha Hb path current dest v [Hd1 Hd2]. unfold_deserialize. intros H.
  repeat case_match; try done; try (apply mismatch_ok in H as ->; done); invert_ok; split; cbn; (eapply Ha + eapply Hb); eauto.
Qed.

Lemma tuple_typed ts : Forall keeps_type ts → keeps_type (TTuple ts).
Proof.
  intros IH path current dest v Hd. unfold_deserialize. repeat case_match; try done; try (by intros ->%mismatch_ok).
  apply (load_tuple_typed typed); [|done]. eapply Forall_impl; [exact IH|]. intros t Ht ? ? d x. apply Ht.
Qed.

Lemma emplace_typed k v x y m : typed k x → typed v y → typed (TMap k v) m → typed (TMap k v) (map_emplace (less k) x y m).
Proof.
  intros Hx Hy [Hm Hs]. split; [by apply map_emplace_forall|]. apply map_emplace_sorted; [apply less_irreflexive|apply less_transitive|done].
Qed.

Lemma map_typed k v : keeps_type k → keeps_type v → keeps_type (TMap k v).
Proof.
  intros Hk Hv path current dest m _. unfold_deserialize. assert (typed (TMap k v) []) as Hnil by (split; constructor).
  destruct (is_string k), current as [[| | | | |js|ms]|]; try done.
  - apply (load_members_typed (typed (TMap k v)) (typed k) (typed v)); try done; eauto using moved_from_typed, construct_typed, emplace_typed.
  - apply (load_into_typed (typed (TMap k v)) (λ e, typed k e.1 ∧ typed v e.2)); [|intros [x y] c [Hx Hy] Hc; by apply emplace_typed|done].
    intros i j [x y] He. repeat case_match; try done. invert_ok. split; [eapply Hk|eapply Hv]; eauto using construct_typed.
Qed.

Lemma optional_typed t : keeps_type t → keeps_type (TOptional t).
Proof.
  intros IH path current dest v Hd. unfold_deserialize. intros H. repeat case_match; try done; invert_ok; try done; cbn; eapply IH; eauto using construct_typed.
Qed.

Lemma cases_typed c name empty path ms (o : value c) : keeps_type c →
  (case_generic F (Deserialize F c) (construct c) name path ms = Ok (Some o) → typed c o) ∧
  (case_minimalistic (Deserialize F c) (construct c) name path ms = Ok (Some o) → typed c o) ∧
  (case_fsharp (Deserialize F c) (construct c) empty path ms = Ok (Some o) → typed c o).
Proof.
  intros IH. unfold case_generic, case_minimalistic, case_fsharp. split_and!; intros H; repeat case_match; try done; invert_ok;
    eauto using construct_typed.
Qed.

Lemma variant_typed name cs : Forall keeps_type cs → keeps_type (TVariant name cs).
Proof.
  intros IH path current dest v Hd. unfold_deserialize. intros H. destruct current as [[| | | | | |ms]|];
    try (by apply mismatch_ok in H as ->); try (case_match; [done|by invert_ok]).
  assert (∀ p f e, Forall (λ c, ∀ o, f c = Ok (Some o) → typed c o) cs →
    match load_case (D := D) (denote D) p f cs with
    | Some r => x ← r; Ok (match x with Some x => Some x | None => dest end)
    | None => Throw e
    end = Ok v → typed (TVariant name cs) v) as Hload.
  { intros p f e Hf Hv. destruct (load_case (denote D) p f cs) as [[[x|]|]|] eqn:Hl; try done; injection Hv as <-; [|done].
    by apply (load_case_typed typed p f). }
  unfold load_variant, load_variant_current, load_variant_simple, load_variant_fsharp, load_registered in H. destruct (variant_style F).
  - destruct (FindMember ms []) as [j|]; [|done]. destruct (deserialize_type_id _ _) as [id|]; [|done].
    eapply Hload; [|exact H]. eapply Forall_impl; [exact IH|]. intros c Hc o. by apply (cases_typed c _ true).
  - destruct (single_key _ _ _ _) as [[case_name|]|]; [|done..].
    eapply Hload; [|exact H]. eapply Forall_impl; [exact IH|]. intros c Hc o. by apply (cases_typed c _ true).
  - destruct (FindMember ms (str "Case")) as [[| | | |case_name| |]|]; try done.
    eapply Hload; [|exact H]. eapply Forall_impl; [exact IH|]. intros c Hc o. by apply (cases_typed c []).
Qed.

Lemma struct_typed name super inner fs : (∀ s, super = Some s → keeps_type s) → Forall (λ f, keeps_type f.2) fs → keeps_type (TStruct name super inner fs).
Proof.
  intros Hs Hfs path current [db dest] [b v] [Hb Hd]. unfold_deserialize. destruct current as [[| | | | | |ms]|];
    try (intros ?%mismatch_ok; simplify_eq; by split).
  intros H. cbn [fst snd] in *. invert_ok. split; cbn [fst snd].
  - destruct super as [s|]; [|done]. by eapply (Hs s).
  - eapply (load_fields_typed (λ f, typed f.2)); [|done|done]. eapply Forall_impl; [exact Hfs|]. intros f Hf d x. apply Hf.
Qed.

Lemma deserialize_typed t : keeps_type t.
Proof.
  induction t as [| | | | | | | | |name s w|n t IH|t IH|t IH|a b IHa IHb|ts IH|k v IHk IHv|t IH|name cs IH|name super inner fs IHs _ IH]
    using type_induction; match goal with |- keeps_type ?t => try exact (primitive_typed t) end;
    auto using array_typed, vector_typed, set_typed, pair_typed, tuple_typed, map_typed, optional_typed, variant_typed, struct_typed.
Qed.
End Typed.
