(* ===== verification/JsonText.v ===== *)
(** * Texts and patches

    What is asked of RapidJSON, and that [Serialize] only makes documents which it
    writes in a way that it parses; what a patch leaves as it is; the JSON of index
    lines and time stamps, as a codec of logs. *)

From Stdlib Require Import ZArith Lia Ascii String.
From stdpp Require Import base list strings.
From S2P Require Import Prelude Persistence PubSub RemoteStream StdMap Reflection Json JsonRoundTrip.
Open Scope Z_scope.

Import RemoteStream Reflection Json.

Lemma c_str_idempotent s : c_str (c_str s) = c_str s.
Proof. induction s as [|x s IH]; [done|]. cbn. destruct (bool_decide (x = nul)) eqn:Hx; [done|]. cbn. by rewrite Hx, IH. Qed.

(** ** Documents that RapidJSON writes and parses *)

Section Writable.
Context {D : Type} (survives : D → Prop).

(** Its integers are those of 64 bits, signed or unsigned. *)
Fixpoint writable (document : json D) : Prop :=
  match document with
  | JNull | JBool _ | JString _ => True
  | JInt z => - 2 ^ 63 ≤ z < 2 ^ 64
  | JDouble d => survives d
  | JArray l => foldr (λ j P, writable j ∧ P) True l
  | JObject ms => foldr (λ m P, writable m.2 ∧ P) True ms
  end.

(** RapidJSON parses what it has written, if the doubles in it are among those that
    survive it: its default parser may be off by a few units in the last place, and
    infinities and NaNs are not written. *)
Class RapidJSONLaws `{!RapidJSON D} : Prop :=
  parse_accept document : writable document → Parse (c_str (Accept document)) = Some document.

Lemma writable_array l : writable (JArray l) ↔ Forall writable l.
Proof. induction l as [|j l IH]; [done|]. rewrite Forall_cons, <- IH. done. Qed.

Lemma writable_object ms : writable (JObject ms) ↔ Forall (λ m, writable m.2) ms.
Proof. induction ms as [|m ms IH]; [done|]. rewrite Forall_cons, <- IH. done. Qed.
End Writable.

Section Serialized.
Context {D : Type} `{!Doubles D, !Objects D} (survives : D → Prop) (J : JSONFormat).
Local Abbreviation value t := (denote D t).
Local Abbreviation has_type := (has_type (D := D) survives False).

Definition makes_writable (t : type) : Prop := ∀ v, has_type t v → ∀ j, Serialize J t v = Some j → writable survives j.

Lemma inner_writable t v : makes_writable t → has_type t v → writable survives (inner (Serialize J t v)).
Proof. intros Ht Hv. destruct (Serialize J t v) eqn:Hs; [by eapply Ht|done]. Qed.

Lemma elements_writable t (v : list (value t)) : makes_writable t → Forall (has_type t) v →
  writable survives (JArray ((λ x, inner (Serialize J t x)) <$> v)).
Proof. intros Ht Hv. apply writable_array, Forall_fmap. eapply Forall_impl; [exact Hv|]. intros x Hx. by apply inner_writable. Qed.

Lemma tuple_writable ts (v : value (TTuple ts)) : Forall makes_writable ts → has_type (TTuple ts) v →
  writable survives (JArray (visit_all (denote D) (λ t x, inner (Serialize J t x)) ts v)).
Proof.
  intros Hts Hv. apply writable_array. cbn in Hv. induction Hts as [|t ts Ht _ IH]; [constructor|]. destruct v as [x v], Hv as [Hx Hv].
  constructor; [by apply inner_writable|by apply IH].
Qed.

Lemma map_writable k v (m : value (TMap k v)) j : makes_writable k → makes_writable v → has_type (TMap k v) m →
  Serialize J (TMap k v) m = Some j → writable survives j.
Proof.
  intros Hk Hv [Hm _]. destruct (is_string k) eqn:Hs.
  - destruct k; try done. intros [= <-]. apply writable_object, Forall_fmap. eapply Forall_impl; [exact Hm|]. intros e [_ He]. by apply inner_writable.
  - assert (Serialize J (TMap k v) m = Some (JArray ((λ e, JArray [inner (Serialize J k e.1); inner (Serialize J v e.2)]) <$> m))) as -> by by destruct k.
    intros [= <-]. apply writable_array, Forall_fmap. eapply Forall_impl; [exact Hm|]. intros e [H1 H2]. apply writable_array.
    repeat constructor; by apply inner_writable.
Qed.

Lemma case_writable c object : writable survives object → writable survives (serialize_case J c object).
Proof. intros Ho. unfold serialize_case. destruct J; cbn; try done. case_match; cbn; auto. Qed.

Lemma struct_writable t v : is_struct t = true → type_ok J t → Forall (λ f, ∀ j, f.2 = Some j → writable survives j) (struct_members J t v) →
  ∀ j, Serialize J t v = Some j → writable survives j.
Proof.
  intros Hs Ht Hf j. rewrite serialize_struct by done. intros [= <-]. apply writable_object, Forall_forall. intros [n j] Hin.
  apply list_elem_of_omap in Hin as ([n' o] & Hin & He). destruct o as [j'|]; [|done]. injection He as -> ->.
  rewrite Forall_forall in Hf. by apply (Hf _ Hin).
Qed.

Lemma fields_writable fs (v : hlist (λ f : bytes * type, value f.2) fs) :
  Forall (λ f, makes_writable f.2) fs → hforall (λ f : bytes * type, has_type f.2) fs v →
  Forall (λ f, ∀ j, f.2 = Some j → writable survives j) (visit_all (λ f, value f.2) (λ (f : bytes * type) x, (f.1, Serialize J f.2 x)) fs v).
Proof.
  intros Hfs. induction Hfs as [|f fs Hf _ IH]; [constructor|]. destruct v as [x v]. intros [Hx Hv]. constructor; [by apply Hf|by apply IH].
Qed.

Definition members_writable (t : type) : Prop := is_struct t = true → ∀ v, has_type t v →
  Forall (λ f, ∀ j, f.2 = Some j → writable survives j) (struct_members J t v).

Lemma primitive_writable t : match t with
  | TBool | TUInt _ | TInt _ | TChar | TString | TFloat | TDouble | TMicroseconds | TMilliseconds | TEnum _ _ _ => makes_writable t
  | _ => True end.
Proof.
  destruct t; try done; intros v Hv j; unfold_serialize; intros [= <-]; cbn [JsonRoundTrip.has_type] in Hv; cbn [writable];
    try (pose proof (width_bound w)); try lia; try done; [by destruct Hv|destruct signed; lia].
Qed.

Lemma optional_writable t : makes_writable t → makes_writable (TOptional t).
Proof.
  intros Ht [x|] Hx j; unfold_serialize.
  - pose proof (inner_writable t x Ht Hx) as Hi. pose proof (Ht x Hx) as Hj. destruct J; try apply Hj. intros [= <-]. cbn. auto.
  - destruct J; cbn; congruence || by intros [= <-].
Qed.

Lemma variant_writable name cs : Forall makes_writable cs → makes_writable (TVariant name cs).
Proof.
  intros Hcs [x|] Hx j; [|done]. unfold_serialize. intros [= <-].
  destruct (call_case (T := denote D) (λ c o, serialize_case J c (inner (Serialize J c o))) cs x) as (c & o & Hc & -> & HP).
  apply case_writable. rewrite Forall_forall in Hcs. apply inner_writable; [by apply Hcs|by apply HP].
Qed.

Lemma serialize_writable t : type_ok J t → makes_writable t ∧ members_writable t.
Proof.
  induction t as [| | | | | | | | |name s w|n t IH|t IH|t IH|a b IHa IHb|ts IH|k v IHk IHv|t IH|name cs IH|name super inner fs IHs _ IH]
    using type_induction; intros Hok; match goal with |- makes_writable ?t ∧ _ => try (split; [exact (primitive_writable t)|done]) end.
  - split; [|done]. intros v [_ Hv] j [= <-]. apply elements_writable; [by apply IH|done].
  - split; [|done]. intros v Hv j [= <-]. apply elements_writable; [by apply IH|done].
  - split; [|done]. intros v [Hv _] j [= <-]. apply elements_writable; [by apply IH|done].
  - split; [|done]. destruct Hok as [Ha Hb]. intros [x y] [Hx Hy] j [= <-]. pose proof (inner_writable a x (proj1 (IHa Ha)) Hx).
    pose proof (inner_writable b y (proj1 (IHb Hb)) Hy). destruct J; cbn; auto.
  - split; [|done]. intros v Hv j [= <-]. apply tuple_writable; [|done]. apply (type_ok_all J id) in Hok. rewrite !Forall_forall in *. intros t Ht.
    apply IH; [done|by apply Hok].
  - split; [|done]. destruct Hok as [Hk Hv]. intros m Hm j. apply map_writable; [by apply IHk|by apply IHv|done].
  - split; [|done]. destruct Hok. apply optional_writable. by apply IH.
  - split; [|done]. destruct Hok as (Hok & _). apply variant_writable. apply (type_ok_all J id) in Hok. rewrite !Forall_forall in *. intros t Ht.
    apply IH; [done|by apply Hok].
  - assert (members_writable (TStruct name super inner fs)) as Hm; [|split; [|done]; intros v Hv; by apply struct_writable, Hm].
    destruct Hok as (Hs & Hok & _). intros _ [b v] [Hb Hv]. cbn. apply Forall_app. split.
    + destruct super as [s|]; [|constructor]. destruct Hs as [Hs Hst]. by apply (IHs s).
    + apply fields_writable; [|done]. apply (type_ok_all J snd) in Hok. rewrite !Forall_forall in *. intros f Hf. apply IH; [done|by apply Hok].
Qed.
End Serialized.

(** ** Patches *)

(** Whether the bases of a struct are structs. *)
Fixpoint bases_ok (t : type) : bool :=
  match t with TStruct _ super _ _ => match super with Some s => bases_ok s | None => true end | _ => false end.

Section Patches.
Context {D : Type} `{!Doubles D, !Objects D} (J : JSONFormat).
Local Abbreviation value t := (denote D t).

Fixpoint hforall2 {A} {F : A → Type} (P : ∀ a, F a → F a → Prop) (l : list A) : hlist F l → hlist F l → Prop :=
  match l return hlist F l → hlist F l → Prop with [] => λ _ _, True | a :: l => λ v w, P a v.1 w.1 ∧ hforall2 P l v.2 w.2 end.

(** A relation between the fields of two structs, those of the bases included. *)
Fixpoint fields_related (P : bytes → ∀ t, value t → value t → Prop) (t : type) : value t → value t → Prop :=
  match t return value t → value t → Prop with
  | TStruct _ super _ fs => λ v w,
      match super return match super with Some s => value s | None => () end → match super with Some s => value s | None => () end → Prop with
      | Some s => fields_related P s
      | None => λ _ _, True
      end v.1 w.1 ∧ hforall2 (λ f : bytes * type, P f.1 f.2) fs v.2 w.2
  | _ => λ _ _, True
  end.

(** What a patch without a value for it does to an object: a set becomes empty, for
    a map and for most formats of a variant there is an exception, and other objects
    stay as they are. *)
Definition missing (t : type) : value t → option (value t) :=
  match t return value t → option (value t) with
  | TSet _ => λ _, Some []
  | TMap _ _ => λ _, None
  | TVariant _ _ => λ v, if JSONVariantStyleUseNulls (variant_style_of J) then None else Some v
  | _ => Some
  end.

Lemma patch_missing t path (dest new : value t) : Deserialize (JSONPatcher J) t path None dest = Ok new ↔ missing t dest = Some new.
Proof.
  destruct t; unfold_deserialize; unfold deserialize_number, deserialize_enum, deserialize_double; cbn; try (split; congruence).
  - split; by inversion 1.
  - by destruct (is_string _).
  - destruct J; cbn; split; try done; by intros [= ->].
Qed.

(** What a patch does to a field. *)
Definition patched path (ms : list (bytes * json D)) (name : bytes) (t : type) (old new : value t) : Prop :=
  match FindMember ms name with
  | Some j => Deserialize (JSONPatcher J) t (at_field path name) (Some j) old = Ok new
  | None => missing t old = Some new
  end.

Lemma patched_field path ms name t (old new : value t) :
  Deserialize (JSONPatcher J) t (at_field path name) (FindMember ms name) old = Ok new ↔ patched path ms name t old new.
Proof. unfold patched. destruct (FindMember ms name); [done|]. apply patch_missing. Qed.

(** A step of a computation and the rest of it. *)
Lemma bind_ok {A B} (r : outcome (json_exception D) A) (s : outcome (json_exception D) B) x y :
  (a ← r; b ← s; Ok (a, b)) = Ok (x, y) ↔ r = Ok x ∧ s = Ok y.
Proof.
  destruct r as [a|e]; cbn [mbind outcome_bind]; [|by split; [|intros [? _]]].
  destruct s as [b|e]; cbn [mbind outcome_bind]; split; try done; [by intros [= -> ->]|by intros [[= ->] [= ->]]|by intros [_ ?]].
Qed.

Lemma patch_own_fields path ms fs old new :
  load_fields (λ f : bytes * type, value f.2) (λ f d, Deserialize (JSONPatcher J) f.2 (at_field path f.1) (FindMember ms f.1) d) fs old = Ok new ↔
  hforall2 (λ f : bytes * type, patched path ms f.1 f.2) fs old new.
Proof.
  induction fs as [|f fs IH]; [by destruct new|]. destruct old as [x old], new as [y new]. cbn [load_fields hforall2 fst snd].
  etrans; [apply bind_ok|]. by rewrite IH, patched_field.
Qed.

Lemma patch_fields t path ms (old new : value t) : bases_ok t = true →
  Deserialize (JSONPatcher J) t path (Some (JObject ms)) old = Ok new ↔ fields_related (patched path ms) t old new.
Proof.
  induction t as [| | | | | | | | | | | | | | | | | |name super inner fs IHs _ _] using type_induction; try done.
  destruct old as [ob old], new as [nb new]. cbn [bases_ok]. intros Hb. unfold_deserialize. cbn [fields_related fst snd].
  etrans; [apply bind_ok|]. rewrite patch_own_fields. destruct super as [s|]; [by rewrite (IHs s)|destruct ob, nb; by split; intros [_ ?]].
Qed.
End Patches.

(** ** JSON in logs: blocks/ss/idx_ts.h

    The lines of logs and the messages of streams are the JSON of these structs and of
    entries.  [LogCodec] and [TsCodec], what persisters and streams ask of JSON, are
    implemented with it.  JsonProperties.v shows their laws, for numbers that fit the
    fields they are kept in. *)

Definition IndexAndTimestamp : type := TStruct (str "IndexAndTimestamp") None None [(str "index", TUInt W64); (str "us", TMicroseconds)].
Definition TimestampAndOptionalIndex : type :=
  TStruct (str "TimestampAndOptionalIndex") None None [(str "us", TMicroseconds); (str "index", TOptional (TUInt W64))].
Definition TimestampUsOnly : type := TStruct (str "TimestampUsOnly") None None [(str "us", TMicroseconds)].

Section Codec.
Context {D : Type} `{!Doubles D, !Objects D, !RapidJSON D}.
Local Abbreviation value t := (denote D t).

(** A parser gets the document that was written. *)
Lemma parse_written (survives : D → Prop) `{!RapidJSONLaws survives} J t (v : value t) : type_ok J t → has_type survives False t v →
  ∀ F t' dest, ParseJSONViaRapidJSON F t' (c_str (JSON J t v)) dest = Deserialize F t' [] (Some (inner (Serialize J t v))) dest.
Proof.
  intros Ht Hv F t' dest. unfold ParseJSONViaRapidJSON, JSON, ResultingJSON. rewrite c_str_idempotent, (parse_accept survives); [done|].
  apply inner_writable; [by apply serialize_writable|done].
Qed.

Definition idxts_value (i : idxts_t) : value IndexAndTimestamp := (tt, (Z.of_N (index i), (us i, tt))).
Definition ts_value (t : Z) : value TimestampUsOnly := (tt, (t, tt)).

(** The default format is [Current]. *)
#[global] Instance json_log_codec (t : type) : LogCodec (value t) := {
  json_idxts i := JSON Current IndexAndTimestamp (idxts_value i);
  parse_idxts s := (λ v : value IndexAndTimestamp, mkIdxTs (Z.to_N v.2.1) v.2.2.1) <$> TryParseJSON Current IndexAndTimestamp s;
  json_entry e := JSON Current t e;
  parse_entry s := TryParseJSON Current t s;
}.

#[global] Instance json_ts_codec : TsCodec := {
  json_ts_only t := JSON Current TimestampUsOnly (ts_value t);
  parse_ts_only s := (λ v : value TimestampUsOnly, v.2.1) <$> TryParseJSON Current TimestampUsOnly s;
  parse_ts_optidx s := (λ v : value TimestampAndOptionalIndex, (v.2.1, Z.to_N <$> v.2.2.1)) <$> TryParseJSON Current TimestampAndOptionalIndex s;
}.

Definition idxts_fits (i : idxts_t) : Prop := (index i < 2 ^ 64)%N ∧ - 2 ^ 63 ≤ us i < 2 ^ 63.

(** RapidJSON writes one line without control characters, and does not parse what
    does not start as a value. *)
Class RapidJSONLines (survives : D → Prop) : Prop := {
  accept_line document : writable survives document → Accept document ≠ [] ∧ Forall (λ c, (32 ≤ N_of_ascii c)%N) (Accept document);
  parse_hash s : Parse ("#"%char :: s) = None;
}.

Context (survives : D → Prop) `{!RapidJSONLaws survives, !RapidJSONLines survives}.

Lemma c_str_printable s : Forall (λ c, (32 ≤ N_of_ascii c)%N) s → c_str s = s.
Proof using Type. intros Hs. apply c_str_id. intros Hin. eapply Forall_forall in Hin; [|exact Hs]. by vm_compute in Hin. Qed.

Lemma json_line t (v : value t) : type_ok Current t → has_type survives False t v →
  JSON Current t v ≠ [] ∧ Forall (λ c, (32 ≤ N_of_ascii c)%N) (JSON Current t v).
Proof using RapidJSONLines0.
  intros Ht Hv. unfold JSON, ResultingJSON. destruct (accept_line (inner (Serialize Current t v))) as [Hn Hl];
    [apply inner_writable; [by apply serialize_writable|done]|]. by rewrite c_str_printable.
Qed.

Lemma line_on_one_line s : s ≠ [] ∧ Forall (λ c, (32 ≤ N_of_ascii c)%N) s → on_one_line s.
Proof using Type. intros [Hn Hs]. split; [done|]. eapply Forall_impl; [exact Hs|]. intros c Hc. split_and!; intros ->; by vm_compute in Hc. Qed.

Lemma one_line_not_in s c : on_one_line s → c = newline ∨ c = tab → c ∉ s.
Proof using Type. intros [_ Hs] Hc Hin. eapply Forall_forall in Hin; [|exact Hs]. cbn in Hin. naive_solver. Qed.

Lemma idxts_ok : type_ok Current IndexAndTimestamp ∧ type_ok Current TimestampUsOnly.
Proof using Type. split; cbn; split_and!; try done; apply (bool_decide_unpack _); vm_compute; exact I. Qed.

Lemma idxts_typed i : idxts_fits i → has_type survives False IndexAndTimestamp (idxts_value i).
Proof using Type. intros [Hi Hu]. cbn. lia. Qed.

Lemma ts_typed t : - 2 ^ 63 ≤ t < 2 ^ 63 → has_type survives False TimestampUsOnly (ts_value t).
Proof using Type. intros Ht. cbn. lia. Qed.

Lemma try_parse_written t' t (v : value t) : type_ok Current t → has_type survives False t v → TryParseJSON Current t' (JSON Current t v) =
  match Deserialize (Format Current) t' [] (Some (inner (Serialize Current t v))) (construct t') with Ok r => Some r | Throw _ => None end.
Proof using RapidJSONLaws0.
  intros Ht Hv. unfold TryParseJSON, ParseJSON_char_into. by rewrite (parse_written survives).
Qed.

Lemma try_parse_json t (v : value t) : type_ok Current t → has_type survives False t v → TryParseJSON Current t (JSON Current t v) = Some v.
Proof using RapidJSONLaws0.
  intros Ht Hv. rewrite try_parse_written by done. by rewrite (proj2 (proj1 (deserialize_serialize (Format Current) Current eq_refl survives t Ht) v [] _ Hv)).
Qed.

(** A struct with the members of another one. *)
Lemma try_parse_members t' (v' : value t') t (v : value t) :
  is_struct t = true → is_struct t' = true → type_ok Current t → type_ok Current t' → has_type survives False t v → has_type survives False t' v' →
  (∀ name o, (name, o) ∈ struct_members Current t' v' → FindMember (present (struct_members Current t v)) name = o) →
  TryParseJSON Current t' (JSON Current t v) = Some v'.
Proof using RapidJSONLaws0.
  intros Hs Hs' Ht Ht' Hv Hv' Hm. rewrite try_parse_written by done. rewrite serialize_struct by done. cbn [inner default from_option id].
  by rewrite (proj2 (deserialize_serialize (Format Current) Current eq_refl survives t' Ht') Hs' v' [] _ _ Hv').
Qed.
Lemma optidx_ok : type_ok Current TimestampAndOptionalIndex.
Proof using Type. cbn; split_and!; try done; auto. apply (bool_decide_unpack _); vm_compute; exact I. Qed.

(** [index] is optional where it is read. *)
Lemma try_parse_optidx i : idxts_fits i →
  TryParseJSON Current TimestampAndOptionalIndex (JSON Current IndexAndTimestamp (idxts_value i)) = Some (tt, (us i, (Some (Z.of_N (index i)), tt))).
Proof using RapidJSONLaws0.
  intros Hi. apply try_parse_members; try done; [apply idxts_ok|apply optidx_ok|by apply idxts_typed|destruct Hi; cbn; lia|].
  intros name o. cbn [struct_members TimestampAndOptionalIndex visit_all app fst snd Serialize].
  intros [[= -> ->]|[[= -> ->]|[]%not_elem_of_nil]%elem_of_cons]%elem_of_cons; cbn [present omap list_omap struct_members IndexAndTimestamp visit_all app fst snd Serialize fmap option_fmap option_map FindMember]; by find_member.
Qed.

Lemma try_parse_optidx_ts t : - 2 ^ 63 ≤ t < 2 ^ 63 →
  TryParseJSON Current TimestampAndOptionalIndex (JSON Current TimestampUsOnly (ts_value t)) = Some (tt, (t, (None, tt))).
Proof using RapidJSONLaws0.
  intros Ht. rewrite try_parse_written; [|apply idxts_ok|by apply ts_typed].
  assert (inner (Serialize Current TimestampUsOnly (ts_value t)) = JObject [(str "us", JInt t)]) as -> by done.
  unfold TimestampAndOptionalIndex. unfold_deserialize. cbn [load_fields fst snd FindMember mbind outcome_bind]. find_member. unfold_deserialize.
  rewrite (number_reads (Format Current) IsInt64 id); [|by apply IsInt64_ok|done].
  cbn [mbind outcome_bind is_fsharp JSONPatchMode]. by destruct (construct _) as [[] ?].
Qed.
End Codec.
