(* ===== verification/StorageProperties.v ===== *)
(** * What the storage containers and transactions guarantee

    The theorems about storage/container/*.h, storage/transaction_policy.h and
    storage/persister/stream.h, each with a concrete instance.  They are
    corollaries of the lemmas of the component files. *)

From Stdlib Require Import ZArith NArith Lia Sorted.
From stdpp Require Import base gmap list strings.
From S2P Require Import Prelude Time Journal OwnedMap Index Matrix Dictionary OneToOne OneToMany ManyToMany.
From S2P Require Import Persistence MemoryPersister Transaction.
Open Scope Z_scope.

(** ** Concrete entries and clocks, for the witnesses *)

Module Example.

(** A dictionary entry: key and payload; a patch adds to the payload. *)
Abbreviation counter := (nat * nat)%type.
#[global] Instance counter_entry : DictEntry counter nat nat := {
  GetKey := fst;
  PatchWith p o := (o.1, (o.2 + p)%nat);
}.
#[global] Instance counter_entry_sound : DictEntrySound counter nat nat.
Proof. by split. Qed.

(** A matrix entry: row, column, payload. *)
Abbreviation cell := (nat * nat * nat)%type.
#[global] Instance cell_entry : MatrixEntry cell nat nat := {
  GetRow x := x.1.1;
  GetCol x := x.1.2;
}.

Abbreviation clock := EpochClock.EpochClockGuaranteeingMonotonicity.
Definition at_time (t : Z) : clock := EpochClock.mkEpochClock (λ _, 0) 0 t.

Definition dict := GenericDictionary nat counter.
Definition no_dict : dict := mkDictionary ∅ ∅.
Definition journal {E RB} : MutationJournal E RB := mkJournal TransactionMeta_init [] [].

Lemma no_dict_wf : dict_wf no_dict.
Proof. split; simpl; [intros k o|intros k [? Hk]; revert Hk]; by rewrite lookup_empty. Qed.

(** Two diagonal cells of a one-to-one container. *)
Definition two_cells : GenericOneToOne nat nat cell :=
  OneToOne.DoUpdateWithLastModified 2 (2, 2)%nat (2, 2, 20)%nat
    (OneToOne.DoUpdateWithLastModified 1 (1, 1)%nat (1, 1, 10)%nat oto_init).

Lemma elements_oto_init : elements_of (OneToOne.map_ (oto_init (R:=nat) (C:=nat) (T:=cell))) = ∅.
Proof. by vm_compute. Qed.
End Example.

(** ** Containers *)

Section Containers.
Context {CK : Type} `{!Clock CK}.

Section Dictionary.
Context `{Countable K} {T P : Type} `{!DictEntry T K P, !DictEntrySound T K P}.
Local Abbreviation journal := (MutationJournal (dict_event K T P) (dict_closure K T)).

(** The three mutating calls of a dictionary, from any well-formed state:
    they complete (no assertion fails), leave a well-formed dictionary with
    the object added, erased or patched and every other entry unchanged, and
    append to the journal events that redo exactly this change on any replica
    and closures that undo it. *)
Theorem dictionary_calls_correct (m : dict_call K T P) (ck : CK) (d : GenericDictionary K T) (j : journal) :
  dict_wf d →
  ∃ ck' d' evs rbs,
    dict_exec id id m ck d j = Ok (ck', d', log_all evs rbs j) ∧ dict_wf d' ∧
    Dictionary.map_ d' =
      match m with
      | Dictionary.CallAdd object => <[GetKey object := object]> (Dictionary.map_ d)
      | Dictionary.CallErase key => delete key (Dictionary.map_ d)
      | Dictionary.CallPatch key p => alter (PatchWith p) key (Dictionary.map_ d)
      end ∧
    faithful_log d d' evs rbs.
Proof.
  intros Hw. destruct m as [object|key|key p].
  - exact (call_ok_explicit _ _ _ _ _ (Dictionary.Add_ok id id object ck d j Hw)).
  - exact (call_ok_explicit _ _ _ _ _ (Dictionary.Erase_ok id id key ck d j Hw)).
  - exact (call_ok_explicit _ _ _ _ _ (Patch_ok id id key p ck d j Hw)).
Qed.
End Dictionary.

Section Matrices.
Context `{Countable R, Countable C} {T : Type} `{!MatrixEntry T R C}.
Local Abbreviation journal := (MutationJournal (matrix_event R C T) (matrix_closure R C T)).

(** C26 One-to-one [Add]: it completes and leaves exactly the new object plus
    the old entries that are in another row and in another column, as its
    comment promises; all pointers of both indexes stay valid; the deletions
    of the (up to two) conflicting entries and the update are journaled so
    that they can be replayed and undone. *)
Theorem one_to_one_add_correct (object : T) (ck : CK) (s : GenericOneToOne R C T) (j : journal) :
  oto_wf s →
  ∃ ck' s' evs rbs,
    OneToOne.Add id id object ck s j = Ok (ck', s', log_all evs rbs j) ∧ oto_wf s' ∧
    elements_of (OneToOne.map_ s') =
      <[key_of object := object]>
        (filter (outside (GetRow object) (GetCol object)) (elements_of (OneToOne.map_ s))) ∧
    faithful_log s s' evs rbs.
Proof. intros Hw. exact (call_ok_explicit _ _ _ _ _ (oto_Add_ok id id object ck s j Hw)). Qed.

(** The three ways to erase from a one-to-one container remove the entry
    with that key, in that row, or in that column, and nothing else, journaled
    faithfully. *)
Theorem one_to_one_erase_correct (m : oto_call R C T) (ck : CK) (s : GenericOneToOne R C T) (j : journal) :
  oto_wf s → (∀ object, m ≠ OneToOne.CallAdd object) →
  ∃ ck' s' evs rbs,
    oto_exec id id m ck s j = Ok (ck', s', log_all evs rbs j) ∧ oto_wf s' ∧
    elements_of (OneToOne.map_ s') =
      match m with
      | OneToOne.CallAdd _ => elements_of (OneToOne.map_ s)
      | OneToOne.CallErase key => delete key (elements_of (OneToOne.map_ s))
      | CallEraseRow row => filter (λ kv, kv.1.1 ≠ row) (elements_of (OneToOne.map_ s))
      | OneToOne.CallEraseCol col => filter (λ kv, kv.1.2 ≠ col) (elements_of (OneToOne.map_ s))
      end ∧
    faithful_log s s' evs rbs.
Proof.
  intros Hw Hm. destruct m as [object|key|row|col]; [by destruct (Hm object)|..].
  - exact (call_ok_explicit _ _ _ _ _ (oto_Erase_ok id id key ck s j Hw)).
  - exact (call_ok_explicit _ _ _ _ _ (oto_EraseRow_ok id id row ck s j Hw)).
  - exact (call_ok_explicit _ _ _ _ _ (oto_EraseCol_ok id id col ck s j Hw)).
Qed.

(** Looking an entry up by row alone never follows a dangling pointer: it
    returns the only entry of the row, or nothing if the row is empty. *)
Theorem one_to_one_row_lookup (row : R) (s : GenericOneToOne R C T) :
  oto_wf s →
  (∃ col x, OneToOne.GetEntryFromRow row s = Ok (Some x) ∧ elements_of (OneToOne.map_ s) !! (row, col) = Some x ∧
            ∀ col', is_Some (elements_of (OneToOne.map_ s) !! (row, col')) → col' = col) ∨
  (OneToOne.GetEntryFromRow row s = Ok None ∧ ∀ col, elements_of (OneToOne.map_ s) !! (row, col) = None).
Proof.
  intros Hw. destruct (index_get_spec fst (OneToOne.forward_ s) (OneToOne.map_ s) row)
    as [([r c] & x & Hr & Hx & Hg)|[Hn Hg]]; [apply Hw..| |].
  - left. simpl in Hr. subst r. exists c, x. split_and!; [done..|]. intros c' Hc'.
    pose proof (oto_only_in_row s (row, c) (row, c') Hw (mk_is_Some _ _ Hx) Hc' eq_refl) as Heq. congruence.
  - right. split; [done|]. intros col. by apply Hn.
Qed.

(** One-to-many [Add]: it completes and leaves the new object plus the old
    entries that are not in its column (the "many" side belongs to one row
    only), journaled faithfully. *)
Theorem one_to_many_add_correct (object : T) (ck : CK) (s : GenericOneToMany R C T) (j : journal) :
  otm_wf s →
  ∃ ck' s' evs rbs,
    OneToMany.Add id id object ck s j = Ok (ck', s', log_all evs rbs j) ∧ otm_wf s' ∧
    elements_of (OneToMany.map_ s') =
      <[key_of object := object]> (filter (λ kv, kv.1.2 ≠ GetCol object) (elements_of (OneToMany.map_ s))) ∧
    faithful_log s s' evs rbs.
Proof. intros Hw. exact (call_ok_explicit _ _ _ _ _ (otm_Add_ok id id object ck s j Hw)). Qed.

(** Many-to-many [Add] and [Erase] change the entry with that key and no
    other, keep both nested indexes exact (with no empty row or column left
    behind), and are journaled faithfully. *)
Theorem many_to_many_calls_correct (m : mtm_call R C T) (ck : CK) (s : GenericManyToMany R C T) (j : journal) :
  mtm_wf s →
  ∃ ck' s' evs rbs,
    mtm_exec id id m ck s j = Ok (ck', s', log_all evs rbs j) ∧ mtm_wf s' ∧
    elements_of (ManyToMany.map_ s') =
      match m with
      | ManyToMany.CallAdd object => <[key_of object := object]> (elements_of (ManyToMany.map_ s))
      | ManyToMany.CallErase key => delete key (elements_of (ManyToMany.map_ s))
      end ∧
    faithful_log s s' evs rbs.
Proof.
  intros Hw. destruct m as [object|key].
  - exact (call_ok_explicit _ _ _ _ _ (mtm_Add_ok id id object ck s j Hw)).
  - exact (call_ok_explicit _ _ _ _ _ (mtm_Erase_ok id id key ck s j Hw)).
Qed.
End Matrices.
End Containers.

(** ** Transactions *)

Section Transactions.
Context {C E RB M : Type} `{JournaledFieldSound C E RB M}.
Context {CK : Type} `{!Clock CK, !StrictClock CK}.
Context {P EN : Type} `{PersisterSound P EN}.
Context (of_transaction : Transaction E → EN) (as_transaction : EN → option (Transaction E)).
Context (as_of : ∀ t, as_transaction (of_transaction t) = Some t).
Context (init : C) (init_wf : fld_wf init).
Local Abbreviation storage := (@Storage C E RB CK P).

(** C1 A read-write transaction is atomic and durable.  Whatever the user's
    function does, the call returns (no assertion fails, the process does not
    exit), and what it tells the caller is how the function ended.  If the function
    returned, the fields are those it left, and what it logged, if anything, is in
    the stream as one more record, with its meta fields and the times of its
    beginning and end; replaying it on the fields as they were gives the fields as
    they are.  If the function threw, the fields are as before, nothing was
    published and the journal is empty again.  During a shutdown the function is
    not run. *)
Theorem read_write_transaction_atomic {R X} (f : body C M R X) (s : storage) (l : log EN) ck0 j0 :
  storage_inv as_transaction init s l → log_fits l → publisher_used_ s = true →
  BeforeTransaction (clock s) (journal_ s) = (ck0, j0) →
  if destructing_ s then ReadWriteTransaction of_transaction f s = Ok (s, StorageInGracefulShutdownException)
  else ∃ res ck c j s', run_body f ck0 (fields_ s) j0 = Ok (res, ck, c, j) ∧
    let rolled_back := fields_ s' ≡ fields_ s ∧ stream_ s' = stream_ s ∧ journal_ s' = empty_journal ∧ storage_inv as_transaction init s' l in
    match res with
    | Returned r =>
        ReadWriteTransaction of_transaction f s = Ok (s', TransactionResult true (Some r)) ∧ fields_ s' = c ∧
        replay (commit_log j) (fields_ s) ≡ c ∧
        ∃ end_ t, storage_inv as_transaction init s'
          (committed_log of_transaction l (mkMeta (begin_us (transaction_meta j)) end_ (meta_fields (transaction_meta j))) (commit_log j) t)
    | ThrewValue r => ReadWriteTransaction of_transaction f s = Ok (s', TransactionResult false (Some r)) ∧ rolled_back
    | ThrewNoValue => ReadWriteTransaction of_transaction f s = Ok (s', TransactionResult false None) ∧ rolled_back
    | Threw x => ReadWriteTransaction of_transaction f s = Ok (s', ExceptionSet x) ∧ rolled_back
    end.
Proof.
  intros Hinv Hfit Hp Hbefore. unfold ReadWriteTransaction. rewrite Hp. simpl. destruct (destructing_ s) eqn:Hd.
  { unfold TransactionFromLockedSection. destruct Hinv as (_ & -> & _). by rewrite Hd. }
  destruct (transaction_exact of_transaction as_transaction as_of init f s l ck0 j0 Hinv Hfit Hp Hd Hbefore)
    as (res & ck & c & j & s' & Hrun & -> & Hres). exists res, ck, c, j, s'. split; [done|].
  destruct res; try (destruct Hres as [(? & _ & ? & ? & _) ?]; by split_and!).
  destruct Hres as (Hc & [Hf _] & t & Hinv'). split_and!; [done..| |].
  - apply Hf; [apply Hinv|done].
  - unfold AfterTransaction in Hinv'. destruct (Now ck) as [end_ ck1]. by exists end_, t.
Qed.

(** The void overload has the same guarantee, and reports a rollback with no
    value as such. *)
Theorem void_transaction_atomic {X} (f : body C M () X) (s : storage) (l : log EN) :
  storage_inv as_transaction init s l → log_fits l → publisher_used_ s = true →
  ∃ s' r, TransactionFromLockedSection_void of_transaction f s = Ok (s', r) ∧
    if WasCommitted r
    then ∃ m evs t, storage_inv as_transaction init s' (committed_log of_transaction l m evs t) ∧
                    replay evs (fields_ s) ≡ fields_ s'
    else fields_ s' ≡ fields_ s ∧ stream_ s' = stream_ s ∧ storage_inv as_transaction init s' l.
Proof.
  intros Hinv Hfit Hp.
  destruct (transaction_void_ok of_transaction as_transaction as_of init f s l Hinv Hfit Hp) as (s' & r & -> & _ & _ & Hr).
  exists s', r. split; [done|]. destruct (WasCommitted r).
  - destruct Hr as (m & evs & rbs & t & [Hf _] & Hinv'). exists m, evs, t. split; [done|].
    apply Hf; [apply Hinv|done].
  - destruct Hr as [(? & _ & _ & ? & _) ?]. by split_and!.
Qed.

(** C27 Recovery: after any sequence of read-write transactions (committed,
    rolled back or failed, in any order), a storage created anew on top of the
    stream replays it without failing and has the same fields as the storage
    that made them. *)
Theorem reopened_storage_has_same_fields {R X} (fs : list (body C M R X)) (s : storage) (l : log EN) (ck : CK) :
  storage_inv as_transaction init s l → (log_size l + N.of_nat (length fs) < no_index)%N → publisher_used_ s = true →
  ∃ s' rs s'', run_transactions of_transaction fs s = Ok (s', rs) ∧
    CreateMasterStorage (RB := RB) as_transaction init ck (stream_ s') = Ok s'' ∧ fields_ s'' ≡ fields_ s'.
Proof.
  intros Hinv Hn Hp.
  destruct (run_transactions_ok of_transaction as_transaction as_of init fs s l Hinv Hn Hp)
    as (s' & rs & l' & Hrun & Hinv' & _ & Hfit & _).
  pose proof Hinv' as (Hrep & _ & _ & _ & Heq & _).
  destruct (create_master_ok as_transaction init ck (stream_ s') l' Hrep Hfit) as (s'' & Hc & Hf & _).
  exists s', rs, s''. split_and!; [done..|]. by rewrite Hf, Heq.
Qed.

(** C34 Failover: a following storage is created on a stream, which grows while the
    subscriber of the storage is called with the transactions of its first [n]
    records.  No assertion fails, and its fields are then those of these records,
    so with all of them they are the master's.  When it becomes the master in place
    of the one that wrote the stream, wherever its subscriber was, it has the
    fields of that master, and goes on as a master. *)
Theorem follower_becomes_master ck (p0 p : P) (n : nat) (master : storage) (l : log EN) :
  represents p l → log_fits l → storage_inv as_transaction init master l → (n ≤ length (log_entries l))%nat →
  ∃ sn, follow_records as_transaction (take n (numbered l)) (CreateFollowingStorage init ck p0) = Ok sn ∧
    fields_ sn.1 = foldl (replay_entry as_transaction) init (take n (log_entries l)) ∧
    (n = length (log_entries l) → fields_ sn.1 ≡ fields_ master) ∧
    ∃ s, BecomeMasterStorage as_transaction (set_stream p sn.1, sn.2) = Ok s ∧ fields_ s ≡ fields_ master ∧
      publisher_used_ s = true ∧ (log_head l < ck_low ck → storage_inv as_transaction init s l).
Proof.
  intros Hrep Hfit (_ & _ & _ & Hwr & Heq & _) Hn. pose proof (represents_wf _ _ Hrep) as Hw.
  destruct (follow_records_ok as_transaction init l (take n (log_entries l)) [] (drop n (log_entries l)) (CreateFollowingStorage init ck p0))
    as ([s0 k] & Hrun & Hf & Hk & Hno & Hst & Hck); [done|by rewrite take_drop|by apply create_follower_ok|done|intros ? ?; simpl; lia|].
  rewrite length_take, Nat.min_l in * by done. simpl in *.
  assert (fields_ s0 = foldl (replay_entry as_transaction) init (take n (log_entries l))) as Hfields.
  { destruct Hf as (_ & _ & _ & Hf & _). cbn [fst snd] in Hf. rewrite Hf. symmetry. by apply skip_no_transactions. }
  exists (s0, k). split; [|split; [done|split]].
  - by rewrite numbered_take.
  - intros ->. simpl. by rewrite Hfields, take_ge, Heq.
  - destruct (become_master_ok as_transaction init s0 k p l Hrep Hf Hfit) as (s & Hb & Hfs & Hp & Hj & Hs & Hc & Hla).
    exists s. split_and!; [done|by rewrite Hfs, Heq|done|]. intros Hlt. unfold storage_inv. rewrite Hs, Hfs, Hc, Hck. simpl. by split_and!.
Qed.

(** Two-step transactions: when [f2] throws a rollback exception after [f1]
    has returned, the caller is told the transaction was rolled back, but it was
    committed: its record is in the stream and the fields keep its changes. *)
Theorem two_step_rollback_after_commit {R X W} (f1 : body C M R X) (f2 : R → W → W * ended R X)
    (s : storage) (l : log EN) (w : W) ck0 j0 r ck c j :
  storage_inv as_transaction init s l → log_fits l → publisher_used_ s = true → destructing_ s = false →
  BeforeTransaction (clock s) (journal_ s) = (ck0, j0) →
  run_body f1 ck0 (fields_ s) j0 = Ok (Returned r, ck, c, j) → commit_log j ≠ [] →
  (f2 r w).2 = ThrewNoValue →
  ∃ s' w' m t, TransactionFromLockedSection_two_step of_transaction f1 f2 s w =
      Ok (s', w', TwoStep (TransactionResult false None)) ∧
    fields_ s' = c ∧
    represents (stream_ s') (mkLog (log_entries l ++ [(t, of_transaction (mkTransaction m (commit_log j)))]) t).
Proof.
  intros Hinv Hfit Hp Hd Hb Hrun Hne Hf2.
  destruct (two_step_returned_ok of_transaction as_transaction as_of init f1 f2 s l w ck0 j0 r ck c j Hinv Hfit Hp Hd Hb Hrun)
    as (s' & w' & res & m & t & Ht & (Hrep & _) & Hc & _ & _ & ->). rewrite Hf2 in Ht.
  exists s', w', m, t. split_and!; [done..|]. unfold committed_log in Hrep. by destruct (commit_log j).
Qed.
End Transactions.

(** ** Witnesses *)

Module StorageWitnesses.
Import Example.

Lemma dictionary_calls_correct_witness : ∃ ck' d' evs rbs,
  dict_exec id id (Dictionary.CallAdd (1, 5)%nat) (at_time 7) no_dict Example.journal = Ok (ck', d', log_all evs rbs Example.journal) ∧
  Dictionary.map_ d' = {[1%nat := (1, 5)%nat]}.
Proof.
  destruct (dictionary_calls_correct (Dictionary.CallAdd (1, 5)%nat) (at_time 7) no_dict Example.journal no_dict_wf)
    as (ck' & d' & evs & rbs & Heq & _ & Hmap & _).
  exists ck', d', evs, rbs. split; [exact Heq|exact Hmap].
Defined.

Lemma two_cells_wf : oto_wf two_cells.
Proof.
  assert (∀ us k (x : cell) s, oto_wf s → key_of x = k → oto_fits (elements_of (OneToOne.map_ s)) k →
    oto_wf (OneToOne.DoUpdateWithLastModified us k x s)) as Hupd by (intros; by apply oto_update_wf).
  apply Hupd; [apply Hupd; [apply oto_init_wf|done|]|done|].
  - intros k'. rewrite elements_oto_init, lookup_empty. by intros [].
  - assert (elements_of (OneToOne.map_ (OneToOne.DoUpdateWithLastModified 1 (1, 1)%nat (1, 1, 10)%nat oto_init))
      = {[(1, 1)%nat := (1, 1, 10)%nat : cell]}) as -> by by vm_compute.
    intros k' Hk'. apply lookup_singleton_is_Some in Hk' as <-. simpl. intros [?|?]; lia.
Qed.

(** Adding (1, 2) displaces both cells. *)
Lemma one_to_one_add_correct_witness : ∃ ck' s' evs rbs,
  OneToOne.Add id id ((1, 2, 30)%nat : cell) (at_time 7) two_cells Example.journal = Ok (ck', s', log_all evs rbs Example.journal) ∧
  elements_of (OneToOne.map_ s') = {[(1, 2)%nat := (1, 2, 30)%nat]}.
Proof.
  destruct (one_to_one_add_correct ((1, 2, 30)%nat : cell) (at_time 7) two_cells Example.journal two_cells_wf)
    as (ck' & s' & evs & rbs & Heq & _ & Hel & _).
  exists ck', s', evs, rbs. split; [exact Heq|]. rewrite Hel. by vm_compute.
Defined.

Lemma one_to_one_erase_correct_witness : ∃ ck' s' evs rbs,
  oto_exec id id (CallEraseRow 1%nat) (at_time 7) two_cells Example.journal = Ok (ck', s', log_all evs rbs Example.journal) ∧
  elements_of (OneToOne.map_ s') = {[(2, 2)%nat := (2, 2, 20)%nat]}.
Proof.
  destruct (one_to_one_erase_correct (CallEraseRow 1%nat) (at_time 7) two_cells Example.journal two_cells_wf)
    as (ck' & s' & evs & rbs & Heq & _ & Hel & _); [discriminate|].
  exists ck', s', evs, rbs. split; [exact Heq|]. rewrite Hel. by vm_compute.
Defined.

Lemma one_to_one_row_lookup_witness : OneToOne.GetEntryFromRow 2%nat two_cells = Ok (Some (2, 2, 20)%nat).
Proof.
  destruct (one_to_one_row_lookup 2%nat two_cells two_cells_wf) as [(col & x & Hg & Hx & _)|[Hn _]].
  - rewrite Hg. by vm_compute in Hg.
  - by vm_compute in Hn.
Defined.

Lemma one_to_many_add_correct_witness : ∃ ck' s' evs rbs,
  OneToMany.Add id id ((1, 2, 30)%nat : cell) (at_time 7) otm_init Example.journal = Ok (ck', s', log_all evs rbs Example.journal) ∧
  elements_of (OneToMany.map_ s') = {[(1, 2)%nat := (1, 2, 30)%nat]}.
Proof.
  destruct (one_to_many_add_correct ((1, 2, 30)%nat : cell) (at_time 7) otm_init Example.journal otm_init_wf)
    as (ck' & s' & evs & rbs & Heq & _ & Hel & _).
  exists ck', s', evs, rbs. split; [exact Heq|]. rewrite Hel. by vm_compute.
Defined.

Lemma many_to_many_calls_correct_witness : ∃ ck' s' evs rbs,
  mtm_exec id id (ManyToMany.CallAdd ((1, 2, 30)%nat : cell)) (at_time 7) mtm_init Example.journal = Ok (ck', s', log_all evs rbs Example.journal) ∧
  elements_of (ManyToMany.map_ s') = {[(1, 2)%nat := (1, 2, 30)%nat]}.
Proof.
  destruct (many_to_many_calls_correct (ManyToMany.CallAdd ((1, 2, 30)%nat : cell)) (at_time 7) mtm_init Example.journal mtm_init_wf)
    as (ck' & s' & evs & rbs & Heq & _ & Hel & _).
  exists ck', s', evs, rbs. split; [exact Heq|]. rewrite Hel. by vm_compute.
Defined.

(** A storage with two fields, a dictionary and a one-to-one matrix, persisted
    in memory. *)
Abbreviation field_state := (GenericDictionary nat counter * GenericOneToOne nat nat cell)%type.
Abbreviation field_event := (dict_event nat counter nat + matrix_event nat nat cell)%type.
Abbreviation field_closure := (dict_closure nat counter + matrix_closure nat nat cell)%type.
Abbreviation field_call := (dict_call nat counter nat + oto_call nat nat cell)%type.
Abbreviation stream := (Memory.Container (Transaction field_event)).
Abbreviation storage := (@Storage field_state field_event field_closure clock stream).

Definition no_fields : field_state := (no_dict, oto_init).
Definition new_storage : storage :=
  mkStorage no_fields empty_journal (at_time 0) Memory.init true (-1) false.

Lemma no_fields_wf : fld_wf no_fields.
Proof. split; [apply no_dict_wf|apply oto_init_wf]. Qed.

Lemma new_storage_inv : storage_inv Some no_fields new_storage log_init.
Proof.
  unfold storage_inv. split_and!; try done; [apply Memory.repr_init|apply no_fields_wf|apply no_fields_wf].
Qed.

(** A transaction that changes both fields, one that does so and gives up, and
    one that fails. *)
Definition good : body field_state field_call nat () :=
  Mutate (inl (Dictionary.CallAdd (1, 5)%nat))
    (Mutate (inr (OneToOne.CallAdd (1, 2, 30)%nat)) (SetMeta "who" "me" (Return 9%nat))).
Definition regretted : body field_state field_call nat () :=
  Mutate (inl (Dictionary.CallErase 1%nat))
    (Look (λ c, if Dictionary.Has 1%nat c.1 then Return 0%nat else RollbackWithValue 1%nat)).
Definition changing : body field_state field_call nat () := Mutate (inl (Dictionary.CallAdd (2, 7)%nat)) (Return 0%nat).
Definition failing : body field_state field_call nat () :=
  Mutate (inl (Dictionary.CallPatch 1%nat 3%nat)) (Raise ()).

Lemma log_init_fits : log_fits (E := Transaction field_event) log_init.
Proof. by vm_compute. Qed.

Lemma read_write_transaction_atomic_witness :
  ∃ s', ReadWriteTransaction id good new_storage = Ok (s', TransactionResult true (Some 9%nat)) ∧
    Dictionary.map_ (fields_ s').1 = {[1%nat := (1, 5)%nat]} ∧ length (Memory.entries_ (stream_ s')) = 1%nat.
Proof.
  destruct (read_write_transaction_atomic id Some (λ _, eq_refl) no_fields good new_storage log_init _ _
    new_storage_inv log_init_fits eq_refl eq_refl) as (res & ck & c & j & s' & Hrun & Heq).
  vm_compute in Hrun. injection Hrun as <- _ _ _. destruct Heq as [Heq _]. exists s'. split; [exact Heq|].
  vm_compute in Heq. by injection Heq as <-.
Defined.

Definition void_body : body field_state field_call () () :=
  Mutate (inl (Dictionary.CallAdd (1, 5)%nat)) RollbackWithNoValue.

Lemma void_transaction_atomic_witness :
  ∃ s' r, TransactionFromLockedSection_void id void_body new_storage = Ok (s', r) ∧
          r = TransactionResult false (Some ()) ∧ Dictionary.map_ (fields_ s').1 = ∅.
Proof.
  destruct (void_transaction_atomic id Some (λ _, eq_refl) no_fields void_body new_storage log_init
    new_storage_inv log_init_fits eq_refl) as (s' & r & Heq & _).
  exists s', r. split; [exact Heq|]. vm_compute in Heq. by injection Heq as <- <-.
Defined.

Lemma reopened_storage_has_same_fields_witness :
  ∃ s' rs s'', run_transactions id [good; regretted; failing; good] new_storage = Ok (s', rs) ∧
    CreateMasterStorage (RB := field_closure) Some no_fields (at_time 100) (stream_ s') = Ok s'' ∧
    fields_ s'' ≡ fields_ s' ∧
    rs = [TransactionResult true (Some 9%nat); TransactionResult false (Some 1%nat); ExceptionSet ();
          TransactionResult true (Some 9%nat)].
Proof.
  destruct (reopened_storage_has_same_fields id Some (λ _, eq_refl) no_fields [good; regretted; failing; good]
    new_storage log_init (at_time 100) new_storage_inv) as (s' & rs & s'' & Hrun & Hc & Heq);
    [by vm_compute|reflexivity|].
  exists s', rs, s''. split; [exact Hrun|]. split; [exact Hc|]. split; [exact Heq|].
  vm_compute in Hrun. by injection Hrun as _ <-.
Defined.

(** A master that has written three records; the follower has applied two. *)
Definition written : storage :=
  match run_transactions id [good; regretted; good; changing] new_storage with Ok (s, _) => s | Throw _ => new_storage end.

Lemma written_inv : storage_inv Some no_fields written (Memory.as_log (stream_ written)).
Proof.
  destruct (run_transactions_ok id Some (λ _, eq_refl) no_fields [good; regretted; good; changing] new_storage log_init new_storage_inv)
    as (s & rs & l & Hrun & Hinv & _); [by vm_compute|done|].
  unfold written. rewrite Hrun. pose proof Hinv as [[Hl _] _]. rewrite Hl in Hinv. exact Hinv.
Qed.

Lemma follower_becomes_master_witness :
  ∃ sn s, follow_records (RB := field_closure) Some (take 2 (numbered (Memory.as_log (stream_ written))))
    (CreateFollowingStorage (RB := field_closure) no_fields (at_time 500) (Memory.init : stream)) = Ok sn ∧
    Dictionary.map_ (fields_ sn.1).1 = {[1%nat := (1, 5)%nat]} ∧
    BecomeMasterStorage Some (set_stream (stream_ written) sn.1, sn.2) = Ok s ∧ fields_ s ≡ fields_ written ∧
    Dictionary.map_ (fields_ s).1 = {[1%nat := (1, 5)%nat; 2%nat := (2, 7)%nat]}.
Proof.
  destruct (follower_becomes_master Some no_fields (at_time 500) Memory.init (stream_ written) 2 written (Memory.as_log (stream_ written)))
    as (sn & Hf & _ & _ & s & Hb & Heq & _).
  - apply written_inv.
  - by vm_compute.
  - apply written_inv.
  - vm_compute. lia.
  - exists sn, s. split; [exact Hf|]. vm_compute in Hf. injection Hf as <-. split; [by vm_compute|]. split; [exact Hb|]. split; [exact Heq|].
    vm_compute in Hb. by injection Hb as <-.
Defined.

(** [f2] changes its mind: the caller is told of a rollback, the stream has the
    transaction. *)
Lemma two_step_rollback_after_commit_witness :
  ∃ s' w', TransactionFromLockedSection_two_step id good (λ r (w : list nat), (r :: w, ThrewNoValue)) new_storage [] =
             Ok (s', w', TwoStep (TransactionResult false None)) ∧
    length (Memory.entries_ (stream_ s')) = 1%nat.
Proof.
  edestruct (two_step_rollback_after_commit id Some (λ _, eq_refl) no_fields good
    (λ r (w : list nat), (r :: w, ThrewNoValue)) new_storage log_init []) as (s' & w' & m & t & Heq & _).
  - apply new_storage_inv.
  - apply log_init_fits.
  - reflexivity.
  - reflexivity.
  - vm_compute. reflexivity.
  - vm_compute. reflexivity.
  - discriminate.
  - reflexivity.
  - exists s', w'. split; [exact Heq|]. vm_compute in Heq. by injection Heq as <- _.
Defined.
End StorageWitnesses.
