(* ===== verification/StreamProperties.v ===== *)
(** * What the persisters and the streams guarantee

    The theorems about blocks/persistence/memory.h, blocks/persistence/file.h,
    stream/stream.h and bricks/time/chrono.h, each with a concrete instance.
    They are corollaries of the lemmas of the component files. *)

From Stdlib Require Import ZArith NArith Lia Ascii String Sorted.
From stdpp Require Import base gmap list strings relations.
From S2P Require Import Prelude Time Persistence Decimal Codec MemoryPersister FilePersister Stream.
Open Scope Z_scope.

(** ** The clock *)

(** C30 The production clock under concurrency: whatever the system clock reads
    and however the threads that call [Now] are interleaved, the values returned
    strictly increase in the order of the successful compare-and-swaps; no value
    is returned twice. *)
Theorem concurrent_now_strictly_increasing n0 s :
  rtc EpochClock.now_step (EpochClock.cinit n0) s →
  StronglySorted (λ x y, y < x) (EpochClock.cs_returned s) ∧ Forall (λ x, n0 < x) (EpochClock.cs_returned s).
Proof.
  intros [_ Hs _]%EpochClock.cinv_reachable. induction (EpochClock.cs_returned s) as [|x l IH]; simpl in *.
  - split; constructor.
  - apply StronglySorted_inv in Hs as [Hs Hall]. destruct (IH Hs).
    apply Forall_app in Hall as [Hl Hn]. apply Forall_cons in Hn as [Hn _].
    split; constructor; auto.
Qed.

(** ** Persisters *)

Section Memory.
Context {E : Type}.

(** The in-memory persister is the abstract log: publishing appends exactly
    one entry with the next index and moves the head, or fails with the same
    error and changes nothing; the internal assertion never fails. *)
Theorem memory_publish_refines_log {CK} `{!Clock CK} a e (ck : CK) (c : Memory.Container E) l :
  Memory.repr c l →
  (Memory.PersisterPublishImpl a e ck c).1 = (TimestampAsMicroseconds a ck).2 ∧
  outcome_rel (λ r r', r.1 = r'.1 ∧ Memory.repr r.2 r'.2)
    (Memory.PersisterPublishImpl a e ck c).2 (log_publish (TimestampAsMicroseconds a ck).1 e l).
Proof. apply Memory.memory_publish_refines. Qed.

(** Iterating over a time range visits exactly the entries whose time stamp
    is in it, in order, with their indexes, whatever the two bounds are
    (inverted bounds are an error); no access is out of range. *)
Theorem memory_iterate_time_correct from till (c : Memory.Container E) l :
  Memory.repr c l → log_fits l →
  Memory.iterate_time from till c =
    if (0 <? till) && (till <? from) then Throw InvalidIterableRangeException
    else Ok (List.filter (λ e, in_range from till (us e.1, e.2)) (numbered l)).
Proof. apply Memory.memory_iterate_time_refines. Qed.
End Memory.

Section File.
Context {E : Type} `{LogCodecSound E} (signature : bytes).
Local Abbreviation built := (File.built signature).

(** C9 Restarting: opening the file a persister has written gives back exactly
    the in-memory state the persister had (offsets, time stamps, head and the
    offset of its directive), and leaves the file as it is. *)
Theorem file_reopen_restores_state (p : File.FilePersisterImpl) (l : log E) :
  File.signature_ok signature → built p l →
  File.ValidateFileAndInitializeHead signature (File.file p) = Ok p.
Proof. apply File.reopen. Qed.

(** C28 The file persister is the abstract log: [Publish] appends one entry or
    fails with the same error, and the file stays one that restarts. *)
Theorem file_publish_refines_log {CK} `{!Clock CK} a e (ck : CK) (p : File.FilePersisterImpl) (l : log E) :
  built p l → log_fits l →
  outcome_rel (λ r r', r.1 = r'.1 ∧ built r.2 r'.2)
    (File.PersisterPublishImpl a e ck p).2 (log_publish (TimestampAsMicroseconds a ck).1 e l).
Proof. intros Hb Hfit. by apply File.publish_refines. Qed.

(** C29 [UpdateHead] on a file, whether it appends a new head directive or
    overwrites the time stamp of the last one in place, moves the head of the
    log and nothing else, and the file stays one that restarts. *)
Theorem file_update_head_refines_log {CK} `{!Clock CK} a (ck : CK) (p : File.FilePersisterImpl) (l : log E) :
  built p l → (TimestampAsMicroseconds a ck).1 < int64_max →
  outcome_rel built (File.PersisterUpdateHeadImpl a ck p).2 (log_update_head (TimestampAsMicroseconds a ck).1 l).
Proof. intros Hb Ht. by apply File.update_head_refines. Qed.

(** Iterating over the file by index reads back exactly the entries that were
    published, parsed from the lines at the recorded offsets and skipping head
    directives in between; a range that is not one of the log is the error the
    interface promises, and the file is never read past its end. *)
Theorem file_iterate_correct b e (p : File.FilePersisterImpl) (l : log E) :
  built p l → log_fits l → File.iterate b e p = log_iterate b e l.
Proof. apply File.iterate_refines. Qed.

(** The same by time range. *)
Theorem file_iterate_time_correct from till (p : File.FilePersisterImpl) (l : log E) :
  built p l → log_fits l → File.iterate_time from till p = log_iterate_time from till l.
Proof. apply File.iterate_time_refines. Qed.

(** Replication of raw log lines: every line [IterateUnsafe] yields is a log
    line of its entry, and [PublishUnsafe] of such a line into a persister that
    has the entries before it publishes that entry. *)
Theorem file_raw_lines_replicate (p : File.FilePersisterImpl) (l : log E) i t e :
  built p l → log_fits l → log_entries l !! i = Some (t, e) →
  ∃ line, File.iterate_unsafe (N.of_nat i) (N.of_nat i + 1) p = Ok [line] ∧
    ∀ (p' : File.FilePersisterImpl) (l' : log E), built p' l' → log_fits l' → log_size l' = N.of_nat i →
      outcome_rel (λ r r', r.1 = r'.1 ∧ built r.2 r'.2)
        (File.PersisterPublishUnsafeImpl line p') (log_publish t e l').
Proof.
  intros Hb Hfit Hi. destruct (File.iterate_unsafe_lines signature p l Hb) as (raws & Hlen & Hlines & Hit).
  destruct (Hlines i t e Hi) as (line & Hraw & Hvalid). pose proof (lookup_lt_Some _ _ _ Hi) as Hlt.
  unfold log_fits, log_size in Hfit. exists line. split.
  - rewrite Hit. unfold log_size. destruct (N.eqb_spec (N.of_nat i + 1) no_index) as [?|_]; [lia|].
    destruct (N.leb_spec (N.of_nat i) (N.of_nat i + 1)); [|lia].
    destruct (N.leb_spec (N.of_nat i + 1) (N.of_nat (length (log_entries l)))); [|lia]. simpl.
    replace (N.to_nat (N.of_nat i + 1)) with (S i) by lia. rewrite Nat2N.id, (take_S_r _ _ _ Hraw).
    rewrite drop_app_length'; [done|]. rewrite length_take. lia.
  - intros p' l' Hb' Hfit' Hsize. apply File.publish_unsafe_line; [done..|]. by rewrite Hsize.
Qed.

(** Opening any file at all ends: the validation loop does not run forever,
    whatever bytes are in the file. *)
Theorem file_open_terminates (contents : bytes) :
  File.ValidateFileAndInitializeHead (E := E) signature contents ≠ Throw LoopNeverEnds.
Proof. apply File.open_terminates. Qed.

(** A file that is accepted is coherent, whoever wrote it: time stamps are
    not negative, strictly increase and do not exceed the head, there is one
    offset per time stamp, and [end_] agrees with them. *)
Theorem file_open_validates (contents : bytes) (p : File.FilePersisterImpl) :
  (N.of_nat (length contents) < no_index)%N →
  File.ValidateFileAndInitializeHead (E := E) signature contents = Ok p →
  StronglySorted (λ x y, x < y) (File.record_timestamp_ p) ∧
  Forall (λ t, 0 ≤ t ≤ File.head (File.end_ p)) (File.record_timestamp_ p) ∧
  length (File.record_offset_ p) = length (File.record_timestamp_ p) ∧
  File.next_index (File.end_ p) = N.of_nat (length (File.record_timestamp_ p)) ∧
  File.last_entry_us (File.end_ p) = match last (File.record_timestamp_ p) with Some t => t | None => -1 end.
Proof. apply File.open_sound. Qed.
End File.

(** A head time stamp written with "%020lld" is read back as the same number
    and always takes 20 characters, which is what makes overwriting it in place
    safe. *)
Theorem head_directive_roundtrip t :
  0 ≤ t ≤ int64_max → FromString_int64 (Printf_020lld t) = t ∧ length (Printf_020lld t) = 20%nat.
Proof. intros Ht. split; [by apply head_roundtrip|apply length_Printf_020lld]. Qed.

(** ** Subscriptions *)

Section Subscription.
Context {P E T S : Type} `{PersisterSound P E}.
Context (subscriber : Subscriber T S) (filter_type : E → option T).
Local Abbreviation reachable p begin_idx from_us s sys :=
  (rtc (SubscriberThread.system_step subscriber filter_type)
     (SubscriberThread.mkSystem p false (SubscriberThread.start begin_idx from_us s)) sys).

(** C10 A subscriber is called with every entry of its type from the index it asks
    for on, once, in order: at any moment, whatever publishers do concurrently, the
    entries it has been called with are those of its type in a slice of the stream
    that starts at [begin_idx], and goes to the end of the stream when its thread is
    blocked in its wait.  Each call says the index and time of the entry, and an
    index of the last entry that is not before it; the times of the calls, for
    entries and for heads, strictly increase; it is asked to terminate at most
    once. *)
Theorem subscriber_sees_consecutive_entries p l begin_idx from_us s sys :
  represents p l → log_fits l →
  rtc (SubscriberThread.system_step (SubscriberThread.recording subscriber) filter_type)
    (SubscriberThread.mkSystem p false (SubscriberThread.start begin_idx from_us (s, []))) sys →
  let th := SubscriberThread.thr sys in
  let calls := (SubscriberThread.state th).2 in
  ∃ l' k, represents (SubscriberThread.stream sys) l' ∧
    SubscriberThread.entry_calls calls =
      SubscriberThread.of_type filter_type (drop (N.to_nat begin_idx) (take k (numbered l'))) ∧
    (SubscriberThread.at_ th = SubscriberThread.AtWait →
     SubscriberThread.thread_step (SubscriberThread.recording subscriber) filter_type (SubscriberThread.stream sys)
       (SubscriberThread.terminate_signal_ sys) th = Ok th →
     SubscriberThread.entry_calls calls = SubscriberThread.of_type filter_type (drop (N.to_nat begin_idx) (numbered l'))) ∧
    StronglySorted (λ x y, x < y) (SubscriberThread.call_times calls) ∧
    Forall SubscriberThread.last_ok calls ∧ (SubscriberThread.terminations calls ≤ 1)%nat.
Proof.
  intros Hrep Hfit Hr th calls.
  destruct (SubscriberThread.reachable_calls subscriber filter_type p l begin_idx from_us s sys Hrep Hfit Hr)
    as [(l' & Hrep' & Hfit' & Hinv) (Hb & He & Ht & Hn & Hl)]. exists l'. fold th in Hinv, Hb, He, Ht, Hn, Hl. fold calls in He, Ht, Hn, Hl.
  pose proof Hinv as (_ & _ & _ & (k & Hk & _) & Hsorted & _). exists (N.to_nat k). split_and!; [done|by rewrite He, Hk, Hb| | |done|].
  - intros Hat Hstep. rewrite He, <- Hb. f_equal. by eapply SubscriberThread.blocked_position.
  - by eapply SubscriberThread.sublist_sorted.
  - rewrite Hn. destruct (SubscriberThread.terminate_sent_ th); lia.
Qed.

(** What a subscriber is told moves forward in time: the time stamps of the
    entries taken and of the heads passed on, in the order it is told, strictly
    increase. *)
Theorem subscriber_time_increases p l begin_idx from_us s sys :
  represents p l → log_fits l → reachable p begin_idx from_us s sys →
  StronglySorted (λ x y, x < y) (SubscriberThread.notified (SubscriberThread.thr sys)).
Proof.
  intros Hrep Hfit Hr.
  by destruct (SubscriberThread.reachable_inv subscriber filter_type p l begin_idx from_us s sys Hrep Hfit Hr)
    as (l' & _ & _ & (_ & _ & _ & _ & ? & _)).
Qed.

(** The subscriber thread never fails: in every reachable state its next step
    succeeds (the ranges it iterates over exist, no assertion fails). *)
Theorem subscriber_thread_never_fails p l begin_idx from_us s sys :
  represents p l → log_fits l → reachable p begin_idx from_us s sys →
  is_ok (SubscriberThread.thread_step subscriber filter_type (SubscriberThread.stream sys)
           (SubscriberThread.terminate_signal_ sys) (SubscriberThread.thr sys)).
Proof.
  intros Hrep Hfit Hr.
  destruct (SubscriberThread.reachable_inv subscriber filter_type p l begin_idx from_us s sys Hrep Hfit Hr)
    as (l' & Hrep' & Hfit' & Hinv). by eapply SubscriberThread.thread_step_total.
Qed.

(** No entry is left behind: when the thread is blocked in its wait (a step
    leaves it where it is), it has taken every entry of the stream from
    [begin_idx] on. *)
Theorem blocked_subscriber_is_up_to_date p l begin_idx from_us s sys :
  represents p l → log_fits l → reachable p begin_idx from_us s sys →
  let th := SubscriberThread.thr sys in
  SubscriberThread.at_ th = SubscriberThread.AtWait →
  SubscriberThread.thread_step subscriber filter_type (SubscriberThread.stream sys)
    (SubscriberThread.terminate_signal_ sys) th = Ok th →
  ∃ l', represents (SubscriberThread.stream sys) l' ∧
    SubscriberThread.taken th = drop (N.to_nat (SubscriberThread.begin_idx th)) (numbered l').
Proof.
  intros Hrep Hfit Hr th Hat Hstep.
  destruct (SubscriberThread.reachable_inv subscriber filter_type p l begin_idx from_us s sys Hrep Hfit Hr)
    as (l' & Hrep' & Hfit' & Hinv). exists l'. split; [done|]. by eapply SubscriberThread.blocked_position.
Qed.

(** A subscriber that waits for a time the stream has not reached yet does
    not sleep once there is an entry for it: the wait returns at once, the head
    is still too early, and the thread is back where it was; it spins until the
    head of the stream passes [from_us]. *)
Theorem subscriber_spins_until_from_us p l th :
  represents p l → log_fits l →
  SubscriberThread.at_ th = SubscriberThread.AtWait → SubscriberThread.terminate_sent_ th = false →
  (SubscriberThread.index_ th < Size (E := E) p)%N → CurrentHead (E := E) p ≤ SubscriberThread.head th →
  ∃ th1 th2, SubscriberThread.thread_step subscriber filter_type p false th = Ok th1 ∧
    SubscriberThread.thread_step subscriber filter_type p false th1 = Ok th2 ∧
    SubscriberThread.thread_step subscriber filter_type p false th2 = Ok th.
Proof. apply SubscriberThread.wait_without_progress. Qed.
End Subscription.

(** [from_us] does not filter: a subscription from time 1000 on that is
    waiting when an entry with time stamp 500 is published, and then one with
    time stamp 1500, is given the entry with time stamp 500. *)
Theorem future_subscription_takes_older_entry :
  ∃ sys, rtc (SubscriberThread.system_step (P := Memory.Container nat) SubscriberThread.Example.collector Some)
           (SubscriberThread.mkSystem Memory.init false (SubscriberThread.start 0 1000 [])) sys ∧
    SubscriberThread.taken (SubscriberThread.thr sys) !! 0%nat = Some (mkIdxTs 0 500, 42%nat).
Proof. eexists. split; [exact SubscriberThread.Example.reach_future|by vm_compute]. Qed.

(** ** Witnesses *)

Module StreamWitnesses.
Import SubscriberThread SubscriberThread.Example.

(** Two calls; at the second one the system clock has gone back. *)
Lemma concurrent_now_strictly_increasing_witness :
  StronglySorted (λ x y, y < x) [11; 10] ∧ Forall (λ x, 5 < x) [11; 10].
Proof.
  refine (concurrent_now_strictly_increasing 5 (EpochClock.mkC 11 ∅ [11; 10]) _).
  eapply rtc_l; [by apply (EpochClock.step_call 1%nat)|]. simpl.
  eapply rtc_l; [by apply (EpochClock.step_read 1%nat 10)|]. simpl.
  eapply rtc_l; [by apply (EpochClock.step_load 1%nat 10)|]. simpl.
  eapply rtc_l; [by apply (EpochClock.step_cas_ok 1%nat 5 10)|]. simpl.
  eapply rtc_l; [by apply (EpochClock.step_call 1%nat)|]. simpl.
  eapply rtc_l; [by apply (EpochClock.step_read 1%nat 7)|]. simpl.
  eapply rtc_l; [by apply (EpochClock.step_load 1%nat 7)|]. simpl.
  eapply rtc_l; [by apply (EpochClock.step_cas_ok 1%nat 10 11)|]. simpl.
  apply rtc_refl.
Defined.

Definition clock0 := MockNow.mkMockNow 7 9.
Definition mem3 : Memory.Container nat := Memory.mkContainer [(2, 20%nat); (4, 40%nat); (8, 80%nat)] 8.
Definition log3 : log nat := mkLog [(2, 20%nat); (4, 40%nat); (8, 80%nat)] 8.

Lemma log3_wf : log_wf log3.
Proof. unfold log_wf. simpl. split_and!; repeat constructor; lia. Qed.

Lemma memory_publish_refines_log_witness :
  (Memory.PersisterPublishImpl DefaultTimeArgument 70%nat clock0 Memory.init).2 =
    Ok (mkIdxTs 0 7, Memory.mkContainer [(7, 70%nat)] 7) ∧
  Memory.repr (Memory.mkContainer [(7, 70%nat)] 7) (mkLog [(7, 70%nat)] 7).
Proof.
  split; [reflexivity|].
  exact (proj2 (proj2 (memory_publish_refines_log DefaultTimeArgument 70%nat clock0 Memory.init log_init Memory.repr_init))).
Defined.

Lemma memory_iterate_time_correct_witness :
  Memory.iterate_time 3 8 mem3 = Ok [(mkIdxTs 1 4, 40%nat); (mkIdxTs 2 8, 80%nat)].
Proof.
  rewrite (memory_iterate_time_correct 3 8 mem3 log3); [reflexivity|split; [reflexivity|exact log3_wf]|reflexivity].
Defined.

(** A file with an entry, a head directive and another entry. *)
Definition sig0 : bytes := str "{}".
Definition file0 : File.FilePersisterImpl :=
  File.mkImpl (File.signature_line sig0) [] 0 [] (File.mkEnd 0 (-1) (-1)).

Definition published {A B X} (r : A * outcome X (B * File.FilePersisterImpl)) : File.FilePersisterImpl :=
  match r.2 with Ok x => x.2 | Throw _ => file0 end.
Definition updated {A X} (r : A * outcome X File.FilePersisterImpl) : File.FilePersisterImpl :=
  match r.2 with Ok x => x | Throw _ => file0 end.

Definition file1 := published (File.PersisterPublishImpl (At 2) 20%nat clock0 file0).
Definition file2 := updated (File.PersisterUpdateHeadImpl (At 3) clock0 file1).
Definition file3 := published (File.PersisterPublishImpl (At 4) 40%nat clock0 file2).

Lemma sig0_ok : File.signature_ok sig0.
Proof. split; [by apply (bool_decide_unpack (newline ∉ sig0))|reflexivity]. Qed.

Lemma built0 : File.built (E := nat) sig0 file0 log_init.
Proof. apply File.built_empty. Qed.

Lemma built1 : File.built sig0 file1 (mkLog [(2, 20%nat)] 2).
Proof.
  destruct (File.publish_refines sig0 (At 2) 20%nat clock0 file0 log_init built0) as [_ Hr]; [done|].
  unfold file1, published. vm_compute in Hr. by destruct Hr.
Qed.

Lemma built2 : File.built sig0 file2 (mkLog [(2, 20%nat)] 3).
Proof.
  destruct (File.update_head_refines sig0 (At 3) clock0 file1 _ built1) as [_ Hr]; [done|]. exact Hr.
Qed.

Lemma built3 : File.built sig0 file3 (mkLog [(2, 20%nat); (4, 40%nat)] 4).
Proof.
  destruct (File.publish_refines sig0 (At 4) 40%nat clock0 file2 _ built2) as [_ Hr]; [done|].
  unfold file3, published. vm_compute in Hr. by destruct Hr.
Qed.

Lemma file_reopen_restores_state_witness :
  File.ValidateFileAndInitializeHead (E := nat) sig0 (File.file file3) = Ok file3.
Proof. exact (file_reopen_restores_state sig0 file3 _ sig0_ok built3). Defined.

Lemma file_publish_refines_log_witness :
  File.built sig0 (published (File.PersisterPublishImpl (At 9) 90%nat clock0 file3))
    (mkLog [(2, 20%nat); (4, 40%nat); (9, 90%nat)] 9) ∧
  (File.PersisterPublishImpl (At 4) 40%nat clock0 file3).2 = Throw (InconsistentTimestampException 5 4).
Proof.
  split; [|reflexivity].
  exact (proj2 (file_publish_refines_log sig0 (At 9) 90%nat clock0 file3 _ built3 eq_refl)).
Defined.

(** The second update overwrites the directive of the first. *)
Lemma file_update_head_refines_log_witness :
  File.built sig0 (updated (File.PersisterUpdateHeadImpl (At 9) clock0 file2)) (mkLog [(2, 20%nat)] 9) ∧
  length (File.file (updated (File.PersisterUpdateHeadImpl (At 9) clock0 file2))) = length (File.file file2).
Proof.
  split; [|reflexivity].
  exact (file_update_head_refines_log sig0 (At 9) clock0 file2 _ built2 eq_refl).
Defined.

Lemma file_iterate_correct_witness :
  File.iterate 0 2 file3 = Ok [(mkIdxTs 0 2, 20%nat); (mkIdxTs 1 4, 40%nat)].
Proof. rewrite (file_iterate_correct sig0 0 2 file3 _ built3); reflexivity. Defined.

Lemma file_iterate_time_correct_witness : File.iterate_time 3 0 file3 = Ok [(mkIdxTs 1 4, 40%nat)].
Proof. rewrite (file_iterate_time_correct sig0 3 0 file3 _ built3); reflexivity. Defined.

Lemma file_raw_lines_replicate_witness :
  ∃ line, File.iterate_unsafe 0 1 file3 = Ok [line].
Proof.
  destruct (file_raw_lines_replicate sig0 file3 _ 0 2 20%nat built3 eq_refl eq_refl) as (line & Hl & _).
  exists line. exact Hl.
Defined.

Lemma reopen3 : File.ValidateFileAndInitializeHead (E := nat) sig0 (File.file file3) = Ok file3.
Proof. exact (File.reopen sig0 file3 _ sig0_ok built3). Qed.

Lemma file_open_validates_witness : File.record_timestamp_ file3 = [2; 4] ∧ File.next_index (File.end_ file3) = 2%N.
Proof.
  destruct (file_open_validates (E := nat) sig0 (File.file file3) file3 eq_refl reopen3) as (_ & _ & _ & Hn & _).
  split; [reflexivity|exact Hn].
Defined.

Lemma head_directive_roundtrip_witness : FromString_int64 (Printf_020lld 1234) = 1234.
Proof. refine (proj1 (head_directive_roundtrip 1234 _)). split; discriminate. Defined.

Lemma empty_repr : represents (E := nat) (Memory.init : Memory.Container nat) log_init.
Proof. apply Memory.repr_init. Qed.

(** A subscriber to the even numbers of a stream, from index 1 on, on a stream of
    three entries; it waits in the end. *)
Definition even_only (n : nat) : option nat := if Nat.even n then Some n else None.
Definition three : Memory.Container nat := Memory.mkContainer [(500, 42%nat); (1500, 43%nat); (2500, 44%nat)] 2500.
Fixpoint run_recorded (n : nat) (th : @thread nat (list nat * list (call nat))) : @thread nat (list nat * list (call nat)) :=
  match n with
  | O => th
  | S n => match thread_step (recording collector) even_only three false th with Ok th' => run_recorded n th' | Throw _ => th end
  end.
Definition recorded := run_recorded 9 (start 1 0 ([], [])).

Lemma reach_recorded n th : rtc (system_step (P := Memory.Container nat) (recording collector) even_only) (mkSystem three false th)
  (mkSystem three false (run_recorded n th)).
Proof.
  revert th. induction n as [|n IH]; intros th; [constructor|]. simpl. destruct (thread_step _ _ _ _ _) as [th'|] eqn:Hs; [|constructor].
  eapply rtc_l; [by apply step_thread|]. apply IH.
Qed.

Lemma three_repr : represents three (Memory.as_log three).
Proof. split; [done|]. unfold log_wf. simpl. split_and!; repeat constructor; lia. Qed.

Lemma subscriber_sees_consecutive_entries_witness :
  at_ recorded = AtWait ∧ (state recorded).2 = [EntryCall 44%nat (mkIdxTs 2 2500) (mkIdxTs 2 2500)] ∧
  ∃ l', represents three l' ∧ [(mkIdxTs 2 2500, 44%nat)] = of_type even_only (drop 1 (numbered l')).
Proof.
  split; [vm_compute; reflexivity|]. split; [vm_compute; reflexivity|].
  destruct (subscriber_sees_consecutive_entries collector even_only three (Memory.as_log three) 1 0 [] (mkSystem three false recorded)
    three_repr eq_refl (reach_recorded 9 _)) as (l' & k & Hrep & _ & Hall & _).
  exists l'. split; [exact Hrep|]. apply Hall; vm_compute; reflexivity.
Defined.

Lemma subscriber_time_increases_witness : StronglySorted (λ x y, x < y) (notified future_thread).
Proof.
  exact (subscriber_time_increases collector Some Memory.init log_init 0 1000 [] _ empty_repr eq_refl reach_future).
Defined.

Lemma subscriber_thread_never_fails_witness : is_ok (thread_step collector Some with_one false thread_after_one).
Proof.
  exact (subscriber_thread_never_fails collector Some Memory.init log_init 0 0 [] _ empty_repr eq_refl reach_one).
Defined.

(** After some more steps the thread has taken the entry and waits. *)
Definition waiting_after_one := run 3 with_one thread_after_one.

Lemma reach_waiting : rtc step (sys empty_stream (start 0 0 [])) (sys with_one waiting_after_one).
Proof. etrans; [exact reach_one|]. apply run_steps. Qed.

Lemma blocked_subscriber_is_up_to_date_witness :
  ∃ l', represents (with_one : Memory.Container nat) l' ∧ taken waiting_after_one = drop 0 (numbered l').
Proof.
  exact (blocked_subscriber_is_up_to_date collector Some Memory.init log_init 0 0 [] _ empty_repr eq_refl reach_waiting
    eq_refl eq_refl).
Defined.

Lemma one_repr : represents (with_one : Memory.Container nat) (mkLog [(500, 42%nat)] 500).
Proof. split; [done|]. unfold log_wf. simpl. split_and!; repeat constructor; lia. Qed.

Lemma subscriber_spins_until_from_us_witness :
  ∃ th1 th2, thread_step collector Some with_one false future_waiting = Ok th1 ∧
    thread_step collector Some with_one false th1 = Ok th2 ∧
    thread_step collector Some with_one false th2 = Ok future_waiting.
Proof.
  apply (subscriber_spins_until_from_us collector Some with_one _ future_waiting one_repr); try reflexivity.
  discriminate.
Defined.
End StreamWitnesses.
