(* ===== verification/QueueProperties.v ===== *)
(** * Properties of the in-memory queues (blocks/mmq)

    The theorems about [MMQImpl] and [MMPQImpl], each with an instance on a
    concrete run of several threads. *)

From Stdlib Require Import ZArith NArith Lia Sorted.
From stdpp Require Import base gmap list relations sorting.
From S2P Require Import Prelude Time Persistence Mmq Mmpq.
Open Scope nat_scope.

Section MMQ.
Context {M CK : Type} `{!Inhabited M, !Clock CK}.
Context (DROP : bool) (buffer_size : nat) (ck : CK).
Hypothesis Hsize : 0 < buffer_size.

(** C11 First in, first out, under any interleaving of publishers and the
    consumer thread: the messages the consumer was called with are the first
    ones that were given a slot, in that order, each once and with its body,
    index and time stamp intact, and the indexes are consecutive. *)
Theorem mmq_fifo (s : MMQ.mmq M CK) :
  rtc (MMQ.mmq_step DROP) (MMQ.start buffer_size ck) s →
  let calls := MMQ.consumed (MMQ.consumer_ s) in
  calls.*1 = (λ x, (x.2, x.1)) <$> take (length calls) (MMQ.accepted s) ∧
  ∀ j i m, MMQ.accepted s !! j = Some (i, m) → index i = (N.of_nat (S j) mod 2 ^ 64)%N.
Proof.
  intros Hinv%MMQ.reachable_mmq_inv calls; [|done]. split; [apply Hinv|]. apply Hinv.
Qed.

(** Nothing gets stuck halfway and nothing is lost to the bound: no step
    accesses the buffer out of range; the consumer thread goes on waiting only
    when every accepted message was consumed or the next one is still being
    written by a publisher; a publisher goes on waiting only when the buffer is
    full. *)
Theorem mmq_waits_are_justified (s : MMQ.mmq M CK) :
  rtc (MMQ.mmq_step DROP) (MMQ.start buffer_size ck) s →
  is_ok (MMQ.ConsumerThread_step (MMQ.consumer_ s) (MMQ.queue s)) ∧
  (∀ tid p, MMQ.publishers s !! tid = Some p → is_ok (MMQ.PublisherPublishImpl_step p (MMQ.queue s))) ∧
  (MMQ.consumer_at (MMQ.consumer_ s) = MMQ.AtWait →
   MMQ.ConsumerThread_step (MMQ.consumer_ s) (MMQ.queue s) = Ok (MMQ.queue s, MMQ.consumer_ s) →
   length (MMQ.consumed (MMQ.consumer_ s)) = length (MMQ.accepted s) ∨
   ∃ tid p m, MMQ.publishers s !! tid = Some p ∧ MMQ.importing p = Some (MMQ.tail (MMQ.consumer_ s), m)) ∧
  (∀ tid m ts, MMQ.publishers s !! tid = Some (MMQ.Waiting m ts) →
   MMQ.PublisherPublishImpl_step (MMQ.Waiting m ts) (MMQ.queue s) = Ok (MMQ.queue s, MMQ.Inside (MMQ.Waiting m ts)) →
   length (MMQ.accepted s) = MMQ.freed (MMQ.consumer_ s) + MMQ.circular_buffer_size_ (MMQ.queue s)).
Proof.
  intros Hinv%MMQ.reachable_mmq_inv; [|done]. split_and!.
  - by apply MMQ.consumer_step_total.
  - intros tid p. by apply MMQ.publisher_step_total.
  - by apply MMQ.blocked_consumer.
  - intros tid m ts _. by apply MMQ.blocked_publisher.
Qed.
End MMQ.

(** A queue that drops on overflow numbers messages with strictly increasing
    time stamps, and refuses a message only when the buffer is full. *)
Theorem mmq_drop_times_increase {M CK : Type} `{!Inhabited M, !Clock CK} (buffer_size : nat) (ck : CK)
    (s : MMQ.mmq M CK) :
  0 < buffer_size → rtc (MMQ.mmq_step true) (MMQ.start buffer_size ck) s →
  StronglySorted Z.lt (MMQ.times (MMQ.accepted s)) ∧
  ∀ a m q', MMQ.CircularBufferAllocate true a m (MMQ.queue s) = Ok (q', MMQ.refused m) →
    length (MMQ.accepted s) = MMQ.freed (MMQ.consumer_ s) + MMQ.circular_buffer_size_ (MMQ.queue s).
Proof.
  intros Hs Hr. split; [by eapply MMQ.reachable_drop_inv|]. intros a m q' Href.
  eapply MMQ.drop_refused; [by eapply MMQ.reachable_mmq_inv|exact Href].
Qed.

Section MMPQ.
Context {M CK : Type} `{!Clock CK} (ck : CK).

(** When messages are published with time stamps after the head, the consumer
    is called with strictly increasing time stamps, each at or before the head,
    and with published messages only. *)
Theorem mmpq_consumes_in_time_order (q : MMPQ.MMPQImpl M CK) :
  rtc MMPQ.timely_step (MMPQ.make_MMPQImpl ck) q →
  StronglySorted Z.lt (MMPQ.consumed_times q) ∧
  Forall (λ x, (us x.1.2 ≤ us (MMPQ.last_idx_ts_ q))%Z) (MMPQ.consumed q) ∧
  Forall (λ x, MMPQ.entry_of x ∈ MMPQ.offered q) (MMPQ.consumed q).
Proof.
  intros Hr. pose proof (MMPQ.reachable_timely_inv _ _ Hr) as [? _].
  assert (MMPQ.mmpq_inv q) as [_ Ho Hd _].
  { eapply MMPQ.reachable_mmpq_inv, rtc_subrel; [|exact Hr]. intros x y []; [constructor|done]. }
  split_and!; [done..|]. apply Forall_forall. intros x Hx. apply Ho, elem_of_app. right. set_solver.
Qed.

(** Nothing that is due is held back: when the consumer thread is waiting,
    whatever the order of the publish calls was, for every message offered with
    a time at or before the head one with that very time has been consumed. *)
Theorem mmpq_nothing_due_is_held (q : MMPQ.MMPQImpl M CK) (e : MMPQ.Entry M) :
  rtc MMPQ.mmpq_step (MMPQ.make_MMPQImpl ck) q →
  MMPQ.ConsumerThread_step q = q → MMPQ.stopped q = false → MMPQ.destructing_ q = false →
  e ∈ MMPQ.offered q → (MMPQ.entry_us e ≤ us (MMPQ.last_idx_ts_ q))%Z →
  MMPQ.entry_us e ∈ MMPQ.consumed_times q.
Proof.
  intros Hinv%MMPQ.reachable_mmpq_inv Hidle Hst Hde He Hdue.
  pose proof (MMPQ.idle_consumer_nothing_due q Hinv Hidle Hst Hde) as Hnone. rewrite Forall_forall in Hnone.
  destruct (MMPQ.inv_time _ Hinv e He) as (e' & He' & Heq). apply elem_of_app in He' as [He'|He'].
  - specialize (Hnone e' He'). simpl in Hnone. lia.
  - apply list_elem_of_fmap in He' as (x & -> & Hx). unfold MMPQ.consumed_times. apply list_elem_of_fmap.
    exists x. split; [|done]. by rewrite <- Heq.
Qed.

(** Two messages with the same time stamp: the second is dropped.  The set
    orders entries by time alone, so [emplace] does nothing, yet the call takes
    an index and returns it like any other. *)
Theorem mmpq_same_time_is_lost (q : MMPQ.MMPQImpl M CK) (t : microseconds) (m : M) :
  MMPQ.mmpq_inv q → (∃ e, e ∈ MMPQ.queue_ q ∧ MMPQ.entry_us e = t) →
  let '(q', returned) := MMPQ.PublisherPublishImpl (At t) m q in
  MMPQ.queue_ q' = MMPQ.queue_ q ∧ index returned = u64_succ (index (MMPQ.last_idx_ts_ q)).
Proof.
  intros Hinv (e & He & Ht). simpl. split; [|done]. apply MMPQ.emplace_taken; [apply Hinv|]. eauto.
Qed.
End MMPQ.

(** ** Runs that show what the queues do not promise *)

Module QueueRuns.
Import MMQ.

Definition clock0 := MockNow.mkMockNow 7 9.
Definition queue_of (size : nat) : mmq nat MockNow.MockNowImpl := start size clock0.

(** Publish from thread [tid], up to the commit of the slot. *)
Definition publish (tid : nat) (t : Z) (m : nat) : list (action nat) := [Call tid (At t) m; Proceed tid; Proceed tid].
(** Take, export and free one slot. *)
Definition consume : list (action nat) := [Consume; Consume; Consume].

(** Thread 1 commits its message and, before it reads back the index, the
    message is consumed and its slot given to the message of thread 2. *)
Definition overtaken : list (action nat) := publish 1 1 10 ++ consume ++ [Call 2 (At 2) 20; Proceed 1].

(** Threads 2 and 3 wait for a slot, 3 with the later time; 3 is woken first. *)
Definition woken_out_of_order : list (action nat) :=
  publish 1 1 10 ++ [Proceed 1; Call 2 (At 5) 20; Call 3 (At 9) 30] ++
  consume ++ [Proceed 3; Proceed 3; Proceed 3; Proceed 3] ++ consume ++ [Proceed 2].

(** A message is published and then the queue is destructed. *)
Definition destructed_early : list (action nat) := publish 1 1 10 ++ [Proceed 1; Destruct; Consume].
End QueueRuns.

(** [Publish] reads the index and time stamp it returns back from the slot
    after committing it, without the mutex: by then the slot can belong to
    another message, so a call can return the index of somebody else's message. *)
Theorem mmq_publish_can_return_another_index :
  ∃ s, rtc (MMQ.mmq_step (M := nat) (CK := MockNow.MockNowImpl) false) (QueueRuns.queue_of 1) s ∧
    MMQ.accepted s = [(mkIdxTs 1 1, 10); (mkIdxTs 2 2, 20)] ∧ MMQ.returned s = [(10, mkIdxTs 2 2)].
Proof.
  eexists. split; [apply (MMQ.mmq_run_steps false QueueRuns.overtaken); vm_compute; reflexivity|]. done.
Qed.

(** A queue that blocks on overflow does not keep time stamps increasing: they
    are checked before the wait for a free slot and not after it, so two waiting
    publishers can be numbered against the order of time. *)
Theorem mmq_blocking_time_can_go_back :
  ∃ s, rtc (MMQ.mmq_step (M := nat) (CK := MockNow.MockNowImpl) false) (QueueRuns.queue_of 1) s ∧
    MMQ.times (MMQ.accepted s) = [1; 9; 5]%Z ∧
    (MMQ.consumed (MMQ.consumer_ s)).*1 = [(10, mkIdxTs 1 1); (30, mkIdxTs 2 9)].
Proof.
  eexists. split; [apply (MMQ.mmq_run_steps false QueueRuns.woken_out_of_order); vm_compute; reflexivity|]. done.
Qed.

(** A message that is queued when the destructor runs is not consumed: the
    consumer thread returns as soon as it sees [destructing_]. *)
Lemma mmq_destructor_can_leave_messages :
  ∃ s, rtc (MMQ.mmq_step (M := nat) (CK := MockNow.MockNowImpl) false) (QueueRuns.queue_of 1) s ∧
    MMQ.consumer_at (MMQ.consumer_ s) = MMQ.Stopped ∧ length (MMQ.accepted s) = 1 ∧
    MMQ.consumed (MMQ.consumer_ s) = [].
Proof.
  eexists. split; [apply (MMQ.mmq_run_steps false QueueRuns.destructed_early); vm_compute; reflexivity|]. done.
Qed.

Module Witnesses.
Import QueueRuns.

(** Two slots, a message still being written behind one already committed. *)
Definition busy : list (MMQ.action nat) := publish 1 1 10 ++ [MMQ.Call 2 (At 2) 20] ++ consume.

Definition state_after (drop : bool) (xs : list (MMQ.action nat)) (s : MMQ.mmq nat MockNow.MockNowImpl) :=
  match MMQ.run drop xs s with Some s' => s' | None => s end.

Lemma one_slot : 0 < 1.
Proof. lia. Qed.

Lemma two_slots : 0 < 2.
Proof. lia. Qed.

Lemma reach_busy : rtc (MMQ.mmq_step false) (queue_of 2) (state_after false busy (queue_of 2)).
Proof. apply (MMQ.mmq_run_steps false busy). vm_compute. reflexivity. Qed.

Lemma mmq_fifo_witness :
  (MMQ.consumed (MMQ.consumer_ (state_after false busy (queue_of 2)))).*1 = [(10, mkIdxTs 1 1)].
Proof. exact (proj1 (mmq_fifo (M := nat) false 2 clock0 two_slots _ reach_busy)). Defined.

Lemma mmq_waits_are_justified_witness :
  ∃ tid p m, MMQ.publishers (state_after false busy (queue_of 2)) !! tid = Some p ∧ MMQ.importing p = Some (1, m).
Proof.
  destruct (mmq_waits_are_justified (M := nat) false 2 clock0 two_slots _ reach_busy) as (_ & _ & Hwait & _).
  destruct (Hwait eq_refl eq_refl) as [Hlen|Hp]; [discriminate Hlen|exact Hp].
Defined.

(** One slot: the second message is refused. *)
Definition overflow : list (MMQ.action nat) := publish 1 1 10 ++ [MMQ.Proceed 1; MMQ.Call 2 (At 2) 20].

Lemma reach_overflow : rtc (MMQ.mmq_step true) (queue_of 1) (state_after true overflow (queue_of 1)).
Proof. apply (MMQ.mmq_run_steps true overflow). vm_compute. reflexivity. Qed.

Lemma mmq_drop_times_increase_witness :
  StronglySorted Z.lt [1%Z] ∧ MMQ.returned (state_after true overflow (queue_of 1)) = [(10, mkIdxTs 1 1); (20, mkIdxTs 0 0)].
Proof.
  split; [|reflexivity]. exact (proj1 (mmq_drop_times_increase (M := nat) 1 clock0 _ one_slot reach_overflow)).
Defined.

(** Published out of order, delivered in order. *)
Definition mmpq0 : MMPQ.MMPQImpl nat MockNow.MockNowImpl := MMPQ.make_MMPQImpl clock0.
Definition mmpq1 := (MMPQ.PublisherPublishImpl (At 9) 90 mmpq0).1.
Definition mmpq2 := (MMPQ.PublisherPublishImpl (At 4) 40 mmpq1).1.
Definition mmpq3 := (MMPQ.PublisherUpdateHeadImpl (At 20) mmpq2).1.
Definition mmpq4 := MMPQ.ConsumerThread_step mmpq3.
Definition mmpq5 := MMPQ.ConsumerThread_step mmpq4.

Lemma reach_mmpq5 : rtc MMPQ.timely_step (MMPQ.make_MMPQImpl clock0) mmpq5.
Proof.
  eapply rtc_l; [apply (MMPQ.timely_publish (At 9) 90); reflexivity|].
  eapply rtc_l; [apply (MMPQ.timely_publish (At 4) 40); reflexivity|].
  eapply rtc_l; [apply MMPQ.timely_other; [apply (MMPQ.step_update_head (At 20))|reflexivity]|].
  eapply rtc_l; [apply MMPQ.timely_other; [apply MMPQ.step_consume|reflexivity]|].
  eapply rtc_l; [apply MMPQ.timely_other; [apply MMPQ.step_consume|reflexivity]|].
  apply rtc_refl.
Qed.

Lemma mmpq_consumes_in_time_order_witness : StronglySorted Z.lt [4; 9]%Z.
Proof. exact (proj1 (mmpq_consumes_in_time_order clock0 mmpq5 reach_mmpq5)). Defined.

Lemma reach_any_mmpq5 : rtc MMPQ.mmpq_step (MMPQ.make_MMPQImpl clock0) mmpq5.
Proof. eapply rtc_subrel; [|exact reach_mmpq5]. intros x y []; [constructor|done]. Qed.

Lemma mmpq_nothing_due_is_held_witness : 9%Z ∈ MMPQ.consumed_times mmpq5.
Proof.
  refine (mmpq_nothing_due_is_held clock0 mmpq5 (MMPQ.mkEntry (mkIdxTs 1 9) 90) reach_any_mmpq5 _ _ _ _ _);
    [reflexivity..|by left|discriminate].
Defined.

Lemma mmpq_same_time_is_lost_witness :
  MMPQ.queue_ (MMPQ.PublisherPublishImpl (At 9) 91 mmpq1).1 = [MMPQ.mkEntry (mkIdxTs 1 9) 90].
Proof.
  refine (proj1 (mmpq_same_time_is_lost mmpq1 9 91 (MMPQ.publish_inv _ _ _ (MMPQ.mmpq_init_inv _)) _)).
  exists (MMPQ.mkEntry (mkIdxTs 1 9) 90). split; [by left|reflexivity].
Defined.
End Witnesses.
