(* ===== verification/TextProperties.v ===== *)
(** * Properties of the text utilities: strings, Base64 and URLs *)

From Stdlib Require Import ZArith NArith Lia Ascii String.
From stdpp Require Import base gmap list strings.
From S2P Require Import Prelude Persistence Decimal Strings Url Base64 CompactTsv.
Open Scope nat_scope.

(** The in-place [Split] gives the fields of the plain one, and every NUL it
    writes into the caller's buffer is taken back. *)
Theorem split_in_place_equivalent (separator : ascii → bool) (strategy : EmptyFields) (s : bytes) :
  Split_in_place separator strategy (s ++ [nul]) (length s) = (Split separator strategy s, s ++ [nul]).
Proof. unfold Split_in_place. rewrite Split_in_place_loop_eq by lia. done. Qed.

(** Splitting what was joined gives the components back, as long as none of
    them holds a separator: all of them when empty fields are kept, the ones
    that are not empty when they are skipped. *)
Theorem split_join_roundtrip (separator : ascii → bool) (c : ascii) (strategy : EmptyFields) (components : list bytes) :
  separator c = true → Forall (no_separator separator) components → components ≠ [] →
  Split separator strategy (Join components [c]) = List.filter (keeps strategy) components.
Proof.
  intros Hc Hall Hne. destruct components as [|f fs]; [done|]. by rewrite Split_fields, fields_Join.
Qed.

(** Base64, in both alphabets: encoding never writes past the buffer it has
    reserved, and decoding gives every byte string back, whatever is left in the
    high bits of the shift buffer. *)
Theorem base64_roundtrip (TYPE : Base64.EncodingType) (input : bytes) :
  ∃ out, Base64.Encode TYPE input = Ok out ∧ length out = Base64.result_size (length input) ∧
    Base64.Decode TYPE out = Ok input.
Proof. apply Base64.encode_ok. Qed.

(** A URL survives being composed and parsed: scheme, user, password, host,
    port, path, every query parameter in order, and the fragment.  The scheme
    becomes explicit and a port that is the default of its scheme is left out. *)
Theorem url_roundtrip (u : Url.URL) :
  Url.url_wf u.1 → Forall (λ p, Url.is_ascii p.1 ∧ Url.is_ascii p.2) (Url.parameters_vector u.2) →
  Url.query u.2 = Url.QueryParameters (Url.parameters_vector u.2) →
  Url.make_URL (Url.ComposeURL u) = Ok (Url.normalize u.1, u.2).
Proof. apply Url.make_compose. Qed.

(** Outside of ASCII the escaping of query parameters does not round-trip: a
    [char] above 127 is negative as an [int] and is printed with eight digits,
    of which unescaping reads two. *)
Theorem uri_component_breaks_high_bytes (c : ascii) :
  (128 ≤ Url.code c)%Z → Url.DecodeURIComponent (Url.EncodeURIComponent [c]) ≠ [c].
Proof.
  intros (h & l & Hc)%Url.encode_high_character Heq. unfold Url.EncodeURIComponent in Heq.
  rewrite bind_cons, Hc in Heq. simpl in Heq. apply (f_equal (λ s, nth 1 s nul)) in Heq. discriminate Heq.
Qed.

(** C40 Rows of the same number of columns, at most 254, with strings shorter than 2^16
    bytes, less than 2^32 bytes in all, are packed without a failed assertion, whether
    the number of columns is given or not; unpacking gives them and their number, with
    whole strings, or, as pointers to characters, with strings up to their first zero. *)
Theorem compact_tsv_roundtrip (dim dim0 : nat) (rows : list (list bytes)) :
  dim ≠ 0%nat → (dim ≤ 254)%nat → dim0 = dim ∨ dim0 = 0%nat → Forall (row_ok dim) rows → (N.of_nat (sum_list_with row_size rows) < 2 ^ 32)%N →
  ∃ packed, (t ← CompactTsv.CompactTSV_new dim0; t ← CompactTsv.pack_rows rows t; t ← CompactTsv.Finalize t; CompactTsv.GetPackedString t) = Ok packed ∧
    CompactTsv.Unpack_strings packed = Ok (rows, length rows) ∧
    CompactTsv.Unpack_pchars packed = Ok ((λ row : list bytes, c_str <$> row) <$> rows, length rows).
Proof.
  intros Hd0 Hd Hdim Hrows Hsmall. destruct (unpack_pack [] _ (λ s, s) string_cell_ok dim dim0 rows) as (packed & Hp & Hu); [done..|].
  destruct (unpack_pack [] _ c_str pchar_cell_ok dim dim0 rows) as (packed' & Hp' & Hu'); [done..|]. rewrite Hp in Hp'. injection Hp' as <-.
  exists packed. split_and!; [done| |exact Hu']. unfold CompactTsv.Unpack_strings. rewrite Hu. do 2 f_equal.
  etrans; [|apply list_fmap_id]. apply list_fmap_ext. intros i row _. apply list_fmap_id.
Qed.

(** [Unpack] reads numbers before it checks that they are inside of the data. *)
Lemma unpack_reads_past_the_end : CompactTsv.Unpack_strings ["255"%char] = Throw DanglingDereference.
Proof. reflexivity. Qed.

Module Witnesses.
Definition fields0 : list bytes := [str "a"; []; str "bc"].

Lemma split_join_roundtrip_witness : Split (match_char "|") Skip (str "a||bc") = [str "a"; str "bc"].
Proof.
  refine (split_join_roundtrip (match_char "|") "|" Skip fields0 eq_refl _ _); [|discriminate].
  repeat constructor.
Defined.

Definition url0 : Url.URLWithoutParameters :=
  Url.mkUrl (str "example.com") (str "/a/b") [] 8080 (str "me") (str "s:cret").
Definition parameters0 : list (bytes * bytes) := [(str "q", str "1 + 1=2"); (str "empty", [])].
Definition full_url0 : Url.URL := (url0, Url.mkParameters parameters0 (Url.QueryParameters parameters0) (str "top")).

Lemma none_of_dec cs s : forallb (λ c, negb (bool_decide (c ∈ cs))) s = true → Url.none_of cs s.
Proof.
  rewrite forallb_forall. intros Hs. apply Forall_forall. intros c Hc Hin. apply list_elem_of_In, Hs in Hc.
  by rewrite bool_decide_eq_true_2 in Hc.
Qed.

Lemma is_ascii_dec s : forallb (λ c, (Url.code c <? 128)%Z) s = true → Url.is_ascii s.
Proof.
  rewrite forallb_forall. intros Hs. apply Forall_forall. intros c Hc. apply list_elem_of_In, Hs in Hc.
  by apply Z.ltb_lt.
Qed.

Lemma url0_wf : Url.url_wf url0.
Proof.
  split; try (apply none_of_dec; reflexivity); try discriminate; [split; [discriminate|reflexivity]|].
  eexists. split; [reflexivity|]. apply none_of_dec. reflexivity.
Qed.

Lemma url_roundtrip_witness :
  Url.make_URL (str "http://me:s:cret@example.com:8080/a/b?q=1%20%2B%201%3D2&empty=#top") =
    Ok (Url.normalize url0, full_url0.2).
Proof.
  refine (url_roundtrip full_url0 url0_wf _ eq_refl).
  repeat (constructor; [split; apply is_ascii_dec; reflexivity|]). constructor.
Defined.

Lemma uri_component_breaks_high_bytes_witness :
  Url.DecodeURIComponent (Url.EncodeURIComponent ["233"%char]) ≠ ["233"%char].
Proof. apply (uri_component_breaks_high_bytes "233"). discriminate. Defined.

Definition table : list (list bytes) := [[str "a"; str "b"]; [str "a"; "000"%char :: str "c"]; [str "b"; []]].

Lemma compact_tsv_roundtrip_witness : ∃ packed,
  (t ← CompactTsv.CompactTSV_new 0; t ← CompactTsv.pack_rows table t; t ← CompactTsv.Finalize t; CompactTsv.GetPackedString t) = Ok packed ∧
  CompactTsv.Unpack_strings packed = Ok (table, 3) ∧ CompactTsv.Unpack_pchars packed = Ok ([[str "a"; str "b"]; [str "a"; []]; [str "b"; []]], 3).
Proof. apply (compact_tsv_roundtrip 2 0 table); [done|lia|by right|by repeat constructor|reflexivity]. Defined.
End Witnesses.
