(* ===== verification/HttpProperties.v ===== *)
(** * What a subscription over HTTP guarantees

    The theorems about stream/pubsub.h and the range selection of
    [ServeDataViaHTTP] (stream/stream.h), each with a concrete instance. *)

From Stdlib Require Import ZArith NArith Lia Ascii String Sorted.
From stdpp Require Import base gmap list strings.
From S2P Require Import Prelude Time Persistence Decimal Codec Stream PubSub.
Open Scope Z_scope.

Section Http.
Context {E : Type} `{!LogCodec E}.


(** Unchecked subscriptions: on the line the persister wrote for an entry, the
    raw operator of the endpoint (which parses the time stamp only when it
    needs it and cuts the text at the tab) sends, answers and remembers exactly
    what the operator for parsed entries does, in every state. *)
Theorem http_unchecked_equals_checked `{!LogCodecSound E} (parse_ts_only : bytes → option microseconds)
    (current last : idxts_t) (e : E) (s : PubSub.PubSubHTTPEndpointImpl) :
  (∀ i, parse_ts_only (json_idxts i) = Some (us i)) →
  PubSub.on_raw_entry parse_ts_only (log_line current e) (index current) last s =
  PubSub.on_checked_entry e current last s.
Proof.
  intros Hts. unfold PubSub.on_raw_entry, PubSub.on_checked_entry.
  by rewrite PubSub.raw_us_log_line, PubSub.raw_text_log_line by done.
Qed.

(** An array is not closed when it is a head update that ends the period: the
    response is then not JSON. *)
Theorem http_array_left_open (json_ts_only : microseconds → bytes) t (s : PubSub.PubSubHTTPEndpointImpl) :
  PubSub.time_to_terminate_ s = false → PubSub.serving_ s = true → PubSub.to_timestamp_ s ≠ 0 → PubSub.to_timestamp_ s < t →
  PubSub.on_head_update json_ts_only t s = (s, Done).
Proof.
  intros Ht Hserv H0 Hlt. unfold PubSub.on_head_update. rewrite Ht, Hserv. cbn [negb andb]. rewrite Hserv.
  destruct (Z.eqb_spec (PubSub.to_timestamp_ s) 0); [done|]. rewrite andb_false_r.
  destruct (Z.eqb_spec (PubSub.to_timestamp_ s) 0); [done|]. by destruct (Z.ltb_spec (PubSub.to_timestamp_ s) t); [|lia].
Qed.
End Http.

Module Witnesses.

(** [GET /?i=1&since=3&n=2&nowait&array], then [?tail=1&nowait]. *)
Definition request : PubSub.Request :=
  PubSub.mkRequest (str "GET")
    (<[str "i" := str "1"]> (<[str "since" := str "3"]> (<[str "n" := str "2"]> (<[str "nowait" := []]>
      (<[str "array" := []]> ∅))))) [] 100.
Definition params := PubSub.ParsePubSubHTTPRequest request.


(** A parser of the time stamp for the concrete codec. *)
Definition parse_ts_only0 (s : bytes) : option microseconds := us <$> parse_idxts (E := nat) s.

Lemma http_unchecked_equals_checked_witness :
  PubSub.on_raw_entry parse_ts_only0 (log_line (mkIdxTs 1 4) 40%nat) 1 (mkIdxTs 3 16) (PubSub.make_endpoint params 0 100) =
  PubSub.on_checked_entry 40%nat (mkIdxTs 1 4) (mkIdxTs 3 16) (PubSub.make_endpoint params 0 100).
Proof.
  exact (http_unchecked_equals_checked parse_ts_only0 (mkIdxTs 1 4) (mkIdxTs 3 16) 40%nat (PubSub.make_endpoint params 0 100)
    (λ i, f_equal (fmap us) (parse_json_idxts (E := nat) i))).
Defined.
End Witnesses.
