(* ===== verification/SyncProperties.v ===== *)
(** * What owned and borrowed objects, waitable atomics and the publisher of a stream guarantee

    The theorems about bricks/sync/owned_borrowed.h, bricks/sync/waitable_atomic.h
    and the publisher hand-over of stream/stream.h, each with a concrete run. *)

From stdpp Require Import base gmap list relations.
From Stdlib Require Import Lia String.
From S2P Require Import Prelude OwnedBorrowed StreamPublisher WaitableAtomic.
Import WaitableAtomic OwnedBorrowed StreamPublisher.
Open Scope nat_scope.

Section Objects.
Context {T F : Type}.
Implicit Type s : world (T := T) (F := F).

(** C22 No use after free through a borrower: in every interleaving of any number
    of threads that make, borrow, copy, move, assign, release and destroy objects
    while owners go out of scope, an object that exists can always tell whether
    it is valid, can be dereferenced unless it was moved from or released, and
    can be released without the assertion in [UnRegisterBorrower] failing. *)
Theorem borrowed_object_never_dangles s o w :
  rtc ob_step init s → weak s !! o = Some w →
  is_ok (IsValid o s) ∧
  (is_Some (p_actual_instance_ w) → is_ok (Dereference o s)) ∧
  (movable_instance_ s !! o = None → is_ok (InternalUnRegister o s)).
Proof. intros Hr. by apply live_object_usable, ob_reachable_inv. Qed.

(** C37 The destructor of an owned object ends: if no borrower was assigned to
    while registered and no [Owned] object was moved into a [Borrowed] one, then
    once no object points to the instance its destructor, wherever it is, runs to
    its end without blocking (or a callback exits the process, as the one of
    [BorrowedOfGuaranteedLifetime] does). *)
Theorem destructor_ends_when_unborrowed s l st :
  rtc careful_step init s → destructors s !! l = Some st →
  (∀ o w, weak s !! o = Some w → p_actual_instance_ w ≠ Some l) →
  ∃ n s', execs (replicate n (OpRunDestructor l)) s = Ok s' ∧ (heap s' !! l = None ∨ exited s' = true).
Proof. intros [H Ha]%careful_reachable. by apply unborrowed_ends. Qed.

(** Assigning to a [Borrowed] object that is registered: [operator=] does not
    unregister it first, so its registration is never erased and, whatever all the
    threads do from then on, the instance is never destroyed: the destructor of
    its owner waits forever. *)
Theorem assigned_borrower_blocks_owner s s1 s2 o rhs cb w l :
  rtc ob_step init s → weak s !! o = Some w → p_actual_instance_ w = Some l → key_ w ≠ 0 →
  exec (OpAssign o rhs cb) s = Ok s1 → rtc ob_step s1 s2 →
  ∃ x, heap s2 !! l = Some x ∧ borrowers_ x ≠ ∅.
Proof.
  intros Hr Hw Hp Hk He Hr2. pose proof (ob_reachable_inv s Hr) as H.
  destruct (orphaned_forever l (key_ w) s1 s2) as (x & Hx & Hb & _); [by eapply ob_exec_inv| |done|].
  - by eapply (assign_orphans o rhs cb w l s).
  - exists x. split; [done|]. intros Hempty. rewrite Hempty, lookup_empty in Hb. by destruct Hb.
Qed.
End Objects.

Section Publisher.
Context {F E : Type}.
Implicit Type s : stream (F := F) (E := E).

(** C25 The hand-over is exclusive: when [BecomeFollowingStream] (or
    [BecomeMasterStream]) returns, every publisher borrowed before has been
    released, whoever held it and however the threads were interleaved; the only
    objects that can publish are the stream's own and the one returned, and a
    following stream gives nobody else a publisher. *)
Theorem become_is_exclusive s0 s s' owned0 borrowable0 owned borrowed m :
  make_stream owned0 borrowable0 = Ok s0 → rtc publisher_step s0 s →
  recreating s = Some (CreateNew, m) → Recreate owned borrowed s = Ok s' →
  (∀ o w l, weak (objects s') !! o = Some w → p_actual_instance_ w = Some l → o = owned ∨ o = borrowed) ∧
  (m = BecomingFollowing → IsMasterStream s' = Ok false ∧ ∀ o, BorrowPublisher o s' = Throw PublisherNotAvailableException).
Proof.
  intros H0 Hr Hrec He. split.
  - eapply recreated_exclusive; [by eapply publisher_reachable_inv|done..].
  - intros ->. unfold Recreate in He. rewrite Hrec in He. simpl in He.
    destruct (MakeOwned owned () (objects s)) as [w1|]; [|done]. simpl in He.
    destruct (ConstructBorrowed borrowed owned NoCallback w1) as [w2|]; [|done]. simpl in He. by injection He as <-.
Qed.

(** C38 A deadlock: if a thread is inside [Publish] on a borrowed publisher, waiting
    for [publishing_mutex], when [BecomeMasterStream] or [BecomeFollowingStream]
    has locked it, then whatever happens next the call never returns: it keeps
    the mutex and waits for the borrower, which cannot be released. *)
Theorem handover_deadlocks_with_publish s0 s s' owned0 borrowable0 h :
  make_stream owned0 borrowable0 = Ok s0 → rtc publisher_step s0 s → stuck_on h s → rtc publisher_step s s' →
  recreating s' ≠ None ∧ h ∈ publishing s' ∧ ∀ e, FinishPublish h e s' = Throw (Step Blocked).
Proof.
  intros H0 Hr Hs Hr'. destruct (stuck_forever h s s') as ((ph & m & Hrec & _) & Hh & _); [by eapply publisher_reachable_inv|done..|].
  split; [congruence|]. split; [done|]. intros e. unfold FinishPublish, lock. rewrite (bool_decide_eq_true_2 _ Hh). simpl.
  by rewrite bool_decide_eq_false_2 by congruence.
Qed.
End Publisher.

Section Waiting.
Context {DATA : Type}.

(** C23 No wake-up is lost: when threads use the data through accessors, tell of
    their changes and only read while they wait, then in every interleaving of their
    critical sections, spurious wake-ups and timeouts, a thread that waits for what
    is already true was woken, and goes on when it has the mutex. *)
Theorem waiting_never_misses (data : DATA) s i w :
  rtc honest_step (mkBasic data ∅) s → data_condition_variable_ s !! i = Some w → predicate_of w (data_ s) = true →
  w = Woken (predicate_of w) ∧ (Wait i (predicate_of w) s).1 = true.
Proof. intros H. by apply woken_goes_on, honest_no_lost with data. Qed.

(** C24 The destructor of an intrusive waitable atomic, among threads that register
    as clients or do not, wait with and without a timeout and use the data: from its
    first step on, no thread is blocked in [Wait], every [Wait] returns false and no
    client is registered; only [WaitFor], which does not look at [destructing_], may
    still block, until its timeout.  The clients can leave and the destructor then
    ends, without any wake-up that is not notified.  When it has ended, no client is
    in its scope, and no thread that is a client waits. *)
Theorem intrusive_destruction (s : IntrusiveImpl DATA) :
  reachable s → phase s ≠ Alive →
  (∀ i p, data_condition_variable_ (base s) !! i = Some (WaitableAtomic.Blocked p) → i ∈ timed s) ∧ IsDestructing s = true ∧
  (∀ i p, (intrusive_Wait i p s).1 = Some false ∧ RegisterScopedClient i s = s) ∧
  (∃ s', rtc intrusive_step s s' ∧ phase s' = Destroyed) ∧
  (phase s = Destroyed → (∀ c k, clients s !! c = Some k → k = Decreased) ∧
     ∀ i w, data_condition_variable_ (base s) !! i = Some w → clients s !! i = None).
Proof.
  intros Hs%inv_reachable Hp. assert (WaitableAtomic.destructing_ s = true) as Hd by (rewrite (inv_destructing _ Hs); by destruct (phase s)).
  split; [by apply inv_woken|]. split; [done|]. split.
  { intros i p. unfold intrusive_Wait, RegisterScopedClient, RefCounterTryIncrease. by rewrite Hd. }
  split; [by apply destruction_ends|]. intros He. split; [intros c k; by apply destroyed_clients|]. intros i w. by apply destroyed_waiters.
Qed.
End Waiting.

(** ** Concrete runs *)

Module Witnesses.
Local Abbreviation W := (world (T := nat) (F := string)).

Definition run (l : list (op (T := nat) (F := string))) : W :=
  match execs l init with Ok s => s | Throw _ => init end.

Lemma execs_reach l s s' : execs l s = Ok s' → rtc (ob_step (T := nat) (F := string)) s s'.
Proof.
  revert s. induction l as [|a l IH]; intros s; simpl; [intros [= <-]; constructor|].
  destruct (exec a s) as [s1|] eqn:Ha; [|done]. simpl. intros Hs. eapply rtc_l; [by exists a|by apply IH].
Qed.

Fixpoint careful_all (l : list (op (T := nat) (F := string))) (s : W) : bool :=
  match l with
  | [] => true
  | a :: l => careful a s && match exec a s with Ok s => careful_all l s | Throw _ => false end
  end.

Lemma careful_reach l s s' : careful_all l s = true → execs l s = Ok s' → rtc (careful_step (T := nat) (F := string)) s s'.
Proof.
  revert s. induction l as [|a l IH]; intros s; simpl; [intros _ [= <-]; constructor|].
  intros [Hc Hl]%andb_true_iff. destruct (exec a s) as [s1|] eqn:Ha; [|done]. simpl. intros Hs.
  eapply rtc_l; [by exists a|by apply IH].
Qed.

(** The owner is object 0, its borrowers are 1 and 2. *)
Definition borrow_twice : list (op (T := nat) (F := string)) :=
  [OpMakeOwned 0 42; OpBorrow 1 0 NoCallback; OpBorrow 2 0 (UserCallback "stop"%string)].

Lemma borrowed_object_never_dangles_witness :
  Dereference 1 (run (borrow_twice ++ [OpDestroy 0])) = Ok 42 ∧
  is_ok (InternalUnRegister 1 (run (borrow_twice ++ [OpDestroy 0]))).
Proof.
  destruct (borrowed_object_never_dangles (run (borrow_twice ++ [OpDestroy 0])) 1 (mkWeak (Some 0) 1)) as (_ & _ & H).
  - apply (execs_reach (borrow_twice ++ [OpDestroy 0])). vm_compute. reflexivity.
  - vm_compute. reflexivity.
  - split; [vm_compute; reflexivity|]. apply H. vm_compute. reflexivity.
Defined.

Definition unborrow : list (op (T := nat) (F := string)) :=
  borrow_twice ++ [OpDestroy 0; OpRelease 1; OpDestroy 1; OpRelease 2; OpDestroy 2].
Definition unborrowed : W := run unborrow.

Lemma destructor_ends_when_unborrowed_witness :
  destructors unborrowed !! 0 = Some Marked ∧ destructor_ends 0 unborrowed.
Proof.
  split; [vm_compute; reflexivity|]. refine (destructor_ends_when_unborrowed unborrowed 0 Marked _ _ _).
  - apply (careful_reach unborrow); vm_compute; reflexivity.
  - vm_compute. reflexivity.
  - intros o w. replace (weak unborrowed) with (∅ : gmap object WeakBorrowed) by (vm_compute; reflexivity).
    by rewrite lookup_empty.
Defined.

(** Object 1 and object 2 borrow, and 1 is assigned from 2. *)
Lemma assigned_borrower_blocks_owner_witness :
  ∃ x, heap (run (borrow_twice ++ [OpAssign 1 2 NoCallback; OpRelease 1; OpDestroy 1; OpDestroy 2; OpDestroy 0;
                    OpRunDestructor 0; OpRunDestructor 0])) !! 0 = Some x ∧ borrowers_ x ≠ ∅.
Proof.
  refine (assigned_borrower_blocks_owner (run borrow_twice) (run (borrow_twice ++ [OpAssign 1 2 NoCallback])) _ 1 2 NoCallback
            (mkWeak (Some 0) 1) 0 _ _ _ _ _ _).
  - apply (execs_reach borrow_twice). vm_compute. reflexivity.
  - vm_compute. reflexivity.
  - reflexivity.
  - done.
  - vm_compute. reflexivity.
  - apply (execs_reach [OpRelease 1; OpDestroy 1; OpDestroy 2; OpDestroy 0; OpRunDestructor 0; OpRunDestructor 0]).
    vm_compute. reflexivity.
Defined.

(** *** The publisher of a stream *)

Local Abbreviation S := (stream (F := string) (E := nat)).
Definition new_stream : S := match make_stream 0 1 with Ok s => s | Throw _ => mkStream init None None None ∅ [] end.
Definition run_stream (l : list (stream_op (F := string) (E := nat))) : S :=
  match run_ops l new_stream with Ok s => s | Throw _ => new_stream end.

Lemma run_ops_reach l s s' : run_ops l s = Ok s' → rtc (publisher_step (F := string) (E := nat)) s s'.
Proof.
  revert s. induction l as [|a l IH]; intros s; simpl; [intros [= <-]; constructor|].
  destruct (run_op a s) as [s1|] eqn:Ha; [|done]. simpl. intros Hs. eapply rtc_l; [by exists a|by apply IH].
Qed.

(** A thread borrows the publisher (object 2), publishes and releases it while the
    stream becomes a following one. *)
Definition hand_over : list (stream_op (F := string) (E := nat)) :=
  [DoBorrowPublisher 2; DoStartPublish 2; DoFinishPublish 2 7; DoBecome BecomingFollowing; DoRecreate 3 4;
   DoOutside (OpRelease 2); DoOutside (OpDestroy 2); DoRecreate 3 4; DoRecreate 3 4; DoRecreate 3 4; DoRecreate 3 4].

Lemma become_is_exclusive_witness :
  published (run_stream hand_over) = [7] ∧
  ∀ o w l, weak (objects (run_stream (hand_over ++ [DoRecreate 3 4]))) !! o = Some w → p_actual_instance_ w = Some l → o = 3 ∨ o = 4.
Proof.
  split; [vm_compute; reflexivity|].
  refine (proj1 (become_is_exclusive new_stream (run_stream hand_over) _ 0 1 3 4 BecomingFollowing _ _ _ _)).
  - vm_compute. reflexivity.
  - apply (run_ops_reach hand_over). vm_compute. reflexivity.
  - vm_compute. reflexivity.
  - vm_compute. reflexivity.
Defined.

(** The same, but the thread is inside [Publish] when the mutex is taken. *)
Definition deadlock : list (stream_op (F := string) (E := nat)) :=
  [DoBorrowPublisher 2; DoStartPublish 2; DoBecome BecomingFollowing].

Lemma handover_deadlocks_with_publish_witness :
  recreating (run_stream (deadlock ++ [DoRecreate 3 4; DoRecreate 3 4; DoRecreate 3 4; DoRecreate 3 4])) ≠ None.
Proof.
  refine (proj1 (handover_deadlocks_with_publish new_stream (run_stream deadlock) _ 0 1 2 _ _ _ _)).
  - vm_compute. reflexivity.
  - apply (run_ops_reach deadlock). vm_compute. reflexivity.
  - split; [by eexists ReleaseBorrowable, BecomingFollowing|]. split; [vm_compute; done|]. split; [vm_compute; reflexivity|].
    exists (mkWeak (Some 0) 2). split_and!; [vm_compute; reflexivity..|by eexists|done].
  - apply (run_ops_reach [DoRecreate 3 4; DoRecreate 3 4; DoRecreate 3 4; DoRecreate 3 4]). vm_compute. reflexivity.
Defined.

(** A thread waits for the value 2, which another thread sets. *)
Definition waits_for_two : BasicImpl nat := (Wait 7 (Nat.eqb 2) (mkBasic 1 ∅)).2.

Lemma waiting_never_misses_witness :
  data_condition_variable_ (SetValue 2 waits_for_two) !! 7 = Some (Woken (Nat.eqb 2)) ∧ (Wait 7 (Nat.eqb 2) (SetValue 2 waits_for_two)).1 = true.
Proof.
  split; [reflexivity|].
  apply (waiting_never_misses (DATA := nat) 1 (SetValue 2 waits_for_two) 7 (Woken (Nat.eqb 2))); [|reflexivity..].
  eapply rtc_l; [apply honest_waiting; [by apply (step_Wait 7 (Nat.eqb 2))|reflexivity]|].
  eapply rtc_l; [apply (honest_MutableUse unit (λ _ : nat, ((), 2)))|]. apply rtc_refl.
Defined.

(** A client registers, the destructor begins and counts itself off, and the client
    leaves: the destructor ends before the client notifies. *)
Definition client_registers : IntrusiveImpl nat := set_client 0 InScope (cv_notify_one (RegisterScopedClient 0 (IntrusiveImpl_new 5))).
Definition client_last : IntrusiveImpl nat :=
  final_check (set_client 0 Decreased (RefCounterDecrease (set_phase FinalCheck (cv_notify_one (set_phase SelfDecreased (RefCounterDecrease (begin_destruction client_registers))))))).

Lemma client_registers_reachable : reachable (begin_destruction client_registers).
Proof.
  exists 5. eapply rtc_l; [left; by apply (step_register 0)|]. eapply rtc_l; [left; by apply (step_registered 0)|].
  eapply rtc_l; [left; by apply step_destruct|]. apply rtc_refl.
Qed.

Lemma intrusive_destruction_witness : ∃ s', rtc intrusive_step (begin_destruction client_registers) s' ∧ phase s' = Destroyed.
Proof. apply (intrusive_destruction (begin_destruction client_registers)); [exact client_registers_reachable|done]. Defined.
End Witnesses.

(** ** Two races *)

(** The copied callback of a borrower can be called after the borrower is gone:
    the destructor copies the callbacks under the mutex and calls them after
    releasing it, so a [BorrowedWithCallback] object that is destroyed in between
    still has its callback (which may use it) called. *)
Theorem callback_called_after_release :
  let s := Witnesses.run (Witnesses.borrow_twice ++ [OpDestroy 0; OpRunDestructor 0; OpRelease 2; OpDestroy 2]) in
  weak s !! 2 = None ∧
  ∃ s1 s2, exec (OpRunDestructor 0) s = Ok s1 ∧ exec (OpRunDestructor 0) s1 = Ok s2 ∧
    (0, 2, UserCallback "stop"%string) ∈ called s2.
Proof.
  split; [vm_compute; reflexivity|].
  eexists _, _. split; [vm_compute; reflexivity|]. split; [vm_compute; reflexivity|]. simpl. set_solver.
Qed.

(** The condition variable can be notified after it is destroyed: the last
    borrower erases itself under the mutex and calls [notify_one] after releasing
    it; if the owner's destructor looks at the map in between, it ends and frees
    the instance the condition variable is part of. *)
Theorem notified_after_destruction :
  let s := Witnesses.run [OpMakeOwned 0 42; OpBorrow 1 0 NoCallback; OpDestroy 0; OpRunDestructor 0; OpRunDestructor 0;
                          OpRunDestructor 0; OpRelease 1; OpRunDestructor 0] in
  0 ∈ to_notify s ∧ exec (OpNotify 0) s = Throw (Undefined DanglingDereference).
Proof. split; [vm_compute; set_solver|vm_compute; reflexivity]. Qed.

(** A waiting function that changes the data does not notify: a thread that waits
    for what is then true stays blocked. *)
Theorem retval_predicate_loses_wakeup :
  let s := (Wait_retval 8 (Nat.eqb 1) (λ d, (d, 2)) Witnesses.waits_for_two).2 in
  data_ s = 2 ∧ data_condition_variable_ s !! 7 = Some (WaitableAtomic.Blocked (Nat.eqb 2)).
Proof. split; reflexivity. Qed.

(** The destructor of an intrusive object can end before the last client notifies
    [cv_], which [RefCounterDecrease] does after releasing the mutex. *)
Theorem client_notifies_destroyed : reachable Witnesses.client_last ∧ phase Witnesses.client_last = Destroyed ∧ clients Witnesses.client_last !! 0 = Some Decreased.
Proof.
  split; [|by split]. destruct Witnesses.client_registers_reachable as [data Hr]. exists data. etrans; [exact Hr|].
  eapply rtc_l; [left; by apply step_self_decrease|]. eapply rtc_l; [left; by apply step_self_notify|].
  eapply rtc_l; [left; by apply (step_client_leaves 0)|]. eapply rtc_l; [left; apply step_final_check; by left|]. apply rtc_refl.
Qed.

(** A client can be blocked in [WaitFor] during the destruction, although pending
    waits are meant to be aborted: it is notified, finds its predicate false, and
    blocks again. *)
Theorem wait_for_blocks_during_destruction :
  let s := (intrusive_WaitFor 0 (Nat.eqb 6) (λ d, (true, d)) (begin_destruction Witnesses.client_registers)).2 in
  reachable s ∧ phase s = Destructing ∧ clients s !! 0 = Some InScope ∧ data_condition_variable_ (base s) !! 0 = Some (WaitableAtomic.Blocked (Nat.eqb 6)).
Proof.
  split; [|by split_and!]. destruct Witnesses.client_registers_reachable as [data Hr]. exists data. etrans; [exact Hr|].
  eapply rtc_l; [left; apply (step_intrusive_WaitFor bool 0 (Nat.eqb 6)); [split; [by left|done]|done]|]. apply rtc_refl.
Qed.

(** A thread that waits and is not a client is woken by the destructor, which does
    not wait for it: when it returns from its wait the mutex is gone. *)
Theorem unregistered_waiter_outlives_object :
  let s := final_check (set_phase FinalCheck (cv_notify_one (set_phase SelfDecreased (RefCounterDecrease
             (begin_destruction (intrusive_Wait 0 (Nat.eqb 6) (IntrusiveImpl_new 5)).2))))) in
  reachable s ∧ phase s = Destroyed ∧ data_condition_variable_ (base s) !! 0 = Some (Woken (Nat.eqb 6)).
Proof.
  split; [|by split_and!]. exists 5. eapply rtc_l; [left; apply (step_intrusive_Wait 0 (Nat.eqb 6)); [split; [by right|done]|done]|].
  eapply rtc_l; [left; by apply step_destruct|]. eapply rtc_l; [left; by apply step_self_decrease|].
  eapply rtc_l; [left; by apply step_self_notify|]. eapply rtc_l; [left; apply step_final_check; by left|]. apply rtc_refl.
Qed.
