(* ===== verification/ReplicationProperties.v ===== *)
(** * What replication and the change of the master guarantee

    The theorems about stream/replicator.h, with the stream, the HTTP endpoint and
    the persisters it works with, each with a concrete run. *)

From Stdlib Require Import ZArith NArith Lia Ascii String Sorted.
From stdpp Require Import base gmap list strings relations.
From S2P Require Import Prelude Time Persistence MemoryPersister Decimal Codec Strings Stream PubSub RemoteStream Replicator Replication MasterFlip.
Open Scope Z_scope.
Import Replicator Replication.

(** A URL that parameters can be added to. *)
Definition url_base (url_ : bytes) : Prop := ("?"%char ∉ url_) ∧ ("#"%char ∉ url_).

Section Chunks.
Context {E S : Type} `{!LogCodec E, !TsCodec} (subscriber : @RemoteSubscriber E S).

(** How a response is cut into chunks does not matter: whatever the chunks, the
    subscriber is passed the lines of the whole text, in order, up to the first
    exception, and nothing of a line that is not complete. *)
Theorem chunking_does_not_matter RM chunks p :
  let '(p', _, ex) := pass_chunks subscriber RM chunks [] p in
  pass_lines subscriber RM (cut [] (concat chunks)).1 p = (p', ex).
Proof. apply pass_chunks_cut. constructor. Qed.
End Chunks.

Section Replication.
Context {P Q E CK : Type} `{!Clock CK, !LogCodec E, !TsCodec, !LogCodecSound E, !TsCodecSound E}.
Context `{!Persister P E, !PersisterSound P E}.
Context `{!Persister Q E, !PersisterSound Q E, !UnsafePersister Q E, !UnsafePersisterSound Q E}.
Context (url_ message : bytes) (RM : ReplicationMode) (ck : CK).
Implicit Types (l lq : log E) (s : @system P Q E CK).

(** What the system starts from: a replica of the master, possibly empty. *)
Definition starts_from (p : P) (q : Q) (from_us : microseconds) : Prop :=
  ∃ l lq, represents p l ∧ log_fits l ∧ log_head l < int64_max ∧ represents q lq ∧ replica_of l lq ∧
    (from_us = 0 ∨ from_us = log_head lq + 1).

Lemma started_inv p q c from_us u s :
  url_base url_ → starts_from p q from_us → rtc (step url_ message RM ck) (start p c q from_us u) s → system_inv s.
Proof.
  intros Hurl (l & lq & Hp & Hfit & Hmax & Hq & Hr & Hf). apply replication_reachable_inv; [done|]. by eapply start_system_inv.
Qed.

(** C13 A replica never diverges: whatever is published to the master meanwhile,
    however the response is cut into chunks and wherever connections break, the
    follower's log is a prefix of the master's with the same time stamps, everything
    the master publishes after it is later than the follower's head, and the
    follower expects the entry right after its last. *)
Theorem replica_never_diverges p q c from_us u s :
  url_base url_ → starts_from p q from_us → rtc (step url_ message RM ck) (start p c q from_us u) s →
  ∃ l lq, represents (master s) l ∧ represents (subscriber_ (base (follower s))) lq ∧
    log_entries lq `prefix_of` log_entries l ∧ log_head lq ≤ log_head l ∧
    Forall (λ x, log_head lq < x.1) (drop (length (log_entries lq)) (log_entries l)) ∧
    next_expected_index_ (base (follower s)) = log_size lq.
Proof.
  intros Hurl Hs Hr. destruct (started_inv p q c from_us u s Hurl Hs Hr) as (l & Hp & _ & _ & (lq & (Hq & _ & Hn & _) & _ & Hre) & _).
  destruct Hre as (Htake & Hsz & Hle & Hb). exists l, lq. split_and!; try done.
  - exists (drop (N.to_nat (log_size lq)) (log_entries l)). by rewrite Htake at 1; rewrite take_drop.
  - apply Forall_lookup. intros i [t e] Hi. rewrite lookup_drop in Hi. simpl. eapply Hb; [|exact Hi]. unfold log_size. lia.
Qed.

(** C35 Nothing is lost on the way: when the master's thread waits with nothing
    left to serve and everything it sent has arrived, the follower has every entry
    of the master. *)
Theorem replica_complete_when_quiet p q c from_us u s th :
  url_base url_ → starts_from p q from_us → rtc (step url_ message RM ck) (start p c q from_us u) s →
  connection s = Some (th, length (sent th)) → terminate_subscription_requested_ (follower s) = false →
  SubscriberThread.at_ th = SubscriberThread.AtWait →
  SubscriberThread.thread_step (PubSub.endpoint_subscriber json_ts_only message) Some (master s) false th = Ok th →
  ∃ l lq, represents (master s) l ∧ represents (subscriber_ (base (follower s))) lq ∧ log_entries lq = log_entries l.
Proof. intros Hurl Hs Hr. apply quiescent_complete. by eapply started_inv. Qed.

(** C36 A follower can always catch up: from every reachable state in which it is
    not connected and not being terminated, there is a run in which nothing is
    published, it connects, and it ends up with every entry of the master. *)
Theorem follower_can_catch_up p q c from_us u s :
  url_base url_ → starts_from p q from_us → rtc (step url_ message RM ck) (start p c q from_us u) s →
  at_phase (follower s) = AtTop → terminate_subscription_requested_ (follower s) = false →
  ∃ ops s', execs url_ message RM ck ops s = Ok s' ∧ master s' = master s ∧
    ∃ l lq, represents (master s) l ∧ represents (subscriber_ (base (follower s'))) lq ∧ log_entries lq = log_entries l.
Proof. intros Hurl Hs Hr. apply catch_up; [done|]. by eapply started_inv. Qed.

(** A follower that is up to date and connects to an idle master cannot stay
    connected: it asks for entries from an index on and no time stamp, is told the
    head, and takes the head it has already for an error.  It is back at the top of
    its loop with nothing changed, and connects again at once. *)
Theorem idle_master_is_reconnected_to_forever p q c from_us u s l lq :
  url_base url_ → starts_from p q from_us → rtc (step url_ message RM ck) (start p c q from_us u) s →
  at_phase (follower s) = AtTop → terminate_subscription_requested_ (follower s) = false →
  from_us_ (base (follower s)) = 0 →
  represents (master s) l → log_fits l → 0 ≤ log_head l < int64_max →
  in_step (base (follower s)) lq → replica_of l lq → log_size lq = log_size l → log_head lq = log_head l →
  ∃ n s', execs url_ message RM ck [Loop (Ok ()) 0; Serve; Serve; Serve; Deliver n] s = Ok s' ∧
    master s' = master s ∧ base (follower s') = base (follower s) ∧ at_phase (follower s') = AtTop ∧
    terminate_subscription_requested_ (follower s') = false.
Proof. intros Hurl Hs Hr. apply idle_reconnect; [done|]. by eapply started_inv. Qed.
End Replication.

Import MasterFlip.

Section Flip.
Context {P Q E CK : Type} `{!Clock CK, !LogCodec E, !TsCodec, !LogCodecSound E, !TsCodecSound E}.
Context `{!Persister P E, !PersisterSound P E, !UnsafePersister P E}.
Context `{!Persister Q E, !PersisterSound Q E, !UnsafePersister Q E, !UnsafePersisterSound Q E}.
Context (RM : ReplicationMode) (ck : CK).
Implicit Types (l lq : log E) (cm : @MasterFlipController P) (cf : @MasterFlipController Q).
Implicit Type flip_remote : N → P → P * option remote_exception.

(** C19 A flip moves the stream, all of it.  If the request of a follower whose
    stream is a replica is accepted, its key was the right one, the follower's stream
    becomes equal to the master's, whatever was published until the publisher was
    taken, the follower becomes the master and follows nobody, and the old master is
    not the master any more, has its publisher taken and notifies of the flip, with
    its stream, its key and limits as before.  If it is refused, the follower is as
    before, still following, and so is the master: exactly as before; or with
    only the delay for wrong keys changed, if the key was wrong; or with only
    notifications made, if it had to cancel the flip. *)
Theorem flip_moves_the_stream url_ before l0 l lq cm cf flip_remote key clock_ now later mode ts answer cm' :
  url_base url_ → represents before l0 → represents (stream_ cm) l → SubscriberThread.log_extends l0 l →
  log_fits l → log_head l < int64_max → represents (stream_ cf) lq → replica_of l0 lq → (key ≤ no_index)%N →
  mode = RemoteStream.Checked ∨ raw_lines_ok (stream_ cm) l →
  remote_follower_ cm = false → is_master cm = true → remote_follower_ cf = true → is_master cf = false →
  let r := RemoteStream.request_of (RemoteStream.GetFlipToMasterURL url_ (log_head_and_last lq) key clock_ mode) ts in
  MasterFlipRequest (E := E) before flip_remote now later r cm = (Ok answer, cm') →
  let '(result, cf') := FlipToMaster (E := E) ck RM answer cf in
  if bool_decide (answer.1 = OK)
  then result = Ok () ∧ represents (stream_ cf') l ∧
       cf' = mkController (stream_ cf') true (borrowed_publisher_ cf) (exposed_via_http_ cf) false (notifications cf) ∧
       cm' = mkController (stream_ cm) false true (exposed_via_http_ cm) false (notifications cm ++ [FlipStarted; FlipFinished]) ∧
       ∃ x, exposed_via_http_ cm = Some x ∧ key = flip_key_ x
  else result = Throw (Remote RemoteStreamRefusedFlipRequestException) ∧ cf' = cf ∧
       (cm' = cm ∨
        (∃ x, exposed_via_http_ cm = Some x ∧ key ≠ flip_key_ x ∧ cm' = set_exposed (Some (after_wrong_key later x)) cm) ∨
        cm' = mkController (stream_ cm) true (borrowed_publisher_ cm) (exposed_via_http_ cm) (remote_follower_ cm)
                (notifications cm ++ [FlipStarted; FlipCanceled])).
Proof.
  intros [Hq Hh] Hb Hm Hext Hfit Hmax Hf Hr0 Hkey Hmode Hnf Hmm Hff Hfm r Hreq.
  pose proof (represents_wf _ _ Hm) as Hw. pose proof (represents_wf _ _ Hf) as Hqw.
  assert (log_fits l0) as Hfit0 by (pose proof (SubscriberThread.extends_size _ _ Hext); unfold log_fits in *; lia).
  assert (log_head l0 < int64_max) as Hmax0 by (destruct Hext as (? & _ & _ & ?); lia).
  assert (replica_of l lq) as Hr by (by eapply replica_of_extends).
  assert (log_fits lq) as Hqfit by (destruct Hr as (_ & ? & _); unfold log_fits in *; lia).
  unfold FlipToMaster. rewrite Hfm, Hff, (HeadAndLast_law _ lq) by done. simpl negb. cbv iota.
  assert (answer.1 ≠ OK → FlipToMaster_remote (E := E) ck RM (log_head_and_last lq) answer (stream_ cf) =
    (stream_ cf, Some RemoteStreamRefusedFlipRequestException)) as Hrefused by (unfold FlipToMaster_remote; by destruct answer as [[] ?]).
  pose proof (replica_passes_checks url_ (conj Hq Hh) l0 lq before key clock_ mode ts) as Hpass. fold r in Hpass.
  destruct (flip_request_cases before flip_remote now later r cm answer cm' Hnf Hreq)
    as [[Hne Hsame]|(n & h & exposed & Hc & Hx & Hbp & _ & _ & Hv & ->)].
  { rewrite Hrefused, bool_decide_eq_false_2 by done. split; [done|]. split; [by destruct cf|].
    destruct Hsame as [->|(n & h & key' & x & Hc & Hx & Hk & ->)]; [by left|]. right. left. exists x.
    rewrite Hpass in Hc by done. injection Hc as _ _ <-. done. }
  rewrite Hpass in Hc by done. injection Hc as <- <- ->.
  case_bool_decide as Hok.
  2: { rewrite Hrefused by done. split; [done|]. split; [by destruct cf|]. right. right.
       destruct cm as [st ma bo ex re no]. simpl in *. subst. unfold notify, restore_master, grab_publisher. simpl. by rewrite <- app_assoc. }
  destruct answer as [code text]. simpl in Hok. subst code. apply (diff_sent _ _ _ _ _ l) in Hv as ->; [|done..| |by destruct Hr as (_ & ? & _)].
  - destruct (diff_applied RM ck l lq (stream_ cf)) as (q' & -> & Hq'); [done..|]. split_and!; try done; [|by exists exposed].
    destruct cm as [st ma bo ex re no]. simpl in *. subst. unfold notify, grab_publisher. simpl. by rewrite <- app_assoc.
  - destruct Hmode as [-> |?]; [left|by right]. by destruct (RemoteStream.flip_request url_ (log_head_and_last lq) (flip_key_ exposed) clock_ RemoteStream.Checked ts Hq Hh) as (_ & _ & _ & _ & ? & _).
Qed.

(** Only a request with the secret key, outside the time it is locked for and
    within the limits that were set, makes a master give up its stream; the limit on
    the number of entries is checked only for a follower that has entries. *)
Theorem flip_needs_key_and_limits before flip_remote now later r cm l text cm' :
  represents (stream_ cm) l → log_fits l → remote_follower_ cm = false →
  MasterFlipRequest (E := E) before flip_remote now later r cm = (Ok (OK, text), cm') →
  ∃ exposed next head, exposed_via_http_ cm = Some exposed ∧ borrowed_publisher_ cm = false ∧
    check_request (E := E) r before = Ok (inr (next, head, flip_key_ exposed)) ∧ block_flip_until_ exposed ≤ now ∧
    let limits := flip_restrictions_ exposed in
    (0 < max_clock_diff_ limits → Z.abs (int64 (Decimal.FromString_int64 (PubSub.get "clock" r) - now)) ≤ max_clock_diff_ limits) ∧
    (max_index_diff_ limits ≠ 0%N → next ≠ 0%N → (log_size l ≤ next + max_index_diff_ limits)%N) ∧
    (0 < max_head_diff_ limits → log_head l ≤ int64 (head + max_head_diff_ limits)).
Proof.
  intros Hm Hfit Hnf Hreq.
  destruct (flip_request_cases before flip_remote now later r cm _ cm' Hnf Hreq)
    as [[Hne _]|(n & h & exposed & Hc & Hx & Hb & Hblock & Hclock & Hv & _)]; [done|].
  exists exposed, n, h. destruct (diff_limits _ _ _ _ _ l text Hm Hfit Hv) as [Hi Hh].
  cbv zeta. split_and!; try done. intros Hpos. by destruct (Hclock Hpos).
Qed.

(** A wrong key locks the stream: the attempt is refused, the next one is not
    looked at before the delay is over, whatever its key, and the delay doubles. *)
Theorem wrong_key_locks_the_stream before flip_remote now later r cm n h key exposed :
  remote_follower_ cm = false → exposed_via_http_ cm = Some exposed → borrowed_publisher_ cm = false →
  check_request (E := E) r before = Ok (inr (n, h, key)) → key ≠ flip_key_ exposed →
  block_flip_until_ exposed ≤ now → max_clock_diff_ (flip_restrictions_ exposed) = 0 →
  let '(answer, cm') := MasterFlipRequest (E := E) before flip_remote now later r cm in
  answer = Ok (BadRequest, says "Wrong secret flip key.") ∧
  (∃ exposed', exposed_via_http_ cm' = Some exposed' ∧ flip_key_ exposed' = flip_key_ exposed ∧
     wrong_key_delay_ exposed' = int64 (wrong_key_delay_ exposed * 2)) ∧
  ∀ before' r' now' later', now' < int64 (later + wrong_key_delay_ exposed) →
    (MasterFlipRequest (E := E) before' flip_remote now' later' r' cm').2 = cm' ∧
    ∀ text, (MasterFlipRequest (E := E) before' flip_remote now' later' r' cm').1 ≠ Ok (OK, text).
Proof.
  intros Hnf Hx Hb Hc Hkey Hblock Hclock. unfold MasterFlipRequest at 1. rewrite Hc, Hx, Hb.
  destruct (Z.ltb_spec now (block_flip_until_ exposed)); [lia|]. rewrite Hclock. change (0 <? 0) with false. simpl andb. cbv iota.
  unfold authorize. rewrite Hnf. destruct (N.eqb_spec key (flip_key_ exposed)); [done|]. simpl negb. cbv iota.
  split; [done|]. split; [eexists; split_and!; [done|done|done]|]. intros before' r' now' later' Hlt.
  unfold MasterFlipRequest. destruct (check_request r' before') as [[a|[[n' h'] key']]|] eqn:Hc'; [| |done].
  { split; [done|]. intros text [= ->]. by apply check_request_refuses in Hc'. }
  simpl. rewrite Hb. by destruct (Z.ltb_spec now' (int64 (later + wrong_key_delay_ exposed))); [|lia].
Qed.

(** A stream is given up once: after a flip was accepted every other request is
    refused and changes nothing.  If the answer to the first one is lost, nobody is
    the master. *)
Theorem flip_happens_once before flip_remote now later r cm text cm' :
  remote_follower_ cm = false →
  MasterFlipRequest (E := E) before flip_remote now later r cm = (Ok (OK, text), cm') →
  is_master cm' = false ∧
  ∀ before' flip_remote' now' later' r',
    (MasterFlipRequest (E := E) before' flip_remote' now' later' r' cm').2 = cm' ∧
    ∀ text', (MasterFlipRequest (E := E) before' flip_remote' now' later' r' cm').1 ≠ Ok (OK, text').
Proof.
  intros Hnf Hreq. destruct (flip_request_cases before flip_remote now later r cm _ cm' Hnf Hreq)
    as [[Hne _]|(n & h & exposed & _ & Hx & _ & _ & _ & _ & ->)]; [done|]. simpl.
  split; [done|]. intros before' flip_remote' now' later' r'. unfold MasterFlipRequest.
  destruct (check_request r' before') as [[a|[[n' h'] key']]|] eqn:Hc'; [| |done].
  { split; [done|]. intros text' [= ->]. by apply check_request_refuses in Hc'. }
  simpl. by rewrite Hx.
Qed.
End Flip.

(** ** Concrete runs *)

Module Witnesses.
Local Abbreviation C := (Memory.Container nat).
Local Abbreviation CK := MockNow.MockNowImpl.
Local Abbreviation sys := (@system C C nat CK).

Definition url : bytes := str "http://localhost:8383/stream".
Definition message : bytes := str "bye".
Definition ck : CK := MockNow.mkMockNow 0 0.

Lemma url_fine : url_base url.
Proof. split; apply (bool_decide_eq_true_1 _); vm_compute; reflexivity. Qed.

Definition initial : sys := start Memory.init ck Memory.init 0 7.

Lemma initial_fine : starts_from (P := C) (Q := C) (E := nat) Memory.init Memory.init 0.
Proof.
  exists log_init, log_init. pose proof (Memory.repr_init (E := nat)) as Hinit.
  split; [exact Hinit|]. split; [done|]. split; [done|]. split; [exact Hinit|]. split; [|by left].
  by split_and!.
Qed.

Definition run (RM : ReplicationMode) (ops : list (op (E := nat))) : sys :=
  match execs url message RM ck ops initial with Ok s => s | Throw _ => initial end.

Lemma run_reach RM ops s : execs url message RM ck ops initial = Ok s → rtc (step url message RM ck) initial s.
Proof.
  generalize initial. induction ops as [|o ops IH]; intros s0; cbn [execs]; [intros [= <-]; constructor|].
  destruct (exec url message RM ck o s0) as [s1|] eqn:Ho; [|done]. cbn [mbind outcome_bind]. intros Hs.
  eapply rtc_l; [by exists o|by apply IH].
Qed.

(** Two entries; the first arrives in pieces, then the connection breaks. *)
Definition broken : list (op (E := nat)) :=
  [MasterPublish (At 100) 42%nat; MasterPublish (At 200) 43%nat; Loop (Ok ()) 0; Serve; Serve; Serve; Serve;
   Deliver 5; Deliver 40; Disconnect None].

(** It is made again, and everything arrives. *)
Definition caught_up : list (op (E := nat)) :=
  broken ++ [Loop (Ok ()) 0; Serve; Serve; Serve; Serve; Serve; Serve; Serve; Deliver 1000].

Lemma replica_never_diverges_witness :
  Memory.entries_ (subscriber_ (base (follower (run Checked broken)))) = [(100, 42%nat)] ∧
  ∃ l lq, represents (master (run Checked broken)) l ∧ represents (subscriber_ (base (follower (run Checked broken)))) lq ∧
    log_entries lq `prefix_of` log_entries l.
Proof.
  split; [vm_compute; reflexivity|].
  destruct (replica_never_diverges url message Checked ck Memory.init Memory.init ck 0 7 (run Checked broken))
    as (l & lq & Hl & Hlq & Hp & _).
  - exact url_fine.
  - exact initial_fine.
  - apply (run_reach Checked broken). vm_compute. reflexivity.
  - exists l, lq. auto.
Defined.

Definition waiting_thread : server_thread nat :=
  match connection (run Checked caught_up) with
  | Some (th, _) => th
  | None => SubscriberThread.start 0 0 (PubSub.make_endpoint (sub_params 0 0) 0 0)
  end.

Lemma replica_complete_when_quiet_witness :
  ∃ l lq, represents (master (run Checked caught_up)) l ∧
    represents (subscriber_ (base (follower (run Checked caught_up)))) lq ∧ log_entries lq = log_entries l.
Proof.
  refine (replica_complete_when_quiet url message Checked ck Memory.init Memory.init ck 0 7 (run Checked caught_up) waiting_thread
            url_fine initial_fine (run_reach Checked caught_up _ _) _ _ _ _); vm_compute; reflexivity.
Defined.

Lemma follower_can_catch_up_witness :
  ∃ ops s', execs url message Unchecked ck ops (run Unchecked broken) = Ok s' ∧ master s' = master (run Unchecked broken) ∧
    ∃ l lq, represents (master (run Unchecked broken)) l ∧ represents (subscriber_ (base (follower s'))) lq ∧
      log_entries lq = log_entries l.
Proof.
  refine (follower_can_catch_up url message Unchecked ck Memory.init Memory.init ck 0 7 (run Unchecked broken)
            url_fine initial_fine (run_reach Unchecked broken _ _) _ _); vm_compute; reflexivity.
Defined.

(** Everything has arrived, and then the connection breaks. *)
Definition up_to_date : sys := run Checked (caught_up ++ [Disconnect None]).

Definition two_entries : log nat := mkLog [(100, 42%nat); (200, 43%nat)] 200.

Lemma two_entries_held : represents (master up_to_date) two_entries ∧ represents (subscriber_ (base (follower up_to_date))) two_entries.
Proof.
  assert (log_wf two_entries) as Hw by (split_and!; repeat constructor; simpl; lia).
  split; (split; [vm_compute; reflexivity|exact Hw]).
Qed.

Lemma same_log_replica (l : log nat) : replica_of l l.
Proof.
  unfold replica_of, log_size. rewrite Nat2N.id, firstn_all. split_and!; [done..|]. split; [done|].
  intros j t e Hj He. apply lookup_lt_Some in He. lia.
Qed.

Lemma idle_master_is_reconnected_to_forever_witness :
  ∃ n s', execs url message Checked ck [Loop (Ok ()) 0; Serve; Serve; Serve; Deliver n] up_to_date = Ok s' ∧
    base (follower s') = base (follower up_to_date) ∧ at_phase (follower s') = AtTop.
Proof.
  destruct (idle_master_is_reconnected_to_forever url message Checked ck Memory.init Memory.init ck 0 7 up_to_date two_entries two_entries)
    as (n & s' & Hs & _ & Hb & Hp & _).
  - exact url_fine.
  - exact initial_fine.
  - apply (run_reach Checked (caught_up ++ [Disconnect None])). vm_compute. reflexivity.
  - vm_compute. reflexivity.
  - vm_compute. reflexivity.
  - vm_compute. reflexivity.
  - apply two_entries_held.
  - vm_compute. reflexivity.
  - vm_compute. split; [discriminate|reflexivity].
  - split; [apply two_entries_held|]. split; [vm_compute; reflexivity|]. split; [vm_compute; reflexivity|left; vm_compute; reflexivity].
  - apply same_log_replica.
  - reflexivity.
  - reflexivity.
  - exists n, s'. auto.
Defined.

(** A master with two entries, the second one published after the request was
    checked, and a follower with one. *)
Definition one : C := Memory.mkContainer [(100, 42%nat)] 100.
Definition two : C := Memory.mkContainer [(100, 42%nat); (200, 43%nat)] 300.

Definition exposed : ExposedStreamState := make_ExposedStreamState 1234567890123456789 (SetMaxIndexDifference 1 no_restrictions).
Definition old_master : @MasterFlipController C := mkController two true false (Some exposed) false [].
Definition new_master : @MasterFlipController C := mkController one false false None true [].

Definition flip_request (key : N) : PubSub.Request :=
  RemoteStream.request_of (RemoteStream.GetFlipToMasterURL url (log_head_and_last (Memory.as_log one)) key 5 RemoteStream.Checked) 0.

Definition no_remote (_ : N) (p : C) : C * option remote_exception := (p, None).

Definition flip (key : N) := MasterFlipRequest (E := nat) one no_remote 1000 1001 (flip_request key) old_master.

Definition accepted : response := match flip 1234567890123456789 with (Ok a, _) => a | _ => (BadRequest, []) end.
Definition given_up : @MasterFlipController C := (flip 1234567890123456789).2.

Lemma one_fine : represents one (Memory.as_log one).
Proof. split; [done|]. split_and!; repeat constructor; simpl; lia. Qed.
Lemma two_fine : represents two (Memory.as_log two).
Proof. split; [done|]. split_and!; repeat constructor; simpl; lia. Qed.
Lemma one_extends : SubscriberThread.log_extends (Memory.as_log one) (Memory.as_log two).
Proof. exists [(200, 43%nat)]. split_and!; [done| |simpl; lia]. repeat constructor; simpl; lia. Qed.

Lemma accepted_ok : flip 1234567890123456789 = (Ok accepted, given_up).
Proof. vm_compute. reflexivity. Qed.

Lemma flip_moves_the_stream_witness :
  let '(result, c) := FlipToMaster (E := nat) ck Checked accepted new_master in
  result = Ok () ∧ represents (stream_ c) (Memory.as_log two) ∧ is_master c = true.
Proof.
  pose proof (flip_moves_the_stream Checked ck url one (Memory.as_log one) (Memory.as_log two) (Memory.as_log one)
    old_master new_master no_remote 1234567890123456789 5 1000 1001 RemoteStream.Checked 0 accepted given_up
    url_fine one_fine two_fine one_extends eq_refl eq_refl one_fine (same_log_replica _) ltac:(done) (or_introl eq_refl)
    eq_refl eq_refl eq_refl eq_refl accepted_ok) as H.
  destruct (FlipToMaster ck Checked accepted new_master) as [result c].
  replace (bool_decide (accepted.1 = OK)) with true in H by (vm_compute; reflexivity).
  destruct H as (Hres & Hrep & -> & _). split; [exact Hres|]. split; [exact Hrep|reflexivity].
Defined.

Lemma flip_needs_key_and_limits_witness :
  ∃ text x next head, accepted = (OK, text) ∧ exposed_via_http_ old_master = Some x ∧
    check_request (E := nat) (flip_request 1234567890123456789) one = Ok (inr (next, head, flip_key_ x)).
Proof.
  destruct (flip_needs_key_and_limits (E := nat) one no_remote 1000 1001 (flip_request 1234567890123456789) old_master (Memory.as_log two)
    accepted.2 given_up two_fine eq_refl eq_refl) as (x & next & head & Hx & _ & Hc & _).
  - vm_compute. reflexivity.
  - exists accepted.2, x, next, head. split; [vm_compute; reflexivity|]. auto.
Defined.

Lemma wrong_key_checked : check_request (E := nat) (flip_request 7) one = Ok (inr (1%N, 100, 7%N)).
Proof. vm_compute. reflexivity. Qed.

Lemma wrong_key_locks_the_stream_witness :
  (flip 7).1 = Ok (BadRequest, says "Wrong secret flip key.") ∧
  (MasterFlipRequest (E := nat) one no_remote 2000 2001 (flip_request 1234567890123456789) (flip 7).2).2 = (flip 7).2.
Proof.
  pose proof (wrong_key_locks_the_stream one no_remote 1000 1001 (flip_request 7) old_master 1 100 7 exposed
    eq_refl eq_refl eq_refl wrong_key_checked ltac:(done) ltac:(vm_compute; discriminate) eq_refl) as H.
  change (MasterFlipRequest one no_remote 1000 1001 (flip_request 7) old_master) with (flip 7) in H.
  destruct (flip 7) as [a c]. destruct H as (Ha & _ & Hn). split; [exact Ha|]. apply Hn. vm_compute. reflexivity.
Defined.

Lemma flip_happens_once_witness :
  is_master given_up = false ∧
  (MasterFlipRequest (E := nat) one no_remote 9000 9001 (flip_request 1234567890123456789) given_up).2 = given_up.
Proof.
  destruct (flip_happens_once (E := nat) one no_remote 1000 1001 (flip_request 1234567890123456789) old_master accepted.2 given_up eq_refl)
    as [Hm Hn].
  - vm_compute. reflexivity.
  - split; [exact Hm|]. apply Hn.
Defined.
End Witnesses.
