(* ===== verification/HttpServerProperties.v ===== *)
(** * What the HTTP server and the HTTP client guarantee

    The theorems about bricks/net/http/ and blocks/http/, each with a concrete
    instance. *)

From Stdlib Require Import ZArith NArith Lia Ascii String.
From stdpp Require Import base sets gmap list strings.
From S2P Require Import Prelude Persistence Decimal Strings Url PubSub RemoteStream StdMap State Tcp GroupByLines HttpHeaders HttpMessage.
From S2P Require Import HttpParsing HttpConnection HttpRoundTrip HttpRoutes HttpServer HttpClient HttpExchange.
Open Scope nat_scope.

Import Http Tcp GroupByLines HttpHeaders HttpParsing HttpConnection HttpRoundTrip HttpRoutes HttpServer HttpClient HttpExchange.

(** ** Messages *)

(** C16 The parser of HTTP messages works on a buffer it fills, grows and shifts,
    with lines, chunks and bodies that arrive in pieces; whatever pieces the
    text of a message comes in, the result is that of the reference parser on
    the whole text: the same message, a lost connection exactly if the text is
    cut short, the same refusal with the same answer on the wire, and an
    exception that is not one of the library's for a negative chunk size. *)
Theorem http_parser_ignores_segmentation {H} `{Helper H} (scaled : nat → nat) (h : H) size c :
  (∀ n, scaled n ≤ 2 * n) → conn_ok c → 2 ≤ size → (Z.of_nat size <= 2 ^ 60)%Z →
  (Z.of_nat (length (concat (incoming c))) <= 2 ^ 60)%Z →
  ∃ res c', GenericHTTPRequestData scaled h size c = (res, c') ∧
    agrees (parse_text h (concat (incoming c))) (outgoing c) res c'.
Proof. intros Hs. by apply constructor_ok. Qed.

(** C14 One connection of the server, from the bytes that come in to the bytes that
    go out: whatever pieces the request comes in, the server writes what
    [serve_text] says of its text: the answer of the handler with the longest
    matching route, decided by the first call the handler makes, "500" if it
    makes none or throws first, "404" if there is no route, the refusal of a
    request that is malformed, and nothing for one that is cut short.  The
    thread of the server dies exactly on the requests [serve_text] has no answer
    for. *)
Theorem http_server_answers scaled size terminating now handlers c :
  (∀ n, scaled n ≤ 2 * n) → handlers_wf handlers → conn_ok c → (Z.of_nat (length (concat (incoming c))) <= 2 ^ 60)%Z →
  served_as (outgoing c) (serve_text terminating now handlers (concat (incoming c)))
    (serve_connection scaled size terminating now handlers c).
Proof. apply serve_connection_ok. Qed.

(** C15 A request and its answer: [HTTP(request)] against a server, through any
    segmentation of the answer, calls the handler of the longest matching route
    with the method, the path, the path arguments, the headers and the body of
    the request, and returns the code, the headers and the body the handler
    answered with. *)
Theorem http_exchange_roundtrip scaled net fuel r cl u u' p now handlers h args b code hs ct :
  (∀ n, scaled n ≤ 2 * n) → PrepareInput r = Ok cl → Url.make_URL (request_url_ cl) = Ok u → request_ok cl u u' →
  net 0 (Url.host u.1) (connect_port u) = Some p → serves_handlers now handlers p →
  FindHandler (Url.path u'.1) handlers = (Some h, args) →
  (∀ q, request_is cl u u' args now q → ∃ ops, h q = RespondWith b (Some code) (Some hs) (Some ct) :: ops) →
  answer_ok ConnectionClose code hs ct → ¬ (300 <= code <= 399)%Z →
  (Z.of_nat (length b) <= kMaxHTTPPayloadSizeInBytes)%Z → (Z.of_nat (length (response_text b code hs ct)) <= 2 ^ 60)%Z → ∃ hs',
  HTTP scaled net (S fuel) r = Ok (mkResponseWithBuffer (request_url_ cl) code hs' b) ∧ headers_wf hs' ∧
  entries hs' = receive_headers (response_headers ConnectionClose hs ct ++ [content_length b]).
Proof.
  intros Hs Hp Hu Hok Hn Hserves Hf Hh Ha Hr Hb Hlen.
  destruct (parse_answer b code hs ct (mkRedirectHelper (mkDefaultHelper no_headers []) []) Ha Hb) as (m & Hm & Hrec);
    [exact no_headers_wf|done|].
  eapply HTTP_ok; [exact Hp|exact Hu|exact Hn| |exact Hrec|apply Ha|exact Hr].
  eapply exchange_ok; [exact Hs|exact Hok|exact Hserves|exact Hf| |exact Hm|exact Hlen].
  intros q Hq. destruct (Hh q Hq) as [ops ->]. done.
Qed.

(** The same for an answer in chunks: the client receives the concatenation of
    the chunks that were sent, whatever chunks the handler sends and flushes, in
    whatever pieces they arrive. *)
Theorem http_chunked_roundtrip scaled net fuel r cl u u' p now handlers h args chunks code hs ct :
  (∀ n, scaled n ≤ 2 * n) → PrepareInput r = Ok cl → Url.make_URL (request_url_ cl) = Ok u → request_ok cl u u' →
  net 0 (Url.host u.1) (connect_port u) = Some p → serves_handlers now handlers p →
  FindHandler (Url.path u'.1) handlers = (Some h, args) →
  (∀ q, request_is cl u u' args now q → ∃ ops, h q = RespondChunked code hs ct chunks :: ops) →
  answer_ok ConnectionKeepAlive code hs ct → ¬ (300 <= code <= 399)%Z →
  Forall (λ d, (Z.of_nat (length d.1) < 2 ^ 31)%Z) chunks →
  (Z.of_nat (length (chunked_text code hs ct chunks)) <= 2 ^ 60)%Z → ∃ hs',
  HTTP scaled net (S fuel) r = Ok (mkResponseWithBuffer (request_url_ cl) code hs' (concat chunks.*1)) ∧ headers_wf hs' ∧
  entries hs' = receive_headers (response_headers ConnectionKeepAlive hs ct ++ [transfer_encoding]).
Proof.
  intros Hs Hp Hu Hok Hn Hserves Hf Hh Ha Hr Hch Hlen.
  destruct (parse_chunked_answer chunks code hs ct (mkRedirectHelper (mkDefaultHelper no_headers []) []) Ha Hch) as (m & Hm & Hrec);
    [exact no_headers_wf|done|done|].
  eapply HTTP_ok; [exact Hp|exact Hu|exact Hn| |exact Hrec|apply Ha|exact Hr].
  eapply exchange_ok; [exact Hs|exact Hok|exact Hserves|exact Hf| |exact Hm|exact Hlen].
  intros q Hq. destruct (Hh q Hq) as [ops ->]. done.
Qed.

(** ** Routes *)

(** C31 The handler of a path is that of the longest registered prefix whose other
    components are as many arguments as the handler takes; the arguments are
    the decoded components, the last one first, and trailing slashes do not
    matter. *)
Theorem longest_route_wins {F} (cs : list bytes) (slashes : nat) (hs : routes F) :
  Forall component cs → (cs = [] → 0 < slashes) → ∃ k, k ≤ length cs ∧
  let args := Url.DecodeURIComponent <$> rev (drop k cs) in
  FindHandler (path_of cs ++ replicate slashes "/"%char) hs =
    (handler_at (route_of (take k cs)) (length cs - k) hs, mkPathArgs (route_of (take k cs)) args) ∧
  (∀ k', k < k' ≤ length cs → handler_at (route_of (take k' cs)) (length cs - k') hs = None) ∧
  (handler_at (route_of (take k cs)) (length cs - k) hs = None → k = 0).
Proof.
  intros Hcs Hn. rewrite FindHandler_spec by done. pose proof (find_spec_result (rev cs) [] hs) as Hr.
  destruct (find_spec (rev cs) [] hs) as [h a]. rewrite length_rev, rev_involutive in Hr.
  destruct Hr as (k & Hk & Hb & Ha & -> & Hnone & Hlong). exists k. split; [done|].
  assert (args_ a = Url.DecodeURIComponent <$> rev (drop k cs)) as Hargs.
  { rewrite Ha. simpl. f_equal. rewrite <- (take_drop k cs) at 2. rewrite rev_app_distr.
    rewrite take_app_length'; [done|]. by rewrite length_rev, length_drop. }
  assert (length (args_ a) = length cs - k) as Hlen by (by rewrite Hargs, length_fmap, length_rev, length_drop).
  rewrite Hlen, Hb in *. split_and!; [by rewrite <- Hb, <- Hargs; destruct a|done|done].
Qed.

(** Static files leave no trace: when [ServeStaticFilesFrom] throws, for a file
    of an unknown type, a second index file or a route that is taken, the
    routes are what they were; when it does not, releasing the scope it returns
    succeeds and brings them back. *)
Theorem static_files_scope_restores o files hs : routes_wf hs →
  match ServeStaticFilesFrom o files hs with
  | (Throw _, hs') => hs' = hs
  | (Ok scope, hs') => ReleaseCaptured scope hs' = (Ok (), hs)
  end.
Proof.
  intros Hwf. unfold ServeStaticFilesFrom. destruct (ValidateRoute (route_prefix o)); [|done].
  pose proof (keeps_serve_files hs o files (mkScan hs []) (conj Hwf eq_refl)) as [_ Hk].
  destruct (serve_files o files (mkScan hs [])) as [[[]|e] s]; simpl in Hk; by rewrite Hk.
Qed.

(** Every file that is not hidden is served on its own route with the type of
    its extension: "GET" answers with its content, or with "404" after a
    trailing slash, and other methods with "405". *)
Theorem static_files_are_served o files hs scope hs' f (r : Request) :
  ServeStaticFilesFrom o files hs = (Ok scope, hs') → f ∈ files → visible o f = true → ∃ h,
  handler_at (route_for_file (route_for_directory o f) f) 0 hs' = Some h ∧
  h r = [if bool_decide (request_method r = str "GET") then
           if url_path_had_trailing_slash r
           then RespondWith DefaultNotFoundMessage (Some NotFound) (Some no_headers) (Some kDefaultHTMLContentType)
           else RespondWith (file_content f) (Some OK) (Some no_headers) (Some (GetFileMimeType (basename f) []))
         else RespondWith DefaultMethodNotAllowedMessage (Some MethodNotAllowed) (Some no_headers) (Some kDefaultHTMLContentType)].
Proof.
  unfold ServeStaticFilesFrom. destruct (ValidateRoute (route_prefix o)); [|done].
  destruct (serve_files o files (mkScan hs [])) as [[[]|e] s] eqn:E; [|done]. intros [= _ <-] Hf Hv.
  eexists. split; [exact (serve_files_ok _ _ _ _ _ Hf Hv E)|]. unfold serve_static, file_server. cbn [serves_directory content content_type].
  case_bool_decide; [|done]. by destruct (url_path_had_trailing_slash r).
Qed.

(** ** Headers *)

(** C32 Headers are a heap of objects, a map of owning pointers ordered by the
    canonical name, and a list of pointers in order.  After any sequence of
    [Set], [operator[]=], [Remove] under the spelling in use, [SetHeaderOrCookie]
    and copies, the three are consistent, iteration gives the list of names and
    values those calls describe (the name as first seen, values of [Set] joined
    by commas), and [Get] finds a header under any spelling. *)
Theorem headers_refine_list ops : ops_ok ops [] → ∃ hs,
  apply_ops ops no_headers = Ok hs ∧ headers_wf hs ∧ all_headers hs = Ok (foldl (λ l op, list_op op l) [] ops) ∧
  ∀ h, IsCookieHeader h = false → Get h hs =
    match lookup_entry h (foldl (λ l op, list_op op l) [] ops) with
    | Some (_, v) => Ok v
    | None => Throw (HeaderNotFoundException h)
    end.
Proof.
  intros Hok. destruct (apply_ops_ok ops no_headers no_headers_wf Hok) as (hs & E & Hwf & He). exists hs.
  replace (entries no_headers) with ([] : list (bytes * bytes)) in He by done. split_and!; [done|done| |].
  - by rewrite iterate_entries, He.
  - intros h Hc. by rewrite Get_ok, He.
Qed.

(** Removing a header under another spelling of its name destroys it but leaves
    a pointer to it in the list: the header is gone for [Has], and the next
    iteration, such as that which prints the headers, follows the pointer. *)
Theorem header_removed_under_other_spelling_dangles h n p hs :
  headers_wf hs → IsCookieHeader h = false → find h hs = Some (n, Some p) → n ≠ h → ∃ hs' f,
  Remove h hs = Ok hs' ∧ Has h hs' = Ok false ∧ all_headers hs' = Throw (HeaderFault f).
Proof. apply Remove_other_spelling. Qed.

(** Assigning headers to an object that already has one of them does the same. *)
Theorem header_assignment_dangles rhs hs k n p : headers_wf rhs → headers_wf hs → find k hs = Some (n, Some p) → is_Some (find k rhs) →
  ∃ hs' f, copy_assignment rhs hs = Ok hs' ∧ all_headers hs' = Throw (HeaderFault f).
Proof. apply copy_assignment_dangles. Qed.

(** ** The client *)

(** The client follows redirects until a URL repeats: if they lead to finitely
    many URLs, [Go] ends, with a response, an exception of the exchange, or
    [HTTPRedirectLoopException]. *)
Theorem client_redirects_end {H} `{Helper H} (location_of : H → bytes) (params : H) scaled net cl u urls :
  Url.make_URL (request_url_ cl) = Ok u → Url.ComposeURL u ∈ urls → redirects_within location_of params scaled net cl urls →
  Go location_of params scaled net (S (size urls)) cl ≠ Throw TooManyRedirects.
Proof.
  intros Hu Hin Hr. unfold Go. rewrite Hu. cbn [client_lift]. unfold mbind, outcome_bind.
  apply (go_loop_ends location_of params scaled net cl urls); [done|set_solver|done|].
  rewrite difference_empty_L. lia.
Qed.

(** Lines of a response in chunks: whatever chunks the text of a response comes
    in, the callback of [ChunkedGET::OnLine] is called with its lines, in order,
    the last one included if it is not empty, by the time the request object is
    gone. *)
Theorem chunked_lines_ignore_chunking {U} scaled net fuel cl url (f : bytes → U → U) (u : U) o :
  Go (H := list callback) (λ _, []) [] scaled net fuel cl = Ok o →
  Forall (λ c, nul ∉ c) (chunks_of (helper_state (http_request_ o))) →
  HTTP_chunked scaled net fuel cl (OnLine f (make_Chunked url), u) =
    (Ok (response_code_ o), foldl (λ u line, f line u) u (all_lines (concat (chunks_of (helper_state (http_request_ o)))))).
Proof.
  intros Hgo Hn. unfold HTTP_chunked. rewrite Hgo.
  change (OnLine f (make_Chunked url)) with (mkChunked url None None None [(f, make_Group)]). rewrite deliver_line.
  cbn [group_by_lines_]. f_equal. unfold destroy_groups. cbn [foldl fst snd]. rewrite <- surjective_pairing, group_ok by done.
  generalize (all_lines (concat (chunks_of (helper_state (http_request_ o))))). intros l. clear Hgo Hn.
  revert u. induction l as [|x l IH]; intros u; [done|]. simpl. unfold mbind, io_bind, pure_callback at 1. simpl. apply IH.
Qed.

(** Setting the callback for the end of a response drops the callbacks for its
    lines that were set before: none is ever called. *)
Theorem on_done_drops_line_callbacks {U} scaled net fuel cl url (f : bytes → U → U) (g : U → U) (u : U) :
  HTTP_chunked scaled net fuel cl (OnDone g (OnLine f (make_Chunked url), u)) =
  HTTP_chunked scaled net fuel cl (OnDone g (make_Chunked url, u)).
Proof. done. Qed.

(** ** Requests that break the server *)

(** A chunk size that does not fit in an [int] ends the server: [std::stoi] throws
    [std::out_of_range], which is none of the exceptions the thread catches,
    whatever the method, the path and the handlers, and in whatever pieces the
    request comes. *)
Theorem huge_chunk_size_ends_server scaled size now handlers c m path u digits rest :
  (∀ n, scaled n ≤ 2 * n) → handlers_wf handlers → conn_ok c → (Z.of_nat (length (concat (incoming c))) <= 2 ^ 60)%Z →
  word m → word path → in_line (m ++ " "%char :: path ++ " "%char :: str "HTTP/1.1") → Url.make_URL path = Ok u →
  in_line digits → digits ≠ [] → stoi_16 digits = OutOfRange →
  concat (incoming c) = (m ++ " "%char :: path ++ " "%char :: str "HTTP/1.1") ++ kCRLF ++
    header_line (str "Transfer-Encoding", str "chunked") ++ kCRLF ++ digits ++ kCRLF ++ rest →
  ∃ e, serve_connection scaled size false now handlers c = ServerDied e.
Proof.
  intros Hs Hh Hc Hl Hm Hp Hline Hu Hin Hne Hd Htext.
  pose proof (serve_connection_ok scaled size false now handlers c Hs Hh Hc Hl) as Hok.
  enough (serve_text false now handlers (concat (incoming c)) = None) as E.
  { rewrite E in Hok. destruct (serve_connection _ _ _ _ _ _) as [c'|e]; [done|by exists e]. }
  rewrite Htext. unfold serve_text.
  destruct (parse_chunked_request m path (digits ++ kCRLF ++ rest) u (mkDefaultHelper no_headers []) Hm Hp Hline Hu) as [h E]; [exact no_headers_wf|].
  unfold transfer_encoding in E. rewrite E. rewrite parse_line by done. unfold on_line. cbn [first_line_parsed receiving_body_in_chunks negb].
  destruct digits as [|x digits]; [done|]. unfold chunk_size. by rewrite Hd.
Qed.

Module Witnesses.

(** A decidable fact about concrete texts. *)
Ltac decided := apply (bool_decide_unpack _); vm_compute; exact I.

Definition double (n : nat) : nat := 2 * n.

Lemma double_ok n : double n ≤ 2 * n.
Proof. done. Qed.

(** A server with one route. *)
Definition hello : handler := λ _, [RespondWith (str "Hi") (Some OK) (Some no_headers) (Some (str "text/plain"))].
Definition hello_chunked : handler :=
  λ _, [RespondChunked OK no_headers (str "text/plain") [(str "Hi", NoFlush); ([], NoFlush); (str " there", Flush)]].
Definition at_x (h : handler) : routes handler := {[ str "/x" := {[ 0 := h ]} ]}.

Lemma at_x_wf h : handler_wf h → handlers_wf (at_x h).
Proof.
  intros Hh path i h'. unfold handler_at, at_x. destruct (decide (path = str "/x")) as [->|Hne].
  - rewrite lookup_singleton_eq. cbn. intros [_ <-]%lookup_singleton_Some. done.
  - by rewrite lookup_singleton_ne.
Qed.

Lemma hello_wf : handler_wf hello.
Proof. intros r. split; [|done]. apply Forall_cons; split; [exact no_headers_wf|by apply Forall_nil]. Qed.

Definition request_bytes : bytes := str "GET /x HTTP/1.1" ++ kCRLF ++ str "Host: localhost" ++ kCRLF ++ kCRLF.

(** The request, cut in the middle of its first line and of a line break. *)
Definition in_pieces : Connection :=
  mkConnection [take 6 request_bytes; take 10 (drop 6 request_bytes); drop 16 request_bytes] false false [] None.

Lemma in_pieces_ok : conn_ok in_pieces ∧ concat (incoming in_pieces) = request_bytes.
Proof. split; [|reflexivity]. split; [|reflexivity|reflexivity]. repeat (apply Forall_cons; split; [discriminate|]). by apply Forall_nil. Qed.

Lemma http_parser_ignores_segmentation_witness : ∃ m c,
  GenericHTTPRequestData double (mkDefaultHelper no_headers []) 8 in_pieces = (Ok m, c) ∧
  method m = str "GET" ∧ raw_path m = str "/x" ∧ outgoing c = [].
Proof.
  destruct in_pieces_ok as [Hc Ht].
  destruct (http_parser_ignores_segmentation double (mkDefaultHelper no_headers []) 8 in_pieces double_ok Hc) as (res & c & E & Hag).
  - lia.
  - lia.
  - rewrite Ht. vm_compute. discriminate.
  - rewrite Ht in Hag. rewrite E.
    assert (match parse_text (mkDefaultHelper no_headers []) request_bytes with
            | Parsed m => (method m, raw_path m) | _ => ([], []) end = (str "GET", str "/x")) as Hm by (vm_compute; reflexivity).
    destruct (parse_text _ _) as [m| | |r]; [|discriminate..]. destruct Hag as [-> Ho]. injection Hm as Hmm Hmp. exists m, c. split_and!; [reflexivity|exact Hmm|exact Hmp|exact Ho].
Defined.

Lemma http_server_answers_witness : ∃ c,
  serve_connection double 64 false 0 (at_x hello) in_pieces = Answered c ∧
  outgoing c = response_text (str "Hi") OK no_headers (str "text/plain").
Proof.
  destruct in_pieces_ok as [Hc Ht].
  pose proof (http_server_answers double 64 false 0 (at_x hello) in_pieces double_ok (at_x_wf _ hello_wf) Hc) as Hs.
  rewrite Ht in Hs. specialize (Hs ltac:(vm_compute; discriminate)).
  assert (serve_text false 0 (at_x hello) request_bytes = Some (response_text (str "Hi") OK no_headers (str "text/plain"))) as E
    by (vm_compute; reflexivity).
  rewrite E in Hs. destruct (serve_connection _ _ _ _ _ _) as [c|]; [|done]. by exists c.
Defined.

(** A peer that serves, one byte at a time. *)
Definition server_at (h : handler) : peer :=
  mkPeer None (λ text, match serve_text false 0 (at_x h) text with Some out => (λ c, [c]) <$> out | None => [] end) false false.

Lemma server_at_ok h : serves_handlers 0 (at_x h) (server_at h).
Proof.
  split; [done|done| |].
  - intros text. simpl. destruct (serve_text _ _ _ text); [|by apply Forall_nil]. apply Forall_fmap, Forall_true. done.
  - intros text out Hs. simpl. rewrite Hs. clear. induction out as [|c out IH]; [done|]. rewrite fmap_cons. simpl. by rewrite IH.
Qed.

Definition net_of (h : handler) : network := λ _ _ _, Some (server_at h).

Definition url_x : Url.URL := (Url.mkUrl (str "localhost") (str "/x") (str "http") 8080 [] [], Url.mkParameters [] ∅ []).
Definition parsed_x : Url.URL := (Url.mkUrl [] (str "/x") [] 0 [] [], Url.mkParameters [] ∅ []).
Definition get_x : request := GET (make_RequestBase (str "http://localhost:8080/x")).
Definition client_x : Client := mkClient (str "GET") (str "http://localhost:8080/x") [] [] [] no_headers false.

Lemma request_x_ok : request_ok client_x url_x parsed_x.
Proof.
  split; [split; [done|]|split; [done|]| |reflexivity|exact no_headers_wf| |vm_compute; discriminate].
  1-2: repeat (apply Forall_cons; split; [reflexivity|]); by apply Forall_nil.
  - split; decided.
  - apply Forall_cons; split; [|by apply Forall_nil]. split; [|by vm_compute].
    split; [done|decided|split; decided|split; decided|reflexivity].
Qed.

Lemma answer_x_ok connection_type : answer_ok connection_type OK no_headers (str "text/plain").
Proof.
  split; [done|exact no_headers_wf|].
  destruct connection_type; (apply Forall_cons; split; [|apply Forall_cons; split; [|by apply Forall_nil]]); (split; [|by vm_compute]);
    (split; [done|decided|split; decided|split; decided|reflexivity]).
Qed.

Lemma http_exchange_roundtrip_witness : ∃ hs,
  HTTP double (net_of hello) 1 get_x = Ok (mkResponseWithBuffer (str "http://localhost:8080/x") OK hs (str "Hi")).
Proof.
  destruct (http_exchange_roundtrip double (net_of hello) 0 get_x client_x url_x parsed_x (server_at hello) 0 (at_x hello) hello
    (mkPathArgs (str "/x") []) (str "Hi") OK no_headers (str "text/plain") double_ok) as (hs & E & _ & _);
    [reflexivity|vm_compute; reflexivity|exact request_x_ok|reflexivity|apply server_at_ok|vm_compute; reflexivity|..].
  - intros q _. by exists [].
  - apply answer_x_ok.
  - vm_compute. intros [H _]. by apply H.
  - vm_compute. discriminate.
  - vm_compute. discriminate.
  - by exists hs.
Defined.

Lemma http_chunked_roundtrip_witness : ∃ hs,
  HTTP double (net_of hello_chunked) 1 get_x = Ok (mkResponseWithBuffer (str "http://localhost:8080/x") OK hs (str "Hi there")).
Proof.
  destruct (http_chunked_roundtrip double (net_of hello_chunked) 0 get_x client_x url_x parsed_x (server_at hello_chunked) 0
    (at_x hello_chunked) hello_chunked (mkPathArgs (str "/x") []) [(str "Hi", NoFlush); ([], NoFlush); (str " there", Flush)]
    OK no_headers (str "text/plain") double_ok) as (hs & E & _ & _);
    [reflexivity|vm_compute; reflexivity|exact request_x_ok|reflexivity|apply server_at_ok|vm_compute; reflexivity|..].
  - intros q _. by exists [].
  - apply answer_x_ok.
  - vm_compute. intros [H _]. by apply H.
  - repeat (apply Forall_cons; split; [by vm_compute|]). by apply Forall_nil.
  - vm_compute. discriminate.
  - by exists hs.
Defined.

(** "/a/b/c" with the routes "/a" for two arguments, "/a" for none and "/a/b" for none. *)
Definition some_routes : routes nat :=
  <[ str "/a" := {[ 2 := 12; 0 := 10 ]} ]> {[ str "/a/b" := {[ 0 := 20 ]} ]}.

Lemma component_one c : c ≠ "/"%char → component [c].
Proof. intros Hc. split; [done|]. by rewrite list_elem_of_singleton. Qed.

Lemma longest_route_wins_witness :
  FindHandler (str "/a/b/c/") some_routes = (Some 12, mkPathArgs (str "/a") [str "c"; str "b"]) ∧
  ∃ k, k ≤ 3 ∧ FindHandler (str "/a/b/c/") some_routes =
    (handler_at (route_of (take k [str "a"; str "b"; str "c"])) (3 - k) some_routes,
     mkPathArgs (route_of (take k [str "a"; str "b"; str "c"])) (Url.DecodeURIComponent <$> rev (drop k [str "a"; str "b"; str "c"]))).
Proof.
  split; [vm_compute; reflexivity|].
  destruct (longest_route_wins [str "a"; str "b"; str "c"] 1 some_routes) as (k & Hk & E & _); [|done|by exists k].
  repeat (apply Forall_cons; split; [apply component_one; discriminate|]). by apply Forall_nil.
Defined.

(** A page and a picture below it, then a file of an unknown type. *)
Definition page : scanned_file := mkScanned [] (str "index.html") (str "<html>").
Definition picture : scanned_file := mkScanned [str "img"] (str "x.png") (str "...").
Definition unknown : scanned_file := mkScanned [] (str "x.unknown") [].
Definition site : ServeStaticFilesFromOptions := make_options (str "/") [] [str "index.html"].

Definition has_failed {A} (m : outcome route_exception A) : bool := match m with Throw _ => true | Ok _ => false end.

Lemma static_files_scope_restores_witness :
  has_failed (ServeStaticFilesFrom site [page; picture; unknown] ∅).1 = true ∧
  (ServeStaticFilesFrom site [page; picture; unknown] ∅).2 = ∅ ∧
  match ServeStaticFilesFrom site [page; picture] ∅ with
  | (Ok scope, hs) => length scope = 3 ∧ ReleaseCaptured scope hs = (Ok (), ∅)
  | _ => False
  end.
Proof.
  assert (routes_wf (∅ : routes handler)) as Hwf by (intros path m Hm; by rewrite lookup_empty in Hm).
  pose proof (static_files_scope_restores site [page; picture; unknown] ∅ Hwf) as H1.
  pose proof (static_files_scope_restores site [page; picture] ∅ Hwf) as H2.
  assert (has_failed (ServeStaticFilesFrom site [page; picture; unknown] ∅).1 = true) as E1 by (vm_compute; reflexivity).
  assert (match (ServeStaticFilesFrom site [page; picture] ∅).1 with Ok scope => length scope | _ => 0 end = 3) as E2 by (vm_compute; reflexivity).
  split; [exact E1|]. split.
  - destruct (ServeStaticFilesFrom site [page; picture; unknown] ∅) as [[scope|e] hs]; [discriminate|exact H1].
  - destruct (ServeStaticFilesFrom site [page; picture] ∅) as [[scope|e] hs]; [|discriminate]. split; [exact E2|exact H2].
Defined.

Definition a_request : Request :=
  mkRequest no_url false (mkPathArgs (str "/img/x.png") []) (str "GET") no_headers [] 0.

Lemma static_files_are_served_witness : ∃ h,
  handler_at (str "/img/x.png") 0 (ServeStaticFilesFrom site [page; picture] ∅).2 = Some h ∧
  h a_request = [RespondWith (str "...") (Some OK) (Some no_headers) (Some (str "image/png"))].
Proof.
  assert (has_failed (ServeStaticFilesFrom site [page; picture] ∅).1 = false) as E by (vm_compute; reflexivity).
  destruct (ServeStaticFilesFrom site [page; picture] ∅) as [[scope|e] hs] eqn:Eq; [|discriminate].
  destruct (static_files_are_served site [page; picture] ∅ scope hs picture a_request Eq) as (h & Hh & Hr).
  - apply list_elem_of_further, list_elem_of_here.
  - vm_compute. reflexivity.
  - exists h. split; [|exact Hr]. exact Hh.
Defined.

Definition header_calls : list header_op :=
  [OpSet (str "Foo") (str "a"); OpAssign (str "Bar") (str "b"); OpSet (str "FOO") (str "c"); OpCopy;
   OpHeaderOrCookie (str "Cookie") (str "x=y"); OpRemove (str "Bar")].

Lemma headers_refine_list_witness : ∃ hs,
  apply_ops header_calls no_headers = Ok hs ∧ all_headers hs = Ok [(str "Foo", str "a, c")] ∧
  Get (str "foo") hs = Ok (str "a, c").
Proof.
  destruct (headers_refine_list header_calls) as (hs & E & _ & Hall & Hget).
  - split; [split; [discriminate|reflexivity]|]. split; [reflexivity|]. split; [split; [discriminate|reflexivity]|].
    split; [exact I|]. split; [discriminate|]. split; [split; [reflexivity|]|exact I].
    intros n v Hl. vm_compute in Hl. injection Hl as Hn _. rewrite <- Hn. reflexivity.
  - exists hs. split; [exact E|]. split; [rewrite Hall; vm_compute; reflexivity|].
    rewrite (Hget (str "foo") eq_refl). vm_compute. reflexivity.
Defined.

(** [Set("Foo", "a")], then [Remove("FOO")]. *)
Lemma header_removed_under_other_spelling_dangles_witness : ∃ hs hs' f,
  Set_ (str "Foo") (str "a") no_headers = Ok hs ∧ Remove (str "FOO") hs = Ok hs' ∧
  Has (str "FOO") hs' = Ok false ∧ all_headers hs' = Throw (HeaderFault f).
Proof.
  destruct (Set_ok (str "Foo") (str "a") no_headers no_headers_wf) as (hs & E & Hwf & _); [reflexivity|discriminate|].
  destruct (header_removed_under_other_spelling_dangles (str "FOO") (str "Foo") 0 hs Hwf) as (hs' & f & H1 & H2 & H3).
  - reflexivity.
  - vm_compute in E. injection E as <-. vm_compute. reflexivity.
  - discriminate.
  - by exists hs, hs', f.
Defined.

(** A peer that redirects everything to the same URL. *)
Definition redirect_text : bytes :=
  str "HTTP/1.1 302 Found" ++ kCRLF ++ str "Location: http://localhost:8080/x" ++ kCRLF ++ str "Content-Length: 0" ++ kCRLF ++ kCRLF.
Definition redirecting : network := λ _ _ _, Some (mkPeer None (λ _, [redirect_text]) false false).
Definition redirected_client : Client := mkClient (str "GET") (str "http://localhost:8080/x") [] [] [] no_headers true.
Definition new_helper : HTTPRedirectHelper := mkRedirectHelper (mkDefaultHelper no_headers []) [].

Lemma redirecting_location u m :
  exchange new_helper double redirected_client u (mkPeer None (λ _, [redirect_text]) false false) = Ok m →
  location (helper_state m) = str "http://localhost:8080/x".
Proof.
  unfold exchange. cbn [takes resets interrupts replies]. rewrite write_request_ok by (exact no_headers_wf || reflexivity).
  set (c := set_incoming _ _). intros E.
  destruct (http_parser_ignores_segmentation double new_helper (16 * 1024 + 1) c double_ok) as (res & c' & E' & Hag).
  - split; [apply Forall_cons; split; [discriminate|by apply Forall_nil]|reflexivity|reflexivity].
  - lia.
  - lia.
  - vm_compute. discriminate.
  - change (concat (incoming c)) with redirect_text in Hag. rewrite E' in E. simpl in E. subst res.
    assert (match parse_text new_helper redirect_text with Parsed m => location (helper_state m) | _ => [] end =
      str "http://localhost:8080/x") as Hl by (vm_compute; reflexivity).
    destruct (parse_text new_helper redirect_text) as [m'| | |r].
    + destruct Hag as [[= ->] _]. exact Hl.
    + discriminate.
    + discriminate.
    + discriminate.
Qed.

Lemma client_redirects_end_witness :
  Go location new_helper double redirecting 2 redirected_client ≠ Throw TooManyRedirects.
Proof.
  assert (size ({[Url.ComposeURL url_x]} : gset bytes) = 1) as Hsize by apply size_singleton. rewrite <- Hsize.
  apply (client_redirects_end location new_helper double redirecting redirected_client url_x).
  - vm_compute. reflexivity.
  - apply elem_of_singleton. reflexivity.
  - intros n u p m target _ [= <-] Hm _ Ht. rewrite (redirecting_location _ _ Hm) in Ht.
    assert (Url.make_URL (str "http://localhost:8080/x") = Ok url_x) as E by (vm_compute; reflexivity).
    rewrite E in Ht. injection Ht as <-. apply elem_of_singleton. reflexivity.
Defined.

Definition two_chunks : handler :=
  λ _, [RespondChunked OK no_headers (str "text/plain") [(str "a" ++ newline :: str "b", Flush); (str "c" ++ newline :: str "d", Flush)]].

Definition add_line (line : bytes) (u : list bytes) : list bytes := u ++ [line].

Lemma chunked_lines_ignore_chunking_witness :
  HTTP_chunked double (net_of two_chunks) 1 client_x (OnLine add_line (make_Chunked (str "http://localhost:8080/x")), []) =
    (Ok OK, [str "a"; str "bc"; str "d"]).
Proof.
  assert (match Go (H := list callback) (λ _, []) [] double (net_of two_chunks) 1 client_x with
          | Ok o => Some (response_code_ o, chunks_of (helper_state (http_request_ o))) | Throw _ => None end =
          Some (OK, [str "a" ++ newline :: str "b"; str "c" ++ newline :: str "d"])) as E by (vm_compute; reflexivity).
  destruct (Go (H := list callback) (λ _, []) [] double (net_of two_chunks) 1 client_x) as [o|e] eqn:Hgo; [|discriminate].
  injection E as Hcode Hchunks.
  rewrite (chunked_lines_ignore_chunking double (net_of two_chunks) 1 client_x (str "http://localhost:8080/x") add_line [] o Hgo).
  - rewrite Hcode, Hchunks. vm_compute. reflexivity.
  - rewrite Hchunks. repeat (apply Forall_cons; split; [decided|]). by apply Forall_nil.
Defined.

Definition huge_request : Connection :=
  mkConnection [str "POST / HTTP/1.1" ++ kCRLF ++ str "Transfer-Enc"; str "oding: chunked" ++ kCRLF ++ kCRLF ++ str "FFFFFFFF" ++ kCRLF]
    false false [] None.

Lemma huge_chunk_size_ends_server_witness : ∃ e, serve_connection double 64 false 0 (at_x hello) huge_request = ServerDied e.
Proof.
  apply (huge_chunk_size_ends_server double 64 0 (at_x hello) huge_request (str "POST") (str "/")
    (Url.mkUrl [] (str "/") [] 0 [] [], Url.mkParameters [] ∅ []) (str "FFFFFFFF") [] double_ok (at_x_wf _ hello_wf)).
  - split; [|reflexivity|reflexivity]. repeat (apply Forall_cons; split; [discriminate|]). by apply Forall_nil.
  - vm_compute. discriminate.
  - split; [discriminate|]. repeat (apply Forall_cons; split; [reflexivity|]). by apply Forall_nil.
  - split; [discriminate|]. repeat (apply Forall_cons; split; [reflexivity|]). by apply Forall_nil.
  - split; decided.
  - vm_compute. reflexivity.
  - split; decided.
  - discriminate.
  - vm_compute. reflexivity.
  - vm_compute. reflexivity.
Defined.
End Witnesses.
