(* ===== verification/RestProperties.v ===== *)
(** * What the RESTful interface of a storage guarantees

    The theorems about storage/api.h and storage/rest/*.h, each with a concrete
    instance.  They are corollaries of the lemmas of RestSound.v, RestRequests.v,
    RestRoutes.v and RestPages.v. *)

From Stdlib Require Import ZArith NArith Lia Ascii String Sorted.
From stdpp Require Import base gmap list strings.
From S2P Require Import Prelude Time Journal Dictionary Persistence MemoryPersister Decimal Transaction Strings Url PubSub RemoteStream StdMap State Tcp HttpDate.
From S2P Require Import HttpHeaders HttpMessage HttpParsing HttpRoutes HttpServer RestTypes RestKeys RestPlain RestStructured RestApi.
From S2P Require Import HttpConnection HttpRoundTrip HttpClient HttpExchange RestSound RestRequests RestRoutes RestPages RestOverHttp.
Open Scope Z_scope.

Import Http HttpRoutes HttpServer HttpClient HttpExchange RestTypes RestKeys RestPlain RestStructured RestApi RestSound RestRequests RestRoutes RestPages RestOverHttp.

(** ** Requests *)

Section Requests.
Context {C E RB M U K T B : Type} `{Countable K}.
Context `{JFS : JournaledFieldSound C E RB M, RF : !RestField C M K T, RFS : !RestFieldSound C E RB M K T}.
Context `{FT : !FieldTypeDependent U K, RJ : !RestJSON K T B}.
Context {CK : Type} `{!Clock CK, !StrictClock CK}.
Context {P EN : Type} `{PS : PersisterSound P EN}.
Context (of_transaction : Transaction E → EN) (as_transaction : EN → option (Transaction E)).
Context (as_of : ∀ t, as_transaction (of_transaction t) = Some t).
Context (init : C).
Context (InitializeOwnKey : option (T → T)) (impl : RestImpl C M U K T) `{RIS : !RestImplSound InitializeOwnKey impl} (g : GenericInput).

Local Abbreviation storage := (@Storage C E RB CK P).
Local Abbreviation handle := (generic_data_handler of_transaction impl g).
Local Abbreviation serving := (serving as_transaction init).
Local Abbreviation op_of := (op_of InitializeOwnKey impl).
Implicit Types (s : storage) (l : log EN) (r : Request).

(** C2 Requests to a field are operations on a map of resources.  Whatever
    requests a master is sent, every one is handled, and after them the entries
    of the field and the times of their last changes are those of the abstract
    map after the operations that the requests stand for, each at a time of its
    own, in order; each of them is answered with the code of its operation.  What
    was changed is in the stream, from which it can be replayed. *)
Theorem rest_requests_refine_resources (rs : list Request) s l : serving s l (N.of_nat (length rs)) → ∃ s' l' opss ts,
  run_requests of_transaction impl g rs s = Ok (s', opss) ∧ storage_inv as_transaction init s' l' ∧
  resources_of s' = resources_after InitializeOwnKey impl rs ts (resources_of s) ∧
  Forall2 answered_with opss (codes_after InitializeOwnKey impl rs ts (resources_of s)) ∧
  length ts = length rs ∧ StronglySorted Z.le ts ∧ Forall (λ t, ck_low (clock s) ≤ t) ts.
Proof.
  intros Hs. destruct (run_requests_ok of_transaction as_transaction as_of init InitializeOwnKey impl g rs s l Hs)
    as (s' & l' & opss & ts & E1 & (Hinv & _) & Hcodes & _ & Hlen & Hsort & Hts & _ & Hres).
  exists s', l', opss, ts. split_and!; try done. eapply Forall_impl; [exact Hts|]. simpl. lia.
Qed.



(** C3 From the client to the storage and back.  A client that sends a PUT over
    HTTP to the URL of a resource, on a server that serves a storage that is a
    master, receives 201 or 200, and the entry is in the field; whoever then
    sends a GET for it receives 200 and the entry.  Between them are the text of
    the requests and of the answers in whatever pieces the network makes of them,
    the routes of the server, and a transaction. *)
Theorem rest_put_get_over_http scaled net fuel put get cl cl' u u' w w' args args' now now' hs live s l n since k e ctx key :
  (∀ n, (scaled n ≤ 2 * n)%nat) → serving s l (n + 1) →
  leads_to_field of_transaction impl g hs put cl u u' args → served_at net u now live s hs →
  (∀ q, request_is cl u u' args now q → op_of q = Some (since, Put k e)) →
  ExtractOrComposeKey e = k → modified_since since (field_times (fields_ s) !! k) = None →
  leads_to_field of_transaction impl g hs get cl' w w' args' →
  (∀ q, request_is cl' w w' args' now' q → is_method "GET" q = true ∧ GET_Enter impl q = Next (ctx, Some key) ∧ export_params q = None) →
  ParseURLKey key = k → ∃ q s' l' a, request_is cl u u' args now q ∧ handle q s = Ok (s', [RespondResponse a]) ∧ serving s' l' n ∧
  field_view (fields_ s') = <[k := e]> (field_view (fields_ s)) ∧
  (fits a → ∃ h, HTTP scaled net (S fuel) put = Ok (mkResponseWithBuffer (request_url_ cl)
     (match field_view (fields_ s) !! k with Some _ => OK | None => Created end) h (response_body a))) ∧
  (∀ net', served_at net' w now' live s' hs → ∃ q' a', request_is cl' w w' args' now' q' ∧ handle q' s' = Ok (s', [RespondResponse a']) ∧
     (fits a' → ∃ h, HTTP scaled net' (S fuel) get = Ok (mkResponseWithBuffer (request_url_ cl') OK h (shown InitializeOwnKey ctx g key e)))).
Proof.
  intros Hsc Hs Hput Hserved Hop He Hsince Hget Henter Hkey.
  destruct (answered_over_http of_transaction impl g scaled Hsc net fuel put cl u u' now hs live args s Hput Hserved) as (q & Hq & Hhttp).
  destruct (put_stores of_transaction as_transaction as_of init InitializeOwnKey impl g q s l n since k e Hs (Hop q Hq) He Hsince)
    as (s' & l' & a & E1 & Hs' & Ha & Hv). exists q, s', l', a. split_and!; try done.
  - intros Hfits. apply (Hhttp s' a _ E1 Ha); [|done]. destruct (field_view (fields_ s) !! k); by split; [|intros [??]].
  - intros net' Hserved'.
    destruct (answered_over_http of_transaction impl g scaled Hsc net' fuel get cl' w w' now' hs live args' s' Hget Hserved') as (q' & Hq' & Hhttp').
    destruct (Henter q' Hq') as (Hm & Hge & Hx). pose proof Hs' as (Hinv' & _ & Hd' & _).
    destruct (get_answers of_transaction as_transaction init InitializeOwnKey impl g q' s' l' ctx key Hinv' Hd' Hm Hge Hx) as (a' & E2 & _ & Hok).
    rewrite Hkey, Hv, lookup_insert_eq in Hok. destruct Hok as [Hok Hbody]. exists q', a'. split_and!; [done|done|].
    rewrite <- Hbody. intros Hfits. apply (Hhttp' s' a' _ E2 Hok); [|done]. by split; [|intros [??]].
Qed.

(** A follower answers requests to read, and refuses all others. *)
Theorem rest_follower_refuses r s : publisher_used_ s = false → is_method "GET" r = false → ∃ answer,
  handle r s = Ok (s, [RespondResponse answer]) ∧ answer_ok MethodNotAllowed answer.
Proof.
  intros Hp Hg. rewrite follower_refuses by done. eexists. split; [done|]. apply (method_sound InitializeOwnKey).
Qed.
End Requests.

(** ** Conditions *)

Section Conditions.
Context {C E RB M U K T B : Type} `{Countable K}.
Context `{JF : !JournaledField C E RB, FC : !FieldCalls C E RB M, RF : !RestField C M K T, RFS : !RestFieldSound C E RB M K T}.
Context `{FT : !FieldTypeDependent U K, RJ : !RestJSON K T B}.
Context (hasher : K → Z) (fmt : Formatter T) `{!FormatterSound fmt}.

(** [r] carries the header [name] with the value of [header] in the answer [resp]. *)
Definition echoes (name header : bytes) (resp : Response) (r : Request) : Prop :=
  ∃ n n' v, HttpHeaders.lookup_entry header (HttpHeaders.entries (response_headers_ resp)) = Some (n, v) ∧
    HttpHeaders.lookup_entry name (HttpHeaders.entries (request_headers r)) = Some (n', v).

(** The time of the last change of a resource, as GET answers it, is a
    condition for the next request.  Sent back as X-Current-If-Unmodified-Since,
    it lets the request through if and only if the resource was not changed;
    the date of Last-Modified, sent back as If-Unmodified-Since, if and only if it
    was not changed in a later second. *)
Theorem rest_last_modified_is_condition ctx g u master c e lm : fld_wf c → field_view c !! ParseURLKey u = Some e →
  field_times c !! ParseURLKey u = Some lm → 0 < lm → lm * 1000 ≤ int64_max → ∃ resp,
  Structured_GET_Run hasher fmt ctx (mkGETInput g (Some u) master None) c = Returned resp ∧
  ∀ r, HttpHeaders.headers_wf (request_headers r) →
    (echoes kCurrentIfUnmodifiedSinceHeader kCurrentLastModifiedHeader resp r → ∃ since,
       ExtractIfUnmodifiedSinceOrRespondWithError (RestJSON0 := RJ) r = Next (Some since) ∧
       ∀ lm', lm ≤ lm' → (modified_since (Some since) (Some lm') = None ↔ lm' = lm)) ∧
    (HttpHeaders.lookup_entry kCurrentIfUnmodifiedSinceHeader (HttpHeaders.entries (request_headers r)) = None →
     echoes kIfUnmodifiedSinceHeader kLastModifiedHeader resp r → ∃ since,
       ExtractIfUnmodifiedSinceOrRespondWithError (RestJSON0 := RJ) r = Next (Some since) ∧
       ∀ lm', lm ≤ lm' → (modified_since (Some since) (Some lm') = None ↔ lm' / HttpDate.million = lm / HttpDate.million)).
Proof.
  intros Hw Hv Hlm H0 Hmax. destruct (structured_get hasher fmt ctx g u master c Hw) as (resp & Hrun & Hresp). rewrite Hv, Hlm in Hresp.
  destruct Hresp as (_ & _ & Hh). exists resp. split; [done|]. intros r Hwf.
  unfold echoes, ExtractIfUnmodifiedSinceOrRespondWithError. rewrite Hh. split.
  - intros (n & n' & v & [= <- <-] & Hr). rewrite HttpHeaders.Has_ok, HttpHeaders.Get_ok, Hr by done.
    rewrite RemoteStream.int64_roundtrip by (unfold int64_max, int64_min in *; lia). destruct (Z.ltb_spec 0 lm); [|lia]. exists lm. split; [done|].
    intros lm' Hle. simpl. destruct (Z.ltb_spec lm lm'); split; (done || lia).
  - intros Hno (n & n' & v & [= <- <-] & Hr). rewrite !HttpHeaders.Has_ok, Hno, Hr, HttpHeaders.Get_ok, Hr by done.
    rewrite HttpDate.ParseHTTPDate_imf by lia. eexists. split; [done|]. intros lm' Hle. simpl. unfold HttpDate.million.
    destruct (Z.ltb_spec (lm - lm mod 1000000 + (1000000 - 1)) lm'); split; (done || (Z.div_mod_to_equations; lia)).
Qed.
End Conditions.

(** ** Routes *)

Section Routes.
Context {C E RB M CK P EN : Type}.
Context `{!JournaledField C E RB, !FieldCalls C E RB M, !Clock CK, !Persister P EN}.
Context (of_transaction : Transaction E → EN) (JSON_generic : RESTGenericResponse → bytes) (error : bytes → bytes → Response).
Local Abbreviation rest_handler := (@rest_handler C E RB M CK P).
Local Abbreviation RESTfulRoute := (@RESTfulRoute C E RB M CK P).
Local Abbreviation registration := (@registration C E RB M CK P).

(** C18 The life of the routes of a storage.  If the constructor throws, the routes
    of the server are what they were before.  If it does not, every route of
    every field is served by its handler, without replacing any other; then,
    after any calls that succeed, the endpoints can be switched to 503, which
    concerns the routes of the object only, and before or after that the
    destructor leaves exactly the routes that were there before the constructor. *)
Theorem rest_routes_lifecycle (route_prefix prefix : bytes) (fields : list (bytes * list RESTfulRoute)) (top : list (bytes * rest_handler))
    (hs : routes rest_handler) : routes_wf hs → fields_ok fields →
  match make_RESTfulStorage of_transaction JSON_generic error route_prefix prefix fields top hs with
  | (Throw _, hs') => hs' = hs
  | (Ok d, hs') =>
      (∀ name route i, (name, route) ∈ all_handlers of_transaction JSON_generic error prefix fields → i ∈ all_counts →
         has_count (resource_args_mask route) i = true → handler_at (route_path route_prefix name route) i hs' = Some (route_handler route)) ∧
      ∀ calls x, run_calls calls (mkRegistration d hs') = (Ok (), x) →
        destroy_RESTfulStorage (data_ x) (server x) = (Ok (), hs) ∧
        ∃ x', SwitchHTTPEndpointsTo503s x = (Ok (), x') ∧ destroy_RESTfulStorage (data_ x') (server x') = (Ok (), hs) ∧
          ∀ path i, handler_at path i (server x') =
            if existsb (λ e, owns e path i) (handler_routes_ (data_ x)) then Some Serve503 else handler_at path i (server x)
  end.
Proof.
  intros Hwf Hf. pose proof (constructor_inv of_transaction JSON_generic error route_prefix prefix fields top hs Hwf Hf) as Hc.
  destruct (make_RESTfulStorage _ _ _ _ _ _ _ hs) as [[d|e] hs']; [|done]. destruct Hc as (Hinv & _ & Hserved). split; [done|].
  intros calls x Hx. apply (run_calls_inv hs) in Hx; [|done]. split; [apply scope_release, Hx|].
  destruct (switch_inv hs x Hx) as (x' & E' & [Hs' _] & _ & _ & Hat). exists x'. split; [done|]. split; [by apply scope_release|done].
Qed.

(** An alias for a path that another one has registered is refused, but the
    object remembers the path all the same: switching its own endpoints to 503
    then takes the route away from the other. *)
Theorem rest_failed_alias_switches_other_route (hs0 : routes rest_handler) target alias_name (route : RESTfulRoute) rest x : reg_inv hs0 x →
  equal_range target (handlers_ (data_ x)) = route :: rest →
  ValidateRoute (route_path (route_prefix_ (data_ x)) alias_name route) = Ok () →
  taken (route_path (route_prefix_ (data_ x)) alias_name route) (resource_args_mask route) (server x) → ∃ e x1 x2,
  RegisterAlias target alias_name x = (Throw e, x1) ∧ server x1 = server x ∧ SwitchHTTPEndpointsTo503s x1 = (Ok (), x2) ∧
  ∀ i, i ∈ all_counts → has_count (resource_args_mask route) i = true →
    handler_at (route_path (route_prefix_ (data_ x)) alias_name route) i (server x2) = Some Serve503.
Proof. apply failed_alias_remembered. Qed.
End Routes.

(** ** Collections *)

(** C33 The pages of a collection.  A client that asks for the first [n] entries and
    follows the links to the next page, parsing each URL it is given, is done
    after at most as many links as there are entries; every page but the only one
    holds [n] entries, and every entry is on one of them. *)
Theorem rest_pages_cover_collection {A D} max_records pagination_url collection_url (show : A → D) (r : Request) (span : list (bytes * A)) n :
  plain_url pagination_url → query_i (hypermedia_context r) = 0%N → query_n (hypermedia_context r) = n →
  (0 < n ≤ max_records)%N → (N.of_nat (length span) + 2 * n < 2 ^ 64)%N → ∃ os,
  walk max_records pagination_url collection_url show (length span) r span = Some os ∧
  Forall (λ o, collection_total o = N.of_nat (length span) ∧ length (collection_data o) = Nat.min (N.to_nat n) (length span) ∧
               collection_data o = record_of collection_url show <$> take (N.to_nat n) (drop (N.to_nat (collection_i o)) span)) os ∧
  ∀ x, x ∈ span → ∃ o, o ∈ os ∧ record_of collection_url show x ∈ collection_data o.
Proof.
  intros Hurl Hi Hn [H0 Hmax] Ht.
  destruct (walk_ok max_records pagination_url collection_url show n span Hurl H0 Hmax Ht (length span) 0%N r Hi Hn) as (os & E1 & Hf & Hfull & Hcov); [lia|lia|].
  exists os. split_and!; [done| |].
  - apply Forall_forall. intros o Ho. rewrite Forall_forall in Hf, Hfull. destruct (Hf o Ho) as (Htot & Hd & Hlen).
    split_and!; [done| |done]. rewrite Hd, length_fmap, length_take, length_drop. destruct (Hfull o Ho) as [->|]; lia.
  - intros x [p Hp]%list_elem_of_lookup. destruct (Hcov p x) as (o & ? & ?); [lia|done|]. by exists o.
Qed.

(** With pages of no entries there is no end: the link to the next page leads to
    the same one. *)
Theorem rest_empty_pages_never_end {A D} max_records pagination_url collection_url (show : A → D) (r : Request) (span : list (bytes * A)) fuel :
  plain_url pagination_url → query_i (hypermedia_context r) = 0%N → query_n (hypermedia_context r) = 0%N →
  (0 < N.of_nat (length span) < 2 ^ 64)%N → walk max_records pagination_url collection_url show fuel r span = None.
Proof.
  intros Hurl. revert r. induction fuel as [|fuel IH]; intros r Hi Hn Ht; cbn [walk];
    destruct (hypermedia_context r) as [b i n] eqn:Hr; simpl in Hi, Hn; subst i n;
    destruct (page_shows max_records pagination_url collection_url show b 0 0 span) as (o & -> & _ & _ & ->); [lia|lia|lia| |lia|lia|lia|];
    (destruct (N.ltb_spec (0 + 0) (N.of_nat (length span))); [|lia]); [done|].
  rewrite IH; [done|..|done]; rewrite follow_page_link by (done || lia); simpl; lia.
Qed.

Section Exports.
Context {C E RB M K T B : Type} `{Countable K}.
Context `{JF : !JournaledField C E RB, FC : !FieldCalls C E RB M, RF : !RestField C M K T, RFS : !RestFieldSound C E RB M K T}.
Context `{RJ : !RestJSON K T B} (hasher : K → Z).

(** The export of a field in [m] shards: each shard is a JSON array, with the
    entries separated by commas and the time of the last change of each, and the
    shards from 0 to [m - 1] together have every entry exactly once. *)
Theorem rest_export_shards_partition (c : C) (m : Z) : fld_wf c → 1 < m → ∃ parts : list (list (K * T)),
  concat parts ≡ₚ map_to_list (field_view c) ∧ length parts = Z.to_nat m ∧
  ∀ s part, parts !! s = Some part → export_text hasher (mkExportParams Detailed m (Z.of_nat s)) c =
    Ok ("["%char :: Join (detailed_text c <$> part) [","%char] ++ ["]"%char; newline]).
Proof.
  intros Hw Hm. exists ((λ s, shard_of hasher (mkExportParams Detailed m s) c) <$> seqZ 0 m).
  split; [by apply shards_partition|]. split; [by rewrite length_fmap, length_seqZ|].
  intros s part. rewrite list_lookup_fmap. intros (z & [-> Hs]%lookup_seqZ & ->)%fmap_Some.
  rewrite Z.add_0_l. by rewrite export_text_detailed.
Qed.
End Exports.

(** ** Concrete instances *)

Module Witnesses.
Ltac decided := apply (bool_decide_unpack _); vm_compute; exact I.

(** A field with one number for each key, and a text for its entries. *)
Abbreviation item := (N * N)%type.
#[local] Instance item_entry : DictEntry item N N := { GetKey := fst; PatchWith p o := (o.1, (o.2 + p)%N) }.
#[local] Instance item_entry_sound : DictEntrySound item N N.
Proof. by split. Qed.

Definition item_text (e : item) : bytes := RemoteStream.ToString_uint64 e.1 ++ "="%char :: RemoteStream.ToString_uint64 e.2.
Definition item_of (text : bytes) : outcome bytes item :=
  match Url.index_of "=" text with
  | Some i => Ok (PubSub.FromString_uint64 (take i text), PubSub.FromString_uint64 (drop (S i) text))
  | None => Throw (str "No value.")
  end.

#[local] Instance item_json : RestJSON N item () := {
  JSON o := match o with EntryObject e => item_text e | _ => str "{}" end;
  JSON_Minimalistic o := match o with EntryObject e => item_text e | DetailedObject d => item_text (detailed_data d) | _ => str "{}" end;
  ParseJSON := item_of;
  PatchObjectWithJSON e text := match item_of text with Ok e' => Ok (e.1, e'.2) | Throw x => Throw x end;
}.

Abbreviation clock := EpochClock.EpochClockGuaranteeingMonotonicity.
Abbreviation items := (GenericDictionary N item).
Abbreviation items_event := (dict_event N item N).
Abbreviation items_closure := (dict_closure N item).
Abbreviation items_call := (dict_call N item N).
Abbreviation stream := (Memory.Container (Transaction items_event)).
Abbreviation storage := (@Storage items items_event items_closure clock stream).

Definition no_items : items := mkDictionary ∅ ∅.
Definition at_time (t : Z) : clock := EpochClock.mkEpochClock (λ _, 0) 0 t.
Definition new_storage : storage := mkStorage no_items empty_journal (at_time 0) Memory.init true (-1) false.

Lemma no_items_wf : dict_wf no_items.
Proof. split; simpl; [intros k o|intros k [? Hk]; revert Hk]; by rewrite lookup_empty. Qed.

Lemma new_storage_serving n : (n < no_index)%N → serving Some no_items new_storage log_init n.
Proof.
  intros Hn. split_and!; [|done|done|exact Hn]. unfold storage_inv. split_and!; try done; [apply Memory.repr_init|apply no_items_wf|apply no_items_wf].
Qed.

Definition field_input : GenericInput := mkGenericInput (str "/api") (str "x").
Definition plain : RestImpl items items_call bytes N item := Plain None.
Definition structured : RestImpl items items_call bytes N item := Structured None Z.of_N SimpleResponseFormatter.

Definition no_url : Url.URL := (Url.mkUrl [] [] [] 0 [] [], Url.mkParameters [] ∅ []).
Definition request_for (method : string) (key body : string) (headers : HttpHeaders.Headers) : Request :=
  mkRequest no_url false (mkPathArgs (str "/api/data/x") [str key]) (str method) headers (str body) 0.

(** *** Requests *)

Definition some_requests : list Request :=
  [request_for "PUT" "7" "7=1" HttpHeaders.no_headers; request_for "PUT" "8" "8=2" HttpHeaders.no_headers;
   request_for "PUT" "9" "8=2" HttpHeaders.no_headers; request_for "DELETE" "7" "" HttpHeaders.no_headers;
   request_for "GET" "8" "" HttpHeaders.no_headers].

Definition codes_of (opss : list (list respond_op)) : list Z :=
  opss ≫= omap (λ op, match op with RespondResponse r => Some (response_code r) | _ => None end).

Lemma rest_requests_refine_resources_witness : ∃ s' opss,
  run_requests id structured field_input some_requests new_storage = Ok (s', opss) ∧
  field_view (fields_ s') = {[8%N := (8, 2)%N]} ∧ codes_of opss = [201; 201; 400; 200; 200].
Proof.
  destruct (rest_requests_refine_resources id Some (λ _, eq_refl) no_items None structured field_input some_requests new_storage log_init
    (new_storage_serving 5 eq_refl)) as (s' & l' & opss & ts & E1 & _).
  exists s', opss. split; [exact E1|]. vm_compute in E1. by injection E1 as <- <-.
Defined.





(** *** Conditions *)

Definition dated : items := mkDictionary {[7%N := (7, 1)%N]} {[7%N := 1460000000123456]}.

Lemma dated_wf : dict_wf dated.
Proof.
  split; simpl.
  - intros k o [<- <-]%lookup_singleton_Some. done.
  - intros k [o [<- <-]%lookup_singleton_Some]. rewrite lookup_singleton_eq. by eexists.
Qed.

Definition dated_request : Request :=
  request_for "PUT" "7" "7=5" (match HttpHeaders.Set_ kIfUnmodifiedSinceHeader (str "Thu, 07 Apr 2016 03:33:20 GMT") HttpHeaders.no_headers with
                                | Ok h => h | Throw _ => HttpHeaders.no_headers end).

Lemma dated_request_headers : HttpHeaders.headers_wf (request_headers dated_request) ∧
  HttpHeaders.entries (request_headers dated_request) = [(kIfUnmodifiedSinceHeader, str "Thu, 07 Apr 2016 03:33:20 GMT")].
Proof.
  unfold dated_request. cbn [request_for request_headers].
  destruct (HttpHeaders.Set_ok kIfUnmodifiedSinceHeader (str "Thu, 07 Apr 2016 03:33:20 GMT") HttpHeaders.no_headers HttpHeaders.no_headers_wf)
    as (h & -> & Hwf & -> & _); [by vm_compute|done|]. split; [done|by vm_compute].
Qed.

Lemma rest_last_modified_is_condition_witness : ∃ resp since,
  Structured_GET_Run Z.of_N SimpleResponseFormatter () (mkGETInput field_input (Some (str "7")) true None) dated = Returned resp ∧
  ExtractIfUnmodifiedSinceOrRespondWithError (RestJSON0 := item_json) dated_request = Next (Some since) ∧
  modified_since (Some since) (Some 1460000000999999) = None ∧ modified_since (Some since) (Some 1460000001000000) ≠ None.
Proof.
  destruct (rest_last_modified_is_condition (E := items_event) (RB := items_closure) (M := items_call) Z.of_N SimpleResponseFormatter () field_input (str "7") true dated (7, 1)%N 1460000000123456)
    as (resp & E1 & Hr); [exact dated_wf|by vm_compute..|]. destruct dated_request_headers as [Hwf He].
  destruct (Hr dated_request Hwf) as [_ Hdate]. destruct Hdate as (since & E2 & Hs).
  - by rewrite He.
  - exists kLastModifiedHeader, kIfUnmodifiedSinceHeader, (str "Thu, 07 Apr 2016 03:33:20 GMT"). rewrite He. split; [|by vm_compute].
    vm_compute in E1. injection E1 as <-. by vm_compute.
  - exists resp, since. split_and!; [exact E1|exact E2|by apply Hs|]. intros Hn. by apply Hs in Hn.
Defined.

(** *** Routes *)

Definition item_handler : @rest_handler items items_event items_closure items_call clock stream :=
  of_field (generic_data_handler id plain field_input).
Definition item_fields : list (bytes * list (@RESTfulRoute items items_event items_closure items_call clock stream)) :=
  [(str "x", single_key_routes item_handler [])].
Definition text_of (o : RESTGenericResponse) : bytes := str "{}".
Definition make_items := make_RESTfulStorage (M := items_call) (CK := clock) id text_of Plain_ErrorMethodNotAllowed (str "/api") (str "/api") item_fields [].

Lemma item_fields_ok : fields_ok item_fields.
Proof.
  intros name rs route [= -> ->]%list_elem_of_singleton Hr. assert (mask_ok mask_Any) as Hany.
  { exists 0%nat. split; [apply list_elem_of_here|by vm_compute]. }
  assert (Forall (λ route, resource_args_mask route = mask_Any) (single_key_routes item_handler [])) as Hall by (by repeat constructor).
  rewrite Forall_forall in Hall. by rewrite (Hall _ Hr).
Qed.

Definition succeeded {X A} (m : outcome X A) : bool := match m with Ok _ => true | Throw _ => false end.

Lemma items_made : succeeded (make_items ∅).1 = true.
Proof. vm_compute. reflexivity. Qed.

Lemma rest_routes_lifecycle_witness : ∃ d hs, make_items ∅ = (Ok d, hs) ∧ is_Some (handler_at (str "/api/data/x") 1 hs) ∧
  ∀ x, run_calls [CallAlias (str "x") (str "y"); CallSwitch] (mkRegistration d hs) = (Ok (), x) →
    destroy_RESTfulStorage (data_ x) (server x) = (Ok (), ∅).
Proof.
  assert (routes_wf (F := @rest_handler items items_event items_closure items_call clock stream) ∅) as Hwf by (by intros path m ?).
  pose proof (rest_routes_lifecycle id text_of Plain_ErrorMethodNotAllowed (str "/api") (str "/api") item_fields [] ∅ Hwf item_fields_ok) as Hc.
  fold (make_items ∅) in Hc. pose proof items_made as Hm. destruct (make_items ∅) as [[d|e] hs]; [|done]. destruct Hc as [Hserved Hcalls].
  exists d, hs. split_and!; [done| |].
  - specialize (Hserved (str "x") (mkRoute kRESTfulDataURLComponent [] mask_Any item_handler) 1%nat).
    change (route_path (str "/api") (str "x") (mkRoute kRESTfulDataURLComponent [] mask_Any item_handler)) with (str "/api/data/x") in Hserved.
    rewrite Hserved; [by eexists| |decided|by vm_compute]. unfold all_handlers. rewrite !elem_multimap_insert. right. right.
    unfold item_fields, single_key_routes. cbn [foldl fmap list_fmap schema_routes app]. rewrite !elem_multimap_insert. tauto.
  - intros x Hx. by apply (Hcalls _ x Hx).
Defined.

(** *** Collections *)

Definition five : list (bytes * N) := (λ i, (RemoteStream.ToString_uint64 i, i)) <$> [1; 2; 3; 4; 5]%N.
Definition two_at_a_time : Request :=
  mkRequest (no_url.1, page_parameters 0 2) false (mkPathArgs (str "/api/data/x") []) (str "GET") HttpHeaders.no_headers [] 0.

Lemma rest_pages_cover_collection_witness : ∃ os, walk 1000 (str "/api/data/x") (str "/api/data/x") id 5 two_at_a_time five = Some os ∧
  ((λ o, (data_or_brief <$> collection_data o)) <$> os) = [[1; 2]; [3; 4]; [4; 5]]%N.
Proof.
  destruct (rest_pages_cover_collection 1000 (str "/api/data/x") (str "/api/data/x") id two_at_a_time five 2) as (os & E1 & _);
    [split; decided|by vm_compute..|].
  exists os. split; [exact E1|]. vm_compute in E1. by injection E1 as <-.
Defined.

Lemma rest_export_shards_partition_witness : ∃ parts, concat parts ≡ₚ [(7, (7, 1))%N] ∧ ∃ part, parts !! 1%nat = Some part ∧
  export_text Z.of_N (mkExportParams Detailed 2 1) dated = Ok ("["%char :: Join (detailed_text dated <$> part) [","%char] ++ ["]"%char; newline]).
Proof.
  destruct (rest_export_shards_partition (E := items_event) (RB := items_closure) (M := items_call) Z.of_N dated 2) as (parts & Hp & Hl & Ht); [exact dated_wf|lia|].
  destruct (lookup_lt_is_Some_2 parts 1) as [part Hpart]; [lia|]. exists parts. split; [exact Hp|]. exists part. split; [exact Hpart|].
  exact (Ht 1%nat part Hpart).
Defined.

(** *** Over HTTP *)

(** A server that sends its answers one byte at a time. *)
Definition server_of (handlers : routes handler) : peer :=
  mkPeer None (λ text, match serve_text false 0 handlers text with Some out => (λ c, [c]) <$> out | None => [] end) false false.

Lemma server_of_ok handlers : serves_handlers 0 handlers (server_of handlers).
Proof.
  split; [done|done| |].
  - intros text. simpl. destruct (serve_text _ _ _ text); [|by apply Forall_nil]. apply Forall_fmap, Forall_true. done.
  - intros text out Hs. simpl. rewrite Hs. clear. induction out as [|c out IH]; [done|]. rewrite fmap_cons. simpl. by rewrite IH.
Qed.

Definition item_routes : routes (@rest_handler items items_event items_closure items_call clock stream) :=
  {[str "/api/data/x" := {[1%nat := item_handler]}]}.
Definition no_cqs : @Live items items_call := mkLive true ∅ ∅.
Definition net_of (s : storage) : network := λ _ _ _, Some (server_of (handlers_in no_cqs s item_routes)).

Definition url_7 : bytes := str "http://localhost:8080/api/data/x/7".
Definition full_7 : Url.URL := (Url.mkUrl (str "localhost") (str "/api/data/x/7") (str "http") 8080 [] [], Url.mkParameters [] ∅ []).
Definition path_7 : Url.URL := (Url.mkUrl [] (str "/api/data/x/7") [] 0 [] [], Url.mkParameters [] ∅ []).
Definition args_7 : URLPathArgs := mkPathArgs (str "/api/data/x") [str "7"].
Definition put_7 : request := PUT (make_RequestBase url_7) (str "7=42") (str "application/json").
Definition get_7 : request := GET (make_RequestBase url_7).
Definition put_client : Client := mkClient (str "PUT") url_7 (str "application/json") (str "7=42") [] HttpHeaders.no_headers false.
Definition get_client : Client := mkClient (str "GET") url_7 [] [] [] HttpHeaders.no_headers false.

Lemma request_7_ok cl : cl ∈ [put_client; get_client] → request_ok cl full_7 path_7.
Proof.
  rewrite !elem_of_cons, elem_of_nil. intros [->|[->|[]]];
    (split; [split; [done|]|split; [done|]| |reflexivity|exact HttpHeaders.no_headers_wf| |vm_compute; discriminate]);
    try (repeat (apply Forall_cons; split; [reflexivity|]); by apply Forall_nil); try (split; decided);
    repeat (apply Forall_cons; split; [split; [split; [done|decided|split; decided|split; decided|reflexivity]|by vm_compute]|]); by apply Forall_nil.
Qed.

Lemma find_7 {F} (h : F) : FindHandler (str "/api/data/x/7") {[str "/api/data/x" := {[1%nat := h]}]} = (Some h, args_7).
Proof. by vm_compute. Qed.

Lemma leads_7 r cl : PrepareInput r = Ok cl → cl ∈ [put_client; get_client] →
  leads_to_field id plain field_input item_routes r cl full_7 path_7 args_7.
Proof.
  intros Hr Hcl. split; [done| |by apply request_7_ok|apply find_7].
  rewrite !elem_of_cons, elem_of_nil in Hcl. destruct Hcl as [->|[->|[]]]; by vm_compute.
Qed.

Lemma served_7 s : served_at (net_of s) full_7 0 no_cqs s item_routes.
Proof. eexists. split; [done|]. apply server_of_ok. Qed.

Lemma put_7_op q : request_is put_client full_7 path_7 args_7 0 q → op_of None plain q = Some (None, Put 7%N (7, 42)%N).
Proof. destruct q. intros [Hm Hu _ Ha Hb _ _ _]. simpl in *. subst. by vm_compute. Qed.

Lemma get_7_enter q : request_is get_client full_7 path_7 args_7 0 q →
  is_method "GET" q = true ∧ GET_Enter plain q = Next ((), Some (str "7")) ∧ export_params q = None.
Proof. destruct q. intros [Hm Hu _ Ha Hb _ _ _]. simpl in *. subst. by vm_compute. Qed.

Definition answer_in (m : outcome storage_error (storage * list respond_op)) : option Response :=
  match m with Ok (_, [RespondResponse a]) => Some a | _ => None end.

Lemma put_7_answer q : request_is put_client full_7 path_7 args_7 0 q →
  answer_in (generic_data_handler id plain field_input q new_storage) = Some (text_response (newline_after "Created.") Created).
Proof. destruct q. intros [Hm Hu _ Ha Hb _ _ _]. simpl in *. subst. by vm_compute. Qed.

Definition storage_in (m : outcome storage_error (storage * list respond_op)) : storage := match m with Ok (s, _) => s | Throw _ => new_storage end.
Definition with_item_7 : storage :=
  storage_in (generic_data_handler id plain field_input (request_for "PUT" "7" "7=42" HttpHeaders.no_headers) new_storage).

Lemma put_7_storage q : request_is put_client full_7 path_7 args_7 0 q →
  storage_in (generic_data_handler id plain field_input q new_storage) = with_item_7.
Proof. destruct q. intros [Hm Hu _ Ha Hb _ _ _]. simpl in *. subst. by vm_compute. Qed.

Lemma get_7_answer q : request_is get_client full_7 path_7 args_7 0 q →
  answer_in (generic_data_handler id plain field_input q with_item_7) = Some (object_response (EntryObject (7, 42)%N) OK).
Proof. destruct q. intros [Hm Hu _ Ha Hb _ _ _]. simpl in *. subst. by vm_compute. Qed.

Lemma rest_put_get_over_http_witness : ∃ s' h h',
  HTTP (λ n, 2 * n)%nat (net_of new_storage) 1 put_7 = Ok (mkResponseWithBuffer url_7 Created h (newline_after "Created.")) ∧
  HTTP (λ n, 2 * n)%nat (net_of s') 1 get_7 = Ok (mkResponseWithBuffer url_7 OK h' (newline_after "7=42")).
Proof.
  destruct (rest_put_get_over_http id Some (λ _, eq_refl) no_items None plain field_input (λ n, 2 * n)%nat (net_of new_storage)
    0 put_7 get_7 put_client get_client full_7 path_7 full_7 path_7 args_7 args_7 0 0 item_routes no_cqs
    new_storage log_init 1 None 7%N (7, 42)%N () (str "7")) as (q & s' & l' & a & Hq & Ea & _ & _ & Hput & Hget);
    [lia|by apply new_storage_serving|by apply leads_7; [|apply list_elem_of_here]|apply served_7|apply put_7_op|done|by vm_compute|by apply leads_7; [|apply list_elem_of_further, list_elem_of_here]|
     apply get_7_enter|by vm_compute|].
  pose proof (put_7_answer q Hq) as Ha. rewrite Ea in Ha. injection Ha as ->. destruct Hput as [h Eh]; [by split; vm_compute|].
  destruct (Hget (net_of s') (served_7 s')) as (q' & a' & Hq' & Ea' & Hfits).
  pose proof (put_7_storage q Hq) as Hs. rewrite Ea in Hs. simpl in Hs. subst s'.
  pose proof (get_7_answer q' Hq') as Ha'. rewrite Ea' in Ha'. injection Ha' as ->. destruct Hfits as [h' Eh']; [by split; vm_compute|].
  exists with_item_7, h, h'. split; [exact Eh|exact Eh'].
Defined.
End Witnesses.
