(* ===== verification/FnCasProperties.v ===== *)
(** * What symbolic differentiation and its compiler guarantee

    The theorems about fncas/, each with a concrete instance.  They are corollaries
    of the lemmas of FnCasGradient.v, FnCasWalk.v and FnCasJitProof.v. *)

From Stdlib Require Import ZArith Lia Reals Lra SpecFloat.
From stdpp Require Import base list sets gmap.
From S2P Require Import Prelude State FnCasArith FnCasNode FnCasDiff FnCasSymbolic FnCasWalk FnCasDerivative FnCasGradient.
From S2P Require Import X64 FnCasJit FnCasJitProof.
Open Scope Z_scope.

Import FnCas FnCasNode FnCasDiff X64 FnCasJit.

(** ** Differentiation *)

(** C5 Symbolic differentiation gives the gradient.  A function of one or more
    variables is recorded and differentiated; in exact arithmetic, at any point
    where its operations have derivatives, evaluating what was recorded gives the
    value of the function, and evaluating what was recorded for its gradient
    gives, for each coordinate, the partial derivative of the function. *)
Theorem symbolic_gradient_is_gradient this (p : @program R) (x : list R) (s : @internals_impl R) :
  (0 < length x)%nat → program_ok (length x) p → program_smooth x p → x_ptr_ s = None → dim_ s = 0 →
  ∃ xs s1 f s2 g s3, X_new this (Z.of_nat (length x)) s = (Ok xs, s1) ∧ record_function xs p s1 = (Ok f, s2) ∧
    g_new this f s2 = (Ok g, s3) ∧ (∃ s4, f_blueprint f x s3 = Ok (FnCasWalk.run p x, s4)) ∧
    ∃ vs s5, g_call g x s3 = Ok (vs, s5) ∧ length vs = length x ∧
      ∀ k v, vs !! k = Some v → partial_derivative (FnCasWalk.run p) x k v.
Proof. apply gradient_exact. Qed.

Section AnyArithmetic.
Context {D : Type} `{Arithmetic D}.
Implicit Type s : @internals_impl D.

(** C17 Differentiation ends, with any arithmetic.  A node of a recorded expression
    is differentiated by any of its variables, in [diff_rounds] rounds of the loop
    and without a failed assertion or an access out of range, unless the
    expression has a [unit_step], for which the exception that says so is thrown;
    the recorded expression stays well-formed in both cases. *)
Theorem differentiation_ends x_ref (var : nat) index s : recorded (Sem := ()) s → ok_index s index → x_ptr_ s = Some x_ref →
  Z.of_nat var < dim_ s → ∃ s', recorded (Sem := ()) s' ∧
  if differentiable (node_vector_ s) index
  then ∃ j, differentiate x_ref index var s = (Ok j, s') ∧ ok_index s' j
  else differentiate x_ref index var s = (Throw FnCASZeroOrOneIsNonDifferentiable, s').
Proof.
  intros Hs Hi Hx Hvar. destruct (differentiate_ok x_ref var index s Hs Hi Hx) as (s' & _ & Hs' & R); [lia|].
  exists s'. split; [done|]. destruct (differentiable _ _); [|done]. destruct R as (j & E & Hj & _). by exists j.
Qed.

(** C39 Differentiation takes exponential time.  A variable squared [n] times over is
    recorded in [n + 2] nodes and evaluated in at most [3 * n + 7] rounds of its
    loop; the loop of [differentiate_node] takes exactly [3 * 2 ^ n - 2] rounds
    for it: with that many it ends, with fewer it does not. *)
Theorem differentiation_time_is_exponential this (n : nat) s : x_ptr_ s = None → dim_ s = 0 →
  ∃ s1 f s2 s3, X_new this 1 s = (Ok [1], s1) ∧ record_function [1] (squarings n) s1 = (Ok f, s2) ∧
    length (node_vector_ s2) = (n + 2)%nat ∧
    eval_fuel (node_vector_ s2) = (3 * n + 7)%nat ∧ (∀ x, ∃ v s', f_blueprint f [x] s2 = Ok (v, s')) ∧
    (_ ← resize_df 1; df_access 0 f) s2 = (Ok (-1), s3) ∧
    (diff_run_for (3 * 2 ^ n - 2) 0 f s3).1 = Ok () ∧
    ∀ fuel, (fuel < 3 * 2 ^ n - 2)%nat → (diff_run_for fuel 0 f s3).1 = Throw OutOfFuel.
Proof.
  intros Hx Hd. destruct (squarings_function this n s Hx Hd) as (s1 & s2 & E1 & E2 & Hn & Hdf). set (f := Z.of_nat n + 1) in *.
  destruct (gradient_any_arithmetic this (squarings n) 1 s) as (xs & s1' & f' & s2' & E1' & E2' & Hd2 & _ & Hs2 & Hf & _); [lia|by apply (squarings_ok n 1); lia|done..|].
  change (Z.of_nat 1) with 1 in *. rewrite E1 in E1'. injection E1' as <- <-. rewrite E2 in E2'. injection E2' as <- <-.
  assert (length (node_vector_ s2) = (n + 2)%nat) as Hlen by (rewrite Hn, length_app, length_squares; cbn; lia).
  destruct (resize_df_ok s2 Hs2) as (s2' & Er & Hs2' & Hl2 & He2 & Hn2).
  assert (diff_ok (Sem := ()) 0 s2') as D2. { destruct Hs2'. split; [done..|]. apply lookup_lt_is_Some_2. rewrite Hl2, Hd2. lia. }
  destruct (df_access_ok 0 f s2' D2) as (d & s3 & Ea & W & D3 & _); [by eapply ext_index|].
  assert (d = -1 ∧ node_vector_ s3 = node_vector_ s2) as [-> Hn3].
  { unfold resize_df in Er. rewrite Hdf, Hd2 in Er. injection Er as <-. cbn -[grow grown] in Ea. injection Ea as <- <-. split; [|done].
    unfold grown, grow. destruct (_ <=? f); [|done]. rewrite app_nil_l. destruct (replicate _ _ !! _) eqn:E; [|done]. by apply lookup_replicate in E as [-> _]. }
  pose proof (ext_index _ _ _ (walk_ext _ _ _ W) (ext_index _ _ _ He2 Hf)) as Hf3.
  pose proof (squarings_rounds (D := D) n 0 0) as Hr. pose proof (squarings_differentiable (D := D) n 0 0) as Hdiff. fold f in Hr, Hdiff.
  rewrite <- Hn, <- Hn3 in Hr, Hdiff.
  exists s1, f, s2, s3. split_and!; [done|done|done|unfold eval_fuel; lia| | | |].
  - intros x. unfold f_blueprint. rewrite Hd2. cbn [length Z.of_nat Pos.of_succ_nat Z.eqb Pos.eqb].
    destruct (eval_node_ok s2 [x] f invalidate (state_graph _ (recorded_state _ Hs2))) as (vs & B & E & _); [rewrite Hd2; done|by apply Hf|done|].
    by eexists _, _.
  - rewrite Hd2 in Er. by rewrite (io_bind_ok _ _ _ _ _ Er).
  - rewrite <- Hr. by apply diff_run_for_enough.
  - rewrite <- Hr. intros fuel Hlt. by apply diff_run_for_short.
Qed.

Context `{!Words D} (functions_at : Z → option (D → D)) (clobbered : machine → register → Z).

(** C6 The native compiler is right.  For a function that has been recorded and
    differentiated, with any arithmetic, the machine code compiled for it returns
    what evaluating the expression gives, and the code compiled for its gradient
    leaves in the first cells of its buffer what evaluating the gradient gives;
    the code writes to nothing but the buffer, whose size is the one asked for, and
    restores the register and the stack that it has to. *)
Theorem native_code_computes_gradient this p (dim : nat) s : (0 < dim)%nat → program_ok dim p → x_ptr_ s = None → dim_ s = 0 →
  ∃ xs s1 f s2, X_new this (Z.of_nat dim) s = (Ok xs, s1) ∧ record_function xs p s1 = (Ok f, s2) ∧
  (differentiable (node_vector_ s2) f = true → ∃ g s3, g_new this f s2 = (Ok g, s3) ∧
    (Z.of_nat (length (node_vector_ s3)) + Z.of_nat dim ≤ offset_limit → ∃ cf cg, f_code (node_vector_ s3) f = Ok cf ∧ g_code s3 g = Ok cg ∧
      ∀ x, length x = dim → ∃ v vs s4 s5, f_blueprint f x s3 = Ok (v, s4) ∧ g_call g x s3 = Ok (vs, s5) ∧ length vs = dim ∧
        (∀ X O F m, layout functions_at X O F x (heap_size cf) (memory m) →
          ∃ m', invoke functions_at clobbered (jit_compiled_code cf) X O F m = Some m' ∧ of_bits (xmm0 m') = v ∧
            registers m' RBX = registers m RBX ∧ ∀ a, (∀ k, 0 ≤ k < heap_size cf → a ≠ cell O k) → memory m' !! a = memory m !! a) ∧
        (∀ X O F m, layout functions_at X O F x (heap_size cg) (memory m) →
          ∃ m', invoke functions_at clobbered (jit_compiled_code cg) X O F m = Some m' ∧
            (∀ i w, vs !! i = Some w → memory m' !! cell O (Z.of_nat i) = Some (to_bits w)) ∧
            registers m' RBX = registers m RBX ∧ ∀ a, (∀ k, 0 ≤ k < heap_size cg → a ≠ cell O k) → memory m' !! a = memory m !! a))).
Proof.
  intros Hd Hp Hx Hd0. destruct (gradient_any_arithmetic this p dim s Hd Hp Hx Hd0) as (xs & s1 & f & s2 & E1 & E2 & Hdim2 & _ & Hs2 & Hf & Hgrad).
  exists xs, s1, f, s2. split_and!; [done|done|]. intros Hdiff. destruct (Hgrad Hdiff) as (gs & s3 & E3 & He3 & Hs3 & Hlen & Hgs).
  exists (mkG f gs), s3. split; [done|]. intros Hlim. pose proof (ext_index _ _ _ He3 Hf) as [Hf1 Hf2].
  pose proof (state_graph _ (recorded_state _ Hs3)) as Hg. pose proof (ext_dim _ _ He3) as Hdim3. rewrite Hdim2 in Hdim3. rewrite Hdim3 in Hg, Hf1.
  assert (f < offset_limit) as Hfl by (destruct Hf2; lia).
  set (zeros := replicate dim (of_bits (D := D) 0)).
  destruct (f_compiled_ok functions_at clobbered _ _ zeros f Hg) as (cf & Ecf & _); [by unfold zeros; rewrite length_replicate|done..|].
  assert (∀ x : list D, length x = dim → graph_ok (dim_ s3) (node_vector_ s3) ∧ dim_ s3 ≤ Z.of_nat (length x)) as Hpoint by (intros x; rewrite Hdim3; intros ->; done).
  assert (Z.of_nat (length (g_ (mkG f gs))) = dim_ s3) as Hlen' by (cbn; lia).
  assert (Forall (λ v, dim_ s3 ≤ v ∧ valid (node_vector_ s3) v) (g_ (mkG f gs))) as Hgs' by done.
  destruct (Hpoint zeros) as [Hg' Hz]; [apply length_replicate|].
  destruct (g_compiled_ok functions_at clobbered s3 (mkG f gs) zeros Hg' Hz Hlen' Hgs') as (cg & Ecg & _); [by rewrite Hdim3|].
  exists cf, cg. split_and!; [done|done|]. intros x Hxl. destruct (Hpoint x Hxl) as [_ Hxd].
  destruct (eval_node_ok s3 x f invalidate Hg' Hxd Hf2) as (vs0 & B0 & Ef & _); [done|].
  destruct (g_call_ok (mkG f gs) x s3 Hg' Hxd) as (s5 & Eg); [by eapply Forall_impl; [exact Hgs'|]; intros ? []|].
  eexists _, _, _, s5. unfold f_blueprint. rewrite Hdim3, Hxl, Z.eqb_refl. split_and!; [exact Ef|exact Eg|by rewrite length_fmap| |].
  - intros X O F m Hl. destruct (f_compiled_ok functions_at clobbered _ _ x f Hg) as (cf' & Ecf' & _ & Hrun); [by rewrite Hxl|done..|].
    rewrite Ecf in Ecf'. injection Ecf' as <-. by apply Hrun.
  - intros X O F m Hl. destruct (g_compiled_ok functions_at clobbered s3 (mkG f gs) x Hg' Hxd Hlen' Hgs') as (cg' & Ecg' & Hrun); [by rewrite Hdim3|].
    rewrite Ecg in Ecg'. injection Ecg' as <-. destruct (Hrun X O F m Hl) as (m' & Ei & Hout & Hrbx & Hfr). exists m'. split_and!; [done| |done|done].
    intros i w (v & -> & Hv)%list_lookup_fmap_Some. by apply Hout.
Qed.
End AnyArithmetic.

(** ** Boundaries *)

(** The index of a called function.  Its address is eight bytes for each
    function before it up to index 14; from index 15 on, which the assertion
    allows up to 30, the displacement byte is extended with its sign and the
    function is looked for 256 bytes below its place.  The functions of the library
    are all below. *)
Theorem call_displacement_bounds index rest : 0 ≤ index < 31 →
  X64.decode (call_function_from_rdx_pointers_array_by_index index ++ rest) =
    Some (CallMem RDX ((index + 1) * 8 - if index <? 15 then 0 else 256), rest) ∧
  ∀ f, function_index f < 15.
Proof.
  intros Hi. split; [|by intros []]. unfold call_function_from_rdx_pointers_array_by_index. cbn [app X64.decode Z.eqb Pos.eqb].
  change 255 with (Z.ones 8). rewrite Z.land_ones, Z.mod_small by lia. unfold signed. change (2 ^ (8 - 1)) with 128. change (2 ^ 8) with 256.
  destruct (Z.ltb_spec ((index + 1) * 8) 128), (Z.ltb_spec index 15); try lia; do 3 f_equal; lia.
Qed.

(** Nothing recorded yet. *)
Definition fresh {D} : @internals_impl D := mkInternals 0 None [] [] [] [] [] [].

Section Zeroes.
Context (libm : LibmFunction → Binary64.word → Binary64.word).
Local Instance double_arithmetic : Arithmetic Binary64.word := Binary64.arithmetic libm.

(** [double zero = 0.0; y = x / zero; return y + -0.0;] *)
Definition two_zeroes : @program Binary64.word :=
  [Constant (Binary64.of_bits 0); Operation divide 0 1; Constant (Binary64.of_bits (2 ^ 63)); Operation add 2 3].

(** The two zeroes are one node.  Recording [-0.0] finds the node of [0.0], which
    compares equal, and changes its value: an expression that was recorded before
    changes.  The function of [two_zeroes] at 1 is positive infinity, and what is
    recorded for it evaluates to negative infinity. *)
Theorem negative_zero_overwrites_zero this : ∃ xs s1 f s2 v s3,
  X_new this 1 fresh = (Ok xs, s1) ∧ record_function xs two_zeroes s1 = (Ok f, s2) ∧
  f_blueprint f [num_one] s2 = Ok (v, s3) ∧ Binary64.decode v = S754_infinity true ∧
  Binary64.decode (FnCasWalk.run two_zeroes [num_one]) = S754_infinity false.
Proof.
  assert (match X_new this 1 fresh with
    | (Ok xs, s1) => match record_function xs two_zeroes s1 with
      | (Ok f, s2) => match f_blueprint f [num_one] s2 with Ok (v, _) => Some (Binary64.decode v) | _ => None end
      | _ => None end
    | _ => None end = Some (S754_infinity true)) as Hrun by (vm_compute; reflexivity).
  destruct (X_new _ _ _) as [[xs|] s1] eqn:E1; [|done]. destruct (record_function _ _ _) as [[f|] s2] eqn:E2; [|done].
  destruct (f_blueprint _ _ _) as [[v s3]|] eqn:E3; [|done]. injection Hrun as Hv.
  exists xs, s1, f, s2, v, s3. split_and!; [done..|]. vm_compute. reflexivity.
Qed.
End Zeroes.

(** ** Instances *)

Module Witnesses.
Local Open Scope Z_scope.

(** [(x * y) ^ 2 + log x]. *)
Definition example : @program R := [Operation multiply 0 1; Function sqr 2; Function log 0; Operation add 3 4].

Lemma symbolic_gradient_is_gradient_witness :
  ∃ xs s1 f s2 g s3, X_new 1 2 fresh = (Ok xs, s1) ∧ record_function xs example s1 = (Ok f, s2) ∧
    g_new 1 f s2 = (Ok g, s3) ∧ (∃ s4, f_blueprint f [3; 5]%R s3 = Ok (FnCasWalk.run example [3; 5]%R, s4)) ∧
    ∃ vs s5, g_call g [3; 5]%R s3 = Ok (vs, s5) ∧ length vs = 2%nat ∧
      ∀ k v, vs !! k = Some v → partial_derivative (FnCasWalk.run example) [3; 5]%R k v.
Proof.
  apply (symbolic_gradient_is_gradient 1 example [3; 5]%R fresh); [cbn; lia|cbn; lia| |done|done].
  cbn. repeat split; lra || done.
Defined.

(** Binary64 words, with functions of the C library that return their argument. *)
Local Instance word_arithmetic : Arithmetic Binary64.word := Binary64.arithmetic (λ _ x, x).

Lemma differentiation_time_is_exponential_witness : ∃ f s3, (diff_run_for 3070 0 f s3).1 = Ok () ∧ (diff_run_for 3069 0 f s3).1 = Throw OutOfFuel.
Proof.
  destruct (differentiation_time_is_exponential 1 10 fresh eq_refl eq_refl) as (s1 & f & s2 & s3 & _ & _ & _ & _ & _ & _ & Hin & Hout).
  exists f, s3. split; [exact Hin|apply Hout]. apply Nat.ltb_lt. vm_compute. reflexivity.
Defined.

(** [(x * y) ^ 2 + sin x]. *)
Definition word_example : @program Binary64.word := [Operation multiply 0 1; Function sqr 2; Function sin 0; Operation add 3 4].

Lemma differentiation_ends_witness : ∃ f s j s', differentiable (node_vector_ s) f = true ∧ differentiate 1 f 1 s = (Ok j, s').
Proof.
  destruct (gradient_any_arithmetic 1 word_example 2 fresh) as (xs & s1 & f & s2 & E1 & E2 & Hd & Hx & Hs & Hf & _); [lia|cbn; lia|done..|].
  destruct (differentiation_ends 1 1 f s2 Hs Hf Hx) as (s' & _ & R); [rewrite Hd; lia|].
  assert (differentiable (node_vector_ s2) f = true) as Hdiff. { vm_compute in E1. injection E1 as <- <-. vm_compute in E2. injection E2 as <- <-. reflexivity. }
  rewrite Hdiff in R. destruct R as (j & E & _). by exists f, s2, j, s'.
Defined.

(** The argument at 1000, pointers to the functions at 2000, the buffer at 4000. *)
Definition library (p : Z) : option (Binary64.word → Binary64.word) := apply_function <$> functions !! Z.to_nat (p - 9000).

Definition point : list Binary64.word := [num_int 3; num_int 5].

Definition cells (base : Z) (l : list Z) : gmap Z Z := list_to_map (imap (λ i v, (base + 8 * Z.of_nat i, v)) l).

Definition example_memory : gmap Z Z :=
  cells 1000 (Binary64.bits <$> point) ∪ cells 2000 (seqZ 9000 12) ∪ cells 4000 (replicate 100 0).

Lemma example_layout size : size ≤ 100 → layout library 1000 4000 2000 point size example_memory.
Proof.
  intros Hsize. split.
  - intros [|[|v]] d Hd; [injection Hd as <-; vm_compute; reflexivity..|done].
  - intros f. exists (9000 + function_index f). destruct f; (split; [vm_compute; reflexivity|reflexivity]).
  - intros k Hk. assert (forallb (λ k, bool_decide (is_Some (example_memory !! cell 4000 k))) (seqZ 0 100) = true) as Hall by (vm_compute; reflexivity).
    rewrite forallb_forall in Hall. specialize (Hall k). rewrite <- list_elem_of_In, elem_of_seqZ in Hall. apply bool_decide_eq_true in Hall; [done|lia].
  - intros k Hk. unfold cell. split; [intros v Hv; cbn in Hv; lia|intros []; cbn; lia].
Qed.

(** The nodes and the buffers are small. *)
Definition code_sizes (f : Z) (r : outcome fncas_exception g_impl * @internals_impl Binary64.word) : bool :=
  (length (node_vector_ r.2) <=? 60)%nat &&
  match f_code (node_vector_ r.2) f, r.1 with
  | Ok cf, Ok g => match g_code r.2 g with Ok cg => (heap_size cf <=? 100) && (heap_size cg <=? 100) | _ => false end
  | _, _ => false
  end.

Lemma code_sizes_nodes f r : code_sizes f r = true → (length (node_vector_ r.2) ≤ 60)%nat.
Proof. unfold code_sizes. intros [Hl%Nat.leb_le _]%andb_prop. done. Qed.

Lemma native_code_computes_gradient_witness : ∃ f s3 g cf cg v s4 vs s5 m m',
  f_code (node_vector_ s3) f = Ok cf ∧ g_code s3 g = Ok cg ∧ f_blueprint f point s3 = Ok (v, s4) ∧ g_call g point s3 = Ok (vs, s5) ∧
  invoke library (λ _ _, 0) (jit_compiled_code cf) 1000 4000 2000 (mkMachine (λ _, 0) 0 [] example_memory) = Some m ∧ of_bits (xmm0 m) = v ∧
  invoke library (λ _ _, 0) (jit_compiled_code cg) 1000 4000 2000 (mkMachine (λ _, 0) 0 [] example_memory) = Some m' ∧
  ∀ i w, vs !! i = Some w → memory m' !! cell 4000 (Z.of_nat i) = Some (to_bits w).
Proof.
  destruct (native_code_computes_gradient library (λ _ _, 0) 1 word_example 2 fresh) as (xs & s1 & f & s2 & E1 & E2 & G); [lia|cbn; lia|done..|].
  vm_compute in E1. injection E1 as <- <-. vm_compute in E2. injection E2 as <- <-.
  destruct G as (g & s3 & E3 & G); [vm_compute; reflexivity|].
  assert (code_sizes 7 (Ok g, s3) = true) as Hsizes by (rewrite <- E3; vm_compute; reflexivity).
  destruct G as (cf & cg & Ef & Eg & G); [apply code_sizes_nodes in Hsizes; cbn [snd] in Hsizes; unfold offset_limit; lia|].
  unfold code_sizes in Hsizes. cbn [fst snd] in Hsizes. rewrite Ef, Eg in Hsizes. apply andb_prop in Hsizes as [_ [Hcf%Z.leb_le Hcg%Z.leb_le]%andb_prop].
  destruct (G point eq_refl) as (v & vs & s4 & s5 & Ev & Evs & _ & Gf & Gg).
  destruct (Gf 1000 4000 2000 (mkMachine (λ _, 0) 0 [] example_memory)) as (m & Em & Hm & _); [by apply example_layout|].
  destruct (Gg 1000 4000 2000 (mkMachine (λ _, 0) 0 [] example_memory)) as (m' & Em' & Hm' & _); [by apply example_layout|].
  exists 7, s3, g, cf, cg, v, s4, vs, s5, m, m'. split_and!; assumption.
Defined.

Lemma call_displacement_bounds_witness : X64.decode (call_function_from_rdx_pointers_array_by_index 20 ++ [0xc3]) = Some (CallMem RDX (-88), [0xc3]).
Proof. exact (proj1 (call_displacement_bounds 20 [0xc3] ltac:(lia))). Defined.
End Witnesses.
