(* ===== verification/JsonProperties.v ===== *)
(** * Properties of the type system and of JSON

    What is written is read back; what is read is a value of its type; what a patch
    does to each field; identifiers of types. *)

From Stdlib Require Import ZArith Lia Ascii String.
From stdpp Require Import countable base list strings.
From S2P Require Import Prelude Persistence PubSub RemoteStream StdMap Reflection Json JsonRoundTrip JsonText.
Open Scope Z_scope.

Import RemoteStream Reflection Json.

Section Properties.
Context {D : Type} `{!Doubles D, !Objects D, !RapidJSON D}.
Local Abbreviation value t := (denote D t).

(** C7 A value of a type that JSON can tell apart, with every variant set and doubles
    that RapidJSON keeps, is what [ParseJSON] and [TryParseJSON] give for its JSON, in
    the format it was written in or another one that reads it, and what
    [PatchObjectWithJSON] with it makes of any object. *)
Theorem json_roundtrip (survives : D → Prop) `{!RapidJSONLaws survives} J t (v : value t) :
  type_ok J t → has_type survives False t v →
  (∀ J', reads (Format J') J = true → ParseJSON J' t (JSON J t v) = Ok v ∧ TryParseJSON J' t (JSON J t v) = Some v) ∧
  (∀ J' object, reads (JSONPatcher J') J = true → PatchObjectWithJSON J' t object (JSON J t v) = Ok v).
Proof.
  intros Ht Hv. assert (∀ F dest, reads F J = true → ParseJSONViaRapidJSON F t (c_str (JSON J t v)) dest = Ok v) as H.
  { intros F dest HF. rewrite (parse_written survives) by done. by apply (deserialize_serialize F J HF survives). }
  split; [|intros; by apply H]. intros J' HJ. unfold ParseJSON, TryParseJSON, ParseJSON_char_into. by rewrite H.
Qed.

(** Whatever the text, [ParseJSON] only gives values of the type it is asked for, and
    [PatchObjectWithJSON] keeps an object one: numbers are in the range of their
    width, arrays have their length, keys of sets and maps are in order and unique. *)
Theorem json_parsed_has_type `{!ObjectLaws D} J t (text : bytes) (v : value t) :
  (ParseJSON J t text = Ok v → has_type (λ _, True) True t v) ∧
  (∀ object, has_type (λ _, True) True t object → PatchObjectWithJSON J t object text = Ok v → has_type (λ _, True) True t v).
Proof.
  split; unfold ParseJSON, PatchObjectWithJSON, ParseJSON_char_into, ParseJSONViaRapidJSON.
  - destruct (Parse (c_str text)); [|done]. apply (deserialize_typed (Format J)). apply construct_typed.
  - intros object Ho. destruct (Parse (c_str text)); [|done]. by apply (deserialize_typed (JSONPatcher J)).
Qed.

(** C20 Patching a struct with an object gives a struct if and only if, field by field and
    with those of the bases, a field that the object names is patched with its value,
    and one that it does not name stays as it is, but a set becomes empty, and a map, or
    a variant in a format that uses nulls, is not allowed to be missing. *)
Theorem json_patch_by_fields J t (object new : value t) (text : bytes) ms :
  bases_ok t = true → Parse (c_str text) = Some (JObject ms) →
  PatchObjectWithJSON J t object text = Ok new ↔ fields_related (patched J [] ms) t object new.
Proof. intros Hb Hp. unfold PatchObjectWithJSON, ParseJSONViaRapidJSON. rewrite Hp. by apply patch_fields. Qed.

(** C8 The JSON library is what persisters and streams ask for, as far as numbers fit
    the fields they are kept in: the index line, entries and time stamps are read back,
    each is one line without control characters, an index line or a time stamp is read
    as a time stamp with an optional index, and a line that starts with a hash mark is
    not an index line. *)
Theorem json_implements_log_codec (survives : D → Prop) `{!RapidJSONLaws survives, !RapidJSONLines survives} t :
  type_ok Current t →
  (∀ i, idxts_fits i → parse_idxts (E := value t) (json_idxts (E := value t) i) = Some i ∧ parse_ts_optidx (json_idxts (E := value t) i) = Some (us i, Some (index i)) ∧ on_one_line (json_idxts (E := value t) i)) ∧
  (∀ e : value t, has_type survives False t e → parse_entry (json_entry e) = Some e ∧ on_one_line (json_entry e) ∧ nul ∉ json_entry e) ∧
  (∀ ts, - 2 ^ 63 ≤ ts < 2 ^ 63 → parse_ts_only (json_ts_only ts) = Some ts ∧ parse_ts_optidx (json_ts_only ts) = Some (ts, None) ∧ on_one_line (json_ts_only ts)) ∧
  ∀ s, parse_idxts (E := value t) ("#"%char :: s) = None.
Proof.
  intros Ht. destruct idxts_ok as [Hit Htt]. split_and!.
  - intros i Hi. pose proof (idxts_typed survives i Hi) as Hv. cbn [parse_idxts json_idxts json_log_codec parse_ts_optidx json_ts_codec].
    rewrite (try_parse_json survives), (try_parse_optidx survives) by done. cbn. rewrite N2Z.id. split_and!; [by destruct i|done|].
    by apply line_on_one_line, (json_line survives).
  - intros e He. cbn [parse_entry json_entry json_log_codec]. rewrite (try_parse_json survives) by done. pose proof (json_line survives t e Ht He) as Hl.
    split_and!; [done|by apply line_on_one_line|]. destruct Hl as [_ Hl]. intros Hin. eapply Forall_forall in Hin; [|exact Hl]. by vm_compute in Hin.
  - intros ts Hts. pose proof (ts_typed survives ts Hts) as Hv. cbn [parse_ts_only json_ts_only parse_ts_optidx json_ts_codec].
    rewrite (try_parse_json survives), (try_parse_optidx_ts survives) by done. split_and!; [done..|]. by apply line_on_one_line, (json_line survives).
  - intros s. cbn [parse_idxts json_log_codec]. unfold TryParseJSON, ParseJSON_char_into, ParseJSONViaRapidJSON.
    cbn [c_str]. rewrite bool_decide_false by done. by rewrite parse_hash.
Qed.

(** [ParseJSON] of a string into a destination reads the format [Current] whatever
    the format it is given: for the JSON of a variant in any other format it throws,
    while [ParseJSON] that returns an object gives the variant. *)
Theorem json_parse_into_ignores_format (survives : D → Prop) `{!RapidJSONLaws survives} J name cs (x : value (TVariant name cs)) dest :
  J ≠ Current → type_ok J (TVariant name cs) → has_type survives False (TVariant name cs) x →
  ParseJSON J (TVariant name cs) (JSON J (TVariant name cs) x) = Ok x ∧
  ∃ document, ParseJSON_into J (TVariant name cs) (JSON J (TVariant name cs) x) dest =
    Throw (JSONSchemaException (str "type id as value for an empty string") [] (Some document)).
Proof.
  intros HJ Ht Hx. split.
  - unfold ParseJSON, ParseJSON_char_into. rewrite (parse_written survives) by done. apply (deserialize_serialize (Format J) J) with (ok := survives); try done. by destruct J.
  - exists (inner (Serialize J (TVariant name cs) x)). unfold ParseJSON_into, ParseJSON_char_into. rewrite (parse_written survives) by done.
    destruct x as [x|]; [|done]. destruct Ht as (_ & Hcs & _). unfold_serialize. cbn [inner default from_option id].
    destruct (call_case (T := denote D) (λ c o, serialize_case J c (inner (Serialize J c o))) cs x) as (c & o & Hc & -> & _).
    rewrite Forall_forall in Hcs. destruct (Hcs c Hc) as (_ & (Hn & _) & _).
    unfold serialize_case. destruct J; [done|..]; cbn [variant_style_of]; unfold_deserialize; cbn [app]; unfold_load_variant; cbn [variant_style variant_style_of FindMember];
      try rewrite (bool_decide_false (CurrentTypeName c = [])) by done; find_member; try done. 
    by destruct (is_variant c || negb (IsEmptyCurrentStruct c)).
Qed.

(** In the F# format, a case that has no fields of its own is written without those of
    its bases, and read back as it is constructed. *)
Lemma fsharp_case_loses_base (survives : D → Prop) `{!RapidJSONLaws survives} custom_name name base argument (o : value (TStruct name base argument [])) :
  let c := TStruct name base argument [] in
  ParseJSON NewtonsoftFSharp (TVariant custom_name [c]) (JSON NewtonsoftFSharp (TVariant custom_name [c]) (Some (inl o))) = Ok (Some (inl (construct c))).
Proof.
  intros c. unfold ParseJSON, ParseJSON_char_into, ParseJSONViaRapidJSON, JSON, ResultingJSON. rewrite c_str_idempotent, (parse_accept survives) by done.
  assert (inner (Serialize NewtonsoftFSharp (TVariant custom_name [c]) (Some (inl o))) = JObject [(str "Case", JString name)]) as -> by done.
  unfold_deserialize. unfold_load_variant. cbn [variant_style variant_style_of FindMember]. find_member.
  cbn [load_case CurrentTypeName c]. unfold case_fsharp. cbn [FindMember IsEmptyCurrentStruct]. by find_member.
Qed.
End Properties.

(** C21 The checksum of names, computed with a table, is the one that divides by the
    polynomial bit by bit; the identifier of a type that is neither an array nor a
    tuple tells its kind. *)
Theorem type_ids_use_crc32 :
  (∀ s, Crc32.CRC32 s = Crc32.reference s) ∧
  ∀ t, match t with TArray _ _ | TTuple _ => True | _ => TypePrefix (CurrentTypeID t) = prefix_of t end.
Proof. split; [apply Crc32.crc32_reference|apply type_id_prefix]. Qed.

Module Witnesses.

(** ** A program: doubles that are integers, and types as the language constructs them *)

#[local] Instance Z_doubles : Doubles Z := { double_of_int := id; to_float := id }.

Fixpoint hfill {A} {F : A → Type} (f : ∀ a, F a) (l : list A) : hlist F l :=
  match l with [] => () | a :: l => (f a, hfill f l) end.

Fixpoint default_value (t : type) : denote Z t :=
  match t return denote Z t with
  | TBool => false
  | TUInt _ | TInt _ | TChar | TMicroseconds | TMilliseconds | TEnum _ _ _ => 0
  | TString => []
  | TFloat | TDouble => 0
  | TArray n t => replicate n (default_value t)
  | TVector _ | TSet _ | TMap _ _ => []
  | TPair a b => (default_value a, default_value b)
  | TTuple ts => hfill default_value ts
  | TOptional _ | TVariant _ _ => None
  | TStruct _ super _ fs =>
      (match super return match super with Some s => denote Z s | None => () end with Some s => default_value s | None => () end,
       hfill (λ f : bytes * type, default_value f.2) fs)
  end.

(** Numbers and strings are ordered. *)
Definition key_less (t : type) : denote Z t → denote Z t → bool :=
  match t return denote Z t → denote Z t → bool with
  | TUInt _ | TInt _ | TChar | TMicroseconds | TMilliseconds | TEnum _ _ _ => Z.ltb
  | TString => string_less
  | _ => λ _ _, false
  end.

#[local] Instance Z_objects : Objects Z := { construct := default_value; moved_from _ v := v; less := key_less }.

Lemma hfill_all {A} {F : A → Type} (P : ∀ a, F a → Prop) f l : Forall (λ a, P a (f a)) l → hforall P l (hfill f l).
Proof. induction 1 as [|a l Ha _ IH]; by repeat split. Qed.

Lemma default_value_typed t : has_type (λ _, True) True t (default_value t).
Proof.
  induction t as [| | | | | | | | |name s w|n t IH|t IH|t IH|a b IHa IHb|ts IH|k v IHk IHv|t IH|name cs IH|name super inner fs IHs _ IH]
    using type_induction; cbn [has_type default_value]; try done; try (by destruct w); try (by constructor); try (split; constructor).
  - by destruct s, w.
  - split; [apply length_replicate|]. by apply Forall_replicate.
  - by apply hfill_all.
  - split; [destruct super as [s|]; [by apply IHs|done]|]. by apply (hfill_all (F := λ f : bytes * type, denote Z f.2)).
Qed.

Lemma string_less_irreflexive s : string_less s s = false.
Proof. induction s as [|x s IH]; [done|]. cbn. by rewrite N.ltb_irrefl. Qed.

Lemma string_less_transitive a b c : string_less a b = true → string_less b c = true → string_less a c = true.
Proof.
  revert b c. induction a as [|x a IH]; intros [|y b] [|z c]; cbn; try done.
  destruct (N.ltb_spec (N_of_ascii x) (N_of_ascii y)), (N.ltb_spec (N_of_ascii y) (N_of_ascii x)), (N.ltb_spec (N_of_ascii y) (N_of_ascii z)),
    (N.ltb_spec (N_of_ascii z) (N_of_ascii y)), (N.ltb_spec (N_of_ascii x) (N_of_ascii z)), (N.ltb_spec (N_of_ascii z) (N_of_ascii x));
    try done; try lia. apply IH.
Qed.

Lemma Z_object_laws : ObjectLaws Z.
Proof.
  split; try done.
  - apply default_value_typed.
  - intros t a. destruct t; cbn; try done; try apply Z.ltb_irrefl. apply string_less_irreflexive.
  - intros t a b c. destruct t; cbn; try done; try (rewrite !Z.ltb_lt; lia). apply string_less_transitive.
Qed.

(** ** A library: documents as the digits of their number *)

Fixpoint to_tree (j : json Z) : gen_tree (Z + bytes) :=
  match j with
  | JNull => GenNode 0 []
  | JBool b => GenNode (if b then 2 else 1) []
  | JInt z => GenLeaf (inl z)
  | JDouble d => GenNode 3 [GenLeaf (inl d)]
  | JString s => GenLeaf (inr s)
  | JArray l => GenNode 4 (to_tree <$> l)
  | JObject ms => GenNode 5 ((λ m, GenNode 6 [GenLeaf (inr m.1); to_tree m.2]) <$> ms)
  end.

Fixpoint of_tree (t : gen_tree (Z + bytes)) : json Z :=
  match t with
  | GenLeaf (inl z) => JInt z
  | GenLeaf (inr s) => JString s
  | GenNode 1 _ => JBool false
  | GenNode 2 _ => JBool true
  | GenNode 3 [GenLeaf (inl d)] => JDouble d
  | GenNode 4 l => JArray (of_tree <$> l)
  | GenNode 5 l => JObject ((λ m, match m with GenNode _ [GenLeaf (inr n); t] => (n, of_tree t) | _ => ([], JNull) end) <$> l)
  | _ => JNull
  end.

Fixpoint of_to_tree (j : json Z) : of_tree (to_tree j) = j.
Proof.
  destruct j as [|[]|z|d|s|l|ms]; cbn; [reflexivity..| |]; f_equal.
  - induction l as [|j l IH]; [reflexivity|]. cbn. rewrite of_to_tree, IH. reflexivity.
  - induction ms as [|[n j] ms IH]; [reflexivity|]. cbn. rewrite of_to_tree, IH. reflexivity.
Qed.

Fixpoint digits (p : positive) : bytes := match p with xH => [] | xO p => "0"%char :: digits p | xI p => "1"%char :: digits p end.
Fixpoint of_digits (s : bytes) : positive := match s with [] => xH | c :: s => if bool_decide (c = "0"%char) then xO (of_digits s) else xI (of_digits s) end.

Lemma of_digits_c_str p : of_digits (c_str (digits p)) = p.
Proof. induction p as [p IH|p IH|]; [| |done]; cbn [digits c_str]; find_member; cbn [of_digits]; find_member; by rewrite IH. Qed.

#[local] Instance digits_library : RapidJSON Z := {
  Parse text := match text with "d"%char :: text => of_tree <$> decode (of_digits text) | _ => None end;
  Accept j := "d"%char :: digits (encode (to_tree j));
}.

Lemma digits_laws : RapidJSONLaws (λ _ : Z, True).
Proof.
  intros j _. cbn [Accept digits_library c_str]. rewrite bool_decide_false by done. cbn [Parse digits_library].
  rewrite of_digits_c_str, decode_encode. cbn. by rewrite of_to_tree.
Qed.

Lemma digits_lines : RapidJSONLines (λ _ : Z, True).
Proof.
  split; [|done]. intros j _. split; [done|]. apply Forall_cons. split; [done|]. generalize (encode (to_tree j)).
  intros p. induction p as [p IH|p IH|]; cbn [digits]; [by constructor..|constructor].
Qed.

(** ** Values *)

Definition Base : type := TStruct (str "Base") None None [(str "key", TString)].
Definition Post : type := TStruct (str "Post") (Some Base) None [(str "us", TMicroseconds); (str "tags", TSet TString); (str "score", TOptional (TInt W8))].
Definition Removed : type := TStruct (str "Removed") None None [].
Definition Event : type := TVariant (Some (str "Event")) [Post; Removed].

Definition post : denote Z Post := ((tt, (str "k", tt)), (5, ([str "a"; str "b"], (Some (-3), tt)))).

Lemma case_ok_decide J c : J ≠ NewtonsoftFSharp → is_struct c || is_variant c = true →
  bool_decide (CurrentTypeName c ≠ []) && bool_decide (CurrentTypeName c ≠ str "$") && bool_decide (nul ∉ CurrentTypeName c) = true → case_ok J c.
Proof. intros HJ Hc [[H1 H2]%andb_prop H3]%andb_prop. apply bool_decide_eq_true in H1, H2, H3. by split_and!. Qed.

Lemma event_ok J : J ≠ NewtonsoftFSharp → type_ok J Event.
Proof.
  intros HJ. cbn -[CurrentTypeName reflected_type_id].
  repeat match goal with |- _ ∧ _ => split | |- Forall _ _ => constructor end; try done; auto;
    try (by apply case_ok_decide); apply (bool_decide_unpack _); vm_compute; exact I.
Qed.

Lemma post_typed : has_type (λ _ : Z, True) False Post post.
Proof. cbn. repeat match goal with |- _ ∧ _ => split | |- Forall _ _ => constructor | |- keys_sorted _ _ => repeat constructor end; done || lia. Qed.

Lemma json_roundtrip_witness :
  ParseJSON Minimalistic Event (JSON JavaScript Event (Some (inl post))) = Ok (Some (inl post)) ∧
  PatchObjectWithJSON Minimalistic Event (Some (inr (inl (tt, tt)))) (JSON Current Event (Some (inl post))) = Ok (Some (inl post)).
Proof.
  pose proof digits_laws. split.
  - eapply (json_roundtrip (λ _, True) JavaScript Event (Some (inl post))); [by apply event_ok|exact post_typed|reflexivity].
  - eapply (json_roundtrip (λ _, True) Current Event (Some (inl post))); [by apply event_ok|exact post_typed|reflexivity].
Defined.

(** A number that is out of range is read modulo the width. *)
Lemma json_parsed_has_type_witness :
  ParseJSON Current (TUInt W8) (ResultingJSON (JInt 300)) = Ok 44 ∧ has_type (D := Z) (λ _, True) True (TUInt W8) 44 ∧
  has_type (D := Z) (λ _, True) True (TUInt W8) 44.
Proof.
  pose proof Z_object_laws. assert (ParseJSON Current (TUInt W8) (ResultingJSON (JInt 300)) = Ok 44) as Hp by (vm_compute; reflexivity). split; [exact Hp|].
  split; [apply (json_parsed_has_type Current (TUInt W8) (ResultingJSON (JInt 300))); exact Hp|].
  apply (proj2 (json_parsed_has_type Current (TUInt W8) (ResultingJSON (JInt 300)) 44) 7); [cbn; lia|vm_compute; reflexivity].
Defined.

(** Without values for them, the time stays and the tags are gone. *)
Lemma json_patch_by_fields_witness :
  PatchObjectWithJSON Current Post post (ResultingJSON (JObject [(str "key", JString (str "new")); (str "score", JInt 4)])) =
    Ok ((tt, (str "new", tt)), (5, ([], (Some 4, tt)))).
Proof.
  apply (json_patch_by_fields Current Post post _ _ [(str "key", JString (str "new")); (str "score", JInt 4)]); [reflexivity|vm_compute; reflexivity|].
  vm_compute. repeat split.
Defined.

Lemma json_implements_log_codec_witness :
  parse_ts_optidx (json_idxts (E := denote Z Event) (mkIdxTs 7 8)) = Some (8, Some 7%N) ∧
  parse_entry (E := denote Z Event) (json_entry (E := denote Z Event) (Some (inl post))) = Some (Some (inl post)).
Proof.
  pose proof digits_laws. pose proof digits_lines.
  destruct (json_implements_log_codec (λ _, True) Event (event_ok Current ltac:(discriminate))) as (Hi & He & _).
  split; [by apply (Hi (mkIdxTs 7 8))|]. apply (He (Some (inl post))). exact post_typed.
Defined.

Lemma json_parse_into_ignores_format_witness : ∃ document,
  ParseJSON_into Minimalistic Event (JSON Minimalistic Event (Some (inl post))) None =
    Throw (JSONSchemaException (str "type id as value for an empty string") [] (Some document)).
Proof.
  pose proof digits_laws. apply (json_parse_into_ignores_format (λ _, True) Minimalistic (Some (str "Event")) [Post; Removed] (Some (inl post)) None);
    [discriminate|by apply event_ok|exact post_typed].
Defined.
End Witnesses.
